(* ===== verification/_CoqProject ===== *)
-Q . S2P
Prelude.v
RustStr.v
ByteStr.v
XxHash.v
Scan.v
LineEdits.v
Rejection.v
SnapshotStore.v
Syntax.v
SyntaxRender.v
Address.v
Recovery.v
Registers.v
Region.v
FileSys.v
SourceWrite.v
SourceWriteSpec.v
ReadCapture.v
ReadSpec.v
Repair.v
Apply.v
Transaction.v
ApplySpec.v
PlanSpec.v
TransactionSpec.v
TransactionRefine.v
TransactionPlanSpec.v
PatchParser.v
PatchGrammar.v
PatchMatcher.v
Reflow.v
ReflowSpec.v
FuzzyMatch.v
FuzzySpec.v
Reindent.v
EditMatch.v
EditMatchSpec.v
BatchEdit.v
BatchSpec.v
SingleFlight.v
SingleFlightSpec.v
JobCancel.v
JobCancelSpec.v
ClassQueues.v
Scheduler.v
SchedulerSpec.v
SchedulerInv.v
SchedulerSafety.v
SchedulerDispatch.v
PatchSeek.v
PatchApply.v
UnixPath.v
BashParser.v
BashGrammar.v
BashHeredoc.v
BashRules.v
BashRulesSpec.v
ReadText.v
ReadTextSpec.v
BashReads.v
