(* ===== verification/Prelude.v ===== *)
(** * Verified core of AFT

    AFT is a tool server through which coding agents read files, edit them and run commands.
    Its edit engines decide, from text written by a model, which bytes of a user's file
    change:

    - _hashline_ ([crates/aft/src/hashline/]): the agent reads a file and is shown numbered
      rows with a four-digit tag; it then sends a patch whose sections name a path and the
      tag of the read, and whose operations ([PUT], [CUT], [REM], [MV]) address rows, gaps
      and blocks of that read.  The engine refuses every address that was not shown, that no
      longer holds the rows that were shown, or that is ambiguous.
    - _apply_patch_ ([crates/aft/src/patch/]): the agent sends hunks of old and new lines
      without line numbers; the engine finds each hunk in the file by a sequence of ever
      more lenient searches and splices the new lines in.
    - _find and replace_ and _batch_ ([commands/edit_match.rs], [commands/batch.rs],
      [fuzzy_match.rs]): the agent names a text to replace; it is found exactly or by looser
      and looser comparisons of lines.

    Around them, the executor ([executor/mod.rs]) decides which requests of a project may run
    at the same time, and the bash rewriter ([bash_rewrite/]) answers simple shell commands
    with the program's own tools.

    This library is a shallow embedding of these parts with the theorems that make them
    correct.  Everything is executable.

    ** How the program is put together, and which file models what

    Data flows through the hashline engine in this order:

<<
     file bytes --Scan--> snapshot --ReadCapture--> rows shown + tag
                                        |
                                  SnapshotStore: resident evidence
                                                                    |
     patch text --Syntax--> sections --Address--> resolved sections |
                                                        |           |
               current file --Scan--> baseline --Address.verify / Recovery
                                                        |
        Apply: lower -> coalesce -> Repair -> materialize -> join bytes
                  with Registers (clipboard) and Region (rows to show again)
                                                        |
        Transaction: plan -> preview, or per step: journal, recheck, durable write
                 (SourceWrite over FileSys), unlink of moved sources, new tag
                                                        |
                                               register commit
>>

    - [RustStr] models what the sources use of [str], [char], [usize::from_str], number
      formatting and UTF-8.  A string is the list of its scalar values, a byte vector the
      list of its bytes; UTF-8 is written out in both directions.
    - [XxHash]: [hashline/oracle/xxhash32.rs].  32-bit words are [N] with the wrap-around of
      [wrapping_add], [wrapping_mul] and [rotate_left] written out.
    - [Scan]: [hashline/scan/mod.rs].  The state of [ForwardScanner] is a record, [push] and
      [finish] its operations; the descriptor-based capture takes the answers of the
      operating system as arguments.
    - [SnapshotStore]: [hashline/snapshot/mod.rs], the store.  [publish], [lookup],
      [lookup_state], eviction, renames and history; reachable stores are an inductive
      relation over these operations.
    - [ReadCapture]: the reading half of the same file: selections, rendering with
      truncation and elision, tagged and tagless captures and the snapshot published after
      an edit; [ReadSpec] has its theorems.
    - [Rejection], [Syntax], [Address]: [hashline/syntax/mod.rs], cut in three along its
      error values, the parser and the resolution of addresses.  [SyntaxRender] has a printer
      for the patch language, used to state the round trip of the parser.
    - [Recovery]: [hashline/recovery/mod.rs].
    - [LineEdits], [Registers], [Region], [Repair], [Apply]: [hashline/apply/edits.rs],
      [registers.rs], [region.rs], [repair.rs] and [mod.rs].  [ApplySpec] and [PlanSpec]
      state what the composed engine does to a file and what a plan guarantees.
    - [FileSys]: [std::fs] as the writers use it: names, inodes, attributes, and calls that
      may fail, leave part of a write behind, or find the disk changed by others; the class
      [Kernel] is the environment, and a world remembers every disk it went through.
    - [SourceWrite]: the shared source writer of [edit.rs] on Linux (replacement by rename or
      in-place rewrite with a recovery copy); [SourceWriteSpec] has a small program logic for
      it and its theorems.
    - [Transaction]: [hashline/transaction/mod.rs].  The undo journal is the class [Journal]
      with the laws [JournalLaws]; [TransactionSpec] (failures, crashes and accounting),
      [TransactionRefine] (refinement of the abstract effect of a plan) and
      [TransactionPlanSpec] (planning, and planning composed with execution).
    - [PatchMatcher], [Reflow], [PatchSeek]: [patch/matcher.rs] (the line search, the
      whitespace-reflow search, the tiers); [ReflowSpec] proves the reflow search exact.
    - [PatchParser]: [patch/parser.rs], with its grammar, printer and proofs in
      [PatchGrammar]; [PatchApply]: [patch/apply.rs].

    The other editing commands:

    - [ByteStr]: byte offsets into strings and the lines of a string.
    - [FuzzyMatch], [Reindent]: [fuzzy_match.rs], the passes of the search and the
      re-indentation of what replaces a loose match; [FuzzySpec] has its theorems.
    - [EditMatch]: the byte-range primitives of [edit.rs] and the single-file decision of
      [commands/edit_match.rs] ([EditMatchSpec]); [BatchEdit]: [commands/batch.rs]
      ([BatchSpec]).

    The executor:

    - [SingleFlight]: [executor/single_flight.rs], calls as threads over a mutex and a
      condition variable ([SingleFlightSpec]); [JobCancel]: the cancellation token, every
      access to its atomic cell a step ([JobCancelSpec]).
    - [ClassQueues]: the queues of one class of one project.  [Scheduler]: the scheduler
      thread, its admission passes and completions, the workers, submission, cancellation and
      removal of actors; a history is a list of atomic steps.  [SchedulerSpec] gives the
      operations on an actor their effect on lists, [SchedulerInv] the invariant of all
      histories, [SchedulerSafety] and [SchedulerDispatch] the theorems.

    Commands answered in place of the shell:

    - [UnixPath]: [std::path] on Unix.  [BashParser]: [bash_rewrite/parser.rs].
      [BashGrammar] is the grammar of literal commands and [BashHeredoc] that of heredocs,
      with the proof that the parser is exact.
    - [BashRules]: [bash_rewrite/rules.rs], [dispatch.rs] and [mod.rs]: the nine rules, the
      request each hands to a tool, dispatch and the route records ([BashRulesSpec]).
    - [ReadText]: the text half of [commands/read.rs]: windows, whole reads and streamed
      reads ([ReadTextSpec]).  [BashReads] composes rules, reads and snapshots.

    ** How Rust is represented

    - [Result] is [result], a sum with monadic notation; [Option] is [option].
    - A panic ([expect], [unreachable!], an index or slice out of range) is a value:
      [None] in [SnapshotStore], [Panicked] in [Apply], [None] of the splice in
      [PatchApply].  Theorems state where it cannot occur.
    - [usize] values that count lines, bytes or entries held in memory are [nat] or [N]; they
      are bounded by the memory of the process, so that additions do not wrap.  Where the
      source parses a number its 64-bit bound is part of the parser ([RustStr]).  Hash
      arithmetic, the register bounds and the store's byte budget are kept at their width
      or their limit.
    - [HashMap] is [gmap]; [VecDeque] and [Vec] are lists, because their order matters.  The
      order in which the scheduler iterates over its actors only breaks ties.
    - Threads are interleavings of atomic steps: a critical section, or one access to an
      atomic cell.  Closures, reply channels and cancellation tokens of jobs are numbers, what
      a closure answers is an input; one dispatch pass reads the clock once.
    - A JSON object is a record with an optional field per key the code looks at.  During one
      rewrite decision the file system answers the same question the same way.
    - A file remembers whether its bytes were synced since they last changed; a loss of power
      may change the bytes of every other file ([after_crash]).  Directory entries are taken
      as durable: syncing a directory is a call that may fail and has no other effect.
    - A buffered reader is the list of what its reads answer, so theorems about it hold for
      buffers of any sizes.
    - Code outside the repository's sources is a parameter: [fs::canonicalize], the blake3
      content fingerprint, the answers of [open], [stat] and [read], the block resolver
      behind [@] addresses, the [regex] match of a heredoc opening (class [HeredocPattern]),
      the regex and glob crates, the binary-content inspector and the syntax trees used by
      re-indentation.  The theorems hold for every value of these, or state what they
      need of them (injectivity is never assumed of the fingerprint).

    ** What the theorems show

    - Edits: a [PUT] over a span or into a gap and a [CUT] change exactly the addressed
      rows, at the level of lines ([put_span_spec], [put_gap_spec], [cut_span_spec]) and of
      bytes ([put_span_bytes], [rejoin_roundtrip]).  The one-pass materializer equals the
      splice-per-edit oracle kept in the source's tests ([materialize_matches_splice_oracle]).
      The repair layers change rows only as they report.
    - Addresses: what is eligible is exactly what was shown ([check_eligibility_exact]); an
      address verified exact holds what was read ([verify_exact_sound]); a drifted span moves
      only to a unique verbatim occurrence ([verify_and_recover_span]).
    - Plans: a successful plan has verified every section against one baseline per path
      ([plan_apply_sound], and with moves and undo records [plan_transaction_sound]); the
      simulated Phase 2 stops at the first failure ([phase2_stops_and_gates]).
    - Writes: a source write installs exactly the new bytes, synced, with the old access
      metadata and no leftover name ([source_write_exact]); when it fails the old bytes are
      in place or the error names the synced copy that holds them, unless no copy could be
      made ([failed_source_write_keeps_file]); and a loss of power at any moment before a
      failure leaves the old or the new bytes or a copy of the old ones, whatever becomes of
      bytes that were not synced ([crash_during_source_write]).
    - Transactions: a fresh request is carried out ([fresh_request_carried_out]); an
      undisturbed execution refines the abstract plan ([transaction_refines_plan]); under any
      failures a move loses no bytes ([mv_never_loses_bytes]), a changed file is not written
      ([drifted_step_writes_nothing]) and the envelope is truthful
      ([transaction_accounting]).
    - Reads: a tag is granted exactly to taggable sources, the rows shown are the selected
      ones that fit, and what is shown is what is published and what can be edited
      ([tagged_read_exact], [read_then_editable]).
    - Evidence: the scanner does not depend on how bytes arrive and loses nothing
      ([scan_chunk_independent], [scan_lossless]); a reachable store keeps its bounds and
      cannot panic ([store_residency_bounded]); lookups never cross a tag collision
      ([lookup_collision_safe]); the digest loop is xxHash32 ([xxhash32_matches_reference]).
    - The patch language: the parser reads every printed patch back and accepts only
      well-formed ones ([parse_render_roundtrip], [parse_hashline_patch_wf]).
    - [apply_patch]: the linear searches equal the quadratic definitions of their tests
      ([try_match_equals_scan], [find_reflow_match_exact]), the tiers are sound and refuse
      ambiguity ([seek_tiers_sound]), the envelope parser accepts exactly its grammar and
      reads printed envelopes back ([parse_patch_exact], [parse_patch_render]), and an update replaces exactly the windows found
      behind their contexts, from cursor to cursor, or says which chunk has no place and why
      ([apply_update_chunks_sound]).

    - Find and replace: the fuzzy search answers exactly the matches of its first accepting
      pass ([find_all_fuzzy_exact]); an edit or a batch replaces exactly what was matched, an
      edit by the re-indented replacement text, and panics on no text with a visible last line
      ([edit_match_safe], [batch_text_safe]); a
      batch is its edits applied one by one ([build_batch_output_in_turn]); a line range
      covers exactly its lines ([resolve_line_range_exact]).
    - The executor: the queues refine a list ([queue_operations_refine]); writers and
      exclusive lanes exclude each other ([lanes_exclusive]); every job is answered at most
      once and none is lost ([every_job_answered_once]); the debug assertions of the
      scheduler hold in every reachable state ([scheduler_books_balance]); a turn ends and
      leaves nothing it could run ([turn_leaves_nothing_runnable]); the single-flight cache
      terminates and never answers stale values ([single_flight_terminates],
      [single_flight_fresh]); a job is cancelled or committed, never both
      ([cancel_excludes_commit]).
    - The shell: the command parser accepts exactly its grammar ([parse_exact]); no two rules
      accept the same command ([rule_order_immaterial]); an accepted command stays in the
      project and its tool gets the checked paths ([rewrites_stay_in_project]); a rewritten read selects exactly the lines the
      command prints ([rewritten_read_prints_the_same]); streaming a range equals rendering it
      from the whole file ([streamed_range_is_whole_range]); the route records stay bounded
      ([route_records_bounded]).

    ** Fuel

    Loops whose recursion is not structural take fuel.  Each is called with a bound that the
    file proves sufficient, so no theorem is conditional on it: the Knuth-Morris-Pratt
    fallbacks of [PatchMatcher] and [Reflow] follow a strictly decreasing table, so the
    matched length (plus one) is enough; the cursors of [Reflow] and the two repair loops
    move forward through a list whose length is the fuel, as do the loops of [PatchParser];
    the eviction loop of
    [SnapshotStore] removes one version per round and is given the number of versions.  The
    walk of a syntax tree is given its number of nodes plus one, the dispatch loop of
    [Scheduler] one round more than there are idle workers
    ([turn_leaves_nothing_runnable] proves that it ends), the streaming loop of [ReadText] one
    turn more than there are bytes, and [parse_top_level] one more than there are characters
    ([top_level_fuel]).  The directory walk of [BashRules] has a depth of one more than the
    number of entries at which the code itself gives up.

    ** What the code does differently from its comments

    [echo_repair_ignores_sibling_cut], [end_gap_follows_file_growth],
    [gap_before_first_line_rejected], [anonymous_register_survives_commit],
    [indented_end_marker_becomes_context], [elision_notice_covers_shown_row],
    [synced_write_reported_failed], [colliding_moves_lose_first],
    [appeared_destination_overwritten], [find_all_fuzzy_splits_character],
    [batch_order_matters], [two_builds_in_flight], [removed_root_runs_two_writers],
    [newline_joins_commands], [background_operator_in_target], [empty_word_dropped],
    [sed_offset_read_as_line], [cat_of_many_lines_is_cut], [faithful_read_exceeds_budget] and
    [stray_escape_not_a_conflict] each prove, on a concrete input or in general, a
    behaviour that a comment of the source denies or that the code does not intend.

    ** What is not modelled

    Of the modelled files: the nearest-miss diagnostics of [patch/matcher.rs],
    [patch/apply.rs] and [fuzzy_match.rs] (they only build error text); of [edit.rs], the
    macOS and Windows variants of the writer and the syntax checks after an edit; of
    [edit_match.rs] and [batch.rs], globs, file access, formatting and responses; of
    [executor/mod.rs], snapshots and liveness diagnostics, the probing variants of the
    operations and the thread-local scopes; of [bash_rewrite/], the footers of responses, the
    route sidecar and the differential test harness; of [commands/read.rs], directories,
    images, documents, git revisions and GitHub reads.  Of [hashline/]: [integration]
    (request decoding and response text).  Outside them: backups and checkpoints (the journal
    of a transaction is an interface), shell permissions and background tasks, output
    compression, the search, semantic and symbol indexes, the call graph, tree-sitter parsing,
    the LSP client, configuration, databases and the transport.  These are separate
    subsystems, or glue around I/O and third-party libraries. *)

From Stdlib Require Export Lia ZifyN ZifyNat ZifyBool.
From stdpp Require Export sorting strings pretty base numbers list list_numbers gmap.

(** ** Rust's [Result] as an error monad *)

(** [Result<A, E>]: the value of a fallible operation. *)
Inductive result (E A : Type) : Type :=
  | Ok (a : A)
  | Err (e : E).
Arguments Ok {E A} a.
Arguments Err {E A} e.

#[export] Instance result_eq_dec {E A} `{EqDecision E} `{EqDecision A} :
  EqDecision (result E A).
Proof. solve_decision. Defined.

#[export] Instance result_ret {E} : MRet (result E) := λ A a, Ok a.
#[export] Instance result_bind {E} : MBind (result E) := λ A B f r,
  match r with Ok a => f a | Err e => Err e end.
#[export] Instance result_fmap {E} : FMap (result E) := λ A B f r,
  match r with Ok a => Ok (f a) | Err e => Err e end.

(** [Option::ok_or_else]. *)
Definition ok_or {E A} (e : E) (o : option A) : result E A :=
  match o with Some a => Ok a | None => Err e end.

(** [Result::map_err]. *)
Definition map_err {E F A} (f : E → F) (r : result E A) : result F A :=
  match r with Ok a => Ok a | Err e => Err (f e) end.

(** [Result::ok]. *)
Definition result_ok {E A} (r : result E A) : option A :=
  match r with Ok a => Some a | Err _ => None end.

(** [Result::is_err] as a boolean. *)
Definition is_err {E A} (r : result E A) : bool :=
  match r with Ok _ => false | Err _ => true end.

Lemma bind_Ok {E A B} (r : result E A) (f : A → result E B) b :
  (r ≫= f) = Ok b ↔ ∃ a, r = Ok a ∧ f a = Ok b.
Proof.
  unfold mbind, result_bind, fmap, result_fmap; destruct r as [a|e]; split.
  - intros H; exists a; done.
  - intros (? & [= <-] & ?); done.
  - done.
  - intros (? & ? & ?); done.
Qed.

Lemma bind_Err {E A B} (r : result E A) (f : A → result E B) e :
  (r ≫= f) = Err e ↔ r = Err e ∨ ∃ a, r = Ok a ∧ f a = Err e.
Proof.
  unfold mbind, result_bind; destruct r as [a|e']; split.
  - intros H; right; exists a; done.
  - intros [?|(? & [= <-] & ?)]; done.
  - intros H; left; by injection H as ->.
  - intros [H|(? & ? & ?)]; [by injection H as ->|done].
Qed.

Lemma fmap_Ok {E A B} (r : result E A) (f : A → B) b :
  (f <$> r) = Ok b ↔ ∃ a, r = Ok a ∧ f a = b.
Proof.
  unfold mbind, result_bind, fmap, result_fmap; destruct r as [a|e]; split.
  - intros [= <-]; exists a; done.
  - intros (? & [= <-] & <-); done.
  - done.
  - intros (? & ? & ?); done.
Qed.

Lemma mapM_Ok_length {E A B} (f : A → result E B) l k :
  mapM f l = Ok k → length k = length l.
Proof.
  revert k; induction l as [|x l IH]; intros k; simpl.
  - intros [= <-]; done.
  - intros (y & _ & (k' & Hk & [= <-])%bind_Ok)%bind_Ok; simpl; f_equal; auto.
Qed.

Lemma mapM_Ok_app {E A B} (f : A → result E B) l1 l2 k :
  mapM f (l1 ++ l2) = Ok k → ∃ k1 k2, mapM f l1 = Ok k1 ∧ mapM f l2 = Ok k2 ∧ k = k1 ++ k2.
Proof.
  revert k. induction l1 as [|x l1 IH]; intros k H; [by exists [], k|].
  simpl in H. apply bind_Ok in H as (y & Hy & (ys & Hys & [= <-])%bind_Ok).
  apply IH in Hys as (k1 & k2 & H1 & H2 & ->). exists (y :: k1), k2. simpl.
  by rewrite Hy, H1.
Qed.

Lemma mapM_Ok_take_drop {E A B} (f : A → result E B) l k n :
  mapM f l = Ok k → mapM f (take n l) = Ok (take n k) ∧ mapM f (drop n l) = Ok (drop n k).
Proof.
  rewrite <-(take_drop n l) at 1. intros (k1 & k2 & H1 & H2 & ->)%mapM_Ok_app. rewrite H1, H2.
  apply mapM_Ok_length in H1, H2. rewrite length_take in H1. rewrite length_drop in H2.
  destruct (decide (n ≤ length l)).
  - by rewrite take_app_length', drop_app_length' by lia.
  - assert (k2 = []) as -> by (apply length_zero_iff_nil; lia).
    by rewrite app_nil_r, take_ge, drop_ge by lia.
Qed.

Lemma mapM_Ok_lookup {E A B} (f : A → result E B) l k i x :
  mapM f l = Ok k → l !! i = Some x → ∃ y, k !! i = Some y ∧ f x = Ok y.
Proof.
  revert k i; induction l as [|z l IH]; intros k i; simpl; [done|].
  intros (y & Hy & (k' & Hk & [= <-])%bind_Ok)%bind_Ok.
  destruct i as [|i]; simpl; [intros [= <-]; eauto|intros; eauto].
Qed.

Lemma mapM_Ok_lookup_r {E A B} (f : A → result E B) l k i y :
  mapM f l = Ok k → k !! i = Some y → ∃ x, l !! i = Some x ∧ f x = Ok y.
Proof.
  intros H Hy. destruct (lookup_lt_is_Some_2 l i) as [x Hx].
  { rewrite <-(mapM_Ok_length _ _ _ H). by apply lookup_lt_Some in Hy. }
  exists x. split; [done|]. destruct (mapM_Ok_lookup _ _ _ _ _ H Hx) as (y' & Hy' & Hf). congruence.
Qed.

(** Invert hypotheses about monadic results. *)
Ltac inv_result :=
  repeat match goal with
  | H : Ok _ = Ok _ |- _ => injection H as H; simplify_eq
  | H : Err _ = Err _ |- _ => injection H as H; simplify_eq
  | H : Ok _ = Err _ |- _ => discriminate H
  | H : Err _ = Ok _ |- _ => discriminate H
  | H : mret _ = Ok _ |- _ => injection H as H; simplify_eq
  | H : mbind _ _ = Ok _ |- _ => apply bind_Ok in H as (? & ? & ?)
  | H : fmap _ _ = Ok _ |- _ => apply fmap_Ok in H as (? & ? & ?)
  end.

(** ** Machine-width unsigned integers *)

(** [usize::MAX] and [u64::MAX] on the 64-bit targets the program ships for. *)
Definition usize_max : N := 18446744073709551615.

(** [saturating_add] at 64 bits; [saturating_sub] is [N.sub] (resp. [Nat.sub]),
    which is already truncated at zero. *)
Definition sat_add64 (a b : N) : N := N.min (a + b) usize_max.

(** ** Iterators over lists *)

(** [Iterator::position]. *)
Fixpoint position {A} (p : A → bool) (l : list A) : option nat :=
  match l with
  | [] => None
  | x :: l => if p x then Some 0 else S <$> position p l
  end.

(** [Iterator::rposition] on an exact-size iterator. *)
Fixpoint rposition {A} (p : A → bool) (l : list A) : option nat :=
  match l with
  | [] => None
  | x :: l =>
      match rposition p l with
      | Some i => Some (S i)
      | None => if p x then Some 0 else None
      end
  end.

(** The inclusive range [a..=b]. *)
Definition range_incl (a b : nat) : list nat := seq a (S b - a).

Lemma elem_of_range_incl a b i : i ∈ range_incl a b ↔ a ≤ i ≤ b.
Proof. unfold range_incl. rewrite elem_of_seq. lia. Qed.

Lemma length_range_incl a b : length (range_incl a b) = S b - a.
Proof. unfold range_incl. by rewrite length_seq. Qed.

Lemma range_incl_nil a b : b < a → range_incl a b = [].
Proof. intros. unfold range_incl. by replace (S b - a) with 0 by lia. Qed.

Lemma range_incl_cons a b : a ≤ b → range_incl a b = a :: range_incl (S a) b.
Proof.
  intros. unfold range_incl. replace (S b - a) with (S (b - a)) by lia. done.
Qed.

Lemma range_incl_snoc a b : a ≤ S b → range_incl a (S b) = range_incl a b ++ [S b].
Proof.
  intros. unfold range_incl.
  replace (S (S b) - a) with (S (S b - a)) by lia.
  rewrite seq_S. repeat f_equal; lia.
Qed.

Lemma range_incl_lookup a b i : i < S b - a → range_incl a b !! i = Some (a + i).
Proof. intros. unfold range_incl. by apply lookup_seq_lt. Qed.

Lemma existsb_elem_of {A} (p : A → bool) l :
  existsb p l = true ↔ ∃ x, x ∈ l ∧ p x = true.
Proof.
  rewrite existsb_exists. by setoid_rewrite list_elem_of_In.
Qed.

Lemma existsb_false_elem_of {A} (p : A → bool) l :
  existsb p l = false ↔ ∀ x, x ∈ l → p x = false.
Proof.
  split.
  - intros H x Hx. destruct (p x) eqn:E; [|done].
    assert (existsb p l = true) by (apply existsb_elem_of; eauto). congruence.
  - intros H. destruct (existsb p l) eqn:E; [|done].
    apply existsb_elem_of in E as (x & Hx & Hp). rewrite (H x Hx) in Hp. done.
Qed.

Lemma forallb_elem_of {A} (p : A → bool) l :
  forallb p l = true ↔ ∀ x, x ∈ l → p x = true.
Proof. rewrite forallb_forall. by setoid_rewrite list_elem_of_In. Qed.

Lemma position_Some {A} (p : A → bool) l i :
  position p l = Some i ↔
  ∃ x, l !! i = Some x ∧ p x = true ∧ ∀ j y, j < i → l !! j = Some y → p y = false.
Proof.
  revert i; induction l as [|x l IH]; intros i; simpl.
  - split; [done|]. intros (?&?&?); done.
  - destruct (p x) eqn:Hp.
    + split.
      * intros [= <-]. exists x. split_and!; [done..|]. intros; lia.
      * intros (y & Hy & Hpy & Hmin). destruct i as [|i]; [done|].
        specialize (Hmin 0 x ltac:(lia) eq_refl). congruence.
    + split.
      * intros (j & Hj & ->)%fmap_Some. apply IH in Hj as (y & Hy & Hpy & Hmin).
        exists y. split_and!; [done..|]. intros [|k] z ? Hz; simpl in *; [congruence|].
        eapply Hmin; [|done]. lia.
      * intros (y & Hy & Hpy & Hmin). destruct i as [|i]; simpl in *; [congruence|].
        apply fmap_Some. exists i. split; [|done]. apply IH. exists y.
        split_and!; [done..|]. intros j z ??. apply (Hmin (S j) z); [lia|done].
Qed.

Lemma position_None {A} (p : A → bool) l :
  position p l = None ↔ ∀ x, x ∈ l → p x = false.
Proof.
  induction l as [|x l IH]; simpl.
  - split; [|done]. intros _ x Hx. by apply not_elem_of_nil in Hx.
  - destruct (p x) eqn:Hp.
    + split; [done|]. intros H. rewrite (H x) in Hp; [done|by left].
    + rewrite fmap_None, IH. split.
      * intros H y [->|Hy]%elem_of_cons; auto.
      * intros H y Hy. apply H. by right.
Qed.

(** ** Ordered maps

    A [BTreeMap] is a [gmap] together with its iteration order: ascending keys. *)

(** Keys of a [BTreeMap<usize, V>] in iteration order. *)
Definition btree_keys {V} (m : gmap nat V) : list nat :=
  merge_sort (≤) (elements (dom m)).

(** Elements of a [BTreeSet<usize>] in iteration order. *)
Definition btree_elems (s : gset nat) : list nat := merge_sort (≤) (elements s).

Lemma elem_of_btree_elems (s : gset nat) i : i ∈ btree_elems s ↔ i ∈ s.
Proof.
  unfold btree_elems. rewrite merge_sort_Permutation. apply elem_of_elements.
Qed.

Lemma btree_elems_sorted (s : gset nat) : StronglySorted (≤) (btree_elems s).
Proof. apply (StronglySorted_merge_sort (≤)). Qed.

Lemma elem_of_btree_keys {V} (m : gmap nat V) i : i ∈ btree_keys m ↔ is_Some (m !! i).
Proof.
  unfold btree_keys. rewrite merge_sort_Permutation, elem_of_elements. apply elem_of_dom.
Qed.

Lemma StronglySorted_filter {A} (R : A → A → Prop) (P : A → Prop) `{∀ x, Decision (P x)} l :
  StronglySorted R l → StronglySorted R (filter P l).
Proof.
  induction 1 as [|x l _ IH Hx]; [constructor|]. rewrite filter_cons. case_decide; [|done].
  constructor; [done|]. rewrite Forall_forall in *. intros y [_ Hy]%list_elem_of_filter. auto.
Qed.

Lemma filter_ext_elem {A} (P Q : A → Prop) `{∀ x, Decision (P x)} `{∀ x, Decision (Q x)} (l : list A) :
  (∀ x, x ∈ l → P x ↔ Q x) → filter P l = filter Q l.
Proof.
  intros Hl. induction l as [|x l IH]; [done|]. rewrite !filter_cons.
  rewrite IH by (intros; apply Hl; by right). specialize (Hl x ltac:(by left)).
  repeat case_decide; tauto.
Qed.

Lemma StronglySorted_snoc_elem {A} (R : A → A → Prop) l z x :
  StronglySorted R (l ++ [z]) → x ∈ l → R x z.
Proof.
  induction l as [|y l IH]; simpl; intros Hs Hx; [by apply not_elem_of_nil in Hx|].
  inversion Hs as [|? ? Hs' Hy]; subst. apply elem_of_cons in Hx as [->|Hx]; [|auto].
  rewrite Forall_forall in Hy. apply Hy, elem_of_app. right. by left.
Qed.

Lemma StronglySorted_seq a n : StronglySorted (≤) (seq a n).
Proof.
  revert a; induction n as [|n IH]; intros a; simpl; constructor; [apply IH|].
  apply Forall_forall. intros x Hx%elem_of_seq. lia.
Qed.

(** Sorted keys are the present indices of any range that covers them. *)
Lemma btree_keys_filter {V} (m : gmap nat V) bound :
  (∀ k, is_Some (m !! k) → k < bound) →
  btree_keys m = filter (λ k, is_Some (m !! k)) (seq 0 bound).
Proof.
  intros Hb. apply (StronglySorted_unique (≤)).
  - apply (StronglySorted_merge_sort (≤)).
  - apply StronglySorted_filter, StronglySorted_seq.
  - apply NoDup_Permutation.
    + unfold btree_keys. rewrite merge_sort_Permutation. apply NoDup_elements.
    + apply NoDup_filter, NoDup_seq.
    + intros k. rewrite elem_of_btree_keys, list_elem_of_filter, elem_of_seq.
      split; [|tauto]. intros Hk. split; [done|]. apply Hb in Hk. lia.
Qed.

(** ** Weighted sums: the measures of the concurrent components *)

Definition total {A} (f : A → nat) (l : list A) : nat := list_sum (f <$> l).

Lemma total_cons {A} (f : A → nat) x l : total f (x :: l) = f x + total f l.
Proof. done. Qed.

Lemma total_insert {A} (f : A → nat) l i x y :
  l !! i = Some x → total f (<[i := y]> l) + f x = total f l + f y.
Proof.
  revert i. induction l as [|z l IH]; intros [|i] Hi; simplify_eq/=; rewrite !total_cons; [lia|].
  specialize (IH i Hi). lia.
Qed.

Lemma total_le {A} (f g : A → nat) n l :
  (∀ x, f x ≤ g x + n) → total f l ≤ total g l + n * length l.
Proof.
  intros Hle. induction l as [|x l IH]; [unfold total; simpl; lia|]. rewrite !total_cons, length_cons. specialize (Hle x). nia.
Qed.

Lemma total_fmap {A B} (f : B → nat) (g : A → nat) h l :
  (∀ x, f (h x) ≤ g x) → total f (h <$> l) ≤ total g l.
Proof.
  intros Hle. induction l as [|x l IH]; [done|]. rewrite fmap_cons, !total_cons. specialize (Hle x). lia.
Qed.

(** ** Automation shared by the components *)

Create HintDb aft.
Create Rewrite HintDb aft_len.

#[export] Hint Rewrite @length_app @length_take @length_drop @length_map @length_fmap
  @length_seq @length_replicate @length_range_incl : aft_len.

(** Normalise list lengths, then decide the arithmetic. *)
Ltac len := simpl in *; autorewrite with aft_len in *; simpl in *; try lia.

(** Split the conditionals of an executable definition. *)
Ltac split_cases :=
  repeat match goal with
  | H : context [decide _] |- _ => case_decide; simplify_eq
  | |- context [decide _] => case_decide; simplify_eq
  | H : context [match ?x with _ => _ end] |- _ => destruct x eqn:?; simplify_eq
  end.

(** Close a decidable goal by evaluating its decision procedure. *)
Ltac by_compute := apply (bool_decide_unpack _); vm_compute; exact I.
