(* ===== verification/RustStr.v ===== *)
(** * Rust strings, as far as the edit engines use them

    A [String] (or [&str]) is the list of its Unicode scalar values; a [Vec<u8>] is a
    list of bytes.  Both are lists of [N]; [char] and [byte] name the two readings.
    The file models the [str] methods the sources call (with the Unicode notion of white
    space), [usize::from_str], decimal and hexadecimal formatting, and UTF-8 in both
    directions ([String::from_utf8] and [str::as_bytes]) with its round trips. *)

From S2P Require Import Prelude.

Abbreviation char := N (only parsing).
Abbreviation byte := N (only parsing).
Abbreviation str := (list N) (only parsing).
Abbreviation bytes := (list N) (only parsing).

(** A string literal of the source. *)
Definition lit (s : string) : str := Ascii.N_of_ascii <$> String.list_ascii_of_string s.
Arguments lit s%_string.

Declare Scope rust_scope.
Delimit Scope rust_scope with rust.

(** ** Characters *)

Definition LF : N := 10.
Definition CR : N := 13.
Definition SPACE : N := 32.
Definition TAB : N := 9.
Definition HASH : N := 35.
Definition DQUOTE : N := 34.
Definition SQUOTE : N := 39.

(** A Unicode scalar value: what a Rust [char] can hold. *)
Definition is_scalar (c : char) : bool :=
  ((c <? 0xD800) || ((0xE000 <=? c) && (c <? 0x110000)))%N.

(** [char::is_whitespace]: the Unicode [White_Space] property. *)
Definition is_whitespace (c : char) : bool :=
  (((9 <=? c) && (c <=? 13)) || (c =? 32) || (c =? 0x85) || (c =? 0xA0)
   || (c =? 0x1680) || ((0x2000 <=? c) && (c <=? 0x200A))
   || (c =? 0x2028) || (c =? 0x2029) || (c =? 0x202F) || (c =? 0x205F)
   || (c =? 0x3000))%N.

Definition is_ascii_digit (c : char) : bool := ((48 <=? c) && (c <=? 57))%N.
Definition is_ascii_upper (c : char) : bool := ((65 <=? c) && (c <=? 90))%N.
Definition is_ascii_lower (c : char) : bool := ((97 <=? c) && (c <=? 122))%N.
Definition is_ascii_alphanumeric (c : char) : bool :=
  is_ascii_digit c || is_ascii_upper c || is_ascii_lower c.
Definition is_ascii_hexdigit (c : char) : bool :=
  is_ascii_digit c || ((65 <=? c) && (c <=? 70))%N || ((97 <=? c) && (c <=? 102))%N.

Definition ascii_upper (c : char) : char := if is_ascii_lower c then (c - 32)%N else c.
Definition ascii_lower (c : char) : char := if is_ascii_upper c then (c + 32)%N else c.
Definition to_ascii_uppercase (s : str) : str := ascii_upper <$> s.
Definition to_ascii_lowercase (s : str) : str := ascii_lower <$> s.

(** ** Trimming and affixes *)

Fixpoint drop_while {A} (p : A → bool) (l : list A) : list A :=
  match l with
  | [] => []
  | x :: l' => if p x then drop_while p l' else l
  end.

Fixpoint take_while {A} (p : A → bool) (l : list A) : list A :=
  match l with
  | [] => []
  | x :: l' => if p x then x :: take_while p l' else []
  end.

(** Drop the longest suffix of elements satisfying [p]. *)
Definition rstrip {A} (p : A → bool) (l : list A) : list A :=
  reverse (drop_while p (reverse l)).

Definition trim_start (s : str) : str := drop_while is_whitespace s.
Definition trim_end (s : str) : str := rstrip is_whitespace s.
Definition trim (s : str) : str := trim_end (trim_start s).

Fixpoint strip_prefix {A} `{EqDecision A} (p l : list A) : option (list A) :=
  match p, l with
  | [], _ => Some l
  | x :: p', y :: l' => if decide (x = y) then strip_prefix p' l' else None
  | _ :: _, [] => None
  end.

Definition strip_suffix {A} `{EqDecision A} (p l : list A) : option (list A) :=
  reverse <$> strip_prefix (reverse p) (reverse l).

Definition starts_with {A} `{EqDecision A} (p l : list A) : bool :=
  match strip_prefix p l with Some _ => true | None => false end.

Definition ends_with {A} `{EqDecision A} (p l : list A) : bool :=
  match strip_suffix p l with Some _ => true | None => false end.

(** [line.strip_suffix('\r').unwrap_or(line)]. *)
Definition strip_cr (l : str) : str :=
  match strip_suffix [CR] l with Some l' => l' | None => l end.

(** ** Splitting and joining *)

(** [split(c)]: always at least one piece. *)
Fixpoint split_on {A} `{EqDecision A} (c : A) (l : list A) : list (list A) :=
  match l with
  | [] => [[]]
  | x :: l' =>
      if decide (x = c) then [] :: split_on c l'
      else match split_on c l' with
           | [] => [[x]]
           | p :: ps => (x :: p) :: ps
           end
  end.

(** [split_inclusive(c)]: pieces keep their terminating [c]; no trailing empty piece. *)
Fixpoint split_inclusive {A} `{EqDecision A} (c : A) (l : list A) : list (list A) :=
  match l with
  | [] => []
  | x :: l' =>
      if decide (x = c) then [x] :: split_inclusive c l'
      else match split_inclusive c l' with
           | [] => [[x]]
           | p :: ps => (x :: p) :: ps
           end
  end.

(** [split_once(pat)] for a string pattern. *)
Fixpoint split_once {A} `{EqDecision A} (pat l : list A) : option (list A * list A) :=
  match strip_prefix pat l with
  | Some rest => Some ([], rest)
  | None =>
      match l with
      | [] => None
      | x :: l' => match split_once pat l' with
                   | Some (a, b) => Some (x :: a, b)
                   | None => None
                   end
      end
  end.

(** [split_once(char::is_whitespace)]. *)
Fixpoint split_once_ws (l : str) : option (str * str) :=
  match l with
  | [] => None
  | x :: l' =>
      if is_whitespace x then Some ([], l')
      else match split_once_ws l' with
           | Some (a, b) => Some (x :: a, b)
           | None => None
           end
  end.

(** [split_whitespace]: maximal runs of non-whitespace, in order. [cur] is the run in
    progress, reversed. *)
Fixpoint split_whitespace_from (cur : str) (l : str) : list str :=
  match l with
  | [] => match cur with [] => [] | _ => [reverse cur] end
  | x :: l' =>
      if is_whitespace x
      then match cur with
           | [] => split_whitespace_from [] l'
           | _ => reverse cur :: split_whitespace_from [] l'
           end
      else split_whitespace_from (x :: cur) l'
  end.
Definition split_whitespace (l : str) : list str := split_whitespace_from [] l.

(** [slice::join(sep)]. *)
Fixpoint join {A} (sep : list A) (ls : list (list A)) : list A :=
  match ls with
  | [] => []
  | [l] => l
  | l :: ls' => l ++ sep ++ join sep ls'
  end.

(** [str::contains] with a string pattern. *)
Definition str_contains (pat s : str) : bool :=
  existsb (λ k, bool_decide (take (length pat) (drop k s) = pat)) (seq 0 (S (length s))).

Definition contains_char (c : char) (l : str) : bool := existsb (N.eqb c) l.

(** ** Numbers in text *)

(** Value of a run of decimal digits, [None] on any other character. *)
Fixpoint parse_digits (acc : N) (s : str) : option N :=
  match s with
  | [] => Some acc
  | c :: s' => if is_ascii_digit c then parse_digits (10 * acc + (c - 48))%N s' else None
  end.

(** [str::parse::<usize>()]: an optional leading [+], then at least one digit, and the
    value must fit in 64 bits. *)
Definition parse_usize (s : str) : option N :=
  let digits := match s with 43%N :: s' => s' | _ => s end in
  match digits with
  | [] => None
  | _ => match parse_digits 0 digits with
         | Some v => if (v <=? usize_max)%N then Some v else None
         | None => None
         end
  end.

(** [Display] for unsigned integers. *)
Definition show_N (n : N) : str := lit (pretty n).
Definition show (n : nat) : str := show_N (N.of_nat n).

Definition hex_digit (d : N) : char := (if d <? 10 then 48 + d else 55 + d)%N.

(** [format!("{:04X}", v)] for a 16-bit value. *)
Definition fmt_04X (v : N) : str :=
  [hex_digit (v / 4096 mod 16); hex_digit (v / 256 mod 16);
   hex_digit (v / 16 mod 16); hex_digit (v mod 16)]%N.

(** ** UTF-8 *)

(** [char::encode_utf8]. *)
Definition utf8_char (c : char) : bytes :=
  (if c <? 0x80 then [c]
   else if c <? 0x800 then [0xC0 + c / 64; 0x80 + c mod 64]
   else if c <? 0x10000
   then [0xE0 + c / 4096; 0x80 + c / 64 mod 64; 0x80 + c mod 64]
   else [0xF0 + c / 262144; 0x80 + c / 4096 mod 64; 0x80 + c / 64 mod 64;
         0x80 + c mod 64])%N.

(** [str::as_bytes]. *)
Definition as_bytes (s : str) : bytes := s ≫= utf8_char.

(** [str::len]: the length in bytes. *)
Definition str_len (s : str) : N := N.of_nat (length (as_bytes s)).

Definition is_cont (b : byte) : bool := ((0x80 <=? b) && (b <? 0xC0))%N.

(** [String::from_utf8]: strict decoding, [None] for its error. *)
Fixpoint from_utf8 (bs : bytes) : option str :=
  match bs with
  | [] => Some []
  | b0 :: r0 =>
      if (b0 <? 0x80)%N then cons b0 <$> from_utf8 r0
      else if ((0xC0 <=? b0) && (b0 <? 0xE0))%N then
        match r0 with
        | b1 :: r1 =>
            let c := ((b0 - 0xC0) * 64 + (b1 - 0x80))%N in
            if is_cont b1 && (0x80 <=? c)%N then cons c <$> from_utf8 r1 else None
        | _ => None
        end
      else if ((0xE0 <=? b0) && (b0 <? 0xF0))%N then
        match r0 with
        | b1 :: b2 :: r2 =>
            let c := ((b0 - 0xE0) * 4096 + (b1 - 0x80) * 64 + (b2 - 0x80))%N in
            if is_cont b1 && is_cont b2 && (0x800 <=? c)%N && is_scalar c
            then cons c <$> from_utf8 r2 else None
        | _ => None
        end
      else if ((0xF0 <=? b0) && (b0 <? 0xF8))%N then
        match r0 with
        | b1 :: b2 :: b3 :: r3 =>
            let c := ((b0 - 0xF0) * 262144 + (b1 - 0x80) * 4096
                      + (b2 - 0x80) * 64 + (b3 - 0x80))%N in
            if is_cont b1 && is_cont b2 && is_cont b3 && (0x10000 <=? c)%N && is_scalar c
            then cons c <$> from_utf8 r3 else None
        | _ => None
        end
      else None
  end.

(** [String::from_utf8_lossy]: every maximal prefix of a sequence that cannot be completed
    becomes one replacement character. *)
Definition REPLACEMENT : char := 0xFFFD.

(** The second bytes that can follow a three- or four-byte lead. *)
Definition second_of_3 (b0 b1 : byte) : bool :=
  (is_cont b1 && (if b0 =? 0xE0 then 0xA0 <=? b1 else if b0 =? 0xED then b1 <? 0xA0 else true))%N.
Definition second_of_4 (b0 b1 : byte) : bool :=
  (is_cont b1 && (if b0 =? 0xF0 then 0x90 <=? b1 else if b0 =? 0xF4 then b1 <? 0x90 else true))%N.

Fixpoint from_utf8_lossy (bs : bytes) : str :=
  match bs with
  | [] => []
  | b0 :: r0 =>
      if (b0 <? 0x80)%N then b0 :: from_utf8_lossy r0
      else if ((0xC2 <=? b0) && (b0 <? 0xE0))%N then
        match r0 with
        | b1 :: r1 =>
            if is_cont b1 then ((b0 - 0xC0) * 64 + (b1 - 0x80))%N :: from_utf8_lossy r1
            else REPLACEMENT :: from_utf8_lossy r0
        | [] => [REPLACEMENT]
        end
      else if ((0xE0 <=? b0) && (b0 <? 0xF0))%N then
        match r0 with
        | b1 :: r1 =>
            if second_of_3 b0 b1 then
              match r1 with
              | b2 :: r2 =>
                  if is_cont b2
                  then ((b0 - 0xE0) * 4096 + (b1 - 0x80) * 64 + (b2 - 0x80))%N :: from_utf8_lossy r2
                  else REPLACEMENT :: from_utf8_lossy r1
              | [] => [REPLACEMENT]
              end
            else REPLACEMENT :: from_utf8_lossy r0
        | [] => [REPLACEMENT]
        end
      else if ((0xF0 <=? b0) && (b0 <? 0xF5))%N then
        match r0 with
        | b1 :: r1 =>
            if second_of_4 b0 b1 then
              match r1 with
              | b2 :: r2 =>
                  if is_cont b2 then
                    match r2 with
                    | b3 :: r3 =>
                        if is_cont b3
                        then ((b0 - 0xF0) * 262144 + (b1 - 0x80) * 4096
                              + (b2 - 0x80) * 64 + (b3 - 0x80))%N :: from_utf8_lossy r3
                        else REPLACEMENT :: from_utf8_lossy r2
                    | [] => [REPLACEMENT]
                    end
                  else REPLACEMENT :: from_utf8_lossy r1
              | [] => [REPLACEMENT]
              end
            else REPLACEMENT :: from_utf8_lossy r0
        | [] => [REPLACEMENT]
        end
      else REPLACEMENT :: from_utf8_lossy r0
  end.

(** A list of numbers that is a Rust string. *)
Definition valid_str (s : str) : Prop := Forall (λ c, is_scalar c = true) s.

(** ** Lemmas *)

Ltac Zify.zify_post_hook ::= Z.div_mod_to_equations.

(** Turn boolean tests on characters into propositions. *)
Ltac breflect :=
  repeat match goal with
  | H : _ && _ = true |- _ => apply andb_prop in H as [? ?]
  | H : _ || _ = true |- _ => apply orb_prop in H
  | H : (_ <? _)%N = true |- _ => apply N.ltb_lt in H
  | H : (_ <? _)%N = false |- _ => apply N.ltb_ge in H
  | H : (_ <=? _)%N = true |- _ => apply N.leb_le in H
  | H : (_ <=? _)%N = false |- _ => apply N.leb_gt in H
  | H : (_ =? _)%N = true |- _ => apply N.eqb_eq in H
  | H : (_ =? _)%N = false |- _ => apply N.eqb_neq in H
  end.

Lemma utf8_char_length c : 1 ≤ length (utf8_char c) ≤ 4.
Proof. unfold utf8_char. repeat case_match; simpl; lia. Qed.

Lemma as_bytes_app s1 s2 : as_bytes (s1 ++ s2) = as_bytes s1 ++ as_bytes s2.
Proof. apply bind_app. Qed.

Lemma div_4096 c : (c / 4096 = c / 64 / 64)%N.
Proof. by rewrite N.Div0.div_div. Qed.

Lemma div_262144 c : (c / 262144 = c / 64 / 64 / 64)%N.
Proof. by rewrite !N.Div0.div_div. Qed.

(** Decide a boolean test by arithmetic on its value. *)
Ltac btest b v :=
  replace b with v by (symmetry; unfold is_cont;
    rewrite ?andb_true_iff, ?andb_false_iff, ?N.leb_le, ?N.ltb_lt, ?N.leb_gt, ?N.ltb_ge; lia).

Lemma from_utf8_char_app c bs :
  is_scalar c = true → from_utf8 (utf8_char c ++ bs) = cons c <$> from_utf8 bs.
Proof.
  intros Hc. unfold utf8_char.
  assert ((c < 0xD800 ∨ 0xE000 ≤ c < 0x110000)%N) as Hr.
  { unfold is_scalar in Hc. apply orb_prop in Hc as [?|?]; breflect; lia. }
  rewrite div_4096, div_262144.
  pose proof (N.Div0.div_mod c 64) as H0.
  pose proof (N.Div0.div_mod (c / 64) 64) as H1.
  pose proof (N.Div0.div_mod (c / 64 / 64) 64) as H2.
  assert (c mod 64 < 64 ∧ (c / 64) mod 64 < 64 ∧ (c / 64 / 64) mod 64 < 64)%N as H3
    by (split_and!; by apply N.mod_lt).
  revert H0 H1 H2 H3.
  generalize (c mod 64)%N; intros y0.
  generalize ((c / 64) mod 64)%N; intros y1.
  generalize ((c / 64 / 64) mod 64)%N; intros y2.
  generalize (c / 64 / 64 / 64)%N; intros x3.
  generalize (c / 64 / 64)%N; intros x2.
  generalize (c / 64)%N; intros x1 H0 H1 H2 H3.
  destruct (c <? 0x80)%N eqn:E1; [simpl; by rewrite E1|breflect].
  destruct (c <? 0x800)%N eqn:E2; [breflect|].
  { simpl. btest (192 + x1 <? 128)%N false.
    btest ((192 <=? 192 + x1)%N && (192 + x1 <? 224)%N) true.
    replace ((192 + x1 - 192) * 64 + (128 + y0 - 128))%N with c by lia.
    by btest (is_cont (128 + y0) && (128 <=? c)%N) true. }
  destruct (c <? 0x10000)%N eqn:E3; breflect.
  { simpl. btest (224 + x2 <? 128)%N false.
    btest ((192 <=? 224 + x2)%N && (224 + x2 <? 224)%N) false.
    btest ((224 <=? 224 + x2)%N && (224 + x2 <? 240)%N) true.
    replace ((224 + x2 - 224) * 4096 + (128 + y1 - 128) * 64 + (128 + y0 - 128))%N
      with c by lia.
    rewrite Hc, andb_true_r.
    by btest (is_cont (128 + y1) && is_cont (128 + y0) && (2048 <=? c)%N) true. }
  simpl. btest (240 + x3 <? 128)%N false.
  btest ((192 <=? 240 + x3)%N && (240 + x3 <? 224)%N) false.
  btest ((224 <=? 240 + x3)%N && (240 + x3 <? 240)%N) false.
  btest ((240 <=? 240 + x3)%N && (240 + x3 <? 248)%N) true.
  replace ((240 + x3 - 240) * 262144 + (128 + y2 - 128) * 4096
           + (128 + y1 - 128) * 64 + (128 + y0 - 128))%N with c by lia.
  rewrite Hc, andb_true_r.
  by btest (is_cont (128 + y2) && is_cont (128 + y1) && is_cont (128 + y0)
            && (65536 <=? c)%N) true.
Qed.

Lemma from_utf8_as_bytes s : valid_str s → from_utf8 (as_bytes s) = Some s.
Proof.
  induction 1 as [|c s Hc _ IH]; [done|].
  change (as_bytes (c :: s)) with (utf8_char c ++ as_bytes s).
  by rewrite from_utf8_char_app, IH.
Qed.

(** Reassembling the quotients and remainders of base 64. *)
Lemma div_mod_64 a b : (b < 64)%N → ((a * 64 + b) / 64 = a ∧ (a * 64 + b) mod 64 = b)%N.
Proof.
  intros Hb. split.
  - symmetry. apply (N.div_unique _ _ _ b); lia.
  - symmetry. apply (N.mod_unique _ _ a); lia.
Qed.

Lemma utf8_char_2 a b :
  (2 ≤ a < 32)%N → (b < 64)%N → utf8_char (a * 64 + b) = [0xC0 + a; 0x80 + b]%N.
Proof.
  intros Ha Hb. unfold utf8_char. destruct (div_mod_64 a b Hb) as [-> ->].
  btest (a * 64 + b <? 0x80)%N false. by btest (a * 64 + b <? 0x800)%N true.
Qed.

Lemma utf8_char_3 a b d :
  (a < 16)%N → (b < 64)%N → (d < 64)%N → (0x800 ≤ (a * 64 + b) * 64 + d)%N →
  utf8_char ((a * 64 + b) * 64 + d) = [0xE0 + a; 0x80 + b; 0x80 + d]%N.
Proof.
  intros Ha Hb Hd Hc. unfold utf8_char. rewrite div_4096.
  destruct (div_mod_64 (a * 64 + b) d Hd) as [-> ->].
  destruct (div_mod_64 a b Hb) as [-> ->].
  btest ((a * 64 + b) * 64 + d <? 0x80)%N false.
  btest ((a * 64 + b) * 64 + d <? 0x800)%N false.
  by btest ((a * 64 + b) * 64 + d <? 0x10000)%N true.
Qed.

Lemma utf8_char_4 a b d e :
  (b < 64)%N → (d < 64)%N → (e < 64)%N →
  (0x10000 ≤ ((a * 64 + b) * 64 + d) * 64 + e)%N →
  utf8_char (((a * 64 + b) * 64 + d) * 64 + e) = [0xF0 + a; 0x80 + b; 0x80 + d; 0x80 + e]%N.
Proof.
  intros Hb Hd He Hc. unfold utf8_char. rewrite div_4096, div_262144.
  destruct (div_mod_64 ((a * 64 + b) * 64 + d) e He) as [-> ->].
  destruct (div_mod_64 (a * 64 + b) d Hd) as [-> ->].
  destruct (div_mod_64 a b Hb) as [-> ->].
  btest (((a * 64 + b) * 64 + d) * 64 + e <? 0x80)%N false.
  btest (((a * 64 + b) * 64 + d) * 64 + e <? 0x800)%N false.
  by btest (((a * 64 + b) * 64 + d) * 64 + e <? 0x10000)%N false.
Qed.

Lemma as_bytes_cons c s : as_bytes (c :: s) = utf8_char c ++ as_bytes s.
Proof. done. Qed.

(** Strict decoding is the partial inverse of encoding. *)
Lemma from_utf8_Some bs s : from_utf8 bs = Some s → as_bytes s = bs ∧ valid_str s.
Proof.
  remember (length bs) as n eqn:Hn. revert bs s Hn.
  induction (lt_wf n) as [n _ IH]; intros bs s ->.
  assert (∀ c k r, length r < length bs → is_scalar c = true →
    (cons c <$> from_utf8 r) = Some s → utf8_char c ++ r = k → as_bytes s = k ∧ valid_str s)
    as step.
  { intros c k r Hr Hsc (s' & Hs & ->)%fmap_Some <-.
    destruct (IH _ Hr r s' eq_refl Hs) as [<- Hv]. split; [done|]. by constructor. }
  destruct bs as [|b0 r0]; simpl; [intros [= <-]; split; [done|constructor]|].
  destruct (b0 <? 0x80)%N eqn:E0; [breflect|].
  { intros Hs. apply (step b0 _ r0); simpl; [lia| |done|].
    - unfold is_scalar. rewrite orb_true_iff; left. apply N.ltb_lt; lia.
    - unfold utf8_char. by btest (b0 <? 0x80)%N true. }
  breflect. destruct ((0xC0 <=? b0)%N && (b0 <? 0xE0)%N) eqn:E1; breflect.
  { destruct r0 as [|b1 r1]; [done|].
    destruct (is_cont b1 && _) eqn:E2; [|done]. unfold is_cont in E2; breflect.
    intros Hs. eapply step; [| |exact Hs|]; simpl; [lia| |].
    - unfold is_scalar. rewrite orb_true_iff; left. apply N.ltb_lt; lia.
    - rewrite utf8_char_2 by lia. simpl. f_equal; [lia|f_equal; lia]. }
  clear E1. destruct ((0xE0 <=? b0)%N && (b0 <? 0xF0)%N) eqn:E1; breflect.
  { destruct r0 as [|b1 [|b2 r2]]; [done..|].
    destruct (is_cont b1 && _ && _ && _) eqn:E2; [|done]. unfold is_cont in E2; breflect.
    intros Hs. eapply step; [| |exact Hs|]; simpl; [lia|done|].
    replace ((b0 - 224) * 4096 + (b1 - 128) * 64 + (b2 - 128))%N
      with (((b0 - 224) * 64 + (b1 - 128)) * 64 + (b2 - 128))%N by lia.
    rewrite utf8_char_3 by lia. simpl. repeat (f_equal; try lia). }
  clear E1. destruct ((0xF0 <=? b0)%N && (b0 <? 0xF8)%N) eqn:E1; breflect; [|done].
  destruct r0 as [|b1 [|b2 [|b3 r3]]]; [done..|].
  destruct (is_cont b1 && _ && _ && _ && _) eqn:E2; [|done]. unfold is_cont in E2; breflect.
  intros Hs. eapply step; [| |exact Hs|]; simpl; [lia|done|].
  replace ((b0 - 240) * 262144 + (b1 - 128) * 4096 + (b2 - 128) * 64 + (b3 - 128))%N
    with ((((b0 - 240) * 64 + (b1 - 128)) * 64 + (b2 - 128)) * 64 + (b3 - 128))%N by lia.
  rewrite utf8_char_4 by lia. simpl. repeat (f_equal; try lia).
Qed.

(** A one-byte character of a decoded string is a byte of its encoding, and conversely. *)
Lemma utf8_char_ascii c : (c < 0x80)%N → utf8_char c = [c].
Proof. intros. unfold utf8_char. by btest (c <? 0x80)%N true. Qed.

Lemma elem_of_utf8_char_ascii c b :
  (b < 0x80)%N → b ∈ utf8_char c → c = b.
Proof.
  intros Hb. unfold utf8_char.
  repeat case_match; rewrite ?elem_of_cons, elem_of_nil; intros; destruct_or?; try done; lia.
Qed.

Lemma elem_of_as_bytes_ascii s b : (b < 0x80)%N → b ∈ as_bytes s ↔ b ∈ s.
Proof.
  intros Hb. unfold as_bytes. rewrite list_elem_of_bind. split.
  - intros (c & Hc & Hs). by apply elem_of_utf8_char_ascii in Hc as <-.
  - intros Hs. exists b. split; [|done]. rewrite utf8_char_ascii by done. by left.
Qed.

(** *** Affixes *)

Lemma strip_prefix_Some {A} `{EqDecision A} (p l r : list A) :
  strip_prefix p l = Some r ↔ l = p ++ r.
Proof.
  revert l; induction p as [|x p IH]; intros l; simpl.
  - split; [by intros [= ->]|by intros ->].
  - destruct l as [|y l]; [done|]. case_decide; subst.
    + rewrite IH. split; [by intros ->|by intros [= ->]].
    + split; [done|]. intros [= ??]; congruence.
Qed.

Lemma strip_suffix_Some {A} `{EqDecision A} (p l r : list A) :
  strip_suffix p l = Some r ↔ l = r ++ p.
Proof.
  unfold strip_suffix. rewrite fmap_Some. split.
  - intros (k & Hk & ->). apply strip_prefix_Some in Hk.
    by rewrite <-(reverse_involutive l), Hk, reverse_app, !reverse_involutive.
  - intros ->. exists (reverse r). rewrite reverse_involutive.
    by rewrite strip_prefix_Some, reverse_app.
Qed.

Lemma starts_with_true {A} `{EqDecision A} (p l : list A) :
  starts_with p l = true ↔ ∃ r, l = p ++ r.
Proof.
  unfold starts_with. destruct (strip_prefix p l) as [r|] eqn:E.
  - apply strip_prefix_Some in E. split; [intros _; by exists r|done].
  - split; [done|]. intros (r & Hr). apply strip_prefix_Some in Hr. congruence.
Qed.

Lemma ends_with_true {A} `{EqDecision A} (p l : list A) :
  ends_with p l = true ↔ ∃ r, l = r ++ p.
Proof.
  unfold ends_with. destruct (strip_suffix p l) as [r|] eqn:E.
  - apply strip_suffix_Some in E. split; [intros _; by exists r|done].
  - split; [done|]. intros (r & Hr). apply strip_suffix_Some in Hr. congruence.
Qed.

(** *** Trimming *)

Lemma drop_while_app_stop {A} (p : A → bool) l k :
  (∀ x, head k = Some x → p x = false) →
  drop_while p (l ++ k) = drop_while p l ++ k.
Proof.
  intros Hk. induction l as [|x l IH]; simpl.
  - destruct k as [|x k]; [done|]. simpl. by rewrite (Hk x).
  - by destruct (p x).
Qed.

Lemma drop_while_idemp {A} (p : A → bool) l : drop_while p (drop_while p l) = drop_while p l.
Proof.
  induction l as [|x l IH]; simpl; [done|]. destruct (p x) eqn:E; [done|].
  simpl. by rewrite E.
Qed.

Lemma drop_while_suffix {A} (p : A → bool) l :
  ∃ k, l = k ++ drop_while p l ∧ Forall (λ x, p x = true) k.
Proof.
  induction l as [|x l (k & Hk & Hp)]; simpl; [by exists []|].
  destruct (p x) eqn:E.
  - exists (x :: k). simpl. rewrite <-Hk. auto.
  - by exists [].
Qed.

Lemma rstrip_prefix {A} (p : A → bool) l :
  ∃ k, l = rstrip p l ++ k ∧ Forall (λ x, p x = true) k.
Proof.
  unfold rstrip. destruct (drop_while_suffix p (reverse l)) as (k & Hk & Hp).
  exists (reverse k). split; [|by apply Forall_reverse].
  rewrite <-reverse_app, <-Hk. by rewrite reverse_involutive.
Qed.

Lemma rstrip_idemp {A} (p : A → bool) l : rstrip p (rstrip p l) = rstrip p l.
Proof. unfold rstrip. by rewrite reverse_involutive, drop_while_idemp. Qed.

Lemma rstrip_app_all {A} (p : A → bool) l k :
  Forall (λ x, p x = true) k → rstrip p (l ++ k) = rstrip p l.
Proof.
  intros Hk. unfold rstrip. rewrite reverse_app. f_equal.
  apply Forall_reverse in Hk. induction Hk as [|x k' Hx _ IH]; simpl; [done|by rewrite Hx].
Qed.

Lemma rstrip_last {A} (p : A → bool) l x :
  last (rstrip p l) = Some x → p x = false.
Proof.
  unfold rstrip. rewrite last_reverse. generalize (reverse l). clear l. intros l.
  induction l as [|y l IH]; simpl; [done|]. destruct (p y) eqn:E; [done|].
  simpl. by intros [= <-].
Qed.

(** *** Splitting *)

Lemma split_on_nonempty {A} `{EqDecision A} (c : A) l : split_on c l ≠ [].
Proof. destruct l; simpl; [done|]. case_decide; [done|]. by destruct (split_on c l). Qed.

Lemma join_cons {A} (sep : list A) l ls :
  ls ≠ [] → join sep (l :: ls) = l ++ sep ++ join sep ls.
Proof. by destruct ls. Qed.

Lemma join_split_on {A} `{EqDecision A} (c : A) l : join [c] (split_on c l) = l.
Proof.
  induction l as [|x l IH]; simpl; [done|]. case_decide; subst.
  - rewrite join_cons by apply split_on_nonempty. by rewrite IH.
  - pose proof (split_on_nonempty c l). destruct (split_on c l) as [|p ps]; [done|].
    destruct ps as [|q ps]; simpl in *; by rewrite IH.
Qed.

Lemma split_on_free {A} `{EqDecision A} (c : A) l : Forall (λ p, c ∉ p) (split_on c l).
Proof.
  induction l as [|x l IH]; simpl.
  - constructor; [apply not_elem_of_nil|constructor].
  - case_decide; subst; [constructor; [apply not_elem_of_nil|done]|].
    destruct (split_on c l) as [|p ps]; inversion IH; subst;
      repeat constructor; rewrite ?not_elem_of_cons; auto using not_elem_of_nil.
Qed.

Lemma split_on_free_app {A} `{EqDecision A} (c : A) p l :
  c ∉ p → split_on c (p ++ c :: l) = p :: split_on c l.
Proof.
  induction p as [|x p IH]; simpl; intros Hp.
  - by rewrite decide_True.
  - apply not_elem_of_cons in Hp as [Hx Hp]. rewrite decide_False by done. by rewrite IH.
Qed.

Lemma split_on_free_id {A} `{EqDecision A} (c : A) p : c ∉ p → split_on c p = [p].
Proof.
  induction p as [|x p IH]; simpl; intros Hp; [done|].
  apply not_elem_of_cons in Hp as [Hx Hp]. rewrite decide_False by done. by rewrite IH.
Qed.

Lemma split_on_join {A} `{EqDecision A} (c : A) ls :
  ls ≠ [] → Forall (λ p, c ∉ p) ls → split_on c (join [c] ls) = ls.
Proof.
  intros Hne Hls. induction Hls as [|l ls Hl Hls IH]; [done|].
  destruct ls as [|l' ls]; [by apply split_on_free_id|].
  rewrite join_cons by done.
  change ([c] ++ join [c] (l' :: ls)) with (c :: join [c] (l' :: ls)).
  rewrite split_on_free_app by done.
  by rewrite IH.
Qed.

Lemma split_inclusive_concat {A} `{EqDecision A} (c : A) l :
  concat (split_inclusive c l) = l.
Proof.
  induction l as [|x l IH]; simpl; [done|]. case_decide; subst; simpl; [by rewrite IH|].
  destruct (split_inclusive c l) as [|p ps]; simpl in *; by rewrite IH.
Qed.

(** *** Sub-lists keep what their elements satisfy *)

Lemma drop_while_subseteq {A} (p : A → bool) l : drop_while p l ⊆ l.
Proof.
  induction l as [|x l IH]; simpl; [done|]. destruct (p x); [|done].
  intros y Hy. right. by apply IH.
Qed.

Lemma rstrip_subseteq {A} (p : A → bool) l : rstrip p l ⊆ l.
Proof.
  intros x. unfold rstrip. rewrite elem_of_reverse. intros Hx.
  apply drop_while_subseteq in Hx. by rewrite elem_of_reverse in Hx.
Qed.

Lemma trim_subseteq s : trim s ⊆ s.
Proof.
  intros x Hx. apply rstrip_subseteq in Hx. by apply drop_while_subseteq in Hx.
Qed.

Lemma strip_cr_subseteq l : strip_cr l ⊆ l.
Proof.
  unfold strip_cr. destruct (strip_suffix [CR] l) as [l'|] eqn:E; [|done].
  apply strip_suffix_Some in E as ->. intros x Hx. apply elem_of_app. by left.
Qed.

(** *** Strings that trimming leaves alone *)

(** Neither end of [s] is white space. *)
Definition tight (s : str) : Prop :=
  (∀ c, head s = Some c → is_whitespace c = false) ∧
  (∀ c, last s = Some c → is_whitespace c = false).

Lemma drop_while_id {A} (p : A → bool) l :
  (∀ c, head l = Some c → p c = false) → drop_while p l = l.
Proof. destruct l as [|x l]; simpl; [done|]. intros H. by rewrite (H x eq_refl). Qed.

Lemma rstrip_id {A} (p : A → bool) l :
  (∀ c, last l = Some c → p c = false) → rstrip p l = l.
Proof.
  intros H. unfold rstrip. rewrite drop_while_id; [apply reverse_involutive|].
  intros c Hc. apply H. by rewrite <-Hc, <-last_reverse, reverse_involutive.
Qed.

Lemma trim_tight s : tight s → trim s = s.
Proof.
  intros [Hh Hl]. unfold trim, trim_end, trim_start. rewrite drop_while_id by done.
  by apply rstrip_id.
Qed.

Lemma trim_is_tight s : tight (trim s).
Proof.
  split; intros c Hc.
  - destruct (rstrip_prefix is_whitespace (trim_start s)) as (k & Hk & _).
    change (rstrip is_whitespace (trim_start s)) with (trim s) in Hk.
    unfold trim_start in Hk. assert (head (drop_while is_whitespace s) = Some c) as Hd.
    { rewrite Hk. by destruct (trim s). }
    clear -Hd. induction s as [|x s IH]; simpl in *; [done|].
    destruct (is_whitespace x) eqn:E; [auto|]. simpl in Hd. by injection Hd as ->.
  - by apply rstrip_last in Hc.
Qed.

Lemma strip_cr_id l : last l ≠ Some CR → strip_cr l = l.
Proof.
  intros Hl. unfold strip_cr. destruct (strip_suffix [CR] l) as [l'|] eqn:E; [|done].
  apply strip_suffix_Some in E as ->. by rewrite last_snoc in Hl.
Qed.

Lemma strip_prefix_None_head {A} `{EqDecision A} (c : A) p l :
  head l ≠ Some c → strip_prefix (c :: p) l = None.
Proof.
  destruct l as [|x l]; simpl; [done|]. intros H. rewrite decide_False; [done|]. congruence.
Qed.

Lemma strip_suffix_None_last {A} `{EqDecision A} (c : A) l :
  last l ≠ Some c → strip_suffix [c] l = None.
Proof.
  intros H. destruct (strip_suffix [c] l) as [r|] eqn:E; [|done].
  apply strip_suffix_Some in E as ->. by rewrite last_snoc in H.
Qed.

Lemma split_once_None {A} `{EqDecision A} (c : A) p l :
  c ∉ l → split_once (c :: p) l = None.
Proof.
  induction l as [|x l IH]; simpl; intros Hl; [done|].
  apply not_elem_of_cons in Hl as [Hx Hl]. rewrite decide_False by done. by rewrite IH.
Qed.

Lemma split_once_first {A} `{EqDecision A} (c : A) p l k :
  c ∉ l → split_once (c :: p) (l ++ (c :: p) ++ k) = Some (l, k).
Proof.
  induction l as [|x l IH]; intros Hl.
  - change ([] ++ (c :: p) ++ k) with ((c :: p) ++ k). unfold split_once.
    destruct ((c :: p) ++ k) as [|y r] eqn:E; [done|]. rewrite <-E.
    by rewrite (proj2 (strip_prefix_Some (c :: p) ((c :: p) ++ k) k) eq_refl).
  - apply not_elem_of_cons in Hl as [Hx Hl]. specialize (IH Hl).
    change ((x :: l) ++ (c :: p) ++ k) with (x :: (l ++ (c :: p) ++ k)).
    cbn [split_once strip_prefix]. rewrite decide_False by done. by rewrite IH.
Qed.

(** *** Words *)

Lemma split_whitespace_from_word cur w :
  Forall (λ c, is_whitespace c = false) w →
  split_whitespace_from cur w
  = match reverse w ++ cur with [] => [] | _ => [reverse cur ++ w] end.
Proof.
  intros Hw. revert cur. induction Hw as [|c w Hc _ IH]; intros cur; simpl.
  - rewrite app_nil_r. by destruct cur.
  - rewrite Hc, IH, !reverse_cons, <-!app_assoc. simpl. by destruct (reverse w).
Qed.

Lemma split_whitespace_word w :
  w ≠ [] → Forall (λ c, is_whitespace c = false) w → split_whitespace w = [w].
Proof.
  intros Hne Hw. unfold split_whitespace. rewrite split_whitespace_from_word by done.
  rewrite app_nil_r, reverse_nil. destruct (reverse w) eqn:E; [|done].
  apply (f_equal reverse) in E. rewrite reverse_involutive in E. by subst.
Qed.

Lemma split_whitespace_from_app cur w c l :
  Forall (λ c, is_whitespace c = false) w → is_whitespace c = true → reverse cur ++ w ≠ [] →
  split_whitespace_from cur (w ++ c :: l) = (reverse cur ++ w) :: split_whitespace l.
Proof.
  intros Hw Hc. revert cur. induction Hw as [|x w Hx _ IH]; intros cur Hne; simpl.
  - rewrite Hc. rewrite app_nil_r in *. destruct cur; [done|]. done.
  - rewrite Hx, IH; rewrite reverse_cons, <-app_assoc; [done|].
    simpl. by destruct (reverse cur).
Qed.

Lemma split_whitespace_two w1 c w2 :
  w1 ≠ [] → w2 ≠ [] → Forall (λ c, is_whitespace c = false) w1 →
  Forall (λ c, is_whitespace c = false) w2 → is_whitespace c = true →
  split_whitespace (w1 ++ c :: w2) = [w1; w2].
Proof.
  intros H1 H2 F1 F2 Hc. unfold split_whitespace at 1.
  rewrite split_whitespace_from_app by done. rewrite reverse_nil. simpl.
  by rewrite split_whitespace_word.
Qed.

(** *** Decimal numbers *)

Lemma lit_cons a s : lit (String a s) = Ascii.N_of_ascii a :: lit s.
Proof. done. Qed.

Lemma parse_digits_pretty_go x s :
  parse_digits 0 (lit (pretty_N_go x s)) = parse_digits x (lit s).
Proof.
  revert s. induction (N.lt_wf_0 x) as [x _ IH]; intros s.
  destruct (decide (x = 0)%N) as [->|Hx]; [by rewrite pretty_N_go_0|].
  rewrite pretty_N_go_step by lia. rewrite IH by (apply N.div_lt; lia).
  rewrite lit_cons.
  assert (∃ d, (x mod 10 = d ∧ d < 10)%N) as (d & Hd & Hlt)
    by (eexists; split; [done|by apply N.mod_lt]).
  pose proof (N.Div0.div_mod x 10) as Hdm. rewrite Hd in *.
  assert (Ascii.N_of_ascii (pretty_N_char d) = (48 + d)%N) as ->.
  { assert (d ∈ [0;1;2;3;4;5;6;7;8;9]%N) as Hin
      by (rewrite !elem_of_cons; lia).
    repeat (apply elem_of_cons in Hin as [->|Hin]; [done|]). by apply elem_of_nil in Hin. }
  simpl. unfold is_ascii_digit. btest ((48 <=? 48 + d)%N && (48 + d <=? 57)%N) true.
  f_equal. lia.
Qed.

Lemma parse_digits_show n : parse_digits 0 (show_N n) = Some n.
Proof.
  unfold show_N, pretty, pretty_N. case_decide as H; [by subst|].
  by rewrite parse_digits_pretty_go.
Qed.

Lemma parse_digits_digits acc s v :
  parse_digits acc s = Some v → Forall (λ c, is_ascii_digit c = true) s.
Proof.
  revert acc; induction s as [|c s IH]; intros acc; simpl; [constructor|].
  destruct (is_ascii_digit c) eqn:E; [|done]. intros. constructor; eauto.
Qed.

Lemma show_N_digits n : Forall (λ c, is_ascii_digit c = true) (show_N n).
Proof. eapply parse_digits_digits, parse_digits_show. Qed.

Lemma show_N_nonempty n : show_N n ≠ [].
Proof.
  unfold show_N, pretty, pretty_N. case_decide as H; [done|].
  rewrite pretty_N_go_step by lia. generalize (n `div` 10)%N (pretty_N_char (n `mod` 10)).
  intros x a. assert (∀ s, lit s ≠ [] → lit (pretty_N_go x s) ≠ []) as Hgo.
  { induction (N.lt_wf_0 x) as [x' _ IH]; intros s Hs.
    destruct (decide (x' = 0)%N) as [->|Hx]; [by rewrite pretty_N_go_0|].
    rewrite pretty_N_go_step by lia. apply IH; [apply N.div_lt; lia|done]. }
  by apply Hgo.
Qed.

Lemma parse_usize_show n : (n ≤ usize_max)%N → parse_usize (show_N n) = Some n.
Proof.
  intros Hn. unfold parse_usize. pose proof (show_N_digits n) as Hd.
  pose proof (show_N_nonempty n) as Hne. pose proof (parse_digits_show n) as Hp.
  assert ((match show_N n with 43%N :: s' => s' | _ => show_N n end) = show_N n) as ->.
  { destruct (show_N n) as [|c s]; [done|]. inversion Hd as [|?? Hc]; subst.
    unfold is_ascii_digit in Hc. breflect.
    destruct (decide (c = 43)%N); [lia|]. by repeat case_match; simplify_eq. }
  destruct (show_N n); [done|]. rewrite Hp. by btest (n <=? usize_max)%N true.
Qed.

Lemma digit_not_space c : is_ascii_digit c = true → is_whitespace c = false.
Proof.
  unfold is_ascii_digit, is_whitespace. intros. breflect.
  repeat (apply orb_false_iff; split); try apply andb_false_iff;
    rewrite ?N.leb_gt, ?N.eqb_neq; lia.
Qed.

(** A string whose encoding is ASCII is its own encoding. *)
Lemma as_bytes_ascii_inv s : Forall (λ b, (b < 0x80)%N) (as_bytes s) → as_bytes s = s.
Proof.
  induction s as [|c s IH]; [done|]. rewrite as_bytes_cons, Forall_app. intros [Hc Hs].
  rewrite IH by done. unfold utf8_char in *.
  repeat case_match; breflect; [done|..]; inversion Hc; subst; lia.
Qed.

Lemma as_bytes_ascii s : Forall (λ c, (c < 0x80)%N) s → as_bytes s = s.
Proof.
  induction 1 as [|c s Hc _ IH]; [done|]. by rewrite as_bytes_cons, IH, utf8_char_ascii.
Qed.

Lemma contains_char_false c s : contains_char c s = false ↔ c ∉ s.
Proof.
  unfold contains_char. rewrite existsb_false_elem_of. split.
  - intros H Hc. apply H in Hc. by rewrite N.eqb_refl in Hc.
  - intros H x Hx. apply N.eqb_neq. intros ->. done.
Qed.

(** Lossy decoding of valid UTF-8 loses nothing. *)
Lemma from_utf8_lossy_valid bs s : from_utf8 bs = Some s → from_utf8_lossy bs = s.
Proof.
  remember (length bs) as n eqn:Hn. revert bs s Hn.
  induction (lt_wf n) as [n _ IH]; intros bs s ->.
  assert (∀ c r, length r < length bs → (cons c <$> from_utf8 r) = Some s →
    c :: from_utf8_lossy r = s) as step.
  { intros c r Hr (s' & Hs & ->)%fmap_Some. f_equal. by eapply IH. }
  destruct bs as [|b0 r0]; simpl; [by intros [= <-]|].
  destruct (b0 <? 0x80)%N eqn:E0; breflect; [intros Hs; apply step; [simpl; lia|done]|].
  destruct ((0xC0 <=? b0)%N && (b0 <? 0xE0)%N) eqn:E1; breflect.
  { destruct r0 as [|b1 r1]; [done|].
    destruct (is_cont b1 && _) eqn:E2; [|done]. apply andb_true_iff in E2 as [Hc E2].
    assert ((0xC2 <=? b0)%N && (b0 <? 0xE0)%N = true) as ->
      by (unfold is_cont in Hc; breflect; lia).
    rewrite Hc. intros Hs; apply step; [simpl; lia|done]. }
  assert ((0xC2 <=? b0)%N && (b0 <? 0xE0)%N = false) as -> by lia.
  destruct ((0xE0 <=? b0)%N && (b0 <? 0xF0)%N) eqn:E1'; breflect.
  { destruct r0 as [|b1 [|b2 r2]]; [done..|].
    destruct (is_cont b1 && _ && _ && _) eqn:E2; [|done].
    rewrite !andb_true_iff in E2. destruct E2 as [[[H1 H2] H3] H4]. rewrite H2.
    assert (second_of_3 b0 b1 = true) as ->.
    { unfold second_of_3, is_cont, is_scalar in *. repeat case_match; breflect; lia. }
    intros Hs; apply step; [simpl; lia|done]. }
  destruct ((0xF0 <=? b0)%N && (b0 <? 0xF8)%N) eqn:E1''; breflect; [|done].
  destruct r0 as [|b1 [|b2 [|b3 r3]]]; [done..|].
  destruct (is_cont b1 && _ && _ && _ && _) eqn:E2; [|done].
  rewrite !andb_true_iff in E2. destruct E2 as [[[[H1 H2] H3] H4] H5].
  assert ((0xF0 <=? b0)%N && (b0 <? 0xF5)%N = true) as ->
    by (unfold is_cont, is_scalar in *; lia).
  rewrite H2, H3. assert (second_of_4 b0 b1 = true) as ->.
  { unfold second_of_4, is_cont, is_scalar in *. repeat case_match; breflect; lia. }
  intros Hs; apply step; [simpl; lia|done].
Qed.
