(* ===== verification/ByteStr.v ===== *)
(** * Byte offsets into strings

    Rust addresses a [str] by byte offsets and panics when an offset is not on a character
    boundary.  A string is the list of its characters, an offset is a number of bytes, and a
    slice is [None] where Rust panics. *)

From S2P Require Import Prelude RustStr.

Module ByteStr.

(** [char::len_utf8]. *)
Definition len_utf8 (c : char) : N := N.of_nat (length (utf8_char c)).

(** [s.split_at(n)]: [None] when [n] is not a character boundary of [s]. *)
Fixpoint split_at (s : str) (n : N) : option (str * str) :=
  if (n =? 0)%N then Some ([], s)
  else
    match s with
    | [] => None
    | c :: s =>
        if (n <? len_utf8 c)%N then None
        else '(a, b) ← split_at s (n - len_utf8 c); Some (c :: a, b)
    end.

Definition is_char_boundary (s : str) (n : N) : bool := bool_decide (is_Some (split_at s n)).

(** [&s[..n]], [&s[n..]] and [&s[a..b]]. *)
Definition slice_to (s : str) (n : N) : option str := fst <$> split_at s n.
Definition slice_from (s : str) (n : N) : option str := snd <$> split_at s n.
Definition slice (s : str) (a b : N) : option str :=
  if (b <? a)%N then None else '(_, r) ← split_at s a; '(m, _) ← split_at r (b - a); Some m.

(** [usize] subtraction, which panics below zero. *)
Definition checked_sub (a b : N) : option N := if (a <? b)%N then None else Some (a - b)%N.

(** [str::lines]. *)
Definition line_content (piece : str) : str :=
  match strip_suffix [LF] piece with Some l => strip_cr l | None => piece end.
Definition str_lines (s : str) : list str := line_content <$> split_inclusive LF s.

(** [match_indices(needle)]: byte offsets of the occurrences, each search resuming after the
    last one; [skip] characters of the last occurrence are still to be passed. *)
Fixpoint match_indices_from (needle : str) (skip : nat) (pos : N) (s : str) : list N :=
  match s with
  | [] => if bool_decide (needle = []) then [pos] else []
  | c :: s' =>
      let next := (pos + len_utf8 c)%N in
      match skip with
      | S skip => match_indices_from needle skip next s'
      | 0 =>
          if starts_with needle s
          then pos :: match_indices_from needle (length needle - 1) next s'
          else match_indices_from needle 0 next s'
      end
  end.
Definition match_indices (needle s : str) : list N := match_indices_from needle 0 0 s.

(** [rfind(c)]: the byte offset of the last [c]. *)
Fixpoint rfind_from (c : char) (pos : N) (s : str) : option N :=
  match s with
  | [] => None
  | x :: s =>
      match rfind_from c (pos + len_utf8 x)%N s with
      | Some r => Some r
      | None => if decide (x = c) then Some pos else None
      end
  end.
Definition rfind (c : char) (s : str) : option N := rfind_from c 0 s.

(** ** Lengths *)

Lemma len_utf8_pos c : (1 ≤ len_utf8 c)%N.
Proof. unfold len_utf8. pose proof (utf8_char_length c). lia. Qed.

Lemma str_len_nil : str_len [] = 0%N.
Proof. done. Qed.
Lemma str_len_cons c s : str_len (c :: s) = (len_utf8 c + str_len s)%N.
Proof. unfold str_len, len_utf8. rewrite as_bytes_cons, length_app. lia. Qed.
Lemma str_len_app a b : str_len (a ++ b) = (str_len a + str_len b)%N.
Proof. unfold str_len. rewrite as_bytes_app, length_app. lia. Qed.
Lemma str_len_rev s : str_len (rev s) = str_len s.
Proof.
  induction s as [|c s IH]; [done|]. simpl. rewrite str_len_app, !str_len_cons, str_len_nil, IH. lia.
Qed.
Lemma str_len_zero s : str_len s = 0%N → s = [].
Proof. destruct s as [|c s]; [done|]. rewrite str_len_cons. pose proof (len_utf8_pos c). lia. Qed.
Lemma str_len_singleton c : str_len [c] = len_utf8 c.
Proof. rewrite str_len_cons, str_len_nil. lia. Qed.
Lemma len_utf8_ascii c : (c < 0x80)%N → len_utf8 c = 1%N.
Proof. intros H. unfold len_utf8. by rewrite utf8_char_ascii. Qed.

#[export] Hint Rewrite str_len_nil str_len_app str_len_rev : aft_len.

(** ** Slices *)

Lemma split_at_0 s : split_at s 0 = Some ([], s).
Proof. by destruct s. Qed.

Lemma split_at_Some s n a b : split_at s n = Some (a, b) ↔ s = a ++ b ∧ n = str_len a.
Proof.
  revert n a b. induction s as [|c s IH]; intros n a b; simpl.
  - destruct (N.eqb_spec n 0) as [->|Hn]; split.
    + by intros [= <- <-].
    + intros [[-> ->]%eq_sym%app_nil _]. done.
    + done.
    + intros [[-> ->]%eq_sym%app_nil ->]. done.
  - destruct (N.eqb_spec n 0) as [->|Hn]; split.
    + by intros [= <- <-].
    + intros [Hs Hl]. symmetry in Hl. apply str_len_zero in Hl as ->. by rewrite Hs.
    + destruct (N.ltb_spec n (len_utf8 c)); [done|].
      destruct (split_at s (n - len_utf8 c)) as [[a' b']|] eqn:E; [|done]. intros [= <- <-].
      apply IH in E as [-> E]. split; [done|]. rewrite str_len_cons. lia.
    + intros [Hs ->]. destruct a as [|c' a]; [done|]. injection Hs as <- ->. rewrite str_len_cons in *.
      destruct (N.ltb_spec (len_utf8 c + str_len a) (len_utf8 c)); [lia|].
      replace (len_utf8 c + str_len a - len_utf8 c)%N with (str_len a) by lia.
      by rewrite (proj2 (IH (str_len a) a b)).
Qed.

Lemma split_at_app a b : split_at (a ++ b) (str_len a) = Some (a, b).
Proof. by apply split_at_Some. Qed.

Lemma slice_app a m b : slice (a ++ m ++ b) (str_len a) (str_len a + str_len m) = Some m.
Proof.
  unfold slice. destruct (N.ltb_spec (str_len a + str_len m) (str_len a)); [lia|].
  rewrite split_at_app. cbn [mbind option_bind].
  replace (str_len a + str_len m - str_len a)%N with (str_len m) by lia. by rewrite split_at_app.
Qed.

Lemma slice_Some s x y m :
  slice s x y = Some m ↔ ∃ a b, s = a ++ m ++ b ∧ x = str_len a ∧ y = (str_len a + str_len m)%N.
Proof.
  split.
  - unfold slice. destruct (N.ltb_spec y x); [done|].
    destruct (split_at s x) as [[a r]|] eqn:E; [|done]. cbn [mbind option_bind].
    destruct (split_at r (y - x)) as [[m' b]|] eqn:E2; [|done]. intros [= ->].
    apply split_at_Some in E as [-> ->], E2 as [-> Hl]. exists a, b. split_and!; [done|done|lia].
  - intros (a & b & -> & -> & ->). apply slice_app.
Qed.

(** Two decompositions at the same offset agree. *)
Lemma app_str_len_inj (a b c d : str) : a ++ b = c ++ d → str_len a = str_len c → a = c ∧ b = d.
Proof.
  intros H Hl. pose proof (split_at_app a b) as E. rewrite H, Hl, split_at_app in E. by injection E as -> ->.
Qed.

Lemma checked_sub_Some a b : (b ≤ a)%N → checked_sub a b = Some (a - b)%N.
Proof. intros H. unfold checked_sub. by destruct (N.ltb_spec a b); [lia|]. Qed.

(** ** Lines *)

Lemma split_inclusive_line (c : char) l s : c ∉ l → split_inclusive c (l ++ c :: s) = (l ++ [c]) :: split_inclusive c s.
Proof.
  induction l as [|x l IH]; intros Hl; simpl; [by rewrite decide_True|].
  apply not_elem_of_cons in Hl as [Hx Hl]. rewrite decide_False by congruence. by rewrite IH.
Qed.

Lemma split_inclusive_last (c : char) l : c ∉ l → l ≠ [] → split_inclusive c l = [l].
Proof.
  induction l as [|x l IH]; intros Hl Hn; [done|]. simpl. apply not_elem_of_cons in Hl as [Hx Hl].
  rewrite decide_False by congruence. destruct l as [|y l]; [done|]. by rewrite IH.
Qed.

Lemma strip_line (l : str) : strip_suffix [LF] (l ++ [LF]) = Some l.
Proof. by apply strip_suffix_Some. Qed.

Lemma strip_no_line (l : str) : LF ∉ l → strip_suffix [LF] l = None.
Proof.
  intros Hl. destruct (strip_suffix [LF] l) as [r|] eqn:E; [|done]. apply strip_suffix_Some in E as ->.
  exfalso. apply Hl. apply elem_of_app. right. by left.
Qed.

(** [p] is the first line of [p ++ rest], with its terminator when it has one. *)
Definition piece_of (p rest : list N) : Prop := (∃ l, p = l ++ [LF] ∧ LF ∉ l) ∨ ((LF ∉ p) ∧ rest = []).

Lemma piece_split p rest : piece_of p rest → p ≠ [] → split_inclusive LF (p ++ rest) = p :: split_inclusive LF rest.
Proof.
  intros [(l & -> & Hl)|[Hp ->]] Hn.
  - rewrite <-app_assoc. by apply split_inclusive_line.
  - rewrite app_nil_r. by apply split_inclusive_last.
Qed.

Lemma piece_exists (s : list N) : s ≠ [] → ∃ p rest, s = p ++ rest ∧ p ≠ [] ∧ piece_of p rest.
Proof.
  intros Hn. destruct (decide (LF ∈ s)) as [Hin|Hout].
  - apply list_elem_of_split_l in Hin as (l & r & -> & Hl). exists (l ++ [LF]), r. rewrite <-app_assoc.
    split_and!; [done|by destruct l|]. left. by exists l.
  - exists s, []. rewrite app_nil_r. split_and!; [done|done|by right].
Qed.

Lemma position_line (l r : list N) : LF ∉ l → position (N.eqb LF) (l ++ LF :: r) = Some (length l).
Proof.
  induction l as [|x l IH]; intros Hl; [done|]. apply not_elem_of_cons in Hl as [Hx Hl]. cbn [app position length].
  rewrite (proj2 (N.eqb_neq LF x) Hx). by rewrite IH.
Qed.

Lemma position_free (l : list N) : LF ∉ l → position (N.eqb LF) l = None.
Proof. intros Hl. apply position_None. intros x Hx. apply N.eqb_neq. by intros <-. Qed.

(** A buffer either ends the first line or is its beginning. *)
Lemma piece_chunk chunk more p rest :
  piece_of p rest → chunk ++ more = p ++ rest →
  (∃ l r, chunk = l ++ LF :: r ∧ (LF ∉ l) ∧ p = l ++ [LF] ∧ rest = r ++ more)
  ∨ ((LF ∉ chunk) ∧ ∃ p', p = chunk ++ p' ∧ more = p' ++ rest ∧ piece_of p' rest).
Proof.
  intros Hp Heq. destruct (decide (LF ∈ chunk)) as [Hin|Hout].
  - left. apply list_elem_of_split_l in Hin as (l & r & -> & Hl). exists l, r. rewrite <-app_assoc in Heq. simpl in Heq.
    destruct Hp as [(l' & -> & Hl')|[Hp ->]].
    + rewrite <-app_assoc in Heq. simpl in Heq. apply not_elem_of_app_cons_inv_l in Heq as (-> & _ & ->); [|done..]. by split_and!.
    + rewrite app_nil_r in Heq. exfalso. apply Hp. rewrite <-Heq. apply elem_of_app. right. left.
  - right. split; [done|]. apply app_eq_app in Heq as [k [[-> ->]|[-> ->]]].
    + apply not_elem_of_app in Hout as [Hp1 Hk]. destruct Hp as [(l' & -> & Hl')|[_ Hk2]].
      { exfalso. apply Hp1. apply elem_of_app. right. left. }
      apply app_eq_nil in Hk2 as [-> ->]. exists []. rewrite !app_nil_r. split_and!; [done|done|right]. split; [apply not_elem_of_nil|done].
    + exists k. split_and!; [done|done|]. destruct Hp as [(l' & Hp & Hl')|[Hp ->]].
      * left. destruct (exists_last (l := k)) as (k' & x & ->).
        { intros ->. rewrite app_nil_r in Hp. subst. apply Hout. apply elem_of_app. right. left. }
        rewrite app_assoc in Hp. apply app_inj_tail in Hp as [<- ->]. exists k'. split; [done|].
        by apply not_elem_of_app in Hl' as [_ ?].
      * right. by apply not_elem_of_app in Hp as [_ ?].
Qed.

End ByteStr.
