(* ===== verification/XxHash.v ===== *)
(** * Hashline tags: [hashline/oracle/xxhash32.rs]

    xxHash32 over bytes with explicit 32-bit wrap-around, the tag normalisation (trailing
    spaces, tabs and carriage returns of every line are ignored) and the four-digit tag.
    The digest loops are modelled with the offsets and bounds of the source; the file
    proves them equal to the stripe-by-stripe reference formulation, and the
    normalisation equal to its line-wise specification. *)

From S2P Require Import Prelude RustStr.

Module XxHash.

(** ** Definitions *)

Definition PRIME1 : N := 0x9E3779B1.
Definition PRIME2 : N := 0x85EBCA77.
Definition PRIME3 : N := 0xC2B2AE3D.
Definition PRIME4 : N := 0x27D4EB2F.
Definition PRIME5 : N := 0x165667B1.

(** Arithmetic of [u32]. *)
Definition u32 (x : N) : N := (x mod 0x100000000)%N.
Definition wrapping_add (a b : N) : N := u32 (a + b).
Definition wrapping_sub (a b : N) : N := u32 (a + 0x100000000 - b).
Definition wrapping_mul (a b : N) : N := u32 (a * b).

Definition rotate_left (value count : N) : N :=
  N.lor (u32 (N.shiftl value count)) (N.shiftr value (32 - count)).

Definition round (accumulator lane : N) : N :=
  wrapping_mul (rotate_left (wrapping_add accumulator (wrapping_mul lane PRIME2)) 13) PRIME1.

(** [u32::from_le_bytes]. *)
Definition from_le_bytes (bs : bytes) : N :=
  foldr (λ b acc, b + 256 * acc)%N 0%N bs.

(** [u32::from_le_bytes(input[offset..offset + 4].try_into().unwrap())]. *)
Definition lane_at (input : bytes) (offset : nat) : N :=
  from_le_bytes (take 4 (drop offset input)).

Record lanes := Lanes { lane1 : N; lane2 : N; lane3 : N; lane4 : N }.

(** One iteration of [while offset <= length - 16]. *)
Definition stripe_step (input : bytes) (offset : nat) (l : lanes) : lanes :=
  Lanes (round (lane1 l) (lane_at input offset))
        (round (lane2 l) (lane_at input (offset + 4)))
        (round (lane3 l) (lane_at input (offset + 8)))
        (round (lane4 l) (lane_at input (offset + 12))).

Fixpoint stripe_loop (fuel : nat) (input : bytes) (offset : nat) (l : lanes) : nat * lanes :=
  match fuel with
  | 0 => (offset, l)
  | S fuel =>
      if decide (offset ≤ length input - 16)
      then stripe_loop fuel input (offset + 16) (stripe_step input offset l)
      else (offset, l)
  end.

(** [while offset + 4 <= length]. *)
Fixpoint word_loop (fuel : nat) (input : bytes) (offset : nat) (r : N) : nat * N :=
  match fuel with
  | 0 => (offset, r)
  | S fuel =>
      if decide (offset + 4 ≤ length input)
      then word_loop fuel input (offset + 4)
             (wrapping_mul (rotate_left
                (wrapping_add r (wrapping_mul (lane_at input offset) PRIME3)) 17) PRIME4)
      else (offset, r)
  end.

(** [while offset < length]. *)
Fixpoint byte_loop (fuel : nat) (input : bytes) (offset : nat) (r : N) : N :=
  match fuel with
  | 0 => r
  | S fuel =>
      match input !! offset with
      | Some b => byte_loop fuel input (offset + 1)
                    (wrapping_mul (rotate_left
                       (wrapping_add r (wrapping_mul b PRIME5)) 11) PRIME1)
      | None => r
      end
  end.

(** The final mix of the digest. *)
Definition avalanche (r : N) : N :=
  let r := N.lxor r (N.shiftr r 15) in
  let r := wrapping_mul r PRIME2 in
  let r := N.lxor r (N.shiftr r 13) in
  let r := wrapping_mul r PRIME3 in
  N.lxor r (N.shiftr r 16).

Definition merge_lanes (l : lanes) : N :=
  wrapping_add (wrapping_add (wrapping_add
    (rotate_left (lane1 l) 1) (rotate_left (lane2 l) 7))
    (rotate_left (lane3 l) 12)) (rotate_left (lane4 l) 18).

Definition initial_lanes (seed : N) : lanes :=
  Lanes (wrapping_add (wrapping_add seed PRIME1) PRIME2) (wrapping_add seed PRIME2)
        seed (wrapping_sub seed PRIME1).

Definition xxhash32 (input : bytes) (seed : N) : N :=
  let length := length input in
  let '(offset, result) :=
    if decide (16 ≤ length)
    then let '(offset, l) := stripe_loop length input 0 (initial_lanes seed) in
         (offset, merge_lanes l)
    else (0, wrapping_add seed PRIME5) in
  let result := wrapping_add result (u32 (N.of_nat length)) in
  let '(offset, result) := word_loop length input offset result in
  avalanche (byte_loop length input offset result).

Definition xxhash32_seed_zero (input : bytes) : N := xxhash32 input 0.

(** [b' ' | b'\t' | b'\r']. *)
Definition is_tag_ws (b : byte) : bool := ((b =? 32) || (b =? 9) || (b =? 13))%N.

(** One byte of [normalize_for_tag]; the [Vec] is a stack, its last element first. *)
Definition normalize_step (normalized : bytes) (b : byte) : bytes :=
  b :: (if decide (b = LF) then drop_while is_tag_ws normalized else normalized).

Definition normalize_for_tag (input : bytes) : bytes :=
  reverse (drop_while is_tag_ws (foldl normalize_step [] input)).

Definition tag_for (input : bytes) : str :=
  fmt_04X (N.land (xxhash32_seed_zero (normalize_for_tag input)) 0xFFFF).

(** ** The reference formulation *)

(** xxHash32 by structural recursion over 16-byte stripes, 4-byte words and bytes. *)
Fixpoint ref_stripes (input : bytes) (l : lanes) : lanes * bytes :=
  match input with
  | a0 :: a1 :: a2 :: a3 :: b0 :: b1 :: b2 :: b3
    :: c0 :: c1 :: c2 :: c3 :: d0 :: d1 :: d2 :: d3 :: rest =>
      ref_stripes rest
        (Lanes (round (lane1 l) (from_le_bytes [a0; a1; a2; a3]))
               (round (lane2 l) (from_le_bytes [b0; b1; b2; b3]))
               (round (lane3 l) (from_le_bytes [c0; c1; c2; c3]))
               (round (lane4 l) (from_le_bytes [d0; d1; d2; d3])))
  | _ => (l, input)
  end.

Fixpoint ref_words (input : bytes) (r : N) : N * bytes :=
  match input with
  | b0 :: b1 :: b2 :: b3 :: rest =>
      ref_words rest
        (wrapping_mul (rotate_left (wrapping_add r
           (wrapping_mul (from_le_bytes [b0; b1; b2; b3]) PRIME3)) 17) PRIME4)
  | _ => (r, input)
  end.

Definition ref_bytes (input : bytes) (r : N) : N :=
  foldl (λ r b, wrapping_mul (rotate_left (wrapping_add r (wrapping_mul b PRIME5)) 11)
                  PRIME1) r input.

Definition xxhash32_ref (input : bytes) (seed : N) : N :=
  let '(r, rest) :=
    if decide (16 ≤ length input)
    then let '(l, rest) := ref_stripes input (initial_lanes seed) in (merge_lanes l, rest)
    else (wrapping_add seed PRIME5, input) in
  let '(r, rest) := ref_words rest (wrapping_add r (u32 (N.of_nat (length input)))) in
  avalanche (ref_bytes rest r).

(** Tag normalisation, line by line. *)
Definition normalize_lines (input : bytes) : bytes :=
  join [LF] (rstrip is_tag_ws <$> split_on LF input).

(** ** The digest loops *)

Lemma ref_stripes_short k l : length k < 16 → ref_stripes k l = (l, k).
Proof. intros Hk. do 16 (destruct k as [|? k]; [done|]). simpl in Hk. lia. Qed.

Lemma ref_words_short k r : length k < 4 → ref_words k r = (r, k).
Proof. intros Hk. do 4 (destruct k as [|? k]; [done|]). simpl in Hk. lia. Qed.

Lemma lane_at_add input offset n :
  lane_at input (offset + n) = from_le_bytes (take 4 (drop n (drop offset input))).
Proof. unfold lane_at. by rewrite drop_drop. Qed.

Lemma ref_stripes_step input offset l :
  offset + 16 ≤ length input →
  ref_stripes (drop offset input) l
  = ref_stripes (drop (offset + 16) input) (stripe_step input offset l).
Proof.
  intros Hlen. unfold stripe_step. rewrite !lane_at_add, <-(Nat.add_0_r offset) at 1.
  replace (offset + 0) with offset by lia.
  replace (lane_at input offset) with (from_le_bytes (take 4 (drop offset input))) by done.
  rewrite <-drop_drop. pose proof (length_drop input offset) as Hk.
  revert Hk. generalize (drop offset input) as k. intros k Hk.
  do 16 (destruct k as [|? k]; [simpl in Hk; lia|]). done.
Qed.

Lemma stripe_loop_spec fuel input offset l off l' :
  16 ≤ length input → offset ≤ length input →
  length input - offset ≤ fuel →
  stripe_loop fuel input offset l = (off, l') →
  off ≤ length input ∧ ref_stripes (drop offset input) l = (l', drop off input).
Proof.
  intros H16. revert offset l. induction fuel as [|fuel IH]; intros offset l Hoff Hfuel; simpl.
  - intros [= <- <-]. split; [lia|]. rewrite drop_ge by lia. done.
  - case_decide as Hd.
    + intros Hl. rewrite ref_stripes_step by lia. eapply IH; [lia..|done].
    + intros [= <- <-]. split; [lia|]. apply ref_stripes_short. rewrite length_drop. lia.
Qed.

Lemma ref_words_step input offset r :
  offset + 4 ≤ length input →
  ref_words (drop offset input) r
  = ref_words (drop (offset + 4) input)
      (wrapping_mul (rotate_left (wrapping_add r
         (wrapping_mul (lane_at input offset) PRIME3)) 17) PRIME4).
Proof.
  intros Hlen. unfold lane_at. rewrite <-drop_drop. pose proof (length_drop input offset) as Hk.
  revert Hk. generalize (drop offset input) as k. intros k Hk.
  do 4 (destruct k as [|? k]; [simpl in Hk; lia|]). done.
Qed.

Lemma word_loop_spec fuel input offset r off r' :
  offset ≤ length input → length input - offset ≤ fuel →
  word_loop fuel input offset r = (off, r') →
  off ≤ length input ∧ ref_words (drop offset input) r = (r', drop off input).
Proof.
  revert offset r. induction fuel as [|fuel IH]; intros offset r Hoff Hfuel; simpl.
  - intros [= <- <-]. split; [lia|]. rewrite drop_ge by lia. done.
  - case_decide as Hd.
    + intros Hl. rewrite ref_words_step by lia. eapply IH; [lia..|done].
    + intros [= <- <-]. split; [lia|]. apply ref_words_short. rewrite length_drop. lia.
Qed.

Lemma byte_loop_spec fuel input offset r :
  length input - offset ≤ fuel →
  byte_loop fuel input offset r = ref_bytes (drop offset input) r.
Proof.
  revert offset r. induction fuel as [|fuel IH]; intros offset r Hfuel; simpl.
  - by rewrite drop_ge by lia.
  - destruct (input !! offset) as [b|] eqn:Hb.
    + rewrite (drop_S input b offset Hb), IH by lia. by rewrite Nat.add_1_r.
    + apply lookup_ge_None in Hb. by rewrite drop_ge by lia.
Qed.

(** the offset-driven digest loops of [xxhash32] compute, on every input and seed, the
    digest of the structural stripe/word/byte formulation: every byte is consumed exactly
    once and in order, and the loops terminate within the input's length. *)
Theorem xxhash32_matches_reference input seed : xxhash32 input seed = xxhash32_ref input seed.
Proof.
  unfold xxhash32, xxhash32_ref. case_decide as H16.
  - destruct (stripe_loop _ _ _ _) as [off l] eqn:Hs.
    apply stripe_loop_spec in Hs as [Hoff Hs]; [|lia..]. rewrite drop_0 in Hs. rewrite Hs.
    destruct (word_loop _ _ _ _) as [off' r] eqn:Hw.
    apply word_loop_spec in Hw as [_ ->]; [|lia..]. by rewrite byte_loop_spec by lia.
  - destruct (word_loop _ _ _ _) as [off' r] eqn:Hw.
    apply word_loop_spec in Hw as [_ Hw]; [|lia..]. rewrite drop_0 in Hw. rewrite Hw.
    by rewrite byte_loop_spec by lia.
Qed.

(** The pinned vectors of the source's tests. *)
Example xxhash32_vectors :
  xxhash32_seed_zero [] = 0x02CC5D05%N ∧
  xxhash32_seed_zero (lit "a") = 0x550D7456%N ∧
  xxhash32_seed_zero (lit "abc") = 0x32D153FF%N ∧
  xxhash32_seed_zero (lit "abcdefghijklmnopqrstuvwxyz") = 0x63A14D5F%N ∧
  xxhash32_seed_zero (lit "The quick brown fox jumps over the lazy dog") = 0xE85EA4DE%N ∧
  xxhash32_seed_zero (N.of_nat <$> seq 0 16) = 0xB72837F4%N ∧
  xxhash32_seed_zero (N.of_nat <$> seq 0 17) = 0x7C77ADC2%N ∧
  xxhash32_seed_zero (concat (replicate 16 (N.of_nat <$> seq 0 256))) = 0x693C0BC2%N.
Proof. vm_compute. done. Qed.

(** ** Tag normalisation *)

Lemma foldl_normalize_line acc l :
  LF ∉ l → foldl normalize_step acc l = reverse l ++ acc.
Proof.
  revert acc; induction l as [|b l IH]; intros acc Hl; simpl; [done|].
  apply not_elem_of_cons in Hl as [Hb Hl]. rewrite IH by done.
  unfold normalize_step. rewrite decide_False by done. by rewrite reverse_cons, <-app_assoc.
Qed.

(** The head of a stack that is at the start of a line is not stripped. *)
Lemma drop_tag_ws_line acc l :
  (∀ x, head acc = Some x → is_tag_ws x = false) →
  drop_while is_tag_ws (reverse l ++ acc) = reverse (rstrip is_tag_ws l) ++ acc.
Proof.
  intros Hacc. rewrite drop_while_app_stop by done. unfold rstrip.
  by rewrite reverse_involutive.
Qed.

Lemma normalize_join acc l ls :
  (∀ x, head acc = Some x → is_tag_ws x = false) →
  LF ∉ l → Forall (λ p, LF ∉ p) ls →
  drop_while is_tag_ws (foldl normalize_step acc (join [LF] (l :: ls)))
  = reverse (join [LF] (rstrip is_tag_ws <$> l :: ls)) ++ acc.
Proof.
  intros Hacc Hl Hls. revert acc l Hacc Hl.
  induction Hls as [|l' ls Hl' Hls IH]; intros acc l Hacc Hl.
  { simpl. rewrite foldl_normalize_line by done. by apply drop_tag_ws_line. }
  rewrite join_cons by done. rewrite foldl_app, (foldl_normalize_line acc l) by done.
  change ([LF] ++ join [LF] (l' :: ls)) with (LF :: join [LF] (l' :: ls)).
  cbn [foldl].
  change (normalize_step (reverse l ++ acc) LF)
    with (LF :: drop_while is_tag_ws (reverse l ++ acc)).
  rewrite drop_tag_ws_line by done. rewrite IH; [|by intros ? [= <-]|exact Hl'].
  change (rstrip is_tag_ws <$> l :: l' :: ls)
    with (rstrip is_tag_ws l :: (rstrip is_tag_ws <$> l' :: ls)).
  rewrite join_cons by done. rewrite !reverse_app. by rewrite <-!app_assoc.
Qed.

Lemma normalize_for_tag_lines input : normalize_for_tag input = normalize_lines input.
Proof.
  unfold normalize_for_tag, normalize_lines.
  rewrite <-(join_split_on LF input) at 1.
  pose proof (split_on_free LF input) as Hfree. pose proof (split_on_nonempty LF input) as Hne.
  destruct (split_on LF input) as [|l ls]; [done|]. inversion Hfree; subst.
  by rewrite normalize_join, app_nil_r, reverse_involutive.
Qed.

Lemma rstrip_LF_free l : LF ∉ l → LF ∉ rstrip is_tag_ws l.
Proof.
  intros Hl Hin. apply Hl. destruct (rstrip_prefix is_tag_ws l) as (k & Hk & _).
  rewrite Hk. apply elem_of_app. by left.
Qed.

Lemma normalize_lines_join ls :
  ls ≠ [] → Forall (λ p, LF ∉ p) ls →
  normalize_lines (join [LF] ls) = join [LF] (rstrip is_tag_ws <$> ls).
Proof. intros. unfold normalize_lines. by rewrite split_on_join. Qed.

Lemma normalize_for_tag_idemp input :
  normalize_for_tag (normalize_for_tag input) = normalize_for_tag input.
Proof.
  rewrite !normalize_for_tag_lines. unfold normalize_lines at 2 3.
  rewrite normalize_lines_join.
  - f_equal. rewrite <-list_fmap_compose. apply list_fmap_ext. intros i x _. apply rstrip_idemp.
  - pose proof (split_on_nonempty LF input). by destruct (split_on LF input).
  - apply Forall_fmap. eapply Forall_impl; [apply split_on_free|]. intros x. apply rstrip_LF_free.
Qed.

(** the one-pass stack normalisation is exactly the line-wise one (trailing spaces,
    tabs and carriage returns of every line removed, everything else kept), so files whose
    lines agree up to such trailing bytes get the same four-digit tag, whatever their line
    terminators are. *)
Theorem tag_ignores_trailing_blanks ls1 ls2 :
  ls1 ≠ [] → ls2 ≠ [] → Forall (λ l, LF ∉ l) ls1 → Forall (λ l, LF ∉ l) ls2 →
  rstrip is_tag_ws <$> ls1 = rstrip is_tag_ws <$> ls2 →
  normalize_for_tag (join [LF] ls1) = join [LF] (rstrip is_tag_ws <$> ls1) ∧
  tag_for (join [LF] ls1) = tag_for (join [LF] ls2).
Proof.
  intros Hn1 Hn2 H1 H2 Heq.
  unfold tag_for. rewrite !normalize_for_tag_lines, !normalize_lines_join by done.
  by rewrite Heq.
Qed.

Lemma tag_ignores_trailing_blanks_witness :
  tag_for (join [LF] [lit "alpha" ++ [32; 9; 13]%N; lit "beta" ++ [13]%N; []])
  = tag_for (join [LF] [lit "alpha"; lit "beta"; []]).
Proof.
  apply (tag_ignores_trailing_blanks
    [lit "alpha" ++ [32; 9; 13]%N; lit "beta" ++ [13]%N; []] [lit "alpha"; lit "beta"; []]);
    by_compute.
Defined.

End XxHash.
