(* ===== verification/Scan.v ===== *)
(** * The byte scanner: [hashline/scan/mod.rs]

    One forward pass over a byte stream, fed in chunks, that splits the stream into raw
    line records, retains the rows selected by the request, and publishes one snapshot
    (tag, records, coverage, boundary evidence) when end of file is observed.  Also the
    reader loop and the descriptor-based capture with its single retry. *)

From S2P Require Import Prelude RustStr XxHash.
Import XxHash.

(** A [PathBuf] is the sequence of its components, which is what Rust compares. *)
Abbreviation PathBuf := (list str) (only parsing).

Module Scan.

(** ** Data *)

Definition MAX_FILE_READ_BYTES : N := 64 * 1024 * 1024.

Inductive TerminatorKind := Lf | CrLf | NoTerminator.
#[export] Instance TerminatorKind_eq_dec : EqDecision TerminatorKind.
Proof. solve_decision. Defined.

Record RawLineRecord := RawLine { content : bytes; terminator : TerminatorKind }.
#[export] Instance RawLineRecord_eq_dec : EqDecision RawLineRecord.
Proof. solve_decision. Defined.

(** [RawLineRecord::to_bytes]. *)
Definition to_bytes (r : RawLineRecord) : bytes :=
  content r ++ match terminator r with Lf => [LF] | CrLf => [CR; LF] | NoTerminator => [] end.

Record RetainedLine := Retained {
  line_number : nat; record : RawLineRecord; byte_start : N; byte_end : N }.
#[export] Instance RetainedLine_eq_dec : EqDecision RetainedLine.
Proof. solve_decision. Defined.

Record CoverageInput := Coverage { requested_lines : gset nat; retain_all : bool }.

Definition coverage_none : CoverageInput := Coverage ∅ false.
Definition coverage_whole_file : CoverageInput := Coverage ∅ true.
Definition coverage_lines (lines : gset nat) : CoverageInput := Coverage lines false.
Definition coverage_range (first last : nat) : CoverageInput :=
  if decide (last < first) then coverage_none
  else Coverage (list_to_set (range_incl first last)) false.

Definition retains (c : CoverageInput) (n : nat) : bool :=
  retain_all c || bool_decide (n ∈ requested_lines c).

Record FileIdentity := Identity { device : N; inode : N }.
#[export] Instance FileIdentity_eq_dec : EqDecision FileIdentity.
Proof. solve_decision. Defined.

Record CaptureProvenance := Provenance {
  cp_source : option PathBuf;
  cp_file_identity : option FileIdentity;
  cp_byte_len : option N;
  cp_modified : option N;
  cp_labels : gmap str str }.

Definition default_provenance : CaptureProvenance := Provenance None None None None ∅.

Definition with_byte_len (p : CaptureProvenance) (n : N) : CaptureProvenance :=
  Provenance (cp_source p) (cp_file_identity p) (Some n) (cp_modified p) (cp_labels p).

(** Two observations of one optional fact disagree only if both provide it. *)
Definition differs {A} `{EqDecision A} (a b : option A) : bool :=
  match a, b with Some x, Some y => bool_decide (x ≠ y) | _, _ => false end.

Definition same_file_version (p q : CaptureProvenance) : bool :=
  if differs (cp_file_identity p) (cp_file_identity q) then false
  else if differs (cp_byte_len p) (cp_byte_len q) then false
  else if differs (cp_modified p) (cp_modified q) then false
  else true.

Record ScanRequest := Request { coverage : CoverageInput; provenance : CaptureProvenance }.

Definition request_new (c : CoverageInput) : ScanRequest := Request c default_provenance.
Definition request_whole_file : ScanRequest := request_new coverage_whole_file.

Record ScanCoverage := ScanCov {
  sc_requested_lines : gset nat;
  sc_retain_all : bool;
  sc_retained_lines : gset nat;
  sc_seen_lines : gset nat;
  sc_scanned_line_count : nat;
  sc_total_lines : nat;
  sc_byte_count : N;
  sc_eof_observed : bool }.

Record BoundaryEvidence := Boundary {
  empty_file : bool; bof_observed : bool; eof_observed : bool;
  first_seen : option nat; last_seen : option nat }.

Record Snapshot := MkSnapshot {
  tag : str;
  normalized_bytes : bytes;
  records : gmap nat RawLineRecord;
  retained_lines : gmap nat RetainedLine;
  snap_coverage : ScanCoverage;
  boundary : BoundaryEvidence;
  total_lines : nat;
  byte_count : N;
  snap_provenance : CaptureProvenance;
  capture_provenance : CaptureProvenance }.

(** [Snapshot::is_seen] and [Snapshot::raw_record]. *)
Definition is_seen (s : Snapshot) (n : nat) : bool :=
  bool_decide (n ∈ sc_seen_lines (snap_coverage s)).
Definition raw_record (s : Snapshot) (n : nat) : option RawLineRecord := records s !! n.

Record ScanResult := Scanned {
  sr_snapshot : option Snapshot;
  sr_coverage : ScanCoverage;
  sr_provenance : CaptureProvenance;
  sr_capture_provenance : CaptureProvenance }.

(** An [io::Error] carries its message. *)
Inductive ScanError := ScanIo (e : str) | AlreadyFinished.

Record ForwardScanner := Scanner {
  fs_request : ScanRequest;
  fs_capture : CaptureProvenance;
  fs_raw_bytes : bytes;
  fs_current_line : bytes;
  fs_current_line_start : N;
  fs_next_line_number : nat;
  fs_scanned_line_count : nat;
  fs_retained : gmap nat RetainedLine;
  fs_finished : bool;
  fs_published : option Snapshot }.

(** ** Operations *)

Definition with_capture_provenance (r : ScanRequest) (p : CaptureProvenance) :
    ForwardScanner :=
  Scanner r p [] [] 0 1 0 ∅ false None.

Definition scanner_new (r : ScanRequest) : ForwardScanner :=
  with_capture_provenance r default_provenance.

(** [retain_line_if_requested] on the retained map. *)
Definition retain_line_if_requested (r : ScanRequest) (m : gmap nat RetainedLine)
    (n : nat) (rec : RawLineRecord) (start stop : N) : gmap nat RetainedLine :=
  if retains (coverage r) n then <[n := Retained n rec start stop]> m else m.

(** The record of a line whose bytes, without the LF, are [content]. *)
Definition terminated_record (content : bytes) : RawLineRecord :=
  match strip_suffix [CR] content with
  | Some content' => RawLine content' CrLf
  | None => RawLine content Lf
  end.

(** One segment of [push]'s loop; [consumed] counts bytes of the chunk so far. *)
Definition push_segment (chunk_start : N) (st : N * ForwardScanner) (segment : bytes) :
    N * ForwardScanner :=
  let '(consumed, s) := st in
  let consumed := (consumed + N.of_nat (length segment))%N in
  match strip_suffix [LF] segment with
  | Some body =>
      let line := fs_current_line s ++ body in
      let byte_end := (chunk_start + consumed)%N in
      (consumed,
       Scanner (fs_request s) (fs_capture s) (fs_raw_bytes s) [] byte_end
         (S (fs_next_line_number s)) (S (fs_scanned_line_count s))
         (retain_line_if_requested (fs_request s) (fs_retained s) (fs_next_line_number s)
            (terminated_record line) (fs_current_line_start s) byte_end)
         (fs_finished s) (fs_published s))
  | None =>
      (consumed,
       Scanner (fs_request s) (fs_capture s) (fs_raw_bytes s)
         (fs_current_line s ++ segment) (fs_current_line_start s)
         (fs_next_line_number s) (fs_scanned_line_count s) (fs_retained s)
         (fs_finished s) (fs_published s))
  end.

Definition push (s : ForwardScanner) (bs : bytes) : result ScanError ForwardScanner :=
  if fs_finished s then Err AlreadyFinished
  else
    let chunk_start := N.of_nat (length (fs_raw_bytes s)) in
    let s := Scanner (fs_request s) (fs_capture s) (fs_raw_bytes s ++ bs)
               (fs_current_line s) (fs_current_line_start s) (fs_next_line_number s)
               (fs_scanned_line_count s) (fs_retained s) (fs_finished s)
               (fs_published s) in
    Ok (foldl (push_segment chunk_start) (0%N, s) (split_inclusive LF bs)).2.

(** [finish] flushes an unterminated last line, then publishes. *)
Definition flush (s : ForwardScanner) : ForwardScanner :=
  match fs_current_line s with
  | [] => s
  | line =>
      Scanner (fs_request s) (fs_capture s) (fs_raw_bytes s) [] (fs_current_line_start s)
        (fs_next_line_number s) (S (fs_scanned_line_count s))
        (retain_line_if_requested (fs_request s) (fs_retained s) (fs_next_line_number s)
           (RawLine line NoTerminator) (fs_current_line_start s)
           (N.of_nat (length (fs_raw_bytes s))))
        (fs_finished s) (fs_published s)
  end.

(** [keys().next()] and [keys().next_back()]. *)
Definition first_key {V} (m : gmap nat V) : option nat := head (btree_keys m).
Definition last_key {V} (m : gmap nat V) : option nat := last (btree_keys m).

Definition finish_coverage (s : ForwardScanner) : ScanCoverage :=
  ScanCov (requested_lines (coverage (fs_request s))) (retain_all (coverage (fs_request s)))
    (dom (fs_retained s)) (dom (fs_retained s)) (fs_scanned_line_count s)
    (fs_scanned_line_count s) (N.of_nat (length (fs_raw_bytes s))) true.

Definition finish_snapshot (s : ForwardScanner) : Snapshot :=
  let normalized := normalize_for_tag (fs_raw_bytes s) in
  MkSnapshot (fmt_04X (N.land (xxhash32_seed_zero normalized) 0xFFFF)) normalized
    (record <$> fs_retained s) (fs_retained s) (finish_coverage s)
    (Boundary (bool_decide (fs_raw_bytes s = [])) true true
       (first_key (fs_retained s)) (last_key (fs_retained s)))
    (fs_scanned_line_count s) (N.of_nat (length (fs_raw_bytes s)))
    (provenance (fs_request s))
    (with_byte_len (fs_capture s) (N.of_nat (length (fs_raw_bytes s)))).

Definition finish (s : ForwardScanner) : result ScanError (ScanResult * ForwardScanner) :=
  if fs_finished s then Err AlreadyFinished
  else
    let s := flush s in
    let snapshot := finish_snapshot s in
    Ok (Scanned (Some snapshot) (finish_coverage s) (provenance (fs_request s))
          (capture_provenance snapshot),
        Scanner (fs_request s) (fs_capture s) [] [] (fs_current_line_start s)
          (fs_next_line_number s) (fs_scanned_line_count s) ∅ true (Some snapshot)).

(** The read loop: one element of [reads] per [Read::read] call; a read of no bytes is
    end of file, and so is the end of the list. *)
Fixpoint push_reads (s : ForwardScanner) (reads : list (result str bytes)) :
    result ScanError ForwardScanner :=
  match reads with
  | [] => Ok s
  | Err e :: _ => Err (ScanIo e)
  | Ok [] :: _ => Ok s
  | Ok bs :: reads => s ← push s bs; push_reads s reads
  end.

Definition scan_reader_with_provenance (reads : list (result str bytes)) (r : ScanRequest)
    (p : CaptureProvenance) : result ScanError ScanResult :=
  s ← push_reads (with_capture_provenance r p) reads;
  '(res, _) ← finish s; Ok res.

Definition scan_bytes_with_request (bs : bytes) (r : ScanRequest) : result ScanError ScanResult :=
  let p := with_byte_len (provenance r) (N.of_nat (length bs)) in
  s ← push (with_capture_provenance r p) bs;
  '(res, _) ← finish s; Ok res.

(** The snapshot of an in-memory scan; [None] would be the source's [expect] failing. *)
Definition scan_snapshot (bs : bytes) (r : ScanRequest) : option Snapshot :=
  match scan_bytes_with_request bs r with
  | Ok res => sr_snapshot res
  | Err _ => None
  end.

(** What the file system reports about an open file or a path. *)
Record Metadata := MkMetadata { md_identity : FileIdentity; md_len : N; md_modified : option N }.

Definition from_metadata (source : PathBuf) (m : Metadata) : CaptureProvenance :=
  Provenance (Some source) (Some (md_identity m)) (Some (md_len m)) (md_modified m) ∅.

Inductive CaptureError :=
  | CaptureIo (e : str)
  | Unstable (before after : CaptureProvenance) (observed_bytes : N).

Definition capture_error_of_scan (e : ScanError) : CaptureError :=
  match e with
  | ScanIo e => CaptureIo e
  | AlreadyFinished => CaptureIo (lit "hashline scan finished before capture completed")
  end.

(** The answers of the operating system during one [capture_path_once]. *)
Record Attempt := MkAttempt {
  at_open : result str Metadata;
  at_reads : list (result str bytes);
  at_after_descriptor : result str Metadata;
  at_after_path : result str Metadata }.

Definition capture_path_once (path : PathBuf) (r : ScanRequest) (a : Attempt) :
    result CaptureError Snapshot :=
  m ← map_err CaptureIo (at_open a);
  let before := from_metadata path m in
  res ← map_err capture_error_of_scan (scan_reader_with_provenance (at_reads a) r before);
  m ← map_err CaptureIo (at_after_descriptor a);
  let after_descriptor := from_metadata path m in
  m ← map_err CaptureIo (at_after_path a);
  let after_path := from_metadata path m in
  let observed := sc_byte_count (sr_coverage res) in
  let stable :=
    same_file_version before after_descriptor && same_file_version before after_path
    && bool_decide (cp_byte_len before = Some observed)
    && bool_decide (cp_byte_len after_descriptor = Some observed)
    && bool_decide (cp_byte_len after_path = Some observed) in
  if stable then ok_or (Unstable before after_path observed) (sr_snapshot res)
  else Err (Unstable before after_path observed).

(** One retry, on the first instability only; the answer carries the attempt number. *)
Definition capture_path (path : PathBuf) (r : ScanRequest) (a1 a2 : Attempt) :
    result CaptureError (Snapshot * nat) :=
  match capture_path_once path r a1 with
  | Ok s => Ok (s, 1)
  | Err (Unstable _ _ _) =>
      match capture_path_once path r a2 with
      | Ok s => Ok (s, 2)
      | Err e => Err e
      end
  | Err e => Err e
  end.

(** ** Reference: one byte at a time *)

Definition set_raw (s : ForwardScanner) (raw : bytes) : ForwardScanner :=
  Scanner (fs_request s) (fs_capture s) raw (fs_current_line s) (fs_current_line_start s)
    (fs_next_line_number s) (fs_scanned_line_count s) (fs_retained s) (fs_finished s)
    (fs_published s).

(** Feed one byte to an unfinished scanner. *)
Definition push_byte (s : ForwardScanner) (b : byte) : ForwardScanner :=
  let raw := fs_raw_bytes s ++ [b] in
  let byte_end := N.of_nat (length raw) in
  if decide (b = LF) then
    Scanner (fs_request s) (fs_capture s) raw [] byte_end
      (S (fs_next_line_number s)) (S (fs_scanned_line_count s))
      (retain_line_if_requested (fs_request s) (fs_retained s) (fs_next_line_number s)
         (terminated_record (fs_current_line s)) (fs_current_line_start s) byte_end)
      (fs_finished s) (fs_published s)
  else
    Scanner (fs_request s) (fs_capture s) raw (fs_current_line s ++ [b])
      (fs_current_line_start s) (fs_next_line_number s) (fs_scanned_line_count s)
      (fs_retained s) (fs_finished s) (fs_published s).

(** The lines completed by [bs] (without their LF) and the unterminated rest. *)
Definition line_step (st : list bytes * bytes) (b : byte) : list bytes * bytes :=
  if decide (b = LF) then (st.1 ++ [st.2], []) else (st.1, st.2 ++ [b]).
Definition scan_lines (bs : bytes) : list bytes * bytes := foldl line_step ([], []) bs.

(** Every raw record of [bs], in order. *)
Definition raw_line_records (bs : bytes) : list RawLineRecord :=
  let '(ls, cur) := scan_lines bs in
  (terminated_record <$> ls) ++ match cur with [] => [] | _ => [RawLine cur NoTerminator] end.

(** Byte offset at which line [n] (1-based) starts. *)
Definition line_offset (recs : list RawLineRecord) (n : nat) : N :=
  N.of_nat (length (concat (to_bytes <$> take (n - 1) recs))).

(** ** Chunked and byte-wise scanning agree *)

Lemma split_inclusive_segments bs :
  Forall (λ seg, (∃ body, seg = body ++ [LF] ∧ LF ∉ body) ∨ (seg ≠ [] ∧ LF ∉ seg))
    (split_inclusive LF bs).
Proof.
  induction bs as [|b bs IH]; simpl; [constructor|]. case_decide; subst.
  - constructor; [|done]. left. exists []. split; [done|]. apply not_elem_of_nil.
  - destruct (split_inclusive LF bs) as [|p ps]; inversion IH as [|?? Hp Hps]; subst.
    + constructor; [|constructor]. right. split; [done|]. rewrite not_elem_of_cons. split; [congruence|].
      apply not_elem_of_nil.
    + constructor; [|done]. destruct Hp as [(body & -> & Hb)|[_ Hp]].
      * left. exists (b :: body). split; [done|]. rewrite not_elem_of_cons. by split.
      * right. split; [done|]. rewrite not_elem_of_cons. by split.
Qed.

Lemma push_bytes_free s body :
  LF ∉ body →
  foldl push_byte s body
  = Scanner (fs_request s) (fs_capture s) (fs_raw_bytes s ++ body)
      (fs_current_line s ++ body) (fs_current_line_start s) (fs_next_line_number s)
      (fs_scanned_line_count s) (fs_retained s) (fs_finished s) (fs_published s).
Proof.
  revert s; induction body as [|b body IH]; intros s Hb; simpl.
  - rewrite !app_nil_r. by destruct s.
  - apply not_elem_of_cons in Hb as [Hne Hb]. rewrite IH by done.
    unfold push_byte. rewrite decide_False by done. simpl. by rewrite <-!app_assoc.
Qed.

Lemma push_segment_bytes cs consumed s seg full :
  (∃ body, seg = body ++ [LF] ∧ LF ∉ body) ∨ (seg ≠ [] ∧ LF ∉ seg) →
  N.of_nat (length (fs_raw_bytes s)) = (cs + consumed)%N →
  push_segment cs (consumed, set_raw s full) seg
  = ((consumed + N.of_nat (length seg))%N, set_raw (foldl push_byte s seg) full).
Proof.
  intros Hseg Hlen. unfold push_segment. destruct Hseg as [(body & -> & Hb)|[Hne Hb]].
  - rewrite (proj2 (strip_suffix_Some [LF] (body ++ [LF]) body) eq_refl).
    rewrite foldl_app, (push_bytes_free s body) by done. simpl. unfold push_byte. simpl.
    unfold set_raw. simpl. do 2 f_equal.
    all: rewrite !length_app in *; simpl in *; try (f_equal; lia); lia.
  - destruct (strip_suffix [LF] seg) as [body|] eqn:E.
    { apply strip_suffix_Some in E as ->. exfalso. apply Hb, elem_of_app. right. by left. }
    rewrite push_bytes_free by done. done.
Qed.

Lemma push_segments_bytes cs segs consumed s full :
  Forall (λ seg, (∃ body, seg = body ++ [LF] ∧ LF ∉ body) ∨ (seg ≠ [] ∧ LF ∉ seg)) segs →
  N.of_nat (length (fs_raw_bytes s)) = (cs + consumed)%N →
  (foldl (push_segment cs) (consumed, set_raw s full) segs).2
  = set_raw (foldl push_byte s (concat segs)) full.
Proof.
  intros Hsegs. revert consumed s. induction Hsegs as [|seg segs Hseg _ IH];
    intros consumed s Hlen; [done|].
  cbn [foldl concat]. rewrite push_segment_bytes by done. rewrite foldl_app. apply IH.
  destruct Hseg as [(body & -> & Hb)|[_ Hb]].
  - rewrite foldl_app, (push_bytes_free s body) by done. simpl. unfold push_byte. simpl.
    rewrite !length_app. simpl. lia.
  - rewrite push_bytes_free by done. simpl. rewrite length_app. lia.
Qed.

Lemma push_byte_raw s bs : fs_raw_bytes (foldl push_byte s bs) = fs_raw_bytes s ++ bs.
Proof.
  revert s; induction bs as [|b bs IH]; intros s; simpl; [by rewrite app_nil_r|].
  rewrite IH. unfold push_byte. case_decide; simpl; by rewrite <-app_assoc.
Qed.

Lemma push_byte_finished s bs : fs_finished (foldl push_byte s bs) = fs_finished s.
Proof.
  revert s; induction bs as [|b bs IH]; intros s; simpl; [done|].
  rewrite IH. unfold push_byte. by case_decide.
Qed.

(** The segment-wise [push] refines the byte-wise scanner. *)
Lemma push_bytes s bs :
  fs_finished s = false → push s bs = Ok (foldl push_byte s bs).
Proof.
  intros Hf.
  pose proof (push_segments_bytes (N.of_nat (length (fs_raw_bytes s))) (split_inclusive LF bs)
    0 s (fs_raw_bytes s ++ bs) (split_inclusive_segments bs) ltac:(lia)) as H.
  unfold set_raw in H at 1. unfold push. rewrite Hf in *. rewrite H, split_inclusive_concat.
  f_equal. pose proof (push_byte_raw s bs) as Hraw. revert Hraw.
  by destruct (foldl push_byte s bs); simpl; intros <-.
Qed.

Lemma push_app s bs1 bs2 :
  fs_finished s = false → push s (bs1 ++ bs2) = s' ← push s bs1; push s' bs2.
Proof.
  intros Hf. rewrite !push_bytes by done. unfold mbind, result_bind.
  rewrite push_bytes by (by rewrite push_byte_finished). by rewrite foldl_app.
Qed.

(** ** What a scan publishes *)

(** The record of 1-based line [n]. *)
Definition rec_at (recs : list RawLineRecord) (n : nat) : option RawLineRecord :=
  match n with 0 => None | S i => recs !! i end.

(** The retained line a request keeps for line [n]. *)
Definition expected_line (c : CoverageInput) (recs : list RawLineRecord) (n : nat) :
    option RetainedLine :=
  if retains c n
  then (λ rec, Retained n rec (line_offset recs n) (line_offset recs (S n))) <$> rec_at recs n
  else None.

(** [s] is the coherent snapshot of the bytes [bs] restricted to the coverage [c]. *)
Record snapshot_of (bs : bytes) (c : CoverageInput) (s : Snapshot) : Prop := {
  so_tag : tag s = tag_for bs;
  so_normalized : normalized_bytes s = normalize_for_tag bs;
  so_total : total_lines s = length (raw_line_records bs);
  so_retained : ∀ n, retained_lines s !! n = expected_line c (raw_line_records bs) n;
  so_records : ∀ n, records s !! n =
    if retains c n then rec_at (raw_line_records bs) n else None;
  so_seen : ∀ n, n ∈ sc_seen_lines (snap_coverage s) ↔ is_Some (records s !! n);
  so_eof : eof_observed (boundary s) = true;
  so_bof : bof_observed (boundary s) = true;
  so_empty : empty_file (boundary s) = bool_decide (bs = []);
  so_bytes : byte_count s = N.of_nat (length bs) }.

Lemma to_bytes_terminated l : to_bytes (terminated_record l) = l ++ [LF].
Proof.
  unfold terminated_record, to_bytes. destruct (strip_suffix [CR] l) as [l'|] eqn:E; [|done].
  apply strip_suffix_Some in E as ->. simpl. by rewrite <-app_assoc.
Qed.

Lemma scan_lines_snoc bs b : scan_lines (bs ++ [b]) = line_step (scan_lines bs) b.
Proof. unfold scan_lines. by rewrite foldl_app. Qed.

Lemma scan_lines_concat bs ls cur :
  scan_lines bs = (ls, cur) → concat (to_bytes <$> (terminated_record <$> ls)) ++ cur = bs.
Proof.
  revert ls cur. induction bs as [|b bs IH] using rev_ind; intros ls cur.
  - by intros [= <- <-].
  - rewrite scan_lines_snoc. destruct (scan_lines bs) as [ls' cur'] eqn:E.
    specialize (IH _ _ eq_refl). unfold line_step; simpl. case_decide as Hb; intros [= <- <-]; [subst b|].
    + rewrite !fmap_app, concat_app. simpl. rewrite to_bytes_terminated.
      by rewrite !app_nil_r, app_assoc, IH.
    + by rewrite app_assoc, IH.
Qed.

(** Reading the records back yields the scanned bytes. *)
Lemma raw_line_records_concat bs : concat (to_bytes <$> raw_line_records bs) = bs.
Proof.
  unfold raw_line_records. destruct (scan_lines bs) as [ls cur] eqn:E.
  apply scan_lines_concat in E. rewrite fmap_app, concat_app.
  destruct cur; simpl in *; [by rewrite app_nil_r in *|].
  by rewrite !app_nil_r.
Qed.

Lemma line_offset_app recs recs' n :
  n - 1 ≤ length recs → line_offset (recs ++ recs') n = line_offset recs n.
Proof. intros. unfold line_offset. by rewrite take_app_le. Qed.

Lemma line_offset_end recs n :
  n = S (length recs) → line_offset recs n = N.of_nat (length (concat (to_bytes <$> recs))).
Proof. intros ->. unfold line_offset. by rewrite take_ge by lia. Qed.

(** Retaining the next record extends the expected map by that line. *)
Lemma expected_line_snoc r m recs rec start stop :
  (∀ n, m !! n = expected_line (coverage r) recs n) →
  start = line_offset (recs ++ [rec]) (S (length recs)) →
  stop = line_offset (recs ++ [rec]) (S (S (length recs))) →
  ∀ n, retain_line_if_requested r m (S (length recs)) rec start stop !! n
       = expected_line (coverage r) (recs ++ [rec]) n.
Proof.
  intros Hm -> -> n. unfold retain_line_if_requested.
  assert (n ≠ S (length recs) →
    expected_line (coverage r) recs n = expected_line (coverage r) (recs ++ [rec]) n) as Hother.
  { intros Hn. unfold expected_line. destruct (retains _ n); [|done].
    destruct n as [|i]; [done|]. simpl. destruct (decide (i < length recs)) as [Hi|Hi].
    - rewrite lookup_app_l by done. apply lookup_lt_is_Some in Hi as [x Hx]. rewrite Hx. simpl.
      apply lookup_lt_Some in Hx. rewrite !line_offset_app by lia. done.
    - rewrite !lookup_ge_None_2; [done|rewrite length_app; simpl; lia|lia]. }
  destruct (decide (n = S (length recs))) as [->|Hn].
  - unfold expected_line at 1. simpl rec_at. rewrite list_lookup_middle by done. simpl.
    destruct (retains _ _) eqn:E; [by rewrite lookup_insert_eq|].
    rewrite Hm. unfold expected_line. by rewrite E.
  - rewrite <-Hother, <-Hm by done. case_match; [|done]. by rewrite lookup_insert_ne.
Qed.

(** The scanner after the bytes [bs]. *)
Record scan_inv (r : ScanRequest) (p : CaptureProvenance) (bs : bytes) (s : ForwardScanner) :
    Prop := {
  si_state : ∃ m, s = Scanner r p bs (scan_lines bs).2
    (N.of_nat (length (concat (to_bytes <$> (terminated_record <$> (scan_lines bs).1)))))
    (S (length (scan_lines bs).1)) (length (scan_lines bs).1) m false None;
  si_retained : ∀ n, fs_retained s !! n
    = expected_line (coverage r) (terminated_record <$> (scan_lines bs).1) n }.

Lemma scan_invariant r p bs :
  scan_inv r p bs (foldl push_byte (with_capture_provenance r p) bs).
Proof.
  induction bs as [|b bs [(m & Hs) Hm]] using rev_ind.
  { split; simpl; [by exists ∅|]. intros n. rewrite lookup_empty. unfold expected_line.
    destruct n; simpl; by case_match. }
  rewrite foldl_app. cbn [foldl]. rewrite Hs in Hm |- *. simpl in Hm.
  pose proof (scan_lines_concat bs (scan_lines bs).1 (scan_lines bs).2 ltac:(by destruct (scan_lines bs)))
    as Hcat.
  assert (scan_lines (bs ++ [b]) = if decide (b = LF) then ((scan_lines bs).1 ++ [(scan_lines bs).2], [])
    else ((scan_lines bs).1, (scan_lines bs).2 ++ [b])) as Hnext by apply scan_lines_snoc.
  unfold push_byte. simpl. case_decide as Hb.
  - subst b. assert (N.of_nat (length (bs ++ [LF])) = N.of_nat (length (concat
      (to_bytes <$> (terminated_record <$> (scan_lines bs).1 ++ [(scan_lines bs).2]))))) as Hend.
    { rewrite <-Hcat at 1. rewrite !fmap_app, concat_app. simpl. rewrite to_bytes_terminated.
      by rewrite app_nil_r, <-app_assoc. }
    split; rewrite Hnext; simpl.
    + eexists. rewrite Hend, length_app. simpl. repeat f_equal; lia.
    + rewrite fmap_app. simpl. rewrite <-(length_fmap terminated_record (scan_lines bs).1).
      apply expected_line_snoc; [done| |].
      * rewrite line_offset_app by lia. by rewrite line_offset_end.
      * rewrite line_offset_end by (rewrite length_app; simpl; lia).
        rewrite Hend, fmap_app. done.
  - split; rewrite Hnext; simpl; [by eexists|done].
Qed.

Lemma flush_spec r p bs s :
  scan_inv r p bs s →
  fs_request (flush s) = r ∧ fs_capture (flush s) = p ∧ fs_raw_bytes (flush s) = bs ∧
  fs_scanned_line_count (flush s) = length (raw_line_records bs) ∧
  ∀ n, fs_retained (flush s) !! n = expected_line (coverage r) (raw_line_records bs) n.
Proof.
  intros [(m & Hs) Hm]. rewrite Hs in Hm |- *. simpl in Hm. unfold flush, raw_line_records.
  destruct (scan_lines bs) as [ls cur] eqn:E. simpl in *.
  apply scan_lines_concat in E as Hcat.
  destruct cur as [|b cur]; simpl.
  { rewrite app_nil_r, length_fmap. done. }
  split_and!; [done..|rewrite length_app, length_fmap; simpl; lia|].
  rewrite <-(length_fmap terminated_record ls). apply expected_line_snoc; [done| |].
  - rewrite line_offset_app by lia. by rewrite line_offset_end.
  - rewrite line_offset_end by (rewrite length_app; simpl; lia).
    rewrite <-Hcat at 1. rewrite fmap_app, concat_app. simpl.
    by rewrite !app_nil_r.
Qed.

Lemma finish_snapshot_of r p bs s :
  scan_inv r p bs s → snapshot_of bs (coverage r) (finish_snapshot (flush s)).
Proof.
  intros (Hr & Hp & Hraw & Hcount & Hret)%flush_spec.
  set (t := flush s) in *. clearbody t.
  unfold finish_snapshot, finish_coverage. rewrite Hraw, Hcount.
  assert (∀ n, (record <$> fs_retained t) !! n
    = if retains (coverage r) n then rec_at (raw_line_records bs) n else None) as Hrec.
  { intros n. rewrite lookup_fmap, Hret. unfold expected_line.
    destruct (retains _ n); [|done]. by destruct (rec_at _ n). }
  split; simpl; try done.
  intros n. rewrite elem_of_dom, lookup_fmap. by destruct (fs_retained t !! n); split; intros [].
Qed.

Lemma finish_spec r p bs s :
  scan_inv r p bs s →
  ∃ res s', finish s = Ok (res, s') ∧
    sr_snapshot res = Some (finish_snapshot (flush s)) ∧
    sr_coverage res = snap_coverage (finish_snapshot (flush s)) ∧
    fs_published s' = sr_snapshot res ∧ fs_finished s' = true.
Proof.
  intros Hinv. pose proof Hinv as [(m & Hs) _]. unfold finish.
  assert (fs_finished s = false) as -> by by rewrite Hs. by do 2 eexists.
Qed.

Lemma scan_bytes_spec bs r :
  ∃ s, scan_snapshot bs r = Some s ∧ snapshot_of bs (coverage r) s.
Proof.
  unfold scan_snapshot, scan_bytes_with_request. rewrite push_bytes by done.
  destruct (finish_spec r _ bs _
    (scan_invariant r (with_byte_len (provenance r) (N.of_nat (length bs))) bs))
    as (res & s' & Hf & Hs & _).
  unfold mbind at 1, result_bind at 1. rewrite Hf. simpl. rewrite Hs. eexists; split; [done|].
  apply finish_snapshot_of with (with_byte_len (provenance r) (N.of_nat (length bs))).
  apply scan_invariant.
Qed.

(** C21: scanning is chunk-independent.  However a byte stream is cut into chunks, pushing
    the chunks one after the other leaves the scanner in the state reached by pushing the
    whole stream at once, and finishing it publishes the coherent snapshot of the stream:
    its tag, its line count, exactly the requested rows with their exact bytes and byte
    offsets, and end-of-file evidence. *)
Theorem scan_chunk_independent r p (chunks : list bytes) :
  ∃ s snap res s',
    foldl (λ acc c, acc ≫= λ s, push s c) (Ok (with_capture_provenance r p)) chunks = Ok s ∧
    push (with_capture_provenance r p) (concat chunks) = Ok s ∧
    finish s = Ok (res, s') ∧ sr_snapshot res = Some snap ∧
    snapshot_of (concat chunks) (coverage r) snap.
Proof.
  set (s0 := with_capture_provenance r p).
  assert (foldl (λ acc c, acc ≫= λ s, push s c) (Ok s0) chunks
    = Ok (foldl push_byte s0 (concat chunks))) as Hfold.
  { assert (fs_finished s0 = false) as Hf by done. revert Hf. generalize s0. clear s0.
    induction chunks as [|c chunks IH]; intros s0 Hf; [done|]. cbn [foldl concat].
    unfold mbind at 2, result_bind at 2. rewrite push_bytes by done. rewrite foldl_app.
    apply IH. by rewrite push_byte_finished. }
  destruct (finish_spec r p (concat chunks) _ (scan_invariant r p (concat chunks)))
    as (res & s' & Hf & Hs & _).
  exists (foldl push_byte s0 (concat chunks)), (finish_snapshot (flush (foldl push_byte s0 (concat chunks)))), res, s'.
  split_and!; [done|by apply push_bytes|done|done|].
  apply finish_snapshot_of with p. apply scan_invariant.
Qed.

(** C22: a whole-file scan is lossless: the retained raw records, read back in line order
    with their terminators, are the scanned bytes; and every retained line's byte span is
    exactly the place of its bytes in the stream. *)
Theorem scan_lossless bs :
  ∃ s, scan_snapshot bs request_whole_file = Some s ∧
    (∃ recs, (∀ n, 1 ≤ n ≤ total_lines s → ∃ rec, records s !! n = Some rec ∧ recs !! (n - 1) = Some rec)
      ∧ length recs = total_lines s ∧ concat (to_bytes <$> recs) = bs) ∧
    (∀ n l, retained_lines s !! n = Some l →
      take (N.to_nat (byte_end l) - N.to_nat (byte_start l)) (drop (N.to_nat (byte_start l)) bs)
      = to_bytes (record l)).
Proof.
  destruct (scan_bytes_spec bs request_whole_file) as (s & Hs & Hof).
  exists s. split; [done|]. split.
  - exists (raw_line_records bs). rewrite (so_total _ _ _ Hof).
    split_and!; [|done|apply raw_line_records_concat].
    intros n Hn. rewrite (so_records _ _ _ Hof). simpl.
    destruct n as [|i]; [lia|]. simpl. rewrite Nat.sub_0_r.
    destruct (lookup_lt_is_Some_2 (raw_line_records bs) i) as [rec Hrec]; [lia|]. eauto.
  - intros n l. rewrite (so_retained _ _ _ Hof). unfold expected_line. simpl.
    intros (rec & Hrec & ->)%fmap_Some. simpl.
    destruct n as [|i]; [done|]. simpl in Hrec. unfold line_offset. simpl.
    rewrite Nat.sub_0_r, !Nat2N.id.
    rewrite (take_S_r _ _ _ Hrec), fmap_app, concat_app. simpl. rewrite app_nil_r.
    rewrite length_app, Nat.add_sub_swap, Nat.sub_diag by lia. simpl.
    pose proof (raw_line_records_concat bs) as Hcat. clear Hs Hof s.
    revert Hrec Hcat. generalize (raw_line_records bs) as recs. intros recs Hrec <-.
    rewrite <-(take_drop_middle _ _ _ Hrec) at 2.
    rewrite fmap_app, concat_app, drop_app_length. simpl. by rewrite take_app_length.
Qed.

(** ** Coherent captures *)

(** The bytes a sequence of successful reads delivers up to end of file. *)
Fixpoint read_all (reads : list (result str bytes)) : option bytes :=
  match reads with
  | [] | Ok [] :: _ => Some []
  | Err _ :: _ => None
  | Ok bs :: reads => app bs <$> read_all reads
  end.

Lemma push_reads_Ok s reads s' :
  fs_finished s = false → push_reads s reads = Ok s' →
  ∃ bs, read_all reads = Some bs ∧ s' = foldl push_byte s bs.
Proof.
  revert s; induction reads as [|[[|b bs]|e] reads IH]; intros s Hf; simpl;
    [intros [= <-]; by exists []|intros [= <-]; by exists []| |done].
  rewrite push_bytes by done. unfold mbind, result_bind.
  intros Hp. apply IH in Hp as (rest & Hrest & ->); [|by rewrite push_byte_finished].
  exists ((b :: bs) ++ rest). rewrite Hrest. split; [done|]. by rewrite foldl_app.
Qed.

Lemma scan_reader_spec reads r p res :
  scan_reader_with_provenance reads r p = Ok res →
  ∃ bs s, read_all reads = Some bs ∧ sr_snapshot res = Some s ∧
    snapshot_of bs (coverage r) s ∧ sc_byte_count (sr_coverage res) = N.of_nat (length bs).
Proof.
  unfold scan_reader_with_provenance. intros (s1 & Hp & H)%bind_Ok.
  apply push_reads_Ok in Hp as (bs & Hbs & ->); [|done].
  destruct (finish_spec r p bs _ (scan_invariant r p bs)) as (res' & s' & Hf & Hs & Hc & _).
  rewrite Hf in H. simpl in H. injection H as ->.
  pose proof (scan_invariant r p bs) as Hinv.
  exists bs, (finish_snapshot (flush (foldl push_byte (with_capture_provenance r p) bs))).
  split_and!; [done..|by apply finish_snapshot_of with p|]. rewrite Hc. simpl.
  by apply flush_spec in Hinv as (_ & _ & -> & _).
Qed.

Lemma differs_false {A} `{EqDecision A} (x y : A) : differs (Some x) (Some y) = false → x = y.
Proof. simpl. rewrite bool_decide_eq_false. apply dec_stable. Qed.

Lemma same_version_metadata path m1 m2 :
  same_file_version (from_metadata path m1) (from_metadata path m2) = true →
  md_identity m1 = md_identity m2 ∧ md_len m1 = md_len m2.
Proof.
  unfold same_file_version. cbn [cp_file_identity cp_byte_len cp_modified from_metadata].
  destruct (differs (Some (md_identity m1)) _) eqn:E1; [done|].
  destruct (differs (Some (md_len m1)) _) eqn:E2; [done|]. intros _.
  split; by apply differs_false.
Qed.

Lemma capture_once_stable path r a s :
  capture_path_once path r a = Ok s →
  ∃ m bs, at_open a = Ok m ∧ read_all (at_reads a) = Some bs ∧
    snapshot_of bs (coverage r) s ∧ md_len m = N.of_nat (length bs) ∧
    (∃ m', at_after_descriptor a = Ok m' ∧ md_identity m' = md_identity m ∧ md_len m' = md_len m) ∧
    (∃ m', at_after_path a = Ok m' ∧ md_identity m' = md_identity m ∧ md_len m' = md_len m).
Proof.
  unfold capture_path_once. intros (m & Hm & H)%bind_Ok.
  apply bind_Ok in H as (res & Hres & H). apply bind_Ok in H as (m1 & Hm1 & H).
  apply bind_Ok in H as (m2 & Hm2 & H).
  destruct (at_open a) as [?|] eqn:E0; [injection Hm as ->|done].
  destruct (scan_reader_with_provenance _ _ _) eqn:Hscan; [injection Hres as ->|done].
  destruct (at_after_descriptor a) eqn:E1; [injection Hm1 as ->|done].
  destruct (at_after_path a) eqn:E2; [injection Hm2 as ->|done].
  apply scan_reader_spec in Hscan as (bs & s' & Hread & Hsnap & Hof & Hcount).
  rewrite Hsnap, Hcount in H.
  destruct (same_file_version _ (from_metadata path m1)) eqn:V1; [|done].
  destruct (same_file_version _ (from_metadata path m2)) eqn:V2; [|done].
  apply same_version_metadata in V1 as [??], V2 as [??]. simpl in H.
  case_bool_decide as Hlen; [|done]. injection Hlen as Hlen.
  repeat case_bool_decide; simpl in H; try done. injection H as <-.
  exists m, bs. split_and!; eauto.
Qed.

(** a path capture publishes a snapshot only from a coherent attempt: within at most
    two attempts, every read succeeded, the descriptor before and after the pass and the
    path entry afterwards are the same file with the same length, that length is the number
    of bytes read, and the snapshot is the coherent snapshot of those bytes. *)
Theorem capture_coherent path r a1 a2 s k :
  capture_path path r a1 a2 = Ok (s, k) →
  ∃ a m bs, (k = 1 ∧ a = a1 ∨ k = 2 ∧ a = a2) ∧
    at_open a = Ok m ∧ read_all (at_reads a) = Some bs ∧
    snapshot_of bs (coverage r) s ∧ md_len m = N.of_nat (length bs) ∧
    (∃ m', at_after_descriptor a = Ok m' ∧ md_identity m' = md_identity m ∧ md_len m' = md_len m) ∧
    (∃ m', at_after_path a = Ok m' ∧ md_identity m' = md_identity m ∧ md_len m' = md_len m).
Proof.
  unfold capture_path. destruct (capture_path_once path r a1) as [s1|[?|???]] eqn:E1; [|done|].
  - intros [= <- <-]. apply capture_once_stable in E1 as (m & bs & ?). exists a1, m, bs. auto.
  - destruct (capture_path_once path r a2) eqn:E2; [|done]. intros [= <- <-].
    apply capture_once_stable in E2 as (m & bs & ?). exists a2, m, bs. auto.
Qed.

(** A file that grows between the first metadata read and the pass, then is stable. *)
Definition sample_metadata (n : N) : Metadata := MkMetadata (Identity 1 7) n (Some 3%N).
Definition sample_grown : Attempt :=
  MkAttempt (Ok (sample_metadata 1)) [Ok (lit "ab"); Ok [LF]]
    (Ok (sample_metadata 3)) (Ok (sample_metadata 3)).
Definition sample_stable : Attempt :=
  MkAttempt (Ok (sample_metadata 3)) [Ok (lit "ab"); Ok [LF]]
    (Ok (sample_metadata 3)) (Ok (sample_metadata 3)).

Lemma capture_coherent_witness :
  ∃ s, capture_path [lit "f"] request_whole_file sample_grown sample_stable = Ok (s, 2) ∧
    snapshot_of (lit "ab" ++ [LF]) coverage_whole_file s.
Proof.
  destruct (capture_path [lit "f"] request_whole_file sample_grown sample_stable)
    as [[s k]|e] eqn:E; [|vm_compute in E; discriminate E].
  destruct (capture_coherent _ _ _ _ _ _ E) as (a & m & bs & [[Hk _]|[-> ->]] & Hm & Hr & Hof & _).
  - exfalso. revert E. rewrite Hk. vm_compute. discriminate.
  - exists s. split; [done|]. vm_compute in Hr. injection Hr as <-. exact Hof.
Defined.

End Scan.
