(* ===== verification/LineEdits.v ===== *)
(** * Line edits: [hashline/apply/edits.rs]

    The lowered form of PUT and CUT (inserts and deletes against baseline coordinates),
    detection and coalescing of replacement groups, the one-pass materialisation of an edit
    list, and the terminator policy with which lines become bytes again.  The one-pass
    [materialize_edits] is proved equal to the frozen bottom-up splice oracle of the
    source's tests on every input. *)

From S2P Require Import Prelude RustStr XxHash Scan.
Import Scan.

Module LineEdits.

(** ** Data *)

Inductive InsertPlace := Before | After | Bof | Eof.
Inductive InsertMode := Plain | Replacement.
#[export] Instance InsertPlace_eq_dec : EqDecision InsertPlace.
Proof. solve_decision. Defined.
#[export] Instance InsertMode_eq_dec : EqDecision InsertMode.
Proof. solve_decision. Defined.

Inductive LineEdit :=
  | Insert (anchor : nat) (place : InsertPlace) (text : str) (mode : InsertMode)
      (op_index : nat)
  | Delete (line : nat) (op_index : nat).
#[export] Instance LineEdit_eq_dec : EqDecision LineEdit.
Proof. solve_decision. Defined.

Record ReplacementGroup := Group {
  insert_indices : list nat;
  delete_indices : list nat;
  payload : list str;
  start_line : nat;
  end_line : nat;
  group_op_index : nat }.

Definition edit_op (e : LineEdit) : nat :=
  match e with Insert _ _ _ _ op => op | Delete _ op => op end.

(** [matches!(edit, LineEdit::Delete { .. })]. *)
Definition is_delete (e : LineEdit) : bool :=
  match e with Delete _ _ => true | Insert _ _ _ _ _ => false end.

(** The text of an insert in replacement mode. *)
Definition replacement_text (e : LineEdit) : option str :=
  match e with Insert _ _ text Replacement _ => Some text | _ => None end.

(** ** Replacement groups *)

(** First loop of [find_replacement_group]: replacement inserts before [anchor] of [op];
    answers the indices, the payload, the next index and the edits left. *)
Fixpoint group_inserts (anchor op i : nat) (edits : list LineEdit) :
    list nat * list str * nat * list LineEdit :=
  match edits with
  | Insert anchor' Before text Replacement op' :: edits' =>
      if decide (anchor' = anchor ∧ op' = op)
      then let '(ins, ts, j, rest) := group_inserts anchor op (S i) edits' in
           (i :: ins, text :: ts, j, rest)
      else ([], [], i, edits)
  | _ => ([], [], i, edits)
  end.

(** Second loop: deletes of consecutive lines from [expected]. *)
Fixpoint group_deletes (expected op i : nat) (edits : list LineEdit) : list nat * nat :=
  match edits with
  | Delete line op' :: edits' =>
      if decide (line = expected ∧ op' = op)
      then let '(ds, e) := group_deletes (S expected) op (S i) edits' in (i :: ds, e)
      else ([], expected)
  | _ => ([], expected)
  end.

Definition find_replacement_group (edits : list LineEdit) (start : nat) :
    option ReplacementGroup :=
  match edits !! start with
  | Some (Insert anchor Before _ Replacement op) =>
      let '(ins, ts, j, rest) := group_inserts anchor op start (drop start edits) in
      let '(ds, expected) := group_deletes anchor op j rest in
      match ds with
      | [] => None
      | _ => Some (Group ins ds ts anchor (expected - 1) op)
      end
  | _ => None
  end.

(** ** Coalescing *)

(** Group edits by operation, operations in first-seen order. *)
Definition group_by_op (edits : list LineEdit) : list nat * gmap nat (list LineEdit) :=
  foldl (λ '(order, by_op) e,
    let op := edit_op e in
    (match by_op !! op with Some _ => order | None => order ++ [op] end,
     <[op := default [] (by_op !! op) ++ [e]]> by_op)) ([], ∅) edits.

(** [Vec::dedup]. *)
Fixpoint dedup (l : list nat) : list nat :=
  match l with
  | x :: (y :: _) as l' => if decide (x = y) then dedup l' else x :: dedup l'
  | _ => l
  end.

(** [windows(2).all(|pair| pair[1] == pair[0].saturating_add(1))]. *)
Fixpoint contiguous (l : list nat) : bool :=
  match l with
  | x :: (y :: _) as l' => bool_decide (y = S x) && contiguous l'
  | _ => true
  end.

Definition deleted_line (e : LineEdit) : option nat :=
  match e with Delete line _ => Some line | Insert _ _ _ _ _ => None end.

Definition is_plain (e : LineEdit) : bool :=
  match e with
  | Delete _ _ => false
  | Insert _ _ _ Replacement _ => false
  | Insert _ _ _ Plain _ => true
  end.

Definition coalesce_one_op (edits : list LineEdit) : list LineEdit :=
  let deletes := omap deleted_line edits in
  let replacements := omap replacement_text edits in
  let plain := filter is_plain edits in
  match deletes, replacements with
  | [], _ | _, [] => edits
  | _, _ =>
      let deletes := dedup (merge_sort (≤) deletes) in
      if contiguous deletes then
        let start := default 0 (head deletes) in
        let stop := default 0 (last deletes) in
        let op := match edits with e :: _ => edit_op e | [] => 0 end in
        plain ++ ((λ text, Insert start Before text Replacement op) <$> replacements)
          ++ ((λ line, Delete line op) <$> range_incl start stop)
      else edits
  end.

Definition coalesce_replacement_edits (edits : list LineEdit) : list LineEdit :=
  let '(order, by_op) := group_by_op edits in
  (foldl (λ '(out, by_op) op,
     (out ++ coalesce_one_op (default [] (by_op !! op)), delete op by_op))
     ([], by_op) order).1.

(** ** Materialisation *)

(** The three sinks of an edit list: BOF rows, EOF rows, and edits bucketed by line. *)
Record Buckets := MkBuckets {
  bof_rows : list str; eof_rows : list str; by_line : gmap nat (list LineEdit) }.

(** [by_line.entry(line).or_default().push(edit)]. *)
Definition push_bucket (line : nat) (e : LineEdit) (m : gmap nat (list LineEdit)) :
    gmap nat (list LineEdit) :=
  <[line := default [] (m !! line) ++ [e]]> m.

Definition bucket_step (b : Buckets) (e : LineEdit) : Buckets :=
  match e with
  | Insert _ Bof text _ _ => MkBuckets (bof_rows b ++ [text]) (eof_rows b) (by_line b)
  | Insert _ Eof text _ _ => MkBuckets (bof_rows b) (eof_rows b ++ [text]) (by_line b)
  | Insert anchor _ _ _ _ =>
      MkBuckets (bof_rows b) (eof_rows b) (push_bucket anchor e (by_line b))
  | Delete line _ => MkBuckets (bof_rows b) (eof_rows b) (push_bucket line e (by_line b))
  end.

Definition bucket_edits (edits : list LineEdit) : Buckets :=
  foldl bucket_step (MkBuckets [] [] ∅) edits.

(** Rows inserted before the line, replacement mode or not. *)
Definition before_text (replacement : bool) (e : LineEdit) : option str :=
  match e with
  | Insert _ Before text mode _ =>
      if decide (bool_decide (mode = Replacement) = replacement) then Some text else None
  | _ => None
  end.

Definition after_text (e : LineEdit) : option str :=
  match e with Insert _ After text _ _ => Some text | _ => None end.

Definition append_line_bucket (out : list str) (current : option str)
    (bucket : list LineEdit) : list str :=
  out ++ omap (before_text false) bucket ++ omap (before_text true) bucket
    ++ (if existsb is_delete bucket then [] else option_list current)
    ++ omap after_text bucket.

(** The loop over the original lines, from line number [n]. *)
Fixpoint materialize_lines (m : gmap nat (list LineEdit)) (n : nat) (lines : list str)
    (out : list str) : list str :=
  match lines with
  | [] => out
  | current :: lines' =>
      materialize_lines m (S n) lines'
        (match m !! n with
         | Some bucket => append_line_bucket out (Some current) bucket
         | None => out ++ [current]
         end)
  end.

Definition materialize_edits (original : list str) (edits : list LineEdit) : list str :=
  let b := bucket_edits edits in
  let out := materialize_lines (by_line b) 1 original [] in
  let out := match by_line b !! S (length original) with
             | Some bucket => append_line_bucket out None bucket
             | None => out
             end in
  let out := match by_line b !! 0 with
             | Some bucket => append_line_bucket [] (head out) bucket ++ tail out
             | None => out
             end in
  bof_rows b ++ out ++ eof_rows b.

(** The frozen splice oracle: buckets applied bottom-up by index. *)
Definition legacy_step (m : gmap nat (list LineEdit)) (line : nat) (file_lines : list str) :
    list str :=
  match m !! line with
  | None => file_lines
  | Some bucket =>
      let idx := line - 1 in
      if decide (length file_lines < idx) then file_lines
      else
        let before := omap (before_text false) bucket in
        let replacement := omap (before_text true) bucket in
        let after := omap after_text bucket in
        let delete_line := existsb is_delete bucket in
        if bool_decide (before = []) && bool_decide (replacement = [])
           && bool_decide (after = []) && negb delete_line
        then file_lines
        else
          let spliced :=
            if delete_line then before ++ replacement ++ after
            else before ++ replacement
                 ++ (if decide (idx < length file_lines)
                     then option_list (file_lines !! idx) else [])
                 ++ after in
          if decide (idx < length file_lines)
          then take idx file_lines ++ spliced ++ drop (S idx) file_lines
          else file_lines ++ spliced
  end.

Definition materialize_edits_legacy (original : list str) (edits : list LineEdit) : list str :=
  let b := bucket_edits edits in
  let file_lines := foldr (legacy_step (by_line b)) original (btree_keys (by_line b)) in
  bof_rows b ++ file_lines ++ eof_rows b.

(** ** Bytes *)

Definition term_bytes (t : TerminatorKind) : bytes :=
  match t with Lf => [LF] | CrLf => [CR; LF] | NoTerminator => [] end.

(** [join_lines]: every line takes the default terminator, the last one only if the file
    had a trailing terminator. *)
Fixpoint join_lines (lines : list str) (default_terminator : TerminatorKind)
    (trailing : bool) : bytes :=
  let default := match default_terminator with NoTerminator => Lf | t => t end in
  match lines with
  | [] => []
  | [line] => as_bytes line ++ term_bytes (if trailing then default else NoTerminator)
  | line :: lines' =>
      as_bytes line ++ term_bytes default ++ join_lines lines' default_terminator trailing
  end.

Definition count_term (t : TerminatorKind) (recs : list RawLineRecord) : nat :=
  length (filter (λ r, terminator r = t) recs).

(** [terminator_policy] over the records of a [BTreeMap], in key order. *)
Definition terminator_policy (recs : gmap nat RawLineRecord) : TerminatorKind * bool :=
  let ordered := omap (λ n, recs !! n) (btree_keys recs) in
  let trailing := match last ordered with
                  | Some r => bool_decide (terminator r ≠ NoTerminator)
                  | None => false
                  end in
  (if decide (count_term Lf ordered < count_term CrLf ordered) then CrLf else Lf,
   trailing || bool_decide (recs = ∅)).

(** ** Materialisation equals the splice oracle *)

(** The rows a (possibly absent) bucket makes of one line. *)
Definition line_rows (m : gmap nat (list LineEdit)) (n : nat) (current : option str) : list str :=
  append_line_bucket [] current (default [] (m !! n)).

Lemma append_line_bucket_app out current bucket :
  append_line_bucket out current bucket = out ++ append_line_bucket [] current bucket.
Proof. done. Qed.

Lemma materialize_lines_app m n lines out :
  materialize_lines m n lines out
  = out ++ concat (imap (λ i l, line_rows m (n + i) (Some l)) lines).
Proof.
  revert n out; induction lines as [|l lines IH]; intros n out; simpl.
  - by rewrite app_nil_r.
  - rewrite IH. assert (match m !! n with
      | Some bucket => append_line_bucket out (Some l) bucket
      | None => out ++ [l] end = out ++ line_rows m (n + 0) (Some l)) as ->.
    { unfold line_rows. rewrite Nat.add_0_r. by destruct (m !! n). }
    rewrite <-app_assoc. do 3 f_equal. apply imap_ext. intros i x _. simpl. f_equal. lia.
Qed.

Lemma foldr_legacy_filter m base ks :
  foldr (legacy_step m) base (filter (λ k, is_Some (m !! k)) ks)
  = foldr (legacy_step m) base ks.
Proof.
  induction ks as [|k ks IH]; simpl; [done|].
  rewrite filter_cons. case_decide as Hk; simpl; [by rewrite IH|].
  rewrite IH. unfold legacy_step at 2. by destruct (m !! k); [destruct Hk|].
Qed.

Lemma omap_nil_rows bucket current :
  omap (before_text false) bucket = [] → omap (before_text true) bucket = [] →
  omap after_text bucket = [] → existsb is_delete bucket = false →
  append_line_bucket [] current bucket = option_list current.
Proof. intros H1 H2 H3 H4. unfold append_line_bucket. by rewrite H1, H2, H3, H4, app_nil_r. Qed.

(** Splicing line [k + 1] of a file replaces it by the rows of its bucket. *)
Lemma legacy_step_line m k pre current post :
  length pre = k →
  legacy_step m (S k) (pre ++ current :: post)
  = pre ++ line_rows m (S k) (Some current) ++ post.
Proof.
  intros Hk. unfold legacy_step, line_rows. destruct (m !! S k) as [bucket|]; [|done].
  simpl. rewrite Nat.sub_0_r. rewrite length_app. simpl.
  rewrite decide_False by lia. rewrite decide_True by lia.
  rewrite list_lookup_middle by done. subst k.
  rewrite take_app_length. rewrite drop_app_ge by lia.
  replace (S (length pre) - length pre) with 1 by lia. simpl.
  destruct (bool_decide _ && _ && _ && _) eqn:E.
  - rewrite !andb_true_iff, !bool_decide_eq_true, negb_true_iff in E.
    destruct E as [[[E1 E2] E3] E4]. by rewrite omap_nil_rows.
  - rewrite decide_True by lia. unfold append_line_bucket.
    destruct (existsb is_delete bucket); simpl; by rewrite <-?app_assoc.
Qed.

Lemma legacy_step_past m k lines :
  length lines < k - 1 → legacy_step m k lines = lines.
Proof.
  intros Hk. unfold legacy_step. destruct (m !! k); [|done]. by rewrite decide_True by lia.
Qed.

Lemma legacy_step_end m lines :
  legacy_step m (S (length lines)) lines = lines ++ line_rows m (S (length lines)) None.
Proof.
  unfold legacy_step, line_rows. destruct (m !! S (length lines)) as [bucket|];
    [|by rewrite app_nil_r].
  simpl. rewrite Nat.sub_0_r. rewrite decide_False by lia.
  destruct (bool_decide _ && _ && _ && _) eqn:E.
  - rewrite !andb_true_iff, !bool_decide_eq_true, negb_true_iff in E.
    destruct E as [[[E1 E2] E3] E4]. rewrite omap_nil_rows by done. by rewrite app_nil_r.
  - rewrite !decide_False by lia. unfold append_line_bucket. f_equal.
    destruct (existsb is_delete bucket); simpl; by rewrite <-?app_assoc.
Qed.

Lemma legacy_step_zero m lines :
  legacy_step m 0 lines = line_rows m 0 (head lines) ++ tail lines.
Proof.
  unfold legacy_step, line_rows. destruct (m !! 0) as [bucket|]; [|by destruct lines].
  rewrite decide_False by lia. change (0 - 1) with 0.
  change (default [] (Some bucket)) with bucket.
  destruct (bool_decide _ && _ && _ && _) eqn:E.
  - rewrite !andb_true_iff, !bool_decide_eq_true, negb_true_iff in E.
    destruct E as [[[E1 E2] E3] E4]. rewrite omap_nil_rows by done. by destruct lines.
  - destruct lines as [|l lines]; simpl; unfold append_line_bucket.
    + destruct (existsb is_delete bucket); simpl; by rewrite ?app_nil_r, <-?app_assoc.
    + rewrite drop_0. destruct (existsb is_delete bucket); simpl; by rewrite <-?app_assoc.
Qed.

(** Lines [k + 1 .. length], spliced bottom-up. *)
Lemma foldr_legacy_lines m pre lines tail :
  foldr (legacy_step m) (pre ++ lines ++ tail) (seq (S (length pre)) (length lines))
  = pre ++ concat (imap (λ i l, line_rows m (S (length pre) + i) (Some l)) lines) ++ tail.
Proof.
  revert pre; induction lines as [|l lines IH]; intros pre; [done|].
  cbn [length seq foldr].
  replace (pre ++ (l :: lines) ++ tail) with ((pre ++ [l]) ++ lines ++ tail)
    by by rewrite <-app_assoc.
  replace (S (S (length pre))) with (S (length (pre ++ [l]))) by (rewrite length_app; simpl; lia).
  rewrite IH, <-app_assoc. cbn [app]. rewrite legacy_step_line by done.
  rewrite imap_cons. cbn [concat]. rewrite Nat.add_0_r, <-app_assoc. do 4 f_equal.
  apply imap_ext. intros i x _. simpl. f_equal. rewrite length_app. simpl. lia.
Qed.

(** C19: the one-pass materialisation of an edit list equals the frozen bottom-up splice
    oracle, for every list of original lines and every list of edits, including anchors at
    zero, just past the end and beyond it, and any mix of overlapping edits. *)
Theorem materialize_matches_splice_oracle original edits :
  materialize_edits original edits = materialize_edits_legacy original edits.
Proof.
  unfold materialize_edits, materialize_edits_legacy.
  generalize (bucket_edits edits) as b. intros b. f_equal. f_equal.
  generalize (by_line b) as m. clear b edits. intros m.
  set (bound := max_list (btree_keys m) + length original + 3).
  rewrite (btree_keys_filter m bound).
  2:{ intros k Hk%elem_of_btree_keys. apply max_list_elem_of_le in Hk. lia. }
  rewrite foldr_legacy_filter.
  assert (seq 0 bound = 0 :: seq 1 (length original) ++ S (length original)
    :: seq (S (S (length original))) (bound - (length original + 2))) as ->.
  { replace bound with (S (length original + S (bound - (length original + 2))))
      by (unfold bound; lia).
    cbn [seq]. rewrite seq_app. cbn [seq]. do 4 f_equal. lia. }
  cbn [foldr]. rewrite foldr_app. cbn [foldr].
  assert (∀ n k, length original < k - 1 →
    foldr (legacy_step m) original (seq k n) = original) as Hpast.
  { induction n as [|n IH]; intros k Hk; [done|]. cbn [seq foldr].
    rewrite IH by lia. by apply legacy_step_past. }
  rewrite Hpast by lia. rewrite legacy_step_end.
  pose proof (foldr_legacy_lines m [] original (line_rows m (S (length original)) None)) as Hl.
  simpl in Hl. rewrite Hl. rewrite legacy_step_zero, materialize_lines_app. simpl.
  assert (∀ out, match m !! S (length original) with
    | Some bucket => append_line_bucket out None bucket | None => out end
    = out ++ line_rows m (S (length original)) None) as ->.
  { intros out. unfold line_rows. destruct (m !! S _); [done|]. by rewrite app_nil_r. }
  generalize (concat (imap (λ i l, line_rows m (S i) (Some l)) original)
    ++ line_rows m (S (length original)) None) as out. intros out.
  unfold line_rows. destruct (m !! 0); [done|]. by destruct out.
Qed.

(** ** Edits act line by line *)

(** The line an edit is bucketed under. *)
Definition edit_line (e : LineEdit) : option nat :=
  match e with
  | Insert _ Bof _ _ _ | Insert _ Eof _ _ _ => None
  | Insert anchor _ _ _ _ => Some anchor
  | Delete line _ => Some line
  end.

Definition bof_text (e : LineEdit) : option str :=
  match e with Insert _ Bof text _ _ => Some text | _ => None end.
Definition eof_text (e : LineEdit) : option str :=
  match e with Insert _ Eof text _ _ => Some text | _ => None end.

(** The edits that target line [n], in order. *)
Definition edits_at (edits : list LineEdit) (n : nat) : list LineEdit :=
  filter (λ e, edit_line e = Some n) edits.

(** What becomes of line [n]. *)
Definition rows_at (edits : list LineEdit) (n : nat) (current : option str) : list str :=
  append_line_bucket [] current (edits_at edits n).

Lemma bucket_edits_spec edits :
  bof_rows (bucket_edits edits) = omap bof_text edits ∧
  eof_rows (bucket_edits edits) = omap eof_text edits ∧
  ∀ n, default [] (by_line (bucket_edits edits) !! n) = edits_at edits n.
Proof.
  unfold bucket_edits. induction edits as [|e edits IH] using rev_ind; [done|].
  rewrite (foldl_app bucket_step). simpl. destruct IH as (IH1 & IH2 & IH3).
  assert (∀ n, edits_at (edits ++ [e]) n
    = edits_at edits n ++ if decide (edit_line e = Some n) then [e] else []) as Hat.
  { intros n. unfold edits_at. rewrite filter_app, filter_cons, filter_nil. done. }
  assert (∀ k, default [] (push_bucket k e (by_line (foldl bucket_step (MkBuckets [] [] ∅) edits)) !! k)
    = edits_at edits k ++ [e]) as Hpush.
  { intros k. unfold push_bucket. rewrite lookup_insert_eq. simpl. by rewrite IH3. }
  assert (∀ k n, k ≠ n →
    default [] (push_bucket k e (by_line (foldl bucket_step (MkBuckets [] [] ∅) edits)) !! n)
    = edits_at edits n ++ []) as Hother.
  { intros k n Hk. unfold push_bucket. rewrite lookup_insert_ne by done. by rewrite IH3, app_nil_r. }
  rewrite !omap_app.
  destruct e as [anchor [] text mode op|line op]; simpl; rewrite ?app_nil_r, ?IH1, ?IH2;
    (split; [done|]); (split; [done|]); intros n; rewrite Hat; case_decide as Hd; simpl in Hd;
    simplify_eq; rewrite ?app_nil_r; auto;
    rewrite Hother by congruence; by rewrite app_nil_r.
Qed.

(** Every edit targets a line of the file, or the place just past its end. *)
Definition edits_in_range (len : nat) (edits : list LineEdit) : Prop :=
  ∀ e n, e ∈ edits → edit_line e = Some n → 1 ≤ n ≤ S len.

Lemma materialize_edits_rows original edits :
  edits_in_range (length original) edits →
  materialize_edits original edits
  = omap bof_text edits
    ++ (concat (imap (λ i l, rows_at edits (S i) (Some l)) original)
        ++ rows_at edits (S (length original)) None)
    ++ omap eof_text edits.
Proof.
  intros Hr. unfold materialize_edits. destruct (bucket_edits_spec edits) as (-> & -> & Hby).
  generalize dependent (by_line (bucket_edits edits)). intros m Hby. f_equal. f_equal.
  assert (∀ n cur, line_rows m n cur = rows_at edits n cur) as Hrows.
  { intros n cur. unfold line_rows, rows_at. by rewrite Hby. }
  rewrite materialize_lines_app. cbn [app].
  rewrite (imap_ext _ (λ i l, rows_at edits (S i) (Some l))) by (intros; apply Hrows).
  assert (∀ out, match m !! S (length original) with
    | Some bucket => append_line_bucket out None bucket | None => out end
    = out ++ rows_at edits (S (length original)) None) as ->.
  { intros out. rewrite <-Hrows. unfold line_rows. destruct (m !! S _); [done|]. by rewrite app_nil_r. }
  destruct (m !! 0) as [bucket|] eqn:H0; [|done].
  specialize (Hby 0). rewrite H0 in Hby. simpl in Hby.
  assert (bucket = []) as ->; [|by destruct (concat _ ++ _)].
  rewrite Hby. apply elem_of_nil_inv. intros e [He Hin]%list_elem_of_filter.
  specialize (Hr e 0 Hin He). lia.
Qed.

(** The original lines that no edit deletes. *)
Definition undeleted (edits : list LineEdit) (original : list str) : list str :=
  concat (imap (λ i l, if existsb is_delete (edits_at edits (S i)) then [] else [l]) original).

Lemma sublist_concat_imap {A B} (f g : nat → A → list B) l :
  (∀ i x, l !! i = Some x → f i x `sublist_of` g i x) →
  concat (imap f l) `sublist_of` concat (imap g l).
Proof.
  revert f g. induction l as [|x l IH]; intros f g H; [constructor|]. rewrite !imap_cons. simpl.
  apply sublist_app; [by apply H|]. apply IH. intros i y Hy. by apply (H (S i)).
Qed.

(** materialising edits does no collateral damage: every original line that no edit
    deletes is in the output, in the original order, whatever else is inserted, replaced or
    deleted around it. *)
Theorem materialize_keeps_untouched original edits :
  edits_in_range (length original) edits →
  undeleted edits original `sublist_of` materialize_edits original edits.
Proof.
  intros Hr. rewrite materialize_edits_rows by done.
  apply sublist_inserts_l, sublist_inserts_r, sublist_inserts_r. apply sublist_concat_imap.
  intros i l _. unfold rows_at, append_line_bucket. simpl.
  destruct (existsb is_delete (edits_at edits (S i))); [apply sublist_nil_l|].
  apply sublist_inserts_l, sublist_inserts_l, sublist_inserts_r. done.
Qed.

Lemma materialize_keeps_untouched_witness :
  [lit "a"; lit "d"] `sublist_of`
  materialize_edits [lit "a"; lit "b"; lit "c"; lit "d"]
    [Insert 2 Before (lit "x") Replacement 0; Delete 2 0; Delete 3 0].
Proof.
  apply (materialize_keeps_untouched [lit "a"; lit "b"; lit "c"; lit "d"]
    [Insert 2 Before (lit "x") Replacement 0; Delete 2 0; Delete 3 0]).
  intros e n He Hn. rewrite !elem_of_cons, elem_of_nil in He.
  destruct He as [->|[->|[->|[]]]]; injection Hn as <-; cbv [length]; lia.
Defined.

End LineEdits.
