(* ===== verification/Rejection.v ===== *)
(** * Phase-1 rejections: [hashline/syntax/mod.rs], error half

    The stable rejection codes, the adjudication stages, and the rejection value with its
    steering text.  A message is the formatted text of the source; the [{:?}] rendering of
    a user string inside a message is kept symbolic ([Quoted]), so that no escaping rules
    of the formatter are assumed. *)

From S2P Require Import Prelude RustStr.

Module Rejection.

Inductive HashlineRejectionCode :=
  | MissingTag | MalformedTag | UnknownTag | EvictedTag | AmbiguousTag | StaleTag
  | UnseenLine | BoundaryIneligible | UntaggablePath | RegisterOverflow
  | BackupUnavailable | ParseError.
#[export] Instance HashlineRejectionCode_eq_dec : EqDecision HashlineRejectionCode.
Proof. solve_decision. Defined.

Definition code_as_str (c : HashlineRejectionCode) : str :=
  lit match c with
  | MissingTag => "hashline_missing_tag"
  | MalformedTag => "hashline_malformed_tag"
  | UnknownTag => "hashline_unknown_tag"
  | EvictedTag => "hashline_evicted_tag"
  | AmbiguousTag => "hashline_ambiguous_tag"
  | StaleTag => "hashline_stale_tag"
  | UnseenLine => "hashline_unseen_line"
  | BoundaryIneligible => "hashline_boundary_ineligible"
  | UntaggablePath => "hashline_untaggable_path"
  | RegisterOverflow => "hashline_register_overflow"
  | BackupUnavailable => "hashline_backup_unavailable"
  | ParseError => "hashline_parse_error"
  end.

Inductive RejectionStage :=
  | StParse | StHeader | StPath | StResolution | StEligibility | StVerification
  | StRecovery | StRegister | StBaseline.
#[export] Instance RejectionStage_eq_dec : EqDecision RejectionStage.
Proof. solve_decision. Defined.

Definition stage_as_str (s : RejectionStage) : str :=
  lit match s with
  | StParse => "parse"
  | StHeader => "header"
  | StPath => "path"
  | StResolution => "resolution"
  | StEligibility => "eligibility"
  | StVerification => "verification"
  | StRecovery => "recovery"
  | StRegister => "register"
  | StBaseline => "baseline"
  end.

(** A formatted message. *)
Inductive MessagePart := Text (s : str) | Quoted (s : str).
#[export] Instance MessagePart_eq_dec : EqDecision MessagePart.
Proof. solve_decision. Defined.
Abbreviation Message := (list MessagePart) (only parsing).

Definition msg (s : string) : Message := [Text (lit s)].
Definition msg_num (n : N) : Message := [Text (show_N n)].
Definition msg_nat (n : nat) : Message := [Text (show n)].
Definition msg_str (s : str) : Message := [Text s].

Record HashlineRejection := Reject {
  code : HashlineRejectionCode;
  stage : RejectionStage;
  message : Message;
  steering : str }.
#[export] Instance HashlineRejection_eq_dec : EqDecision HashlineRejection.
Proof. solve_decision. Defined.

Definition steering_for (c : HashlineRejectionCode) (s : RejectionStage) : str :=
  lit match c, s with
  | MissingTag, _ | MalformedTag, _ =>
      "run `read <path>` on the file, then include the four-hex tag it returns"
  | UnknownTag, StResolution | EvictedTag, StResolution =>
      "run `read <path>` again to mint a fresh tag, then retry the edit"
  | AmbiguousTag, StResolution =>
      "use apply_patch or another available non-hashline edit surface; re-reading preserves this colliding four-hex tag"
  | AmbiguousTag, StRecovery =>
      "re-address the current tagged content; the stale span has multiple verbatim landings"
  | StaleTag, StVerification =>
      "run `read <path>` over the addressed range because required boundary context changed"
  | StaleTag, StRecovery =>
      "re-address the current tagged content; the stale span no longer occurs verbatim"
  | UnseenLine, _ | BoundaryIneligible, _ =>
      "re-read the file to mint a fresh tag that includes every addressed row and boundary, then retry the edit"
  | UntaggablePath, _ =>
      "choose a writable regular text file or use an available non-hashline surface"
  | RegisterOverflow, _ => "reduce register contents before retrying the patch"
  | BackupUnavailable, _ => "enable backups or use apply_patch for this destructive change"
  | ParseError, _ =>
      "submit only a hashline patch with tagged section headers and valid operations"
  | _, _ => "run `read <path>` again to mint a fresh tag, then retry the edit"
  end.

Definition rejection_new (c : HashlineRejectionCode) (s : RejectionStage) (m : Message) :
    HashlineRejection :=
  Reject c s m (steering_for c s).

Definition parse_error (m : Message) : HashlineRejection := rejection_new ParseError StParse m.
Definition missing_tag (m : Message) : HashlineRejection := rejection_new MissingTag StHeader m.
Definition malformed_tag (m : Message) : HashlineRejection :=
  rejection_new MalformedTag StHeader m.
Definition resolution (c : HashlineRejectionCode) (m : Message) : HashlineRejection :=
  rejection_new c StResolution m.
Definition eligibility (c : HashlineRejectionCode) (m : Message) : HashlineRejection :=
  rejection_new c StEligibility m.
Definition stale_verification (m : Message) : HashlineRejection :=
  rejection_new StaleTag StVerification m.
Definition stale_recovery (m : Message) : HashlineRejection :=
  rejection_new StaleTag StRecovery m.
Definition ambiguous_recovery (m : Message) : HashlineRejection :=
  rejection_new AmbiguousTag StRecovery m.
Definition backup_unavailable (m : Message) : HashlineRejection :=
  rejection_new BackupUnavailable StBaseline m.
Definition register_overflow (m : Message) : HashlineRejection :=
  rejection_new RegisterOverflow StRegister m.

End Rejection.
