(* ===== verification/SnapshotStore.v ===== *)
(** * Snapshot residency: [hashline/snapshot/mod.rs], store half

    The bounded, session-owned store of published snapshots and its eviction history.
    [fs::canonicalize] and the blake3 fingerprint are parameters; an operation that would
    panic ([expect], [Vec::remove] out of range) returns [None]. *)

From S2P Require Import Prelude RustStr Scan.
Import Scan.

Module SnapshotStore.

Definition MAX_SNAPSHOT_PATHS : nat := 30.
Definition MAX_VERSIONS_PER_PATH : nat := 4.
Definition MAX_SNAPSHOT_TOTAL_BYTES : N := 64 * 1024 * 1024.
Definition MAX_EVICTION_RECORDS : nat := 256.

(** ** Data *)

Record EvictionRecord := MkEviction { canonical_path : PathBuf; ev_tag : str }.
#[export] Instance EvictionRecord_eq_dec : EqDecision EvictionRecord.
Proof. solve_decision. Defined.

Definition fold_tag (t : str) : str := to_ascii_lowercase t.

(** [EvictionRecord::new]. *)
Definition eviction_record (path : PathBuf) (t : str) : EvictionRecord :=
  MkEviction path (fold_tag t).

Record EvictionHistoryEntry := MkHistory {
  he_record : EvictionRecord; he_content_fingerprint : bytes }.
#[export] Instance EvictionHistoryEntry_eq_dec : EqDecision EvictionHistoryEntry.
Proof. solve_decision. Defined.

Record StoredSnapshot := MkStored {
  ss_snapshot : Snapshot;
  ss_normalized_bytes : bytes;
  published_at : N;
  last_used : N }.

Record SnapshotStore := MkStore {
  st_paths : gmap PathBuf (list StoredSnapshot);
  st_total_bytes : N;
  st_clock : N;
  eviction_history : list EvictionHistoryEntry }.

Inductive PublishStatus := Stored | Oversize (retained_bytes limit : N).

Record PublishOutcome := MkOutcome {
  po_status : PublishStatus; po_snapshot : option Snapshot; po_evicted : list EvictionRecord }.

Inductive SnapshotLookupError := UnknownSnapshotTag | EvictedSnapshotTag | AmbiguousSnapshotTag.
#[export] Instance SnapshotLookupError_eq_dec : EqDecision SnapshotLookupError.
Proof. solve_decision. Defined.

Inductive SnapshotLookup := Found (s : Snapshot) | LookupUnknown | LookupEvicted | LookupAmbiguous.

(** ** Sizes *)

(** [Snapshot::residency_bytes] and [StoredSnapshot::residency_bytes]. *)
Definition snapshot_residency (s : Snapshot) : N :=
  map_fold (λ _ r acc, (N.of_nat (length (to_bytes r)) + acc)%N) 0%N (records s).

Definition residency_bytes (v : StoredSnapshot) : N :=
  sat_add64 (snapshot_residency (ss_snapshot v)) (N.of_nat (length (ss_normalized_bytes v))).

Definition has_same_normalized_content (v : StoredSnapshot) (t : str) (nb : bytes) : bool :=
  bool_decide (fold_tag (tag (ss_snapshot v)) = fold_tag t) &&
  bool_decide (ss_normalized_bytes v = nb).

(** [std::mem::take(&mut snapshot.normalized_bytes)]. *)
Definition take_normalized (s : Snapshot) : Snapshot :=
  MkSnapshot (tag s) [] (records s) (retained_lines s) (snap_coverage s) (boundary s)
    (total_lines s) (byte_count s) (snap_provenance s) (capture_provenance s).

(** ** Merging two captures of one content *)

Definition merge_coverage (a b : ScanCoverage) : ScanCoverage :=
  ScanCov
    (sc_requested_lines a ∪ sc_requested_lines b)
    (sc_retain_all a || sc_retain_all b)
    (sc_retained_lines a ∪ sc_retained_lines b)
    (sc_seen_lines a ∪ sc_seen_lines b)
    (Nat.max (sc_scanned_line_count a) (sc_scanned_line_count b))
    (Nat.max (sc_total_lines a) (sc_total_lines b))
    (N.max (sc_byte_count a) (sc_byte_count b))
    (sc_eof_observed a || sc_eof_observed b).

Definition merge_snapshot_evidence (existing incoming : Snapshot) : Snapshot :=
  let coverage := merge_coverage (snap_coverage existing) (snap_coverage incoming) in
  MkSnapshot
    (tag existing) (normalized_bytes existing)
    (records incoming ∪ records existing)
    (retained_lines incoming ∪ retained_lines existing)
    coverage
    (Boundary
       (empty_file (boundary existing) || empty_file (boundary incoming))
       (bof_observed (boundary existing) || bof_observed (boundary incoming))
       (eof_observed (boundary existing) || eof_observed (boundary incoming))
       (head (btree_elems (sc_seen_lines coverage)))
       (last (btree_elems (sc_seen_lines coverage))))
    (Nat.max (total_lines existing) (total_lines incoming))
    (N.max (byte_count existing) (byte_count incoming))
    (snap_provenance incoming) (capture_provenance incoming).

Definition equivalent_snapshots (l r : Snapshot) : bool :=
  bool_decide (records l = records r) &&
  bool_decide (sc_retained_lines (snap_coverage l) = sc_retained_lines (snap_coverage r)) &&
  bool_decide (sc_seen_lines (snap_coverage l) = sc_seen_lines (snap_coverage r)) &&
  bool_decide (total_lines l = total_lines r) &&
  Bool.eqb (empty_file (boundary l)) (empty_file (boundary r)) &&
  Bool.eqb (bof_observed (boundary l)) (bof_observed (boundary r)) &&
  bool_decide (first_seen (boundary l) = first_seen (boundary r)) &&
  bool_decide (last_seen (boundary l) = last_seen (boundary r)).

(** ** Orders used to choose victims *)

(** [Ordering::then]. *)
Definition cmp_then (c d : comparison) : comparison := match c with Eq => d | _ => c end.

Fixpoint list_compare {A} (cmp : A → A → comparison) (l k : list A) : comparison :=
  match l, k with
  | [], [] => Eq
  | [], _ => Lt
  | _, [] => Gt
  | x :: l, y :: k => cmp_then (cmp x y) (list_compare cmp l k)
  end.

Definition str_compare : str → str → comparison := list_compare N.compare.
Definition path_compare : PathBuf → PathBuf → comparison := list_compare str_compare.

(** [Iterator::min_by]: the first of the least elements. *)
Definition min_by {A} (cmp : A → A → comparison) (l : list A) : option A :=
  match l with
  | [] => None
  | x :: l => Some (foldl (λ best y, match cmp best y with Gt => y | _ => best end) x l)
  end.

Definition path_le (p q : PathBuf) : Prop := path_compare p q ≠ Gt.
#[export] Instance path_le_dec : RelDecision path_le.
Proof. intros p q. unfold path_le. solve_decision. Defined.

(** A [BTreeMap<PathBuf, _>] in iteration order. *)
Definition path_entries {V} (m : gmap PathBuf V) : list (PathBuf * V) :=
  omap (λ p, (λ v, (p, v)) <$> m !! p) (merge_sort path_le (elements (dom m))).

(** [iter().enumerate()]. *)
Definition enumerate {A} (l : list A) : list (nat * A) := imap pair l.

Definition max_of (f : StoredSnapshot → N) (vs : list StoredSnapshot) : N :=
  foldl (λ m v, N.max m (f v)) 0%N vs.
Definition min_of (f : StoredSnapshot → N) (vs : list StoredSnapshot) : N :=
  match vs with [] => 0%N | v :: vs => foldl (λ m v, N.min m (f v)) (f v) vs end.

Record PathAge := MkPathAge { pa_last_used : N; pa_inserted : N; pa_path : PathBuf }.

Definition path_age_compare (a b : PathAge) : comparison :=
  cmp_then (N.compare (pa_last_used a) (pa_last_used b))
    (cmp_then (N.compare (pa_inserted a) (pa_inserted b)) (path_compare (pa_path a) (pa_path b))).

Definition least_recent_path (st : SnapshotStore) : option PathBuf :=
  pa_path <$> min_by path_age_compare
    ((λ '(p, vs), MkPathAge (max_of last_used vs) (min_of published_at vs) p)
       <$> path_entries (st_paths st)).

Record VersionAge := MkVersionAge {
  va_last_used : N; va_published_at : N; va_path : PathBuf; va_index : nat; va_tag : str }.

Definition version_age_compare (a b : VersionAge) : comparison :=
  cmp_then (N.compare (va_last_used a) (va_last_used b))
    (cmp_then (N.compare (va_published_at a) (va_published_at b))
      (cmp_then (path_compare (va_path a) (va_path b))
        (cmp_then (str_compare (va_tag a) (va_tag b)) (Nat.compare (va_index a) (va_index b))))).

Definition version_ages (m : gmap PathBuf (list StoredSnapshot)) : list VersionAge :=
  path_entries m ≫= λ '(p, vs),
    (λ '(i, v), MkVersionAge (last_used v) (published_at v) p i (fold_tag (tag (ss_snapshot v))))
      <$> enumerate vs.

Definition least_recent_version (st : SnapshotStore) : option (PathBuf * nat) :=
  (λ a, (va_path a, va_index a)) <$> min_by version_age_compare (version_ages (st_paths st)).

(** The version a full path gives up: least [(published_at, last_used)]. *)
Definition oldest_version (vs : list StoredSnapshot) : option nat :=
  fst <$> min_by (λ a b, cmp_then (N.compare (published_at a.2) (published_at b.2))
                          (N.compare (last_used a.2) (last_used b.2))) (enumerate vs).

Definition store_new : SnapshotStore := MkStore ∅ 0 0 [].

Definition snapshot_count (st : SnapshotStore) : nat :=
  map_fold (λ _ vs n, length vs + n) 0 (st_paths st).

Definition bump_clock (st : SnapshotStore) : SnapshotStore :=
  MkStore (st_paths st) (st_total_bytes st) (sat_add64 (st_clock st) 1) (eviction_history st).

Definition clear (st : SnapshotStore) : SnapshotStore := MkStore ∅ 0 (st_clock st) [].

(** ** Operations *)

Section Store.
(** [fs::canonicalize] as the store observes it, and [blake3::hash]. *)
Context (canonicalize : PathBuf → option PathBuf) (content_fingerprint : bytes → bytes).

Definition canonical_key (p : PathBuf) : PathBuf := default p (canonicalize p).

Definition remove_history (r : EvictionRecord) (fp : bytes) (h : list EvictionHistoryEntry) :
    list EvictionHistoryEntry :=
  filter (λ e, he_record e ≠ r ∨ he_content_fingerprint e ≠ fp) h.

(** [while len > MAX { pop_front }] drops the excess from the front. *)
Definition record_eviction (r : EvictionRecord) (fp : bytes) (h : list EvictionHistoryEntry) :
    list EvictionHistoryEntry :=
  let h := remove_history r fp h ++ [MkHistory r fp] in
  drop (length h - MAX_EVICTION_RECORDS) h.

Definition history_contains (h : list EvictionHistoryEntry) (path : PathBuf) (t : str) : bool :=
  existsb (λ e, bool_decide (canonical_path (he_record e) = path)
                && bool_decide (ev_tag (he_record e) = t)) h.

Definition history_contains_different_content (h : list EvictionHistoryEntry) (path : PathBuf)
    (t : str) (nb : bytes) : bool :=
  existsb (λ e, bool_decide (canonical_path (he_record e) = path)
                && bool_decide (ev_tag (he_record e) = t)
                && bool_decide (he_content_fingerprint e ≠ content_fingerprint nb)) h.

Definition remove_version_for_eviction (st : SnapshotStore) (path : PathBuf) (index : nat) :
    option (EvictionRecord * SnapshotStore) :=
  versions ← st_paths st !! path;
  removed ← versions !! index;
  let versions := delete index versions in
  let r := eviction_record path (tag (ss_snapshot removed)) in
  let fp := content_fingerprint (ss_normalized_bytes removed) in
  Some (r,
    MkStore
      (match versions with [] => delete path (st_paths st) | _ => <[path := versions]> (st_paths st) end)
      (st_total_bytes st - residency_bytes removed)%N
      (st_clock st)
      (record_eviction r fp (eviction_history st))).

Definition evict_versions (path : PathBuf) (versions : list StoredSnapshot)
    (acc : SnapshotStore * list EvictionRecord) : SnapshotStore * list EvictionRecord :=
  foldl (λ '(st, rs) v,
    let r := eviction_record path (tag (ss_snapshot v)) in
    (MkStore (st_paths st) (st_total_bytes st - residency_bytes v)%N (st_clock st)
       (record_eviction r (content_fingerprint (ss_normalized_bytes v)) (eviction_history st)),
     rs ++ [r])) acc versions.

Definition remove_path_for_eviction (st : SnapshotStore) (path : PathBuf) :
    SnapshotStore * list EvictionRecord :=
  match st_paths st !! path with
  | None => (st, [])
  | Some versions =>
      evict_versions path versions
        (MkStore (delete path (st_paths st)) (st_total_bytes st) (st_clock st)
           (eviction_history st), [])
  end.

(** [while total_bytes > MAX { remove the least recent version }]: each round removes one
    resident version, so the number of versions bounds the rounds. *)
Fixpoint evict_over_budget (fuel : nat) (st : SnapshotStore) (rs : list EvictionRecord) :
    option (SnapshotStore * list EvictionRecord) :=
  if (st_total_bytes st <=? MAX_SNAPSHOT_TOTAL_BYTES)%N then Some (st, rs)
  else match fuel with
  | 0 => None
  | S fuel =>
      match least_recent_version st with
      | None => Some (st, rs)
      | Some (path, index) =>
          '(r, st) ← remove_version_for_eviction st path index;
          evict_over_budget fuel st (rs ++ [r])
      end
  end.

(** The resident version that a publication coalesces with, and the merged evidence. *)
Definition coalesce (st : SnapshotStore) (path : PathBuf) (s : Snapshot) (nb : bytes) :
    option (nat * Snapshot) :=
  versions ← st_paths st !! path;
  index ← position (λ v, has_same_normalized_content v (tag s) nb) versions;
  v ← versions !! index;
  Some (index, merge_snapshot_evidence (ss_snapshot v) s).

Definition publish_coalesced (st : SnapshotStore) (path : PathBuf) (s : Snapshot) (nb : bytes)
    (index : nat) (merged : Snapshot) : option (PublishOutcome * SnapshotStore) :=
  let now := st_clock st in
  versions ← st_paths st !! path;
  previous ← versions !! index;
  let history :=
    remove_history (eviction_record path (tag s)) (content_fingerprint nb) (eviction_history st) in
  let version := MkStored merged (ss_normalized_bytes previous) now now in
  let total := sat_add64 (st_total_bytes st - residency_bytes previous) (residency_bytes version) in
  let st := MkStore (<[path := <[index := version]> versions]> (st_paths st)) total now history in
  '(st, evicted) ← evict_over_budget (snapshot_count st) st [];
  Some (MkOutcome Stored (Some s) evicted, st).

Definition make_room_for_path (st : SnapshotStore) (path : PathBuf) :
    SnapshotStore * list EvictionRecord :=
  if bool_decide (st_paths st !! path = None) && (MAX_SNAPSHOT_PATHS <=? size (st_paths st))
  then match least_recent_path st with
       | Some oldest => remove_path_for_eviction st oldest
       | None => (st, [])
       end
  else (st, []).

Definition make_room_for_version (st : SnapshotStore) (path : PathBuf) (rs : list EvictionRecord) :
    option (SnapshotStore * list EvictionRecord) :=
  match st_paths st !! path with
  | Some versions =>
      if MAX_VERSIONS_PER_PATH <=? length versions
      then match oldest_version versions with
           | Some index =>
               '(r, st) ← remove_version_for_eviction st path index;
               Some (st, rs ++ [r])
           | None => Some (st, rs)
           end
      else Some (st, rs)
  | None => Some (st, rs)
  end.

Definition publish_fresh (st : SnapshotStore) (path : PathBuf) (s : Snapshot) (nb : bytes)
    (retained_bytes : N) : option (PublishOutcome * SnapshotStore) :=
  let now := st_clock st in
  let '(st, evicted) := make_room_for_path st path in
  '(st, evicted) ← make_room_for_version st path evicted;
  let history :=
    remove_history (eviction_record path (tag s)) (content_fingerprint nb) (eviction_history st) in
  let st :=
    MkStore
      (<[path := default [] (st_paths st !! path) ++ [MkStored s nb now now]]> (st_paths st))
      (sat_add64 (st_total_bytes st) retained_bytes) (st_clock st) history in
  '(st, evicted) ← evict_over_budget (snapshot_count st) st evicted;
  Some (MkOutcome Stored (Some s) evicted, st).

Definition publish (st : SnapshotStore) (path : PathBuf) (snapshot : Snapshot) :
    option (PublishOutcome * SnapshotStore) :=
  let path := canonical_key path in
  let nb := normalized_bytes snapshot in
  let s := take_normalized snapshot in
  let coalesced := coalesce st path s nb in
  let retained_bytes :=
    sat_add64 (snapshot_residency match coalesced with Some (_, merged) => merged | None => s end)
      (N.of_nat (length nb)) in
  if (MAX_FILE_READ_BYTES <? byte_count s)%N || (MAX_SNAPSHOT_TOTAL_BYTES <? retained_bytes)%N
  then Some (MkOutcome (Oversize retained_bytes MAX_SNAPSHOT_TOTAL_BYTES) None [], st)
  else
    let st := bump_clock st in
    match coalesced with
    | Some (index, merged) => publish_coalesced st path s nb index merged
    | None => publish_fresh st path s nb retained_bytes
    end.

(** The versions a tag names, in order. *)
Definition tag_indices (versions : list StoredSnapshot) (folded : str) : list nat :=
  omap (λ '(i, v), if decide (fold_tag (tag (ss_snapshot v)) = folded) then Some i else None)
    (enumerate versions).

Definition content_at (versions : list StoredSnapshot) (i : nat) : option bytes :=
  ss_normalized_bytes <$> versions !! i.

(** [versions[index].last_used = now]. *)
Definition touch (now : N) (versions : list StoredSnapshot) (i : nat) : list StoredSnapshot :=
  alter (λ v, MkStored (ss_snapshot v) (ss_normalized_bytes v) (published_at v) now) i versions.

Definition missing (st : SnapshotStore) (path : PathBuf) (folded : str) : SnapshotLookupError :=
  if history_contains (eviction_history st) path folded
  then EvictedSnapshotTag else UnknownSnapshotTag.

Definition lookup (st : SnapshotStore) (path : PathBuf) (t : str) :
    result SnapshotLookupError Snapshot * SnapshotStore :=
  let path := canonical_key path in
  let folded := fold_tag t in
  match st_paths st !! path with
  | None => (Err (missing st path folded), st)
  | Some versions =>
      match tag_indices versions folded with
      | [] => (Err (missing st path folded), st)
      | first :: rest =>
          match versions !! first with
          | None => (Err UnknownSnapshotTag, st)
          | Some v =>
              if existsb (λ i, bool_decide (content_at versions i ≠ Some (ss_normalized_bytes v))) rest
              then (Err AmbiguousSnapshotTag, st)
              else if history_contains_different_content (eviction_history st) path folded
                        (ss_normalized_bytes v)
              then (Err EvictedSnapshotTag, st)
              else
                let st := bump_clock st in
                (Ok (ss_snapshot v),
                 MkStore (<[path := foldl (touch (st_clock st)) versions (first :: rest)]> (st_paths st))
                   (st_total_bytes st) (st_clock st) (eviction_history st))
          end
      end
  end.

Definition lookup_state (st : SnapshotStore) (path : PathBuf) (t : str) : SnapshotLookup :=
  let path := canonical_key path in
  let folded := fold_tag t in
  let absent :=
    if history_contains (eviction_history st) path folded then LookupEvicted else LookupUnknown in
  match st_paths st !! path with
  | None => absent
  | Some versions =>
      match filter (λ v, fold_tag (tag (ss_snapshot v)) = folded) versions with
      | [] => absent
      | first :: rest =>
          if existsb (λ v, bool_decide (ss_normalized_bytes v ≠ ss_normalized_bytes first)) rest
          then LookupAmbiguous
          else if history_contains_different_content (eviction_history st) path folded
                    (ss_normalized_bytes first)
          then LookupEvicted
          else Found (ss_snapshot first)
      end
  end.

Definition contains (st : SnapshotStore) (path : PathBuf) (t : str) : bool :=
  match lookup_state st path t with Found _ => true | _ => false end.

Definition invalidate_path (st : SnapshotStore) (path : PathBuf) : bool * SnapshotStore :=
  let path := canonical_key path in
  match st_paths st !! path with
  | None => (false, st)
  | Some versions =>
      (true,
       MkStore (delete path (st_paths st))
         (st_total_bytes st - foldr (λ v n, residency_bytes v + n) 0 versions)%N
         (st_clock st) (eviction_history st))
  end.

Definition eviction_history_contains (st : SnapshotStore) (path : PathBuf) (t : str) : bool :=
  history_contains (eviction_history st) (canonical_key path) (fold_tag t).

End Store.

(** ** Sums over the store *)

Definition versions_bytes (vs : list StoredSnapshot) : N :=
  foldr (λ v n, residency_bytes v + n)%N 0%N vs.
Definition paths_bytes (m : gmap PathBuf (list StoredSnapshot)) : N :=
  map_fold (λ _ vs acc, (versions_bytes vs + acc)%N) 0%N m.
Definition count_versions (m : gmap PathBuf (list StoredSnapshot)) : nat :=
  map_fold (λ _ vs n, length vs + n) 0 m.

Lemma versions_bytes_app vs ws : versions_bytes (vs ++ ws) = (versions_bytes vs + versions_bytes ws)%N.
Proof. induction vs as [|v vs IH]; simpl; [done|]. rewrite IH. lia. Qed.

Lemma versions_bytes_delete vs i v :
  vs !! i = Some v → versions_bytes vs = (residency_bytes v + versions_bytes (delete i vs))%N.
Proof.
  intros Hi. rewrite <-(take_drop_middle vs i v Hi) at 1. rewrite delete_take_drop.
  rewrite !versions_bytes_app. simpl. lia.
Qed.

Lemma versions_bytes_insert vs i v w :
  vs !! i = Some v →
  (versions_bytes (<[i := w]> vs) + residency_bytes v = versions_bytes vs + residency_bytes w)%N.
Proof.
  intros Hi. pose proof (lookup_lt_Some _ _ _ Hi).
  rewrite (versions_bytes_delete vs i v Hi).
  rewrite (versions_bytes_delete (<[i := w]> vs) i w) by (by apply list_lookup_insert_eq).
  replace (delete i (<[i := w]> vs)) with (delete i vs); [lia|].
  rewrite !delete_take_drop, take_insert_ge, drop_insert_lt by lia. done.
Qed.

Lemma paths_bytes_delete m p vs :
  m !! p = Some vs → paths_bytes m = (versions_bytes vs + paths_bytes (delete p m))%N.
Proof.
  intros Hp. unfold paths_bytes. rewrite (map_fold_delete_L _ _ p vs m); [done| |done].
  intros. lia.
Qed.

Lemma paths_bytes_insert m p vs :
  paths_bytes (<[p := vs]> m) = (versions_bytes vs + paths_bytes (delete p m))%N.
Proof.
  rewrite (paths_bytes_delete _ p vs) by apply lookup_insert_eq. by rewrite delete_insert_eq.
Qed.

Lemma paths_bytes_empty : paths_bytes ∅ = 0%N.
Proof. apply map_fold_empty. Qed.

Lemma paths_bytes_absent m p : m !! p = None → paths_bytes (delete p m) = paths_bytes m.
Proof. intros. by rewrite delete_id. Qed.

Lemma count_versions_delete m p vs :
  m !! p = Some vs → count_versions m = length vs + count_versions (delete p m).
Proof.
  intros Hp. unfold count_versions. rewrite (map_fold_delete_L _ _ p vs m); [done| |done].
  intros. lia.
Qed.

Lemma count_versions_insert m p vs :
  count_versions (<[p := vs]> m) = length vs + count_versions (delete p m).
Proof.
  rewrite (count_versions_delete _ p vs) by apply lookup_insert_eq. by rewrite delete_insert_eq.
Qed.

Lemma count_versions_zero m :
  (∀ p vs, m !! p = Some vs → vs ≠ []) → count_versions m = 0 → m = ∅.
Proof.
  intros Hne H0. apply map_empty. intros p. destruct (m !! p) as [vs|] eqn:Hp; [|done].
  rewrite (count_versions_delete _ _ _ Hp) in H0. apply Hne in Hp. by destruct vs.
Qed.

(** ** The victims *)

Lemma min_by_spec {A} (f : A → N) (cmp : A → A → comparison) l x :
  (∀ a b, cmp a b = Gt → (f b ≤ f a)%N) → (∀ a b, cmp a b ≠ Gt → (f a ≤ f b)%N) →
  min_by cmp l = Some x → x ∈ l ∧ ∀ y, y ∈ l → (f x ≤ f y)%N.
Proof.
  intros Hgt Hle. destruct l as [|a l]; simpl; [done|]. intros [= <-].
  revert a. induction l as [|b l IH]; intros a; simpl.
  - split; [by left|]. intros y Hy. apply list_elem_of_singleton in Hy as ->. lia.
  - destruct (cmp a b) eqn:E; (destruct (IH a) as [Ha Hmin] || done).
    3:{ destruct (IH b) as [Hb Hminb]. split; [by right|].
        intros y [->|Hy]%elem_of_cons; [|by apply Hminb].
        specialize (Hminb b ltac:(by left)). specialize (Hgt a b E). lia. }
    all: assert (f a ≤ f b)%N by (apply Hle; congruence);
      (split; [set_solver|]); intros y [->|[->|Hy]%elem_of_cons]%elem_of_cons;
      [apply Hmin; by left | pose proof (Hmin a ltac:(by left)); lia | apply Hmin; by right].
Qed.

Lemma min_by_is_Some {A} (cmp : A → A → comparison) l : l ≠ [] → is_Some (min_by cmp l).
Proof. destruct l; [done|]. by eexists. Qed.

Lemma elem_of_path_entries {V} (m : gmap PathBuf V) p v :
  (p, v) ∈ path_entries m ↔ m !! p = Some v.
Proof.
  unfold path_entries. rewrite list_elem_of_omap. split.
  - intros (q & _ & (w & Hw & [= -> ->])%fmap_Some). done.
  - intros Hp. exists p. rewrite merge_sort_Permutation, elem_of_elements, elem_of_dom.
    rewrite Hp. split; [by eexists|done].
Qed.

Lemma elem_of_enumerate {A} (l : list A) i x : (i, x) ∈ enumerate l ↔ l !! i = Some x.
Proof.
  unfold enumerate. rewrite elem_of_lookup_imap. split.
  - intros (j & y & [= -> ->] & Hj). done.
  - intros Hi. eauto.
Qed.

Lemma elem_of_version_ages m a :
  a ∈ version_ages m ↔ ∃ vs v, m !! va_path a = Some vs ∧ vs !! va_index a = Some v ∧
    a = MkVersionAge (last_used v) (published_at v) (va_path a) (va_index a)
          (fold_tag (tag (ss_snapshot v))).
Proof.
  unfold version_ages. rewrite list_elem_of_bind. split.
  - intros ([p vs] & Ha & Hp%elem_of_path_entries).
    apply list_elem_of_fmap in Ha as ([i v] & -> & Hi%elem_of_enumerate). eauto.
  - intros (vs & v & Hp & Hi & Ha). exists (va_path a, vs). split; [|by apply elem_of_path_entries].
    apply list_elem_of_fmap. exists (va_index a, v). split; [done|]. by apply elem_of_enumerate.
Qed.

Lemma cmp_then_first a b c : cmp_then (N.compare a b) c = Gt → (b ≤ a)%N.
Proof. destruct (N.compare_spec a b); simpl; intros; try done; lia. Qed.

Lemma cmp_then_first' a b c : cmp_then (N.compare a b) c ≠ Gt → (a ≤ b)%N.
Proof. destruct (N.compare_spec a b); simpl; intros; try done; lia. Qed.

(** The chosen version is resident and no resident version is older. *)
Lemma least_recent_version_spec st p i :
  least_recent_version st = Some (p, i) →
  ∃ vs v, st_paths st !! p = Some vs ∧ vs !! i = Some v ∧
    ∀ q ws j w, st_paths st !! q = Some ws → ws !! j = Some w → (last_used v ≤ last_used w)%N.
Proof.
  unfold least_recent_version. intros (a & Ha & [= -> ->])%fmap_Some.
  apply (min_by_spec va_last_used) in Ha as [Ha Hmin];
    [|intros ??; apply cmp_then_first|intros ??; apply cmp_then_first'].
  apply elem_of_version_ages in Ha as (vs & v & Hp & Hi & E). exists vs, v.
  split; [done|]. split; [done|]. intros q ws j w Hq Hj.
  assert (last_used v = va_last_used a) as -> by (by rewrite E).
  apply (Hmin (MkVersionAge (last_used w) (published_at w) q j (fold_tag (tag (ss_snapshot w))))).
  apply elem_of_version_ages. exists ws, w. done.
Qed.

Lemma least_recent_version_exists st p vs v i :
  st_paths st !! p = Some vs → vs !! i = Some v → is_Some (least_recent_version st).
Proof.
  intros Hp Hi. unfold least_recent_version. rewrite fmap_is_Some. apply min_by_is_Some.
  intros H. apply (not_elem_of_nil
    (MkVersionAge (last_used v) (published_at v) p i (fold_tag (tag (ss_snapshot v))))).
  rewrite <-H. apply elem_of_version_ages. exists vs, v. done.
Qed.

Lemma least_recent_path_spec st :
  st_paths st ≠ ∅ → ∃ p, least_recent_path st = Some p ∧ is_Some (st_paths st !! p).
Proof.
  intros Hne. unfold least_recent_path.
  apply map_choose in Hne as (p & vs & Hp). apply elem_of_path_entries in Hp.
  destruct (min_by path_age_compare _) as [a|] eqn:Ha.
  - exists (pa_path a). split; [done|].
    apply (min_by_spec pa_last_used) in Ha as [Ha _];
      [|intros ??; apply cmp_then_first|intros ??; apply cmp_then_first'].
    apply list_elem_of_fmap in Ha as ([q ws] & -> & Hq%elem_of_path_entries). by exists ws.
  - destruct (path_entries (st_paths st)); [by apply not_elem_of_nil in Hp|done].
Qed.

Lemma oldest_version_spec vs i : oldest_version vs = Some i → is_Some (vs !! i).
Proof.
  unfold oldest_version. intros ([j v] & Ha & ->)%fmap_Some.
  apply (min_by_spec (λ a, published_at a.2)) in Ha as [Ha _];
    [|intros ??; apply cmp_then_first|intros ??; apply cmp_then_first'].
  apply elem_of_enumerate in Ha. by exists v.
Qed.

(** ** The invariant *)

(** What identifies a version: its folded handle and its exact content. *)
Definition version_key (v : StoredSnapshot) : str * bytes :=
  (fold_tag (tag (ss_snapshot v)), ss_normalized_bytes v).

Record versions_ok (clock : N) (vs : list StoredSnapshot) : Prop := {
  vo_cap : length vs ≤ MAX_VERSIONS_PER_PATH;
  vo_distinct : NoDup (version_key <$> vs);
  vo_clock : Forall (λ v, last_used v ≤ clock ∧ published_at v ≤ clock)%N vs }.

Definition history_ok (h : list EvictionHistoryEntry) : Prop :=
  length h ≤ MAX_EVICTION_RECORDS ∧ NoDup h.

(** Everything but the byte budget, which is re-established by the eviction loop. *)
Record core_inv (st : SnapshotStore) : Prop := {
  ci_size : size (st_paths st) ≤ MAX_SNAPSHOT_PATHS;
  ci_nonempty : ∀ p vs, st_paths st !! p = Some vs → vs ≠ [];
  ci_versions : ∀ p vs, st_paths st !! p = Some vs → versions_ok (st_clock st) vs;
  ci_total : st_total_bytes st = paths_bytes (st_paths st);
  ci_history : history_ok (eviction_history st);
  ci_clock : (st_clock st ≤ usize_max)%N }.

Definition store_inv (st : SnapshotStore) : Prop :=
  core_inv st ∧ (st_total_bytes st ≤ MAX_SNAPSHOT_TOTAL_BYTES)%N.

Lemma remove_history_ok r fp h : history_ok h → history_ok (remove_history r fp h).
Proof.
  intros [Hl Hd]. split; [|by apply NoDup_filter].
  pose proof (length_filter (λ e, he_record e ≠ r ∨ he_content_fingerprint e ≠ fp) h).
  unfold remove_history. lia.
Qed.

Lemma record_eviction_ok r fp h : history_ok h → history_ok (record_eviction r fp h).
Proof.
  intros [Hl Hd]. unfold record_eviction. split.
  - rewrite length_drop. lia.
  - eapply sublist_NoDup; [|apply sublist_drop]. apply NoDup_app. split_and!.
    + by apply NoDup_filter.
    + intros e He Hin. apply list_elem_of_singleton in Hin as ->.
      apply list_elem_of_filter in He as [[He|He] _]; done.
    + apply NoDup_singleton.
Qed.

Lemma versions_ok_delete clock vs i : versions_ok clock vs → versions_ok clock (delete i vs).
Proof.
  intros [Hc Hd Ht]. pose proof (sublist_delete vs i) as Hsub. split.
  - apply sublist_length in Hsub. lia.
  - eapply sublist_NoDup; [done|]. by apply fmap_sublist.
  - rewrite delete_take_drop. apply Forall_app. split; [by apply Forall_take|by apply Forall_drop].
Qed.

Lemma versions_ok_mono c c' vs : (c ≤ c')%N → versions_ok c vs → versions_ok c' vs.
Proof.
  intros Hcc [Hc Hd Ht]. split; [done..|]. eapply Forall_impl; [done|]. intros v []. lia.
Qed.

Lemma bump_clock_inv st : store_inv st → store_inv (bump_clock st).
Proof.
  intros [[] Hb]. split; [|done]. split; try done; simpl.
  - intros p vs Hp. eapply versions_ok_mono; [|by eapply ci_versions0].
    unfold sat_add64. lia.
  - unfold sat_add64. lia.
Qed.

Section Invariant.
Context (canonicalize : PathBuf → option PathBuf) (content_fingerprint : bytes → bytes).

Lemma remove_version_spec st p vs i v :
  core_inv st → st_paths st !! p = Some vs → vs !! i = Some v →
  ∃ r st', remove_version_for_eviction content_fingerprint st p i = Some (r, st') ∧
    core_inv st' ∧ st_clock st' = st_clock st ∧
    (st_total_bytes st' + residency_bytes v = st_total_bytes st)%N ∧
    S (count_versions (st_paths st')) = count_versions (st_paths st) ∧
    (∀ q, q ≠ p → st_paths st' !! q = st_paths st !! q) ∧
    (st_paths st' !! p = None ∧ delete i vs = [] ∨
     st_paths st' !! p = Some (delete i vs) ∧ delete i vs ≠ []).
Proof.
  intros [Hsz Hne Hvs Htot Hh Hck] Hp Hi. unfold remove_version_for_eviction. rewrite Hp. simpl.
  rewrite Hi. simpl. do 2 eexists. split; [done|].
  pose proof (paths_bytes_delete _ _ _ Hp) as Hpb. pose proof (versions_bytes_delete _ _ _ Hi) as Hvb.
  pose proof (count_versions_delete _ _ _ Hp) as Hcnt. pose proof (lookup_lt_Some _ _ _ Hi) as Hlt.
  assert (length (delete i vs) = length vs - 1) as Hld by (apply length_delete; eauto).
  specialize (Hvs p vs Hp) as Hvsp. apply (versions_ok_delete _ _ i) in Hvsp.
  pose proof (record_eviction_ok (eviction_record p (tag (ss_snapshot v)))
    (content_fingerprint (ss_normalized_bytes v)) _ Hh) as Hh'.
  destruct (delete i vs) as [|w ws] eqn:Hd; split_and!; simpl; try done.
  - split; simpl; try done.
    + pose proof (map_size_delete p (st_paths st)) as E. rewrite Hp in E. lia.
    + intros q us [? Hq]%lookup_delete_Some. by eapply Hne.
    + intros q us [? Hq]%lookup_delete_Some. by eapply Hvs.
    + simpl in Hvb. lia.
  - simpl in Hvb. lia.
  - simpl in Hld. lia.
  - intros q Hq. by rewrite lookup_delete_ne.
  - left. split; [by rewrite lookup_delete_eq|done].
  - split; simpl; try done.
    + rewrite map_size_insert_Some by eauto. done.
    + intros q us [[<- <-]|[? Hq]]%lookup_insert_Some; [done|]. by eapply Hne.
    + intros q us [[<- <-]|[? Hq]]%lookup_insert_Some; [done|]. by eapply Hvs.
    + rewrite paths_bytes_insert. lia.
  - lia.
  - rewrite count_versions_insert. simpl in *. lia.
  - intros q Hq. by rewrite lookup_insert_ne.
  - right. split; [by rewrite lookup_insert_eq|done].
Qed.

(** The eviction loop terminates within its budget and keeps any property that evicting
    the least recent version of an over-budget store keeps. *)
Lemma evict_over_budget_spec (P : SnapshotStore → Prop) fuel st rs :
  (∀ st p i r st', core_inv st → P st → (MAX_SNAPSHOT_TOTAL_BYTES < st_total_bytes st)%N →
     least_recent_version st = Some (p, i) →
     remove_version_for_eviction content_fingerprint st p i = Some (r, st') → P st') →
  core_inv st → P st → count_versions (st_paths st) ≤ fuel →
  ∃ st' rs', evict_over_budget content_fingerprint fuel st rs = Some (st', rs') ∧
    store_inv st' ∧ P st' ∧ st_clock st' = st_clock st.
Proof.
  intros Hstep. revert st rs. induction fuel as [|fuel IH]; intros st rs Hinv HP Hfuel; simpl;
    destruct (st_total_bytes st <=? MAX_SNAPSHOT_TOTAL_BYTES)%N eqn:Hb.
  - apply N.leb_le in Hb. exists st, rs. split_and!; try done; split; done.
  - apply N.leb_gt in Hb. rewrite (ci_total _ Hinv) in Hb.
    rewrite (count_versions_zero (st_paths st)), paths_bytes_empty in Hb; [done|apply Hinv|lia].
  - apply N.leb_le in Hb. exists st, rs. split_and!; try done; split; done.
  - apply N.leb_gt in Hb.
    assert (is_Some (least_recent_version st)) as [[p i] Hl].
    { assert (st_paths st ≠ ∅) as Hne.
      { intros He. by rewrite (ci_total _ Hinv), He, paths_bytes_empty in Hb. }
      apply map_choose in Hne as (p & vs & Hp). pose proof (ci_nonempty _ Hinv _ _ Hp).
      destruct vs as [|v vs]; [done|]. by apply (least_recent_version_exists st p (v :: vs) v 0). }
    rewrite Hl. destruct (least_recent_version_spec _ _ _ Hl) as (vs & v & Hp & Hi & _).
    destruct (remove_version_spec st p vs i v Hinv Hp Hi)
      as (r & st1 & Hrm & Hinv1 & Hck & _ & Hcnt & _).
    rewrite Hrm. simpl. destruct (IH st1 (rs ++ [r]) Hinv1) as (st' & rs' & He & Hs & HP' & Hc').
    + by apply (Hstep st p i r).
    + lia.
    + exists st', rs'. split_and!; try done. congruence.
Qed.

(** A version that is resident under a path. *)
Definition resident (st : SnapshotStore) (p : PathBuf) (v : StoredSnapshot) : Prop :=
  ∃ vs, st_paths st !! p = Some vs ∧ v ∈ vs.

(** [target] is resident under [p], fits the budget, and is strictly the most recent. *)
Record most_recent (p : PathBuf) (target : StoredSnapshot) (st : SnapshotStore) : Prop := {
  mr_resident : resident st p target;
  mr_fits : (residency_bytes target ≤ MAX_SNAPSHOT_TOTAL_BYTES)%N;
  mr_newest : ∀ q w, resident st q w → (last_used w < last_used target)%N ∨ (q = p ∧ w = target) }.

Lemma sole_resident_total st p vs target :
  core_inv st → st_paths st !! p = Some vs → target ∈ vs →
  (∀ q w, resident st q w → q = p ∧ w = target) →
  st_total_bytes st = residency_bytes target.
Proof.
  intros Hinv Hp Hin Hall.
  assert (st_paths st = {[p := vs]}) as Hpaths.
  { apply map_eq. intros q. destruct (decide (q = p)) as [->|Hne].
    - by rewrite lookup_singleton_eq.
    - rewrite lookup_singleton_ne by done. destruct (st_paths st !! q) as [ws|] eqn:Hws; [|done].
      pose proof (ci_nonempty _ Hinv _ _ Hws). destruct ws as [|w ws]; [done|].
      destruct Hne. apply (Hall q w). exists (w :: ws). split; [done|by left]. }
  assert (∀ w, w ∈ vs → w = target) as Hw by (intros w Hw; apply (Hall p); by exists vs).
  pose proof (vo_distinct _ _ (ci_versions _ Hinv _ _ Hp)) as Hnd.
  assert (vs = [target]) as ->.
  { destruct vs as [|a [|b vs]]; [by apply not_elem_of_nil in Hin| |].
    - by rewrite (Hw a) by by left.
    - rewrite (Hw a), (Hw b) in Hnd by set_solver. apply NoDup_cons in Hnd as [Hnd _].
      destruct Hnd. by left. }
  rewrite (ci_total _ Hinv), Hpaths, <-(insert_empty p [target]).
  rewrite paths_bytes_insert, paths_bytes_absent, paths_bytes_empty by apply lookup_empty.
  simpl. lia.
Qed.

Lemma evict_keeps_most_recent p target st q i r st' :
  core_inv st → most_recent p target st → (MAX_SNAPSHOT_TOTAL_BYTES < st_total_bytes st)%N →
  least_recent_version st = Some (q, i) →
  remove_version_for_eviction content_fingerprint st q i = Some (r, st') →
  most_recent p target st'.
Proof.
  intros Hinv [[vs0 [Hp0 Hin0]] Hfit Hnew] Hb Hl Hrm.
  destruct (least_recent_version_spec _ _ _ Hl) as (vs & v & Hq & Hi & Hmin).
  destruct (remove_version_spec st q vs i v Hinv Hq Hi)
    as (r' & st1 & Hrm' & _ & _ & _ & _ & Hother & Hself).
  rewrite Hrm in Hrm'. injection Hrm' as <- <-.
  assert (q ≠ p ∨ v ≠ target) as Hne.
  { destruct (decide (q = p)) as [->|]; [|by left].
    destruct (decide (last_used v = last_used target)) as [Heq|]; [|right; congruence].
    exfalso. rewrite Hq in Hp0. injection Hp0 as <-.
    assert (∀ q' w, resident st q' w → q' = p ∧ w = target) as Hall.
    { intros q' w Hw. destruct (Hnew q' w Hw) as [Hlt|]; [|done].
      destruct Hw as (ws & Hws & [j Hj]%list_elem_of_lookup).
      specialize (Hmin _ _ _ _ Hws Hj). lia. }
    rewrite (sole_resident_total _ _ _ _ Hinv Hq Hin0 Hall) in Hb. lia. }
  assert (∀ q' w, resident st' q' w → resident st q' w) as Hsub.
  { intros q' w (ws & Hws & Hw). destruct (decide (q' = q)) as [->|]; [|rewrite Hother in Hws by done; by exists ws].
    destruct Hself as [[Hn _]|[Hs _]]; rewrite Hws in *; simplify_eq. exists vs. split; [done|].
    by eapply sublist_subseteq, Hw; apply sublist_delete. }
  split; [|done|naive_solver].
  destruct (decide (p = q)) as [->|Hpq].
  - rewrite Hq in Hp0. injection Hp0 as <-. destruct Hne as [|Hne]; [done|].
    assert (target ∈ delete i vs) as Hin.
    { rewrite <-(take_drop_middle vs i v Hi) in Hin0. rewrite delete_take_drop. set_solver. }
    destruct Hself as [[_ Hnil]|[Hs _]]; [rewrite Hnil in Hin; by apply not_elem_of_nil in Hin|].
    by exists (delete i vs).
  - exists vs0. rewrite Hother by done. done.
Qed.

Lemma evict_versions_spec path vs st rs :
  history_ok (eviction_history st) →
  let st' := (evict_versions content_fingerprint path vs (st, rs)).1 in
  st_paths st' = st_paths st ∧ st_clock st' = st_clock st ∧
  st_total_bytes st' = (st_total_bytes st - versions_bytes vs)%N ∧ history_ok (eviction_history st').
Proof.
  revert st rs. induction vs as [|v vs IH]; intros st rs Hh; simpl.
  - split_and!; try done. lia.
  - match goal with |- context [evict_versions _ _ _ (?s, ?r)] =>
      destruct (IH s r) as (-> & -> & -> & ?) end.
    + by apply record_eviction_ok.
    + simpl. split_and!; try done. lia.
Qed.

(** Making room only removes; afterwards one more path, and one more version of the
    path, fit. *)
Lemma make_room_for_path_spec st path st' rs :
  core_inv st → make_room_for_path content_fingerprint st path = (st', rs) →
  core_inv st' ∧ st_clock st' = st_clock st ∧ (st_total_bytes st' ≤ st_total_bytes st)%N ∧
  (∀ q, st_paths st' !! q = None ∨ st_paths st' !! q = st_paths st !! q) ∧
  (st_paths st' !! path = None → size (st_paths st') < MAX_SNAPSHOT_PATHS).
Proof.
  intros Hinv. unfold make_room_for_path.
  destruct (_ && _) eqn:E.
  - apply andb_true_iff in E as [En%bool_decide_eq_true Es%Nat.leb_le].
    destruct (least_recent_path_spec st) as (old & -> & [vs Hold]).
    { intros He. rewrite He, map_size_empty in Es. unfold MAX_SNAPSHOT_PATHS in Es. lia. }
    unfold remove_path_for_eviction. rewrite Hold. destruct Hinv as [Hsz Hne Hvs Htot Hh Hck].
    match goal with |- evict_versions _ _ _ (?s, ?r) = _ → _ =>
      destruct (evict_versions_spec old vs s r) as (Hp & Hc & Ht & Hh'); [done|] end.
    destruct (evict_versions _ _ _ _) as [st1 rs1]. intros [= <- <-]. simpl in *.
    pose proof (paths_bytes_delete _ _ _ Hold) as Hpb.
    pose proof (map_size_delete old (st_paths st)) as Hds. rewrite Hold in Hds.
    assert (0 < size (st_paths st)) by (unfold MAX_SNAPSHOT_PATHS in Es; lia).
    split_and!; try done; try (rewrite ?Hp; lia).
    + split; rewrite ?Hp, ?Hc, ?Ht; try done; try lia;
        intros q us [? Hq]%lookup_delete_Some; eauto.
    + intros q. rewrite Hp. destruct (decide (q = old)) as [->|];
        [left; apply lookup_delete_eq|right; by apply lookup_delete_ne].
  - intros [= <- <-]. split_and!; try done; [auto|]. intros Hn.
    apply andb_false_iff in E as [E|E]; [by apply bool_decide_eq_false in E|].
    by apply Nat.leb_gt in E.
Qed.

Lemma make_room_for_version_spec st path rs :
  core_inv st →
  ∃ st' rs', make_room_for_version content_fingerprint st path rs = Some (st', rs') ∧
  core_inv st' ∧ st_clock st' = st_clock st ∧ (st_total_bytes st' ≤ st_total_bytes st)%N ∧
  (∀ q, q ≠ path → st_paths st' !! q = st_paths st !! q) ∧
  (∀ vs', st_paths st' !! path = Some vs' →
     length vs' < MAX_VERSIONS_PER_PATH ∧ ∃ vs, st_paths st !! path = Some vs ∧ vs' `sublist_of` vs) ∧
  (st_paths st' !! path = None → st_paths st !! path = None).
Proof.
  intros Hinv. unfold make_room_for_version. destruct (st_paths st !! path) as [vs|] eqn:Hp.
  - pose proof (ci_versions _ Hinv _ _ Hp) as Hvs.
    destruct (MAX_VERSIONS_PER_PATH <=? length vs) eqn:E.
    + apply Nat.leb_le in E. pose proof (vo_cap _ _ Hvs) as Hcap.
      assert (is_Some (oldest_version vs)) as [i Hi].
      { unfold oldest_version. rewrite fmap_is_Some. apply min_by_is_Some.
        unfold MAX_VERSIONS_PER_PATH in E. destruct vs; simpl in *; [lia|done]. }
      rewrite Hi. destruct (oldest_version_spec _ _ Hi) as [v Hv].
      destruct (remove_version_spec st path vs i v Hinv Hp Hv)
        as (r & st1 & -> & Hinv1 & Hc & Ht & _ & Ho & Hself).
      simpl. do 2 eexists. split; [done|].
      assert (length (delete i vs) = length vs - 1) as Hl
        by (apply length_delete; eauto).
      unfold MAX_VERSIONS_PER_PATH in *.
      split_and!; try done; try lia.
      * intros vs' Hvs'. destruct Hself as [[Hn _]|[Hs _]]; rewrite Hvs' in *; simplify_eq.
        split; [lia|]. exists vs. split; [done|]. apply sublist_delete.
      * intros Hn. destruct Hself as [[_ Hd]|[Hs _]]; [|congruence].
        rewrite Hd in Hl. simpl in Hl. lia.
    + apply Nat.leb_gt in E. do 2 eexists. split; [done|]. split_and!; try done.
      * intros vs' Hvs'. rewrite Hp in Hvs'. injection Hvs' as <-. split; [done|]. by exists vs.
      * congruence.
  - do 2 eexists. split; [done|]. split_and!; try done. congruence.
Qed.

(** [before] is the store whose clock was just advanced to [st_clock st]. *)
Definition advanced (before st : SnapshotStore) : Prop :=
  st_paths st = st_paths before ∧ st_total_bytes st = st_total_bytes before ∧
  eviction_history st = eviction_history before ∧
  ((st_clock before < usize_max)%N → (st_clock before < st_clock st)%N).

Lemma advanced_bump st : core_inv st → advanced st (bump_clock st).
Proof. intros []. split_and!; try done. simpl. unfold sat_add64. lia. Qed.

(** What a stored publication leaves behind. *)
Definition published (before st' : SnapshotStore) (path : PathBuf) (s : Snapshot) (nb : bytes)
    (kept : Snapshot) : Prop :=
  (st_clock before < usize_max)%N →
  resident st' path (MkStored kept nb (st_clock st') (st_clock st')) ∧
  fold_tag (tag kept) = fold_tag (tag s).

Lemma small_sum a b :
  (a ≤ MAX_SNAPSHOT_TOTAL_BYTES → b ≤ MAX_SNAPSHOT_TOTAL_BYTES → sat_add64 a b = a + b)%N.
Proof. unfold sat_add64, MAX_SNAPSHOT_TOTAL_BYTES, usize_max. lia. Qed.

Lemma older_resident before st q v :
  core_inv before → advanced before st → (st_clock before < usize_max)%N →
  resident before q v → (last_used v < st_clock st)%N.
Proof.
  intros Hinv (_ & _ & _ & Hck) Hlt (vs & Hp & Hv). specialize (Hck Hlt).
  pose proof (vo_clock _ _ (ci_versions _ Hinv _ _ Hp)) as Hall.
  rewrite Forall_forall in Hall. apply Hall in Hv as [? _]. lia.
Qed.

(** The budget loop, from a store whose newest version fits the budget. *)
Lemma settle before st path v fuel rs :
  core_inv st → fuel = count_versions (st_paths st) → resident st path v →
  last_used v = st_clock st → (residency_bytes v ≤ MAX_SNAPSHOT_TOTAL_BYTES)%N →
  ((st_clock before < usize_max)%N →
   ∀ q w, resident st q w → (last_used w < last_used v)%N ∨ (q = path ∧ w = v)) →
  ∃ st' rs', evict_over_budget content_fingerprint fuel st rs = Some (st', rs') ∧ store_inv st' ∧
    st_clock st' = st_clock st ∧ ((st_clock before < usize_max)%N → resident st' path v).
Proof.
  intros Hinv -> Hres Hv Hfit Hnew.
  destruct (decide (st_clock before < usize_max)%N) as [Hlt|Hge].
  - destruct (evict_over_budget_spec (most_recent path v) (count_versions (st_paths st)) st rs)
      as (st' & rs' & He & Hs & Hm & Hc); [intros; by eapply evict_keeps_most_recent|done| |done|].
    { split; [done..|]. by apply Hnew. }
    exists st', rs'. split_and!; try done. intros _. apply Hm.
  - destruct (evict_over_budget_spec (λ _, True) (count_versions (st_paths st)) st rs)
      as (st' & rs' & He & Hs & _ & Hc); [done..|].
    exists st', rs'. split_and!; done.
Qed.

Lemma core_inv_advance before st :
  core_inv before → advanced before st → (st_clock before ≤ st_clock st ≤ usize_max)%N → core_inv st.
Proof.
  intros [Hsz Hne Hvs Htot Hh Hck] (Hp & Ht & Hhi & _) Hc. split; rewrite ?Hp, ?Ht, ?Hhi; try done.
  - intros p vs Hq. eapply versions_ok_mono; [|by eapply Hvs]. lia.
  - lia.
Qed.

Lemma coalesce_None before path s nb vs w :
  coalesce before path s nb = None → st_paths before !! path = Some vs → w ∈ vs →
  version_key w ≠ (fold_tag (tag s), nb).
Proof.
  unfold coalesce. intros Hco Hp Hw [= Ht Hn]. rewrite Hp in Hco. simpl in Hco.
  destruct (position _ vs) as [i|] eqn:Hpos; simpl in Hco.
  - apply position_Some in Hpos as (x & Hx & _). by rewrite Hx in Hco.
  - rewrite position_None in Hpos. apply Hpos in Hw. unfold has_same_normalized_content in Hw.
    by rewrite !bool_decide_true in Hw.
Qed.

(** Appending a version to a path that has room keeps the invariant. *)
Lemma append_version_inv st path v vs total :
  core_inv st → vs = default [] (st_paths st !! path) →
  length vs < MAX_VERSIONS_PER_PATH →
  (st_paths st !! path = None → size (st_paths st) < MAX_SNAPSHOT_PATHS) →
  (∀ w, w ∈ vs → version_key w ≠ version_key v) →
  (last_used v ≤ st_clock st)%N → (published_at v ≤ st_clock st)%N →
  total = (st_total_bytes st + residency_bytes v)%N →
  ∀ h, history_ok h → core_inv (MkStore (<[path := vs ++ [v]]> (st_paths st)) total (st_clock st) h).
Proof.
  intros Hinv -> Hlen Hsz Hfresh Hlu Hpa -> h Hh.
  assert (versions_ok (st_clock st) (default [] (st_paths st !! path))) as [Hcap Hnd Hcl].
  { destruct (st_paths st !! path) as [vs|] eqn:E; simpl; [by eapply Hinv|].
    split; simpl; [unfold MAX_VERSIONS_PER_PATH; lia|constructor..]. }
  split; simpl.
  - destruct (st_paths st !! path) as [vs2|] eqn:E.
    + rewrite map_size_insert_Some by eauto. apply Hinv.
    + rewrite map_size_insert_None by done. by apply Hsz.
  - intros p us [[<- <-]|[? Hq]]%lookup_insert_Some; [by destruct (default _ _)|by eapply Hinv].
  - intros p us [[<- <-]|[? Hq]]%lookup_insert_Some; [|by eapply Hinv]. split.
    + rewrite length_app. simpl. lia.
    + rewrite fmap_app. apply NoDup_app. split_and!; [done| |apply NoDup_singleton].
      intros k (w & -> & Hw)%list_elem_of_fmap Hin%list_elem_of_singleton. by eapply Hfresh.
    + apply Forall_app. split; [done|]. by constructor.
  - rewrite paths_bytes_insert, versions_bytes_app. simpl. rewrite (ci_total _ Hinv).
    destruct (st_paths st !! path) as [vs2|] eqn:E; simpl.
    + rewrite (paths_bytes_delete _ _ _ E). lia.
    + rewrite paths_bytes_absent by done. lia.
  - done.
  - apply Hinv.
Qed.

(** The store that [publish_fresh] appends to. *)
Lemma make_room_spec before st path :
  core_inv before → advanced before st → (st_clock before ≤ st_clock st ≤ usize_max)%N →
  let '(st1, rs1) := make_room_for_path content_fingerprint st path in
  ∃ st2 rs2, make_room_for_version content_fingerprint st1 path rs1 = Some (st2, rs2) ∧
    core_inv st2 ∧ st_clock st2 = st_clock st ∧ (st_total_bytes st2 ≤ st_total_bytes before)%N ∧
    length (default [] (st_paths st2 !! path)) < MAX_VERSIONS_PER_PATH ∧
    (st_paths st2 !! path = None → size (st_paths st2) < MAX_SNAPSHOT_PATHS) ∧
    (∀ q w, resident st2 q w → resident before q w).
Proof.
  intros Hinv0 Hadv Hck. pose proof (core_inv_advance _ _ Hinv0 Hadv Hck) as Hinv.
  destruct (make_room_for_path _ st path) as [st1 rs1] eqn:Hroom.
  destruct (make_room_for_path_spec _ _ _ _ Hinv Hroom) as (Hinv1 & Hc1 & Ht1 & Hsub1 & Hsz1).
  destruct (make_room_for_version_spec st1 path rs1 Hinv1)
    as (st2 & rs2 & -> & Hinv2 & Hc2 & Ht2 & Hsub2 & Hvs2 & Hn2).
  destruct Hadv as (Hp & Ht & _).
  exists st2, rs2. split_and!; try done; try lia.
  - destruct (st_paths st2 !! path) as [vs2|] eqn:E; simpl; [by apply Hvs2|].
    unfold MAX_VERSIONS_PER_PATH. lia.
  - intros E. specialize (Hsz1 (Hn2 E)).
    assert (st_paths st2 = st_paths st1) as ->; [|lia].
    apply map_eq. intros q. destruct (decide (q = path)) as [->|]; [|by apply Hsub2].
    rewrite E. symmetry. by apply Hn2.
  - intros q w (ws & Hq & Hw). unfold resident. rewrite <-Hp.
    destruct (decide (q = path)) as [->|Hne].
    + destruct (Hvs2 _ Hq) as (_ & us & Hus & Hsl). exists us.
      destruct (Hsub1 path) as [|Heq]; [congruence|]. rewrite <-Heq. split; [done|].
      by eapply elem_of_sublist.
    + rewrite Hsub2 in Hq by done. exists ws. destruct (Hsub1 q) as [|Heq]; [congruence|].
      by rewrite <-Heq.
Qed.

Lemma resident_default st path w :
  w ∈ default [] (st_paths st !! path) → resident st path w.
Proof.
  intros Hw. destruct (st_paths st !! path) as [vs|] eqn:E;
    [by exists vs|by apply not_elem_of_nil in Hw].
Qed.

Lemma publish_fresh_spec before st path s nb retained :
  store_inv before → advanced before st → (st_clock before ≤ st_clock st ≤ usize_max)%N →
  coalesce before path s nb = None →
  retained = sat_add64 (snapshot_residency s) (N.of_nat (length nb)) →
  (retained ≤ MAX_SNAPSHOT_TOTAL_BYTES)%N →
  ∃ o st', publish_fresh content_fingerprint st path s nb retained = Some (o, st') ∧
    po_status o = Stored ∧ po_snapshot o = Some s ∧ store_inv st' ∧ published before st' path s nb s.
Proof.
  intros [Hinv0 Hb0] Hadv Hck Hco Hret Hfit. unfold publish_fresh.
  pose proof (make_room_spec before st path Hinv0 Hadv Hck) as Hroom.
  destruct (make_room_for_path _ st path) as [st1 rs1].
  destruct Hroom as (st2 & rs2 & -> & Hinv2 & Hc2 & Ht2 & Hlen & Hsz & Hback).
  simpl. set (v := MkStored s nb (st_clock st) (st_clock st)).
  assert (residency_bytes v = retained) as Hrv by (by rewrite Hret).
  match goal with |- context [evict_over_budget _ (snapshot_count ?x) ?x ?r] =>
    set (st3 := x); destruct (settle before st3 path v (snapshot_count st3) r)
      as (st' & rs' & -> & Hs & Hc' & Hres) end.
  - apply append_version_inv; try done; simpl; try lia.
    + intros w (vs & Hp & Hw)%resident_default%Hback. by eapply coalesce_None.
    + rewrite small_sum by lia. by rewrite Hrv.
    + apply remove_history_ok, Hinv2.
  - done.
  - exists (default [] (st_paths st2 !! path) ++ [v]). split; [apply lookup_insert_eq|set_solver].
  - simpl. lia.
  - lia.
  - intros Hlt q w (ws & Hq & Hw). simpl in Hq.
    apply lookup_insert_Some in Hq as [[<- <-]|[? Hq]].
    + apply elem_of_app in Hw as [Hw%resident_default%Hback|Hw%list_elem_of_singleton]; [|by right].
      left. by eapply (older_resident before st path).
    + left. eapply (older_resident before st q); try done. apply Hback. by exists ws.
  - simpl. do 2 eexists. split; [done|]. split_and!; try done.
    intros Hlt. split; [|done]. rewrite Hc'. simpl. rewrite Hc2. by apply Hres.
Qed.

(** Coalescing replaces one version by one with the same key and clocks set to now. *)
Lemma publish_coalesced_spec before st path s nb index merged :
  store_inv before → advanced before st → (st_clock before ≤ st_clock st ≤ usize_max)%N →
  coalesce before path s nb = Some (index, merged) →
  (sat_add64 (snapshot_residency merged) (N.of_nat (length nb)) ≤ MAX_SNAPSHOT_TOTAL_BYTES)%N →
  ∃ o st', publish_coalesced content_fingerprint st path s nb index merged = Some (o, st') ∧
    po_status o = Stored ∧ po_snapshot o = Some s ∧ store_inv st' ∧
    published before st' path s nb merged.
Proof.
  intros [Hinv0 Hb0] Hadv Hck Hco Hfit.
  pose proof (core_inv_advance _ _ Hinv0 Hadv Hck) as Hinv.
  destruct Hadv as (Hp & Ht & Hhi & Hadvc).
  unfold coalesce in Hco. destruct (st_paths before !! path) as [vs|] eqn:Hvs; [|done].
  simpl in Hco. destruct (position _ vs) as [i|] eqn:Hpos; [|done]. simpl in Hco.
  apply position_Some in Hpos as (old & Hold & Hsame & _). rewrite Hold in Hco. simpl in Hco.
  injection Hco as <- <-. apply andb_true_iff in Hsame as [Htag Hnb].
  apply bool_decide_eq_true in Htag, Hnb. unfold publish_coalesced. rewrite Hp, Hvs. simpl.
  rewrite Hold. simpl. set (kept := merge_snapshot_evidence (ss_snapshot old) s) in *.
  rewrite Hnb. set (v := MkStored kept nb (st_clock st) (st_clock st)).
  assert (residency_bytes v ≤ MAX_SNAPSHOT_TOTAL_BYTES)%N as Hrv by done.
  assert (version_key v = version_key old) as Hkey.
  { unfold version_key. simpl. by rewrite Hnb. }
  pose proof (versions_bytes_insert vs i old v Hold) as Hvb.
  pose proof (versions_bytes_delete vs i old Hold) as Hvd.
  pose proof (paths_bytes_delete _ _ _ Hvs) as Hpb. pose proof (ci_total _ Hinv0) as Htot.
  match goal with |- context [evict_over_budget _ (snapshot_count ?x) ?x ?r] =>
    set (st3 := x); destruct (settle before st3 path v (snapshot_count st3) r)
      as (st' & rs' & -> & Hs & Hc' & Hres) end.
  - split; simpl.
    + rewrite map_size_insert_Some by eauto. apply Hinv0.
    + intros p us [[<- <-]|[? Hq]]%lookup_insert_Some; [|by eapply Hinv0].
      apply (ci_nonempty _ Hinv0) in Hvs. intros Hn%(f_equal length).
      rewrite length_insert in Hn. by destruct vs.
    + intros p us [[<- <-]|[? Hq]]%lookup_insert_Some; [|rewrite <-Hp in Hq; by eapply Hinv].
      rewrite <-Hp in Hvs. destruct (ci_versions _ Hinv _ _ Hvs) as [Hcap Hnd Hcl]. split.
      * by rewrite length_insert.
      * rewrite list_fmap_insert, Hkey, list_insert_id; [done|]. by rewrite list_lookup_fmap, Hold.
      * apply Forall_insert; [done|simpl; lia].
    + rewrite Ht, small_sum by lia. rewrite paths_bytes_insert. lia.
    + apply remove_history_ok, Hinv.
    + lia.
  - done.
  - exists (<[i:=v]> vs). split; [apply lookup_insert_eq|].
    apply list_elem_of_lookup. exists i. apply list_lookup_insert_eq. by eapply lookup_lt_Some.
  - done.
  - done.
  - intros Hlt q w (ws & Hq & Hw). simpl in Hq.
    assert (∀ q us u, st_paths before !! q = Some us → u ∈ us → (last_used u < st_clock st)%N) as Hold'.
    { intros q' us u Hq' Hu. apply (older_resident before st q'); try done; by exists us. }
    apply lookup_insert_Some in Hq as [[<- <-]|[? Hq]].
    + apply list_elem_of_lookup in Hw as [j Hj].
      destruct (decide (j = i)) as [->|Hne].
      * rewrite list_lookup_insert_eq in Hj by by eapply lookup_lt_Some.
        injection Hj as <-. by right.
      * rewrite list_lookup_insert_ne in Hj by done. left.
        eapply (Hold' path vs); [done|]. by eapply list_elem_of_lookup_2.
    + left. by eapply (Hold' q ws).
  - simpl. do 2 eexists. split; [done|]. split_and!; try done.
    intros Hlt. rewrite Hc'. split; [by apply Hres|done].
Qed.

(** Publication always returns, keeps the invariant, and either changes nothing or leaves
    the published content resident. *)
Lemma publish_spec st path snap :
  store_inv st →
  ∃ o st', publish canonicalize content_fingerprint st path snap = Some (o, st') ∧ store_inv st' ∧
  match po_status o with
  | Oversize _ _ => st' = st ∧ po_snapshot o = None ∧ po_evicted o = []
  | Stored =>
      po_snapshot o = Some (take_normalized snap) ∧
      ∃ kept, published st st' (canonical_key canonicalize path) (take_normalized snap)
                (normalized_bytes snap) kept ∧
        records snap ⊆ records kept ∧
        sc_seen_lines (snap_coverage snap) ⊆ sc_seen_lines (snap_coverage kept)
  end.
Proof.
  intros Hinv. unfold publish. set (key := canonical_key canonicalize path).
  assert (advanced st (bump_clock st)) as Hadv by apply advanced_bump, Hinv.
  assert (st_clock st ≤ st_clock (bump_clock st) ≤ usize_max)%N as Hck.
  { pose proof (ci_clock _ (proj1 Hinv)). simpl. unfold sat_add64. lia. }
  destruct (_ || _) eqn:Hover.
  { do 2 eexists. split; [done|]. simpl. done. }
  apply orb_false_iff in Hover as [_ Hfit%N.ltb_ge].
  destruct (coalesce st key (take_normalized snap) (normalized_bytes snap)) as [[i m]|] eqn:Hco.
  - destruct (publish_coalesced_spec st (bump_clock st) key _ _ _ _ Hinv Hadv Hck Hco Hfit)
      as (o & st' & -> & Hst & Hsn & Hinv' & Hpub).
    exists o, st'. split_and!; [done..|]. rewrite Hst. split; [done|]. exists m. split; [done|].
    unfold coalesce in Hco. destruct (st_paths st !! key) as [vs|]; [|done]. simpl in Hco.
    destruct (position _ vs) as [j|]; [|done]. simpl in Hco.
    destruct (vs !! j) as [old|]; [|done]. injection Hco as <- <-. simpl.
    split; [apply map_union_subseteq_l|set_solver].
  - destruct (publish_fresh_spec st (bump_clock st) key _ _ _ Hinv Hadv Hck Hco eq_refl Hfit)
      as (o & st' & -> & Hst & Hsn & Hinv' & Hpub).
    exists o, st'. split_and!; [done..|]. rewrite Hst. split; [done|].
    exists (take_normalized snap). done.
Qed.

(** What a publication would keep resident, and when the store takes it. *)
Definition evidence_bytes (st : SnapshotStore) (path : PathBuf) (snap : Snapshot) : N :=
  let kept := match coalesce st (canonical_key canonicalize path) (take_normalized snap)
                      (normalized_bytes snap) with
              | Some (_, merged) => merged
              | None => take_normalized snap
              end in
  sat_add64 (snapshot_residency kept) (N.of_nat (length (normalized_bytes snap))).

Definition within_limits (st : SnapshotStore) (path : PathBuf) (snap : Snapshot) : Prop :=
  (byte_count snap ≤ MAX_FILE_READ_BYTES)%N ∧
  (evidence_bytes st path snap ≤ MAX_SNAPSHOT_TOTAL_BYTES)%N.

Lemma publish_status st path snap o st' :
  store_inv st → publish canonicalize content_fingerprint st path snap = Some (o, st') →
  (within_limits st path snap ∧ po_status o = Stored) ∨
  (¬ within_limits st path snap ∧
   po_status o = Oversize (evidence_bytes st path snap) MAX_SNAPSHOT_TOTAL_BYTES).
Proof.
  intros Hinv Hpub. pose proof Hpub as Hrun. unfold publish in Hrun.
  change (sat_add64 _ _) with (evidence_bytes st path snap) in Hrun.
  change (byte_count (take_normalized snap)) with (byte_count snap) in Hrun.
  destruct (_ || _) eqn:Hover.
  - injection Hrun as <- <-. right. split; [|done]. intros [H1 H2].
    apply orb_true_iff in Hover as [H|H]; apply N.ltb_lt in H; lia.
  - left. apply orb_false_iff in Hover as [H1%N.ltb_ge H2%N.ltb_ge]. split; [done|].
    assert (advanced st (bump_clock st)) as Hadv by apply advanced_bump, Hinv.
    assert (st_clock st ≤ st_clock (bump_clock st) ≤ usize_max)%N as Hck.
    { pose proof (ci_clock _ (proj1 Hinv)). simpl. unfold sat_add64. lia. }
    unfold evidence_bytes in H2, Hrun.
    destruct (coalesce st _ (take_normalized snap) (normalized_bytes snap)) as [[i m]|] eqn:Hco.
    + destruct (publish_coalesced_spec st (bump_clock st) _ _ _ _ _ Hinv Hadv Hck Hco H2)
        as (o' & st'' & Heq & Hst & _). congruence.
    + destruct (publish_fresh_spec st (bump_clock st) _ _ _ _ Hinv Hadv Hck Hco eq_refl H2)
        as (o' & st'' & Heq & Hst & _). congruence.
Qed.

(** ** Lookup *)

Lemma versions_bytes_fmap vs : versions_bytes vs = foldr N.add 0%N (residency_bytes <$> vs).
Proof. induction vs as [|v vs IH]; simpl; [done|]. by rewrite IH. Qed.

Lemma touch_fmap {A} (f : StoredSnapshot → A) now vs i :
  (∀ v, f (MkStored (ss_snapshot v) (ss_normalized_bytes v) (published_at v) now) = f v) →
  f <$> touch now vs i = f <$> vs.
Proof.
  intros Hf. unfold touch. apply list_eq. intros j. rewrite !list_lookup_fmap.
  destruct (decide (i = j)) as [->|]; [rewrite list_lookup_alter_eq|by rewrite list_lookup_alter_ne].
  destruct (vs !! j); simpl; [by rewrite Hf|done].
Qed.

Lemma touch_all {A} (f : StoredSnapshot → A) now l vs :
  (∀ v, f (MkStored (ss_snapshot v) (ss_normalized_bytes v) (published_at v) now) = f v) →
  f <$> foldl (touch now) vs l = f <$> vs.
Proof.
  intros Hf. revert vs. induction l as [|i l IH]; intros vs; simpl; [done|].
  by rewrite IH, touch_fmap.
Qed.

Lemma touch_all_clock now l vs c :
  (c ≤ now)%N → Forall (λ v, last_used v ≤ c ∧ published_at v ≤ c)%N vs →
  Forall (λ v, last_used v ≤ now ∧ published_at v ≤ now)%N (foldl (touch now) vs l).
Proof.
  intros Hc Hall. assert (Forall (λ v, last_used v ≤ now ∧ published_at v ≤ now)%N vs) as Hall'.
  { eapply Forall_impl; [done|]. intros v []. lia. }
  clear Hall. revert vs Hall'. induction l as [|i l IH]; intros vs Hall; simpl; [done|].
  apply IH. unfold touch. apply Forall_alter; [done|]. intros v _ []. simpl. lia.
Qed.

Lemma lookup_inv st path t :
  store_inv st → store_inv (lookup canonicalize content_fingerprint st path t).2.
Proof.
  intros Hinv. unfold lookup. set (key := canonical_key canonicalize path).
  destruct (st_paths st !! key) as [vs|] eqn:Hp; [|done].
  destruct (tag_indices vs (fold_tag t)) as [|i rest]; [done|].
  destruct (vs !! i) as [v|]; [|done]. destruct (existsb _ rest); [done|].
  destruct (history_contains_different_content _ _ _ _ _); [done|].
  apply bump_clock_inv in Hinv. destruct Hinv as [[Hsz Hne Hvs Htot Hh Hck] Hb]. simpl in *.
  change (foldl (touch ?n) (touch ?n vs i) rest) with (foldl (touch n) vs (i :: rest)).
  set (now := sat_add64 (st_clock st) 1) in *. set (vs' := foldl (touch now) vs (i :: rest)).
  assert (length vs' = length vs) as Hlen.
  { rewrite <-(length_fmap ss_snapshot vs), <-(length_fmap ss_snapshot vs').
    unfold vs'. by rewrite touch_all. }
  split; [|done]. split; simpl; try done.
  - by rewrite map_size_insert_Some by eauto.
  - intros p us [[<- <-]|[? Hq]]%lookup_insert_Some; [|by eapply Hne].
    apply Hne in Hp. destruct vs, vs'; done.
  - intros p us [[<- <-]|[? Hq]]%lookup_insert_Some; [|by eapply Hvs].
    destruct (Hvs _ _ Hp) as [Hcap Hnd Hcl]. split; [lia| |].
    + unfold vs'. by rewrite touch_all.
    + by eapply touch_all_clock.
  - rewrite paths_bytes_insert, Htot, (paths_bytes_delete _ _ _ Hp), !versions_bytes_fmap.
    unfold vs'. by rewrite touch_all.
Qed.

Lemma invalidate_inv st path :
  store_inv st → store_inv (invalidate_path canonicalize st path).2.
Proof.
  intros Hinv. unfold invalidate_path. set (key := canonical_key canonicalize path).
  destruct (st_paths st !! key) as [vs|] eqn:Hp; [|done].
  destruct Hinv as [[Hsz Hne Hvs Htot Hh Hck] Hb]. fold (versions_bytes vs). simpl.
  pose proof (map_size_delete key (st_paths st)) as Hds. rewrite Hp in Hds.
  pose proof (paths_bytes_delete _ _ _ Hp).
  split; [|simpl; lia]. split; simpl; try done; try lia;
    intros p us [? Hq]%lookup_delete_Some; eauto.
Qed.

Lemma clear_inv st : store_inv st → store_inv (clear st).
Proof.
  intros [[] Hb]. split; [|done]. split; simpl; try done.
  - rewrite map_size_empty. lia.
  - split; [simpl; lia|constructor].
Qed.

Lemma store_new_inv : store_inv store_new.
Proof.
  split; [|done]. split; simpl; try done.
  - rewrite map_size_empty. lia.
  - split; [simpl; lia|constructor].
Qed.

(** ** The store as a transition system *)

Inductive store_step (st : SnapshotStore) : SnapshotStore → Prop :=
  | step_publish path snap o st' :
      publish canonicalize content_fingerprint st path snap = Some (o, st') → store_step st st'
  | step_lookup path t :
      store_step st (lookup canonicalize content_fingerprint st path t).2
  | step_invalidate path : store_step st (invalidate_path canonicalize st path).2
  | step_clear : store_step st (clear st).

Lemma reachable_inv st : rtc store_step store_new st → store_inv st.
Proof.
  pose proof store_new_inv as H0. revert H0. generalize store_new. intros st0 H0 Hr.
  induction Hr as [|st1 st2 st3 Hstep _ IH]; [done|]. apply IH.
  destruct Hstep as [path snap o st' Hpub|path t|path|].
  - destruct (publish_spec st1 path snap H0) as (o' & st'' & Hpub' & Hinv & _). congruence.
  - by apply lookup_inv.
  - by apply invalidate_inv.
  - by apply clear_inv.
Qed.

(** C20: every store a session can reach keeps its residency bounds: at most 30 paths, one
    to four versions per path with pairwise distinct (handle, content) identities, the
    byte counter equal to the bytes actually retained and at most 64 MiB, at most 256
    distinct eviction records; and no publication on it can panic or fail to return. *)
Theorem store_residency_bounded st :
  rtc store_step store_new st →
  size (st_paths st) ≤ 30 ∧
  (∀ p vs, st_paths st !! p = Some vs → 1 ≤ length vs ≤ 4 ∧ NoDup (version_key <$> vs)) ∧
  st_total_bytes st = paths_bytes (st_paths st) ∧
  (st_total_bytes st ≤ 64 * 1024 * 1024)%N ∧
  length (eviction_history st) ≤ 256 ∧ NoDup (eviction_history st) ∧
  ∀ path snap, is_Some (publish canonicalize content_fingerprint st path snap).
Proof.
  intros Hinv%reachable_inv. pose proof Hinv as [[Hsz Hne Hvs Htot [Hhl Hhd] Hck] Hb].
  split_and!; try done.
  - intros p vs Hp. destruct (Hvs _ _ Hp) as [Hcap Hnd _]. apply Hne in Hp.
    split; [|done]. unfold MAX_VERSIONS_PER_PATH in Hcap. destruct vs; [done|simpl in *; lia].
  - intros path snap. destruct (publish_spec st path snap Hinv) as (o & st' & -> & _). by eexists.
Qed.

(** A resident version the tag names. *)
Lemma tag_indices_spec vs folded i :
  i ∈ tag_indices vs folded ↔
  ∃ v, vs !! i = Some v ∧ fold_tag (tag (ss_snapshot v)) = folded.
Proof.
  unfold tag_indices. rewrite list_elem_of_omap. split.
  - intros ([j v] & Hj%elem_of_enumerate & H). case_decide; [|done]. injection H as ->. eauto.
  - intros (v & Hi & Ht). exists (i, v). split; [by apply elem_of_enumerate|].
    by rewrite decide_True.
Qed.

Definition different_content (st : SnapshotStore) (p : PathBuf) (folded : str) (nb : bytes) : Prop :=
  ∃ e, e ∈ eviction_history st ∧ canonical_path (he_record e) = p ∧
    ev_tag (he_record e) = folded ∧ he_content_fingerprint e ≠ content_fingerprint nb.

Lemma history_contains_different_content_spec st p folded nb :
  history_contains_different_content content_fingerprint (eviction_history st) p folded nb = true ↔
  different_content st p folded nb.
Proof.
  unfold history_contains_different_content, different_content. rewrite existsb_elem_of.
  setoid_rewrite andb_true_iff. setoid_rewrite andb_true_iff.
  setoid_rewrite bool_decide_eq_true. naive_solver.
Qed.

(** a tag never resolves across a collision: whatever the store holds, a lookup
    that succeeds returns the evidence of a resident version with that handle (compared
    case-insensitively), every other resident version of the path with the same handle
    has byte-identical normalized content, and no evicted version of the path had the
    same handle with different content. *)
Theorem lookup_collision_safe st path t s st' :
  lookup canonicalize content_fingerprint st path t = (Ok s, st') →
  ∃ v, resident st (canonical_key canonicalize path) v ∧ ss_snapshot v = s ∧
    fold_tag (tag s) = fold_tag t ∧
    (∀ w, resident st (canonical_key canonicalize path) w →
       fold_tag (tag (ss_snapshot w)) = fold_tag t →
       ss_normalized_bytes w = ss_normalized_bytes v) ∧
    ¬ different_content st (canonical_key canonicalize path) (fold_tag t) (ss_normalized_bytes v).
Proof.
  unfold lookup. set (key := canonical_key canonicalize path).
  destruct (st_paths st !! key) as [vs|] eqn:Hp; [|done].
  pose proof (tag_indices_spec vs (fold_tag t)) as Hspec.
  destruct (tag_indices vs (fold_tag t)) as [|i rest]; [done|].
  destruct (vs !! i) as [v|] eqn:Hi; [|done].
  destruct (existsb _ rest) eqn:Hamb; [done|].
  destruct (history_contains_different_content _ _ _ _ _) eqn:Hhist; [done|].
  intros [= <- _]. rewrite existsb_false_elem_of in Hamb.
  exists v. split_and!; try done.
  - exists vs. split; [done|]. by eapply list_elem_of_lookup_2.
  - destruct (proj1 (Hspec i)) as (v' & Hi' & Ht); [by left|]. congruence.
  - intros w (ws & Hws & [j Hj]%list_elem_of_lookup) Ht. rewrite Hp in Hws. injection Hws as <-.
    assert (j ∈ i :: rest) as [Hji|Hin]%elem_of_cons by (apply Hspec; by exists w); [congruence|].
    apply Hamb in Hin. apply bool_decide_eq_false, dec_stable in Hin.
    unfold content_at in Hin. rewrite Hj in Hin. by injection Hin.
  - rewrite <-history_contains_different_content_spec, Hhist. done.
Qed.

(** The verdict of a lookup of the handle just published. *)
Lemma publish_lookup_spec st path snap o st' :
  store_inv st → (st_clock st < usize_max)%N →
  publish canonicalize content_fingerprint st path snap = Some (o, st') → po_status o = Stored →
  let key := canonical_key canonicalize path in
  match (lookup canonicalize content_fingerprint st' path (tag snap)).1 with
  | Ok s =>
      records snap ⊆ records s ∧
      sc_seen_lines (snap_coverage snap) ⊆ sc_seen_lines (snap_coverage s) ∧
      ∃ v, resident st' key v ∧ ss_snapshot v = s ∧ ss_normalized_bytes v = normalized_bytes snap
  | Err AmbiguousSnapshotTag =>
      ∃ v w, resident st' key v ∧ resident st' key w ∧
        fold_tag (tag (ss_snapshot v)) = fold_tag (tag snap) ∧
        fold_tag (tag (ss_snapshot w)) = fold_tag (tag snap) ∧
        ss_normalized_bytes v ≠ ss_normalized_bytes w
  | Err EvictedSnapshotTag =>
      different_content st' key (fold_tag (tag snap)) (normalized_bytes snap)
  | Err UnknownSnapshotTag => False
  end.
Proof.
  intros Hinv Hck Hpub Hst key.
  destruct (publish_spec st path snap Hinv) as (o' & st'' & Hpub' & Hinv' & H).
  rewrite Hpub in Hpub'. injection Hpub' as <- <-. rewrite Hst in H.
  destruct H as (_ & kept & Hp & Hrec & Hseen). destruct (Hp Hck) as [(vs & Hvs & Hin) Hkt]. clear Hp.
  set (v := MkStored kept _ _ _) in Hin. unfold lookup. fold key in Hvs |- *. rewrite Hvs.
  pose proof (vo_distinct _ _ (ci_versions _ (proj1 Hinv') _ _ Hvs)) as Hnd.
  pose proof (tag_indices_spec vs (fold_tag (tag snap))) as Hspec.
  apply list_elem_of_lookup in Hin as [k Hk].
  assert (k ∈ tag_indices vs (fold_tag (tag snap))) as Hkin by (apply Hspec; by exists v).
  destruct (tag_indices vs (fold_tag (tag snap))) as [|i rest]; [by apply not_elem_of_nil in Hkin|].
  destruct (proj1 (Hspec i)) as (w & Hi & Hwt); [by left|]. rewrite Hi.
  assert (∀ j u, vs !! j = Some u → resident st' key u) as Hres.
  { intros j u Hj. exists vs. split; [done|]. by eapply list_elem_of_lookup_2. }
  destruct (existsb _ rest) eqn:Hamb.
  - apply existsb_elem_of in Hamb as (j & Hj & Hne%bool_decide_eq_true).
    destruct (proj1 (Hspec j)) as (u & Hu & Hut); [by right|].
    unfold content_at in Hne. rewrite Hu in Hne. simpl. exists w, u. split_and!; eauto.
    intros Heq. apply Hne. simpl. by rewrite Heq.
  - rewrite existsb_false_elem_of in Hamb.
    assert (ss_normalized_bytes w = normalized_bytes snap) as Hwn.
    { apply elem_of_cons in Hkin as [->|Hkin]; [assert (w = v) as -> by congruence; done|].
      apply Hamb in Hkin. apply bool_decide_eq_false, dec_stable in Hkin.
      unfold content_at in Hkin. rewrite Hk in Hkin. by injection Hkin. }
    rewrite Hwn. destruct (history_contains_different_content _ _ _ _ _) eqn:Hh.
    + by apply history_contains_different_content_spec.
    + assert (w = v) as ->; [|simpl; split_and!; eauto].
      assert (version_key w = version_key v) as Hkey by (unfold version_key; simpl in *; by rewrite Hwt, Hwn, Hkt).
      assert (i = k) as ->; [|congruence].
      eapply NoDup_lookup; [done|by rewrite list_lookup_fmap, Hi|].
      by rewrite list_lookup_fmap, Hk, Hkey.
Qed.

(** what was just published can be addressed: after a stored publication, looking up
    the returned handle yields evidence that covers every row and record of the
    publication, under the published content; the only other outcomes are the two
    collision verdicts, and they are given only when the path really holds, or held,
    different content under that handle. *)
Theorem publish_then_lookup st path snap o st' :
  store_inv st → (st_clock st < usize_max)%N →
  publish canonicalize content_fingerprint st path snap = Some (o, st') → po_status o = Stored →
  let key := canonical_key canonicalize path in
  match (lookup canonicalize content_fingerprint st' path (tag snap)).1 with
  | Ok s =>
      records snap ⊆ records s ∧
      sc_seen_lines (snap_coverage snap) ⊆ sc_seen_lines (snap_coverage s) ∧
      ∃ v, resident st' key v ∧ ss_snapshot v = s ∧ ss_normalized_bytes v = normalized_bytes snap
  | Err AmbiguousSnapshotTag =>
      ∃ v w, resident st' key v ∧ resident st' key w ∧
        fold_tag (tag (ss_snapshot v)) = fold_tag (tag snap) ∧
        fold_tag (tag (ss_snapshot w)) = fold_tag (tag snap) ∧
        ss_normalized_bytes v ≠ ss_normalized_bytes w
  | Err EvictedSnapshotTag =>
      different_content st' key (fold_tag (tag snap)) (normalized_bytes snap)
  | Err UnknownSnapshotTag => False
  end.
Proof. apply publish_lookup_spec. Qed.

(** The indices a lookup collects name exactly the versions that a pure query filters. *)
Lemma tag_indices_filter vs folded :
  (λ i, vs !! i) <$> tag_indices vs folded
  = Some <$> filter (λ v, fold_tag (tag (ss_snapshot v)) = folded) vs.
Proof.
  induction vs as [|v vs IH] using rev_ind; [done|].
  assert (tag_indices (vs ++ [v]) folded = tag_indices vs folded ++
    if decide (fold_tag (tag (ss_snapshot v)) = folded) then [length vs] else []) as ->.
  { unfold tag_indices, enumerate. rewrite imap_app, omap_app. simpl. f_equal.
    case_decide; [|done]. by rewrite Nat.add_0_r. }
  rewrite filter_app, !fmap_app, filter_cons, filter_nil. f_equal.
  - rewrite <-IH. apply list_fmap_ext. intros k i Hi.
    apply list_elem_of_lookup_2, tag_indices_spec in Hi as (w & Hw & _).
    apply lookup_app_l. by eapply lookup_lt_Some.
  - case_decide; [|done]. cbn. by rewrite list_lookup_middle.
Qed.

(** A found snapshot carries the handle it was asked for. *)
Lemma lookup_Ok_tag st path t s st' :
  lookup canonicalize content_fingerprint st path t = (Ok s, st') → fold_tag (tag s) = fold_tag t.
Proof.
  unfold lookup. destruct (st_paths st !! _) as [vs|]; [|done].
  pose proof (tag_indices_spec vs (fold_tag t)) as Hspec.
  destruct (tag_indices vs (fold_tag t)) as [|i rest]; [done|].
  destruct (proj1 (Hspec i)) as (v & Hi & Ht); [by left|]. rewrite Hi.
  destruct (existsb _ rest); [done|].
  destruct (history_contains_different_content _ _ _ _ _); [done|]. by intros [= <- _].
Qed.

(** the mutating lookup and the pure query [lookup_state] give the same verdict and
    the same evidence. *)
Theorem lookup_agrees_with_state st path t :
  lookup_state canonicalize content_fingerprint st path t =
  match (lookup canonicalize content_fingerprint st path t).1 with
  | Ok s => Found s
  | Err UnknownSnapshotTag => LookupUnknown
  | Err EvictedSnapshotTag => LookupEvicted
  | Err AmbiguousSnapshotTag => LookupAmbiguous
  end.
Proof.
  unfold lookup_state, lookup, missing. set (key := canonical_key canonicalize path).
  destruct (st_paths st !! key) as [vs|]; [|by destruct (history_contains _ _ _)].
  pose proof (tag_indices_filter vs (fold_tag t)) as Hf.
  destruct (tag_indices vs (fold_tag t)) as [|i rest], (filter _ vs) as [|v ws]; simplify_eq/=;
    [by destruct (history_contains _ _ _)|].
  rewrite H.
  assert (existsb (λ i0, bool_decide (content_at vs i0 ≠ Some (ss_normalized_bytes v))) rest
    = existsb (λ w, bool_decide (ss_normalized_bytes w ≠ ss_normalized_bytes v)) ws) as ->.
  { clear H. revert ws H0. induction rest as [|j rest IH]; intros [|w ws] Hf; simplify_eq/=; [done|].
    f_equal; [|by apply IH]. apply bool_decide_ext. unfold content_at. rewrite H. simpl.
    split; congruence. }
  destruct (existsb _ ws); [done|].
  by destruct (history_contains_different_content _ _ _ _ _).
Qed.

End Invariant.

(** ** Concrete stores *)

Definition sample_path : PathBuf := [lit "src"; lit "lib.rs"].
Definition sample_capture (bs : bytes) (c : CoverageInput) : Snapshot :=
  default (finish_snapshot (scanner_new (request_new c))) (scan_snapshot bs (request_new c)).
Definition sample_publish (st : SnapshotStore) (s : Snapshot) : SnapshotStore :=
  match publish (λ _, None) id st sample_path s with Some (_, st') => st' | None => st end.
Definition sample_bytes : bytes := lit "alpha" ++ [LF] ++ lit "beta" ++ [LF].
Definition sample_store : SnapshotStore :=
  sample_publish (sample_publish store_new (sample_capture sample_bytes (coverage_range 1 1)))
    (sample_capture sample_bytes (coverage_range 2 2)).

Lemma sample_publish_step st s : rtc (store_step (λ _, None) id) st (sample_publish st s).
Proof.
  unfold sample_publish. destruct (publish _ _ st sample_path s) as [[o st']|] eqn:E; [|done].
  apply rtc_once. by eapply step_publish.
Qed.

Lemma store_residency_bounded_witness :
  snapshot_count sample_store = 1 ∧ size (st_paths sample_store) ≤ 30.
Proof.
  split; [vm_compute; reflexivity|].
  refine (proj1 (store_residency_bounded (λ _, None) id sample_store _)).
  unfold sample_store. etrans; apply sample_publish_step.
Defined.

Lemma lookup_collision_safe_witness :
  ∃ v, resident sample_store sample_path v ∧
    fold_tag (tag (ss_snapshot v)) = fold_tag (tag (sample_capture sample_bytes (coverage_range 1 1))).
Proof.
  destruct (lookup (λ _, None) id sample_store sample_path
    (tag (sample_capture sample_bytes (coverage_range 1 1)))) as [[s|e] st'] eqn:E.
  - apply (lookup_collision_safe (λ _, None) id) in E as (v & Hv & Hs & Ht & _).
    exists v. split; [exact Hv|]. rewrite Hs. exact Ht.
  - exfalso. apply (f_equal (λ x, is_err x.1)) in E. vm_compute in E. discriminate E.
Defined.

Lemma publish_then_lookup_witness :
  ∃ s, (lookup (λ _, None) id sample_store sample_path
         (tag (sample_capture sample_bytes (coverage_range 2 2)))).1 = Ok s ∧
    sc_seen_lines (snap_coverage (sample_capture sample_bytes (coverage_range 2 2)))
    ⊆ sc_seen_lines (snap_coverage s).
Proof.
  set (st1 := sample_publish store_new (sample_capture sample_bytes (coverage_range 1 1))).
  set (snap := sample_capture sample_bytes (coverage_range 2 2)).
  destruct (publish (λ _, None) id st1 sample_path snap) as [[o st']|] eqn:E.
  - assert (st' = sample_store) as Hst.
    { unfold sample_store. fold st1 snap. unfold sample_publish at 1. by rewrite E. }
    assert (po_status o = Stored) as Ho.
    { apply (f_equal (fmap (λ x, po_status x.1))) in E. vm_compute in E. by injection E. }
    assert (store_inv st1) as Hinv
      by exact (reachable_inv (λ _, None) id _ (sample_publish_step _ _)).
    pose proof (publish_then_lookup (λ _, None) id st1 sample_path snap o st'
      Hinv ltac:(vm_compute; reflexivity) E Ho) as H. cbv zeta in H. rewrite Hst in H.
    destruct (lookup (λ _, None) id sample_store sample_path (tag snap)).1 as [s|e] eqn:El.
    + exists s. split; [reflexivity|]. exact (proj1 (proj2 H)).
    + exfalso. apply (f_equal is_err) in El. vm_compute in El. discriminate El.
  - exfalso. apply (f_equal (λ x, bool_decide (is_Some x))) in E. vm_compute in E. discriminate E.
Defined.

End SnapshotStore.
