(* ===== verification/Syntax.v ===== *)
(** * The hashline patch language: [hashline/syntax/mod.rs], parsing half

    Patches, sections, operations and addresses, and the parser with every rejection it
    can produce.  The parser is a fold over the lines of the patch with the source's loop
    state (sections so far, envelope started, envelope ended). *)

From S2P Require Import Prelude RustStr Rejection.
Import Rejection.

Module Syntax.

(** ** Data *)

Inductive RegisterRef := Anonymous | Named (name : str).
#[export] Instance RegisterRef_eq_dec : EqDecision RegisterRef.
Proof. solve_decision. Defined.

Inductive LineReference := Absolute (line : N) | EofRelative (offset : N).
#[export] Instance LineReference_eq_dec : EqDecision LineReference.
Proof. solve_decision. Defined.

Inductive GapSide := GapBefore | GapAfter.
#[export] Instance GapSide_eq_dec : EqDecision GapSide.
Proof. solve_decision. Defined.

Inductive Address :=
  | AddrBof
  | AddrLine (line : LineReference)
  | AddrRange (start stop : LineReference)
  | AddrGap (side : GapSide) (line : LineReference)
  | AddrBlock (line : LineReference)
  | AddrBlockGap (side : GapSide) (line : LineReference).
#[export] Instance Address_eq_dec : EqDecision Address.
Proof. solve_decision. Defined.

Inductive PutSource := FromText (lines : list str) | FromRegister (r : RegisterRef).
#[export] Instance PutSource_eq_dec : EqDecision PutSource.
Proof. solve_decision. Defined.

Record PutOperation := MkPut { put_address : Address; put_source : PutSource; put_line : nat }.
Record CutOperation := MkCut {
  cut_address : Address; cut_register : option RegisterRef; cut_line : nat }.
Record RemOperation := MkRem { rem_line : nat }.
Record MvOperation := MkMv { mv_destination : str; mv_line : nat }.
#[export] Instance PutOperation_eq_dec : EqDecision PutOperation.
Proof. solve_decision. Defined.
#[export] Instance CutOperation_eq_dec : EqDecision CutOperation.
Proof. solve_decision. Defined.
#[export] Instance RemOperation_eq_dec : EqDecision RemOperation.
Proof. solve_decision. Defined.
#[export] Instance MvOperation_eq_dec : EqDecision MvOperation.
Proof. solve_decision. Defined.

Inductive Operation :=
  | OpPut (op : PutOperation) | OpCut (op : CutOperation)
  | OpRem (op : RemOperation) | OpMv (op : MvOperation).
#[export] Instance Operation_eq_dec : EqDecision Operation.
Proof. solve_decision. Defined.

Record SectionHeader := MkHeader { requested_path : str; header_tag : str }.
#[export] Instance SectionHeader_eq_dec : EqDecision SectionHeader.
Proof. solve_decision. Defined.

Record PatchSection := MkSection {
  header : SectionHeader; operations : list Operation; section_line : nat }.
#[export] Instance PatchSection_eq_dec : EqDecision PatchSection.
Proof. solve_decision. Defined.

(** [Operation::address]. *)
Definition op_address (op : Operation) : option Address :=
  match op with
  | OpPut p => Some (put_address p)
  | OpCut c => Some (cut_address c)
  | OpRem _ | OpMv _ => None
  end.

(** [Operation::append_body_line]: [None] when the operation or the row refuses it. *)
Definition append_body_line (op : Operation) (line : str) : option Operation :=
  match op with
  | OpPut (MkPut addr (FromText lines) n) =>
      match strip_prefix (lit "+") line with
      | Some content => Some (OpPut (MkPut addr (FromText (lines ++ [content])) n))
      | None => None
      end
  | _ => None
  end.

(** ** Tags and headers *)

Definition normalize_tag (tag : str) : result HashlineRejection str :=
  if bool_decide (str_len tag ≠ 4%N) || negb (forallb is_ascii_hexdigit (as_bytes tag))
  then Err (malformed_tag (msg "section tags must be exactly four hexadecimal digits"))
  else Ok (to_ascii_uppercase tag).

Definition section_header_new (path tag : str) : result HashlineRejection SectionHeader :=
  match path with
  | [] => Err (missing_tag (msg "a section header must name a path before its tag"))
  | _ => tag ← normalize_tag tag; Ok (MkHeader path tag)
  end.

Definition is_header_line (line : str) : bool :=
  starts_with (lit "[") line && ends_with (lit "]") line && (2 <=? str_len line)%N.

Definition parse_section_header (line : str) : result HashlineRejection SectionHeader :=
  let trimmed := trim line in
  if negb (is_header_line trimmed)
  then Err (parse_error (msg "section headers must use [requested-path#TAG]"))
  else
    let inner := take (length trimmed - 2) (drop 1 trimmed) in
    match split_once [HASH] inner with
    | None => Err (missing_tag (msg "section header is missing its #TAG handle"))
    | Some (path, tag) =>
        if bool_decide (path = [])
        then Err (missing_tag (msg "section header must name a path before #TAG"))
        else if contains_char HASH path || contains_char CR path || contains_char LF path
        then Err (parse_error (msg "section paths cannot contain #, carriage return, or newline"))
        else section_header_new path tag
    end.

(** ** Addresses *)

Definition parse_positive_usize (input : str) : result HashlineRejection N :=
  match parse_usize input with
  | None => Err (parse_error (Quoted input :: msg " is not a valid positive line number"))
  | Some value =>
      if (value =? 0)%N
      then Err (parse_error
             (msg "line number zero is only valid as the standalone BOF address"))
      else Ok value
  end.

Definition parse_line_reference (input : str) : result HashlineRejection LineReference :=
  let input := trim input in
  if decide (input = lit "$") then Ok (EofRelative 0)
  else match strip_prefix (lit "$-") input with
       | Some offset => n ← parse_positive_usize offset; Ok (EofRelative n)
       | None => n ← parse_positive_usize input; Ok (Absolute n)
       end.

(** The side and rest of a gap address. *)
Definition gap_prefix (input : str) : option (GapSide * str) :=
  match strip_prefix (lit "<") input with
  | Some line => Some (GapBefore, line)
  | None => match strip_prefix (lit ">") input with
            | Some line => Some (GapAfter, line)
            | None => None
            end
  end.

Definition parse_range (start stop : str) : result HashlineRejection Address :=
  start ← parse_line_reference start;
  stop ← parse_line_reference stop;
  Ok (AddrRange start stop).

Definition parse_address (input : str) : result HashlineRejection Address :=
  let input := trim input in
  if decide (input = lit "0") then Ok AddrBof
  else match gap_prefix input with
  | Some (side, line) =>
      match strip_suffix (lit "*") line with
      | Some block_line => r ← parse_line_reference block_line; Ok (AddrBlockGap side r)
      | None => r ← parse_line_reference line; Ok (AddrGap side r)
      end
  | None =>
      match strip_suffix (lit "*") input with
      | Some line => r ← parse_line_reference line; Ok (AddrBlock r)
      | None =>
          match split_once (lit "..=") input with
          | Some (a, b) => parse_range a b
          | None =>
              match split_once (lit ".=") input with
              | Some (a, b) => parse_range a b
              | None =>
                  match split_once (lit "..") input with
                  | Some (a, b) => parse_range a b
                  | None => r ← parse_line_reference input; Ok (AddrLine r)
                  end
              end
          end
      end
  end.

Definition is_register_char (c : char) : bool :=
  is_ascii_alphanumeric c || (c =? 95)%N || (c =? 45)%N.

Definition parse_register (input : str) : result HashlineRejection RegisterRef :=
  match strip_prefix (lit "@") input with
  | None => Err (parse_error (msg "registers must begin with @"))
  | Some name =>
      if bool_decide (name = []) || negb (forallb is_register_char name)
      then Err (parse_error
             (msg "register names may contain only ASCII letters, digits, _, and -"))
      else Ok (Named name)
  end.

(** ** Operations *)

Definition unquote_with (q : char) (value : str) : option str :=
  strip_prefix [q] value ≫= strip_suffix [q].

Definition unquote (value : str) : str :=
  match unquote_with DQUOTE value with
  | Some v => v
  | None => match unquote_with SQUOTE value with Some v => v | None => value end
  end.

Definition parse_put (remainder : str) (line : nat) : result HashlineRejection Operation :=
  match strip_suffix (lit ":") remainder with
  | None =>
      match split_whitespace remainder with
      | [] => Err (parse_error (msg "PUT at line " ++ msg_nat line ++ msg " lacks an address"))
      | address :: parts =>
          register ←
            match parts with
            | [] => Ok Anonymous
            | register :: _ =>
                if ends_with (lit ":") address && negb (starts_with (lit "@") register)
                then Err (parse_error (msg "invalid text PUT body row at patch line "
                       ++ msg_nat line
                       ++ msg "; expected `+<text>` for content or bare `+` for a blank row, but the row carried its body inline; PUT bodies go on the following lines as `+TEXT` rows"))
                else parse_register register
            end;
          match parts with
          | _ :: _ :: _ => Err (parse_error (msg "PUT at line " ++ msg_nat line
                                 ++ msg " accepts at most one register source"))
          | _ => address ← parse_address address;
                 Ok (OpPut (MkPut address (FromRegister register) line))
          end
      end
  | Some prefix =>
      let address := trim prefix in
      if bool_decide (address = [])
      then Err (parse_error (msg "PUT at line " ++ msg_nat line
             ++ msg " lacks an address before :"))
      else address ← parse_address address; Ok (OpPut (MkPut address (FromText []) line))
  end.

Definition parse_cut (remainder : str) (line : nat) : result HashlineRejection Operation :=
  match split_whitespace remainder with
  | [] => Err (parse_error (msg "CUT at line " ++ msg_nat line ++ msg " lacks an address"))
  | address :: parts =>
      register ← match parts with
                 | [] => Ok None
                 | register :: _ => Some <$> parse_register register
                 end;
      match parts with
      | _ :: _ :: _ => Err (parse_error (msg "CUT at line " ++ msg_nat line
                             ++ msg " has unexpected trailing input"))
      | _ => address ← parse_address address; Ok (OpCut (MkCut address register line))
      end
  end.

Definition parse_rem (remainder : str) (line : nat) : result HashlineRejection Operation :=
  if bool_decide (trim remainder = []) then Ok (OpRem (MkRem line))
  else Err (parse_error (msg "REM at line " ++ msg_nat line
         ++ msg " removes the whole section file and accepts no address")).

Definition parse_mv (remainder : str) (line : nat) : result HashlineRejection Operation :=
  let destination := trim remainder in
  if bool_decide (destination = []) || bool_decide (length (split_whitespace destination) ≠ 1)
  then Err (parse_error (msg "MV at line " ++ msg_nat line
         ++ msg " requires exactly one destination path"))
  else Ok (OpMv (MkMv (unquote destination) line)).

Definition directive_keywords : list str := [lit "PUT"; lit "CUT"; lit "REM"; lit "MV"].

Definition is_directive (line : str) : bool :=
  existsb (λ keyword,
    bool_decide (line = keyword) ||
    match strip_prefix keyword line with
    | Some (c :: _) => is_whitespace c
    | _ => false
    end) directive_keywords.

Definition parse_operation (line : str) (n : nat) : result HashlineRejection Operation :=
  let trimmed := trim line in
  if decide (trimmed = lit "REM") then parse_rem [] n
  else match split_once_ws trimmed with
  | None => Err (parse_error (msg "operation at line " ++ msg_nat n
              ++ msg " lacks required input"))
  | Some (keyword, remainder) =>
      let remainder := trim remainder in
      if decide (keyword = lit "PUT") then parse_put remainder n
      else if decide (keyword = lit "CUT") then parse_cut remainder n
      else if decide (keyword = lit "REM") then parse_rem remainder n
      else if decide (keyword = lit "MV") then parse_mv remainder n
      else Err (parse_error (msg "unknown operation " ++ [Quoted keyword]
             ++ msg " at line " ++ msg_nat n))
  end.

(** ** Patches *)

Record ParseState := MkParseState {
  ps_sections : list PatchSection; envelope_started : bool; envelope_ended : bool }.

(** The message for a row that the last operation does not accept as body. *)
Definition body_message (op : Operation) (n : nat) : Message :=
  match op with
  | OpPut (MkPut _ (FromRegister _) l) =>
      msg "PUT at line " ++ msg_nat l
      ++ msg " copies a register and accepts no body; use `PUT <address>:` followed by `+` rows for text (unexpected content at line "
      ++ msg_nat n ++ msg ")"
  | OpPut (MkPut _ (FromText _) _) =>
      msg "invalid text PUT body row at patch line " ++ msg_nat n
      ++ msg "; expected `+<text>` for content or bare `+` for a blank row, but the row does not begin with `+`"
  | _ =>
      msg "only `PUT <address>:` accepts body rows beginning with `+`; unexpected content at line "
      ++ msg_nat n
  end.

(** A row that is neither envelope, header nor directive. *)
Definition parse_body_row (sections : list PatchSection) (line : str) (n : nat) :
    result HashlineRejection (list PatchSection) :=
  match last sections with
  | None => Err (parse_error (msg "expected a tagged section header at line " ++ msg_nat n))
  | Some sec =>
      match last (operations sec) with
      | None => Err (parse_error (msg "expected an operation after section header at line "
                  ++ msg_nat (section_line sec)))
      | Some op =>
          match append_body_line op line with
          | Some op' =>
              Ok (removelast sections ++
                  [MkSection (header sec) (removelast (operations sec) ++ [op'])
                     (section_line sec)])
          | None => Err (parse_error (body_message op n))
          end
      end
  end.

(** One iteration of the parser's loop; [is_final] is [lines.peek().is_none()]. *)
Definition parse_line (st : ParseState) (n : nat) (raw : str) (is_final : bool) :
    result HashlineRejection ParseState :=
  let line := strip_cr raw in
  let trimmed := trim line in
  let sections := ps_sections st in
  if bool_decide (raw = []) && is_final then Ok st
  else if decide (trimmed = lit "*** Begin Patch") then
    if envelope_started st || negb (bool_decide (sections = []))
    then Err (parse_error (msg "unexpected patch envelope start at line " ++ msg_nat n))
    else Ok (MkParseState sections true (envelope_ended st))
  else if decide (trimmed = lit "*** End Patch") then
    if negb (envelope_started st) || envelope_ended st
    then Err (parse_error (msg "unexpected patch envelope end at line " ++ msg_nat n))
    else Ok (MkParseState sections (envelope_started st) true)
  else if envelope_ended st then
    if bool_decide (trimmed = []) then Ok st
    else Err (parse_error (msg "content follows the patch envelope at line " ++ msg_nat n))
  else if is_header_line trimmed then
    h ← parse_section_header trimmed;
    Ok (MkParseState (sections ++ [MkSection h [] n]) (envelope_started st) (envelope_ended st))
  else if is_directive line then
    match last sections with
    | None => Err (parse_error (msg "operation at line " ++ msg_nat n
                ++ msg " appears before a tagged section header"))
    | Some sec =>
        op ← parse_operation line n;
        Ok (MkParseState
              (removelast sections ++
               [MkSection (header sec) (operations sec ++ [op]) (section_line sec)])
              (envelope_started st) (envelope_ended st))
    end
  else if bool_decide (trimmed = []) && bool_decide (sections = []) then Ok st
  else
    sections ← parse_body_row sections line n;
    Ok (MkParseState sections (envelope_started st) (envelope_ended st)).

Fixpoint parse_lines (st : ParseState) (n : nat) (lines : list str) :
    result HashlineRejection ParseState :=
  match lines with
  | [] => Ok st
  | raw :: lines' =>
      st ← parse_line st n raw (bool_decide (lines' = []));
      parse_lines st (S n) lines'
  end.

Definition is_rem (op : Operation) : bool := match op with OpRem _ => true | _ => false end.
Definition is_mv (op : Operation) : bool := match op with OpMv _ => true | _ => false end.

Definition validate_section_composition (sec : PatchSection) : result HashlineRejection unit :=
  let ops := operations sec in
  if existsb is_rem ops && negb (bool_decide (length ops = 1))
  then Err (parse_error (msg "REM at section line " ++ msg_nat (section_line sec)
         ++ msg " cannot be combined with line operations"))
  else
    let mv_count := length (filter is_mv ops) in
    if bool_decide (1 < mv_count) ||
       match position is_mv ops with
       | Some index => negb (bool_decide (S index = length ops))
       | None => false
       end
    then Err (parse_error (msg "MV at section line " ++ msg_nat (section_line sec)
           ++ msg " must occur once and after all line operations"))
    else Ok tt.

(** An empty text body is refused. *)
Fixpoint validate_bodies (ops : list Operation) : result HashlineRejection unit :=
  match ops with
  | [] => Ok tt
  | OpPut (MkPut _ (FromText []) line) :: _ =>
      Err (parse_error (msg "PUT at patch line " ++ msg_nat line
        ++ msg " requires one or more body rows; expected `+<text>` for content or bare `+` for a blank row"))
  | _ :: ops' => validate_bodies ops'
  end.

Fixpoint validate_sections (sections : list PatchSection) : result HashlineRejection unit :=
  match sections with
  | [] => Ok tt
  | sec :: sections' =>
      _ ← validate_section_composition sec;
      _ ← validate_bodies (operations sec);
      validate_sections sections'
  end.

Definition parse_hashline_patch (patch : str) : result HashlineRejection (list PatchSection) :=
  if bool_decide (trim patch = []) then Err (parse_error (msg "patch must not be empty"))
  else
    st ← parse_lines (MkParseState [] false false) 1 (split_on LF patch);
    if envelope_started st && negb (envelope_ended st)
    then Err (parse_error (msg "patch envelope is missing *** End Patch"))
    else if bool_decide (ps_sections st = [])
    then Err (parse_error (msg "patch must contain at least one tagged section header"))
    else
      match list_find (λ sec, operations sec = []) (ps_sections st) with
      | Some (_, sec) => Err (parse_error (msg "section at line " ++ msg_nat (section_line sec)
                           ++ msg " contains no operation"))
      | None => _ ← validate_sections (ps_sections st); Ok (ps_sections st)
      end.

(** ** What the parser accepts *)

Definition is_upper_hex (c : char) : bool := is_ascii_digit c || ((65 <=? c) && (c <=? 70))%N.
Definition valid_tag (t : str) : Prop :=
  length t = 4 ∧ Forall (λ c, is_upper_hex c = true) t.

Definition wf_header (h : SectionHeader) : Prop :=
  requested_path h ≠ [] ∧ (HASH ∉ requested_path h) ∧ (CR ∉ requested_path h) ∧
  (LF ∉ requested_path h) ∧ valid_tag (header_tag h).

Definition wf_ref (r : LineReference) : Prop :=
  match r with
  | Absolute n => (0 < n ≤ usize_max)%N
  | EofRelative n => (n ≤ usize_max)%N
  end.

Definition wf_address (a : Address) : Prop :=
  match a with
  | AddrBof => True
  | AddrLine r | AddrGap _ r | AddrBlock r | AddrBlockGap _ r => wf_ref r
  | AddrRange a b => wf_ref a ∧ wf_ref b
  end.

Definition wf_register (r : RegisterRef) : Prop :=
  match r with
  | Anonymous => True
  | Named name => name ≠ [] ∧ Forall (λ c, is_register_char c = true) name
  end.

Definition wf_operation (op : Operation) : Prop :=
  match op with
  | OpPut p => wf_address (put_address p) ∧
      match put_source p with
      | FromText rows => Forall (λ row, LF ∉ row) rows
      | FromRegister r => wf_register r
      end
  | OpCut c => wf_address (cut_address c) ∧ ∀ r, cut_register c = Some r → wf_register r
  | OpRem _ | OpMv _ => True
  end.

(** An operation with the text it needs. *)
Definition has_body (op : Operation) : Prop :=
  match op with OpPut p => put_source p ≠ FromText [] | _ => True end.

Definition wf_section (sec : PatchSection) : Prop :=
  wf_header (header sec) ∧ operations sec ≠ [] ∧
  Forall wf_operation (operations sec) ∧ Forall has_body (operations sec) ∧
  (∀ op, op ∈ operations sec → is_rem op = true → operations sec = [op]) ∧
  (∀ i op, operations sec !! i = Some op → is_mv op = true → S i = length (operations sec)).

Lemma is_ascii_hexdigit_lt c : is_ascii_hexdigit c = true → (c < 0x80)%N.
Proof.
  unfold is_ascii_hexdigit, is_ascii_digit. intros H. breflect.
  destruct H as [H|?]; [breflect; destruct H|]; breflect; lia.
Qed.

Lemma upper_hex c : is_ascii_hexdigit c = true → is_upper_hex (ascii_upper c) = true.
Proof.
  unfold is_ascii_hexdigit, is_upper_hex, ascii_upper, is_ascii_lower, is_ascii_digit.
  intros H. rewrite !orb_true_iff, !andb_true_iff, !N.leb_le in *.
  destruct ((97 <=? c)%N && (c <=? 122)%N) eqn:E; breflect; [lia|].
  apply andb_false_iff in E as [E|E]; breflect; lia.
Qed.

Lemma upper_hex_fixed c : is_upper_hex c = true → ascii_upper c = c ∧ is_ascii_hexdigit c = true.
Proof.
  unfold is_ascii_hexdigit, is_upper_hex, ascii_upper, is_ascii_lower, is_ascii_digit.
  intros H. rewrite !orb_true_iff, !andb_true_iff, !N.leb_le in *.
  btest ((97 <=? c)%N && (c <=? 122)%N) false. split; [done|tauto].
Qed.

Lemma normalize_tag_Ok t t' :
  normalize_tag t = Ok t' → valid_tag t' ∧ t' = to_ascii_uppercase t.
Proof.
  unfold normalize_tag. destruct (_ || _) eqn:E; [done|].
  apply orb_false_iff in E as [E1 E2]. apply bool_decide_eq_false in E1.
  apply dec_stable in E1. apply negb_false_iff in E2. rewrite forallb_elem_of in E2.
  assert (as_bytes t = t) as Ht.
  { apply as_bytes_ascii_inv, Forall_forall. intros b Hb. by apply is_ascii_hexdigit_lt, E2. }
  intros [= <-]. split; [|done]. split.
  - unfold to_ascii_uppercase. rewrite length_fmap. unfold str_len in E1. rewrite Ht in E1. lia.
  - apply Forall_fmap, Forall_forall. intros c Hc. apply upper_hex, E2. by rewrite Ht.
Qed.

Lemma normalize_tag_valid t : valid_tag t → normalize_tag t = Ok t.
Proof.
  intros [Hl Ht]. unfold normalize_tag.
  assert (Forall (λ c, is_ascii_hexdigit c = true) t) as Hhex
    by (eapply Forall_impl; [done|]; intros c Hc; by apply upper_hex_fixed in Hc as [_ ?]).
  assert (as_bytes t = t) as Hb.
  { apply as_bytes_ascii. eapply Forall_impl; [done|]. intros c. apply is_ascii_hexdigit_lt. }
  unfold str_len. rewrite Hb, Hl. simpl.
  replace (forallb is_ascii_hexdigit t) with true
    by (symmetry; apply forallb_elem_of; by apply Forall_forall).
  simpl. f_equal. unfold to_ascii_uppercase. clear -Ht.
  induction Ht as [|c t Hc _ IH]; [done|]. cbn. f_equal; [|done]. by apply upper_hex_fixed in Hc as [? _].
Qed.

Lemma parse_section_header_wf line h : parse_section_header line = Ok h → wf_header h.
Proof.
  unfold parse_section_header. destruct (negb _); [done|].
  destruct (split_once _ _) as [[path tag]|]; [|done].
  case_bool_decide; [done|]. destruct (_ || _) eqn:E; [done|].
  apply orb_false_iff in E as [[E1 E2]%orb_false_iff E3].
  unfold section_header_new. destruct path as [|c path]; [done|].
  intros (t & Ht & [= <-])%bind_Ok. apply normalize_tag_Ok in Ht as [Ht _].
  unfold wf_header; simpl. rewrite <-!contains_char_false. done.
Qed.

Lemma parse_usize_range s v : parse_usize s = Some v → (v ≤ usize_max)%N.
Proof.
  unfold parse_usize. repeat case_match; try done; intros [= <-]; breflect; done.
Qed.

Lemma parse_line_reference_wf s r : parse_line_reference s = Ok r → wf_ref r.
Proof.
  assert (∀ t n, parse_positive_usize t = Ok n → (0 < n ≤ usize_max)%N) as Hpos.
  { intros t n. unfold parse_positive_usize.
    destruct (parse_usize t) as [v|] eqn:E; [|done]. apply parse_usize_range in E.
    destruct (v =? 0)%N eqn:E0; [done|]. intros [= <-]. breflect. lia. }
  unfold parse_line_reference. case_decide; [intros [= <-]; done|].
  destruct (strip_prefix _ _); intros (n & Hn & [= <-])%bind_Ok; apply Hpos in Hn; simpl; lia.
Qed.

Lemma parse_address_wf s a : parse_address s = Ok a → wf_address a.
Proof.
  assert (∀ x y b, parse_range x y = Ok b → wf_address b) as Hr.
  { intros x y b. unfold parse_range.
    intros (r1 & H1 & (r2 & H2 & [= <-])%bind_Ok)%bind_Ok.
    split; by eapply parse_line_reference_wf. }
  unfold parse_address. case_decide; [by intros [= <-]|].
  repeat case_match;
    try (intros (r & Hx & [= <-])%bind_Ok; by eapply parse_line_reference_wf);
    intros ?; by eapply Hr.
Qed.

Lemma parse_register_wf s r : parse_register s = Ok r → wf_register r.
Proof.
  unfold parse_register. destruct (strip_prefix _ _) as [name|]; [|done].
  destruct (_ || _) eqn:E; [done|]. apply orb_false_iff in E as [E1 E2].
  apply bool_decide_eq_false in E1. apply negb_false_iff in E2.
  intros [= <-]. split; [done|]. by apply Forall_forall, forallb_elem_of.
Qed.

Lemma parse_operation_wf line n op : parse_operation line n = Ok op → wf_operation op.
Proof.
  assert (∀ r m o, parse_rem r m = Ok o → wf_operation o) as Hrem.
  { intros r m o. unfold parse_rem. case_bool_decide; [|done]. by intros [= <-]. }
  assert (∀ r o, parse_put r n = Ok o → wf_operation o) as Hput.
  { intros r o. unfold parse_put. destruct (strip_suffix _ r) as [pre|].
    - case_bool_decide; [done|]. intros (a & Ha & [= <-])%bind_Ok. simpl.
      split; [by eapply parse_address_wf|constructor].
    - destruct (split_whitespace r) as [|addr parts]; [done|].
      intros (reg & Hreg & H)%bind_Ok.
      assert (wf_register reg) as Hwr.
      { destruct parts; [by injection Hreg as <-|].
        destruct (_ && _); [done|]. by eapply parse_register_wf. }
      destruct parts as [|? [|??]]; [| |done];
        apply bind_Ok in H as (a & Ha & [= <-]); simpl; split; try done;
        by eapply parse_address_wf. }
  assert (∀ r o, parse_cut r n = Ok o → wf_operation o) as Hcut.
  { intros r o. unfold parse_cut. destruct (split_whitespace r) as [|addr parts]; [done|].
    intros (reg & Hreg & H)%bind_Ok.
    assert (∀ x, reg = Some x → wf_register x) as Hwr.
    { destruct parts; [by injection Hreg as <-|].
      apply fmap_Ok in Hreg as (y & Hy & <-). intros x [= <-]. by eapply parse_register_wf. }
    destruct parts as [|? [|??]]; [| |done];
      apply bind_Ok in H as (a & Ha & [= <-]); simpl; split; try done;
      by eapply parse_address_wf. }
  unfold parse_operation. case_decide; [apply Hrem|].
  destruct (split_once_ws _) as [[k r]|]; [|done].
  repeat case_decide; eauto; [|done]. unfold parse_mv. destruct (_ || _); [done|].
  by intros [= <-].
Qed.

(** The part of [wf_section] that holds of every section while the parser runs. *)
Definition wf_partial (sec : PatchSection) : Prop :=
  wf_header (header sec) ∧ Forall wf_operation (operations sec).

Lemma append_body_line_wf op line op' :
  LF ∉ line → wf_operation op → append_body_line op line = Some op' → wf_operation op'.
Proof.
  intros HLF Hwf. unfold append_body_line.
  destruct op as [[addr [rows|r] m]| | |]; try done.
  destruct (strip_prefix (lit "+") line) as [content|] eqn:E; [|done].
  intros [= <-]. apply strip_prefix_Some in E as ->. destruct Hwf as [Ha Hrows].
  split; [done|]. simpl in *. apply Forall_app; split; [done|].
  constructor; [|done]. intros ?. apply HLF. set_solver.
Qed.

Lemma wf_partial_set_last sections sec sec' :
  Forall wf_partial sections → last sections = Some sec →
  (wf_partial sec → wf_partial sec') → Forall wf_partial (removelast sections ++ [sec']).
Proof.
  intros Hall Hlast Himp. apply last_Some in Hlast as [pre ->].
  rewrite removelast_last. apply Forall_app in Hall as [Hpre Hsec].
  apply Forall_app; split; [done|]. constructor; [|done].
  apply Himp. by inversion Hsec.
Qed.

Lemma strip_cr_no_LF raw : LF ∉ raw → LF ∉ strip_cr raw.
Proof.
  intros H. unfold strip_cr. destruct (strip_suffix [CR] raw) as [l|] eqn:E; [|done].
  apply strip_suffix_Some in E as ->. set_solver.
Qed.

Lemma parse_line_wf st n raw fin st' :
  LF ∉ raw → Forall wf_partial (ps_sections st) →
  parse_line st n raw fin = Ok st' → Forall wf_partial (ps_sections st').
Proof.
  intros HLF Hall. unfold parse_line.
  destruct (_ && fin); [by intros [= <-]|].
  case_decide; [destruct (_ || _); [done|]; by intros [= <-]|].
  case_decide; [destruct (_ || _); [done|]; by intros [= <-]|].
  destruct (envelope_ended st); [case_bool_decide; [|done]; by intros [= <-]|].
  destruct (is_header_line _).
  { intros (h & Hh & [= <-])%bind_Ok. simpl. apply Forall_app; split; [done|].
    apply parse_section_header_wf in Hh. repeat constructor; apply Hh. }
  destruct (is_directive _).
  { destruct (last _) as [sec|] eqn:Hlast; [|done].
    intros (op & Hop & [= <-])%bind_Ok. simpl.
    eapply wf_partial_set_last; [done..|]. intros [Hh Hops]. split; [done|]. simpl.
    apply Forall_app; split; [done|]. constructor; [|done]. by eapply parse_operation_wf. }
  destruct (_ && _); [by intros [= <-]|].
  intros (secs & Hsecs & [= <-])%bind_Ok. simpl. unfold parse_body_row in Hsecs.
  destruct (last (ps_sections st)) as [sec|] eqn:Hlast; [|done].
  destruct (last (operations sec)) as [op|] eqn:Hop; [|done].
  destruct (append_body_line op _) as [op'|] eqn:Happ; [|done]. injection Hsecs as <-.
  eapply wf_partial_set_last; [done..|]. intros [Hh Hops]. split; [done|]. simpl.
  apply last_Some in Hop as [pre Hpre]. rewrite Hpre, Forall_app in Hops.
  destruct Hops as [Hpre' Hlop%Forall_inv]. rewrite Hpre, removelast_last.
  apply Forall_app; split; [done|]. constructor; [|done].
  eapply append_body_line_wf; [|done..]. by apply strip_cr_no_LF.
Qed.

Lemma parse_lines_wf lines st n st' :
  Forall (λ l, LF ∉ l) lines → Forall wf_partial (ps_sections st) →
  parse_lines st n lines = Ok st' → Forall wf_partial (ps_sections st').
Proof.
  revert st n; induction lines as [|raw lines IH]; intros st n HLF Hall; simpl.
  - by intros [= <-].
  - intros (st1 & H1 & H2)%bind_Ok. inversion HLF; subst.
    eapply IH; [done| |done]. by eapply parse_line_wf.
Qed.

Lemma validate_section_composition_Ok sec :
  validate_section_composition sec = Ok tt →
  (∀ op, op ∈ operations sec → is_rem op = true → operations sec = [op]) ∧
  (∀ i op, operations sec !! i = Some op → is_mv op = true → S i = length (operations sec)).
Proof.
  unfold validate_section_composition. destruct (_ && _) eqn:E1; [done|].
  destruct (_ || _) eqn:E2; [done|]. intros _.
  apply andb_false_iff in E1. apply orb_false_iff in E2 as [E2 E3].
  apply bool_decide_eq_false in E2. split.
  - intros op Hop Hrem. destruct E1 as [E1|E1].
    + rewrite existsb_false_elem_of in E1. rewrite E1 in Hrem; done.
    + apply negb_false_iff, bool_decide_eq_true in E1.
      destruct (operations sec) as [|o [|??]]; simpl in *; [lia| |lia].
      by apply list_elem_of_singleton in Hop as ->.
  - intros i op Hi Hmv. destruct (position is_mv (operations sec)) as [k|] eqn:Ek.
    + apply negb_false_iff, bool_decide_eq_true in E3.
      pose proof (lookup_lt_Some _ _ _ Hi).
      apply position_Some in Ek as (x & Hx & Hpx & Hmin).
      destruct (decide (i < k)) as [Hlt|]; [|lia].
      specialize (Hmin i op Hlt Hi). congruence.
    + rewrite position_None in Ek. rewrite Ek in Hmv; [done|].
      by eapply list_elem_of_lookup_2.
Qed.

Lemma validate_bodies_Ok ops : validate_bodies ops = Ok tt → Forall has_body ops.
Proof.
  induction ops as [|[[a [[|r rows]|s] l]| | |] ops IH]; simpl; try done;
    intros H; constructor; auto; done.
Qed.

Lemma validate_sections_Ok sections :
  validate_sections sections = Ok tt →
  Forall (λ sec, validate_section_composition sec = Ok tt ∧ Forall has_body (operations sec)) sections.
Proof.
  induction sections as [|sec sections IH]; simpl; [done|].
  intros ([] & H1 & ([] & H2 & H3)%bind_Ok)%bind_Ok.
  constructor; [|auto]. split; [done|]. by apply validate_bodies_Ok.
Qed.

(** C24: whatever the parser accepts is a well-formed patch: at least one section; every
    header a non-empty path without [#], CR or LF and a four-digit upper-case hexadecimal
    tag; every section at least one operation; every line number positive and inside
    [usize]; register names non-empty over the register alphabet; every text [PUT] has
    at least one body row and no row holds a line feed; [REM] stands alone; [MV] is last. *)
Theorem parse_hashline_patch_wf patch sections :
  parse_hashline_patch patch = Ok sections →
  sections ≠ [] ∧ Forall wf_section sections.
Proof.
  unfold parse_hashline_patch. case_bool_decide; [done|].
  intros (st & Hst & H')%bind_Ok. destruct (_ && _); [done|].
  case_bool_decide; [done|].
  destruct (list_find _ _) as [[i sec]|] eqn:Hfind; [done|].
  apply bind_Ok in H' as ([] & Hval & [= <-]). split; [done|].
  apply parse_lines_wf in Hst; [|apply split_on_free|constructor].
  apply list_find_None in Hfind. apply validate_sections_Ok in Hval.
  rewrite Forall_forall in *. intros sec Hsec.
  destruct (Hst _ Hsec) as [Hh Hops]. destruct (Hval _ Hsec) as [Hcomp Hbody].
  apply validate_section_composition_Ok in Hcomp as [Hrem Hmv].
  specialize (Hfind _ Hsec). by split_and!.
Qed.

Lemma parse_hashline_patch_wf_witness :
  ∃ sections,
    parse_hashline_patch (join [LF] [lit "[src/lib.rs#0a9f]"; lit "PUT 3..5:"; lit "+x"]) = Ok sections ∧
    sections ≠ [] ∧ Forall wf_section sections.
Proof.
  eexists. split; [vm_compute; reflexivity|].
  eapply (parse_hashline_patch_wf
    (join [LF] [lit "[src/lib.rs#0a9f]"; lit "PUT 3..5:"; lit "+x"])).
  vm_compute; reflexivity.
Defined.

End Syntax.
