(* ===== verification/SyntaxRender.v ===== *)
(** * Printing hashline patches, and the parser as its left inverse

    A printer for the patch language of [hashline/syntax/mod.rs] in the concrete forms the
    documentation uses, and the proof that the parser reads every printed patch back. *)

From S2P Require Import Prelude RustStr Rejection Syntax.
Import Rejection Syntax.

Module SyntaxRender.

(** ** The printer *)

Definition render_ref (r : LineReference) : str :=
  match r with
  | Absolute n => show_N n
  | EofRelative n => if (n =? 0)%N then lit "$" else lit "$-" ++ show_N n
  end.

Definition render_side (s : GapSide) : str :=
  match s with GapBefore => lit "<" | GapAfter => lit ">" end.

Definition render_address (a : Address) : str :=
  match a with
  | AddrBof => lit "0"
  | AddrLine r => render_ref r
  | AddrRange a b => render_ref a ++ lit ".=" ++ render_ref b
  | AddrGap s r => render_side s ++ render_ref r
  | AddrBlock r => render_ref r ++ lit "*"
  | AddrBlockGap s r => render_side s ++ render_ref r ++ lit "*"
  end.

Definition render_register (r : RegisterRef) : str :=
  match r with Anonymous => [] | Named name => SPACE :: lit "@" ++ name end.

(** What follows the keyword of an operation. *)
Definition op_arguments (op : Operation) : str :=
  match op with
  | OpPut (MkPut a (FromText _) _) => render_address a ++ lit ":"
  | OpPut (MkPut a (FromRegister r) _) => render_address a ++ render_register r
  | OpCut (MkCut a (Some r) _) => render_address a ++ render_register r
  | OpCut (MkCut a None _) => render_address a
  | OpRem _ => []
  | OpMv (MkMv d _) => d
  end.

Definition op_line (op : Operation) : str :=
  match op with
  | OpPut _ => lit "PUT" ++ SPACE :: op_arguments op
  | OpCut _ => lit "CUT" ++ SPACE :: op_arguments op
  | OpRem _ => lit "REM"
  | OpMv _ => lit "MV" ++ SPACE :: op_arguments op
  end.

Definition body_rows (op : Operation) : list str :=
  match op with OpPut (MkPut _ (FromText rows) _) => rows | _ => [] end.

Definition render_operation (op : Operation) : list str :=
  op_line op :: ((λ row, lit "+" ++ row) <$> body_rows op).

Definition render_header (h : SectionHeader) : str :=
  lit "[" ++ requested_path h ++ [HASH] ++ header_tag h ++ lit "]".

Definition render_section (sec : PatchSection) : list str :=
  render_header (header sec) :: concat (render_operation <$> operations sec).

Definition render_patch (secs : list PatchSection) : str :=
  join [LF] (concat (render_section <$> secs)).

(** ** Line positions of a printed patch *)

Definition set_line (n : nat) (op : Operation) : Operation :=
  match op with
  | OpPut p => OpPut (MkPut (put_address p) (put_source p) n)
  | OpCut c => OpCut (MkCut (cut_address c) (cut_register c) n)
  | OpRem _ => OpRem (MkRem n)
  | OpMv m => OpMv (MkMv (mv_destination m) n)
  end.

Fixpoint number_operations (n : nat) (ops : list Operation) : list Operation :=
  match ops with
  | [] => []
  | op :: ops => set_line n op :: number_operations (n + length (render_operation op)) ops
  end.

Fixpoint number_sections (n : nat) (secs : list PatchSection) : list PatchSection :=
  match secs with
  | [] => []
  | sec :: secs =>
      MkSection (header sec) (number_operations (S n) (operations sec)) n
      :: number_sections (n + length (render_section sec)) secs
  end.

(** What the concrete syntax can express beyond well-formedness: rows do not end in CR,
    a destination is one unquoted word, and an explicit cut register is named. *)
Definition printable (op : Operation) : Prop :=
  match op with
  | OpPut (MkPut _ (FromText rows) _) => Forall (λ row, last row ≠ Some CR) rows
  | OpPut (MkPut _ (FromRegister _) _) => True
  | OpCut (MkCut _ r _) => r ≠ Some Anonymous
  | OpRem _ => True
  | OpMv (MkMv d _) => d ≠ [] ∧ Forall (λ c, is_whitespace c = false) d ∧ unquote d = d
  end.

(** ** References and addresses *)

Definition ref_char (c : char) : bool := is_ascii_digit c || (c =? 36)%N || (c =? 45)%N.

Lemma render_ref_chars r : Forall (λ c, ref_char c = true) (render_ref r).
Proof.
  assert (∀ n, Forall (λ c, ref_char c = true) (show_N n)) as Hn.
  { intros n. eapply Forall_impl; [apply show_N_digits|]. intros c Hc.
    unfold ref_char. by rewrite Hc. }
  destruct r as [n|n]; simpl; [done|]. destruct (n =? 0)%N; [by repeat constructor|].
  rewrite ?lit_cons. do 2 (constructor; [done|]). apply Hn.
Qed.

Lemma render_ref_nonempty r : render_ref r ≠ [].
Proof. destruct r as [n|n]; simpl; [apply show_N_nonempty|by destruct (n =? 0)%N]. Qed.

Lemma ref_char_ne (c d : char) : ref_char c = true → ref_char d = false → c ≠ d.
Proof. intros ?? ->. congruence. Qed.

Lemma ref_char_not_space c : ref_char c = true → is_whitespace c = false.
Proof.
  unfold ref_char. intros [[H|H]%orb_true_iff|H]%orb_true_iff;
    [by apply digit_not_space|breflect; by subst..].
Qed.

Lemma ref_not_elem (s : str) d :
  Forall (λ c, ref_char c = true) s → ref_char d = false → d ∉ s.
Proof. rewrite Forall_forall. intros Hs Hd Hin. apply Hs in Hin. congruence. Qed.

Lemma ref_head (s : str) d :
  Forall (λ c, ref_char c = true) s → ref_char d = false → head s ≠ Some d.
Proof. intros Hs Hd Hh. destruct Hs; simplify_eq/=. congruence. Qed.

Lemma ref_last (s : str) d :
  Forall (λ c, ref_char c = true) s → ref_char d = false → last s ≠ Some d.
Proof.
  intros Hs Hd Hl. apply last_Some_elem_of in Hl. by eapply ref_not_elem.
Qed.

(** A word free of white space is left alone by [trim]. *)
Lemma word_trim s : Forall (λ c, is_whitespace c = false) s → trim s = s.
Proof.
  intros Hs. apply trim_tight. rewrite Forall_forall in Hs. split; intros c Hc; apply Hs.
  - by apply head_Some_elem_of.
  - by apply last_Some_elem_of.
Qed.

Lemma ref_word s : Forall (λ c, ref_char c = true) s → Forall (λ c, is_whitespace c = false) s.
Proof. intros Hs. eapply Forall_impl; [done|]. apply ref_char_not_space. Qed.

Lemma parse_positive_show n :
  (0 < n ≤ usize_max)%N → parse_positive_usize (show_N n) = Ok n.
Proof.
  intros Hn. unfold parse_positive_usize. rewrite parse_usize_show by lia.
  destruct (n =? 0)%N eqn:E; [|done]. breflect. lia.
Qed.

Lemma show_N_head n : ∃ c s, show_N n = c :: s ∧ is_ascii_digit c = true.
Proof.
  pose proof (show_N_nonempty n). pose proof (show_N_digits n) as Hd.
  destruct (show_N n) as [|c s]; [done|]. inversion Hd; subst. eauto.
Qed.

Lemma parse_line_reference_render r :
  wf_ref r → parse_line_reference (render_ref r) = Ok r.
Proof.
  intros Hwf. unfold parse_line_reference. rewrite word_trim by apply ref_word, render_ref_chars.
  destruct r as [n|n]; simpl in Hwf.
  - destruct (show_N_head n) as (c & s & Hs & Hc). cbn [render_ref].
    assert (c ≠ 36%N) as Hne by (intros ->; done).
    rewrite decide_False by (rewrite Hs; intros [=]; done).
    rewrite (strip_prefix_None_head 36%N [45%N]) by (rewrite Hs; intros [=]; done).
    by rewrite parse_positive_show.
  - cbn [render_ref]. destruct (n =? 0)%N eqn:E; breflect; [by subst|].
    rewrite decide_False by done.
    rewrite (proj2 (strip_prefix_Some (lit "$-") _ (show_N n))) by done.
    by rewrite parse_positive_show by lia.
Qed.

Lemma split_once_Some {A} `{EqDecision A} (pat l a b : list A) :
  split_once pat l = Some (a, b) → l = a ++ pat ++ b.
Proof.
  revert a; induction l as [|x l IH]; intros a; cbn [split_once];
    destruct (strip_prefix pat _) as [r|] eqn:E.
  - apply strip_prefix_Some in E. intros [= <- <-]. done.
  - done.
  - apply strip_prefix_Some in E. intros [= <- <-]. done.
  - destruct (split_once pat l) as [[a' b']|]; [|done]. intros [= <- <-].
    simpl. by rewrite (IH a').
Qed.

Lemma split_once_None_elem {A} `{EqDecision A} (pat l : list A) d :
  d ∈ pat → d ∉ l → split_once pat l = None.
Proof.
  intros Hd Hl. destruct (split_once pat l) as [[a b]|] eqn:E; [|done].
  apply split_once_Some in E as ->. destruct Hl. set_solver.
Qed.

(** A pattern with two dots does not occur in a text with one. *)
Lemma split_once_None_dots (pat a b : str) :
  46%N ∉ a → 46%N ∉ b → 2 ≤ length (filter (46%N =.) pat) →
  split_once pat (a ++ lit ".=" ++ b) = None.
Proof.
  intros Ha Hb Hp. destruct (split_once pat _) as [[x y]|] eqn:E; [|done].
  apply split_once_Some, (f_equal (λ l, length (filter (46%N =.) l))) in E.
  assert (∀ l : str, 46%N ∉ l → filter (46%N =.) l = []) as Hnil.
  { intros l Hl. apply elem_of_nil_inv. intros c [<- Hc]%list_elem_of_filter. done. }
  rewrite !filter_app, !length_app, (Hnil a), (Hnil b) in E by done.
  change (length (filter (46%N =.) (lit ".="))) with 1 in E. simpl in E. lia.
Qed.

Lemma parse_range_render a b :
  wf_ref a → wf_ref b → parse_range (render_ref a) (render_ref b) = Ok (AddrRange a b).
Proof.
  intros Ha Hb. unfold parse_range. rewrite !parse_line_reference_render by done. done.
Qed.

Lemma gap_prefix_none s :
  head s ≠ Some 60%N → head s ≠ Some 62%N → gap_prefix s = None.
Proof.
  intros H1 H2. unfold gap_prefix.
  rewrite (strip_prefix_None_head 60%N []) by done.
  by rewrite (strip_prefix_None_head 62%N []).
Qed.

Lemma gap_prefix_render side s : gap_prefix (render_side side ++ s) = Some (side, s).
Proof. by destruct side. Qed.

Lemma render_ref_ne_zero r : wf_ref r → render_ref r ≠ lit "0".
Proof.
  intros Hwf H. pose proof (parse_line_reference_render r Hwf) as Hp.
  by rewrite H in Hp.
Qed.

Lemma ref_app_head (s t : str) d :
  s ≠ [] → Forall (λ c, ref_char c = true) s → ref_char d = false → head (s ++ t) ≠ Some d.
Proof.
  intros Hne Hs Hd. destruct s as [|c s]; [done|]. by apply (ref_head (c :: s)).
Qed.

Lemma ref_app_last (s t : str) d :
  s ≠ [] → Forall (λ c, ref_char c = true) s → ref_char d = false → last (t ++ s) ≠ Some d.
Proof.
  intros Hne Hs Hd Hl. destruct s as [|c s _] using rev_ind; [done|].
  rewrite app_assoc, last_snoc in Hl.
  apply (ref_last (s ++ [c]) d); [done..|]. by rewrite last_snoc.
Qed.

Lemma render_address_word a : Forall (λ c, is_whitespace c = false) (render_address a).
Proof.
  pose proof (λ r, ref_word _ (render_ref_chars r)) as Hr.
  destruct a as [|r|r1 r2|[] r|r|[] r]; cbn [render_address]; rewrite ?Forall_app;
    split_and?; try apply Hr; by repeat constructor.
Qed.

Lemma render_address_nonempty a : render_address a ≠ [].
Proof.
  pose proof render_ref_nonempty as Hr. destruct a as [|r|r1 r2|[] r|r|[] r]; simpl; try done.
  all: intros H; try apply app_eq_nil in H as [H _]; by apply Hr in H.
Qed.

(** Printed addresses parse back. *)
Lemma parse_address_render a : wf_address a → parse_address (render_address a) = Ok a.
Proof.
  pose proof render_ref_chars as Hc. pose proof render_ref_nonempty as Hne.
  intros Hwf. unfold parse_address. rewrite word_trim by apply render_address_word.
  destruct a as [|r|r1 r2|side r|r|side r]; cbn [render_address wf_address] in *.
  - done.
  - rewrite decide_False by by apply render_ref_ne_zero.
    rewrite gap_prefix_none by (apply ref_head; done).
    rewrite (strip_suffix_None_last 42%N) by (apply ref_last; done).
    rewrite !(split_once_None_elem _ _ 46%N) by (first [by_compute|by eapply ref_not_elem]).
    by rewrite parse_line_reference_render.
  - destruct Hwf as [H1 H2].
    rewrite decide_False.
    2:{ intros H. apply (f_equal (λ l, bool_decide (46%N ∈ l))) in H. revert H.
        rewrite bool_decide_true by set_solver. done. }
    rewrite gap_prefix_none by (apply ref_app_head; done).
    rewrite (strip_suffix_None_last 42%N) by (rewrite app_assoc; apply ref_app_last; done).
    rewrite (split_once_None_dots (lit "..=")) by ((by eapply ref_not_elem) || by_compute).
    rewrite (split_once_first 46%N [61%N]) by (eapply ref_not_elem; done).
    by apply parse_range_render.
  - rewrite decide_False by by destruct side.
    rewrite gap_prefix_render.
    rewrite (strip_suffix_None_last 42%N) by (apply ref_last; done).
    by rewrite parse_line_reference_render.
  - rewrite decide_False by (intros H%(f_equal last); change (lit "*") with [42%N] in H;
      by rewrite last_snoc in H).
    rewrite gap_prefix_none by (apply ref_app_head; done).
    rewrite (proj2 (strip_suffix_Some (lit "*") _ (render_ref r))) by done.
    by rewrite parse_line_reference_render.
  - rewrite decide_False by by destruct side.
    rewrite gap_prefix_render.
    rewrite (proj2 (strip_suffix_Some (lit "*") _ (render_ref r))) by done.
    by rewrite parse_line_reference_render.
Qed.

(** ** Lines *)

Lemma trim_head s c l : s = c :: l → is_whitespace c = false → ∃ t, trim s = c :: t.
Proof.
  intros -> Hc. unfold trim, trim_start. simpl. rewrite Hc. unfold trim_end.
  destruct (rstrip_prefix is_whitespace (c :: l)) as (k & Hk & Hws).
  destruct (rstrip is_whitespace (c :: l)) as [|d t]; simpl in Hk.
  - subst k. inversion Hws; congruence.
  - injection Hk as <- _. eauto.
Qed.

Lemma is_header_line_head c l : c ≠ 91%N → is_header_line (c :: l) = false.
Proof.
  intros Hc. unfold is_header_line, starts_with.
  rewrite (strip_prefix_None_head 91%N []) by (intros [=]; done). done.
Qed.

Lemma is_directive_head c l :
  c ∉ [80%N; 67%N; 82%N; 77%N] → is_directive (c :: l) = false.
Proof.
  intros Hc. unfold is_directive. apply existsb_false_elem_of. intros k Hk.
  assert (∃ d k', k = d :: k' ∧ d ≠ c) as (d & k' & -> & Hd).
  { unfold directive_keywords in Hk. set_solver. }
  rewrite bool_decide_false by congruence.
  rewrite strip_prefix_None_head by (intros [=]; done). done.
Qed.

(** A line whose first character is neither [*] nor a blank gets past the envelope tests. *)
Lemma parse_line_body st n c l fin :
  envelope_ended st = false → is_whitespace c = false → c ≠ 42%N →
  last (c :: l) ≠ Some CR →
  parse_line st n (c :: l) fin =
  (if is_header_line (trim (c :: l)) then
     h ← parse_section_header (trim (c :: l));
     Ok (MkParseState (ps_sections st ++ [MkSection h [] n]) (envelope_started st) false)
   else if is_directive (c :: l) then
     match last (ps_sections st) with
     | None => Err (parse_error (msg "operation at line " ++ msg_nat n
                 ++ msg " appears before a tagged section header"))
     | Some sec =>
         op ← parse_operation (c :: l) n;
         Ok (MkParseState
               (removelast (ps_sections st) ++
                [MkSection (header sec) (operations sec ++ [op]) (section_line sec)])
               (envelope_started st) false)
     end
   else
     sections ← parse_body_row (ps_sections st) (c :: l) n;
     Ok (MkParseState sections (envelope_started st) false)).
Proof.
  intros He Hc Hstar Hcr. unfold parse_line. rewrite strip_cr_id by done.
  destruct (trim_head (c :: l) c l eq_refl Hc) as [t Ht]. rewrite Ht, He.
  rewrite bool_decide_false by done. simpl.
  by rewrite !decide_False by (intros [=]; done).
Qed.

Lemma parse_header_line st n h fin :
  envelope_ended st = false → wf_header h →
  parse_line st n (render_header h) fin
  = Ok (MkParseState (ps_sections st ++ [MkSection h [] n]) (envelope_started st) false).
Proof.
  intros He (Hne & Hh & Hcr & Hlf & Htag). destruct h as [path tag]. cbn in Hne, Hh, Hcr, Hlf, Htag.
  set (body := path ++ [HASH] ++ tag).
  assert (render_header (MkHeader path tag) = 91%N :: body ++ [93%N]) as Hr.
  { unfold render_header, body. cbn. by rewrite <-!app_assoc. }
  assert (trim (91%N :: body ++ [93%N]) = 91%N :: body ++ [93%N]) as Ht.
  { apply trim_tight. split; intros c Hc; [by injection Hc as <-|].
    rewrite app_comm_cons, last_snoc in Hc. by injection Hc as <-. }
  assert (is_header_line (91%N :: body ++ [93%N]) = true) as Hl.
  { unfold is_header_line. rewrite (proj2 (ends_with_true (lit "]") _)) by (by exists (91%N :: body)).
    rewrite (proj2 (starts_with_true (lit "[") _)) by (by exists (body ++ [93%N])).
    apply N.leb_le. unfold str_len. rewrite as_bytes_cons, length_app.
    rewrite as_bytes_app, length_app. cbn. lia. }
  rewrite Hr, parse_line_body; [|done|done|done|].
  2:{ rewrite app_comm_cons, last_snoc. done. }
  rewrite Ht, Hl. unfold parse_section_header. rewrite Ht, Hl. cbn [negb].
  replace (take _ _) with body.
  2:{ change (drop 1 (91%N :: body ++ [93%N])) with (body ++ [93%N]).
      rewrite length_cons, length_app. cbn [length].
      replace (S (length body + 1) - 2) with (length body) by lia. by rewrite take_app_length. }
  unfold body. change ([HASH] ++ tag) with ((HASH :: []) ++ tag).
  rewrite (split_once_first HASH []) by done.
  rewrite bool_decide_false by done.
  rewrite !(proj2 (contains_char_false _ _)) by done. cbn [orb].
  unfold section_header_new. destruct path as [|p path]; [done|].
  rewrite normalize_tag_valid by done. done.
Qed.

Lemma parse_directive_line pre h ops sl e n c l fin op :
  c ∈ [80%N; 67%N; 82%N; 77%N] → last (c :: l) ≠ Some CR →
  is_directive (c :: l) = true → parse_operation (c :: l) n = Ok op →
  parse_line (MkParseState (pre ++ [MkSection h ops sl]) e false) n (c :: l) fin
  = Ok (MkParseState (pre ++ [MkSection h (ops ++ [op]) sl]) e false).
Proof.
  intros Hc Hcr Hd Hop.
  assert (is_whitespace c = false ∧ c ≠ 42%N ∧ c ≠ 91%N) as (Hws & Hstar & Hbr) by set_solver.
  rewrite parse_line_body by done.
  destruct (trim_head (c :: l) c l eq_refl Hws) as [t ->].
  rewrite is_header_line_head by done. rewrite Hd. simpl.
  rewrite last_snoc, removelast_last, Hop. done.
Qed.

Lemma parse_row_line pre h ops sl e n a rows m row fin :
  last row ≠ Some CR →
  parse_line (MkParseState (pre ++ [MkSection h (ops ++ [OpPut (MkPut a (FromText rows) m)]) sl])
                e false) n (lit "+" ++ row) fin
  = Ok (MkParseState
          (pre ++ [MkSection h (ops ++ [OpPut (MkPut a (FromText (rows ++ [row])) m)]) sl]) e false).
Proof.
  intros Hrow. change (lit "+" ++ row) with (43%N :: row).
  rewrite parse_line_body; [|done..|by destruct row].
  destruct (trim_head (43%N :: row) 43%N row eq_refl eq_refl) as [t ->].
  rewrite is_header_line_head, is_directive_head by by_compute.
  unfold parse_body_row. simpl. rewrite last_snoc. simpl.
  rewrite last_snoc. simpl. by rewrite !removelast_last.
Qed.

(** ** Operations *)

Lemma tight_word w : Forall (λ c, is_whitespace c = false) w → tight w.
Proof.
  rewrite Forall_forall. intros Hw. split; intros c Hc; apply Hw.
  - by apply head_Some_elem_of.
  - by apply last_Some_elem_of.
Qed.

Lemma tight_app_words w c v :
  w ≠ [] → v ≠ [] → Forall (λ c, is_whitespace c = false) w →
  Forall (λ c, is_whitespace c = false) v → tight (w ++ c :: v).
Proof.
  intros Hw Hv [Hwh _]%tight_word [_ Hvl]%tight_word. split; intros x Hx.
  - apply Hwh. by destruct w.
  - apply Hvl. destruct v as [|v x' _] using rev_ind; [done|].
    rewrite app_comm_cons, app_assoc, last_snoc in Hx. by rewrite last_snoc.
Qed.

Lemma tight_keyword w v :
  Forall (λ c, is_whitespace c = false) w → w ≠ [] → v ≠ [] → tight v →
  trim (w ++ SPACE :: v) = w ++ SPACE :: v ∧ trim v = v.
Proof.
  intros Hw Hne Hv Ht. split; [|by apply trim_tight]. apply trim_tight.
  destruct (tight_word _ Hw) as [Hwh _], Ht as [_ Hvl]. split; intros x Hx.
  - apply Hwh. by destruct w.
  - apply Hvl. destruct v as [|v x' _] using rev_ind; [done|].
    rewrite app_comm_cons, app_assoc, last_snoc in Hx. by rewrite last_snoc.
Qed.

Lemma split_once_ws_keyword w v :
  Forall (λ c, is_whitespace c = false) w → split_once_ws (w ++ SPACE :: v) = Some (w, v).
Proof.
  induction 1 as [|c w Hc _ IH]; [done|]. cbn [app split_once_ws]. by rewrite Hc, IH.
Qed.

Lemma parse_operation_keyword w v n :
  Forall (λ c, is_whitespace c = false) w → w ≠ [] → v ≠ [] → tight v →
  parse_operation (w ++ SPACE :: v) n =
  (if decide (w = lit "PUT") then parse_put v n
   else if decide (w = lit "CUT") then parse_cut v n
   else if decide (w = lit "REM") then parse_rem v n
   else if decide (w = lit "MV") then parse_mv v n
   else Err (parse_error (msg "unknown operation " ++ [Quoted w]
          ++ msg " at line " ++ msg_nat n))).
Proof.
  intros Hw Hne Hv Ht. unfold parse_operation.
  destruct (tight_keyword w v Hw Hne Hv Ht) as [-> E]. rewrite decide_False.
  2:{ intros H. assert (SPACE ∈ lit "REM") as Hin by (rewrite <-H; set_solver).
      revert Hin. by apply (bool_decide_unpack (¬ _)). }
  rewrite split_once_ws_keyword by done. by rewrite E.
Qed.

Lemma register_word name :
  Forall (λ c, is_register_char c = true) name →
  Forall (λ c, is_whitespace c = false) (lit "@" ++ name).
Proof.
  intros H. change (lit "@" ++ name) with (64%N :: name). constructor; [done|].
  eapply Forall_impl; [done|]. intros c. unfold is_register_char, is_ascii_alphanumeric,
    is_ascii_upper, is_ascii_lower, is_ascii_digit, is_whitespace.
  intros Hc. rewrite ?orb_true_iff, ?andb_true_iff, ?N.leb_le, ?N.eqb_eq in Hc.
  rewrite ?orb_false_iff, ?andb_false_iff, ?N.leb_gt, ?N.eqb_neq. lia.
Qed.

Lemma parse_register_render name :
  name ≠ [] → Forall (λ c, is_register_char c = true) name →
  parse_register (lit "@" ++ name) = Ok (Named name).
Proof.
  intros Hne Hn. unfold parse_register. rewrite (proj2 (strip_prefix_Some _ _ name)) by done.
  rewrite bool_decide_false by done.
  rewrite (proj2 (forallb_elem_of _ _)) by (by apply Forall_forall). done.
Qed.

Lemma render_register_word r :
  wf_register r → Forall (λ c, is_whitespace c = false) (drop 1 (render_register r)).
Proof.
  destruct r as [|name]; [by constructor|]. intros [_ Hn].
  change (drop 1 (render_register (Named name))) with (lit "@" ++ name). by apply register_word.
Qed.

Lemma address_register_tight a r :
  wf_register r → tight (render_address a ++ render_register r).
Proof.
  intros Hr. destruct r as [|name].
  - rewrite app_nil_r. apply tight_word, render_address_word.
  - destruct Hr as [_ Hn]. change (render_register (Named name)) with (SPACE :: lit "@" ++ name).
    apply tight_app_words; [apply render_address_nonempty|done|apply render_address_word|].
    by apply register_word.
Qed.

Lemma op_arguments_tight op :
  wf_operation op → printable op → is_rem op = false →
  op_arguments op ≠ [] ∧ tight (op_arguments op).
Proof.
  pose proof (render_address_nonempty) as Hne. pose proof render_address_word as Hw.
  destruct op as [[a [rows|r] m]|[a [r|] m]|[m]|[d m]]; intros Hwf Hp Hrem;
    cbn [op_arguments wf_operation printable] in *.
  - split; [intros [H _]%app_eq_nil; by apply Hne in H|].
    apply tight_word, Forall_app; split; [apply Hw|by repeat constructor].
  - split; [intros [H _]%app_eq_nil; by apply Hne in H|]. apply address_register_tight, Hwf.
  - split; [intros [H _]%app_eq_nil; by apply Hne in H|].
    apply address_register_tight. by apply Hwf.
  - split; [done|]. by apply tight_word.
  - done.
  - destruct Hp as (? & ? & _). split; [done|]. by apply tight_word.
Qed.

(** The operation the parser holds after the operation line, before any body row. *)
Definition without_body (op : Operation) : Operation :=
  match op with
  | OpPut (MkPut a (FromText _) n) => OpPut (MkPut a (FromText []) n)
  | _ => op
  end.

Lemma address_last a d : is_whitespace d = false → ref_char d = false → d ≠ 42%N →
  last (render_address a) ≠ Some d.
Proof.
  pose proof render_ref_chars as Hc. pose proof render_ref_nonempty as Hne.
  intros Hd Hd' Hstar. destruct a as [|r|r1 r2|side r|r|side r]; cbn [render_address].
  - intros [= <-]. done.
  - by apply ref_last.
  - rewrite app_assoc. by apply ref_app_last.
  - by apply ref_app_last.
  - change (lit "*") with [42%N]. rewrite last_snoc. congruence.
  - change (lit "*") with [42%N]. rewrite app_assoc, last_snoc. congruence.
Qed.

Lemma split_address_register a name :
  Forall (λ c, is_register_char c = true) name →
  split_whitespace (render_address a ++ SPACE :: lit "@" ++ name)
  = [render_address a; lit "@" ++ name].
Proof.
  intros Hn. apply split_whitespace_two; [apply render_address_nonempty|done|
    apply render_address_word|by apply register_word|done].
Qed.

Lemma register_last a name :
  Forall (λ c, is_register_char c = true) name →
  last (render_address a ++ SPACE :: lit "@" ++ name) ≠ Some 58%N.
Proof.
  intros Hn Hl. change (lit "@" ++ name) with (64%N :: name) in Hl.
  destruct name as [|c name _] using rev_ind.
  - rewrite (last_app_cons _ [64%N]) in Hl. done.
  - rewrite !app_comm_cons, app_assoc, last_snoc in Hl. injection Hl as ->.
    apply Forall_app in Hn as [_ Hn%Forall_inv]. done.
Qed.

Lemma parse_put_render op p n :
  op = OpPut p → wf_operation op →
  parse_put (op_arguments op) n = Ok (set_line n (without_body op)).
Proof.
  intros -> Hwf. destruct p as [a [rows|r] m]; cbn [op_arguments wf_operation] in *;
    destruct Hwf as [Ha Hs]; unfold parse_put.
  - rewrite (proj2 (strip_suffix_Some (lit ":") _ (render_address a))) by done.
    rewrite word_trim by apply render_address_word.
    rewrite bool_decide_false by apply render_address_nonempty.
    rewrite parse_address_render by done. done.
  - destruct r as [|name].
    + rewrite app_nil_r. rewrite (strip_suffix_None_last 58%N) by by apply address_last.
      rewrite split_whitespace_word by (apply render_address_nonempty || apply render_address_word).
      cbn. by rewrite parse_address_render.
    + destruct Hs as [Hne Hn]. change (render_register (Named name)) with (SPACE :: lit "@" ++ name).
      rewrite (strip_suffix_None_last 58%N) by by apply register_last.
      rewrite split_address_register by done.
      rewrite (proj2 (starts_with_true (lit "@") _)) by by exists name.
      rewrite andb_false_r, parse_register_render by done.
      cbn. by rewrite parse_address_render.
Qed.

Lemma parse_cut_render op c n :
  op = OpCut c → wf_operation op → printable op →
  parse_cut (op_arguments op) n = Ok (set_line n (without_body op)).
Proof.
  intros -> [Ha Hr] Hp. destruct c as [a [[|name]|] m]; cbn [op_arguments printable cut_address
    cut_register] in *; [done| |]; unfold parse_cut.
  - destruct (Hr _ eq_refl) as [Hne Hn].
    change (render_register (Named name)) with (SPACE :: lit "@" ++ name).
    rewrite split_address_register by done.
    rewrite parse_register_render by done. cbn. by rewrite parse_address_render.
  - rewrite split_whitespace_word by (apply render_address_nonempty || apply render_address_word).
    cbn. by rewrite parse_address_render.
Qed.

Lemma parse_mv_render d m n :
  printable (OpMv (MkMv d m)) → parse_mv d n = Ok (OpMv (MkMv d n)).
Proof.
  intros (Hne & Hw & Hq). unfold parse_mv. rewrite word_trim by done.
  rewrite bool_decide_false by done. rewrite split_whitespace_word by done.
  cbn [length orb]. rewrite bool_decide_false by lia. by rewrite Hq.
Qed.

(** Every operation line is recognised as a directive and parses to its operation. *)
Lemma parse_operation_render op n :
  wf_operation op → printable op →
  parse_operation (op_line op) n = Ok (set_line n (without_body op)).
Proof.
  intros Hwf Hp. destruct (is_rem op) eqn:Hrem; [by destruct op|].
  destruct (op_arguments_tight op Hwf Hp Hrem) as [Hne Ht].
  destruct op as [p|c|r|[d m]]; cbn [op_line]; [| |done|];
    rewrite parse_operation_keyword by (done || by repeat constructor).
  - rewrite decide_True by done. by eapply parse_put_render.
  - rewrite decide_False, decide_True by done. by eapply parse_cut_render.
  - rewrite !decide_False, decide_True by done. by eapply parse_mv_render.
Qed.

Lemma op_line_shape op :
  wf_operation op → printable op →
  ∃ c l, op_line op = c :: l ∧ c ∈ [80%N; 67%N; 82%N; 77%N] ∧
    last (op_line op) ≠ Some CR ∧ is_directive (op_line op) = true ∧ LF ∉ op_line op.
Proof.
  intros Hwf Hp. assert (∀ v, tight v → last v ≠ Some CR) as Hcr.
  { intros v [_ Hl] H. by apply Hl in H. }
  destruct (is_rem op) eqn:Hrem.
  { destruct op; try done. exists 82%N. eexists. split; [done|].
    split_and!; try done; by_compute. }
  destruct (op_arguments_tight op Hwf Hp Hrem) as [Hne Ht]. apply Hcr in Ht.
  assert (LF ∉ op_arguments op) as HLF.
  { pose proof render_address_word as Hw.
    assert (∀ w, Forall (λ c, is_whitespace c = false) w → LF ∉ w) as Hlf.
    { intros w Hall Hin. rewrite Forall_forall in Hall. by apply Hall in Hin. }
    assert (∀ r, wf_register r → LF ∉ render_register r) as Hreg.
    { intros [|name]; [intros _; apply not_elem_of_nil|]. intros [_ Hn] Hin.
      apply elem_of_cons in Hin as [|Hin]; [done|]. eapply Hlf; [|done]. by apply register_word. }
    destruct op as [[a [rows|r] m]|[a [r|] m]|[m]|[d m]]; cbn [op_arguments];
      rewrite ?not_elem_of_app; [split|split|split|..]; try (apply Hlf, Hw).
    - by_compute.
    - apply Hreg, Hwf.
    - by apply Hreg, Hwf.
    - by_compute.
    - apply Hlf, Hp. }
  destruct op; cbn [op_line]; [| |done|]; (do 2 eexists; split; [reflexivity|]);
    (split; [by_compute|]); (split; [|split; [done|set_solver]]);
    rewrite last_app_cons; by destruct (op_arguments _).
Qed.

(** ** Whole patches *)

Lemma parse_lines_cons st n c l lines :
  parse_lines st n ((c :: l) :: lines)
  = (st' ← parse_line st n (c :: l) (bool_decide (lines = [])); parse_lines st' (S n) lines).
Proof. done. Qed.

Lemma parse_rows pre h ops sl a rows m todo n rest :
  Forall (λ row, last row ≠ Some CR) todo →
  parse_lines
    (MkParseState (pre ++ [MkSection h (ops ++ [OpPut (MkPut a (FromText rows) m)]) sl]) false false)
    n (((λ row, lit "+" ++ row) <$> todo) ++ rest)
  = parse_lines
      (MkParseState
        (pre ++ [MkSection h (ops ++ [OpPut (MkPut a (FromText (rows ++ todo)) m)]) sl]) false false)
      (n + length todo) rest.
Proof.
  intros Hall. revert rows n. induction Hall as [|row todo Hrow _ IH]; intros rows n.
  - simpl. by rewrite app_nil_r, Nat.add_0_r.
  - cbn [fmap list_fmap app parse_lines]. rewrite parse_row_line by done.
    unfold mbind, result_bind. rewrite IH. cbn [length].
    rewrite <-app_assoc, <-Nat.add_succ_comm. done.
Qed.

Lemma parse_rendered_operation pre h ops sl op n rest :
  wf_operation op → printable op →
  parse_lines (MkParseState (pre ++ [MkSection h ops sl]) false false) n
    (render_operation op ++ rest)
  = parse_lines (MkParseState (pre ++ [MkSection h (ops ++ [set_line n op]) sl]) false false)
      (n + length (render_operation op)) rest.
Proof.
  intros Hwf Hp. destruct (op_line_shape op Hwf Hp) as (c & l & Hl & Hc & Hcr & Hd & _).
  pose proof (parse_operation_render op n Hwf Hp) as Hop.
  unfold render_operation. rewrite Hl in *. cbn [app].
  rewrite parse_lines_cons, (parse_directive_line _ _ _ _ _ _ _ _ _ _ Hc Hcr Hd Hop).
  unfold mbind, result_bind. cbn [length]. rewrite length_fmap.
  rewrite <-Nat.add_succ_comm.
  destruct op as [[a [rows|r] m]|[a r m]|[m]|[d m]]; cbn [body_rows without_body set_line];
    try (cbn [length fmap list_fmap app]; by rewrite Nat.add_0_r).
  cbn [put_address put_source]. by rewrite parse_rows.
Qed.

Lemma parse_rendered_operations pre h done sl ops n rest :
  Forall wf_operation ops → Forall printable ops →
  parse_lines (MkParseState (pre ++ [MkSection h done sl]) false false) n
    (concat (render_operation <$> ops) ++ rest)
  = parse_lines
      (MkParseState (pre ++ [MkSection h (done ++ number_operations n ops) sl]) false false)
      (n + length (concat (render_operation <$> ops))) rest.
Proof.
  intros Hwf Hp. revert done n. induction ops as [|op ops IH]; intros done n.
  - simpl. by rewrite app_nil_r, Nat.add_0_r.
  - inversion Hwf; inversion Hp; subst. cbn [fmap list_fmap concat number_operations].
    rewrite <-app_assoc, parse_rendered_operation, IH by done.
    rewrite <-!app_assoc. cbn [app]. by rewrite length_app, Nat.add_assoc.
Qed.

Lemma parse_rendered_sections pre secs n :
  Forall wf_section secs → Forall (λ sec, Forall printable (operations sec)) secs →
  parse_lines (MkParseState pre false false) n (concat (render_section <$> secs))
  = Ok (MkParseState (pre ++ number_sections n secs) false false).
Proof.
  intros Hwf Hp. revert pre n. induction secs as [|sec secs IH]; intros pre n.
  - simpl. by rewrite app_nil_r.
  - inversion Hwf as [|?? Hs]; inversion Hp; subst. destruct Hs as (Hh & _ & Hops & _).
    cbn [fmap list_fmap concat number_sections render_section app].
    unfold render_header at 1. change (lit "[" ++ ?x) with (91%N :: x).
    rewrite parse_lines_cons. change (91%N :: _) with (render_header (header sec)).
    rewrite parse_header_line by done. unfold mbind, result_bind. cbn [ps_sections envelope_started].
    rewrite parse_rendered_operations by done. rewrite IH by done.
    rewrite <-app_assoc. cbn [app].
    replace (n + length (render_section sec))
      with (S n + length (concat (render_operation <$> operations sec))); [done|].
    unfold render_section. simpl. lia.
Qed.

Lemma set_line_keeps n op :
  is_rem (set_line n op) = is_rem op ∧ is_mv (set_line n op) = is_mv op ∧
  (has_body op → has_body (set_line n op)).
Proof. by destruct op. Qed.

Lemma number_operations_lookup n ops i op :
  number_operations n ops !! i = Some op →
  ∃ m op0, op = set_line m op0 ∧ ops !! i = Some op0.
Proof.
  revert n i; induction ops as [|o ops IH]; intros n i; simpl; [done|].
  destruct i as [|i]; simpl; [intros [= <-]; eauto|apply IH].
Qed.

Lemma number_operations_length n ops : length (number_operations n ops) = length ops.
Proof. revert n; induction ops as [|o ops IH]; intros n; simpl; [done|by rewrite IH]. Qed.

(** The converse of [validate_section_composition_Ok]. *)
Lemma validate_section_composition_ok sec :
  (∀ op, op ∈ operations sec → is_rem op = true → length (operations sec) = 1) →
  (∀ i op, operations sec !! i = Some op → is_mv op = true → S i = length (operations sec)) →
  validate_section_composition sec = Ok tt.
Proof.
  intros Hrem Hmv. unfold validate_section_composition.
  destruct (_ && _) eqn:E1.
  { apply andb_true_iff in E1 as [(op & Hop & Hr)%existsb_elem_of E1].
    apply negb_true_iff, bool_decide_eq_false in E1. destruct E1. by eapply Hrem. }
  rewrite bool_decide_false.
  2:{ destruct (operations sec) as [|op ops _] using rev_ind; [simpl; lia|].
      rewrite filter_app, length_app.
      assert (filter (λ o, is_mv o) ops = []) as ->.
      { apply elem_of_nil_inv.
        intros o [Ho [i Hi]%list_elem_of_lookup]%list_elem_of_filter.
        pose proof (lookup_lt_Some _ _ _ Hi). specialize (Hmv i o).
        rewrite lookup_app_l, length_app in Hmv by lia. apply Is_true_true in Ho.
        specialize (Hmv Hi Ho). simpl in Hmv. lia. }
      rewrite filter_cons, filter_nil. destruct (decide (is_mv op)); simpl; lia. }
  destruct (position is_mv (operations sec)) as [k|] eqn:Ek; [|done].
  apply position_Some in Ek as (x & Hx & Hpx & _). by rewrite bool_decide_true by by eapply Hmv.
Qed.

Lemma validate_bodies_ok ops : Forall has_body ops → validate_bodies ops = Ok tt.
Proof.
  induction 1 as [|op ops Hop _ IH]; [done|].
  destruct op as [[a [[|r rows]|r] m]|[a r m]|[m]|[d m]]; simpl; [done|done..].
Qed.

Lemma validate_numbered secs n :
  Forall wf_section secs → validate_sections (number_sections n secs) = Ok tt.
Proof.
  intros Hwf. revert n. induction Hwf as [|sec secs (_ & _ & _ & Hb & Hrem & Hmv) _ IH]; intros n;
    [done|]. cbn [number_sections validate_sections].
  rewrite validate_section_composition_ok; cbn [operations].
  - unfold mbind, result_bind. rewrite validate_bodies_ok; [apply IH|].
    apply Forall_forall. intros op [i Hi]%list_elem_of_lookup.
    apply number_operations_lookup in Hi as (m & op0 & -> & H0).
    apply set_line_keeps. rewrite Forall_lookup in Hb. by eapply Hb.
  - intros op [i Hi]%list_elem_of_lookup Hr. rewrite number_operations_length.
    apply number_operations_lookup in Hi as (m & op0 & -> & H0).
    rewrite (proj1 (set_line_keeps m op0)) in Hr. apply list_elem_of_lookup_2 in H0.
    by rewrite (Hrem op0 H0 Hr).
  - intros i op Hi Hm. rewrite number_operations_length.
    apply number_operations_lookup in Hi as (m & op0 & -> & H0). eapply Hmv; [done|].
    by rewrite (proj1 (proj2 (set_line_keeps m op0))) in Hm.
Qed.

Lemma render_lines_no_LF secs :
  Forall wf_section secs → Forall (λ sec, Forall printable (operations sec)) secs →
  Forall (λ l, LF ∉ l) (concat (render_section <$> secs)).
Proof.
  intros Hwf Hp. apply Forall_concat, Forall_fmap.
  rewrite Forall_forall in Hwf, Hp. apply Forall_forall. intros sec Hsec. unfold compose.
  destruct (Hwf _ Hsec) as (Hh & _ & Hops & _). specialize (Hp _ Hsec).
  unfold render_section. constructor.
  - destruct Hh as (_ & _ & _ & Hlf & Htag). unfold render_header.
    rewrite !not_elem_of_app. split_and!; try done; try by_compute.
    destruct Htag as [_ Htag]. rewrite Forall_forall in Htag. intros Hin. by apply Htag in Hin.
  - apply Forall_concat, Forall_fmap, Forall_forall. intros op Hop. unfold compose, render_operation.
    rewrite Forall_forall in Hops, Hp. specialize (Hops _ Hop). specialize (Hp _ Hop).
    destruct (op_line_shape op Hops Hp) as (c & l & _ & _ & _ & _ & Hlf).
    constructor; [done|]. apply Forall_fmap. unfold compose.
    destruct op as [[a [rows|r] m]|[a r m]|[m]|[d m]]; cbn [body_rows]; try by constructor.
    destruct Hops as [_ Hrows]. eapply Forall_impl; [apply Hrows|]. intros row Hrow.
    rewrite not_elem_of_app. split; [by_compute|done].
Qed.

(** C23: the parser is a left inverse of the printer: every well-formed patch whose
    rows, destinations and registers the concrete syntax can express, printed one section
    header, operation or body row per line, parses back to itself, with each section and
    operation carrying the line it was printed on. *)
Theorem parse_render_roundtrip secs :
  secs ≠ [] → Forall wf_section secs →
  Forall (λ sec, Forall printable (operations sec)) secs →
  parse_hashline_patch (render_patch secs) = Ok (number_sections 1 secs).
Proof.
  intros Hne Hwf Hp. unfold parse_hashline_patch, render_patch.
  assert (concat (render_section <$> secs) ≠ []) as Hlines by by destruct secs.
  rewrite bool_decide_false.
  2:{ destruct secs as [|sec secs]; [done|].
      assert (∃ l, join [LF] (concat (render_section <$> (sec :: secs))) = 91%N :: l) as [l Hl].
      { cbn [fmap list_fmap concat render_section app join].
        destruct (_ ++ concat _); cbn; eauto. }
      destruct (trim_head _ 91%N l Hl eq_refl) as [t ->]. done. }
  rewrite split_on_join by (done || by apply render_lines_no_LF).
  rewrite parse_rendered_sections by done. unfold mbind, result_bind. cbn [app envelope_started
    envelope_ended ps_sections andb].
  rewrite bool_decide_false by by destruct secs.
  destruct (list_find _ _) as [[i sec]|] eqn:Hfind.
  - apply list_find_Some in Hfind as (Hi & Hops & _). exfalso.
    assert (∀ n, Forall (λ s, operations s ≠ []) (number_sections n secs)) as Hall.
    { clear -Hwf. induction Hwf as [|s secs (_ & Hs & _) _ IH]; intros n; constructor; [|apply IH].
      cbn. by destruct (operations s). }
    specialize (Hall 1). rewrite Forall_lookup in Hall. by eapply Hall.
  - by rewrite validate_numbered.
Qed.

(** A patch with every kind of operation, as printed by [render_patch]. *)
Definition sample_patch : list PatchSection :=
  [MkSection (MkHeader (lit "src/a b.rs") (lit "0A9F"))
     [OpPut (MkPut (AddrRange (Absolute 3) (EofRelative 2)) (FromText [lit "x"; []]) 2);
      OpCut (MkCut (AddrBlock (Absolute 7)) (Some (Named (lit "r-1"))) 5);
      OpPut (MkPut (AddrGap GapAfter (EofRelative 0)) (FromRegister (Named (lit "r-1"))) 6);
      OpPut (MkPut AddrBof (FromRegister Anonymous) 7);
      OpMv (MkMv (lit "src/b.rs") 8)] 1;
   MkSection (MkHeader (lit "old.txt") (lit "FFFF")) [OpRem (MkRem 10)] 9].

Lemma sample_patch_wf : Forall wf_section sample_patch.
Proof.
  repeat apply Forall_cons_2; [| |constructor]; unfold wf_section; cbn [header operations];
    split_and!.
  - unfold wf_header, valid_tag. split_and!; by_compute.
  - done.
  - repeat apply Forall_cons_2; cbn; try by_compute; [|constructor].
    split; [done|]. intros r [= <-]. split; by_compute.
  - repeat constructor; done.
  - intros op Hop Hr. exfalso. set_solver.
  - intros [|[|[|[|[|i]]]]] op Hi Hm; simplify_eq/=; done.
  - unfold wf_header, valid_tag. split_and!; by_compute.
  - done.
  - by repeat constructor.
  - by repeat constructor.
  - intros op Hop _. by apply list_elem_of_singleton in Hop as ->.
  - intros [|i] op Hi Hm; simplify_eq/=; done.
Qed.

Lemma parse_render_roundtrip_witness :
  parse_hashline_patch (render_patch sample_patch) = Ok sample_patch.
Proof.
  apply (parse_render_roundtrip sample_patch); [done|apply sample_patch_wf|].
  repeat constructor; by_compute.
Defined.

End SyntaxRender.
