(* ===== verification/Address.v ===== *)
(** * Addresses against snapshots: [hashline/syntax/mod.rs], resolution half

    Resolving parsed addresses against the retained snapshot, the eligibility check, exact
    verification against a baseline, and the resolution of all sections of a patch. *)

From S2P Require Import Prelude RustStr Scan SnapshotStore Rejection Syntax.
Import Scan SnapshotStore Rejection Syntax.

Module Address.

(** ** Data *)

Record LineSpan := MkSpan { span_start : nat; span_end : nat }.
#[export] Instance LineSpan_eq_dec : EqDecision LineSpan.
Proof. solve_decision. Defined.

(** [LineSpan::new] and [LineSpan::lines]. *)
Definition line_span_new (start stop : nat) : option LineSpan :=
  if decide (0 < start ∧ start ≤ stop) then Some (MkSpan start stop) else None.
Definition span_lines (s : LineSpan) : list nat := range_incl (span_start s) (span_end s).

Record ResolvedGap := MkGap { gap_before : option nat; gap_after : option nat }.
#[export] Instance ResolvedGap_eq_dec : EqDecision ResolvedGap.
Proof. solve_decision. Defined.

Inductive ResolvedAddress :=
  | WholeFile
  | Span (s : LineSpan)
  | Gap (g : ResolvedGap)
  | BlockAnchor (line : nat)
  | BlockGapAnchor (side : GapSide) (anchor : nat).
#[export] Instance ResolvedAddress_eq_dec : EqDecision ResolvedAddress.
Proof. solve_decision. Defined.

Definition addressed_span (a : ResolvedAddress) : option LineSpan :=
  match a with Span s => Some s | _ => None end.

(** [[gap.before, gap.after].into_iter().flatten()]. *)
Definition gap_lines (g : ResolvedGap) : list nat :=
  omap id [gap_before g; gap_after g].

Definition required_anchors (a : ResolvedAddress) : list nat :=
  match a with Gap g => gap_lines g | _ => [] end.

(** ** Resolution *)

(** [usize::checked_sub(1)]. *)
Definition checked_pred (n : nat) : option nat := match n with 0 => None | S n => Some n end.

Definition resolve_line_reference (r : LineReference) (total : nat) : result HashlineRejection nat :=
  ok_or (eligibility BoundaryIneligible
           (msg "address falls outside the retained snapshot boundary"))
    match r with
    | Absolute line => if (line <=? N.of_nat total)%N then Some (N.to_nat line) else None
    | EofRelative offset =>
        if (offset <? N.of_nat total)%N then Some (total - N.to_nat offset) else None
    end.

Definition resolve_address (a : Address) (s : Snapshot) : result HashlineRejection ResolvedAddress :=
  let total := total_lines s in
  match a with
  | AddrBof => Ok (Gap (MkGap None (if 0 <? total then Some 1 else None)))
  | AddrLine r => line ← resolve_line_reference r total; Ok (Span (MkSpan line line))
  | AddrRange a b =>
      start ← resolve_line_reference a total;
      stop ← resolve_line_reference b total;
      match line_span_new start stop with
      | None => Err (eligibility BoundaryIneligible
                  (msg "range start occurs after range end in the retained snapshot"))
      | Some span => Ok (Span span)
      end
  | AddrGap side r =>
      line ← resolve_line_reference r total;
      Ok (Gap match side with
              | GapBefore => MkGap (checked_pred line) (Some line)
              | GapAfter => MkGap (Some line) (if line <? total then Some (line + 1) else None)
              end)
  | AddrBlock r => line ← resolve_line_reference r total; Ok (BlockAnchor line)
  | AddrBlockGap side r =>
      line ← resolve_line_reference r total; Ok (BlockGapAnchor side line)
  end.

Definition expand_block (resolved : ResolvedAddress) (span : LineSpan) (s : Snapshot) :
    result HashlineRejection ResolvedAddress :=
  '(side, anchor) ←
    match resolved with
    | BlockAnchor anchor => Ok (None, anchor)
    | BlockGapAnchor side anchor => Ok (Some side, anchor)
    | _ => Err (parse_error (msg "only a parsed block address can be expanded as a block"))
    end;
  if negb (existsb (Nat.eqb anchor) (span_lines span)) || (total_lines s <? span_end span)
  then Err (eligibility BoundaryIneligible
         (msg "block resolver returned a span outside the retained snapshot"))
  else Ok match side with
          | None => Span span
          | Some GapBefore => Gap (MkGap (checked_pred (span_start span)) (Some (span_start span)))
          | Some GapAfter =>
              Gap (MkGap (Some (span_end span))
                     (if span_end span <? total_lines s then Some (span_end span + 1) else None))
          end.

(** ** Eligibility *)

(** The first line of a list that the tagged read did not retain. *)
Definition first_unseen (s : Snapshot) (lines : list nat) : option nat :=
  head (filter (λ line, is_seen s line = false) lines).

Definition check_eligibility (s : Snapshot) (a : ResolvedAddress) : result HashlineRejection unit :=
  match a with
  | WholeFile =>
      if bool_decide (size (records s) ≠ total_lines s) ||
         existsb (λ line, negb (is_seen s line)) (range_incl 1 (total_lines s))
      then Err (eligibility UnseenLine
             (msg "REM and MV require a tagged read that retained the whole source file"))
      else Ok tt
  | Span span =>
      match first_unseen s (span_lines span) with
      | Some line => Err (eligibility UnseenLine
                       (msg "line " ++ msg_nat line ++ msg " was not retained by the tagged read"))
      | None => Ok tt
      end
  | BlockAnchor line | BlockGapAnchor _ line =>
      if is_seen s line then Ok tt
      else Err (eligibility UnseenLine
             (msg "block anchor line " ++ msg_nat line ++ msg " was not retained by the tagged read"))
  | Gap g =>
      if bool_decide (gap_before g = None) && bool_decide (gap_after g = None) then
        if empty_file (boundary s) then Ok tt
        else Err (eligibility BoundaryIneligible
               (msg "empty-file gap has no retained empty-file boundary evidence"))
      else
        match first_unseen s (gap_lines g) with
        | Some line => Err (eligibility UnseenLine
                         (msg "gap boundary line " ++ msg_nat line
                          ++ msg " was not retained by the tagged read"))
        | None =>
            if bool_decide (gap_before g = None) && negb (bof_observed (boundary s))
            then Err (eligibility BoundaryIneligible (msg "BOF boundary evidence was not retained"))
            else if bool_decide (gap_after g = None) && negb (eof_observed (boundary s))
            then Err (eligibility BoundaryIneligible (msg "EOF boundary evidence was not retained"))
            else Ok tt
        end
  end.

(** ** Baselines and exact verification *)

Record Baseline := MkBaseline { bl_bytes : bytes; bl_snapshot : Snapshot }.

(** [scan_bytes]; [None] would be the source's [expect] failing. *)
Definition scan_bytes (bs : bytes) : option Snapshot := scan_snapshot bs request_whole_file.

(** [Baseline::from_bytes]. *)
Definition baseline_from_bytes (bs : bytes) : option Baseline := MkBaseline bs <$> scan_bytes bs.

Definition baseline_record (b : Baseline) (line : nat) : option RawLineRecord :=
  raw_record (bl_snapshot b) line.

Abbreviation BaselineCache := (gmap PathBuf Baseline) (only parsing).

(** [BaselineCache::load_once]: the first load of a path wins. *)
Definition load_once (c : BaselineCache) (p : PathBuf) (bs : bytes) :
    option (Baseline * BaselineCache) :=
  match c !! p with
  | Some b => Some (b, c)
  | None => b ← baseline_from_bytes bs; Some (b, <[p := b]> c)
  end.

Record RecoveryPlan := MkRecoveryPlan {
  old_span : LineSpan; expected_records : list RawLineRecord }.

Inductive VerificationOutcome :=
  | Exact
  | RecoveryRequired (plan : RecoveryPlan)
  | Rejected (r : HashlineRejection)
  | BlockNeedsResolution (anchor : nat).

(** A line whose record differs between snapshot and baseline. *)
Definition line_changed (s : Snapshot) (b : Baseline) (line : nat) : bool :=
  bool_decide (raw_record s line ≠ baseline_record b line).

Definition verify_exact (s : Snapshot) (b : Baseline) (a : ResolvedAddress) : VerificationOutcome :=
  match check_eligibility s a with
  | Err r => Rejected r
  | Ok _ =>
      match a with
      | WholeFile =>
          if bool_decide (total_lines s ≠ total_lines (bl_snapshot b)) ||
             bool_decide (records s ≠ records (bl_snapshot b))
          then Rejected (stale_verification
                 (msg "the whole-file source changed since the tagged read"))
          else Exact
      | BlockAnchor anchor | BlockGapAnchor _ anchor => BlockNeedsResolution anchor
      | Gap g =>
          match head (filter (λ line, line_changed s b line = true) (gap_lines g)) with
          | Some line => Rejected (stale_verification
                           (msg "required gap anchor line " ++ msg_nat line
                            ++ msg " changed since the tagged read"))
          | None => Exact
          end
      | Span span =>
          if existsb (line_changed s b) (span_lines span)
          then RecoveryRequired (MkRecoveryPlan span (omap (raw_record s) (span_lines span)))
          else Exact
      end
  end.

(** ** Sections of a patch *)

Definition resolve_snapshot (canonicalize : PathBuf → option PathBuf)
    (content_fingerprint : bytes → bytes) (st : SnapshotStore) (path : PathBuf) (t : str) :
    result HashlineRejection Snapshot * SnapshotStore :=
  match normalize_tag t with
  | Err r => (Err r, st)
  | Ok t =>
      let '(res, st) := lookup canonicalize content_fingerprint st path t in
      (map_err (λ e, match e with
         | UnknownSnapshotTag => resolution UnknownTag
             (msg "the tagged snapshot is not resident for this path")
         | EvictedSnapshotTag => resolution EvictedTag
             (msg "the tagged snapshot was evicted from this session")
         | AmbiguousSnapshotTag => resolution AmbiguousTag
             (msg "the four-hex tag collides across different normalized file content")
         end) res, st)
  end.

Record ResolvedOperation := MkResolvedOp { operation_index : nat; ro_address : ResolvedAddress }.
Record ResolvedPatchSection := MkResolvedSection {
  section_index : nat;
  rs_canonical_path : PathBuf;
  rs_snapshot : Snapshot;
  rs_operations : list ResolvedOperation }.

(** The address an operation resolves to: [REM] and [MV] address the whole file. *)
Definition resolve_operation (s : Snapshot) (op : Operation) : result HashlineRejection ResolvedAddress :=
  match op_address op with
  | Some a => resolve_address a s
  | None => Ok WholeFile
  end.

Fixpoint resolve_operations (s : Snapshot) (i : nat) (ops : list Operation) :
    result HashlineRejection (list ResolvedOperation) :=
  match ops with
  | [] => Ok []
  | op :: ops =>
      a ← resolve_operation s op;
      _ ← check_eligibility s a;
      rest ← resolve_operations s (S i) ops;
      Ok (MkResolvedOp i a :: rest)
  end.

Section Resolve.
Context {E : Type} (from_rejection : HashlineRejection → E).
Context (canonicalize_request : str → result E PathBuf).
Context (canonicalize : PathBuf → option PathBuf) (content_fingerprint : bytes → bytes).

Abbreviation Views := (gmap PathBuf Snapshot) (only parsing).

(** The check that sections of one path agree, and the updated view map. *)
Definition check_view (views : Views) (path : PathBuf) (s : Snapshot) : result HashlineRejection Views :=
  match views !! path with
  | Some existing =>
      if equivalent_snapshots existing s then Ok views
      else Err (resolution AmbiguousTag
             (msg "sections for one canonical path selected different retained verification evidence"))
  | None => Ok (<[path := s]> views)
  end.

(** One round of the section loop. *)
Definition resolve_section (st : SnapshotStore) (views : Views) (i : nat) (sec : PatchSection) :
    result E (ResolvedPatchSection * Views) * SnapshotStore :=
  match canonicalize_request (requested_path (header sec)) with
  | Err e => (Err e, st)
  | Ok path =>
      let '(found, st) :=
        resolve_snapshot canonicalize content_fingerprint st path (header_tag (header sec)) in
      (map_err from_rejection
         (s ← found;
          views ← check_view views path s;
          ops ← resolve_operations s 0 (operations sec);
          Ok (MkResolvedSection i path s ops, views)), st)
  end.

Fixpoint resolve_sections (st : SnapshotStore) (views : Views) (i : nat) (secs : list PatchSection) :
    result E (list ResolvedPatchSection) * SnapshotStore :=
  match secs with
  | [] => (Ok [], st)
  | sec :: secs =>
      match resolve_section st views i sec with
      | (Err e, st) => (Err e, st)
      | (Ok (r, views), st) =>
          let '(rest, st) := resolve_sections st views (S i) secs in
          ((λ rs, r :: rs) <$> rest, st)
      end
  end.

Definition resolve_patch_sections_with_error (st : SnapshotStore) (patch : list PatchSection) :
    result E (list ResolvedPatchSection) * SnapshotStore :=
  resolve_sections st ∅ 0 patch.

End Resolve.

(** [resolve_patch_sections]: the instance whose errors are rejections. *)
Definition resolve_patch_sections (canonicalize_request : str → result HashlineRejection PathBuf)
    (canonicalize : PathBuf → option PathBuf) (content_fingerprint : bytes → bytes)
    (st : SnapshotStore) (patch : list PatchSection) :
    result HashlineRejection (list ResolvedPatchSection) * SnapshotStore :=
  resolve_patch_sections_with_error id canonicalize_request canonicalize content_fingerprint st patch.

(** ** What resolution and eligibility guarantee *)

Lemma resolve_line_reference_bounds r total line :
  wf_ref r → resolve_line_reference r total = Ok line → 1 ≤ line ≤ total.
Proof.
  unfold resolve_line_reference. intros Hwf.
  destruct r as [n|n]; simpl in Hwf.
  - destruct (n <=? N.of_nat total)%N eqn:E; [|done]. intros [= <-]. breflect. lia.
  - destruct (n <? N.of_nat total)%N eqn:E; [|done]. intros [= <-]. breflect. lia.
Qed.

(** The lines of a snapshot that an address names are lines of the snapshot.  The one
    exception is the gap before line 1, whose predecessor is the non-existent row 0. *)
Definition in_bounds (total : nat) (a : ResolvedAddress) : Prop :=
  match a with
  | WholeFile => True
  | Span s => 1 ≤ span_start s ≤ span_end s ∧ span_end s ≤ total
  | Gap (MkGap None None) => total = 0
  | Gap (MkGap None (Some l)) => l = 1 ∧ 1 ≤ total
  | Gap (MkGap (Some l) None) => l = total
  | Gap (MkGap (Some l) (Some l')) => l' = S l ∧ l' ≤ total
  | BlockAnchor l | BlockGapAnchor _ l => 1 ≤ l ≤ total
  end.

Lemma after_gap_in_bounds total l :
  1 ≤ l ≤ total → in_bounds total (Gap (MkGap (Some l) (if l <? total then Some (l + 1) else None))).
Proof. intros Hl. destruct (l <? total) eqn:E; simpl; breflect; lia. Qed.

Lemma before_gap_in_bounds total l :
  1 ≤ l ≤ total → in_bounds total (Gap (MkGap (checked_pred l) (Some l))).
Proof. intros Hl. destruct l as [|l]; simpl; lia. Qed.

Lemma expand_block_in_bounds r span s r' :
  1 ≤ span_start span → expand_block r span s = Ok r' →
  in_bounds (total_lines s) r' ∧ (r' = Span span ∨ ∃ g, r' = Gap g).
Proof.
  intros Hs Hx. unfold expand_block in Hx.
  apply bind_Ok in Hx as ([side anchor] & _ & Hx).
  destruct (_ || _) eqn:E; [done|]. apply orb_false_iff in E as [E1 E2].
  apply negb_false_iff, existsb_elem_of in E1 as (x & Hx1 & _). breflect.
  apply elem_of_range_incl in Hx1. injection Hx as <-. destruct side as [[|]|].
  - split; [apply before_gap_in_bounds; lia|eauto].
  - split; [apply after_gap_in_bounds; lia|eauto].
  - split; [simpl; lia|by left].
Qed.

(** resolution stays inside the retained snapshot: whatever resolving a parsed
    address, or then expanding a block to a span, produces is a span or anchor of existing
    rows, or a gap between two adjacent rows (where the row before line 1 is row 0), after
    the last row, before the first row, or in an empty file. *)
Theorem resolve_address_in_bounds a s r :
  wf_address a → resolve_address a s = Ok r →
  in_bounds (total_lines s) r ∧
  ∀ span r', 1 ≤ span_start span → expand_block r span s = Ok r' →
    in_bounds (total_lines s) r' ∧ (r' = Span span ∨ ∃ g, r' = Gap g).
Proof.
  intros Hwf Hr. split; [|intros span r'; apply expand_block_in_bounds].
  destruct a as [|l|l1 l2|side l|l|side l]; simpl in Hwf, Hr.
  - injection Hr as <-. destruct (total_lines s) eqn:E; simpl; lia.
  - apply bind_Ok in Hr as (n & Hn & [= <-]). apply resolve_line_reference_bounds in Hn; [|done].
    simpl. lia.
  - apply bind_Ok in Hr as (n1 & H1 & (n2 & H2 & Hr)%bind_Ok). destruct Hwf as [Hw1 Hw2].
    apply resolve_line_reference_bounds in H1, H2; [|done..].
    unfold line_span_new in Hr. case_decide; [|done]. injection Hr as <-. simpl. lia.
  - apply bind_Ok in Hr as (n & Hn & [= <-]). apply resolve_line_reference_bounds in Hn; [|done].
    destruct side; [by apply before_gap_in_bounds|by apply after_gap_in_bounds].
  - apply bind_Ok in Hr as (n & Hn & [= <-]). by apply resolve_line_reference_bounds in Hn.
  - apply bind_Ok in Hr as (n & Hn & [= <-]). by apply resolve_line_reference_bounds in Hn.
Qed.

(** The evidence an address needs from its snapshot. *)
Definition authorized (s : Snapshot) (a : ResolvedAddress) : Prop :=
  match a with
  | WholeFile =>
      size (records s) = total_lines s ∧ ∀ l, 1 ≤ l ≤ total_lines s → is_seen s l = true
  | Span sp => ∀ l, span_start sp ≤ l ≤ span_end sp → is_seen s l = true
  | BlockAnchor l | BlockGapAnchor _ l => is_seen s l = true
  | Gap (MkGap None None) => empty_file (boundary s) = true
  | Gap g =>
      (∀ l, l ∈ gap_lines g → is_seen s l = true) ∧
      (gap_before g = None → bof_observed (boundary s) = true) ∧
      (gap_after g = None → eof_observed (boundary s) = true)
  end.

Lemma head_filter_None {A} (P : A → Prop) `{∀ x, Decision (P x)} l :
  head (filter P l) = None ↔ ∀ x, x ∈ l → ¬ P x.
Proof.
  split.
  - intros Hh x Hx HP. assert (x ∈ filter P l) as Hin by (by apply list_elem_of_filter).
    destruct (filter P l); [by apply not_elem_of_nil in Hin|done].
  - intros Hall. destruct (filter P l) as [|y ys] eqn:E; [done|].
    assert (y ∈ filter P l) as [HP Hy]%list_elem_of_filter by (rewrite E; by left).
    by apply Hall in Hy.
Qed.

Lemma first_unseen_None s lines :
  first_unseen s lines = None ↔ ∀ l, l ∈ lines → is_seen s l = true.
Proof.
  unfold first_unseen. rewrite head_filter_None. split; intros H l Hl; specialize (H l Hl);
    by destruct (is_seen s l).
Qed.

(** The verdict on one gap once its anchors are known to be seen. *)
Lemma eligibility_gap s g :
  gap_before g ≠ None ∨ gap_after g ≠ None →
  check_eligibility s (Gap g) = Ok tt ↔
  (∀ l, l ∈ gap_lines g → is_seen s l = true) ∧
  (gap_before g = None → bof_observed (boundary s) = true) ∧
  (gap_after g = None → eof_observed (boundary s) = true).
Proof.
  intros Hne. unfold check_eligibility.
  assert (bool_decide (gap_before g = None) && bool_decide (gap_after g = None) = false) as ->.
  { apply andb_false_iff. destruct Hne; [left|right]; by apply bool_decide_eq_false. }
  rewrite <-first_unseen_None. destruct (first_unseen s (gap_lines g)); [naive_solver|].
  do 2 case_bool_decide; destruct (bof_observed (boundary s)), (eof_observed (boundary s));
    simpl; naive_solver.
Qed.

Lemma check_eligibility_iff s a : check_eligibility s a = Ok tt ↔ authorized s a.
Proof.
  destruct a as [|sp|[b f]|l|side l].
  - simpl. destruct (_ || _) eqn:E.
    + split; [done|]. intros [H1 H2]. apply orb_true_iff in E as [E|E].
      * by apply bool_decide_eq_true in E.
      * apply existsb_elem_of in E as (x & Hx%elem_of_range_incl & Hs). by rewrite H2 in Hs.
    + apply orb_false_iff in E as [E1 E2]. apply bool_decide_eq_false, dec_stable in E1.
      rewrite existsb_false_elem_of in E2. split; [|done]. intros _. split; [done|].
      intros l Hl. apply negb_false_iff, E2. by apply elem_of_range_incl.
  - cbn [check_eligibility authorized]. setoid_rewrite <-elem_of_range_incl.
    change (range_incl (span_start sp) (span_end sp)) with (span_lines sp).
    rewrite <-first_unseen_None. by destruct (first_unseen s (span_lines sp)).
  - destruct b as [b|], f as [f|]; try (rewrite eligibility_gap by (simpl; naive_solver); done).
    simpl. by destruct (empty_file (boundary s)).
  - simpl. by destruct (is_seen s l).
  - simpl. by destruct (is_seen s l).
Qed.

(** the eligibility check is exact: it accepts precisely the addresses whose every
    row, gap anchor and file boundary was retained by the tagged read. *)
Theorem check_eligibility_exact s a : check_eligibility s a = Ok tt ↔ authorized s a.
Proof. apply check_eligibility_iff. Qed.

(** ** Exact verification *)

(** Rows an address reads or depends on. *)
Definition address_lines (total : nat) (a : ResolvedAddress) : list nat :=
  match a with
  | WholeFile => range_incl 1 total
  | Span sp => span_lines sp
  | Gap g => gap_lines g
  | BlockAnchor _ | BlockGapAnchor _ _ => []
  end.

Lemma rec_at_None recs n : length recs < n → rec_at recs n = None.
Proof. intros H. destruct n as [|i]; [done|]. simpl. apply lookup_ge_None. lia. Qed.

Lemma list_eq_rec_at recs recs' :
  length recs = length recs' → (∀ n, 1 ≤ n ≤ length recs → rec_at recs n = rec_at recs' n) →
  recs = recs'.
Proof.
  intros Hl H. apply list_eq. intros i. destruct (decide (i < length recs)) as [Hi|Hi].
  - apply (H (S i)). lia.
  - rewrite !lookup_ge_None_2; [done|lia..].
Qed.

Lemma baseline_of bs b :
  baseline_from_bytes bs = Some b → snapshot_of bs coverage_whole_file (bl_snapshot b).
Proof.
  unfold baseline_from_bytes, scan_bytes. intros (s & Hs & ->)%fmap_Some.
  destruct (scan_bytes_spec bs request_whole_file) as (s' & Hs' & Hof). simplify_eq. done.
Qed.

(** A retained row of a scan is the row of the file. *)
Lemma seen_record bs c s n :
  snapshot_of bs c s → is_seen s n = true →
  ∃ rec, raw_record s n = Some rec ∧ rec_at (raw_line_records bs) n = Some rec.
Proof.
  intros Hof Hs. unfold is_seen in Hs. apply bool_decide_eq_true in Hs.
  apply (so_seen _ _ _ Hof) in Hs as [rec Hrec]. exists rec. split; [done|].
  rewrite (so_records _ _ _ Hof) in Hrec. by destruct (retains c n).
Qed.

Lemma baseline_rec bs b n :
  baseline_from_bytes bs = Some b → baseline_record b n = rec_at (raw_line_records bs) n.
Proof.
  intros Hb%baseline_of. unfold baseline_record, raw_record. by rewrite (so_records _ _ _ Hb).
Qed.

(** C14: an operation reaches the file unrelocated only if the rows it depends on are
    the rows that were read: when verification of an address, resolved against a capture of
    [old], is [Exact] against the current bytes [new], every addressed row and gap anchor
    has the same content and terminator in [new] as in [old], and was shown to the caller;
    for a whole-file operation the current bytes are the read bytes. *)
Theorem verify_exact_sound old c s new b a :
  snapshot_of old c s → baseline_from_bytes new = Some b → verify_exact s b a = Exact →
  (∀ n, n ∈ address_lines (total_lines s) a →
     is_seen s n = true ∧
     ∃ rec, rec_at (raw_line_records old) n = Some rec ∧ rec_at (raw_line_records new) n = Some rec) ∧
  (a = WholeFile → new = old).
Proof.
  intros Hof Hb. unfold verify_exact.
  destruct (check_eligibility s a) as [[]|r] eqn:Hel; [|done]. apply check_eligibility_iff in Hel.
  assert (∀ n, is_seen s n = true → raw_record s n = baseline_record b n →
    is_seen s n = true ∧
    ∃ rec, rec_at (raw_line_records old) n = Some rec ∧ rec_at (raw_line_records new) n = Some rec) as Hrow.
  { intros n Hn Heq. split; [done|]. destruct (seen_record _ _ _ _ Hof Hn) as (rec & Hr & Hold).
    exists rec. split; [done|]. rewrite <-(baseline_rec new b n Hb). congruence. }
  destruct a as [|sp|g|l|side l]; try done.
  - destruct (_ || _) eqn:E; [done|]. intros _.
    apply orb_false_iff in E as [E1 E2]. apply bool_decide_eq_false, dec_stable in E1, E2.
    destruct Hel as [_ Hel].
    assert (∀ n, 1 ≤ n ≤ total_lines s → raw_record s n = baseline_record b n) as Heq
      by (intros n _; unfold baseline_record, raw_record; by rewrite E2).
    split; [intros n Hn%elem_of_range_incl; auto|]. intros _.
    rewrite <-(raw_line_records_concat new), <-(raw_line_records_concat old).
    assert (length (raw_line_records new) = length (raw_line_records old)) as Hlen.
    { rewrite <-(so_total _ _ _ Hof), <-(so_total _ _ _ (baseline_of _ _ Hb)). done. }
    do 2 f_equal. apply list_eq_rec_at; [done|]. intros n Hn.
    rewrite Hlen, <-(so_total _ _ _ Hof) in Hn.
    destruct (Hrow n (Hel n Hn) (Heq n Hn)) as (_ & rec & -> & ->). done.
  - destruct (existsb _ _) eqn:E; [done|]. intros _. split; [|done].
    rewrite existsb_false_elem_of in E. intros n Hn. apply Hrow.
    + apply elem_of_range_incl in Hn. by apply Hel.
    + apply E in Hn. unfold line_changed in Hn. by apply bool_decide_eq_false, dec_stable in Hn.
  - destruct (head _) eqn:E; [done|]. intros _. split; [|done].
    rewrite head_filter_None in E. intros n Hn. apply Hrow.
    + destruct g as [[gb|] [ga|]]; simpl in Hel; try (by apply Hel).
      by apply not_elem_of_nil in Hn.
    + specialize (E n Hn). apply not_true_is_false in E. unfold line_changed in E.
      by apply bool_decide_eq_false, dec_stable in E.
Qed.

Lemma range_incl_rec_at recs a b :
  1 ≤ a → b ≤ length recs → omap (rec_at recs) (range_incl a b) = take (S b - a) (drop (a - 1) recs).
Proof.
  intros Ha Hb. unfold range_incl. remember (S b - a) as k eqn:Hk.
  revert a Ha Hb Hk. induction k as [|k IH]; intros a Ha Hb Hk; [done|].
  destruct a as [|a]; [lia|]. simpl. rewrite Nat.sub_0_r.
  destruct (lookup_lt_is_Some_2 recs a) as [x Hx]; [lia|]. rewrite Hx.
  rewrite (drop_S _ _ _ Hx). simpl. f_equal. rewrite IH by lia. simpl. done.
Qed.

(** A stale span is handed to recovery with exactly the rows it was read with: the
    plan's records are the consecutive rows of the old file at the span, none missing, and
    at least one of them really differs in the current file. *)
Lemma recovery_plan_spec old c s new b sp plan :
  snapshot_of old c s → baseline_from_bytes new = Some b →
  in_bounds (total_lines s) (Span sp) →
  verify_exact s b (Span sp) = RecoveryRequired plan →
  old_span plan = sp ∧
  expected_records plan
  = take (S (span_end sp) - span_start sp) (drop (span_start sp - 1) (raw_line_records old)) ∧
  ∃ n, span_start sp ≤ n ≤ span_end sp ∧
    rec_at (raw_line_records old) n ≠ rec_at (raw_line_records new) n.
Proof.
  intros Hof Hb [[H1 H2] H3]. unfold verify_exact.
  destruct (check_eligibility s (Span sp)) as [[]|r] eqn:Hel; [|done].
  apply check_eligibility_iff in Hel. simpl in Hel.
  destruct (existsb _ _) eqn:E; [|done]. intros [= <-]. simpl.
  assert (∀ n, span_start sp ≤ n ≤ span_end sp → raw_record s n = rec_at (raw_line_records old) n) as Hr.
  { intros n Hn. destruct (seen_record _ _ _ _ Hof (Hel n Hn)) as (rec & -> & ->). done. }
  split_and!; [done| |].
  - rewrite <-range_incl_rec_at by (rewrite <-?(so_total _ _ _ Hof); done). unfold span_lines.
    apply list_omap_ext, Forall2_same_length_lookup. split; [done|].
    intros i x y Hx Hy. rewrite Hx in Hy. injection Hy as <-.
    apply Hr, elem_of_range_incl. by eapply list_elem_of_lookup_2.
  - apply existsb_elem_of in E as (n & Hn%elem_of_range_incl & Hd).
    unfold line_changed in Hd. apply bool_decide_eq_true in Hd. exists n. split; [done|].
    rewrite (Hr n Hn), (baseline_rec new b n Hb) in Hd. done.
Qed.

(** Row 0 is never retained by a scan. *)
Lemma row_zero_unseen bs c s : snapshot_of bs c s → is_seen s 0 = false.
Proof.
  intros Hof. destruct (is_seen s 0) eqn:E; [|done].
  by destruct (seen_record _ _ _ _ Hof E) as (rec & _ & ?).
Qed.

(** The gap before line 1, spelled [<1], resolves to the predecessor row 0, and the
    eligibility check refuses it for every capture; inserting before the first line is only
    possible with the [0] address. *)
Theorem gap_before_first_line_rejected bs c s r :
  snapshot_of bs c s → resolve_address (AddrGap GapBefore (Absolute 1)) s = Ok r →
  r = Gap (MkGap (Some 0) (Some 1)) ∧ ∃ e, check_eligibility s r = Err e ∧ code e = UnseenLine.
Proof.
  intros Hof Hr. simpl in Hr. apply bind_Ok in Hr as (n & Hn & [= <-]).
  unfold resolve_line_reference in Hn. destruct (1 <=? N.of_nat (total_lines s))%N; [|done].
  injection Hn as <-. split; [done|].
  assert (first_unseen s [0; 1] = Some 0) as Hu.
  { unfold first_unseen. by rewrite filter_cons_True by by eapply row_zero_unseen. }
  unfold check_eligibility. change (gap_lines _) with [0; 1]. rewrite Hu. eexists. split; reflexivity.
Qed.

(** ** Sections *)

Lemma resolve_operations_spec s i ops rops :
  resolve_operations s i ops = Ok rops →
  length rops = length ops ∧
  ∀ k op, ops !! k = Some op → ∃ a, rops !! k = Some (MkResolvedOp (i + k) a) ∧
    resolve_operation s op = Ok a ∧ authorized s a.
Proof.
  revert i rops; induction ops as [|op ops IH]; intros i rops; simpl.
  - intros [= <-]. done.
  - intros (a & Ha & ([] & Hc & (rest & Hrest & [= <-])%bind_Ok)%bind_Ok)%bind_Ok.
    apply IH in Hrest as [Hl Hk]. split; [simpl; lia|].
    intros [|k] op'; simpl.
    + intros [= <-]. exists a. rewrite Nat.add_0_r. split_and!; try done.
      by apply check_eligibility_iff.
    + intros Hop. destruct (Hk k op' Hop) as (a' & Ha' & ? & ?). exists a'.
      rewrite <-Nat.add_succ_comm. done.
Qed.

(** The evidence two views of a path must share. *)
Definition same_evidence (l r : Snapshot) : Prop :=
  records l = records r ∧ total_lines l = total_lines r ∧
  sc_seen_lines (snap_coverage l) = sc_seen_lines (snap_coverage r).

Lemma equivalent_snapshots_evidence l r : equivalent_snapshots l r = true → same_evidence l r.
Proof.
  unfold equivalent_snapshots. rewrite !andb_true_iff, !bool_decide_eq_true.
  intros (((((((H1 & _) & H2) & H3) & _) & _) & _) & _). done.
Qed.

#[export] Instance same_evidence_equiv : Equivalence same_evidence.
Proof.
  split.
  - done.
  - intros l r (? & ? & ?). by split_and!.
  - intros l m r (? & ? & ?) (? & ? & ?). split_and!; by etrans.
Qed.

Section ResolveSpec.
Context {E : Type} (from_rejection : HashlineRejection → E).
Context (canonicalize_request : str → result E PathBuf).
Context (canonicalize : PathBuf → option PathBuf) (content_fingerprint : bytes → bytes).

(** What one resolved section is. *)
Record section_resolved (i : nat) (sec : PatchSection) (r : ResolvedPatchSection) : Prop := {
  sr_index : section_index r = i;
  sr_path : canonicalize_request (requested_path (header sec)) = Ok (rs_canonical_path r);
  sr_tag : fold_tag (tag (rs_snapshot r)) = fold_tag (to_ascii_uppercase (header_tag (header sec)));
  sr_length : length (rs_operations r) = length (operations sec);
  sr_operations : ∀ k op, operations sec !! k = Some op →
    ∃ a, rs_operations r !! k = Some (MkResolvedOp k a) ∧
      resolve_operation (rs_snapshot r) op = Ok a ∧ authorized (rs_snapshot r) a }.

Lemma check_view_spec views path s views' :
  check_view views path s = Ok views' →
  views ⊆ views' ∧ (∀ e, views' !! path = Some e → same_evidence e s) ∧ is_Some (views' !! path).
Proof.
  unfold check_view. destruct (views !! path) as [e|] eqn:Hp.
  - destruct (equivalent_snapshots e s) eqn:He; [|done]. intros [= <-].
    apply equivalent_snapshots_evidence in He. split_and!; [done| |by eexists].
    intros e' He'. congruence.
  - intros [= <-]. split_and!.
    + by apply insert_subseteq.
    + intros e. rewrite lookup_insert_eq. by intros [= <-].
    + rewrite lookup_insert_eq. by eexists.
Qed.

Lemma resolve_section_spec st views i sec r views' st' :
  resolve_section from_rejection canonicalize_request canonicalize content_fingerprint
    st views i sec = (Ok (r, views'), st') →
  section_resolved i sec r ∧ views ⊆ views' ∧
  (∀ e, views' !! rs_canonical_path r = Some e → same_evidence e (rs_snapshot r)) ∧
  is_Some (views' !! rs_canonical_path r).
Proof.
  unfold resolve_section. destruct (canonicalize_request _) as [path|e] eqn:Hp; [|done].
  unfold resolve_snapshot. destruct (normalize_tag _) as [t|e] eqn:Ht; [|done].
  destruct (lookup _ _ st path t) as [[s|e] st1] eqn:Hl; [|done]. simpl.
  destruct (check_view views path s) as [vs|e] eqn:Hv; [|done].
  destruct (resolve_operations s 0 (operations sec)) as [ops|e] eqn:Ho; [|done].
  intros [= <- <- _]. simpl. apply check_view_spec in Hv as (? & ? & ?).
  apply resolve_operations_spec in Ho as [Hlen Hops].
  apply lookup_Ok_tag in Hl. apply normalize_tag_Ok in Ht as [_ ->].
  split_and!; done.
Qed.

Lemma resolve_sections_spec st views i secs rs st' :
  resolve_sections from_rejection canonicalize_request canonicalize content_fingerprint
    st views i secs = (Ok rs, st') →
  length rs = length secs ∧
  (∀ k sec, secs !! k = Some sec → ∃ r, rs !! k = Some r ∧ section_resolved (i + k) sec r) ∧
  (∀ k r e, rs !! k = Some r → views !! rs_canonical_path r = Some e →
     same_evidence e (rs_snapshot r)) ∧
  (∀ k l r1 r2, rs !! k = Some r1 → rs !! l = Some r2 →
     rs_canonical_path r1 = rs_canonical_path r2 → same_evidence (rs_snapshot r1) (rs_snapshot r2)).
Proof.
  revert st views i rs st'. induction secs as [|sec secs IH]; intros st views i rs st'; simpl.
  - intros [= <- _]. split_and!; done.
  - destruct (resolve_section _ _ _ _ st views i sec) as [[[r views']|e] st1] eqn:Hr; [|done].
    destruct (resolve_sections _ _ _ _ st1 views' (S i) secs) as [[rest|e] st2] eqn:Hrest; [|done].
    intros [= <- _]. apply resolve_section_spec in Hr as (Hsec & Hsub & Hev & [e0 He0]).
    apply IH in Hrest as (Hlen & Hall & Hviews & Hpair). specialize (Hev _ He0).
    assert (∀ l r2, rest !! l = Some r2 → rs_canonical_path r = rs_canonical_path r2 →
      same_evidence (rs_snapshot r) (rs_snapshot r2)) as Hhead.
    { intros l r2 Hl Heq. rewrite Heq in He0. specialize (Hviews _ _ _ Hl He0). by rewrite <-Hviews. }
    split_and!.
    + simpl. lia.
    + intros [|k] s; simpl; [intros [= <-]|intros Hk].
      * exists r. by rewrite Nat.add_0_r.
      * rewrite <-Nat.add_succ_comm. by apply Hall.
    + intros [|k] r' e; simpl; [intros [= <-]|intros Hk]; intros He.
      * apply (lookup_weaken _ _ _ _ He) in Hsub. rewrite He0 in Hsub. by injection Hsub as <-.
      * eapply Hviews; [done|]. by eapply lookup_weaken.
    + intros [|k] [|l] r1 r2; simpl; intros Hk Hl Heq; simplify_eq; [done| | |by eapply Hpair].
      * by eapply Hhead.
      * symmetry. by eapply Hhead.
Qed.

End ResolveSpec.

(** resolving a patch is all or nothing and consistent: when it succeeds, every
    section was resolved, in order, to the canonical path of its requested path and to a
    snapshot with its handle; every operation was resolved against that snapshot and is
    authorized by what the tagged read retained; and sections of one file rely on the same
    records, line count and seen rows. *)
Theorem resolve_patch_sections_sound creq canon fp st patch rs st' :
  resolve_patch_sections creq canon fp st patch = (Ok rs, st') →
  length rs = length patch ∧
  (∀ k sec, patch !! k = Some sec → ∃ r, rs !! k = Some r ∧ section_resolved creq k sec r) ∧
  (∀ k l r1 r2, rs !! k = Some r1 → rs !! l = Some r2 →
     rs_canonical_path r1 = rs_canonical_path r2 → same_evidence (rs_snapshot r1) (rs_snapshot r2)).
Proof.
  intros (Hlen & Hall & _ & Hpair)%resolve_sections_spec. split_and!; [done..|].
  intros k l r1 r2. apply Hpair.
Qed.

(** ** Concrete files *)

Definition sample_old : bytes := lit "one" ++ [LF] ++ lit "two" ++ [CR; LF] ++ lit "three".
Definition sample_new : bytes := lit "one" ++ [LF] ++ lit "TWO" ++ [CR; LF] ++ lit "three".

Lemma resolve_address_in_bounds_witness :
  ∃ s, scan_bytes sample_old = Some s ∧ in_bounds (total_lines s) (Span (MkSpan 2 3)).
Proof.
  destruct (scan_bytes sample_old) as [s|] eqn:Hs; [|vm_compute in Hs; discriminate Hs].
  exists s. split; [reflexivity|].
  apply (resolve_address_in_bounds (AddrRange (Absolute 2) (EofRelative 0)) s).
  - split; [split|]; vm_compute; congruence.
  - vm_compute in Hs. injection Hs as <-. vm_compute. reflexivity.
Defined.

Lemma verify_exact_sound_witness :
  ∃ s b, scan_bytes sample_old = Some s ∧ baseline_from_bytes sample_new = Some b ∧
    verify_exact s b (Span (MkSpan 3 3)) = Exact ∧
    rec_at (raw_line_records sample_new) 3 = rec_at (raw_line_records sample_old) 3.
Proof.
  destruct (scan_bytes_spec sample_old request_whole_file) as (s & Hs & Hof).
  destruct (baseline_from_bytes sample_new) as [b|] eqn:Hb; [|vm_compute in Hb; discriminate Hb].
  assert (verify_exact s b (Span (MkSpan 3 3)) = Exact) as Hv.
  { vm_compute in Hs. injection Hs as <-. vm_compute in Hb. injection Hb as <-.
    vm_compute. reflexivity. }
  exists s, b. split; [exact Hs|]. split; [reflexivity|]. split; [exact Hv|].
  destruct (verify_exact_sound sample_old _ s sample_new b (Span (MkSpan 3 3)) Hof Hb Hv) as [H _].
  destruct (H 3) as (_ & rec & H1 & H2); [by left|]. congruence.
Defined.

Lemma resolve_patch_sections_sound_witness :
  ∃ rs st', resolve_patch_sections (λ p, Ok sample_path) (λ _, None) id sample_store
      [MkSection (MkHeader (lit "lib.rs") (to_ascii_uppercase (tag (sample_capture sample_bytes (coverage_range 1 1)))))
         [OpPut (MkPut (AddrRange (Absolute 1) (Absolute 2)) (FromText [lit "x"]) 2)] 1] = (Ok rs, st') ∧
    length rs = 1.
Proof.
  destruct (resolve_patch_sections (λ p, Ok sample_path) (λ _, None) id sample_store
      [MkSection (MkHeader (lit "lib.rs") (to_ascii_uppercase (tag (sample_capture sample_bytes (coverage_range 1 1)))))
         [OpPut (MkPut (AddrRange (Absolute 1) (Absolute 2)) (FromText [lit "x"]) 2)] 1])
    as [[rs|e] st'] eqn:Hr.
  - exists rs, st'. split; [reflexivity|].
    exact (proj1 (resolve_patch_sections_sound _ _ _ _ _ _ _ Hr)).
  - exfalso. apply (f_equal (λ x, is_err x.1)) in Hr. vm_compute in Hr. discriminate Hr.
Defined.

End Address.
