(* ===== verification/Recovery.v ===== *)
(** * Verbatim remap recovery: [hashline/recovery/mod.rs]

    When the rows a span was read with are no longer at their place, recovery searches the
    current file for the same rows and moves the operation there if, and only if, they
    occur at exactly one place. *)

From S2P Require Import Prelude RustStr Scan SnapshotStore Rejection Syntax Address.
Import Scan Rejection Syntax Address.

Module Recovery.

Record RemapRecovery := MkRemap {
  rr_old_span : LineSpan; rr_new_span : LineSpan; rr_applied : bool; rr_backup_id : option str }.

(** [RemapRecovery::validate], [try_new] and [after_dynamic_backup_failure]. *)
Definition validate_remap (r : RemapRecovery) : result HashlineRejection unit :=
  match rr_applied r, rr_backup_id r with
  | true, None => Err (parse_error (msg "remap_recovery applied:true requires a real backup_id"))
  | false, Some _ => Err (parse_error (msg "remap_recovery applied:false forbids backup_id"))
  | _, _ => Ok tt
  end.

Definition remap_try_new (old new : LineSpan) (applied : bool) (backup_id : option str) :
    result HashlineRejection RemapRecovery :=
  let report := MkRemap old new applied backup_id in
  _ ← validate_remap report; Ok report.

Definition after_dynamic_backup_failure (r : RemapRecovery) : RemapRecovery :=
  MkRemap (rr_old_span r) (rr_new_span r) false None.

Inductive RecoveryIntent := Preview | ApplyIntent (backup_id : str) | KnownRollbackUnavailable.

Inductive LandingSearchResult :=
  | LandingUnique (s : LineSpan) | LandingNone | LandingAmbiguous (ss : list LineSpan).

Definition landings (r : LandingSearchResult) : list LineSpan :=
  match r with LandingUnique s => [s] | LandingNone => [] | LandingAmbiguous ss => ss end.

Record RemappedSpan := MkRemapped {
  rs_old_span : LineSpan; rs_new_span : LineSpan; rs_report : RemapRecovery;
  remapped_address : ResolvedAddress }.

Inductive RecoveryDecision := NotNeeded | Remapped (r : RemappedSpan).

(** [for (offset, expected_record) in expected.iter().enumerate()]. *)
Fixpoint records_match_at (b : Baseline) (start : nat) (expected : list RawLineRecord) : bool :=
  match expected with
  | [] => true
  | e :: expected =>
      match baseline_record b start with
      | Some actual => if decide (actual = e) then records_match_at b (S start) expected else false
      | None => false
      end
  end.

Definition find_verbatim_landings (b : Baseline) (expected : list RawLineRecord) :
    LandingSearchResult :=
  match expected with
  | [] => LandingNone
  | _ =>
      let total := total_lines (bl_snapshot b) in
      let width := length expected in
      if total <? width then LandingNone
      else
        let found :=
          omap (λ start,
            if records_match_at b start expected then line_span_new start (start + width - 1)
            else None)
            (range_incl 1 (total + 1 - width)) in
        match found with
        | [] => LandingNone
        | [s] => LandingUnique s
        | _ => LandingAmbiguous found
        end
  end.

Definition report_for_intent (old new : LineSpan) (intent : RecoveryIntent) :
    result HashlineRejection RemapRecovery :=
  match intent with
  | Preview | KnownRollbackUnavailable => remap_try_new old new false None
  | ApplyIntent backup_id =>
      match backup_id with
      | [] => Err (parse_error (msg "apply recovery requires a non-empty backup_id"))
      | _ => remap_try_new old new true (Some backup_id)
      end
  end.

Definition recover_addressed_span (plan : RecoveryPlan) (b : Baseline) (intent : RecoveryIntent) :
    result HashlineRejection RemappedSpan :=
  match find_verbatim_landings b (expected_records plan) with
  | LandingUnique new =>
      report ← report_for_intent (old_span plan) new intent;
      Ok (MkRemapped (old_span plan) new report (Span new))
  | LandingNone => Err (stale_recovery
      (msg "addressed content no longer occurs verbatim in the Phase-1 baseline"))
  | LandingAmbiguous found => Err (ambiguous_recovery
      (msg "addressed content has " ++ msg_nat (length found)
       ++ msg " verbatim landings in the Phase-1 baseline"))
  end.

Definition recover_from_verification (outcome : VerificationOutcome) (b : Baseline)
    (intent : RecoveryIntent) : result HashlineRejection RecoveryDecision :=
  match outcome with
  | Exact => Ok NotNeeded
  | RecoveryRequired plan => Remapped <$> recover_addressed_span plan b intent
  | Rejected r => Err r
  | BlockNeedsResolution anchor => Err (eligibility BoundaryIneligible
      (msg "block anchor " ++ msg_nat anchor ++ msg " was not expanded before recovery"))
  end.

Definition verify_and_recover (s : Snapshot) (b : Baseline) (a : ResolvedAddress)
    (intent : RecoveryIntent) : result HashlineRejection RecoveryDecision :=
  recover_from_verification (verify_exact s b a) b intent.

Definition remap_resolved_address (a : ResolvedAddress) (old new : LineSpan) :
    result HashlineRejection ResolvedAddress :=
  match a with
  | Span span =>
      if decide (span = old) then Ok (Span new)
      else Err (parse_error
             (msg "cannot remap span " ++ msg_nat (span_start span) ++ msg "-"
              ++ msg_nat (span_end span) ++ msg " using old_span " ++ msg_nat (span_start old)
              ++ msg "-" ++ msg_nat (span_end old)))
  | Gap _ | WholeFile | BlockAnchor _ | BlockGapAnchor _ _ => Err (stale_verification
      (msg "required-anchor and non-span addresses never enter verbatim remap recovery"))
  end.

Definition remap_resolved_operation (old new : LineSpan) (op : ResolvedOperation) :
    result HashlineRejection ResolvedOperation :=
  let address :=
    match ro_address op with
    | Span span => if decide (span = old) then Span new else Span span
    | other => other
    end in
  match ro_address op with
  | Gap _ | BlockGapAnchor _ _ | BlockAnchor _ => Err (stale_verification
      (msg "required-anchor and block addresses never enter verbatim remap recovery"))
  | _ => Ok (MkResolvedOp (operation_index op) address)
  end.

Definition remap_resolved_operations (ops : list ResolvedOperation) (old new : LineSpan) :
    result HashlineRejection (list ResolvedOperation) :=
  mapM (remap_resolved_operation old new) ops.

(** ** The search finds exactly the verbatim occurrences *)

(** The rows at lines [start ..] of a file are [expected]. *)
Definition occurs_at (recs : list RawLineRecord) (start : nat) (expected : list RawLineRecord) : Prop :=
  1 ≤ start ∧ take (length expected) (drop (start - 1) recs) = expected.

Lemma records_match_at_spec bs b start expected :
  baseline_from_bytes bs = Some b → 1 ≤ start →
  records_match_at b start expected = true ↔ occurs_at (raw_line_records bs) start expected.
Proof.
  intros Hb Hs. unfold occurs_at. set (recs := raw_line_records bs).
  assert (∀ n, baseline_record b n = rec_at recs n) as Hrec by (intros; by apply baseline_rec).
  revert start Hs. induction expected as [|e expected IH]; intros start Hs; simpl; [done|].
  rewrite Hrec. destruct start as [|k]; [lia|]. simpl. rewrite Nat.sub_0_r.
  destruct (recs !! k) as [x|] eqn:E.
  - rewrite (drop_S _ _ _ E). simpl. case_decide as Hx.
    + subst x. rewrite IH by lia. simpl. split; intros [_ Heq]; (split; [lia|]); [by f_equal|].
      by injection Heq.
    + split; [done|]. intros [_ [= -> _]]. done.
  - apply lookup_ge_None in E. rewrite drop_ge by lia. simpl. naive_solver.
Qed.

Lemma occurs_at_bound recs start expected :
  expected ≠ [] → occurs_at recs start expected → start - 1 + length expected ≤ length recs.
Proof.
  intros Hne [Hs Heq]. apply (f_equal length) in Heq. rewrite length_take, length_drop in Heq.
  assert (0 < length expected) by (destruct expected; simpl; [done|lia]). lia.
Qed.

(** Landings are the occurrences, in order. *)
Lemma landings_spec bs b expected sp :
  baseline_from_bytes bs = Some b → expected ≠ [] →
  sp ∈ landings (find_verbatim_landings b expected) ↔
  occurs_at (raw_line_records bs) (span_start sp) expected ∧
  span_end sp = span_start sp + length expected - 1.
Proof.
  intros Hb Hne. unfold find_verbatim_landings.
  rewrite (so_total _ _ _ (baseline_of _ _ Hb)). set (recs := raw_line_records bs).
  destruct expected as [|e es] eqn:He; [done|]. rewrite <-He in *.
  destruct (length recs <? length expected) eqn:Hw; rewrite ?Nat.ltb_lt, ?Nat.ltb_ge in Hw.
  { split; [by intros ?%not_elem_of_nil|]. intros [Ho _]. apply occurs_at_bound in Ho; [|done].
    lia. }
  set (found := omap _ _).
  assert (sp ∈ landings (match found with [] => LandingNone | [s] => LandingUnique s
    | _ => LandingAmbiguous found end) ↔ sp ∈ found) as ->.
  { destruct found as [|x [|y found]]; simpl; done. }
  unfold found. rewrite list_elem_of_omap. setoid_rewrite elem_of_range_incl.
  assert (1 ≤ length expected) by (rewrite He; simpl; lia).
  split.
  - intros (n & Hn & Hsp). destruct (records_match_at b n expected) eqn:Hm; [|done].
    apply (records_match_at_spec bs b n expected Hb) in Hm; [|lia].
    unfold line_span_new in Hsp. case_decide; [|done]. injection Hsp as <-. done.
  - intros [Ho Hend]. destruct sp as [a z]. simpl in *.
    pose proof (occurs_at_bound _ _ _ Hne Ho) as Hbound. destruct (Ho) as [Ha _]. exists a. split; [lia|].
    apply (records_match_at_spec bs b a expected Hb Ha) in Ho. rewrite Ho. unfold line_span_new.
    rewrite decide_True by lia. by subst z.
Qed.

Lemma landings_NoDup b expected : NoDup (landings (find_verbatim_landings b expected)).
Proof.
  unfold find_verbatim_landings. destruct expected as [|e es]; [constructor|].
  destruct (_ <? _); [constructor|]. set (found := omap _ _).
  assert (NoDup found) as Hnd.
  { unfold found, range_incl. generalize (S (total_lines (bl_snapshot b) + 1 - length (e :: es)) - 1) as n.
    set (f := λ start, if records_match_at b start (e :: es) then _ else _).
    assert (∀ k sp, f k = Some sp → span_start sp = k) as Hf.
    { intros k sp. unfold f, line_span_new. destruct (records_match_at _ _ _); [|done].
      case_decide; [|done]. by intros [= <-]. }
    assert (∀ n k, NoDup (omap f (seq k n))) as H; [|by intros]. intros n.
    induction n as [|n IH]; intros k; [constructor|]. simpl.
    destruct (f k) as [sp|] eqn:E; [|apply IH].
    constructor; [|apply IH]. intros (m & Hm & Hsp)%list_elem_of_omap.
    apply elem_of_seq in Hm. apply Hf in E, Hsp. lia. }
  destruct found as [|x [|y found]]; done.
Qed.

(** ** Recovery moves a span only to its one verbatim occurrence *)

(** C15: recovery never guesses: for a span whose rows changed since it was read, the
    operation is moved exactly when the rows it was read with occur, content and
    terminators, at one single place of the current file, and then to that place; with no
    occurrence it is refused as stale and with several as ambiguous, both at the recovery
    stage (an empty backup id refuses an apply). *)
Theorem verify_and_recover_span old c s new b sp intent plan :
  snapshot_of old c s → baseline_from_bytes new = Some b →
  in_bounds (total_lines s) (Span sp) →
  verify_exact s b (Span sp) = RecoveryRequired plan →
  let rows := take (S (span_end sp) - span_start sp) (drop (span_start sp - 1) (raw_line_records old)) in
  match verify_and_recover s b (Span sp) intent with
  | Ok NotNeeded => False
  | Ok (Remapped r) =>
      rs_old_span r = sp ∧ remapped_address r = Span (rs_new_span r) ∧
      span_end (rs_new_span r) - span_start (rs_new_span r) = span_end sp - span_start sp ∧
      (∀ start, occurs_at (raw_line_records new) start rows ↔ start = span_start (rs_new_span r)) ∧
      (rr_applied (rs_report r) = true ↔ ∃ id, rr_backup_id (rs_report r) = Some id ∧ id ≠ [])
  | Err e =>
      intent = ApplyIntent [] ∨
      stage e = StRecovery ∧
      (code e = StaleTag ∧ (∀ start, ¬ occurs_at (raw_line_records new) start rows) ∨
       code e = AmbiguousTag ∧ ∃ m n, m ≠ n ∧
         occurs_at (raw_line_records new) m rows ∧ occurs_at (raw_line_records new) n rows)
  end.
Proof.
  intros Hof Hb Hin Hv rows.
  destruct (recovery_plan_spec old c s new b sp plan Hof Hb Hin Hv) as (Hold & Hexp & _).
  fold rows in Hexp. destruct Hin as [[H1 H2] H3].
  assert (length rows = S (span_end sp) - span_start sp) as Hlen.
  { unfold rows. rewrite length_take, length_drop, <-(so_total _ _ _ Hof). lia. }
  assert (rows ≠ []) as Hne by (intros ->; simpl in Hlen; lia).
  pose proof (λ x, landings_spec new b rows x Hb Hne) as Hland.
  unfold verify_and_recover. rewrite Hv. simpl. unfold recover_addressed_span. rewrite Hexp, Hold.
  destruct (find_verbatim_landings b rows) as [x| |xs] eqn:Hf; simpl in Hland.
  - assert (occurs_at (raw_line_records new) (span_start x) rows ∧
      span_end x = span_start x + length rows - 1) as [Hx Hend] by (apply Hland; by left).
    assert (∀ start, occurs_at (raw_line_records new) start rows ↔ start = span_start x) as Hiff.
    { intros start. split; [|by intros ->]. intros Ho.
      assert (MkSpan start (start + length rows - 1) ∈ [x]) as Hin by (by apply Hland).
      by apply list_elem_of_singleton in Hin as <-. }
    unfold report_for_intent, remap_try_new.
    destruct intent as [|[|i id]|]; simpl; [..|by left|idtac|idtac];
      (split_and!; [done|done|lia|done|naive_solver]).
  - right. split; [done|]. left. split; [done|]. intros start Ho.
    assert (MkSpan start (start + length rows - 1) ∈ []) as Hin by (by apply Hland).
    by apply not_elem_of_nil in Hin.
  - right. split; [done|]. right. split; [done|].
    pose proof (landings_NoDup b rows) as Hnd. rewrite Hf in Hnd. simpl in Hnd.
    assert (∃ x y zs, xs = x :: y :: zs) as (x & y & zs & ->).
    { revert Hf. unfold find_verbatim_landings. destruct rows as [|r rs]; [done|].
      destruct (_ <? _); [done|]. destruct (omap _ _) as [|x [|y zs]]; try done. intros [= <-]. eauto. }
    destruct (proj1 (Hland x)) as [Hx1 Hx2]; [by left|].
    destruct (proj1 (Hland y)) as [Hy1 Hy2]; [right; by left|].
    exists (span_start x), (span_start y). split_and!; [|done|done]. intros Heq.
    apply NoDup_cons in Hnd as [Hn _]. apply Hn.
    assert (x = y) as ->; [|by left]. destruct x as [x1 x2], y as [y1 y2]; simpl in *. congruence.
Qed.

Lemma verify_and_recover_span_witness :
  ∃ s b r, scan_bytes (lit "a" ++ [LF] ++ lit "b" ++ [LF]) = Some s ∧
    baseline_from_bytes (lit "new" ++ [LF] ++ lit "a" ++ [LF] ++ lit "b" ++ [LF]) = Some b ∧
    verify_and_recover s b (Span (MkSpan 2 2)) Preview = Ok (Remapped r) ∧
    span_end (rs_new_span r) - span_start (rs_new_span r) = 0.
Proof.
  set (old := lit "a" ++ [LF] ++ lit "b" ++ [LF]). set (new := lit "new" ++ [LF] ++ old).
  destruct (scan_bytes_spec old request_whole_file) as (s & Hs & Hof).
  destruct (baseline_from_bytes new) as [b|] eqn:Hb; [|vm_compute in Hb; discriminate Hb].
  assert (∃ plan, verify_exact s b (Span (MkSpan 2 2)) = RecoveryRequired plan) as [plan Hv].
  { vm_compute in Hs. injection Hs as <-. vm_compute in Hb. injection Hb as <-.
    eexists. vm_compute. reflexivity. }
  assert (in_bounds (total_lines s) (Span (MkSpan 2 2))) as Hin.
  { vm_compute in Hs. injection Hs as <-. vm_compute. lia. }
  pose proof (verify_and_recover_span old _ s new b (MkSpan 2 2) Preview plan Hof Hb Hin Hv) as H.
  destruct (verify_and_recover s b (Span (MkSpan 2 2)) Preview) as [[|r]|e] eqn:Hr.
  - destruct H.
  - destruct H as (_ & _ & H & _). exists s, b, r. split; [exact Hs|]. split; [reflexivity|]. split; [exact Hr|exact H].
  - exfalso. vm_compute in Hs. injection Hs as <-. vm_compute in Hb. injection Hb as <-.
    vm_compute in Hr. discriminate Hr.
Defined.

(** only a drifted span is ever relocated: gaps, whole-file and block addresses are
    accepted unchanged or refused, never moved. *)
Theorem only_spans_relocate s b a intent r :
  verify_and_recover s b a intent = Ok (Remapped r) →
  ∃ sp, a = Span sp ∧ rs_old_span r = sp ∧
    ∀ new, remap_resolved_address a (rs_old_span r) new = Ok (Span new).
Proof.
  unfold verify_and_recover, verify_exact. destruct (check_eligibility s a); [|done].
  destruct a as [|sp|g|l|side l]; simpl; try done.
  - destruct (_ || _); done.
  - destruct (existsb _ _); [|done]. simpl. intros (r' & Hr & [= ->])%fmap_Ok.
    unfold recover_addressed_span in Hr. destruct (find_verbatim_landings _ _); [|done..].
    apply bind_Ok in Hr as (report & _ & [= <-]). simpl. exists sp. split_and!; [done..|].
    intros new. by rewrite decide_True.
  - destruct (head _); done.
Qed.

Lemma only_spans_relocate_witness :
  ∃ s b r sp, verify_and_recover s b (Span (MkSpan 2 2)) Preview = Ok (Remapped r) ∧
    Span (MkSpan 2 2) = Span sp ∧ rs_old_span r = sp.
Proof.
  destruct (scan_bytes (lit "a" ++ [LF] ++ lit "b" ++ [LF])) as [s|] eqn:Hs;
    [|vm_compute in Hs; discriminate Hs].
  destruct (baseline_from_bytes (lit "n" ++ [LF] ++ lit "a" ++ [LF] ++ lit "b" ++ [LF])) as [b|] eqn:Hb;
    [|vm_compute in Hb; discriminate Hb].
  destruct (verify_and_recover s b (Span (MkSpan 2 2)) Preview) as [[|r]|e] eqn:Hr.
  2:{ destruct (only_spans_relocate s b (Span (MkSpan 2 2)) Preview r Hr) as (sp & H1 & H2 & _).
      exists s, b, r, sp. split; [exact Hr|]. split; [exact H1|exact H2]. }
  all: exfalso; vm_compute in Hs; injection Hs as <-; vm_compute in Hb; injection Hb as <-;
    vm_compute in Hr; discriminate Hr.
Defined.

End Recovery.
