(* ===== verification/Registers.v ===== *)
(** * Clipboard registers: [hashline/apply/registers.rs]

    Bounded named registers plus the anonymous one, request-local staging, and commit. *)

From S2P Require Import Prelude RustStr Rejection Syntax.
Import Rejection Syntax.

Module Registers.

Definition MAX_NAMED_REGISTERS : nat := 64.
Definition MAX_REGISTER_BYTES : N := 8 * 1024 * 1024.
Definition MAX_REGISTER_TOTAL_BYTES : N := 32 * 1024 * 1024.

Abbreviation RegisterLines := (list str) (only parsing).

Record RegisterStore := MkRegisters {
  named : gmap str RegisterLines; anonymous : option RegisterLines }.
#[export] Instance RegisterStore_eq_dec : EqDecision RegisterStore.
Proof. solve_decision. Defined.

Definition registers_new : RegisterStore := MkRegisters ∅ None.

Definition named_count (r : RegisterStore) : nat := size (named r).

(** [RegisterStore::get]. *)
Definition get_register (s : RegisterStore) (r : RegisterRef) : option RegisterLines :=
  match r with Anonymous => anonymous s | Named name => named s !! name end.

Definition register_payload_bytes (lines : RegisterLines) : N :=
  match lines with
  | [] => 0%N
  | _ => (foldr (λ line n, str_len line + n) 0 lines + N.of_nat (length lines - 1))%N
  end.

(** [RegisterStore::total_bytes]. *)
Definition named_bytes (m : gmap str RegisterLines) : N :=
  map_fold (λ _ lines n, (register_payload_bytes lines + n)%N) 0%N m.
Definition total_bytes (s : RegisterStore) : N :=
  (named_bytes (named s) + default 0 (register_payload_bytes <$> anonymous s))%N.

Record RegisterWrite := MkWrite { rw_register : RegisterRef; rw_lines : RegisterLines }.

Record StagedRegisters := MkStaged {
  base : RegisterStore; working : RegisterStore; writes : list RegisterWrite }.

(** [RegisterStore::stage], [commit], [discard] and [clear]. *)
Definition stage (s : RegisterStore) : StagedRegisters := MkStaged s s [].
Definition commit (session : RegisterStore) (staged : StagedRegisters) : RegisterStore :=
  working staged.
Definition clear_registers (session : RegisterStore) : RegisterStore := MkRegisters ∅ None.

(** The subtraction cannot underflow: see [previous_le_total]. *)
Definition check_register_bounds (s : RegisterStore) (r : RegisterRef) (lines : RegisterLines) :
    result HashlineRejection unit :=
  let incoming := register_payload_bytes lines in
  if (MAX_REGISTER_BYTES <? incoming)%N
  then Err (register_overflow (msg "a single register capture exceeds MAX_REGISTER_BYTES"))
  else
    let previous := default 0%N (register_payload_bytes <$> get_register s r) in
    let total := (total_bytes s - previous + incoming)%N in
    if (MAX_REGISTER_TOTAL_BYTES <? total)%N
    then Err (register_overflow (msg "register captures would exceed MAX_REGISTER_TOTAL_BYTES"))
    else match r with
    | Named name =>
        if bool_decide (named s !! name = None) && (MAX_NAMED_REGISTERS <=? size (named s))
        then Err (register_overflow (msg "named register count would exceed MAX_NAMED_REGISTERS"))
        else Ok tt
    | Anonymous => Ok tt
    end.

(** [StagedRegisters::capture]. *)
Definition capture (staged : StagedRegisters) (r : RegisterRef) (lines : RegisterLines) :
    result HashlineRejection StagedRegisters :=
  let w := working staged in
  _ ← check_register_bounds w r lines;
  w ← match r with
      | Anonymous => Ok (MkRegisters (named w) (Some lines))
      | Named name =>
          if bool_decide (named w !! name = None) && (MAX_NAMED_REGISTERS <=? size (named w))
          then Err (register_overflow (msg "named register count would exceed MAX_NAMED_REGISTERS"))
          else Ok (MkRegisters (<[name := lines]> (named w)) (anonymous w))
      end;
  Ok (MkStaged (base staged) w (writes staged ++ [MkWrite r lines])).

(** [StagedRegisters::read_for_put]. *)
Definition read_for_put (staged : StagedRegisters) (r : RegisterRef) (target_is_span : bool) :
    result HashlineRejection RegisterLines :=
  match get_register (working staged) r with
  | Some lines =>
      if negb (bool_decide (lines = [])) || negb target_is_span then Ok lines
      else Err (rejection_new ParseError StRegister
             (msg "register paste over a span requires a non-empty capture"))
  | None =>
      match r with
      | Named _ =>
          if target_is_span
          then Err (rejection_new ParseError StRegister
                 (msg "register is empty or unknown for this PUT"))
          else Ok []
      | Anonymous => Err (rejection_new ParseError StRegister
                       (msg "register is empty or unknown for this PUT"))
      end
  end.

(** ** Bounds *)

Record registers_ok (s : RegisterStore) : Prop := {
  ro_count : size (named s) ≤ MAX_NAMED_REGISTERS;
  ro_each : ∀ r lines, get_register s r = Some lines →
    (register_payload_bytes lines ≤ MAX_REGISTER_BYTES)%N;
  ro_total : (total_bytes s ≤ MAX_REGISTER_TOTAL_BYTES)%N }.

Lemma named_bytes_delete m name lines :
  m !! name = Some lines →
  named_bytes m = (register_payload_bytes lines + named_bytes (delete name m))%N.
Proof.
  intros Hn. unfold named_bytes. rewrite (map_fold_delete_L _ _ name lines m); [done| |done].
  intros. lia.
Qed.

Lemma named_bytes_insert m name lines :
  named_bytes (<[name := lines]> m)
  = (register_payload_bytes lines + named_bytes (delete name m))%N.
Proof.
  rewrite (named_bytes_delete _ name lines) by apply lookup_insert_eq. by rewrite delete_insert_eq.
Qed.

(** A register's payload is part of the total. *)
Lemma previous_le_total s r lines :
  get_register s r = Some lines → (register_payload_bytes lines ≤ total_bytes s)%N.
Proof.
  unfold total_bytes. destruct r as [|name]; simpl.
  - intros ->. simpl. lia.
  - intros Hn. rewrite (named_bytes_delete _ _ _ Hn). lia.
Qed.

(** The staged store after a capture. *)
Definition write_register (s : RegisterStore) (r : RegisterRef) (lines : RegisterLines) :
    RegisterStore :=
  match r with
  | Anonymous => MkRegisters (named s) (Some lines)
  | Named name => MkRegisters (<[name := lines]> (named s)) (anonymous s)
  end.

Lemma get_write_register s r lines r' :
  get_register (write_register s r lines) r'
  = if decide (r' = r) then Some lines else get_register s r'.
Proof.
  destruct (decide (r' = r)) as [->|Hne].
  - destruct r; simpl; [done|apply lookup_insert_eq].
  - destruct r as [|n], r' as [|n']; simpl; try done. apply lookup_insert_ne. congruence.
Qed.

Lemma total_write_register s r lines :
  total_bytes (write_register s r lines)
  = (total_bytes s - default 0 (register_payload_bytes <$> get_register s r)
     + register_payload_bytes lines)%N.
Proof.
  unfold total_bytes. destruct r as [|n]; simpl.
  - destruct (anonymous s); simpl; lia.
  - rewrite named_bytes_insert. destruct (named s !! n) as [old|] eqn:Hn; simpl.
    + rewrite (named_bytes_delete _ _ _ Hn). lia.
    + rewrite delete_id by done. lia.
Qed.

(** captures respect every register bound and nothing else changes: a capture
    succeeds exactly when the payload is at most 8 MiB, the session would hold at most
    32 MiB in total, and a new name still fits in 64; it then sets just that register and
    logs the write; afterwards all bounds hold again.  A refused capture is a register
    overflow. *)
Theorem capture_bounds staged r lines :
  registers_ok (working staged) →
  match capture staged r lines with
  | Ok staged' =>
      registers_ok (working staged') ∧ base staged' = base staged ∧
      writes staged' = writes staged ++ [MkWrite r lines] ∧
      ∀ r', get_register (working staged') r'
            = if decide (r' = r) then Some lines else get_register (working staged) r'
  | Err e =>
      code e = RegisterOverflow ∧ stage_as_str (Rejection.stage e) = lit "register" ∧
      ((MAX_REGISTER_BYTES < register_payload_bytes lines)%N ∨
       (MAX_REGISTER_TOTAL_BYTES < total_bytes (write_register (working staged) r lines))%N ∨
       size (named (working staged)) = MAX_NAMED_REGISTERS ∧ get_register (working staged) r = None)
  end.
Proof.
  intros [Hc He Ht]. unfold capture, check_register_bounds. set (w := working staged) in *.
  rewrite <-(total_write_register w r lines).
  destruct (MAX_REGISTER_BYTES <? register_payload_bytes lines)%N eqn:E1; breflect; [simpl; auto|].
  destruct (MAX_REGISTER_TOTAL_BYTES <? _)%N eqn:E2; breflect; [simpl; auto|].
  assert (∀ w', w' = write_register w r lines → size (named w') ≤ MAX_NAMED_REGISTERS →
    registers_ok w' ∧ ∀ r', get_register w' r' = if decide (r' = r) then Some lines else get_register w r')
    as Hok.
  { intros w' -> Hsz. split; [|intros; apply get_write_register]. split; [done| |done].
    intros r' l. rewrite get_write_register. case_decide; [intros [= <-]; done|apply He]. }
  destruct r as [|n].
  - destruct (Hok (write_register w Anonymous lines)) as [? ?]; [done..|]. simpl. auto.
  - destruct (bool_decide (named w !! n = None) && _) eqn:E3; simpl.
    + apply andb_true_iff in E3 as [E3 E4]. apply bool_decide_eq_true in E3. breflect.
      split_and!; try done. right; right. split; [lia|done].
    + destruct (Hok (write_register w (Named n) lines)) as [? ?]; [done| |auto].
      apply andb_false_iff in E3 as [E3|E3]; simpl.
      * apply bool_decide_eq_false in E3. destruct (named w !! n) eqn:Hn; [|done].
        by rewrite map_size_insert_Some by eauto.
      * breflect. pose proof (map_size_insert n lines (named w)) as Hs.
        destruct (named w !! n); simpl in Hs; lia.
Qed.

Lemma capture_bounds_witness :
  match capture (stage registers_new) (Named (lit "a")) [lit "x"; lit "y"] with
  | Ok st => get_register (working st) (Named (lit "a")) = Some [lit "x"; lit "y"]
  | Err _ => False
  end.
Proof.
  assert (registers_ok (working (stage registers_new))) as Hok.
  { split; simpl; [by_compute| |by_compute]. intros [|n] l; simpl; [done|by rewrite lookup_empty]. }
  pose proof (capture_bounds (stage registers_new) (Named (lit "a")) [lit "x"; lit "y"] Hok) as H.
  destruct (capture (stage registers_new) (Named (lit "a")) [lit "x"; lit "y"]) as [st|e] eqn:E.
  - destruct H as (_ & _ & _ & H). rewrite H. reflexivity.
  - vm_compute in E. discriminate E.
Defined.

(** The anonymous register is not request-local: a capture into it, once committed, is
    what the next request's first anonymous [PUT] pastes. *)
Theorem anonymous_register_survives_commit session lines staged :
  lines ≠ [] → capture (stage session) Anonymous lines = Ok staged →
  ∀ span, read_for_put (stage (commit session staged)) Anonymous span = Ok lines.
Proof.
  intros Hne Hc span. unfold capture in Hc. apply bind_Ok in Hc as ([] & _ & [= <-]).
  unfold read_for_put. simpl. by rewrite bool_decide_false.
Qed.

(** pasting a register never silently deletes: a [PUT] over a span either pastes a
    non-empty capture or is refused; a gap paste of an unknown named register inserts
    nothing, and only the anonymous register must exist. *)
Theorem read_for_put_total staged r span :
  match read_for_put staged r span with
  | Ok lines =>
      (span = true → lines ≠ []) ∧
      (get_register (working staged) r = Some lines ∨
       span = false ∧ lines = [] ∧ get_register (working staged) r = None ∧ r ≠ Anonymous)
  | Err e => code e = ParseError ∧
      (span = true ∧ default [] (get_register (working staged) r) = [] ∨
       r = Anonymous ∧ anonymous (working staged) = None)
  end.
Proof.
  unfold read_for_put. destruct (get_register (working staged) r) as [lines|] eqn:E.
  - destruct span; case_bool_decide; simpl; naive_solver.
  - destruct r as [|n]; [simpl in *; naive_solver|]. destruct span; simpl; naive_solver.
Qed.

End Registers.
