(* ===== verification/Region.v ===== *)
(** * Affected regions: [hashline/apply/region.rs] and the range half of
    [hashline/snapshot/mod.rs]

    Which rows of the output an edit response carries.  Line numbers are counts of lines
    held in memory, so the saturating additions of the source never saturate and are plain
    additions here. *)

From S2P Require Import Prelude RustStr Scan.
Import Scan.

Module Region.

Record LineRange := MkRange { range_start : nat; range_end : nat }.
#[export] Instance LineRange_eq_dec : EqDecision LineRange.
Proof. solve_decision. Defined.

(** [LineRange::is_empty] and [LineRange::contains]. *)
Definition range_is_empty (r : LineRange) : bool :=
  bool_decide (range_start r = 0) || (range_end r <? range_start r).
Definition range_contains (r : LineRange) (line : nat) : bool :=
  negb (range_is_empty r) && (range_start r <=? line) && (line <=? range_end r).

(** The sort key [(start, end)]. *)
Definition range_le (a b : LineRange) : Prop :=
  range_start a < range_start b ∨ range_start a = range_start b ∧ range_end a ≤ range_end b.
#[export] Instance range_le_dec : RelDecision range_le.
Proof. intros a b. unfold range_le. apply _. Defined.
#[export] Instance range_le_total : Total range_le.
Proof. intros a b. unfold range_le. lia. Qed.
#[export] Instance range_le_trans : Transitive range_le.
Proof. intros a b c. unfold range_le. lia. Qed.

(** One round of the merge loop: extend the last range or push. *)
Definition merge_range (acc : list LineRange) (r : LineRange) : list LineRange :=
  match last acc with
  | Some l =>
      if range_start r <=? range_end l + 1
      then removelast acc ++ [MkRange (range_start l) (Nat.max (range_end l) (range_end r))]
      else acc ++ [r]
  | None => acc ++ [r]
  end.

Definition coalesce_ranges (ranges : list LineRange) : list LineRange :=
  foldl merge_range []
    (merge_sort range_le (filter (λ r, range_is_empty r = false) ranges)).

Record AffectedRegion := MkRegion { ranges : list LineRange }.

(** [AffectedRegion::new], [from_range], [insertion] and [deletion]. *)
Definition region_new (rs : list LineRange) : AffectedRegion := MkRegion (coalesce_ranges rs).
Definition region_empty : AffectedRegion := MkRegion [].
Definition from_range (start stop : nat) : AffectedRegion := region_new [MkRange start stop].
Definition insertion (start inserted_lines : nat) : AffectedRegion :=
  if decide (inserted_lines = 0) then region_empty
  else from_range start (start + inserted_lines - 1).
Definition deletion (start stop : nat) : AffectedRegion := from_range start stop.

Inductive RegionDelta := OutputSpan (start count : nat) | Deletion (at_line : nat).

Definition delta_range (d : RegionDelta) : option LineRange :=
  match d with
  | OutputSpan start count =>
      if (0 <? count) && (0 <? start) then Some (MkRange start (start + count - 1)) else None
  | Deletion at_line => if 0 <? at_line then Some (MkRange at_line at_line) else None
  end.

Definition build_affected_region (deltas : list RegionDelta) : AffectedRegion :=
  region_new (omap delta_range deltas).

(** The length of the longest common prefix: the [while] loop over equal rows. *)
Fixpoint common_prefix (a b : list str) : nat :=
  match a, b with
  | x :: a, y :: b => if decide (x = y) then S (common_prefix a b) else 0
  | _, _ => 0
  end.

(** The suffix loop runs from the ends and stops at the common prefix. *)
Definition common_suffix (prefix : nat) (a b : list str) : nat :=
  common_prefix (reverse (drop prefix a)) (reverse (drop prefix b)).

Definition affected_from_line_diff (before after : list str) : AffectedRegion :=
  match before, after with
  | [], [] => region_empty
  | [], _ => insertion 1 (length after)
  | _, [] => region_empty
  | _, _ =>
      let prefix := common_prefix before after in
      let suffix := common_suffix prefix before after in
      let after_mid := length after - (prefix + suffix) in
      if decide (after_mid = 0) then
        let at_line := if prefix <? length after then prefix + 1 else Nat.max (length after) 1 in
        build_affected_region [Deletion at_line]
      else insertion (prefix + 1) after_mid
  end.

(** One range of the publisher's expansion: its rows and the nearest neighbours. *)
Definition expand_range (total : nat) (r : LineRange) : list nat :=
  let start := Nat.max (range_start r) 1 in
  let stop := Nat.min (range_end r) total in
  range_incl start stop
  ++ (if 1 <? start then [start - 1] else [])
  ++ (if stop <? total then [stop + 1] else []).

Definition affected_output_lines (s : Snapshot) (affected : AffectedRegion) : gset nat :=
  if decide (total_lines s = 0) then ∅
  else filter (λ line, is_Some (records s !! line))
         (list_to_set (coalesce_ranges (ranges affected) ≫= expand_range (total_lines s))).

(** ** Coalescing *)

Definition covers (rs : list LineRange) (line : nat) : Prop :=
  ∃ r, r ∈ rs ∧ 1 ≤ range_start r ∧ range_start r ≤ line ≤ range_end r.

(** Ranges in order with at least one row between neighbours. *)
Fixpoint separated (rs : list LineRange) : Prop :=
  match rs with
  | [] => True
  | r :: rs =>
      1 ≤ range_start r ≤ range_end r ∧
      match rs with [] => True | r' :: _ => range_end r + 1 < range_start r' end ∧ separated rs
  end.

Lemma range_is_empty_false r : range_is_empty r = false ↔ 1 ≤ range_start r ≤ range_end r.
Proof.
  unfold range_is_empty. rewrite orb_false_iff, bool_decide_eq_false, Nat.ltb_ge. lia.
Qed.

Lemma separated_snoc rs r :
  separated (rs ++ [r]) ↔
  separated rs ∧ 1 ≤ range_start r ≤ range_end r ∧
  (∀ l, last rs = Some l → range_end l + 1 < range_start r).
Proof.
  induction rs as [|a rs IH]; simpl.
  - split; [intros (? & ? & ?)|intros (? & ? & ?)]; split_and!; try done; lia.
  - destruct rs as [|b rs]; simpl in *.
    + split.
      * intros ((? & ?) & ? & ((? & ?) & _ & _)). split_and!; try done; try lia. by intros l [= <-].
      * intros ((? & _ & _) & ? & Hl). split_and!; try done; try lia. by apply Hl.
    + rewrite IH. tauto.
Qed.

Lemma covers_app a b line : covers (a ++ b) line ↔ covers a line ∨ covers b line.
Proof. unfold covers. setoid_rewrite elem_of_app. naive_solver. Qed.

Lemma covers_one r line :
  covers [r] line ↔ 1 ≤ range_start r ∧ range_start r ≤ line ≤ range_end r.
Proof.
  unfold covers. setoid_rewrite list_elem_of_singleton. split; [by intros (? & -> & ?)|].
  intros ?. exists r. done.
Qed.

Lemma covers_nil line : ¬ covers [] line.
Proof. intros (r & Hr & _). by apply not_elem_of_nil in Hr. Qed.

(** One round keeps the ranges separated and adds the rows of the new range. *)
Lemma merge_range_spec acc r :
  separated acc → 1 ≤ range_start r ≤ range_end r →
  (∀ l, last acc = Some l → range_start l ≤ range_start r) →
  separated (merge_range acc r) ∧
  (∀ l, last (merge_range acc r) = Some l → range_start l ≤ range_start r) ∧
  ∀ line, covers (merge_range acc r) line ↔ covers acc line ∨ covers [r] line.
Proof.
  intros Hacc Hr Hlast. unfold merge_range. destruct (last acc) as [l|] eqn:Hl.
  - specialize (Hlast l eq_refl). apply last_Some in Hl as [pre ->].
    apply separated_snoc in Hacc as (Hpre & Hlne & Hgap).
    destruct (range_start r <=? range_end l + 1) eqn:E; breflect.
    + rewrite removelast_last. split_and!.
      * apply separated_snoc. simpl. split_and!; try done; lia.
      * intros l'. rewrite last_snoc. by intros [= <-].
      * intros line. rewrite !covers_app, !covers_one. simpl.
        assert (range_start l ≤ line ≤ range_end l `max` range_end r ↔
          range_start l ≤ line ≤ range_end l ∨ range_start r ≤ line ≤ range_end r) as Hm by lia.
        rewrite Hm. clear -Hlne Hr. naive_solver lia.
    + split_and!.
      * apply separated_snoc. rewrite separated_snoc. split_and!; try done; try lia.
        intros l'. rewrite last_snoc. intros [= <-]. lia.
      * intros l'. rewrite last_snoc. intros [= <-]. done.
      * intros line. apply covers_app.
  - apply last_None in Hl as ->. simpl. split_and!; try done; try lia.
    + by intros l [= <-].
    + intros line. pose proof (covers_nil line). tauto.
Qed.

Lemma foldl_merge_range acc todo :
  separated acc → Forall (λ r, range_is_empty r = false) todo → StronglySorted range_le todo →
  (∀ l r, last acc = Some l → r ∈ todo → range_start l ≤ range_start r) →
  separated (foldl merge_range acc todo) ∧
  ∀ line, covers (foldl merge_range acc todo) line ↔ covers acc line ∨ covers todo line.
Proof.
  revert acc. induction todo as [|r todo IH]; intros acc Hacc Hne Hsort Hlast; simpl.
  - split; [done|]. intros line. pose proof (covers_nil line). tauto.
  - inversion Hne as [|?? Hr Hne']; subst. apply range_is_empty_false in Hr.
    inversion Hsort as [|?? Hsort' Hall]; subst. rewrite Forall_forall in Hall.
    destruct (merge_range_spec acc r) as (Hs1 & Hl1 & Hc1); [done..| |].
    { intros l Hl. apply Hlast; [done|by left]. }
    destruct (IH (merge_range acc r)) as [Hs Hc]; [done..| |].
    { intros l r' Hl Hr'. specialize (Hl1 _ Hl). specialize (Hall _ Hr').
      unfold range_le in Hall. lia. }
    split; [done|]. intros line. rewrite Hc, Hc1.
    change (r :: todo) with ([r] ++ todo). rewrite covers_app. tauto.
Qed.

(** coalescing normalises ranges without changing what they cover: the result is
    ordered, free of empty, overlapping and adjacent ranges, and covers exactly the rows
    that the non-empty input ranges cover. *)
Theorem coalesce_ranges_spec rs :
  separated (coalesce_ranges rs) ∧
  ∀ line, covers (coalesce_ranges rs) line ↔ ∃ r, r ∈ rs ∧ range_contains r line = true.
Proof.
  unfold coalesce_ranges.
  destruct (foldl_merge_range [] (merge_sort range_le (filter (λ r, range_is_empty r = false) rs)))
    as [Hs Hc].
  - done.
  - apply Forall_forall. intros r. rewrite merge_sort_Permutation, list_elem_of_filter. tauto.
  - apply (StronglySorted_merge_sort range_le).
  - done.
  - split; [done|]. intros line. rewrite Hc. unfold covers.
    setoid_rewrite merge_sort_Permutation. setoid_rewrite list_elem_of_filter.
    setoid_rewrite elem_of_nil. unfold range_contains.
    setoid_rewrite andb_true_iff. setoid_rewrite andb_true_iff. setoid_rewrite negb_true_iff.
    setoid_rewrite Nat.leb_le. split; [naive_solver|].
    intros (r & Hr & (He & ?) & ?). right. exists r. pose proof (proj1 (range_is_empty_false r) He).
    naive_solver lia.
Qed.

(** ** Line differences *)

Lemma common_prefix_spec a b :
  let n := common_prefix a b in
  n ≤ length a ∧ n ≤ length b ∧ take n a = take n b ∧
  ∀ x y, a !! n = Some x → b !! n = Some y → x ≠ y.
Proof.
  revert b; induction a as [|x a IH]; intros [|y b]; simpl; try (split_and!; simpl; done || lia).
  case_decide as Hxy; subst.
  - destruct (IH b) as (? & ? & Ht & Hd). split_and!; simpl; [lia..|by rewrite Ht|done].
  - split_and!; simpl; [lia..|done|]. intros ?? [= <-] [= <-]. done.
Qed.

Lemma common_suffix_spec p a b :
  p ≤ length a → p ≤ length b →
  let q := common_suffix p a b in
  p + q ≤ length a ∧ p + q ≤ length b ∧ drop (length a - q) a = drop (length b - q) b.
Proof.
  intros Ha Hb q.
  destruct (common_prefix_spec (reverse (drop p a)) (reverse (drop p b))) as (H1 & H2 & Ht & _).
  fold (common_suffix p a b) in H1, H2, Ht. fold q in H1, H2, Ht.
  rewrite length_reverse, length_drop in H1, H2. split_and!; [lia..|].
  apply (f_equal reverse) in Ht.
  assert (∀ l : list str, p + q ≤ length l →
    reverse (take q (reverse (drop p l))) = drop (length l - q) l) as Hrev.
  { intros l Hl. rewrite take_reverse, reverse_involutive, drop_drop, length_drop.
    f_equal. lia. }
  by rewrite !Hrev in Ht by lia.
Qed.

Lemma covers_insertion start n line :
  1 ≤ start → covers (ranges (insertion start n)) line ↔ start ≤ line < start + n.
Proof.
  intros Hs. unfold insertion. case_decide as Hn.
  - simpl. pose proof (covers_nil line). split; [tauto|lia].
  - simpl. unfold coalesce_ranges.
    rewrite filter_cons_True, filter_nil by (apply range_is_empty_false; simpl; lia).
    change (foldl merge_range [] (merge_sort range_le ?l)) with l.
    rewrite covers_one. simpl. lia.
Qed.

Lemma covers_deletion at_line line :
  1 ≤ at_line → covers (ranges (build_affected_region [Deletion at_line])) line ↔ line = at_line.
Proof.
  intros Hs. unfold build_affected_region. cbn [omap list_omap delta_range].
  rewrite (proj2 (Nat.ltb_lt 0 at_line)) by lia. simpl. unfold coalesce_ranges.
  rewrite filter_cons_True, filter_nil by (apply range_is_empty_false; simpl; lia).
  change (foldl merge_range [] (merge_sort range_le ?l)) with l.
  rewrite covers_one. simpl. lia.
Qed.

(** the region computed from a line diff misses no change: with the longest common
    prefix [p] and a common suffix [q], every output row outside both is in the region, the
    rows before and after are unchanged from the input, row [p] itself differs, and the
    region never names a row the output does not have. *)
Theorem affected_from_line_diff_sound before after :
  ∃ p q, p + q ≤ length before ∧ p + q ≤ length after ∧
    take p before = take p after ∧
    drop (length before - q) before = drop (length after - q) after ∧
    (∀ x y, before !! p = Some x → after !! p = Some y → x ≠ y) ∧
    (∀ line, p < line ≤ length after - q →
       covers (ranges (affected_from_line_diff before after)) line) ∧
    (∀ line, covers (ranges (affected_from_line_diff before after)) line →
       1 ≤ line ≤ length after ∧ (p + q < length after → p < line ≤ length after - q)).
Proof.
  destruct before as [|x before], after as [|y after].
  - exists 0, 0. split_and!; simpl; try done; try lia. intros line Hc. by apply covers_nil in Hc.
  - exists 0, 0. cbn [affected_from_line_diff]. rewrite !Nat.sub_0_r, !drop_all.
    split_and!; try done; try (simpl; lia).
    + intros line Hl. apply covers_insertion; lia.
    + intros line Hl%covers_insertion; lia.
  - exists 0, 0. cbn [affected_from_line_diff]. rewrite !Nat.sub_0_r, !drop_all.
    split_and!; try done; try (simpl; lia).
    intros line Hc. by apply covers_nil in Hc.
  - cbn [affected_from_line_diff]. set (b := x :: before). set (a := y :: after).
    destruct (common_prefix_spec b a) as (H1 & H2 & Ht & Hd). set (p := common_prefix b a) in *.
    destruct (common_suffix_spec p b a H1 H2) as (H3 & H4 & Hdr).
    set (q := common_suffix p b a) in *. exists p, q.
    assert (1 ≤ length a) as Hla by (simpl; lia). clearbody a b p q.
    split_and!; [done..| |]; intros line Hl; case_decide as Hmid.
    + exfalso. lia.
    + apply covers_insertion; lia.
    + apply covers_deletion in Hl as ->; destruct (p <? length a) eqn:E; breflect; lia.
    + apply covers_insertion in Hl; lia.
Qed.

(** the publisher's expansion of a region stays inside the file and contains what it
    must: every selected row exists in the final snapshot, every affected row that exists is
    selected, and so is the row after each changed range. *)
Theorem affected_output_lines_spec s affected line :
  (∀ n, is_Some (records s !! n) → 1 ≤ n ≤ total_lines s) →
  (line ∈ affected_output_lines s affected →
     is_Some (records s !! line) ∧ 1 ≤ line ≤ total_lines s) ∧
  (is_Some (records s !! line) → covers (coalesce_ranges (ranges affected)) line →
     line ∈ affected_output_lines s affected) ∧
  (∀ r, r ∈ coalesce_ranges (ranges affected) → range_end r < total_lines s →
     is_Some (records s !! S (range_end r)) → S (range_end r) ∈ affected_output_lines s affected).
Proof.
  intros Hwf. unfold affected_output_lines. case_decide as Ht.
  { split_and!; [set_solver| |].
    - intros Hs%Hwf. lia.
    - intros r _ _ Hs%Hwf. lia. }
  rewrite elem_of_filter. split_and!.
  - intros [Hs _]. auto.
  - intros Hs (r & Hr & H1 & H2). split; [done|]. apply elem_of_list_to_set, list_elem_of_bind.
    exists r. split; [|done]. unfold expand_range. apply elem_of_app. left.
    apply elem_of_range_incl. apply Hwf in Hs. lia.
  - intros r Hr Hlt Hs. apply elem_of_filter. split; [done|].
    apply elem_of_list_to_set, list_elem_of_bind. exists r. split; [|done].
    unfold expand_range. rewrite Nat.min_l by lia. rewrite (proj2 (Nat.ltb_lt _ _) Hlt).
    rewrite !elem_of_app. right; right. apply list_elem_of_singleton. lia.
Qed.

Definition sample_three : bytes := lit "a" ++ [LF] ++ lit "b" ++ [LF] ++ lit "c".

Lemma affected_output_lines_spec_witness :
  ∃ s, scan_snapshot sample_three request_whole_file = Some s ∧
    3 ∈ affected_output_lines s (from_range 2 2).
Proof.
  destruct (scan_bytes_spec sample_three request_whole_file) as (s & Hs & Hof).
  exists s. split; [exact Hs|].
  refine (proj2 (proj2 (affected_output_lines_spec s (from_range 2 2) 3 _)) (MkRange 2 2) _ _ _).
  - intros n [rec Hrec]. rewrite (so_records _ _ _ Hof) in Hrec.
    change (retains _ n) with true in Hrec. cbn iota in Hrec.
    destruct n as [|i]; [done|]. apply lookup_lt_Some in Hrec. rewrite (so_total _ _ _ Hof). lia.
  - vm_compute. left.
  - vm_compute in Hs. injection Hs as <-. vm_compute. lia.
  - vm_compute in Hs. injection Hs as <-. vm_compute. by eexists.
Defined.

End Region.
