(* ===== verification/FileSys.v ===== *)
(** * A file system with faults

    The part of the operating system that the writers of [edit.rs] and
    [hashline/transaction/mod.rs] call: names, inodes and the calls on them.  Every call may
    fail, a failing write may leave a prefix behind, and other processes may change the disk
    between two calls.  The world remembers every disk state it went through and how many
    calls had failed by then, so that theorems can speak about a crash at any point; a file
    remembers whether its bytes were synced, and a crash may take away bytes that were not.

    This file models the standard library's [std::fs] as far as the sources use it; the
    behaviour of the environment is the class [Kernel], whose instances choose it. *)

From S2P Require Import Prelude RustStr Scan.
Import Scan.

Module FileSys.

(** ** Disks *)

Inductive ErrorKind := NotFound | PermissionDenied | AlreadyExists | Unsupported | OtherError.
#[export] Instance ErrorKind_eq_dec : EqDecision ErrorKind.
Proof. solve_decision. Defined.

(** An [io::Error]: its kind and what it displays. *)
Record IoError := MkIoError { io_kind : ErrorKind; io_message : str }.
#[export] Instance IoError_eq_dec : EqDecision IoError.
Proof. solve_decision. Defined.

(** Device and inode number. *)
Abbreviation InodeId := (N * N)%type (only parsing).

(** [i_synced]: the bytes have been forced to stable storage since they last changed. *)
Record Inode := MkInode {
  i_bytes : bytes; i_uid : N; i_gid : N; i_mode : N; i_xattrs : gmap (list N) bytes;
  i_synced : bool }.
#[export] Instance Inode_eq_dec : EqDecision Inode.
Proof. solve_decision. Defined.

(** A directory entry.  A symbolic link is stored with the path it finally resolves to. *)
Inductive Entry := Hard (ino : InodeId) | SymLink (target : PathBuf) | Dir.
#[export] Instance Entry_eq_dec : EqDecision Entry.
Proof. solve_decision. Defined.

Record Disk := MkDisk { names : gmap PathBuf Entry; inodes : gmap InodeId Inode }.

Definition set_names (ns : gmap PathBuf Entry) (d : Disk) : Disk := MkDisk ns (inodes d).
Definition set_inode (i : InodeId) (n : Inode) (d : Disk) : Disk :=
  MkDisk (names d) (<[i := n]> (inodes d)).

(** The path an entry resolves to, and its inode. *)
Definition real_path (d : Disk) (p : PathBuf) : PathBuf :=
  match names d !! p with Some (SymLink t) => t | _ => p end.
Definition inode_at (d : Disk) (p : PathBuf) : option InodeId :=
  match names d !! real_path d p with Some (Hard i) => Some i | _ => None end.

(** The bytes a reader of the path sees. *)
Definition content_at_path (d : Disk) (p : PathBuf) : option bytes :=
  i ← inode_at d p; n ← inodes d !! i; Some (i_bytes n).

(** The bytes of the path that a loss of power cannot take away. *)
Definition durable_at (d : Disk) (p : PathBuf) : option bytes :=
  i ← inode_at d p; n ← inodes d !! i; if i_synced n then Some (i_bytes n) else None.

(** The disks a loss of power may leave: every name keeps its entry and every synced file its
    bytes; the bytes of the other files are arbitrary. *)
Definition after_crash (d d' : Disk) : Prop :=
  names d' = names d ∧
  ∀ i n, inodes d !! i = Some n → i_synced n = true →
    ∃ n', inodes d' !! i = Some n' ∧ i_bytes n' = i_bytes n.

Definition is_dir (d : Disk) (p : PathBuf) : Prop := p = [] ∨ names d !! p = Some Dir.
#[export] Instance is_dir_dec d p : Decision (is_dir d p).
Proof. unfold is_dir. apply _. Defined.

Definition parent (p : PathBuf) : option PathBuf :=
  match p with [] => None | _ => Some (removelast p) end.

(** How many names an inode has. *)
Definition link_count (d : Disk) (i : InodeId) : nat :=
  size (filter (λ kv : PathBuf * Entry, kv.2 = Hard i) (names d)).

Record Stat := MkStat {
  s_symlink : bool; s_file : bool; s_id : InodeId; s_nlink : nat; s_uid : N; s_gid : N; s_mode : N }.

Definition stat_inode (d : Disk) (i : InodeId) (n : Inode) : Stat :=
  MkStat false true i (link_count d i) (i_uid n) (i_gid n) (i_mode n).
Definition stat_other (symlink : bool) : Stat := MkStat symlink false (0, 0)%N 1 0 0 0.

(** ** The environment *)

Class Kernel := {
  (** The error of the call made at a time, if it fails. *)
  fault : nat → option IoError;
  (** How many bytes a failing write at a time still stores. *)
  partial : nat → nat;
  (** What other processes do to the disk before the call made at a time. *)
  interfere : nat → Disk → Disk;
  (** Thirty-two random hexadecimal digits. *)
  random_hex : nat → str;
  euid : N; egid : N;
  (** The mode a file gets on creation, on [chmod], and after a write to it. *)
  create_mode : N → N; chmod_mode : N → N; write_mode : N → N }.

(** No other process touches the disk. *)
Definition quiet (K : Kernel) : Prop := ∀ t d, interfere t d = d.

(** A failing call does not pretend that a file, or the support of attributes, is missing. *)
Definition honest (K : Kernel) : Prop :=
  ∀ t e, fault t = Some e → io_kind e ≠ NotFound ∧ io_kind e ≠ Unsupported.

Record World := MkWorld {
  w_disk : Disk; w_time : nat; w_faults : nat; w_visited : list (nat * Disk) }.

Definition M (A : Type) : Type := World → result IoError A * World.
#[export] Instance M_ret : MRet M := λ A a w, (Ok a, w).
#[export] Instance M_bind : MBind M := λ A B f m w,
  match m w with (Ok a, w) => f a w | (Err e, w) => (Err e, w) end.

Definition fail {A} (e : IoError) : M A := λ w, (Err e, w).
(** [let _ = ...], and the result of a call as a value. *)
Definition attempt {A} (m : M A) : M (result IoError A) := λ w, let '(r, w) := m w in (Ok r, w).
Definition ignore {A} (m : M A) : M () := λ w, let '(_, w) := m w in (Ok tt, w).
Definition map_io_err {A} (f : IoError → IoError) (m : M A) : M A :=
  λ w, let '(r, w) := m w in (map_err f r, w).
(** A guard whose [Drop] runs [cleanup] when the body is left. *)
Definition with_drop {A B} (cleanup : M B) (body : M A) : M A :=
  λ w, let '(r, w) := body w in let '(_, w) := cleanup w in (r, w).

(** ** System calls *)

Section Calls.
Context `{K : Kernel}.

(** A call: other processes run, then the call fails with its residual effect or happens. *)
Definition call {A} (ko : nat → Disk → Disk) (ok : Disk → result IoError A * Disk) : M A := λ w,
  let t := w_time w in
  let d := interfere t (w_disk w) in
  match fault t with
  | Some e => (Err e, MkWorld (ko t d) (S t) (S (w_faults w)) ((S (w_faults w), ko t d) :: w_visited w))
  | None =>
      let '(r, d) := ok d in
      (r, MkWorld d (S t) (w_faults w) ((w_faults w, d) :: w_visited w))
  end.

Definition query {A} (ok : Disk → result IoError A) : M A := call (λ _ d, d) (λ d, (ok d, d)).
Definition effect (ok : Disk → result IoError Disk) : M () :=
  call (λ _ d, d) (λ d, match ok d with Ok d' => (Ok tt, d') | Err e => (Err e, d) end).

Definition os_error (k : ErrorKind) : IoError := MkIoError k (lit "os error").

(** [getrandom], as hexadecimal digits. *)
Definition getrandom : M str := λ w, query (λ _, Ok (random_hex (w_time w))) w.

Definition symlink_metadata (p : PathBuf) : M Stat := query (λ d,
  match names d !! p with
  | Some (Hard i) => ok_or (os_error NotFound) (stat_inode d i <$> inodes d !! i)
  | Some (SymLink _) => Ok (stat_other true)
  | Some Dir => Ok (stat_other false)
  | None => Err (os_error NotFound)
  end).

Definition canonicalize_path (p : PathBuf) : M PathBuf := query (λ d,
  match names d !! real_path d p with
  | Some _ => Ok (real_path d p)
  | None => Err (os_error NotFound)
  end).

Definition metadata (p : PathBuf) : M Stat := query (λ d,
  match names d !! real_path d p with
  | Some (Hard i) => ok_or (os_error NotFound) (stat_inode d i <$> inodes d !! i)
  | Some _ => Ok (stat_other false)
  | None => Err (os_error NotFound)
  end).

(** Opening an existing file; the answer is the inode the handle keeps. *)
Definition open_existing (p : PathBuf) : M InodeId := query (λ d,
  match names d !! real_path d p with
  | Some (Hard i) => Ok i
  | Some _ => Err (os_error OtherError)
  | None => Err (os_error NotFound)
  end).

Definition open_dir (p : PathBuf) : M () := query (λ d,
  if decide (is_dir d p) then Ok tt else Err (os_error NotFound)).

(** [OpenOptions::new().write(true).create_new(true).mode(mode).open(p)]. *)
Definition create_new (p : PathBuf) (mode : N) : M InodeId :=
  call (λ _ d, d) (λ d,
    match names d !! p with
    | Some _ => (Err (os_error AlreadyExists), d)
    | None =>
        if decide (is_dir d (default [] (parent p))) then
          let i := fresh (dom (inodes d)) in
          (Ok i, MkDisk (<[p := Hard i]> (names d))
                   (<[i := MkInode [] euid egid (create_mode mode) ∅ false]> (inodes d)))
        else (Err (os_error NotFound), d)
    end).

(** Calls on an open handle. *)
Definition on_inode (i : InodeId) (f : Inode → Inode) (d : Disk) : Disk :=
  match inodes d !! i with Some n => set_inode i (f n) d | None => d end.

Definition fstat (i : InodeId) : M Stat :=
  query (λ d, ok_or (os_error OtherError) (stat_inode d i <$> inodes d !! i)).
Definition read_all (i : InodeId) : M bytes :=
  query (λ d, ok_or (os_error OtherError) (i_bytes <$> inodes d !! i)).
Definition set_permissions (i : InodeId) (mode : N) : M () := effect (λ d,
  Ok (on_inode i (λ n, MkInode (i_bytes n) (i_uid n) (i_gid n) (chmod_mode mode) (i_xattrs n) (i_synced n)) d)).
Definition fchown_group (i : InodeId) (gid : N) : M () := effect (λ d,
  Ok (on_inode i (λ n, MkInode (i_bytes n) (i_uid n) gid (i_mode n) (i_xattrs n) (i_synced n)) d)).
Definition set_len_zero (i : InodeId) : M () := effect (λ d,
  Ok (on_inode i (λ n, MkInode [] (i_uid n) (i_gid n) (write_mode (i_mode n)) (i_xattrs n) false) d)).
Definition seek_start (i : InodeId) : M nat := query (λ _, Ok 0).

(** [File::sync_all] on a file, and on a directory.  The entries of a directory are taken as
    durable from the start: only the bytes of a file can be lost. *)
Definition mark_synced (n : Inode) : Inode :=
  MkInode (i_bytes n) (i_uid n) (i_gid n) (i_mode n) (i_xattrs n) true.
Definition sync_all (i : InodeId) : M () := effect (λ d, Ok (on_inode i mark_synced d)).
Definition sync_dir (p : PathBuf) : M () := query (λ _, Ok tt).

(** The bytes of a file after [bs] is stored at [pos]. *)
Definition splice (pos : nat) (bs old : bytes) : bytes :=
  take pos (old ++ replicate (pos - length old) 0%N) ++ bs ++ drop (pos + length bs) old.
Definition write_inode (i : InodeId) (pos : nat) (bs : bytes) (d : Disk) : Disk :=
  on_inode i (λ n, MkInode (splice pos bs (i_bytes n)) (i_uid n) (i_gid n)
                     (write_mode (i_mode n)) (i_xattrs n) false) d.

(** [write_all] at a position; when it fails, a prefix may have been stored. *)
Definition write_all (i : InodeId) (pos : nat) (bs : bytes) : M () :=
  call (λ t d, write_inode i pos (take (partial t) bs) d) (λ d, (Ok tt, write_inode i pos bs d)).

(** Extended attributes: listing all of them, removing and setting one. *)
Definition xattrs_of (i : InodeId) : M (gmap (list N) bytes) :=
  query (λ d, ok_or (os_error OtherError) (i_xattrs <$> inodes d !! i)).
Definition update_xattrs (f : gmap (list N) bytes → gmap (list N) bytes) (n : Inode) : Inode :=
  MkInode (i_bytes n) (i_uid n) (i_gid n) (i_mode n) (f (i_xattrs n)) (i_synced n).
Definition xattr_remove (i : InodeId) (k : list N) : M () :=
  effect (λ d, Ok (on_inode i (update_xattrs (delete k)) d)).
Definition xattr_set (i : InodeId) (k : list N) (v : bytes) : M () :=
  effect (λ d, Ok (on_inode i (update_xattrs (<[k := v]>)) d)).

(** Names. *)
Definition rename (from to : PathBuf) : M () := effect (λ d,
  match names d !! from, names d !! to with
  | None, _ => Err (os_error NotFound)
  | Some Dir, _ | Some _, Some Dir => Err (os_error OtherError)
  | Some (Hard i), Some (Hard j) =>
      (* two links of one file: nothing happens *)
      if decide (i = j) then Ok d else Ok (set_names (<[to := Hard i]> (delete from (names d))) d)
  | Some e, _ => Ok (set_names (<[to := e]> (delete from (names d))) d)
  end).

Definition remove_file (p : PathBuf) : M () := effect (λ d,
  match names d !! p with
  | None => Err (os_error NotFound)
  | Some Dir => Err (os_error OtherError)
  | Some _ => Ok (set_names (delete p (names d)) d)
  end).

Definition read_dir (p : PathBuf) : M (list str) := query (λ d,
  if decide (is_dir d p)
  then Ok (omap (λ kv, match last kv.1 with
                       | Some n => if decide (removelast kv.1 = p) then Some n else None
                       | None => None end) (map_to_list (names d)))
  else Err (os_error NotFound)).

Definition read_path (p : PathBuf) : M bytes := query (λ d,
  match names d !! real_path d p with
  | Some (Hard i) => ok_or (os_error NotFound) (i_bytes <$> inodes d !! i)
  | Some _ => Err (os_error OtherError)
  | None => Err (os_error NotFound)
  end).

(** The proper prefixes of a path from the root down, the path included. *)
Definition ancestors (p : PathBuf) : list PathBuf := (λ n, take n p) <$> range_incl 1 (length p).

(** [fs::create_dir_all]: every missing ancestor becomes a directory, unless one is a file. *)
Definition create_dir_all (p : PathBuf) : M () := effect (λ d,
  if forallb (λ q, match names d !! q with None | Some Dir => true | _ => false end) (ancestors p)
  then Ok (set_names (foldr (λ q, <[q := Dir]>) (names d) (ancestors p)) d)
  else Err (os_error OtherError)).

End Calls.

End FileSys.
