(* ===== verification/SourceWrite.v ===== *)
(** * The shared source writer: [edit.rs], [atomic_write_source]

    Replacement by a synced sibling and a rename when the replacement can carry the original's
    access metadata, an in-place rewrite protected by a recovery copy otherwise.  The Linux
    configuration: extended attributes carry the ACL, [copy_platform_security] does nothing
    and [platform_acls_match] is true. *)

From S2P Require Import Prelude RustStr Scan FileSys.
Import Scan FileSys.

Module SourceWrite.

Inductive SourceWriteMode := Replaced | InPlace.
#[export] Instance SourceWriteMode_eq_dec : EqDecision SourceWriteMode.
Proof. solve_decision. Defined.

Record SourceWriteOutcome := MkWritten { sw_mode : SourceWriteMode; sw_warnings : list str }.

Definition PREFIX : str := lit ".aft-source-".
Definition SUFFIX : str := lit ".orig".
Definition RANDOM_LEN : nat := 32.
Definition MAX_NAMED_LEN : N := 200.

(** [0o777], [0o7777], [0o600] and the default creation mode [0o666]. *)
Definition MODE_PERMISSIONS : N := 511.
Definition MODE_ALL : N := 4095.
Definition MODE_PRIVATE : N := 384.
Definition MODE_DEFAULT : N := 438.

(** [format!("{:o}", v)] for a mode, which has at most four octal digits. *)
Definition show_octal (v : N) : str :=
  let digits := [v / 512 mod 8; v / 64 mod 8; v / 8 mod 8; v mod 8]%N in
  match drop_while (N.eqb 0) digits with
  | [] => [48%N]
  | ds => (λ d, 48 + d)%N <$> ds
  end.

Section Writer.
Context `{K : Kernel}.
(** The working directory, the blake3 prefix of a name, and [Path::display]. *)
Context (cwd : PathBuf) (name_hash : bytes → str) (display : PathBuf → str).

(** A path's parent; only the root directory has none. *)
Definition parent_of (destination : PathBuf) : PathBuf := default cwd (parent destination).

(** ** Recovery copies *)

Definition file_identifier (destination : PathBuf) : option str :=
  name ← last destination;
  Some (if (str_len name <=? MAX_NAMED_LEN)%N then name
        else lit "name-hash-" ++ name_hash (as_bytes name)).

Definition copy_name (destination : PathBuf) (random : str) : str :=
  match file_identifier destination with
  | Some identifier => PREFIX ++ random ++ lit "-" ++ identifier ++ SUFFIX
  | None => PREFIX ++ random ++ SUFFIX
  end.

(** Whether a directory entry is a recovery copy of the file with the identifier. *)
Definition is_copy_of (identifier entry : str) : bool :=
  match strip_prefix PREFIX entry ≫= strip_suffix (lit "-" ++ identifier ++ SUFFIX) with
  | Some random => (length random =? RANDOM_LEN) && forallb is_ascii_hexdigit random
  | None => false
  end.

Definition leftover_copy_warnings (destination : PathBuf) : M (list str) :=
  match file_identifier destination with
  | None => mret []
  | Some identifier =>
      entries ← attempt (read_dir (parent_of destination));
      mret match entries with
           | Err _ => []
           | Ok entries =>
               (λ entry, lit "recovery_copy_found: " ++ display (parent_of destination ++ [entry])
                  ++ lit " holds the bytes " ++ display destination
                  ++ lit " had before an earlier write was interrupted; this write did not use or remove it")
                 <$> filter (λ entry, is_copy_of identifier entry = true) entries
           end
  end.

(** Syncing a directory, ignoring what happens. *)
Definition sync_parent (directory : PathBuf) : M () :=
  opened ← attempt (open_dir directory);
  match opened with Ok _ => ignore (sync_dir directory) | Err _ => mret tt end.

(** [source_recovery::save]. *)
Definition save (destination : PathBuf) (bs : bytes) : M PathBuf :=
  random ← getrandom;
  let copy := parent_of destination ++ [copy_name destination random] in
  file ← create_new copy MODE_PRIVATE;
  prepared ← attempt (_ ← write_all file 0 bs; _ ← sync_all file; sync_parent (parent_of destination));
  match prepared with
  | Err e => _ ← ignore (remove_file copy); fail e
  | Ok _ => mret copy
  end.

(** [source_recovery::discard], or nothing when there is no copy. *)
Definition discard (copy : option PathBuf) : M () :=
  match copy with Some copy => ignore (remove_file copy) | None => mret tt end.

(** ** Writing in place *)

Definition durability (e : IoError) : IoError :=
  MkIoError (io_kind e) (lit "durability: " ++ io_message e).

Definition rewrite (file : InodeId) (content : bytes) : M () :=
  _ ← set_len_zero file;
  pos ← seek_start file;
  _ ← write_all file pos content;
  map_io_err durability (sync_all file).

Definition no_recovery_copy (destination : PathBuf) (e : option IoError) : str :=
  match e with
  | Some e =>
      lit "no_recovery_copy: " ++ display destination
      ++ lit " was rewritten in place without a recovery copy (" ++ io_message e
      ++ lit "); a crash during the write could have left it partly written"
  | None =>
      lit "no_recovery_copy: " ++ display destination
      ++ lit " is not readable, so it was rewritten in place without a recovery copy; a crash during the write could have left it partly written"
  end.

Definition restore_failed (destination : PathBuf) (e restore : IoError) (copy : option PathBuf) :
    IoError :=
  MkIoError (io_kind e)
    (io_message e ++ lit "; restoring the original bytes of " ++ display destination
     ++ lit " also failed (" ++ io_message restore ++ lit ")"
     ++ match copy with Some copy => lit "; they are saved in " ++ display copy | None => [] end).

Definition mode_not_restored (destination : PathBuf) (wanted now : N) : str :=
  lit "mode_not_restored: writing " ++ display destination ++ lit " changed its mode from "
  ++ show_octal wanted ++ lit " to " ++ show_octal now
  ++ lit " (the system clears set-user-ID and set-group-ID bits on write), and it could not be set back".

(** Opening for reading and writing, or for writing only when reading is refused. *)
Definition open_in_place (destination : PathBuf) : M (InodeId * option bytes) :=
  opened ← attempt (open_existing destination);
  match opened with
  | Ok file => saved ← read_all file; mret (file, Some saved)
  | Err e =>
      if decide (io_kind e = PermissionDenied)
      then file ← open_existing destination; mret (file, None)
      else fail e
  end.

Definition save_copy (destination : PathBuf) (saved : option bytes) (warnings : list str) :
    M (option PathBuf * list str) :=
  match saved with
  | Some saved =>
      copy ← attempt (save destination saved);
      mret match copy with
           | Ok copy => (Some copy, warnings)
           | Err e => (None, warnings ++ [no_recovery_copy destination (Some e)])
           end
  | None => mret (None, warnings ++ [no_recovery_copy destination None])
  end.

(** The write failed: put the original bytes back. *)
Definition restore_original (destination : PathBuf) (file : InodeId) (saved : option bytes)
    (copy : option PathBuf) (error : IoError) : M SourceWriteOutcome :=
  match saved with
  | None => fail error
  | Some saved =>
      restored ← attempt (rewrite file saved);
      match restored with
      | Ok _ => _ ← discard copy; fail error
      | Err restore_error => fail (restore_failed destination error restore_error copy)
      end
  end.

(** Putting the original mode back when the write changed it. *)
Definition restore_mode (destination : PathBuf) (file : InodeId) (original : Stat)
    (warnings : list str) : M (list str) :=
  let wanted := N.land (s_mode original) MODE_ALL in
  stat ← fstat file;
  let now := N.land (s_mode stat) MODE_ALL in
  if decide (now = wanted) then mret warnings
  else
    changed ← attempt (set_permissions file (s_mode original));
    restored ← match changed with
               | Err _ => mret false
               | Ok _ =>
                   stat ← attempt (fstat file);
                   mret match stat with
                        | Ok stat => bool_decide (N.land (s_mode stat) MODE_ALL = wanted)
                        | Err _ => false
                        end
               end;
    mret (if restored : bool then warnings else warnings ++ [mode_not_restored destination wanted now]).

Definition write_source_in_place (destination : PathBuf) (original : Stat) (bs : bytes)
    (warnings : list str) : M SourceWriteOutcome :=
  '(file, saved) ← open_in_place destination;
  '(copy, warnings) ← save_copy destination saved warnings;
  written ← attempt (rewrite file bs);
  match written with
  | Err error => restore_original destination file saved copy error
  | Ok _ =>
      warnings ← restore_mode destination file original warnings;
      _ ← discard copy;
      mret (MkWritten InPlace warnings)
  end.

(** ** Replacing *)

Definition may_keep_access (original : Stat) : bool :=
  s_file original && (s_nlink original =? 1) && (s_uid original =? euid)%N.

(** [xattrs::snapshot] and [xattrs::replace_all]. *)
Definition xattrs_snapshot (file : InodeId) : M (gmap (list N) bytes) :=
  found ← attempt (xattrs_of file);
  match found with
  | Ok attrs => mret attrs
  | Err e => if decide (io_kind e = Unsupported) then mret ∅ else fail e
  end.

Fixpoint for_each {A} (f : A → M ()) (l : list A) : M () :=
  match l with [] => mret tt | a :: l => _ ← f a; for_each f l end.

Definition xattrs_replace_all (file : InodeId) (wanted : gmap (list N) bytes) : M () :=
  existing ← xattrs_snapshot file;
  _ ← for_each (λ kv, xattr_remove file kv.1)
        (filter (λ kv, wanted !! kv.1 = None) (map_to_list existing));
  for_each (λ kv, xattr_set file kv.1 kv.2) (map_to_list wanted).

(** An operation whose errors all mean [false]. *)
Definition or_false (m : M bool) : M bool := λ w,
  match m w with (Ok b, w) => (Ok b, w) | (Err _, w) => (Ok false, w) end.

Definition copy_access (destination : PathBuf) (replacement : InodeId) (original : Stat) : M bool :=
  or_false
    (source ← open_existing destination;
     current ← fstat source;
     if decide (s_id current ≠ s_id original) then mret false
     else
       created ← fstat replacement;
       _ ← (if decide (s_gid created ≠ s_gid original)
            then fchown_group replacement (s_gid original) else mret tt);
       _ ← set_permissions replacement (s_mode original);
       wanted ← xattrs_snapshot source;
       _ ← xattrs_replace_all replacement wanted;
       copied ← fstat replacement;
       if (s_uid copied =? s_uid original)%N && (s_gid copied =? s_gid original)%N
          && (s_mode copied =? s_mode original)%N
       then actual ← xattrs_snapshot replacement; mret (bool_decide (actual = wanted))
       else mret false).

(** Writing the temporary and renaming it over the destination; the guard removes the
    temporary's name when the block is left. *)
Definition commit_replacement (destination temporary : PathBuf) (file : InodeId)
    (original : option Stat) (bs : bytes) (warnings : list str) : M SourceWriteOutcome :=
  with_drop (remove_file temporary)
    (_ ← write_all file 0 bs;
     _ ← match original with Some m => set_permissions file (s_mode m) | None => mret tt end;
     _ ← map_io_err durability (sync_all file);
     _ ← rename temporary destination;
     _ ← sync_parent (parent_of destination);
     mret (MkWritten Replaced warnings)).

Definition temporary_path (destination : PathBuf) (suffix : str) : PathBuf :=
  parent_of destination ++ [lit ".aft-source-" ++ suffix ++ lit ".tmp"].

Definition replace_source (destination : PathBuf) (original : option Stat) (bs : bytes)
    (warnings : list str) : M SourceWriteOutcome :=
  suffix ← getrandom;
  let temporary := temporary_path destination suffix in
  created ← attempt (create_new temporary
    match original with Some m => N.land (s_mode m) MODE_PERMISSIONS | None => MODE_DEFAULT end);
  match created, original with
  | Err e, Some m =>
      if decide (io_kind e = PermissionDenied)
      then write_source_in_place destination m bs warnings else fail e
  | Err e, None => fail e
  | Ok file, Some m =>
      kept ← copy_access destination file m;
      if kept : bool then commit_replacement destination temporary file original bs warnings
      else
        _ ← ignore (remove_file temporary);
        write_source_in_place destination m bs warnings
  | Ok file, None => commit_replacement destination temporary file original bs warnings
  end.

(** ** The writer *)

(** The file a write goes to: an existing symbolic link is followed. *)
Definition write_destination (path : PathBuf) : M PathBuf :=
  found ← attempt (symlink_metadata path);
  match found with
  | Ok m => if s_symlink m then canonicalize_path path else mret path
  | Err e => if decide (io_kind e = NotFound) then mret path else fail e
  end.

Definition original_metadata (destination : PathBuf) : M (option Stat) :=
  found ← attempt (metadata destination);
  match found with
  | Ok m => mret (Some m)
  | Err e => if decide (io_kind e = NotFound) then mret None else fail e
  end.

Definition atomic_write_source (path : PathBuf) (bs : bytes) : M SourceWriteOutcome :=
  destination ← write_destination path;
  original ← original_metadata destination;
  match original with
  | Some m =>
      _ ← open_existing destination;
      warnings ← leftover_copy_warnings destination;
      if negb (may_keep_access m) then write_source_in_place destination m bs warnings
      else replace_source destination original bs warnings
  | None => replace_source destination None bs []
  end.

End Writer.
End SourceWrite.
