(* ===== verification/SourceWriteSpec.v ===== *)
(** * What a source write leaves on the disk

    A small program logic for the calls of [FileSys], then the three promises of
    [atomic_write_source]: a successful write stores exactly the new bytes, synced, and keeps the
    file's identity and access metadata; a failed write keeps the original bytes or names the
    copy that has them; and a loss of power at any point leaves the old bytes, the new bytes or
    a recovery copy. *)

From S2P Require Import Prelude RustStr Scan FileSys SourceWrite.
Import Scan FileSys SourceWrite.

Module SourceWriteSpec.

(** ** Runs *)

Section Runs.
Context `{K : Kernel} (Hquiet : quiet K).
(** What every disk state on the way satisfies, given the failures so far. *)
Context (G : nat → Disk → Prop).

(** Started with [f] failures behind it on disk [d], the program ends in [Q], and every disk
    it goes through satisfies [G]. *)
Definition runs {A} (m : M A) (Q : result IoError A → nat → Disk → Prop) (f : nat) (d : Disk) :
    Prop :=
  ∀ w, w_faults w = f → w_disk w = d →
    Q (m w).1 (w_faults (m w).2) (w_disk (m w).2) ∧
    ∃ new, w_visited (m w).2 = new ++ w_visited w ∧ Forall (λ v, G v.1 v.2) new.

Lemma runs_mono {A} (m : M A) (Q Q' : result IoError A → nat → Disk → Prop) f d :
  runs m Q f d → (∀ r f d, Q r f d → Q' r f d) → runs m Q' f d.
Proof. intros H HQ w Hf Hd. destruct (H w Hf Hd). eauto. Qed.

Lemma runs_ret {A} (a : A) (Q : result IoError A → nat → Disk → Prop) f d :
  Q (Ok a) f d → runs (mret a) Q f d.
Proof. intros H w <- <-. split; [done|]. by exists []. Qed.

Lemma runs_fail {A} e (Q : result IoError A → nat → Disk → Prop) f d :
  Q (Err e) f d → runs (fail e) Q f d.
Proof. intros H w <- <-. split; [done|]. by exists []. Qed.

(** Visited disks of two programs in sequence. *)
Lemma visited_app (v v1 v2 : list (nat * Disk)) :
  (∃ new, v1 = new ++ v ∧ Forall (λ v, G v.1 v.2) new) →
  (∃ new, v2 = new ++ v1 ∧ Forall (λ v, G v.1 v.2) new) →
  ∃ new, v2 = new ++ v ∧ Forall (λ v, G v.1 v.2) new.
Proof.
  intros (n1 & -> & H1) (n2 & -> & H2). exists (n2 ++ n1). rewrite Forall_app. split; [|done].
  by rewrite app_assoc.
Qed.

Lemma runs_bind {A B} (m : M A) (k : A → M B) (Q : result IoError B → nat → Disk → Prop) f d :
  runs m (λ r f d, match r with Ok a => runs (k a) Q f d | Err e => Q (Err e) f d end) f d →
  runs (m ≫= k) Q f d.
Proof.
  intros H w Hf Hd. destruct (H w Hf Hd) as [HQ Hv']. unfold mbind, M_bind.
  destruct (m w) as [[a|e] w']; simpl in *; [|done]. destruct (HQ w' eq_refl eq_refl).
  split; [done|]. by eapply visited_app.
Qed.

Lemma runs_attempt {A} (m : M A) (Q : result IoError (result IoError A) → nat → Disk → Prop) f d :
  runs m (λ r f d, Q (Ok r) f d) f d → runs (attempt m) Q f d.
Proof. intros H w Hf Hd. specialize (H w Hf Hd). unfold attempt. by destruct (m w) as [r w']. Qed.

Lemma runs_ignore {A} (m : M A) (Q : result IoError () → nat → Disk → Prop) f d :
  runs m (λ _ f d, Q (Ok tt) f d) f d → runs (ignore m) Q f d.
Proof. intros H w Hf Hd. specialize (H w Hf Hd). unfold ignore. by destruct (m w) as [r w']. Qed.

Lemma runs_map_err {A} g (m : M A) (Q : result IoError A → nat → Disk → Prop) f d :
  runs m (λ r f d, Q (map_err g r) f d) f d → runs (map_io_err g m) Q f d.
Proof. intros H w Hf Hd. specialize (H w Hf Hd). unfold map_io_err. by destruct (m w) as [r w']. Qed.

Lemma runs_or_false (m : M bool) (Q : result IoError bool → nat → Disk → Prop) f d :
  runs m (λ r f d, Q (Ok match r with Ok b => b | Err _ => false end) f d) f d →
  runs (or_false m) Q f d.
Proof.
  intros H w Hf Hd. specialize (H w Hf Hd). unfold or_false. by destruct (m w) as [[b|e] w'].
Qed.

Lemma runs_with_drop {A B} (c : M B) (m : M A) (Q : result IoError A → nat → Disk → Prop) f d :
  runs m (λ r f d, runs c (λ _ f d, Q r f d) f d) f d → runs (with_drop c m) Q f d.
Proof.
  intros H w Hf Hd. destruct (H w Hf Hd) as [HQ Hv']. unfold with_drop.
  destruct (m w) as [r w1]. simpl in *. destruct (HQ w1 eq_refl eq_refl) as [HQ' Hv2].
  destruct (c w1) as [r' w2]. simpl in *. split; [done|]. by eapply visited_app.
Qed.

Lemma runs_call {A} ko (ok : Disk → result IoError A * Disk)
    (Q : result IoError A → nat → Disk → Prop) f d :
  (∀ e t, fault t = Some e → G (S f) (ko t d) ∧ Q (Err e) (S f) (ko t d)) →
  G f (ok d).2 ∧ Q (ok d).1 f (ok d).2 →
  runs (call ko ok) Q f d.
Proof.
  intros Hko [HG HQ] w <- <-. unfold call. rewrite Hquiet.
  destruct (fault (w_time w)) as [e|] eqn:Hf; simpl.
  - destruct (Hko e (w_time w) Hf). split; [done|]. eexists [_]. split; [done|]. by repeat constructor.
  - destruct (ok (w_disk w)) as [r d'] eqn:E. simpl in *. split; [done|].
    eexists [_]. split; [done|]. by repeat constructor.
Qed.

Lemma runs_query {A} (ok : Disk → result IoError A) (Q : result IoError A → nat → Disk → Prop) f d :
  G f d → G (S f) d → (∀ e t, fault t = Some e → Q (Err e) (S f) d) → Q (ok d) f d → runs (query ok) Q f d.
Proof. intros ????. apply runs_call; eauto. Qed.

Lemma runs_effect (ok : Disk → result IoError Disk) (Q : result IoError () → nat → Disk → Prop) f d :
  G f d → G (S f) d → (∀ e t, fault t = Some e → Q (Err e) (S f) d) →
  match ok d with Ok d' => G f d' ∧ Q (Ok tt) f d' | Err e => Q (Err e) f d end →
  runs (effect ok) Q f d.
Proof.
  intros ?? He H. apply runs_call; [eauto|]. by destruct (ok d); simpl.
Qed.

(** The answer of [getrandom] is the random digits of some time. *)
Lemma runs_getrandom (Q : result IoError str → nat → Disk → Prop) f d :
  G f d → G (S f) d → (∀ e t, fault t = Some e → Q (Err e) (S f) d) → (∀ t, Q (Ok (random_hex t)) f d) →
  runs getrandom Q f d.
Proof.
  intros HG HG' He HQ w Hf Hd. unfold getrandom.
  apply (runs_query (λ _, Ok (random_hex (w_time w))) Q f d); auto.
Qed.

End Runs.

(** ** Disks on the way *)

Lemma after_crash_refl d : after_crash d d.
Proof. split; [done|]. eauto. Qed.

Lemma content_hard d p i n :
  names d !! p = Some (Hard i) → inodes d !! i = Some n → content_at_path d p = Some (i_bytes n).
Proof.
  intros Hp Hi. unfold content_at_path, inode_at, real_path. by rewrite Hp, Hp; simpl; rewrite Hi.
Qed.

Lemma content_missing d p : names d !! p = None → content_at_path d p = None.
Proof. intros Hp. unfold content_at_path, inode_at, real_path. by rewrite Hp, Hp. Qed.

Lemma durable_hard d p i n :
  names d !! p = Some (Hard i) → inodes d !! i = Some n → i_synced n = true →
  durable_at d p = Some (i_bytes n).
Proof.
  intros Hp Hi Hs. unfold durable_at, inode_at, real_path. by rewrite Hp, Hp; simpl; rewrite Hi; simpl; rewrite Hs.
Qed.

Lemma durable_inv d p b :
  durable_at d p = Some b →
  ∃ i n, inode_at d p = Some i ∧ inodes d !! i = Some n ∧ i_synced n = true ∧ i_bytes n = b.
Proof.
  unfold durable_at. destruct (inode_at d p) as [i|]; [|done]. simpl.
  destruct (inodes d !! i) as [n|] eqn:E; [|done]. simpl. destruct (i_synced n) eqn:Es; [|done].
  intros [= <-]. eauto 10.
Qed.

Lemma durable_content d p b : durable_at d p = Some b → content_at_path d p = Some b.
Proof. intros (i & n & Hi & Hn & _ & <-)%durable_inv. unfold content_at_path. rewrite Hi. simpl. by rewrite Hn. Qed.

Lemma durable_crash d d' p b : after_crash d d' → durable_at d p = Some b → content_at_path d' p = Some b.
Proof.
  intros [Hn Hi] (i & n & Hp & Hin & Hs & <-)%durable_inv. destruct (Hi _ _ Hin Hs) as (n' & Hn' & Hb).
  unfold content_at_path, inode_at, real_path in *. rewrite Hn, Hp. simpl. rewrite Hn'. simpl. by rewrite Hb.
Qed.

Lemma real_path_hard d p i : names d !! p = Some (Hard i) → real_path d p = p.
Proof. unfold real_path. by intros ->. Qed.

Lemma on_inode_lookup i f d n :
  inodes d !! i = Some n → inodes (on_inode i f d) = <[i := f n]> (inodes d).
Proof. unfold on_inode. by intros ->. Qed.

Lemma names_on_inode i f d : names (on_inode i f d) = names d.
Proof. unfold on_inode. by destruct (inodes d !! i). Qed.

Lemma splice_whole bs : splice 0 bs [] = bs.
Proof. unfold splice. simpl. by rewrite drop_nil, app_nil_r. Qed.

(** Every other name keeps its entry and every other file everything. *)
Definition others_kept (dest : PathBuf) (d d' : Disk) : Prop :=
  (∀ p e, p ≠ dest → names d !! p = Some e → names d' !! p = Some e) ∧
  (∀ i n, names d !! dest ≠ Some (Hard i) → inodes d !! i = Some n → inodes d' !! i = Some n).

Section Write.
Context `{K : Kernel} (Hquiet : quiet K).
Context (cwd : PathBuf) (name_hash : bytes → str) (display : PathBuf → str).
(** The disk before the write, the file written, its inode if it exists, and the new bytes. *)
Context (d0 : Disk) (dest : PathBuf) (orig : option (InodeId * Inode)) (bs : bytes).
Hypothesis (Hname : names d0 !! dest = Hard ∘ fst <$> orig).
Hypothesis (Hino : ∀ i n, orig = Some (i, n) → inodes d0 !! i = Some n).

Definition old_bytes : option bytes := i_bytes ∘ snd <$> orig.

(** A recovery copy of the original bytes under a name of its own. *)
Definition copy_holds (copy : PathBuf) (d : Disk) : Prop :=
  names d0 !! copy = None ∧
  (∃ random, copy = parent_of cwd dest ++ [copy_name name_hash dest random]) ∧
  ∃ k n, names d !! copy = Some (Hard k) ∧ inodes d0 !! k = None ∧ inodes d !! k = Some n ∧
    i_synced n = true ∧ Some (i_bytes n) = old_bytes.

(** Nothing that was there is gone or changed. *)
Definition grown (d : Disk) : Prop := names d0 ⊆ names d ∧ inodes d0 ⊆ inodes d.

(** The inode of the destination is being rewritten, with the copy [c] beside it; [s] says
    whether the bytes are synced. *)
Definition rewritten (b : bytes) (mode : N) (s : bool) (c : option PathBuf) (d : Disk) : Prop :=
  ∃ i n, orig = Some (i, n) ∧ names d0 ⊆ names d ∧ delete i (inodes d0) ⊆ inodes d ∧
    inodes d !! i = Some (MkInode b (i_uid n) (i_gid n) mode (i_xattrs n) s) ∧
    ∀ copy, c = Some copy → copy_holds copy d.

(** The destination's name leads to a new inode, whose bytes are synced. *)
Definition committed (j : InodeId) (n : Inode) (d : Disk) : Prop :=
  names d = <[dest := Hard j]> (names d0) ∧ inodes d0 ⊆ inodes d ∧ inodes d0 !! j = None ∧
  names d !! dest = Some (Hard j) ∧ inodes d !! j = Some n ∧ i_bytes n = bs ∧
  i_synced n = true.

(** A recovery copy beside the destination that holds the original bytes and is synced. *)
Definition copy_saved (copy : PathBuf) (d : Disk) : Prop :=
  names d0 !! copy = None ∧
  (∃ random, copy = parent_of cwd dest ++ [copy_name name_hash dest random]) ∧
  ∃ b, old_bytes = Some b ∧ durable_at d copy = Some b.

(** What a crash must find: the original as it was, the new bytes, or a copy of the old ones;
    the last two synced. *)
Definition original_kept (d : Disk) : Prop :=
  names d !! dest = names d0 !! dest ∧ ∀ i n, orig = Some (i, n) → inodes d !! i = Some n.
Definition recoverable (d : Disk) : Prop :=
  original_kept d ∨ durable_at d dest = Some bs ∨ ∃ copy, copy_saved copy d.

Definition guarantee (f : nat) (d : Disk) : Prop :=
  others_kept dest d0 d ∧ (recoverable d ∨ 1 ≤ f).

Abbreviation steps := (runs guarantee).

Lemma guarantee_S f d : guarantee f d → guarantee (S f) d.
Proof. intros [Hk _]. split; [done|]. right. lia. Qed.

Lemma grown_others d : grown d → others_kept dest d0 d.
Proof. intros [Hn Hi]. split; intros; by eapply lookup_weaken. Qed.

Lemma committed_others j nj d : committed j nj d → others_kept dest d0 d.
Proof.
  intros (Hn & Hi & _). split; intros; [|by eapply lookup_weaken].
  by rewrite Hn, lookup_insert_ne.
Qed.

Lemma rewritten_others b m s c d : rewritten b m s c d → others_kept dest d0 d.
Proof.
  intros (i & n & Ho & Hn & Hi & _). split; [intros; by eapply lookup_weaken|].
  intros k nk Hk Hnk. eapply lookup_weaken; [|exact Hi]. rewrite lookup_delete_ne; [done|]. intros ->.
  rewrite Hname, Ho in Hk. by apply Hk.
Qed.

Lemma grown_orig d i n : grown d → orig = Some (i, n) →
  names d !! dest = Some (Hard i) ∧ inodes d !! i = Some n.
Proof.
  intros [Hn Hi] Ho. split.
  - eapply lookup_weaken; [|exact Hn]. by rewrite Hname, Ho.
  - eapply lookup_weaken; [|exact Hi]. by apply Hino.
Qed.

Lemma grown_original d : is_Some orig → grown d → original_kept d.
Proof.
  intros [[i n] Ho] Hg. destruct (grown_orig d i n Hg Ho) as [Hd Hi]. split.
  - by rewrite Hd, Hname, Ho.
  - intros i' n' Ho'. rewrite Ho in Ho'. by injection Ho' as <- <-.
Qed.

Lemma copy_holds_saved copy d : copy_holds copy d → copy_saved copy d.
Proof.
  intros (Hnew & Hr & k & nk & Hk & _ & Hnk & Hs & Hb). split_and!; [done..|].
  exists (i_bytes nk). split; [done|]. by eapply durable_hard.
Qed.

Lemma rewritten_guarantee b mode s c d f :
  rewritten b mode s c d → (c = None → 1 ≤ f) → guarantee f d.
Proof.
  intros Hr Hf. split; [by eapply rewritten_others|]. destruct Hr as (i & n & _ & _ & _ & _ & Hc).
  destruct c as [copy|]; [|right; auto]. left. right. right. exists copy. by apply copy_holds_saved, Hc.
Qed.

Lemma grown_rewritten d i n :
  grown d → orig = Some (i, n) → rewritten (i_bytes n) (i_mode n) (i_synced n) None d.
Proof.
  intros Hg Ho. destruct (grown_orig _ _ _ Hg Ho) as [_ Hi]. destruct Hg as [Hn Hin].
  exists i, n. split_and!; try done; [|by destruct n].
  etransitivity; [apply delete_subseteq|done].
Qed.

(** ** Steps *)

Lemma steps_query {A} (ok : Disk → result IoError A) Q f d :
  guarantee f d → (∀ e t, fault t = Some e → Q (Err e) (S f) d) → Q (ok d) f d →
  steps (query ok) Q f d.
Proof. intros. apply (runs_query Hquiet); auto using guarantee_S. Qed.

Lemma steps_effect (ok : Disk → result IoError Disk) Q f d :
  guarantee f d → (∀ e t, fault t = Some e → Q (Err e) (S f) d) →
  match ok d with Ok d' => guarantee f d' ∧ Q (Ok tt) f d' | Err e => Q (Err e) f d end →
  steps (effect ok) Q f d.
Proof. intros. apply (runs_effect Hquiet); auto using guarantee_S. Qed.

Lemma steps_sync_parent p Q f d :
  guarantee f d → (∀ f', f ≤ f' → Q (Ok tt) f' d) → steps (sync_parent p) Q f d.
Proof.
  intros HG HQ. unfold sync_parent. apply runs_bind, runs_attempt. apply steps_query; [done|..].
  - intros e t _. apply runs_ret, HQ. lia.
  - destruct (decide _); [|apply runs_ret, HQ; lia]. apply runs_ignore, steps_query; [done|..].
    + intros e t _. apply HQ. lia.
    + apply HQ. lia.
Qed.

Lemma grown_guarantee f d : is_Some orig → grown d → guarantee f d.
Proof. intros Ho Hg. split; [by apply grown_others|]. left. left. by apply grown_original. Qed.

(** Calls on an inode that was not there before the write. *)
Lemma grown_on_inode k g d : inodes d0 !! k = None → grown d → grown (on_inode k g d).
Proof.
  intros Hk [Hn Hi]. split; [by rewrite names_on_inode|].
  unfold on_inode. destruct (inodes d !! k) as [n|]; [|done]. simpl.
  by apply insert_subseteq_r.
Qed.

Lemma grown_delete p d : names d0 !! p = None → grown d → grown (set_names (delete p (names d)) d).
Proof.
  intros Hp [Hn Hi]. split; [|done]. simpl. rewrite <-(delete_id (names d0) p) by done.
  by apply delete_mono.
Qed.

(** Removing the name of a file. *)
Lemma steps_remove p k (Q : result IoError () → nat → Disk → Prop) f d :
  names d !! p = Some (Hard k) → guarantee f d →
  guarantee f (set_names (delete p (names d)) d) →
  (∀ e, Q (Err e) (S f) d) → Q (Ok tt) f (set_names (delete p (names d)) d) →
  steps (remove_file p) Q f d.
Proof. intros Hp ????. apply steps_effect; auto. by rewrite Hp. Qed.

(** ** The recovery copy *)

Hypothesis (Hparent : is_dir d0 (parent_of cwd dest)).
Hypothesis (Hnew : ∀ t, names d0 !! (parent_of cwd dest ++ [copy_name name_hash dest (random_hex t)]) = None).

Lemma parent_snoc p x : parent (p ++ [x]) = Some p.
Proof using.
  unfold parent. destruct (p ++ [x]) as [|y q] eqn:E; [by destruct p|].
  by rewrite <-E, removelast_last.
Qed.

Lemma grown_is_dir p d : is_dir d0 p → grown d → is_dir d p.
Proof. intros [->|Hp] [Hn _]; [by left|]. right. by eapply lookup_weaken. Qed.

(** Creating a sibling of the destination. *)
Lemma steps_create x mode (Q : result IoError InodeId → nat → Disk → Prop) f d :
  guarantee f d → grown d →
  (∀ e t, fault t = Some e → Q (Err e) (S f) d) →
  (is_Some (names d !! (parent_of cwd dest ++ [x])) → Q (Err (os_error AlreadyExists)) f d) →
  (∀ k, names d !! (parent_of cwd dest ++ [x]) = None → inodes d !! k = None →
     let d' := MkDisk (<[parent_of cwd dest ++ [x] := Hard k]> (names d))
                 (<[k := MkInode [] euid egid (create_mode mode) ∅ false]> (inodes d)) in
     guarantee f d' ∧ Q (Ok k) f d') →
  steps (create_new (parent_of cwd dest ++ [x]) mode) Q f d.
Proof.
  intros HG Hg He Hx HQ. unfold create_new. apply (runs_call Hquiet); [eauto using guarantee_S|].
  destruct (names d !! _) eqn:E; simpl; [eauto|].
  rewrite parent_snoc. simpl. rewrite decide_True by (by eapply grown_is_dir).
  apply HQ; [done|]. apply not_elem_of_dom, is_fresh.
Qed.

Lemma grown_create p k n d :
  names d !! p = None → inodes d !! k = None → grown d →
  grown (MkDisk (<[p := Hard k]> (names d)) (<[k := n]> (inodes d))).
Proof.
  intros Hp Hk [Hn Hi]. split; simpl.
  - etransitivity; [done|by apply insert_subseteq].
  - etransitivity; [done|by apply insert_subseteq].
Qed.

Lemma grown_fresh_inode k d : inodes d !! k = None → grown d → inodes d0 !! k = None.
Proof. intros Hk [_ Hi]. by eapply lookup_weaken_None. Qed.
Lemma grown_fresh_name p d : names d !! p = None → grown d → names d0 !! p = None.
Proof. intros Hk [Hi _]. by eapply lookup_weaken_None. Qed.

(** Dropping a half-written copy. *)
Lemma steps_abandon {A} copy k e (Q : result IoError A → nat → Disk → Prop) f d :
  is_Some orig → grown d → names d !! copy = Some (Hard k) → names d0 !! copy = None →
  (∀ f' d', f ≤ f' → grown d' → Q (Err e) f' d') →
  steps (_ ← ignore (remove_file copy); fail e) Q f d.
Proof.
  intros Hs Hg Hc Hc0 HQ. apply runs_bind, runs_ignore.
  eapply steps_remove; [done|by apply grown_guarantee|by apply grown_guarantee, grown_delete| |].
  - intros e'. apply runs_fail, HQ; [lia|done].
  - apply runs_fail, HQ; [lia|by apply grown_delete].
Qed.

Lemma steps_save i n f d :
  orig = Some (i, n) → grown d → names d = names d0 ∨ 1 ≤ f →
  steps (save cwd name_hash dest (i_bytes n)) (λ r f' d',
    f ≤ f' ∧ grown d' ∧ match r with
      | Ok copy => copy_holds copy d' ∧ (f' = 0 → delete copy (names d') = names d0)
      | Err _ => 1 ≤ f' end) f d.
Proof.
  intros Ho Hg Hclean. assert (is_Some orig) as Hs by eauto.
  unfold save. apply runs_bind. apply (runs_getrandom Hquiet);
    [by apply grown_guarantee|by apply guarantee_S, grown_guarantee|intros; split_and!; auto; lia|intros t].
  apply runs_bind. set (copy := parent_of cwd dest ++ [copy_name name_hash dest (random_hex t)]).
  apply steps_create; [by apply grown_guarantee|done| | |].
  { intros e t' _. split_and!; auto; lia. }
  { intros [x Hx]. unfold copy in Hx. split_and!; auto. destruct Hclean as [Hc|]; [|done].
    by rewrite Hc, Hnew in Hx. }
  fold copy. intros k Hc Hk d1. assert (grown d1) as Hg1 by (by apply grown_create).
  pose proof (grown_fresh_name _ _ Hc Hg) as Hc0. pose proof (grown_fresh_inode _ _ Hk Hg) as Hk0.
  split; [by apply grown_guarantee|]. apply runs_bind, runs_attempt, runs_bind.
  assert (names d1 !! copy = Some (Hard k)) as Hd1c by apply lookup_insert_eq.
  apply (runs_call Hquiet).
  { intros e t' _. assert (grown (write_inode k 0 (take (partial t') (i_bytes n)) d1)) as Hg2
      by (by apply grown_on_inode).
    split; [by apply grown_guarantee|]. apply steps_abandon with k; auto;
      [by unfold write_inode; rewrite names_on_inode|]. intros. split_and!; auto; lia. }
  cbn [fst snd]. set (d2 := write_inode k 0 (i_bytes n) d1).
  assert (grown d2) as Hg2 by (by apply grown_on_inode).
  assert (names d2 !! copy = Some (Hard k)) as Hd2c by (unfold d2, write_inode; by rewrite names_on_inode).
  split; [by apply grown_guarantee|]. apply runs_bind, steps_effect; [by apply grown_guarantee|..].
  { intros e t' _. apply steps_abandon with k; auto. intros. split_and!; auto; lia. }
  set (d3 := on_inode k mark_synced d2). assert (grown d3) as Hg3 by (by apply grown_on_inode).
  split; [by apply grown_guarantee|].
  apply steps_sync_parent; [by apply grown_guarantee|]. intros f' Hf'. apply runs_ret.
  assert (names d3 = <[copy := Hard k]> (names d)) as Hn3
    by (unfold d3, d2, write_inode; by rewrite !names_on_inode).
  split_and!; [done..| |].
  2:{ intros ->. rewrite Hn3. destruct Hclean as [Hcl|]; [|lia]. by rewrite delete_insert_id. }
  split_and!; [done|by exists (random_hex t)|]. exists k. eexists.
  split_and!; [rewrite Hn3; apply lookup_insert_eq|done| | |].
  - unfold d3. erewrite on_inode_lookup; [apply lookup_insert_eq|].
    unfold d2, write_inode. erewrite on_inode_lookup by apply lookup_insert_eq. apply lookup_insert_eq.
  - done.
  - simpl. rewrite splice_whole. unfold old_bytes. by rewrite Ho.
Qed.

(** ** Rewriting in place *)

Lemma rewritten_on_inode i n b m s c d b' m' s' g :
  orig = Some (i, n) → rewritten b m s c d →
  g (MkInode b (i_uid n) (i_gid n) m (i_xattrs n) s) = MkInode b' (i_uid n) (i_gid n) m' (i_xattrs n) s' →
  rewritten b' m' s' c (on_inode i g d).
Proof.
  intros Ho (i' & n' & Ho' & Hn & Hi & Hd & Hc) Hgn. rewrite Ho in Ho'. injection Ho' as <- <-.
  exists i, n. rewrite names_on_inode, (on_inode_lookup _ _ _ _ Hd), Hgn.
  split_and!; [done..| | |].
  - rewrite <-(insert_delete_eq (inodes d)). apply insert_subseteq_r; [apply lookup_delete_eq|].
    etransitivity; [|by apply delete_mono]. by rewrite delete_delete_eq.
  - apply lookup_insert_eq.
  - intros copy ->. destruct (Hc copy eq_refl) as (Hnew' & Hr & k & nk & Hk & Hk0 & Hnk & Hsy & Hb).
    split_and!; [done..|]. exists k, nk. split_and!; try done; [by rewrite names_on_inode|].
    rewrite (on_inode_lookup _ _ _ _ Hd), Hgn. rewrite lookup_insert_ne; [done|].
    intros ->. by rewrite (Hino _ _ Ho) in Hk0.
Qed.

Lemma steps_rewrite i n content b m s c (Q : result IoError () → nat → Disk → Prop) f d :
  orig = Some (i, n) → rewritten b m s c d → (c = None → 1 ≤ f) →
  (∀ m' d', rewritten content m' true c d' → names d' = names d → Q (Ok tt) f d') →
  (∀ e b' m' s' d', rewritten b' m' s' c d' → Q (Err e) (S f) d') →
  steps (rewrite i content) Q f d.
Proof.
  intros Ho Hr Hf Hok Herr. unfold rewrite.
  apply runs_bind, steps_effect; [by eapply rewritten_guarantee|by intros; eapply Herr|].
  set (d1 := on_inode i _ d). assert (rewritten [] (write_mode m) false c d1) as H1
    by (by eapply rewritten_on_inode).
  split; [by eapply rewritten_guarantee|].
  apply runs_bind, steps_query; [by eapply rewritten_guarantee|by intros; eapply Herr|].
  apply runs_bind, (runs_call Hquiet).
  - intros e t _. set (d2 := write_inode i _ _ d1).
    assert (rewritten (splice 0 (take (partial t) content) []) (write_mode (write_mode m)) false c d2) as H2
      by (by eapply rewritten_on_inode).
    split; [eapply rewritten_guarantee; [done|]; intros; lia|by eapply Herr].
  - cbn [fst snd]. assert (rewritten content (write_mode (write_mode m)) false c (write_inode i 0 content d1)) as H2.
    { eapply rewritten_on_inode; [done..|]. simpl. by rewrite splice_whole. }
    split; [by eapply rewritten_guarantee|].
    apply runs_map_err, steps_effect; [by eapply rewritten_guarantee|by intros; eapply Herr|].
    assert (rewritten content (write_mode (write_mode m)) true c
              (on_inode i mark_synced (write_inode i 0 content d1))) as H3 by (by eapply rewritten_on_inode).
    split; [by eapply rewritten_guarantee|].
    eapply Hok; [done|]. unfold d1, write_inode. by rewrite !names_on_inode.
Qed.

(** The file holds the new bytes and the copy is dropped. *)
Lemma rewritten_drop_copy b m s copy d :
  rewritten b m s (Some copy) d →
  (∃ k, names d !! copy = Some (Hard k)) ∧ rewritten b m s None (set_names (delete copy (names d)) d).
Proof.
  intros (i & n & Ho & Hn & Hi & Hd & Hc).
  destruct (Hc copy eq_refl) as (Hnew' & Hr & k & nk & Hk & _). split; [by exists k|].
  exists i, n. split_and!; try done. simpl. rewrite <-(delete_id (names d0) copy) by done.
  by apply delete_mono.
Qed.

Lemma rewritten_weaken b m s c d : rewritten b m s c d → rewritten b m s None d.
Proof. intros (i & n & ? & ? & ? & ? & _). exists i, n. by split_and!. Qed.

Lemma rewritten_dest b m s c d i n :
  orig = Some (i, n) → rewritten b m s c d →
  names d !! dest = Some (Hard i) ∧
  inodes d !! i = Some (MkInode b (i_uid n) (i_gid n) m (i_xattrs n) s).
Proof.
  intros Ho (i' & n' & Ho' & Hn & _ & Hd & _). rewrite Ho in Ho'. injection Ho' as <- <-.
  split; [|done]. eapply lookup_weaken; [|exact Hn]. by rewrite Hname, Ho.
Qed.

Lemma rewritten_content b m s c d i n :
  orig = Some (i, n) → rewritten b m s c d → content_at_path d dest = Some b.
Proof. intros Ho Hr. destruct (rewritten_dest _ _ _ _ _ _ _ Ho Hr) as [Hd Hi]. exact (content_hard _ _ _ _ Hd Hi). Qed.

Lemma rewritten_durable b m c d i n :
  orig = Some (i, n) → rewritten b m true c d → durable_at d dest = Some b.
Proof. intros Ho Hr. destruct (rewritten_dest _ _ _ _ _ _ _ Ho Hr) as [Hd Hi]. exact (durable_hard _ _ _ _ Hd Hi eq_refl). Qed.

Lemma steps_discard b m s c (Q : result IoError () → nat → Disk → Prop) f d :
  is_Some orig → rewritten b m s c d → 1 ≤ f ∨ b = bs ∧ s = true →
  (∀ f' d', f ≤ f' → rewritten b m s None d' →
     (f' = f → names d' = match c with Some copy => delete copy (names d) | None => names d end) →
     Q (Ok tt) f' d') →
  steps (discard c) Q f d.
Proof.
  intros [[i n] Ho] Hr Hb HQ. destruct c as [copy|]; simpl; [|apply runs_ret, HQ; auto].
  destruct (rewritten_drop_copy _ _ _ _ _ Hr) as [[k Hk] Hr'].
  assert (∀ d c, rewritten b m s c d → guarantee f d) as HG.
  { intros d' c' H. split; [by eapply rewritten_others|]. destruct Hb as [Hf|[-> ->]]; [by right|].
    left. right. left. by eapply rewritten_durable. }
  apply runs_ignore. eapply steps_remove; [done|by eapply HG..| |].
  - intros e. apply HQ; [lia|by eapply rewritten_weaken|lia].
  - by apply HQ.
Qed.

(** What an in-place write leaves. *)
Definition mode_kept (original : Stat) (warnings : list str) (m : N) : Prop :=
  N.land m MODE_ALL = N.land (s_mode original) MODE_ALL ∨
  ∃ now, mode_not_restored display dest (N.land (s_mode original) MODE_ALL) now ∈ warnings.

(** A failed write of a file with bytes [b]: the bytes are back; or the new ones are there,
    with a copy of the old ones or without one; or the file is damaged, and the error names
    the copy, or no copy could be made, or the file could not be read. *)
Definition read_refused : Prop := ∃ t e, fault t = Some e ∧ io_kind e = PermissionDenied.
Inductive failed_write (b : bytes) (f : nat) (d : Disk) : IoError → Prop :=
  | failed_restored e m s : rewritten b m s None d → failed_write b f d e
  | failed_late e m copy : rewritten bs m true (Some copy) d → failed_write b f d e
  | failed_late_uncopied e m : rewritten bs m true None d → 2 ≤ f → failed_write b f d e
  | failed_damaged error restore b' m s copy :
      rewritten b' m s (Some copy) d →
      failed_write b f d (restore_failed display dest error restore (Some copy))
  | failed_uncopied error restore b' m s :
      rewritten b' m s None d → 3 ≤ f →
      failed_write b f d (restore_failed display dest error restore None)
  | failed_unread e b' m s : rewritten b' m s None d → read_refused → 2 ≤ f → failed_write b f d e.

Definition in_place_post (original : Stat) (b : bytes) (r : result IoError SourceWriteOutcome)
    (f : nat) (d : Disk) : Prop :=
  match r with
  | Ok o => sw_mode o = InPlace ∧ (f = 0 → names d = names d0) ∧
      ∃ m, rewritten bs m true None d ∧ mode_kept original (sw_warnings o) m
  | Err e => 1 ≤ f ∧ failed_write b f d e
  end.

Lemma failed_write_rewritten b f d e : failed_write b f d e → ∃ b' m s, rewritten b' m s None d.
Proof. intros []; eauto using rewritten_weaken. Qed.

Lemma steps_restore_mode original c m ws (Q : result IoError (list str) → nat → Disk → Prop) f d :
  is_Some orig → rewritten bs m true c d → (c = None → 1 ≤ f) →
  (∀ e, Q (Err e) (S f) d) →
  (∀ ws' m' f' d', f ≤ f' → rewritten bs m' true c d' → mode_kept original ws' m' → names d' = names d →
     Q (Ok ws') f' d') →
  ∀ i n, orig = Some (i, n) → steps (restore_mode display dest i original ws) Q f d.
Proof.
  intros Hs Hr Hf Herr Hok i n Ho. unfold restore_mode.
  assert (∀ m d, rewritten bs m true c d →
    ∃ st, ok_or (os_error OtherError) (stat_inode d i <$> inodes d !! i) = Ok st ∧ s_mode st = m) as Hst.
  { intros m1 d1 (i' & n' & Ho' & _ & _ & Hd & _). rewrite Ho in Ho'. injection Ho' as <- <-.
    rewrite Hd. eexists. by split. }
  apply runs_bind, steps_query; [by eapply rewritten_guarantee|by intros|].
  destruct (Hst _ _ Hr) as (st & -> & ->). destruct (decide _) as [Heq|Hne].
  { apply runs_ret. apply (Hok ws m); [lia|done|by left|done]. }
  assert (∀ m' f' d', f ≤ f' → rewritten bs m' true c d' → names d' = names d →
    steps (mret (ws ++ [mode_not_restored display dest (N.land (s_mode original) MODE_ALL)
                          (N.land m MODE_ALL)])) Q f' d') as Hwarn.
  { intros m' f' d' Hf' Hr' Hns. apply runs_ret. eapply Hok; [done..| |done]. right. eexists.
    apply elem_of_app. right. by left. }
  apply runs_bind, runs_attempt, steps_effect; [by eapply rewritten_guarantee| |].
  { intros e t _. apply runs_bind, runs_ret. eapply (Hwarn m); [lia|done..]. }
  set (d1 := on_inode i _ d).
  assert (rewritten bs (chmod_mode (s_mode original)) true c d1) as Hr1 by (by eapply rewritten_on_inode).
  assert (names d1 = names d) as Hn1 by apply names_on_inode.
  split; [by eapply rewritten_guarantee|]. apply runs_bind, runs_bind, runs_attempt, steps_query;
    [by eapply rewritten_guarantee|..].
  { intros e t _. apply runs_ret. eapply Hwarn; [lia|done..]. }
  destruct (Hst _ _ Hr1) as (st1 & -> & ->). apply runs_ret. case_bool_decide as Hw.
  - apply runs_ret. eapply Hok; [lia|done|by left|done].
  - eapply Hwarn; [lia|done..].
Qed.

Lemma steps_open_in_place i n f d :
  orig = Some (i, n) → grown d →
  steps (open_in_place dest) (λ r f' d', d' = d ∧ f ≤ f' ∧
    match r with
    | Ok (file, saved) => file = i ∧ (saved = Some (i_bytes n) ∨ saved = None ∧ 1 ≤ f' ∧ read_refused)
    | Err _ => 1 ≤ f'
    end) f d.
Proof.
  intros Ho Hg. destruct (grown_orig _ _ _ Hg Ho) as [Hd Hi].
  assert (guarantee f d) as HG by (apply grown_guarantee; eauto).
  assert (guarantee (S f) d) as HG' by (apply grown_guarantee; eauto).
  unfold open_in_place. apply runs_bind, runs_attempt, steps_query; [done|..].
  - intros e t Ht. destruct (decide _) as [Hkind|]; [|apply runs_fail; split_and!; [done|lia..]].
    apply runs_bind, steps_query; [done|intros; split_and!; [done|lia..]|]. rewrite (real_path_hard _ _ _ Hd), Hd.
    apply runs_ret. split_and!; auto. right. split_and!; [done|lia|by exists t, e].
  - rewrite (real_path_hard _ _ _ Hd), Hd. apply runs_bind, steps_query; [done|intros; split_and!; [done|lia..]|].
    rewrite Hi. apply runs_ret. auto.
Qed.

(** A copy is made, or one more call failed. *)
Lemma steps_save_copy i n saved ws f d :
  orig = Some (i, n) → grown d → names d = names d0 ∨ 1 ≤ f →
  saved = Some (i_bytes n) ∨ saved = None ∧ 1 ≤ f ∧ read_refused →
  steps (save_copy cwd name_hash display dest saved ws) (λ r f' d', ∃ c ws, r = Ok (c, ws) ∧ f ≤ f' ∧ grown d' ∧
    match c with
    | Some copy => saved = Some (i_bytes n) ∧ copy_holds copy d' ∧ (f' = 0 → delete copy (names d') = names d0)
    | None => 1 ≤ f'
    end) f d.
Proof.
  intros Ho Hg Hclean Hsaved. unfold save_copy. destruct Hsaved as [->|(-> & Hf & _)].
  - apply runs_bind, runs_attempt. eapply runs_mono; [by apply (steps_save i n)|].
    intros [copy|e] f2 d2 (Hf2 & Hg2 & H2); apply runs_ret; [destruct H2|]; eauto 10.
  - apply runs_ret. eauto 10.
Qed.

(** Putting the bytes back after a failed rewrite. *)
Lemma steps_restore_original i n saved original b m s c error f d :
  orig = Some (i, n) → rewritten b m s c d → 1 ≤ f → (c = None → 2 ≤ f) →
  saved = Some (i_bytes n) ∨ saved = None ∧ c = None ∧ read_refused →
  steps (restore_original display dest i saved c error) (in_place_post original (i_bytes n)) f d.
Proof.
  intros Ho Hr Hf Hcf Hsaved. assert (is_Some orig) as Hs by eauto.
  unfold restore_original. destruct Hsaved as [->|(-> & -> & Href)].
  - apply runs_bind, runs_attempt. eapply steps_rewrite; [done..|lia| |].
    + intros m4 d4 Hr4 _. apply runs_bind. eapply steps_discard; [done..|by left|].
      intros f5 d5 Hf5 Hr5 _. apply runs_fail. split; [lia|]. by eapply failed_restored.
    + intros e4 b4 m4 s4 d4 Hr4. apply runs_fail. split; [lia|]. destruct c as [copy|].
      * by eapply failed_damaged.
      * eapply failed_uncopied; [done|]. specialize (Hcf eq_refl). lia.
  - apply runs_fail. split; [lia|]. eapply failed_unread; eauto.
Qed.

Lemma steps_write_in_place i n original ws f d :
  orig = Some (i, n) → grown d → names d = names d0 ∨ 1 ≤ f →
  steps (write_source_in_place cwd name_hash display dest original bs ws)
    (in_place_post original (i_bytes n)) f d.
Proof.
  intros Ho Hg Hclean. assert (is_Some orig) as Hs by eauto.
  assert (∀ e f d, 1 ≤ f → grown d → 1 ≤ f ∧ failed_write (i_bytes n) f d e) as Hfail.
  { intros e f' d' Hf' Hg'. split; [done|]. eapply failed_restored. by eapply grown_rewritten. }
  unfold write_source_in_place. apply runs_bind.
  eapply runs_mono; [by apply (steps_open_in_place i n)|].
  intros [[file saved]|e] f1 d1 (-> & Hf1 & H1); [|by apply Hfail].
  destruct H1 as [-> Hsaved]. apply runs_bind.
  assert (names d = names d0 ∨ 1 ≤ f1) as Hclean1 by (destruct Hclean; [by left|right; lia]).
  eapply runs_mono; [by apply (steps_save_copy i n)|].
  intros r f2 d2 (c & ws2 & -> & Hf2 & Hg2 & Hc).
  assert (rewritten (i_bytes n) (i_mode n) (i_synced n) c d2) as Hr2.
  { destruct (grown_rewritten _ _ _ Hg2 Ho) as (i' & n' & ? & ? & ? & ? & _).
    exists i', n'. split_and!; [done..|]. intros copy ->. by destruct Hc as (_ & ? & _). }
  assert (c = None → 1 ≤ f2) as Hcf by (by intros ->).
  apply runs_bind, runs_attempt. eapply steps_rewrite; [done..| |].
  - intros m3 d3 Hr3 Hn3. apply runs_bind. eapply steps_restore_mode; [done..| | |done].
    + intros e. split; [lia|]. destruct c as [copy|]; [by eapply failed_late|].
      eapply failed_late_uncopied; [done|]. specialize (Hcf eq_refl). lia.
    + intros ws3 m4 f4 d4 Hf4 Hr4 Hm Hn4. apply runs_bind. eapply steps_discard; [done..|by right|].
      intros f5 d5 Hf5 Hr5 Hn5. apply runs_ret. split_and!; [done| |eauto].
      intros ->. rewrite Hn5, Hn4, Hn3 by lia. destruct c as [copy|]; [|lia].
      destruct Hc as (_ & _ & Hc). apply Hc. lia.
  - intros e b3 m3 s3 d3 Hr3. eapply steps_restore_original; [done..|lia|intros Hn; specialize (Hcf Hn); lia|].
    destruct Hsaved as [->|(-> & _ & Href)]; [by left|]. right. destruct c; [by destruct Hc|done].
Qed.

(** ** Replacing *)

(** The temporary [temp] exists beside the untouched original. *)
Record staged (temp : PathBuf) (j : InodeId) (nj : Inode) (d : Disk) : Prop := {
  sg_names : names d = <[temp := Hard j]> (names d0);
  sg_new : names d0 !! temp = None;
  sg_inodes : inodes d0 ⊆ inodes d;
  sg_fresh : inodes d0 !! j = None;
  sg_inode : inodes d !! j = Some nj;
  sg_other : temp ≠ dest }.

Lemma untouched_guarantee f d :
  grown d → (orig = None → names d !! dest = None) → guarantee f d.
Proof.
  intros Hg Hn. assert (is_Some orig ∨ orig = None) as [Ho|Ho] by (destruct orig; eauto).
  - by apply grown_guarantee.
  - split; [by apply grown_others|]. left. left. split; [by rewrite (Hn Ho), Hname, Ho|].
    intros i n Ho'. by rewrite Ho in Ho'.
Qed.

Lemma staged_grown temp j nj d : staged temp j nj d → grown d.
Proof. intros [Hd Hn Hi _ _ _]. split; [rewrite Hd; by apply insert_subseteq|done]. Qed.

Lemma staged_dest temp j nj d : staged temp j nj d → names d !! dest = names d0 !! dest.
Proof. intros [-> _ _ _ _ Hne]. by apply lookup_insert_ne. Qed.

Lemma staged_guarantee temp j nj f d : staged temp j nj d → guarantee f d.
Proof.
  intros Hs. apply untouched_guarantee; [by eapply staged_grown|].
  intros Ho. by rewrite (staged_dest _ _ _ _ Hs), Hname, Ho.
Qed.

Lemma staged_on_inode temp j nj g d : staged temp j nj d → staged temp j (g nj) (on_inode j g d).
Proof.
  intros [Hn Hnew' Hi Hf Hj Hne]. split; [by rewrite names_on_inode|done| |done| |done].
  - rewrite (on_inode_lookup _ _ _ _ Hj). by apply insert_subseteq_r.
  - rewrite (on_inode_lookup _ _ _ _ Hj). apply lookup_insert_eq.
Qed.

Lemma steps_for_each {A} (g : A → M ()) (I : nat → Disk → Prop) l f d :
  (∀ a f d, I f d → steps (g a) (λ _ f' d', I f' d') f d) → I f d →
  steps (for_each g l) (λ _ f' d', I f' d') f d.
Proof.
  intros Hg. revert f d. induction l as [|a l IH]; intros f d HI; simpl; [by apply runs_ret|].
  apply runs_bind. eapply runs_mono; [by apply Hg|]. intros [[]|e] f' d' HI'; [by apply IH|done].
Qed.

(** A failing call does not pretend that a file, or the support of attributes, is missing. *)
Hypothesis (Hhonest : honest K).

Lemma steps_xattrs_snapshot (k : InodeId) (n : Inode) (Q : result IoError (gmap (list N) bytes) → nat → Disk → Prop) f d :
  guarantee f d → inodes d !! k = Some n → (∀ e, Q (Err e) (S f) d) → Q (Ok (i_xattrs n)) f d →
  steps (xattrs_snapshot k) Q f d.
Proof.
  intros HG Hk He Hok. unfold xattrs_snapshot. apply runs_bind, runs_attempt, steps_query; [done|..].
  - intros e t Ht. rewrite decide_False by (by eapply Hhonest). by apply runs_fail.
  - rewrite Hk. by apply runs_ret.
Qed.

(** A staged temporary that is still empty and has the mode [chmod] gives. *)
Definition dressed (temp : PathBuf) (j : InodeId) (mode : N) (f0 f : nat) (d : Disk) : Prop :=
  f0 ≤ f ∧ ∃ nj, staged temp j nj d ∧ i_bytes nj = [] ∧ i_mode nj = mode.

Lemma steps_xattrs_replace_all temp j mode wanted f0 f d :
  dressed temp j mode f0 f d →
  steps (xattrs_replace_all j wanted) (λ _ f' d', dressed temp j mode f0 f' d') f d.
Proof.
  intros Hd. unfold xattrs_replace_all. apply runs_bind.
  assert (∀ g f d, (∀ n, i_bytes (g n) = i_bytes n ∧ i_mode (g n) = i_mode n) →
    dressed temp j mode f0 f d →
    steps (effect (λ d, Ok (on_inode j g d))) (λ _ f' d', dressed temp j mode f0 f' d') f d) as Hstep.
  { intros g f1 d1 Hgn (Hf1 & nj & Hs & Hb & Hm).
    assert (staged temp j (g nj) (on_inode j g d1)) as Hs' by (by apply staged_on_inode).
    destruct (Hgn nj) as [Hb' Hm'].
    apply steps_effect; [by eapply staged_guarantee| |].
    - intros e t _. split; [lia|]. eauto.
    - split; [by eapply staged_guarantee|]. split; [done|]. exists (g nj). split_and!; congruence. }
  destruct Hd as (Hf & nj & Hs & Hb & Hm).
  eapply steps_xattrs_snapshot; [by eapply staged_guarantee|by apply (sg_inode _ _ _ _ Hs)|..].
  - intros e. split; [lia|]. eauto.
  - apply runs_bind. eapply runs_mono.
    + apply (steps_for_each _ (dressed temp j mode f0)).
      * intros a f1 d1 Hd1. apply Hstep; [by intros []|done].
      * split; [done|]. eauto.
    + intros [[]|e] f' d' Hd'; [|done]. apply steps_for_each; [|done].
      intros a f1 d1 Hd1. apply Hstep; [by intros []|done].
Qed.

(** The stat of the original file. *)
Definition describes (original : Stat) : Prop :=
  ∃ i n, orig = Some (i, n) ∧ s_id original = i ∧ s_uid original = i_uid n ∧
    s_gid original = i_gid n ∧ s_mode original = i_mode n.

(** The replacement carries the original's access metadata. *)
Definition same_access (n nj : Inode) : Prop :=
  i_uid nj = i_uid n ∧ i_gid nj = i_gid n ∧ i_mode nj = i_mode n ∧ i_xattrs nj = i_xattrs n.

(** What a staged run answers: an empty temporary, dressed like the original if [b]. *)
Definition dressed_as (temp : PathBuf) (j : InodeId) (original : Stat) (f0 : nat) (b : bool)
    (f : nat) (d : Disk) : Prop :=
  f0 ≤ f ∧ ∃ nj, staged temp j nj d ∧ i_bytes nj = [] ∧
    (b = true → chmod_mode (s_mode original) = s_mode original ∧
       ∀ i n, orig = Some (i, n) → same_access n nj).

Lemma steps_copy_access temp j nj original f d :
  describes original → staged temp j nj d → i_bytes nj = [] →
  steps (copy_access dest j original)
    (λ r f' d', ∃ b, r = Ok b ∧ dressed_as temp j original f b f' d') f d.
Proof.
  intros (i & n & Ho & Hid & Hu & Hg & Hm) Hs Hb. unfold copy_access. apply runs_or_false.
  set (Q := λ (r : result IoError bool) f' d', _).
  assert (∀ f' d' nj', f ≤ f' → staged temp j nj' d' → i_bytes nj' = [] → Q (Ok false) f' d') as Hno.
  { intros f' d' nj' Hf Hs' Hb'. exists false. split; [done|]. split; [done|]. by exists nj'. }
  assert (∀ e f' d' nj', f ≤ f' → staged temp j nj' d' → i_bytes nj' = [] → Q (Err e) f' d') as Herr.
  { intros e f' d' nj' Hf Hs' Hb'. exists false. split; [done|]. split; [done|]. by exists nj'. }
  destruct (grown_orig _ _ _ (staged_grown _ _ _ _ Hs) Ho) as [Hd Hi].
  apply runs_bind, steps_query; [by eapply staged_guarantee|by intros; eapply Herr; eauto|].
  rewrite (real_path_hard _ _ _ Hd), Hd.
  apply runs_bind, steps_query; [by eapply staged_guarantee|by intros; eapply Herr; eauto|].
  rewrite Hi. simpl. rewrite decide_False by (rewrite Hid; tauto).
  apply runs_bind, steps_query; [by eapply staged_guarantee|by intros; eapply Herr; eauto|].
  rewrite (sg_inode _ _ _ _ Hs). cbn [fmap option_fmap option_map ok_or].
  apply runs_bind. eapply (runs_mono _ _ (λ r f' d', f ≤ f' ∧ ∃ nj, staged temp j nj d' ∧ i_bytes nj = [])).
  { case_decide; [|apply runs_ret; eauto].
    assert (∀ g, staged temp j (g nj) (on_inode j g d)) as Hs' by (intros; by apply staged_on_inode).
    apply steps_effect; [by eapply staged_guarantee|intros; eauto|].
    split; [by eapply staged_guarantee|]. eauto. }
  intros r f1 d1 (Hf1 & nj1 & Hs1 & Hb1). destruct r as [[]|e]; [|by eapply Herr].
  apply runs_bind.
  eapply (runs_mono _ _ (λ r f' d', if is_err r then f ≤ f' ∧ ∃ nj, staged temp j nj d' ∧ i_bytes nj = []
     else dressed temp j (chmod_mode (s_mode original)) f f' d')).
  { assert (∀ g, staged temp j (g nj1) (on_inode j g d1)) as Hs' by (intros; by apply staged_on_inode).
    apply steps_effect; [by eapply staged_guarantee|intros; split; [lia|eauto]|].
    split; [by eapply staged_guarantee|]. split; [done|]. eauto. }
  intros r f2 d2 H2. destruct r as [[]|e]; [|destruct H2 as (? & ? & ? & ?); by eapply Herr].
  simpl in H2. pose proof H2 as (Hf2 & nj2 & Hs2 & Hb2 & _).
  destruct (grown_orig _ _ _ (staged_grown _ _ _ _ Hs2) Ho) as [_ Hi2].
  apply runs_bind. eapply steps_xattrs_snapshot; [by eapply staged_guarantee|done|..].
  { intros e. eapply Herr; [|done..]. lia. }
  apply runs_bind. eapply runs_mono; [by eapply steps_xattrs_replace_all|].
  intros r f3 d3 (Hf3 & nj3 & Hs3 & Hb3 & Hm3). destruct r as [[]|e]; [|by eapply Herr].
  apply runs_bind, steps_query; [by eapply staged_guarantee|by intros; eapply Herr; eauto|].
  rewrite (sg_inode _ _ _ _ Hs3). cbn [fmap option_fmap option_map ok_or stat_inode s_uid s_gid s_mode].
  destruct (_ && _ && _) eqn:Hsame; [|apply runs_ret; by eapply Hno].
  rewrite !andb_true_iff, !N.eqb_eq in Hsame. destruct Hsame as [[Hu3 Hg3] Hmode3].
  apply runs_bind. eapply steps_xattrs_snapshot; [by eapply staged_guarantee|by apply (sg_inode _ _ _ _ Hs3)|..].
  { intros e. eapply Herr; [|done..]. lia. }
  apply runs_ret. case_bool_decide as Hx; [|by eapply Hno].
  exists true. split; [done|]. split; [done|]. exists nj3. split_and!; [done..|]. intros _. split; [congruence|].
  intros i' n' Ho'. rewrite Ho in Ho'. injection Ho' as <- <-. by split_and!; congruence.
Qed.

(** ** Committing the replacement *)

Definition untouched (d : Disk) : Prop := grown d ∧ (orig = None → names d !! dest = None).

Definition replace_post (r : result IoError SourceWriteOutcome) (f : nat) (d : Disk) : Prop :=
  match r with
  | Ok o => sw_mode o = Replaced ∧
      ∃ j nj, committed j nj d ∧ ∀ i n, orig = Some (i, n) → same_access n nj
  | Err _ => 1 ≤ f ∧ untouched d
  end.

Lemma staged_untouched temp j nj d : staged temp j nj d → untouched d.
Proof.
  intros Hs. split; [by eapply staged_grown|]. intros Ho.
  by rewrite (staged_dest _ _ _ _ Hs), Hname, Ho.
Qed.

Lemma staged_removed temp j nj d :
  staged temp j nj d →
  names (set_names (delete temp (names d)) d) = names d0 ∧ untouched (set_names (delete temp (names d)) d).
Proof.
  intros [Hd Hn Hi _ _ _]. assert (delete temp (names d) = names d0) as Heq
    by (by rewrite Hd, delete_insert_id).
  split; [done|]. split; [split; [by rewrite <-Heq|done]|]. intros Ho. simpl. by rewrite Heq, Hname, Ho.
Qed.

(** Leaving the block before the rename. *)
Lemma steps_drop_staged {A} temp j nj (r : result IoError A) (Q : result IoError A → nat → Disk → Prop) f d :
  staged temp j nj d → (∀ f' d', f ≤ f' → untouched d' → Q r f' d') →
  steps (remove_file temp) (λ _ f' d', Q r f' d') f d.
Proof.
  intros Hs HQ. destruct (staged_removed _ _ _ _ Hs) as [_ Hu].
  eapply steps_remove; [rewrite (sg_names _ _ _ _ Hs); apply lookup_insert_eq| | | |].
  - by eapply staged_guarantee.
  - destruct Hu. by apply untouched_guarantee.
  - intros e. apply HQ; [lia|]. by eapply staged_untouched.
  - by apply HQ.
Qed.

Lemma committed_guarantee j nj f d : committed j nj d → guarantee f d.
Proof.
  intros Hc. split; [by eapply committed_others|]. destruct Hc as (_ & _ & _ & Hd & Hj & Hb & Hs).
  left. right. left. rewrite <-Hb. by eapply durable_hard.
Qed.

Lemma staged_renamed temp j nj d :
  staged temp j nj d → i_bytes nj = bs → i_synced nj = true →
  names d !! temp = Some (Hard j) ∧ (∀ k, names d !! dest = Some (Hard k) → j ≠ k) ∧
  names d !! dest ≠ Some Dir ∧
  committed j nj (set_names (<[dest := Hard j]> (delete temp (names d))) d) ∧
  <[dest := Hard j]> (delete temp (names d)) !! temp = None.
Proof.
  intros Hs Hb Hsync. pose proof (staged_dest _ _ _ _ Hs) as Hdd. destruct Hs as [Hd Hn Hi Hf Hj Hne].
  assert (delete temp (names d) = names d0) as Heq by (by rewrite Hd, delete_insert_id).
  rewrite Heq, Hdd, Hname. split_and!.
  - rewrite Hd. apply lookup_insert_eq.
  - intros k ([i n] & Ho & [= ->])%fmap_Some ->. simpl in Hf. by rewrite (Hino _ _ Ho) in Hf.
  - by destruct orig.
  - split_and!; try done; simpl; apply lookup_insert_eq.
  - by rewrite lookup_insert_ne.
Qed.

Lemma steps_commit temp j nj original ws f d :
  staged temp j nj d → i_bytes nj = [] →
  (∀ m, original = Some m → describes m ∧ chmod_mode (s_mode m) = s_mode m ∧
     ∀ i n, orig = Some (i, n) → same_access n nj) →
  (original = None → orig = None) →
  steps (commit_replacement cwd dest temp j original bs ws) replace_post f d.
Proof.
  intros Hs Hb Hsome Hnone. unfold commit_replacement. apply runs_with_drop.
  assert (∀ e f d nj, staged temp j nj d →
    steps (remove_file temp) (λ _ f' d', replace_post (Err e) f' d') (S f) d) as Herr.
  { intros e f' d' nj' Hs'. apply (steps_drop_staged temp j nj' (Err e) replace_post); [done|].
    intros f'' d'' Hf'' Hu. split; [lia|done]. }
  apply runs_bind, (runs_call Hquiet).
  { intros e t _. match goal with |- guarantee _ (write_inode j _ ?b d) ∧ _ =>
      assert (∃ nj', staged temp j nj' (write_inode j 0 b d)) as [nj' Hs']
        by (eexists; by apply staged_on_inode) end.
    split; [by eapply staged_guarantee|by eapply Herr]. }
  cbn [fst snd]. set (d1 := write_inode j 0 bs d).
  pose proof (staged_on_inode temp j nj (λ n, MkInode (splice 0 bs (i_bytes n)) (i_uid n) (i_gid n)
    (write_mode (i_mode n)) (i_xattrs n) false) d Hs) as Hs1. change (on_inode j _ d) with d1 in Hs1. cbn beta in Hs1.
  rewrite Hb, splice_whole in Hs1. split; [by eapply staged_guarantee|]. apply runs_bind.
  eapply (runs_mono _ _ (λ r f' d', ∃ nj', staged temp j nj' d' ∧ (is_err r = true → 1 ≤ f') ∧
    (is_err r = false → i_bytes nj' = bs ∧ ∀ i n, orig = Some (i, n) → same_access n nj'))).
  { destruct original as [m|].
    - destruct (Hsome m eq_refl) as ((i & n & Ho & _ & _ & _ & Hm) & Hch & Hacc).
      destruct (Hacc i n Ho) as (Hu & Hg & _ & Hx).
      apply steps_effect; [by eapply staged_guarantee|intros; eexists; split_and!; [done|lia|done]|].
      match goal with |- guarantee _ (on_inode j ?g d1) ∧ _ =>
        pose proof (staged_on_inode temp j _ g d1 Hs1) as Hs2 end.
      split; [by eapply staged_guarantee|]. eexists. split_and!; [done|done|]. intros _. split; [done|].
      intros i' n' Ho'. rewrite Ho in Ho'. injection Ho' as <- <-. split_and!; simpl; congruence.
    - apply runs_ret. eexists. split_and!; [done|done|]. intros _. split; [done|]. intros i n Ho.
      by rewrite (Hnone eq_refl) in Ho. }
  intros r f2 d2 (nj2 & Hs2 & H1 & H2). destruct r as [[]|e];
    [|specialize (H1 eq_refl); destruct f2; [lia|by eapply Herr]].
  destruct (H2 eq_refl) as [Hb2 Hacc2]. clear H2.
  apply runs_bind, runs_map_err, steps_effect; [by eapply staged_guarantee|by intros; eapply Herr|].
  set (d3 := on_inode j mark_synced d2). pose proof (staged_on_inode _ _ _ mark_synced _ Hs2) as Hs3. fold d3 in Hs3.
  split; [by eapply staged_guarantee|].
  destruct (staged_renamed _ _ _ _ Hs3 Hb2 eq_refl) as (Ht & Hk & Hdir & Hcom & Hgone).
  assert (∀ f', steps (_ ← sync_parent (parent_of cwd dest); mret (MkWritten Replaced ws))
    (λ r f d, steps (remove_file temp) (λ _ f' d', replace_post r f' d') f d) f'
    (set_names (<[dest := Hard j]> (delete temp (names d3))) d3)) as Hdone.
  { intros f'. apply runs_bind, steps_sync_parent; [by eapply committed_guarantee|].
    intros f'' _. apply runs_ret. apply steps_effect; [by eapply committed_guarantee|..].
    - intros e t _. split; [done|]. eauto.
    - simpl. rewrite Hgone. split; [done|]. eauto. }
  apply runs_bind, steps_effect; [by eapply staged_guarantee|by intros; eapply Herr|].
  rewrite Ht. destruct (names d3 !! dest) as [[k|tgt|]|] eqn:Hdest; [|by (split; [by eapply committed_guarantee|apply Hdone])|done|by (split; [by eapply committed_guarantee|apply Hdone])].
  rewrite decide_False by (by apply Hk). split; [by eapply committed_guarantee|apply Hdone].
Qed.

(** ** The whole write *)

Hypothesis (Hnewtemp : ∀ t, names d0 !! temporary_path cwd dest (random_hex t) = None).
Hypothesis (Htemp : orig = None → ∀ t, temporary_path cwd dest (random_hex t) ≠ dest).

Definition write_post (r : result IoError SourceWriteOutcome) (f : nat) (d : Disk) : Prop :=
  match r with
  | Ok o =>
      match sw_mode o with
      | Replaced => ∃ j nj, committed j nj d ∧
          ∀ i n, orig = Some (i, n) → same_access n nj ∧ link_count d0 i = 1
      | InPlace => (f = 0 → names d = names d0) ∧ ∃ i n m, orig = Some (i, n) ∧ rewritten bs m true None d ∧
          (N.land m MODE_ALL = N.land (i_mode n) MODE_ALL ∨
           ∃ now, mode_not_restored display dest (N.land (i_mode n) MODE_ALL) now ∈ sw_warnings o)
      end
  | Err e => 1 ≤ f ∧ (untouched d ∨ ∃ i n, orig = Some (i, n) ∧ failed_write (i_bytes n) f d e)
  end.

Lemma grown_refl : grown d0.
Proof. done. Qed.

Lemma untouched_refl : untouched d0.
Proof. split; [done|]. intros Ho. by rewrite Hname, Ho. Qed.

Lemma untouched_post (e : IoError) f d : untouched d → write_post (Err e) (S f) d.
Proof. split; [lia|by left]. Qed.

Lemma in_place_write_post i n original r f d :
  orig = Some (i, n) → describes original →
  in_place_post original (i_bytes n) r f d → write_post r f d.
Proof.
  intros Ho (i' & n' & Ho' & _ & _ & _ & Hm). rewrite Ho in Ho'. injection Ho' as <- <-.
  destruct r as [o|e]; simpl; [|intros [? ?]; split; [done|right; exists i, n; by split]].
  intros (-> & Hns & m & Hr & Hk). split; [done|]. exists i, n, m. unfold mode_kept in Hk.
  by rewrite Hm in Hk.
Qed.

Lemma staged_create mode x j :
  names d0 !! (parent_of cwd dest ++ [x]) = None → inodes d0 !! j = None →
  parent_of cwd dest ++ [x] ≠ dest →
  staged (parent_of cwd dest ++ [x]) j (MkInode [] euid egid (create_mode mode) ∅ false)
    (MkDisk (<[parent_of cwd dest ++ [x] := Hard j]> (names d0))
       (<[j := MkInode [] euid egid (create_mode mode) ∅ false]> (inodes d0))).
Proof.
  intros Hn Hj Hne. split; try done; simpl; [by apply insert_subseteq|apply lookup_insert_eq].
Qed.

Lemma temporary_other t :
  names d0 !! temporary_path cwd dest (random_hex t) = None →
  temporary_path cwd dest (random_hex t) ≠ dest.
Proof.
  intros Hn. assert (is_Some orig ∨ orig = None) as [[[i n] Ho]|Ho] by (destruct orig; eauto); [|auto].
  intros Heq. by rewrite Heq, Hname, Ho in Hn.
Qed.

Lemma steps_replace_existing i n original ws f :
  orig = Some (i, n) → describes original → link_count d0 i = 1 →
  steps (replace_source cwd name_hash display dest (Some original) bs ws) write_post f d0.
Proof.
  intros Ho Hdesc Hlink. assert (guarantee f d0) as HG by (apply untouched_guarantee, untouched_refl; done).
  unfold replace_source. apply runs_bind, (runs_getrandom Hquiet); [done|by apply guarantee_S| |].
  { intros. apply untouched_post, untouched_refl. }
  intros t. apply runs_bind, runs_attempt. apply steps_create; [done|done| | |].
  - intros e t' _. case_decide; [|apply runs_fail, untouched_post, untouched_refl].
    eapply runs_mono; [by apply (steps_write_in_place i n); auto|].
    intros. by eapply in_place_write_post.
  - intros [x Hx]. pose proof (Hnewtemp t) as Hn. unfold temporary_path in Hn. congruence.
  - intros j Hn Hj d1. pose proof (temporary_other t Hn) as Hne.
    pose proof (staged_create (N.land (s_mode original) MODE_PERMISSIONS) _ _ Hn Hj Hne) as Hs.
    fold d1 in Hs. split; [by eapply staged_guarantee|]. apply runs_bind.
    eapply runs_mono; [by apply (steps_copy_access _ j _ original f d1 Hdesc Hs)|].
    intros r f2 d2 (b & -> & Hf2 & nj & Hs2 & Hb2 & Hacc). destruct b.
    + destruct (Hacc eq_refl) as [Hch Hsame].
      eapply runs_mono; [apply (steps_commit _ j nj (Some original)); auto|].
      * intros m [= <-]. auto.
      * done.
      * intros [o|e] f3 d3; simpl; [|by intros []; split; [done|left]]. intros (-> & j' & nj' & Hc & Hs'). exists j', nj'.
        split; [done|]. intros i' n' Ho'. split; [eauto|]. rewrite Ho in Ho'. by injection Ho' as <- <-.
    + destruct (staged_removed _ _ _ _ Hs2) as [Hnames Hu]. apply runs_bind, runs_ignore.
      eapply steps_remove; [rewrite (sg_names _ _ _ _ Hs2); apply lookup_insert_eq| | | |].
      * by eapply staged_guarantee.
      * destruct Hu. by apply untouched_guarantee.
      * intros e. eapply runs_mono; [apply (steps_write_in_place i n); auto|].
        { by eapply staged_grown. } { right. lia. }
        intros. by eapply in_place_write_post.
      * eapply runs_mono; [apply (steps_write_in_place i n); auto; by destruct Hu|].
        intros. by eapply in_place_write_post.
Qed.

Lemma steps_replace_new f :
  orig = None → steps (replace_source cwd name_hash display dest None bs []) write_post f d0.
Proof.
  intros Ho. assert (guarantee f d0) as HG by (apply untouched_guarantee, untouched_refl; done).
  unfold replace_source. apply runs_bind, (runs_getrandom Hquiet); [done|by apply guarantee_S| |].
  { intros. apply untouched_post, untouched_refl. }
  intros t. apply runs_bind, runs_attempt. apply steps_create; [done|done| | |].
  - intros e t' _. apply runs_fail, untouched_post, untouched_refl.
  - intros [x Hx]. pose proof (Hnewtemp t) as Hn. unfold temporary_path in Hn. congruence.
  - intros j Hn Hj d1. pose proof (temporary_other t Hn) as Hne.
    pose proof (staged_create MODE_DEFAULT _ _ Hn Hj Hne) as Hs.
    fold d1 in Hs. split; [by eapply staged_guarantee|].
    eapply runs_mono; [by eapply steps_commit|].
    intros [o|e] f3 d3; simpl; [|by intros []; split; [done|left]]. intros (-> & j' & nj' & Hc & _). exists j', nj'.
    split; [done|]. intros i n Ho'. by rewrite Ho in Ho'.
Qed.

(** A write to a path that leads to [dest], which is a file or does not exist. *)
Lemma steps_atomic_write path f :
  real_path d0 path = dest → (path ≠ dest → orig ≠ None) →
  steps (atomic_write_source cwd name_hash display path bs) write_post f d0.
Proof.
  intros Hpath Hdangling. assert (∀ f, guarantee f d0) as HG
    by (intros; apply untouched_guarantee, untouched_refl; done).
  assert (∀ e f, write_post (Err e) (S f) d0) as Herr by (intros; apply untouched_post, untouched_refl).
  assert (real_path d0 dest = dest) as Hreal.
  { unfold real_path. rewrite Hname. by destruct orig as [[]|]. }
  unfold atomic_write_source. apply runs_bind.
  eapply (runs_mono _ _ (λ r f' d', d' = d0 ∧ match r with Ok p => p = dest | Err _ => 1 ≤ f' end)).
  { unfold write_destination. apply runs_bind, runs_attempt, steps_query; [done|..].
    - intros e t Ht. rewrite decide_False by (by eapply Hhonest). apply runs_fail. split; [done|lia].
    - unfold real_path in Hpath. destruct (names d0 !! path) as [[i|tgt|]|] eqn:E.
      + rewrite Hpath, Hname in E. apply fmap_Some in E as ([i' n] & Ho & [= ->]). simpl.
        rewrite (Hino _ _ Ho). apply runs_ret. auto.
      + apply steps_query; [done|by intros; split; [done|lia]|]. unfold real_path. rewrite E, Hpath.
        rewrite Hname. assert (path ≠ dest) as Hne
          by (intros ->; rewrite Hname in E; by apply fmap_Some in E as ([] & _ & ?)).
        specialize (Hdangling Hne). by destruct orig.
      + rewrite Hpath, Hname in E. by apply fmap_Some in E as ([] & _ & ?).
      + cbn [ok_or]. rewrite decide_True by done. apply runs_ret. auto. }
  intros [p|e] f1 d1 [-> H1]; [subst p|destruct f1; [lia|apply Herr]]. apply runs_bind.
  eapply (runs_mono _ _ (λ r f' d', d' = d0 ∧ match r with
    | Ok None => orig = None
    | Ok (Some m) => ∃ i n, orig = Some (i, n) ∧ m = stat_inode d0 i n
    | Err _ => 1 ≤ f' end)).
  { unfold original_metadata. apply runs_bind, runs_attempt, steps_query; [done|..].
    - intros e t Ht. rewrite decide_False by (by eapply Hhonest). apply runs_fail. split; [done|lia].
    - rewrite Hreal, Hname. assert (is_Some orig ∨ orig = None) as [[[i n] Ho]|Ho]
        by (destruct orig; eauto); rewrite Ho; cbn [fmap option_fmap option_map compose fst].
      + rewrite (Hino _ _ Ho). apply runs_ret. eauto.
      + rewrite decide_True by done. by apply runs_ret. }
  intros [[m|]|e] f2 d2 [-> H2]; [|by apply steps_replace_new|destruct f2; [lia|apply Herr]].
  destruct H2 as (i & n & Ho & ->). apply runs_bind, steps_query; [done|by intros|].
  rewrite Hreal, Hname, Ho. cbn [fmap option_fmap option_map compose fst]. apply runs_bind.
  eapply (runs_mono _ _ (λ r f' d', d' = d0 ∧ is_err r = false)).
  { unfold leftover_copy_warnings. destruct (file_identifier _ _); [|by apply runs_ret].
    apply runs_bind, runs_attempt, steps_query; [done|intros; by apply runs_ret|by apply runs_ret]. }
  intros [ws|e] f3 d3 [-> H3]; [|done].
  assert (describes (stat_inode d0 i n)) as Hdesc by (by exists i, n).
  destruct (may_keep_access _) eqn:Hkeep; cbn [negb].
  - apply (steps_replace_existing i n); [done..|]. unfold may_keep_access in Hkeep.
    rewrite !andb_true_iff, Nat.eqb_eq in Hkeep. by destruct Hkeep as [[_ ?] _].
  - eapply runs_mono; [apply (steps_write_in_place i n); [done|apply grown_refl|by left]|].
    intros. by eapply in_place_write_post.
Qed.

End Write.

(** ** The promises of the writer *)

Definition start (d : Disk) : World := MkWorld d 0 0 [].

(** The file a path leads to, if there is one. *)
Definition origin (d : Disk) (path : PathBuf) : option (InodeId * Inode) :=
  i ← inode_at d path; n ← inodes d !! i; Some (i, n).

(** The path leads to a file or to a free name in a directory, and the random sibling names
    are free. *)
Record write_ready `{K : Kernel} (cwd : PathBuf) (name_hash : bytes → str) (d : Disk)
    (path : PathBuf) : Prop := {
  wr_file : names d !! real_path d path = None ∧ real_path d path = path ∨
    ∃ i n, names d !! real_path d path = Some (Hard i) ∧ inodes d !! i = Some n;
  wr_parent : is_dir d (parent_of cwd (real_path d path));
  wr_copies : ∀ t, names d !! (parent_of cwd (real_path d path)
    ++ [copy_name name_hash (real_path d path) (random_hex t)]) = None;
  wr_temporaries : ∀ t, names d !! temporary_path cwd (real_path d path) (random_hex t) = None;
  wr_distinct : ∀ t, temporary_path cwd (real_path d path) (random_hex t) ≠ real_path d path }.

Section Promises.
Context `{K : Kernel} (Hquiet : quiet K) (Hhonest : honest K).
Context (cwd : PathBuf) (name_hash : bytes → str) (display : PathBuf → str).

Abbreviation write := (atomic_write_source cwd name_hash display).

Lemma origin_name d path :
  write_ready cwd name_hash d path →
  names d !! real_path d path = Hard ∘ fst <$> origin d path ∧
  (∀ i n, origin d path = Some (i, n) → inodes d !! i = Some n) ∧
  content_at_path d (real_path d path) = i_bytes ∘ snd <$> origin d path ∧
  (path ≠ real_path d path → origin d path ≠ None).
Proof.
  intros [[[Hn Heq]|(i & n & Hn & Hi)] _ _ _ _]; unfold origin, inode_at; rewrite Hn; simpl.
  - split_and!; [done..| |by intros []]. unfold content_at_path, inode_at.
    rewrite Heq. unfold real_path. rewrite Heq in Hn. by rewrite Hn, Hn.
  - rewrite Hi. simpl. split_and!; [done| |by eapply content_hard|done]. by intros ? ? [= <- <-].
Qed.

(** A write from any world. *)
Lemma write_runs d path bs f :
  write_ready cwd name_hash d path →
  runs (guarantee cwd name_hash d (real_path d path) (origin d path) bs) (write path bs)
    (write_post cwd name_hash display d (real_path d path) (origin d path) bs) f d.
Proof.
  intros Hready. destruct (origin_name d path Hready) as (Hn & Hi & _ & Hd).
  destruct Hready as [_ Hp Hc Ht Hne]. by apply steps_atomic_write.
Qed.

Lemma write_run d path bs r w :
  write_ready cwd name_hash d path → write path bs (start d) = (r, w) →
  write_post cwd name_hash display d (real_path d path) (origin d path) bs r (w_faults w) (w_disk w) ∧
  Forall (λ v, guarantee cwd name_hash d (real_path d path) (origin d path) bs v.1 v.2) (w_visited w).
Proof.
  intros Hready Hw. destruct (write_runs d path bs 0 Hready (start d) eq_refl eq_refl) as [H (new & Hv & HG)].
  rewrite Hw in H, Hv. simpl in *. rewrite app_nil_r in Hv. by subst.
Qed.

(** A file beside the destination under a recovery name of its own, synced, with the bytes
    the destination had on [d]. *)
Definition recovery_copy (d : Disk) (dest copy : PathBuf) (d' : Disk) : Prop :=
  names d !! copy = None ∧
  (∃ random, copy = parent_of cwd dest ++ [copy_name name_hash dest random]) ∧
  ∃ b, content_at_path d dest = Some b ∧ durable_at d' copy = Some b.

Lemma copy_saved_recovery d path copy d' :
  write_ready cwd name_hash d path →
  copy_saved cwd name_hash d (real_path d path) (origin d path) copy d' ↔
  recovery_copy d (real_path d path) copy d'.
Proof.
  intros Hready. destruct (origin_name d path Hready) as (_ & _ & Hcont & _).
  unfold copy_saved, recovery_copy, old_bytes. by rewrite Hcont.
Qed.

Lemma copy_holds_recovery d path copy d' :
  write_ready cwd name_hash d path →
  copy_holds cwd name_hash d (real_path d path) (origin d path) copy d' →
  recovery_copy d (real_path d path) copy d'.
Proof. intros Hready Hc. apply copy_saved_recovery; [done|]. by apply copy_holds_saved. Qed.

Lemma origin_hard d path i n :
  write_ready cwd name_hash d path → names d !! real_path d path = Some (Hard i) →
  inodes d !! i = Some n → origin d path = Some (i, n).
Proof.
  intros Hready Hi Hin. destruct (origin_name d path Hready) as (Hn & Hino & _).
  rewrite Hn in Hi. apply fmap_Some in Hi as ([i' n'] & Ho & [= ->]).
  simpl in Hin. apply Hino in Ho as Hin'. congruence.
Qed.

(** An untouched file has its bytes, and a crash leaves them when they were synced. *)
Lemma untouched_content d path d' :
  write_ready cwd name_hash d path → untouched d (real_path d path) (origin d path) d' →
  content_at_path d' (real_path d path) = content_at_path d (real_path d path).
Proof.
  intros Hready [Hg Hnone]. destruct (origin_name d path Hready) as (Hn & Hi & Hcont & _). rewrite Hcont.
  destruct (origin d path) as [[i n]|] eqn:Ho; simpl.
  - destruct (grown_orig d (real_path d path) (Some (i, n)) Hn Hi d' i n Hg eq_refl). by eapply content_hard.
  - by apply content_missing, Hnone.
Qed.

Lemma original_survives d path d' d'' :
  write_ready cwd name_hash d path → (∀ i n, origin d path = Some (i, n) → i_synced n = true) →
  original_kept d (real_path d path) (origin d path) d' → after_crash d' d'' →
  content_at_path d'' (real_path d path) = content_at_path d (real_path d path).
Proof.
  intros Hready Hsync [Hd Hi] Hcrash. destruct (origin_name d path Hready) as (Hn & _ & Hcont & _).
  rewrite Hcont. rewrite Hn in Hd. destruct (origin d path) as [[i n]|] eqn:Ho; simpl in *.
  - eapply durable_crash; [done|]. eapply durable_hard; eauto.
  - destruct Hcrash as [Hns _]. apply content_missing. by rewrite Hns.
Qed.

(** C7: a successful source write stores exactly the new bytes.  Afterwards the file a path
    leads to has them, synced; every other name and every other file is as before, and there
    is no new name beside the destination's own, neither a temporary nor a recovery copy, when
    the file was replaced or no call failed; and an existing file keeps its owner, group and
    extended attributes, keeps its inode when it has other links, and keeps its mode bits
    unless the outcome carries the warning that says otherwise. *)
Theorem source_write_exact d path bs o w :
  write_ready cwd name_hash d path → write path bs (start d) = (Ok o, w) →
  let dest := real_path d path in
  content_at_path (w_disk w) dest = Some bs ∧ durable_at (w_disk w) dest = Some bs ∧
  others_kept dest d (w_disk w) ∧
  (sw_mode o = Replaced ∨ w_faults w = 0 →
     ∀ p, p ≠ dest → names (w_disk w) !! p = names d !! p) ∧
  ∀ i n, names d !! dest = Some (Hard i) → inodes d !! i = Some n →
    ∃ j nj, names (w_disk w) !! dest = Some (Hard j) ∧ inodes (w_disk w) !! j = Some nj ∧
      i_uid nj = i_uid n ∧ i_gid nj = i_gid n ∧ i_xattrs nj = i_xattrs n ∧
      (link_count d i ≠ 1 → j = i) ∧
      (N.land (i_mode nj) MODE_ALL = N.land (i_mode n) MODE_ALL ∨
       ∃ now, mode_not_restored display dest (N.land (i_mode n) MODE_ALL) now ∈ sw_warnings o).
Proof.
  intros Hready Hw dest. destruct (write_run _ _ _ _ _ Hready Hw) as [Hpost _].
  destruct (origin_name d path Hready) as (Hn & Hi & _). fold dest in Hpost, Hn.
  pose proof (λ i n, origin_hard d path i n Hready) as Horig. fold dest in Horig.
  simpl in Hpost. destruct (sw_mode o).
  - destruct Hpost as (j & nj & Hc & Hacc). pose proof Hc as (Hns & _ & _ & Hd & Hj & Hb & Hs).
    split_and!; [rewrite <-Hb; by eapply content_hard|rewrite <-Hb; by eapply durable_hard
      |by eapply committed_others|intros _ p Hp; by rewrite Hns, lookup_insert_ne|].
    intros i n Hi' Hin. destruct (Hacc _ _ (Horig _ _ Hi' Hin)) as ((Hu & Hg & Hm & Hx) & Hl).
    exists j, nj. split_and!; try done. left. by rewrite Hm.
  - destruct Hpost as (Hns & i & n & m & Ho & Hr & Hm).
    destruct (rewritten_dest cwd name_hash d dest _ Hn _ _ _ _ _ _ _ Ho Hr) as [Hdest Hd].
    split_and!; [exact (content_hard _ _ _ _ Hdest Hd)|exact (durable_hard _ _ _ _ Hdest Hd eq_refl)
      |by eapply rewritten_others|intros [?|Hf] p _; [done|by rewrite (Hns Hf)]|].
    intros i' n' Hi' Hin. rewrite (Horig _ _ Hi' Hin) in Ho. injection Ho as <- <-.
    eexists _, _. split_and!; done.
Qed.


(** C8: a crash during a source write loses nothing.  At every moment of a write every other
    name and file is as before.  At every moment before the first failing call, whatever a
    loss of power does to bytes that were not synced, the destination has its original bytes or
    the new ones, or the original bytes are in a recovery copy beside it, provided the original
    was on stable storage when the write began. *)
Theorem crash_during_source_write d path bs r w :
  write_ready cwd name_hash d path → write path bs (start d) = (r, w) →
  (∀ i n, origin d path = Some (i, n) → i_synced n = true) →
  let dest := real_path d path in
  ∀ f d', (f, d') ∈ w_visited w → others_kept dest d d' ∧
    (f = 0 → ∀ d'', after_crash d' d'' →
     content_at_path d'' dest = content_at_path d dest ∨ content_at_path d'' dest = Some bs ∨
     ∃ copy, names d !! copy = None ∧
       (∃ random, copy = parent_of cwd dest ++ [copy_name name_hash dest random]) ∧
       content_at_path d'' copy = content_at_path d dest).
Proof.
  intros Hready Hw Hsync dest f d' Hd'. destruct (write_run _ _ _ _ _ Hready Hw) as [_ Hv].
  rewrite Forall_forall in Hv. destruct (Hv _ Hd') as [Hk H]. simpl in H. split; [exact Hk|].
  intros -> d'' Hcrash. destruct H as [H|H]; [|lia]. destruct H as [H|[H|[copy H]]].
  - left. by eapply original_survives.
  - right. left. by eapply durable_crash.
  - right. right. exists copy. apply copy_saved_recovery in H as (Hc & Hr & b & Hb & Hd); [|done].
    split_and!; [done..|]. fold dest in Hb. rewrite Hb. by eapply durable_crash.
Qed.

End Promises.

(** ** Concrete writes *)

(** An environment in which the call made at one time fails. *)
Definition sample_kernel (broken : option nat) : Kernel := {|
  fault := λ t, if decide (broken = Some t) then Some (MkIoError OtherError (lit "I/O error")) else None;
  partial := λ _, 1; interfere := λ _ d, d; random_hex := λ _, replicate 32 97%N;
  euid := 1000; egid := 1000; create_mode := id; chmod_mode := id; write_mode := id |}.

Definition sample_file : PathBuf := [lit "src"; lit "lib.rs"].
(** One file, with a second link when [linked]. *)
Definition sample_disk (linked : bool) : Disk :=
  MkDisk ((if linked then <[[lit "other.rs"] := Hard (0, 1)%N]> else id)
            {[ [lit "src"] := Dir; sample_file := Hard (0, 1)%N ]})
    {[ (0, 1)%N := MkInode (lit "old") 1000 1000 33188 ∅ true ]}.

Definition sample_write (broken : option nat) (linked : bool) :=
  @atomic_write_source (sample_kernel broken) [] (λ _, lit "h") (λ p, concat p) sample_file (lit "new")
    (start (sample_disk linked)).

Lemma sample_quiet broken : quiet (sample_kernel broken).
Proof. done. Qed.

Lemma sample_honest broken : honest (sample_kernel broken).
Proof. intros t e. simpl. case_decide; [|done]. by intros [= <-]. Qed.

Lemma sample_ready broken linked :
  @write_ready (sample_kernel broken) [] (λ _, lit "h") (sample_disk linked) sample_file.
Proof.
  destruct linked; (split; [right; exists (0, 1)%N, (MkInode (lit "old") 1000 1000 33188 ∅ true); split; by_compute|by_compute|intros t; by_compute..]).
Qed.

Lemma sample_synced linked i n : origin (sample_disk linked) sample_file = Some (i, n) → i_synced n = true.
Proof. by destruct linked; intros [= <- <-]. Qed.

Lemma source_write_exact_witness :
  match sample_write None false with
  | (Ok o, w) => sw_mode o = Replaced ∧ content_at_path (w_disk w) sample_file = Some (lit "new")
  | _ => False
  end.
Proof.
  destruct (sample_write None false) as [[o|e] w] eqn:E.
  - split.
    + apply (f_equal (λ x, match x.1 with Ok o => bool_decide (sw_mode o = Replaced) | _ => false end)) in E.
      vm_compute in E. simpl in E. symmetry in E. by apply bool_decide_eq_true in E.
    + apply (source_write_exact (K := sample_kernel None) (sample_quiet _) (sample_honest _) [] (λ _, lit "h")
        (λ p, concat p) (sample_disk false) sample_file (lit "new") o w (sample_ready _ _) E).
  - exfalso. apply (f_equal (λ x, is_err x.1)) in E. vm_compute in E. discriminate E.
Defined.


(** A crash while a file with two links is empty, because it is being rewritten in place. *)
Lemma crash_during_source_write_witness :
  match sample_write None true with
  | (_, w) => Exists (λ v, v.1 = 0 ∧ content_at_path v.2 sample_file = Some [] ∧
      ∃ copy, content_at_path v.2 copy = Some (lit "old")) (w_visited w)
  end.
Proof.
  destruct (sample_write None true) as [r w] eqn:E.
  destruct (w_visited w !! 4) as [[f d']|] eqn:Ev.
  - assert (f = 0 ∧ content_at_path d' sample_file = Some []) as [-> Hempty].
    { apply (f_equal (λ x, match w_visited x.2 !! 4 with
        | Some v => bool_decide (v.1 = 0 ∧ content_at_path v.2 sample_file = Some []) | None => false end)) in E.
      simpl in E. rewrite Ev in E. vm_compute in E. simpl in E. symmetry in E.
      by apply bool_decide_eq_true in E. }
    apply Exists_exists. exists (0, d'). split; [by eapply list_elem_of_lookup_2|].
    destruct (crash_during_source_write (K := sample_kernel None) (sample_quiet _) (sample_honest _)
      [] (λ _, lit "h") (λ p, concat p) (sample_disk true) sample_file (lit "new") r w (sample_ready _ _) E
      (sample_synced true) 0 d' (list_elem_of_lookup_2 _ _ _ Ev)) as [_ Hsafe].
    destruct (Hsafe eq_refl d' (after_crash_refl d')) as [H|[H|(copy & _ & _ & H)]].
    + exfalso. change (real_path (sample_disk true) sample_file) with sample_file in H.
      rewrite Hempty in H. discriminate H.
    + exfalso. change (real_path (sample_disk true) sample_file) with sample_file in H.
      rewrite Hempty in H. discriminate H.
    + split; [reflexivity|]. split; [exact Hempty|]. exists copy. exact H.
  - exfalso. apply (f_equal (λ x, bool_decide (is_Some (w_visited x.2 !! 4)))) in E.
    simpl in E. rewrite Ev in E. vm_compute in E. discriminate E.
Defined.

(** The mode check of an in-place write runs after the new bytes are synced: when its [fstat]
    fails, the write is reported as failed although the file has the new bytes, and the
    recovery copy stays. *)
Theorem synced_write_reported_failed :
  match sample_write (Some 16) true with
  | (Err _, w) =>
      w_faults w = 1 ∧ content_at_path (w_disk w) sample_file = Some (lit "new") ∧
      content_at_path (w_disk w)
        ([lit "src"] ++ [copy_name (λ _, lit "h") sample_file (replicate 32 97%N)]) = Some (lit "old")
  | _ => False
  end.
Proof. vm_compute. done. Qed.

End SourceWriteSpec.
