(* ===== verification/ReadCapture.v ===== *)
(** * Tagged reads and edit responses: [hashline/snapshot/mod.rs], read half

    Which rows of a file a read selects, how they are rendered under the output budget, which
    of them are published as addressable, and the rows an edit response publishes.  The
    operating system's answers and the binary-content inspector are parameters; a failing
    [expect] is [None]. *)

From S2P Require Import Prelude RustStr XxHash Scan SnapshotStore Region.
Import XxHash Scan SnapshotStore Region.

Module ReadCapture.

Definition MAX_RENDER_BYTES : N := 50 * 1024.
Definition MAX_RENDER_LINE_LENGTH : nat := N.to_nat 2000.

(** ** Selections *)

Inductive ReadSelection :=
  | WholeFile
  | SelRange (start stop : nat)
  | SelLines (lines : gset nat)
  | SelHead (lines : nat)
  | SelTail (lines : nat).

Definition scan_request (sel : ReadSelection) : ScanRequest :=
  match sel with
  | WholeFile | SelTail _ => request_whole_file
  | SelRange start stop => request_new (coverage_range start stop)
  | SelLines lines => request_new (coverage_lines lines)
  | SelHead lines => request_new (coverage_range 1 lines)
  end.

Definition selected_lines (sel : ReadSelection) (total_lines : nat) : gset nat :=
  match sel with
  | WholeFile => list_to_set (range_incl 1 total_lines)
  | SelRange start stop =>
      if (stop <? start) || (start =? 0) then ∅
      else list_to_set (range_incl start (Nat.min stop total_lines))
  | SelLines lines => filter (λ line, 0 < line ∧ line ≤ total_lines) lines
  | SelHead lines => list_to_set (range_incl 1 (Nat.min lines total_lines))
  | SelTail lines =>
      let first := total_lines - lines + 1 in
      if (lines =? 0) || (total_lines <? first) then ∅
      else list_to_set (range_incl first total_lines)
  end.

Definition is_explicitly_empty (sel : ReadSelection) : bool :=
  match sel with
  | SelRange start stop => (start =? 0) || (stop <? start)
  | SelHead lines | SelTail lines => lines =? 0
  | SelLines lines => bool_decide (lines = ∅)
  | WholeFile => false
  end.

(** The three read shapes of the bash rewrite funnel. *)
Inductive BashReadKind := Cat | Head (lines : nat) | Tail (lines : nat).

Definition bash_selection (k : BashReadKind) : ReadSelection :=
  match k with Cat => WholeFile | Head lines => SelHead lines | Tail lines => SelTail lines end.

(** ** Results *)

Record TaggedRendering := MkTagged {
  tr_text : str; tr_requested_path : str; tr_tag : str; tr_seen_lines : gset nat;
  tr_rendered_lines : gset nat; tr_elided_range : option LineRange;
  tr_display_truncated_lines : gset nat }.

Record TaglessRendering := MkTagless {
  tl_text : str; tl_requested_path : str; tl_rendered_lines : gset nat;
  tl_elided_range : option LineRange }.

Inductive UntaggableReason :=
  | NotRegularFile | ReadOnly | VirtualPath | Binary | InvalidUtf8
  | ReadOversize (bytes limit : N) | EmptyRange | BeyondEof | ReadIo (reason : str).

Inductive ReadPublication :=
  | Tagged (snapshot : Snapshot) (rendering : TaggedRendering)
  | Tagless (rendering : TaglessRendering) (reason : UntaggableReason).

Definition publication_snapshot (p : ReadPublication) : option Snapshot :=
  match p with Tagged s _ => Some s | Tagless _ _ => None end.
Definition publication_text (p : ReadPublication) : str :=
  match p with Tagged _ r => tr_text r | Tagless r _ => tl_text r end.

(** ** Rendering *)

Record RenderOptions := MkOptions {
  max_output_bytes : N; max_line_length : nat; reserved_bytes : N }.
Definition default_options : RenderOptions := MkOptions MAX_RENDER_BYTES MAX_RENDER_LINE_LENGTH 0.

Definition elision_notice (limit : N) (start stop : nat) : str :=
  lit "... (output truncated at " ++ show_N (limit / 1024)
  ++ lit "KB, use start_line/end_line to read sections; lines " ++ show start ++ lit "-" ++ show stop
  ++ lit " are not addressable)" ++ [LF].

Definition read_body_limit (o : RenderOptions) (header_bytes : N) (total_lines : nat) : N :=
  if (reserved_bytes o =? 0)%N then max_output_bytes o
  else (max_output_bytes o
        - (reserved_bytes o + header_bytes
           + str_len (elision_notice (max_output_bytes o) total_lines total_lines)))%N.

Definition truncate_display_line (content : str) (max_length : nat) : str * bool :=
  if length content <=? max_length then (content, false)
  else (take max_length content ++ lit "... (truncated)", true).

(** The records of a snapshot in the order of the [BTreeMap]. *)
Definition record_rows (s : Snapshot) : list (nat * RawLineRecord) :=
  omap (λ n, pair n <$> records s !! n) (btree_keys (records s)).

(** The loop over records: body text and size, rows shown, rows shown shortened, and the first
    and last row that did not fit.  [render] gives a row's text and whether it is shortened. *)
Record BodyState := MkBody {
  bs_text : str; bs_bytes : N; bs_rendered : gset nat; bs_truncated : gset nat;
  bs_first : option nat; bs_last : option nat }.

Definition body_step (render : nat → RawLineRecord → str * bool) (limit : N) (st : BodyState)
    (row : nat * RawLineRecord) : BodyState :=
  let '(n, record) := row in
  let '(line, was_truncated) := render n record in
  if (limit <? sat_add64 (bs_bytes st) (str_len line))%N
  then MkBody (bs_text st) (bs_bytes st) (bs_rendered st) (bs_truncated st)
         (Some (default n (bs_first st))) (Some n)
  else MkBody (bs_text st ++ line) (sat_add64 (bs_bytes st) (str_len line))
         ({[n]} ∪ bs_rendered st)
         (if was_truncated then {[n]} ∪ bs_truncated st else bs_truncated st)
         (bs_first st) (bs_last st).

Definition render_body (render : nat → RawLineRecord → str * bool) (limit : N) (s : Snapshot) :
    BodyState :=
  foldl (body_step render limit) (MkBody [] 0 ∅ ∅ None None) (record_rows s).

Definition elided_of (st : BodyState) : option LineRange :=
  (λ start, MkRange start (default start (bs_last st))) <$> bs_first st.
Definition notice_of (o : RenderOptions) (st : BodyState) : str :=
  match elided_of st with
  | Some r => elision_notice (max_output_bytes o) (range_start r) (range_end r)
  | None => []
  end.

(** A row of a tagged read, and whether its display is shortened. *)
Definition tagged_row (max_length : nat) (n : nat) (record : RawLineRecord) : str * bool :=
  let '(display, was_truncated) :=
    truncate_display_line (from_utf8_lossy (content record)) max_length in
  (show n ++ lit ":" ++ display ++ [LF], was_truncated).

Definition tagged_header (requested_path : str) (s : Snapshot) : str :=
  lit "[" ++ requested_path ++ lit "#" ++ to_ascii_uppercase (tag s) ++ lit "]" ++ [LF].

Definition render_tagged_snapshot_with_options (s : Snapshot) (requested_path : str)
    (o : RenderOptions) : TaggedRendering :=
  let header := tagged_header requested_path s in
  let body_limit := read_body_limit o (str_len header) (total_lines s) in
  let st := render_body (tagged_row (max_line_length o)) body_limit s in
  MkTagged (header ++ bs_text st ++ notice_of o st) requested_path (to_ascii_uppercase (tag s))
    (bs_rendered st) (bs_rendered st) (elided_of st)
    (bs_truncated st).

Definition render_tagged_snapshot (s : Snapshot) (requested_path : str) : TaggedRendering :=
  render_tagged_snapshot_with_options s requested_path default_options.

Definition tagless_row (n : nat) (record : RawLineRecord) : str * bool :=
  (show n ++ lit ": " ++ from_utf8_lossy (content record) ++ [LF], false).

Definition render_tagless_snapshot_with_options (s : Snapshot) (requested_path : str)
    (o : RenderOptions) : TaglessRendering :=
  let body_limit := read_body_limit o 0 (total_lines s) in
  let st := render_body tagless_row body_limit s in
  MkTagless (bs_text st ++ notice_of o st) requested_path (bs_rendered st) (elided_of st).

(** ** Restricting a snapshot to rows *)

Definition snapshot_for_lines (s : Snapshot) (lines : gset nat) : Snapshot :=
  let c := snap_coverage s in
  MkSnapshot (tag s) (normalized_bytes s)
    (filter (λ kv, kv.1 ∈ lines) (records s))
    (filter (λ kv, kv.1 ∈ lines) (retained_lines s))
    (ScanCov (sc_requested_lines c) (sc_retain_all c) lines lines (sc_scanned_line_count c)
       (sc_total_lines c) (sc_byte_count c) (sc_eof_observed c))
    (Boundary (empty_file (boundary s)) (bof_observed (boundary s)) (eof_observed (boundary s))
       (head (btree_elems lines)) (last (btree_elems lines)))
    (total_lines s) (byte_count s) (snap_provenance s) (capture_provenance s).

(** ** Reading the source *)

Record FsMetadata := MkFsMetadata {
  m_is_file : bool; m_len : N; m_modified : option N; m_readonly : bool;
  m_dev : N; m_ino : N; m_mode : N }.

Record ReadSource := MkSource { src_bytes : bytes; src_metadata : FsMetadata }.

Definition has_complete_bytes (s : ReadSource) : bool :=
  m_is_file (src_metadata s) && (m_len (src_metadata s) <=? MAX_FILE_READ_BYTES)%N
  && (N.of_nat (length (src_bytes s)) =? m_len (src_metadata s))%N.

Definition same_read_identity (before after : FsMetadata) : bool :=
  (m_dev before =? m_dev after)%N && (m_ino before =? m_ino after)%N
  && (m_mode before =? m_mode after)%N && (m_len before =? m_len after)%N
  && bool_decide (m_modified before = m_modified after)
  && bool_decide (m_readonly before = m_readonly after).

(** [0o222]. *)
Definition WRITE_BITS : N := 146.
Definition is_write_eligible (m : FsMetadata) : bool :=
  negb (m_readonly m) && negb (N.land (m_mode m) WRITE_BITS =? 0)%N.

(** The answers of [open], [stat] on the path, [fstat] before and after, and [read_to_end]. *)
Record SourceAnswers := MkAnswers {
  sa_open : result str (); sa_path_metadata : result str FsMetadata;
  sa_before : result str FsMetadata; sa_read : result str bytes; sa_after : result str FsMetadata }.

Definition read_source_unbounded (a : SourceAnswers) : result str ReadSource :=
  match sa_open a with
  | Err e =>
      metadata ← sa_path_metadata a;
      if negb (m_is_file metadata) then Ok (MkSource [] metadata) else Err e
  | Ok _ =>
      metadata ← sa_before a;
      if m_is_file metadata && (m_len metadata <=? MAX_FILE_READ_BYTES)%N then
        bytes ← sa_read a;
        after ← sa_after a;
        if negb (same_read_identity metadata after)
           || negb (N.of_nat (length bytes) =? m_len metadata)%N
        then Err (lit "file changed during hashline read")
        else Ok (MkSource bytes metadata)
      else Ok (MkSource [] metadata)
  end.

Section Capture.
(** [fs::canonicalize], the blake3 fingerprint and [content_inspector]. *)
Context (canonicalize : PathBuf → option PathBuf) (content_fingerprint : bytes → bytes).
Context (inspect_is_binary : bytes → bool).

Abbreviation publish := (publish canonicalize content_fingerprint).

Definition is_binary (bs : bytes) : bool := negb (bool_decide (bs = [])) && inspect_is_binary bs.

Definition empty_tagless (requested_path : str) : TaglessRendering :=
  MkTagless [] requested_path ∅ None.

(** A read that publishes nothing leaves the store alone. *)
Definition declined (r : TaglessRendering) (reason : UntaggableReason) (st : SnapshotStore) :
    option (ReadPublication * SnapshotStore) := Some (Tagless r reason, st).

Definition capture_taggable_source_with_options (st : SnapshotStore) (canonical_path : PathBuf)
    (requested_path : str) (sel : ReadSelection) (o : RenderOptions) (source : ReadSource) :
    option (ReadPublication * SnapshotStore) :=
  let m := src_metadata source in
  let bytes := src_bytes source in
  if negb (m_is_file m) then declined (empty_tagless requested_path) NotRegularFile st
  else if (MAX_FILE_READ_BYTES <? m_len m)%N
  then declined (empty_tagless requested_path) (ReadOversize (m_len m) MAX_FILE_READ_BYTES) st
  else if is_binary bytes then declined (empty_tagless requested_path) Binary st
  else if bool_decide (from_utf8 bytes = None)
  then declined (empty_tagless requested_path) InvalidUtf8 st
  else
    source_snapshot ← scan_snapshot bytes (scan_request sel);
    let selected := selected_lines sel (total_lines source_snapshot) in
    let tagless :=
      render_tagless_snapshot_with_options (snapshot_for_lines source_snapshot selected)
        requested_path o in
    if negb (is_write_eligible m) then declined tagless ReadOnly st
    else if is_explicitly_empty sel
            || (bool_decide (selected = ∅) && match sel with WholeFile => false | _ => true end)
    then declined tagless (if bool_decide (bytes = []) then EmptyRange else BeyondEof) st
    else
      let selected_snapshot := snapshot_for_lines source_snapshot selected in
      let candidate := render_tagged_snapshot_with_options selected_snapshot requested_path o in
      '(outcome, st) ←
        publish st canonical_path (snapshot_for_lines selected_snapshot (tr_rendered_lines candidate));
      match po_status outcome with
      | Oversize retained_bytes limit => declined tagless (ReadOversize retained_bytes limit) st
      | Stored => published ← po_snapshot outcome; Some (Tagged published candidate, st)
      end.

(** [read] is what [read_source] answered; its error is the [io::Error] of the operation. *)
Definition capture_taggable_read_with_options (st : SnapshotStore) (canonical_path : PathBuf)
    (requested_path : str) (sel : ReadSelection) (o : RenderOptions) (read : result str ReadSource) :
    option (result str ReadPublication * SnapshotStore) :=
  match read with
  | Err e => Some (Err e, st)
  | Ok source =>
      '(p, st) ←
        capture_taggable_source_with_options st canonical_path requested_path sel o source;
      Some (Ok p, st)
  end.

Definition capture_tagless_read_with_options (requested_path : str) (sel : ReadSelection)
    (o : RenderOptions) (read : result str bytes) : option (result str ReadPublication) :=
  match read with
  | Err e => Some (Err e)
  | Ok bytes =>
      snapshot ← scan_snapshot bytes (scan_request sel);
      let selected := selected_lines sel (total_lines snapshot) in
      Some (Ok (Tagless (render_tagless_snapshot_with_options (snapshot_for_lines snapshot selected)
                           requested_path o) VirtualPath))
  end.

(** The gate of accepted cat, head and tail rewrites. *)
Definition capture_bash_rewrite_read_with_options (st : SnapshotStore) (canonical_path : PathBuf)
    (requested_path : str) (kind : BashReadKind)
    (experimental_bash_rewrite funnel_accepted effective_hashline : bool) (o : RenderOptions)
    (plain_read : result str bytes) (read : result str ReadSource) :
    option (result str ReadPublication * SnapshotStore) :=
  if negb (experimental_bash_rewrite && funnel_accepted && effective_hashline)
  then p ← capture_tagless_read_with_options requested_path (bash_selection kind) o plain_read;
       Some (p, st)
  else capture_taggable_read_with_options st canonical_path requested_path (bash_selection kind) o read.

(** ** Edit responses *)

Record EditResponseSnapshot := MkResponse {
  er_snapshot : option Snapshot; er_rendering : option TaggedRendering;
  er_requested_path : str; er_notice : option str }.

Definition unavailable (requested_path : str) (reason : str) : EditResponseSnapshot :=
  MkResponse None None requested_path
    (Some (lit "No hashline tag is available for the final file; re-read before chaining ("
           ++ reason ++ lit ").")).

Definition publish_edit_response_snapshot (st : SnapshotStore) (canonical_path : PathBuf)
    (requested_path : str) (final_bytes : bytes) (affected : AffectedRegion) :
    option (EditResponseSnapshot * SnapshotStore) :=
  if (MAX_FILE_READ_BYTES <? N.of_nat (length final_bytes))%N || is_binary final_bytes
  then Some (unavailable requested_path (lit "final bytes are not a readable, taggable text file"), st)
  else if bool_decide (from_utf8 final_bytes = None)
  then Some (unavailable requested_path (lit "final bytes are not valid UTF-8"), st)
  else
    whole ← scan_snapshot final_bytes request_whole_file;
    let selected := affected_output_lines whole affected in
    '(outcome, st) ← publish st canonical_path (snapshot_for_lines whole selected);
    match po_status outcome with
    | Oversize _ _ =>
        Some (unavailable requested_path
                (lit "affected snapshot exceeds the session residency budget"), st)
    | Stored =>
        published ← po_snapshot outcome;
        Some (MkResponse (Some published) (Some (render_tagged_snapshot published requested_path))
                requested_path None, st)
    end.

Definition invalidate_removed_source (st : SnapshotStore) (source : PathBuf) : bool * SnapshotStore :=
  invalidate_path canonicalize st source.

End Capture.

End ReadCapture.
