(* ===== verification/ReadSpec.v ===== *)
(** * What a tagged read shows and makes addressable

    The rendering loop keeps the rows that fit, in order, within the budget; a tagged read
    publishes exactly the rows it shows; and a row that was shown can be addressed and edited
    as long as the file has not changed. *)

From S2P Require Import Prelude RustStr ByteStr XxHash Scan SnapshotStore Rejection Syntax Address.
From S2P Require Import Region ReadCapture.
Import ByteStr XxHash Scan SnapshotStore Rejection Syntax Address Region ReadCapture.

Module ReadSpec.

(** ** Rows in key order *)

Lemma record_rows_keys s : (record_rows s).*1 = btree_keys (records s).
Proof.
  unfold record_rows. assert (∀ n, n ∈ btree_keys (records s) → is_Some (records s !! n)) as H
    by (intros n; apply elem_of_btree_keys).
  induction (btree_keys (records s)) as [|n ns IH]; [done|].
  destruct (H n) as [rec Hrec]; [by left|]. cbn [omap list_omap]. rewrite Hrec. cbn.
  f_equal. apply IH. intros m Hm. apply H. by right.
Qed.

Lemma elem_of_record_rows s n rec : (n, rec) ∈ record_rows s ↔ records s !! n = Some rec.
Proof.
  unfold record_rows. rewrite list_elem_of_omap. split.
  - intros (m & _ & (r & Hr & [= -> ->])%fmap_Some). done.
  - intros H. exists n. split; [apply elem_of_btree_keys; eauto|]. by rewrite H.
Qed.

Lemma btree_keys_NoDup {V} (m : gmap nat V) : NoDup (btree_keys m).
Proof. unfold btree_keys. rewrite merge_sort_Permutation. apply NoDup_elements. Qed.

Lemma btree_keys_sorted {V} (m : gmap nat V) : StronglySorted (≤) (btree_keys m).
Proof. apply (StronglySorted_merge_sort (≤)). Qed.

(** ** The rendering loop *)

Section Body.
Context (render : nat → RawLineRecord → str * bool) (limit : N).

Abbreviation row := (nat * RawLineRecord)%type.
Abbreviation row_text := (λ r : row, (render r.1 r.2).1).

(** The rows of a list that were shown, and those that did not fit. *)
Definition shown (R : gset nat) (rows : list row) : list row := filter (λ r, r.1 ∈ R) rows.
Definition elided (R : gset nat) (rows : list row) : list nat := filter (λ n, n ∉ R) rows.*1.

(** The rows of [R] in a list are those that fit behind the rows shown before them. *)
Definition fitting (R : gset nat) (rows : list row) : Prop :=
  ∀ before n rec after, rows = before ++ (n, rec) :: after →
    n ∈ R ↔ (str_len (concat (row_text <$> shown R before)) + str_len (row_text (n, rec)) ≤ limit)%N.

Record body_inv (rows : list row) (st : BodyState) : Prop := {
  bi_text : bs_text st = concat (row_text <$> shown (bs_rendered st) rows);
  bi_rendered : ∀ n, n ∈ bs_rendered st → n ∈ rows.*1;
  bi_truncated : ∀ n, n ∈ bs_truncated st ↔
    n ∈ bs_rendered st ∧ ∃ rec, (n, rec) ∈ rows ∧ (render n rec).2 = true;
  bi_bound : (bs_bytes st ≤ limit)%N;
  bi_exact : (limit < usize_max)%N → bs_bytes st = str_len (bs_text st);
  bi_fit : (limit < usize_max)%N → fitting (bs_rendered st) rows;
  bi_first : bs_first st = head (elided (bs_rendered st) rows);
  bi_last : bs_last st = last (elided (bs_rendered st) rows) }.

Lemma shown_fresh n R rows : n ∉ rows.*1 → shown ({[n]} ∪ R) rows = shown R rows.
Proof.
  intros Hn. unfold shown. apply filter_ext_elem. intros [m rec] Hm. simpl.
  assert (m ≠ n) by (intros ->; apply Hn; apply list_elem_of_fmap; by exists (n, rec)). set_solver.
Qed.

Lemma elided_fresh n R rows : n ∉ rows.*1 → elided ({[n]} ∪ R) rows = elided R rows.
Proof.
  intros Hn. unfold elided. apply filter_ext_elem. intros m Hm.
  assert (m ≠ n) by (by intros ->). set_solver.
Qed.

Lemma shown_snoc R rows n rec :
  shown R (rows ++ [(n, rec)]) = shown R rows ++ (if decide (n ∈ R) then [(n, rec)] else []).
Proof. unfold shown. rewrite filter_app, filter_cons. simpl. by case_decide. Qed.

Lemma elided_snoc R rows n rec :
  elided R (rows ++ [(n, rec)]) = elided R rows ++ (if decide (n ∈ R) then [] else [n]).
Proof.
  unfold elided. rewrite fmap_app, filter_app. cbn [fmap list_fmap fst]. rewrite filter_cons.
  repeat case_decide; tauto.
Qed.

Lemma fit_snoc R rows n rec :
  fitting R rows →
  (n ∈ R ↔ (str_len (concat (row_text <$> shown R rows)) + str_len (row_text (n, rec)) ≤ limit)%N) →
  fitting R (rows ++ [(n, rec)]).
Proof.
  intros Hrows Hn before m mrec after. induction after as [|x after' _] using rev_ind.
  - intros [-> [= -> ->]]%app_inj_tail. done.
  - rewrite app_comm_cons, app_assoc. intros [-> _]%app_inj_tail. by eapply Hrows.
Qed.

Lemma fit_fresh R rows n : n ∉ rows.*1 → fitting R rows → fitting ({[n]} ∪ R) rows.
Proof.
  intros Hn H before m mrec after Heq. rewrite Heq, fmap_app, not_elem_of_app in Hn.
  destruct Hn as [Hb Hm]. rewrite shown_fresh by done. rewrite <-(H _ _ _ _ Heq).
  assert (m ≠ n) by (intros ->; apply Hm; by left). set_solver.
Qed.

Lemma body_step_inv rows n rec st :
  n ∉ rows.*1 → body_inv rows st → body_inv (rows ++ [(n, rec)]) (body_step render limit st (n, rec)).
Proof.
  intros Hn [Ht Hr Htr Hb He Hfit0 Hf Hl]. unfold body_step.
  assert (n ∉ bs_rendered st) as Hnr by (intros H; by apply Hr in H).
  destruct (render n rec) as [line trunc] eqn:Hline.
  destruct (N.ltb_spec limit (sat_add64 (bs_bytes st) (str_len line))) as [Hover|Hfit].
  - split; cbn [bs_text bs_bytes bs_rendered bs_truncated bs_first bs_last];
      [| |intros m|done|done| | |].
    + by rewrite Ht, shown_snoc, decide_False, app_nil_r by done.
    + intros m Hm. rewrite fmap_app, elem_of_app. left. auto.
    + rewrite Htr. split; intros [Hm (r & Hin & Hrt)]; (split; [done|]); exists r; (split; [|done]).
      * apply elem_of_app. by left.
      * apply elem_of_app in Hin as [?|Hin]; [done|]. apply list_elem_of_singleton in Hin.
        injection Hin as -> _. done.
    + intros Hlim. apply fit_snoc; [by apply Hfit0|]. rewrite <-Ht, <-He by done. cbn [fst snd]. rewrite Hline. unfold sat_add64 in Hover. cbn [fst].
      split; [by intros|lia].
    + rewrite Hf, elided_snoc, decide_False by done. by destruct (elided _ rows).
    + by rewrite elided_snoc, decide_False, last_snoc by done.
  - split; cbn [bs_text bs_bytes bs_rendered bs_truncated bs_first bs_last];
      [| |intros m|done| | | |].
    + rewrite shown_snoc, decide_True, shown_fresh by (done || set_solver).
      rewrite fmap_app, concat_app, <-Ht. simpl. by rewrite Hline, app_nil_r.
    + intros m [->%elem_of_singleton|Hm]%elem_of_union; rewrite fmap_app, elem_of_app; [right; by left|].
      left. auto.
    + transitivity ((m = n ∧ trunc = true) ∨ m ∈ bs_truncated st); [destruct trunc; rewrite ?elem_of_union, ?elem_of_singleton; naive_solver|].
      rewrite Htr, elem_of_union, elem_of_singleton. setoid_rewrite elem_of_app.
      setoid_rewrite list_elem_of_singleton. split.
      * intros [[-> ->]|[Hm (r & Hin & Hrt)]]; [|eauto 6].
        split; [by left|]. exists rec. rewrite Hline. eauto.
      * intros [Hm (r & [Hin|[= -> ->]] & Hrt)]; [|left; rewrite Hline in Hrt; done].
        right. split; [|eauto]. destruct Hm as [->|?]; [|done].
        destruct Hn. apply list_elem_of_fmap. by exists (n, r).
    + intros Hlim. rewrite str_len_app, <-He by done. unfold sat_add64 in *. lia.
    + intros Hlim. apply fit_snoc; [by apply fit_fresh; [|by apply Hfit0]|]. rewrite shown_fresh by done.
      rewrite <-Ht, <-He by done. cbn [fst snd]. rewrite Hline. unfold sat_add64 in Hfit. cbn [fst]. split; [lia|set_solver].
    + by rewrite elided_snoc, decide_True, app_nil_r, elided_fresh by (done || set_solver).
    + by rewrite elided_snoc, decide_True, app_nil_r, elided_fresh by (done || set_solver).
Qed.

Lemma render_body_inv s : body_inv (record_rows s) (render_body render limit s).
Proof.
  unfold render_body.
  assert (NoDup (record_rows s).*1) as Hnd by (rewrite record_rows_keys; apply btree_keys_NoDup).
  induction (record_rows s) as [|[n rec] rows IH] using rev_ind.
  - split; simpl; try done; [|lia|by intros _ []].
    intros n. split; [by intros ?%elem_of_empty|]. by intros [?%elem_of_empty _].
  - rewrite fmap_app in Hnd. apply NoDup_app in Hnd as (Hnd & Hdis & _). rewrite foldl_app.
    apply body_step_inv; [|auto]. intros Hin. apply (Hdis n Hin). by left.
Qed.

(** The elided range covers every row that did not fit. *)
Lemma elided_range_covers s n rec :
  records s !! n = Some rec → n ∉ bs_rendered (render_body render limit s) →
  ∃ r, elided_of (render_body render limit s) = Some r ∧ range_start r ≤ n ≤ range_end r.
Proof.
  intros Hrec Hn. destruct (render_body_inv s) as [_ _ _ _ _ _ Hf Hl]. unfold elided_of. rewrite Hf, Hl.
  set (es := elided _ _). assert (n ∈ es) as Hin.
  { apply list_elem_of_filter. split; [done|]. apply list_elem_of_fmap. exists (n, rec).
    split; [done|]. by apply elem_of_record_rows. }
  assert (StronglySorted (≤) es) as Hs.
  { apply StronglySorted_filter. rewrite record_rows_keys. apply btree_keys_sorted. }
  clearbody es. destruct es as [|a es]; [by apply not_elem_of_nil in Hin|]. simpl.
  eexists. split; [done|]. simpl. rewrite last_cons. split.
  - apply elem_of_cons in Hin as [->|Hin]; [done|]. inversion Hs as [|? ? _ Ha]; subst.
    rewrite Forall_forall in Ha. auto.
  - destruct (last es) as [z|] eqn:Hz; simpl.
    + apply last_Some in Hz as (es' & ->). rewrite app_comm_cons in Hs, Hin.
      apply elem_of_app in Hin as [Hin|Hin]; [|apply list_elem_of_singleton in Hin; lia].
      by apply (StronglySorted_snoc_elem _ _ _ _ Hs).
    + apply last_None in Hz as ->. apply list_elem_of_singleton in Hin. lia.
Qed.

End Body.

(** ** What a selection keeps *)

Lemma selected_lines_retained sel total n :
  n ∈ selected_lines sel total → 1 ≤ n ≤ total ∧ retains (coverage (scan_request sel)) n = true.
Proof.
  unfold retains. destruct sel as [|start stop|lines|lines|lines]; simpl.
  - rewrite elem_of_list_to_set, elem_of_range_incl. done.
  - destruct (_ || _) eqn:E; [by intros ?%elem_of_empty|]. apply orb_false_iff in E as [E1 E2].
    breflect. rewrite elem_of_list_to_set, elem_of_range_incl. intros Hn. split; [lia|].
    unfold coverage_range. rewrite decide_False by lia. simpl. apply bool_decide_eq_true.
    rewrite elem_of_list_to_set, elem_of_range_incl. lia.
  - rewrite elem_of_filter. intros [[]]. split; [lia|]. by apply bool_decide_eq_true.
  - rewrite elem_of_list_to_set, elem_of_range_incl. intros Hn. split; [lia|].
    unfold coverage_range. rewrite decide_False by lia. simpl. apply bool_decide_eq_true.
    rewrite elem_of_list_to_set, elem_of_range_incl. lia.
  - destruct (_ || _); [by intros ?%elem_of_empty|].
    rewrite elem_of_list_to_set, elem_of_range_incl. intros Hn. split; [lia|done].
Qed.

(** A selection names the rows its shape describes. *)
Lemma selected_lines_spec sel total n :
  n ∈ selected_lines sel total ↔ 1 ≤ n ≤ total ∧
  match sel with
  | ReadCapture.WholeFile => True
  | SelRange start stop => 1 ≤ start ∧ start ≤ n ≤ stop
  | SelLines lines => n ∈ lines
  | SelHead lines => n ≤ lines
  | SelTail lines => total < n + lines
  end.
Proof.
  destruct sel as [|start stop|lines|lines|lines]; simpl.
  - rewrite elem_of_list_to_set, elem_of_range_incl. tauto.
  - destruct (_ || _) eqn:E.
    + apply orb_true_iff in E as [E|E]; breflect; (split; [by intros ?%elem_of_empty|lia]).
    + apply orb_false_iff in E as [E1 E2]. breflect.
      rewrite elem_of_list_to_set, elem_of_range_incl. lia.
  - rewrite elem_of_filter. lia || (split; [intros [[]]|intros [[]]]; split_and!; done || lia).
  - rewrite elem_of_list_to_set, elem_of_range_incl. lia.
  - destruct (_ || _) eqn:E.
    + apply orb_true_iff in E as [E|E]; breflect; (split; [by intros ?%elem_of_empty|lia]).
    + apply orb_false_iff in E as [E1 E2]. breflect.
      rewrite elem_of_list_to_set, elem_of_range_incl. lia.
Qed.

(** Restricting a capture to rows it retained. *)
Lemma snapshot_for_lines_record s R n :
  raw_record (snapshot_for_lines s R) n = if decide (n ∈ R) then raw_record s n else None.
Proof.
  unfold raw_record, snapshot_for_lines. simpl. rewrite map_lookup_filter.
  destruct (records s !! n) as [rec|]; simpl; repeat case_guard; repeat case_decide; done.
Qed.

(** The rows a tagged rendering shows, in file order. *)
Definition shown_rows (recs : list RawLineRecord) (R : gset nat) : list (nat * RawLineRecord) :=
  omap (λ n, pair n <$> rec_at recs n) (btree_elems R).

Lemma rows_by_keys {A} (f : nat → option A) (l : list (nat * A)) :
  (∀ n r, (n, r) ∈ l → f n = Some r) → l = omap (λ n, pair n <$> f n) l.*1.
Proof.
  induction l as [|[n r] l IH]; intros H; [done|]. cbn [fmap list_fmap omap list_omap fst].
  rewrite (H n r) by left. cbn. f_equal. apply IH. intros m q Hm. apply H. by right.
Qed.

Definition lines_before (n : nat) (R : gset nat) : gset nat := filter (λ m, m < n) R.

Lemma shown_keys R (rows : list (nat * RawLineRecord)) :
  NoDup rows.*1 → StronglySorted (≤) rows.*1 → (∀ n, n ∈ R → n ∈ rows.*1) →
  (shown R rows).*1 = btree_elems R.
Proof.
  intros Hnd Hs HR.
  assert ((shown R rows).*1 = filter (.∈ R) rows.*1) as ->.
  { unfold shown. clear. induction rows as [|[n r] l IH]; [done|].
    cbn [fmap list_fmap fst]. rewrite !filter_cons. simpl. case_decide; cbn; by rewrite IH. }
  apply (StronglySorted_unique (≤)); [by apply StronglySorted_filter|apply btree_elems_sorted|].
  apply NoDup_Permutation; [by apply NoDup_filter| |].
  - unfold btree_elems. rewrite merge_sort_Permutation. apply NoDup_elements.
  - intros n. rewrite list_elem_of_filter, elem_of_btree_elems. naive_solver.
Qed.

(** The rows shown among the first rows of a sorted list are those with smaller numbers. *)
Lemma shown_before R (before : list (nat * RawLineRecord)) n rec after :
  let rows := before ++ (n, rec) :: after in
  NoDup rows.*1 → StronglySorted (≤) rows.*1 → (∀ m, m ∈ R → m ∈ rows.*1) →
  (shown R before).*1 = btree_elems (lines_before n R).
Proof.
  intros rows Hnd Hs HR. unfold rows in *. rewrite fmap_app in *. cbn [fmap list_fmap fst] in *.
  apply NoDup_app in Hnd as (Hnd & Hdis & _).
  apply StronglySorted_app in Hs as (Hle & Hs & Hsa). apply StronglySorted_inv in Hsa as [_ Ha].
  rewrite Forall_forall in Ha.
  assert (∀ m, m ∈ before.*1 → m < n) as Hlt.
  { intros m Hm. assert (m ≤ n) by (apply (Hle m n); [done|by left]).
    assert (m ≠ n) by (intros ->; apply (Hdis n Hm); by left). lia. }
  assert (shown R before = shown (lines_before n R) before) as ->.
  { apply filter_ext_elem. intros [m q] Hm. simpl. unfold lines_before. rewrite elem_of_filter.
    assert (m < n) by (apply Hlt, list_elem_of_fmap; by exists (m, q)). tauto. }
  apply shown_keys; [done..|]. intros m [Hm HmR]%elem_of_filter.
  apply HR, elem_of_app in HmR as [?|[->|Hin]%elem_of_cons]; [done|lia|]. apply Ha in Hin. lia.
Qed.

Section TaggedRead.
Context (canonicalize : PathBuf → option PathBuf) (content_fingerprint : bytes → bytes).
Context (inspect_is_binary : bytes → bool).

Abbreviation capture :=
  (capture_taggable_source_with_options canonicalize content_fingerprint inspect_is_binary).

(** What stands between a source and its tag. *)
Record taggable (sel : ReadSelection) (src : ReadSource) : Prop := {
  tg_file : m_is_file (src_metadata src) = true;
  tg_size : (m_len (src_metadata src) ≤ MAX_FILE_READ_BYTES)%N;
  tg_text : is_binary inspect_is_binary (src_bytes src) = false;
  tg_utf8 : is_Some (from_utf8 (src_bytes src));
  tg_write : is_write_eligible (src_metadata src) = true;
  tg_selected : is_explicitly_empty sel = false;
  tg_rows : sel = ReadCapture.WholeFile ∨
    selected_lines sel (length (raw_line_records (src_bytes src))) ≠ ∅ }.

(** The rows a read of the source selects, how it renders them, and the evidence for the
    rendered rows. *)
Definition selection (sel : ReadSelection) (src : ReadSource) (s : Snapshot) : Snapshot :=
  snapshot_for_lines s (selected_lines sel (length (raw_line_records (src_bytes src)))).
Definition rendering (req : str) (sel : ReadSelection) (o : RenderOptions) (src : ReadSource)
    (s : Snapshot) : TaggedRendering :=
  render_tagged_snapshot_with_options (selection sel src s) req o.
Definition evidence (req : str) (sel : ReadSelection) (o : RenderOptions) (src : ReadSource)
    (s : Snapshot) : Snapshot :=
  snapshot_for_lines (selection sel src s) (tr_rendered_lines (rendering req sel o src s)).

(** Every read of a source ends, in a tag exactly when the source is taggable and the store
    takes the evidence. *)
Lemma capture_cases st path req sel o src :
  store_inv st →
  ∃ s, snapshot_of (src_bytes src) (coverage (scan_request sel)) s ∧
  let ev := evidence req sel o src s in
  let fits := within_limits canonicalize st path ev in
  ∃ p st', capture st path req sel o src = Some (p, st') ∧
  match p with
  | Tagged snap r =>
      taggable sel src ∧ fits ∧ r = rendering req sel o src s ∧ snap = take_normalized ev ∧
      ∃ out, publish canonicalize content_fingerprint st path ev = Some (out, st') ∧
        po_status out = Stored
  | Tagless _ reason => st' = st ∧
      (¬ taggable sel src ∨ ¬ fits ∧
       reason = ReadOversize (evidence_bytes canonicalize st path ev) MAX_SNAPSHOT_TOTAL_BYTES)
  end.
Proof.
  intros Hinv. destruct (scan_bytes_spec (src_bytes src) (scan_request sel)) as (s & Hscan & Hof).
  exists s. split; [done|]. intros ev fits. unfold capture_taggable_source_with_options, declined.
  destruct (m_is_file _) eqn:Hf; cbn [negb].
  2:{ do 2 eexists. split; [done|]. split; [done|]. left. by intros [? _ _ _ _ _ _]; congruence. }
  destruct (_ <? _)%N eqn:Hsz.
  { do 2 eexists. split; [done|]. split; [done|]. left. intros [_ Hle _ _ _ _ _]. apply N.ltb_lt in Hsz. lia. }
  destruct (is_binary _ _) eqn:Hbin.
  { do 2 eexists. split; [done|]. split; [done|]. left. intros [_ _ ? _ _ _ _]. congruence. }
  case_bool_decide as Hu.
  { do 2 eexists. split; [done|]. split; [done|]. left. intros [_ _ _ [? ?] _ _ _]. congruence. }
  rewrite Hscan. cbn [option_bind mbind]. cbv zeta. rewrite (so_total _ _ _ Hof).
  destruct (is_write_eligible _) eqn:Hw; cbn [negb].
  2:{ do 2 eexists. split; [done|]. split; [done|]. left. intros [_ _ _ _ ? _ _]. congruence. }
  assert (taggable sel src ↔ is_explicitly_empty sel
    || (bool_decide (selected_lines sel (length (raw_line_records (src_bytes src))) = ∅)
        && match sel with ReadCapture.WholeFile => false | _ => true end) = false) as Htag.
  { rewrite orb_false_iff, andb_false_iff, bool_decide_eq_false. split.
    - intros [_ _ _ _ _ He Hr]. split; [done|]. destruct Hr as [->|]; auto.
    - intros [He Hr]. split; try done; [by apply N.ltb_ge|by destruct (from_utf8 _); [eexists|]|].
      destruct Hr as [?|?]; [by right|]. left. by destruct sel. }
  destruct (_ || _).
  { do 2 eexists. split; [done|]. split; [done|]. left. by intros ?%Htag. }
  fold (selection sel src s) (rendering req sel o src s) (evidence req sel o src s) ev.
  destruct (publish_spec canonicalize content_fingerprint st path ev Hinv) as (out & st1 & Hpub & _ & Hout).
  rewrite Hpub. cbn [option_bind mbind].
  destruct (publish_status _ _ _ _ _ _ _ Hinv Hpub) as [[Hfit Hst]|[Hfit Hst]]; rewrite Hst in Hout |- *.
  - destruct Hout as [-> _]. simpl. do 2 eexists. split; [done|]. split_and!; [by apply Htag|done..|eauto].
  - do 2 eexists. split; [done|]. split; [by destruct Hout|]. by right.
Qed.

(** The steps of a read that ends in a tag. *)
Lemma capture_tagged_inv st path req sel o src snap r st' :
  store_inv st → capture st path req sel o src = Some (Tagged snap r, st') →
  ∃ s, snapshot_of (src_bytes src) (coverage (scan_request sel)) s ∧ taggable sel src ∧
    let selected := selected_lines sel (length (raw_line_records (src_bytes src))) in
    let shown := snapshot_for_lines (snapshot_for_lines s selected) (tr_rendered_lines r) in
    r = render_tagged_snapshot_with_options (snapshot_for_lines s selected) req o ∧
    snap = take_normalized shown ∧
    ∃ out, publish canonicalize content_fingerprint st path shown = Some (out, st') ∧
      po_status out = Stored.
Proof.
  intros Hinv Hcap. destruct (capture_cases st path req sel o src Hinv) as (s & Hof & p & st1 & Hc & H).
  rewrite Hcap in Hc. injection Hc as <- <-. destruct H as (Ht & _ & -> & -> & Hpub). by exists s.
Qed.

(** The rows of a restricted capture are rows of the file. *)
Lemma restricted_record bs sel s n :
  snapshot_of bs (coverage (scan_request sel)) s →
  raw_record (snapshot_for_lines s (selected_lines sel (length (raw_line_records bs)))) n
  = if decide (n ∈ selected_lines sel (length (raw_line_records bs)))
    then rec_at (raw_line_records bs) n else None.
Proof.
  intros Hof. rewrite snapshot_for_lines_record. case_decide as Hn; [|done].
  unfold raw_record. rewrite (so_records _ _ _ Hof).
  by rewrite (proj2 (selected_lines_retained _ _ _ Hn)).
Qed.

(** The text of rows under their numbers. *)
Definition rows_text (o : RenderOptions) (rows : list (nat * RawLineRecord)) : str :=
  concat ((λ row, (tagged_row (max_line_length o) row.1 row.2).1) <$> rows).

Lemma tagged_rows_exact bs sel s req o :
  snapshot_of bs (coverage (scan_request sel)) s →
  let selected := selected_lines sel (length (raw_line_records bs)) in
  let r := render_tagged_snapshot_with_options (snapshot_for_lines s selected) req o in
  let header := tagged_header req s in
  let body := rows_text o (shown_rows (raw_line_records bs) (tr_rendered_lines r)) in
  let limit := read_body_limit o (str_len header) (total_lines s) in
  tr_rendered_lines r ⊆ selected ∧
  (∃ notice, tr_text r = header ++ body ++ notice ∧
    notice = match tr_elided_range r with
             | Some e => elision_notice (max_output_bytes o) (range_start e) (range_end e)
             | None => []
             end) ∧
  ((limit < usize_max)%N → (str_len body ≤ limit)%N ∧
     ∀ n rec, n ∈ selected → rec_at (raw_line_records bs) n = Some rec →
       n ∈ tr_rendered_lines r ↔
       (str_len (rows_text o (shown_rows (raw_line_records bs) (lines_before n (tr_rendered_lines r))))
        + str_len (rows_text o [(n, rec)]) ≤ limit)%N) ∧
  ∀ n, n ∈ selected → n ∉ tr_rendered_lines r →
    ∃ e, tr_elided_range r = Some e ∧ range_start e ≤ n ≤ range_end e.
Proof.
  intros Hof selected r hd body limit. set (ss := snapshot_for_lines s selected).
  set (st := render_body (tagged_row (max_line_length o)) limit ss).
  destruct (render_body_inv (tagged_row (max_line_length o)) limit ss) as [Ht Hr _ Hb He Hfit _ _].
  fold st in Ht, Hr, Hb, He, Hfit. change (tr_rendered_lines r) with (bs_rendered st).
  assert (∀ n rec, records ss !! n = Some rec →
    n ∈ selected ∧ rec_at (raw_line_records bs) n = Some rec) as Hss.
  { intros n rec Hrec. pose proof (restricted_record bs sel s n Hof) as Hrr. unfold raw_record in Hrr.
    fold selected ss in Hrr. rewrite Hrec in Hrr. by case_decide. }
  assert (NoDup (record_rows ss).*1) as Hnd by (rewrite record_rows_keys; apply btree_keys_NoDup).
  assert (StronglySorted (≤) (record_rows ss).*1) as Hsort by (rewrite record_rows_keys; apply btree_keys_sorted).
  assert (bs_text st = body) as Hbody.
  { rewrite Ht. unfold body, rows_text. change (tr_rendered_lines r) with (bs_rendered st). f_equal. f_equal.
    unfold shown_rows. rewrite <-(shown_keys _ (record_rows ss)) by done. apply rows_by_keys.
    intros n rec [_ Hin%elem_of_record_rows]%list_elem_of_filter. by apply Hss. }
  assert (∀ n rec, n ∈ selected → rec_at (raw_line_records bs) n = Some rec → records ss !! n = Some rec) as Hsel.
  { intros n rec Hn Hrec. pose proof (restricted_record bs sel s n Hof) as Hrr. unfold raw_record in Hrr.
    fold selected ss in Hrr. by rewrite Hrr, decide_True. }
  split_and!.
  - intros n Hn%Hr. apply list_elem_of_fmap in Hn as ([m rec] & -> & Hin%elem_of_record_rows).
    by apply (Hss m rec).
  - exists (notice_of o st). split; [|done]. by rewrite <-Hbody.
  - intros Hl. split; [by rewrite <-Hbody, <-He|]. intros n rec Hn Hrec.
    assert ((n, rec) ∈ record_rows ss) as (before & after & Heq)%list_elem_of_split
      by (by apply elem_of_record_rows, Hsel).
    rewrite (Hfit Hl _ _ _ _ Heq).
    assert (shown (bs_rendered st) before
      = shown_rows (raw_line_records bs) (lines_before n (bs_rendered st))) as <-.
    { unfold shown_rows. rewrite Heq in Hnd, Hsort, Hr. erewrite <-(shown_before _ before n rec after) by done.
      apply rows_by_keys. intros m q [_ Hin]%list_elem_of_filter.
      apply (Hss m q), elem_of_record_rows. rewrite Heq. apply elem_of_app. by left. }
    unfold rows_text. cbn [fmap list_fmap concat]. by rewrite app_nil_r.
  - intros n Hin Hn. assert (is_Some (rec_at (raw_line_records bs) n)) as [rec Hrec].
    { destruct (selected_lines_retained _ _ _ Hin) as [Hrange _]. destruct n as [|n]; [lia|].
      apply lookup_lt_is_Some. lia. }
    apply (elided_range_covers (tagged_row (max_line_length o)) limit ss n rec); [by apply Hsel|done].
Qed.

(** C10: a tagged read shows the rows that fit, publishes exactly what it shows, and is granted
    exactly to taggable sources.  Every read of a source returns.  It ends in a tag only if the
    source is a writable regular text file within the size limit, the selection names a row and
    the evidence fits the store; and if it ends without one, the store is unchanged and the source is not of that kind or the
    evidence of the rows it would show exceeds what the store keeps, which the reason says.  With
    a tag: the tag is the tag of the bytes; the text is the header, the rows shown in file order,
    each with its number and content, and the elision notice; the published evidence covers
    exactly those rows, with the file's content and terminators; only selected rows are shown,
    and a selected row is shown exactly when it fits in the byte budget behind the rows shown
    before it; and every selected row that is not shown lies in the elided range. *)
Theorem tagged_read_exact st path req sel o src :
  store_inv st →
  let recs := raw_line_records (src_bytes src) in
  let selected := selected_lines sel (length recs) in
  let header := lit "[" ++ req ++ lit "#" ++ to_ascii_uppercase (tag_for (src_bytes src)) ++ lit "]" ++ [LF] in
  let limit := read_body_limit o (str_len header) (length recs) in
  match capture st path req sel o src with
  | None => False
  | Some (Tagless _ reason, st') => st' = st ∧
      (¬ taggable sel src ∨
       ∃ s, snapshot_of (src_bytes src) (coverage (scan_request sel)) s ∧
         let ev := evidence req sel o src s in
         ¬ within_limits canonicalize st path ev ∧
         reason = ReadOversize (evidence_bytes canonicalize st path ev) MAX_SNAPSHOT_TOTAL_BYTES)
  | Some (Tagged snap r, st') =>
      let body := rows_text o (shown_rows recs (tr_rendered_lines r)) in
      taggable sel src ∧
      (∃ s, snapshot_of (src_bytes src) (coverage (scan_request sel)) s ∧
         within_limits canonicalize st path (evidence req sel o src s)) ∧
      tr_tag r = to_ascii_uppercase (tag_for (src_bytes src)) ∧
      tr_text r = header ++ body ++ match tr_elided_range r with
        | Some e => elision_notice (max_output_bytes o) (range_start e) (range_end e)
        | None => []
        end ∧
      (∀ n, is_seen snap n = true ↔ n ∈ tr_rendered_lines r) ∧
      (∀ n, raw_record snap n = if decide (n ∈ tr_rendered_lines r) then rec_at recs n else None) ∧
      tr_rendered_lines r ⊆ selected ∧
      ((limit < usize_max)%N → (str_len body ≤ limit)%N ∧
         ∀ n rec, n ∈ selected → rec_at recs n = Some rec →
           n ∈ tr_rendered_lines r ↔
           (str_len (rows_text o (shown_rows recs (lines_before n (tr_rendered_lines r))))
            + str_len (rows_text o [(n, rec)]) ≤ limit)%N) ∧
      ∀ n, n ∈ selected → n ∉ tr_rendered_lines r →
        ∃ e, tr_elided_range r = Some e ∧ range_start e ≤ n ≤ range_end e
  end.
Proof.
  intros Hinv recs selected hd limit.
  destruct (capture_cases st path req sel o src Hinv) as (s & Hof & p & st' & -> & H).
  destruct p as [snap r|t reason].
  2:{ destruct H as [-> [H|H]]; (split; [done|]); [by left|right; eauto]. }
  destruct H as (Htg & Hfits & Hr & -> & _). intros body. unfold rendering, selection in Hr.
  destruct (tagged_rows_exact (src_bytes src) sel s req o Hof) as (Hsub & (notice & Htext & Hn) & Hlim & Hel).
  fold recs selected in Hr, Hsub, Htext, Hn, Hlim, Hel. rewrite <-Hr in Hsub, Htext, Hn, Hlim, Hel.
  assert (tagged_header req s = hd) as Hhd by (unfold tagged_header; by rewrite (so_tag _ _ _ Hof)).
  rewrite Hhd in Htext, Hlim. rewrite (so_total _ _ _ Hof) in Hlim.
  unfold evidence, rendering, selection. fold recs selected. rewrite <-Hr.
  split_and!; try done.
  - by exists s.
  - rewrite Hr. simpl. by rewrite (so_tag _ _ _ Hof).
  - by rewrite Htext, Hn.
  - intros n. unfold is_seen. apply bool_decide_eq_true.
  - intros n. change (raw_record (take_normalized ?x) n) with (raw_record x n).
    rewrite snapshot_for_lines_record. unfold selected, recs. rewrite (restricted_record _ _ _ _ Hof).
    repeat case_decide; [done|exfalso; by apply Hsub in H|done].
Qed.

(** ** From a read to an edit *)

Lemma hex_digit_upper d : (d < 16)%N → is_upper_hex (hex_digit d) = true.
Proof.
  intros Hd. unfold hex_digit, is_upper_hex, is_ascii_digit.
  rewrite orb_true_iff, !andb_true_iff, !N.leb_le. destruct (N.ltb_spec d 10); lia.
Qed.

Lemma tag_for_valid bs : valid_tag (tag_for bs).
Proof.
  unfold tag_for, fmt_04X. split; [done|].
  repeat constructor; apply hex_digit_upper, N.mod_lt; done.
Qed.

Lemma tag_for_upper bs : to_ascii_uppercase (tag_for bs) = tag_for bs.
Proof.
  pose proof (normalize_tag_valid _ (tag_for_valid bs)) as H.
  by destruct (normalize_tag_Ok _ _ H) as [_ ?].
Qed.

(** A span whose rows are retained with the content of the current file needs no recovery. *)
Lemma verify_span_exact s b sp :
  (∀ n, n ∈ span_lines sp → is_seen s n = true ∧ raw_record s n = baseline_record b n) →
  check_eligibility s (Span sp) = Ok tt ∧ verify_exact s b (Span sp) = Exact.
Proof.
  intros H. assert (check_eligibility s (Span sp) = Ok tt) as He.
  { simpl. assert (first_unseen s (span_lines sp) = None) as ->; [|done].
    apply first_unseen_None. intros n Hn. by apply H. }
  split; [done|]. unfold verify_exact. rewrite He.
  assert (existsb (line_changed s b) (span_lines sp) = false) as ->; [|done].
  apply existsb_false_elem_of. intros n Hn. apply bool_decide_eq_false. intros Hne.
  apply Hne. by apply H.
Qed.

(** Every line of the span is a row the read printed. *)
Definition rendered_span (r : TaggedRendering) (sp : LineSpan) : Prop :=
  ∀ n, n ∈ span_lines sp → n ∈ tr_rendered_lines r.

(** C11: what a tagged read showed can be edited.  After the read, resolving the printed tag for
    the path succeeds with evidence under which every span of shown rows is eligible and, as
    long as the file still has the bytes that were read, verifies [Exact], so an edit of it
    needs no recovery.  The only other answers are the two collision rejections, and they are
    given only when the path really holds, or held, other content under the same tag. *)
Theorem read_then_editable st path req sel o src snap r st' b :
  store_inv st → (st_clock st < usize_max)%N →
  capture st path req sel o src = Some (Tagged snap r, st') →
  baseline_from_bytes (src_bytes src) = Some b →
  let key := canonical_key canonicalize path in
  match (resolve_snapshot canonicalize content_fingerprint st' path (tr_tag r)).1 with
  | Ok s =>
      ∀ sp, rendered_span r sp →
        check_eligibility s (Span sp) = Ok tt ∧ verify_exact s b (Span sp) = Exact
  | Err e =>
      (∃ m, e = resolution AmbiguousTag m ∧
        ∃ v w, resident st' key v ∧ resident st' key w ∧
          fold_tag (tag (ss_snapshot v)) = fold_tag (tr_tag r) ∧
          fold_tag (tag (ss_snapshot w)) = fold_tag (tr_tag r) ∧
          ss_normalized_bytes v ≠ ss_normalized_bytes w) ∨
      (∃ m, e = resolution EvictedTag m ∧
        different_content content_fingerprint st' key (fold_tag (tr_tag r))
          (normalize_for_tag (src_bytes src)))
  end.
Proof.
  intros Hinv Hck (s & Hof & Htg & Hr & Hsnap & out & Hpub & Hst)%capture_tagged_inv Hb key; [|done].
  set (recs := raw_line_records (src_bytes src)) in *. set (selected := selected_lines sel _) in *.
  assert (tr_tag r = tag_for (src_bytes src)) as Htag.
  { rewrite Hr. simpl. by rewrite (so_tag _ _ _ Hof), tag_for_upper. }
  pose proof (publish_lookup_spec _ _ _ _ _ _ _ Hinv Hck Hpub Hst) as Hl. fold key in Hl.
  cbn [tag normalized_bytes snapshot_for_lines] in Hl.
  rewrite (so_tag _ _ _ Hof), (so_normalized _ _ _ Hof) in Hl.
  unfold resolve_snapshot. rewrite Htag, (normalize_tag_valid _ (tag_for_valid _)).
  destruct (lookup canonicalize content_fingerprint st' path (tag_for (src_bytes src))) as [[found|e] st2].
  - simpl in Hl |- *. destruct Hl as (Hrec & Hseen & _). intros sp Hsp. apply verify_span_exact.
    intros n Hn. apply Hsp in Hn.
    destruct (tagged_rows_exact (src_bytes src) sel s req o Hof) as (Hsub & _).
    fold recs selected in Hsub. rewrite <-Hr in Hsub.
    split; [apply bool_decide_eq_true; set_solver|]. rewrite (baseline_rec _ _ _ Hb). fold recs.
    destruct (selected_lines_retained _ _ _ (Hsub _ Hn)) as [Hrange _].
    assert (is_Some (rec_at recs n)) as [rec Hn'].
    { destruct n as [|n]; [lia|]. apply lookup_lt_is_Some. fold recs in Hrange. lia. }
    rewrite Hn'. unfold raw_record. eapply lookup_weaken; [|exact Hrec].
    change (raw_record (snapshot_for_lines (snapshot_for_lines s selected) (tr_rendered_lines r)) n = Some rec).
    rewrite snapshot_for_lines_record, decide_True by done. unfold selected.
    rewrite (restricted_record _ _ _ _ Hof), decide_True by (by apply Hsub). done.
  - simpl in Hl |- *. destruct e; [done|right|left]; eauto.
Qed.

End TaggedRead.

(** An over-long row in the middle is elided and the rows around it are shown, so the notice
    of the one elided range can call a shown row not addressable. *)
Definition long_rows : bytes :=
  lit "a" ++ [LF] ++ lit "bbbbbbbbbbbbbbbbbbb" ++ [LF] ++ lit "c" ++ [LF]
  ++ lit "ddddddddddddddddddd" ++ [LF].

Theorem elision_notice_covers_shown_row :
  match scan_snapshot long_rows request_whole_file with
  | Some s =>
      let r := render_tagged_snapshot_with_options s (lit "f") (MkOptions 12 2000 0) in
      tr_elided_range r = Some (MkRange 2 4) ∧ 3 ∈ tr_rendered_lines r
  | None => False
  end.
Proof. vm_compute. done. Qed.

(** ** A read of a two-line file *)

Definition sample_source : ReadSource :=
  MkSource sample_bytes (MkFsMetadata true 11 None false 0 0 438).
Definition sample_read : option (ReadPublication * SnapshotStore) :=
  capture_taggable_source_with_options (λ _, None) id (λ _, false) store_new sample_path (lit "lib.rs")
    (SelRange 2 7) default_options sample_source.

(** The shape of a computed read, for witnesses. *)
Definition read_is_tagged (r : option (ReadPublication * SnapshotStore)) : bool :=
  match r with Some (Tagged _ _, _) => true | _ => false end.

Lemma tagged_read_exact_witness :
  match sample_read with
  | Some (Tagged snap r, _) =>
      taggable (λ _, false) (SelRange 2 7) sample_source ∧ is_seen snap 2 = true
  | _ => False
  end.
Proof.
  destruct sample_read as [[[snap r|] st']|] eqn:E;
    [|exfalso; apply (f_equal read_is_tagged) in E; vm_compute in E; discriminate E..].
  assert (2 ∈ tr_rendered_lines r) as Hin.
  { apply (f_equal (λ x, match x with Some (Tagged _ r, _) => bool_decide (2 ∈ tr_rendered_lines r)
                         | _ => false end)) in E. vm_compute in E. by eapply bool_decide_eq_true_1. }
  pose proof (tagged_read_exact (λ _, None) id (λ _, false) store_new sample_path (lit "lib.rs")
    (SelRange 2 7) default_options sample_source store_new_inv) as H.
  cbv zeta in H. fold sample_read in H. rewrite E in H.
  split; [exact (proj1 H)|]. apply H. exact Hin.
Defined.

Lemma read_then_editable_witness :
  match sample_read, baseline_from_bytes sample_bytes with
  | Some (Tagged _ r, st'), Some b =>
      ∃ s, (resolve_snapshot (λ _, None) id st' sample_path (tr_tag r)).1 = Ok s ∧
        verify_exact s b (Span (MkSpan 2 2)) = Exact
  | _, _ => False
  end.
Proof.
  destruct sample_read as [[[snap r|] st']|] eqn:E;
    [|exfalso; apply (f_equal read_is_tagged) in E; vm_compute in E; discriminate E..].
  destruct (baseline_from_bytes sample_bytes) as [b|] eqn:Eb;
    [|exfalso; apply (f_equal (λ x, bool_decide (is_Some x))) in Eb; vm_compute in Eb; discriminate Eb].
  pose proof (read_then_editable (λ _, None) id (λ _, false) store_new sample_path (lit "lib.rs")
    (SelRange 2 7) default_options sample_source snap r st' b store_new_inv ltac:(done) E Eb) as H.
  cbv zeta in H.
  destruct (resolve_snapshot (λ _, None) id st' sample_path (tr_tag r)).1 as [s|e] eqn:Er.
  - exists s. split; [reflexivity|]. apply H. intros n Hn.
    assert (n = 2) as -> by (apply elem_of_range_incl in Hn; simpl in Hn; lia).
    apply (f_equal (λ x, match x with Some (Tagged _ r, _) => bool_decide (2 ∈ tr_rendered_lines r)
                         | _ => false end)) in E. vm_compute in E. by eapply bool_decide_eq_true_1.
  - exfalso.
    apply (f_equal (λ x, match x with
      | Some (Tagged _ r, st) => is_err (resolve_snapshot (λ _, None) id st sample_path (tr_tag r)).1
      | _ => false end)) in E. rewrite Er in E. vm_compute in E. discriminate E.
Defined.

End ReadSpec.
