(* ===== verification/Repair.v ===== *)
(** * Repair layers: [hashline/apply/repair.rs]

    The two layers that rewrite lowered replacement groups before materialization: the
    indentation layer and the boundary-echo layer. *)

From S2P Require Import Prelude RustStr Scan LineEdits.
Import LineEdits.

Module Repair.

Record RepairOutcome := MkRepair {
  ro_edits : list LineEdit; ro_warnings : list str; layers_applied : list str }.

(** ** Text helpers *)

Definition is_blank_char (c : char) : bool := (c =? SPACE)%N || (c =? TAB)%N.

Definition leading_indent (line : str) : str := take_while is_blank_char line.

Definition is_indent_deeper (deeper shallower : str) : bool :=
  (length shallower <? length deeper) && starts_with shallower deeper.

Definition has_non_whitespace (text : str) : bool :=
  existsb (λ b, negb ((b =? SPACE) || (b =? TAB) || (b =? LF) || (b =? CR))%N) (as_bytes text).

Definition is_closer_head (c : char) : bool :=
  ((c =? 125) || (c =? 41) || (c =? 93) || (c =? 47))%N.
Definition is_closer_char (c : char) : bool :=
  ((c =? 125) || (c =? 41) || (c =? 93) || (c =? 59) || (c =? 44) || (c =? 47) || (c =? 62))%N.

Definition is_structural_closer (line : str) : bool :=
  match trim line with
  | [] => false
  | c :: t => is_closer_head c || starts_with (lit "</") (c :: t) || forallb is_closer_char (c :: t)
  end.

(** [file_lines.get(i).map(String::as_str).unwrap_or(...)] with the empty default. *)
Definition line_or_empty (file_lines : list str) (i : nat) : str := default [] (file_lines !! i).

(** ** Indentation *)

(** The loop over matching rows: the common shift and the number of matches, or [None]
    when two rows disagree. *)
Fixpoint indent_shift (file_lines : list str) (first : nat) (payload : list str)
    (shift : option str) (matches : nat) : option (option str * nat) :=
  match payload with
  | [] => Some (shift, matches)
  | p :: payload =>
      let source := line_or_empty file_lines first in
      if bool_decide (trim source = []) || bool_decide (trim_start source ≠ trim_start p)
      then indent_shift file_lines (S first) payload shift matches
      else
        match strip_suffix (leading_indent p) (leading_indent source) with
        | None => None
        | Some candidate =>
            match shift with
            | Some existing =>
                if decide (existing = candidate)
                then indent_shift file_lines (S first) payload shift (S matches)
                else None
            | None => indent_shift file_lines (S first) payload (Some candidate) (S matches)
            end
        end
  end.

(** The shift to restore for one group, if the group qualifies. *)
Definition group_shift (file_lines : list str) (g : ReplacementGroup) : option str :=
  let n := length (payload g) in
  if bool_decide (n ≠ length (delete_indices g)) then None
  else
    let preceding := line_or_empty file_lines (start_line g - 2) in
    let source_first := line_or_empty file_lines (start_line g - 1) in
    let payload_first := default [] (head (payload g)) in
    if negb (ends_with (lit "{") (trim_end preceding))
       || negb (is_indent_deeper (leading_indent source_first) (leading_indent preceding))
       || is_indent_deeper (leading_indent payload_first) (leading_indent preceding)
    then None
    else
      match indent_shift file_lines (start_line g - 1) (payload g) None 0 with
      | Some (Some shift, matches) =>
          if (matches <? 2) || (matches * 2 <=? n) then None else Some shift
      | _ => None
      end.

(** Prefix the shift to one insert that has visible text. *)
Definition shift_edit (shift : str) (e : LineEdit) : LineEdit :=
  match e with
  | Insert anchor place text mode op =>
      if bool_decide (trim text = []) then e else Insert anchor place (shift ++ text) mode op
  | Delete _ _ => e
  end.

Definition indent_warning (g : ReplacementGroup) : str :=
  lit "Auto-indented a replacement body at line " ++ show (start_line g)
  ++ lit ": restored a uniformly omitted base indent.".

(** [while start < edits.len()]; every round advances [start]. *)
Fixpoint indent_loop (fuel : nat) (file_lines : list str) (edits : list LineEdit) (start : nat)
    (warnings : list str) : list LineEdit * list str :=
  match fuel with
  | 0 => (edits, warnings)
  | S fuel =>
      if start <? length edits then
        match find_replacement_group edits start with
        | None => indent_loop fuel file_lines edits (S start) warnings
        | Some g =>
            let next := S (default start (last (delete_indices g))) in
            match group_shift file_lines g with
            | None => indent_loop fuel file_lines edits next warnings
            | Some shift =>
                indent_loop fuel file_lines
                  (foldl (λ es i, alter (shift_edit shift) i es) edits (insert_indices g))
                  next (warnings ++ [indent_warning g])
            end
        end
      else (edits, warnings)
  end.

Definition repair_replacement_indentation (edits : list LineEdit) (file_lines : list str) :
    list LineEdit * list str :=
  indent_loop (length edits) file_lines edits 0 [].

(** ** Boundary echoes *)

Inductive EchoSide := Leading | Trailing.
#[export] Instance EchoSide_eq_dec : EqDecision EchoSide.
Proof. solve_decision. Defined.

(** The rows [payload[..count]] restate the [count] rows above the span. *)
Definition leading_echo (g : ReplacementGroup) (file_lines : list str) (count : nat) : bool :=
  let rows := take count (payload g) in
  forallb (λ '(i, row), bool_decide (file_lines !! (start_line g - 1 - count + i) = Some row))
    (imap pair rows)
  && existsb has_non_whitespace rows.

Definition trailing_echo (g : ReplacementGroup) (file_lines : list str) (count : nat) : bool :=
  let rows := drop (length (payload g) - count) (payload g) in
  forallb (λ '(i, row), bool_decide (file_lines !! (end_line g + i) = Some row)) (imap pair rows)
  && existsb has_non_whitespace rows.

(** [for count in (1..=max).rev()]: the largest count that satisfies the test. *)
Definition largest_count (max : nat) (test : nat → bool) : nat :=
  default 0 (head (filter (λ count, test count = true) (reverse (range_incl 1 max)))).

Definition count_duplicate_leading (g : ReplacementGroup) (file_lines : list str) : nat :=
  largest_count (Nat.min (length (payload g)) (start_line g - 1)) (leading_echo g file_lines).

Definition count_duplicate_trailing (g : ReplacementGroup) (file_lines : list str) : nat :=
  largest_count (Nat.min (length (payload g)) (length file_lines - end_line g))
    (trailing_echo g file_lines).

Definition find_boundary_echo (g : ReplacementGroup) (file_lines : list str) : option (nat * nat) :=
  let leading := count_duplicate_leading g file_lines in
  let trailing := count_duplicate_trailing g file_lines in
  if bool_decide (leading = 0) then None
  else if bool_decide (trailing = 0) then None
  else if length (payload g) <=? leading + trailing then None
  else Some (leading, trailing).

Definition find_one_sided_boundary_echo (g : ReplacementGroup) (file_lines : list str) :
    option (EchoSide * nat) :=
  let leading := count_duplicate_leading g file_lines in
  let trailing := count_duplicate_trailing g file_lines in
  if Bool.eqb (0 <? leading) (0 <? trailing) then None
  else
    let '(side, count) := if 0 <? leading then (Leading, leading) else (Trailing, trailing) in
    if length (payload g) <=? count then None
    else if length (delete_indices g) <=? 1 then
      if bool_decide (side ≠ Trailing) then None
      else if negb (forallb is_structural_closer (drop (length (payload g) - count) (payload g)))
      then None
      else Some (side, count)
    else Some (side, count).

(** [edits[*idx].clone()] for a list of indices of [edits]. *)
Definition pick (edits : list LineEdit) (indices : list nat) : list LineEdit :=
  omap (λ i, edits !! i) indices.

Definition echo_warning (g : ReplacementGroup) (leading trailing : nat) : str :=
  lit "Auto-repaired a replacement boundary echo at line " ++ show (start_line g)
  ++ lit ": dropped " ++ show leading ++ lit " leading and " ++ show trailing
  ++ lit " trailing payload line(s) already present outside the range.".

Definition one_sided_warning (g : ReplacementGroup) (side : EchoSide) (count : nat) : str :=
  lit "Auto-repaired a replacement boundary echo at line " ++ show (start_line g)
  ++ lit ": dropped " ++ show count ++ lit " "
  ++ (match side with Leading => lit "leading" | Trailing => lit "trailing" end)
  ++ lit " payload line(s) identical to the surviving line(s) just outside the range.".

(** The edits kept for one group, and the warning. *)
Definition repair_group (edits : list LineEdit) (file_lines : list str) (g : ReplacementGroup) :
    list LineEdit * list str :=
  let ins := insert_indices g in
  let deletes := pick edits (delete_indices g) in
  match find_boundary_echo g file_lines with
  | Some (leading, trailing) =>
      (pick edits (take (length ins - leading - trailing) (drop leading ins)) ++ deletes,
       [echo_warning g leading trailing])
  | None =>
      match find_one_sided_boundary_echo g file_lines with
      | Some (side, count) =>
          (pick edits (match side with
                       | Leading => drop count ins
                       | Trailing => take (length ins - count) ins
                       end) ++ deletes,
           [one_sided_warning g side count])
      | None => (pick edits (ins ++ delete_indices g), [])
      end
  end.

Fixpoint echo_loop (fuel : nat) (file_lines : list str) (edits : list LineEdit) (i : nat)
    (rebuilt : list LineEdit) (warnings : list str) : list LineEdit * list str :=
  match fuel with
  | 0 => (rebuilt, warnings)
  | S fuel =>
      match edits !! i with
      | None => (rebuilt, warnings)
      | Some e =>
          match find_replacement_group edits i with
          | None => echo_loop fuel file_lines edits (S i) (rebuilt ++ [e]) warnings
          | Some g =>
              let '(kept, ws) := repair_group edits file_lines g in
              echo_loop fuel file_lines edits (S (default i (last (delete_indices g))))
                (rebuilt ++ kept) (warnings ++ ws)
          end
      end
  end.

Definition repair_boundary_echoes (edits : list LineEdit) (file_lines : list str) :
    list LineEdit * list str :=
  echo_loop (length edits) file_lines edits 0 [] [].

Definition apply_repair_layers (edits : list LineEdit) (file_lines : list str) : RepairOutcome :=
  let '(working, indent) := repair_replacement_indentation edits file_lines in
  let '(working, echo) := repair_boundary_echoes working file_lines in
  MkRepair working (indent ++ echo)
    ((match indent with [] => [] | _ => [lit "indent"] end)
     ++ (match echo with [] => [] | _ => [lit "boundary-echo"] end)).

(** ** The shape of a replacement group *)

(** The edits of a lowered replacement. *)
Definition replacement_inserts (start op : nat) (texts : list str) : list LineEdit :=
  (λ text, Insert start Before text Replacement op) <$> texts.
Definition replacement_deletes (start stop op : nat) : list LineEdit :=
  (λ line, Delete line op) <$> range_incl start stop.

Lemma group_inserts_spec anchor op i edits ins ts j rest :
  group_inserts anchor op i edits = (ins, ts, j, rest) →
  edits = replacement_inserts anchor op ts ++ rest ∧ ins = seq i (length ts) ∧ j = i + length ts.
Proof.
  revert i ins ts j rest.
  induction edits as [|e edits IH]; intros i ins ts j rest; simpl.
  - intros [= <- <- <- <-]. simpl. auto.
  - destruct e as [anchor' place text mode op'|line op'].
    2:{ intros [= <- <- <- <-]. simpl. auto. }
    destruct place, mode; try (intros [= <- <- <- <-]; simpl; by auto).
    case_decide as Hd; [|intros [= <- <- <- <-]; simpl; by auto].
    destruct Hd as [-> ->].
    destruct (group_inserts anchor op (S i) edits) as [[[ins' ts'] j'] rest'] eqn:E.
    intros [= <- <- <- <-]. apply IH in E as (-> & -> & ->). split_and!; simpl; [done..|lia].
Qed.

Lemma group_deletes_spec expected op i edits ds e :
  group_deletes expected op i edits = (ds, e) →
  ∃ rest, edits = ((λ line, Delete line op) <$> seq expected (length ds)) ++ rest ∧
    ds = seq i (length ds) ∧ e = expected + length ds.
Proof.
  revert expected i ds e.
  induction edits as [|x edits IH]; intros expected i ds e; simpl.
  - intros [= <- <-]. exists []. simpl. auto.
  - destruct x as [anchor place text mode op'|line op'].
    { intros [= <- <-]. eexists. simpl. auto. }
    case_decide as Hd; [|intros [= <- <-]; eexists; simpl; by auto].
    destruct Hd as [-> ->].
    destruct (group_deletes (S expected) op (S i) edits) as [ds' e'] eqn:E.
    intros [= <- <-]. apply IH in E as (rest & -> & Hds & ->). exists rest. simpl.
    split_and!; [done| |lia]. by rewrite Hds at 1.
Qed.

(** A group found at [i] is a run of inserts followed by the deletes of its span. *)
Lemma find_replacement_group_spec edits i g :
  find_replacement_group edits i = Some g →
  ∃ rest,
    drop i edits = replacement_inserts (start_line g) (group_op_index g) (payload g)
      ++ replacement_deletes (start_line g) (end_line g) (group_op_index g) ++ rest ∧
    insert_indices g = seq i (length (payload g)) ∧
    delete_indices g = seq (i + length (payload g)) (S (end_line g) - start_line g) ∧
    start_line g ≤ end_line g ∧ payload g ≠ [].
Proof.
  unfold find_replacement_group.
  destruct (edits !! i) as [[anchor place text mode op|line op]|] eqn:Hi; [|done..].
  destruct place, mode; try done.
  destruct (group_inserts anchor op i (drop i edits)) as [[[ins ts] j] rest] eqn:E1.
  destruct (group_deletes anchor op j rest) as [ds e] eqn:E2.
  pose proof E1 as (Hd & -> & ->)%group_inserts_spec.
  apply group_deletes_spec in E2 as (rest' & -> & Hds & ->).
  destruct ds as [|d ds]; [done|]. remember (d :: ds) as ds0 eqn:Hds0.
  assert (1 ≤ length ds0) as Hlen by (subst; simpl; lia). clear Hds0.
  destruct ds0 as [|d0 ds0]; [simpl in Hlen; lia|]. intros [= <-]. simpl start_line. simpl end_line.
  exists rest'. cbn [start_line end_line group_op_index payload insert_indices delete_indices].
  assert (S (anchor + S (length ds0) - 1) - anchor = S (length ds0)) as Hn by lia.
  split_and!.
  - rewrite Hd. f_equal. unfold replacement_deletes, range_incl. simpl length. by rewrite Hn.
  - done.
  - simpl length in *. rewrite Hn. done.
  - simpl. lia.
  - rewrite (drop_S _ _ _ Hi) in E1. cbn [group_inserts] in E1.
    rewrite decide_True in E1 by done.
    destruct (group_inserts anchor op (S i) _) as [[[? ?] ?] ?]. simplify_eq. done.
Qed.

(** What a group is, its indices aside; it depends only on the edits from its start on. *)
Definition group_shape (g : ReplacementGroup) : list str * nat * nat * nat :=
  (payload g, start_line g, end_line g, group_op_index g).

Lemma group_inserts_shift anchor op i j edits :
  let '(_, ts, _, rest) := group_inserts anchor op i edits in
  let '(_, ts', _, rest') := group_inserts anchor op j edits in ts = ts' ∧ rest = rest'.
Proof.
  revert i j. induction edits as [|e edits IH]; intros i j; [done|]. simpl.
  destruct e as [anchor' [] text [] op'|line op']; try done.
  case_decide; [|done]. specialize (IH (S i) (S j)).
  destruct (group_inserts anchor op (S i) edits) as [[[? ?] ?] ?].
  destruct (group_inserts anchor op (S j) edits) as [[[? ?] ?] ?]. naive_solver.
Qed.

Lemma group_deletes_shift expected op i j edits :
  length (group_deletes expected op i edits).1 = length (group_deletes expected op j edits).1 ∧
  (group_deletes expected op i edits).2 = (group_deletes expected op j edits).2.
Proof.
  revert expected i j. induction edits as [|e edits IH]; intros expected i j; [done|]. simpl.
  destruct e as [|line op']; [done|]. case_decide; [|done].
  specialize (IH (S expected) (S i) (S j)).
  destruct (group_deletes (S expected) op (S i) edits), (group_deletes (S expected) op (S j) edits).
  simpl in *. naive_solver.
Qed.

Lemma find_replacement_group_drop edits i :
  group_shape <$> find_replacement_group edits i
  = group_shape <$> find_replacement_group (drop i edits) 0.
Proof.
  unfold find_replacement_group. rewrite lookup_drop, Nat.add_0_r, drop_0.
  destruct (edits !! i) as [[anchor [] text [] op|]|]; try done.
  pose proof (group_inserts_shift anchor op i 0 (drop i edits)) as H1.
  destruct (group_inserts anchor op i (drop i edits)) as [[[ins ts] j] rest].
  destruct (group_inserts anchor op 0 (drop i edits)) as [[[ins' ts'] j'] rest'].
  destruct H1 as [<- <-]. pose proof (group_deletes_shift anchor op j j' rest) as [H1 H2].
  destruct (group_deletes anchor op j rest) as [ds e].
  destruct (group_deletes anchor op j' rest) as [ds' e']. simpl in *. subst e'.
  by destruct ds, ds'.
Qed.

(** ** What the boundary-echo layer may drop *)

(** [rows] occur in the file from index [i] on. *)
Definition restates (file : list str) (i : nat) (rows : list str) : Prop :=
  ∀ k row, rows !! k = Some row → file !! (i + k) = Some row.

(** Only rows at the edges of a replacement body that restate the file rows just outside
    its span disappear; something of every body stays. *)
Inductive echo_repaired (file : list str) : list LineEdit → list LineEdit → Prop :=
  | er_nil : echo_repaired file [] []
  | er_keep e es es' :
      find_replacement_group (e :: es) 0 = None →
      echo_repaired file es es' → echo_repaired file (e :: es) (e :: es')
  | er_group start stop op lead body trail es es' :
      group_shape <$> find_replacement_group
        (replacement_inserts start op (lead ++ body ++ trail)
           ++ replacement_deletes start stop op ++ es) 0
        = Some (lead ++ body ++ trail, start, stop, op) →
      body ≠ [] → length lead < start ∨ lead = [] →
      restates file (start - 1 - length lead) lead → restates file stop trail →
      echo_repaired file es es' →
      echo_repaired file
        (replacement_inserts start op (lead ++ body ++ trail)
           ++ replacement_deletes start stop op ++ es)
        (replacement_inserts start op body ++ replacement_deletes start stop op ++ es').

Lemma largest_count_spec max test :
  let n := largest_count max test in n = 0 ∨ (1 ≤ n ≤ max ∧ test n = true).
Proof.
  unfold largest_count. destruct (filter _ _) as [|n ns] eqn:E; [by left|]. right. simpl.
  assert (n ∈ filter (λ count, test count = true) (reverse (range_incl 1 max))) as Hn
    by (rewrite E; by left).
  apply list_elem_of_filter in Hn as [Ht Hn]. rewrite elem_of_reverse, elem_of_range_incl in Hn. done.
Qed.

Lemma restates_rows file i rows (f : nat → str → bool) :
  (∀ k row, f k row = true → file !! (i + k) = Some row) →
  forallb (λ '(k, row), f k row) (imap pair rows) = true → restates file i rows.
Proof.
  intros Hf Hall k row Hk. apply Hf. rewrite forallb_elem_of in Hall. apply (Hall (k, row)).
  apply elem_of_lookup_imap. eauto.
Qed.

Lemma count_duplicate_leading_spec g file :
  let n := count_duplicate_leading g file in
  n ≤ length (payload g) ∧ (n < start_line g ∨ n = 0) ∧
  restates file (start_line g - 1 - n) (take n (payload g)).
Proof.
  unfold count_duplicate_leading.
  destruct (largest_count_spec (Nat.min (length (payload g)) (start_line g - 1))
    (leading_echo g file)) as [Hz|[Hr Ht]].
  - rewrite Hz. split_and!; [lia|lia|]. intros k row Hk. by rewrite take_0 in Hk.
  - split_and!; [lia|lia|]. apply andb_true_iff in Ht as [Ht _].
    eapply restates_rows; [|exact Ht]. simpl. intros k row H. by apply bool_decide_eq_true in H.
Qed.

Lemma count_duplicate_trailing_spec g file :
  let n := count_duplicate_trailing g file in
  n ≤ length (payload g) ∧ restates file (end_line g) (drop (length (payload g) - n) (payload g)).
Proof.
  unfold count_duplicate_trailing.
  destruct (largest_count_spec (Nat.min (length (payload g)) (length file - end_line g))
    (trailing_echo g file)) as [Hz|[Hr Ht]].
  - rewrite Hz. split; [lia|]. intros k row Hk. rewrite Nat.sub_0_r, drop_all in Hk. done.
  - split; [lia|]. apply andb_true_iff in Ht as [Ht _].
    eapply restates_rows; [|exact Ht]. simpl. intros k row H. by apply bool_decide_eq_true in H.
Qed.

Lemma pick_seq edits a n : pick edits (seq a n) = take n (drop a edits).
Proof.
  revert a; induction n as [|n IH]; intros a; simpl; [by rewrite take_0|].
  destruct (edits !! a) as [e|] eqn:E; unfold pick in *; rewrite IH.
  - by rewrite (drop_S _ _ _ E).
  - apply lookup_ge_None in E. by rewrite !drop_ge, !take_nil by lia.
Qed.

(** The part of a group's body that [lead] and [trail] rows are cut from. *)
Definition cut_body (body : list str) (lead trail : nat) : list str :=
  take (length body - lead - trail) (drop lead body).

Lemma cut_body_split body lead trail :
  lead + trail ≤ length body →
  body = take lead body ++ cut_body body lead trail ++ drop (length body - trail) body.
Proof.
  intros H. unfold cut_body. rewrite <-(take_drop lead body) at 1. f_equal.
  rewrite <-(take_drop (length body - lead - trail) (drop lead body)) at 1. f_equal.
  rewrite drop_drop. f_equal. lia.
Qed.

(** Picking the kept inserts of a group is lowering the kept rows. *)
Lemma pick_body edits i g rest lead n :
  drop i edits = replacement_inserts (start_line g) (group_op_index g) (payload g) ++ rest →
  insert_indices g = seq i (length (payload g)) → lead + n ≤ length (payload g) →
  pick edits (take n (drop lead (insert_indices g)))
  = replacement_inserts (start_line g) (group_op_index g) (take n (drop lead (payload g))).
Proof.
  intros Hd -> Hle. rewrite drop_seq, take_seq, Nat.min_l, pick_seq by lia.
  rewrite <-drop_drop, Hd. unfold replacement_inserts.
  rewrite drop_app_le, <-fmap_drop by (rewrite length_fmap; lia).
  rewrite take_app_le by (rewrite length_fmap, length_drop; lia). by rewrite fmap_take.
Qed.

Lemma repair_group_spec edits file i g rest :
  drop i edits = replacement_inserts (start_line g) (group_op_index g) (payload g)
    ++ replacement_deletes (start_line g) (end_line g) (group_op_index g) ++ rest →
  insert_indices g = seq i (length (payload g)) →
  delete_indices g = seq (i + length (payload g)) (S (end_line g) - start_line g) →
  payload g ≠ [] →
  ∃ lead trail, lead + trail < length (payload g) ∧ (lead < start_line g ∨ lead = 0) ∧
    restates file (start_line g - 1 - lead) (take lead (payload g)) ∧
    restates file (end_line g) (drop (length (payload g) - trail) (payload g)) ∧
    ((repair_group edits file g).2 = [] → lead = 0 ∧ trail = 0) ∧
    (repair_group edits file g).1
    = replacement_inserts (start_line g) (group_op_index g) (cut_body (payload g) lead trail)
      ++ replacement_deletes (start_line g) (end_line g) (group_op_index g).
Proof.
  intros Hd Hins Hdel Hne.
  pose proof (count_duplicate_leading_spec g file) as (Hl1 & Hl2 & Hl3).
  pose proof (count_duplicate_trailing_spec g file) as (Ht1 & Ht2).
  assert (pick edits (delete_indices g)
    = replacement_deletes (start_line g) (end_line g) (group_op_index g)) as Hdels.
  { rewrite Hdel, pick_seq, <-drop_drop, Hd. unfold replacement_inserts, replacement_deletes.
    rewrite drop_app_length' by by rewrite length_fmap.
    by rewrite take_app_length' by (by rewrite length_fmap, length_range_incl). }
  assert (length (insert_indices g) = length (payload g)) as Hlen by (by rewrite Hins, length_seq).
  assert (restates file (start_line g - 1 - 0) (take 0 (payload g))) as Hl0
    by (intros k row Hk; by rewrite take_0 in Hk).
  assert (restates file (end_line g) (drop (length (payload g) - 0) (payload g))) as Ht0
    by (intros k row Hk; by rewrite Nat.sub_0_r, drop_all in Hk).
  assert (0 < length (payload g)) as Hpos by (destruct (payload g); simpl; [done|lia]).
  unfold repair_group. rewrite Hdels.
  destruct (find_boundary_echo g file) as [[l t]|] eqn:E1.
  - unfold find_boundary_echo in E1. do 2 (case_bool_decide; [done|]).
    destruct (_ <=? _) eqn:E; [done|]. breflect. injection E1 as <- <-.
    exists (count_duplicate_leading g file), (count_duplicate_trailing g file).
    split_and!; [lia|done..|]. simpl. rewrite Hlen.
    by erewrite pick_body by (done || lia).
  - destruct (find_one_sided_boundary_echo g file) as [[side n]|] eqn:E2.
    + assert ((side = Leading ∧ n = count_duplicate_leading g file ∨
        side = Trailing ∧ n = count_duplicate_trailing g file) ∧ n < length (payload g)) as [Hn Hlt].
      { unfold find_one_sided_boundary_echo in E2. destruct (Bool.eqb _ _); [done|].
        destruct (0 <? count_duplicate_leading g file);
          (destruct (length (payload g) <=? _) eqn:E; [done|]; breflect;
           destruct (length (delete_indices g) <=? 1);
             [case_bool_decide; [done|]; destruct (negb _); [done|]|];
           simplify_eq; (split; [auto|lia])). }
      destruct Hn as [[-> ->]|[-> ->]].
      * exists (count_duplicate_leading g file), 0. split_and!; [lia|done..|]. simpl.
        rewrite <-(take_ge (drop _ (insert_indices g)) (length (payload g) - count_duplicate_leading g file))
          by (rewrite length_drop; lia).
        erewrite pick_body by (done || lia). unfold cut_body. by rewrite Nat.sub_0_r.
      * exists 0, (count_duplicate_trailing g file). split_and!; [lia|lia|done..|]. simpl.
        rewrite Hlen, <-(drop_0 (insert_indices g)).
        erewrite pick_body by (done || lia). unfold cut_body. by rewrite Nat.sub_0_r.
    + exists 0, 0. split_and!; [lia|lia|done..|]. simpl. unfold pick. rewrite omap_app.
      fold (pick edits (delete_indices g)). rewrite Hdels. f_equal.
      fold (pick edits (insert_indices g)).
      rewrite <-(drop_0 (insert_indices g)), <-(take_ge (drop 0 (insert_indices g)) (length (payload g)))
        by (rewrite length_drop; lia).
      erewrite pick_body by (done || lia). unfold cut_body. by rewrite !Nat.sub_0_r.
Qed.

(** What follows a group, and where the loops resume. *)
Lemma group_next edits i g rest :
  drop i edits = replacement_inserts (start_line g) (group_op_index g) (payload g)
    ++ replacement_deletes (start_line g) (end_line g) (group_op_index g) ++ rest →
  delete_indices g = seq (i + length (payload g)) (S (end_line g) - start_line g) →
  start_line g ≤ end_line g →
  i ≤ default i (last (delete_indices g)) ∧
  drop (S (default i (last (delete_indices g)))) edits = rest.
Proof.
  intros Hd Hdel Hse. rewrite Hdel.
  replace (S (end_line g) - start_line g) with (S (end_line g - start_line g)) by lia.
  rewrite seq_S, last_snoc. simpl. split; [lia|].
  replace (S (i + length (payload g) + (end_line g - start_line g)))
    with (i + (length (payload g) + S (end_line g - start_line g))) by lia.
  rewrite <-drop_drop, Hd, app_assoc. apply drop_app_length'.
  unfold replacement_inserts, replacement_deletes.
  rewrite length_app, !length_fmap, length_range_incl. lia.
Qed.

Lemma echo_loop_spec file edits fuel i rebuilt ws :
  length edits - i ≤ fuel →
  ∃ es' ws', echo_loop fuel file edits i rebuilt ws = (rebuilt ++ es', ws ++ ws') ∧
    echo_repaired file (drop i edits) es' ∧ (ws' = [] → es' = drop i edits).
Proof.
  revert i rebuilt ws. induction fuel as [|fuel IH]; intros i rebuilt ws Hf; simpl.
  - exists [], []. rewrite !app_nil_r, drop_ge by lia. repeat constructor.
  - destruct (edits !! i) as [e|] eqn:Hi.
    2:{ apply lookup_ge_None in Hi. exists [], []. rewrite !app_nil_r, drop_ge by lia.
        repeat constructor. }
    pose proof (lookup_lt_Some _ _ _ Hi) as Hlt.
    pose proof (find_replacement_group_drop edits i) as Hshape.
    destruct (find_replacement_group edits i) as [g|] eqn:Hg; simpl in Hshape.
    + apply find_replacement_group_spec in Hg as (rest & Hd & Hins & Hdel & Hse & Hne).
      destruct (repair_group_spec edits file i g rest Hd Hins Hdel Hne)
        as (lead & trail & Hlt' & Hls & Hl & Ht & Hws & Hkept).
      destruct (group_next edits i g rest Hd Hdel Hse) as [Hnext Hrest].
      destruct (repair_group edits file g) as [kept ws'] eqn:Hrg. simpl in Hkept, Hws. subst kept.
      destruct (IH (S (default i (last (delete_indices g))))
        (rebuilt ++ replacement_inserts (start_line g) (group_op_index g) (cut_body (payload g) lead trail)
           ++ replacement_deletes (start_line g) (end_line g) (group_op_index g)) (ws ++ ws'))
        as (es' & ws'' & Hes & Hr & Heq); [lia|].
      rewrite Hrest in Hr, Heq. eexists _, (ws' ++ ws'').
      split; [by rewrite Hes, <-!app_assoc|]. rewrite Hd in Hshape |- *. split.
      * rewrite (cut_body_split (payload g) lead trail) at 1 by lia.
        apply er_group; [|..|done].
        -- rewrite <-(cut_body_split (payload g) lead trail) by lia. by symmetry.
        -- intros Hnil%(f_equal length). unfold cut_body in Hnil.
           rewrite length_take_le in Hnil by (rewrite length_drop; lia). simpl in Hnil. lia.
        -- rewrite length_take_le by lia. destruct Hls as [| ->]; auto.
        -- by rewrite length_take_le by lia.
        -- done.
      * intros [-> ->]%app_nil. destruct Hws as [-> ->]; [done|]. rewrite Heq by done.
        unfold cut_body. by rewrite !Nat.sub_0_r, take_ge by done.
    + destruct (IH (S i) (rebuilt ++ [e]) ws) as (es' & ws' & Hes & Hr & Heq); [lia|].
      exists (e :: es'), ws'. rewrite (drop_S _ _ _ Hi) in *.
      split; [by rewrite Hes, <-app_assoc|]. split; [|intros ->; by rewrite Heq].
      constructor; [|done]. by destruct (find_replacement_group _ 0).
Qed.

(** the boundary-echo repair only removes restated context: its result differs from
    the lowered edits only in that rows at the two ends of a whole replacement body are gone
    when they are, row for row, the file rows immediately above or below the replaced span;
    every delete, every other edit and a non-empty part of every body are kept in order; and
    without a warning nothing changes. *)
Theorem repair_boundary_echoes_sound edits file :
  echo_repaired file edits (repair_boundary_echoes edits file).1 ∧
  ((repair_boundary_echoes edits file).2 = [] → (repair_boundary_echoes edits file).1 = edits).
Proof.
  destruct (echo_loop_spec file edits (length edits) 0 [] []) as (es' & ws' & Hes & Hr & Heq); [lia|].
  unfold repair_boundary_echoes. by rewrite Hes.
Qed.

(** ** What the indentation layer may change *)

(** The same edit with blanks, and nothing else, added in front of an inserted row. *)
Definition reindented (e e' : LineEdit) : Prop :=
  match e with
  | Insert anchor place text mode op =>
      ∃ shift, Forall (λ c, is_blank_char c = true) shift ∧
        e' = Insert anchor place (shift ++ text) mode op
  | Delete _ _ => e' = e
  end.

#[export] Instance reindented_preorder : PreOrder reindented.
Proof.
  split.
  - intros [anchor place text mode op|line op]; [|done]. exists []. split; [constructor|done].
  - intros [anchor place text mode op|line op] e2 e3; simpl.
    + intros (s1 & H1 & ->) (s2 & H2 & ->). exists (s2 ++ s1). split; [by apply Forall_app|].
      by rewrite app_assoc.
    + intros -> H. done.
Qed.

Lemma shift_edit_reindented shift e :
  Forall (λ c, is_blank_char c = true) shift → reindented e (shift_edit shift e).
Proof.
  intros Hs. destruct e as [anchor place text mode op|line op]; simpl; [|done].
  case_bool_decide; [by exists []|by exists shift].
Qed.

Lemma take_while_all {A} (p : A → bool) l : Forall (λ x, p x = true) (take_while p l).
Proof. induction l as [|x l IH]; simpl; [done|]. destruct (p x) eqn:E; [|done]. by constructor. Qed.

Lemma indent_shift_blank file first ps sh n sh' n' :
  (∀ s, sh = Some s → Forall (λ c, is_blank_char c = true) s) →
  indent_shift file first ps sh n = Some (Some sh', n') →
  Forall (λ c, is_blank_char c = true) sh'.
Proof.
  revert first sh n. induction ps as [|p ps IH]; intros first sh n Hsh; simpl.
  - intros [= -> <-]. by apply Hsh.
  - destruct (_ || _); [by apply IH|].
    destruct (strip_suffix _ _) as [cand|] eqn:Hc; [|done]. apply strip_suffix_Some in Hc.
    pose proof (take_while_all is_blank_char (line_or_empty file first)) as Hall.
    change (take_while is_blank_char (line_or_empty file first))
      with (leading_indent (line_or_empty file first)) in Hall.
    rewrite Hc, Forall_app in Hall. destruct Hall as [Hcand _].
    destruct sh as [ex|]; [case_decide; [|done]; by apply IH|].
    apply IH. by intros s [= <-].
Qed.

Lemma group_shift_blank file g shift :
  group_shift file g = Some shift → Forall (λ c, is_blank_char c = true) shift.
Proof.
  unfold group_shift. case_bool_decide; [done|]. destruct (_ || _); [done|].
  destruct (indent_shift _ _ _ _ _) as [[[sh|] n]|] eqn:E; [|done..].
  destruct (_ || _); [done|]. intros [= <-]. by eapply indent_shift_blank in E.
Qed.

Lemma foldl_shift_reindented shift indices edits :
  Forall (λ c, is_blank_char c = true) shift →
  Forall2 reindented edits (foldl (λ es i, alter (shift_edit shift) i es) edits indices).
Proof.
  intros Hs. revert edits. induction indices as [|i indices IH]; intros edits; simpl; [done|].
  etrans; [|apply IH]. apply Forall2_same_length_lookup_2; [by rewrite length_alter|].
  intros j x y Hx Hy. destruct (decide (i = j)) as [->|].
  - rewrite list_lookup_alter_eq, Hx in Hy. injection Hy as <-. by apply shift_edit_reindented.
  - rewrite list_lookup_alter_ne, Hx in Hy by done. by injection Hy as <-.
Qed.

Lemma indent_loop_spec fuel file edits start ws :
  Forall2 reindented edits (indent_loop fuel file edits start ws).1 ∧
  ∃ ws', (indent_loop fuel file edits start ws).2 = ws ++ ws' ∧
    (ws' = [] → (indent_loop fuel file edits start ws).1 = edits).
Proof.
  assert (∀ es : list LineEdit, Forall2 reindented es es ∧
    ∃ ws', ws = ws ++ ws' ∧ (ws' = [] → es = es)) as Hsame.
  { intros es. split; [done|]. exists []. by rewrite app_nil_r. }
  revert edits start ws Hsame.
  induction fuel as [|fuel IH]; intros edits start ws Hsame; simpl; [apply Hsame|].
  destruct (start <? length edits); [|apply Hsame].
  destruct (find_replacement_group edits start) as [g|]; [|by apply IH].
  destruct (group_shift file g) as [shift|] eqn:E; [|by apply IH].
  edestruct IH as [Hr (ws' & -> & _)].
  { intros es. split; [done|]. exists []. by rewrite app_nil_r. }
  split; [etrans; [|apply Hr]; by eapply foldl_shift_reindented, group_shift_blank|].
  exists (indent_warning g :: ws'). rewrite <-app_assoc. done.
Qed.

(** the indentation repair only indents: it keeps the number and order of edits, all
    deletes, anchors and modes, and the text of every inserted row up to added leading
    spaces and tabs; without a warning nothing changes. *)
Theorem repair_indentation_sound edits file :
  Forall2 reindented edits (repair_replacement_indentation edits file).1 ∧
  ((repair_replacement_indentation edits file).2 = [] →
   (repair_replacement_indentation edits file).1 = edits).
Proof.
  destruct (indent_loop_spec (length edits) file edits 0 []) as [Hr (ws' & Hw & Heq)].
  split; [done|]. unfold repair_replacement_indentation. rewrite Hw. done.
Qed.

End Repair.
