(* ===== verification/Apply.v ===== *)
(** * In-memory apply: [hashline/apply/mod.rs]

    Lowering of operations to line edits, the per-section engine, the composition of
    repeated sections of one file, the plan of a whole patch, and the gate that commits
    registers.  A panic of the source ([unreachable!], a slice out of range) is the
    distinguished failure [Panicked]. *)

From S2P Require Import Prelude RustStr Scan SnapshotStore Rejection Syntax Address LineEdits.
From S2P Require Import Registers Region Repair.
Import Scan Rejection Syntax Address LineEdits Registers Region Repair.

Module Apply.

(** ** Outcomes *)

Inductive Failure := Refused (r : HashlineRejection) | Panicked.

Definition lift {A} (r : result HashlineRejection A) : result Failure A := map_err Refused r.
Definition no_panic {A} (o : option A) : result Failure A := ok_or Panicked o.

Inductive FileClassification :=
  | Applied | AppliedWithValidationFailure | AppliedTagUnavailable
  | FailedBackup | FailedWrite | FailedDurability | FailedSourceUnlink | FailedBaselineDrift
  | NotAttempted.
#[export] Instance FileClassification_eq_dec : EqDecision FileClassification.
Proof. solve_decision. Defined.

Inductive MutationState := Unmutated | MutationApplied | UnknownPossiblyMutated | PartialMv.
#[export] Instance MutationState_eq_dec : EqDecision MutationState.
Proof. solve_decision. Defined.

Definition is_applied_star (c : FileClassification) : bool :=
  match c with
  | Applied | AppliedWithValidationFailure | AppliedTagUnavailable => true
  | _ => false
  end.

Definition classification_as_str (c : FileClassification) : str :=
  lit match c with
  | Applied => "applied"
  | AppliedWithValidationFailure => "applied_with_validation_failure"
  | AppliedTagUnavailable => "applied_tag_unavailable"
  | FailedBackup => "failed_backup"
  | FailedWrite => "failed_write"
  | FailedDurability => "failed_durability"
  | FailedSourceUnlink => "failed_source_unlink"
  | FailedBaselineDrift => "failed_baseline_drift"
  | NotAttempted => "not_attempted"
  end.

Definition is_stopping_failure (c : FileClassification) : bool :=
  match c with
  | FailedBackup | FailedWrite | FailedDurability | FailedSourceUnlink | FailedBaselineDrift => true
  | _ => false
  end.

Definition mutation_state (c : FileClassification) : MutationState :=
  match c with
  | Applied | AppliedWithValidationFailure | AppliedTagUnavailable => MutationApplied
  | FailedBackup | FailedBaselineDrift | NotAttempted => Unmutated
  | FailedWrite | FailedDurability => UnknownPossiblyMutated
  | FailedSourceUnlink => PartialMv
  end.

Record PlannedFile := MkPlanned {
  pf_canonical_path : PathBuf;
  pf_requested_path : str;
  pf_baseline_bytes : bytes;
  final_bytes : bytes;
  pf_affected : AffectedRegion;
  remove_file : bool;
  pf_warnings : list str;
  pf_repair_layers : list str }.

Record SectionPlanInput := MkInput {
  si_canonical_path : PathBuf;
  si_requested_path : str;
  si_baseline : Baseline;
  si_snapshot : Snapshot;
  si_operations : list Operation;
  si_resolved : list ResolvedOperation }.

(** ** Lowering *)

(** Anchor and place of a gap insertion, through the source's three rebindings. *)
Definition gap_place (g : ResolvedGap) : nat * InsertPlace :=
  let '(anchor, place) :=
    match gap_before g, gap_after g with
    | None, Some 1 | None, None => (1, Bof)
    | Some before, None => (before, After)
    | Some before, Some _ => (before, After)
    | None, Some after => (after, Before)
    end in
  let place :=
    match gap_before g, gap_after g with
    | Some _, None => After
    | None, None => Bof
    | None, Some 1 => Bof
    | _, _ => place
    end in
  let place :=
    match gap_before g, gap_after g, place with
    | Some _, None, After => Eof
    | _, _, _ => place
    end in
  (anchor, place).

Definition lower_put_body (a : ResolvedAddress) (body : list str) (op : nat) : list LineEdit :=
  match a with
  | Span sp =>
      replacement_inserts (span_start sp) op body
      ++ replacement_deletes (span_start sp) (span_end sp) op
  | Gap g =>
      let '(anchor, place) := gap_place g in
      (λ text, Insert anchor place text Plain op) <$> body
  | WholeFile => replacement_inserts 1 op body
  | BlockAnchor _ | BlockGapAnchor _ _ => []
  end.

Definition is_span (a : ResolvedAddress) : bool := match a with Span _ => true | _ => false end.

(** The rows a [PUT] pastes. *)
Definition put_payload (p : PutOperation) (span : bool) (regs : StagedRegisters) :
    result HashlineRejection (list str) :=
  match put_source p with
  | FromText lines => Ok lines
  | FromRegister r => read_for_put regs r span
  end.

Definition lower_put (p : PutOperation) (a : ResolvedAddress) (regs : StagedRegisters) (op : nat) :
    result HashlineRejection (list LineEdit) :=
  body ← put_payload p (is_span a) regs;
  Ok (lower_put_body a body op).

(** The rows a [CUT] captures: [lines.get(line - 1).cloned().unwrap_or_default()]. *)
Definition captured_rows (lines : list str) (sp : LineSpan) : list str :=
  (λ line, default [] (lines !! (line - 1))) <$> span_lines sp.

Definition lower_cut (c : CutOperation) (a : ResolvedAddress) (lines : list str)
    (regs : StagedRegisters) (op : nat) :
    result HashlineRejection (list LineEdit * StagedRegisters) :=
  let cut sp :=
    regs ← capture regs (default Anonymous (cut_register c)) (captured_rows lines sp);
    Ok (replacement_deletes (span_start sp) (span_end sp) op, regs) in
  match a with
  | Span sp => cut sp
  | WholeFile =>
      match lines with
      | [] => Ok ([], regs)
      | _ => cut (MkSpan 1 (length lines))
      end
  | Gap _ | BlockAnchor _ | BlockGapAnchor _ _ =>
      Err (eligibility BoundaryIneligible (msg "CUT requires a line or range address"))
  end.

(** [for (operation, resolved) in operations.zip(resolved)] of the section engine. *)
Fixpoint lower_operations (ops : list Operation) (resolved : list ResolvedOperation)
    (lines : list str) (regs : StagedRegisters) : result Failure (list LineEdit * StagedRegisters) :=
  match ops, resolved with
  | op :: ops, r :: resolved =>
      '(edits, regs) ←
        match op with
        | OpPut p =>
            edits ← lift (lower_put p (ro_address r) regs (operation_index r)); Ok (edits, regs)
        | OpCut c => lift (lower_cut c (ro_address r) lines regs (operation_index r))
        | OpRem _ | OpMv _ => Err Panicked
        end;
      '(rest, regs) ← lower_operations ops resolved lines regs;
      Ok (edits ++ rest, regs)
  | _, _ => Ok ([], regs)
  end.

(** ** The lines of a baseline *)

Definition line_content_utf8 (r : RawLineRecord) : result HashlineRejection str :=
  ok_or (rejection_new UntaggablePath StPath (msg "baseline line is not valid UTF-8"))
    (from_utf8 (content r)).

Definition baseline_line (b : Baseline) (line : nat) : result HashlineRejection str :=
  r ← ok_or (parse_error (msg "baseline is missing raw record for line " ++ msg_nat line))
        (baseline_record b line);
  line_content_utf8 r.

Definition baseline_lines (b : Baseline) : result HashlineRejection (list str) :=
  mapM (baseline_line b) (range_incl 1 (total_lines (bl_snapshot b))).

(** ** One section *)

Definition is_replacement (e : LineEdit) : bool :=
  match e with Insert _ _ _ Replacement _ => true | _ => false end.

(** Whether coalescing counts as applied. *)
Definition coalesced_applied (coalesced edits : list LineEdit) : bool :=
  negb (bool_decide (coalesced = edits))
  || (bool_decide (is_Some (find_replacement_group coalesced 0)) && existsb is_replacement edits).

Definition repair_layers_of (coalesced edits : list LineEdit) (layers : list str) : list str :=
  if coalesced_applied coalesced edits
     && bool_decide (is_Some (find_replacement_group coalesced 0))
     && negb (bool_decide (lit "replacement-coalescing" ∈ layers))
     && (1 <? length (filter (λ e, is_delete e = true) coalesced))
  then lit "replacement-coalescing" :: layers else layers.

Definition apply_section_ops (requested_path : str) (canonical_path : PathBuf) (b : Baseline)
    (ops : list Operation) (resolved : list ResolvedOperation) (regs : StagedRegisters) :
    result Failure (PlannedFile * StagedRegisters) :=
  if bool_decide (length ops ≠ length resolved)
  then Err (Refused (parse_error
         (msg "resolved operation count does not match the parsed section")))
  else match ops with
  | OpRem _ :: rest =>
      match rest with
      | [] => Ok (MkPlanned canonical_path requested_path (bl_bytes b) [] region_empty true [] [], regs)
      | _ => Err (Refused (parse_error (msg "REM cannot be combined with other operations")))
      end
  | _ =>
      if existsb is_mv ops
      then Err (Refused (parse_error (msg "MV is not handled by the line-apply engine")))
      else
        lines ← lift (baseline_lines b);
        let '(default_term, trailing) := terminator_policy (records (bl_snapshot b)) in
        '(edits, regs) ← lower_operations ops resolved lines regs;
        let coalesced := coalesce_replacement_edits edits in
        let repaired := apply_repair_layers coalesced lines in
        let final_lines := materialize_edits lines (ro_edits repaired) in
        Ok (MkPlanned canonical_path requested_path (bl_bytes b)
              (join_lines final_lines default_term trailing)
              (affected_from_line_diff lines final_lines) false (ro_warnings repaired)
              (repair_layers_of coalesced edits (layers_applied repaired)), regs)
  end.

(** [apply_simple_ops] and the verification before planning share this check. *)
Definition require_exact (block_message : string) (s : Snapshot) (b : Baseline) (a : ResolvedAddress) :
    result HashlineRejection unit :=
  match verify_exact s b a with
  | Exact => Ok tt
  | RecoveryRequired _ => Err (rejection_new StaleTag StRecovery
      (msg "addressed content no longer matches the Phase-1 baseline"))
  | Rejected r => Err r
  | BlockNeedsResolution _ => Err (rejection_new BoundaryIneligible StEligibility (msg block_message))
  end.

Fixpoint require_all_exact (block_message : string) (s : Snapshot) (b : Baseline)
    (addresses : list ResolvedAddress) : result HashlineRejection unit :=
  match addresses with
  | [] => Ok tt
  | a :: addresses =>
      _ ← require_exact block_message s b a; require_all_exact block_message s b addresses
  end.

Definition verify_section_against_pre_request_baseline (i : SectionPlanInput) :
    result HashlineRejection unit :=
  require_all_exact "block address was not expanded before apply planning"
    (si_snapshot i) (si_baseline i) (ro_address <$> si_resolved i).

Definition apply_simple_ops (baseline_bytes : bytes) (s : Snapshot) (ops : list Operation)
    (addresses : list ResolvedAddress) (regs : StagedRegisters) :
    result Failure (PlannedFile * StagedRegisters) :=
  b ← no_panic (baseline_from_bytes baseline_bytes);
  let resolved := imap MkResolvedOp addresses in
  _ ← lift (require_all_exact "block address was not expanded before apply" s b addresses);
  apply_section_ops (lit "file") [lit "file"] b ops resolved regs.

(** ** Composition of repeated sections *)

Record OriginalGap := MkOriginalGap { og_before : option nat; og_after : option nat }.
#[export] Instance OriginalGap_eq_dec : EqDecision OriginalGap.
Proof. solve_decision. Defined.

Inductive LineOrigin :=
  | Original (line : nat)
  | OriginReplacement (source : LineSpan) (operation : str)
  | Inserted (gap : OriginalGap).

Record CompositionState := MkComposition {
  cs_canonical_path : PathBuf;
  cs_requested_path : str;
  cs_original : Baseline;
  cs_current : Baseline;
  origins : list LineOrigin;
  deleted_by : gmap nat str;
  removed_by : option str;
  cs_warnings : list str;
  cs_repair_layers : list str;
  cs_remove_file : bool }.

(** [CompositionState::new]. *)
Definition composition_new (i : SectionPlanInput) : CompositionState :=
  MkComposition (si_canonical_path i) (si_requested_path i) (si_baseline i) (si_baseline i)
    (Original <$> range_incl 1 (total_lines (bl_snapshot (si_baseline i)))) ∅ None [] [] false.

Definition operation_label (op : Operation) : str :=
  match op with
  | OpPut p => lit "PUT at patch line " ++ show (put_line p)
  | OpCut c => lit "CUT at patch line " ++ show (cut_line c)
  | OpRem r => lit "REM at patch line " ++ show (rem_line r)
  | OpMv m => lit "MV at patch line " ++ show (mv_line m)
  end.

Definition composition_conflict (current previous : str) (reason : Message) : HashlineRejection :=
  eligibility BoundaryIneligible
    (msg "same-path composition conflict: " ++ msg_str current ++ msg " conflicts with "
     ++ msg_str previous ++ msg ": " ++ reason).

Definition origin_covers_line (o : LineOrigin) (line : nat) : bool :=
  match o with
  | Original l => bool_decide (l = line)
  | OriginReplacement source _ => (span_start source <=? line) && (line <=? span_end source)
  | Inserted _ => false
  end.

Definition spans_overlap (l r : LineSpan) : bool :=
  (span_start l <=? span_end r) && (span_start r <=? span_end l).
Definition span_contains (outer inner : LineSpan) : bool :=
  (span_start outer <=? span_start inner) && (span_end inner <=? span_end outer).

(** The current rows (1-based) that a pre-request span selects. *)
Fixpoint select_rows (current : str) (sp : LineSpan) (index : nat) (os : list LineOrigin) :
    result HashlineRejection (list nat) :=
  match os with
  | [] => Ok []
  | o :: os =>
      match o with
      | Original line =>
          rest ← select_rows current sp (S index) os;
          Ok (if (span_start sp <=? line) && (line <=? span_end sp) then index :: rest else rest)
      | OriginReplacement source operation =>
          if spans_overlap source sp then
            if span_contains sp source
            then rest ← select_rows current sp (S index) os; Ok (index :: rest)
            else Err (composition_conflict current operation
                   (msg "the later pre-request span only partially overlaps an earlier replacement"))
          else select_rows current sp (S index) os
      | Inserted _ => select_rows current sp (S index) os
      end
  end.

(** The first of [lines] that an earlier operation deleted. *)
Definition first_deleted (deleted : gmap nat str) (lines : list nat) : option (nat * str) :=
  head (omap (λ line, (λ by_op, (line, by_op)) <$> deleted !! line) lines).

Definition remap_span (st : CompositionState) (sp : LineSpan) (current : str) :
    result HashlineRejection LineSpan :=
  match first_deleted (deleted_by st) (span_lines sp) with
  | Some (line, previous) => Err (composition_conflict current previous
      (msg "pre-request line " ++ msg_nat line ++ msg " was deleted earlier"))
  | None =>
      selected ← select_rows current sp 1 (origins st);
      match selected with
      | [] => Err (eligibility BoundaryIneligible
                (msg_str current ++ msg " cannot resolve its pre-request span after earlier same-path operations"))
      | start :: _ => Ok (MkSpan start (default start (last selected)))
      end
  end.

Definition first_index_for_original (st : CompositionState) (line : option nat) : option nat :=
  line ← line; S <$> position (λ o, origin_covers_line o line) (origins st).
Definition last_index_for_original (st : CompositionState) (line : option nat) : option nat :=
  line ← line; S <$> rposition (λ o, origin_covers_line o line) (origins st).

(** The last current row inserted into the same pre-request gap. *)
Definition last_inserted (st : CompositionState) (g : OriginalGap) : option nat :=
  S <$> rposition (λ o, match o with Inserted g' => bool_decide (g' = g) | _ => false end) (origins st).

(** [Option::or]. *)
Definition option_or {A} (a b : option A) : option A := match a with Some _ => a | None => b end.

Definition remap_gap (st : CompositionState) (g : OriginalGap) (current : str) :
    result HashlineRejection ResolvedGap :=
  match first_deleted (deleted_by st) (omap id [og_before g; og_after g]) with
  | Some (line, previous) => Err (composition_conflict current previous
      (msg "required pre-request gap anchor line " ++ msg_nat line ++ msg " was deleted earlier"))
  | None =>
      Ok (MkGap (option_or (last_inserted st g) (last_index_for_original st (og_before g)))
            (first_index_for_original st (og_after g)))
  end.

Definition remap_address (st : CompositionState) (a : ResolvedAddress) (current : str) :
    result HashlineRejection ResolvedAddress :=
  match a with
  | Span sp => Span <$> remap_span st sp current
  | Gap g => Gap <$> remap_gap st (MkOriginalGap (gap_before g) (gap_after g)) current
  | _ => Ok a
  end.

(** [Vec::splice] and [Vec::drain]: [None] when the range is out of bounds. *)
Definition splice {A} (l : list A) (a b : nat) (new : list A) : option (list A) :=
  if decide (a ≤ b ∧ b ≤ length l) then Some (take a l ++ new ++ drop b l) else None.

Definition set_origins (st : CompositionState) (os : list LineOrigin) (deleted : gmap nat str)
    (removed : option str) : CompositionState :=
  MkComposition (cs_canonical_path st) (cs_requested_path st) (cs_original st) (cs_current st)
    os deleted removed (cs_warnings st) (cs_repair_layers st) (cs_remove_file st).

(** [deleted_by.insert(line, operation_name)] for every line. *)
Definition delete_lines (deleted : gmap nat str) (lines : list nat) (by_op : str) : gmap nat str :=
  foldl (λ m line, <[line := by_op]> m) deleted lines.

Definition update_origins (st : CompositionState) (op : Operation) (original current : ResolvedAddress)
    (name : str) (before_lines after_lines : nat) : result Failure CompositionState :=
  match op with
  | OpPut _ =>
      match original, current with
      | Span original, Span current =>
          let replaced := span_end current - span_start current + 1 in
          if after_lines + replaced <? before_lines
          then Err (Refused (parse_error
                 (msg "same-path replacement produced inconsistent line accounting")))
          else
            let inserted := after_lines + replaced - before_lines in
            os ← no_panic (splice (origins st) (span_start current - 1) (span_end current)
                   (replicate inserted (OriginReplacement original name)));
            Ok (set_origins st os (deleted_by st) (removed_by st))
      | Gap original, Gap current =>
          if after_lines <? before_lines
          then Err (Refused (parse_error
                 (msg "same-path gap insertion produced inconsistent line accounting")))
          else
            let inserted := after_lines - before_lines in
            let index := default 0 (gap_before current) in
            os ← no_panic (splice (origins st) index index
                   (replicate inserted
                      (Inserted (MkOriginalGap (gap_before original) (gap_after original)))));
            Ok (set_origins st os (deleted_by st) (removed_by st))
      | _, _ => Ok st
      end
  | OpCut _ =>
      match original, current with
      | Span original, Span current =>
          os ← no_panic (splice (origins st) (span_start current - 1) (span_end current) []);
          Ok (set_origins st os (delete_lines (deleted_by st) (span_lines original) name)
                (removed_by st))
      | _, _ => Ok st
      end
  | OpRem _ =>
      Ok (set_origins st []
            (delete_lines (deleted_by st) (range_incl 1 (total_lines (bl_snapshot (cs_original st)))) name)
            (Some name))
  | OpMv _ => Ok st
  end.

(** [if !self.repair_layers.contains(&layer) { push }]. *)
Definition add_layers (layers new : list str) : list str :=
  foldl (λ ls l, if decide (l ∈ ls) then ls else ls ++ [l]) layers new.

Definition apply_operation (st : CompositionState) (op : Operation) (r : ResolvedOperation)
    (regs : StagedRegisters) : result Failure (CompositionState * StagedRegisters) :=
  let name := operation_label op in
  match removed_by st with
  | Some previous => Err (Refused (composition_conflict name previous
      (msg "the earlier operation removed the whole pre-request file")))
  | None =>
      current ← lift (remap_address st (ro_address r) name);
      let before_lines := total_lines (bl_snapshot (cs_current st)) in
      '(planned, regs) ←
        apply_section_ops (cs_requested_path st) (cs_canonical_path st) (cs_current st) [op]
          [MkResolvedOp (operation_index r) current] regs;
      after ← no_panic (baseline_from_bytes (final_bytes planned));
      st ← update_origins st op (ro_address r) current name before_lines
             (total_lines (bl_snapshot after));
      Ok (MkComposition (cs_canonical_path st) (cs_requested_path st) (cs_original st) after
            (origins st) (deleted_by st) (removed_by st) (cs_warnings st ++ pf_warnings planned)
            (add_layers (cs_repair_layers st) (pf_repair_layers planned)) (remove_file planned),
          regs)
  end.

Fixpoint apply_operations (st : CompositionState) (ops : list Operation)
    (resolved : list ResolvedOperation) (regs : StagedRegisters) :
    result Failure (CompositionState * StagedRegisters) :=
  match ops, resolved with
  | op :: ops, r :: resolved =>
      '(st, regs) ← apply_operation st op r regs; apply_operations st ops resolved regs
  | _, _ => Ok (st, regs)
  end.

(** [CompositionState::apply_section] and [finish]. *)
Definition apply_section (st : CompositionState) (i : SectionPlanInput) (regs : StagedRegisters) :
    result Failure (CompositionState * StagedRegisters) :=
  if bool_decide (length (si_operations i) ≠ length (si_resolved i))
  then Err (Refused (parse_error
         (msg "resolved operation count does not match the parsed section")))
  else apply_operations st (si_operations i) (si_resolved i) regs.

Definition composition_finish (st : CompositionState) : result Failure PlannedFile :=
  affected ←
    if cs_remove_file st then Ok region_empty
    else
      original ← lift (baseline_lines (cs_original st));
      final ← lift (baseline_lines (cs_current st));
      Ok (affected_from_line_diff original final);
  Ok (MkPlanned (cs_canonical_path st) (cs_requested_path st) (bl_bytes (cs_original st))
        (bl_bytes (cs_current st)) affected (cs_remove_file st) (cs_warnings st)
        (cs_repair_layers st)).

(** ** The plan of a patch *)

Inductive ApplyPlanSlot := Complete (f : PlannedFile) | Composing (st : CompositionState).

Record ApplyPlan := MkPlan { files : list PlannedFile; staged_registers : StagedRegisters }.

(** The verification loop: section counts per path and the one baseline of each path. *)
Fixpoint verify_sections (sections : list SectionPlanInput) (counts : gmap PathBuf nat)
    (baselines : gmap PathBuf bytes) : result HashlineRejection (gmap PathBuf nat) :=
  match sections with
  | [] => Ok counts
  | i :: sections =>
      let path := si_canonical_path i in
      let counts := <[path := S (default 0 (counts !! path))]> counts in
      baselines ←
        match baselines !! path with
        | Some existing =>
            if decide (existing = bl_bytes (si_baseline i)) then Ok baselines
            else Err (rejection_new StaleTag StBaseline
                   (msg "sections for one canonical path did not retain one Phase-1 baseline"))
        | None => Ok (<[path := bl_bytes (si_baseline i)]> baselines)
        end;
      _ ← verify_section_against_pre_request_baseline i;
      verify_sections sections counts baselines
  end.

(** The planning loop; a path with several sections owns one composing slot. *)
Fixpoint plan_sections (counts : gmap PathBuf nat) (sections : list SectionPlanInput)
    (slots : list ApplyPlanSlot) (slot_by_path : gmap PathBuf nat) (regs : StagedRegisters) :
    result Failure (list ApplyPlanSlot * StagedRegisters) :=
  match sections with
  | [] => Ok (slots, regs)
  | i :: sections =>
      let path := si_canonical_path i in
      if decide (default 0 (counts !! path) = 1) then
        '(planned, regs) ←
          apply_section_ops (si_requested_path i) path (si_baseline i) (si_operations i)
            (si_resolved i) regs;
        plan_sections counts sections (slots ++ [Complete planned])
          (<[path := length slots]> slot_by_path) regs
      else
        let '(slot, slots, slot_by_path) :=
          match slot_by_path !! path with
          | Some slot => (slot, slots, slot_by_path)
          | None => (length slots, slots ++ [Composing (composition_new i)],
                     <[path := length slots]> slot_by_path)
          end in
        match slots !! slot with
        | Some (Composing st) =>
            '(st, regs) ← apply_section st i regs;
            plan_sections counts sections (<[slot := Composing st]> slots) slot_by_path regs
        | _ => Err Panicked
        end
  end.

Definition finish_slot (slot : ApplyPlanSlot) : result Failure PlannedFile :=
  match slot with Complete f => Ok f | Composing st => composition_finish st end.

Definition plan_apply (sections : list SectionPlanInput) (session : RegisterStore) :
    result Failure ApplyPlan :=
  counts ← lift (verify_sections sections ∅ ∅);
  '(slots, regs) ← plan_sections counts sections [] ∅ (stage session);
  planned ← mapM finish_slot slots;
  Ok (MkPlan planned regs).

(** ** Phase 2 *)

Definition commit_registers_if_complete (session : RegisterStore) (staged : StagedRegisters)
    (classifications : list FileClassification) : bool * RegisterStore :=
  if negb (bool_decide (classifications = [])) && forallb is_applied_star classifications
  then (true, commit session staged)
  else (false, session).

Record FileResult := MkFileResult {
  fr_canonical_path : PathBuf;
  fr_requested_path : str;
  classification : FileClassification;
  fr_mutation_state : MutationState;
  fr_final_bytes : option bytes;
  fr_affected : AffectedRegion;
  fr_warnings : list str;
  fr_remove_file : bool }.

Record ApplyResultEnvelope := MkEnvelope {
  success : bool; complete : bool; ar_files : list FileResult; registers_committed : bool }.

(** One file of the loop; [stopped] is whether an earlier file stopped the run. *)
Definition phase2_file (fail_at : option (nat * FileClassification)) (stopped : bool)
    (index : nat) (f : PlannedFile) : FileResult * bool :=
  if stopped then
    (MkFileResult (pf_canonical_path f) (pf_requested_path f) NotAttempted Unmutated None
       region_empty [] (remove_file f), true)
  else
    let applied :=
      (MkFileResult (pf_canonical_path f) (pf_requested_path f) Applied (mutation_state Applied)
         (Some (final_bytes f)) (pf_affected f) (pf_warnings f) (remove_file f), false) in
    match fail_at with
    | Some (fail_index, c) =>
        if decide (index = fail_index)
        then (MkFileResult (pf_canonical_path f) (pf_requested_path f) c (mutation_state c) None
                region_empty (pf_warnings f) (remove_file f), true)
        else applied
    | None => applied
    end.

Fixpoint phase2_files (fail_at : option (nat * FileClassification)) (stopped : bool) (index : nat)
    (fs : list PlannedFile) : list FileResult :=
  match fs with
  | [] => []
  | f :: fs =>
      let '(r, stopped) := phase2_file fail_at stopped index f in
      r :: phase2_files fail_at stopped (S index) fs
  end.

Definition simulate_phase2 (plan : ApplyPlan) (session : RegisterStore)
    (fail_at : option (nat * FileClassification)) : ApplyResultEnvelope * RegisterStore :=
  let results := phase2_files fail_at false 0 (files plan) in
  let classifications := classification <$> results in
  let '(committed, session) :=
    commit_registers_if_complete session (staged_registers plan) classifications in
  let applied := length (filter (λ c, is_applied_star c = true) classifications) in
  (MkEnvelope (0 <? applied)
     (bool_decide (applied = length classifications) && negb (bool_decide (classifications = [])))
     results committed, session).

End Apply.
