(* ===== verification/Transaction.v ===== *)
(** * Cross-file transactions: [hashline/transaction/mod.rs]

    Phase 1 merges the sections of a patch into ordered steps without touching anything; preview
    renders them; phase 2 executes them in patch order: journal, baseline recheck, durable write,
    final tag, and for a move the destination before the source.  The disk is the world of
    [FileSys], writes go through [SourceWrite], tags through [ReadCapture]; the undo journal is
    the class [Journal]; a failing [expect] is [None]. *)

From S2P Require Import Prelude RustStr XxHash Scan SnapshotStore Rejection Syntax Address LineEdits.
From S2P Require Import Registers Region ReadCapture Repair Apply FileSys SourceWrite.
Import XxHash Scan SnapshotStore Rejection Syntax Address Registers Region ReadCapture Apply.
Import FileSys SourceWrite.

Module Transaction.

(** ** Inputs and plans *)

Record MvDestinationInput := MkMvDestination {
  md_canonical_path : PathBuf; md_requested_path : str; md_baseline_bytes : option bytes }.

Record TransactionSectionInput := MkTxSection {
  ts_canonical_path : PathBuf; ts_requested_path : str; ts_baseline : Baseline;
  ts_snapshot : Snapshot; ts_operations : list Operation; ts_resolved : list ResolvedOperation;
  ts_mv_destination : option MvDestinationInput }.

Record PlannedMv := MkPlannedMv {
  source_canonical : PathBuf; source_requested : str; source_baseline_bytes : bytes;
  dest_canonical : PathBuf; dest_requested : str; dest_existed : bool;
  dest_baseline_bytes : option bytes; mv_final_bytes : bytes; mv_affected : AffectedRegion;
  mv_warnings : list str; mv_repair_layers : list str }.

Inductive PlannedStep := Mutate (f : PlannedFile) | Mv (mv : PlannedMv).

Record TransactionPlan := MkTxPlan { tp_steps : list PlannedStep; tp_registers : StagedRegisters }.

Inductive FileRole := Primary | MvDestination | MvSource.
#[export] Instance FileRole_eq_dec : EqDecision FileRole.
Proof. solve_decision. Defined.

Definition role_as_str (r : FileRole) : str :=
  lit match r with
  | Primary => "primary" | MvDestination => "mv_destination" | MvSource => "mv_source"
  end.

Record FileOutcome := MkFileOutcome {
  fo_canonical_path : PathBuf; fo_requested_path : str; fo_role : FileRole;
  fo_classification : FileClassification; fo_mutation_state : MutationState;
  fo_final_bytes : option bytes; fo_final_tag : option str; fo_affected : AffectedRegion;
  fo_warnings : list str; fo_format_skipped_reason : option str; fo_backup_id : option str;
  fo_remove_file : bool; fo_tag_notice : option str }.

Record TransactionEnvelope := MkTxEnvelope {
  te_success : bool; te_complete : bool; te_files : list FileOutcome; te_op_id : option str;
  te_stop_reason : option str; te_registers_committed : bool; te_preview : bool;
  te_summary_text : str }.

Definition to_apply_envelope (e : TransactionEnvelope) : ApplyResultEnvelope :=
  MkEnvelope (te_success e) (te_complete e)
    ((λ f, MkFileResult (fo_canonical_path f) (fo_requested_path f) (fo_classification f)
             (fo_mutation_state f) (fo_final_bytes f) (fo_affected f) (fo_warnings f)
             (fo_remove_file f))
       <$> filter (λ f, fo_role f ≠ MvSource ∨ fo_remove_file f = true) (te_files e))
    (te_registers_committed e).

(** ** Phase 1 *)

Definition MV_ONCE : Message := msg "MV must occur once and after all line operations".

Definition split_mv (ops : list Operation) (resolved : list ResolvedOperation) :
    result HashlineRejection (list Operation * list ResolvedOperation * option MvOperation) :=
  if negb (length ops =? length resolved)
  then Err (parse_error (msg "resolved operation count does not match the parsed section"))
  else
    match last ops with
    | Some (OpMv mv) =>
        let line_len := length ops - 1 in
        if existsb is_mv (take line_len ops) then Err (parse_error MV_ONCE)
        else Ok (take line_len ops, take line_len resolved, Some mv)
    | _ =>
        if existsb is_mv ops then Err (parse_error MV_ONCE) else Ok (ops, resolved, None)
    end.

Definition assert_rollback_available (backups_enabled : bool) (step : PlannedStep) :
    result HashlineRejection () :=
  if backups_enabled then Ok tt
  else
    match step with
    | Mutate _ => Err (backup_unavailable
        (msg "backups are disabled; refusing destructive hashline mutation without a restore record"))
    | Mv mv =>
        if dest_existed mv
        then Err (backup_unavailable
          (msg "backups are disabled; refusing MV onto an existing destination without a restore record"))
        else Ok tt
    end.

Record MergedMove := MkMove { mm_destination : MvDestinationInput; mm_operation_label : str }.

(** What the loop over sections accumulates. *)
Record Gathered := MkGathered {
  g_line_sections : list SectionPlanInput; g_source_paths : gset PathBuf;
  g_moves : gmap PathBuf MergedMove; g_rem_paths : gset PathBuf }.

Definition gather_section (g : Gathered) (s : TransactionSectionInput) :
    result HashlineRejection Gathered :=
  let path := ts_canonical_path s in
  let source_paths := {[path]} ∪ g_source_paths g in
  match g_moves g !! path with
  | Some previous =>
      Err (parse_error (msg_str (mm_operation_label previous)
        ++ msg " is followed by another section for the same canonical source; MV must be the final same-path operation"))
  | None =>
      '(line_ops, line_resolved, mv_op) ← split_mv (ts_operations s) (ts_resolved s);
      match mv_op, ts_mv_destination s with
      | Some _, None =>
          Err (parse_error (msg "MV section is missing resolved destination coordinates"))
      | None, Some _ =>
          Err (parse_error (msg "destination coordinates supplied without an MV operation"))
      | _, destination =>
          let rem_paths :=
            if existsb is_rem line_ops then {[path]} ∪ g_rem_paths g else g_rem_paths g in
          let moves :=
            match mv_op, destination with
            | Some mv, Some destination =>
                <[path := MkMove destination (lit "MV at patch line " ++ show (mv_line mv))]> (g_moves g)
            | _, _ => g_moves g
            end in
          Ok (MkGathered
                (g_line_sections g
                 ++ [MkInput path (ts_requested_path s) (ts_baseline s) (ts_snapshot s) line_ops
                       line_resolved])
                source_paths moves rem_paths)
      end
  end.

Fixpoint gather_sections (g : Gathered) (ss : list TransactionSectionInput) :
    result HashlineRejection Gathered :=
  match ss with
  | [] => Ok g
  | s :: ss => g ← gather_section g s; gather_sections g ss
  end.

(** The conflicts of one move with the rest of the patch. *)
Definition check_move (g : Gathered) (source : PathBuf) (mv : MergedMove) :
    result HashlineRejection () :=
  let destination := md_canonical_path (mm_destination mv) in
  let label := msg_str (mm_operation_label mv) in
  if decide (source ∈ g_rem_paths g)
  then Err (parse_error (label ++ msg " cannot follow REM sections for the same canonical source"))
  else if decide (destination = source)
  then Err (parse_error (label
         ++ msg " resolves its destination to the same canonical path as its source"))
  else if decide (destination ∈ g_source_paths g)
  then Err (parse_error (label
         ++ msg " targets a canonical path that is also edited by another patch section; split the move and destination edit into separate requests"))
  else Ok tt.

Fixpoint check_moves (g : Gathered) (moves : list (PathBuf * MergedMove)) :
    result HashlineRejection () :=
  match moves with
  | [] => Ok tt
  | (source, mv) :: moves => _ ← check_move g source mv; check_moves g moves
  end.

(** The step of a planned file: a move if its path has one. *)
Definition planned_step (moves : gmap PathBuf MergedMove) (f : PlannedFile) : PlannedStep :=
  match moves !! pf_canonical_path f with
  | Some mv =>
      let destination := mm_destination mv in
      Mv (MkPlannedMv (pf_canonical_path f) (pf_requested_path f) (pf_baseline_bytes f)
            (md_canonical_path destination) (md_requested_path destination)
            (bool_decide (is_Some (md_baseline_bytes destination))) (md_baseline_bytes destination)
            (final_bytes f) (pf_affected f) (pf_warnings f) (pf_repair_layers f))
  | None => Mutate f
  end.

(** The loop over planned files; [moves.remove] takes each move out. *)
Fixpoint planned_steps (backups_enabled : bool) (moves : gmap PathBuf MergedMove)
    (fs : list PlannedFile) : result HashlineRejection (list PlannedStep) :=
  match fs with
  | [] => Ok []
  | f :: fs =>
      let step := planned_step moves f in
      _ ← assert_rollback_available backups_enabled step;
      rest ← planned_steps backups_enabled (delete (pf_canonical_path f) moves) fs;
      Ok (step :: rest)
  end.

Definition plan_transaction (sections : list TransactionSectionInput) (session : RegisterStore)
    (backups_enabled : bool) : result Failure TransactionPlan :=
  match sections with
  | [] => Err (Refused (parse_error (msg "transaction plan requires at least one section")))
  | _ =>
      g ← lift (gather_sections (MkGathered [] ∅ ∅ ∅) sections);
      _ ← lift (check_moves g (path_entries (g_moves g)));
      plan ← plan_apply (g_line_sections g) session;
      steps ← lift (planned_steps backups_enabled (g_moves g) (files plan));
      Ok (MkTxPlan steps (staged_registers plan))
  end.

(** ** Outcomes *)

Definition counts_toward_completion (f : FileOutcome) : bool :=
  negb (bool_decide (fo_role f = MvSource) && is_applied_star (fo_classification f)).

Definition summary_counts (fs : list FileOutcome) : str :=
  let primary := filter (λ f, counts_toward_completion f = true) fs in
  let applied := length (filter (λ f, is_applied_star (fo_classification f) = true) primary) in
  show applied ++ lit " of " ++ show (length primary) ++ lit " files applied".

Definition failed_outcome (path : PathBuf) (requested : str) (role : FileRole)
    (c : FileClassification) (remove : bool) (warnings : list str) : FileOutcome :=
  MkFileOutcome path requested role c (mutation_state c) None None region_empty warnings None None
    remove None.

Definition mv_failed_pair (mv : PlannedMv) (dest_class source_class : FileClassification) :
    list FileOutcome :=
  [failed_outcome (dest_canonical mv) (dest_requested mv) MvDestination dest_class false (mv_warnings mv);
   failed_outcome (source_canonical mv) (source_requested mv) MvSource source_class false []].

Definition mutate_failed (f : PlannedFile) (c : FileClassification) (remove : bool) : list FileOutcome :=
  [failed_outcome (pf_canonical_path f) (pf_requested_path f) Primary c remove (pf_warnings f)].

Definition not_attempted_for_step (step : PlannedStep) : list FileOutcome :=
  match step with
  | Mutate f =>
      [failed_outcome (pf_canonical_path f) (pf_requested_path f) Primary NotAttempted
         (Apply.remove_file f) []]
  | Mv mv => mv_failed_pair mv NotAttempted NotAttempted
  end.

(** ** Preview *)

Definition NO_TAG_PREVIEW : str := lit "preview: no final tag or undo identity".

Definition preview_step_files (step : PlannedStep) : list FileOutcome :=
  match step with
  | Mutate f =>
      [MkFileOutcome (pf_canonical_path f) (pf_requested_path f) Primary Applied Unmutated
         (Some (final_bytes f)) None (pf_affected f) (pf_warnings f) None None (Apply.remove_file f)
         (Some NO_TAG_PREVIEW)]
  | Mv mv =>
      [MkFileOutcome (dest_canonical mv) (dest_requested mv) MvDestination Applied Unmutated
         (Some (mv_final_bytes mv)) None (mv_affected mv) (mv_warnings mv) None None false
         (Some NO_TAG_PREVIEW);
       MkFileOutcome (source_canonical mv) (source_requested mv) MvSource Applied Unmutated
         None None region_empty [] None None true
         (Some (lit "preview: source removal not performed"))]
  end.

Definition preview_transaction (plan : TransactionPlan) : TransactionEnvelope :=
  let fs := concat (preview_step_files <$> tp_steps plan) in
  MkTxEnvelope true true fs None None false true (summary_counts fs).

(** ** Phase 2 *)

(** The undo journal of a session: recording a file's content, or that it will be created.
    An answer is the identity of the record, [None] when the policy skips it, or an error. *)
Class Journal (B : Type) := {
  snapshot_with_op (session : str) (path : PathBuf) (description : str) (op_id : option str) :
    B → World → result str (option str) * B * World;
  snapshot_op_tombstone (session op_id : str) (path : PathBuf) (description : str) :
    B → World → result str (option str) * B * World }.

Inductive ExecuteFault :=
  | FaultBaselineDrift (step : nat) | FaultBackup (step : nat) | FaultWrite (step : nat)
  | FaultDurability (step : nat) | FaultSourceUnlink (step : nat)
  | FaultFinalTagUnavailable (step : nat) | FaultValidationFailure (step : nat).
#[export] Instance ExecuteFault_eq_dec : EqDecision ExecuteFault.
Proof. solve_decision. Defined.

Inductive StepExec :=
  | StepApplied (outcomes : list FileOutcome)
  | StepStopped (outcomes : list FileOutcome) (reason : str).

Section Execute.
Context `{K : Kernel} {B : Type} `{J : Journal B}.
Context (cwd : PathBuf) (name_hash : bytes → str) (display : PathBuf → str).
Context (canonicalize : PathBuf → option PathBuf) (content_fingerprint : bytes → bytes).
Context (inspect_is_binary : bytes → bool).
(** The session and the injected fault of the context, which do not change. *)
Context (session : str) (injected : option ExecuteFault).

(** The state an execution threads: the disk, the journal, the snapshots, the registers, and
    whether anything was journaled. *)
Record ExecState := MkExec {
  ex_world : World; ex_backups : B; ex_snapshots : SnapshotStore; ex_journaled : bool }.

Definition fault_is (want : ExecuteFault) : bool := bool_decide (injected = Some want).

(** A disk call. *)
Definition io {A} (m : M A) (x : ExecState) : result IoError A * ExecState :=
  let '(r, w) := m (ex_world x) in
  (r, MkExec w (ex_backups x) (ex_snapshots x) (ex_journaled x)).

(** A journal call; a record sets [journaled]. *)
Definition journal (call : B → World → result str (option str) * B * World) (x : ExecState) :
    result str (option str) * ExecState :=
  let '(r, b, w) := call (ex_backups x) (ex_world x) in
  (r, MkExec w b (ex_snapshots x)
        (ex_journaled x || match r with Ok (Some _) => true | _ => false end)).

Definition set_snapshots (s : SnapshotStore) (x : ExecState) : ExecState :=
  MkExec (ex_world x) (ex_backups x) s (ex_journaled x).

(** *** Disk helpers *)

Definition path_exists (path : PathBuf) (x : ExecState) : bool * ExecState :=
  let '(r, x) := io (symlink_metadata path) x in (negb (is_err r), x).

Definition baseline_matches (path : PathBuf) (expected : bytes) (x : ExecState) : bool * ExecState :=
  let '(r, x) := io (read_path path) x in
  (match r with
   | Ok bs => bool_decide (bs = expected)
   | Err e => bool_decide (io_kind e = NotFound) && bool_decide (expected = [])
   end, x).

Definition ensure_parent_dirs (path : PathBuf) : M () :=
  match parent path with Some parent => create_dir_all parent | None => mret tt end.

Definition durable_write (path : PathBuf) (bs : bytes) : M (list str) :=
  _ ← ensure_parent_dirs path;
  outcome ← atomic_write_source cwd name_hash display path bs;
  mret (sw_warnings outcome).

(** The class of a failed write, from what the error displays. *)
Definition write_failure (e : IoError) : FileClassification :=
  if str_contains (lit "durability") (io_message e) then FailedDurability else FailedWrite.

Definition journal_existing_or_skip (op_id : str) (path : PathBuf) (description : str)
    (x : ExecState) : result str (option str) * ExecState :=
  let '(exists_, x) := path_exists path x in
  if negb exists_ then (Ok None, x)
  else journal (snapshot_with_op session path description (Some op_id)) x.

(** *** Tags *)

Definition TAG_UNAVAILABLE : str := lit "final tag unavailable; re-read before chaining".

Definition tag_from_publish (published : EditResponseSnapshot) (c : FileClassification) :
    option str * option str * FileClassification :=
  match er_snapshot published with
  | Some s => (Some (tag s), er_notice published, c)
  | None => (None, Some (default TAG_UNAVAILABLE (er_notice published)), AppliedTagUnavailable)
  end.

(** The tag of the final bytes of a file, unless a fault withholds it. *)
Definition observe_tag (step : nat) (path : PathBuf) (requested : str) (on_disk : bytes)
    (affected : AffectedRegion) (x : ExecState) :
    option (option str * option str * FileClassification * ExecState) :=
  let c := if fault_is (FaultValidationFailure step) then AppliedWithValidationFailure else Applied in
  if fault_is (FaultFinalTagUnavailable step)
  then Some (None, Some TAG_UNAVAILABLE, AppliedTagUnavailable, x)
  else
    '(published, s) ← publish_edit_response_snapshot canonicalize content_fingerprint
                        inspect_is_binary (ex_snapshots x) path requested on_disk affected;
    Some (tag_from_publish published c, set_snapshots s x).

Definition forget_source (path : PathBuf) (x : ExecState) : ExecState :=
  set_snapshots (invalidate_removed_source canonicalize (ex_snapshots x) path).2 x.

(** *** In-place steps *)

Definition SOURCE_REMOVED : str := lit "source path removed; no final tag".

(** After the baseline check of a removal. *)
Definition execute_removal (f : PlannedFile) (backup_id : option str) (x : ExecState) :
    StepExec * ExecState :=
  let '(r, x) := io (FileSys.remove_file (pf_canonical_path f)) x in
  if match r with Err e => negb (bool_decide (io_kind e = NotFound)) | Ok _ => false end
  then (StepStopped (mutate_failed f FailedWrite true) (lit "failed_write"), x)
  else
    (StepApplied
       [MkFileOutcome (pf_canonical_path f) (pf_requested_path f) Primary Applied MutationApplied
          None None region_empty (pf_warnings f) None backup_id true (Some SOURCE_REMOVED)],
     forget_source (pf_canonical_path f) x).

Definition add_warnings (ws : list str) (f : PlannedFile) : PlannedFile :=
  MkPlanned (pf_canonical_path f) (pf_requested_path f) (pf_baseline_bytes f) (final_bytes f)
    (pf_affected f) (Apply.remove_file f) (pf_warnings f ++ ws) (pf_repair_layers f).

(** After the baseline check of a write. *)
Definition execute_write (step : nat) (f : PlannedFile) (backup_id : option str) (x : ExecState) :
    option (StepExec * ExecState) :=
  let path := pf_canonical_path f in
  let '(written, x) := io (durable_write path (final_bytes f)) x in
  match written with
  | Err e =>
      let c := write_failure e in
      Some (StepStopped (mutate_failed f c false) (classification_as_str c), x)
  | Ok ws =>
      let f := add_warnings ws f in
      if fault_is (FaultDurability step)
      then Some (StepStopped (mutate_failed f FailedDurability false) (lit "failed_durability"), x)
      else
        let '(read, x) := io (read_path path) x in
        match read with
        | Err _ =>
            Some (StepApplied
              [MkFileOutcome path (pf_requested_path f) Primary AppliedTagUnavailable MutationApplied
                 (Some (final_bytes f)) None (pf_affected f) (pf_warnings f) None backup_id false
                 (Some (lit "final bytes could not be re-read for tagging"))], x)
        | Ok on_disk =>
            '(final_tag, tag_notice, c, x) ←
              observe_tag step path (pf_requested_path f) on_disk (pf_affected f) x;
            Some (StepApplied
              [MkFileOutcome path (pf_requested_path f) Primary c (mutation_state c) (Some on_disk)
                 final_tag (pf_affected f) (pf_warnings f) None backup_id false tag_notice], x)
        end
  end.

Definition execute_mutate (step : nat) (f : PlannedFile) (op_id : str) (x : ExecState) :
    option (StepExec * ExecState) :=
  let path := pf_canonical_path f in
  let failed c reason := StepStopped (mutate_failed f c (Apply.remove_file f)) (lit reason) in
  if fault_is (FaultBackup step) then Some (failed FailedBackup "failed_backup", x)
  else
    let '(journaled, x) :=
      journal_existing_or_skip op_id path (lit "hashline: pre-mutation backup") x in
    match journaled with
    | Err _ => Some (failed FailedBackup "failed_backup", x)
    | Ok backup_id =>
        let '(matches, x) :=
          if fault_is (FaultBaselineDrift step) then (false, x)
          else baseline_matches path (pf_baseline_bytes f) x in
        if negb matches then Some (failed FailedBaselineDrift "hashline_baseline_drift", x)
        else if fault_is (FaultWrite step) then Some (failed FailedWrite "failed_write", x)
        else if Apply.remove_file f then Some (execute_removal f backup_id x)
        else execute_write step f backup_id x
    end.

(** *** Moves *)

Definition add_mv_warnings (ws : list str) (mv : PlannedMv) : PlannedMv :=
  MkPlannedMv (source_canonical mv) (source_requested mv) (source_baseline_bytes mv)
    (dest_canonical mv) (dest_requested mv) (dest_existed mv) (dest_baseline_bytes mv)
    (mv_final_bytes mv) (mv_affected mv) (mv_warnings mv ++ ws) (mv_repair_layers mv).

Definition dest_outcome (mv : PlannedMv) (on_disk : bytes)
    (observed : option str * option str * FileClassification) (backup_id : option str) : FileOutcome :=
  let '(final_tag, tag_notice, c) := observed in
  MkFileOutcome (dest_canonical mv) (dest_requested mv) MvDestination c (mutation_state c)
    (Some on_disk) final_tag (mv_affected mv) (mv_warnings mv) None backup_id false tag_notice.

Definition source_unlink_failed (mv : PlannedMv) (backup_id : option str) : FileOutcome :=
  MkFileOutcome (source_canonical mv) (source_requested mv) MvSource FailedSourceUnlink PartialMv
    (Some (source_baseline_bytes mv)) None region_empty [] None backup_id false
    (Some (lit "destination written; source unlink failed " ++ [8212%N]
           ++ lit " partial MV under shared op_id")).

Definition source_removed (mv : PlannedMv) (backup_id : option str) : FileOutcome :=
  MkFileOutcome (source_canonical mv) (source_requested mv) MvSource Applied MutationApplied
    None None region_empty [] None backup_id true (Some SOURCE_REMOVED).

(** Once the destination is durable: re-read it, unlink the source, tag the destination. *)
Definition execute_unlink (step : nat) (mv : PlannedMv) (dest_backup source_backup : option str)
    (x : ExecState) : option (StepExec * ExecState) :=
  let '(read, x) := io (read_path (dest_canonical mv)) x in
  let on_disk := match read with Ok bs => bs | Err _ => mv_final_bytes mv end in
  let '(unlinked, x) :=
    if fault_is (FaultSourceUnlink step) then (false, x)
    else let '(r, x) := io (FileSys.remove_file (source_canonical mv)) x in (negb (is_err r), x) in
  if negb unlinked then
    '(observed, x) ←
      observe_tag step (dest_canonical mv) (dest_requested mv) on_disk (mv_affected mv) x;
    Some (StepStopped [dest_outcome mv on_disk observed dest_backup;
                       source_unlink_failed mv source_backup] (lit "failed_source_unlink"), x)
  else
    '(observed, x) ←
      observe_tag step (dest_canonical mv) (dest_requested mv) on_disk (mv_affected mv)
        (forget_source (source_canonical mv) x);
    Some (StepApplied [dest_outcome mv on_disk observed dest_backup; source_removed mv source_backup], x).

(** The recheck of the source and of an existing destination. *)
Definition mv_baselines_match (mv : PlannedMv) (x : ExecState) : bool * ExecState :=
  let '(matches, x) := baseline_matches (source_canonical mv) (source_baseline_bytes mv) x in
  if negb matches then (false, x)
  else
    match dest_baseline_bytes mv with
    | Some expected => baseline_matches (dest_canonical mv) expected x
    | None => (true, x)
    end.

Definition execute_mv (step : nat) (mv : PlannedMv) (op_id : str) (x : ExecState) :
    option (StepExec * ExecState) :=
  let failed c reason := StepStopped (mv_failed_pair mv c NotAttempted) reason in
  if fault_is (FaultBackup step) then Some (failed FailedBackup (lit "failed_backup"), x)
  else
    let '(dest_journaled, x) :=
      if dest_existed mv
      then journal (snapshot_with_op session (dest_canonical mv)
                      (lit "hashline: MV destination backup") (Some op_id)) x
      else journal (snapshot_op_tombstone session op_id (dest_canonical mv)
                      (lit "hashline: MV created destination")) x in
    match dest_journaled with
    | Err _ => Some (failed FailedBackup (lit "failed_backup"), x)
    | Ok dest_backup =>
        let '(source_journaled, x) :=
          journal (snapshot_with_op session (source_canonical mv)
                     (lit "hashline: MV source backup") (Some op_id)) x in
        match source_journaled with
        | Err _ => Some (failed FailedBackup (lit "failed_backup"), x)
        | Ok source_backup =>
            let '(matches, x) :=
              if fault_is (FaultBaselineDrift step) then (false, x) else mv_baselines_match mv x in
            if negb matches
            then Some (failed FailedBaselineDrift (lit "hashline_baseline_drift"), x)
            else if fault_is (FaultWrite step)
            then Some (failed FailedWrite (lit "failed_write"), x)
            else
              let '(written, x) :=
                io (_ ← ensure_parent_dirs (dest_canonical mv);
                    durable_write (dest_canonical mv) (mv_final_bytes mv)) x in
              match written with
              | Err e =>
                  let c := write_failure e in Some (failed c (classification_as_str c), x)
              | Ok ws =>
                  let mv := add_mv_warnings ws mv in
                  if fault_is (FaultDurability step)
                  then Some (StepStopped (mv_failed_pair mv FailedDurability NotAttempted)
                               (lit "failed_durability"), x)
                  else execute_unlink step mv dest_backup source_backup x
              end
        end
    end.

Definition execute_step (step : nat) (s : PlannedStep) (op_id : str) (x : ExecState) :
    option (StepExec * ExecState) :=
  match s with
  | Mutate f => execute_mutate step f op_id x
  | Mv mv => execute_mv step mv op_id x
  end.

(** *** The loop over steps *)

(** The steps from [index] on; after a stop they are reported as not attempted. *)
Fixpoint execute_steps (index : nat) (steps : list PlannedStep) (op_id : str) (x : ExecState) :
    option (list FileOutcome * option str * ExecState) :=
  match steps with
  | [] => Some ([], None, x)
  | s :: steps =>
      '(r, x) ← execute_step index s op_id x;
      match r with
      | StepApplied outcomes =>
          '(rest, reason, x) ← execute_steps (S index) steps op_id x;
          Some (outcomes ++ rest, reason, x)
      | StepStopped outcomes reason =>
          Some (outcomes ++ concat (not_attempted_for_step <$> steps), Some reason, x)
      end
  end.

Definition execute_transaction (plan : TransactionPlan) (registers : RegisterStore) (op_id : str)
    (world : World) (backups : B) (snapshots : SnapshotStore) :
    option (TransactionEnvelope * RegisterStore * ExecState) :=
  '(fs, stop_reason, x) ←
    execute_steps 0 (tp_steps plan) op_id (MkExec world backups snapshots false);
  let classifications := fo_classification <$> filter (λ f, counts_toward_completion f = true) fs in
  let '(committed, registers) :=
    commit_registers_if_complete registers (tp_registers plan) classifications in
  let applied := length (filter (λ c, is_applied_star c = true) classifications) in
  Some (MkTxEnvelope (0 <? applied)
          ((applied =? length classifications) && (0 <? length classifications))
          fs (if ex_journaled x then Some op_id else None) stop_reason committed false
          (summary_counts fs), registers, x).

Definition run_transaction (sections : list TransactionSectionInput)
    (session_registers registers : RegisterStore) (backups_enabled preview : bool) (op_id : str)
    (world : World) (backups : B) (snapshots : SnapshotStore) :
    result Failure (TransactionEnvelope * RegisterStore * ExecState) :=
  plan ← plan_transaction sections session_registers backups_enabled;
  if preview
  then Ok (preview_transaction plan, registers, MkExec world backups snapshots false)
  else no_panic (execute_transaction plan registers op_id world backups snapshots).

End Execute.

End Transaction.
