(* ===== verification/ApplySpec.v ===== *)
(** * What applying operations does to a file

    The functional behaviour of [PUT] and [CUT] through lowering, coalescing, repair,
    materialisation and joining; byte-level round trips; the register gate; and the
    guarantees of a plan. *)

From S2P Require Import Prelude RustStr Scan SnapshotStore Rejection Syntax Address LineEdits.
From S2P Require Import Registers Region Repair Apply.
Import Scan Rejection Syntax Address LineEdits Registers Region Repair Apply.

Module ApplySpec.

(** ** Materialising one operation *)

Lemma edits_at_app es es' n : edits_at (es ++ es') n = edits_at es n ++ edits_at es' n.
Proof. apply filter_app. Qed.

Lemma edits_at_inserts s op body n :
  edits_at (replacement_inserts s op body) n
  = if decide (n = s) then replacement_inserts s op body else [].
Proof.
  induction body as [|t body IH]; [by case_decide|].
  unfold edits_at, replacement_inserts in *. rewrite fmap_cons, filter_cons, IH.
  destruct (decide (n = s)) as [->|Hne]; [by rewrite decide_True|].
  rewrite decide_False by (simpl; congruence). done.
Qed.

Lemma edits_at_deletes s e op n :
  edits_at (replacement_deletes s e op) n = if decide (s ≤ n ≤ e) then [Delete n op] else [].
Proof.
  unfold edits_at, replacement_deletes, range_incl. remember (S e - s) as k eqn:Hk.
  revert s Hk. induction k as [|k IH]; intros s Hk; simpl.
  - rewrite decide_False by lia. done.
  - rewrite filter_cons, IH by lia. cbn [edit_line].
    destruct (decide (Some s = Some n)) as [[= ->]|Hne].
    + rewrite decide_False, decide_True by lia. done.
    + destruct (decide (s = n)) as [->|]; [done|].
      destruct (decide (S s ≤ n ≤ e)), (decide (s ≤ n ≤ e)); done || lia.
Qed.

(** Filter-mapping a mapped list. *)
Lemma omap_fmap_none {A B C} (f : B → option C) (g : A → B) (l : list A) :
  (∀ x, f (g x) = None) → omap f (g <$> l) = [].
Proof. intros H. induction l as [|x l IH]; [done|]. rewrite fmap_cons. cbn. by rewrite H. Qed.

Lemma omap_fmap_some {A B} (f : B → option A) (g : A → B) (l : list A) :
  (∀ x, f (g x) = Some x) → omap f (g <$> l) = l.
Proof.
  intros H. induction l as [|x l IH]; [done|]. rewrite fmap_cons. cbn. rewrite H. by f_equal.
Qed.

Lemma omap_inserts s op body :
  omap bof_text (replacement_inserts s op body) = [] ∧
  omap eof_text (replacement_inserts s op body) = [] ∧
  omap (before_text false) (replacement_inserts s op body) = [] ∧
  omap (before_text true) (replacement_inserts s op body) = body ∧
  omap after_text (replacement_inserts s op body) = [] ∧
  existsb is_delete (replacement_inserts s op body) = false.
Proof.
  unfold replacement_inserts.
  split_and!; [by apply omap_fmap_none| |by apply omap_fmap_none|by apply omap_fmap_some|..].
  - by apply omap_fmap_none.
  - by apply omap_fmap_none.
  - by induction body.
Qed.

Lemma omap_deletes s e op :
  omap bof_text (replacement_deletes s e op) = [] ∧ omap eof_text (replacement_deletes s e op) = [].
Proof. unfold replacement_deletes. split; by apply omap_fmap_none. Qed.

(** Concatenating per-line rows of a file: lines before, inside and after a span. *)
Lemma concat_imap_span {A} (f : nat → A → list A) (body l : list A) (s e : nat) :
  1 ≤ s ≤ e → e ≤ length l →
  (∀ n x, n < s ∨ e < n → f n x = [x]) → (∀ x, f s x = body) →
  (∀ n x, s < n ≤ e → f n x = []) →
  concat (imap (λ i x, f (S i) x) l) = take (s - 1) l ++ body ++ drop e l.
Proof.
  intros Hs He Hout Hat Hin.
  assert (∀ (m : list A) (g : nat → A → list A), (∀ i x, m !! i = Some x → g i x = [x]) →
    concat (imap g m) = m) as Hid.
  { intros m. induction m as [|x m IH]; intros g Hg; [done|]. rewrite imap_cons. simpl.
    rewrite (Hg 0) by done. simpl. f_equal. apply IH. intros i y Hy. by apply (Hg (S i)). }
  assert (∀ (m : list A) (g : nat → A → list A), (∀ i x, m !! i = Some x → g i x = []) →
    concat (imap g m) = []) as Hnil.
  { intros m. induction m as [|x m IH]; intros g Hg; [done|]. rewrite imap_cons. simpl.
    rewrite (Hg 0) by done. simpl. apply IH. intros i y Hy. by apply (Hg (S i)). }
  destruct (lookup_lt_is_Some_2 l (s - 1)) as [x Hx]; [lia|].
  rewrite <-(take_drop_middle l (s - 1) x Hx) at 1.
  rewrite <-(take_drop (e - s) (drop (S (s - 1)) l)).
  rewrite imap_app, concat_app, imap_cons, imap_app. simpl. rewrite concat_app.
  rewrite length_take_le by lia.
  rewrite (Hid (take (s - 1) l)).
  2:{ intros i y Hy. apply Hout. apply lookup_take_Some in Hy as [_ Hy]. lia. }
  f_equal. replace (S (s - 1 + 0)) with s by lia. rewrite Hat. f_equal.
  rewrite Hnil.
  2:{ intros i y Hy. apply Hin. apply lookup_take_Some in Hy as [_ Hy]. lia. }
  rewrite length_take_le by (rewrite length_drop; lia). rewrite drop_drop. simpl.
  replace (S (s - 1 + (e - s))) with e by lia.
  apply Hid. intros i y Hy. apply Hout. lia.
Qed.

(** A replacement group replaces its span by its body. *)
Lemma materialize_replacement lines s e op body :
  1 ≤ s ≤ e → e ≤ length lines →
  materialize_edits lines (replacement_inserts s op body ++ replacement_deletes s e op)
  = take (s - 1) lines ++ body ++ drop e lines.
Proof.
  intros Hs He. rewrite materialize_edits_rows.
  2:{ intros x n [Hx|Hx]%elem_of_app Hn; apply list_elem_of_fmap in Hx as (y & -> & Hy);
      injection Hn as <-; [lia|]. apply elem_of_range_incl in Hy. lia. }
  destruct (omap_inserts s op body) as (Hb1 & Hb2 & Hb3 & Hb4 & Hb5 & Hb6).
  destruct (omap_deletes s e op) as (Hd1 & Hd2).
  rewrite !omap_app, Hb1, Hb2, Hd1, Hd2. simpl. rewrite !app_nil_r.
  assert (∀ n cur, rows_at (replacement_inserts s op body ++ replacement_deletes s e op) n cur
    = (if decide (n = s) then body else []) ++ if decide (s ≤ n ≤ e) then [] else option_list cur) as Hrows.
  { intros n cur. unfold rows_at. rewrite edits_at_app, edits_at_inserts, edits_at_deletes.
    unfold append_line_bucket. rewrite !omap_app, existsb_app.
    destruct (decide (n = s)) as [->|].
    - rewrite !decide_True by lia. rewrite Hb3, Hb4, Hb5, Hb6. simpl. by rewrite ?app_nil_r.
    - destruct (decide (s ≤ n ≤ e)); simpl; by rewrite ?app_nil_r. }
  rewrite Hrows, decide_False, decide_False by lia. simpl. rewrite app_nil_r.
  rewrite (imap_ext _ (λ i x, (λ n x, (if decide (n = s) then body else [])
    ++ if decide (s ≤ n ≤ e) then [] else [x]) (S i) x)) by (intros; apply Hrows).
  apply (concat_imap_span (λ n x, (if decide (n = s) then body else [])
    ++ if decide (s ≤ n ≤ e) then [] else [x])); try done.
  - intros n x Hn. rewrite !decide_False by lia. done.
  - intros x. rewrite !decide_True by lia. by rewrite app_nil_r.
  - intros n x Hn. rewrite decide_False, decide_True by lia. done.
Qed.

(** ** One operation is already coalesced *)

Lemma group_by_op_one edits op :
  edits ≠ [] → Forall (λ e, edit_op e = op) edits → group_by_op edits = ([op], {[op := edits]}).
Proof.
  intros Hne Hall. induction edits as [|e edits IH] using rev_ind; [done|].
  apply Forall_app in Hall as [Hall He]. apply Forall_cons in He as [He _]. unfold group_by_op in *.
  rewrite foldl_app. cbn [foldl]. destruct edits as [|e' edits]; [cbn; by rewrite He|].
  rewrite IH by done. rewrite He, lookup_singleton_eq. simpl. by rewrite insert_singleton_eq.
Qed.

Lemma coalesce_one edits op :
  Forall (λ e, edit_op e = op) edits → coalesce_replacement_edits edits = coalesce_one_op edits.
Proof.
  intros Hall. destruct (decide (edits = [])) as [->|Hne]; [done|].
  unfold coalesce_replacement_edits. rewrite (group_by_op_one _ op) by done. simpl.
  by rewrite lookup_singleton_eq.
Qed.

Lemma dedup_seq a n : dedup (seq a n) = seq a n.
Proof.
  revert a. induction n as [|[|n] IH]; intros a; [done..|]. cbn -[decide].
  rewrite decide_False by lia. f_equal. apply (IH (S a)).
Qed.

Lemma contiguous_seq a n : contiguous (seq a n) = true.
Proof.
  revert a. induction n as [|[|n] IH]; intros a; [done..|]. cbn.
  rewrite bool_decide_true by done. apply (IH (S a)).
Qed.

Lemma merge_sort_seq a n : merge_sort (≤) (seq a n) = seq a n.
Proof.
  apply (StronglySorted_unique (≤)); [apply (StronglySorted_merge_sort (≤))|apply StronglySorted_seq|].
  apply merge_sort_Permutation.
Qed.

Lemma ops_of_replacement s e op body :
  Forall (λ x, edit_op x = op) (replacement_inserts s op body ++ replacement_deletes s e op).
Proof. apply Forall_app; split; apply Forall_fmap, Forall_true; done. Qed.

(** The lowered form of one replacement is a fixed point of coalescing. *)
Lemma coalesce_replacement s e op body :
  s ≤ e →
  coalesce_replacement_edits (replacement_inserts s op body ++ replacement_deletes s e op)
  = replacement_inserts s op body ++ replacement_deletes s e op.
Proof.
  intros Hse. rewrite (coalesce_one _ op) by apply ops_of_replacement. unfold coalesce_one_op.
  assert (omap deleted_line (replacement_inserts s op body ++ replacement_deletes s e op)
    = range_incl s e) as Hd.
  { rewrite omap_app. unfold replacement_inserts, replacement_deletes.
    by rewrite omap_fmap_none, omap_fmap_some. }
  assert (omap replacement_text (replacement_inserts s op body ++ replacement_deletes s e op)
    = body) as Hr.
  { rewrite omap_app. unfold replacement_inserts, replacement_deletes.
    by rewrite omap_fmap_some, omap_fmap_none, app_nil_r. }
  assert (filter is_plain (replacement_inserts s op body ++ replacement_deletes s e op) = []) as Hp.
  { apply elem_of_nil_inv. intros x [Hx Hin]%list_elem_of_filter.
    apply elem_of_app in Hin as [Hin|Hin]; apply list_elem_of_fmap in Hin as (? & -> & _); done. }
  assert (dedup (merge_sort (≤) (range_incl s e)) = range_incl s e) as Hsort
    by (unfold range_incl; by rewrite merge_sort_seq, dedup_seq).
  assert (head (range_incl s e) = Some s) as Hhead by (by rewrite range_incl_cons by done).
  assert (last (range_incl s e) = Some e) as Hlast.
  { destruct e as [|e]; [by replace s with 0 by lia|]. by rewrite range_incl_snoc, last_snoc by lia. }
  rewrite Hd, Hr, Hp, Hsort, Hhead, Hlast. rewrite (range_incl_cons s e) at 1 by done.
  destruct body as [|t body]; [done|]. unfold range_incl at 1. by rewrite contiguous_seq.
Qed.

(** ** Repairing one replacement *)

Lemma group_inserts_run s op i body line op' rest :
  group_inserts s op i (replacement_inserts s op body ++ Delete line op' :: rest)
  = (seq i (length body), body, i + length body, Delete line op' :: rest).
Proof.
  revert i. induction body as [|t body IH]; intros i; cbn -[decide]; [by rewrite Nat.add_0_r|].
  rewrite decide_True by done. fold (replacement_inserts s op body).
  rewrite IH. by rewrite Nat.add_succ_r.
Qed.

Lemma group_deletes_run a op j n :
  group_deletes a op j ((λ line, Delete line op) <$> seq a n) = (seq j n, a + n).
Proof.
  revert a j. induction n as [|n IH]; intros a j; cbn -[decide]; [by rewrite Nat.add_0_r|].
  rewrite decide_True by done. rewrite (IH (S a)). by rewrite Nat.add_succ_r.
Qed.

Lemma find_replacement_run s e op body :
  s ≤ e → body ≠ [] →
  group_shape <$> find_replacement_group
    (replacement_inserts s op body ++ replacement_deletes s e op) 0 = Some (body, s, e, op).
Proof.
  intros Hse Hne. destruct body as [|t body]; [done|]. unfold find_replacement_group.
  rewrite drop_0. cbn [replacement_inserts fmap list_fmap app lookup list_lookup].
  change (Insert s Before t Replacement op :: _)
    with (replacement_inserts s op (t :: body) ++ replacement_deletes s e op).
  assert (replacement_deletes s e op
    = Delete s op :: ((λ line, Delete line op) <$> range_incl (S s) e)) as Hd
    by (unfold replacement_deletes; by rewrite range_incl_cons by done).
  rewrite Hd, group_inserts_run, <-Hd. unfold replacement_deletes, range_incl.
  rewrite group_deletes_run. replace (S e - s) with (S (e - s)) by lia. cbn. unfold group_shape. cbn. do 3 f_equal. lia.
Qed.

(** Rows after the indentation layer. *)
Definition row_indented (row row' : str) : Prop :=
  ∃ shift, Forall (λ c, is_blank_char c = true) shift ∧ row' = shift ++ row.

Lemma reindented_replacement s e op body es :
  Forall2 reindented (replacement_inserts s op body ++ replacement_deletes s e op) es →
  ∃ body', es = replacement_inserts s op body' ++ replacement_deletes s e op ∧
    Forall2 row_indented body body'.
Proof.
  intros (es1 & es2 & H1 & H2 & ->)%Forall2_app_inv_l.
  assert (es2 = replacement_deletes s e op) as ->.
  { revert H2. unfold replacement_deletes. generalize (range_incl s e) as ls. clear.
    intros ls. revert es2. induction ls as [|l ls IH]; intros es2 H; inversion H; subst; [done|].
    rewrite fmap_cons. f_equal; [done|]. by apply IH. }
  clear H2. revert es1 H1. induction body as [|t body IH]; intros es1 H1;
    inversion H1 as [|? e1 ? es1' He1 Hes1]; subst.
  - exists []. split; [done|constructor].
  - edestruct IH as (body' & Heq & Hall); [done|]. destruct He1 as (shift & Hsh & ->).
    exists ((shift ++ t) :: body'). apply app_inv_tail in Heq as ->.
    split; [done|]. constructor; [|done]. by exists shift.
Qed.

Lemma echo_repaired_deletes file op ls es :
  echo_repaired file ((λ line, Delete line op) <$> ls) es → es = (λ line, Delete line op) <$> ls.
Proof.
  revert es. induction ls as [|l ls IH]; intros es H; inversion H as [|? ? ? ? Hr|s0 e0 o0 lead body trail es0 es0' _ Hb]; subst.
  - done.
  - destruct lead as [|? lead], body as [|? body]; done.
  - rewrite fmap_cons. f_equal. by apply IH.
  - destruct lead as [|? lead], body as [|? body]; done.
Qed.

(** What the repair layers may make of a replacement body: leading blanks are added to
    rows, then rows at either end that restate the file just outside the span go. *)
Definition repaired_body (file : list str) (s e : nat) (body body' : list str) : Prop :=
  ∃ lead trail, Forall2 row_indented body (lead ++ body' ++ trail) ∧
    restates file (s - 1 - length lead) lead ∧ restates file e trail ∧
    (body ≠ [] → body' ≠ []).

Lemma echo_repaired_replacement file s e op body es :
  s ≤ e → body ≠ [] →
  echo_repaired file (replacement_inserts s op body ++ replacement_deletes s e op) es →
  ∃ lead body' trail, body = lead ++ body' ++ trail ∧ body' ≠ [] ∧
    restates file (s - 1 - length lead) lead ∧ restates file e trail ∧
    es = replacement_inserts s op body' ++ replacement_deletes s e op.
Proof.
  intros Hse Hne H. pose proof (find_replacement_run s e op body Hse Hne) as Hg.
  remember (replacement_inserts s op body ++ replacement_deletes s e op) as edits eqn:He.
  destruct H as [|x es es' Hnone|s' e' op' lead body' trail es es' Hshape Hb Hl Hrl Hrt Hrest].
  - done.
  - by rewrite Hnone in Hg.
  - rewrite Hg in Hshape. injection Hshape as -> -> -> ->.
    rewrite app_assoc, He in *. clear Hg.
    assert (es = []) as ->.
    { apply (f_equal length) in He. rewrite !length_app in He. apply length_zero_iff_nil. lia. }
    apply (echo_repaired_deletes file op' []) in Hrest as ->. rewrite fmap_nil, app_nil_r.
    exists lead, body', trail. by rewrite <-app_assoc.
Qed.

(** The repair layers on one replacement. *)
Lemma repair_replacement file s e op body :
  s ≤ e →
  ∃ body', ro_edits (apply_repair_layers
      (replacement_inserts s op body ++ replacement_deletes s e op) file)
    = replacement_inserts s op body' ++ replacement_deletes s e op ∧
    repaired_body file s e body body' ∧
    (ro_warnings (apply_repair_layers
      (replacement_inserts s op body ++ replacement_deletes s e op) file) = [] → body' = body).
Proof.
  intros Hse. set (edits := replacement_inserts s op body ++ replacement_deletes s e op).
  unfold apply_repair_layers, repair_replacement_indentation, repair_boundary_echoes.
  destruct (indent_loop_spec (length edits) file edits 0 []) as (Hind & ws & Hws & Hsame).
  destruct (indent_loop (length edits) file edits 0 []) as [es1 ws1]. simpl in *. subst ws1.
  apply reindented_replacement in Hind as (body1 & -> & Hrows).
  set (edits1 := replacement_inserts s op body1 ++ replacement_deletes s e op) in *.
  destruct (echo_loop_spec file edits1 (length edits1) 0 [] []) as (es2 & ws2 & Heq & Hecho & Hsame2);
    [lia|]. rewrite Heq. simpl. clear Heq. rewrite drop_0 in *.
  destruct (decide (body1 = [])) as [->|Hne].
  - apply echo_repaired_deletes in Hecho as ->. inversion Hrows; subst. exists []. split_and!; try done.
    exists [], []. by repeat split.
  - apply echo_repaired_replacement in Hecho as (lead & body' & trail & -> & Hb & Hl & Ht & ->); try done.
    exists body'. split; [done|]. split.
    + exists lead, trail. auto.
    + intros [-> ->]%app_nil. rewrite (Hsame eq_refl) in Hsame2. specialize (Hsame2 eq_refl).
      apply app_inv_tail, (f_equal (omap (before_text true))) in Hsame2.
      unfold replacement_inserts in Hsame2. by rewrite !omap_fmap_some in Hsame2.
Qed.

(** Edits without replacement inserts pass the repair layers unchanged. *)
Definition no_replacement (edits : list LineEdit) : Prop :=
  Forall (λ e, is_replacement e = false) edits.

Lemma no_replacement_group edits i :
  no_replacement edits → find_replacement_group edits i = None.
Proof.
  intros H. unfold find_replacement_group.
  destruct (edits !! i) as [[anchor [] text [] op|]|] eqn:E; try done.
  by eapply Forall_lookup_1 in H; [|exact E].
Qed.

Lemma repair_plain edits file :
  no_replacement edits → apply_repair_layers edits file = MkRepair edits [] [].
Proof.
  intros H. unfold apply_repair_layers, repair_replacement_indentation, repair_boundary_echoes.
  assert (∀ fuel start ws, indent_loop fuel file edits start ws = (edits, ws)) as ->.
  { induction fuel as [|fuel IH]; intros start ws; simpl; [done|].
    rewrite no_replacement_group by done. by destruct (start <? length edits). }
  assert (∀ fuel i rebuilt ws, length edits - i ≤ fuel →
    echo_loop fuel file edits i rebuilt ws = (rebuilt ++ drop i edits, ws)) as Hecho.
  { induction fuel as [|fuel IH]; intros i rebuilt ws Hf; simpl.
    - by rewrite drop_ge, app_nil_r by lia.
    - destruct (edits !! i) as [e|] eqn:E.
      + rewrite no_replacement_group by done.
        rewrite IH by (apply lookup_lt_Some in E; lia). by rewrite (drop_S _ _ _ E), <-app_assoc.
      + apply lookup_ge_None in E. by rewrite drop_ge, app_nil_r by lia. }
  rewrite Hecho by lia. done.
Qed.

Lemma deletes_plain s e op : no_replacement (replacement_deletes s e op).
Proof. apply Forall_fmap, Forall_true. done. Qed.

(** ** [PUT] and [CUT] over a span *)

(** The rows of lines [s..e] of a file. *)
Definition rows_of_span (lines : list str) (s e : nat) : list str := take (S e - s) (drop (s - 1) lines).

(** The file with lines [s..e] replaced. *)
Definition replace_span (lines : list str) (s e : nat) (body : list str) : list str :=
  take (s - 1) lines ++ body ++ drop e lines.

Lemma captured_rows_span lines s e :
  1 ≤ s → e ≤ length lines → captured_rows lines (MkSpan s e) = rows_of_span lines s e.
Proof.
  intros Hs He. unfold captured_rows, rows_of_span, span_lines, range_incl. simpl.
  apply list_eq. intros i. rewrite list_lookup_fmap.
  destruct (decide (i < S e - s)) as [Hi|Hi].
  - rewrite lookup_seq_lt, lookup_take, decide_True, lookup_drop by lia. simpl.
    replace (s + i - 1) with (s - 1 + i) by lia.
    destruct (lookup_lt_is_Some_2 lines (s - 1 + i)) as [x ->]; [lia|done].
  - rewrite lookup_seq_ge by lia. symmetry. apply lookup_take_ge. lia.
Qed.

(** The bytes that a baseline's terminator policy makes of lines. *)
Definition rejoin (b : Baseline) (lines : list str) : bytes :=
  let '(t, trailing) := terminator_policy (records (bl_snapshot b)) in join_lines lines t trailing.

(** The section engine on one line operation. *)
Lemma apply_one_op req canon b op r regs lines edits regs' :
  is_mv op = false → (∀ o, op ≠ OpRem o) → baseline_lines b = Ok lines →
  lower_operations [op] [r] lines regs = Ok (edits, regs') →
  let repaired := apply_repair_layers (coalesce_replacement_edits edits) lines in
  let final := materialize_edits lines (ro_edits repaired) in
  apply_section_ops req canon b [op] [r] regs
  = Ok (MkPlanned canon req (bl_bytes b) (rejoin b final) (affected_from_line_diff lines final)
          false (ro_warnings repaired)
          (repair_layers_of (coalesce_replacement_edits edits) edits (layers_applied repaired)), regs').
Proof.
  intros Hmv Hrem Hlines Hlow repaired final. unfold apply_section_ops, rejoin.
  rewrite bool_decide_false by (simpl; lia). simpl existsb. rewrite Hmv. cbn [orb].
  rewrite Hlines. destruct (terminator_policy (records (bl_snapshot b))) as [t tr].
  cbn [lift map_err mbind result_bind]. rewrite Hlow.
  destruct op as [p|c|o|o]; [done|done|by destruct (Hrem o)|done].
Qed.

Lemma put_span_engine req canon b p i s e regs lines body :
  baseline_lines b = Ok lines → 1 ≤ s ≤ e → e ≤ length lines →
  put_payload p true regs = Ok body →
  ∃ planned body',
    apply_section_ops req canon b [OpPut p] [MkResolvedOp i (Span (MkSpan s e))] regs
    = Ok (planned, regs) ∧
    final_bytes planned = rejoin b (replace_span lines s e body') ∧
    repaired_body lines s e body body' ∧ (pf_warnings planned = [] → body' = body) ∧
    remove_file planned = false ∧ pf_baseline_bytes planned = bl_bytes b.
Proof.
  intros Hlines Hse He Hbody.
  destruct (repair_replacement lines s e i body) as (body' & Hro & Hrep & Hw); [lia|].
  erewrite apply_one_op; [|done|done|done|].
  2:{ simpl. unfold lower_put. simpl. rewrite Hbody. simpl. by rewrite app_nil_r. }
  rewrite coalesce_replacement, Hro, materialize_replacement by lia. eexists _, body'. by split_and!.
Qed.

(** C12: a [PUT] over lines [s..e] of a file succeeds whenever its payload is available and
    replaces exactly those lines: all lines above and below are kept, in between stands the
    payload, changed by the repair layers at most by leading blanks on its rows and by
    dropping rows at its ends that restate the neighbouring file rows, and not at all when
    no warning is reported.  Registers do not change. *)
Theorem put_span_spec req canon b p i s e regs lines body :
  baseline_lines b = Ok lines → 1 ≤ s ≤ e → e ≤ length lines →
  put_payload p true regs = Ok body →
  ∃ planned body',
    apply_section_ops req canon b [OpPut p] [MkResolvedOp i (Span (MkSpan s e))] regs
    = Ok (planned, regs) ∧
    final_bytes planned = rejoin b (replace_span lines s e body') ∧
    repaired_body lines s e body body' ∧ (pf_warnings planned = [] → body' = body) ∧
    remove_file planned = false ∧ pf_baseline_bytes planned = bl_bytes b.
Proof. intros. by apply put_span_engine. Qed.

(** a [CUT] of lines [s..e] captures exactly the rows of those lines into its register
    (the anonymous one by default), and removes exactly those lines; when the register bounds
    refuse the capture, the operation is refused with that rejection. *)
Theorem cut_span_spec req canon b c i s e regs lines :
  baseline_lines b = Ok lines → 1 ≤ s ≤ e → e ≤ length lines →
  match capture regs (default Anonymous (cut_register c)) (rows_of_span lines s e) with
  | Err r => apply_section_ops req canon b [OpCut c] [MkResolvedOp i (Span (MkSpan s e))] regs
             = Err (Refused r)
  | Ok regs' => ∃ planned,
      apply_section_ops req canon b [OpCut c] [MkResolvedOp i (Span (MkSpan s e))] regs
      = Ok (planned, regs') ∧
      final_bytes planned = rejoin b (replace_span lines s e []) ∧
      pf_warnings planned = [] ∧ remove_file planned = false
  end.
Proof.
  intros Hlines Hse He. destruct (capture regs _ _) as [regs'|r] eqn:Hcap.
  - erewrite apply_one_op; [|done|done|done|].
    2:{ simpl. rewrite captured_rows_span, Hcap by lia. simpl. by rewrite app_nil_r. }
    pose proof (coalesce_replacement s e i [] ltac:(lia)) as Hco. simpl in Hco. rewrite Hco.
    rewrite repair_plain by apply deletes_plain.
    pose proof (materialize_replacement lines s e i [] ltac:(lia) He) as Hm. simpl in Hm.
    simpl ro_edits. rewrite Hm. eexists. by split_and!.
  - unfold apply_section_ops. rewrite bool_decide_false by (simpl; lia). simpl.
    rewrite Hlines. destruct (terminator_policy (records (bl_snapshot b))) as [t tr].
    simpl. rewrite captured_rows_span, Hcap by lia. done.
Qed.

(** ** [PUT] into a gap *)

Lemma concat_imap_after {A} (body l : list A) k :
  k ≤ length l →
  concat (imap (λ i x, if decide (S i = k) then x :: body else [x]) l)
  = take k l ++ (if decide (k = 0) then [] else body) ++ drop k l.
Proof.
  revert k. induction l as [|x l IH]; intros k Hk.
  { simpl in Hk. by replace k with 0 by lia. }
  rewrite imap_cons. cbn [concat]. destruct k as [|k].
  - rewrite decide_False by lia. simpl. f_equal. specialize (IH 0 ltac:(lia)). simpl in IH.
    rewrite drop_0 in IH. by rewrite <-IH at 2.
  - assert (concat (imap ((λ i y, if decide (S i = S k) then y :: body else [y]) ∘ S) l)
      = take k l ++ (if decide (k = 0) then [] else body) ++ drop k l) as ->.
    { rewrite <-IH by (simpl in Hk; lia). f_equal. apply imap_ext. intros i y _. simpl.
      by destruct (decide (S i = k)), (decide (S (S i) = S k)); try lia. }
    destruct (decide (k = 0)) as [->|].
    + rewrite decide_True by lia. by rewrite decide_False by lia.
    + rewrite decide_False by lia. by rewrite decide_False by lia.
Qed.

(** The inserts of a gap [PUT]. *)
Definition gap_inserts (anchor : nat) (place : InsertPlace) (op : nat) (body : list str) :
    list LineEdit :=
  (λ text, Insert anchor place text Plain op) <$> body.

Lemma edits_at_gap anchor place op body n :
  edits_at (gap_inserts anchor place op body) n
  = if decide (place = Before ∨ place = After) then
      if decide (n = anchor) then gap_inserts anchor place op body else []
    else [].
Proof.
  unfold edits_at, gap_inserts. induction body as [|t body IH]; [by repeat case_decide|].
  rewrite fmap_cons, filter_cons, IH.
  destruct place; simpl; repeat case_decide; naive_solver.
Qed.

Lemma materialize_bof lines op anchor body :
  materialize_edits lines (gap_inserts anchor Bof op body) = body ++ lines.
Proof.
  rewrite materialize_edits_rows.
  2:{ intros x n Hx Hn. apply list_elem_of_fmap in Hx as (t & -> & _). done. }
  assert (∀ n cur, rows_at (gap_inserts anchor Bof op body) n cur = option_list cur) as Hr.
  { intros n cur. unfold rows_at. rewrite edits_at_gap. simpl. destruct cur; done. }
  rewrite Hr. rewrite (imap_ext _ (λ _ x, [x])) by (intros; apply Hr).
  unfold gap_inserts. rewrite omap_fmap_some, omap_fmap_none by done. rewrite !app_nil_r. f_equal.
  pose proof (concat_imap_after [] lines 0 ltac:(lia)) as Hc. simpl in Hc. rewrite drop_0 in Hc.
  by rewrite <-Hc at 2.
Qed.

Lemma materialize_eof lines op anchor body :
  materialize_edits lines (gap_inserts anchor Eof op body) = lines ++ body.
Proof.
  rewrite materialize_edits_rows.
  2:{ intros x n Hx Hn. apply list_elem_of_fmap in Hx as (t & -> & _). done. }
  assert (∀ n cur, rows_at (gap_inserts anchor Eof op body) n cur = option_list cur) as Hr.
  { intros n cur. unfold rows_at. rewrite edits_at_gap. simpl. destruct cur; done. }
  rewrite Hr. rewrite (imap_ext _ (λ _ x, [x])) by (intros; apply Hr).
  unfold gap_inserts. rewrite omap_fmap_none, omap_fmap_some by done. simpl.
  rewrite !app_nil_r. f_equal.
  pose proof (concat_imap_after [] lines 0 ltac:(lia)) as Hc. simpl in Hc. rewrite drop_0 in Hc.
  by rewrite <-Hc at 2.
Qed.

Lemma materialize_after lines op k body :
  1 ≤ k ≤ length lines →
  materialize_edits lines (gap_inserts k After op body) = take k lines ++ body ++ drop k lines.
Proof.
  intros Hk. rewrite materialize_edits_rows.
  2:{ intros x n Hx Hn. apply list_elem_of_fmap in Hx as (t & -> & _). injection Hn as <-. lia. }
  assert (∀ n cur, rows_at (gap_inserts k After op body) n cur
    = if decide (n = k) then option_list cur ++ body else option_list cur) as Hr.
  { intros n cur. unfold rows_at. rewrite edits_at_gap, decide_True by auto. case_decide.
    - unfold append_line_bucket, gap_inserts.
      rewrite omap_fmap_none, omap_fmap_none, omap_fmap_some by done.
      assert (existsb is_delete ((λ text, Insert k After text Plain op) <$> body) = false) as ->
        by (by induction body). done.
    - destruct cur; done. }
  rewrite Hr, decide_False by lia.
  rewrite (imap_ext _ (λ i x, if decide (S i = k) then x :: body else [x]))
    by (intros i x _; rewrite Hr; by case_decide).
  rewrite concat_imap_after, decide_False by lia.
  unfold gap_inserts. rewrite !omap_fmap_none by done. simpl. by rewrite !app_nil_r.
Qed.

(** The number of lines above a gap. *)
Definition gap_index (g : ResolvedGap) : nat := default 0 (gap_before g).

Lemma gap_inserts_plain anchor place op body :
  no_replacement (gap_inserts anchor place op body) ∧
  coalesce_replacement_edits (gap_inserts anchor place op body) = gap_inserts anchor place op body.
Proof.
  split; [apply Forall_fmap, Forall_true; done|].
  rewrite (coalesce_one _ op) by (apply Forall_fmap, Forall_true; done).
  unfold coalesce_one_op, gap_inserts. by rewrite omap_fmap_none.
Qed.

Lemma lower_gap g op body lines :
  in_bounds (length lines) (Gap g) → gap_before g ≠ Some 0 →
  ∃ anchor place, lower_put_body (Gap g) body op = gap_inserts anchor place op body ∧
    materialize_edits lines (gap_inserts anchor place op body)
    = take (gap_index g) lines ++ body ++ drop (gap_index g) lines.
Proof.
  destruct g as [[k|] [k'|]]; simpl; intros Hb Hz.
  - exists k, After. split; [done|]. apply materialize_after. unfold gap_index. simpl. destruct k; [done|lia].
  - exists k, Eof. split; [done|]. rewrite materialize_eof. unfold gap_index. simpl. subst k.
    by rewrite take_ge, drop_ge, app_nil_r.
  - destruct Hb as [-> _]. exists 1, Bof. split; [done|]. by rewrite materialize_bof.
  - exists 1, Bof. split; [done|]. by rewrite materialize_bof.
Qed.

(** a [PUT] into a gap inserts its payload exactly there: every line of the file is
    kept, the payload stands between the lines above and below the gap (at the beginning or
    the end of the file for the outer gaps), no repair applies and registers do not
    change. *)
Theorem put_gap_spec req canon b p i g regs lines body :
  baseline_lines b = Ok lines → in_bounds (length lines) (Gap g) → gap_before g ≠ Some 0 →
  put_payload p false regs = Ok body →
  ∃ planned,
    apply_section_ops req canon b [OpPut p] [MkResolvedOp i (Gap g)] regs = Ok (planned, regs) ∧
    final_bytes planned
    = rejoin b (take (gap_index g) lines ++ body ++ drop (gap_index g) lines) ∧
    pf_warnings planned = [] ∧ remove_file planned = false.
Proof.
  intros Hlines Hb Hz Hbody.
  destruct (lower_gap g i body lines Hb Hz) as (anchor & place & Hlow & Hmat).
  destruct (gap_inserts_plain anchor place i body) as [Hplain Hco].
  erewrite apply_one_op; [|done|done|done|].
  2:{ cbn -[lower_put_body]. unfold lower_put. change (is_span (Gap g)) with false. rewrite Hbody. cbn -[lower_put_body].
      rewrite Hlow. by rewrite app_nil_r. }
  rewrite Hco, repair_plain by done. cbn [ro_edits]. rewrite Hmat. eexists. by split_and!.
Qed.

(** ** Lines back to bytes *)

Lemma baseline_lines_records bs b :
  baseline_from_bytes bs = Some b →
  baseline_lines b = mapM line_content_utf8 (raw_line_records bs).
Proof.
  intros Hb. unfold baseline_lines, range_incl.
  rewrite (so_total _ _ _ (baseline_of _ _ Hb)). cbn [Nat.sub]. rewrite Nat.sub_0_r.
  assert (∀ recs k, (∀ i r, recs !! i = Some r → baseline_record b (k + i) = Some r) →
    mapM (baseline_line b) (seq k (length recs)) = mapM line_content_utf8 recs) as H.
  { induction recs as [|r recs IH]; intros k H; [done|]. cbn -[baseline_line].
    rewrite (IH (S k)) by (intros i r' Hr; rewrite Nat.add_succ_comm; by apply (H (S i))).
    specialize (H 0 r eq_refl). rewrite Nat.add_0_r in H. unfold baseline_line. by rewrite H. }
  apply (H _ 1). intros i r Hr. by rewrite (baseline_rec _ _ _ Hb).
Qed.

(** A file whose lines all end in [t], except possibly the last one. *)
Definition uniform (t : TerminatorKind) (recs : list RawLineRecord) : Prop :=
  t ≠ NoTerminator ∧
  ∀ i r, recs !! i = Some r →
    terminator r = t ∨ S i = length recs ∧ terminator r = NoTerminator.

(** A line with its terminator. *)
Definition line_bytes (t : TerminatorKind) (line : str) : bytes := as_bytes line ++ term_bytes t.

Lemma join_lines_app t tr l r :
  t ≠ NoTerminator → r ≠ [] →
  join_lines (l ++ r) t tr = concat (line_bytes t <$> l) ++ join_lines r t tr.
Proof.
  intros Ht Hr. induction l as [|x l IH]; [done|]. rewrite fmap_cons. cbn [concat].
  rewrite <-app_assoc, <-IH. cbn [app]. destruct (l ++ r) as [|y rest] eqn:E.
  { apply app_nil in E as [_ ->]. done. }
  change (join_lines (x :: y :: rest) t tr) with
    (as_bytes x ++ term_bytes (match t with NoTerminator => Lf | t => t end)
       ++ join_lines (y :: rest) t tr).
  unfold line_bytes. rewrite <-app_assoc. by destruct t.
Qed.

Lemma uniform_snoc t recs r :
  uniform t (recs ++ [r]) →
  Forall (λ x, terminator x = t) recs ∧ (terminator r = t ∨ terminator r = NoTerminator).
Proof.
  intros [Ht H]. split.
  - apply Forall_lookup. intros i x Hx. destruct (H i x) as [|[Hi _]]; [|done|].
    + by apply lookup_app_l_Some.
    + apply lookup_lt_Some in Hx. rewrite length_app in Hi. simpl in Hi. lia.
  - destruct (H (length recs) r) as [|[_ ?]]; auto. by apply list_lookup_middle.
Qed.

Lemma content_bytes recs lines t :
  mapM line_content_utf8 recs = Ok lines → Forall (λ x, terminator x = t) recs →
  concat (line_bytes t <$> lines) = concat (to_bytes <$> recs).
Proof.
  revert lines. induction recs as [|r recs IH]; intros lines Hm Ht; simpl in Hm.
  - by injection Hm as <-.
  - apply bind_Ok in Hm as (l & Hl & (ls & Hls & [= <-])%bind_Ok).
    inversion Ht as [|? ? Hr Hrs]; subst. rewrite !fmap_cons. cbn [concat].
    rewrite (IH ls) by done. f_equal. unfold line_content_utf8 in Hl.
    destruct (from_utf8 (content r)) as [l'|] eqn:E; [|done]. injection Hl as <-.
    apply from_utf8_Some in E as [E _]. unfold line_bytes, to_bytes. rewrite E.
    by destruct (terminator r).
Qed.

(** The records of a whole-file scan in key order. *)
Lemma baseline_ordered bs b :
  baseline_from_bytes bs = Some b →
  omap (λ n, records (bl_snapshot b) !! n) (btree_keys (records (bl_snapshot b)))
  = raw_line_records bs.
Proof.
  intros Hb%baseline_of. set (recs := raw_line_records bs).
  assert (∀ n, records (bl_snapshot b) !! n = rec_at recs n) as Hrec
    by (intros n; by rewrite (so_records _ _ _ Hb)).
  rewrite (btree_keys_filter _ (S (length recs))).
  2:{ intros k. rewrite Hrec. intros [x Hx]. destruct k; [lia|]. apply lookup_lt_Some in Hx. lia. }
  assert (∀ ks, omap (λ n, records (bl_snapshot b) !! n)
    (filter (λ k, is_Some (records (bl_snapshot b) !! k)) ks) = omap (rec_at recs) ks) as ->.
  { induction ks as [|k ks IH]; [done|]. rewrite filter_cons. cbn. rewrite <-Hrec.
    destruct (records (bl_snapshot b) !! k) as [x|] eqn:E.
    - rewrite decide_True by eauto. cbn. rewrite E. by f_equal.
    - rewrite decide_False; [done|]. by intros [??]. }
  assert (∀ l k (r : list RawLineRecord), (∀ i x, l !! i = Some x → r !! (k + i) = Some x) →
    omap (rec_at r) (seq (S k) (length l)) = l) as H.
  { induction l as [|x l IH]; intros k r H; [done|]. cbn.
    rewrite <-(Nat.add_0_r k) at 1. rewrite (H 0 x) by done. f_equal. apply IH.
    intros i y Hy. rewrite Nat.add_succ_comm. by apply (H (S i)). }
  apply (H recs 0 recs). done.
Qed.

Lemma count_term_zero t recs :
  (∀ i r, recs !! i = Some r → terminator r ≠ t) → count_term t recs = 0.
Proof.
  intros H. unfold count_term. apply length_zero_iff_nil, elem_of_nil_inv.
  intros r [Hr Hin]%list_elem_of_filter. apply list_elem_of_lookup in Hin as [i Hi]. by apply (H i r).
Qed.

Lemma count_term_pos t recs i r :
  recs !! i = Some r → terminator r = t → 0 < count_term t recs.
Proof.
  intros Hi Ht. unfold count_term.
  assert (r ∈ filter (λ r, terminator r = t) recs) as Hin
    by (apply list_elem_of_filter; split; [done|]; by eapply list_elem_of_lookup_2).
  destruct (filter _ _); [by apply not_elem_of_nil in Hin|simpl; lia].
Qed.

(** Whether a file ends in a terminator; an empty file counts as terminated. *)
Definition terminated (recs : list RawLineRecord) : bool :=
  match last recs with Some r => bool_decide (terminator r ≠ NoTerminator) | None => true end.

Lemma policy_ordered bs b :
  baseline_from_bytes bs = Some b → let recs := raw_line_records bs in
  terminator_policy (records (bl_snapshot b))
  = (if decide (count_term Lf recs < count_term CrLf recs) then CrLf else Lf, terminated recs).
Proof.
  intros Hb recs. unfold terminator_policy, terminated. rewrite (baseline_ordered bs b Hb). fold recs.
  f_equal. destruct (last recs) as [r|] eqn:E.
  - rewrite (bool_decide_false (records _ = ∅)), orb_false_r; [done|]. intros He.
    rewrite last_lookup in E. apply baseline_of, so_records with (n := S (pred (length recs))) in Hb.
    fold recs in Hb. rewrite He, lookup_empty in Hb. simpl in Hb. congruence.
  - apply last_None in E. rewrite bool_decide_true; [done|]. apply map_eq. intros n.
    rewrite (so_records _ _ _ (baseline_of _ _ Hb)). fold recs. rewrite E. by destruct n.
Qed.

(** On a uniform file the policy is the file's own terminator; only a file of a single
    unterminated line leaves it open. *)
Lemma uniform_policy bs b t :
  baseline_from_bytes bs = Some b → uniform t (raw_line_records bs) →
  ∃ t', terminator_policy (records (bl_snapshot b)) = (t', terminated (raw_line_records bs)) ∧
    t' ≠ NoTerminator ∧
    (t' = t ∨ raw_line_records bs = [] ∨
     ∃ r, raw_line_records bs = [r] ∧ terminator r = NoTerminator).
Proof.
  intros Hb [Ht Hu]. rewrite (policy_ordered bs b Hb). set (recs := raw_line_records bs) in *.
  eexists. split; [done|]. split; [by case_decide|].
  destruct t; [|clear Ht|done].
  - rewrite (count_term_zero CrLf); [rewrite decide_False by lia; auto|].
    intros i r Hr. destruct (Hu i r Hr) as [->|[_ ->]]; done.
  - rewrite (count_term_zero Lf).
    2:{ intros i r Hr. destruct (Hu i r Hr) as [->|[_ ->]]; done. }
    destruct recs as [|r recs]; [by auto|]. destruct (Hu 0 r eq_refl) as [Hr|[Hlen Hr]].
    + rewrite decide_True; [by auto|]. by eapply (count_term_pos _ _ 0).
    + destruct recs; [|done]. right; right. by exists r.
Qed.

(** Joining the lines of a uniform block of records, the last of which ends the file. *)
Lemma join_block t recs r lines :
  t ≠ NoTerminator → Forall (λ x, terminator x = t) recs →
  (terminator r = t ∨ terminator r = NoTerminator) →
  mapM line_content_utf8 (recs ++ [r]) = Ok lines →
  join_lines lines t (bool_decide (terminator r ≠ NoTerminator))
  = concat (to_bytes <$> (recs ++ [r])).
Proof.
  intros Ht Hrecs Hr Hm. rewrite fmap_app, concat_app. simpl. rewrite app_nil_r.
  apply mapM_Ok_app in Hm as (l1 & l2 & H1 & H2 & ->). simpl in H2.
  apply bind_Ok in H2 as (l & Hl & [= <-]). rewrite join_lines_app by done.
  erewrite content_bytes by done. f_equal.
  unfold line_content_utf8 in Hl. destruct (from_utf8 (content r)) as [l'|] eqn:E; [|done].
  injection Hl as <-. apply from_utf8_Some in E as [E _]. simpl. rewrite E. unfold to_bytes. f_equal.
  destruct Hr as [Hr|Hr]; rewrite Hr; [|done]. by destruct t.
Qed.

(** The bytes of records. *)
Definition bytes_of (recs : list RawLineRecord) : bytes := concat (to_bytes <$> recs).

(** joining undoes splitting: on a file whose lines all end in the same terminator
    (the last one possibly unterminated), joining the baseline's lines under the inferred
    terminator policy gives back the bytes of the file. *)
Theorem rejoin_roundtrip bs b t lines :
  baseline_from_bytes bs = Some b → uniform t (raw_line_records bs) →
  baseline_lines b = Ok lines → rejoin b lines = bs.
Proof.
  intros Hb Hu Hl. rewrite (baseline_lines_records bs b Hb) in Hl. unfold rejoin.
  destruct (uniform_policy bs b t Hb Hu) as (t' & -> & Ht' & Hcase).
  etrans; [|apply raw_line_records_concat]. generalize dependent (raw_line_records bs). intros recs Hu Hl Hcase.
  destruct recs as [|r recs _] using rev_ind; [by injection Hl as <-|].
  unfold terminated. rewrite last_snoc. apply uniform_snoc in Hu as [Hrs Hr].
  destruct Hcase as [->|[Hnil|(r' & Heq & Hr')]].
  - by apply join_block.
  - by apply app_nil in Hnil as [_ ?].
  - apply (app_singleton recs [r]) in Heq as [[-> [= ->]]|[_ ?]]; [|done].
    apply join_block; [done|constructor|by right|done].
Qed.

(** C13: a [PUT] inside a file leaves every byte outside its span alone: on a file with
    uniform terminators, when a line follows the span, the new bytes are the old bytes of
    the lines above, the payload rows each with the file's terminator, and the old bytes of
    the lines below. *)
Theorem put_span_bytes bs req canon b p i s e regs lines body t :
  baseline_from_bytes bs = Some b → uniform t (raw_line_records bs) →
  baseline_lines b = Ok lines → 1 ≤ s ≤ e → e < length lines →
  put_payload p true regs = Ok body →
  ∃ planned body',
    apply_section_ops req canon b [OpPut p] [MkResolvedOp i (Span (MkSpan s e))] regs
    = Ok (planned, regs) ∧
    final_bytes planned
    = bytes_of (take (s - 1) (raw_line_records bs)) ++ concat (line_bytes t <$> body')
      ++ bytes_of (drop e (raw_line_records bs)) ∧
    repaired_body lines s e body body' ∧ (pf_warnings planned = [] → body' = body).
Proof.
  intros Hb Hu Hl Hse He Hbody.
  destruct (put_span_engine req canon b p i s e regs lines body)
    as (planned & body' & Happ & Hfin & Hrep & Hw & _); [done|lia|lia|done|].
  exists planned, body'. split_and!; try done. rewrite Hfin. unfold rejoin, replace_span.
  rewrite (baseline_lines_records bs b Hb) in Hl.
  destruct (uniform_policy bs b t Hb Hu) as (t' & -> & Ht' & Hcase).
  generalize dependent (raw_line_records bs). intros recs Hu Hl Hcase.
  pose proof (mapM_Ok_length _ _ _ Hl) as Hlen.
  assert (t' = t) as ->.
  { destruct Hcase as [|[Hn|(r & Hn & _)]]; [done|..]; rewrite Hn in Hlen; simpl in Hlen; lia. }
  clear Hcase. destruct recs as [|r recs _] using rev_ind; [simpl in Hlen; lia|].
  rewrite length_app in Hlen. simpl in Hlen. apply uniform_snoc in Hu as [Hrs Hr].
  unfold terminated. rewrite last_snoc.
  destruct (mapM_Ok_take_drop _ _ _ (s - 1) Hl) as [Htake _].
  destruct (mapM_Ok_take_drop _ _ _ e Hl) as [_ Hdrop].
  rewrite drop_app_le in Hdrop |- * by lia. rewrite take_app_le in Htake |- * by lia.
  rewrite app_assoc, join_lines_app.
  2:{ by destruct t. }
  2:{ intros Hn%(f_equal length). rewrite length_drop in Hn. simpl in Hn. lia. }
  rewrite fmap_app, concat_app, <-app_assoc. unfold bytes_of. f_equal; [|f_equal].
  - apply content_bytes; [done|]. by apply Forall_take.
  - apply join_block; [done|by apply Forall_drop|done|done].
Qed.

(** ** Concrete runs *)

(** Text lines, each ended by a line feed. *)
Definition lf_file (lines : list str) : bytes := concat ((λ l, l ++ [LF]) <$> lines).
Definition sample_lines : list str := [lit "a"; lit "b"; lit "c"; lit "d"].
Definition sample_put (body : list str) : PutOperation := MkPut AddrBof (FromText body) 2.

Lemma sample_baseline_lines b :
  baseline_from_bytes (lf_file sample_lines) = Some b → baseline_lines b = Ok sample_lines.
Proof. intros Hb. vm_compute in Hb. injection Hb as <-. vm_compute. reflexivity. Qed.

Lemma sample_uniform : uniform Lf (raw_line_records (lf_file sample_lines)).
Proof.
  split; [done|]. intros i r Hr. left. revert i r Hr. apply Forall_lookup. by_compute.
Qed.

Lemma put_span_spec_witness :
  ∃ b planned, baseline_from_bytes (lf_file sample_lines) = Some b ∧
    apply_section_ops (lit "f") [lit "f"] b [OpPut (sample_put [lit "X"; lit "Y"; lit "Z"])]
      [MkResolvedOp 0 (Span (MkSpan 2 3))] (stage registers_new) = Ok (planned, stage registers_new) ∧
    remove_file planned = false.
Proof.
  destruct (baseline_from_bytes (lf_file sample_lines)) as [b|] eqn:Hb; [|vm_compute in Hb; discriminate Hb].
  destruct (put_span_spec (lit "f") [lit "f"] b (sample_put [lit "X"; lit "Y"; lit "Z"]) 0 2 3
    (stage registers_new) sample_lines [lit "X"; lit "Y"; lit "Z"])
    as (planned & body' & H1 & _ & _ & _ & H2 & _);
    [by apply sample_baseline_lines|lia|simpl; lia|reflexivity|].
  exists b, planned. split; [reflexivity|]. split; [exact H1|exact H2].
Defined.

Lemma put_span_bytes_witness :
  ∃ b planned body', baseline_from_bytes (lf_file sample_lines) = Some b ∧
    apply_section_ops (lit "f") [lit "f"] b [OpPut (sample_put [lit "X"])]
      [MkResolvedOp 0 (Span (MkSpan 2 3))] (stage registers_new) = Ok (planned, stage registers_new) ∧
    final_bytes planned = lf_file [lit "a"] ++ concat (line_bytes Lf <$> body') ++ lf_file [lit "d"].
Proof.
  destruct (baseline_from_bytes (lf_file sample_lines)) as [b|] eqn:Hb; [|vm_compute in Hb; discriminate Hb].
  destruct (put_span_bytes (lf_file sample_lines) (lit "f") [lit "f"] b (sample_put [lit "X"]) 0 2 3
    (stage registers_new) sample_lines [lit "X"] Lf)
    as (planned & body' & H1 & H2 & _);
    [exact Hb|exact sample_uniform|by apply sample_baseline_lines|lia|simpl; lia|reflexivity|].
  exists b, planned, body'. split; [reflexivity|]. split; [exact H1|]. exact H2.
Defined.

Lemma rejoin_roundtrip_witness :
  ∃ b, baseline_from_bytes (lf_file sample_lines) = Some b ∧
    rejoin b sample_lines = lf_file sample_lines.
Proof.
  destruct (baseline_from_bytes (lf_file sample_lines)) as [b|] eqn:Hb; [|vm_compute in Hb; discriminate Hb].
  exists b. split; [reflexivity|].
  apply (rejoin_roundtrip _ b Lf); [exact Hb|exact sample_uniform|by apply sample_baseline_lines].
Defined.

Lemma cut_span_spec_witness :
  ∃ b planned regs', baseline_from_bytes (lf_file sample_lines) = Some b ∧
    apply_section_ops (lit "f") [lit "f"] b [OpCut (MkCut (AddrLine (Absolute 2)) None 2)]
      [MkResolvedOp 0 (Span (MkSpan 2 3))] (stage registers_new) = Ok (planned, regs') ∧
    get_register (working regs') Anonymous = Some [lit "b"; lit "c"] ∧
    final_bytes planned = rejoin b [lit "a"; lit "d"].
Proof.
  destruct (baseline_from_bytes (lf_file sample_lines)) as [b|] eqn:Hb; [|vm_compute in Hb; discriminate Hb].
  pose proof (cut_span_spec (lit "f") [lit "f"] b (MkCut (AddrLine (Absolute 2)) None 2) 0 2 3
    (stage registers_new) sample_lines (sample_baseline_lines b Hb) ltac:(lia) ltac:(simpl; lia)) as H.
  destruct (capture _ _ _) as [regs'|] eqn:Hc; [|vm_compute in Hc; discriminate Hc].
  destruct H as (planned & H1 & H2 & _). exists b, planned, regs'. split; [reflexivity|].
  split; [exact H1|]. split; [|exact H2]. vm_compute in Hc. injection Hc as <-. reflexivity.
Defined.

Lemma put_gap_spec_witness :
  ∃ b planned, baseline_from_bytes (lf_file sample_lines) = Some b ∧
    apply_section_ops (lit "f") [lit "f"] b [OpPut (sample_put [lit "X"])]
      [MkResolvedOp 0 (Gap (MkGap (Some 1) (Some 2)))] (stage registers_new)
    = Ok (planned, stage registers_new) ∧
    final_bytes planned = rejoin b [lit "a"; lit "X"; lit "b"; lit "c"; lit "d"].
Proof.
  destruct (baseline_from_bytes (lf_file sample_lines)) as [b|] eqn:Hb; [|vm_compute in Hb; discriminate Hb].
  destruct (put_gap_spec (lit "f") [lit "f"] b (sample_put [lit "X"]) 0 (MkGap (Some 1) (Some 2))
    (stage registers_new) sample_lines [lit "X"]) as (planned & H1 & H2 & _);
    [by apply sample_baseline_lines|simpl; lia|simpl; congruence|reflexivity|].
  exists b, planned. split; [reflexivity|]. split; [exact H1|exact H2].
Defined.

(** ** Surprises *)

(** The final bytes of a single-section run on a file. *)
Definition run (file : bytes) (ops : list Operation) (addresses : list ResolvedAddress) :
    option bytes :=
  b ← baseline_from_bytes file;
  match apply_section_ops (lit "f") [lit "f"] b ops (imap MkResolvedOp addresses)
    (stage registers_new) with
  | Ok (planned, _) => Some (final_bytes planned)
  | Err _ => None
  end.

(** The boundary-echo layer compares a body with the original neighbours of its span, also
    when another operation of the section deletes them: replacing lines 2 and 3 by
    [header, x] next to a [CUT] of the old [header] line leaves no [header] at all. *)
Theorem echo_repair_ignores_sibling_cut :
  run (lf_file [lit "header"; lit "a"; lit "b"])
    [OpCut (MkCut (AddrLine (Absolute 1)) None 2); OpPut (sample_put [lit "header"; lit "x"])]
    [Span (MkSpan 1 1); Span (MkSpan 2 3)]
  = Some (lf_file [lit "x"]).
Proof. vm_compute. reflexivity. Qed.

(** Verification does not pin the end of the file: a gap after what was the last line when
    it was read stays exact when the file has since grown, and its payload then lands after
    the new lines instead of after the anchor. *)
Theorem end_gap_follows_file_growth :
  ∃ s b, scan_bytes (lf_file [lit "a"]) = Some s ∧
    baseline_from_bytes (lf_file [lit "a"; lit "new"]) = Some b ∧
    resolve_address (AddrGap GapAfter (Absolute 1)) s = Ok (Gap (MkGap (Some 1) None)) ∧
    verify_exact s b (Gap (MkGap (Some 1) None)) = Exact ∧
    run (lf_file [lit "a"; lit "new"]) [OpPut (sample_put [lit "X"])] [Gap (MkGap (Some 1) None)]
    = Some (lf_file [lit "a"; lit "new"; lit "X"]).
Proof.
  destruct (scan_bytes (lf_file [lit "a"])) as [s|] eqn:Hs; [|vm_compute in Hs; discriminate Hs].
  destruct (baseline_from_bytes (lf_file [lit "a"; lit "new"])) as [b|] eqn:Hb;
    [|vm_compute in Hb; discriminate Hb].
  exists s, b. split_and!; try reflexivity;
    vm_compute in Hs; injection Hs as <-; vm_compute in Hb; injection Hb as <-; reflexivity.
Qed.

End ApplySpec.
