(* ===== verification/PlanSpec.v ===== *)
(** * Plans and the register gate

    What a successful plan guarantees about verification, baselines and files, how the
    composition of repeated sections frames its state, and when registers are committed. *)

From S2P Require Import Prelude RustStr Scan SnapshotStore Rejection Syntax Address LineEdits.
From S2P Require Import Registers Region Repair Apply ApplySpec.
Import Scan Rejection Syntax Address LineEdits Registers Region Repair Apply ApplySpec.

Module PlanSpec.

(** ** Frames *)

Lemma lift_Ok {A} (r : result HashlineRejection A) a : lift r = Ok a → r = Ok a.
Proof. destruct r; simpl; naive_solver. Qed.

Lemma capture_base regs r lines regs' : capture regs r lines = Ok regs' → base regs' = base regs.
Proof. unfold capture. intros (u & _ & (w & _ & [= <-])%bind_Ok)%bind_Ok. done. Qed.

Lemma lower_operations_base ops rs lines regs edits regs' :
  lower_operations ops rs lines regs = Ok (edits, regs') → base regs' = base regs.
Proof.
  revert rs regs edits regs'. induction ops as [|op ops IH]; intros [|r rs] regs edits regs' H;
    simpl in H; [naive_solver..|].
  apply bind_Ok in H as ([es regs1] & Hop & ([rest regs2] & Hrest & [= <- <-])%bind_Ok).
  apply IH in Hrest as ->. destruct op as [p|c|o|o]; [| |done|done].
  - apply bind_Ok in Hop as (es' & _ & [= <- <-]). done.
  - apply lift_Ok in Hop. unfold lower_cut in Hop.
    destruct (ro_address r) as [|sp| | |]; [|..|done|done|done].
    + destruct lines as [|l ls]; [by injection Hop as <- <-|].
      apply bind_Ok in Hop as (regs' & Hc & [= <- <-]). by apply capture_base in Hc.
    + apply bind_Ok in Hop as (regs' & Hc & [= <- <-]). by apply capture_base in Hc.
Qed.

(** A planned file names the section's path and baseline. *)
Lemma apply_section_ops_frame req canon b ops rs regs planned regs' :
  apply_section_ops req canon b ops rs regs = Ok (planned, regs') →
  pf_canonical_path planned = canon ∧ pf_requested_path planned = req ∧
  pf_baseline_bytes planned = bl_bytes b ∧ base regs' = base regs.
Proof.
  unfold apply_section_ops. case_bool_decide; [done|].
  assert (∀ x, (if existsb is_mv ops
    then Err (Refused (parse_error (msg "MV is not handled by the line-apply engine")))
    else x) = Ok (planned, regs') → x = Ok (planned, regs')) as Hmv by (destruct (existsb is_mv ops); naive_solver).
  assert (∀ k, (lines ← lift (baseline_lines b);
     let '(default_term, trailing) := terminator_policy (records (bl_snapshot b)) in
     '(edits, regs) ← lower_operations ops rs lines regs; k lines default_term trailing edits regs)
    = Ok (planned, regs') →
    ∃ lines t tr edits regs1, base regs1 = base regs ∧ k lines t tr edits regs1 = Ok (planned, regs')) as Hk.
  { intros k. destruct (terminator_policy _) as [t tr].
    intros (lines & _ & ([edits regs1] & Hlow & Hx)%bind_Ok)%bind_Ok.
    apply lower_operations_base in Hlow. eauto 10. }
  destruct ops as [|[p|c|o|o] rest].
  4:{ destruct rest; [intros [= <- <-]; done|done]. }
  all: intros (lines & t & tr & edits & regs1 & <- & [= <- <-])%Hmv%Hk; done.
Qed.

(** The parts of a composition that no operation changes. *)
Definition same_file (st st' : CompositionState) : Prop :=
  cs_canonical_path st' = cs_canonical_path st ∧ cs_requested_path st' = cs_requested_path st ∧
  cs_original st' = cs_original st.

#[export] Instance same_file_preorder : PreOrder same_file.
Proof.
  split; [by repeat split|]. intros ??? (?&?&?) (?&?&?). split_and!; congruence.
Qed.

Lemma update_origins_same_file st op o c name n m st' :
  update_origins st op o c name n m = Ok st' → same_file st st'.
Proof.
  unfold update_origins. intros H.
  destruct op; [destruct o, c; try (by injection H as <-)|destruct o, c; try (by injection H as <-)|..].
  all: repeat match type of H with
    | context [if ?x then _ else _] => destruct x
    end; try done; try (by injection H as <-);
    apply bind_Ok in H as (os & _ & [= <-]); done.
Qed.

Lemma apply_operation_frame st op r regs st' regs' :
  apply_operation st op r regs = Ok (st', regs') → same_file st st' ∧ base regs' = base regs.
Proof.
  unfold apply_operation. destruct (removed_by st); [done|].
  intros (cur & _ & ([planned regs1] & Happ & (after & _ & (st1 & Hu & [= <- <-])%bind_Ok)%bind_Ok)%bind_Ok)%bind_Ok.
  apply apply_section_ops_frame in Happ as (_ & _ & _ & Hbase).
  apply update_origins_same_file in Hu. done.
Qed.

Lemma apply_section_frame st i regs st' regs' :
  apply_section st i regs = Ok (st', regs') → same_file st st' ∧ base regs' = base regs.
Proof.
  unfold apply_section. case_bool_decide; [done|].
  generalize (si_operations i) (si_resolved i). clear i H. intros ops. revert st regs.
  induction ops as [|op ops IH]; intros st regs [|r rs] Hx; simpl in Hx; [by injection Hx as <- <-..|].
  apply bind_Ok in Hx as ([st1 regs1] & Hop & Hx).
  apply apply_operation_frame in Hop as [Hs Hb]. apply IH in Hx as [Hs' Hb'].
  split; [by etrans|congruence].
Qed.

(** ** Verification before planning *)

(** How many sections name a path. *)
Definition occurrences (p : PathBuf) (sections : list SectionPlanInput) : nat :=
  length (filter (λ i, si_canonical_path i = p) sections).

Lemma occurrences_cons p i sections :
  occurrences p (i :: sections)
  = (if decide (si_canonical_path i = p) then 1 else 0) + occurrences p sections.
Proof. unfold occurrences. rewrite filter_cons. by case_decide. Qed.

(** Every address of a section was verified against its baseline without relocation. *)
Definition section_exact (i : SectionPlanInput) : Prop :=
  ∀ r, r ∈ si_resolved i → verify_exact (si_snapshot i) (si_baseline i) (ro_address r) = Exact.

Lemma require_all_exact_spec block s b addresses :
  require_all_exact block s b addresses = Ok tt ↔ ∀ a, a ∈ addresses → verify_exact s b a = Exact.
Proof.
  induction addresses as [|a addresses IH]; simpl.
  - split; [|done]. intros _ a Ha. by apply not_elem_of_nil in Ha.
  - unfold require_exact. destruct (verify_exact s b a) eqn:E; simpl; setoid_rewrite elem_of_cons.
    + rewrite IH. naive_solver.
    + split; [done|]. intros H. specialize (H a (or_introl eq_refl)). congruence.
    + split; [done|]. intros H. specialize (H a (or_introl eq_refl)). congruence.
    + split; [done|]. intros H. specialize (H a (or_introl eq_refl)). congruence.
Qed.

Lemma verify_sections_spec sections counts baselines counts' :
  verify_sections sections counts baselines = Ok counts' →
  (∀ p, default 0 (counts' !! p) = default 0 (counts !! p) + occurrences p sections) ∧
  Forall section_exact sections ∧
  (∀ i bs, i ∈ sections → baselines !! si_canonical_path i = Some bs → bl_bytes (si_baseline i) = bs) ∧
  ∀ i j, i ∈ sections → j ∈ sections → si_canonical_path i = si_canonical_path j →
    bl_bytes (si_baseline i) = bl_bytes (si_baseline j).
Proof.
  revert counts baselines. induction sections as [|i sections IH]; intros counts baselines H; simpl in H.
  - injection H as <-. split_and!; [intros; unfold occurrences; simpl; lia|constructor|..];
      intros i ? Hi; by apply not_elem_of_nil in Hi.
  - apply bind_Ok in H as (bl & Hbl & ([] & Hex & H)%bind_Ok).
    unfold verify_section_against_pre_request_baseline in Hex.
    rewrite require_all_exact_spec in Hex.
    apply IH in H as (Hc & Hall & Hb & Hsame).
    assert (bl !! si_canonical_path i = Some (bl_bytes (si_baseline i)) ∧
      ∀ p bs, baselines !! p = Some bs → bl !! p = Some bs) as [Hi Hmono].
    { destruct (baselines !! si_canonical_path i) as [bs|] eqn:E.
      - case_decide; [|done]. injection Hbl as <-. subst. done.
      - injection Hbl as <-. split; [apply lookup_insert_eq|]. intros p bs Hp.
        rewrite lookup_insert_ne; [done|]. congruence. }
    split_and!.
    + intros p. rewrite Hc, occurrences_cons. case_decide as Hp.
      * rewrite <-Hp, lookup_insert_eq. simpl. lia.
      * by rewrite lookup_insert_ne by done.
    + constructor; [|done]. intros r Hr. apply Hex. apply list_elem_of_fmap. eauto.
    + intros j bs [->|Hj]%elem_of_cons Hl; [apply Hmono in Hl; congruence|eauto].
    + intros j k [->|Hj]%elem_of_cons [->|Hk]%elem_of_cons Hp; [done| | |eauto].
      * symmetry. apply (Hb k); [done|]. by rewrite <-Hp.
      * apply (Hb j); [done|]. by rewrite Hp.
Qed.

(** ** One slot per path *)

(** Distinct paths in order of first mention. *)
Definition add_path (acc : list PathBuf) (p : PathBuf) : list PathBuf :=
  if decide (p ∈ acc) then acc else acc ++ [p].
Definition distinct_paths (sections : list SectionPlanInput) : list PathBuf :=
  foldl add_path [] (si_canonical_path <$> sections).

Lemma distinct_paths_snoc sections i :
  distinct_paths (sections ++ [i]) = add_path (distinct_paths sections) (si_canonical_path i).
Proof. unfold distinct_paths. by rewrite fmap_app, foldl_app. Qed.

Lemma elem_of_distinct_paths p sections :
  p ∈ distinct_paths sections ↔ ∃ i, i ∈ sections ∧ si_canonical_path i = p.
Proof.
  induction sections as [|j sections IH] using rev_ind.
  - split; [by intros ?%not_elem_of_nil|]. by intros (i & ?%not_elem_of_nil & _).
  - rewrite distinct_paths_snoc. unfold add_path. setoid_rewrite elem_of_app.
    setoid_rewrite list_elem_of_singleton.
    case_decide as Hd; [|rewrite elem_of_app, list_elem_of_singleton]; rewrite IH in *; naive_solver.
Qed.

Definition slot_path (s : ApplyPlanSlot) : PathBuf :=
  match s with Complete f => pf_canonical_path f | Composing st => cs_canonical_path st end.
Definition slot_bytes (s : ApplyPlanSlot) : bytes :=
  match s with Complete f => pf_baseline_bytes f | Composing st => bl_bytes (cs_original st) end.

(** The slots after the sections [seen]. *)
Record plan_inv (seen : list SectionPlanInput) (slots : list ApplyPlanSlot)
    (index : gmap PathBuf nat) : Prop := {
  pi_paths : slot_path <$> slots = distinct_paths seen;
  pi_index : ∀ p k, index !! p = Some k ↔ distinct_paths seen !! k = Some p;
  pi_bytes : ∀ s, s ∈ slots →
    ∃ i, i ∈ seen ∧ si_canonical_path i = slot_path s ∧ bl_bytes (si_baseline i) = slot_bytes s }.

(** A new path takes the next slot. *)
Lemma plan_inv_snoc seen slots index i slot :
  plan_inv seen slots index → si_canonical_path i ∉ distinct_paths seen →
  slot_path slot = si_canonical_path i → slot_bytes slot = bl_bytes (si_baseline i) →
  plan_inv (seen ++ [i]) (slots ++ [slot]) (<[si_canonical_path i := length slots]> index).
Proof.
  intros [Hp Hi Hb] Hnew Hpath Hbytes.
  assert (length slots = length (distinct_paths seen)) as Hlen by (by rewrite <-Hp, length_fmap).
  assert (distinct_paths (seen ++ [i]) = distinct_paths seen ++ [si_canonical_path i]) as Hd
    by (rewrite distinct_paths_snoc; unfold add_path; by rewrite decide_False by done).
  split.
  - rewrite fmap_app, Hp, Hd. simpl. by rewrite Hpath.
  - intros p k. rewrite Hd, lookup_app, lookup_insert, Hlen.
    case_decide as Hpp.
    + subst p. split; [intros [= <-]|].
      * by rewrite lookup_ge_None_2, Nat.sub_diag by lia.
      * destruct (distinct_paths seen !! k) as [q|] eqn:E.
        { intros [= ->]. by apply list_elem_of_lookup_2 in E. }
        intros Hk. apply lookup_ge_None in E. apply lookup_lt_Some in Hk as Hk'. simpl in Hk'.
        f_equal. lia.
    + rewrite Hi. destruct (distinct_paths seen !! k) as [q|] eqn:E; [done|]. split; [done|].
      destruct (k - length (distinct_paths seen)); naive_solver.
  - intros s [Hs| ->%list_elem_of_singleton]%elem_of_app.
    + destruct (Hb s Hs) as (j & Hj & ?). exists j. split; [|done]. apply elem_of_app. by left.
    + exists i. split; [|done]. apply elem_of_app. right. by left.
Qed.

(** A known path keeps its slot. *)
Lemma plan_inv_again seen slots index i :
  plan_inv seen slots index → si_canonical_path i ∈ distinct_paths seen →
  plan_inv (seen ++ [i]) slots index.
Proof.
  intros [Hp Hi Hb] Hin.
  assert (distinct_paths (seen ++ [i]) = distinct_paths seen) as Hd
    by (rewrite distinct_paths_snoc; unfold add_path; by rewrite decide_True by done).
  split; rewrite ?Hd; [done|done|]. intros s Hs. destruct (Hb s Hs) as (j & Hj & ?).
  exists j. split; [|done]. apply elem_of_app. by left.
Qed.

(** Rewriting a slot in place. *)
Lemma plan_inv_insert seen slots index k s s' :
  plan_inv seen slots index → slots !! k = Some s → slot_path s' = slot_path s →
  slot_bytes s' = slot_bytes s → plan_inv seen (<[k := s']> slots) index.
Proof.
  intros [Hp Hi Hb] Hk Hpath Hbytes. split; [|done|].
  - rewrite list_fmap_insert, list_insert_id, Hp; [done|]. by rewrite list_lookup_fmap, Hk, Hpath.
  - intros x (j & Hj)%list_elem_of_lookup.
    apply list_lookup_insert_Some in Hj as [(_ & <- & _)|[_ Hj]].
    + rewrite Hpath, Hbytes. by eapply Hb, list_elem_of_lookup_2.
    + by eapply Hb, list_elem_of_lookup_2.
Qed.

Lemma occurrences_pos i sections : i ∈ sections → 0 < occurrences (si_canonical_path i) sections.
Proof.
  intros Hi. unfold occurrences.
  assert (i ∈ filter (λ j, si_canonical_path j = si_canonical_path i) sections) as Hin
    by (by apply list_elem_of_filter).
  destruct (filter _ _); [by apply not_elem_of_nil in Hin|simpl; lia].
Qed.

Lemma plan_sections_spec counts rest seen slots index regs slots' regs' :
  plan_inv seen slots index →
  (∀ p, default 0 (counts !! p) = occurrences p (seen ++ rest)) →
  plan_sections counts rest slots index regs = Ok (slots', regs') →
  (∃ index', plan_inv (seen ++ rest) slots' index') ∧ base regs' = base regs.
Proof.
  revert seen slots index regs.
  induction rest as [|i rest IH]; intros seen slots index regs Hinv Hcount H; simpl in H.
  { injection H as <- <-. rewrite app_nil_r. eauto. }
  rewrite cons_middle, app_assoc in Hcount |- *. case_decide as Hone.
  - apply bind_Ok in H as ([planned regs1] & Happ & H).
    apply apply_section_ops_frame in Happ as (Hp & _ & Hb & Hbase).
    apply IH with (seen := seen ++ [i]) in H as [Hx Hbase']; [|..|done].
    + split; [done|congruence].
    + apply plan_inv_snoc; try done. intros (j & Hj & Hpj)%elem_of_distinct_paths.
      rewrite Hcount in Hone. unfold occurrences in Hone.
      rewrite !filter_app, !length_app, filter_cons, decide_True in Hone by done. simpl in Hone.
      apply occurrences_pos in Hj. rewrite Hpj in Hj. unfold occurrences in Hj. lia.
  - destruct (index !! si_canonical_path i) as [k|] eqn:Hk.
    + destruct (slots !! k) as [[f|st]|] eqn:Hslot; [done| |done].
      apply bind_Ok in H as ([st1 regs1] & Happ & H).
      apply apply_section_frame in Happ as [(H1 & H2 & H3) Hbase].
      apply IH with (seen := seen ++ [i]) in H as [Hx Hbase']; [|..|done]; [split; [done|congruence]|].
      eapply plan_inv_insert; [|done|by simpl|by simpl; rewrite H3].
      apply plan_inv_again; [done|]. eapply list_elem_of_lookup_2. by apply (pi_index _ _ _ Hinv).
    + rewrite list_lookup_middle in H by done.
      apply bind_Ok in H as ([st1 regs1] & Happ & H).
      apply apply_section_frame in Happ as [(H1 & H2 & H3) Hbase].
      apply IH with (seen := seen ++ [i]) in H as [Hx Hbase']; [|..|done]; [split; [done|congruence]|].
      eapply plan_inv_insert; [|by apply list_lookup_middle|by simpl|by simpl; rewrite H3].
      apply plan_inv_snoc; [done| |done|done]. intros (k & Hin)%list_elem_of_lookup.
      apply (pi_index _ _ _ Hinv) in Hin. congruence.
Qed.

Lemma finish_slot_frame s f :
  finish_slot s = Ok f → pf_canonical_path f = slot_path s ∧ pf_baseline_bytes f = slot_bytes s.
Proof.
  destruct s as [g|st]; simpl; [by intros [= <-]|]. unfold composition_finish.
  intros (a & _ & [= <-])%bind_Ok. done.
Qed.

Lemma plan_apply_spec sections session plan :
  plan_apply sections session = Ok plan →
  Forall section_exact sections ∧
  pf_canonical_path <$> files plan = distinct_paths sections ∧
  (∀ i f, i ∈ sections → f ∈ files plan → si_canonical_path i = pf_canonical_path f →
    bl_bytes (si_baseline i) = pf_baseline_bytes f) ∧
  base (staged_registers plan) = session.
Proof.
  unfold plan_apply.
  intros (counts & Hv%lift_Ok & ([slots regs] & Hp & (planned & Hm & [= <-])%bind_Ok)%bind_Ok)%bind_Ok.
  apply verify_sections_spec in Hv as (Hcount & Hexact & _ & Hsame).
  apply plan_sections_spec with (seen := []) in Hp as [(index & [Hpaths _ Hbytes]) Hbase]; [|..|done].
  2:{ split; [done| |by intros s ?%not_elem_of_nil]. intros p k. by rewrite lookup_empty. }
  simpl in *. split; [done|].
  assert (∀ k f, planned !! k = Some f → ∃ s, slots !! k = Some s ∧
    pf_canonical_path f = slot_path s ∧ pf_baseline_bytes f = slot_bytes s) as Hfin.
  { intros k f Hf. destruct (lookup_lt_is_Some_2 slots k) as [s Hs].
    - rewrite <-(mapM_Ok_length _ _ _ Hm). by eapply lookup_lt_Some.
    - exists s. split; [done|]. apply finish_slot_frame.
      destruct (mapM_Ok_lookup _ _ _ _ _ Hm Hs) as (f' & Hf' & Hfin). congruence. }
  split_and!; [|..|done].
  - rewrite <-Hpaths. apply list_eq. intros k. rewrite !list_lookup_fmap.
    destruct (planned !! k) as [f|] eqn:Hf; simpl.
    + destruct (Hfin k f Hf) as (s & -> & -> & _). done.
    + apply lookup_ge_None in Hf. rewrite (mapM_Ok_length _ _ _ Hm) in Hf.
      by rewrite lookup_ge_None_2.
  - intros i f Hi (k & Hf)%list_elem_of_lookup Hpath.
    destruct (Hfin k f Hf) as (s & Hs & Hsp & ->). rewrite Hsp in Hpath.
    destruct (Hbytes s) as (j & Hj & Hjp & <-); [by eapply list_elem_of_lookup_2|].
    apply Hsame; congruence || done.
Qed.

(** a plan rests on verified reads: when planning succeeds, every address of every
    section was verified exact against the pre-request baseline before any operation ran;
    all sections of one path share one baseline, and that baseline is the one the planned
    file records; there is exactly one planned file per path, in order of first mention;
    and the session's registers have not been touched. *)
Theorem plan_apply_sound sections session plan :
  plan_apply sections session = Ok plan →
  Forall section_exact sections ∧
  pf_canonical_path <$> files plan = distinct_paths sections ∧
  (∀ i f, i ∈ sections → f ∈ files plan → si_canonical_path i = pf_canonical_path f →
    bl_bytes (si_baseline i) = pf_baseline_bytes f) ∧
  base (staged_registers plan) = session.
Proof. apply plan_apply_spec. Qed.

(** ** Phase 2 *)

(** What the run reports for file [k]. *)
Definition expected_result (fail_at : option (nat * FileClassification)) (k : nat) (f : PlannedFile)
    (r : FileResult) : Prop :=
  fr_canonical_path r = pf_canonical_path f ∧ fr_requested_path r = pf_requested_path f ∧
  match fail_at with
  | Some (n, c) =>
      (k < n → classification r = Applied ∧ fr_final_bytes r = Some (final_bytes f)) ∧
      (k = n → classification r = c ∧ fr_mutation_state r = mutation_state c ∧ fr_final_bytes r = None) ∧
      (n < k → classification r = NotAttempted ∧ fr_mutation_state r = Unmutated ∧
        fr_final_bytes r = None)
  | None => classification r = Applied ∧ fr_final_bytes r = Some (final_bytes f)
  end.

Lemma phase2_files_spec fail_at stopped index fs k f :
  stopped = match fail_at with Some (n, _) => n <? index | None => false end →
  fs !! k = Some f →
  ∃ r, phase2_files fail_at stopped index fs !! k = Some r ∧ expected_result fail_at (index + k) f r.
Proof.
  revert stopped index k. induction fs as [|g fs IH]; intros stopped index k Hst Hk; [done|].
  simpl. destruct (phase2_file fail_at stopped index g) as [r stopped'] eqn:Hr.
  assert (stopped' = match fail_at with Some (n, _) => n <? S index | None => false end ∧
    expected_result fail_at index g r) as [Hst' He].
  { unfold phase2_file, expected_result in *. destruct fail_at as [[n c]|]; subst stopped.
    - destruct (n <? index) eqn:E; breflect; rewrite ?Nat.ltb_lt, ?Nat.ltb_ge in E.
      + injection Hr as <- <-. simpl. split; [symmetry; apply Nat.ltb_lt; lia|].
        split_and!; try done; intros; lia.
      + case_decide; injection Hr as <- <-; simpl.
        * split; [symmetry; apply Nat.ltb_lt; lia|]. split_and!; try done; intros; lia.
        * split; [symmetry; apply Nat.ltb_ge; lia|]. split_and!; try done; intros; lia.
    - injection Hr as <- <-. done. }
  destruct k as [|k]; simpl in *.
  - injection Hk as <-. exists r. by rewrite Nat.add_0_r.
  - destruct (IH stopped' (S index) k Hst' Hk) as (r' & Hr' & He').
    exists r'. by rewrite Nat.add_succ_comm in He'.
Qed.

Lemma length_phase2_files fail_at stopped index fs :
  length (phase2_files fail_at stopped index fs) = length fs.
Proof.
  revert stopped index. induction fs as [|f fs IH]; intros stopped index; [done|]. simpl.
  destruct (phase2_file fail_at stopped index f). simpl. by rewrite IH.
Qed.

Lemma filter_all_length {A} (p : A → bool) l :
  bool_decide (length (filter (λ x, p x = true) l) = length l) = forallb p l.
Proof.
  induction l as [|x l IH]; [done|]. rewrite filter_cons. simpl.
  pose proof (length_filter (λ x, p x = true) l) as Hle.
  destruct (p x) eqn:E; simpl.
  - rewrite <-IH. apply bool_decide_ext. simpl. lia.
  - apply bool_decide_eq_false. lia.
Qed.

(** phase 2 stops at the first failure and publishes registers only on a complete run:
    each planned file has one result in order; files before the failure are applied with
    their planned bytes, the failing file carries its classification and mutation state,
    later files are not attempted and unmutated; the run is complete exactly when there are
    results and all of them are applied, and then, and only then, the session holds the
    staged registers; otherwise it is unchanged. *)
Theorem phase2_stops_and_gates plan session fail_at :
  let '(env, session') := simulate_phase2 plan session fail_at in
  length (ar_files env) = length (files plan) ∧
  (∀ k f, files plan !! k = Some f →
    ∃ r, ar_files env !! k = Some r ∧ expected_result fail_at k f r) ∧
  (complete env = true ↔
    files plan ≠ [] ∧ ∀ r, r ∈ ar_files env → is_applied_star (classification r) = true) ∧
  registers_committed env = complete env ∧
  session' = if complete env then working (staged_registers plan) else session.
Proof.
  unfold simulate_phase2, commit_registers_if_complete.
  set (rs := phase2_files fail_at false 0 (files plan)). set (cs := classification <$> rs).
  assert (bool_decide (cs = []) = bool_decide (files plan = [])) as Hnil.
  { apply bool_decide_ext. unfold cs, rs.
    by rewrite <-!length_zero_iff_nil, length_fmap, length_phase2_files. }
  rewrite (andb_comm (bool_decide _) (negb _)), filter_all_length.
  assert (∀ b : bool, b = negb (bool_decide (cs = [])) && forallb is_applied_star cs →
    (b = true ↔ files plan ≠ [] ∧ ∀ r, r ∈ rs → is_applied_star (classification r) = true)) as Hall.
  { intros b ->. rewrite andb_true_iff, negb_true_iff, Hnil, bool_decide_eq_false, forallb_elem_of.
    unfold cs. split; intros [H1 H2]; (split; [done|]).
    - intros r Hr. apply H2, list_elem_of_fmap. eauto.
    - intros c (r & -> & Hr)%list_elem_of_fmap. auto. }
  assert (∀ k f, files plan !! k = Some f → ∃ r, rs !! k = Some r ∧ expected_result fail_at k f r) as Hrs.
  { intros k f Hk. apply (phase2_files_spec fail_at false 0); [by destruct fail_at as [[n c]|]|done]. }
  destruct (negb (bool_decide (cs = [])) && forallb is_applied_star cs); simpl;
    (split_and!; [apply length_phase2_files|done|by apply Hall|done|done]).
Qed.

(** Two sections of one file, composed into one planned file. *)
Definition sample_section (op : Operation) (a : ResolvedAddress) : option SectionPlanInput :=
  b ← baseline_from_bytes (lf_file sample_lines);
  Some (MkInput [lit "f"] (lit "f") b (bl_snapshot b) [op] [MkResolvedOp 0 a]).

Definition sample_sections : list SectionPlanInput :=
  option_list (sample_section (OpPut (sample_put [lit "X"; lit "Y"])) (Span (MkSpan 2 2)))
  ++ option_list (sample_section (OpCut (MkCut (AddrLine (Absolute 4)) None 3)) (Span (MkSpan 4 4))).

Lemma plan_apply_sound_witness :
  ∃ plan, plan_apply sample_sections registers_new = Ok plan ∧
    pf_canonical_path <$> files plan = [[lit "f"]] ∧
    final_bytes <$> files plan = [lf_file [lit "a"; lit "X"; lit "Y"; lit "c"]].
Proof.
  destruct (plan_apply sample_sections registers_new) as [plan|e] eqn:Hp.
  - exists plan. split; [reflexivity|].
    destruct (plan_apply_sound sample_sections registers_new plan Hp) as (_ & Hpaths & _).
    split; [exact Hpaths|]. vm_compute in Hp. injection Hp as <-. reflexivity.
  - exfalso. apply (f_equal is_err) in Hp. vm_compute in Hp. discriminate Hp.
Defined.

End PlanSpec.
