(* ===== verification/TransactionSpec.v ===== *)
(** * What a transaction does to the disk

    Against any journal that leaves project files alone: a move never loses bytes, a step that
    fails before its write changes nothing, and without failures an execution implements the
    abstract effect of its plan on the files. *)

From S2P Require Import Prelude RustStr XxHash Scan SnapshotStore Rejection Syntax Address LineEdits.
From S2P Require Import Registers Region ReadCapture Repair Apply PlanSpec FileSys SourceWrite.
From S2P Require Import SourceWriteSpec Transaction.
Import XxHash Scan SnapshotStore Rejection Syntax Address Registers Region ReadCapture Apply PlanSpec.
Import FileSys SourceWrite SourceWriteSpec Transaction.

Module TransactionSpec.

(** ** What a journal may do to the disk *)

(** Outside the journal's own storage every name and every file is as before. *)
Definition project_kept (storage : PathBuf → Prop) (d d' : Disk) : Prop :=
  ∀ p, ¬ storage p → names d' !! p = names d !! p ∧
    ∀ i, names d !! p = Some (Hard i) → inodes d' !! i = inodes d !! i.

#[export] Instance project_kept_preorder storage : PreOrder (project_kept storage).
Proof.
  split; [by intros d p _|]. intros d1 d2 d3 H1 H2 p Hp.
  destruct (H1 p Hp) as [Hn1 Hi1], (H2 p Hp) as [Hn2 Hi2]. split; [congruence|].
  intros i Hi. rewrite Hi2, Hi1; congruence.
Qed.

(** From [w] to [w'] every disk on the way satisfies [G]. *)
Definition passes (G : Disk → Prop) (w w' : World) : Prop :=
  ∃ new, w_visited w' = new ++ w_visited w ∧ Forall (λ v, G v.2) new.

#[export] Instance passes_preorder G : PreOrder (passes G).
Proof.
  split; [by intros w; exists []|].
  intros w1 w2 w3 (n1 & H1 & F1) (n2 & H2 & F2). exists (n2 ++ n1).
  rewrite Forall_app, H2, H1. split; [|done]. by rewrite app_assoc.
Qed.

Lemma passes_mono (G G' : Disk → Prop) w w' :
  (∀ d, G d → G' d) → passes G w w' → passes G' w w'.
Proof. intros H (new & Hv & HG). exists new. split; [done|]. eapply Forall_impl; eauto. Qed.

Lemma passes_one (G : Disk → Prop) w w' v :
  w_visited w' = v :: w_visited w → G v.2 → passes G w w'.
Proof. intros Hv HG. exists [v]. split; [done|]. constructor; [done|constructor]. Qed.

(** The promises of a journal to its client. *)
Class JournalLaws {B} `{J : Journal B} (storage : PathBuf → Prop) : Prop := {
  snapshot_project session path description op_id b w :
    let w' := (snapshot_with_op session path description op_id b w).2 in
    project_kept storage (w_disk w) (w_disk w') ∧ passes (project_kept storage (w_disk w)) w w';
  tombstone_project session op_id path description b w :
    let w' := (snapshot_op_tombstone session op_id path description b w).2 in
    project_kept storage (w_disk w) (w_disk w') ∧ passes (project_kept storage (w_disk w)) w w' }.

(** ** Directories *)

Lemma create_dirs_lookup (ns : gmap PathBuf Entry) l q :
  foldr (λ q, <[q := Dir]>) ns l !! q = if decide (q ∈ l) then Some Dir else ns !! q.
Proof.
  induction l as [|a l IH]; cbn [foldr].
  - case_decide as H; [by apply not_elem_of_nil in H|done].
  - destruct (decide (q = a)) as [->|Hne].
    + rewrite lookup_insert_eq. destruct (decide (a ∈ a :: l)) as [|H]; [done|]. destruct H. by left.
    + rewrite lookup_insert_ne, IH by done. repeat case_decide; try done; set_solver.
Qed.

(** Creating directories leaves files alone, whatever happens. *)
Definition files_kept (d d' : Disk) : Prop :=
  inodes d' = inodes d ∧ ∀ p, match names d !! p with
    | Some e => names d' !! p = Some e
    | None => names d' !! p = None ∨ names d' !! p = Some Dir
    end.

Lemma files_kept_refl d : files_kept d d.
Proof. split; [done|]. intros p. destruct (names d !! p); auto. Qed.

Lemma files_kept_trans d1 d2 d3 : files_kept d1 d2 → files_kept d2 d3 → files_kept d1 d3.
Proof.
  intros [Hi1 H1] [Hi2 H2]. split; [congruence|]. intros p. specialize (H1 p). specialize (H2 p).
  destruct (names d1 !! p) as [e|]; [by rewrite H1 in H2|]. destruct H1 as [H1|H1]; rewrite H1 in H2; auto.
Qed.

Lemma ancestors_length q p : q ∈ ancestors p → length q ≤ length p.
Proof. intros (n & -> & _)%list_elem_of_fmap. rewrite length_take. lia. Qed.

Lemma parent_ancestor p q : parent p = Some q → q = [] ∨ q ∈ ancestors q.
Proof.
  intros _. destruct q as [|x q]; [by left|right]. apply list_elem_of_fmap. exists (length (x :: q)).
  split; [by rewrite take_ge|]. apply elem_of_range_incl. simpl. lia.
Qed.

Section Execution.
Context `{K : Kernel} (Hquiet : quiet K) (Hhonest : honest K).
Context {B : Type} `{J : Journal B} (storage : PathBuf → Prop) `{!JournalLaws (J := J) storage}.
Context (cwd : PathBuf) (name_hash : bytes → str) (display : PathBuf → str).
Context (canonicalize : PathBuf → option PathBuf) (content_fingerprint : bytes → bytes).
Context (inspect_is_binary : bytes → bool).
Context (session : str) (injected : option ExecuteFault).

Abbreviation disk x := (w_disk (ex_world x)).
Abbreviation ExecState := (Transaction.ExecState (B := B)).

(** ** Calls *)

(** A call whose effect is a query leaves the disk alone. *)
Lemma query_world {A} (ok : Disk → result IoError A) w r w' :
  query ok w = (r, w') →
  w_disk w' = w_disk w ∧ passes (λ d, d = w_disk w) w w' ∧
  (fault (w_time w) = None → r = ok (w_disk w) ∧ w_faults w' = w_faults w) ∧
  (r = ok (w_disk w) ∨ ∃ e, r = Err e ∧ fault (w_time w) = Some e).
Proof.
  unfold query, call. rewrite Hquiet. destruct (fault (w_time w)) as [e|]; intros [= <- <-]; simpl.
  - split_and!; [done| |done|eauto]. by eapply passes_one.
  - split_and!; [done| |done|by left]. by eapply passes_one.
Qed.

Lemma io_eq {A} (m : M A) (x : ExecState) r x' :
  io m x = (r, x') → m (ex_world x) = (r, ex_world x') ∧ ex_backups x' = ex_backups x ∧
    ex_snapshots x' = ex_snapshots x ∧ ex_journaled x' = ex_journaled x.
Proof. unfold io. destruct (m (ex_world x)) as [r0 w] eqn:E. by intros [= <- <-]. Qed.

Lemma baseline_matches_world path expected (x : ExecState) b x' :
  baseline_matches path expected x = (b, x') →
  disk x' = disk x ∧ passes (λ d, d = disk x) (ex_world x) (ex_world x').
Proof.
  unfold baseline_matches. destruct (io _ x) as [r x1] eqn:E. intros [= _ <-].
  apply io_eq in E as (E & _). apply query_world in E as (? & ? & _). done.
Qed.

Lemma path_exists_world path (x : ExecState) b x' :
  path_exists path x = (b, x') →
  disk x' = disk x ∧ passes (λ d, d = disk x) (ex_world x) (ex_world x').
Proof.
  unfold path_exists. destruct (io _ x) as [r x1] eqn:E. intros [= _ <-].
  apply io_eq in E as (E & _). apply query_world in E as (? & ? & _). done.
Qed.

(** A world change that leaves the project alone. *)
Definition aside (x x' : ExecState) : Prop :=
  project_kept storage (disk x) (disk x') ∧
  passes (project_kept storage (disk x)) (ex_world x) (ex_world x').

#[local] Instance aside_preorder : PreOrder aside.
Proof.
  split; [by intros x; split|]. intros x y z [H1 P1] [H2 P2]. split; [by etrans|].
  etrans; [exact P1|]. eapply passes_mono; [|exact P2]. intros d Hd. by etrans.
Qed.

Lemma aside_same (x x' : ExecState) :
  disk x' = disk x → passes (λ d, d = disk x) (ex_world x) (ex_world x') → aside x x'.
Proof.
  intros Hd Hp. split; [by rewrite Hd|]. eapply passes_mono; [|exact Hp]. by intros d ->.
Qed.

Lemma journal_aside session' path description op_id (x : ExecState) r x' :
  journal (snapshot_with_op session' path description op_id) x = (r, x') → aside x x'.
Proof.
  unfold journal. pose proof (snapshot_project session' path description op_id (ex_backups x) (ex_world x)) as H.
  destruct (snapshot_with_op _ _ _ _ _ _) as [[r0 b] w]. intros [= _ <-]. exact H.
Qed.

Lemma tombstone_aside session' op_id path description (x : ExecState) r x' :
  journal (snapshot_op_tombstone session' op_id path description) x = (r, x') → aside x x'.
Proof.
  unfold journal. pose proof (tombstone_project session' op_id path description (ex_backups x) (ex_world x)) as H.
  destruct (snapshot_op_tombstone _ _ _ _ _ _) as [[r0 b] w]. intros [= _ <-]. exact H.
Qed.

Lemma journal_existing_aside op_id path description (x : ExecState) r x' :
  journal_existing_or_skip session op_id path description x = (r, x') → aside x x'.
Proof.
  unfold journal_existing_or_skip. destruct (path_exists path x) as [e x1] eqn:E.
  apply path_exists_world in E as [Hd Hp]. pose proof (aside_same _ _ Hd Hp) as H1.
  destruct e; simpl; [|by intros [= _ <-]]. intros H2%journal_aside. by etrans.
Qed.

Lemma mv_baselines_aside mv (x : ExecState) b x' : mv_baselines_match mv x = (b, x') → aside x x'.
Proof.
  unfold mv_baselines_match. destruct (baseline_matches _ _ x) as [m x1] eqn:E.
  apply baseline_matches_world in E as [Hd Hp]. pose proof (aside_same _ _ Hd Hp) as H1.
  destruct m; simpl; [|by intros [= _ <-]]. destruct (dest_baseline_bytes mv); [|by intros [= _ <-]].
  intros [Hd2 Hp2]%baseline_matches_world. etrans; [exact H1|]. by apply aside_same.
Qed.

(** Tagging does not touch the disk. *)
Lemma observe_tag_world step path requested on_disk affected (x : ExecState) o x' :
  observe_tag canonicalize content_fingerprint inspect_is_binary injected step path requested
    on_disk affected x = Some (o, x') → ex_world x' = ex_world x.
Proof.
  unfold observe_tag. destruct (fault_is _ _); [by intros [= _ <-]|].
  destruct (publish_edit_response_snapshot _ _ _ _ _ _ _ _) as [[p s]|]; [|done].
  cbn [mbind option_bind]. by intros [= _ <-].
Qed.

Lemma ensure_parent_dirs_world path w r w' :
  ensure_parent_dirs path w = (r, w') →
  files_kept (w_disk w) (w_disk w') ∧ passes (files_kept (w_disk w)) w w' ∧
  (∀ p, length path ≤ length p → names (w_disk w') !! p = names (w_disk w) !! p) ∧
  (is_err r = false → is_dir (w_disk w') (default cwd (parent path)) ∨ path = []).
Proof.
  unfold ensure_parent_dirs. destruct (parent path) as [q|] eqn:Hq.
  2:{ intros [= <- <-]. split_and!; [apply files_kept_refl|done..|]. intros _. right. by destruct path. }
  assert (length q < length path) as Hlen.
  { destruct (exists_last (l := path)) as (p & x & ->); [by intros ->|].
    rewrite parent_snoc in Hq. injection Hq as <-. rewrite length_app. simpl. lia. }
  unfold create_dir_all, effect, call. rewrite Hquiet.
  destruct (fault (w_time w)) as [e|].
  { intros [= <- <-]. simpl. split_and!; [apply files_kept_refl| |done|done].
    eapply passes_one; [done|]. apply files_kept_refl. }
  destruct (forallb _ _) eqn:Hall; intros [= <- <-]; simpl.
  2:{ split_and!; [apply files_kept_refl| |done|done].
      eapply passes_one; [done|]. apply files_kept_refl. }
  assert (files_kept (w_disk w) (set_names (foldr (λ q, <[q := Dir]>) (names (w_disk w)) (ancestors q)) (w_disk w))) as Hk.
  { split; [done|]. intros p. simpl. rewrite create_dirs_lookup. case_decide as Hin.
    - apply forallb_elem_of with (x := p) in Hall; [|done].
      destruct (names (w_disk w) !! p) as [[]|]; auto || done.
    - destruct (names (w_disk w) !! p); auto. }
  split_and!; [done|by eapply passes_one| |].
  - intros p Hp. rewrite create_dirs_lookup, decide_False; [done|]. intros Hin%ancestors_length. lia.
  - intros _. left. destruct (parent_ancestor _ _ Hq) as [->|Hin]; [by left|]. right. simpl.
    by rewrite create_dirs_lookup, decide_True.
Qed.

(** ** Writing a destination beside a source *)

(** The random sibling names of a path. *)
Definition sibling_copy (p : PathBuf) (t : nat) : PathBuf :=
  parent_of cwd p ++ [copy_name name_hash p (random_hex t)].
Definition sibling_temporary (p : PathBuf) (t : nat) : PathBuf :=
  temporary_path cwd p (random_hex t).

(** [p] is a file or a free name, its siblings are free, and none of it is journal storage. *)
Record writable (d : Disk) (p : PathBuf) : Prop := {
  wb_path : p ≠ [];
  wb_entry : names d !! p = None ∨ ∃ j m, names d !! p = Some (Hard j) ∧ inodes d !! j = Some m;
  wb_project : ¬ storage p ∧ ∀ t, ¬ storage (sibling_copy p t) ∧ ¬ storage (sibling_temporary p t);
  wb_free : ∀ t, names d !! sibling_copy p t = None ∧ names d !! sibling_temporary p t = None ∧
    sibling_temporary p t ≠ p }.

(** [src] is a file with inode [i] and content [n], which [dest] does not share. *)
Record beside (d : Disk) (src dest : PathBuf) (i : InodeId) (n : Inode) : Prop := {
  bs_name : names d !! src = Some (Hard i);
  bs_inode : inodes d !! i = Some n;
  bs_other : names d !! dest ≠ Some (Hard i);
  bs_project : ¬ storage src }.

Lemma writable_kept d d' p : writable d p → project_kept storage d d' → writable d' p.
Proof.
  intros [Hne He Hp Hf] Hk. split; [done| |done|].
  - destruct (Hk p (proj1 Hp)) as [Hn Hi]. rewrite Hn. destruct He as [|(j & m & Hj & Hm)]; [by left|].
    right. exists j, m. by rewrite Hi.
  - intros t. destruct Hp as [_ Hp]. destruct (Hp t) as [Hc Ht], (Hf t) as (? & ? & ?).
    by rewrite (proj1 (Hk _ Hc)), (proj1 (Hk _ Ht)).
Qed.

Lemma beside_kept d d' src dest i n :
  ¬ storage dest → beside d src dest i n → project_kept storage d d' → beside d' src dest i n.
Proof.
  intros Hd [Hn Hi Ho Hs] Hk. destruct (Hk src Hs) as [Hn' Hi'].
  split; [congruence|by rewrite Hi'|by rewrite (proj1 (Hk dest Hd))|done].
Qed.

Lemma beside_ne d src dest i n : beside d src dest i n → src ≠ dest.
Proof. intros [Hn _ Ho _] ->. done. Qed.

Lemma parent_of_length p x : p ≠ [] → length (parent_of cwd p ++ [x]) = length p.
Proof.
  intros Hp. destruct (exists_last Hp) as (q & y & ->). unfold parent_of. rewrite parent_snoc.
  simpl. by rewrite !length_app.
Qed.

(** Directories for [dest] keep it writable and the source beside it. *)
Lemma ensured_ready d d' dest :
  writable d dest → files_kept d d' →
  (∀ p, length dest ≤ length p → names d' !! p = names d !! p) → writable d' dest.
Proof.
  intros [Hne He Hp Hf] [Hi _] Hl. split; [done|by rewrite Hl, Hi by lia|done|].
  intros t. unfold sibling_copy, sibling_temporary, temporary_path in *.
  rewrite !Hl by (by rewrite parent_of_length). apply Hf.
Qed.

Lemma ensured_beside d d' src dest i n :
  beside d src dest i n → files_kept d d' → names d' !! dest = names d !! dest →
  beside d' src dest i n.
Proof.
  intros [Hn Hi Ho Hs] [Hik Hk] Hd. split; [|by rewrite Hik|by rewrite Hd|done].
  specialize (Hk src). by rewrite Hn in Hk.
Qed.

Lemma writable_write_ready d dest :
  writable d dest → is_dir d (default cwd (parent dest)) → write_ready cwd name_hash d dest.
Proof.
  intros [Hne He Hp Hf] Hd. assert (real_path d dest = dest) as Hr.
  { unfold real_path. by destruct He as [->|(j & m & -> & _)]. }
  split; rewrite Hr; [|done|intros t; apply (Hf t)..].
  destruct He as [?|(j & m & ? & ?)]; [by left|right; eauto].
Qed.

Definition intact (src : PathBuf) (i : InodeId) (n : Inode) (d : Disk) : Prop :=
  names d !! src = Some (Hard i) ∧ inodes d !! i = Some n.

Lemma others_intact d d' src dest i n :
  beside d src dest i n → others_kept dest d d' → intact src i n d'.
Proof.
  intros Hb [Hn Hi]. pose proof (beside_ne _ _ _ _ _ Hb). destruct Hb as [Hs Hin Ho _].
  split; auto.
Qed.

(** A durable write of [dest] keeps every file beside it, at every moment. *)
Lemma durable_write_beside dest bs w r w' src i n :
  writable (w_disk w) dest → beside (w_disk w) src dest i n →
  durable_write cwd name_hash display dest bs w = (r, w') →
  intact src i n (w_disk w') ∧ passes (intact src i n) w w' ∧
  (is_err r = false → content_at_path (w_disk w') dest = Some bs ∧
     ∃ j, names (w_disk w') !! dest = Some (Hard j)).
Proof.
  intros Hw Hb. unfold durable_write, mbind, M_bind.
  destruct (ensure_parent_dirs dest w) as [r1 w1] eqn:E1.
  destruct (ensure_parent_dirs_world _ _ _ _ E1) as (Hk & Hp & Hl & Hdir).
  pose proof (ensured_ready _ _ _ Hw Hk Hl) as Hw1.
  pose proof (ensured_beside _ _ _ _ _ _ Hb Hk (Hl dest (le_n _))) as Hb1.
  assert (∀ d, files_kept (w_disk w) d → intact src i n d) as Hint.
  { intros d [Hi Hn]. destruct Hb as [Hs Hin _ _]. specialize (Hn src). rewrite Hs in Hn.
    split; [done|by rewrite Hi]. }
  destruct r1 as [[]|e].
  2:{ intros [= <- <-]. split_and!; [by apply Hint|exact (passes_mono _ _ _ _ Hint Hp)|done]. }
  destruct (Hdir eq_refl) as [Hd|Hnil]; [|by destruct (wb_path _ _ Hw)].
  pose proof (writable_write_ready _ _ Hw1 Hd) as Hready.
  destruct (write_runs Hquiet Hhonest cwd name_hash display (w_disk w1) dest bs (w_faults w1) Hready w1 eq_refl eq_refl)
    as [Hpost (new & Hv & HG)].
  assert (real_path (w_disk w1) dest = dest) as Hr.
  { unfold real_path. by destruct (wb_entry _ _ Hw1) as [->|(j & m & -> & _)]. }
  rewrite Hr in Hpost, HG.
  assert (∀ d, others_kept dest (w_disk w1) d → intact src i n d) as Hint1
    by (intros d; by apply others_intact).
  destruct (origin_name cwd name_hash _ _ Hready) as (Hname & Hino & _). rewrite Hr in Hname.
  destruct (atomic_write_source cwd name_hash display dest bs w1) as [r2 w2]. simpl in Hpost, Hv.
  assert (passes (intact src i n) w w2) as Hpass.
  { transitivity w1; [exact (passes_mono _ _ _ _ Hint Hp)|]. exists new. split; [done|]. eapply Forall_impl; [exact HG|].
    intros v [Ho _]. by apply Hint1. }
  assert (others_kept dest (w_disk w1) (w_disk w2) ∧
    (is_err r2 = false → content_at_path (w_disk w2) dest = Some bs ∧
       ∃ j, names (w_disk w2) !! dest = Some (Hard j))) as [Ho Hc].
  { destruct r2 as [o|e]; simpl in Hpost.
    - destruct (sw_mode o).
      + destruct Hpost as (j & nj & Hcm & _). split; [by eapply committed_others|]. intros _.
        destruct Hcm as (_ & _ & _ & Hd2 & Hj & <- & _).
        split; [by eapply content_hard|eauto].
      + destruct Hpost as (_ & i' & n' & m & Ho & Hrw & _).
        split; [by eapply (rewritten_others cwd name_hash)|]. intros _.
        split; [by eapply (rewritten_content cwd name_hash)|].
        destruct Hrw as (i2 & n2 & Ho2 & Hns & _).
        exists i'.
        eapply lookup_weaken; [|exact Hns]. by rewrite Hname, Ho.
    - split; [|done]. destruct Hpost as [_ [[Hg _]|(i' & n' & _ & Hfail)]]; [by apply grown_others|].
      destruct (failed_write_rewritten _ _ _ _ _ _ _ _ _ _ _ Hfail) as (b & m & s & Hrw). by eapply (rewritten_others cwd name_hash). }
  destruct r2 as [o|e]; intros [= <- <-]; (split_and!; [by apply Hint1|done|]); [|done].
  intros _. by apply Hc.
Qed.

(** ** Moves *)

Abbreviation exec_mv := (execute_mv cwd name_hash display canonicalize content_fingerprint
  inspect_is_binary session injected).

Lemma intact_content src i n d : intact src i n d → content_at_path d src = Some (i_bytes n).
Proof. intros [Hn Hi]. by eapply content_hard. Qed.

(** Removing a name beside [dest]. *)
Lemma remove_file_world src i n w r w' :
  intact src i n (w_disk w) → FileSys.remove_file src w = (r, w') →
  let gone := set_names (delete src (names (w_disk w))) (w_disk w) in
  (w_disk w' = w_disk w ∧ is_err r = true ∨ w_disk w' = gone ∧ is_err r = false) ∧
  passes (λ d, d = w_disk w ∨ d = gone) w w'.
Proof.
  intros [Hn Hi]. unfold FileSys.remove_file, effect, call. rewrite Hquiet.
  destruct (fault (w_time w)) as [e|].
  - intros [= <- <-]. simpl. split; [by left|]. eapply passes_one; [done|]. by left.
  - rewrite Hn. intros [= <- <-]. simpl. split; [by right|]. eapply passes_one; [done|]. by right.
Qed.

Lemma content_delete_other d src dest j :
  src ≠ dest → names d !! dest = Some (Hard j) →
  content_at_path (set_names (delete src (names d)) d) dest = content_at_path d dest.
Proof.
  intros Hne Hd. assert (delete src (names d) !! dest = Some (Hard j)) as Hd' by (by rewrite lookup_delete_ne).
  unfold content_at_path, inode_at, real_path. simpl. rewrite Hd', Hd. simpl. by rewrite Hd', Hd.
Qed.

Lemma execute_unlink_safe step mv b1 b2 (x : ExecState) r x' i n j :
  intact (source_canonical mv) i n (disk x) → source_canonical mv ≠ dest_canonical mv →
  content_at_path (disk x) (dest_canonical mv) = Some (mv_final_bytes mv) →
  names (disk x) !! dest_canonical mv = Some (Hard j) →
  execute_unlink canonicalize content_fingerprint inspect_is_binary injected step mv b1 b2 x
    = Some (r, x') →
  passes (λ d, content_at_path d (dest_canonical mv) = Some (mv_final_bytes mv))
    (ex_world x) (ex_world x') ∧
  content_at_path (disk x') (dest_canonical mv) = Some (mv_final_bytes mv) ∧
  match r with
  | StepApplied _ => names (disk x') !! source_canonical mv = None
  | StepStopped _ _ => intact (source_canonical mv) i n (disk x')
  end.
Proof.
  intros Hint Hne Hc Hj. unfold execute_unlink.
  destruct (io (read_path _) x) as [rd x1] eqn:E1. apply io_eq in E1 as (E1 & _).
  apply query_world in E1 as (Hd1 & Hp1 & _).
  set (P := λ d, content_at_path d (dest_canonical mv) = Some (mv_final_bytes mv)).
  assert (passes P (ex_world x) (ex_world x1)) as HP1
    by (eapply passes_mono; [|exact Hp1]; by intros d ->).
  assert (∀ u x2, (if fault_is injected (FaultSourceUnlink step) then (false, x1)
      else let '(r, x) := io (FileSys.remove_file (source_canonical mv)) x1 in (negb (is_err r), x)) = (u, x2) →
    passes P (ex_world x) (ex_world x2) ∧ P (disk x2) ∧
    if u then names (disk x2) !! source_canonical mv = None else intact (source_canonical mv) i n (disk x2))
    as Hunlink.
  { intros u x2. destruct (fault_is _ _); [intros [= <- <-]; split_and!; [done|unfold P; congruence|by rewrite Hd1]|].
    destruct (io _ x1) as [ru x3] eqn:E2. apply io_eq in E2 as (E2 & _). intros [= <- <-].
    rewrite <-Hd1 in Hint, Hc, Hj.
    destruct (remove_file_world _ _ _ _ _ _ Hint E2) as [Hcase Hp2].
    assert (P (set_names (delete (source_canonical mv) (names (disk x1))) (disk x1))) as HPg
      by (unfold P; by erewrite content_delete_other).
    split_and!.
    - etrans; [exact HP1|]. eapply passes_mono; [|exact Hp2]. intros d [->| ->]; done.
    - by destruct Hcase as [[-> _]|[-> _]].
    - destruct Hcase as [[-> ->]|[-> ->]]; simpl; [done|apply lookup_delete_eq]. }
  destruct (if fault_is injected _ then _ else _) as [u x2] eqn:E2.
  destruct (Hunlink u x2 eq_refl) as (HP2 & HPd & Hu). clear Hunlink E2.
  destruct u; cbn [negb].
  - destruct (observe_tag _ _ _ _ _ _ _ _ _ _) as [[o x3]|] eqn:E3; [|done]. cbn [mbind option_bind].
    intros [= <- <-]. apply observe_tag_world in E3. simpl in E3. rewrite E3. done.
  - destruct (observe_tag _ _ _ _ _ _ _ _ _ _) as [[o x3]|] eqn:E3; [|done]. cbn [mbind option_bind].
    intros [= <- <-]. apply observe_tag_world in E3. by rewrite E3.
Qed.

(** C3: a move never loses bytes.  Whatever calls fail and whatever the journal answers, at every
    moment of a move the source still holds its content or the destination holds the complete
    planned bytes; when the step is applied the destination holds the planned bytes and the
    source is gone; and when it stops the source is untouched. *)
Theorem mv_never_loses_bytes step mv op_id (x : ExecState) r x' i n :
  writable (disk x) (dest_canonical mv) →
  beside (disk x) (source_canonical mv) (dest_canonical mv) i n →
  exec_mv step mv op_id x = Some (r, x') →
  passes (λ d, content_at_path d (source_canonical mv) = Some (i_bytes n) ∨
               content_at_path d (dest_canonical mv) = Some (mv_final_bytes mv))
    (ex_world x) (ex_world x') ∧
  match r with
  | StepApplied _ =>
      content_at_path (disk x') (dest_canonical mv) = Some (mv_final_bytes mv) ∧
      names (disk x') !! source_canonical mv = None
  | StepStopped _ _ => intact (source_canonical mv) i n (disk x')
  end.
Proof.
  intros Hw Hb. unfold execute_mv. set (src := source_canonical mv) in *. set (dst := dest_canonical mv) in *.
  set (P := λ d, content_at_path d src = Some (i_bytes n) ∨ content_at_path d dst = Some (mv_final_bytes mv)).
  assert (∀ d, intact src i n d → P d) as HI by (intros d H; left; by eapply intact_content).
  assert (∀ y, aside x y → writable (disk y) dst ∧ beside (disk y) src dst i n ∧
    passes P (ex_world x) (ex_world y)) as Haside.
  { intros y [Hk Hp]. split_and!; [by eapply writable_kept|eapply beside_kept; [apply Hw|done..]|].
    eapply passes_mono; [|exact Hp]. intros d Hd. apply HI.
    destruct (beside_kept _ _ _ _ _ _ (proj1 (wb_project _ _ Hw)) Hb Hd). done. }
  assert (∀ y o re, aside x y → Some (StepStopped o re, y) = Some (r, x') →
    passes P (ex_world x) (ex_world x') ∧ match r with
      | StepApplied _ => content_at_path (disk x') dst = Some (mv_final_bytes mv) ∧ names (disk x') !! src = None
      | StepStopped _ _ => intact src i n (disk x') end) as Hstop.
  { intros y o re Hy [= <- <-]. destruct (Haside _ Hy) as (_ & Hby & Hp). split; [done|]. by destruct Hby. }
  destruct (fault_is injected (FaultBackup step)); [by apply Hstop|].
  destruct (if dest_existed mv then _ else _) as [dj x1] eqn:E1.
  assert (aside x x1) as A1 by (destruct (dest_existed mv); [by eapply journal_aside|by eapply tombstone_aside]).
  destruct dj as [db|e]; [|by apply Hstop].
  destruct (journal _ x1) as [sj x2] eqn:E2. apply journal_aside in E2.
  assert (aside x x2) as A2 by (by etrans). destruct sj as [sb|e]; [|by apply Hstop].
  destruct (if fault_is injected (FaultBaselineDrift step) then _ else _) as [ms x3] eqn:E3.
  assert (aside x x3) as A3.
  { destruct (fault_is _ _); [by injection E3 as _ <-|]. apply mv_baselines_aside in E3. by etrans. }
  destruct ms; cbn [negb]; [|by apply Hstop].
  destruct (fault_is injected (FaultWrite step)); [by apply Hstop|].
  destruct (io _ x3) as [wr x4] eqn:E4. apply io_eq in E4 as (E4 & _).
  destruct (Haside _ A3) as (Hw3 & Hb3 & Hp3). unfold mbind, M_bind in E4.
  destruct (ensure_parent_dirs dst (ex_world x3)) as [re we] eqn:Ee.
  destruct (ensure_parent_dirs_world _ _ _ _ Ee) as (Hke & Hpe & Hle & _).
  pose proof (ensured_ready _ _ _ Hw3 Hke Hle) as Hwe.
  pose proof (ensured_beside _ _ _ _ _ _ Hb3 Hke (Hle dst (le_n _))) as Hbe.
  assert (passes P (ex_world x) we) as Hpx.
  { etrans; [exact Hp3|]. eapply passes_mono; [|exact Hpe]. intros d Hd. apply HI.
    destruct Hb3 as [Hs Hin _ _]. destruct Hd as [Hi Hn]. specialize (Hn src). rewrite Hs in Hn.
    split; [done|by rewrite Hi]. }
  assert (intact src i n (disk x4) ∧ passes P (ex_world x) (ex_world x4) ∧
    (is_err wr = false → content_at_path (disk x4) dst = Some (mv_final_bytes mv) ∧
       ∃ j, names (disk x4) !! dst = Some (Hard j))) as (Hi4 & Hp4 & Hok4).
  { destruct re as [[]|e].
    - destruct (durable_write_beside _ _ _ _ _ _ _ _ Hwe Hbe E4) as (? & Hpd & ?). split_and!; [done| |done].
      etrans; [exact Hpx|]. by eapply passes_mono.
    - injection E4 as <- <-. split_and!; [by destruct Hbe|done|done]. }
  destruct wr as [ws|e].
  2:{ intros [= <- <-]. done. }
  destruct (Hok4 eq_refl) as [Hc4 [j Hj4]].
  destruct (fault_is injected (FaultDurability step)); [by intros [= <- <-]|].
  intros Hu. destruct (execute_unlink_safe step (add_mv_warnings ws mv) db sb x4 r x' i n j Hi4
    (beside_ne _ _ _ _ _ Hb) Hc4 Hj4 Hu) as (Hp5 & Hc5 & Hr5).
  split; [etrans; [exact Hp4|]; eapply passes_mono; [|exact Hp5]; by right|].
  by destruct r.
Qed.

(** ** Drift *)

Abbreviation exec_step := (execute_step cwd name_hash display canonicalize content_fingerprint
  inspect_is_binary session injected).

(** A canonical path of the project holds the expected bytes; a missing file counts as empty. *)
Definition matches (d : Disk) (p : PathBuf) (expected : bytes) : Prop :=
  content_at_path d p = Some expected ∨ content_at_path d p = None ∧ expected = [].

Definition canonical (d : Disk) (p : PathBuf) : Prop := ¬ storage p ∧ real_path d p = p.

Lemma matches_kept d d' p expected :
  canonical d p → project_kept storage d d' →
  canonical d' p ∧ (matches d' p expected → matches d p expected).
Proof.
  intros [Hs Hr] Hk. destruct (Hk p Hs) as [Hn Hi].
  assert (real_path d' p = p) as Hr' by (unfold real_path in *; by rewrite Hn).
  split; [done|]. assert (content_at_path d' p = content_at_path d p) as Hc; [|unfold matches; by rewrite Hc].
  unfold content_at_path, inode_at. rewrite Hr, Hr', Hn.
  destruct (names d !! p) as [[i|t|]|] eqn:E; [|done..]. simpl. by rewrite Hi.
Qed.

Lemma baseline_matches_spec p expected (x : ExecState) x' :
  baseline_matches p expected x = (true, x') → matches (disk x) p expected.
Proof.
  unfold baseline_matches. destruct (io _ x) as [r x1] eqn:E. apply io_eq in E as (E & _).
  apply query_world in E as (_ & _ & _ & Hr). intros [= Hb <-].
  destruct Hr as [->|(e & -> & He)].
  - unfold matches, content_at_path, inode_at.
    destruct (names (disk x) !! real_path (disk x) p) as [[i|t|]|]; simpl in *; [|done|done|].
    + destruct (inodes (disk x) !! i) as [m|]; simpl in *; apply bool_decide_eq_true in Hb;
        [left; by rewrite Hb|by right].
    + right. by apply bool_decide_eq_true in Hb.
  - apply andb_true_iff in Hb as [Hk _]. apply bool_decide_eq_true in Hk.
    by destruct (Hhonest _ _ He).
Qed.

(** The files a step must find unchanged. *)
Definition expectations (s : PlannedStep) : list (PathBuf * bytes) :=
  match s with
  | Mutate f => [(pf_canonical_path f, pf_baseline_bytes f)]
  | Mv mv => (source_canonical mv, source_baseline_bytes mv)
      :: match dest_baseline_bytes mv with Some b => [(dest_canonical mv, b)] | None => [] end
  end.

Lemma mv_baselines_spec mv (x : ExecState) x' :
  mv_baselines_match mv x = (true, x') →
  Forall (λ pb, matches (disk x) pb.1 pb.2) (expectations (Mv mv)).
Proof.
  unfold mv_baselines_match. destruct (baseline_matches _ _ x) as [m x1] eqn:E.
  destruct m; simpl; [|done]. pose proof (baseline_matches_world _ _ _ _ _ E) as [Hd _].
  apply baseline_matches_spec in E. destruct (dest_baseline_bytes mv); [|by intros _; constructor].
  intros E2%baseline_matches_spec. rewrite Hd in E2. by constructor; [|constructor].
Qed.

Lemma drifted_after_aside (x y : ExecState) pb :
  aside x y → canonical (disk x) pb.1 → ¬ matches (disk x) pb.1 pb.2 → ¬ matches (disk y) pb.1 pb.2.
Proof.
  intros [Hk _] Hc Hn Hm. apply Hn. by apply (matches_kept _ _ _ _ Hc Hk).
Qed.

(** C4: a step never writes over a file that changed.  When a file that a step expects with its
    planned baseline has other content when the step starts, the step stops, whatever the
    journal answers and whatever fails, and no file of the project is touched. *)
Theorem drifted_step_writes_nothing step s op_id (x : ExecState) r x' p expected :
  (p, expected) ∈ expectations s → canonical (disk x) p → ¬ matches (disk x) p expected →
  exec_step step s op_id x = Some (r, x') →
  (∃ outcomes reason, r = StepStopped outcomes reason) ∧ aside x x'.
Proof.
  intros Hin Hc Hn. destruct s as [f|mv]; simpl.
  - apply list_elem_of_singleton in Hin. injection Hin as -> ->. unfold execute_mutate. cbv zeta.
    destruct (fault_is injected (FaultBackup step)); [intros [= <- <-]; split; [eauto|reflexivity]|].
    destruct (journal_existing_or_skip _ _ _ _ _) as [j x1] eqn:E1. apply journal_existing_aside in E1.
    destruct j as [b|e]; [|intros [= <- <-]; eauto].
    destruct (if fault_is injected (FaultBaselineDrift step) then _ else _) as [m x2] eqn:E2.
    destruct m; cbn [negb].
    + destruct (fault_is _ _); [done|]. apply baseline_matches_spec in E2.
      by destruct (drifted_after_aside x x1 (pf_canonical_path f, pf_baseline_bytes f) E1 Hc Hn E2).
    + intros [= <- <-]. split; [eauto|]. destruct (fault_is _ _); [by injection E2 as <-|].
      apply baseline_matches_world in E2 as [Hd Hp]. etrans; [exact E1|]. by apply aside_same.
  - unfold execute_mv. destruct (fault_is injected (FaultBackup step)); [intros [= <- <-]; split; [eauto|reflexivity]|].
    destruct (if dest_existed mv then _ else _) as [dj x1] eqn:E1.
    assert (aside x x1) as A1 by (destruct (dest_existed mv); [by eapply journal_aside|by eapply tombstone_aside]).
    destruct dj as [db|e]; [|intros [= <- <-]; eauto].
    destruct (journal _ x1) as [sj x2] eqn:E2. apply journal_aside in E2.
    assert (aside x x2) as A2 by (by etrans). destruct sj as [sb|e]; [|intros [= <- <-]; eauto].
    destruct (if fault_is injected (FaultBaselineDrift step) then _ else _) as [m x3] eqn:E3.
    destruct m; cbn [negb].
    + destruct (fault_is _ _); [done|]. apply mv_baselines_spec in E3. rewrite Forall_forall in E3.
      by destruct (drifted_after_aside x x2 (p, expected) A2 Hc Hn (E3 _ Hin)).
    + intros [= <- <-]. split; [eauto|]. destruct (fault_is _ _); [by injection E3 as <-|].
      apply mv_baselines_aside in E3. by etrans.
Qed.

(** ** Accounting *)

Abbreviation exec_transaction := (execute_transaction cwd name_hash display canonicalize
  content_fingerprint inspect_is_binary session injected).
Abbreviation exec_steps := (execute_steps cwd name_hash display canonicalize content_fingerprint
  inspect_is_binary session injected).

(** Steps that all apply, from step number [index] on. *)
Inductive applied_run (op_id : str) : nat → list PlannedStep → ExecState → list FileOutcome →
    ExecState → Prop :=
  | applied_nil index x : applied_run op_id index [] x [] x
  | applied_cons index s ss x os x1 outs x2 :
      exec_step index s op_id x = Some (StepApplied os, x1) →
      applied_run op_id (S index) ss x1 outs x2 →
      applied_run op_id index (s :: ss) x (os ++ outs) x2.

(** How an execution of steps ends: all applied, or one stops and nothing is run after it. *)
Definition ends (op_id : str) (index : nat) (steps : list PlannedStep) (x : ExecState)
    (fs : list FileOutcome) (reason : option str) (x' : ExecState) : Prop :=
  match reason with
  | None => applied_run op_id index steps x fs x'
  | Some why => ∃ before s after outs os x1, steps = before ++ s :: after ∧
      applied_run op_id index before x outs x1 ∧
      exec_step (index + length before) s op_id x1 = Some (StepStopped os why, x') ∧
      fs = outs ++ os ++ concat (not_attempted_for_step <$> after)
  end.

Lemma execute_steps_ends op_id index steps x fs reason x' :
  exec_steps index steps op_id x = Some (fs, reason, x') → ends op_id index steps x fs reason x'.
Proof.
  revert index x fs reason. induction steps as [|s steps IH]; intros index x fs reason; cbn [execute_steps].
  { intros [= <- <- <-]. constructor. }
  destruct (exec_step index s op_id x) as [[[os|os why] x1]|] eqn:E; cbn [mbind option_bind]; [| |done].
  - destruct (exec_steps (S index) steps op_id x1) as [[[rest re] x2]|] eqn:Er; [|done].
    cbn [mbind option_bind]. intros [= <- <- <-]. apply IH in Er.
    destruct re as [why|]; simpl in *; [|by econstructor].
    destruct Er as (before & s' & after & outs & os' & x3 & -> & Hrun & Hs & ->).
    exists (s :: before), s', after, (os ++ outs), os', x3. split_and!; [done|by econstructor| |].
    + simpl. by rewrite Nat.add_succ_r.
    + by rewrite app_assoc.
  - intros [= <- <- <-]. exists [], s, steps, [], os, x. rewrite Nat.add_0_r.
    split_and!; [done|constructor|done|done].
Qed.

Lemma observe_tag_applied step path requested on_disk affected (x : ExecState) t nt c x' :
  observe_tag canonicalize content_fingerprint inspect_is_binary injected step path requested
    on_disk affected x = Some (t, nt, c, x') → is_applied_star c = true.
Proof.
  unfold observe_tag. destruct (fault_is _ (FaultFinalTagUnavailable _)); [by intros [= _ _ <- _]|].
  destruct (publish_edit_response_snapshot _ _ _ _ _ _ _ _) as [[p s]|]; [|done].
  cbn [mbind option_bind]. unfold tag_from_publish. destruct (er_snapshot p); [|by intros [= _ _ <- _]].
  destruct (fault_is _ _); by intros [= _ _ <- _].
Qed.

Lemma failed_counts path req role c remove ws :
  is_applied_star c = false → counts_toward_completion (failed_outcome path req role c remove ws) = true.
Proof. intros Hc. unfold counts_toward_completion. simpl. rewrite Hc. by rewrite andb_false_r. Qed.

(** The outcomes of a step that applied, and of one that stopped. *)
Definition all_applied (os : list FileOutcome) : Prop :=
  Forall (λ f, is_applied_star (fo_classification f) = true) os ∧
  Exists (λ f, counts_toward_completion f = true) os.
Definition some_failed (os : list FileOutcome) : Prop :=
  Exists (λ f, counts_toward_completion f = true ∧ is_applied_star (fo_classification f) = false) os.

Lemma mutate_failed_some f c remove :
  is_applied_star c = false → some_failed (mutate_failed f c remove).
Proof. intros Hc. constructor. split; [by apply failed_counts|done]. Qed.

Lemma mv_failed_some mv c c' : is_applied_star c = false → some_failed (mv_failed_pair mv c c').
Proof. intros Hc. constructor. split; [by apply failed_counts|done]. Qed.

Lemma write_failure_failed e : is_applied_star (write_failure e) = false.
Proof. unfold write_failure. by destruct (str_contains _ _). Qed.

Definition accounted (r : StepExec) : Prop :=
  match r with StepApplied os => all_applied os | StepStopped os _ => some_failed os end.

Lemma execute_mutate_accounted step f op_id (x : ExecState) r x' :
  exec_step step (Mutate f) op_id x = Some (r, x') → accounted r.
Proof.
  simpl. unfold execute_mutate. cbv zeta.
  destruct (fault_is _ (FaultBackup _)); [intros [= <- _]; by apply mutate_failed_some|].
  destruct (journal_existing_or_skip _ _ _ _ _) as [[b|e] x1]; [|intros [= <- _]; by apply mutate_failed_some].
  destruct (if fault_is injected _ then _ else _) as [[|] x2]; cbn [negb];
    [|intros [= <- _]; by apply mutate_failed_some].
  destruct (fault_is _ (FaultWrite _)); [intros [= <- _]; by apply mutate_failed_some|].
  destruct (Apply.remove_file f).
  - intros [= H]. unfold execute_removal in H. destruct (io _ x2) as [rr x3].
    destruct (match rr with Ok _ => _ | Err _ => _ end); injection H as <- _;
      [by apply mutate_failed_some|]. split; [by constructor|by constructor].
  - unfold execute_write. destruct (io _ x2) as [[ws|e] x3].
    2:{ intros [= <- _]. apply mutate_failed_some, write_failure_failed. }
    destruct (fault_is _ (FaultDurability _)); [intros [= <- _]; by apply mutate_failed_some|].
    destruct (io _ x3) as [[bs|e] x4].
    2:{ intros [= <- _]. split; by constructor. }
    destruct (observe_tag _ _ _ _ _ _ _ _ _ _) as [[[[t nt] c] x5]|] eqn:E; [|done]. cbn [mbind option_bind].
    intros [= <- _]. apply observe_tag_applied in E. split; [by constructor|by constructor].
Qed.

Lemma execute_mv_accounted step mv op_id (x : ExecState) r x' :
  exec_step step (Mv mv) op_id x = Some (r, x') → accounted r.
Proof.
  simpl. unfold execute_mv. cbv zeta.
  destruct (fault_is _ (FaultBackup _)); [intros [= <- _]; by apply mv_failed_some|].
  destruct (if dest_existed mv then _ else _) as [[db|e] x1]; [|intros [= <- _]; by apply mv_failed_some].
  destruct (journal _ x1) as [[sb|e] x2]; [|intros [= <- _]; by apply mv_failed_some].
  destruct (if fault_is injected _ then _ else _) as [[|] x3]; cbn [negb];
    [|intros [= <- _]; by apply mv_failed_some].
  destruct (fault_is _ (FaultWrite _)); [intros [= <- _]; by apply mv_failed_some|].
  destruct (io _ x3) as [[ws|e] x4]; [|intros [= <- _]; apply mv_failed_some, write_failure_failed].
  destruct (fault_is _ (FaultDurability _)); [intros [= <- _]; by apply mv_failed_some|].
  unfold execute_unlink. destruct (io _ x4) as [rd x5].
  destruct (if fault_is injected _ then _ else _) as [[|] x6]; cbn [negb];
    (destruct (observe_tag _ _ _ _ _ _ _ _ _ _) as [[[[t nt] c] x7]|] eqn:E; [|done]); cbn [mbind option_bind];
    intros [= <- _]; apply observe_tag_applied in E; [|constructor 2; by constructor].
  split; [by repeat constructor|by constructor].
Qed.

Lemma execute_step_accounted step s op_id (x : ExecState) r x' :
  exec_step step s op_id x = Some (r, x') → accounted r.
Proof. destruct s; [apply execute_mutate_accounted|apply execute_mv_accounted]. Qed.

Lemma applied_run_all op_id index steps x fs x' :
  applied_run op_id index steps x fs x' →
  Forall (λ f, is_applied_star (fo_classification f) = true) fs ∧
  (steps ≠ [] → Exists (λ f, counts_toward_completion f = true) fs).
Proof.
  induction 1 as [|index s ss x os x1 outs x2 Hs _ [IH1 IH2]]; [by split|].
  apply execute_step_accounted in Hs as [Ha Hc]. split; [by apply Forall_app|].
  intros _. apply Exists_app. by left.
Qed.

(** The classes that decide completion. *)
Definition counted (fs : list FileOutcome) : list FileClassification :=
  fo_classification <$> filter (λ f, counts_toward_completion f = true) fs.

Lemma ends_counted op_id index steps x fs reason x' :
  ends op_id index steps x fs reason x' →
  (counted fs ≠ [] ∧ Forall (λ c, is_applied_star c = true) (counted fs)) ↔ reason = None ∧ steps ≠ [].
Proof.
  unfold counted. intros He. destruct reason as [why|]; simpl in He.
  - split; [|by intros []]. intros [_ Hall].
    destruct He as (before & s & after & outs & os & x1 & _ & _ & Hs & ->).
    apply execute_step_accounted in Hs as (f & Hf & Hc & Ha)%Exists_exists.
    rewrite Forall_forall in Hall. assert (is_applied_star (fo_classification f) = true); [|congruence].
    apply Hall, list_elem_of_fmap. exists f. split; [done|]. apply list_elem_of_filter.
    split; [done|]. apply elem_of_app. right. apply elem_of_app. by left.
  - pose proof He as [Ha Hc]%applied_run_all. split.
    + intros [Hne _]. split; [done|]. intros ->. by inversion He; subst.
    + intros [_ Hsteps]. split.
      * pose proof (Hc Hsteps) as (f & Hf & Hcount)%Exists_exists. intros Hnil%fmap_nil_inv.
        assert (f ∈ filter (λ f, counts_toward_completion f = true) fs) as Hin
          by (by apply list_elem_of_filter). rewrite Hnil in Hin. by apply not_elem_of_nil in Hin.
      * apply Forall_fmap, Forall_forall. intros f [_ Hf]%list_elem_of_filter. simpl.
        rewrite Forall_forall in Ha. auto.
Qed.

Lemma execution_accounting plan regs op_id w b st env regs' x :
  exec_transaction plan regs op_id w b st = Some (env, regs', x) →
  ends op_id 0 (tp_steps plan) (MkExec w b st false) (te_files env) (te_stop_reason env) x ∧
  (te_complete env = true ↔ te_stop_reason env = None ∧ tp_steps plan ≠ []) ∧
  te_registers_committed env = te_complete env ∧
  regs' = (if te_complete env then commit regs (tp_registers plan) else regs).
Proof.
  unfold execute_transaction.
  destruct (exec_steps 0 (tp_steps plan) op_id (MkExec w b st false)) as [[[fs reason] x1]|] eqn:E; [|done].
  cbn [mbind option_bind]. apply execute_steps_ends in E. pose proof (ends_counted _ _ _ _ _ _ _ E) as Hc.
  fold (counted fs). unfold commit_registers_if_complete.
  assert (((length (filter (λ c, is_applied_star c = true) (counted fs)) =? length (counted fs))
     && (0 <? length (counted fs))) = negb (bool_decide (counted fs = [])) && forallb is_applied_star (counted fs)) as Hgate.
  { pose proof (filter_all_length is_applied_star (counted fs)) as Hf.
    destruct (counted fs) as [|c cs]; [done|]. rewrite bool_decide_eq_false_2 by done. simpl negb.
    rewrite andb_true_l, <-Hf. rewrite andb_true_r. apply eq_true_iff_eq.
    by rewrite Nat.eqb_eq, bool_decide_eq_true. }
  assert (negb (bool_decide (counted fs = [])) && forallb is_applied_star (counted fs) = true ↔
    reason = None ∧ tp_steps plan ≠ []) as Hiff.
  { rewrite <-Hc, andb_true_iff, negb_true_iff, bool_decide_eq_false, forallb_elem_of, Forall_forall. done. }
  destruct (negb _ && _) eqn:Hb; intros [= <- <- <-]; simpl; rewrite Hgate; split_and!; try done.
Qed.

(** C6: the envelope of an execution is truthful.  The reported files are the outcomes of the
    steps in order up to the first that stops, then one row per file of every later step, none of
    which ran; the run is complete exactly when nothing stopped it; and the registers captured
    by the patch reach the session exactly when the run is complete. *)
Theorem transaction_accounting plan regs op_id w b st env regs' x :
  exec_transaction plan regs op_id w b st = Some (env, regs', x) →
  ends op_id 0 (tp_steps plan) (MkExec w b st false) (te_files env) (te_stop_reason env) x ∧
  (te_complete env = true ↔ te_stop_reason env = None ∧ tp_steps plan ≠ []) ∧
  te_registers_committed env = te_complete env ∧
  regs' = (if te_complete env then commit regs (tp_registers plan) else regs).
Proof. apply execution_accounting. Qed.

End Execution.

(** ** A sample journal and samples of executions *)

(** A journal that keeps its records in memory and always answers. *)
#[export] Instance memory_journal : Journal (list (PathBuf * option bytes)) := {
  snapshot_with_op _ path _ _ b w :=
    (Ok (Some (lit "record")), (path, content_at_path (w_disk w) path) :: b, w);
  snapshot_op_tombstone _ _ path _ b w := (Ok (Some (lit "record")), (path, None) :: b, w) }.

#[export] Instance memory_journal_laws : JournalLaws (J := memory_journal) (λ _, False).
Proof. split; intros; simpl; split; reflexivity. Qed.

Definition sample_other : PathBuf := [lit "src"; lit "new.rs"].

Definition sample_mv (baseline : bytes) : PlannedMv :=
  MkPlannedMv sample_file (lit "src/lib.rs") baseline sample_other (lit "src/new.rs") false None
    (lit "moved") region_empty [] [].

Definition sample_state (linked : bool) : Transaction.ExecState (B := list (PathBuf * option bytes)) :=
  MkExec (start (sample_disk linked)) [] store_new false.

Definition sample_step (broken : option nat) (s : PlannedStep) :=
  @execute_step (sample_kernel broken) _ memory_journal [] (λ _, lit "h") (λ p, concat p) (λ _, None) id
    (λ _, false) (lit "session") None 0 s (lit "op") (sample_state false).

(** The move is applied. *)
Lemma mv_never_loses_bytes_witness :
  match sample_step None (Mv (sample_mv (lit "old"))) with
  | Some (StepApplied _, x) =>
      content_at_path (w_disk (ex_world x)) sample_other = Some (lit "moved") ∧
      names (w_disk (ex_world x)) !! sample_file = None
  | _ => False
  end.
Proof.
  destruct (sample_step None (Mv (sample_mv (lit "old")))) as [[[os|os why] x]|] eqn:E;
    [|exfalso; apply (f_equal (λ r, match r with Some (StepApplied _, _) => true | _ => false end)) in E;
      vm_compute in E; discriminate E..].
  apply (mv_never_loses_bytes (K := sample_kernel None) (sample_quiet _) (sample_honest _) (λ _, False) []
    (λ _, lit "h") (λ p, concat p) (λ _, None) id (λ _, false) (lit "session") None 0
    (sample_mv (lit "old")) (lit "op") (sample_state false) (StepApplied os) x (0, 1)%N
    (MkInode (lit "old") 1000 1000 33188 ∅ true)).
  - split; [by_compute|left; by_compute|split; [exact id|intros t; split; exact id]|intros t; split_and!; by_compute].
  - split; [by_compute|by_compute|by_compute|exact id].
  - exact E.
Defined.

(** The source has changed since the plan was made. *)
Lemma drifted_step_writes_nothing_witness :
  match sample_step None (Mv (sample_mv (lit "older"))) with
  | Some (StepStopped _ _, x) => project_kept (λ _, False) (sample_disk false) (w_disk (ex_world x))
  | _ => False
  end.
Proof.
  destruct (sample_step None (Mv (sample_mv (lit "older")))) as [[r x]|] eqn:E.
  2:{ exfalso. apply (f_equal (λ r, bool_decide (is_Some r))) in E. vm_compute in E. discriminate E. }
  destruct (drifted_step_writes_nothing (K := sample_kernel None) (sample_quiet _) (sample_honest _) (λ _, False) []
    (λ _, lit "h") (λ p, concat p) (λ _, None) id (λ _, false) (lit "session") None 0
    (Mv (sample_mv (lit "older"))) (lit "op") (sample_state false) r x sample_file (lit "older"))
    as [(os & why & ->) [Haside _]].
  - by left.
  - split; [tauto|reflexivity].
  - intros [H|[H _]]; discriminate H.
  - exact E.
  - exact Haside.
Defined.

(** A plan of two steps whose first one stops. *)
Definition sample_plan (baseline : bytes) : TransactionPlan :=
  MkTxPlan
    [Mv (sample_mv baseline);
     Mutate (MkPlanned sample_other (lit "src/new.rs") (lit "moved") (lit "edited") region_empty false [] [])]
    (stage registers_new).

Definition sample_run (baseline : bytes) :=
  @execute_transaction (sample_kernel None) _ memory_journal [] (λ _, lit "h") (λ p, concat p) (λ _, None) id
    (λ _, false) (lit "session") None (sample_plan baseline) registers_new (lit "op")
    (start (sample_disk false)) [] store_new.

Lemma transaction_accounting_witness :
  match sample_run (lit "older") with
  | Some (env, _, _) =>
      te_stop_reason env = Some (lit "hashline_baseline_drift") ∧ te_complete env = false
  | None => False
  end.
Proof.
  destruct (sample_run (lit "older")) as [[[env regs'] x]|] eqn:E.
  2:{ exfalso. apply (f_equal (λ r, bool_decide (is_Some r))) in E. vm_compute in E. discriminate E. }
  assert (te_stop_reason env = Some (lit "hashline_baseline_drift")) as Hstop.
  { apply (f_equal (λ r, match r with Some (env, _, _) => te_stop_reason env | None => None end)) in E.
    vm_compute in E. symmetry. exact E. }
  split; [exact Hstop|].
  pose proof (transaction_accounting (K := sample_kernel None) [] (λ _, lit "h") (λ p, concat p)
    (λ _, None) id (λ _, false) (lit "session") None (sample_plan (lit "older")) registers_new (lit "op")
    (start (sample_disk false)) [] store_new env regs' x E) as (_ & Hc & _).
  destruct (te_complete env); [|reflexivity]. exfalso.
  destruct (proj1 Hc eq_refl) as [H _]. rewrite Hstop in H. discriminate H.
Defined.

End TransactionSpec.
