(* ===== verification/TransactionRefine.v ===== *)
(** * Transactions implement their plan

    The abstract effect of a plan on a map of files, and the refinement: when no call fails and
    nobody else touches the files, an execution succeeds and leaves exactly the files the
    abstract plan describes, as its preview announced. *)

From S2P Require Import Prelude RustStr XxHash Scan SnapshotStore Rejection Syntax Address LineEdits.
From S2P Require Import Registers Region ReadCapture Repair Apply PlanSpec FileSys SourceWrite.
From S2P Require Import SourceWriteSpec Transaction TransactionSpec.
Import XxHash Scan SnapshotStore Rejection Syntax Address Registers Region ReadCapture Apply PlanSpec.
Import FileSys SourceWrite SourceWriteSpec Transaction TransactionSpec.

Module TransactionRefine.

(** ** The abstract effect of a plan *)

Abbreviation Files := (gmap PathBuf bytes) (only parsing).

(** One step on files; [None] when its expectations are not met. *)
Definition spec_step (c : Files) (s : PlannedStep) : option Files :=
  match s with
  | Mutate f =>
      if decide (c !! pf_canonical_path f = Some (pf_baseline_bytes f)) then
        Some (if Apply.remove_file f then delete (pf_canonical_path f) c
              else <[pf_canonical_path f := final_bytes f]> c)
      else None
  | Mv mv =>
      if decide (c !! source_canonical mv = Some (source_baseline_bytes mv) ∧
                 c !! dest_canonical mv = dest_baseline_bytes mv ∧
                 source_canonical mv ≠ dest_canonical mv ∧
                 dest_existed mv = bool_decide (is_Some (dest_baseline_bytes mv)))
      then Some (delete (source_canonical mv) (<[dest_canonical mv := mv_final_bytes mv]> c))
      else None
  end.

Fixpoint spec_run (c : Files) (steps : list PlannedStep) : option Files :=
  match steps with [] => Some c | s :: steps => c ← spec_step c s; spec_run c steps end.

Definition step_paths (s : PlannedStep) : list PathBuf :=
  match s with
  | Mutate f => [pf_canonical_path f]
  | Mv mv => [source_canonical mv; dest_canonical mv]
  end.

(** What a reader of an outcome row learns about a file. *)
Definition effect_row (f : FileOutcome) : PathBuf * FileRole * bool * option bytes :=
  (fo_canonical_path f, fo_role f, fo_remove_file f, if fo_remove_file f then None else fo_final_bytes f).

(** ** Programs in a world without failures *)

Definition faultless (K : Kernel) : Prop := ∀ t, fault t = None.

Section Calm.
Context `{K : Kernel} (Hfaultless : faultless K).

(** The program does not change the number of failures. *)
Definition calm {A} (m : M A) : Prop := ∀ w, w_faults (m w).2 = w_faults w.

Lemma calm_ret {A} (a : A) : calm (mret a).
Proof. done. Qed.
Lemma calm_fail {A} e : calm (A := A) (fail e).
Proof. done. Qed.
Lemma calm_bind {A C} (m : M A) (k : A → M C) : calm m → (∀ a, calm (k a)) → calm (m ≫= k).
Proof.
  intros Hm Hk w. unfold mbind, M_bind. specialize (Hm w). destruct (m w) as [[a|e] w']; simpl in *; [|done].
  by rewrite Hk.
Qed.
Lemma calm_attempt {A} (m : M A) : calm m → calm (attempt m).
Proof. intros Hm w. specialize (Hm w). unfold attempt. by destruct (m w). Qed.
Lemma calm_ignore {A} (m : M A) : calm m → calm (ignore m).
Proof. intros Hm w. specialize (Hm w). unfold ignore. by destruct (m w). Qed.
Lemma calm_map_err {A} g (m : M A) : calm m → calm (map_io_err g m).
Proof. intros Hm w. specialize (Hm w). unfold map_io_err. by destruct (m w). Qed.
Lemma calm_or_false (m : M bool) : calm m → calm (or_false m).
Proof. intros Hm w. specialize (Hm w). unfold or_false. by destruct (m w) as [[] ?]. Qed.
Lemma calm_with_drop {A C} (c : M C) (m : M A) : calm c → calm m → calm (with_drop c m).
Proof.
  intros Hc Hm w. specialize (Hm w). unfold with_drop. destruct (m w) as [r w1]. specialize (Hc w1).
  destruct (c w1) as [r' w2]. simpl in *. congruence.
Qed.
Lemma calm_call {A} ko (ok : Disk → result IoError A * Disk) : calm (call ko ok).
Proof. intros w. unfold call. rewrite Hfaultless. by destruct (ok _). Qed.
Lemma calm_getrandom : calm getrandom.
Proof. intros w. apply calm_call. Qed.
Lemma calm_for_each {A} (g : A → M ()) l : (∀ a, calm (g a)) → calm (for_each g l).
Proof. intros Hg. induction l as [|a l IH]; simpl; [apply calm_ret|]. apply calm_bind; auto. Qed.

End Calm.

(** Follow the structure of a program, with [known] for the parts already done. *)
Ltac calm_using known :=
  repeat first
    [ known | apply calm_ret | apply calm_fail | apply calm_bind; [|intros ?] | apply calm_attempt
    | apply calm_ignore | apply calm_map_err | apply calm_or_false | apply calm_with_drop
    | apply calm_getrandom; assumption | apply calm_for_each; intros ? | apply calm_call; assumption
    | match goal with
      | |- calm (match ?x with _ => _ end) => destruct x
      | |- calm (let '_ := ?x in _) => destruct x
      end ].
Ltac calm_tac := calm_using fail.

Section Durable.
Context `{K : Kernel} (Hquiet : quiet K) (Hfaultless : faultless K).
Context (cwd : PathBuf) (name_hash : bytes → str) (display : PathBuf → str).
Context (storage : PathBuf → Prop).

Lemma faultless_honest : honest K.
Proof. intros t e He. by rewrite Hfaultless in He. Qed.

Lemma calm_sync_parent p : calm (sync_parent p).
Proof. unfold sync_parent, open_dir, sync_dir, query. calm_tac. Qed.

Lemma calm_save dest bs : calm (save cwd name_hash dest bs).
Proof.
  unfold save, create_new, write_all, sync_all, FileSys.remove_file, query, effect. calm_tac.
Qed.

Lemma calm_rewrite i bs : calm (rewrite i bs).
Proof. unfold rewrite, set_len_zero, seek_start, write_all, sync_all, query, effect. calm_tac. Qed.

Lemma calm_in_place dest m bs ws : calm (write_source_in_place cwd name_hash display dest m bs ws).
Proof.
  unfold write_source_in_place, open_in_place, save_copy, restore_original, restore_mode, discard,
    open_existing, read_all, fstat, set_permissions, FileSys.remove_file, query, effect.
  calm_using ltac:(first [apply calm_save|apply calm_rewrite]).
Qed.

Lemma calm_copy_access dest j m : calm (copy_access dest j m).
Proof.
  unfold copy_access, xattrs_replace_all, xattrs_snapshot, open_existing, fstat, fchown_group,
    set_permissions, xattrs_of, xattr_remove, xattr_set, query, effect. calm_tac.
Qed.

Lemma calm_write path bs : calm (atomic_write_source cwd name_hash display path bs).
Proof.
  unfold atomic_write_source, write_destination, original_metadata, leftover_copy_warnings,
    replace_source, commit_replacement, symlink_metadata, canonicalize_path, metadata, open_existing,
    read_dir, create_new, write_all, set_permissions, sync_all, rename, FileSys.remove_file, query, effect.
  calm_using ltac:(first [apply calm_in_place|apply calm_copy_access|apply calm_sync_parent]).
Qed.

(** The directories of a path exist. *)
Definition dirs_exist (d : Disk) (p : PathBuf) : Prop :=
  ∀ a, a ∈ ancestors (default [] (parent p)) → names d !! a = Some Dir.

Lemma create_dirs_id (ns : gmap PathBuf Entry) l :
  (∀ a, a ∈ l → ns !! a = Some Dir) → foldr (λ q, <[q := Dir]>) ns l = ns.
Proof.
  induction l as [|a l IH]; intros H; simpl; [done|]. rewrite IH by (intros; apply H; by right).
  apply insert_id, H. by left.
Qed.

Lemma ensure_parent_dirs_id p w :
  p ≠ [] → dirs_exist (w_disk w) p →
  ∃ w', ensure_parent_dirs p w = (Ok tt, w') ∧ w_disk w' = w_disk w ∧ w_faults w' = w_faults w ∧
    is_dir (w_disk w') (default cwd (parent p)).
Proof.
  intros Hp Hd. destruct (exists_last Hp) as (q & y & ->). unfold ensure_parent_dirs.
  unfold dirs_exist in Hd. rewrite parent_snoc in Hd |- *. simpl in Hd.
  unfold create_dir_all, effect, call. rewrite Hquiet, Hfaultless.
  assert (forallb (λ q, match names (w_disk w) !! q with None | Some Dir => true | _ => false end)
    (ancestors q) = true) as ->.
  { apply forallb_elem_of. intros a Ha. by rewrite Hd. }
  rewrite create_dirs_id by done. eexists. split; [done|]. simpl. split_and!; [by destruct (w_disk w)|done|].
  destruct (parent_ancestor (q ++ [y]) q (parent_snoc q y)) as [->|Hin]; [by left|]. right. by apply Hd.
Qed.

(** A durable write without failures. *)
Lemma durable_write_exact p bs w :
  w_faults w = 0 → writable storage cwd name_hash (w_disk w) p → dirs_exist (w_disk w) p →
  ∃ ws w' j nj, durable_write cwd name_hash display p bs w = (Ok ws, w') ∧ w_faults w' = 0 ∧
    names (w_disk w') = <[p := Hard j]> (names (w_disk w)) ∧ inodes (w_disk w') !! j = Some nj ∧
    i_bytes nj = bs ∧
    (∀ i n, names (w_disk w) !! p ≠ Some (Hard i) → inodes (w_disk w) !! i = Some n →
       inodes (w_disk w') !! i = Some n) ∧
    (names (w_disk w) !! p = Some (Hard j) ∨ inodes (w_disk w) !! j = None).
Proof.
  intros Hf Hw Hd. destruct (ensure_parent_dirs_id p w (wb_path _ _ _ _ _ Hw) Hd) as (w1 & He & Hd1 & Hf1 & Hdir).
  rewrite <-Hd1 in Hw |- *. pose proof (writable_write_ready storage cwd name_hash _ _ Hw Hdir) as Hready.
  pose proof (write_runs Hquiet faultless_honest cwd name_hash display (w_disk w1) p bs (w_faults w1) Hready w1
    eq_refl eq_refl) as [Hpost _].
  assert (real_path (w_disk w1) p = p) as Hr.
  { unfold real_path. by destruct (wb_entry _ _ _ _ _ Hw) as [->|(j & m & -> & _)]. }
  destruct (origin_name cwd name_hash _ _ Hready) as (Hname & Hino & _). rewrite Hr in Hname, Hpost.
  pose proof (calm_write p bs w1) as Hcalm. unfold durable_write, mbind, M_bind. rewrite He.
  destruct (atomic_write_source cwd name_hash display p bs w1) as [[o|e] w2]; simpl in Hpost, Hcalm; [|lia].
  exists (sw_warnings o), w2. assert (w_faults w2 = 0) as Hf2 by congruence.
  destruct (sw_mode o).
  - destruct Hpost as (j & nj & Hc & _). pose proof (committed_others _ _ _ _ _ _ Hc) as [_ Hk].
    destruct Hc as (Hn & _ & Hj0 & _ & Hj & Hb & _). exists j, nj. split_and!; try done. by right.
  - destruct Hpost as (Hn & i & n & m & Ho & Hrw & _).
    pose proof Hname as Hname0. rewrite Ho in Hname. simpl in Hname.
    pose proof (rewritten_others cwd name_hash _ _ _ Hname0 _ _ _ _ _ Hrw) as [_ Hk].
    destruct Hrw as (i' & n' & Ho' & _ & _ & Hi & _). rewrite Ho in Ho'. injection Ho' as <- <-.
    exists i. eexists. split_and!; try done; [by rewrite Hn, insert_id by done|by left].
Qed.

End Durable.

(** ** Disks that hold a map of files *)

Section Refine.
Context `{K : Kernel} (Hquiet : quiet K) (Hfaultless : faultless K).
Context {B : Type} `{J : Journal B} (storage : PathBuf → Prop) `{!JournalLaws (J := J) storage}.
Context (cwd : PathBuf) (name_hash : bytes → str) (display : PathBuf → str).

(** The project files [T] and the layout around them. *)
Context (T : PathBuf → Prop).

Record layout : Prop := {
  ly_root : ∀ p, T p → p ≠ [];
  ly_project : ∀ p, T p → ¬ storage p ∧
    (∀ t, ¬ storage (sibling_copy cwd name_hash p t) ∧ ¬ storage (sibling_temporary cwd p t)) ∧
    ∀ a, a ∈ ancestors (default [] (parent p)) → ¬ storage a;
  ly_siblings : ∀ p t, T p → ¬ T (sibling_copy cwd name_hash p t) ∧ ¬ T (sibling_temporary cwd p t) }.

(** The disk holds exactly the files [c] among [T], each with an inode of its own. *)
Record holds (c : Files) (d : Disk) : Prop := {
  ho_file : ∀ p b, T p → c !! p = Some b →
    ∃ i n, names d !! p = Some (Hard i) ∧ inodes d !! i = Some n ∧ i_bytes n = b;
  ho_none : ∀ p, T p → c !! p = None → names d !! p = None;
  ho_own : ∀ p q i, T p → T q → names d !! p = Some (Hard i) → names d !! q = Some (Hard i) → p = q;
  ho_dirs : ∀ p, T p → dirs_exist d p;
  ho_free : ∀ p t, T p →
    names d !! sibling_copy cwd name_hash p t = None ∧ names d !! sibling_temporary cwd p t = None }.

Context (Hlayout : layout).

Lemma holds_kept c d d' : holds c d → project_kept storage d d' → holds c d'.
Proof.
  intros [Hf Hn Ho Hd Hfr] Hk.
  assert (∀ p, T p → names d' !! p = names d !! p) as Hnames
    by (intros p Hp; apply (Hk p (proj1 (ly_project Hlayout p Hp)))).
  split.
  - intros p b Hp Hb. destruct (Hf p b Hp Hb) as (i & n & Hi & Hn' & Hb').
    exists i, n. rewrite Hnames by done. split_and!; try done.
    destruct (Hk p (proj1 (ly_project Hlayout p Hp))) as [_ Hin]. by rewrite Hin.
  - intros p Hp Hc. rewrite Hnames by done. auto.
  - intros p q i Hp Hq. rewrite !Hnames by done. by apply Ho.
  - intros p Hp a Ha. destruct (ly_project Hlayout p Hp) as (_ & _ & Hanc).
    destruct (Hk a (Hanc a Ha)) as [-> _]. by apply (Hd p).
  - intros p t Hp. destruct (ly_project Hlayout p Hp) as (_ & Hs & _). destruct (Hs t) as [Hc Ht].
    destruct (Hk _ Hc) as [-> _], (Hk _ Ht) as [-> _]. auto.
Qed.

Lemma holds_writable c d p : holds c d → T p → writable storage cwd name_hash d p.
Proof.
  intros Hh Hp. destruct (ly_project Hlayout p Hp) as (Hs & Hsib & _).
  split; [by apply (ly_root Hlayout)| |done|].
  - destruct (c !! p) as [b|] eqn:Hc; [right|left; by eapply ho_none].
    destruct (ho_file _ _ Hh p b Hp Hc) as (i & n & ? & ? & _). eauto.
  - intros t. destruct (ho_free _ _ Hh p t Hp). split_and!; try done.
    intros Heq. destruct (ly_siblings Hlayout p t Hp) as [_ Hn]. by rewrite Heq in Hn.
Qed.

Lemma holds_entry c d p : holds c d → T p →
  names d !! p = None ∧ c !! p = None ∨
  ∃ i n, names d !! p = Some (Hard i) ∧ inodes d !! i = Some n ∧ c !! p = Some (i_bytes n).
Proof.
  intros Hh Hp. destruct (c !! p) as [b|] eqn:Hc; [right|left; split; [by eapply ho_none|done]].
  destruct (ho_file _ _ Hh p b Hp Hc) as (i & n & ? & ? & <-). eauto.
Qed.

Lemma holds_dir_ne c d p q a : holds c d → T p → T q → a ∈ ancestors (default [] (parent q)) → a ≠ p.
Proof.
  intros Hh Hp Hq Ha ->. pose proof (ho_dirs _ _ Hh q Hq p Ha) as Hd.
  destruct (holds_entry _ _ _ Hh Hp) as [[Hn _]|(i & n & Hn & _)]; congruence.
Qed.

Lemma sibling_ne p q t : T p → T q → sibling_copy cwd name_hash q t ≠ p ∧ sibling_temporary cwd q t ≠ p.
Proof.
  intros Hp Hq. destruct (ly_siblings Hlayout q t Hq) as [Hc Ht].
  split; intros Heq; rewrite Heq in *; done.
Qed.

Lemma holds_write c d d' p j nj :
  holds c d → T p → names d' = <[p := Hard j]> (names d) → inodes d' !! j = Some nj →
  (∀ i n, names d !! p ≠ Some (Hard i) → inodes d !! i = Some n → inodes d' !! i = Some n) →
  names d !! p = Some (Hard j) ∨ inodes d !! j = None →
  holds (<[p := i_bytes nj]> c) d'.
Proof.
  intros Hh Hp Hn Hj Hk Hnew.
  assert (∀ q, T q → q ≠ p → names d !! q ≠ Some (Hard j)) as Hfresh.
  { intros q Hq Hne Hqj. destruct Hnew as [Hpj|Hnone].
    - apply Hne. by apply (ho_own _ _ Hh q p j).
    - destruct (holds_entry _ _ _ Hh Hq) as [[Hx _]|(i & n & Hx & Hi & _)]; congruence. }
  split.
  - intros q b Hq [[<- <-]|[Hne Hb]]%lookup_insert_Some.
    + exists j, nj. by rewrite Hn, lookup_insert_eq.
    + destruct (ho_file _ _ Hh q b Hq Hb) as (i & n & Hi & Hin & Hbn). exists i, n.
      rewrite Hn, lookup_insert_ne by done. split_and!; try done. apply Hk; [|done].
      intros Hpi. apply Hne. by apply (ho_own _ _ Hh p q i).
  - intros q Hq [Hc Hne]%lookup_insert_None. rewrite Hn, lookup_insert_ne by done.
    by apply (ho_none _ _ Hh).
  - intros q1 q2 i H1 H2. rewrite Hn. destruct (decide (p = q1)) as [<-|Hne1], (decide (p = q2)) as [<-|Hne2];
      rewrite ?lookup_insert_eq, ?lookup_insert_ne by done; [done|..].
    + intros [= <-] Hx. by destruct (Hfresh q2 H2).
    + intros Hx [= <-]. by destruct (Hfresh q1 H1).
    + by apply (ho_own _ _ Hh).
  - intros q Hq a Ha. pose proof (holds_dir_ne _ _ _ _ _ Hh Hp Hq Ha).
    rewrite Hn, lookup_insert_ne by done. by apply (ho_dirs _ _ Hh q).
  - intros q t Hq. destruct (sibling_ne p q t Hp Hq). rewrite Hn, !lookup_insert_ne by done.
    by apply (ho_free _ _ Hh).
Qed.

Lemma holds_remove c d p :
  holds c d → T p → holds (delete p c) (set_names (delete p (names d)) d).
Proof.
  intros Hh Hp. split; simpl.
  - intros q b Hq [Hne Hb]%lookup_delete_Some. rewrite lookup_delete_ne by done. by apply (ho_file _ _ Hh).
  - intros q Hq. destruct (decide (p = q)) as [<-|Hne]; [intros _; apply lookup_delete_eq|].
    rewrite !lookup_delete_ne by done. by apply (ho_none _ _ Hh).
  - intros q1 q2 i H1 H2 [_ Hx]%lookup_delete_Some [_ Hy]%lookup_delete_Some. by apply (ho_own _ _ Hh q1 q2 i).
  - intros q Hq a Ha. pose proof (holds_dir_ne _ _ _ _ _ Hh Hp Hq Ha).
    simpl. rewrite lookup_delete_ne by done. by apply (ho_dirs _ _ Hh q).
  - intros q t Hq. destruct (ho_free _ _ Hh q t Hq) as [Hc Ht].
    split; apply lookup_delete_None; by right.
Qed.

(** ** Execution without failures *)

Context (canonicalize : PathBuf → option PathBuf) (content_fingerprint : bytes → bytes).
Context (inspect_is_binary : bytes → bool) (session : str).

(** The journal accepts every record, without a failing call. *)
Class JournalAvailable : Prop := {
  snapshot_available s p description op_id b w :
    ∃ id b' w', snapshot_with_op s p description op_id b w = (Ok id, b', w') ∧ w_faults w' = w_faults w;
  tombstone_available s op_id p description b w :
    ∃ id b' w', snapshot_op_tombstone s op_id p description b w = (Ok id, b', w') ∧
      w_faults w' = w_faults w }.
Context `{!JournalAvailable}.

Abbreviation ExecState := (Transaction.ExecState (B := B)).
Abbreviation disk x := (w_disk (ex_world x)).

(** The states an undisturbed execution goes through. *)
Record ready (c : Files) (x : ExecState) : Prop := {
  rd_holds : holds c (disk x);
  rd_faults : w_faults (ex_world x) = 0;
  rd_store : store_inv (ex_snapshots x) }.

Lemma io_query {A} (ok : Disk → result IoError A) c (x : ExecState) :
  ready c x → ∃ x', io (query ok) x = (ok (disk x), x') ∧ ready c x' ∧ disk x' = disk x.
Proof.
  intros [Hh Hf Hs]. unfold io. destruct (query ok (ex_world x)) as [r w] eqn:E.
  apply (query_world Hquiet) in E as (Hd & _ & Hr & _). destruct (Hr (Hfaultless _)) as [-> Hfw].
  eexists. split; [done|]. split; [|done]. split; simpl; [by rewrite Hd|congruence|done].
Qed.

Lemma journal_ready s p description op_id c (x : ExecState) :
  ready c x → ∃ id x', journal (snapshot_with_op s p description op_id) x = (Ok id, x') ∧ ready c x'.
Proof.
  intros [Hh Hf Hs].
  destruct (snapshot_available s p description op_id (ex_backups x) (ex_world x)) as (id & b & w & E & Hfw).
  pose proof (snapshot_project s p description op_id (ex_backups x) (ex_world x)) as Hk. cbv zeta in Hk.
  unfold journal. rewrite E in Hk |- *. destruct Hk as [Hk _]. do 2 eexists. split; [done|].
  split; simpl; [by eapply holds_kept|congruence|done].
Qed.

Lemma tombstone_ready s op_id p description c (x : ExecState) :
  ready c x → ∃ id x', journal (snapshot_op_tombstone s op_id p description) x = (Ok id, x') ∧ ready c x'.
Proof.
  intros [Hh Hf Hs].
  destruct (tombstone_available s op_id p description (ex_backups x) (ex_world x)) as (id & b & w & E & Hfw).
  pose proof (tombstone_project s op_id p description (ex_backups x) (ex_world x)) as Hk. cbv zeta in Hk.
  unfold journal. rewrite E in Hk |- *. destruct Hk as [Hk _]. do 2 eexists. split; [done|].
  split; simpl; [by eapply holds_kept|congruence|done].
Qed.

Lemma read_holds c d p b :
  holds c d → T p → c !! p = Some b →
  match names d !! real_path d p with
  | Some (Hard i) => ok_or (os_error NotFound) (i_bytes <$> inodes d !! i)
  | Some _ => Err (os_error OtherError)
  | None => Err (os_error NotFound)
  end = Ok b.
Proof.
  intros Hh Hp Hc. destruct (ho_file _ _ Hh p b Hp Hc) as (i & n & Hi & Hn & <-).
  unfold real_path. by rewrite Hi, Hi, Hn.
Qed.

Lemma baseline_ready c (x : ExecState) p b :
  ready c x → T p → c !! p = Some b → ∃ x', baseline_matches p b x = (true, x') ∧ ready c x'.
Proof.
  intros Hr Hp Hc. unfold baseline_matches, read_path.
  match goal with |- context [io (query ?ok) x] => destruct (io_query ok c x Hr) as (x' & -> & Hr' & _) end.
  rewrite (read_holds c _ p b (rd_holds _ _ Hr) Hp Hc). exists x'. split; [|done].
  by rewrite bool_decide_eq_true_2.
Qed.

Lemma read_ready c (x : ExecState) p b :
  ready c x → T p → c !! p = Some b → ∃ x', io (read_path p) x = (Ok b, x') ∧ ready c x'.
Proof.
  intros Hr Hp Hc. unfold read_path.
  match goal with |- context [io (query ?ok) x] => destruct (io_query ok c x Hr) as (x' & -> & Hr' & _) end.
  rewrite (read_holds c _ p b (rd_holds _ _ Hr) Hp Hc). eauto.
Qed.

Lemma remove_ready c (x : ExecState) p b :
  ready c x → T p → c !! p = Some b →
  ∃ x', io (FileSys.remove_file p) x = (Ok tt, x') ∧ ready (delete p c) x'.
Proof.
  intros [Hh Hf Hs] Hp Hc. unfold io, FileSys.remove_file, effect, call. rewrite Hquiet, Hfaultless.
  destruct (ho_file _ _ Hh p b Hp Hc) as (i & n & Hi & _). rewrite Hi. eexists. split; [done|].
  split; simpl; [by apply holds_remove|done|done].
Qed.

Lemma write_ready_state c (x : ExecState) p bs :
  ready c x → T p →
  ∃ ws x', io (durable_write cwd name_hash display p bs) x = (Ok ws, x') ∧ ready (<[p := bs]> c) x'.
Proof.
  intros [Hh Hf Hs] Hp.
  destruct (durable_write_exact Hquiet Hfaultless cwd name_hash display storage p bs (ex_world x) Hf
    (holds_writable _ _ _ Hh Hp) (ho_dirs _ _ Hh p Hp)) as (ws & w & j & nj & E & Hfw & Hn & Hj & Hb & Hk & Hnew).
  unfold io. rewrite E. do 2 eexists. split; [done|]. split; simpl; [|done|done].
  rewrite <-Hb. by eapply holds_write.
Qed.

(** Creating the directories once more changes nothing. *)
Lemma ensure_write_ready c (x : ExecState) p bs :
  ready c x → T p →
  ∃ ws x', io (_ ← ensure_parent_dirs p; durable_write cwd name_hash display p bs) x = (Ok ws, x') ∧
    ready (<[p := bs]> c) x'.
Proof.
  intros Hr Hp. destruct Hr as [Hh Hf Hs].
  destruct (ensure_parent_dirs_id Hquiet Hfaultless cwd p (ex_world x) (ly_root Hlayout p Hp) (ho_dirs _ _ Hh p Hp))
    as (w1 & E & Hd & Hf1 & _).
  set (x1 := MkExec w1 (ex_backups x) (ex_snapshots x) (ex_journaled x)).
  destruct (write_ready_state c x1 p bs) as (ws & x' & E' & Hr'); [|done|].
  { split; simpl; [by rewrite Hd|congruence|done]. }
  exists ws, x'. split; [|done]. unfold io, mbind, M_bind in *. rewrite E.
  simpl in E'. destruct (durable_write _ _ _ _ _ w1) as [[ws'|e] w2]; simpl in *; congruence.
Qed.

(** Publishing a tag always answers and keeps the snapshot store well-formed. *)
Lemma publish_response_total st p requested bs affected :
  store_inv st →
  ∃ r st', publish_edit_response_snapshot canonicalize content_fingerprint inspect_is_binary st p
    requested bs affected = Some (r, st') ∧ store_inv st'.
Proof.
  intros Hinv. unfold publish_edit_response_snapshot. destruct (_ || _); [eauto|].
  case_bool_decide; [eauto|]. destruct (scan_bytes_spec bs request_whole_file) as (s & -> & _).
  cbn [mbind option_bind].
  destruct (publish_spec canonicalize content_fingerprint st p
    (snapshot_for_lines s (affected_output_lines s affected)) Hinv) as (o & st' & -> & Hinv' & Ho).
  cbn [mbind option_bind]. destruct (po_status o); [|eauto]. destruct Ho as [-> _].
  cbn [mbind option_bind]. eauto.
Qed.

Lemma observe_ready c (x : ExecState) step p requested bs affected :
  ready c x →
  ∃ t nt cl x', observe_tag canonicalize content_fingerprint inspect_is_binary None step p requested bs
    affected x = Some (t, nt, cl, x') ∧ ready c x'.
Proof.
  intros [Hh Hf Hs]. unfold observe_tag. change (fault_is None ?w) with false. cbv iota zeta.
  destruct (publish_response_total (ex_snapshots x) p requested bs affected Hs) as (r & st & -> & Hinv).
  cbn [mbind option_bind]. destruct (tag_from_publish r Applied) as [[t nt] cl]. do 4 eexists. split; [done|]. by split.
Qed.

Lemma forget_ready c (x : ExecState) p : ready c x → ready c (forget_source canonicalize p x).
Proof. intros [Hh Hf Hs]. split; [done|done|]. by apply invalidate_inv. Qed.

(** ** The refinement of one step *)

Abbreviation exec_step := (execute_step cwd name_hash display canonicalize content_fingerprint
  inspect_is_binary session None).

Lemma mutate_refines step f op_id c c' (x : ExecState) :
  ready c x → T (pf_canonical_path f) → spec_step c (Mutate f) = Some c' →
  ∃ os x', exec_step step (Mutate f) op_id x = Some (StepApplied os, x') ∧ ready c' x' ∧
    effect_row <$> os = effect_row <$> preview_step_files (Mutate f).
Proof.
  intros Hr Hp. simpl. case_decide as Hc; [|done]. intros [= <-].
  unfold execute_mutate, journal_existing_or_skip, path_exists, symlink_metadata.
  change (fault_is None ?w) with false. cbv iota zeta.
  match goal with |- context [io (query ?ok) x] => destruct (io_query ok c x Hr) as (x1 & -> & Hr1 & _) end.
  assert (∃ id x2, (if negb (negb (is_err (match names (disk x) !! pf_canonical_path f with
      | Some (Hard i) => ok_or (os_error NotFound) (stat_inode (disk x) i <$> inodes (disk x) !! i)
      | Some (SymLink _) => Ok (stat_other true)
      | Some Dir => Ok (stat_other false)
      | None => Err (os_error NotFound)
      end))) then (Ok None, x1)
      else journal (snapshot_with_op session (pf_canonical_path f) (lit "hashline: pre-mutation backup")
             (Some op_id)) x1) = (Ok id, x2) ∧ ready c x2) as (id & x2 & -> & Hr2).
  { destruct (is_err _); simpl; [eauto|by apply journal_ready]. }
  destruct (baseline_ready c x2 _ _ Hr2 Hp Hc) as (x3 & -> & Hr3). cbn [negb].
  destruct (Apply.remove_file f) eqn:Hrm.
  - unfold execute_removal. destruct (remove_ready c x3 _ _ Hr3 Hp Hc) as (x4 & -> & Hr4).
    do 2 eexists. split; [done|]. split; [by apply forget_ready|]. done.
  - unfold execute_write. destruct (write_ready_state c x3 _ (final_bytes f) Hr3 Hp) as (ws & x4 & -> & Hr4).
    destruct (read_ready _ x4 _ _ Hr4 Hp (lookup_insert_eq _ _ _)) as (x5 & -> & Hr5).
    match goal with |- context [observe_tag _ _ _ None ?st ?q ?rq ?b ?a ?y] =>
      destruct (observe_ready _ y st q rq b a Hr5) as (t & nt & cl & x6 & -> & Hr6) end.
    do 2 eexists. split; [done|]. split; [done|]. done.
Qed.

Lemma mv_refines step mv op_id c c' (x : ExecState) :
  ready c x → T (source_canonical mv) → T (dest_canonical mv) → spec_step c (Mv mv) = Some c' →
  ∃ os x', exec_step step (Mv mv) op_id x = Some (StepApplied os, x') ∧ ready c' x' ∧
    effect_row <$> os = effect_row <$> preview_step_files (Mv mv).
Proof.
  intros Hr Hs Hd. simpl. case_decide as Hc; [|done]. destruct Hc as (Hsrc & Hdst & Hne & _). intros [= <-].
  unfold execute_mv. change (fault_is None ?w) with false. cbv iota zeta.
  assert (∃ id x1, (if dest_existed mv
      then journal (snapshot_with_op session (dest_canonical mv) (lit "hashline: MV destination backup") (Some op_id)) x
      else journal (snapshot_op_tombstone session op_id (dest_canonical mv) (lit "hashline: MV created destination")) x)
      = (Ok id, x1) ∧ ready c x1) as (id & x1 & -> & Hr1).
  { destruct (dest_existed mv); [by apply journal_ready|by apply tombstone_ready]. }
  destruct (journal_ready session (source_canonical mv) (lit "hashline: MV source backup") (Some op_id) c x1 Hr1)
    as (id2 & x2 & -> & Hr2).
  assert (∃ x3, mv_baselines_match mv x2 = (true, x3) ∧ ready c x3) as (x3 & -> & Hr3).
  { unfold mv_baselines_match. destruct (baseline_ready c x2 _ _ Hr2 Hs Hsrc) as (x3 & -> & Hr3). cbn [negb].
    destruct (dest_baseline_bytes mv) as [b|]; [by apply baseline_ready|eauto]. }
  cbn [negb].
  destruct (ensure_write_ready c x3 (dest_canonical mv) (mv_final_bytes mv) Hr3 Hd) as (ws & x4 & -> & Hr4).
  unfold execute_unlink. change (fault_is None ?w) with false. cbv iota zeta. cbn [add_mv_warnings dest_canonical source_canonical].
  destruct (read_ready _ x4 _ _ Hr4 Hd (lookup_insert_eq _ _ _)) as (x5 & -> & Hr5).
  destruct (remove_ready _ x5 _ (source_baseline_bytes mv) Hr5 Hs) as (x6 & -> & Hr6);
    [by rewrite lookup_insert_ne|]. cbn [is_err negb].
  match goal with |- context [observe_tag _ _ _ None ?st ?q ?rq ?b ?a ?y] =>
    destruct (observe_ready _ y st q rq b a (forget_ready _ _ (source_canonical mv) Hr6)) as (t & nt & cl & x7 & -> & Hr7) end.
  do 2 eexists. split; [done|]. split; [done|]. done.
Qed.

Lemma step_refines step s op_id c c' (x : ExecState) :
  ready c x → Forall T (step_paths s) → spec_step c s = Some c' →
  ∃ os x', exec_step step s op_id x = Some (StepApplied os, x') ∧ ready c' x' ∧
    effect_row <$> os = effect_row <$> preview_step_files s.
Proof.
  intros Hr Hp. destruct s as [f|mv]; simpl in Hp.
  - inversion_clear Hp. by apply mutate_refines.
  - inversion_clear Hp as [|? ? Hs Hp']. inversion_clear Hp'. by apply mv_refines.
Qed.

Lemma steps_refine index steps op_id c c' (x : ExecState) :
  ready c x → Forall (λ s, Forall T (step_paths s)) steps → spec_run c steps = Some c' →
  ∃ fs x', execute_steps cwd name_hash display canonicalize content_fingerprint inspect_is_binary
      session None index steps op_id x = Some (fs, None, x') ∧ ready c' x' ∧
    effect_row <$> fs = effect_row <$> concat (preview_step_files <$> steps).
Proof.
  revert index c x. induction steps as [|s steps IH]; intros index c x Hr Hp; cbn [spec_run execute_steps].
  { intros [= <-]. do 2 eexists. by split. }
  inversion_clear Hp as [|? ? Hs Hps]. destruct (spec_step c s) as [c1|] eqn:E; [|done]. cbn [mbind option_bind].
  intros Hrun. destruct (step_refines index s op_id c c1 x Hr Hs E) as (os & x1 & -> & Hr1 & Ho).
  destruct (IH (S index) c1 x1 Hr1 Hps Hrun) as (fs & x2 & E2 & Hr2 & Hf). cbn [mbind option_bind]. rewrite E2.
  cbn [mbind option_bind]. do 2 eexists. split; [done|]. split; [done|].
  cbn [fmap list_fmap concat]. by rewrite !fmap_app, Ho, Hf.
Qed.

Lemma undisturbed_execution plan regs op_id w (b : B) st c c' :
  holds c (w_disk w) → w_faults w = 0 → store_inv st → tp_steps plan ≠ [] →
  Forall (λ s, Forall T (step_paths s)) (tp_steps plan) →
  spec_run c (tp_steps plan) = Some c' →
  ∃ env x, execute_transaction cwd name_hash display canonicalize content_fingerprint
      inspect_is_binary session None plan regs op_id w b st
      = Some (env, commit regs (tp_registers plan), x) ∧
    holds c' (disk x) ∧ te_complete env = true ∧ te_stop_reason env = None ∧
    effect_row <$> te_files env = effect_row <$> te_files (preview_transaction plan).
Proof.
  intros Hh Hf Hs Hne Hp Hrun.
  assert (ready c (MkExec w b st false)) as Hr by (by split).
  destruct (steps_refine 0 (tp_steps plan) op_id c c' _ Hr Hp Hrun) as (fs & x & E & Hr' & Hrows).
  destruct (execute_transaction cwd name_hash display canonicalize content_fingerprint
    inspect_is_binary session None plan regs op_id w b st) as [[[env regs'] x']|] eqn:Ex.
  - pose proof (execution_accounting _ _ _ _ _ _ _ _ _ _ _ _ _ _ _ _ _ Ex) as (_ & Hcomplete & _ & ->).
    assert (te_files env = fs ∧ te_stop_reason env = None ∧ x' = x) as (Hfs & Hstop & ->).
    { unfold execute_transaction in Ex. rewrite E in Ex. cbn [mbind option_bind] in Ex.
      destruct (commit_registers_if_complete _ _ _) as [cm rg]. by injection Ex as <- _ <-. }
    rewrite (proj2 Hcomplete) by done. exists env, x. rewrite Hfs.
    split_and!; try done; [apply Hr'|by apply Hcomplete].
  - unfold execute_transaction in Ex. rewrite E in Ex. cbn [mbind option_bind] in Ex.
    by destruct (commit_registers_if_complete _ _ _).
Qed.

(** C2: an undisturbed execution implements its plan.  When no call fails, nobody else touches the
    files and the journal accepts records, a plan whose expectations hold on the files [c] is
    executed to the end: the disk then holds exactly the files the abstract plan leaves, the
    envelope is complete with no stop reason, the registers are committed, and the rows report
    the same paths, roles, removals and bytes as the preview of the plan. *)
Theorem transaction_refines_plan plan regs op_id w (b : B) st c c' :
  holds c (w_disk w) → w_faults w = 0 → store_inv st → tp_steps plan ≠ [] →
  Forall (λ s, Forall T (step_paths s)) (tp_steps plan) →
  spec_run c (tp_steps plan) = Some c' →
  ∃ env x, execute_transaction cwd name_hash display canonicalize content_fingerprint
      inspect_is_binary session None plan regs op_id w b st
      = Some (env, commit regs (tp_registers plan), x) ∧
    holds c' (disk x) ∧ te_complete env = true ∧ te_stop_reason env = None ∧
    effect_row <$> te_files env = effect_row <$> te_files (preview_transaction plan).
Proof. apply undisturbed_execution. Qed.

End Refine.

(** ** A sample *)

#[export] Instance memory_journal_available : JournalAvailable (J := memory_journal).
Proof. split; intros; simpl; by do 3 eexists. Qed.

Definition sample_paths (p : PathBuf) : Prop := p = sample_file ∨ p = sample_other.

Lemma sample_faultless : faultless (sample_kernel None).
Proof. done. Qed.

Lemma sample_layout : @layout (sample_kernel None) (λ _, False) [] (λ _, lit "h") sample_paths.
Proof.
  split.
  - by intros p [->| ->].
  - intros p _. split; [exact id|]. split; [intros t; split; exact id|intros a _; exact id].
  - intros p t [->| ->]; (split; [intros [H|H]; vm_compute in H; discriminate H..]).
Qed.

Lemma sample_holds :
  @holds (sample_kernel None) [] (λ _, lit "h") sample_paths {[sample_file := lit "old"]} (sample_disk false).
Proof.
  split.
  - intros p b [->| ->] Hb; vm_compute in Hb; [|discriminate Hb]. injection Hb as <-.
    exists (0, 1)%N, (MkInode (lit "old") 1000 1000 33188 ∅ true). split_and!; by_compute.
  - intros p [->| ->] Hb; [vm_compute in Hb; discriminate Hb|by_compute].
  - intros p q i [->| ->] [->| ->] Hp Hq; try done; vm_compute in Hp, Hq; congruence.
  - intros p [->| ->]; unfold dirs_exist; refine (proj1 (Forall_forall (λ a, names (sample_disk false) !! a = Some Dir) _) _); by_compute.
  - intros p t [->| ->]; split; by_compute.
Qed.

(** The file is moved and its new name edited. *)
Lemma transaction_refines_plan_witness :
  match sample_run (lit "old") with
  | Some (env, _, x) =>
      te_complete env = true ∧
      @holds (sample_kernel None) [] (λ _, lit "h") sample_paths {[sample_other := lit "edited"]}
        (w_disk (ex_world x))
  | None => False
  end.
Proof.
  destruct (transaction_refines_plan (K := sample_kernel None) (sample_quiet _) sample_faultless (λ _, False)
    [] (λ _, lit "h") (λ p, concat p) sample_paths sample_layout (λ _, None) id (λ _, false) (lit "session")
    (sample_plan (lit "old")) registers_new (lit "op") (start (sample_disk false)) [] store_new
    {[sample_file := lit "old"]} {[sample_other := lit "edited"]}) as (env & x & E & Hh & Hc & _).
  - apply sample_holds.
  - reflexivity.
  - apply store_new_inv.
  - discriminate.
  - constructor; [|constructor; [|constructor]].
    + constructor; [by left|]. constructor; [by right|constructor].
    + constructor; [by right|constructor].
  - vm_compute. reflexivity.
  - unfold sample_run. rewrite E. split; assumption.
Defined.

End TransactionRefine.
