(* ===== verification/TransactionPlanSpec.v ===== *)
(** * What the planner of a transaction guarantees

    Phase 1 of [hashline/transaction/mod.rs]: how the steps of a plan come from the sections of
    the request, and the composition of planning with an undisturbed execution. *)

From S2P Require Import Prelude RustStr XxHash Scan SnapshotStore Rejection Syntax Address LineEdits.
From S2P Require Import Registers Region ReadCapture Repair Apply PlanSpec FileSys SourceWrite.
From S2P Require Import SourceWriteSpec Transaction TransactionSpec TransactionRefine.
Import XxHash Scan SnapshotStore Rejection Syntax Address Registers Region ReadCapture Apply PlanSpec.
Import FileSys SourceWrite SourceWriteSpec Transaction TransactionSpec TransactionRefine.

Module TransactionPlanSpec.

(** ** Merging sections *)

(** The line operations of a section, as the file planner receives them. *)
Definition line_of (s : TransactionSectionInput) (i : SectionPlanInput) : Prop :=
  si_canonical_path i = ts_canonical_path s ∧ si_baseline i = ts_baseline s ∧
  si_snapshot i = ts_snapshot s ∧
  ∃ mv, split_mv (ts_operations s) (ts_resolved s) = Ok (si_operations i, si_resolved i, mv) ∧
    (is_Some mv ↔ is_Some (ts_mv_destination s)).

Abbreviation paths sections := (ts_canonical_path <$> sections).

(** The section that moves a path: the last one of its path. *)
Definition moved_by (sections : list TransactionSectionInput) (p : PathBuf) (d : MvDestinationInput) : Prop :=
  ∃ before s after, sections = before ++ s :: after ∧ ts_canonical_path s = p ∧
    ts_mv_destination s = Some d ∧ p ∉ paths after.

(** What is known after the sections [seen]. *)
Record gathered (seen : list TransactionSectionInput) (g : Gathered) : Prop := {
  ga_lines : Forall2 line_of seen (g_line_sections g);
  ga_paths : ∀ p, p ∈ g_source_paths g ↔ p ∈ paths seen;
  ga_moves : ∀ p mv, g_moves g !! p = Some mv → moved_by seen p (mm_destination mv);
  ga_dest : ∀ s d, s ∈ seen → ts_mv_destination s = Some d →
    mm_destination <$> g_moves g !! ts_canonical_path s = Some d;
  ga_rem : ∀ p, p ∈ g_rem_paths g ↔
    ∃ i, i ∈ g_line_sections g ∧ si_canonical_path i = p ∧ existsb is_rem (si_operations i) = true }.

Lemma gathered_nil : gathered [] (MkGathered [] ∅ ∅ ∅).
Proof.
  split; simpl; [constructor|..].
  - intros p. split; [set_solver|]. by intros ?%not_elem_of_nil.
  - intros p mv. by rewrite lookup_empty.
  - by intros s d ?%not_elem_of_nil.
  - intros p. split; [set_solver|]. by intros (i & ?%not_elem_of_nil & _).
Qed.

Lemma moved_by_snoc seen s p d :
  moved_by seen p d → ts_canonical_path s ≠ p → moved_by (seen ++ [s]) p d.
Proof.
  intros (before & t & after & -> & Hp & Hd & Ha) Hne. exists before, t, (after ++ [s]).
  split; [by rewrite <-app_assoc|]. split_and!; try done. rewrite fmap_app. set_solver.
Qed.

Lemma rem_snoc (r : gset PathBuf) ls i p :
  (∀ p, p ∈ r ↔ ∃ i, i ∈ ls ∧ si_canonical_path i = p ∧ existsb is_rem (si_operations i) = true) →
  p ∈ (if existsb is_rem (si_operations i) then {[si_canonical_path i]} ∪ r else r) ↔
  ∃ j, j ∈ ls ++ [i] ∧ si_canonical_path j = p ∧ existsb is_rem (si_operations j) = true.
Proof.
  intros Hr. setoid_rewrite elem_of_app. setoid_rewrite list_elem_of_singleton.
  destruct (existsb is_rem (si_operations i)) eqn:E.
  - rewrite elem_of_union, elem_of_singleton, Hr. naive_solver.
  - rewrite Hr. naive_solver congruence.
Qed.

Lemma gather_section_spec seen g s g' :
  gathered seen g → gather_section g s = Ok g' → gathered (seen ++ [s]) g'.
Proof.
  intros [Hl Hp Hm Hd Hr]. unfold gather_section.
  destruct (g_moves g !! ts_canonical_path s) as [previous|] eqn:Hprev; [done|].
  intros ([[ops rs] mv] & Hsplit & H)%bind_Ok.
  set (i := MkInput (ts_canonical_path s) (ts_requested_path s) (ts_baseline s) (ts_snapshot s) ops rs) in *.
  assert (is_Some mv ↔ is_Some (ts_mv_destination s)) as Hmv.
  { destruct mv, (ts_mv_destination s); try done; split; by intros []. }
  assert (Forall2 line_of (seen ++ [s]) (g_line_sections g ++ [i])) as Hl'.
  { apply Forall2_app; [done|]. constructor; [|constructor]. split_and!; try done. by exists mv. }
  assert (∀ p, p ∈ ({[ts_canonical_path s]} ∪ g_source_paths g : gset PathBuf) ↔ p ∈ paths (seen ++ [s])) as Hp'.
  { intros p. rewrite fmap_app, elem_of_union, elem_of_app, Hp, elem_of_singleton. cbn [fmap list_fmap].
    rewrite list_elem_of_singleton. tauto. }
  assert (∀ p m, g_moves g !! p = Some m → moved_by (seen ++ [s]) p (mm_destination m)) as Hm'.
  { intros p m Hpm. apply moved_by_snoc; [by apply Hm|]. congruence. }
  pose proof (λ p, rem_snoc _ _ i p Hr) as Hr'.
  assert (∀ t d, t ∈ seen → ts_mv_destination t = Some d → ts_canonical_path t ≠ ts_canonical_path s) as Hne.
  { intros t d Ht Hdt Heq. apply (Hd t d Ht) in Hdt. rewrite Heq, Hprev in Hdt. done. }
  destruct mv as [mv|], (ts_mv_destination s) as [d|] eqn:Ed; try done; injection H as <-; split; try done; simpl.
  - intros p m [[<- <-]|[_ ?]]%lookup_insert_Some; [|auto]. exists seen, s, []. by split_and!; [..|apply not_elem_of_nil].
  - intros t d' [Ht| ->%list_elem_of_singleton]%elem_of_app Hdt.
    + rewrite lookup_insert_ne; [by apply Hd|]. intros Heq. by apply (Hne t d').
    + rewrite lookup_insert_eq. simpl. congruence.
  - intros t d' [Ht| ->%list_elem_of_singleton]%elem_of_app Hdt; [by apply Hd|congruence].
Qed.

Lemma gather_sections_spec seen g rest g' :
  gathered seen g → gather_sections g rest = Ok g' → gathered (seen ++ rest) g'.
Proof.
  revert seen g. induction rest as [|s rest IH]; intros seen g Hg; simpl.
  - intros [= <-]. by rewrite app_nil_r.
  - intros (g1 & H1 & H2)%bind_Ok. change (s :: rest) with ([s] ++ rest). rewrite app_assoc.
    eapply IH; [|done]. by eapply gather_section_spec.
Qed.

(** ** Conflicts of moves *)

Lemma check_moves_spec g moves p mv :
  check_moves g moves = Ok tt → (p, mv) ∈ moves →
  (p ∉ g_rem_paths g) ∧ md_canonical_path (mm_destination mv) ≠ p ∧
  md_canonical_path (mm_destination mv) ∉ g_source_paths g.
Proof.
  induction moves as [|[q m] moves IH]; simpl; [by intros _ ?%not_elem_of_nil|].
  intros ([] & Hc & Hr)%bind_Ok [[= -> ->]|Hin]%elem_of_cons; [|auto].
  revert Hc. unfold check_move. by repeat case_decide.
Qed.

(** ** Steps *)

Definition step_source (s : PlannedStep) : PathBuf :=
  match s with Mutate f => pf_canonical_path f | Mv mv => source_canonical mv end.
Definition step_baseline (s : PlannedStep) : bytes :=
  match s with Mutate f => pf_baseline_bytes f | Mv mv => source_baseline_bytes mv end.
Definition step_final (s : PlannedStep) : bytes :=
  match s with Mutate f => final_bytes f | Mv mv => mv_final_bytes mv end.

Lemma planned_step_frame moves f :
  step_source (planned_step moves f) = pf_canonical_path f ∧
  step_baseline (planned_step moves f) = pf_baseline_bytes f.
Proof. unfold planned_step. by destruct (moves !! _). Qed.

Lemma rollback_available backups s :
  assert_rollback_available backups s = Ok tt →
  backups = true ∨ ∃ mv, s = Mv mv ∧ dest_existed mv = false.
Proof.
  unfold assert_rollback_available. destruct backups; [by left|]. destruct s as [f|mv]; [done|].
  destruct (dest_existed mv) eqn:E; [done|]. eauto.
Qed.

(** Taking a move out does not matter to the other files. *)
Lemma planned_steps_spec backups moves fs steps :
  NoDup (pf_canonical_path <$> fs) → planned_steps backups moves fs = Ok steps →
  steps = planned_step moves <$> fs ∧
  Forall (λ s, backups = true ∨ ∃ mv, s = Mv mv ∧ dest_existed mv = false) steps.
Proof.
  revert moves steps. induction fs as [|f fs IH]; intros moves steps Hnd; simpl; [by intros [= <-]|].
  apply NoDup_cons in Hnd as [Hf Hnd].
  intros ([] & Ha & (rest & Hr & [= <-])%bind_Ok)%bind_Ok. apply IH in Hr as [-> Hall]; [|done].
  assert (planned_step (delete (pf_canonical_path f) moves) <$> fs = planned_step moves <$> fs) as Heq.
  { apply list_fmap_ext. intros k f' Hk. unfold planned_step. rewrite lookup_delete_ne; [done|].
    intros Heq. apply Hf. rewrite Heq. apply list_elem_of_fmap. exists f'. split; [done|].
    by eapply list_elem_of_lookup_2. }
  rewrite Heq in *. split; [done|]. constructor; [by apply rollback_available|done].
Qed.

(** Where a step comes from. *)
Definition planned_from (sections : list TransactionSectionInput) (backups : bool) (s : PlannedStep) : Prop :=
  step_source s ∈ paths sections ∧
  (∀ t, t ∈ sections → ts_canonical_path t = step_source s →
     bl_bytes (ts_baseline t) = step_baseline s) ∧
  match s with
  | Mutate f =>
      backups = true ∧
      ∀ t, t ∈ sections → ts_canonical_path t = pf_canonical_path f → ts_mv_destination t = None
  | Mv mv =>
      (backups = true ∨ dest_existed mv = false) ∧
      (dest_canonical mv ∉ paths sections) ∧
      (∃ d, moved_by sections (source_canonical mv) d ∧ dest_canonical mv = md_canonical_path d ∧
         dest_requested mv = md_requested_path d ∧ dest_baseline_bytes mv = md_baseline_bytes d ∧
         dest_existed mv = bool_decide (is_Some (md_baseline_bytes d)))
  end.

Lemma distinct_paths_NoDup sections : NoDup (distinct_paths sections).
Proof.
  induction sections as [|i sections IH] using rev_ind; [constructor|].
  rewrite distinct_paths_snoc. unfold add_path. case_decide; [done|].
  apply NoDup_app. split_and!; [done| |apply NoDup_singleton]. set_solver.
Qed.

Lemma lines_paths sections lines :
  Forall2 line_of sections lines → si_canonical_path <$> lines = paths sections.
Proof. induction 1 as [|s i ss ls [H _] _ IH]; [done|]. cbn [fmap list_fmap] in *. by rewrite H, IH. Qed.

(** The move of a step, from the merged moves. *)
Lemma planned_step_from sections backups g f :
  gathered sections g → check_moves g (path_entries (g_moves g)) = Ok tt →
  pf_canonical_path f ∈ paths sections →
  (∀ t, t ∈ sections → ts_canonical_path t = pf_canonical_path f →
     bl_bytes (ts_baseline t) = pf_baseline_bytes f) →
  (backups = true ∨ ∃ mv, planned_step (g_moves g) f = Mv mv ∧ dest_existed mv = false) →
  planned_from sections backups (planned_step (g_moves g) f).
Proof.
  intros Hg Hc Hin Hb Hroll. destruct (planned_step_frame (g_moves g) f) as [Hs Hbl].
  split; [by rewrite Hs|]. split; [by rewrite Hs, Hbl|].
  unfold planned_step in *. destruct (g_moves g !! pf_canonical_path f) as [m|] eqn:E; simpl in *.
  - destruct (check_moves_spec _ _ _ _ Hc (proj2 (elem_of_path_entries _ _ _) E)) as (_ & _ & Hd).
    rewrite (ga_paths _ _ Hg) in Hd. split_and!; [|done|].
    + destruct Hroll as [|(mv & [= <-] & Hd')]; [by left|by right].
    + exists (mm_destination m). split; [by apply (ga_moves _ _ Hg)|done].
  - split; [by destruct Hroll as [|(mv & ? & _)]|]. intros t Ht Hp.
    destruct (ts_mv_destination t) as [d|] eqn:Ed; [|done].
    pose proof (ga_dest _ _ Hg t d Ht Ed) as H. by rewrite Hp, E in H.
Qed.

Lemma plan_transaction_spec sections session backups plan :
  plan_transaction sections session backups = Ok plan →
  ∃ lines, Forall2 line_of sections lines ∧ Forall section_exact lines ∧
    step_source <$> tp_steps plan = distinct_paths lines ∧
    Forall (planned_from sections backups) (tp_steps plan) ∧
    (∀ mv i, Mv mv ∈ tp_steps plan → i ∈ lines → si_canonical_path i = source_canonical mv →
       existsb is_rem (si_operations i) = false) ∧
    base (tp_registers plan) = session.
Proof.
  unfold plan_transaction. intros H.
  assert (∃ g, gather_sections (MkGathered [] ∅ ∅ ∅) sections = Ok g ∧
    check_moves g (path_entries (g_moves g)) = Ok tt ∧
    ∃ files, plan_apply (g_line_sections g) session = Ok files ∧
      ∃ steps, planned_steps backups (g_moves g) (Apply.files files) = Ok steps ∧
        plan = MkTxPlan steps (staged_registers files)) as (g & Hgather & Hc & files & Hp & steps & Hst & ->).
  { destruct sections as [|s0 ss]; [done|].
    apply bind_Ok in H as (g & Hg%lift_Ok & ([] & Hc%lift_Ok & (files & Hp & (steps & Hst%lift_Ok & [= <-])%bind_Ok)%bind_Ok)%bind_Ok).
    eauto 10. }
  pose proof (gather_sections_spec [] _ _ _ gathered_nil Hgather : gathered sections g) as Hg.
  apply plan_apply_spec in Hp as (Hexact & Hpaths & Hbase & Hregs).
  pose proof (distinct_paths_NoDup (g_line_sections g)) as Hnd. rewrite <-Hpaths in Hnd.
  destruct (planned_steps_spec _ _ _ _ Hnd Hst) as [-> Hroll]. simpl.
  exists (g_line_sections g). split; [apply Hg|]. split; [done|]. split_and!; [| | |done].
  - rewrite <-Hpaths, <-list_fmap_compose. apply list_fmap_ext. intros k f _. apply planned_step_frame.
  - apply Forall_fmap, Forall_forall. intros f Hf. simpl. apply planned_step_from; [done|done|..].
    + rewrite <-(lines_paths _ _ (ga_lines _ _ Hg)).
      assert (pf_canonical_path f ∈ distinct_paths (g_line_sections g)) as (i & Hi & <-)%elem_of_distinct_paths
        by (rewrite <-Hpaths; by apply list_elem_of_fmap_2).
      by apply list_elem_of_fmap_2.
    + intros t (k & Ht)%list_elem_of_lookup Hpt.
      destruct (Forall2_lookup_l _ _ _ _ _ (ga_lines _ _ Hg) Ht) as (i & Hi & Hip & <- & _).
      apply Hbase; [by eapply list_elem_of_lookup_2|done|congruence].
    + rewrite Forall_fmap, Forall_forall in Hroll. by apply Hroll.
  - intros mv i (f & Hf & _)%list_elem_of_fmap Hi Hp. apply not_true_is_false. intros Hrem.
    unfold planned_step in Hf. destruct (g_moves g !! pf_canonical_path f) as [m|] eqn:E; [|done].
    injection Hf as ->. simpl in Hp.
    destruct (check_moves_spec _ _ _ _ Hc (proj2 (elem_of_path_entries _ _ _) E)) as (Hr & _).
    apply Hr, (ga_rem _ _ Hg). eauto.
Qed.

(** C5: a transaction plan is sound.  When planning succeeds every address of every section was
    verified exact against the file it was planned on; there is one step per path in order of
    first mention, resting on the baseline all sections of the path share; a step is a move
    exactly when a section moves its path, that section is the last of the path, the
    destination's coordinates are the ones supplied, no section edits the destination and none
    removes the source; without backups only moves to new destinations are planned; and the
    session's registers are untouched. *)
Theorem plan_transaction_sound sections session backups plan :
  plan_transaction sections session backups = Ok plan →
  ∃ lines, Forall2 line_of sections lines ∧ Forall section_exact lines ∧
    step_source <$> tp_steps plan = distinct_paths lines ∧
    Forall (planned_from sections backups) (tp_steps plan) ∧
    (∀ mv i, Mv mv ∈ tp_steps plan → i ∈ lines → si_canonical_path i = source_canonical mv →
       existsb is_rem (si_operations i) = false) ∧
    base (tp_registers plan) = session.
Proof. apply plan_transaction_spec. Qed.

(** ** A request from planning to the disk *)

(** A step's expectations, and its result. *)
Definition met (c : gmap PathBuf bytes) (s : PlannedStep) : Prop :=
  c !! step_source s = Some (step_baseline s) ∧
  match s with
  | Mutate _ => True
  | Mv mv => c !! dest_canonical mv = dest_baseline_bytes mv ∧
      source_canonical mv ≠ dest_canonical mv ∧
      dest_existed mv = bool_decide (is_Some (dest_baseline_bytes mv))
  end.
Definition carried_out (c : gmap PathBuf bytes) (s : PlannedStep) : Prop :=
  match s with
  | Mutate f =>
      c !! pf_canonical_path f = if Apply.remove_file f then None else Some (final_bytes f)
  | Mv mv => c !! source_canonical mv = None ∧ c !! dest_canonical mv = Some (mv_final_bytes mv)
  end.

Lemma spec_step_met c s :
  met c s → ∃ c', spec_step c s = Some c' ∧ carried_out c' s ∧
    ∀ p, p ∉ step_paths s → c' !! p = c !! p.
Proof.
  intros [Hs Hm]. destruct s as [f|mv]; simpl in *.
  - rewrite decide_True by done. eexists. split; [done|]. destruct (Apply.remove_file f).
    + split; [apply lookup_delete_eq|]. intros p Hp. apply lookup_delete_ne. set_solver.
    + split; [apply lookup_insert_eq|]. intros p Hp. apply lookup_insert_ne. set_solver.
  - destruct Hm as (Hd & Hne & He). rewrite decide_True by done. eexists. split; [done|]. split.
    + split; [apply lookup_delete_eq|]. rewrite lookup_delete_ne by done. apply lookup_insert_eq.
    + intros p Hp. rewrite lookup_delete_ne, lookup_insert_ne by set_solver. done.
Qed.

Lemma met_kept c c' s : (∀ p, p ∈ step_paths s → c' !! p = c !! p) → met c s → met c' s.
Proof.
  intros Hk [Hs Hm]. destruct s as [f|mv]; simpl in *; unfold met; simpl.
  - rewrite Hk by set_solver. done.
  - rewrite !Hk by set_solver. done.
Qed.

Lemma carried_out_kept c c' s :
  (∀ p, p ∈ step_paths s → c' !! p = c !! p) → carried_out c s → carried_out c' s.
Proof. destruct s as [f|mv]; simpl; intros Hk; rewrite !Hk by set_solver; done. Qed.

(** Steps of different sources touch different paths. *)
Definition separate (steps : list PlannedStep) : Prop :=
  ∀ s t p, s ∈ steps → t ∈ steps → p ∈ step_paths s → p ∈ step_paths t → step_source s = step_source t.

Lemma spec_run_met c steps :
  NoDup (step_source <$> steps) → separate steps → Forall (met c) steps →
  ∃ c', spec_run c steps = Some c' ∧ Forall (carried_out c') steps ∧
    ∀ p, (∀ s, s ∈ steps → p ∉ step_paths s) → c' !! p = c !! p.
Proof.
  revert c. induction steps as [|s steps IH]; intros c Hnd Hsep Hmet; cbn [spec_run].
  { exists c. split_and!; [done|constructor|done]. }
  apply NoDup_cons in Hnd as [Hs Hnd]. inversion_clear Hmet as [|? ? Hms Hms'].
  assert (∀ t p, t ∈ steps → p ∈ step_paths t → p ∉ step_paths s) as Happart.
  { intros t p Ht Hpt Hps. apply Hs. rewrite (Hsep s t p); [|by left|by right|done|done].
    by apply list_elem_of_fmap_2. }
  destruct (spec_step_met c s Hms) as (c1 & -> & Hc1 & Hk1). cbn [mbind option_bind].
  destruct (IH c1) as (c2 & -> & Hc2 & Hk2); [done| | |].
  - intros t u p Ht Hu. apply Hsep; by right.
  - rewrite Forall_forall in Hms' |- *. intros t Ht. apply (met_kept c); [|by apply Hms'].
    intros p Hp. eapply Hk1, Happart; eauto.
  - exists c2. split_and!; [done| |].
    + constructor; [|done]. apply (carried_out_kept c1); [|done]. intros p Hp. apply Hk2.
      intros t Ht Hpt. by apply (Happart t p).
    + intros p Hp. rewrite Hk2, Hk1; [done|apply Hp; by left|]. intros t Ht. apply Hp. by right.
Qed.

(** No two files are moved to the same place. *)
Definition destinations_differ (sections : list TransactionSectionInput) : Prop :=
  ∀ s t d e, s ∈ sections → t ∈ sections → ts_mv_destination s = Some d → ts_mv_destination t = Some e →
    md_canonical_path d = md_canonical_path e → ts_canonical_path s = ts_canonical_path t.

(** The files are as the request saw them. *)
Definition fresh (c : gmap PathBuf bytes) (s : TransactionSectionInput) : Prop :=
  c !! ts_canonical_path s = Some (bl_bytes (ts_baseline s)) ∧
  ∀ d, ts_mv_destination s = Some d → c !! md_canonical_path d = md_baseline_bytes d.

Lemma moved_by_section sections p d :
  moved_by sections p d →
  ∃ s, s ∈ sections ∧ ts_canonical_path s = p ∧ ts_mv_destination s = Some d.
Proof. intros (before & s & after & -> & Hp & Hd & _). exists s. set_solver. Qed.

Lemma planned_separate sections backups steps :
  destinations_differ sections → Forall (planned_from sections backups) steps → separate steps.
Proof.
  intros Hdiff Hall s t p Hs Ht. rewrite Forall_forall in Hall.
  destruct (Hall s Hs) as (Hps & _ & Hms), (Hall t Ht) as (Hpt & _ & Hmt).
  destruct s as [f|m], t as [g|n]; simpl in *; rewrite ?list_elem_of_singleton, ?elem_of_cons, ?elem_of_nil.
  - congruence.
  - destruct Hmt as (_ & Hd & _). intros -> [H|[H|[]]]; [done|]. destruct Hd. by rewrite <-H.
  - destruct Hms as (_ & Hd & _). intros [H|[->|[]]] H'; [congruence|]. destruct Hd. by rewrite H'.
  - destruct Hms as (_ & Hd & d & (s1 & Hs1 & Hp1 & Hd1)%moved_by_section & Hdd & _).
    destruct Hmt as (_ & He & e & (s2 & Hs2 & Hp2 & Hd2)%moved_by_section & Hde & _).
    intros [->|[->|[]]] [H|[H|[]]]; [done|..].
    + destruct He. by rewrite <-H.
    + destruct Hd. by rewrite H.
    + rewrite <-Hp1, <-Hp2. apply (Hdiff s1 s2 d e); congruence || done.
Qed.

Lemma planned_met sections backups c s :
  Forall (fresh c) sections → planned_from sections backups s → met c s.
Proof.
  rewrite Forall_forall. intros Hf (Hin & Hb & Hm).
  pose proof Hin as (t & Hp & Ht)%list_elem_of_fmap. split.
  - destruct (Hf t Ht) as [Hc _]. rewrite Hp, Hc. f_equal. by apply Hb.
  - destruct s as [f|mv]; [done|]. destruct Hm as (_ & Hd & d & (u & Hu & Hpu & Hdu)%moved_by_section & Hdd & _ & -> & ->).
    rewrite Hdd in *. destruct (Hf u Hu) as [_ Hcd]. split_and!; [by apply Hcd| |done]. intros Heq. simpl in Hin. destruct Hd. by rewrite <-Heq.
Qed.

Section EndToEnd.
Context `{K : Kernel} (Hquiet : quiet K) (Hfaultless : faultless K).
Context {B : Type} `{J : Journal B} (storage : PathBuf → Prop) `{!JournalLaws (J := J) storage}.
Context (cwd : PathBuf) (name_hash : bytes → str) (display : PathBuf → str) (T : PathBuf → Prop).
Context (Hlayout : layout storage cwd name_hash T) `{!JournalAvailable (J := J)}.
Context (canonicalize : PathBuf → option PathBuf) (content_fingerprint : bytes → bytes).
Context (inspect_is_binary : bytes → bool) (session : str).

(** C1: a fresh request is carried out.  A request whose sections plan, on files that are as the
    sections saw them, with no two files moved to the same place, is carried out completely when
    no call fails: afterwards every edited file has its planned bytes, every removed file and
    every moved source is gone, every destination has the moved bytes, and every other file is
    unchanged. *)
Theorem fresh_request_carried_out sections session_registers regs backups op_id w (b : B) st plan c :
  plan_transaction sections session_registers backups = Ok plan →
  holds cwd name_hash T c (w_disk w) → w_faults w = 0 → store_inv st →
  Forall (fresh c) sections → destinations_differ sections →
  Forall T (paths sections) →
  (∀ s d, s ∈ sections → ts_mv_destination s = Some d → T (md_canonical_path d)) →
  ∃ env x c', run_transaction cwd name_hash display canonicalize content_fingerprint
      inspect_is_binary session None sections session_registers regs backups false op_id w b st
      = Ok (env, commit regs (tp_registers plan), x) ∧
    te_complete env = true ∧ holds cwd name_hash T c' (w_disk (ex_world x)) ∧
    Forall (carried_out c') (tp_steps plan) ∧
    ∀ p, (∀ s, s ∈ tp_steps plan → p ∉ step_paths s) → c' !! p = c !! p.
Proof.
  intros Hplan Hh Hf Hst Hfresh Hdiff HT HTd.
  pose proof (plan_transaction_spec _ _ _ _ Hplan) as (lines & Hl & _ & Hsrc & Hfrom & _).
  assert (NoDup (step_source <$> tp_steps plan)) as Hnd by (rewrite Hsrc; apply distinct_paths_NoDup).
  destruct (spec_run_met c (tp_steps plan) Hnd (planned_separate _ _ _ Hdiff Hfrom)) as (c' & Hrun & Hdone & Hkept).
  { rewrite Forall_forall in Hfrom |- *. intros s Hs. eapply planned_met; eauto. }
  destruct (undisturbed_execution Hquiet Hfaultless storage cwd name_hash display T Hlayout canonicalize
    content_fingerprint inspect_is_binary session plan regs op_id w b st c c' Hh Hf Hst)
    as (env & x & E & Hh' & Hc & _); [| |done|].
  - destruct sections as [|s0 ss]; [done|]. inversion Hl as [|? i ? ls [Hi _] _]; subst. intros Hnil.
    assert (si_canonical_path i ∈ distinct_paths (i :: ls)) as Hin by (apply elem_of_distinct_paths; set_solver).
    rewrite <-Hsrc, Hnil in Hin. by apply not_elem_of_nil in Hin.
  - rewrite Forall_forall in HT. rewrite Forall_forall in Hfrom. apply Forall_forall. intros s Hs. destruct (Hfrom s Hs) as (Hp & _ & Hm).
    destruct s as [f|mv]; simpl in *; [by constructor; [apply HT|constructor]|].
    destruct Hm as (_ & _ & d & (u & Hu & _ & Hdu)%moved_by_section & -> & _).
    constructor; [by apply HT|]. constructor; [by apply (HTd u)|constructor].
  - exists env, x, c'. split_and!; try done. unfold run_transaction. rewrite Hplan. cbn [mbind result_bind].
    by rewrite E.
Qed.

End EndToEnd.

(** ** Samples *)

(** A section that replaces the first line of a file and moves it to [src/new.rs]. *)
Definition moving_section (p : PathBuf) (content line : str) : list TransactionSectionInput :=
  option_list (b ← baseline_from_bytes content;
    Some (MkTxSection p (concat p) b (bl_snapshot b)
      [OpPut (MkPut (AddrLine (Absolute 1)) (FromText [line]) 2); OpMv (MkMv (lit "src/new.rs") 3)]
      [MkResolvedOp 0 (Span (MkSpan 1 1)); MkResolvedOp 1 Address.WholeFile]
      (Some (MkMvDestination sample_other (lit "src/new.rs") None)))).

Definition sample_request : list TransactionSectionInput := moving_section sample_file (lit "old") (lit "X").

Definition sample_tx_plan : result Failure TransactionPlan := plan_transaction sample_request registers_new true.

Lemma plan_transaction_sound_witness :
  match sample_tx_plan with
  | Ok plan => step_source <$> tp_steps plan = [sample_file] ∧ step_final <$> tp_steps plan = [lit "X"]
  | Err _ => False
  end.
Proof.
  destruct sample_tx_plan as [plan|e] eqn:E.
  2:{ exfalso. apply (f_equal is_err) in E. vm_compute in E. discriminate E. }
  pose proof (plan_transaction_sound sample_request registers_new true plan E) as (lines & Hl & _ & Hsrc & _).
  rewrite Hsrc. split.
  - unfold distinct_paths. rewrite (lines_paths _ _ Hl). vm_compute. reflexivity.
  - apply (f_equal (λ r, match r with Ok plan => step_final <$> tp_steps plan | Err _ => [] end)) in E.
    vm_compute in E. symmetry. exact E.
Defined.

Lemma sample_request_fields s :
  s ∈ sample_request → ts_canonical_path s = sample_file ∧ bl_bytes (ts_baseline s) = lit "old" ∧
    ts_mv_destination s = Some (MkMvDestination sample_other (lit "src/new.rs") None).
Proof.
  unfold sample_request, moving_section. destruct (baseline_from_bytes (lit "old")) as [b|] eqn:E; simpl.
  - intros ->%list_elem_of_singleton. simpl. split_and!; try reflexivity.
    apply (f_equal (fmap bl_bytes)) in E. vm_compute in E. injection E as E. symmetry. exact E.
  - by intros ?%not_elem_of_nil.
Qed.

Lemma fresh_request_carried_out_witness :
  match @run_transaction (sample_kernel None) _ memory_journal [] (λ _, lit "h") (λ p, concat p) (λ _, None)
    id (λ _, false) (lit "session") None sample_request registers_new registers_new true false (lit "op")
    (start (sample_disk false)) [] store_new with
  | Ok (env, _, _) => te_complete env = true
  | Err _ => False
  end.
Proof.
  destruct sample_tx_plan as [plan|e] eqn:Hp.
  2:{ exfalso. apply (f_equal is_err) in Hp. vm_compute in Hp. discriminate Hp. }
  destruct (fresh_request_carried_out (K := sample_kernel None) (sample_quiet _) sample_faultless (λ _, False)
    [] (λ _, lit "h") (λ p, concat p) sample_paths sample_layout (λ _, None) id (λ _, false) (lit "session")
    sample_request registers_new registers_new true (lit "op") (start (sample_disk false)) [] store_new plan
    {[sample_file := lit "old"]}) as (env & x & c' & E & Hc & _).
  - exact Hp.
  - apply sample_holds.
  - reflexivity.
  - apply store_new_inv.
  - apply Forall_forall. intros s (H1 & H2 & H3)%sample_request_fields. split.
    + rewrite H1, H2. vm_compute. reflexivity.
    + rewrite H3. intros d [= <-]. vm_compute. reflexivity.
  - intros s t d e (H1 & _)%sample_request_fields (H2 & _)%sample_request_fields _ _ _. congruence.
  - apply Forall_fmap, Forall_forall. intros s (H1 & _)%sample_request_fields. left. exact H1.
  - intros s d (_ & _ & H3)%sample_request_fields. rewrite H3. intros [= <-]. right. reflexivity.
  - rewrite E. exact Hc.
Defined.

(** ** Two moves to one destination

    The planner compares a destination with the edited paths, not with other destinations. *)

Definition second_file : PathBuf := [lit "src"; lit "second.rs"].
Definition two_files : Disk :=
  MkDisk (<[second_file := Hard (0, 2)%N]> (names (sample_disk false)))
    (<[(0, 2)%N := MkInode (lit "second") 1000 1000 33188 ∅ true]> (inodes (sample_disk false))).

Definition colliding_run :=
  @run_transaction (sample_kernel None) _ memory_journal [] (λ _, lit "h") (λ p, concat p) (λ _, None)
    id (λ _, false) (lit "session") None
    (sample_request ++ moving_section second_file (lit "second") (lit "Y")) registers_new registers_new
    true false (lit "op") (start two_files) [] store_new.

(** Both moves are reported as applied and complete, both sources are gone, and only the second
    file's bytes exist. *)
Theorem colliding_moves_lose_first :
  match colliding_run with
  | Ok (env, _, x) =>
      te_complete env = true ∧
      names (w_disk (ex_world x)) !! sample_file = None ∧
      names (w_disk (ex_world x)) !! second_file = None ∧
      content_at_path (w_disk (ex_world x)) sample_other = Some (lit "Y") ∧
      Forall (λ p : PathBuf * Entry, content_at_path (w_disk (ex_world x)) p.1 ≠ Some (lit "X"))
        (map_to_list (names (w_disk (ex_world x))))
  | Err _ => False
  end.
Proof. vm_compute. split_and!; try reflexivity. repeat constructor; discriminate. Qed.

(** ** A destination that appeared after planning

    A destination without a baseline is not looked at again before the write. *)
Definition appeared_disk : Disk :=
  MkDisk (<[sample_other := Hard (0, 2)%N]> (names (sample_disk false)))
    (<[(0, 2)%N := MkInode (lit "theirs") 1000 1000 33188 ∅ true]> (inodes (sample_disk false))).

(** The file of the other writer is overwritten, and the journal recorded that there was none. *)
Theorem appeared_destination_overwritten :
  match @run_transaction (sample_kernel None) _ memory_journal [] (λ _, lit "h") (λ p, concat p) (λ _, None)
    id (λ _, false) (lit "session") None sample_request registers_new registers_new true false (lit "op")
    (start appeared_disk) [] store_new with
  | Ok (env, _, x) =>
      te_complete env = true ∧
      content_at_path (w_disk (ex_world x)) sample_other = Some (lit "X") ∧
      (sample_other, None) ∈ ex_backups x
  | Err _ => False
  end.
Proof. vm_compute. split_and!; try reflexivity. right. left. Qed.

End TransactionPlanSpec.
