(* ===== verification/PatchParser.v ===== *)
(** * The apply_patch envelope: [patch/parser.rs]

    The parser of [*** Begin Patch] envelopes with its heredoc unwrapping, structural
    validation and every error text.  The opening of a heredoc is found by a pattern of the
    [regex] crate, which is a parameter. *)

From S2P Require Import Prelude RustStr.

Module PatchParser.

Definition MAX_PATCH_SIZE : N := 1024 * 1024.
Definition MAX_HUNKS : nat := 500.

Definition PLUS : N := 43.
Definition MINUS : N := 45.

(** ** Data *)

Record UpdateFileChunk := MkChunk {
  old_lines : list str; new_lines : list str; change_context : option str; is_end_of_file : bool }.

Inductive Hunk :=
  | Add (path contents : str)
  | Delete (path : str)
  | Update (path : str) (move_path : option str) (chunks : list UpdateFileChunk).

Record PatchHeader := MkHeader { file_path : str; hdr_move_path : option str; next_idx : nat }.

#[export] Instance UpdateFileChunk_eq_dec : EqDecision UpdateFileChunk.
Proof. solve_decision. Defined.
#[export] Instance Hunk_eq_dec : EqDecision Hunk.
Proof. solve_decision. Defined.

(** ** Heredoc wrappers *)

(** The loop over [match_indices('\n')]: the text before the first newline that is followed
    by the delimiter and only white space. *)
Fixpoint heredoc_body (delimiter rest : str) : option str :=
  match rest with
  | [] => None
  | c :: after_newline =>
      let closes :=
        match strip_prefix delimiter after_newline with
        | Some after_delimiter => forallb is_whitespace after_delimiter
        | None => false
        end in
      if (c =? LF)%N && closes then Some [] else cons c <$> heredoc_body delimiter after_newline
  end.

(** [open_re] is the opening pattern run by the [regex] crate: for an input it matches, the
    delimiter it captured and the input after the match. *)
Definition strip_heredoc (open_re : str → option (str * str)) (input : str) : str :=
  match open_re input with
  | None => input
  | Some (delimiter, rest) => default input (heredoc_body delimiter rest)
  end.

(** ** File operations *)

Definition is_empty_str (s : str) : bool := bool_decide (s = []).

Definition parse_patch_header (lines : list str) (start_idx : nat) : option PatchHeader :=
  match lines !! start_idx with
  | None => None
  | Some line =>
      match strip_prefix (lit "*** Add File:") line with
      | Some path =>
          if is_empty_str (trim path) then None
          else Some (MkHeader (trim path) None (S start_idx))
      | None =>
      match strip_prefix (lit "*** Delete File:") line with
      | Some path =>
          if is_empty_str (trim path) then None
          else Some (MkHeader (trim path) None (S start_idx))
      | None =>
      match strip_prefix (lit "*** Update File:") line with
      | Some path =>
          if is_empty_str (trim path) then None
          else
            match next_line ← lines !! S start_idx; strip_prefix (lit "*** Move to:") next_line with
            | Some move => Some (MkHeader (trim path) (Some (trim move)) (S (S start_idx)))
            | None => Some (MkHeader (trim path) None (S start_idx))
            end
      | None => None
      end end end
  end.

(** The loop up to the next marker line, over the lines from [i] on. *)
Fixpoint add_content_loop (rest : list str) (i : nat) (content : str) : str * nat :=
  match rest with
  | [] => (content, i)
  | line :: rest =>
      if starts_with (lit "***") line then (content, i)
      else add_content_loop rest (S i)
             (match strip_prefix [PLUS] line with
              | Some line => content ++ line ++ [LF]
              | None => content
              end)
  end.

Definition parse_add_file_content (lines : list str) (start_idx : nat) : str * nat :=
  let '(content, i) := add_content_loop (drop start_idx lines) start_idx [] in
  (match strip_suffix [LF] content with Some content => content | None => content end, i).

(** The inner loop over the rows of one chunk. *)
Fixpoint chunk_rows_loop (rest : list str) (i : nat) (old_lines new_lines : list str) :
    list str * list str * bool * nat :=
  match rest with
  | [] => (old_lines, new_lines, false, i)
  | change_line :: rest =>
      if starts_with (lit "@@") change_line then (old_lines, new_lines, false, i)
      else if bool_decide (change_line = lit "*** End of File")
      then (old_lines, new_lines, true, S i)
      else if starts_with (lit "***") change_line then (old_lines, new_lines, false, i)
      else if is_empty_str change_line
      then chunk_rows_loop rest (S i) (old_lines ++ [[]]) (new_lines ++ [[]])
      else match strip_prefix [SPACE] change_line with
      | Some content => chunk_rows_loop rest (S i) (old_lines ++ [content]) (new_lines ++ [content])
      | None =>
      match strip_prefix [MINUS] change_line with
      | Some content => chunk_rows_loop rest (S i) (old_lines ++ [content]) new_lines
      | None =>
      match strip_prefix [PLUS] change_line with
      | Some content => chunk_rows_loop rest (S i) old_lines (new_lines ++ [content])
      | None => chunk_rows_loop rest (S i) old_lines new_lines
      end end end
  end.

(** The outer loop; every round consumes a line. *)
Fixpoint update_chunks_loop (fuel : nat) (lines : list str) (i : nat) (chunks : list UpdateFileChunk) :
    list UpdateFileChunk * nat :=
  match fuel with
  | 0 => (chunks, i)
  | S fuel =>
      match lines !! i with
      | None => (chunks, i)
      | Some line =>
          if starts_with (lit "***") line then (chunks, i)
          else match strip_prefix (lit "@@") line with
          | Some context =>
              let context_line := trim context in
              let '(old_lines, new_lines, is_end_of_file, i) :=
                chunk_rows_loop (drop (S i) lines) (S i) [] [] in
              update_chunks_loop fuel lines i
                (chunks ++ [MkChunk old_lines new_lines
                              (if is_empty_str context_line then None else Some context_line)
                              is_end_of_file])
          | None => update_chunks_loop fuel lines (S i) chunks
          end
      end
  end.

Definition parse_update_file_chunks (lines : list str) (start_idx : nat) :
    list UpdateFileChunk * nat :=
  update_chunks_loop (length lines - start_idx) lines start_idx [].

(** ** Validation *)

Definition invalid_patch_line (index : nat) (detail : str) : str :=
  lit "Invalid patch at line " ++ show (index + 1) ++ lit ": " ++ detail.

(** [find(|index| !lines[*index].trim().is_empty())] over the given lines. *)
Definition first_nonblank (ls : list str) : option nat :=
  position (λ l, negb (is_empty_str (trim l))) ls.

(** The row loop of an Add operation, over the rows before [end]. *)
Fixpoint validate_add_rows (rest : list str) (i : nat) : result str nat :=
  match rest with
  | [] => Ok i
  | line :: rest =>
      if starts_with (lit "***") line then Ok i
      else if negb (is_empty_str line) && negb (starts_with [PLUS] line)
      then Err (invalid_patch_line i (lit "Add File content must start with '+'"))
      else validate_add_rows rest (S i)
  end.

(** The row loop of an Update operation: [saw_chunk] and the index after it. *)
Fixpoint validate_update_rows (rest : list str) (i : nat) (in_chunk saw_chunk : bool) :
    result str (bool * nat) :=
  match rest with
  | [] => Ok (saw_chunk, i)
  | line :: rest =>
      if bool_decide (line = lit "*** End of File") && in_chunk
      then validate_update_rows rest (S i) false saw_chunk
      else if starts_with (lit "***") line then Ok (saw_chunk, i)
      else if starts_with (lit "@@") line then validate_update_rows rest (S i) true true
      else if is_empty_str line then validate_update_rows rest (S i) in_chunk saw_chunk
      else if negb in_chunk
      then Err (invalid_patch_line i (lit "expected an @@ update hunk header"))
      else if negb (starts_with [SPACE] line || starts_with [PLUS] line || starts_with [MINUS] line)
      then Err (invalid_patch_line i
                  (lit "unrecognized update payload; expected space, '+', or '-' prefix"))
      else validate_update_rows rest (S i) in_chunk saw_chunk
  end.

(** The rows [i..end]. *)
Definition rows_until (lines : list str) (i end_ : nat) : list str := take (end_ - i) (drop i lines).

(** [while i < end]; every round consumes a line. *)
Fixpoint validate_operations (fuel : nat) (lines : list str) (end_ i : nat) : result str () :=
  match fuel with
  | 0 => Ok tt
  | S fuel =>
      if end_ <=? i then Ok tt
      else
        let line := default [] (lines !! i) in
        if is_empty_str line then validate_operations fuel lines end_ (S i)
        else
          header ← ok_or (invalid_patch_line i (lit "invalid file operation header"))
                     (parse_patch_header lines i);
          if bool_decide (hdr_move_path header = Some [])
          then Err (invalid_patch_line (i + 1) (lit "move destination must not be empty"))
          else
            let next := next_idx header in
            if starts_with (lit "*** Add File:") line
            then next ← validate_add_rows (rows_until lines next end_) next;
                 validate_operations fuel lines end_ next
            else if starts_with (lit "*** Update File:") line
            then '(saw_chunk, next) ←
                   validate_update_rows (rows_until lines next end_) next false false;
                 if negb saw_chunk && bool_decide (hdr_move_path header = None)
                 then Err (invalid_patch_line i (lit "update operation requires an @@ hunk"))
                 else validate_operations fuel lines end_ next
            else validate_operations fuel lines end_ next
  end.

Definition validate_patch_structure (lines : list str) (begin_ end_ : nat) : result str () :=
  match first_nonblank (take begin_ lines) with
  | Some index => Err (invalid_patch_line index (lit "unexpected content before *** Begin Patch"))
  | None =>
      match first_nonblank (drop (S end_) lines) with
      | Some index =>
          Err (invalid_patch_line (S end_ + index) (lit "unexpected content after *** End Patch"))
      | None => validate_operations (end_ - S begin_) lines end_ (S begin_)
      end
  end.

(** ** The parser *)

(** The loop that collects hunks; every round consumes a line. *)
Fixpoint parse_operations (fuel : nat) (lines : list str) (end_ i : nat) (hunks : list Hunk) :
    result str (list Hunk) :=
  match fuel with
  | 0 => Ok hunks
  | S fuel =>
      if end_ <=? i then Ok hunks
      else
        match parse_patch_header lines i with
        | None => parse_operations fuel lines end_ (S i) hunks
        | Some header =>
            let line := default [] (lines !! i) in
            if MAX_HUNKS <=? length hunks
            then Err (lit "Patch exceeds maximum of " ++ show MAX_HUNKS ++ lit " file operations")
            else if starts_with (lit "*** Add File:") line
            then let '(contents, next) := parse_add_file_content lines (next_idx header) in
                 parse_operations fuel lines end_ next (hunks ++ [Add (file_path header) contents])
            else if starts_with (lit "*** Delete File:") line
            then parse_operations fuel lines end_ (next_idx header)
                   (hunks ++ [Delete (file_path header)])
            else if starts_with (lit "*** Update File:") line
            then let '(chunks, next) := parse_update_file_chunks lines (next_idx header) in
                 parse_operations fuel lines end_ next
                   (hunks ++ [Update (file_path header) (hdr_move_path header) chunks])
            else parse_operations fuel lines end_ (S i) hunks
        end
  end.

Definition missing_markers : str :=
  lit "Invalid patch format: missing *** Begin Patch / *** End Patch markers".

(** The lines of the trimmed and unwrapped text, without the carriage return of a CRLF. *)
Definition patch_lines (open_re : str → option (str * str)) (patch_text : str) : list str :=
  strip_cr <$> split_on LF (strip_heredoc open_re (trim patch_text)).

Definition is_begin (line : str) : bool := bool_decide (trim line = lit "*** Begin Patch").
Definition is_end (line : str) : bool := bool_decide (trim line = lit "*** End Patch").

Definition parse_patch (open_re : str → option (str * str)) (patch_text : str) :
    result str (list Hunk) :=
  if (MAX_PATCH_SIZE <? str_len patch_text)%N
  then Err (lit "Patch too large: " ++ show_N (str_len patch_text) ++ lit " bytes exceeds limit of "
              ++ show_N MAX_PATCH_SIZE ++ lit " bytes")
  else
    let lines := patch_lines open_re patch_text in
    match position is_begin lines, position is_end lines with
    | Some begin_idx, Some end_idx =>
        if end_idx <=? begin_idx then Err missing_markers
        else
          _ ← validate_patch_structure lines begin_idx end_idx;
          parse_operations (end_idx - S begin_idx) lines end_idx (S begin_idx) []
    | _, _ => Err missing_markers
    end.

End PatchParser.
