(* ===== verification/PatchGrammar.v ===== *)
(** * The grammar of apply_patch envelopes

    What the rows of an envelope denote, as inductive relations that do not mention indices or
    loops, and the proof that [PatchParser.parse_patch] accepts exactly the rows of the
    grammar and answers the hunks they denote; then a printer whose output the parser reads
    back, bare or inside a heredoc. *)

From S2P Require Import Prelude RustStr PatchParser.
Import PatchParser.

Module PatchGrammar.

(** ** The grammar *)

Abbreviation ADD := (lit "*** Add File:") (only parsing).
Abbreviation DELETE := (lit "*** Delete File:") (only parsing).
Abbreviation UPDATE := (lit "*** Update File:") (only parsing).
Abbreviation MOVE := (lit "*** Move to:") (only parsing).
Abbreviation EOF := (lit "*** End of File") (only parsing).
Abbreviation END := (lit "*** End Patch") (only parsing).
Abbreviation MARK := (lit "***") (only parsing).
Abbreviation CHUNK := (lit "@@") (only parsing).

Abbreviation blank_rows := (Forall (λ r : str, r = [])).

(** A row of a chunk, the lines it expects in the file and the lines it leaves there. *)
Inductive row_denotes : str → list str → list str → Prop :=
  | row_blank : row_denotes [] [[]] [[]]
  | row_context s : row_denotes (SPACE :: s) [s] [s]
  | row_removed s : row_denotes (MINUS :: s) [s] []
  | row_added s : row_denotes (PLUS :: s) [] [s].

Inductive rows_denote : list str → list str → list str → Prop :=
  | rows_nil : rows_denote [] [] []
  | rows_cons r rs o n os ns :
      row_denotes r o n → rows_denote rs os ns → rows_denote (r :: rs) (o ++ os) (n ++ ns).

Definition some_text (s : str) : option str := if is_empty_str s then None else Some s.

(** Rows after the end-of-file mark may only be blank, and are ignored. *)
Inductive chunk_denotes : list str → UpdateFileChunk → Prop :=
  | chunk_open c rows os ns :
      rows_denote rows os ns →
      chunk_denotes ((CHUNK ++ c) :: rows) (MkChunk os ns (some_text (trim c)) false)
  | chunk_closed c rows os ns blanks :
      rows_denote rows os ns → blank_rows blanks →
      chunk_denotes ((CHUNK ++ c) :: rows ++ EOF :: blanks)
        (MkChunk os ns (some_text (trim c)) true).

Inductive move_denotes : list str → option str → Prop :=
  | move_none : move_denotes [] None
  | move_to m : trim m ≠ [] → move_denotes [MOVE ++ m] (Some (trim m)).

(** The rows of one file operation and the hunk they denote. *)
Inductive op_denotes : list str → Hunk → Prop :=
  | op_add p rows :
      trim p ≠ [] → Forall (λ r, r = [] ∨ ∃ s, r = PLUS :: s) rows →
      op_denotes ((ADD ++ p) :: rows)
        (Add (trim p) (join [LF] (omap (strip_prefix [PLUS]) rows)))
  | op_delete p blanks :
      trim p ≠ [] → blank_rows blanks →
      op_denotes ((DELETE ++ p) :: blanks) (Delete (trim p))
  | op_update p moves move blanks chunkss chunks :
      trim p ≠ [] → move_denotes moves move → blank_rows blanks →
      Forall2 chunk_denotes chunkss chunks → (chunks = [] → is_Some move) →
      op_denotes ((UPDATE ++ p) :: moves ++ blanks ++ concat chunkss)
        (Update (trim p) move chunks).

(** The rows between the markers. *)
Definition body_denotes (body : list str) (hunks : list Hunk) : Prop :=
  ∃ blanks opss, body = blanks ++ concat opss ∧ blank_rows blanks ∧ Forall2 op_denotes opss hunks.

(** The lines of a whole envelope. *)
Definition envelope_denotes (lines : list str) (hunks : list Hunk) : Prop :=
  ∃ before b body e after,
    lines = before ++ b :: body ++ e :: after ∧
    is_begin b = true ∧ is_end e = true ∧
    Forall (λ l, trim l = []) before ∧ Forall (λ l, trim l = []) after ∧
    body_denotes body hunks.

#[local] Arguments lit : simpl never.
#[local] Arguments strip_prefix : simpl never.
#[local] Arguments starts_with : simpl never.
#[local] Arguments bool_decide : simpl never.

(** ** Rows *)

(** No row of the kinds below can be mistaken for another: evaluating the literal prefixes
    decides it. *)
Lemma strip_prefix_self (p l : str) : strip_prefix p (p ++ l) = Some l.
Proof. by apply strip_prefix_Some. Qed.

Lemma starts_with_self (p l : str) : starts_with p (p ++ l) = true.
Proof. apply starts_with_true. by exists l. Qed.

Lemma mark_not_chunk l : starts_with MARK l = true → starts_with CHUNK l = false.
Proof. intros (r & ->)%starts_with_true. reflexivity. Qed.

Lemma mark_not_empty l : starts_with MARK l = true → is_empty_str l = false.
Proof. intros (r & ->)%starts_with_true. reflexivity. Qed.

Lemma row_plain r o n :
  row_denotes r o n →
  starts_with CHUNK r = false ∧ starts_with MARK r = false ∧ bool_decide (r = EOF) = false.
Proof. by destruct 1. Qed.

(** What follows the rows of an operation: the next operation or the end marker. *)
Definition stops (rest : list str) : Prop :=
  match rest with
  | [] => True
  | l :: _ => starts_with MARK l = true ∧ l ≠ EOF ∧ starts_with MOVE l = false
  end.

(** ** Reading the rows of a chunk *)

Lemma chunk_rows_app rows os ns rest i old new :
  rows_denote rows os ns →
  chunk_rows_loop (rows ++ rest) i old new
  = chunk_rows_loop rest (i + length rows) (old ++ os) (new ++ ns).
Proof.
  intros H. revert i old new. induction H as [|r rs o n os ns Hr _ IH]; intros i old new.
  - simpl. by rewrite Nat.add_0_r, !app_nil_r.
  - replace (i + length (r :: rs)) with (S i + length rs) by (simpl; lia). rewrite !app_assoc.
    rewrite <-IH. destruct Hr; by rewrite ?app_nil_r.
Qed.

(** A chunk ends before the next chunk, or where the operation stops. *)
Definition chunk_stops (rest : list str) : Prop :=
  stops rest ∨ ∃ l rest', rest = l :: rest' ∧ starts_with CHUNK l = true.

Lemma chunk_rows_stop rest i old new :
  chunk_stops rest → chunk_rows_loop rest i old new = (old, new, false, i).
Proof.
  intros [H|(l & rest' & -> & H)]; simpl.
  - destruct rest as [|l rest]; [done|]. simpl. destruct H as (H & Hne & _).
    rewrite (mark_not_chunk l) by done. rewrite bool_decide_eq_false_2 by done. by rewrite H.
  - by rewrite H.
Qed.

(** One round of the outer loop: it stops, skips a blank row, or reads a chunk. *)
Lemma update_loop_stop fuel lines i acc :
  stops (drop i lines) → update_chunks_loop fuel lines i acc = (acc, i).
Proof.
  destruct fuel as [|fuel]; simpl; [done|]. intros H.
  destruct (lines !! i) as [l|] eqn:E; [|done].
  rewrite (drop_S _ l) in H by done. destruct H as [H _]. by rewrite H.
Qed.

Lemma update_loop_blanks blanks fuel lines i acc rest :
  blank_rows blanks → drop i lines = blanks ++ rest → length lines - i ≤ fuel →
  ∃ fuel', length lines - (i + length blanks) ≤ fuel' ∧
    update_chunks_loop fuel lines i acc = update_chunks_loop fuel' lines (i + length blanks) acc.
Proof.
  intros Hb. revert fuel i. induction Hb as [|r blanks -> _ IH]; intros fuel i Hd Hf.
  - exists fuel. by rewrite Nat.add_0_r.
  - assert (lines !! i = Some []) as Hl by (by rewrite <-(Nat.add_0_r i), <-lookup_drop, Hd).
    pose proof (lookup_lt_Some _ _ _ Hl). destruct fuel as [|fuel]; [lia|].
    destruct (IH fuel (S i)) as (fuel' & Hf' & Heq); [|lia|].
    { rewrite (drop_S _ []) in Hd by done. by injection Hd. }
    exists fuel'. replace (i + length ([] :: blanks)) with (S i + length blanks) by (simpl; lia).
    split; [done|]. simpl. by rewrite Hl.
Qed.

Lemma update_loop_chunk rows c fuel lines i acc rest :
  chunk_denotes rows c → drop i lines = rows ++ rest → chunk_stops rest →
  length lines - i ≤ fuel →
  ∃ fuel', length lines - (i + length rows) ≤ fuel' ∧
    update_chunks_loop fuel lines i acc
    = update_chunks_loop fuel' lines (i + length rows) (acc ++ [c]).
Proof.
  intros Hc Hd Hs Hf.
  assert (∃ x rows', rows = (CHUNK ++ x) :: rows') as (x & rows' & Hrows) by (destruct Hc; eauto).
  rewrite Hrows in Hd.
  assert (lines !! i = Some (CHUNK ++ x)) as Hl by (by rewrite <-(Nat.add_0_r i), <-lookup_drop, Hd).
  pose proof (lookup_lt_Some _ _ _ Hl). destruct fuel as [|fuel]; [lia|].
  rewrite (drop_S _ (CHUNK ++ x)) in Hd by done. injection Hd as Hd. simpl.
  rewrite Hl. change (starts_with (lit "***") (CHUNK ++ x)) with false.
  change (strip_prefix (lit "@@") (CHUNK ++ x)) with (Some x). cbn iota. rewrite Hd.
  destruct Hc as [c rows os ns Hr|c rows os ns blanks Hr Hb]; injection Hrows as <- <-.
  - rewrite (chunk_rows_app rows os ns) by done. rewrite chunk_rows_stop by done.
    exists fuel. split; [len|]. simpl. f_equal. lia.
  - rewrite <-app_assoc. rewrite (chunk_rows_app rows os ns) by done.
    change (chunk_rows_loop ((EOF :: blanks) ++ rest) (S i + length rows) ([] ++ os) ([] ++ ns))
      with (os, ns, true, S (S i + length rows)). cbn iota zeta beta.
    edestruct (update_loop_blanks blanks fuel lines (S (S i + length rows))) as (fuel' & Hf' & Heq);
      [done| |lia|].
    + replace (S (S i + length rows)) with (S i + S (length rows)) by lia.
      rewrite <-drop_drop, Hd, <-app_assoc, drop_app_ge by lia.
      by replace (S (length rows) - length rows) with 1 by lia.
    + exists fuel'. split; [len|]. unfold some_text. rewrite Heq. f_equal. len.
Qed.

Lemma drop_app_rows (lines a b : list str) i : drop i lines = a ++ b → drop (i + length a) lines = b.
Proof. intros H. by rewrite <-drop_drop, H, drop_app_length. Qed.

Lemma chunks_stop chunkss cs rest :
  Forall2 chunk_denotes chunkss cs → stops rest → chunk_stops (concat chunkss ++ rest).
Proof.
  intros [|rows c chunkss' cs' Hc _] Hs; [by left|]. right.
  assert (∃ x rows', rows = (CHUNK ++ x) :: rows') as (x & rows' & ->) by (destruct Hc; eauto).
  eexists _, _. split; [reflexivity|]. apply starts_with_self.
Qed.

Lemma update_loop_chunks chunkss cs fuel lines i acc rest :
  Forall2 chunk_denotes chunkss cs → drop i lines = concat chunkss ++ rest → stops rest →
  length lines - i ≤ fuel →
  update_chunks_loop fuel lines i acc = (acc ++ cs, i + length (concat chunkss)).
Proof.
  intros H. revert fuel i acc. induction H as [|rows c chunkss cs Hc H IH];
    intros fuel i acc Hd Hs Hf; simpl in *.
  - rewrite Nat.add_0_r, app_nil_r. apply update_loop_stop. by rewrite Hd.
  - rewrite <-app_assoc in Hd.
    destruct (update_loop_chunk rows c fuel lines i acc (concat chunkss ++ rest)) as (fuel' & Hf' & ->);
      [done..|by eapply chunks_stop|done|].
    rewrite (IH fuel') by (done || by apply drop_app_rows). rewrite <-app_assoc. f_equal. len.
Qed.

Lemma parse_chunks_denote blanks chunkss cs lines i rest :
  blank_rows blanks → Forall2 chunk_denotes chunkss cs →
  drop i lines = (blanks ++ concat chunkss) ++ rest → stops rest →
  parse_update_file_chunks lines i = (cs, i + length (blanks ++ concat chunkss)).
Proof.
  intros Hb Hc Hd Hs. unfold parse_update_file_chunks. rewrite <-app_assoc in Hd.
  destruct (update_loop_blanks blanks (length lines - i) lines i [] (concat chunkss ++ rest))
    as (fuel' & Hf' & ->); [done..|].
  rewrite (update_loop_chunks chunkss cs fuel' _ _ _ rest) by (done || by apply drop_app_rows).
  f_equal. len.
Qed.

(** ** Reading the rows of an added file *)

Lemma add_content_app rows rest i content :
  Forall (λ r, r = [] ∨ ∃ s, r = PLUS :: s) rows →
  add_content_loop (rows ++ rest) i content
  = add_content_loop rest (i + length rows)
      (content ++ ((λ l, l ++ [LF]) <$> omap (strip_prefix [PLUS]) rows) ≫= id).
Proof.
  intros H. revert i content. induction H as [|r rows Hr _ IH]; intros i content.
  - simpl. by rewrite Nat.add_0_r, app_nil_r.
  - replace (i + length (r :: rows)) with (S i + length rows) by (simpl; lia).
    destruct Hr as [->|(s & ->)].
    + apply (IH (S i) content).
    + rewrite <-app_comm_cons.
      change (add_content_loop ((PLUS :: s) :: rows ++ rest) i content)
        with (add_content_loop (rows ++ rest) (S i) (content ++ s ++ [LF])).
      rewrite IH. f_equal. change (omap (strip_prefix [PLUS]) ((PLUS :: s) :: rows))
        with (s :: omap (strip_prefix [PLUS]) rows). simpl. by rewrite <-!app_assoc.
Qed.

Lemma pop_join (ls : list str) :
  match strip_suffix [LF] (((λ l, l ++ [LF]) <$> ls) ≫= id) with
  | Some content => content
  | None => ((λ l, l ++ [LF]) <$> ls) ≫= id
  end = join [LF] ls.
Proof.
  destruct ls as [|l ls]; [done|].
  assert (((λ l, l ++ [LF]) <$> l :: ls) ≫= id = join [LF] (l :: ls) ++ [LF]) as ->.
  { revert l. induction ls as [|l' ls IH]; intros l; [simpl; by rewrite app_nil_r|].
    rewrite join_cons by done. rewrite <-!app_assoc, <-IH. simpl. by rewrite <-!app_assoc. }
  by rewrite (proj2 (strip_suffix_Some [LF] _ (join [LF] (l :: ls)))).
Qed.

Lemma parse_add_denote rows lines i rest :
  Forall (λ r, r = [] ∨ ∃ s, r = PLUS :: s) rows →
  drop i lines = rows ++ rest → stops rest →
  parse_add_file_content lines i
  = (join [LF] (omap (strip_prefix [PLUS]) rows), i + length rows).
Proof.
  intros H Hd Hs. unfold parse_add_file_content. rewrite Hd, add_content_app by done.
  assert (∀ i c, add_content_loop rest i c = (c, i)) as ->.
  { intros j c. destruct rest as [|l rest]; [done|]. destruct Hs as [Hs _]. simpl. by rewrite Hs. }
  simpl. f_equal. apply pop_join.
Qed.

(** ** Headers *)

Lemma path_nonempty p : trim p ≠ [] → is_empty_str (trim p) = false.
Proof. apply bool_decide_eq_false_2. Qed.

Lemma header_of lines i line next :
  lines !! i = Some line → lines !! S i = next →
  (∀ p, line = ADD ++ p → trim p ≠ [] →
     parse_patch_header lines i = Some (MkHeader (trim p) None (S i))) ∧
  (∀ p, line = DELETE ++ p → trim p ≠ [] →
     parse_patch_header lines i = Some (MkHeader (trim p) None (S i))) ∧
  (∀ p, line = UPDATE ++ p → trim p ≠ [] →
     parse_patch_header lines i =
     match next ≫= strip_prefix MOVE with
     | Some m => Some (MkHeader (trim p) (Some (trim m)) (S (S i)))
     | None => Some (MkHeader (trim p) None (S i))
     end).
Proof.
  intros Hl Hn. unfold parse_patch_header. rewrite Hl, Hn.
  split_and!; intros p -> Hp%path_nonempty.
  - by rewrite strip_prefix_self, Hp.
  - change (strip_prefix ADD (DELETE ++ p)) with (@None str). by rewrite strip_prefix_self, Hp.
  - change (strip_prefix ADD (UPDATE ++ p)) with (@None str).
    change (strip_prefix DELETE (UPDATE ++ p)) with (@None str). by rewrite strip_prefix_self, Hp.
Qed.

Lemma header_inv lines i line h :
  lines !! i = Some line → parse_patch_header lines i = Some h →
  ∃ p, file_path h = trim p ∧ trim p ≠ [] ∧
    ((line = ADD ++ p ∧ hdr_move_path h = None ∧ next_idx h = S i) ∨
     (line = DELETE ++ p ∧ hdr_move_path h = None ∧ next_idx h = S i) ∨
     (line = UPDATE ++ p ∧
       ((hdr_move_path h = None ∧ next_idx h = S i) ∨
        ∃ m, lines !! S i = Some (MOVE ++ m) ∧ hdr_move_path h = Some (trim m) ∧
          next_idx h = S (S i)))).
Proof.
  intros Hl. unfold parse_patch_header. rewrite Hl. unfold is_empty_str.
  destruct (strip_prefix ADD line) as [p|] eqn:Ha.
  { apply strip_prefix_Some in Ha. case_bool_decide; [done|]. intros [= <-]. exists p. eauto 8. }
  destruct (strip_prefix DELETE line) as [p|] eqn:Hd.
  { apply strip_prefix_Some in Hd. case_bool_decide; [done|]. intros [= <-]. exists p. eauto 8. }
  destruct (strip_prefix UPDATE line) as [p|] eqn:Hu; [|done].
  apply strip_prefix_Some in Hu. case_bool_decide; [done|].
  destruct (lines !! S i) as [next|] eqn:Hn; simpl.
  2: { intros [= <-]. exists p. eauto 10. }
  destruct (strip_prefix MOVE next) as [m|] eqn:Hm; intros [= <-]; exists p; [|eauto 10].
  apply strip_prefix_Some in Hm as ->. simpl. eauto 12.
Qed.

(** ** Reading operations *)

Lemma lookup_drop_head {A} (l : list A) i : l !! i = head (drop i l).
Proof. by rewrite head_lookup, lookup_drop, Nat.add_0_r. Qed.

Lemma op_starts rows h : op_denotes rows h → stops rows ∧ rows ≠ [].
Proof. destruct 1; (split; [|done]); simpl; (split_and!; [apply starts_with_self|done..]) || done. Qed.

Lemma ops_stop opss hs rest :
  Forall2 op_denotes opss hs → stops rest → stops (concat opss ++ rest).
Proof.
  intros [|rows h opss' hs' Hh _]; [done|]. intros _. apply op_starts in Hh as [Hh Hne].
  by destruct rows.
Qed.

Lemma no_move_after blanks chunkss cs rest lines i :
  blank_rows blanks → Forall2 chunk_denotes chunkss cs → stops rest →
  drop i lines = blanks ++ concat chunkss ++ rest → (lines !! i) ≫= strip_prefix MOVE = None.
Proof.
  intros Hb Hc Hs Hd. rewrite lookup_drop_head, Hd. destruct Hb as [|r blanks -> _]; [|done].
  simpl. destruct Hc as [|rows c chunkss cs Hc _]; simpl.
  - destruct rest as [|l rest]; [done|]. destruct Hs as (_ & _ & Hs). unfold starts_with in Hs. simpl.
    by destruct (strip_prefix MOVE l).
  - destruct Hc; reflexivity.
Qed.

Definition limit_error : str :=
  lit "Patch exceeds maximum of " ++ show MAX_HUNKS ++ lit " file operations".

Lemma parse_blank_rows blanks fuel lines end_ i acc rest :
  blank_rows blanks → drop i lines = blanks ++ rest → i + length blanks ≤ end_ → end_ - i ≤ fuel →
  ∃ fuel', end_ - (i + length blanks) ≤ fuel' ∧
    parse_operations fuel lines end_ i acc = parse_operations fuel' lines end_ (i + length blanks) acc.
Proof.
  intros Hb. revert fuel i. induction Hb as [|r blanks -> _ IH]; intros fuel i Hd Hle Hf.
  - exists fuel. by rewrite Nat.add_0_r.
  - simpl in Hle. destruct fuel as [|fuel]; [lia|].
    assert (lines !! i = Some []) as Hl by (by rewrite lookup_drop_head, Hd).
    destruct (IH fuel (S i)) as (fuel' & Hf' & Heq); [|lia..|].
    { rewrite (drop_S _ []) in Hd by done. by injection Hd. }
    exists fuel'. replace (i + length ([] :: blanks)) with (S i + length blanks) by (simpl; lia).
    split; [done|]. simpl. rewrite (proj2 (Nat.leb_gt end_ i)) by lia.
    unfold parse_patch_header. by rewrite Hl.
Qed.

Lemma parse_op rows h fuel lines end_ i acc rest :
  op_denotes rows h → drop i lines = rows ++ rest → stops rest → i + length rows ≤ end_ →
  end_ - i ≤ fuel →
  ∃ fuel', end_ - (i + length rows) ≤ fuel' ∧
    parse_operations fuel lines end_ i acc =
    if MAX_HUNKS <=? length acc then Err limit_error
    else parse_operations fuel' lines end_ (i + length rows) (acc ++ [h]).
Proof.
  intros Hop Hd Hs Hle Hf.
  assert (∃ l, rows = l :: tail rows) as (l & Hrows) by (destruct Hop; eauto).
  assert (lines !! i = Some l) as Hl by (by rewrite lookup_drop_head, Hd, Hrows).
  assert (drop (S i) lines = tail rows ++ rest) as Hd'.
  { rewrite (drop_S _ l), Hrows in Hd by done. by injection Hd. }
  assert (i < end_) as Hlt by (rewrite Hrows in Hle; simpl in Hle; lia).
  destruct fuel as [|fuel]; [lia|]. simpl. rewrite (proj2 (Nat.leb_gt end_ i)) by done. rewrite Hl.
  destruct (header_of lines i l _ Hl eq_refl) as (Ha & Hde & Hu).
  destruct Hop as [p rows Hp Hrs|p blanks Hp Hb|p moves move blanks chunkss chunks Hp Hm Hb Hc Hne];
    injection Hrows as <-; simpl in Hd', Hle |- *.
  - rewrite (Ha p) by done. change (starts_with ADD (ADD ++ p)) with true. cbn iota.
    rewrite (parse_add_denote rows _ _ rest) by done. exists fuel. rewrite Nat.add_succ_r.
    split; [lia|]. by destruct (MAX_HUNKS <=? length acc).
  - rewrite (Hde p) by done. change (starts_with ADD (DELETE ++ p)) with false.
    change (starts_with DELETE (DELETE ++ p)) with true. cbn iota.
    destruct (parse_blank_rows blanks fuel lines end_ (S i) (acc ++ [Delete (trim p)]) rest)
      as (fuel' & Hf' & Heq); [done..|lia|lia|].
    exists fuel'. rewrite Nat.add_succ_r. split; [done|]. simpl. by rewrite Heq.
  - rewrite (Hu p) by done. change (starts_with ADD (UPDATE ++ p)) with false.
    change (starts_with DELETE (UPDATE ++ p)) with false.
    change (starts_with UPDATE (UPDATE ++ p)) with true. cbn iota.
    exists fuel. split; [lia|]. destruct Hm as [|m Hm]; simpl in *.
    + rewrite <-app_assoc in Hd'. rewrite (no_move_after _ _ _ _ _ _ Hb Hc Hs Hd'). simpl.
      rewrite app_assoc in Hd'. rewrite (parse_chunks_denote blanks chunkss chunks _ _ rest) by done.
      by rewrite Nat.add_succ_r.
    + assert (lines !! S i = Some (MOVE ++ m)) as Hl' by (by rewrite lookup_drop_head, Hd').
      rewrite Hl'. change (Some (MOVE ++ m) ≫= strip_prefix MOVE) with (Some m). simpl.
      rewrite (drop_S _ _ _ Hl') in Hd'. injection Hd' as Hd'.
      rewrite (parse_chunks_denote blanks chunkss chunks _ _ rest) by done.
      by rewrite !Nat.add_succ_r.
Qed.

Lemma parse_ops opss hs fuel lines end_ i acc rest :
  Forall2 op_denotes opss hs → drop i lines = concat opss ++ rest → stops rest →
  end_ = i + length (concat opss) → end_ - i ≤ fuel → length acc ≤ MAX_HUNKS →
  parse_operations fuel lines end_ i acc =
  if decide (length acc + length hs ≤ MAX_HUNKS) then Ok (acc ++ hs) else Err limit_error.
Proof.
  intros H. revert fuel i acc. induction H as [|rows h opss hs Hh H IH];
    intros fuel i acc Hd Hs Hend Hf Hacc; simpl in Hd, Hend.
  - rewrite app_nil_r. rewrite decide_True by (simpl; lia).
    destruct fuel as [|fuel]; [done|]. cbn [parse_operations].
    by rewrite (proj2 (Nat.leb_le end_ i)) by lia.
  - rewrite length_app in Hend. rewrite <-app_assoc in Hd.
    destruct (parse_op rows h fuel lines end_ i acc (concat opss ++ rest)) as (fuel' & Hf' & ->);
      [done..|by eapply ops_stop|lia|done|].
    destruct (Nat.leb_spec MAX_HUNKS (length acc)).
    + rewrite decide_False; [done|]. simpl. lia.
    + rewrite (IH fuel') by (by apply drop_app_rows || len). rewrite <-app_assoc.
      apply decide_ext. len.
Qed.

(** ** Validation accepts the grammar *)

Lemma validate_add_app rows rest i :
  Forall (λ r, r = [] ∨ ∃ s, r = PLUS :: s) rows →
  validate_add_rows (rows ++ rest) i = validate_add_rows rest (i + length rows).
Proof.
  intros H. revert i. induction H as [|r rows Hr _ IH]; intros i; [by rewrite Nat.add_0_r|].
  replace (i + length (r :: rows)) with (S i + length rows) by (simpl; lia). rewrite <-IH.
  by destruct Hr as [->|(s & ->)].
Qed.

Lemma validate_rows_app rows os ns rest i saw :
  rows_denote rows os ns →
  validate_update_rows (rows ++ rest) i true saw
  = validate_update_rows rest (i + length rows) true saw.
Proof.
  intros H. revert i. induction H as [|r rs o n os ns Hr _ IH]; intros i; [by rewrite Nat.add_0_r|].
  replace (i + length (r :: rs)) with (S i + length rs) by (simpl; lia). rewrite <-IH.
  by destruct Hr.
Qed.

Lemma validate_blanks_app blanks rest i ic saw :
  blank_rows blanks →
  validate_update_rows (blanks ++ rest) i ic saw
  = validate_update_rows rest (i + length blanks) ic saw.
Proof.
  intros H. revert i. induction H as [|r blanks -> _ IH]; intros i; [by rewrite Nat.add_0_r|].
  replace (i + length ([] :: blanks)) with (S i + length blanks) by (simpl; lia). by rewrite <-IH.
Qed.

Lemma validate_chunks_app chunkss cs rest i ic saw :
  Forall2 chunk_denotes chunkss cs →
  ∃ ic', validate_update_rows (concat chunkss ++ rest) i ic saw
  = validate_update_rows rest (i + length (concat chunkss)) ic' (saw || negb (bool_decide (cs = []))).
Proof.
  intros H. revert i ic saw. induction H as [|rows c chunkss cs Hc _ IH]; intros i ic saw.
  - exists ic. simpl. by rewrite Nat.add_0_r, orb_false_r.
  - cbn [concat]. rewrite <-app_assoc, length_app. rewrite (bool_decide_eq_false_2 (_ :: _ = [])) by done.
    rewrite orb_true_r.
    assert (validate_update_rows (rows ++ concat chunkss ++ rest) i ic saw
      = validate_update_rows (concat chunkss ++ rest) (i + length rows) (negb (is_end_of_file c)) true)
      as ->.
    { destruct Hc as [x rows os ns Hr|x rows os ns blanks Hr Hb].
      - rewrite <-app_comm_cons. cbn [validate_update_rows].
        change (validate_update_rows ((CHUNK ++ x) :: rows ++ concat chunkss ++ rest) i ic saw)
          with (validate_update_rows (rows ++ concat chunkss ++ rest) (S i) true true).
        rewrite (validate_rows_app _ _ _ _ _ _ Hr). f_equal. simpl. lia.
      - rewrite <-app_comm_cons, <-app_assoc.
        change (validate_update_rows ((CHUNK ++ x) :: rows ++ (EOF :: blanks) ++ concat chunkss ++ rest)
          i ic saw)
          with (validate_update_rows (rows ++ (EOF :: blanks) ++ concat chunkss ++ rest) (S i) true true).
        rewrite (validate_rows_app _ _ _ _ _ _ Hr), <-app_comm_cons.
        change (validate_update_rows (EOF :: blanks ++ concat chunkss ++ rest) (S i + length rows) true true)
          with (validate_update_rows (blanks ++ concat chunkss ++ rest) (S (S i + length rows)) false true).
        rewrite validate_blanks_app by done. f_equal. len. }
    destruct (IH (i + length rows) (negb (is_end_of_file c)) true) as (ic' & ->).
    exists ic'. by rewrite Nat.add_assoc.
Qed.

Lemma validate_rows_stop rest i ic saw :
  stops rest → validate_update_rows rest i ic saw = Ok (saw, i).
Proof.
  destruct rest as [|l rest]; [done|]. intros (H & Hne & _). simpl.
  rewrite bool_decide_eq_false_2 by done. by rewrite H.
Qed.

Lemma rows_until_eq lines body rest i end_ :
  drop i lines = body ++ rest → end_ = i + length body → rows_until lines i end_ = body.
Proof.
  intros Hd ->. unfold rows_until. rewrite Hd.
  by replace (i + length body - i) with (length body) by lia; rewrite take_app_length.
Qed.

(** Reading validated rows on: the fuel of a later index is whatever is left. *)
Definition validates_on (fuel : nat) (lines : list str) (end_ i j : nat) : Prop :=
  ∃ fuel', end_ - j ≤ fuel' ∧
    validate_operations fuel lines end_ i = validate_operations fuel' lines end_ j.

Lemma validate_blank_rows blanks fuel lines end_ i rest :
  blank_rows blanks → drop i lines = blanks ++ rest → i + length blanks ≤ end_ → end_ - i ≤ fuel →
  validates_on fuel lines end_ i (i + length blanks).
Proof.
  intros Hb. revert fuel i. induction Hb as [|r blanks -> _ IH]; intros fuel i Hd Hle Hf.
  - exists fuel. by rewrite Nat.add_0_r.
  - simpl in Hle. destruct fuel as [|fuel]; [lia|].
    assert (lines !! i = Some []) as Hl by (by rewrite lookup_drop_head, Hd).
    destruct (IH fuel (S i)) as (fuel' & Hf' & Heq); [|lia..|].
    { rewrite (drop_S _ []) in Hd by done. by injection Hd. }
    exists fuel'. replace (i + length ([] :: blanks)) with (S i + length blanks) by (simpl; lia).
    split; [done|]. simpl. rewrite (proj2 (Nat.leb_gt end_ i)) by lia. by rewrite Hl.
Qed.

Lemma validate_op rows h fuel lines end_ i body rest :
  op_denotes rows h → drop i lines = rows ++ body ++ rest → stops body → stops (body ++ rest) →
  end_ = i + length rows + length body → end_ - i ≤ fuel →
  validates_on fuel lines end_ i (i + length rows).
Proof.
  intros Hop Hd Hsb Hs Hend Hf.
  assert (∃ l, rows = l :: tail rows) as (l & Hrows) by (destruct Hop; eauto).
  assert (lines !! i = Some l) as Hl by (by rewrite lookup_drop_head, Hd, Hrows).
  assert (drop (S i) lines = tail rows ++ body ++ rest) as Hd'.
  { rewrite (drop_S _ l), Hrows in Hd by done. by injection Hd. }
  assert (i < end_) as Hlt by (rewrite Hrows in Hend; simpl in Hend; lia).
  destruct fuel as [|fuel]; [lia|]. unfold validates_on. simpl.
  rewrite (proj2 (Nat.leb_gt end_ i)) by done. rewrite Hl. simpl.
  destruct (header_of lines i l _ Hl eq_refl) as (Ha & Hde & Hu).
  destruct Hop as [p rows Hp Hrs|p blanks Hp Hb|p moves move blanks chunkss chunks Hp Hm Hb Hc Hne];
    injection Hrows as <-; simpl in Hd', Hend |- *; rewrite ?Nat.add_succ_r in *.
  - rewrite (Ha p) by done. simpl. exists fuel. split; [lia|].
    rewrite (rows_until_eq lines (rows ++ body) rest) by (rewrite <-?app_assoc; done || len).
    rewrite validate_add_app by done.
    assert (∀ j, validate_add_rows body j = Ok j) as ->; [|done].
    intros j. destruct body as [|x body]; [done|]. simpl. by rewrite (proj1 Hsb).
  - rewrite (Hde p) by done. simpl.
    edestruct (validate_blank_rows blanks fuel lines end_ (S i)) as (fuel' & Hf' & Heq);
      [done..|lia|lia|]. exists fuel'. split; [done|]. exact Heq.
  - rewrite (Hu p) by done.
    assert (∀ j, drop j lines = (blanks ++ concat chunkss ++ body) ++ rest →
      end_ = j + length (blanks ++ concat chunkss ++ body) →
      validate_update_rows (rows_until lines j end_) j false false
      = Ok (negb (bool_decide (chunks = [])), j + length (blanks ++ concat chunkss))) as Hv.
    { intros j Hj He. rewrite (rows_until_eq lines _ rest j end_ Hj He).
      rewrite validate_blanks_app by done.
      destruct (validate_chunks_app chunkss chunks body (j + length blanks) false false Hc) as (ic' & ->).
      rewrite validate_rows_stop by done. do 2 f_equal. len. }
    exists fuel. split; [lia|]. destruct Hm as [|m Hm]; simpl in *.
    + rewrite <-app_assoc in Hd'.
      rewrite (no_move_after _ _ _ _ _ _ Hb Hc Hs Hd'). simpl. rewrite (Hv (S i)) by
        (rewrite <-?app_assoc; done || len). simpl.
      destruct (bool_decide_reflect (chunks = [])) as [Heq|]; [by destruct (Hne Heq)|]. done.
    + assert (lines !! S i = Some (MOVE ++ m)) as Hl' by (by rewrite lookup_drop_head, Hd').
      rewrite Hl'. change (Some (MOVE ++ m) ≫= strip_prefix MOVE) with (Some m). simpl.
      rewrite (drop_S _ _ _ Hl') in Hd'. injection Hd' as Hd'. unfold ok_or. simpl.
      rewrite (bool_decide_eq_false_2 (Some (trim m) = Some [])) by congruence.
      rewrite (Hv (S (S i))) by (rewrite <-?app_assoc in *; done || len). simpl.
      by rewrite (bool_decide_eq_false_2 (Some (trim m) = None)), andb_false_r, Nat.add_succ_r by done.
Qed.

Lemma validate_ops opss hs fuel lines end_ i rest :
  Forall2 op_denotes opss hs → drop i lines = concat opss ++ rest → stops rest →
  end_ = i + length (concat opss) → end_ - i ≤ fuel →
  validate_operations fuel lines end_ i = Ok tt.
Proof.
  intros H. revert fuel i. induction H as [|rows h opss hs Hh H IH];
    intros fuel i Hd Hs Hend Hf; simpl in Hd, Hend.
  - destruct fuel as [|fuel]; [done|]. cbn [validate_operations].
    by rewrite (proj2 (Nat.leb_le end_ i)) by lia.
  - rewrite length_app in Hend. rewrite <-app_assoc in Hd.
    destruct (validate_op rows h fuel lines end_ i (concat opss) rest) as (fuel' & Hf' & ->);
      [done..| |by eapply ops_stop|lia|done|].
    + rewrite <-(app_nil_r (concat opss)). by eapply ops_stop.
    + apply IH; [by apply drop_app_rows|done|lia|done].
Qed.

(** ** Validation accepts nothing else *)

Definition marked (rest : list str) : Prop :=
  match rest with [] => True | l :: _ => starts_with MARK l = true end.

Lemma validate_add_inv rest i j :
  validate_add_rows rest i = Ok j →
  ∃ rows rest', rest = rows ++ rest' ∧ j = i + length rows ∧ marked rest' ∧
    Forall (λ r, r = [] ∨ ∃ s, r = PLUS :: s) rows.
Proof.
  revert i. induction rest as [|l rest IH]; intros i; simpl.
  { intros [= <-]. exists [], []. by rewrite Nat.add_0_r. }
  destruct (starts_with MARK l) eqn:Hm.
  { intros [= <-]. exists [], (l :: rest). by rewrite Nat.add_0_r. }
  destruct (negb (is_empty_str l) && negb (starts_with [PLUS] l)) eqn:Hr; [done|].
  intros (rows & rest' & -> & -> & Hmark & Hrows)%IH. exists (l :: rows), rest'.
  split_and!; [done|simpl; lia|done|]. constructor; [|done].
  apply andb_false_iff in Hr as [Hr|Hr]; apply negb_false_iff in Hr.
  - left. by apply bool_decide_eq_true in Hr.
  - right. by apply starts_with_true in Hr.
Qed.

(** What the rows still inside a chunk, or before the first chunk, look like. *)
Definition rows_before (in_chunk : bool) (used : list str) : Prop :=
  if in_chunk
  then ∃ rows os ns tl, used = rows ++ tl ∧ rows_denote rows os ns ∧
         (tl = [] ∨ ∃ blanks, tl = EOF :: blanks ∧ blank_rows blanks)
  else blank_rows used.

Lemma payload_denotes l :
  is_empty_str l = false →
  starts_with [SPACE] l || starts_with [PLUS] l || starts_with [MINUS] l = true →
  ∃ o n, row_denotes l o n.
Proof.
  intros _ [[H|H]%orb_true_iff|H]%orb_true_iff; apply starts_with_true in H as (r & ->);
    eexists _, _; constructor.
Qed.

Lemma rows_before_cons ic l o n used :
  (ic = false → l = []) → row_denotes l o n → rows_before ic used → rows_before ic (l :: used).
Proof.
  destruct ic; simpl; intros Hl Hr.
  - intros (rows & os & ns & tl & -> & Hrows & Htl). exists (l :: rows), (o ++ os), (n ++ ns), tl.
    split_and!; [done|by constructor|done].
  - rewrite Hl by done. by constructor.
Qed.

Lemma rows_before_nil ic : rows_before ic [].
Proof. destruct ic; simpl; [|done]. exists [], [], [], []. split_and!; [done|constructor|by left]. Qed.

Lemma chunk_of_rows x used : rows_before true used → ∃ c, chunk_denotes ((CHUNK ++ x) :: used) c.
Proof.
  intros (rows & os & ns & tl & -> & Hrows & [->|(blanks & -> & Hb)]); eexists.
  - rewrite app_nil_r. by apply chunk_open.
  - by apply chunk_closed.
Qed.

Lemma validate_update_inv rest i ic saw s j :
  validate_update_rows rest i ic saw = Ok (s, j) →
  ∃ used chunkss cs rest', rest = used ++ concat chunkss ++ rest' ∧
    j = i + length (used ++ concat chunkss) ∧ Forall2 chunk_denotes chunkss cs ∧
    s = saw || negb (bool_decide (cs = [])) ∧ marked rest' ∧ rows_before ic used.
Proof.
  revert i ic saw. induction rest as [|l rest IH]; intros i ic saw.
  { intros [= <- <-]. exists [], [], [], []. rewrite Nat.add_0_r, orb_false_r.
    split_and!; [done..|apply rows_before_nil]. }
  cbn [validate_update_rows]. destruct (bool_decide (l = EOF) && ic) eqn:He.
  { apply andb_true_iff in He as [->%bool_decide_eq_true ->].
    intros (used & chunkss & cs & rest' & -> & -> & Hc & -> & Hm & Hu)%IH.
    exists (EOF :: used), chunkss, cs, rest'. split_and!; [done|simpl; lia|done..|].
    exists [], [], [], (EOF :: used). split_and!; [done|constructor|]. right. by exists used. }
  destruct (starts_with MARK l) eqn:Hm.
  { intros [= <- <-]. exists [], [], [], (l :: rest). rewrite Nat.add_0_r, orb_false_r.
    split_and!; [done..|apply rows_before_nil]. }
  destruct (starts_with CHUNK l) eqn:Hch.
  { apply starts_with_true in Hch as (x & ->).
    intros (used & chunkss & cs & rest' & -> & -> & Hc & -> & Hm' & Hu)%IH.
    destruct (chunk_of_rows x used Hu) as (c & Hx).
    exists [], (((CHUNK ++ x) :: used) :: chunkss), (c :: cs), rest'. cbn [concat].
    rewrite <-app_assoc. split_and!; [done|simpl; lia|by constructor| |done|apply rows_before_nil].
    by rewrite (bool_decide_eq_false_2 (c :: cs = [])), orb_true_r by done. }
  destruct (is_empty_str l) eqn:Hl.
  { apply bool_decide_eq_true in Hl as ->.
    intros (used & chunkss & cs & rest' & -> & -> & Hc & -> & Hm' & Hu)%IH.
    exists ([] :: used), chunkss, cs, rest'. split_and!; [done|simpl; lia|done..|].
    by apply (rows_before_cons ic [] [[]] [[]]); [|constructor|]. }
  destruct ic; [|done]. simpl.
  destruct (starts_with [SPACE] l || starts_with [PLUS] l || starts_with [MINUS] l) eqn:Hp; [|done].
  destruct (payload_denotes l Hl Hp) as (o & n & Hr). simpl.
  intros (used & chunkss & cs & rest' & -> & -> & Hc & -> & Hm' & Hu)%IH.
  exists (l :: used), chunkss, cs, rest'. split_and!; [done|simpl; lia|done..|].
  by apply (rows_before_cons true l o n).
Qed.

Lemma rows_until_cons lines i end_ l :
  i < end_ → lines !! i = Some l → rows_until lines i end_ = l :: rows_until lines (S i) end_.
Proof.
  intros Hi Hl. unfold rows_until. rewrite (drop_S _ l) by done.
  by replace (end_ - i) with (S (end_ - S i)) by lia.
Qed.

Lemma rows_until_app lines i end_ used rest :
  rows_until lines i end_ = used ++ rest →
  rows_until lines (i + length used) end_ = rest ∧ i + length used ≤ i `max` end_.
Proof.
  intros H. split.
  - assert (drop (length used) (rows_until lines i end_) = rest) as <- by (by rewrite H, drop_app_length).
    unfold rows_until. rewrite skipn_firstn_comm, drop_drop. f_equal. lia.
  - apply (f_equal length) in H. unfold rows_until in H. len.
Qed.

Lemma marked_no_blank blanks opss :
  marked (blanks ++ concat opss) → blank_rows blanks → blanks = [].
Proof. intros Hm Hb. destruct Hb as [|r blanks -> _]; [done|]. done. Qed.

(** An operation in front of a validated body. *)
Lemma body_add p rows rest hs :
  trim p ≠ [] → Forall (λ r, r = [] ∨ ∃ s, r = PLUS :: s) rows → body_denotes rest hs →
  ∃ hs', body_denotes ((ADD ++ p) :: rows ++ rest) hs'.
Proof.
  intros Hp Hr (blanks & opss & -> & Hb & Hops).
  eexists (_ :: hs), [], (((ADD ++ p) :: rows ++ blanks) :: opss). cbn [concat app].
  rewrite <-app_assoc. split_and!; [done..|]. constructor; [|done]. constructor; [done|].
  apply Forall_app. split; [done|]. eapply Forall_impl; [done|]. by left.
Qed.

Lemma body_delete p rest hs :
  trim p ≠ [] → body_denotes rest hs → ∃ hs', body_denotes ((DELETE ++ p) :: rest) hs'.
Proof.
  intros Hp (blanks & opss & -> & Hb & Hops).
  eexists (_ :: hs), [], (((DELETE ++ p) :: blanks) :: opss). split_and!; [done..|].
  constructor; [by constructor|done].
Qed.

Lemma body_update p moves move used chunkss cs rest hs :
  trim p ≠ [] → move_denotes moves move → blank_rows used → Forall2 chunk_denotes chunkss cs →
  (cs = [] → is_Some move) → marked rest → body_denotes rest hs →
  ∃ hs', body_denotes ((UPDATE ++ p) :: moves ++ used ++ concat chunkss ++ rest) hs'.
Proof.
  intros Hp Hm Hu Hc Hne Hmark (blanks & opss & -> & Hb & Hops).
  assert (blanks = []) as -> by (by eapply marked_no_blank).
  eexists (_ :: hs), [], (((UPDATE ++ p) :: moves ++ used ++ concat chunkss) :: opss).
  cbn [concat app]. rewrite <-!app_assoc. split_and!; [done..|]. constructor; [|done]. by constructor.
Qed.

Lemma move_rows lines end_ i e h :
  lines !! end_ = Some e → starts_with MOVE e = false → i < end_ →
  (hdr_move_path h = None ∧ next_idx h = S i) ∨
  (∃ m, lines !! S i = Some (MOVE ++ m) ∧ hdr_move_path h = Some (trim m) ∧ next_idx h = S (S i)) →
  hdr_move_path h ≠ Some [] →
  ∃ moves, move_denotes moves (hdr_move_path h) ∧ S i ≤ next_idx h ≤ end_ ∧
    rows_until lines (S i) end_ = moves ++ rows_until lines (next_idx h) end_.
Proof.
  intros He HeM Hi [(-> & ->)|(m & Hm & -> & ->)] Hne.
  - exists []. split_and!; [constructor|lia|lia|done].
  - assert (S i ≠ end_) by (intros <-; pose proof (starts_with_self MOVE m); congruence).
    exists [MOVE ++ m]. split_and!; [|lia|lia|].
    + constructor. congruence.
    + apply rows_until_cons; [lia|done].
Qed.

Lemma validate_ops_inv fuel lines end_ i e :
  lines !! end_ = Some e → starts_with MOVE e = false → i ≤ end_ → end_ - i ≤ fuel →
  validate_operations fuel lines end_ i = Ok tt →
  ∃ hs, body_denotes (rows_until lines i end_) hs.
Proof.
  intros He HeM. pose proof (lookup_lt_Some _ _ _ He) as Hlen.
  assert (∃ hs, body_denotes (rows_until lines end_ end_) hs) as Hdone.
  { exists [], [], []. unfold rows_until. by rewrite Nat.sub_diag. }
  revert i. induction fuel as [|fuel IH]; intros i Hi Hf; simpl.
  { intros _. by replace i with end_ by lia. }
  destruct (Nat.leb_spec end_ i); [intros _; by replace i with end_ by lia|].
  destruct (lookup_lt_is_Some_2 lines i ltac:(lia)) as [l Hl].
  rewrite Hl, (rows_until_cons _ _ _ l) by done. simpl. destruct (is_empty_str l) eqn:Hempty.
  { apply bool_decide_eq_true in Hempty as ->.
    intros (hs & blanks & opss & -> & Hb & Hops)%IH; [|lia..].
    exists hs, ([] :: blanks), opss. split_and!; [done|by constructor|done]. }
  destruct (parse_patch_header lines i) as [h|] eqn:Hh; [|done]. simpl.
  destruct (header_inv _ _ _ _ Hl Hh) as (p & _ & Hp & [(-> & Hmv & ->)|[(-> & Hmv & ->)|(-> & Hmv)]]).
  - rewrite Hmv. change (starts_with ADD (ADD ++ p)) with true. simpl.
    intros (j & (rows & rest' & Hrows & -> & Hmark & Hall)%validate_add_inv & Hrest)%bind_Ok.
    destruct (rows_until_app _ _ _ _ _ Hrows) as [Hnext Hle].
    apply IH in Hrest as (hs & Hb); [|lia..]. rewrite Hnext in Hb. rewrite Hrows. by eapply body_add.
  - rewrite Hmv. simpl. intros (hs & Hb)%IH; [|lia..]. by eapply body_delete.
  - case_bool_decide as Hempty'; [done|].
    destruct (move_rows lines end_ i e h) as (moves & Hmoves & Hnext & Hrows); [done..|].
    change (starts_with ADD (UPDATE ++ p)) with false.
    change (starts_with UPDATE (UPDATE ++ p)) with true. simpl.
    intros ([s j] & (used & chunkss & cs & rest' & Hused & -> & Hc & -> & Hmark & Hu)%validate_update_inv
      & Hrest)%bind_Ok. simpl in Hrest.
    rewrite app_assoc in Hused. destruct (rows_until_app _ _ _ _ _ Hused) as [Hafter Hle].
    rewrite Hrows, Hused, <-app_assoc.
    destruct (negb (negb (bool_decide (cs = []))) && bool_decide (hdr_move_path h = None)) eqn:Hchk; [done|].
    apply IH in Hrest as (hs & Hb); [|lia..]. rewrite Hafter in Hb.
    eapply body_update; [done..| |done|done].
    intros ->. simpl in Hchk. apply bool_decide_eq_false in Hchk. by destruct (hdr_move_path h).
Qed.

(** ** Whole envelopes *)

Section Envelopes.
Context (open_re : str → option (str * str)).

Lemma end_flush l :
  (∀ c, head l = Some c → is_whitespace c = false) → is_end l = true → ∃ r, l = END ++ r.
Proof.
  intros Hh Ht%bool_decide_eq_true. destruct (rstrip_prefix is_whitespace l) as (k & Hk & _).
  exists k. unfold trim, trim_end, trim_start in Ht. rewrite drop_while_id in Ht by done.
  by rewrite Ht in Hk.
Qed.

Lemma end_marker l : is_end l = true → starts_with MARK l = true → ∃ r, l = END ++ r.
Proof.
  intros He (r & ->)%starts_with_true. apply end_flush; [|done]. by intros c [= <-].
Qed.

Lemma end_stops l after : is_end l = true → starts_with MARK l = true → stops (l :: after).
Proof. intros He Hm. destruct (end_marker l He Hm) as (r & ->). done. Qed.

(** The marker rows of the grammar are not end markers. *)
Definition not_end (l : str) : Prop := starts_with MARK l = true → is_end l = false.

Lemma other_marker (P : str) l r :
  (∀ k, P ++ r ≠ END ++ k) → l = P ++ r → not_end l.
Proof.
  intros Hne -> Hm. destruct (is_end (P ++ r)) eqn:He; [|done].
  destruct (end_marker _ He Hm) as (k & Hk). by destruct (Hne k).
Qed.

Lemma blank_not_end blanks : blank_rows blanks → Forall not_end blanks.
Proof. intros H. eapply Forall_impl; [done|]. by intros l ->. Qed.

Lemma rows_not_end rows os ns : rows_denote rows os ns → Forall not_end rows.
Proof.
  induction 1 as [|r rs o n os ns Hr _ IH]; constructor; [|done].
  intros Hm. apply row_plain in Hr as (_ & Hr & _). congruence.
Qed.

Lemma chunk_not_end rows c : chunk_denotes rows c → Forall not_end rows.
Proof.
  destruct 1 as [c rows os ns Hr|c rows os ns blanks Hr Hb]; constructor; [done| |done|].
  - by eapply rows_not_end.
  - apply Forall_app. split; [by eapply rows_not_end|]. constructor; [|by apply blank_not_end].
    by apply (other_marker EOF _ []).
Qed.

Lemma concat_not_end {A} (R : list str → A → Prop) rowss xs :
  (∀ rows x, R rows x → Forall not_end rows) → Forall2 R rowss xs → Forall not_end (concat rowss).
Proof. intros HR. induction 1; simpl; [done|]. apply Forall_app. eauto. Qed.

Lemma op_not_end rows h : op_denotes rows h → Forall not_end rows.
Proof.
  destruct 1 as [p rows Hp Hr|p blanks Hp Hb|p moves move blanks chunkss cs Hp Hm Hb Hc Hne]; constructor.
  - by apply (other_marker ADD _ p).
  - eapply Forall_impl; [done|]. by intros l [->|(s & ->)].
  - by apply (other_marker DELETE _ p).
  - by apply blank_not_end.
  - by apply (other_marker UPDATE _ p).
  - rewrite !Forall_app. split_and!; [|by apply blank_not_end|by eapply concat_not_end, Hc; apply chunk_not_end].
    destruct Hm as [|m Hm]; constructor; [|done]. by apply (other_marker MOVE _ m).
Qed.

Lemma body_not_end body hs : body_denotes body hs → Forall not_end body.
Proof.
  intros (blanks & opss & -> & Hb & Hops). apply Forall_app. split; [by apply blank_not_end|].
  eapply concat_not_end, Hops. apply op_not_end.
Qed.

Lemma first_nonblank_None ls : first_nonblank ls = None ↔ Forall (λ l, trim l = []) ls.
Proof.
  unfold first_nonblank. rewrite position_None, Forall_forall. unfold is_empty_str.
  setoid_rewrite negb_false_iff. by setoid_rewrite bool_decide_eq_true.
Qed.

(** Both loops on a body of the grammar. *)
Lemma read_body lines end_ i body rest hs fuel :
  body_denotes body hs → drop i lines = body ++ rest → stops rest → end_ = i + length body →
  end_ - i ≤ fuel →
  validate_operations fuel lines end_ i = Ok tt ∧
  parse_operations fuel lines end_ i [] =
    (if decide (length hs ≤ MAX_HUNKS) then Ok hs else Err limit_error).
Proof.
  intros (blanks & opss & -> & Hb & Hops) Hd Hs Hend Hf. rewrite length_app in Hend.
  rewrite <-app_assoc in Hd. split.
  - destruct (validate_blank_rows blanks fuel lines end_ i _ Hb Hd) as (fuel' & Hf' & ->); [lia..|].
    eapply validate_ops; [done|by apply drop_app_rows|done|lia|done].
  - destruct (parse_blank_rows blanks fuel lines end_ i [] _ Hb Hd) as (fuel' & Hf' & ->); [lia..|].
    rewrite (parse_ops opss hs fuel' _ _ _ _ rest); [done..|by apply drop_app_rows|done|lia|done|simpl; lia].
Qed.

Lemma position_middle {A} (p : A → bool) l x k :
  Forall (λ y, p y = false) l → p x = true → position p (l ++ x :: k) = Some (length l).
Proof.
  intros Hl Hx. apply position_Some. exists x. rewrite list_lookup_middle by done.
  split_and!; [done..|]. intros j y Hj. rewrite lookup_app_l by done.
  by apply (Forall_lookup_1 _ _ _ _ Hl).
Qed.

Lemma begin_not_end l : is_begin l = true → is_end l = false.
Proof. intros H%bool_decide_eq_true. apply bool_decide_eq_false. by rewrite H. Qed.

Lemma blank_not_marker l : trim l = [] → is_begin l = false ∧ is_end l = false.
Proof. intros H. unfold is_begin, is_end. by rewrite H. Qed.

(** Where the markers are in an envelope of the grammar. *)
Lemma envelope_markers before b body e after hs :
  is_begin b = true → is_end e = true → Forall (λ l, trim l = []) before →
  body_denotes body hs →
  (∀ l, l ∈ body → is_end l = true → starts_with MARK l = true) →
  let lines := before ++ b :: body ++ e :: after in
  position is_begin lines = Some (length before) ∧
  position is_end lines = Some (S (length before + length body)).
Proof.
  intros Hb He Hbefore Hbody Hflush lines. split.
  - apply position_middle; [|done]. eapply Forall_impl; [done|]. by intros l [? _]%blank_not_marker.
  - subst lines. rewrite app_comm_cons, app_assoc, position_middle; [f_equal; len| |done].
    apply Forall_app. split; [eapply Forall_impl; [done|]; by intros l [_ ?]%blank_not_marker|].
    constructor; [by apply begin_not_end|]. apply Forall_forall. intros l Hl.
    destruct (is_end l) eqn:E; [|done]. rewrite <-E.
    pose proof (body_not_end _ _ Hbody) as Hne. rewrite Forall_forall in Hne. by apply Hne, Hflush.
Qed.

(** An envelope whose first end marker is flush is parsed as the grammar says. *)
Lemma parse_envelope text hunks :
  (str_len text ≤ MAX_PATCH_SIZE)%N → length hunks ≤ MAX_HUNKS →
  (∀ l, l ∈ patch_lines open_re text → is_end l = true → starts_with MARK l = true) →
  envelope_denotes (patch_lines open_re text) hunks → parse_patch open_re text = Ok hunks.
Proof.
  intros Hsize Hmax Hflush (before & b & body & e & after & Hlines & Hb & He & Hbefore & Hafter & Hbody).
  unfold parse_patch. rewrite (proj2 (N.ltb_ge _ _)) by done. rewrite Hlines in Hflush |- *.
  destruct (envelope_markers before b body e after hunks) as [-> ->]; [done..| |].
  { intros l Hl. apply Hflush. set_solver. }
  rewrite (proj2 (Nat.leb_gt _ _)) by lia.
  set (lines := before ++ b :: body ++ e :: after).
  assert (drop (S (length before)) lines = body ++ e :: after) as Hd.
  { subst lines. replace (S (length before)) with (length before + 1) by lia.
    by rewrite <-drop_drop, drop_app_length. }
  assert (drop (S (length before + length body)) lines = e :: after) as Hd'.
  { replace (S (length before + length body)) with (S (length before) + length body) by lia.
    by apply drop_app_rows. }
  destruct (read_body lines (S (length before + length body)) (S (length before)) body (e :: after)
    hunks (S (length before + length body) - S (length before))) as [Hv Hp]; [done|done| |lia|lia|].
  { apply end_stops; [done|]. apply Hflush; [set_solver|done]. }
  unfold validate_patch_structure.
  rewrite (proj2 (first_nonblank_None (take (length before) lines))) by (subst lines; by rewrite take_app_length).
  rewrite (proj2 (first_nonblank_None (drop (S (S (length before + length body))) lines))).
  2: { replace (S (S (length before + length body))) with (S (length before + length body) + 1) by lia.
       by rewrite <-drop_drop, Hd'. }
  rewrite Hv. rewrite decide_True in Hp by done. apply bind_Ok. by exists tt.
Qed.

(** What a successful parse has found. *)
Lemma parse_patch_Ok text hunks :
  (∀ l, l ∈ patch_lines open_re text → is_end l = true → starts_with MARK l = true) →
  parse_patch open_re text = Ok hunks →
  (str_len text ≤ MAX_PATCH_SIZE)%N ∧ length hunks ≤ MAX_HUNKS ∧
  envelope_denotes (patch_lines open_re text) hunks.
Proof.
  intros Hflush. unfold parse_patch. destruct (N.ltb_spec MAX_PATCH_SIZE (str_len text)); [done|].
  set (lines := patch_lines open_re text) in *.
  destruct (position is_begin lines) as [nb|] eqn:Hnb; [|done].
  destruct (position is_end lines) as [ne|] eqn:Hne; [|done].
  destruct (Nat.leb_spec ne nb); [done|].
  apply position_Some in Hnb as (b & Hlb & Hb & _). apply position_Some in Hne as (e & Hle & He & _).
  assert (starts_with MARK e = true) as Hmark by (apply Hflush; [by eapply list_elem_of_lookup_2|done]).
  intros (u & Hv & Hp)%bind_Ok. unfold validate_patch_structure in Hv.
  destruct (first_nonblank (take nb lines)) eqn:Hbefore; [done|].
  destruct (first_nonblank (drop (S ne) lines)) eqn:Hafter; [done|]. destruct u.
  pose proof (end_stops e (drop (S ne) lines) He Hmark) as Hs.
  eapply validate_ops_inv in Hv as (hs & Hbody); [|done|by apply Hs|lia|lia].
  assert (drop (S nb) lines = rows_until lines (S nb) ne ++ e :: drop (S ne) lines) as Hd.
  { unfold rows_until. rewrite <-(take_drop (ne - S nb) (drop (S nb) lines)) at 1. f_equal.
    rewrite drop_drop. replace (S nb + (ne - S nb)) with ne by lia. by apply drop_S. }
  assert (length (rows_until lines (S nb) ne) = ne - S nb) as Hlen.
  { pose proof (lookup_lt_Some _ _ _ Hle). unfold rows_until. len. }
  destruct (read_body lines ne (S nb) _ _ hs (ne - S nb) Hbody Hd Hs) as [_ Hread]; [lia|lia|].
  rewrite Hread in Hp. case_decide; [|done]. injection Hp as ->. split_and!; [done..|].
  exists (take nb lines), b, (rows_until lines (S nb) ne), e, (drop (S ne) lines).
  split_and!; [|done|done|by apply first_nonblank_None..|done].
  rewrite <-Hd, <-(drop_S _ b) by done. by rewrite take_drop.
Qed.

(** C18: the parser accepts exactly the grammar.  When no line that trims to the end marker is
    indented, a text parses to a list of hunks if and only if it is at most a mebibyte, has at
    most 500 operations, and its lines are an envelope whose body denotes those hunks; every
    row between the markers is then accounted for by one operation, and in every other case
    the parse is refused. *)
Theorem parse_patch_exact text hunks :
  (∀ l, l ∈ patch_lines open_re text → is_end l = true → starts_with (lit "***") l = true) →
  parse_patch open_re text = Ok hunks ↔
  (str_len text ≤ MAX_PATCH_SIZE)%N ∧ length hunks ≤ MAX_HUNKS ∧
  envelope_denotes (patch_lines open_re text) hunks.
Proof.
  intros Hflush. split; [by apply parse_patch_Ok|]. intros (? & ? & ?). by apply parse_envelope.
Qed.

End Envelopes.

(** ** The opening pattern *)

(** A matcher for the opening pattern, with its word and quote classes. *)
Definition is_word (c : char) : bool := is_ascii_alphanumeric c || (c =? 95)%N.
Definition is_quote (c : char) : bool := (c =? SQUOTE)%N || (c =? DQUOTE)%N.

(** An optional [cat] and white space; without white space after it, [cat] is left in place. *)
Definition skip_cat (s : str) : str :=
  match strip_prefix (lit "cat") s with
  | Some (c :: r) => if is_whitespace c then drop_while is_whitespace r else s
  | _ => s
  end.

Definition skip_quote (s : str) : str :=
  match s with c :: r => if is_quote c then r else s | [] => s end.

(** White space up to a newline, greedy: the text after the last newline of the leading white
    space. *)
Definition skip_blank_newline (s : str) : option str :=
  match rposition (N.eqb LF) (take_while is_whitespace s) with
  | Some n => Some (drop (S n) s)
  | None => None
  end.

(** The delimiter and the text after the match.  No backtracking is needed, since no two
    neighbouring parts of the pattern share a character. *)
Definition heredoc_opening (input : str) : option (str * str) :=
  match strip_prefix (lit "<<") (skip_cat input) with
  | None => None
  | Some r =>
      let r := skip_quote r in
      let delimiter := take_while is_word r in
      match delimiter with
      | [] => None
      | _ => pair delimiter <$> skip_blank_newline (skip_quote (drop (length delimiter) r))
      end
  end.

(** The parser at work. *)
Example parse_patch_update :
  parse_patch heredoc_opening (join [LF] [lit "cat <<'EOF'"; lit "*** Begin Patch"; lit "*** Update File: a.rs";
    lit "*** Move to: b.rs"; lit "@@ fn f"; lit " x"; lit "-y"; lit "+z"; lit "*** End of File";
    lit "*** Add File: n.txt"; lit "+one"; lit "+two"; lit "*** Delete File: d"; lit "*** End Patch";
    lit "EOF"]) =
  Ok [Update (lit "a.rs") (Some (lit "b.rs"))
        [MkChunk [lit "x"; lit "y"] [lit "x"; lit "z"] (Some (lit "fn f")) true];
      Add (lit "n.txt") (lit "one" ++ [LF] ++ lit "two"); Delete (lit "d")].
Proof. vm_compute. reflexivity. Qed.

Definition sample_envelope : str :=
  join [LF] [lit "*** Begin Patch"; lit "*** Update File: a.rs"; lit "@@ fn f"; lit " x"; lit "-y";
    lit "+z"; lit "*** End of File"; lit "*** Delete File: d"; lit "*** End Patch"].

Lemma parse_patch_exact_witness :
  envelope_denotes (patch_lines heredoc_opening sample_envelope)
    [Update (lit "a.rs") None [MkChunk [lit "x"; lit "y"] [lit "x"; lit "z"] (Some (lit "fn f")) true];
     Delete (lit "d")].
Proof.
  refine (proj2 (proj2 (proj1 (parse_patch_exact heredoc_opening sample_envelope _ _) _))).
  - apply (Forall_forall (λ l, is_end l = true → starts_with (lit "***") l = true)). by_compute.
  - vm_compute. reflexivity.
Defined.

(** An end marker indented by a space ends the envelope for the validation, but is read as one
    more context row of the last chunk, so that the update expects it in the file. *)
Lemma indented_end_marker_becomes_context :
  parse_patch heredoc_opening (join [LF] [lit "*** Begin Patch"; lit "*** Update File: a.rs"; lit "@@"; lit "-y";
    lit "+z"; lit " *** End Patch"])
  = Ok [Update (lit "a.rs") None
          [MkChunk [lit "y"; lit "*** End Patch"] [lit "z"; lit "*** End Patch"] None false]].
Proof. vm_compute. reflexivity. Qed.

(** ** Printing *)

Definition render_chunk (c : UpdateFileChunk) : list str :=
  (CHUNK ++ match change_context c with Some s => SPACE :: s | None => [] end)
  :: ((cons MINUS <$> old_lines c) ++ (cons PLUS <$> new_lines c))
  ++ (if is_end_of_file c then [EOF] else []).

Definition render_hunk (h : Hunk) : list str :=
  match h with
  | Add path contents => (ADD ++ SPACE :: path) :: (cons PLUS <$> split_on LF contents)
  | Delete path => [DELETE ++ SPACE :: path]
  | Update path move chunks =>
      (UPDATE ++ SPACE :: path)
      :: (match move with Some m => [MOVE ++ SPACE :: m] | None => [] end)
      ++ concat (render_chunk <$> chunks)
  end.

Definition render_lines (hunks : list Hunk) : list str :=
  lit "*** Begin Patch" :: concat (render_hunk <$> hunks) ++ [END].

Definition render (hunks : list Hunk) : str := join [LF] (render_lines hunks).

(** A quoted heredoc around a text. *)
Definition in_heredoc (delimiter text : str) : str :=
  lit "cat <<'" ++ delimiter ++ lit "'" ++ [LF] ++ text ++ [LF] ++ delimiter.

(** Text that fits on one line, and names that also survive trimming. *)
Definition wf_line (l : str) : Prop := (LF ∉ l) ∧ last l ≠ Some CR.
Definition wf_name (s : str) : Prop := s ≠ [] ∧ tight s ∧ LF ∉ s.

Definition wf_chunk (c : UpdateFileChunk) : Prop :=
  (∀ s, change_context c = Some s → wf_name s) ∧
  Forall wf_line (old_lines c) ∧ Forall wf_line (new_lines c).

Definition wf_hunk (h : Hunk) : Prop :=
  match h with
  | Add path contents => wf_name path ∧ Forall wf_line (split_on LF contents)
  | Delete path => wf_name path
  | Update path move chunks =>
      wf_name path ∧ (∀ m, move = Some m → wf_name m) ∧ Forall wf_chunk chunks ∧
      (chunks = [] → is_Some move)
  end.

#[local] Instance forall_Some_dec {A} (o : option A) (P : A → Prop) `{∀ x, Decision (P x)} :
  Decision (∀ c, o = Some c → P c).
Proof.
  refine (match o with Some x => cast_if (decide (P x)) | None => left _ end); naive_solver.
Defined.
#[export] Instance tight_dec s : Decision (tight s).
Proof. unfold tight. apply _. Defined.
#[export] Instance wf_line_dec l : Decision (wf_line l).
Proof. unfold wf_line. apply _. Defined.
#[export] Instance wf_name_dec s : Decision (wf_name s).
Proof. unfold wf_name. apply _. Defined.
#[export] Instance wf_chunk_dec c : Decision (wf_chunk c).
Proof. unfold wf_chunk. apply _. Defined.
#[export] Instance wf_hunk_dec h : Decision (wf_hunk h).
Proof. destruct h; simpl; apply _. Defined.

Lemma trim_space s : tight s → trim (SPACE :: s) = s.
Proof. exact (trim_tight s). Qed.

Lemma rows_removed_added os ns :
  rows_denote ((cons MINUS <$> os) ++ (cons PLUS <$> ns)) os ns.
Proof.
  induction os as [|o os IH]; simpl.
  - induction ns as [|n ns IH]; simpl; [constructor|].
    apply (rows_cons _ _ [] [n]); [constructor|done].
  - apply (rows_cons _ _ [o] []); [constructor|done].
Qed.

Lemma render_chunk_denotes c : wf_chunk c → chunk_denotes (render_chunk c) c.
Proof.
  destruct c as [os ns ctx eof]. intros (Hc & _ & _). unfold render_chunk. simpl in *.
  assert (ctx = some_text (trim (match ctx with Some s => SPACE :: s | None => [] end))) as Hctx.
  { destruct ctx as [s|]; [|done]. destruct (Hc s eq_refl) as (Hne & Ht & _).
    rewrite trim_space by done. unfold some_text, is_empty_str. by rewrite bool_decide_eq_false_2. }
  rewrite Hctx at 2. destruct eof.
  - apply chunk_closed; [apply rows_removed_added|constructor].
  - rewrite app_nil_r. apply chunk_open, rows_removed_added.
Qed.

Lemma render_hunk_denotes h : wf_hunk h → op_denotes (render_hunk h) h.
Proof.
  destruct h as [path contents|path|path move chunks]; simpl.
  - intros [(Hne & Ht & _) _]. rewrite <-(trim_space path Ht) at 2.
    assert (omap (strip_prefix [PLUS]) (cons PLUS <$> split_on LF contents) = split_on LF contents) as Ho.
    { induction (split_on LF contents) as [|l ls IH]; [done|]. cbn [fmap list_fmap omap list_omap].
      change (strip_prefix [PLUS] (PLUS :: l)) with (Some l). cbn iota. f_equal. exact IH. }
    rewrite <-(join_split_on LF contents) at 2. rewrite <-Ho at 2.
    apply op_add; [by rewrite trim_space|]. apply Forall_fmap, Forall_true. eauto.
  - intros (Hne & Ht & _). rewrite <-(trim_space path Ht) at 2.
    apply op_delete; [by rewrite trim_space|constructor].
  - intros ((Hne & Ht & _) & Hm & Hc & Hnc). rewrite <-(trim_space path Ht) at 2.
    apply (op_update _ _ _ []); [by rewrite trim_space| |constructor| |done].
    + destruct move as [m|]; [|constructor]. destruct (Hm m eq_refl) as (Hmne & Hmt & _).
      rewrite <-(trim_space m Hmt) at 2. constructor. by rewrite trim_space.
    + apply Forall2_fmap_l, Forall_Forall2_diag. eapply Forall_impl; [done|]. apply render_chunk_denotes.
Qed.

(** Printed lines have no newline, no final carriage return, and no leading white space. *)
Definition printed (l : str) : Prop :=
  wf_line l ∧ ∀ c, head l = Some c → is_whitespace c = false.

Lemma printed_prefix (p l : str) c k :
  p = c :: k → is_whitespace c = false → wf_line p → wf_line l → printed (p ++ l).
Proof.
  intros -> Hc [Hp Hp'] [Hl Hl']. split; [|by intros c' [= <-]]. split.
  - rewrite elem_of_app. tauto.
  - rewrite last_app. by destruct (last l).
Qed.

Lemma wf_name_line s : wf_name s → wf_line (SPACE :: s).
Proof.
  intros (Hne & [_ Ht] & Hs). split.
  - rewrite elem_of_cons. by intros [?|?].
  - intros Hl. assert (last s = Some CR) as Hc by (by destruct s).
    apply Ht in Hc. done.
Qed.

Ltac printed_literal :=
  match goal with |- wf_line ?l => split; [apply (bool_decide_unpack (LF ∉ l)); vm_compute; exact I|done] end.

Lemma render_chunk_printed c : wf_chunk c → Forall printed (render_chunk c).
Proof.
  destruct c as [os ns ctx eof]. intros (Hc & Ho & Hn). unfold render_chunk. simpl in *.
  constructor; [|repeat (apply Forall_app; split)].
  - eapply (printed_prefix CHUNK); [done|done|printed_literal|].
    destruct ctx as [s|]; [by apply wf_name_line, Hc|]. printed_literal.
  - apply Forall_fmap. eapply Forall_impl; [done|]. intros l Hl.
    eapply (printed_prefix [MINUS]); [done|done|printed_literal|done].
  - apply Forall_fmap. eapply Forall_impl; [done|]. intros l Hl.
    eapply (printed_prefix [PLUS]); [done|done|printed_literal|done].
  - destruct eof; constructor; [|done]. split; [printed_literal|]. by intros c [= <-].
Qed.

Lemma render_hunk_printed h : wf_hunk h → Forall printed (render_hunk h).
Proof.
  destruct h as [path contents|path|path move chunks]; simpl.
  - intros [Hp Hc]. constructor.
    + eapply (printed_prefix ADD); [done|done|printed_literal|by apply wf_name_line].
    + apply Forall_fmap. eapply Forall_impl; [done|]. intros l Hl.
      eapply (printed_prefix [PLUS]); [done|done|printed_literal|done].
  - intros Hp. constructor; [|done].
    eapply (printed_prefix DELETE); [done|done|printed_literal|by apply wf_name_line].
  - intros (Hp & Hm & Hc & _). constructor; [|apply Forall_app; split].
    + eapply (printed_prefix UPDATE); [done|done|printed_literal|by apply wf_name_line].
    + destruct move as [m|]; constructor; [|done].
      eapply (printed_prefix MOVE); [done|done|printed_literal|by apply wf_name_line, Hm].
    + apply Forall_concat, Forall_fmap. eapply Forall_impl; [done|]. apply render_chunk_printed.
Qed.

Lemma render_lines_printed hs : Forall wf_hunk hs → Forall printed (render_lines hs).
Proof.
  intros H. constructor; [split; [printed_literal|by intros c [= <-]]|].
  apply Forall_app. split.
  - apply Forall_concat, Forall_fmap. eapply Forall_impl; [done|]. apply render_hunk_printed.
  - constructor; [|done]. split; [printed_literal|by intros c [= <-]].
Qed.

Lemma render_envelope hs : Forall wf_hunk hs → envelope_denotes (render_lines hs) hs.
Proof.
  intros H. exists [], (lit "*** Begin Patch"), (concat (render_hunk <$> hs)), END, [].
  split_and!; [done..|]. exists [], (render_hunk <$> hs). split_and!; [done|constructor|].
  apply Forall2_fmap_l, Forall_Forall2_diag. eapply Forall_impl; [done|]. apply render_hunk_denotes.
Qed.

Lemma render_split hs :
  Forall wf_hunk hs → strip_cr <$> split_on LF (render hs) = render_lines hs.
Proof.
  intros Hp%render_lines_printed. unfold render. rewrite split_on_join; [|done|].
  2: { eapply Forall_impl; [done|]. by intros l [[? _] _]. }
  induction Hp as [|l ls [[_ Hl] _] _ IH]; [done|].
  rewrite fmap_cons. by rewrite strip_cr_id, IH.
Qed.

Section Printed.
Context (open_re : str → option (str * str)).

(** Any text whose unwrapped form is a printed patch parses to that patch. *)
Lemma parse_printed text hs :
  Forall wf_hunk hs → length hs ≤ MAX_HUNKS → (str_len text ≤ MAX_PATCH_SIZE)%N →
  strip_heredoc open_re (trim text) = render hs → parse_patch open_re text = Ok hs.
Proof.
  intros Hwf Hmax Hsize Htext.
  assert (patch_lines open_re text = render_lines hs) as Hlines.
  { unfold patch_lines. rewrite Htext. by apply render_split. }
  apply parse_envelope; [done..| |]; rewrite Hlines; [|by apply render_envelope].
  pose proof (render_lines_printed hs Hwf) as Hp. rewrite Forall_forall in Hp.
  intros l [_ Hl]%Hp He. destruct (end_flush l Hl He) as (r & ->). done.
Qed.

End Printed.

Lemma render_shape hs : ∃ m, render hs = lit "*** Begin Patch" ++ m ++ END.
Proof.
  unfold render, render_lines. rewrite join_cons by (by destruct (concat _)).
  exists ([LF] ++ join [LF] (concat (render_hunk <$> hs) ++ [[]])). f_equal. rewrite <-app_assoc. f_equal.
  induction (concat (render_hunk <$> hs)) as [|l ls IH]; [done|].
  rewrite <-!app_comm_cons, !join_cons by (by destruct ls). rewrite IH. by rewrite <-!app_assoc.
Qed.

Lemma tight_ends (a m b : str) :
  a ≠ [] → b ≠ [] → (∀ c, head a = Some c → is_whitespace c = false) →
  (∀ c, last b = Some c → is_whitespace c = false) → tight (a ++ m ++ b).
Proof.
  intros Ha Hb Hh Hl. split; intros c Hc.
  - apply Hh. by destruct a.
  - apply Hl. rewrite app_assoc, last_app in Hc. by destruct (last b) eqn:E; [|apply last_None in E].
Qed.

(** ** Heredocs *)

Lemma word_char c : is_word c = true → is_whitespace c = false ∧ is_quote c = false.
Proof.
  unfold is_word, is_ascii_alphanumeric, is_ascii_digit, is_ascii_upper, is_ascii_lower,
    is_whitespace, is_quote, SQUOTE, DQUOTE. lia.
Qed.

Lemma word_last d c : Forall (λ c, is_word c = true) d → last d = Some c → is_whitespace c = false.
Proof.
  intros Hd Hc. apply word_char. rewrite Forall_forall in Hd. apply Hd.
  by apply last_Some_elem_of in Hc.
Qed.

Lemma heredoc_body_closes d t :
  d ≠ [] → Forall (λ c, is_word c = true) d → heredoc_body d (t ++ LF :: d) = Some t.
Proof.
  intros Hne Hd. induction t as [|c t IH]; cbn [heredoc_body app].
  - rewrite (proj2 (strip_prefix_Some d d [])) by (by rewrite app_nil_r). done.
  - assert (match strip_prefix d (t ++ LF :: d) with
            | Some after => forallb is_whitespace after | None => false end = false) as ->.
    { destruct (strip_prefix d (t ++ LF :: d)) as [after|] eqn:E; [|done].
      apply strip_prefix_Some in E. apply not_true_iff_false. rewrite forallb_elem_of. intros Hall.
      destruct (last d) as [x|] eqn:Hx; [|by apply last_None in Hx].
      assert (last after = Some x) as Hlast.
      { assert (last (t ++ LF :: d) = Some x) as Hl by (by rewrite last_app, last_cons, Hx).
        rewrite E, last_app in Hl. destruct (last after) as [y|] eqn:Hy; [done|].
        apply last_None in Hy as ->. apply (f_equal length) in E. len. }
      apply last_Some_elem_of in Hlast. apply Hall in Hlast. apply word_last in Hx; [congruence|done]. }
    rewrite andb_false_r, IH. done.
Qed.

Lemma take_while_word d r :
  Forall (λ c, is_word c = true) d → (∀ c, head r = Some c → is_word c = false) →
  take_while is_word (d ++ r) = d.
Proof.
  intros Hd Hr. induction Hd as [|c d Hc _ IH]; simpl.
  - destruct r as [|c r]; [done|]. simpl. by rewrite (Hr c).
  - by rewrite Hc, IH.
Qed.

Lemma heredoc_opening_quoted d c t :
  d ≠ [] → Forall (λ c, is_word c = true) d → is_whitespace c = false →
  heredoc_opening (lit "cat <<'" ++ d ++ lit "'" ++ [LF] ++ c :: t) = Some (d, c :: t).
Proof.
  intros Hne Hd Hc. unfold heredoc_opening.
  change (strip_prefix (lit "<<") (skip_cat (lit "cat <<'" ++ d ++ lit "'" ++ [LF] ++ c :: t)))
    with (Some (SQUOTE :: d ++ lit "'" ++ [LF] ++ c :: t)). cbn iota zeta.
  change (skip_quote (SQUOTE :: d ++ lit "'" ++ [LF] ++ c :: t)) with (d ++ lit "'" ++ [LF] ++ c :: t).
  rewrite take_while_word, drop_app_length; [|done|by intros x [= <-]].
  destruct d as [|x d]; [done|].
  change (skip_quote (lit "'" ++ [LF] ++ c :: t)) with (LF :: c :: t).
  unfold skip_blank_newline. cbn [take_while]. change (is_whitespace LF) with true. cbn iota.
  by rewrite Hc.
Qed.

(** What the parser relies on of the opening pattern. *)
Class HeredocPattern (open_re : str → option (str * str)) : Prop := {
  open_re_start c s : c ≠ 99%N → c ≠ 60%N → open_re (c :: s) = None;
  open_re_quoted d c t :
    d ≠ [] → Forall (λ c, is_word c = true) d → is_whitespace c = false →
    open_re (lit "cat <<'" ++ d ++ lit "'" ++ [LF] ++ c :: t) = Some (d, c :: t) }.

#[export] Instance heredoc_opening_pattern : HeredocPattern heredoc_opening.
Proof.
  split; [|apply heredoc_opening_quoted]. intros c s Hc Hlt. unfold heredoc_opening, skip_cat.
  change (lit "cat") with (99%N :: lit "at"). change (lit "<<") with [60%N; 60%N].
  rewrite (strip_prefix_None_head 99%N) by (by intros [= ->]).
  by rewrite (strip_prefix_None_head 60%N) by (by intros [= ->]).
Qed.

Section RoundTrip.
Context (open_re : str → option (str * str)) `{!HeredocPattern open_re}.

Lemma strip_heredoc_quoted d c t :
  d ≠ [] → Forall (λ c, is_word c = true) d → is_whitespace c = false →
  strip_heredoc open_re (in_heredoc d (c :: t)) = c :: t.
Proof.
  intros Hne Hd Hc. unfold strip_heredoc, in_heredoc.
  rewrite <-(app_comm_cons t), open_re_quoted by done.
  change (c :: t ++ [LF] ++ d) with ((c :: t) ++ LF :: d).
  by rewrite heredoc_body_closes.
Qed.

(** printing and parsing: a list of well-formed hunks within the limits is read back from
    its printed envelope, and also when the envelope is wrapped in a quoted heredoc with any
    delimiter. *)
Theorem parse_patch_render hs delimiter :
  Forall wf_hunk hs → length hs ≤ MAX_HUNKS →
  delimiter ≠ [] → Forall (λ c, is_word c = true) delimiter →
  (str_len (in_heredoc delimiter (render hs)) ≤ MAX_PATCH_SIZE)%N →
  parse_patch open_re (render hs) = Ok hs ∧
  parse_patch open_re (in_heredoc delimiter (render hs)) = Ok hs.
Proof.
  intros Hwf Hmax Hne Hd Hsize. destruct (render_shape hs) as (m & Hm). split.
  - apply parse_printed; [done..| |].
    + unfold in_heredoc, str_len in *. rewrite !as_bytes_app, !length_app in Hsize. lia.
    + rewrite trim_tight.
      { unfold strip_heredoc. rewrite Hm.
        change (lit "*** Begin Patch" ++ m ++ END) with (42%N :: lit "** Begin Patch" ++ m ++ END).
        by rewrite open_re_start. }
      rewrite Hm. apply tight_ends; [done|done| |];
        intros c Hc; vm_compute in Hc; by injection Hc as <-.
  - apply parse_printed; [done..|].
    rewrite trim_tight.
    + rewrite Hm. by apply strip_heredoc_quoted.
    + assert (in_heredoc delimiter (render hs)
        = lit "cat <<'" ++ (delimiter ++ lit "'" ++ [LF] ++ render hs ++ [LF]) ++ delimiter) as ->
        by (unfold in_heredoc; by rewrite <-!app_assoc).
      apply tight_ends; [done|done|by intros c [= <-]|]. intros c. by apply word_last.
Qed.

End RoundTrip.

Definition sample_hunks : list Hunk :=
  [Update (lit "a.rs") (Some (lit "b.rs"))
     [MkChunk [lit "x"] [lit "y"; []] (Some (lit "fn f")) false; MkChunk [] [lit "*** End Patch"] None true];
   Add (lit "n.txt") (lit "one" ++ [LF; LF] ++ lit " two"); Delete (lit "d e")].

Lemma parse_patch_render_witness :
  parse_patch heredoc_opening (in_heredoc (lit "EOF") (render sample_hunks)) = Ok sample_hunks.
Proof.
  apply (parse_patch_render heredoc_opening sample_hunks (lit "EOF")); by_compute.
Defined.

End PatchGrammar.
