(* ===== verification/PatchMatcher.v ===== *)
(** * Line-sequence matching: [patch/matcher.rs]

    The Knuth-Morris-Pratt search behind [apply_patch], over lines under an equivalence that
    need not be equality, and its equality with the start-by-start search. *)

From S2P Require Import Prelude RustStr.

Module PatchMatcher.

(** ** The search over lines *)

Section Kmp.
Context {A : Type} (compare : A → A → bool).

(** [loop { if compare(x, pattern[matched]) .. }]: the inner loop of both passes; every round
    makes [matched] smaller, so [S matched] rounds are enough. *)
Fixpoint kmp_advance (fuel : nat) (pattern : list A) (prefix : list nat) (x : A) (matched : nat) : nat :=
  match fuel with
  | 0 => matched
  | S fuel =>
      match pattern !! matched with
      | Some y =>
          if compare x y then S matched
          else match matched with
               | 0 => 0
               | S j => kmp_advance fuel pattern prefix x (default 0 (prefix !! j))
               end
      | None => matched
      end
  end.

(** [for i in 1..pattern.len()]: fill in the prefix table. *)
Fixpoint kmp_fill (pattern : list A) (prefix : list nat) (i : nat) (rest : list A) : list nat :=
  match rest with
  | [] => prefix
  | x :: rest =>
      let matched := default 0 (prefix !! (i - 1)) in
      kmp_fill pattern (<[i := kmp_advance (S matched) pattern prefix x matched]> prefix) (S i) rest
  end.

Definition kmp_prefix (pattern : list A) : list nat :=
  kmp_fill pattern (replicate (length pattern) 0) 1 (drop 1 pattern).

(** [for (i, line) in lines.iter().enumerate().skip(start_index)]. *)
Fixpoint kmp_scan (pattern : list A) (prefix : list nat) (i matched : nat) (rest : list A) :
    option nat :=
  match rest with
  | [] => None
  | x :: rest =>
      let matched := kmp_advance (S matched) pattern prefix x matched in
      if decide (matched = length pattern) then Some (i + 1 - length pattern)
      else kmp_scan pattern prefix (S i) matched rest
  end.

(** [lines[start..].iter().zip(pattern).all(compare)]. *)
Fixpoint zip_all (lines pattern : list A) : bool :=
  match lines, pattern with
  | x :: lines, y :: pattern => compare x y && zip_all lines pattern
  | _, _ => true
  end.

Definition normalized_sequence_match (lines pattern : list A) (start_index : nat) (eof : bool) :
    option nat :=
  if bool_decide (pattern = []) || (length lines <? length pattern) then None
  else if eof then
    let start := length lines - length pattern in
    if (start_index <=? start) && zip_all (drop start lines) pattern then Some start else None
  else kmp_scan pattern (kmp_prefix pattern) start_index 0 (drop start_index lines).

(** [try_match]. *)
Definition try_match (lines pattern : list A) (start_index : nat) (eof : bool) : option nat :=
  normalized_sequence_match lines pattern start_index eof.

(** The start-by-start search it replaced. *)
Definition matches_at (lines pattern : list A) (start : nat) : bool :=
  forallb (λ '(offset, expected),
    match lines !! (start + offset) with Some x => compare x expected | None => false end)
    (imap pair pattern).

Definition try_match_scan_oracle (lines pattern : list A) (start_index : nat) (eof : bool) :
    option nat :=
  if bool_decide (pattern = []) || (length lines <? length pattern) then None
  else
    let last_start := length lines - length pattern in
    if eof then
      if (start_index <=? last_start) && matches_at lines pattern last_start
      then Some last_start else None
    else if last_start <? start_index then None
    else head (filter (λ start, matches_at lines pattern start = true)
                 (range_incl start_index last_start)).

(** ** Correctness of the search *)

Context (compare_equivalence : Equivalence (λ x y, compare x y = true)).
Context (p : list A).
Abbreviation R := (λ x y, compare x y = true).

(** [take j p] matches the last [j] elements of [t]. *)
Definition border (t : list A) (j : nat) : Prop :=
  j ≤ length t ∧ j ≤ length p ∧ Forall2 R (drop (length t - j) t) (take j p).

Definition max_border (t : list A) (k : nat) : Prop := border t k ∧ ∀ j, border t j → j ≤ k.

Lemma border_0 t : border t 0.
Proof. split_and!; [lia|lia|]. rewrite Nat.sub_0_r, drop_all. constructor. Qed.

Lemma border_snoc t x j :
  border (t ++ [x]) (S j) ↔ border t j ∧ ∃ y, p !! j = Some y ∧ compare x y = true.
Proof.
  unfold border. rewrite length_app. simpl.
  assert (j ≤ length t → drop (length t + 1 - S j) (t ++ [x]) = drop (length t - j) t ++ [x]) as Hd.
  { intros Hj. rewrite drop_app_le by lia. f_equal. f_equal. lia. }
  split.
  - intros (H1 & H2 & H3). destruct (lookup_lt_is_Some_2 p j) as [y Hy]; [lia|].
    rewrite Hd, (take_S_r _ _ _ Hy) in H3 by lia.
    apply Forall2_app_inv in H3 as [Ha Hb]; [|rewrite length_drop, length_take; lia].
    inversion Hb; subst. split_and!; try lia; [done|]. eauto.
  - intros ((H1 & H2 & H3) & y & Hy & Hxy). apply lookup_lt_Some in Hy as Hlt.
    split_and!; [lia|lia|]. rewrite Hd, (take_S_r _ _ _ Hy) by lia.
    apply Forall2_app; [done|]. by repeat constructor.
Qed.

(** Shorter borders of [t] are the proper borders of a longer one. *)
Lemma border_of_border t k j :
  border t k → j < k → border t j ↔ border (drop 1 (take k p)) j.
Proof.
  intros (H1 & H2 & H3) Hj. unfold border. rewrite length_drop, length_take_le, drop_drop by done.
  replace (1 + (k - 1 - j)) with (k - j) by lia.
  assert (Forall2 R (drop (length t - j) t) (drop (k - j) (take k p))) as Hk.
  { apply (Forall2_drop _ _ _ (k - j)) in H3. rewrite drop_drop in H3.
    by replace (length t - k + (k - j)) with (length t - j) in H3 by lia. }
  split; intros (Ha & Hb & Hc); (split_and!; [lia|lia|]).
  - symmetry in Hk. by etrans.
  - by etrans.
Qed.

(** The first [n] entries of the prefix table. *)
Definition table_ok (prefix : list nat) (n : nat) : Prop :=
  ∀ i, i < n → ∃ k, prefix !! i = Some k ∧ max_border (drop 1 (take (S i) p)) k.

Lemma kmp_advance_spec prefix t x fuel k :
  k < fuel → border t k → k < length p → table_ok prefix k →
  (∀ j y, border t j → p !! j = Some y → compare x y = true → j ≤ k) →
  max_border (t ++ [x]) (kmp_advance fuel p prefix x k).
Proof.
  revert k. induction fuel as [|fuel IH]; intros k Hf Hb Hk Ht Hmax; [lia|]. simpl.
  destruct (lookup_lt_is_Some_2 p k) as [y Hy]; [lia|]. rewrite Hy.
  destruct (compare x y) eqn:Hxy.
  - split; [apply border_snoc; eauto|]. intros [|j]; [lia|].
    intros (Hj & z & Hz & Hxz)%border_snoc. apply le_n_S. eauto.
  - assert (∀ j z, border t j → p !! j = Some z → compare x z = true → j < k) as Hlt.
    { intros j z Hj Hz Hxz. specialize (Hmax j z Hj Hz Hxz).
      destruct (decide (j = k)) as [->|]; [congruence|lia]. }
    destruct k as [|i].
    + split; [apply border_0|]. intros [|j]; [lia|].
      intros (Hj & z & Hz & Hxz)%border_snoc. specialize (Hlt j z Hj Hz Hxz). lia.
    + destruct (Ht i) as (k2 & Hk2 & Hb2 & Hm2); [lia|]. rewrite Hk2. simpl.
      assert (k2 < S i) as Hlt2.
      { destruct Hb2 as [Hl _]. rewrite length_drop, length_take in Hl. lia. }
      apply IH; [lia| |lia| |].
      * by apply (border_of_border t (S i) k2).
      * intros n Hn. apply Ht. lia.
      * intros j z Hj Hz Hxz. apply Hm2. apply (border_of_border t (S i) j); eauto.
Qed.

Lemma kmp_fill_spec prefix i rest :
  1 ≤ i → rest = drop i p → length prefix = length p → table_ok prefix i →
  i ≤ length p → table_ok (kmp_fill p prefix i rest) (length p).
Proof.
  revert prefix i. induction rest as [|x rest IH]; intros prefix i Hi Hr Hlen Ht Hip; simpl.
  - apply (f_equal length) in Hr. rewrite length_drop in Hr. simpl in Hr.
    by replace (length p) with i by lia.
  - assert (p !! i = Some x) as Hx.
    { rewrite <-(Nat.add_0_r i), <-lookup_drop, <-Hr. done. }
    apply lookup_lt_Some in Hx as Hlt.
    destruct (Ht (i - 1)) as (k & Hk & Hb & Hm); [lia|]. rewrite Hk. simpl default.
    replace (S (i - 1)) with i in Hb, Hm by lia.
    assert (k ≤ i - 1) as Hki.
    { destruct Hb as [Hl _]. rewrite length_drop, length_take in Hl. lia. }
    assert (max_border (drop 1 (take (S i) p)) (kmp_advance (S k) p prefix x k)) as Hnew.
    { rewrite (take_S_r _ _ _ Hx), drop_app_le by (rewrite length_take; lia).
      apply kmp_advance_spec; [lia|done|lia| |].
      - intros n Hn. apply Ht. lia.
      - intros j y Hj _ _. by apply Hm. }
    apply IH; [lia| |by rewrite length_insert| |lia].
    + replace (S i) with (i + 1) by lia.
      by rewrite <-drop_drop, <-Hr.
    + intros j Hj. destruct (decide (j = i)) as [->|].
      * eexists. split; [by apply list_lookup_insert_eq; lia|done].
      * rewrite list_lookup_insert_ne by done. apply Ht. lia.
Qed.

Lemma kmp_prefix_ok : table_ok (kmp_prefix p) (length p).
Proof.
  destruct p as [|x p'] eqn:E; [intros i; simpl; lia|]. rewrite <-E.
  unfold kmp_prefix. apply kmp_fill_spec; [lia|done|by rewrite length_replicate| |rewrite E; simpl; lia].
  intros i Hi. assert (i = 0) as -> by lia. exists 0. split.
  - rewrite E. done.
  - rewrite E. simpl. split; [apply border_0|]. intros j [Hj _]. done.
Qed.

Lemma matches_at_spec lines s :
  matches_at lines p s = true ↔
  Forall2 R (take (length p) (drop s lines)) p.
Proof.
  unfold matches_at. rewrite forallb_elem_of. split.
  - intros H. apply Forall2_same_length_lookup_2.
    + apply Nat.le_antisymm; [rewrite length_take; lia|]. apply Nat.le_ngt. intros Hl.
      rewrite length_take, length_drop in Hl.
      destruct (lookup_lt_is_Some_2 p (length lines - s)) as [y Hy]; [lia|].
      specialize (H (length lines - s, y)). simpl in H. rewrite lookup_ge_None_2 in H by lia.
      discriminate H. apply elem_of_lookup_imap. eauto.
    + intros i x y Hx Hy. specialize (H (i, y)). simpl in H.
      apply lookup_take_Some in Hx as [Hx _]. rewrite lookup_drop in Hx. rewrite Hx in H. apply H.
      apply elem_of_lookup_imap. eauto.
  - intros H [i y] (j & z & [= <- <-] & Hy)%elem_of_lookup_imap.
    destruct (Forall2_lookup_r _ _ _ _ _ H Hy) as (x & Hx & Hxy).
    apply lookup_take_Some in Hx as [Hx _]. rewrite lookup_drop in Hx. by rewrite Hx.
Qed.

Lemma matches_at_border lines start i :
  i ≤ length lines → start + length p ≤ i →
  border (drop start (take i lines)) (length p) ↔ matches_at lines p (i - length p) = true.
Proof.
  intros Hi Hs. rewrite matches_at_spec. unfold border.
  rewrite length_drop, length_take_le, drop_drop, (take_ge p) by done.
  replace (start + (i - start - length p)) with (i - length p) by lia.
  assert (drop (i - length p) (take i lines) = take (length p) (drop (i - length p) lines)) as ->.
  { rewrite take_drop_commute. f_equal. f_equal. lia. }
  split; [by intros (_ & _ & H)|]. intros H. split_and!; [lia|lia|done].
Qed.

(** The first position in [start ..] that satisfies a test, searching up to [last]. *)
Definition first_match (lines : list A) (start last : nat) (r : option nat) : Prop :=
  match r with
  | Some s => start ≤ s ≤ last ∧ matches_at lines p s = true ∧
      ∀ s', start ≤ s' < s → matches_at lines p s' = false
  | None => ∀ s, start ≤ s ≤ last → matches_at lines p s = false
  end.

Lemma kmp_scan_spec lines start i k rest :
  p ≠ [] → length p ≤ length lines → start ≤ i → rest = drop i lines →
  i ≤ length lines → k < length p → max_border (drop start (take i lines)) k →
  (∀ s, start ≤ s → s + length p ≤ i → matches_at lines p s = false) →
  first_match lines start (length lines - length p) (kmp_scan p (kmp_prefix p) i k rest).
Proof.
  intros Hp Hpl. revert i k.
  induction rest as [|x rest IH]; intros i k Hsi Hr Hil Hk [Hb Hm] Hno.
  - intros s Hs. apply Hno; [lia|].
    apply (f_equal length) in Hr. rewrite length_drop in Hr. simpl in Hr. lia.
  - assert (lines !! i = Some x) as Hx by (by rewrite <-(Nat.add_0_r i), <-lookup_drop, <-Hr).
    apply lookup_lt_Some in Hx as Hlt. cbn [kmp_scan].
    assert (max_border (drop start (take (S i) lines)) (kmp_advance (S k) p (kmp_prefix p) x k))
      as [Hb' Hm'].
    { rewrite (take_S_r _ _ _ Hx), drop_app_le by (rewrite length_take; lia).
      apply kmp_advance_spec; [lia|done|done| |].
      - intros n Hn. apply kmp_prefix_ok. lia.
      - intros j y Hj _ _. by apply Hm. }
    set (k' := kmp_advance (S k) p (kmp_prefix p) x k) in *.
    assert (k' ≤ S i - start ∧ k' ≤ length p) as [Hk1 Hk2].
    { destruct Hb' as (H1 & H2 & _). rewrite length_drop, length_take in H1. lia. }
    case_decide as Hfull.
    + split_and!; [lia|lia| |].
      * replace (i + 1) with (S i) by lia. rewrite <-(matches_at_border lines start (S i)) by lia.
        rewrite <-Hfull at 1. exact Hb'.
      * intros s' Hs'. apply Hno; lia.
    + apply IH; [lia| |lia|lia|done|].
      * replace (S i) with (i + 1) by lia. by rewrite <-drop_drop, <-Hr.
      * intros s Hs Hsm. destruct (decide (s + length p ≤ i)); [by apply Hno|].
        apply not_true_is_false. intros Ht. replace s with (S i - length p) in Ht by lia.
        rewrite <-(matches_at_border lines start (S i)) in Ht by lia. apply Hm' in Ht. lia.
Qed.

Lemma kmp_scan_first lines start :
  p ≠ [] → length p ≤ length lines → start ≤ length lines →
  first_match lines start (length lines - length p)
    (kmp_scan p (kmp_prefix p) start 0 (drop start lines)).
Proof.
  intros Hp Hpl Hs. assert (0 < length p) by (destruct p; simpl; [done|lia]).
  apply kmp_scan_spec; try done; [|intros; lia].
  rewrite drop_ge by (rewrite length_take; lia). split; [apply border_0|]. by intros j [Hj _].
Qed.

Lemma first_match_oracle lines start last r :
  first_match lines start last r →
  head (filter (λ s, matches_at lines p s = true) (range_incl start last)) = r.
Proof.
  intros H. destruct r as [s|]; simpl in H.
  - destruct H as ([H1 H2] & Hs & Hno). unfold range_incl.
    replace (S last - start) with ((s - start) + (1 + (last - s))) by lia.
    rewrite seq_app, filter_app. replace (start + (s - start)) with s by lia.
    assert (filter (λ s, matches_at lines p s = true) (seq start (s - start)) = []) as ->.
    { apply elem_of_nil_inv. intros x [Hx Hin%elem_of_seq]%list_elem_of_filter.
      rewrite Hno in Hx by lia. done. }
    cbn [seq Nat.add app]. by rewrite filter_cons, decide_True.
  - assert (filter (λ s, matches_at lines p s = true) (range_incl start last) = []) as ->; [|done].
    apply elem_of_nil_inv. intros x [Hx Hin%elem_of_range_incl]%list_elem_of_filter.
    by rewrite H in Hx.
Qed.

Lemma zip_all_spec lines : length lines = length p → zip_all lines p = matches_at lines p 0.
Proof.
  intros Hl. apply eq_true_iff_eq. rewrite matches_at_spec, drop_0, take_ge by lia.
  revert Hl. generalize p as q. clear. intros q. revert lines.
  induction q as [|y q IH]; intros [|x lines] Hl; simpl in *; try done.
  rewrite andb_true_iff, IH by lia. by rewrite Forall2_cons.
Qed.

Lemma normalized_sequence_match_oracle lines start eof :
  normalized_sequence_match lines p start eof = try_match_scan_oracle lines p start eof.
Proof.
  unfold normalized_sequence_match, try_match_scan_oracle.
  destruct (bool_decide (p = []) || _) eqn:E; [done|].
  apply orb_false_iff in E as [E1%bool_decide_eq_false E2%Nat.ltb_ge].
  destruct eof.
  - rewrite zip_all_spec by (rewrite length_drop; lia).
    assert (matches_at (drop (length lines - length p) lines) p 0
      = matches_at lines p (length lines - length p)) as ->; [|done].
    apply eq_true_iff_eq. by rewrite !matches_at_spec, drop_0.
  - destruct (_ <? start) eqn:E3; [apply Nat.ltb_lt in E3|apply Nat.ltb_ge in E3].
    + destruct (decide (start ≤ length lines)).
      * pose proof (kmp_scan_first lines start E1 E2 ltac:(lia)) as H.
        destruct (kmp_scan _ _ _ _ _) as [s|]; [|done]. destruct H as [H _]. lia.
      * by rewrite drop_ge by lia.
    + symmetry. apply first_match_oracle, kmp_scan_first; done || lia.
Qed.

End Kmp.

(** the linear search is the obvious one: for any line comparison that is an equivalence,
    any file, pattern, start and end-of-file flag, the Knuth-Morris-Pratt search answers what
    trying every start in turn answers; in particular it finds the first match and misses
    none. *)
Theorem try_match_equals_scan {A} (compare : A → A → bool) lines pattern start eof :
  Equivalence (λ a b, compare a b = true) →
  try_match compare lines pattern start eof = try_match_scan_oracle compare lines pattern start eof.
Proof. intros Heq. by apply normalized_sequence_match_oracle. Qed.

Lemma try_match_equals_scan_witness :
  try_match (λ a b, bool_decide (trim a = trim b))
    [lit " a"; lit "b"; lit "a"; lit "b "; lit "c"] [lit "a"; lit "b"; lit "c"] 0 false = Some 2.
Proof.
  rewrite try_match_equals_scan; [vm_compute; reflexivity|].
  split; intros a; [|intros b|intros b c]; rewrite !bool_decide_eq_true; congruence.
Defined.

End PatchMatcher.
