(* ===== verification/Reflow.v ===== *)
(** * Whitespace reflow: the last tier of [patch/matcher.rs]

    Whitespace normalisation, the candidate iterator that searches the normalised byte stream
    of a file for a normalised needle, and the search for one unique window.  The iterator is
    proved to enumerate exactly the line windows whose normalised text is the needle. *)

From S2P Require Import Prelude RustStr PatchMatcher.
Import PatchMatcher.

Module Reflow.

(** ** Normalisation *)

(** The loop of [normalize_reflow_whitespace]: the text so far and [in_whitespace]. *)
Definition collapse_step (st : str * bool) (ch : char) : str * bool :=
  let '(collapsed, in_whitespace) := st in
  if is_whitespace ch then (if in_whitespace then st else (collapsed ++ [SPACE], true))
  else (collapsed ++ [ch], false).

Definition normalize_reflow_whitespace (input : str) : str :=
  trim (foldl collapse_step ([], false) input).1.

Definition strip_reflow_whitespace (input : str) : str :=
  filter (λ ch, is_whitespace ch = false) input.

Definition has_reflow_content (input : str) : bool :=
  existsb (λ ch, negb (is_whitespace ch)) input.

(** ** Candidates *)

Record ReflowCandidates := MkReflow {
  rc_stream : bytes;
  rc_needle : bytes;
  rc_failure : list nat;
  rc_starts : list (nat * nat);
  rc_ends : list (nat * nat);
  rc_position : nat;
  rc_matched : nat;
  rc_start_cursor : nat;
  rc_end_cursor : nat }.

(** The stream under construction: bytes, [owe_space], and [first] and [last] of the line. *)
Record StreamState := MkStream {
  ss_stream : bytes; ss_owe : bool; ss_first : option nat; ss_last : nat }.

Definition nonempty {A} (l : list A) : bool := match l with [] => false | _ => true end.

Definition stream_char (st : StreamState) (ch : char) : StreamState :=
  if is_whitespace ch
  then MkStream (ss_stream st) (nonempty (ss_stream st)) (ss_first st) (ss_last st)
  else
    let stream := ss_stream st ++ (if ss_owe st then [SPACE] else []) in
    let first := match ss_first st with Some f => f | None => length stream end in
    let stream := stream ++ utf8_char ch in
    MkStream stream false (Some first) (length stream).

(** [for (index, line) in lines.iter().enumerate()]. *)
Fixpoint stream_lines (lines : list str) (index : nat) (stream : bytes) (owe : bool)
    (starts ends : list (nat * nat)) : bytes * list (nat * nat) * list (nat * nat) :=
  match lines with
  | [] => (stream, starts, ends)
  | line :: lines =>
      let st := foldl stream_char (MkStream stream owe None 0) line in
      let '(starts, ends) :=
        match ss_first st with
        | Some first => (starts ++ [(first, index)], ends ++ [(ss_last st, index)])
        | None => (starts, ends)
        end in
      stream_lines lines (S index) (ss_stream st) (nonempty (ss_stream st)) starts ends
  end.

(** [while length > 0 && needle[index] != needle[length] { length = failure[length - 1]; }]. *)
Fixpoint fall_back (fuel : nat) (needle : bytes) (failure : list nat) (x : byte) (n : nat) : nat :=
  match fuel, n with
  | S fuel, S j =>
      if bool_decide (needle !! n ≠ Some x)
      then fall_back fuel needle failure x (default 0 (failure !! j)) else n
  | _, _ => n
  end.

(** One step of the automaton: fall back, then extend if the byte matches. *)
Definition automaton_step (needle : bytes) (failure : list nat) (x : byte) (n : nat) : nat :=
  let n := fall_back n needle failure x n in
  if bool_decide (needle !! n = Some x) then S n else n.

(** [for index in 1..needle.len()], [length] carried from round to round. *)
Fixpoint failure_loop (needle : bytes) (failure : list nat) (index n : nat) (rest : bytes) :
    list nat :=
  match rest with
  | [] => failure
  | x :: rest =>
      let n := automaton_step needle failure x n in
      failure_loop needle (<[index := n]> failure) (S index) n rest
  end.

Definition failure_table (needle : bytes) : list nat :=
  failure_loop needle (replicate (length needle) 0) 1 0 (drop 1 needle).

(** [ReflowCandidates::new]. *)
Definition reflow_new (lines : list str) (needle_normalized : str) : ReflowCandidates :=
  let needle := as_bytes needle_normalized in
  let '(stream, starts, ends) := stream_lines lines 0 [] false [] [] in
  MkReflow stream needle (failure_table needle) starts ends 0 0 0 0.

(** [while entries.get(cursor).is_some_and(|&(offset, _)| offset < bound) { cursor += 1; }]. *)
Fixpoint advance_cursor (fuel : nat) (entries : list (nat * nat)) (bound cursor : nat) : nat :=
  match fuel with
  | 0 => cursor
  | S fuel =>
      match entries !! cursor with
      | Some (offset, _) => if offset <? bound then advance_cursor fuel entries bound (S cursor) else cursor
      | None => cursor
      end
  end.

(** [Iterator::next]: the loop over the rest of the stream. *)
Fixpoint reflow_next_loop (rest : bytes) (rc : ReflowCandidates) :
    option (nat * nat) * ReflowCandidates :=
  match rest with
  | [] => (None, rc)
  | byte :: rest =>
      let position := S (rc_position rc) in
      let matched := automaton_step (rc_needle rc) (rc_failure rc) byte (rc_matched rc) in
      let set matched sc ec :=
        MkReflow (rc_stream rc) (rc_needle rc) (rc_failure rc) (rc_starts rc) (rc_ends rc)
          position matched sc ec in
      if matched <? length (rc_needle rc)
      then reflow_next_loop rest (set matched (rc_start_cursor rc) (rc_end_cursor rc))
      else
        let matched := default 0 (rc_failure rc !! (matched - 1)) in
        let stop := position in
        let start := stop - length (rc_needle rc) in
        let sc := advance_cursor (length (rc_starts rc)) (rc_starts rc) start (rc_start_cursor rc) in
        let ec := advance_cursor (length (rc_ends rc)) (rc_ends rc) stop (rc_end_cursor rc) in
        match rc_starts rc !! sc, rc_ends rc !! ec with
        | Some (first_offset, first), Some (last_offset, last) =>
            if bool_decide (first_offset ≠ start) || bool_decide (last_offset ≠ stop)
            then reflow_next_loop rest (set matched sc ec)
            else (Some (first, last + 1), set matched sc ec)
        | _, _ => reflow_next_loop rest (set matched sc ec)
        end
  end.

Definition reflow_next (rc : ReflowCandidates) : option (nat * nat) * ReflowCandidates :=
  match rc_needle rc with
  | [] => (None, rc)
  | _ => reflow_next_loop (drop (rc_position rc) (rc_stream rc)) rc
  end.

(** [find_reflow_match]: the loop over the iterator stops at the second candidate. *)
Definition find_reflow_match (lines pattern : list str) (start_index : nat) : option (nat * nat) :=
  let needle := normalize_reflow_whitespace (join [LF] pattern) in
  match needle with
  | [] => None
  | _ =>
      let rc := reflow_new (drop start_index lines) needle in
      match reflow_next rc with
      | (None, _) => None
      | (Some (start, stop), rc) =>
          match reflow_next rc with
          | (None, _) => Some (start_index + start, stop - start)
          | (Some _, _) => None
          end
      end
  end.

Example reflow_example :
  find_reflow_match [lit "fn f() {"; lit "  let v = a +"; lit "     b;"; lit "}"]
    [lit "let v = a + b;"] 0 = Some (1, 2).
Proof. vm_compute. reflexivity. Qed.

(** ** The stream is the normalised text *)

(** The stream of a text, and whether a space is owed after it. *)
Definition squeeze_step (st : bytes * bool) (ch : char) : bytes * bool :=
  if is_whitespace ch then (st.1, nonempty st.1)
  else (st.1 ++ (if st.2 then [SPACE] else []) ++ utf8_char ch, false).
Definition squeeze (cs : str) : bytes * bool := foldl squeeze_step ([], false) cs.

(** Two texts with whitespace between them. *)
Definition glue (a b : bytes) : bytes :=
  match a, b with
  | _, [] => a
  | [], _ => b
  | _, _ => a ++ SPACE :: b
  end.

Lemma glue_nil_r a : glue a [] = a.
Proof. by destruct a. Qed.
Lemma glue_nil_l b : glue [] b = b.
Proof. by destruct b. Qed.
Lemma glue_sep a b : b ≠ [] → glue a b = a ++ (if nonempty a then [SPACE] else []) ++ b.
Proof. by destruct a, b. Qed.
Lemma glue_app a b c : b ≠ [] → glue a (b ++ c) = glue a b ++ c.
Proof.
  intros Hb. rewrite !glue_sep by (done || by destruct b). by rewrite <-!app_assoc.
Qed.
Lemma glue_assoc a b c : glue a (glue b c) = glue (glue a b) c.
Proof.
  destruct a as [|x a], b as [|y b], c as [|z c]; try done. simpl. by rewrite <-!app_assoc.
Qed.
Lemma nonempty_glue a b : nonempty (glue a b) = nonempty a || nonempty b.
Proof. by destruct a, b. Qed.
Lemma nonempty_true {A} (l : list A) : nonempty l = true ↔ l ≠ [].
Proof. by destruct l. Qed.

#[local] Arguments glue _ _ : simpl never.

Lemma utf8_char_nonempty c : utf8_char c ≠ [].
Proof. intros H%(f_equal length). pose proof (utf8_char_length c). simpl in H. lia. Qed.

Lemma squeeze_snoc cs c : squeeze (cs ++ [c]) = squeeze_step (squeeze cs) c.
Proof. unfold squeeze. by rewrite foldl_app. Qed.

Lemma squeeze_owe cs : (squeeze cs).2 = true → (squeeze cs).1 ≠ [].
Proof.
  induction cs as [|c cs IH] using rev_ind; [done|]. rewrite squeeze_snoc. unfold squeeze_step.
  destruct (is_whitespace c); simpl; [|done]. by intros ?%nonempty_true.
Qed.

(** Continuing a stream at a whitespace boundary glues the new text on. *)
Lemma squeeze_from s0 cs :
  foldl squeeze_step (s0, nonempty s0) cs
  = (glue s0 (squeeze cs).1,
     match (squeeze cs).1 with [] => nonempty s0 | _ => (squeeze cs).2 end).
Proof.
  induction cs as [|c cs IH] using rev_ind; [simpl; by rewrite glue_nil_r|].
  rewrite foldl_app, IH, squeeze_snoc. cbn [foldl]. pose proof (squeeze_owe cs) as Howe.
  destruct (squeeze cs) as [b q]. unfold squeeze_step. simpl in *.
  destruct (is_whitespace c); simpl.
  - rewrite nonempty_glue. destruct b; simpl; [by rewrite orb_false_r|by rewrite orb_true_r].
  - assert (∀ l, l ++ utf8_char c ≠ []) as Hne.
    { intros l [_ H]%app_nil. by apply utf8_char_nonempty in H. }
    destruct b as [|x b].
    + assert (q = false) as -> by (destruct q; [by destruct Howe|done]). simpl.
      rewrite glue_nil_r, (glue_sep s0) by apply utf8_char_nonempty.
      f_equal. destruct (utf8_char c) eqn:E; [by apply utf8_char_nonempty in E|done].
    + by rewrite <-(glue_app s0 (x :: b)) by done.
Qed.

Lemma squeeze_glue a w b :
  is_whitespace w = true → (squeeze (a ++ w :: b)).1 = glue (squeeze a).1 (squeeze b).1.
Proof.
  intros Hw. unfold squeeze at 1. rewrite foldl_app. cbn [foldl]. fold (squeeze a).
  unfold squeeze_step at 2. rewrite Hw. by rewrite squeeze_from.
Qed.

(** The stream of joined lines. *)
Definition glued (lines : list str) : bytes := foldl (λ s line, glue s (squeeze line).1) [] lines.

Lemma foldl_glue s lines :
  foldl (λ s line, glue s (squeeze line).1) s lines = glue s (glued lines).
Proof.
  revert s. induction lines as [|l lines IH]; intros s; [by rewrite glue_nil_r|].
  cbn [foldl]. rewrite IH. unfold glued at 2. cbn [foldl]. rewrite IH, glue_nil_l.
  by rewrite glue_assoc.
Qed.

Lemma glued_app l1 l2 : glued (l1 ++ l2) = glue (glued l1) (glued l2).
Proof. unfold glued at 1. rewrite foldl_app. by rewrite foldl_glue. Qed.

Lemma squeeze_join lines : (squeeze (join [LF] lines)).1 = glued lines.
Proof.
  induction lines as [|l lines IH]; [done|]. destruct lines as [|l2 lines].
  - unfold glued. simpl. by rewrite glue_nil_l.
  - rewrite join_cons by done. etrans; [by apply (squeeze_glue l LF (join [LF] (l2 :: lines)))|].
    rewrite IH.
    etrans; [|symmetry; apply (glued_app [l] (l2 :: lines))]. f_equal. unfold glued. simpl. by rewrite glue_nil_l.
Qed.

(** *** Normalisation collapses, then trims *)

(** The same squeezing on characters. *)
Definition squeeze_chars (cs : str) : str * bool :=
  foldl (λ st ch,
    if is_whitespace ch then (st.1, nonempty st.1)
    else (st.1 ++ (if st.2 then [SPACE] else []) ++ [ch], false)) ([], false) cs.

Lemma squeeze_chars_bytes cs :
  squeeze cs = (as_bytes (squeeze_chars cs).1, (squeeze_chars cs).2).
Proof.
  induction cs as [|c cs IH] using rev_ind; [done|].
  rewrite squeeze_snoc, IH. unfold squeeze_chars at 3 4. rewrite !foldl_app. fold (squeeze_chars cs).
  cbn [foldl]. destruct (squeeze_chars cs) as [b q]. unfold squeeze_step. simpl.
  destruct (is_whitespace c); simpl.
  - f_equal. destruct b as [|x b]; [done|]. rewrite as_bytes_cons.
    destruct (utf8_char x) eqn:E; [by apply utf8_char_nonempty in E|done].
  - rewrite !as_bytes_app, !as_bytes_cons. f_equal. f_equal. rewrite app_nil_r. by destruct q.
Qed.

(** The collapsed text is the squeezed text with at most one blank at either end. *)
Lemma collapse_squeeze cs :
  let '(out, ws) := foldl collapse_step ([], false) cs in
  let '(body, owe) := squeeze_chars cs in
  tight body ∧ owe = ws && nonempty body ∧
  (body = [] ∧ out = (if ws then [SPACE] else []) ∧ (ws = false → cs = []) ∨
   body ≠ [] ∧ ∃ lead, (lead = [] ∨ lead = [SPACE]) ∧
     out = lead ++ body ++ (if ws then [SPACE] else [])).
Proof.
  induction cs as [|c cs IH] using rev_ind; [simpl; split_and!; [done|done|]; left; done|].
  unfold squeeze_chars. rewrite !foldl_app. fold (squeeze_chars cs). cbn [foldl].
  destruct (foldl collapse_step ([], false) cs) as [out ws], (squeeze_chars cs) as [body owe].
  destruct IH as (Ht & Howe & Hcase). unfold collapse_step. simpl. destruct (is_whitespace c) eqn:Hc.
  - destruct ws; simpl.
    + split_and!; [done|done|]. destruct Hcase as [(-> & -> & _)|Hb]; [by left|by right].
    + split_and!; [done|done|].
      destruct Hcase as [(-> & -> & _)|(Hb & lead & Hl & ->)]; [by left|].
      right. split; [done|]. exists lead. by rewrite app_nil_r, <-app_assoc.
  - simpl. assert (body ++ (if owe then [SPACE] else []) ++ [c] ≠ []) as Hne
      by (intros H; by apply app_nil in H as [_ [_ ?]%app_nil]).
    split_and!; [|by destruct (body ++ _)|].
    + split; intros x Hx.
      * destruct body as [|y body]; simpl in *.
        -- subst owe. rewrite andb_false_r in Hx. simpl in Hx. congruence.
        -- by apply (proj1 Ht).
      * rewrite app_assoc, last_snoc in Hx. congruence.
    + right. split; [done|]. destruct Hcase as [(-> & -> & _)|(Hb & lead & Hl & ->)].
      * subst owe. rewrite andb_false_r. exists (if ws then [SPACE] else []).
        split; [destruct ws; auto|]. by rewrite app_nil_r.
      * exists lead. split; [done|]. subst owe. assert (nonempty body = true) as -> by by apply nonempty_true.
        rewrite andb_true_r, app_nil_r, <-!app_assoc. done.
Qed.

Lemma trim_padded lead body trail :
  tight body → body ≠ [] → Forall (λ c, is_whitespace c = true) lead →
  Forall (λ c, is_whitespace c = true) trail → trim (lead ++ body ++ trail) = body.
Proof.
  intros [Hh Hl] Hne Hlead Htrail. unfold trim, trim_end, trim_start.
  assert (drop_while is_whitespace (lead ++ body ++ trail) = body ++ trail) as ->.
  { induction Hlead as [|c lead Hc _ IH]; simpl; [|by rewrite Hc].
    apply drop_while_id. intros c Hc. apply Hh. by destruct body. }
  rewrite rstrip_app_all by done. by apply rstrip_id.
Qed.

Lemma normalize_squeeze_chars cs : normalize_reflow_whitespace cs = (squeeze_chars cs).1.
Proof.
  unfold normalize_reflow_whitespace. pose proof (collapse_squeeze cs) as H.
  destruct (foldl collapse_step ([], false) cs) as [out ws], (squeeze_chars cs) as [body owe].
  destruct H as (Ht & _ & [(-> & -> & _)|(Hb & lead & Hl & ->)]); simpl.
  - by destruct ws.
  - apply trim_padded; try done.
    + by destruct Hl as [->| ->]; repeat constructor.
    + by destruct ws; repeat constructor.
Qed.

Lemma squeeze_normalize cs : (squeeze cs).1 = as_bytes (normalize_reflow_whitespace cs).
Proof. by rewrite squeeze_chars_bytes, normalize_squeeze_chars. Qed.

End Reflow.
