(* ===== verification/ReflowSpec.v ===== *)
(** * The reflow search is exact

    The byte stream of [Reflow.ReflowCandidates] lays out the normalised lines of a file, its
    automaton finds every occurrence of the needle, and the two cursors keep exactly the
    occurrences that are whole line windows. *)

From S2P Require Import Prelude RustStr PatchMatcher Reflow.
Import PatchMatcher Reflow.

Module ReflowSpec.

#[local] Arguments glue _ _ : simpl never.

(** ** Layout of the stream *)

Section Layout.
Context (lines : list str).

(** The stream of the lines before line [i], and where line [i] starts and ends in it. *)
Definition before (i : nat) : bytes := glued (take i lines).
Definition start_of (i : nat) : nat :=
  length (before i) + (if nonempty (before i) then 1 else 0).
Definition end_of (i : nat) : nat := length (before (S i)).
Definition has_content (i : nat) : bool :=
  match lines !! i with Some l => nonempty (squeeze l).1 | None => false end.

(** The stream of lines [s .. e). *)
Definition window (s e : nat) : bytes := glued (take (e - s) (drop s lines)).

Lemma before_split s e : s ≤ e → before e = glue (before s) (window s e).
Proof.
  intros H. unfold before, window. rewrite <-glued_app. f_equal.
  rewrite <-(take_drop s (take e lines)). rewrite take_take, Nat.min_l by lia.
  f_equal. by rewrite skipn_firstn_comm.
Qed.

Lemma before_length i j : i ≤ j → length (before i) ≤ length (before j).
Proof.
  intros H. rewrite (before_split i j) by done. destruct (window i j) as [|x w].
  - by rewrite glue_nil_r.
  - rewrite glue_sep by done. rewrite length_app. lia.
Qed.

Lemma window_first s e : has_content s = true → s < e → window s e ≠ [].
Proof.
  unfold has_content, window. destruct (lines !! s) as [l|] eqn:E; [|done].
  intros Hc%nonempty_true Hse. rewrite (drop_S _ _ _ E).
  replace (e - s) with (S (e - S s)) by lia. simpl.
  intros H. pose proof (glued_app [l] (take (e - S s) (drop (S s) lines))) as Hg. simpl in Hg.
  rewrite H in Hg. symmetry in Hg. apply (f_equal nonempty) in Hg. rewrite nonempty_glue in Hg.
  unfold glued in Hg at 1. simpl in Hg. rewrite glue_nil_l in Hg.
  apply nonempty_true in Hc. by rewrite Hc in Hg.
Qed.

(** A window that starts with content is the stream between its start and end. *)
Lemma before_window s e :
  has_content s = true → s < e →
  before e = before s ++ (if nonempty (before s) then [SPACE] else []) ++ window s e.
Proof.
  intros Hc Hse. rewrite (before_split s e) by lia. apply glue_sep. by apply window_first.
Qed.

Lemma start_lt_end i j : has_content i = true → i ≤ j → start_of i < end_of j.
Proof.
  intros Hc Hij. unfold start_of, end_of. rewrite (before_window i (S j)) by (done || lia).
  assert (0 < length (window i (S j))).
  { pose proof (window_first i (S j) Hc ltac:(lia)). destruct (window i (S j)); simpl; [done|lia]. }
  rewrite !length_app. destruct (nonempty (before i)); simpl; lia.
Qed.

Lemma end_le_start i j : i < j → end_of i ≤ start_of j.
Proof. intros H. unfold end_of, start_of. pose proof (before_length (S i) j H). lia. Qed.

(** The slice of the stream from line [s] to line [e - 1] is the window. *)
Lemma slice_window s e n :
  has_content s = true → s < e → e ≤ n →
  take (length (window s e)) (drop (start_of s) (before n)) = window s e ∧
  start_of s + length (window s e) = end_of (e - 1).
Proof.
  intros Hc Hse Hen. unfold end_of. replace (S (e - 1)) with e by lia. split.
  - rewrite (before_split e n), (before_window s e) by (done || lia).
    assert (∀ x y : bytes, x ≠ [] → ∃ z, glue x y = x ++ z) as Hpre.
    { intros x y Hx. destruct y as [|c y]; [exists []; by rewrite glue_nil_r, app_nil_r|].
      exists (SPACE :: c :: y). by destruct x. }
    destruct (Hpre (before s ++ (if nonempty (before s) then [SPACE] else []) ++ window s e)
      (window e n)) as [z ->].
    { intros [_ [_ H]%app_nil]%app_nil. by apply window_first in H. }
    rewrite app_assoc, <-app_assoc. rewrite drop_app_length'.
    + by rewrite take_app_length.
    + unfold start_of. rewrite length_app. by destruct (nonempty (before s)).
  - rewrite (before_window s e) by done. unfold start_of. rewrite !length_app.
    destruct (nonempty (before s)); simpl; lia.
Qed.

(** The recorded line boundaries. *)
Definition entries (f : nat → nat) (k n : nat) : list (nat * nat) :=
  omap (λ i, if has_content i then Some (f i, i) else None) (seq k n).

Lemma elem_of_entries f k n o i :
  (o, i) ∈ entries f k n ↔ k ≤ i < k + n ∧ has_content i = true ∧ o = f i.
Proof.
  unfold entries. rewrite list_elem_of_omap. setoid_rewrite elem_of_seq. split.
  - intros (j & Hj & H). destruct (has_content j) eqn:E; [|done]. injection H as <- <-. done.
  - intros (Hi & Hc & ->). exists i. by rewrite Hc.
Qed.

Lemma entries_sorted f k n :
  (∀ i j, has_content i = true → has_content j = true → i < j → f i < f j) →
  StronglySorted (λ x y, x.1 < y.1) (entries f k n).
Proof.
  intros Hf. revert k. induction n as [|n IH]; intros k; [constructor|].
  unfold entries in *. simpl. destruct (has_content k) eqn:E; [|apply IH].
  constructor; [apply IH|]. apply Forall_forall. intros [o i] Hi.
  apply (elem_of_entries f (S k) n) in Hi as (Hi & Hc & ->). simpl. apply Hf; [done|done|lia].
Qed.

End Layout.

(** ** Building the stream *)

Lemma stream_char_squeeze st ch :
  (ss_stream (stream_char st ch), ss_owe (stream_char st ch))
  = squeeze_step (ss_stream st, ss_owe st) ch.
Proof.
  unfold stream_char, squeeze_step. destruct (is_whitespace ch); [done|]. simpl. by rewrite <-app_assoc.
Qed.

(** Reading one line at a line boundary. *)
Lemma line_state s0 line :
  let st := foldl stream_char (MkStream s0 (nonempty s0) None 0) line in
  let b := (squeeze line).1 in
  (ss_stream st, ss_owe st) = foldl squeeze_step (s0, nonempty s0) line ∧
  ss_first st = (if nonempty b then Some (length s0 + if nonempty s0 then 1 else 0) else None) ∧
  (nonempty b = true → ss_last st = length (ss_stream st)).
Proof.
  induction line as [|c line IH] using rev_ind; [done|].
  rewrite !foldl_app. cbn [foldl]. destruct IH as (H1 & H2 & H3).
  set (st := foldl stream_char _ line) in *. cbv zeta. rewrite stream_char_squeeze, H1.
  split; [done|]. rewrite squeeze_snoc. rewrite squeeze_from in H1. injection H1 as Hs Ho.
  unfold stream_char, squeeze_step. destruct (is_whitespace c); simpl; [done|].
  assert (∀ l : bytes, nonempty (l ++ utf8_char c) = true) as Hne.
  { intros l. apply nonempty_true. intros [_ H]%app_nil. by apply utf8_char_nonempty in H. }
  rewrite app_assoc, Hne. split; [|done]. rewrite H2.
  destruct (squeeze line) as [b q]; simpl in *. destruct b as [|x b]; simpl; [|done].
  rewrite Hs, Ho, glue_nil_r, length_app. by destruct (nonempty s0).
Qed.

Lemma stream_lines_spec lines dn rest starts ends :
  lines = dn ++ rest →
  stream_lines rest (length dn) (glued dn) (nonempty (glued dn)) starts ends
  = (glued lines, starts ++ entries lines (start_of lines) (length dn) (length rest),
     ends ++ entries lines (end_of lines) (length dn) (length rest)).
Proof.
  revert dn starts ends. induction rest as [|l rest IH]; intros dn starts ends Hl.
  - rewrite app_nil_r in Hl. subst lines. simpl. by rewrite !app_nil_r.
  - cbn [stream_lines]. destruct (line_state (glued dn) l) as (H1 & H2 & H3).
    rewrite squeeze_from in H1. injection H1 as Hs _. rewrite Hs in *.
    assert (glue (glued dn) (squeeze l).1 = glued (dn ++ [l])) as Hg.
    { rewrite glued_app. f_equal. unfold glued. simpl. by rewrite glue_nil_l. }
    rewrite Hg, H2 in *.
    assert (lines = (dn ++ [l]) ++ rest) as Hl' by by rewrite <-app_assoc.
    specialize (λ starts ends, IH (dn ++ [l]) starts ends Hl').
    rewrite length_app, Nat.add_1_r in IH.
    assert (before lines (length dn) = glued dn) as Hb.
    { unfold before. by rewrite Hl, take_app_length. }
    assert (before lines (S (length dn)) = glued (dn ++ [l])) as Hb'.
    { unfold before. rewrite Hl', take_app_length' by (rewrite length_app; simpl; lia). done. }
    assert (has_content lines (length dn) = nonempty (squeeze l).1) as Hc.
    { unfold has_content. by rewrite Hl, list_lookup_middle. }
    unfold entries. cbn [length seq omap list_omap]. rewrite Hc.
    unfold start_of at 1, end_of at 1. rewrite Hb, Hb'.
    destruct (nonempty (squeeze l).1).
    + rewrite IH, H3 by done. by rewrite <-!app_assoc.
    + rewrite IH. done.
Qed.

Lemma reflow_new_spec lines needle :
  reflow_new lines needle
  = MkReflow (glued lines) (as_bytes needle) (failure_table (as_bytes needle))
      (entries lines (start_of lines) 0 (length lines))
      (entries lines (end_of lines) 0 (length lines)) 0 0 0 0.
Proof.
  unfold reflow_new. pose proof (stream_lines_spec lines [] lines [] [] eq_refl) as H.
  simpl in H. unfold glued in H at 1 2. simpl in H. by rewrite H.
Qed.

(** ** The automaton *)

Definition byte_eq (x y : byte) : bool := bool_decide (x = y).

#[export] Instance byte_eq_equivalence : Equivalence (λ x y, byte_eq x y = true).
Proof.
  unfold byte_eq. split.
  - intros x. by apply bool_decide_eq_true.
  - intros x y. rewrite !bool_decide_eq_true. done.
  - intros x y z. rewrite !bool_decide_eq_true. congruence.
Qed.

(** Falling back, then extending, is the loop of the line search. *)
Lemma automaton_step_advance needle failure x fuel fuel' n :
  n ≤ fuel → n < fuel' → n < length needle →
  (∀ i k, i < n → failure !! i = Some k → k ≤ i) →
  (let m := fall_back fuel needle failure x n in
   if bool_decide (needle !! m = Some x) then S m else m)
  = kmp_advance byte_eq fuel' needle failure x n.
Proof.
  revert fuel' n. induction fuel as [|fuel IH]; intros fuel' n Hf Hf' Hn Hdec.
  - assert (n = 0) as -> by lia. destruct fuel'; [lia|]. simpl.
    destruct (lookup_lt_is_Some_2 needle 0) as [y Hy]; [lia|]. rewrite Hy. unfold byte_eq.
    repeat case_bool_decide; congruence.
  - destruct fuel' as [|fuel']; [lia|]. simpl.
    destruct (lookup_lt_is_Some_2 needle n) as [y Hy]; [lia|]. rewrite Hy. unfold byte_eq at 1.
    destruct n as [|j]; [rewrite Hy; repeat case_bool_decide; congruence|].
    destruct (decide (x = y)) as [<-|Hxy].
    + rewrite (bool_decide_false (Some x ≠ Some x)) by congruence.
      by rewrite Hy, !bool_decide_true by done.
    + rewrite (bool_decide_true (Some y ≠ Some x)), (bool_decide_false (x = y)) by congruence.
      assert (default 0 (failure !! j) ≤ j) as Hj.
      { destruct (failure !! j) as [k|] eqn:E; simpl; [|lia]. apply Hdec; [lia|done]. }
      apply IH; [lia|lia|lia|]. intros i k Hi. apply Hdec. lia.
Qed.

Lemma table_decreasing needle f n i k :
  table_ok byte_eq needle f n → i < n → f !! i = Some k → k ≤ i.
Proof.
  intros Ht Hi Hk. destruct (Ht i Hi) as (k' & Hk' & [Hl _] & _).
  rewrite length_drop, length_take in Hl. assert (k' = k) by congruence. lia.
Qed.

Lemma automaton_step_spec needle f t x n :
  border byte_eq needle t n → n < length needle → table_ok byte_eq needle f n →
  (∀ j, border byte_eq needle t j → j < length needle → j ≤ n) →
  max_border byte_eq needle (t ++ [x]) (automaton_step needle f x n).
Proof.
  intros Hb Hn Ht Hmax.
  assert (automaton_step needle f x n = kmp_advance byte_eq (S n) needle f x n) as ->.
  { apply automaton_step_advance; [lia|lia|done|]. intros i k Hi. by apply (table_decreasing needle f n). }
  apply (kmp_advance_spec _ _); try done; [lia|].
  intros j y Hj Hy _. apply Hmax; [done|]. by eapply lookup_lt_Some.
Qed.

Lemma failure_loop_spec needle f i n rest :
  1 ≤ i → rest = drop i needle → length f = length needle → table_ok byte_eq needle f i →
  f !! (i - 1) = Some n → i ≤ length needle →
  table_ok byte_eq needle (failure_loop needle f i n rest) (length needle).
Proof.
  revert f i n. induction rest as [|x rest IH]; intros f i n Hi Hr Hlen Ht Hn Hin; simpl.
  - apply (f_equal length) in Hr. rewrite length_drop in Hr. simpl in Hr.
    by replace (length needle) with i by lia.
  - assert (needle !! i = Some x) as Hx by (by rewrite <-(Nat.add_0_r i), <-lookup_drop, <-Hr).
    apply lookup_lt_Some in Hx as Hlt.
    destruct (Ht (i - 1)) as (k & Hk & Hb & Hm); [lia|]. assert (k = n) as -> by congruence.
    replace (S (i - 1)) with i in Hb, Hm by lia.
    assert (n ≤ i - 1) as Hni by (apply (table_decreasing needle f i); done || lia).
    assert (max_border byte_eq needle (drop 1 (take (S i) needle)) (automaton_step needle f x n)) as Hnew.
    { rewrite (take_S_r _ _ _ Hx), drop_app_le by (rewrite length_take; lia).
      apply automaton_step_spec; [done|lia| |intros j Hj _; by apply Hm].
      intros j Hj. apply Ht. lia. }
    apply IH; [lia| |by rewrite length_insert| | |lia].
    + replace (S i) with (i + 1) by lia. by rewrite <-drop_drop, <-Hr.
    + intros j Hj. destruct (decide (j = i)) as [->|].
      * eexists. split; [by apply list_lookup_insert_eq; lia|done].
      * rewrite list_lookup_insert_ne by done. apply Ht. lia.
    + replace (S i - 1) with i by lia. apply list_lookup_insert_eq. lia.
Qed.

Lemma failure_table_ok needle : table_ok byte_eq needle (failure_table needle) (length needle).
Proof.
  destruct needle as [|x needle'] eqn:E; [intros i; simpl; lia|]. rewrite <-E.
  unfold failure_table. apply failure_loop_spec; try done.
  - by rewrite length_replicate.
  - intros i Hi. assert (i = 0) as -> by lia. exists 0. rewrite E. split; [done|].
    simpl. split; [apply border_0|]. intros j [Hj _]. done.
  - by rewrite E.
  - rewrite E. simpl. lia.
Qed.

(** ** Occurrences *)

(** The needle ends at byte [e] of the stream. *)
Definition occurs_ending (stream needle : bytes) (e : nat) : Prop :=
  length needle ≤ e ≤ length stream ∧ take (length needle) (drop (e - length needle) stream) = needle.

Lemma border_occurs stream needle e :
  e ≤ length stream → length needle ≤ e →
  border byte_eq needle (take e stream) (length needle) ↔ occurs_ending stream needle e.
Proof.
  intros He Hm. unfold border, occurs_ending. rewrite length_take_le, (take_ge needle) by done.
  rewrite skipn_firstn_comm. replace (e - (e - length needle)) with (length needle) by lia.
  assert (∀ l k : bytes, Forall2 (λ x y, byte_eq x y = true) l k ↔ l = k) as Heq.
  { intros l k. unfold byte_eq. split.
    - intros H. apply list_eq_Forall2. eapply Forall2_impl; [exact H|]. simpl.
      intros x y. by rewrite bool_decide_eq_true.
    - intros ->. apply Forall2_same_length_lookup_2; [done|]. intros i x y Hx Hy.
      apply bool_decide_eq_true. congruence. }
  rewrite Heq. naive_solver lia.
Qed.

(** The automaton's state after [pos] bytes: the longest proper match that ends there. *)
Record scanning (stream needle : bytes) (f : list nat) (pos k : nat) : Prop := {
  sc_border : border byte_eq needle (take pos stream) k;
  sc_lt : k < length needle;
  sc_max : ∀ j, border byte_eq needle (take pos stream) j → j < length needle → j ≤ k }.

Lemma scanning_step stream needle pos k x :
  stream !! pos = Some x → scanning stream needle (failure_table needle) pos k →
  let k' := automaton_step needle (failure_table needle) x k in
  (k' < length needle ∧ scanning stream needle (failure_table needle) (S pos) k' ∧
   ¬ occurs_ending stream needle (S pos)) ∨
  (k' = length needle ∧ occurs_ending stream needle (S pos) ∧
   scanning stream needle (failure_table needle) (S pos)
     (default 0 (failure_table needle !! (length needle - 1)))).
Proof.
  intros Hx [Hb Hk Hm] k'. apply lookup_lt_Some in Hx as Hlt.
  assert (max_border byte_eq needle (take (S pos) stream) k') as [Hb' Hm'].
  { rewrite (take_S_r _ _ _ Hx). apply automaton_step_spec; try done.
    intros i Hi. apply failure_table_ok. lia. }
  assert (k' ≤ length needle) as Hle by (by destruct Hb' as (_ & ? & _)).
  destruct (decide (k' = length needle)) as [Heq|Hne].
  - right. split; [done|]. rewrite Heq in Hb'.
    assert (length needle ≤ S pos) as Hpos.
    { destruct Hb' as [Hl _]. rewrite length_take in Hl. lia. }
    split; [by apply border_occurs|].
    destruct (failure_table_ok needle (length needle - 1)) as (k2 & Hk2 & Hb2 & Hm2); [lia|].
    rewrite Hk2. simpl. replace (S (length needle - 1)) with (length needle) in * by lia.
    assert (k2 < length needle) as Hlt2.
    { destruct Hb2 as [Hl _]. rewrite length_drop, length_take in Hl. lia. }
    split; [by apply (border_of_border byte_eq _ needle _ (length needle))|done|].
    intros j Hj Hjlt. apply Hm2. by apply (border_of_border byte_eq _ needle (take (S pos) stream) (length needle)).
  - left. split; [lia|]. split.
    + split; [done|lia|]. intros j Hj _. by apply Hm'.
    + intros Ho. destruct (Ho) as [[H1 H2] _]. apply border_occurs in Ho; [|done..].
      apply Hm' in Ho. lia.
Qed.

(** ** The iterator *)

Abbreviation by_offset := (λ x y : nat * nat, x.1 < y.1) (only parsing).

Lemma sorted_lookup (l : list (nat * nat)) i j x y :
  StronglySorted by_offset l → i < j → l !! i = Some x → l !! j = Some y → x.1 < y.1.
Proof.
  intros Hs. revert i j. induction Hs as [|z l Hs IH Hall]; intros i j Hij Hi Hj; [done|].
  destruct j as [|j]; [lia|]. destruct i as [|i]; simpl in *.
  - injection Hi as <-. rewrite Forall_lookup in Hall. by eapply Hall.
  - eapply (IH i j); [lia|done|done].
Qed.

(** The cursor stops at the first entry that is not below the bound. *)
Lemma advance_cursor_spec l bound fuel c :
  length l - c ≤ fuel → (∀ i x, i < c → l !! i = Some x → x.1 < bound) →
  let c' := advance_cursor fuel l bound c in
  (∀ i x, i < c' → l !! i = Some x → x.1 < bound) ∧ (∀ x, l !! c' = Some x → bound ≤ x.1).
Proof.
  revert c. induction fuel as [|fuel IH]; intros c Hf Hc; simpl.
  - split; [done|]. intros x Hx. apply lookup_lt_Some in Hx. lia.
  - destruct (l !! c) as [[o x]|] eqn:E; [|split; [done|by rewrite E]].
    destruct (o <? bound) eqn:Hb; rewrite ?Nat.ltb_lt, ?Nat.ltb_ge in Hb.
    + apply IH; [lia|]. intros i y Hi Hy. destruct (decide (i = c)) as [->|].
      * rewrite E in Hy. by injection Hy as <-.
      * apply (Hc i); [lia|done].
    + split; [done|]. rewrite E. by intros ? [= <-].
Qed.

Lemma cursor_elem l bound c i :
  StronglySorted by_offset l →
  (∀ i x, i < c → l !! i = Some x → x.1 < bound) → (∀ x, l !! c = Some x → bound ≤ x.1) →
  (bound, i) ∈ l ↔ l !! c = Some (bound, i).
Proof.
  intros Hs Hlow Hhigh. split; [|by apply list_elem_of_lookup_2].
  intros (a & Ha)%list_elem_of_lookup. destruct (Nat.lt_trichotomy a c) as [Hac|[->|Hca]]; [|done|].
  - apply Hlow in Ha; [simpl in Ha; lia|done].
  - destruct (l !! c) as [y|] eqn:Hy.
    + pose proof (sorted_lookup _ _ _ _ _ Hs Hca Hy Ha) as Hlt. specialize (Hhigh y eq_refl).
      simpl in Hlt. lia.
    + apply lookup_ge_None in Hy. apply lookup_lt_Some in Ha. lia.
Qed.

Section Iterate.
Context (stream needle : bytes) (starts ends : list (nat * nat)).
Context (starts_sorted : StronglySorted by_offset starts).
Context (ends_sorted : StronglySorted by_offset ends).

(** An occurrence that is a window of whole lines. *)
Definition aligned (e : nat) (w : nat * nat) : Prop :=
  occurs_ending stream needle e ∧ (e - length needle, w.1) ∈ starts ∧
  ∃ l, (e, l) ∈ ends ∧ w.2 = l + 1.

Record iterating (rc : ReflowCandidates) : Prop := {
  it_stream : rc_stream rc = stream;
  it_needle : rc_needle rc = needle;
  it_failure : rc_failure rc = failure_table needle;
  it_starts : rc_starts rc = starts;
  it_ends : rc_ends rc = ends;
  it_scanning : scanning stream needle (failure_table needle) (rc_position rc) (rc_matched rc);
  it_start_cursor : ∀ i x, i < rc_start_cursor rc → starts !! i = Some x →
    x.1 + length needle ≤ rc_position rc;
  it_end_cursor : ∀ i x, i < rc_end_cursor rc → ends !! i = Some x → x.1 ≤ rc_position rc }.

Lemma reflow_next_loop_spec rest rc :
  iterating rc → rest = drop (rc_position rc) stream →
  match reflow_next_loop rest rc with
  | (None, _) => ∀ e w, rc_position rc < e → ¬ aligned e w
  | (Some w, rc') => rc_position rc < rc_position rc' ∧ aligned (rc_position rc') w ∧ iterating rc' ∧
      ∀ e w', rc_position rc < e < rc_position rc' → ¬ aligned e w'
  end.
Proof.
  revert rc. induction rest as [|x rest IH]; intros rc Hit Hrest.
  { intros e w He [[[_ Hl] _] _]. apply (f_equal length) in Hrest.
    rewrite length_drop in Hrest. simpl in Hrest. lia. }
  destruct rc as [str nd fl st en pos k sc ec]. destruct Hit as [H1 H2 H3 H4 H5 Hscan Hsc Hec].
  simpl in *. subst str nd fl st en.
  assert (stream !! pos = Some x) as Hx by (by rewrite <-(Nat.add_0_r pos), <-lookup_drop, <-Hrest).
  assert (rest = drop (S pos) stream) as Hrest'.
  { replace (S pos) with (pos + 1) by lia. by rewrite <-drop_drop, <-Hrest. }
  (* resuming after a position without an aligned occurrence *)
  assert (∀ k' sc' ec', iterating (MkReflow stream needle (failure_table needle) starts ends (S pos) k' sc' ec') →
    (∀ w, ¬ aligned (S pos) w) →
    match reflow_next_loop rest
      (MkReflow stream needle (failure_table needle) starts ends (S pos) k' sc' ec') with
    | (None, _) => ∀ e w, pos < e → ¬ aligned e w
    | (Some w, rc') => pos < rc_position rc' ∧ aligned (rc_position rc') w ∧ iterating rc' ∧
        ∀ e w', pos < e < rc_position rc' → ¬ aligned e w'
    end) as Hresume.
  { intros k' sc' ec' Hit' Hno. specialize (IH _ Hit' Hrest').
    destruct (reflow_next_loop rest _) as [[w|] rc']; simpl in IH.
    - destruct IH as (Hp & Ha & Hi & Hn). split_and!; [lia|done|done|]. intros e w' He.
      destruct (decide (e = S pos)) as [->|]; [done|apply Hn; lia].
    - intros e w He. destruct (decide (e = S pos)) as [->|]; [done|apply IH; lia]. }
  destruct (scanning_step _ _ _ _ _ Hx Hscan) as [(Hlt & Hs' & Hno)|(Heq & Hocc & Hs')].
  - apply Nat.ltb_lt in Hlt as ->. apply Hresume; [|by intros w [? _]].
    split; try done; simpl; [intros i y Hi Hy; apply Hsc in Hy; [lia|done]|].
    intros i y Hi Hy. apply Hec in Hy; [lia|done].
  - rewrite Heq. rewrite Nat.ltb_irrefl. destruct (Hocc) as [[Hm1 Hm2] _].
    destruct (advance_cursor_spec starts (S pos - length needle) (length starts) sc) as [Hlow1 Hhigh1];
      [lia|intros i y Hi Hy; apply Hsc in Hy; [lia|done]|].
    destruct (advance_cursor_spec ends (S pos) (length ends) ec) as [Hlow2 Hhigh2];
      [lia|intros i y Hi Hy; apply Hec in Hy; [lia|done]|].
    set (sc' := advance_cursor (length starts) starts (S pos - length needle) sc) in *.
    set (ec' := advance_cursor (length ends) ends (S pos) ec) in *.
    assert (∀ k', k' = default 0 (failure_table needle !! (length needle - 1)) →
      iterating (MkReflow stream needle (failure_table needle) starts ends (S pos) k' sc' ec')) as Hit'.
    { intros k' ->. split; try done; simpl.
      - intros i y Hi Hy. apply Hlow1 in Hy; [lia|done].
      - intros i y Hi Hy. apply Hlow2 in Hy; [lia|done]. }
    assert (∀ w, aligned (S pos) w ↔ starts !! sc' = Some (S pos - length needle, w.1) ∧
      ∃ l, ends !! ec' = Some (S pos, l) ∧ w.2 = l + 1) as Hal.
    { intros w. unfold aligned. rewrite (cursor_elem starts _ sc') by done.
      setoid_rewrite (cursor_elem ends _ ec'); [|done..]. naive_solver. }
    destruct (starts !! sc') as [[o1 a]|] eqn:E1;
      [|apply Hresume; [by apply Hit'|]; intros w [? _]%Hal; done].
    destruct (ends !! ec') as [[o2 b]|] eqn:E2;
      [|apply Hresume; [by apply Hit'|]; intros w (_ & l & ? & _)%Hal; done].
    destruct (bool_decide (o1 ≠ _) || bool_decide (o2 ≠ _)) eqn:E.
    + apply Hresume; [by apply Hit'|]. intros w ([= -> _] & l & [= -> _] & _)%Hal.
      apply orb_true_iff in E as [E|E]; by apply bool_decide_eq_true in E.
    + apply orb_false_iff in E as [Ea%bool_decide_eq_false Eb%bool_decide_eq_false].
      apply dec_stable in Ea, Eb. subst. simpl. split_and!; [lia| |by apply Hit'|intros; lia].
      apply Hal. simpl. eauto.
Qed.

Lemma reflow_next_spec rc :
  needle ≠ [] → iterating rc →
  match reflow_next rc with
  | (None, _) => ∀ e w, rc_position rc < e → ¬ aligned e w
  | (Some w, rc') => rc_position rc < rc_position rc' ∧ aligned (rc_position rc') w ∧ iterating rc' ∧
      ∀ e w', rc_position rc < e < rc_position rc' → ¬ aligned e w'
  end.
Proof.
  intros Hne Hit. unfold reflow_next. rewrite (it_needle _ Hit), (it_stream _ Hit).
  destruct needle eqn:E; [done|]. by apply reflow_next_loop_spec.
Qed.

End Iterate.

(** ** Windows of lines *)

(** Lines [s .. e) of a file read as the needle once whitespace is normalised, and neither
    end of the window is a blank line. *)
Definition reflow_window (lines : list str) (needle : str) (s e : nat) : Prop :=
  s < e ≤ length lines ∧
  (∀ l, lines !! s = Some l → has_reflow_content l = true) ∧
  (∀ l, lines !! (e - 1) = Some l → has_reflow_content l = true) ∧
  as_bytes (normalize_reflow_whitespace (join [LF] (take (e - s) (drop s lines)))) = as_bytes needle.

Lemma squeeze_content l : nonempty (squeeze l).1 = has_reflow_content l.
Proof.
  induction l as [|c l IH] using rev_ind; [done|]. unfold has_reflow_content in *.
  rewrite squeeze_snoc, existsb_app, <-IH. unfold squeeze_step. simpl.
  destruct (is_whitespace c); simpl; [by rewrite orb_false_r|]. rewrite orb_true_r.
  apply nonempty_true. intros [_ [_ H]%app_nil]%app_nil. by apply utf8_char_nonempty in H.
Qed.

Lemma has_content_iff lines i :
  i < length lines →
  has_content lines i = true ↔ ∀ l, lines !! i = Some l → has_reflow_content l = true.
Proof.
  intros Hi. unfold has_content. destruct (lookup_lt_is_Some_2 lines i Hi) as [l ->].
  rewrite squeeze_content. naive_solver.
Qed.

Lemma reflow_window_iff lines needle s e :
  reflow_window lines needle s e ↔
  s < e ≤ length lines ∧ has_content lines s = true ∧ has_content lines (e - 1) = true ∧
  window lines s e = as_bytes needle.
Proof.
  unfold reflow_window, window. rewrite <-squeeze_normalize, squeeze_join.
  split; intros ((H1 & H2) & H3 & H4 & H5); (split; [done|]).
  - by rewrite !has_content_iff by lia.
  - by rewrite <-!has_content_iff by lia.
Qed.

(** Aligned occurrences are the windows, each ending where its last line ends. *)
Lemma aligned_window lines needle e w :
  as_bytes needle ≠ [] →
  aligned (glued lines) (as_bytes needle) (entries lines (start_of lines) 0 (length lines))
    (entries lines (end_of lines) 0 (length lines)) e w
  ↔ reflow_window lines needle w.1 w.2 ∧ e = end_of lines (w.2 - 1).
Proof.
  intros Hne. destruct w as [a b]. rewrite reflow_window_iff. unfold aligned. simpl.
  assert (before lines (length lines) = glued lines) as Hall by (unfold before; by rewrite take_ge).
  assert (0 < length (as_bytes needle)) as Hpos by (destruct (as_bytes needle); simpl; [done|lia]).
  rewrite elem_of_entries. setoid_rewrite elem_of_entries. split.
  - intros ([[Hm1 Hm2] Hocc] & (Ha & Hca & Hstart) & l & (Hl & Hcl & Hend) & ->).
    assert (a ≤ l) as Hal.
    { apply Nat.nlt_ge. intros Hla. pose proof (end_le_start lines l a Hla). lia. }
    destruct (slice_window lines a (l + 1) (length lines)) as [Hsl Hlen]; [done|lia|lia|].
    replace (l + 1 - 1) with l in * by lia.
    assert (length (window lines a (l + 1)) = length (as_bytes needle)) as Hlw by lia.
    rewrite Hall, Hlw, <-Hstart, Hocc in Hsl. split_and!; [lia|lia|done|done|done|done].
  - intros (((H1 & H2) & Hca & Hcb & Hw) & ->).
    destruct (slice_window lines a b (length lines)) as [Hsl Hlen]; [done|done|done|].
    rewrite Hw in Hsl, Hlen. rewrite Hall in Hsl.
    assert (end_of lines (b - 1) ≤ length (glued lines)) as Hend.
    { rewrite <-Hall. unfold end_of. apply before_length. lia. }
    assert (end_of lines (b - 1) - length (as_bytes needle) = start_of lines a) as Hst by lia.
    rewrite !Hst. unfold occurs_ending. rewrite Hst. split_and!; [lia|done|done|lia|lia|done|done|].
    exists (b - 1). split_and!; [lia|lia|done|done|lia].
Qed.

Lemma start_of_sorted lines i j :
  has_content lines i = true → has_content lines j = true → i < j → start_of lines i < start_of lines j.
Proof.
  intros Hi _ Hij. pose proof (start_lt_end lines i i Hi ltac:(lia)).
  pose proof (end_le_start lines i j Hij). lia.
Qed.

Lemma end_of_sorted lines i j :
  has_content lines i = true → has_content lines j = true → i < j → end_of lines i < end_of lines j.
Proof.
  intros _ Hj Hij. pose proof (end_le_start lines i j Hij).
  pose proof (start_lt_end lines j j Hj ltac:(lia)). lia.
Qed.

Lemma reflow_iterating lines needle :
  as_bytes needle ≠ [] →
  iterating (glued lines) (as_bytes needle) (entries lines (start_of lines) 0 (length lines))
    (entries lines (end_of lines) 0 (length lines)) (reflow_new lines needle).
Proof.
  intros Hne. rewrite reflow_new_spec. split; try done; simpl; try (intros; lia).
  split; [apply border_0| |].
  - destruct (as_bytes needle); simpl; [done|lia].
  - intros j [Hj _] _. by rewrite take_0 in Hj.
Qed.

(** An occurrence is one window. *)
Lemma aligned_unique lines needle e w w' :
  let al := aligned (glued lines) needle (entries lines (start_of lines) 0 (length lines))
              (entries lines (end_of lines) 0 (length lines)) in
  al e w → al e w' → w = w'.
Proof.
  destruct w as [s1 e1], w' as [s2 e2]. intros al (_ & Ha1 & l & Hl & Hl') (_ & Hb1 & l2 & Hl2 & Hl2').
  simpl in *. apply elem_of_entries in Ha1 as (_ & Hc1 & Ha1), Hb1 as (_ & Hc2 & Hb1).
  apply elem_of_entries in Hl as (_ & Hc3 & Hl), Hl2 as (_ & Hc4 & Hl2). f_equal.
  - destruct (Nat.lt_trichotomy s1 s2) as [H|[H|H]]; [|done|]; apply (start_of_sorted lines) in H; done || lia.
  - destruct (Nat.lt_trichotomy l l2) as [H|[H|H]]; [|lia|]; apply (end_of_sorted lines) in H; done || lia.
Qed.

Lemma find_reflow_match_spec lines pattern start :
  let needle := normalize_reflow_whitespace (join [LF] pattern) in
  let rest := drop start lines in
  match find_reflow_match lines pattern start with
  | Some (f, n) =>
      ∃ s, f = start + s ∧ reflow_window rest needle s (s + n) ∧
        ∀ s' e', reflow_window rest needle s' e' → s' = s ∧ e' = s + n
  | None =>
      needle = [] ∨ (∀ s e, ¬ reflow_window rest needle s e) ∨
      ∃ s e s' e', (s, e) ≠ (s', e') ∧ reflow_window rest needle s e ∧ reflow_window rest needle s' e'
  end.
Proof.
  intros needle rest. unfold find_reflow_match. fold needle. fold rest.
  destruct (decide (needle = [])) as [Hnil|Hne]; [rewrite Hnil; by left|].
  assert (as_bytes needle ≠ []) as Hbne.
  { destruct needle as [|c cs]; [done|]. rewrite as_bytes_cons.
    intros [H _]%app_nil. by apply utf8_char_nonempty in H. }
  pose proof (entries_sorted rest (start_of rest) 0 (length rest) (start_of_sorted rest)) as Hs1.
  pose proof (entries_sorted rest (end_of rest) 0 (length rest) (end_of_sorted rest)) as Hs2.
  pose proof (λ e w, aligned_window rest needle e w Hbne) as Hal.
  pose proof (reflow_iterating rest needle Hbne) as Hit.
  assert (rc_position (reflow_new rest needle) = 0) as Hpos by by rewrite reflow_new_spec.
  assert (∀ s e, reflow_window rest needle s e → 0 < end_of rest (e - 1)) as Hpe.
  { intros s e ((H1 & H2) & Hc & _)%reflow_window_iff.
    pose proof (start_lt_end rest s (e - 1) Hc ltac:(lia)). lia. }
  destruct needle as [|c cs] eqn:En; [done|]. rewrite <-En in *.
  pose proof (reflow_next_spec _ _ _ _ Hs1 Hs2 _ Hbne Hit) as Hn1. rewrite Hpos in Hn1.
  destruct (reflow_next (reflow_new rest needle)) as [[[s e]|] rc1].
  2:{ right; left. intros s e Hw. apply (Hn1 (end_of rest (e - 1)) (s, e)); [by eapply Hpe|]. by apply Hal. }
  destruct Hn1 as (Hp1 & Ha1 & Hit1 & Hno1). apply Hal in Ha1 as [Hw1 He1]. simpl in Hw1, He1.
  pose proof (reflow_next_spec _ _ _ _ Hs1 Hs2 _ Hbne Hit1) as Hn2.
  destruct (reflow_next rc1) as [[[s2 e2]|] rc2].
  - destruct Hn2 as (Hp2 & Ha2 & _). apply Hal in Ha2 as [Hw2 He2]. simpl in Hw2, He2.
    right; right. exists s, e, s2, e2. split_and!; [|done|done]. intros [= -> ->]. lia.
  - exists s. split; [done|]. destruct (Hw1) as ((Hlt & _) & _).
    replace (s + (e - s)) with e by lia. split; [done|].
    intros s' e' Hw. pose proof (Hpe _ _ Hw) as Hpos'.
    assert (aligned (glued rest) (as_bytes needle) (entries rest (start_of rest) 0 (length rest))
      (entries rest (end_of rest) 0 (length rest)) (end_of rest (e' - 1)) (s', e')) as Ha by (by apply Hal).
    destruct (Nat.lt_trichotomy (end_of rest (e' - 1)) (rc_position rc1)) as [Hl|[Heq|Hg]].
    + by destruct (Hno1 (end_of rest (e' - 1)) (s', e')); [lia|].
    + rewrite Heq in Ha. pose proof (aligned_unique _ _ _ _ _ Ha (proj2 (Hal _ (s, e)) (conj Hw1 He1))) as Hu.
      by injection Hu as -> ->.
    + by destruct (Hn2 (end_of rest (e' - 1)) (s', e')).
Qed.

(** C17: the reflow search is exact: it answers a window exactly when one single window of
    lines, starting and ending with visible text, equals the hunk after whitespace
    normalisation, and answers that window; with no such window, several, or a blank hunk it
    answers nothing. *)
Theorem find_reflow_match_exact lines pattern start :
  let needle := normalize_reflow_whitespace (join [LF] pattern) in
  let rest := drop start lines in
  match find_reflow_match lines pattern start with
  | Some (f, n) =>
      ∃ s, f = start + s ∧ reflow_window rest needle s (s + n) ∧
        ∀ s' e', reflow_window rest needle s' e' → s' = s ∧ e' = s + n
  | None =>
      needle = [] ∨ (∀ s e, ¬ reflow_window rest needle s e) ∨
      ∃ s e s' e', (s, e) ≠ (s', e') ∧ reflow_window rest needle s e ∧ reflow_window rest needle s' e'
  end.
Proof. apply find_reflow_match_spec. Qed.

End ReflowSpec.
