(* ===== verification/FuzzyMatch.v ===== *)
(** * Fuzzy search for edits: [fuzzy_match.rs]

    The five passes by which the edit tools find the text they replace: exact, trailing
    whitespace ignored, surrounding whitespace ignored, Unicode punctuation normalised, and
    line breaks moved.  Offsets are bytes; [None] is a panic of a slice or an index. *)

From S2P Require Import Prelude RustStr ByteStr PatchMatcher Reflow.
Import ByteStr PatchMatcher Reflow.

Module FuzzyMatch.

Record FuzzyMatch := MkMatch { byte_start : N; byte_len : N; pass : N }.
#[export] Instance FuzzyMatch_eq_dec : EqDecision FuzzyMatch.
Proof. solve_decision. Defined.

(** ** Lines *)

(** [compute_line_offsets]: the loop over [char_indices]. *)
Fixpoint line_offsets_from (pos : N) (s : str) : list N :=
  match s with
  | [] => []
  | c :: s =>
      let next := (pos + len_utf8 c)%N in
      if decide (c = LF) then (pos + 1)%N :: line_offsets_from next s else line_offsets_from next s
  end.
Definition compute_line_offsets (source : str) : list N := 0%N :: line_offsets_from 0 source.

(** The byte range of lines [i .. j). *)
Definition window_end (line_offsets : list N) (haystack : str) (j : nat) : N :=
  match line_offsets !! j with Some o => o | None => str_len haystack end.

(** ** The range of a match *)

Definition leading_count (s : str) : nat := length (take_while is_whitespace s).
Definition trailing_count (s : str) : nat := leading_count (rev s).

(** [s.trim_end_matches('\n').split('\n').next_back()]. *)
Definition last_line (s : str) : str := default [] (last (split_on LF (rstrip (N.eqb LF) s))).

Definition boundary_match (source needle : str) (start stop : N) (p : N) : option FuzzyMatch :=
  window ← slice source start stop;
  let source_first := default [] (head (str_lines window)) in
  let needle_first := default [] (head (str_lines needle)) in
  let leading_extra := leading_count source_first - leading_count needle_first in
  let from := (start + str_len (take leading_extra source_first))%N in
  let source_last := last_line window in
  let trailing_extra := trailing_count source_last - trailing_count (last_line needle) in
  to ← (if ends_with [LF] window && (negb (ends_with [LF] needle) || (0 <? trailing_extra))
        then checked_sub stop 1 else Some stop);
  to ← checked_sub to (str_len (take trailing_extra (rev source_last)));
  Some (MkMatch from (to - from) p).

(** ** Line passes *)

(** The scan of [find_line_matches]: first lines of all occurrences, overlapping ones too. *)
Fixpoint kmp_all {A} (compare : A → A → bool) (pattern : list A) (prefix : list nat)
    (index matched : nat) (rest : list A) : list nat :=
  match rest with
  | [] => []
  | x :: rest =>
      let matched := kmp_advance compare (S matched) pattern prefix x matched in
      if matched <? length pattern then kmp_all compare pattern prefix (S index) matched rest
      else (index + 1 - length pattern)
           :: kmp_all compare pattern prefix (S index) (default 0 (prefix !! (matched - 1))) rest
  end.

Definition find_line_matches (haystack_lines needle_lines : list str) (line_offsets : list N)
    (haystack needle : str) (compare : str → str → bool) (p : N) : option (list FuzzyMatch) :=
  if bool_decide (needle_lines = []) || (length haystack_lines <? length needle_lines) then Some []
  else
    mapM (λ i,
      start ← line_offsets !! i;
      boundary_match haystack needle start
        (window_end line_offsets haystack (i + length needle_lines)) p)
      (kmp_all compare needle_lines (kmp_prefix compare needle_lines) 0 0 haystack_lines).

Definition same_trim_end (a b : str) : bool := bool_decide (trim_end a = trim_end b).
Definition same_trim (a b : str) : bool := bool_decide (trim a = trim b).
Definition same_line (a b : str) : bool := bool_decide (a = b).

Definition normalize_char (c : char) : str :=
  if decide (c ∈ [0x2018; 0x2019; 0x201A; 0x201B]%N) then [SQUOTE]
  else if decide (c ∈ [0x201C; 0x201D; 0x201E; 0x201F]%N) then [DQUOTE]
  else if decide (c ∈ [0x2010; 0x2011; 0x2012; 0x2013; 0x2014; 0x2015]%N) then lit "-"
  else if decide (c = 0xA0%N) then [SPACE]
  else if decide (c = 0x2026%N) then lit "..."
  else [c].
Definition normalize_unicode (s : str) : str := s ≫= normalize_char.

(** ** The reflow pass *)

(** [normalize_reflow_whitespace] of this file: the loop over the trimmed text. *)
Definition normalize_step (st : str * bool) (c : char) : str * bool :=
  let '(normalized, in_whitespace) := st in
  if is_whitespace c then (normalized, true)
  else ((if in_whitespace && nonempty normalized then normalized ++ [SPACE] else normalized) ++ [c], false).
Definition normalize_reflow (s : str) : str := (foldl normalize_step ([], false) (trim s)).1.

(** [for (start, end) in ReflowCandidates::new(..)]; every round moves through the stream. *)
Fixpoint reflow_all (fuel : nat) (rc : ReflowCandidates) : list (nat * nat) :=
  match fuel with
  | 0 => []
  | S fuel =>
      match reflow_next rc with
      | (Some w, rc) => w :: reflow_all fuel rc
      | (None, _) => []
      end
  end.

Definition find_reflow_matches (haystack_lines needle_lines : list str) (line_offsets : list N)
    (haystack needle : str) : option (list FuzzyMatch) :=
  let normalized_needle := normalize_reflow (join [LF] needle_lines) in
  if bool_decide (normalized_needle = []) then Some []
  else
    let rc := reflow_new haystack_lines normalized_needle in
    mapM (λ w : nat * nat,
      start ← line_offsets !! w.1;
      boundary_match haystack needle start (window_end line_offsets haystack w.2) 5)
      (reflow_all (S (length (rc_stream rc))) rc).

(** ** The passes in order *)

Definition find_all_fuzzy (haystack needle : str) : option (list FuzzyMatch) :=
  match match_indices needle haystack with
  | (_ :: _) as exact => Some ((λ i, MkMatch i (str_len needle) 1) <$> exact)
  | [] =>
      let needle_lines := str_lines needle in
      if bool_decide (needle_lines = []) then Some []
      else
        let haystack_lines := str_lines haystack in
        let offsets := compute_line_offsets haystack in
        let lines hs ns := find_line_matches hs ns offsets haystack needle in
        rstrip_matches ← lines haystack_lines needle_lines same_trim_end 2%N;
        if negb (bool_decide (rstrip_matches = [])) then Some rstrip_matches
        else
          trim_matches ← lines haystack_lines needle_lines same_trim 3%N;
          if negb (bool_decide (trim_matches = [])) then Some trim_matches
          else
            let normalized := fmap (M := list) (λ l, normalize_unicode (trim l)) in
            normalized_matches ←
              lines (normalized haystack_lines) (normalized needle_lines) same_line 4%N;
            if negb (bool_decide (normalized_matches = [])) then Some normalized_matches
            else find_reflow_matches haystack_lines needle_lines offsets haystack needle
  end.

(** ** Texts for the agent *)

Definition AMBIGUOUS_OCCURRENCE_LIST_LIMIT : nat := 8.
Definition SEARCHED_TEXT_ECHO_CHARS : nat := 120.
Definition NEAREST_MISS_LINE_CHARS : nat := 240.
Definition ELLIPSIS : str := [0x2026%N].

Definition describe_searched_text (text : str) : str :=
  if negb (contains_char LF text) && (length text <=? SEARCHED_TEXT_ECHO_CHARS)
  then lit "'" ++ text ++ lit "'"
  else
    let first := take SEARCHED_TEXT_ECHO_CHARS (default [] (head (str_lines text))) in
    let lines := length (str_lines text) in
    lit "'" ++ first ++ ELLIPSIS ++ lit "' (" ++ show lines ++ lit " "
    ++ lit (if lines =? 1 then "line" else "lines") ++ lit ", " ++ show_N (str_len text) ++ lit " bytes)".

Definition shorten_diagnostic_line (line : str) : str :=
  if length line <=? NEAREST_MISS_LINE_CHARS then line
  else
    let head := NEAREST_MISS_LINE_CHARS / 2 in
    let tail := NEAREST_MISS_LINE_CHARS - head in
    take head line ++ ELLIPSIS ++ drop (length line - tail) line.

Definition count_lf (s : str) : nat := length (filter (λ c, c = LF) s).

(** [None] when a position is not on a character boundary. *)
Definition render_occurrence_listing (source : str) (positions : list N) : option str :=
  listed ← mapM (λ '(index, position),
             before ← slice_to source position;
             Some (lit "#" ++ show (index + 1) ++ lit " at line " ++ show (count_lf before + 1)))
             (imap pair (take AMBIGUOUS_OCCURRENCE_LIST_LIMIT positions));
  let detail :=
    lit " " ++ show (length positions) ++ lit " occurrences: " ++ join (lit ", ") listed in
  Some (if AMBIGUOUS_OCCURRENCE_LIST_LIMIT <? length positions
        then detail ++ lit ", " ++ ELLIPSIS ++ lit " and "
             ++ show (length positions - AMBIGUOUS_OCCURRENCE_LIST_LIMIT) ++ lit " more"
        else detail).

Definition loose_match_notice (p : N) (reindented : bool) : option str :=
  ignored ← (match p with
             | 2 => Some "trailing whitespace"
             | 3 => Some "indentation and trailing whitespace"
             | 4 => Some "indentation, trailing whitespace and Unicode punctuation (curly quotes, dashes, ellipses, non-breaking spaces)"
             | 5 => Some "line breaks and spacing"
             | _ => None
             end)%N%string;
  Some (lit "oldString matched only after ignoring " ++ lit ignored
        ++ if reindented then lit "; newString was re-indented to match the file." else lit ".").

(** ** Examples *)

Example fuzzy_table :
  find_all_fuzzy (lit "  | a  b |  " ++ [LF]) (lit "| a b |") = Some [MkMatch 2 8 5].
Proof. vm_compute. reflexivity. Qed.

(** A match may end inside a character: the blank line after the matched line is stripped from
    the window together with its line feed, so that the trailing whitespace is taken off
    one byte too far. *)
Example fuzzy_inside_char :
  find_all_fuzzy ([97; 0x3000; LF; LF; 98]%N) ([97; LF; LF]%N) = Some [MkMatch 0 2 2] ∧
  is_char_boundary [97; 0x3000; LF; LF; 98]%N 2 = false.
Proof. vm_compute. done. Qed.

End FuzzyMatch.
