(* ===== verification/FuzzySpec.v ===== *)
(** * What the fuzzy search finds

    The linear search of a pass enumerates every matching window of lines; a match is its
    window without whitespace at the two ends; and the passes are tried in order. *)

From S2P Require Import Prelude RustStr ByteStr PatchMatcher Reflow ReflowSpec FuzzyMatch.
Import ByteStr PatchMatcher Reflow ReflowSpec FuzzyMatch.

Module FuzzySpec.

(** ** All occurrences of a line sequence *)

Section All.
Context {A : Type} (compare : A → A → bool).
Context (compare_equivalence : Equivalence (λ x y, compare x y = true)).
Context (p : list A).

(** The largest border shorter than the pattern. *)
Definition proper_border (t : list A) (k : nat) : Prop :=
  border compare p t k ∧ k < length p ∧ ∀ j, border compare p t j → j < length p → j ≤ k.

Lemma proper_of_full t :
  p ≠ [] → border compare p t (length p) →
  ∃ k, kmp_prefix compare p !! (length p - 1) = Some k ∧ proper_border t k.
Proof.
  intros Hp Hb. assert (0 < length p) by (destruct p; simpl; [done|lia]).
  destruct (kmp_prefix_ok compare compare_equivalence p (length p - 1)) as (k & Hk & Hbk & Hmax); [lia|].
  replace (S (length p - 1)) with (length p) in Hbk, Hmax by lia.
  assert (k < length p) as Hlt.
  { destruct Hbk as [Hl _]. rewrite length_drop, length_take in Hl. lia. }
  exists k. split; [done|]. split_and!; [|done|].
  - by apply (border_of_border compare compare_equivalence p t (length p)).
  - intros j Hj Hjp. apply Hmax. by apply (border_of_border compare compare_equivalence p t (length p)).
Qed.

(** Starts whose window ends after line [i]. *)
Definition starts_after (lines : list A) (i : nat) : list nat :=
  seq (S i - length p) (S (length lines) - length p - (S i - length p)).

Lemma starts_after_step lines i :
  i < length lines → length p ≤ length lines →
  starts_after lines i
  = (if decide (length p ≤ S i) then [S i - length p] else []) ++ starts_after lines (S i).
Proof.
  intros Hi Hp. unfold starts_after. case_decide.
  - replace (S (length lines) - length p - (S i - length p))
      with (S (S (length lines) - length p - (S (S i) - length p))) by lia.
    cbn [seq app]. f_equal. f_equal; lia.
  - simpl. f_equal; lia.
Qed.

Lemma kmp_all_spec lines i k rest :
  p ≠ [] → length p ≤ length lines → rest = drop i lines → i ≤ length lines →
  proper_border (take i lines) k →
  kmp_all compare p (kmp_prefix compare p) i k rest
  = filter (λ s, matches_at compare lines p s = true) (starts_after lines i).
Proof.
  intros Hp Hpl. revert i k. induction rest as [|x rest IH]; intros i k Hr Hil (Hb & Hk & Hm).
  { apply (f_equal length) in Hr. rewrite length_drop in Hr. simpl in Hr.
    unfold starts_after. by replace (S (length lines) - length p - (S i - length p)) with 0 by lia. }
  assert (lines !! i = Some x) as Hx by (by rewrite <-(Nat.add_0_r i), <-lookup_drop, <-Hr).
  apply lookup_lt_Some in Hx as Hlt. cbn [kmp_all].
  assert (max_border compare p (take (S i) lines) (kmp_advance compare (S k) p (kmp_prefix compare p) x k))
    as [Hb' Hm'].
  { rewrite (take_S_r _ _ _ Hx).
    apply (kmp_advance_spec compare compare_equivalence); [lia|done|done| |].
    - intros n Hn. apply (kmp_prefix_ok compare compare_equivalence). lia.
    - intros j y Hj Hy _. apply Hm; [done|]. by apply lookup_lt_Some in Hy. }
  set (k' := kmp_advance compare (S k) p (kmp_prefix compare p) x k) in *.
  assert (k' ≤ length p) as Hk' by (by destruct Hb' as (_ & ? & _)).
  assert (rest = drop (S i) lines) as Hr' by (replace (S i) with (i + 1) by lia; by rewrite <-drop_drop, <-Hr).
  assert (length p ≤ S i → border compare p (take (S i) lines) (length p) ↔
    matches_at compare lines p (S i - length p) = true) as Hfull.
  { intros HpS. rewrite <-(matches_at_border compare p lines 0 (S i)) by lia. by rewrite drop_0. }
  rewrite starts_after_step, filter_app by done.
  destruct (k' <? length p) eqn:E; [apply Nat.ltb_lt in E|apply Nat.ltb_ge in E].
  - rewrite (IH (S i) k' Hr' ltac:(lia)) by (split_and!; auto).
    case_decide as HpS; [|done]. rewrite filter_cons, decide_False; [done|].
    rewrite <-Hfull by done. intros Hbf. apply Hm' in Hbf. lia.
  - assert (k' = length p) as Heq by lia. rewrite Heq in Hb'.
    assert (length p ≤ S i) as HpS.
    { destruct Hb' as [Hl _]. rewrite length_take in Hl. lia. }
    destruct (proper_of_full _ Hp Hb') as (k2 & Hk2 & Hpb). rewrite Heq, Hk2.
    rewrite decide_True, filter_cons, decide_True by (done || by apply Hfull). simpl.
    f_equal; [lia|]. by apply IH.
Qed.

Lemma kmp_all_exact lines :
  p ≠ [] → length p ≤ length lines →
  kmp_all compare p (kmp_prefix compare p) 0 0 lines
  = filter (λ s, matches_at compare lines p s = true) (range_incl 0 (length lines - length p)).
Proof.
  intros Hp Hpl. assert (0 < length p) by (destruct p; simpl; [done|lia]).
  rewrite (kmp_all_spec lines 0 0) by (done || lia || (split_and!; [apply border_0|done|by intros j [Hj _]])).
  f_equal. unfold starts_after, range_incl. f_equal; lia.
Qed.

End All.

(** ** Lines of a text and their offsets *)

Abbreviation pieces s := (split_inclusive LF s).

Lemma pieces_nil s : pieces s = [] → s = [].
Proof. intros H. by rewrite <-(split_inclusive_concat LF s), H. Qed.

(** Every piece is a line without line feeds, then its line feed unless it is the last. *)
Lemma pieces_shape s i l :
  pieces s !! i = Some l →
  ∃ l0, (LF ∉ l0) ∧ (l = l0 ++ [LF] ∨ l = l0 ∧ l0 ≠ [] ∧ S i = length (pieces s)).
Proof.
  revert i l. induction s as [|c s IH]; intros i l; simpl; [done|].
  case_decide as Hc.
  - destruct i as [|i]; simpl.
    + intros [= <-]. exists []. split; [apply not_elem_of_nil|]. left. by rewrite Hc.
    + intros Hl. destruct (IH i l Hl) as (l0 & Hl0 & Hcase). exists l0. split; [done|].
      destruct Hcase as [|(? & ? & ?)]; [by left|]. right. split_and!; try done. by f_equal.
  - destruct (pieces s) as [|q qs] eqn:E; simpl.
    + destruct i as [|i]; [|done]. intros [= <-]. exists [c]. split; [set_solver|]. by right.
    + destruct i as [|i]; simpl.
      * intros [= <-]. destruct (IH 0 q eq_refl) as (l0 & Hl0 & Hcase). exists (c :: l0). split; [set_solver|].
        destruct Hcase as [->|(-> & _ & Hi)]; [by left|]. right. by split_and!.
      * intros Hl. destruct (IH (S i) l Hl) as (l0 & Hl0 & Hcase). exists l0. split; [done|].
        destruct Hcase as [|(? & ? & ?)]; [by left|by right].
Qed.

Lemma pieces_nonempty s i l : pieces s !! i = Some l → l ≠ [].
Proof. intros (l0 & _ & [->|(-> & ? & _)])%pieces_shape; [by destruct l0|done]. Qed.

(** The offset of line [i]. *)
Definition offset (s : str) (i : nat) : N := str_len (concat (take i (pieces s))).

Lemma len_utf8_LF : len_utf8 LF = 1%N.
Proof. done. Qed.

Lemma line_offsets_from_spec pos s i :
  match line_offsets_from pos s !! i with
  | Some o => o = (pos + offset s (S i))%N
  | None => length (pieces s) ≤ S i
  end.
Proof.
  revert pos i. induction s as [|c s IH]; intros pos i; simpl; [lia|]. unfold offset. simpl.
  case_decide as Hc.
  - subst c. destruct i as [|i]; simpl; [by destruct (pieces s)|].
    specialize (IH (pos + len_utf8 LF)%N i). unfold offset in IH.
    destruct (line_offsets_from _ s !! i); [|simpl; lia].
    rewrite IH, str_len_cons. lia.
  - specialize (IH (pos + len_utf8 c)%N i). unfold offset in IH.
    destruct (line_offsets_from _ s !! i) as [o|].
    + rewrite IH. destruct (pieces s) as [|q qs]; simpl; rewrite str_len_cons; [rewrite take_nil; simpl; lia|lia].
    + destruct (pieces s); simpl in *; lia.
Qed.

Lemma compute_line_offsets_lookup s i :
  match compute_line_offsets s !! i with
  | Some o => o = offset s i
  | None => length (pieces s) ≤ i
  end.
Proof.
  unfold compute_line_offsets. destruct i as [|i]; [by destruct (pieces s)|]. simpl.
  pose proof (line_offsets_from_spec 0 s i) as H. destruct (line_offsets_from 0 s !! i); [by rewrite H|done].
Qed.

Lemma offset_all s i : length (pieces s) ≤ i → offset s i = str_len s.
Proof. intros H. unfold offset. by rewrite take_ge, split_inclusive_concat. Qed.

Lemma line_start s i : i < length (pieces s) → compute_line_offsets s !! i = Some (offset s i).
Proof.
  intros Hi. pose proof (compute_line_offsets_lookup s i) as H.
  destruct (compute_line_offsets s !! i); [by rewrite H|lia].
Qed.

Lemma window_end_offset s j : window_end (compute_line_offsets s) s j = offset s j.
Proof.
  unfold window_end. pose proof (compute_line_offsets_lookup s j) as H.
  destruct (compute_line_offsets s !! j); [done|]. symmetry. by apply offset_all.
Qed.

(** The text of lines [i .. j). *)
Definition window_text (s : str) (i j : nat) : str := concat (drop i (take j (pieces s))).

Lemma window_split s i j :
  i ≤ j → s = concat (take i (pieces s)) ++ window_text s i j ++ concat (drop j (pieces s)).
Proof.
  intros Hij. unfold window_text. rewrite <-(split_inclusive_concat LF s) at 1.
  rewrite <-(take_drop j (pieces s)) at 1. rewrite <-(take_drop i (take j (pieces s))) at 1.
  rewrite !concat_app, take_take, Nat.min_l, <-app_assoc by done. done.
Qed.

Lemma window_slice s i j :
  i ≤ j → slice s (offset s i) (offset s j) = Some (window_text s i j).
Proof.
  intros Hij. apply slice_Some. exists (concat (take i (pieces s))), (concat (drop j (pieces s))).
  split; [by apply window_split|]. split; [done|]. unfold offset, window_text.
  rewrite <-(take_drop i (take j (pieces s))) at 1. rewrite concat_app, str_len_app, take_take, Nat.min_l by done.
  done.
Qed.

(** ** Whitespace at the ends of a window *)

Abbreviation blank s := (Forall (λ c, is_whitespace c = true) s).

Lemma take_while_prefix {A} (f : A → bool) l :
  ∃ r, l = take_while f l ++ r ∧ Forall (λ x, f x = true) (take_while f l).
Proof.
  induction l as [|x l IH]; simpl; [by exists []|]. destruct (f x) eqn:E; [|by exists (x :: l)].
  destruct IH as (r & Hr & Hf). exists r. simpl. split; [by f_equal|]. by constructor.
Qed.

Lemma leading_blank s n : n ≤ leading_count s → blank (take n s).
Proof.
  unfold leading_count. intros Hn. destruct (take_while_prefix is_whitespace s) as (r & Hr & Hf).
  rewrite Hr, take_app_le by done. by apply Forall_take.
Qed.

(** The last [n] characters. *)
Definition suffix_chars (n : nat) (s : str) : str := drop (length s - n) s.

Lemma suffix_chars_rev n s : rev (take n (rev s)) = suffix_chars n s.
Proof. by rewrite firstn_rev, rev_involutive. Qed.

Lemma str_len_take_rev n s : str_len (take n (rev s)) = str_len (suffix_chars n s).
Proof. by rewrite <-suffix_chars_rev, str_len_rev. Qed.

Lemma trailing_blank s n : n ≤ trailing_count s → blank (suffix_chars n s).
Proof. unfold trailing_count. intros Hn%leading_blank. rewrite <-suffix_chars_rev. by apply Forall_rev. Qed.

Lemma suffix_chars_split n s : s = take (length s - n) s ++ suffix_chars n s.
Proof. symmetry. apply take_drop. Qed.

(** A text splits before its final line feeds and before its last line. *)
Lemma rstrip_LF s : ∃ k, s = rstrip (N.eqb LF) s ++ replicate k LF.
Proof.
  destruct (rstrip_prefix (N.eqb LF) s) as (k & Hk & Hf).
  exists (length k). rewrite Hk at 1. f_equal. clear Hk. induction Hf as [|c k Hc _ IH]; [done|].
  simpl. apply N.eqb_eq in Hc as <-. by f_equal.
Qed.

Lemma last_split_suffix (c : char) s :
  ∃ u l, last (split_on c s) = Some l ∧ s = u ++ l ∧ (u = [] ∨ last u = Some c) ∧ (c ∉ l).
Proof.
  induction s as [|x s IH]; simpl; [exists [], []; split_and!; [done|done|by left|set_solver]|].
  destruct IH as (u & l & Hl & -> & Hu & Hc). case_decide as Hx.
  - subst x. exists (c :: u), l. split_and!; [|done| |done].
    + destruct (split_on c (u ++ l)) eqn:E; [by apply split_on_nonempty in E|done].
    + right. destruct u as [|y u]; [done|]. destruct Hu as [|Hu]; [done|]. by rewrite last_cons, Hu.
  - destruct (split_on c (u ++ l)) as [|q qs] eqn:E; [by apply split_on_nonempty in E|].
    destruct qs as [|q2 qs].
    + simpl in Hl. injection Hl as ->. exists [], (x :: u ++ l). split_and!; [|done|by left|].
      * simpl. f_equal. f_equal. pose proof (join_split_on c (u ++ l)) as Hj. rewrite E in Hj. simpl in Hj. done.
      * pose proof (split_on_free c (u ++ l)) as Hf. rewrite E in Hf. inversion Hf as [|?? Hq _]. subst.
        pose proof (join_split_on c (u ++ l)) as Hj. rewrite E in Hj. simpl in Hj. rewrite <-Hj. set_solver.
    + exists (x :: u), l. split_and!; [done|done| |done]. right. destruct u as [|y u].
      * exfalso. rewrite app_nil_l, split_on_free_id in E by done. done.
      * destruct Hu as [|Hu]; [done|]. by rewrite last_cons, Hu.
Qed.

(** ** The range of a match *)

(** A line with a visible character. *)
Abbreviation visible l := (has_reflow_content l = true).

Lemma visible_elem l : visible l ↔ ∃ c, c ∈ l ∧ is_whitespace c = false.
Proof.
  unfold has_reflow_content. rewrite existsb_exists. split; intros (c & Hc & Hw); exists c.
  - apply list_elem_of_In in Hc. by apply negb_true_iff in Hw.
  - apply list_elem_of_In in Hc. by apply negb_true_iff in Hw.
Qed.

(** Blank text before and blank text after a visible character do not overlap. *)
Lemma blank_ends (w a b : str) u v :
  w = a ++ u → w = v ++ b → blank a → blank b → visible w → ∃ m, w = a ++ m ++ b.
Proof.
  intros Ha Hb Hba Hbb (c & Hc & Hw)%visible_elem.
  rewrite Ha in Hb. apply app_eq_inv in Hb as [(k & -> & ->)|(k & -> & ->)].
  - exfalso. assert (blank w) as Hall; [|rewrite Forall_forall in Hall; specialize (Hall c Hc); congruence].
    rewrite Ha, <-app_assoc. apply Forall_app in Hba as [? _]. by apply Forall_app.
  - by exists k.
Qed.

Lemma first_line_prefix w : ∃ u, w = default [] (head (str_lines w)) ++ u.
Proof.
  unfold str_lines. pose proof (split_inclusive_concat LF w) as Hw.
  destruct (pieces w) as [|l ls]; rewrite <-Hw; simpl; [by exists []|]. unfold line_content.
  destruct (strip_suffix [LF] l) as [l'|] eqn:E; [|by exists (concat ls)].
  apply strip_suffix_Some in E as ->. unfold strip_cr.
  destruct (strip_suffix [CR] l') as [l0|] eqn:E; [apply strip_suffix_Some in E as ->|];
    rewrite <-?app_assoc; eauto.
Qed.

Lemma str_len_prefix (a b : str) : (str_len a ≤ str_len (a ++ b))%N.
Proof. rewrite str_len_app. lia. Qed.

(** The last line of a text and what follows it. *)
Lemma last_line_split w :
  ∃ u e, w = u ++ last_line w ++ replicate e LF ∧ (ends_with [LF] w = true ↔ 0 < e).
Proof.
  destruct (rstrip_LF w) as (e & He). destruct (last_split_suffix LF (rstrip (N.eqb LF) w)) as (u & l & Hl & Hw & Hu & Hc).
  exists u, e. unfold last_line. rewrite Hl. simpl. split; [by rewrite app_assoc, <-Hw|].
  rewrite He at 1. destruct e as [|e]; rewrite ?app_nil_r.
  - split; [|lia]. intros [k Hk]%ends_with_true. exfalso.
    assert (last (rstrip (N.eqb LF) w) = Some LF) as Hlast by (by rewrite Hk, last_snoc).
    by apply rstrip_last in Hlast.
  - split; [lia|]. intros _. apply ends_with_true. rewrite replicate_S_end, app_assoc. by eexists.
Qed.

Lemma split_on_app_sep (c : char) (a b : str) :
  split_on c (a ++ c :: b) = split_on c a ++ split_on c b.
Proof.
  induction a as [|x a IH]; simpl; [by rewrite decide_True|]. case_decide; rewrite IH; [done|].
  by destruct (split_on c a) eqn:E; [apply split_on_nonempty in E|].
Qed.

(** The shape of a window whose last line is [l]. *)
Definition ends_at_line (w l : str) : Prop :=
  ∃ v e, w = v ++ l ++ e ∧ (e = [] ∨ e = [LF]) ∧ (LF ∉ l) ∧ (v = [] ∨ last v = Some LF).

Lemma last_line_visible w l v e :
  w = v ++ l ++ e → e = [] ∨ e = [LF] → (LF ∉ l) → v = [] ∨ last v = Some LF → l ≠ [] →
  last_line w = l.
Proof.
  intros -> He Hl Hv Hne. unfold last_line.
  rewrite app_assoc, rstrip_app_all by (destruct He as [-> | ->]; repeat constructor).
  rewrite rstrip_id.
  - destruct Hv as [->|(v' & ->)%last_Some].
    + by rewrite app_nil_l, split_on_free_id.
    + rewrite <-app_assoc. change ([LF] ++ l) with (LF :: l).
      by rewrite split_on_app_sep, (split_on_free_id _ l), last_snoc.
  - intros c Hc. destruct (last l) as [d|] eqn:E; [|by apply last_None in E].
    rewrite last_app, E in Hc. injection Hc as <-. apply N.eqb_neq. intros <-. apply Hl.
    apply last_Some in E as [l' ->]. set_solver.
Qed.

Lemma ends_with_line v l e :
  e = [] ∨ e = [LF] → (LF ∉ l) → l ≠ [] → ends_with [LF] (v ++ l ++ e) = true ↔ e = [LF].
Proof.
  intros He Hl Hne. rewrite ends_with_true. split.
  - destruct He as [-> | ->]; [|done]. rewrite app_nil_r. intros (r & Hr). exfalso.
    destruct (exists_last Hne) as (l' & c & ->). rewrite app_assoc in Hr.
    apply app_inj_tail in Hr as [_ ->]. set_solver.
  - intros ->. rewrite app_assoc. by eexists.
Qed.

Lemma take_while_length {A} (f : A → bool) l : length (take_while f l) ≤ length l.
Proof. induction l as [|x l IH]; simpl; [done|]. destruct (f x); simpl; lia. Qed.

(** No slice or subtraction of [boundary_match] panics. *)
Lemma boundary_match_total source needle start stop p w :
  slice source start stop = Some w → is_Some (boundary_match source needle start stop p).
Proof.
  intros Hw. unfold boundary_match. rewrite Hw. cbn [mbind option_bind].
  apply slice_Some in Hw as (a & b & -> & -> & ->).
  destruct (last_line_split w) as (u & e & He & Hends).
  set (t := trailing_count (last_line w) - _).
  assert (str_len w = str_len u + str_len (last_line w) + N.of_nat e)%N as Hlen.
  { rewrite He at 1. rewrite !str_len_app. enough (str_len (replicate e LF) = N.of_nat e) by lia.
    clear. induction e as [|e IH]; [done|]. simpl replicate. rewrite str_len_cons, IH, len_utf8_LF. lia. }
  assert (str_len (take t (rev (last_line w))) ≤ str_len (last_line w))%N as Ht.
  { rewrite <-(str_len_rev (last_line w)). rewrite <-(take_drop t (rev (last_line w))) at 2. apply str_len_prefix. }
  destruct (ends_with [LF] w) eqn:Ew; simpl.
  - assert (0 < e) by (by apply Hends). destruct (_ || _); simpl.
    + rewrite checked_sub_Some by lia. simpl. rewrite checked_sub_Some by lia. by eexists.
    + rewrite checked_sub_Some by lia. by eexists.
  - rewrite checked_sub_Some by lia. by eexists.
Qed.

(** A match is its window without blank text at its two ends. *)
Definition placed (w needle : str) (start : N) (p : N) (m : FuzzyMatch) : Prop :=
  ∃ lead body tail,
    w = lead ++ body ++ tail ∧ blank lead ∧ blank tail ∧
    m = MkMatch (start + str_len lead) (str_len body) p ∧
    length lead = leading_count (default [] (head (str_lines w)))
                  - leading_count (default [] (head (str_lines needle))) ∧
    (ends_with [LF] w = true → ends_with [LF] needle = false → last tail = Some LF).

Lemma boundary_match_placed source needle start stop p w l m :
  slice source start stop = Some w → ends_at_line w l → visible l →
  boundary_match source needle start stop p = Some m → placed w needle start p m.
Proof.
  intros Hw (v & e & Hwe & He & Hl & Hv) Hvis Hm.
  assert (last_line w = l) as Hll.
  { apply (last_line_visible w l v e); try done. by intros ->. }
  unfold boundary_match in Hm. rewrite Hw in Hm. cbn [mbind option_bind] in Hm. rewrite Hll in Hm.
  apply slice_Some in Hw as (a & b & _ & -> & ->).
  set (first := default [] (head (str_lines w))) in *.
  set (lx := leading_count first - _) in *. set (tx := trailing_count l - _) in *.
  destruct (first_line_prefix w) as (u & Hu). fold first in Hu.
  set (drops := ends_with [LF] w && (negb (ends_with [LF] needle) || (0 <? tx))) in *.
  set (tail := suffix_chars tx l ++ if drops then [LF] else []).
  assert (blank tail) as Hbt.
  { apply Forall_app. split; [apply trailing_blank; lia|]. destruct drops; repeat constructor. }
  assert (blank (take lx first)) as Hbl by (apply leading_blank; lia).
  assert (ends_with [LF] w = true ↔ e = [LF]) as Hends.
  { rewrite Hwe. apply ends_with_line; [done|done|by intros ->]. }
  assert (∃ r, w = r ++ tail) as (r & Hr).
  { assert (w = v ++ (take (length l - tx) l ++ suffix_chars tx l) ++ e) as Hs
      by (by rewrite <-suffix_chars_split).
    unfold tail, drops. destruct (ends_with [LF] w) eqn:Ew; simpl.
    - rewrite (proj1 Hends eq_refl) in Hs. destruct (negb _ || _) eqn:Ed.
      + exists (v ++ take (length l - tx) l). by rewrite Hs, <-!app_assoc at 1.
      + apply orb_false_iff in Ed as [_ Ed%Nat.ltb_ge]. assert (tx = 0) as -> by lia.
        exists w. unfold suffix_chars. by rewrite Nat.sub_0_r, drop_all, !app_nil_r.
    - assert (e = []) as -> by (destruct He as [|He]; [done|by apply Hends in He]).
      exists (v ++ take (length l - tx) l). rewrite Hs at 1. by rewrite !app_nil_r, app_assoc. }
  assert (w = take lx first ++ (drop lx first ++ u)) as Hu' by (by rewrite app_assoc, take_drop).
  assert (visible w) as Hvw.
  { apply visible_elem in Hvis as (c & Hc & Hcw). apply visible_elem. exists c. split; [|done].
    rewrite Hwe. set_solver. }
  destruct (blank_ends w _ tail _ r Hu' Hr Hbl Hbt Hvw) as (body & Hbody).
  exists (take lx first), body, tail. split_and!; [done|done|done| | |].
  - assert (str_len tail = str_len (suffix_chars tx l) + if drops then 1 else 0)%N as Htl.
    { unfold tail. rewrite str_len_app. by destruct drops. }
    assert (str_len w = str_len (take lx first) + str_len body + str_len tail)%N as Hsl.
    { rewrite Hbody at 1. rewrite !str_len_app. lia. }
    rewrite str_len_take_rev in Hm.
    destruct drops; rewrite ?checked_sub_Some in Hm by lia; simpl in Hm;
      rewrite ?checked_sub_Some in Hm by lia; simpl in Hm; injection Hm as <-; f_equal; lia.
  - rewrite length_take_le; [done|]. unfold lx, leading_count.
    pose proof (take_while_length is_whitespace first). lia.
  - intros H1 H2. unfold tail, drops. rewrite H1, H2. simpl. by rewrite last_snoc.
Qed.

(** ** Windows of lines *)

(** Lines before another one end with a line feed. *)
Lemma window_text_ends s i j :
  i ≤ j → j < length (pieces s) → window_text s i j = [] ∨ last (window_text s i j) = Some LF.
Proof.
  intros Hij Hj. unfold window_text. destruct (decide (i = j)) as [->|Hne].
  - left. rewrite drop_ge; [done|]. rewrite length_take. lia.
  - right. destruct (lookup_lt_is_Some_2 (pieces s) (j - 1)) as [r Hr]; [lia|].
    replace j with (S (j - 1)) at 1 by lia. rewrite (take_S_r _ _ _ Hr).
    rewrite drop_app_le by (rewrite length_take; lia).
    rewrite concat_app. simpl. rewrite app_nil_r.
    apply pieces_shape in Hr as (r0 & _ & [->|(_ & _ & Hlen)]); [by rewrite app_assoc, last_snoc|lia].
Qed.

Lemma pieces_rest s q qs : pieces s = q :: qs → pieces (concat qs) = qs.
Proof.
  revert q qs. induction s as [|c s IH]; intros q qs; simpl; [done|]. case_decide.
  - intros [= <- <-]. by rewrite split_inclusive_concat.
  - destruct (pieces s) as [|p ps]; [by intros [= <- <-]|]. intros [= <- <-]. by eapply IH.
Qed.

Lemma pieces_drop s i : pieces (concat (drop i (pieces s))) = drop i (pieces s).
Proof.
  revert s. induction i as [|i IH]; intros s; [by rewrite drop_0, split_inclusive_concat|].
  destruct (pieces s) as [|q qs] eqn:E; [done|]. simpl. apply pieces_rest in E. by rewrite <-E, IH.
Qed.

(** The last line of a window. *)
Lemma window_ends_at_line s i j l :
  i < j → str_lines s !! (j - 1) = Some l → visible l →
  ∃ l0, ends_at_line (window_text s i j) l0 ∧ visible l0.
Proof.
  intros Hij Hl Hvis. unfold str_lines in Hl. rewrite list_lookup_fmap in Hl.
  destruct (pieces s !! (j - 1)) as [q|] eqn:Eq; [|done]. injection Hl as <-.
  assert (window_text s i j = window_text s i (j - 1) ++ q) as Hw.
  { unfold window_text. replace j with (S (j - 1)) at 1 by lia. rewrite (take_S_r _ _ _ Eq).
    rewrite drop_app_le by (rewrite length_take; apply lookup_lt_Some in Eq; lia).
    rewrite concat_app. simpl. by rewrite app_nil_r. }
  assert (window_text s i (j - 1) = [] ∨ last (window_text s i (j - 1)) = Some LF) as Hv.
  { apply window_text_ends; [lia|]. apply lookup_lt_Some in Eq. lia. }
  apply visible_elem in Hvis as (c & Hc & Hcw).
  apply pieces_shape in Eq as (l0 & Hl0 & Hq).
  exists l0. split.
  - exists (window_text s i (j - 1)), (if decide (q = l0) then [] else [LF]). case_decide as Hd.
    + rewrite Hw, app_nil_r, Hd. auto.
    + destruct Hq as [->|(-> & _)]; [|done]. rewrite Hw. auto.
  - apply visible_elem. exists c. split; [|done]. unfold line_content in Hc. destruct Hq as [->|(-> & _)].
    + rewrite (proj2 (strip_suffix_Some _ _ l0) eq_refl) in Hc. by apply strip_cr_subseteq in Hc.
    + destruct (strip_suffix [LF] l0) as [l1|] eqn:E; [|done].
      apply strip_suffix_Some in E as ->. apply strip_cr_subseteq in Hc. set_solver.
Qed.

(** The reflow iterator yields every reflow window once, from top to bottom. *)
Lemma reflow_all_from lines needle rc fuel :
  as_bytes needle ≠ [] →
  iterating (glued lines) (as_bytes needle) (entries lines (start_of lines) 0 (length lines))
    (entries lines (end_of lines) 0 (length lines)) rc →
  length (glued lines) - rc_position rc < fuel →
  (∀ w, w ∈ reflow_all fuel rc ↔
        reflow_window lines needle w.1 w.2 ∧ rc_position rc < end_of lines (w.2 - 1)) ∧
  StronglySorted (λ w w', w.2 < w'.2) (reflow_all fuel rc).
Proof.
  intros Hne. revert rc. induction fuel as [|fuel IH]; intros rc Hit Hf; [lia|]. cbn [reflow_all].
  pose proof (reflow_next_spec _ _ _ _ (entries_sorted lines _ 0 (length lines) (start_of_sorted lines))
    (entries_sorted lines _ 0 (length lines) (end_of_sorted lines)) rc Hne Hit) as Hn.
  pose proof (λ e w, aligned_window lines needle e w Hne) as Hal.
  destruct (reflow_next rc) as [[w|] rc'].
  2:{ split; [|constructor]. intros w. split; [by intros ?%elem_of_nil|]. intros [Hw Hp]. exfalso.
      by apply (Hn _ w Hp), Hal. }
  destruct Hn as (Hp & Ha & Hit' & Hno). assert (rc_position rc' ≤ length (glued lines)) as Hle by apply Ha.
  destruct (IH rc' Hit' ltac:(lia)) as [Hin Hs]. pose proof Ha as (Hw & He)%Hal. split.
  - intros w'. rewrite elem_of_cons, Hin. split; [intros [->|[Hw' Hlt]]; split; done || lia|].
    intros [Hw' Hlt]. destruct (Nat.lt_trichotomy (end_of lines (w'.2 - 1)) (rc_position rc')) as [H|[H|H]].
    + exfalso. apply (Hno (end_of lines (w'.2 - 1)) w'); [lia|by apply Hal].
    + left. eapply aligned_unique; [|exact Ha]. by apply Hal.
    + by right.
  - constructor; [done|]. apply Forall_forall. intros w' [Hw' Hlt]%Hin. rewrite He in Hlt.
    destruct (decide (w.2 < w'.2)) as [|Hge]; [done|]. exfalso.
    pose proof (before_length lines (S (w'.2 - 1)) (S (w.2 - 1)) ltac:(lia)). unfold end_of in Hlt. lia.
Qed.

(** ** The two normalisations agree *)

Lemma squeeze_chars_app a b :
  squeeze_chars (a ++ b)
  = foldl (λ st ch, if is_whitespace ch then (st.1, nonempty st.1)
                    else (st.1 ++ (if st.2 then [SPACE] else []) ++ [ch], false)) (squeeze_chars a) b.
Proof. unfold squeeze_chars. by rewrite foldl_app. Qed.

Lemma normalize_step_squeeze cs :
  let st := foldl normalize_step ([], false) cs in
  squeeze_chars cs = (st.1, st.2 && nonempty st.1).
Proof.
  induction cs as [|c cs IH] using rev_ind; [done|]. simpl in *. rewrite squeeze_chars_app, IH, foldl_app.
  destruct (foldl normalize_step ([], false) cs) as [b ws]. unfold normalize_step. simpl.
  destruct (is_whitespace c); simpl; [done|].
  destruct ws, (nonempty b); simpl; by rewrite <-?app_assoc.
Qed.

Lemma squeeze_chars_trail a b : blank b → (squeeze_chars (a ++ b)).1 = (squeeze_chars a).1.
Proof.
  intros Hb. rewrite squeeze_chars_app. generalize (squeeze_chars a). clear a.
  induction Hb as [|c b Hc _ IH]; intros st; [done|]. simpl. by rewrite Hc, IH.
Qed.

Lemma squeeze_chars_lead a b : blank a → squeeze_chars (a ++ b) = squeeze_chars b.
Proof.
  intros Ha. rewrite squeeze_chars_app. enough (squeeze_chars a = ([], false)) as -> by done.
  unfold squeeze_chars. induction Ha as [|c a Hc _ IH]; simpl; [done|]. by rewrite Hc.
Qed.

Lemma trim_split s : ∃ a b, s = a ++ trim s ++ b ∧ blank a ∧ blank b.
Proof.
  destruct (drop_while_suffix is_whitespace s) as (a & Ha & Hba).
  destruct (rstrip_prefix is_whitespace (drop_while is_whitespace s)) as (b & Hb & Hbb).
  exists a, b. split; [|done]. rewrite Ha at 1. f_equal. by rewrite Hb at 1.
Qed.

Lemma normalize_reflow_eq s : normalize_reflow s = normalize_reflow_whitespace s.
Proof.
  rewrite normalize_squeeze_chars. destruct (trim_split s) as (a & b & Hs & Ha & Hb).
  rewrite Hs at 2. rewrite squeeze_chars_lead, squeeze_chars_trail by done.
  unfold normalize_reflow. by rewrite normalize_step_squeeze.
Qed.

(** ** Exact occurrences *)

Lemma match_indices_from_sound needle skip pos s :
  needle ≠ [] →
  Forall (λ i, ∃ a b, s = a ++ needle ++ b ∧ i = (pos + str_len a)%N ∧ skip ≤ length a)
    (match_indices_from needle skip pos s) ∧
  StronglySorted (λ i j, i + str_len needle ≤ j)%N (match_indices_from needle skip pos s).
Proof.
  intros Hne. revert skip pos. induction s as [|c s IH]; intros skip pos; cbn [match_indices_from].
  { rewrite bool_decide_eq_false_2 by done. split; constructor. }
  assert (∀ k, Forall (λ i, ∃ a b, c :: s = a ++ needle ++ b ∧ i = (pos + str_len a)%N ∧ S k ≤ length a)
    (match_indices_from needle k (pos + len_utf8 c)%N s)) as Hlift.
  { intros k. eapply Forall_impl; [apply IH|]. intros i (a & b & -> & -> & Hk). exists (c :: a), b.
    split_and!; [done|rewrite str_len_cons; lia|simpl; lia]. }
  destruct skip as [|skip]; [|split; [apply Hlift|apply IH]].
  destruct (starts_with needle (c :: s)) eqn:E.
  - apply starts_with_true in E as (r & Hr). specialize (Hlift (length needle - 1)).
    assert (0 < length needle) by (destruct needle; simpl; [done|lia]). split; constructor.
    + exists [], r. split_and!; [done|rewrite str_len_nil; lia|simpl; lia].
    + eapply Forall_impl; [exact Hlift|]. intros i (a & b & H1 & H2 & H3). exists a, b. split_and!; [done|done|lia].
    + apply IH.
    + eapply Forall_impl; [exact Hlift|]. intros i (a & b & H1 & -> & H3). rewrite Hr in H1.
      assert (a = needle ++ drop (length needle) a) as ->; [|rewrite str_len_app; lia].
      apply app_eq_inv in H1 as [(k & Hk & _)|(k & -> & _)].
      * rewrite Hk in H3. rewrite length_app in H3.
        assert (k = []) as -> by (destruct k; simpl in H3; [done|lia]). rewrite app_nil_r in Hk. subst a.
        by rewrite drop_all, app_nil_r.
      * by rewrite drop_app_length.
  - split; [|apply IH]. eapply Forall_impl; [apply (Hlift 0)|].
    intros i (a & b & H1 & H2 & H3). exists a, b. split_and!; [done|done|lia].
Qed.

Lemma match_indices_complete needle s : match_indices needle s = [] ↔ ¬ ∃ a b, s = a ++ needle ++ b.
Proof.
  destruct (decide (needle = [])) as [->|Hne].
  { split; [by destruct s|]. intros H. destruct H. by exists [], s. }
  unfold match_indices. split.
  - generalize 0%N as pos. induction s as [|c s IH]; intros pos Hm (a & b & Hs).
    + apply eq_sym, app_nil in Hs as [_ [? _]%app_nil]. done.
    + cbn [match_indices_from] in Hm. destruct (starts_with needle (c :: s)) eqn:E; [done|].
      destruct a as [|x a].
      * assert (starts_with needle (c :: s) = true); [|congruence]. apply starts_with_true. by exists b.
      * apply (IH _ Hm). injection Hs as <- ->. by exists a, b.
  - intros H. destruct (match_indices_from needle 0 0 s) as [|i rest] eqn:E; [done|]. exfalso. apply H.
    pose proof (proj1 (match_indices_from_sound needle 0 0 s Hne)) as Hf. rewrite E in Hf.
    inversion Hf as [|?? (a & b & -> & _) _]. by exists a, b.
Qed.

(** ** The passes *)

(** A window of lines that compare line by line. *)
Definition line_window (compare : str → str → bool) (hs ns : list str) (w : nat * nat) : Prop :=
  w.2 = w.1 + length ns ∧ w.2 ≤ length hs ∧ matches_at compare hs ns w.1 = true.

Definition folded (lines : list str) : list str := (λ l, normalize_unicode (trim l)) <$> lines.

(** The windows pass [p] accepts. *)
Definition pass_window (p : N) (haystack needle : str) (w : nat * nat) : Prop :=
  let hs := str_lines haystack in
  let ns := str_lines needle in
  match p with
  | 2 => line_window same_trim_end hs ns w
  | 3 => line_window same_trim hs ns w
  | 4 => line_window same_line (folded hs) (folded ns) w
  | 5 => reflow_window hs (normalize_reflow_whitespace (join [LF] ns)) w.1 w.2
  | _ => False
  end%N.

(** All windows that satisfy [P], from top to bottom, and the match of each. *)
Definition all_windows (P : nat * nat → Prop) (haystack needle : str) (p : N) (ms : list FuzzyMatch) : Prop :=
  ∃ ws, (∀ w, w ∈ ws ↔ P w) ∧ StronglySorted (λ w w', w.2 < w'.2) ws ∧
    Forall2 (λ w m, boundary_match haystack needle (offset haystack w.1) (offset haystack w.2) p = Some m) ws ms.

(** A list of windows of the text always has its matches. *)
Lemma windows_matched haystack needle p ws :
  Forall (λ w : nat * nat, w.1 < w.2 ≤ length (str_lines haystack)) ws →
  ∃ ms,
    mapM (λ w : nat * nat, start ← compute_line_offsets haystack !! w.1;
      boundary_match haystack needle start (window_end (compute_line_offsets haystack) haystack w.2) p) ws
    = Some ms ∧
    Forall2 (λ w m, boundary_match haystack needle (offset haystack w.1) (offset haystack w.2) p = Some m) ws ms.
Proof.
  unfold str_lines. rewrite length_fmap. induction 1 as [|w ws Hw _ (ms & Hms & Hf)]; [by exists []|].
  destruct (boundary_match_total haystack needle (offset haystack w.1) (offset haystack w.2) p _
    (window_slice haystack w.1 w.2 ltac:(lia))) as [m Hm].
  exists (m :: ms). split; [|by constructor]. cbn [mapM].
  rewrite line_start, window_end_offset by lia. cbn [mbind option_bind]. rewrite Hm. cbn [mbind option_bind].
  by rewrite Hms.
Qed.

#[local] Instance on_equivalence {A B} (f : A → B) `{EqDecision B} :
  Equivalence (λ a b, bool_decide (f a = f b) = true).
Proof. split; intros a; [|intros b|intros b c]; rewrite !bool_decide_eq_true; congruence. Qed.

Lemma seq_increasing a n : StronglySorted lt (seq a n).
Proof.
  revert a. induction n as [|n IH]; intros a; simpl; constructor; [done|].
  apply Forall_forall. intros x [? ?]%elem_of_seq. lia.
Qed.

Lemma find_line_matches_spec (haystack needle : str) hs ns compare p :
  Equivalence (λ a b, compare a b = true) → length hs = length (str_lines haystack) → ns ≠ [] →
  ∃ ms, find_line_matches hs ns (compute_line_offsets haystack) haystack needle compare p = Some ms ∧
    all_windows (line_window compare hs ns) haystack needle p ms.
Proof.
  intros Heq Hlen Hns. unfold find_line_matches. rewrite bool_decide_eq_false_2 by done. simpl.
  destruct (Nat.ltb_spec (length hs) (length ns)) as [Hlt|Hge].
  { exists []. split; [done|]. exists []. split_and!; [|constructor|constructor].
    intros w. split; [by intros ?%elem_of_nil|]. intros (H1 & H2 & _). lia. }
  rewrite (kmp_all_exact compare Heq) by done.
  set (starts := filter _ _).
  assert (∀ i, i ∈ starts ↔ i + length ns ≤ length hs ∧ matches_at compare hs ns i = true) as Hin.
  { intros i. unfold starts. rewrite list_elem_of_filter, elem_of_range_incl. intuition lia. }
  destruct (windows_matched haystack needle p ((λ i, (i, i + length ns)) <$> starts)) as (ms & Hms & Hf).
  { apply Forall_forall. intros w (i & -> & [Hi _]%Hin)%list_elem_of_fmap. simpl.
    assert (0 < length ns) by (destruct ns; simpl; [done|lia]). lia. }
  exists ms. split.
  - rewrite <-Hms. clear. induction starts as [|i starts IH]; [done|]. cbn [mapM fmap list_fmap]. by rewrite IH.
  - exists ((λ i, (i, i + length ns)) <$> starts). split_and!; [| |done].
    + intros [a b]. rewrite list_elem_of_fmap. unfold line_window. setoid_rewrite Hin. simpl. split.
      * intros (i & [= -> ->] & H1 & H2). done.
      * intros (-> & H1 & H2). by exists a.
    + clear -starts. assert (StronglySorted lt starts) as Hs by (apply StronglySorted_filter, seq_increasing).
      clearbody starts. induction Hs as [|i starts _ IH Hall]; [constructor|]. cbn [fmap list_fmap].
      constructor; [done|]. apply Forall_fmap. eapply Forall_impl; [exact Hall|]. simpl. intros; lia.
Qed.

Lemma reflow_window_blank lines s e : ¬ reflow_window lines [] s e.
Proof.
  intros ((H1 & H2) & Hc & _ & Hw)%reflow_window_iff. by apply (window_first lines s e Hc H1).
Qed.

Lemma find_reflow_matches_spec haystack needle :
  ∃ ms, find_reflow_matches (str_lines haystack) (str_lines needle) (compute_line_offsets haystack)
          haystack needle = Some ms ∧
    all_windows (pass_window 5 haystack needle) haystack needle 5 ms.
Proof.
  unfold find_reflow_matches. rewrite normalize_reflow_eq. unfold pass_window.
  set (lines := str_lines haystack). set (nn := normalize_reflow_whitespace _). case_bool_decide as Hn.
  { exists []. split; [done|]. exists []. rewrite Hn. split_and!; [|constructor|constructor].
    intros w. split; [by intros ?%elem_of_nil|by intros ?%reflow_window_blank]. }
  assert (as_bytes nn ≠ []) as Hne.
  { destruct nn as [|c cs]; [done|]. rewrite as_bytes_cons. intros [H _]%app_nil. by apply utf8_char_nonempty in H. }
  destruct (reflow_all_from lines nn (reflow_new lines nn)
    (S (length (rc_stream (reflow_new lines nn)))) Hne (reflow_iterating lines nn Hne)) as [Hin Hs].
  { rewrite reflow_new_spec. simpl. lia. }
  assert (∀ w : nat * nat, w ∈ reflow_all (S (length (rc_stream (reflow_new lines nn)))) (reflow_new lines nn)
    ↔ reflow_window lines nn w.1 w.2) as Hin'.
  { intros w. rewrite Hin. split; [by intros [? _]|]. intros Hw. split; [done|].
    apply reflow_window_iff in Hw as ((H1 & H2) & Hc & _). rewrite reflow_new_spec. simpl.
    pose proof (start_lt_end lines w.1 (w.2 - 1) Hc ltac:(lia)). lia. }
  destruct (windows_matched haystack needle 5
    (reflow_all (S (length (rc_stream (reflow_new lines nn)))) (reflow_new lines nn))) as (ms & Hms & Hf).
  { apply Forall_forall. intros w [Hw _]%Hin'. done. }
  exists ms. split; [exact Hms|]. eexists. by split_and!.
Qed.

(** What the search promises: every exact occurrence if there is one; else every window of the
    first pass that accepts any; else nothing. *)
Inductive fuzzy_answer (haystack needle : str) : list FuzzyMatch → Prop :=
  | fa_exact :
      (∃ a b, haystack = a ++ needle ++ b) →
      fuzzy_answer haystack needle
        ((λ i, MkMatch i (str_len needle) 1) <$> match_indices needle haystack)
  | fa_loose p ms :
      (¬ ∃ a b, haystack = a ++ needle ++ b) → (2 ≤ p ≤ 5)%N →
      (∀ q w, (q < p)%N → ¬ pass_window q haystack needle w) →
      all_windows (pass_window p haystack needle) haystack needle p ms → ms ≠ [] →
      fuzzy_answer haystack needle ms
  | fa_none :
      (¬ ∃ a b, haystack = a ++ needle ++ b) → (∀ q w, ¬ pass_window q haystack needle w) →
      fuzzy_answer haystack needle [].

Lemma all_windows_nil P haystack needle p w : all_windows P haystack needle p [] → ¬ P w.
Proof. intros (ws & Hin & _ & Hf) Hw%Hin. apply Forall2_nil_inv_r in Hf as ->. by apply elem_of_nil in Hw. Qed.

Lemma pass_window_range q haystack needle w : pass_window q haystack needle w → (2 ≤ q ≤ 5)%N.
Proof. destruct q as [|[[[]|[]|]|[[]|[]|]|]]; simpl; done || lia. Qed.

Lemma none_below haystack needle p :
  (∀ q w, (q < p)%N → ¬ pass_window q haystack needle w) →
  all_windows (pass_window p haystack needle) haystack needle p [] →
  ∀ q w, (q < N.succ p)%N → ¬ pass_window q haystack needle w.
Proof.
  intros Hl Ha q w Hq. destruct (decide (q = p)) as [->|]; [|apply Hl; lia].
  by apply (all_windows_nil _ _ _ _ w) in Ha.
Qed.

Lemma find_all_fuzzy_answer haystack needle :
  ∃ ms, find_all_fuzzy haystack needle = Some ms ∧ fuzzy_answer haystack needle ms.
Proof.
  unfold find_all_fuzzy. pose proof (match_indices_complete needle haystack) as Hex.
  destruct (match_indices needle haystack) as [|i0 rest] eqn:Em.
  2:{ exists ((λ i, MkMatch i (str_len needle) 1) <$> (i0 :: rest)). split; [done|]. rewrite <-Em. constructor.
      destruct (decide (needle = [])) as [->|Hne]; [by exists [], haystack|].
      pose proof (proj1 (match_indices_from_sound needle 0 0 haystack Hne)) as Hf.
      unfold match_indices in Em. rewrite Em in Hf. inversion Hf as [|?? (a & b & -> & _) _]. by exists a, b. }
  assert (¬ ∃ a b, haystack = a ++ needle ++ b) as Hno by (by apply Hex). clear Hex.
  assert (str_lines needle ≠ []) as Hns.
  { intros ->%fmap_nil_inv%pieces_nil. apply Hno. by exists [], haystack. }
  rewrite bool_decide_eq_false_2 by done.
  destruct (find_line_matches_spec haystack needle (str_lines haystack) (str_lines needle)
    same_trim_end 2 _ eq_refl Hns) as (m2 & -> & H2).
  destruct (find_line_matches_spec haystack needle (str_lines haystack) (str_lines needle)
    same_trim 3 _ eq_refl Hns) as (m3 & -> & H3).
  destruct (find_line_matches_spec haystack needle (folded (str_lines haystack)) (folded (str_lines needle))
    same_line 4 (on_equivalence id) (length_fmap _ _)) as (m4 & E4 & H4).
  { intros ?%fmap_nil_inv. done. }
  destruct (find_reflow_matches_spec haystack needle) as (m5 & -> & H5).
  cbn [mbind option_bind]. unfold folded in E4. rewrite E4. cbn [mbind option_bind].
  assert (∀ p w, (p < 2)%N → ¬ pass_window p haystack needle w) as L2.
  { intros p w Hp ?%pass_window_range. lia. }
  case_bool_decide as Hm2; simpl; [|exists m2; split; [done|]; by apply (fa_loose _ _ 2)].
  subst m2. pose proof (none_below _ _ 2 L2 H2) as L3.
  case_bool_decide as Hm3; simpl; [|exists m3; split; [done|]; by apply (fa_loose _ _ 3)].
  subst m3. pose proof (none_below _ _ 3 L3 H3) as L4.
  case_bool_decide as Hm4; simpl; [|exists m4; split; [done|]; by apply (fa_loose _ _ 4)].
  subst m4. pose proof (none_below _ _ 4 L4 H4) as L5.
  exists m5. split; [done|]. destruct m5 as [|m m5].
  - apply fa_none; [done|]. intros q w Hw. apply (none_below _ _ 5 L5 H5 q w); [|done].
    apply pass_window_range in Hw. lia.
  - by apply (fa_loose _ _ 5).
Qed.

(** ** Where the matches are *)

Lemma trim_visible l : visible l ↔ trim l ≠ [].
Proof.
  destruct (trim_split l) as (a & b & Hl & Ha & Hb). rewrite visible_elem. split.
  - intros (c & Hc & Hw) Ht. rewrite Ht in Hl. simpl in Hl. rewrite Hl in Hc.
    rewrite Forall_forall in Ha, Hb. apply elem_of_app in Hc as [Hc|Hc]; [apply Ha in Hc|apply Hb in Hc]; congruence.
  - intros Ht. destruct (trim l) as [|c t] eqn:E; [done|]. exists c. split; [rewrite Hl; set_solver|].
    pose proof (proj1 (trim_is_tight l)) as Hh. rewrite E in Hh. by apply Hh.
Qed.

Lemma trim_end_visible l : visible l ↔ trim_end l ≠ [].
Proof.
  destruct (rstrip_prefix is_whitespace l) as (k & Hk & Hf). rewrite visible_elem. unfold trim_end. split.
  - intros (c & Hc & Hw) Ht. rewrite Ht in Hk. simpl in Hk. rewrite Hk in Hc.
    rewrite Forall_forall in Hf. apply Hf in Hc. congruence.
  - intros Ht. destruct (exists_last Ht) as (t & c & E). exists c. split.
    + rewrite Hk, E. set_solver.
    + apply (rstrip_last is_whitespace l). by rewrite E, last_snoc.
Qed.

Lemma normalize_unicode_nil s : normalize_unicode s = [] → s = [].
Proof.
  destruct s as [|c s]; [done|]. unfold normalize_unicode. rewrite bind_cons. intros [H _]%app_nil. exfalso.
  revert H. unfold normalize_char. repeat case_decide; done.
Qed.

Lemma folded_visible l : visible l ↔ normalize_unicode (trim l) ≠ [].
Proof.
  rewrite trim_visible. split; [by intros H ?%normalize_unicode_nil|].
  intros H E. by rewrite E in H.
Qed.

(** Lines that compare equal are both visible or both blank. *)
Lemma line_window_last compare hs ns w l :
  line_window compare hs ns w → last ns = Some l → 0 < length ns →
  ∃ x, hs !! (w.2 - 1) = Some x ∧ compare x l = true.
Proof.
  intros (Hw & Hle & Hm%matches_at_spec) Hl Hpos. rewrite last_lookup in Hl.
  destruct (Forall2_lookup_r _ _ _ _ _ Hm Hl) as (x & Hx & Hxl). exists x. split; [|done].
  apply lookup_take_Some in Hx as [Hx _]. rewrite lookup_drop in Hx. rewrite <-Hx. f_equal. lia.
Qed.

Lemma pass_window_visible p haystack needle l w :
  last (str_lines needle) = Some l → visible l → pass_window p haystack needle w →
  w.1 < w.2 ≤ length (str_lines haystack) ∧
  ∃ x, str_lines haystack !! (w.2 - 1) = Some x ∧ visible x.
Proof.
  intros Hl Hv Hw. assert (0 < length (str_lines needle)) as Hpos.
  { destruct (str_lines needle); simpl in *; [done|lia]. }
  pose proof (pass_window_range _ _ _ _ Hw) as Hp.
  assert (p = 2 ∨ p = 3 ∨ p = 4 ∨ p = 5)%N as [->|[->|[->| ->]]] by lia; unfold pass_window in Hw.
  - pose proof Hw as (H1 & H2 & _). split; [lia|].
    destruct (line_window_last _ _ _ _ _ Hw Hl Hpos) as (x & Hx & Hc%bool_decide_eq_true). exists x.
    split; [done|]. apply trim_end_visible. rewrite Hc. by apply trim_end_visible.
  - pose proof Hw as (H1 & H2 & _). split; [lia|].
    destruct (line_window_last _ _ _ _ _ Hw Hl Hpos) as (x & Hx & Hc%bool_decide_eq_true). exists x.
    split; [done|]. apply trim_visible. rewrite Hc. by apply trim_visible.
  - pose proof Hw as (H1 & H2 & _). unfold folded in *. rewrite length_fmap in H1, H2. split; [lia|].
    destruct (line_window_last _ _ _ _ (normalize_unicode (trim l)) Hw) as (x & Hx & Hc%bool_decide_eq_true).
    { by rewrite fmap_last, Hl. }
    { by rewrite length_fmap. }
    rewrite list_lookup_fmap in Hx. destruct (str_lines haystack !! (w.2 - 1)) as [y|] eqn:Ey; [|done].
    injection Hx as <-. exists y. split; [done|]. apply folded_visible. rewrite Hc. by apply folded_visible.
  - destruct Hw as (Hr & _ & He & _). split; [lia|].
    destruct (lookup_lt_is_Some_2 (str_lines haystack) (w.2 - 1)) as [x Hx]; [lia|]. exists x. auto.
Qed.

(** A match is a slice of the file, and a loose one its window without blank ends. *)
Definition located (haystack needle : str) (m : FuzzyMatch) : Prop :=
  (∃ pre body post, haystack = pre ++ body ++ post ∧
     byte_start m = str_len pre ∧ byte_len m = str_len body ∧ (pass m = 1%N → body = needle)) ∧
  (pass m ≠ 1%N → ∃ w, pass_window (pass m) haystack needle w ∧
     placed (window_text haystack w.1 w.2) needle (offset haystack w.1) (pass m) m).

Lemma located_window p haystack needle l w m :
  last (str_lines needle) = Some l → visible l → pass_window p haystack needle w →
  boundary_match haystack needle (offset haystack w.1) (offset haystack w.2) p = Some m →
  located haystack needle m.
Proof.
  intros Hl Hv Hw Hm. destruct (pass_window_visible _ _ _ _ _ Hl Hv Hw) as ((H1 & H2) & x & Hx & Hxv).
  destruct (window_ends_at_line haystack w.1 w.2 x H1 Hx Hxv) as (l0 & Hl0 & Hlv).
  pose proof (boundary_match_placed _ _ _ _ _ _ _ _ (window_slice haystack w.1 w.2 ltac:(lia)) Hl0 Hlv Hm) as Hpl.
  assert (pass m = p) as Hp by (by destruct Hpl as (? & ? & ? & _ & _ & _ & -> & _)).
  apply pass_window_range in Hw as Hr. split; [|intros _; exists w; by rewrite Hp].
  destruct Hpl as (lead & body & tail & Hsp & _ & _ & -> & _). simpl.
  exists (concat (take w.1 (pieces haystack)) ++ lead), body, (tail ++ concat (drop w.2 (pieces haystack))).
  split_and!; [|by rewrite str_len_app|done|simpl in *; lia].
  rewrite (window_split haystack w.1 w.2) at 1 by lia. rewrite Hsp. by rewrite <-!app_assoc.
Qed.

Lemma fuzzy_located haystack needle l ms :
  last (str_lines needle) = Some l → has_reflow_content l = true →
  find_all_fuzzy haystack needle = Some ms → Forall (located haystack needle) ms.
Proof.
  intros Hl Hv Hms. destruct (find_all_fuzzy_answer haystack needle) as (ms' & Hms' & Ha).
  assert (ms' = ms) as -> by congruence. clear Hms Hms'. destruct Ha as [_|p ms _ Hp _ Hall _|]; [| |constructor].
  - apply Forall_fmap. assert (needle ≠ []) as Hne by (by intros ->).
    eapply Forall_impl; [apply (match_indices_from_sound needle 0 0 haystack Hne)|].
    intros i (a & b & -> & -> & _). split; [|done]. simpl. by exists a, needle, b.
  - destruct Hall as (ws & Hin & _ & Hf). apply Forall_forall. intros m (k & Hk)%list_elem_of_lookup.
    destruct (Forall2_lookup_r _ _ _ _ _ Hf Hk) as (w & Hw & Hm).
    apply list_elem_of_lookup_2, Hin in Hw. by eapply located_window.
Qed.

(** C36: the fuzzy search is total and exact: it never panics; when the text occurs verbatim it
    answers verbatim occurrences; otherwise it answers every window of lines that the first
    successful pass accepts (trailing whitespace, surrounding whitespace, Unicode punctuation,
    line breaks), one match per window from top to bottom, overlapping windows included; and it
    answers nothing only when no pass accepts any window. *)
Theorem find_all_fuzzy_exact haystack needle :
  ∃ ms, find_all_fuzzy haystack needle = Some ms ∧ fuzzy_answer haystack needle ms.
Proof. apply find_all_fuzzy_answer. Qed.

(** when the last line of the searched text has a visible character, every match lies on
    character boundaries of the file: it is the text itself, or an accepted window less blank
    text at either end; leading whitespace beyond the indentation of the searched text is left
    out, and so is a final line break the searched text does not have. *)
Theorem find_all_fuzzy_located haystack needle l ms :
  last (str_lines needle) = Some l → has_reflow_content l = true →
  find_all_fuzzy haystack needle = Some ms → Forall (located haystack needle) ms.
Proof. apply fuzzy_located. Qed.

Lemma find_all_fuzzy_located_witness :
  Forall (located (lit "  if x {" ++ [LF] ++ lit "    y();  " ++ [LF] ++ lit "  }" ++ [LF])
            (lit "if x {" ++ [LF] ++ lit "  y();"))
    [MkMatch 2 15 3].
Proof.
  apply (find_all_fuzzy_located _ _ (lit "  y();")); vm_compute; reflexivity.
Defined.

(** without that condition the claim fails: a searched text that ends in an empty line can
    give a match that ends inside a character of the file. *)
Theorem find_all_fuzzy_splits_character :
  ∃ haystack needle m,
    find_all_fuzzy haystack needle = Some [m] ∧ is_char_boundary haystack (byte_start m + byte_len m) = false.
Proof. exists [97; 0x3000; LF; LF; 98]%N, [97; LF; LF]%N, (MkMatch 0 2 2). vm_compute. done. Qed.

End FuzzySpec.
