(* ===== verification/Reindent.v ===== *)
(** * Re-indenting a loose replacement: [ReindentPlan] of [fuzzy_match.rs]

    A match that ignored indentation is replaced by text moved to the file's indentation, unless
    that would be a guess.  The tree-sitter parser is a parameter: a parse gives the root node,
    and for a byte position the innermost node there with its ancestors.  The [OnceCell]s of the
    plan cache pure values and are left out. *)

From S2P Require Import Prelude RustStr ByteStr FuzzyMatch.
Import ByteStr FuzzyMatch.

Module Reindent.

Inductive AftError :=
  | AmbiguousIndentation (message : str)
  | InvalidRequest (message : str).
(** What an edit can end in: an error of the program, or a panic of a slice or an index. *)
Inductive Failure := Error (e : AftError) | Panicked.

Definition no_panic {A} (o : option A) : result Failure A := ok_or Panicked o.

(** ** The indentation shift *)

Inductive IndentShift := NoShift | Add (prefix : str) | Remove (prefix : str).
#[export] Instance IndentShift_eq_dec : EqDecision IndentShift.
Proof. solve_decision. Defined.

Definition leading_whitespace (line : str) : str := take (length line - length (trim_start line)) line.

Definition COPY_EXACT_INDENTATION : str :=
  lit "Nothing was changed; copy oldString with the file's exact indentation.".

Definition ambiguous_indentation (reason : str) : Failure :=
  Error (AmbiguousIndentation
    (lit "oldString matched only after ignoring indentation, but " ++ reason
     ++ lit ", so newString cannot be re-indented without guessing. " ++ COPY_EXACT_INDENTATION)).

(** [source[..byte_start].rfind('\n').map_or(0, |at| at + 1)]. *)
Definition line_start_at (source : str) (byte_start : N) : result Failure N :=
  before ← no_panic (slice_to source byte_start);
  Ok (match rfind LF before with Some at_ => at_ + 1 | None => 0 end)%N.

Definition file_line (source : str) (line_start : N) (offset : nat) : result Failure nat :=
  before ← no_panic (slice_to source line_start);
  Ok (count_lf before + 1 + offset).

(** The shift of one pair of lines; [None] when neither indentation extends the other. *)
Definition line_shift (file_text needle_text : str) : option IndentShift :=
  let file_lead := leading_whitespace file_text in
  let needle_lead := leading_whitespace needle_text in
  if bool_decide (file_lead = needle_lead) then Some NoShift
  else
    match strip_suffix needle_lead file_lead with
    | Some prefix => Some (Add prefix)
    | None => match strip_suffix file_lead needle_lead with
              | Some prefix => Some (Remove prefix)
              | None => None
              end
    end.

Definition blank_line (s : str) : bool := bool_decide (trim s = []).

(** The loop of [indentation_shift] over the paired lines. *)
Fixpoint shift_loop (source : str) (line_start : N) (offset : nat) (shift : option IndentShift)
    (lines : list (str * str)) : result Failure (option IndentShift) :=
  match lines with
  | [] => Ok shift
  | (file_text, needle_text) :: lines =>
      if blank_line file_text || blank_line needle_text
      then shift_loop source line_start (S offset) shift lines
      else
        match line_shift file_text needle_text with
        | None =>
            line ← file_line source line_start offset;
            Err (ambiguous_indentation
                   (lit "line " ++ show line ++ lit " of the file is indented with different whitespace (tabs versus spaces) than oldString"))
        | Some found =>
            match shift with
            | None => shift_loop source line_start (S offset) (Some found) lines
            | Some expected =>
                if bool_decide (expected ≠ found) then
                  line ← file_line source line_start offset;
                  Err (ambiguous_indentation
                         (lit "its indentation differs from the file's by different amounts on different lines (first at line "
                          ++ show line ++ lit ")"))
                else shift_loop source line_start (S offset) shift lines
            end
        end
  end.

Definition indentation_shift (source needle : str) (matched : FuzzyMatch) : result Failure IndentShift :=
  if negb ((pass matched =? 3) || (pass matched =? 4))%N then Ok NoShift
  else
    line_start ← line_start_at source (byte_start matched);
    let needle_lines := str_lines needle in
    after ← no_panic (slice_from source line_start);
    let source_lines := take (length needle_lines) (str_lines after) in
    shift ← shift_loop source line_start 0 None (zip source_lines needle_lines);
    Ok (default NoShift shift).

(** ** The reply about a loose match *)

Record Detail := MkDetail {
  detail_pass : N; replaced_text : list str; reindented : bool; notice : option str }.

(** [matches.iter().any(|m| indentation_shift(..).is_ok_and(|shift| shift != None))]. *)
Fixpoint any_reindented (source needle : str) (ms : list FuzzyMatch) : result Failure bool :=
  match ms with
  | [] => Ok false
  | m :: ms =>
      match indentation_shift source needle m with
      | Ok shift => if bool_decide (shift ≠ NoShift) then Ok true else any_reindented source needle ms
      | Err Panicked => Err Panicked
      | Err (Error _) => any_reindented source needle ms
      end
  end.

Definition visible_content (s : str) : str := filter (λ c, is_whitespace c = false) s.

(** [escape_debug] is [str::escape_debug]. *)
Definition replacement_detail (escape_debug : str → str) (source needle : str) (ms : list FuzzyMatch) :
    result Failure Detail :=
  let p := match ms with m :: _ => pass m | [] => 1%N end in
  re ← any_reindented source needle ms;
  texts ← mapM (λ m, no_panic (slice source (byte_start m) (byte_start m + byte_len m))) ms;
  let excerpt text :=
    let escaped := escape_debug text in
    if 160 <? length escaped then take 160 escaped ++ ELLIPSIS else escaped in
  let actual := excerpt <$> filter (λ text, visible_content text ≠ visible_content needle) texts in
  Ok (MkDetail p actual re (loose_match_notice p re)).

(** ** Strings in the text *)

Definition is_string_literal_kind (kind : str) : bool :=
  (str_contains (lit "string") kind && negb (starts_with (lit "concatenated") kind))
  || str_contains (lit "heredoc") kind.

Definition BACKTICK : N := 96.

Definition has_string_delimiter (text : str) : bool :=
  contains_char DQUOTE text || contains_char SQUOTE text || contains_char BACKTICK text
  || str_contains (lit "<<") text || str_contains (lit "[[") text.

Definition count_char (c : char) (s : str) : nat := length (filter (λ x, x = c) s).

Definition has_multiline_string_marker (text : str) : bool :=
  str_contains [DQUOTE; DQUOTE; DQUOTE] text
  || str_contains [SQUOTE; SQUOTE; SQUOTE] text
  || contains_char BACKTICK text
  || str_contains (lit "<<") text
  || str_contains (lit "[[") text
  || existsb (λ line, Nat.odd (count_char DQUOTE line)) (str_lines text).

(** What the code reads of a tree-sitter node. *)
#[local] Unset Elimination Schemes.
Inductive Node := MkNode {
  kind : str;
  start_byte : N;
  end_byte : N;
  is_error : bool;
  is_missing : bool;
  has_error : bool;
  children : list Node }.
#[local] Set Elimination Schemes.

Fixpoint node_count (n : Node) : nat := S (list_sum (node_count <$> children n)).

(** The loop of [region_has_error]; the vector's end is the head of [pending]. *)
Fixpoint region_loop (fuel : nat) (start stop : N) (pending : list Node) : bool :=
  match fuel with
  | 0 => false
  | S fuel =>
      match pending with
      | [] => false
      | node :: pending =>
          if ((end_byte node <? start) || (stop <? start_byte node))%N then region_loop fuel start stop pending
          else if is_error node || is_missing node then true
          else region_loop fuel start stop
                 (if has_error node then rev (children node) ++ pending else pending)
      end
  end.
(** Every node is popped at most once. *)
Definition region_has_error (root : Node) (start stop : N) : bool :=
  region_loop (S (node_count root)) start stop [root].

Record Tree := MkTree {
  root_node : Node;
  (** [descendant_for_byte_range(at, at)] and then every [parent()]. *)
  ancestors_at : N → list Node }.

Definition string_literal_at_line_start (tree : Tree) (line_start : N) : option Node :=
  head (filter (λ current,
    let starts_before :=
      ((start_byte current <? line_start)
       || ((start_byte current =? line_start) && str_contains (lit "heredoc") (kind current)))%N in
    is_string_literal_kind (kind current) && starts_before && (line_start <? end_byte current)%N = true)
    (ancestors_at tree line_start)).

(** ** Lines inside strings *)

Section Plan.
Context {Path Lang : Type}.
Context (detect_language : Path → option Lang).
(** [parse_source_with_cached_parser(..).ok()]. *)
Context (parse_source : Path → str → Lang → option Tree).

Fixpoint inside_from (tree : Tree) (index : nat) (line_start : N) (ls : list str) : list bool :=
  match ls with
  | [] => []
  | line :: ls =>
      ((0 <? index) && bool_decide (is_Some (string_literal_at_line_start tree line_start)))
      :: inside_from tree (S index) (line_start + str_len line)%N ls
  end.

Definition text_lines_inside_strings (text : str) (path : Path) (lang : Lang) : option (list bool) :=
  if negb (has_string_delimiter text) then Some (replicate (length (str_lines text)) false)
  else
    tree ← parse_source path text lang;
    if region_has_error (root_node tree) 0 (str_len text) then None
    else Some (inside_from tree 0 0 (split_inclusive LF text)).

(** ** The plan *)

Record ReindentPlan := MkPlan {
  source : str;
  needle : str;
  replacement : str;
  path : option Path;
  matches : list FuzzyMatch }.

Record StringParse := MkStringParse {
  parse_text : str;
  parse_tree : Tree;
  replacement_starts : list N }.

Definition match_end (m : FuzzyMatch) : N := (byte_start m + byte_len m)%N.

Definition matched_text (plan : ReindentPlan) (index : nat) : result Failure str :=
  matched ← no_panic (matches plan !! index);
  start ← line_start_at (source plan) (byte_start matched);
  no_panic (slice (source plan) start (match_end matched)).

(** [self.source[..end].ends_with('\n') && !replacement.is_empty() && !replacement.ends_with('\n')]. *)
Definition consumed_separator (plan : ReindentPlan) (stop : N) : result Failure bool :=
  before ← no_panic (slice_to (source plan) stop);
  Ok (ends_with [LF] before && negb (bool_decide (replacement plan = []))
      && negb (ends_with [LF] (replacement plan))).

(** The loop of [parse_with_replacements]: the text so far, the starts, [copied_through]. *)
Fixpoint insert_loop (plan : ReindentPlan) (text : str) (starts : list N) (copied_through : N)
    (indices : list nat) : result Failure (str * list N) :=
  match indices with
  | [] => rest ← no_panic (slice_from (source plan) copied_through); Ok (text ++ rest, starts)
  | index :: indices =>
      matched ← no_panic (matches plan !! index);
      gap ← no_panic (slice (source plan) copied_through (byte_start matched));
      let text := text ++ gap in
      let starts := starts ++ [str_len text] in
      let text := text ++ replacement plan in
      restore ← consumed_separator plan (match_end matched);
      insert_loop plan (if (restore : bool) then text ++ [LF] else text) starts (match_end matched) indices
  end.

Definition parse_with_replacements (plan : ReindentPlan) (lang : Lang) (indices : list nat) :
    result Failure (option StringParse) :=
  match path plan with
  | None => Ok None
  | Some p =>
      '(text, starts) ← insert_loop plan [] [] 0 indices;
      Ok (tree ← parse_source p text lang; Some (MkStringParse text tree starts))
  end.

Definition overlapping (ms : list FuzzyMatch) : bool :=
  existsb (λ '(a, b), (byte_start b <? match_end a)%N) (zip ms (drop 1 ms)).

Definition no_parser_message : str :=
  lit "this file type has no parser here and newString or the matched lines may hold a multi-line string, whose text must not move".
Definition unsure : Failure :=
  ambiguous_indentation
    (lit "the code around the edit does not parse, so lines inside multi-line strings cannot be told apart from code").

(** The loop over the lines of the replacement. *)
Fixpoint inside_loop (parse : StringParse) (replacement_start : N) (line : nat) (offset : N)
    (ps : list str) : result Failure (list bool) :=
  match ps with
  | [] => Ok []
  | piece :: ps =>
      at_line_start ←
        (if (offset =? 0)%N then Ok true
         else b ← no_panic (as_bytes (parse_text parse) !! N.to_nat (offset - 1));
              Ok (bool_decide (b = LF)));
      here ←
        (if negb at_line_start || blank_line piece then Ok false
         else match string_literal_at_line_start (parse_tree parse) offset with
              | None => Ok false
              | Some string =>
                  if (start_byte string <? replacement_start)%N
                  then Err (ambiguous_indentation
                              (lit "line " ++ show (line + 1) ++ lit " of newString is inside a multi-line string that starts before the edit, and that string's intended text is unclear"))
                  else Ok true
              end);
      rest ← inside_loop parse replacement_start (S line) (offset + str_len piece)%N ps;
      Ok (here :: rest)
  end.

Definition lines_inside_new_strings (plan : ReindentPlan) (index : nat) : result Failure (list bool) :=
  let ps := split_inclusive LF (replacement plan) in
  let none := replicate (length ps) false in
  match path plan with
  | None => Ok none
  | Some p =>
      matched ← matched_text plan index;
      match detect_language p with
      | None =>
          if has_multiline_string_marker (replacement plan) || has_multiline_string_marker matched
          then Err (ambiguous_indentation no_parser_message)
          else Ok none
      | Some lang =>
          let local_delimiters := has_string_delimiter (replacement plan) || has_string_delimiter matched in
          if negb local_delimiters && negb (has_string_delimiter (source plan)) then Ok none
          else
            let '(indices, slot) :=
              if overlapping (matches plan) then ([index], 0) else (seq 0 (length (matches plan)), index) in
            parse ← parse_with_replacements plan lang indices;
            match parse with
            | None => if local_delimiters then Err unsure else Ok none
            | Some parse =>
                replacement_start ← no_panic (replacement_starts parse !! slot);
                if local_delimiters
                   && region_has_error (root_node (parse_tree parse)) replacement_start
                        (replacement_start + str_len (replacement plan))
                then Err unsure
                else inside_loop parse replacement_start 0 replacement_start ps
            end
      end
  end.

Definition blank_first_line : Failure :=
  ambiguous_indentation
    (lit "its first line is blank, so the indentation of newString's first line is unclear").

Fixpoint add_prefix (prefix : str) (line : nat) (ps : list str) (in_string : list bool) : result Failure str :=
  match ps with
  | [] => Ok []
  | piece :: ps =>
      skip ← (if (line =? 0) || blank_line piece then Ok true else no_panic (in_string !! line));
      rest ← add_prefix prefix (S line) ps in_string;
      Ok ((if (skip : bool) then [] else prefix) ++ piece ++ rest)
  end.

Fixpoint remove_prefix (prefix : str) (line : nat) (ps : list str) (in_string : list bool) : result Failure str :=
  match ps with
  | [] => Ok []
  | piece :: ps =>
      keep ← (if blank_line piece then Ok true else no_panic (in_string !! line));
      shifted ←
        (if (keep : bool) then Ok piece
         else match strip_prefix prefix piece with
              | Some rest => Ok rest
              | None =>
                  Err (ambiguous_indentation
                         (lit "oldString is indented deeper than the file, and line " ++ show (line + 1)
                          ++ lit " of newString does not start with that extra indentation"))
              end);
      rest ← remove_prefix prefix (S line) ps in_string;
      Ok (shifted ++ rest)
  end.

Definition replacement_for (plan : ReindentPlan) (index : nat) : result Failure str :=
  matched ← no_panic (matches plan !! index);
  shift ← indentation_shift (source plan) (needle plan) matched;
  match shift with
  | NoShift => Ok (replacement plan)
  | _ =>
      in_string ← lines_inside_new_strings plan index;
      line_start ← line_start_at (source plan) (byte_start matched);
      before_match ← no_panic (slice (source plan) line_start (byte_start matched));
      let ps := split_inclusive LF (replacement plan) in
      match shift with
      | NoShift => Err Panicked
      | Add prefix =>
          if bool_decide (before_match ≠ prefix) then Err blank_first_line
          else add_prefix prefix 0 ps in_string
      | Remove prefix =>
          if negb (bool_decide (before_match = [])) then Err blank_first_line
          else remove_prefix prefix 0 ps in_string
      end
  end.

End Plan.

End Reindent.
