(* ===== verification/EditMatch.v ===== *)
(** * Find and replace in one file: [commands/edit_match.rs]

    The byte-range primitives of [edit.rs], the replacement of fuzzy matches, and the decision of
    [handle_single_file_edit_match] from the request's selectors to the new text.  Reading,
    backing up and writing the file is outside. *)

From S2P Require Import Prelude RustStr ByteStr FuzzyMatch Reindent.
Import ByteStr FuzzyMatch Reindent.

Module EditMatch.

(** ** Byte ranges ([edit.rs]) *)

Definition range_text (start stop : N) : str :=
  lit "invalid byte range [" ++ show_N start ++ lit ".." ++ show_N stop ++ lit "): ".

Definition validate_byte_range (source : str) (start stop : N) : result Failure unit :=
  let bad reason := Err (Error (InvalidRequest (range_text start stop ++ reason))) in
  if (stop <? start)%N then bad (lit "start must be <= end")
  else if (str_len source <? stop)%N
    then bad (lit "end exceeds source length " ++ show_N (str_len source))
  else if negb (is_char_boundary source start) then bad (lit "start is not a char boundary")
  else if negb (is_char_boundary source stop) then bad (lit "end is not a char boundary")
  else Ok tt.

Definition replace_byte_range (source : str) (start stop : N) (replacement : str) : result Failure str :=
  _ ← validate_byte_range source start stop;
  before ← no_panic (slice_to source start);
  after ← no_panic (slice_from source stop);
  Ok (before ++ replacement ++ after).

(** ** Replacing fuzzy matches *)

Definition fuzzy_replacement_restores_newline (source : str) (matched : FuzzyMatch) (replacement : str) : bool :=
  let byte_end := match_end matched in
  (2 <=? pass matched)%N && (0 <? byte_end)%N && (byte_end <=? str_len source)%N
  && bool_decide (as_bytes source !! N.to_nat (byte_end - 1) = Some LF)
  && negb (bool_decide (replacement = [])) && negb (ends_with [LF] replacement).

(** [trim_start_matches([' ', '\t'])]. *)
Definition skip_blanks (s : str) : str := drop_while (λ c, (c =? SPACE) || (c =? TAB))%N s.

Section Edit.
Context {Path Lang : Type}.
Context (detect_language : Path → option Lang).
Context (parse_source : Path → str → Lang → option Tree).

(** [push_fuzzy_replacement]: what is appended to the output. *)
Definition push_fuzzy_replacement (plan : ReindentPlan (Path := Path)) (index : nat) : result Failure str :=
  matched ← no_panic (matches plan !! index);
  replacement ← replacement_for detect_language parse_source plan index;
  after ← no_panic (slice_from (source plan) (match_end matched));
  let remaining := skip_blanks after in
  let separator_is_outside :=
    (1 <? pass matched)%N && (starts_with [LF] remaining || starts_with [CR; LF] remaining) in
  let body :=
    if separator_is_outside && ends_with [LF] replacement
    then match strip_suffix [CR; LF] replacement with
         | Some r => r
         | None => take (length replacement - 1) replacement
         end
    else replacement in
  Ok (body ++ if fuzzy_replacement_restores_newline (source plan) matched replacement then [LF] else []).

(** The copying loop; [output] is what has been written so far. *)
Fixpoint apply_loop (plan : ReindentPlan (Path := Path)) (output : str) (copied_through : N) (index : nat)
    (ms : list FuzzyMatch) : result Failure str :=
  match ms with
  | [] => rest ← no_panic (slice_from (source plan) copied_through); Ok (output ++ rest)
  | matched :: ms =>
      gap ← no_panic (slice (source plan) copied_through (byte_start matched));
      pushed ← push_fuzzy_replacement plan index;
      apply_loop plan (output ++ gap ++ pushed) (match_end matched) (S index) ms
  end.

Definition apply_sorted_non_overlapping_fuzzy_matches (source : str) (ms : list FuzzyMatch)
    (needle replacement : str) (path : option Path) : result Failure str :=
  _ ← mapM (λ matched, validate_byte_range source (byte_start matched) (match_end matched)) ms;
  apply_loop (MkPlan source needle replacement path ms) [] 0 0 ms.

(** ** The command *)

(** What [handle_single_file_edit_match] answers when it changes nothing; [code] and
    [to_string] of an [AftError] are in [EditFailed]. *)
Inductive EditMatchRefusal :=
  | ExclusiveSelectors
  | OccurrenceNotPositive
  | OccurrenceTooLarge
  | MatchNotFound
  | OccurrenceOutOfRange (occurrence total : nat)
  | AmbiguousMatch (listing : str) (total : nat)
  | OverlappingEdits (first second : FuzzyMatch)
  | EditFailed (e : Failure).

Definition usize_MAX : N := 2 ^ 64 - 1.

(** The [occurrence] parameter: [None] when absent, [Some (as_u64 value)] otherwise. *)
Definition parse_occurrence (raw : option (option N)) : result EditMatchRefusal (option nat) :=
  match raw with
  | None => Ok None
  | Some (Some 0%N) | Some None => Err OccurrenceNotPositive
  | Some (Some value) =>
      if (value - 1 <=? usize_MAX)%N then Ok (Some (N.to_nat (value - 1))) else Err OccurrenceTooLarge
  end.

(** [for pair in fuzzy_matches.windows(2)]. *)
Definition first_overlap (ms : list FuzzyMatch) : option (FuzzyMatch * FuzzyMatch) :=
  head (filter (λ '(a, b), (byte_start b < match_end a)%N) (zip ms (drop 1 ms))).

Definition edit_match_text (source match_str replacement : str) (path : Path)
    (raw_occurrence : option (option N)) (replace_all : bool) : result EditMatchRefusal (str * nat) :=
  if replace_all && bool_decide (is_Some raw_occurrence) then Err ExclusiveSelectors
  else
    occurrence ← parse_occurrence raw_occurrence;
    fuzzy_matches ← ok_or (EditFailed Panicked) (find_all_fuzzy source match_str);
    if bool_decide (fuzzy_matches = []) then Err MatchNotFound
    else
      let positions := byte_start <$> fuzzy_matches in
      let out_of_range :=
        match occurrence with
        | Some occ => negb replace_all && (length positions <=? occ)
        | None => false
        end in
      if out_of_range then Err (OccurrenceOutOfRange (default 0 occurrence + 1) (length positions))
      else if (1 <? length positions) && bool_decide (occurrence = None) && negb replace_all then
        listing ← ok_or (EditFailed Panicked) (render_occurrence_listing source positions);
        Err (AmbiguousMatch listing (length positions))
      else if (replace_all : bool) then
        match first_overlap fuzzy_matches with
        | Some (a, b) => Err (OverlappingEdits a b)
        | None =>
            updated ← map_err EditFailed
              (apply_sorted_non_overlapping_fuzzy_matches source fuzzy_matches match_str replacement (Some path));
            Ok (updated, length fuzzy_matches)
        end
      else
        matched ← ok_or (EditFailed Panicked) (fuzzy_matches !! default 0 occurrence);
        let plan := MkPlan source match_str replacement (Some path) [matched] in
        effective ← map_err EditFailed (push_fuzzy_replacement plan 0);
        updated ← map_err EditFailed
          (replace_byte_range source (byte_start matched) (match_end matched) effective);
        Ok (updated, 1).

End Edit.

End EditMatch.
