(* ===== verification/EditMatchSpec.v ===== *)
(** * What a find-and-replace does to the file

    The edit never panics, changes nothing but the matches, and moves the replacement by one
    indentation shift that every matched line agrees on. *)

From S2P Require Import Prelude RustStr ByteStr PatchMatcher Reflow ReflowSpec FuzzyMatch FuzzySpec Reindent EditMatch.
Import ByteStr Reflow FuzzyMatch FuzzySpec Reindent EditMatch.

Module EditMatchSpec.

(** ** Boundaries *)

Definition boundary (s : str) (n : N) : Prop := ∃ a b, s = a ++ b ∧ n = str_len a.

Lemma boundary_split s n : boundary s n ↔ is_Some (split_at s n).
Proof.
  split.
  - intros (a & b & -> & ->). rewrite split_at_app. by eexists.
  - intros [[a b] [-> ->]%split_at_Some]. by exists a, b.
Qed.

Lemma boundary_to s n : boundary s n → is_Some (slice_to s n).
Proof. intros [x Hx]%boundary_split. unfold slice_to. rewrite Hx. by eexists. Qed.
Lemma boundary_from s n : boundary s n → is_Some (slice_from s n).
Proof. intros [x Hx]%boundary_split. unfold slice_from. rewrite Hx. by eexists. Qed.

Lemma boundary_slice s x y : boundary s x → boundary s y → (x ≤ y)%N → is_Some (slice s x y).
Proof.
  intros (a & b & -> & ->) (c & d & Hs & ->) Hle. apply app_eq_inv in Hs as [(k & -> & ->)|(k & -> & ->)].
  - rewrite str_len_app in Hle. assert (k = []) as -> by (apply str_len_zero; lia).
    rewrite app_nil_r. exists []. apply slice_Some. exists c, b. split_and!; [done|done|rewrite str_len_nil; lia].
  - exists k. apply slice_Some. exists a, d. rewrite str_len_app. by split_and!.
Qed.

Lemma boundary_0 s : boundary s 0.
Proof. by exists [], s. Qed.
Lemma boundary_len s n : boundary s n → (n ≤ str_len s)%N.
Proof. intros (a & b & -> & ->). rewrite str_len_app. lia. Qed.
Lemma boundary_is s n : boundary s n → is_char_boundary s n = true.
Proof. intros H%boundary_split. by apply bool_decide_eq_true. Qed.

Create HintDb aft_edit.
#[local] Hint Resolve boundary_to boundary_from boundary_0 : aft_edit.

(** ** Computations that do not panic *)

Definition safe {A} (r : result Failure A) : Prop := r ≠ Err Panicked.

Lemma safe_Ok {A} (a : A) : safe (Ok a).
Proof. done. Qed.
Lemma safe_bind {A B} (r : result Failure A) (f : A → result Failure B) :
  safe r → (∀ a, r = Ok a → safe (f a)) → safe (r ≫= f).
Proof. unfold safe. destruct r as [a|e]; simpl; [|by intros H _ [= ->]]. intros _ H. by apply H. Qed.
Lemma safe_no_panic {A} (o : option A) : is_Some o → safe (no_panic o).
Proof. by intros [a ->]. Qed.
Lemma safe_ambiguous {A} reason : safe (Err (A := A) (ambiguous_indentation reason)).
Proof. done. Qed.
Lemma no_panic_Ok {A} (o : option A) a : no_panic o = Ok a ↔ o = Some a.
Proof. unfold no_panic. destruct o; simpl; split; congruence. Qed.

(** ** The start of a line *)

Lemma rfind_from_spec c pos s :
  match rfind_from c pos s with
  | Some n => ∃ a b, s = a ++ c :: b ∧ (c ∉ b) ∧ n = (pos + str_len a)%N
  | None => c ∉ s
  end.
Proof.
  revert pos. induction s as [|x s IH]; intros pos; simpl; [apply not_elem_of_nil|].
  specialize (IH (pos + len_utf8 x)%N). destruct (rfind_from c _ s) as [n|].
  - destruct IH as (a & b & -> & Hb & ->). exists (x :: a), b. split_and!; [done|done|rewrite str_len_cons; lia].
  - case_decide as Hx.
    + subst x. exists [], s. split_and!; [done|done|rewrite str_len_nil; lia].
    + by apply not_elem_of_cons.
Qed.

(** [line_start_at] finds the line the position is in. *)
Lemma line_start_at_spec source pre post :
  source = pre ++ post →
  ∃ a cur, pre = a ++ cur ∧ (LF ∉ cur) ∧ (a = [] ∨ last a = Some LF) ∧
    line_start_at source (str_len pre) = Ok (str_len a).
Proof.
  intros ->. unfold line_start_at, slice_to. rewrite split_at_app. simpl.
  pose proof (rfind_from_spec LF 0 pre) as H. unfold rfind. destruct (rfind_from LF 0 pre) as [n|].
  - destruct H as (a & b & -> & Hb & ->). exists (a ++ [LF]), b. rewrite <-app_assoc. split_and!; [done|done| |].
    + right. by rewrite last_snoc.
    + f_equal. rewrite str_len_app, str_len_singleton, len_utf8_LF. lia.
  - exists [], pre. auto.
Qed.

Lemma line_start_safe source n : boundary source n → ∃ m, line_start_at source n = Ok m ∧ boundary source m ∧ (m ≤ n)%N.
Proof.
  intros (pre & post & Hs & ->). destruct (line_start_at_spec source pre post Hs) as (a & cur & -> & _ & _ & ->).
  exists (str_len a). split_and!; [done| |rewrite str_len_app; lia].
  exists a, (cur ++ post). split; [|done]. by rewrite Hs, <-app_assoc.
Qed.

(** ** The shift *)

(** How shift [σ] relates a line of the file to a line of the edit. *)
Definition shifted (σ : IndentShift) (file edit : str) : Prop :=
  let f := leading_whitespace file in
  let e := leading_whitespace edit in
  match σ with
  | NoShift => f = e
  | Add p => p ≠ [] ∧ f = p ++ e
  | Remove p => p ≠ [] ∧ e = p ++ f
  end.

Lemma line_shift_Some file edit σ : line_shift file edit = Some σ ↔ shifted σ file edit.
Proof.
  unfold line_shift, shifted. set (f := leading_whitespace file). set (e := leading_whitespace edit).
  case_bool_decide as Hfe.
  { rewrite Hfe. split; [by intros [= <-]|]. destruct σ as [|p|p]; [done| |];
      intros [Hp H]; apply (f_equal length) in H; rewrite length_app in H;
      (destruct p; [done|simpl in H; lia]). }
  destruct (strip_suffix e f) as [q|] eqn:E1; [apply strip_suffix_Some in E1|].
  { split.
    - intros [= <-]. split; [|done]. intros ->. by apply Hfe.
    - destruct σ as [|p|p]; [done| |].
      + intros [_ H]. rewrite E1 in H. by apply app_inv_tail in H as ->.
      + intros [Hp H]. exfalso. rewrite E1 in H. apply (f_equal length) in H. rewrite !length_app in H.
        destruct p; [done|simpl in H; lia]. }
  destruct (strip_suffix f e) as [q|] eqn:E2; [apply strip_suffix_Some in E2|].
  { split.
    - intros [= <-]. split; [|done]. intros ->. by apply Hfe.
    - destruct σ as [|p|p]; [done| |].
      + intros [_ H]. apply strip_suffix_Some in H. congruence.
      + intros [_ H]. rewrite E2 in H. by apply app_inv_tail in H as ->. }
  split; [done|]. destruct σ as [|p|p]; [done| |]; intros [_ H]; apply strip_suffix_Some in H; congruence.
Qed.

Lemma blank_line_visible l : blank_line l = false ↔ visible l.
Proof. unfold blank_line. by rewrite bool_decide_eq_false, trim_visible. Qed.

(** Pairs whose two lines have visible text agree on [σ]. *)
Definition agree (σ : IndentShift) (pairs : list (str * str)) : Prop :=
  ∀ f n, (f, n) ∈ pairs → visible f → visible n → shifted σ f n.

Lemma file_line_safe source line_start offset :
  boundary source line_start → ∃ l, file_line source line_start offset = Ok l.
Proof. intros [x Hx]%boundary_to. unfold file_line. rewrite Hx. by eexists. Qed.

Lemma shift_loop_spec source line_start offset sh pairs :
  boundary source line_start →
  match shift_loop source line_start offset sh pairs with
  | Ok (Some σ) => (sh = None ∨ sh = Some σ) ∧ agree σ pairs
  | Ok None => sh = None ∧ ∀ σ, agree σ pairs
  | Err e => e ≠ Panicked ∧ ∀ σ, sh = None ∨ sh = Some σ → ¬ agree σ pairs
  end.
Proof.
  intros Hb. revert offset sh. induction pairs as [|[f n] pairs IH]; intros offset sh; cbn [shift_loop].
  { assert (∀ σ, agree σ []) as Hnil by (intros ??? []%elem_of_nil). destruct sh; auto. }
  destruct (file_line_safe source line_start offset Hb) as (line & Hline).
  destruct (blank_line f || blank_line n) eqn:Ebl.
  { specialize (IH (S offset) sh).
    assert (∀ σ, agree σ ((f, n) :: pairs) ↔ agree σ pairs) as Hag.
    { intros σ. unfold agree. split; [intros H ?? Hin; apply H; by right|].
      intros H f' n' [[= -> ->]|Hin]%elem_of_cons; [|by apply H].
      rewrite <-!blank_line_visible. intros Hf Hn. by rewrite Hf, Hn in Ebl. }
    destruct (shift_loop _ _ _ _ _) as [[σ|]|e]; setoid_rewrite Hag; done. }
  apply orb_false_iff in Ebl as [Hf%blank_line_visible Hn%blank_line_visible].
  assert (∀ σ, agree σ ((f, n) :: pairs) ↔ line_shift f n = Some σ ∧ agree σ pairs) as Hag.
  { intros σ. rewrite line_shift_Some. unfold agree. split.
    - intros H. split; [apply H; [by left|done|done]|]. intros ?? Hin. apply H. by right.
    - intros [H1 H2] f' n' [[= -> ->]|Hin]%elem_of_cons; auto. }
  destruct (line_shift f n) as [found|].
  2:{ rewrite Hline. split; [done|]. intros σ _ [? _]%Hag. done. }
  destruct sh as [expected|].
  - case_bool_decide as Hne.
    + rewrite Hline. split; [done|]. intros σ [|[= ->]] [[= ->] _]%Hag; done.
    + assert (expected = found) as -> by (destruct (decide (expected = found)); tauto).
      specialize (IH (S offset) (Some found)). destruct (shift_loop _ _ _ _ _) as [[σ|]|e].
      * rewrite Hag. destruct IH as [[|[= <-]] IH]; naive_solver.
      * by destruct IH.
      * destruct IH as [He IH]. split; [done|]. intros σ Hσ [_ ?]%Hag. by apply (IH σ).
  - specialize (IH (S offset) (Some found)). destruct (shift_loop _ _ _ _ _) as [[σ|]|e].
    + rewrite Hag. destruct IH as [[|[= <-]] IH]; naive_solver.
    + by destruct IH.
    + destruct IH as [He IH]. split; [done|]. intros σ _ [[= <-] ?]%Hag. apply (IH found); auto.
Qed.

(** A match starts on the first line of its window. *)
Lemma line_start_unique (a a' cur cur' : str) :
  a ++ cur = a' ++ cur' → (LF ∉ cur) → (LF ∉ cur') → a = [] ∨ last a = Some LF → a' = [] ∨ last a' = Some LF →
  a = a'.
Proof.
  assert (∀ (x k cur : str), x ++ k = [] ∨ last (x ++ k) = Some LF → (LF ∉ k ++ cur) → k = []) as Hk.
  { intros x k c Hl Hn. destruct (last k) as [d|] eqn:E; [|by apply last_None in E].
    apply last_Some in E as [k' ->]. destruct Hl as [Hl|Hl].
    - by apply app_nil in Hl as [_ [_ ?]%app_nil].
    - rewrite app_assoc, last_snoc in Hl. injection Hl as ->. set_solver. }
  intros H Hc Hc' Ha Ha'. apply app_eq_inv in H as [(k & -> & ->)|(k & -> & ->)].
  - by rewrite (Hk a' k cur), app_nil_r.
  - by rewrite (Hk a k cur'), app_nil_r.
Qed.

Lemma first_line_free w : LF ∉ default [] (head (str_lines w)).
Proof.
  unfold str_lines. destruct (pieces w) as [|q qs] eqn:E; simpl; [apply not_elem_of_nil|].
  destruct (pieces_shape w 0 q) as (l0 & Hl0 & Hq); [by rewrite E|]. unfold line_content.
  destruct Hq as [->|(-> & _)].
  - rewrite (proj2 (strip_suffix_Some _ _ l0) eq_refl). intros ?%strip_cr_subseteq. done.
  - destruct (strip_suffix [LF] l0) as [l1|] eqn:E1; [|done].
    apply strip_suffix_Some in E1 as ->. set_solver.
Qed.

Lemma placed_line_start source needle p i j m :
  i < j ≤ length (pieces source) → placed (window_text source i j) needle (offset source i) p m →
  boundary source (byte_start m) ∧ line_start_at source (byte_start m) = Ok (offset source i).
Proof.
  intros Hij (lead & body & tail & Hw & _ & _ & -> & Hlen & _). simpl.
  pose proof (window_split source i j ltac:(lia)) as Hs. rewrite Hw in Hs.
  set (a := concat (take i (pieces source))) in *.
  assert (LF ∉ lead) as Hlead.
  { destruct (first_line_prefix (window_text source i j)) as (u & Hu).
    set (first := default [] (head (str_lines (window_text source i j)))) in *.
    assert (lead = take (length lead) first) as ->.
    { assert (length lead ≤ length first) as Hle.
      { rewrite Hlen. unfold leading_count. pose proof (take_while_length is_whitespace first). lia. }
      rewrite <-(take_app_length lead (body ++ tail)) at 1. rewrite <-Hw, Hu. by rewrite take_app_le. }
    intros Hin. apply (first_line_free (window_text source i j)). fold first.
    rewrite <-(take_drop (length lead) first). apply elem_of_app. by left. }
  assert (source = (a ++ lead) ++ body ++ tail ++ concat (drop j (pieces source))) as Hs'.
  { rewrite Hs at 1. by rewrite <-!app_assoc. }
  unfold offset. fold a. rewrite <-str_len_app. split; [by eexists _, _|].
  destruct (line_start_at_spec _ _ _ Hs') as (a' & cur & Ha' & Hcur & Hla' & ->). f_equal. f_equal. symmetry.
  apply (line_start_unique a a' lead cur); try done.
  unfold a. replace (take i (pieces source)) with (drop 0 (take i (pieces source))) by apply drop_0.
  apply (window_text_ends source 0 i); lia.
Qed.

Lemma offset_boundary source i : boundary source (offset source i).
Proof.
  exists (concat (take i (pieces source))), (concat (drop i (pieces source))). split; [|done].
  by rewrite <-concat_app, take_drop, split_inclusive_concat.
Qed.

Lemma file_lines_from source i :
  i < length (pieces source) →
  ∃ after, slice_from source (offset source i) = Some after ∧ str_lines after = drop i (str_lines source).
Proof.
  intros Hi. exists (concat (drop i (pieces source))). split.
  - unfold slice_from, offset. rewrite <-(split_inclusive_concat LF source) at 1.
    rewrite <-(take_drop i (pieces source)) at 1. by rewrite concat_app, split_at_app.
  - unfold str_lines. by rewrite pieces_drop, fmap_drop.
Qed.

(** Line [k] of the window and line [k] of the searched text. *)
Definition paired (source needle : str) (i : nat) (f n : str) : Prop :=
  ∃ k, str_lines source !! (i + k) = Some f ∧ str_lines needle !! k = Some n.

Lemma indentation_shift_spec source needle p i j m :
  i < j ≤ length (pieces source) → p = 3%N ∨ p = 4%N →
  placed (window_text source i j) needle (offset source i) p m →
  match indentation_shift source needle m with
  | Ok σ => ∀ f n, paired source needle i f n → visible f → visible n → shifted σ f n
  | Err e => e ≠ Panicked ∧
      ∀ σ, ¬ ∀ f n, paired source needle i f n → visible f → visible n → shifted σ f n
  end.
Proof.
  intros Hij Hp Hpl. destruct (placed_line_start _ _ _ _ _ _ Hij Hpl) as [Hb Hls].
  assert (pass m = p) as Hpm by (by destruct Hpl as (? & ? & ? & _ & _ & _ & -> & _)).
  unfold indentation_shift. replace (negb _) with false by (rewrite Hpm; by destruct Hp as [-> | ->]).
  rewrite Hls. cbn [mbind result_bind]. destruct (file_lines_from source i) as (after & Ha & Hl); [lia|].
  rewrite Ha. cbn [no_panic ok_or mbind result_bind]. rewrite Hl.
  set (pairs := zip _ _).
  assert (∀ σ, agree σ pairs ↔ ∀ f n, paired source needle i f n → visible f → visible n → shifted σ f n) as Hag.
  { intros σ. unfold agree. apply forall_proper. intros f. apply forall_proper. intros n.
    assert ((f, n) ∈ pairs ↔ paired source needle i f n) as ->; [|done].
    unfold pairs, paired. rewrite list_elem_of_lookup. apply exist_proper. intros k.
    rewrite lookup_zip_with_Some. split.
    - intros (? & ? & [= <- <-] & [Hf _]%lookup_take_Some & Hn). by rewrite lookup_drop in Hf.
    - intros [Hf Hn]. exists f, n. split_and!; [done| |done]. apply lookup_take_Some.
      rewrite lookup_drop. split; [done|]. by apply lookup_lt_Some in Hn. }
  pose proof (shift_loop_spec source (offset source i) 0 None pairs (offset_boundary source i)) as Hsl.
  destruct (shift_loop _ _ _ _ _) as [[σ|]|e]; simpl.
  - exact (proj1 (Hag _) (proj2 Hsl)).
  - exact (proj1 (Hag NoShift) (proj2 Hsl _)).
  - destruct Hsl as [He Hno]. split; [done|]. intros σ H%Hag. by apply (Hno σ); [left|].
Qed.

(** ** Error nodes in a region *)

Definition overlaps (start stop : N) (n : Node) : bool :=
  negb ((end_byte n <? start) || (stop <? start_byte n))%N.

(** An error reached from [n] through nodes that overlap the region and contain errors. *)
Inductive error_reached (start stop : N) : Node → Prop :=
  | reached_here n :
      overlaps start stop n = true → is_error n || is_missing n = true → error_reached start stop n
  | reached_below n c :
      overlaps start stop n = true → has_error n = true → c ∈ children n → error_reached start stop c →
      error_reached start stop n.

Lemma node_count_children n : node_count n = S (list_sum (node_count <$> children n)).
Proof. by destruct n. Qed.

Lemma list_sum_rev l : list_sum (rev l) = list_sum l.
Proof. induction l as [|x l IH]; simpl; [done|]. rewrite list_sum_app, IH. simpl. lia. Qed.

Lemma elem_of_list_rev {A} (x : A) l : x ∈ rev l ↔ x ∈ l.
Proof. rewrite !list_elem_of_In. symmetry. apply in_rev. Qed.
Lemma fmap_rev_eq {A B} (f : A → B) l : f <$> rev l = rev (f <$> l).
Proof. apply map_rev. Qed.

(** Fuel above the number of pending nodes is enough. *)
Lemma region_loop_spec fuel start stop pending :
  list_sum (node_count <$> pending) < fuel →
  region_loop fuel start stop pending = true ↔ ∃ n, n ∈ pending ∧ error_reached start stop n.
Proof.
  revert pending. induction fuel as [|fuel IH]; intros pending Hf; [lia|]. cbn [region_loop].
  destruct pending as [|n pending]; [split; [done|intros (? & ?%elem_of_nil & _); done]|].
  rewrite fmap_cons in Hf. simpl in Hf. rewrite node_count_children in Hf.
  assert (∀ P : Prop, (P ↔ error_reached start stop n ∨ ∃ m, m ∈ pending ∧ error_reached start stop m) →
    (P ↔ ∃ m, m ∈ n :: pending ∧ error_reached start stop m)) as Hcons.
  { intros P ->. split.
    - intros [H|(m & H1 & H2)]; [exists n|exists m]; split; done || by constructor.
    - intros (m & [->|H1]%elem_of_cons & H2); [by left|right; by exists m]. }
  apply Hcons. destruct (overlaps start stop n) eqn:Eo; unfold overlaps in Eo;
    [apply negb_true_iff in Eo|apply negb_false_iff in Eo]; rewrite Eo.
  2:{ rewrite IH by lia. split; [by right|]. intros [H|H]; [|done].
      inversion H; unfold overlaps in *; by rewrite Eo in *. }
  destruct (is_error n || is_missing n) eqn:Ee.
  { split; [|done]. intros _. left. apply reached_here; [unfold overlaps; by rewrite Eo|done]. }
  assert (error_reached start stop n ↔ has_error n = true ∧ ∃ c, c ∈ children n ∧ error_reached start stop c) as ->.
  { split; [intros H; inversion H; subst; [congruence|eauto]|].
    intros (H1 & c & H2 & H3). eapply reached_below; [unfold overlaps; by rewrite Eo|done|done|done]. }
  destruct (has_error n) eqn:Eh; rewrite IH.
  - setoid_rewrite elem_of_app. setoid_rewrite elem_of_list_rev. naive_solver.
  - rewrite fmap_app, list_sum_app, fmap_rev_eq, list_sum_rev. lia.
  - naive_solver.
  - lia.
Qed.

(** ** No panic *)

Definition valid (s : str) (m : FuzzyMatch) : Prop := boundary s (byte_start m) ∧ boundary s (match_end m).

(** Matches in order, the first not before [from]. *)
Fixpoint spaced (from : N) (ms : list FuzzyMatch) : Prop :=
  match ms with
  | [] => True
  | m :: ms => (from ≤ byte_start m)%N ∧ spaced (match_end m) ms
  end.

Lemma overlapping_false ms : overlapping ms = false ↔ spaced 0 ms.
Proof.
  unfold overlapping. destruct ms as [|m ms]; [done|]. simpl.
  assert (existsb (λ '(a, b), (byte_start b <? match_end a)%N) (zip (m :: ms) ms) = false ↔
    spaced (match_end m) ms) as ->; [|split; [intros; split; [lia|done]|by intros [_ ?]]].
  revert m. induction ms as [|m2 ms IH]; intros m; [done|].
  change (zip (m :: m2 :: ms) (m2 :: ms)) with ((m, m2) :: zip (m2 :: ms) ms). cbn [existsb spaced].
  rewrite orb_false_iff, IH, N.ltb_ge. done.
Qed.

(** A text cut at the matches: what is before each, the matched texts, and the rest. *)
Inductive spans : N → str → list FuzzyMatch → list str → list str → str → Prop :=
  | spans_nil pos s : spans pos s [] [] [] s
  | spans_cons pos gap body rest m ms gaps bodies tail :
      byte_start m = (pos + str_len gap)%N → byte_len m = str_len body →
      spans (match_end m) rest ms gaps bodies tail →
      spans pos (gap ++ body ++ rest) (m :: ms) (gap :: gaps) (body :: bodies) tail.

Definition weave (gaps bodies : list str) (tail : str) : str := concat (zip_with app gaps bodies) ++ tail.

Lemma spans_weave pos s ms gaps bodies tail : spans pos s ms gaps bodies tail → s = weave gaps bodies tail.
Proof.
  induction 1 as [|pos gap body rest m ms gaps bodies tail _ _ _ ->]; [done|]. unfold weave. simpl.
  by rewrite <-!app_assoc.
Qed.

Lemma str_len_bytes s : N.to_nat (str_len s) = length (as_bytes s).
Proof. unfold str_len. lia. Qed.

Lemma match_end_ge m : (byte_start m ≤ match_end m)%N.
Proof. unfold match_end. lia. Qed.

Lemma cut_match s before rest m :
  s = before ++ rest → valid s m → (str_len before ≤ byte_start m)%N →
  ∃ gap body rest', rest = gap ++ body ++ rest' ∧ byte_start m = (str_len before + str_len gap)%N ∧
    byte_len m = str_len body.
Proof.
  intros Hs [Hst Hen] Hle.
  destruct (boundary_slice s (str_len before) (byte_start m)) as [gap Hgap]; [by exists before, rest|done|done|].
  destruct (boundary_slice s (byte_start m) (match_end m)) as [body Hbody]; [done|done|apply match_end_ge|].
  apply slice_Some in Hgap as (g1 & g2 & Hg & Hg1 & Hg2), Hbody as (c1 & c2 & Hc & Hc1 & Hc2).
  rewrite Hs in Hg. apply app_str_len_inj in Hg as [-> Hrest]; [|done].
  exists gap, body, c2. rewrite Hrest in *.
  assert (g1 ++ gap ++ g2 = (g1 ++ gap) ++ g2) as Hass by apply app_assoc.
  rewrite Hs, Hass in Hc. apply app_str_len_inj in Hc as [Hc3 Hc4]; [|rewrite str_len_app; lia].
  split_and!; [by rewrite Hc4|done|unfold match_end in Hc2; lia].
Qed.

Section Safe.
Context {Path Lang : Type}.
Context (detect_language : Path → option Lang).
Context (parse_source : Path → str → Lang → option Tree).
Context (plan : ReindentPlan (Path := Path)).
Context (plan_valid : Forall (valid (source plan)) (matches plan)).

Lemma plan_lookup_valid i m : matches plan !! i = Some m → valid (source plan) m.
Proof. intros H. by eapply Forall_lookup_1 in H. Qed.

Lemma matched_text_safe i m : matches plan !! i = Some m → safe (matched_text plan i).
Proof.
  intros Hm. destruct (plan_lookup_valid i m Hm) as [Hs He]. unfold matched_text. rewrite Hm. simpl.
  destruct (line_start_safe _ _ Hs) as (ls & -> & Hb & Hle). simpl. apply safe_no_panic, boundary_slice; [done|done|].
  pose proof (match_end_ge m). lia.
Qed.

Lemma consumed_separator_safe stop :
  boundary (source plan) stop → ∃ b, consumed_separator plan stop = Ok b.
Proof. intros [x Hx]%boundary_to. unfold consumed_separator. rewrite Hx. by eexists. Qed.

Lemma insert_loop_spec ms text starts from indices :
  Forall2 (λ i m, matches plan !! i = Some m) indices ms → spaced from ms → boundary (source plan) from →
  ∃ text' starts', insert_loop plan text starts from indices = Ok (text', starts ++ starts') ∧
    length starts' = length indices ∧ (str_len text ≤ str_len text')%N ∧
    Forall (λ st, st + str_len (replacement plan) ≤ str_len text')%N starts'.
Proof.
  intros Hms. revert text starts from. induction Hms as [|i m indices ms Hm Hms IH]; intros text starts from Hsp Hb.
  - simpl. destruct (boundary_from _ _ Hb) as [x ->]. simpl. exists (text ++ x), [].
    rewrite app_nil_r, str_len_app. split_and!; [done|done|lia|constructor].
  - cbn [insert_loop]. destruct Hsp as [Hle Hsp], (plan_lookup_valid i m Hm) as [Hs He]. rewrite Hm. simpl.
    destruct (boundary_slice _ _ _ Hb Hs Hle) as [gap ->]. simpl.
    destruct (consumed_separator_safe _ He) as [b ->]. cbn [mbind result_bind].
    destruct (IH (if (b : bool) then ((text ++ gap) ++ replacement plan) ++ [LF] else (text ++ gap) ++ replacement plan)
      (starts ++ [str_len (text ++ gap)]) (match_end m) Hsp He) as (t' & st' & -> & Hl & Ht & Hf).
    exists t', (str_len (text ++ gap) :: st'). rewrite <-app_assoc.
    assert (str_len ((text ++ gap) ++ replacement plan) ≤ str_len t')%N as Hle'.
    { destruct b; [|done]. rewrite str_len_app in Ht. lia. }
    rewrite !str_len_app in Hle'. split_and!; [done|simpl; by f_equal|lia|].
    constructor; [rewrite str_len_app; lia|done].
Qed.

Lemma inside_loop_safe parse rs line offset ps :
  (offset + str_len (concat ps) ≤ str_len (parse_text parse))%N →
  safe (inside_loop parse rs line offset ps) ∧
  ∀ l, inside_loop parse rs line offset ps = Ok l → length l = length ps.
Proof.
  revert line offset. induction ps as [|piece ps IH]; intros line offset Hle; [split; [done|by intros l [= <-]]|].
  cbn [inside_loop]. simpl in Hle. rewrite str_len_app in Hle.
  destruct (IH (S line) (offset + str_len piece)%N ltac:(lia)) as [Hsafe Hlen].
  set (first := if (offset =? 0)%N then _ else _).
  assert (∃ b, first = Ok b) as [b ->].
  { unfold first. destruct (N.eqb_spec offset 0); [by eexists|].
    destruct (lookup_lt_is_Some_2 (as_bytes (parse_text parse)) (N.to_nat (offset - 1))) as [x Hx].
    { rewrite <-str_len_bytes. lia. }
    rewrite Hx. by eexists. }
  cbn [mbind result_bind]. set (here := if _ || _ then _ else _).
  assert (safe here) as Hh.
  { unfold here. destruct (_ || _); [done|]. destruct (string_literal_at_line_start _ _); [|done]. by destruct (_ <? _)%N. }
  destruct here as [h|e]; simpl; [|split; [|done]; by intros [= ->]].
  destruct (inside_loop _ _ _ _ _) as [rest|e]; simpl; [|split; [|done]; by intros [= ->]].
  split; [done|]. intros l [= <-]. simpl. f_equal. by apply Hlen.
Qed.

Lemma lines_inside_safe i m :
  matches plan !! i = Some m →
  safe (lines_inside_new_strings detect_language parse_source plan i) ∧
  ∀ l, lines_inside_new_strings detect_language parse_source plan i = Ok l →
    length l = length (split_inclusive LF (replacement plan)).
Proof.
  intros Hm. unfold lines_inside_new_strings. destruct (path plan) as [p|] eqn:Ep.
  2:{ split; [done|]. intros l [= <-]. apply length_replicate. }
  pose proof (matched_text_safe i m Hm) as Hs. destruct (matched_text plan i) as [mt|e]; simpl.
  2:{ split; [|done]. by intros [= ->]. }
  destruct (detect_language p) as [lang|].
  2:{ destruct (_ || _); (split; [done|]); [done|]. intros l [= <-]. apply length_replicate. }
  set (local := has_string_delimiter _ || _).
  destruct (negb local && _); [split; [done|]; intros l [= <-]; apply length_replicate|].
  set (choice := if overlapping _ then _ else _).
  assert (∃ ms, Forall2 (λ i m, matches plan !! i = Some m) choice.1 ms ∧ spaced 0 ms ∧ choice.2 < length choice.1)
    as (ms & Hms & Hsp & Hslot).
  { unfold choice. destruct (overlapping (matches plan)) eqn:Eo; simpl.
    - exists [m]. split_and!; [by repeat constructor|split; [lia|done]|lia].
    - exists (matches plan). rewrite length_seq. split_and!; [|by apply overlapping_false|by apply lookup_lt_Some in Hm].
      apply Forall2_same_length_lookup_2; [by rewrite length_seq|].
      intros k a b [-> _]%lookup_seq. simpl. done. }
  destruct choice as [indices slot]. simpl in Hms, Hslot. unfold parse_with_replacements. rewrite Ep.
  destruct (insert_loop_spec ms [] [] 0 indices Hms Hsp (boundary_0 _)) as (text & starts & -> & Hlen & _ & Hf).
  simpl. destruct (parse_source p text lang) as [tree|]; simpl.
  2:{ destruct local; (split; [done|]); [done|]. intros l [= <-]. apply length_replicate. }
  destruct (lookup_lt_is_Some_2 starts slot) as [st Hst]; [lia|]. rewrite Hst. simpl.
  destruct (local && _); [split; done|]. apply inside_loop_safe. simpl. rewrite split_inclusive_concat.
  exact (Forall_lookup_1 _ _ _ _ Hf Hst).
Qed.

(** *** The shifted lines *)

(** [out] writes [ps] line by line, moved by [σ] except blank lines, lines in strings and, when
    text is added, the first line, which already follows it in the file. *)
Definition moved (σ : IndentShift) (line : nat) (in_string : list bool) (ps out : list str) : Prop :=
  length out = length ps ∧
  ∀ k piece o b, ps !! k = Some piece → out !! k = Some o → in_string !! (line + k) = Some b →
    if (b : bool) || blank_line piece then o = piece
    else match σ with
         | NoShift => o = piece
         | Add p => o = (if line + k =? 0 then piece else p ++ piece)
         | Remove p => piece = p ++ o
         end.

Lemma moved_cons σ line in_string piece ps o out :
  moved σ line in_string [piece] [o] → moved σ (S line) in_string ps out →
  moved σ line in_string (piece :: ps) (o :: out).
Proof.
  intros [_ H1] [Hl H2]. split; [simpl; by f_equal|]. intros [|k] x y b Hx Hy Hb.
  - by apply (H1 0).
  - rewrite Nat.add_succ_r in Hb |- *. by apply (H2 k).
Qed.

Lemma moved_one σ line in_string piece o :
  (∀ b, in_string !! line = Some b →
    if (b : bool) || blank_line piece then o = piece
    else match σ with
         | NoShift => o = piece
         | Add p => o = (if line =? 0 then piece else p ++ piece)
         | Remove p => piece = p ++ o
         end) → moved σ line in_string [piece] [o].
Proof.
  intros H. split; [done|]. intros [|k] x y b Hx Hy Hb; [|done]. injection Hx as <-. injection Hy as <-.
  rewrite Nat.add_0_r in Hb |- *. by apply H.
Qed.

Lemma add_prefix_spec p line ps in_string :
  line + length ps ≤ length in_string →
  ∃ out, add_prefix p line ps in_string = Ok (concat out) ∧ moved (Add p) line in_string ps out.
Proof.
  revert line. induction ps as [|piece ps IH]; intros line Hl; [exists []; split; [done|]; by split|].
  simpl in Hl. destruct (IH (S line) ltac:(lia)) as (out & Hout & Hm). cbn [add_prefix].
  destruct (lookup_lt_is_Some_2 in_string line ltac:(lia)) as [b Hb].
  assert (∃ skip, (if (line =? 0) || blank_line piece then Ok true else no_panic (in_string !! line)) = Ok skip ∧
    moved (Add p) line in_string [piece] [(if skip then [] else p) ++ piece]) as (skip & -> & Hone).
  { destruct (line =? 0) eqn:E0; simpl.
    - exists true. split; [done|]. apply moved_one. intros b' _. rewrite E0. by destruct (_ || _).
    - destruct (blank_line piece) eqn:E1.
      + exists true. split; [done|]. apply moved_one. intros b' _. by rewrite E1, orb_true_r.
      + rewrite Hb. exists b. split; [done|]. apply moved_one. intros b' Hb'. assert (b' = b) as -> by congruence.
        rewrite E0, E1. by destruct b. }
  cbn [mbind result_bind]. rewrite Hout. cbn [mbind result_bind].
  exists (((if skip then [] else p) ++ piece) :: out). split; [simpl; by rewrite <-app_assoc|].
  by apply moved_cons.
Qed.

Lemma remove_prefix_spec p line ps in_string :
  line + length ps ≤ length in_string →
  safe (remove_prefix p line ps in_string) ∧
  ∀ r, remove_prefix p line ps in_string = Ok r →
    ∃ out, r = concat out ∧ moved (Remove p) line in_string ps out.
Proof.
  revert line. induction ps as [|piece ps IH]; intros line Hl.
  { split; [done|]. intros r [= <-]. exists []. split; [done|]. by split. }
  simpl in Hl. destruct (IH (S line) ltac:(lia)) as [Hs Hr]. cbn [remove_prefix].
  destruct (lookup_lt_is_Some_2 in_string line ltac:(lia)) as [b Hb].
  set (keep := if blank_line piece then _ else _).
  assert (keep = Ok (blank_line piece || b)) as ->.
  { unfold keep. destruct (blank_line piece); [done|]. by rewrite Hb. }
  cbn [mbind result_bind]. set (new := if _ : bool then _ else _).
  assert (safe new ∧ ∀ o, new = Ok o → moved (Remove p) line in_string [piece] [o]) as [Hns Hnm].
  { unfold new. destruct (blank_line piece || b) eqn:E.
    - split; [done|]. intros o [= <-]. apply moved_one. intros b' Hb'. assert (b' = b) as -> by congruence.
      by rewrite orb_comm, E.
    - destruct (strip_prefix p piece) as [rest|] eqn:E2; (split; [done|]); [|done]. intros o [= <-].
      apply moved_one. intros b' Hb'. assert (b' = b) as -> by congruence. rewrite orb_comm, E.
      by apply strip_prefix_Some in E2. }
  destruct new as [o|e]; simpl; [|split; [by intros [= ->]|done]].
  destruct (remove_prefix p (S line) ps in_string) as [rest|e]; simpl; [|split; [by intros [= ->]|done]].
  split; [done|]. intros r [= <-]. destruct (Hr rest eq_refl) as (out & -> & Hm).
  exists (o :: out). split; [done|]. apply moved_cons; auto.
Qed.

Lemma indentation_shift_safe s n m : boundary s (byte_start m) → safe (indentation_shift s n m).
Proof.
  intros Hb. unfold indentation_shift. destruct (negb _); [done|].
  destruct (line_start_safe _ _ Hb) as (ls & -> & Hls & _). simpl.
  destruct (boundary_from _ _ Hls) as [after ->]. simpl. set (pairs := zip _ _).
  pose proof (shift_loop_spec s ls 0 None pairs Hls) as H. destruct (shift_loop _ _ _ _ _) as [sh|e]; [done|].
  intros [= ->]. by destruct H.
Qed.

(** The text before the match on its first line. *)
Definition before_match (m : FuzzyMatch) (before : str) : Prop :=
  ∃ ls, line_start_at (source plan) (byte_start m) = Ok ls ∧ slice (source plan) ls (byte_start m) = Some before.

(** The replacement [r] of a match, moved by the shift [σ]. *)
Definition moved_by (σ : IndentShift) (i : nat) (m : FuzzyMatch) (r : str) : Prop :=
  match σ with
  | NoShift => r = replacement plan
  | Add p | Remove p =>
      before_match m (match σ with Add p => p | _ => [] end) ∧
      ∃ in_string out, lines_inside_new_strings detect_language parse_source plan i = Ok in_string ∧
        r = concat out ∧ moved σ 0 in_string (split_inclusive LF (replacement plan)) out
  end.

Definition moved_text (i : nat) (m : FuzzyMatch) (r : str) : Prop :=
  ∃ σ, indentation_shift (source plan) (needle plan) m = Ok σ ∧ moved_by σ i m r.

Lemma replacement_for_spec i m :
  matches plan !! i = Some m →
  safe (replacement_for detect_language parse_source plan i) ∧
  ∀ r, replacement_for detect_language parse_source plan i = Ok r → moved_text i m r.
Proof.
  intros Hm. destruct (plan_lookup_valid i m Hm) as [Hs _]. unfold replacement_for, moved_text, moved_by. rewrite Hm. simpl.
  pose proof (indentation_shift_safe (source plan) (needle plan) m Hs) as Hsh.
  destruct (indentation_shift (source plan) (needle plan) m) as [σ|e]; simpl; [|split; [by intros [= ->]|done]].
  destruct (lines_inside_safe i m Hm) as [Hin Hlen]. destruct (line_start_safe _ _ Hs) as (ls & Hls & Hb & Hle).
  destruct (boundary_slice _ _ _ Hb Hs Hle) as [before Hbef].
  destruct σ as [|p|p]; [split; [done|]; intros r [= <-]; by exists NoShift| |];
    (destruct (lines_inside_new_strings _ _ plan i) as [ins|e]; simpl; [|split; [by intros [= ->]|done]]);
    rewrite Hls; simpl; rewrite Hbef; simpl.
  - case_bool_decide as Hp; [split; done|]. assert (before = p) as -> by (by destruct (decide (before = p))).
    destruct (add_prefix_spec p 0 (split_inclusive LF (replacement plan)) ins) as (out & -> & Hmv).
    { by rewrite (Hlen ins eq_refl). }
    split; [done|]. intros r [= <-]. exists (Add p). split_and!; [done|by exists ls|by exists ins, out].
  - case_bool_decide as Hp; simpl; [|split; done]. subst before.
    destruct (remove_prefix_spec p 0 (split_inclusive LF (replacement plan)) ins) as [H1 H2].
    { by rewrite (Hlen ins eq_refl). }
    split; [done|]. intros r Hr. destruct (H2 r Hr) as (out & -> & Hmv).
    exists (Remove p). split_and!; [done|by exists ls|by exists ins, out].
Qed.

(** *** The line break behind a match *)

(** Only blanks separate the end of the match from a line break. *)
Definition break_follows (m : FuzzyMatch) : Prop :=
  ∃ before blanks rest, source plan = before ++ blanks ++ rest ∧ match_end m = str_len before ∧
    Forall (λ c, c = SPACE ∨ c = TAB) blanks ∧ (head rest = Some LF ∨ take 2 rest = [CR; LF]).

(** The match ends with a line break. *)
Definition break_matched (m : FuzzyMatch) : Prop :=
  ∃ before after, source plan = before ++ [LF] ++ after ∧ match_end m = str_len (before ++ [LF]).

(** What is written for the moved replacement [r]: as it is, but over a loose match the line
    break at its end goes when the file has one behind the match, and one is added when the
    match took the file's. *)
Inductive terminated (m : FuzzyMatch) (r : str) : str → Prop :=
  | break_dropped body line_break :
      (1 < pass m)%N → break_follows m → r = body ++ line_break →
      line_break = [CR; LF] ∨ line_break = [LF] ∧ last body ≠ Some CR → terminated m r body
  | break_restored :
      (1 < pass m)%N → break_matched m → r ≠ [] → last r ≠ Some LF → terminated m r (r ++ [LF])
  | break_kept :
      (pass m ≤ 1)%N ∨ last r = Some LF ∧ ¬ break_follows m
      ∨ last r ≠ Some LF ∧ (r = [] ∨ ¬ break_matched m) → terminated m r r.

Lemma last_LF_byte (s : str) : last (as_bytes s) = Some LF ↔ last s = Some LF.
Proof.
  induction s as [|c s _] using rev_ind; [done|]. rewrite last_snoc.
  assert (as_bytes (s ++ [c]) = as_bytes s ++ utf8_char c) as ->
    by (unfold as_bytes; rewrite bind_app; simpl; by rewrite app_nil_r).
  split.
  - intros Hl. rewrite last_app in Hl. destruct (last (utf8_char c)) as [b|] eqn:E.
    + injection Hl as ->. f_equal. apply elem_of_utf8_char_ascii; [done|]. by apply last_Some_elem_of.
    + apply last_None in E. pose proof (utf8_char_length c) as H. rewrite E in H. simpl in H. lia.
  - intros [= ->]. by rewrite utf8_char_ascii, last_snoc.
Qed.

Lemma restores_newline_spec m r :
  boundary (source plan) (match_end m) →
  fuzzy_replacement_restores_newline (source plan) m r = true ↔
  (1 < pass m)%N ∧ break_matched m ∧ r ≠ [] ∧ last r ≠ Some LF.
Proof.
  intros (before & after & Hs & He). unfold fuzzy_replacement_restores_newline, break_matched.
  rewrite !andb_true_iff, !negb_true_iff, !bool_decide_eq_false, bool_decide_eq_true, !N.leb_le, N.ltb_lt.
  assert (ends_with [LF] r = false ↔ last r ≠ Some LF) as ->.
  { rewrite <-not_true_iff_false, ends_with_true, last_Some. done. }
  assert ((0 < match_end m)%N ∧ (match_end m ≤ str_len (source plan))%N
    ∧ as_bytes (source plan) !! N.to_nat (match_end m - 1) = Some LF
    ↔ ∃ before after, source plan = before ++ [LF] ++ after ∧ match_end m = str_len (before ++ [LF])) as Hb.
  { split.
    - intros (H1 & H2 & H3). rewrite He, Hs in H3. unfold as_bytes in H3. rewrite bind_app in H3.
      change (before ≫= utf8_char) with (as_bytes before) in H3.
      pose proof (str_len_bytes before) as Hlen. rewrite lookup_app_l in H3 by lia.
      replace (N.to_nat (str_len before - 1)) with (pred (length (as_bytes before))) in H3 by lia.
      rewrite <-last_lookup in H3. apply last_LF_byte, last_Some in H3 as [b ->].
      exists b, after. by rewrite Hs, <-app_assoc.
    - intros (b & a & Hs' & He'). rewrite Hs', He'. pose proof (str_len_bytes (b ++ [LF])) as Hlen.
      rewrite app_assoc, (str_len_app (b ++ [LF]) a).
      assert (0 < str_len (b ++ [LF]))%N as Hpos by (rewrite str_len_app, str_len_singleton, len_utf8_LF; lia).
      split_and!; [done|lia|]. unfold as_bytes. rewrite bind_app. change ((b ++ [LF]) ≫= utf8_char) with (as_bytes (b ++ [LF])).
      rewrite lookup_app_l by lia.
      replace (N.to_nat (str_len (b ++ [LF]) - 1)) with (pred (length (as_bytes (b ++ [LF])))) by lia.
      rewrite <-last_lookup. apply last_LF_byte, last_snoc. }
  rewrite <-Hb. assert ((2 ≤ pass m)%N ↔ (1 < pass m)%N) as -> by lia. tauto.
Qed.

Lemma separator_spec m after :
  slice_from (source plan) (match_end m) = Some after →
  starts_with [LF] (skip_blanks after) || starts_with [CR; LF] (skip_blanks after) = true ↔ break_follows m.
Proof.
  intros Ha. unfold slice_from in Ha. apply fmap_Some in Ha as ([before after'] & [Hs He]%split_at_Some & ->). simpl.
  rewrite orb_true_iff, !starts_with_true. split.
  - intros Hn. destruct (drop_while_suffix (λ c, (c =? SPACE) || (c =? TAB))%N after') as (blanks & Hb & Hall).
    fold (skip_blanks after') in Hb. exists before, blanks, (skip_blanks after').
    split_and!; [by rewrite Hs, <-Hb|done| |].
    + eapply Forall_impl; [exact Hall|]. intros c [H|H]%orb_true_iff; apply N.eqb_eq in H; auto.
    + destruct Hn as [[k ->]|[k ->]]; [by left|by right].
  - intros (before2 & blanks & rest & Hs2 & He2 & Hall & Hr).
    assert (before2 = before ∧ after' = blanks ++ rest) as [-> ->].
    { rewrite Hs in Hs2. rewrite He in He2. apply app_eq_inv in Hs2 as [(k & -> & ->)|(k & -> & ->)];
        rewrite str_len_app in He2; assert (k = []) as -> by (apply str_len_zero; lia); by rewrite app_nil_r. }
    assert (skip_blanks (blanks ++ rest) = rest) as ->.
    { clear -Hall Hr. unfold skip_blanks. induction Hall as [|c blanks Hc _ IH]; simpl.
      - apply drop_while_id. intros c Hc. destruct rest as [|x rest]; [done|]. injection Hc as ->.
        destruct Hr as [[= ->]|Hr]; [done|]. by injection Hr as -> _.
      - by destruct Hc as [->| ->]. }
    destruct rest as [|x rest]; [by destruct Hr|]. destruct Hr as [[= ->]|Hr].
    + left. by exists rest.
    + right. destruct rest as [|y rest]; [done|]. injection Hr as -> ->. by exists rest.
Qed.

(** What is written over a match. *)
Definition shift_fits (m : FuzzyMatch) (σ : IndentShift) : Prop :=
  (pass m ≠ 3 → pass m ≠ 4 → σ = NoShift)%N ∧
  ∀ i j, (pass m = 3 ∨ pass m = 4)%N → i < j ≤ length (split_inclusive LF (source plan)) →
    FuzzySpec.placed (window_text (source plan) i j) (needle plan) (offset (source plan) i) (pass m) m →
    ∀ f n, paired (source plan) (needle plan) i f n →
      has_reflow_content f = true → has_reflow_content n = true → shifted σ f n.

Definition written_over (i : nat) (m : FuzzyMatch) (t : str) : Prop :=
  ∃ σ r, indentation_shift (source plan) (needle plan) m = Ok σ ∧ shift_fits m σ ∧
    moved_by σ i m r ∧ terminated m r t.

Lemma indentation_shift_fits m σ :
  indentation_shift (source plan) (needle plan) m = Ok σ → shift_fits m σ.
Proof.
  intros Hσ. split.
  - intros H3 H4. unfold indentation_shift in Hσ. replace (negb _) with true in Hσ; [by injection Hσ|].
    symmetry. apply negb_true_iff, orb_false_iff. by split; apply N.eqb_neq.
  - intros i j Hp Hij Hpl. pose proof (indentation_shift_spec _ _ _ _ _ _ Hij Hp Hpl) as H. by rewrite Hσ in H.
Qed.

Lemma push_terminated m r t after :
  valid (source plan) m → slice_from (source plan) (match_end m) = Some after →
  (let remaining := skip_blanks after in
   let separator_is_outside :=
     (1 <? pass m)%N && (starts_with [LF] remaining || starts_with [CR; LF] remaining) in
   let body :=
     if separator_is_outside && ends_with [LF] r
     then match strip_suffix [CR; LF] r with
          | Some r => r
          | None => take (length r - 1) r
          end
     else r in
   t = body ++ if fuzzy_replacement_restores_newline (source plan) m r then [LF] else []) →
  terminated m r t.
Proof.
  intros [_ He] Ha. cbv zeta. pose proof (separator_spec m after Ha) as Hsep.
  pose proof (restores_newline_spec m r He) as Hres.
  set (follows := starts_with [LF] _ || _) in *. set (restores := fuzzy_replacement_restores_newline _ _ _) in *.
  destruct (N.ltb_spec 1 (pass m)) as [Hp|Hp]; simpl.
  2:{ intros ->. destruct restores; [by destruct (proj1 Hres eq_refl) as [? _]; lia|]. rewrite app_nil_r.
      apply break_kept. by left. }
  destruct (ends_with [LF] r) eqn:El.
  - apply ends_with_true in El as [q ->]. assert (restores = false) as ->.
    { destruct restores; [|done]. destruct (proj1 Hres eq_refl) as (_ & _ & _ & H). by rewrite last_snoc in H. }
    rewrite !app_nil_r, andb_true_r. destruct follows.
    + intros ->. destruct (strip_suffix [CR; LF] (q ++ [LF])) as [q'|] eqn:Eq.
      * apply strip_suffix_Some in Eq. rewrite Eq. by eapply break_dropped; [|apply Hsep| |left].
      * rewrite length_app. simpl. rewrite Nat.add_sub, take_app_length.
        eapply break_dropped; [done|by apply Hsep|done|]. right. split; [done|]. intros [q'' ->]%last_Some.
        rewrite <-app_assoc in Eq. by rewrite (proj2 (strip_suffix_Some [CR; LF] _ q'') eq_refl) in Eq.
    + intros ->. apply break_kept. right. left. rewrite last_snoc. split; [done|]. by intros ?%Hsep.
  - rewrite andb_false_r. assert (last r ≠ Some LF) as Hl.
    { intros [q ->]%last_Some. by rewrite (proj2 (ends_with_true [LF] _)) in El by (by exists q). }
    destruct restores.
    + intros ->. destruct (proj1 Hres eq_refl) as (? & ? & ? & ?). by apply break_restored.
    + rewrite app_nil_r. intros ->. apply break_kept. right. right. split; [done|].
      destruct (decide (r = [])) as [->|Hne]; [by left|]. right. intros Hb.
      assert (false = true) by (by apply Hres). done.
Qed.

Lemma push_safe i m :
  matches plan !! i = Some m →
  safe (push_fuzzy_replacement detect_language parse_source plan i) ∧
  ∀ t, push_fuzzy_replacement detect_language parse_source plan i = Ok t → written_over i m t.
Proof.
  intros Hm. pose proof (plan_lookup_valid i m Hm) as Hv. unfold push_fuzzy_replacement. rewrite Hm. cbn [no_panic ok_or mbind result_bind].
  destruct (replacement_for_spec i m Hm) as [Hs Hr].
  destruct (replacement_for detect_language parse_source plan i) as [r|e]; cbn [mbind result_bind]; [|split; [by intros [= ->]|done]].
  destruct (boundary_from _ _ (proj2 Hv)) as [after Ha]. rewrite Ha. cbn [no_panic ok_or mbind result_bind].
  split; [done|]. intros t Ht. destruct (Hr r eq_refl) as (σ & Hσ & Hmv). exists σ, r.
  split_and!; [done|by apply indentation_shift_fits|done|]. eapply push_terminated; [done|done|]. by injection Ht.
Qed.

(** *** The copying loop *)

Lemma apply_loop_spec output copied index ms before rest :
  source plan = before ++ rest → copied = str_len before → spaced copied ms →
  (∀ k m, ms !! k = Some m → matches plan !! (index + k) = Some m) →
  safe (apply_loop detect_language parse_source plan output copied index ms) ∧
  ∀ r, apply_loop detect_language parse_source plan output copied index ms = Ok r →
    ∃ gaps bodies news tail, spans copied rest ms gaps bodies tail ∧ length news = length ms ∧
      (∀ k m t, ms !! k = Some m → news !! k = Some t → written_over (index + k) m t) ∧
      r = output ++ weave gaps news tail.
Proof.
  revert output copied index before rest.
  induction ms as [|m ms IH]; intros output copied index before rest Hs -> Hsp Hms; cbn [apply_loop].
  - assert (slice_from (source plan) (str_len before) = Some rest) as ->.
    { unfold slice_from. by rewrite Hs, split_at_app. }
    split; [done|]. intros r [= <-]. exists [], [], [], rest. split_and!; [constructor|done|done|done].
  - destruct Hsp as [Hle Hsp]. assert (matches plan !! index = Some m) as Hm.
    { rewrite <-(Nat.add_0_r index). by apply Hms. }
    destruct (cut_match _ _ _ _ Hs (plan_lookup_valid index m Hm) Hle) as (gap & body & rest' & -> & Hst & Hln).
    assert (slice (source plan) (str_len before) (byte_start m) = Some gap) as ->.
    { rewrite Hs, Hst. apply slice_app. }
    simpl. destruct (push_safe index m Hm) as [Hps Hpw].
    destruct (push_fuzzy_replacement _ _ plan index) as [pushed|e]; simpl; [|split; [by intros [= ->]|done]].
    assert (match_end m = str_len (before ++ gap ++ body)) as Hend.
    { unfold match_end. rewrite !str_len_app. lia. }
    destruct (IH (output ++ gap ++ pushed) (match_end m) (S index) (before ++ gap ++ body) rest') as [Hsafe Hok].
    + by rewrite Hs, <-!app_assoc.
    + done.
    + done.
    + intros k m' Hk. rewrite Nat.add_succ_l, <-Nat.add_succ_r. by apply Hms.
    + split; [done|]. intros r Hr. destruct (Hok r Hr) as (gaps & bodies & news & tail & Hspan & Hlen & Hw & ->).
      exists (gap :: gaps), (body :: bodies), (pushed :: news), tail.
      split_and!; [by constructor|simpl; by f_equal| |].
      { intros [|k] m' t; simpl; [intros [= <-] [= <-]; rewrite Nat.add_0_r; by apply Hpw|].
        intros Hk Ht. rewrite Nat.add_succ_r, <-Nat.add_succ_l. by apply Hw. } unfold weave. simpl. by rewrite <-!app_assoc.
Qed.

End Safe.

(** ** The command *)

Lemma located_valid s n m : located s n m → valid s m.
Proof.
  intros [(pre & body & post & -> & Hs & Hl & _) _]. unfold valid, match_end. rewrite Hs, Hl. split.
  - by exists pre, (body ++ post).
  - exists (pre ++ body), post. by rewrite <-app_assoc, str_len_app.
Qed.

Lemma validate_valid s m : valid s m → validate_byte_range s (byte_start m) (match_end m) = Ok tt.
Proof.
  intros [Hs He]. unfold validate_byte_range. pose proof (match_end_ge m). pose proof (boundary_len _ _ He).
  destruct (N.ltb_spec (match_end m) (byte_start m)); [lia|].
  destruct (N.ltb_spec (str_len s) (match_end m)); [lia|].
  by rewrite (boundary_is _ _ Hs), (boundary_is _ _ He).
Qed.

Lemma validate_all s ms : Forall (valid s) ms →
  ∃ u, mapM (λ m, validate_byte_range s (byte_start m) (match_end m)) ms = Ok u.
Proof.
  induction 1 as [|m ms Hm _ [u Hu]]; [by exists []|]. cbn [mapM]. rewrite validate_valid by done. simpl.
  rewrite Hu. by eexists.
Qed.

Lemma listing_total s positions :
  Forall (boundary s) positions → is_Some (render_occurrence_listing s positions).
Proof.
  intros Hp. unfold render_occurrence_listing. set (entry := λ '(index, position), _).
  assert (is_Some (mapM entry (imap pair (take AMBIGUOUS_OCCURRENCE_LIST_LIMIT positions)))) as [l ->];
    [|by eexists].
  apply mapM_is_Some_2, Forall_forall. intros [k pos] (i & x & [= -> ->] & Hi)%elem_of_lookup_imap.
  apply lookup_take_Some in Hi as [Hi _]. unfold entry. simpl.
  destruct (boundary_to s x (Forall_lookup_1 _ _ _ _ Hp Hi)) as [before ->]. by eexists.
Qed.

(** The matches an edit replaces. *)
Definition chosen (found : list FuzzyMatch) (raw_occurrence : option (option N)) (replace_all : bool)
    (ms : list FuzzyMatch) : Prop :=
  if replace_all then ms = found
  else ∃ m, ms = [m] ∧
    match raw_occurrence with
    | Some (Some n) => found !! N.to_nat (n - 1) = Some m ∧ (1 ≤ n)%N
    | Some None => False
    | None => found = [m]
    end.

(** The match a valid selector names. *)
Lemma chosen_lookup (found : list FuzzyMatch) raw occ :
  parse_occurrence raw = Ok occ → found ≠ [] →
  match occ with Some k => k < length found | None => True end → (occ = None → length found ≤ 1) →
  ∃ m, found !! default 0 occ = Some m ∧
    match raw with
    | Some (Some n) => found !! N.to_nat (n - 1) = Some m ∧ (1 ≤ n)%N
    | Some None => False
    | None => found = [m]
    end.
Proof.
  intros Hp Hne Hlt Hone. destruct raw as [[[|n]|]|]; try done.
  - unfold parse_occurrence in Hp. destruct (_ <=? _)%N; [|done]. injection Hp as <-.
    destruct (lookup_lt_is_Some_2 found _ Hlt) as [m Hm]. exists m. split_and!; [done|done|lia].
  - injection Hp as <-. specialize (Hone eq_refl). destruct found as [|m [|]]; [done| |simpl in Hone; lia].
    by exists m.
Qed.

(** *** The shift is white space *)

Lemma leading_whitespace_split l : leading_whitespace l ++ trim_start l = l ∧ blank (leading_whitespace l).
Proof.
  unfold leading_whitespace, trim_start. destruct (drop_while_suffix is_whitespace l) as (k & Hk & Hb).
  assert (take (length l - length (drop_while is_whitespace l)) l = k) as ->.
  { rewrite Hk at 1 3. rewrite length_app. replace (_ + _ - _) with (length k) by lia. apply take_app_length. }
  done.
Qed.

Lemma leading_whitespace_app p l : blank p → leading_whitespace (p ++ l) = p ++ leading_whitespace l.
Proof.
  intros Hp. unfold leading_whitespace. assert (trim_start (p ++ l) = trim_start l) as ->.
  { unfold trim_start. induction Hp as [|c p Hc _ IH]; simpl; [done|]. by rewrite Hc. }
  rewrite length_app. assert (length (trim_start l) ≤ length l).
  { unfold trim_start. destruct (drop_while_suffix is_whitespace l) as (k & Hk & _).
    rewrite Hk at 2. rewrite length_app. lia. }
  rewrite take_app_ge by lia. do 2 f_equal. lia.
Qed.

Definition shift_prefix (σ : IndentShift) : str := match σ with NoShift => [] | Add p | Remove p => p end.

Definition proper_shift (σ : IndentShift) : Prop := blank (shift_prefix σ) ∧ (σ = NoShift ∨ shift_prefix σ ≠ []).

Lemma shift_loop_proper s ls offset sh pairs σ :
  match sh with Some τ => proper_shift τ | None => True end →
  shift_loop s ls offset sh pairs = Ok (Some σ) → proper_shift σ.
Proof.
  revert offset sh. induction pairs as [|[f n] pairs IH]; intros offset sh Hsh; cbn [shift_loop].
  { by intros [= ->]. }
  destruct (_ || _); [by apply IH|]. destruct (line_shift f n) as [τ|] eqn:E.
  2:{ by destruct (file_line s ls offset). }
  assert (proper_shift τ) as Hτ.
  { apply line_shift_Some in E. destruct (leading_whitespace_split f) as [_ Hf], (leading_whitespace_split n) as [_ Hn].
    destruct τ as [|p|p]; [split; [constructor|by left]| |]; destruct E as [Hp E]; (split; [|by right]).
    - rewrite E in Hf. by apply Forall_app in Hf as [? _].
    - rewrite E in Hn. by apply Forall_app in Hn as [? _]. }
  destruct sh as [τ'|]; [|by apply IH]. case_bool_decide; [by destruct (file_line s ls offset)|by apply IH].
Qed.

Lemma shift_proper s n m σ : indentation_shift s n m = Ok σ → proper_shift σ.
Proof.
  assert (proper_shift NoShift) as Hno by (split; [constructor|by left]).
  unfold indentation_shift. destruct (negb _); [by intros [= <-]|].
  intros (ls & _ & (after & _ & (sh & Hsh & [= <-])%bind_Ok)%bind_Ok)%bind_Ok.
  destruct sh as [σ|]; [|done]. by eapply shift_loop_proper in Hsh.
Qed.

(** What [moved] lines look like in the file. *)
Lemma moved_add p in_string ps out :
  proper_shift (Add p) → ps ≠ [] → moved (Add p) 0 in_string ps out →
  ∃ written, p ++ concat out = concat written ∧ length written = length ps ∧
    ∀ k piece w, ps !! k = Some piece → written !! k = Some w → in_string !! k = Some false →
      visible piece → shifted (Add p) w piece.
Proof.
  intros [Hb [|Hp]] Hne [Hlen Hmv]; [done|]. destruct out as [|o out]; [by destruct ps|].
  exists ((p ++ o) :: out). split_and!; [simpl; by rewrite <-app_assoc|done|].
  intros k piece w Hk Hw Hin Hv%blank_line_visible.
  assert (w = p ++ piece) as ->.
  { destruct k as [|k]; simpl in Hw.
    - injection Hw as <-. pose proof (Hmv 0 piece o false Hk eq_refl Hin) as H. rewrite Hv in H. simpl in H. by subst.
    - pose proof (Hmv (S k) piece w false Hk Hw Hin) as H. by rewrite Hv in H. }
  split; [done|]. by apply leading_whitespace_app.
Qed.

Lemma moved_remove p in_string ps out :
  proper_shift (Remove p) → moved (Remove p) 0 in_string ps out →
  ∀ k piece w, ps !! k = Some piece → out !! k = Some w → in_string !! k = Some false →
    visible piece → shifted (Remove p) w piece.
Proof.
  intros [Hb [|Hp]] [Hlen Hmv] k piece w Hk Hw Hin Hv%blank_line_visible; [done|].
  pose proof (Hmv k piece w false Hk Hw Hin) as H. rewrite Hv in H. simpl in H. subst piece.
  split; [done|]. by apply leading_whitespace_app.
Qed.

Section Command.
Context {Path Lang : Type}.
Context (detect_language : Path → option Lang).
Context (parse_source : Path → str → Lang → option Tree).

Lemma apply_sorted_spec source ms needle replacement path :
  Forall (valid source) ms → spaced 0 ms →
  let run := apply_sorted_non_overlapping_fuzzy_matches detect_language parse_source source ms needle
               replacement path in
  safe run ∧
  ∀ r, run = Ok r → ∃ gaps bodies news tail, spans 0 source ms gaps bodies tail ∧ length news = length ms ∧
    (∀ k m t, ms !! k = Some m → news !! k = Some t →
       written_over detect_language parse_source (MkPlan source needle replacement path ms) k m t) ∧
    r = weave gaps news tail.
Proof.
  intros Hval Hsp run. unfold run, apply_sorted_non_overlapping_fuzzy_matches.
  destruct (validate_all source ms Hval) as [u ->]. simpl.
  by apply (apply_loop_spec detect_language parse_source (MkPlan source needle replacement path ms) Hval
    [] 0 0 ms [] source).
Qed.

Lemma replace_one_spec source m needle replacement path :
  valid source m →
  let push := push_fuzzy_replacement detect_language parse_source (MkPlan source needle replacement path [m]) 0 in
  safe push ∧
  ∀ e, push = Ok e → ∃ gap body tail, spans 0 source [m] [gap] [body] tail ∧
    written_over detect_language parse_source (MkPlan source needle replacement path [m]) 0 m e ∧
    replace_byte_range source (byte_start m) (match_end m) e = Ok (weave [gap] [e] tail).
Proof.
  intros Hval push. pose proof (push_safe detect_language parse_source (MkPlan source needle replacement path [m])
    ltac:(by constructor) 0 m eq_refl) as [Hsafe Hw]. split; [done|].
  intros e He. destruct (cut_match source [] source m eq_refl Hval ltac:(rewrite str_len_nil; lia))
    as (gap & body & tail & Hs & Hst & Hln). rewrite str_len_nil in Hst.
  exists gap, body, tail. split_and!.
  - rewrite Hs. constructor; [done|done|constructor].
  - by apply Hw.
  - unfold replace_byte_range. rewrite validate_valid by done. simpl.
    assert (slice_to source (byte_start m) = Some gap) as ->.
    { unfold slice_to. rewrite Hs. replace (byte_start m) with (str_len gap) by lia. by rewrite split_at_app. }
    assert (slice_from source (match_end m) = Some tail) as ->.
    { unfold slice_from, match_end. rewrite Hs, app_assoc.
      replace (byte_start m + byte_len m)%N with (str_len (gap ++ body)) by (rewrite str_len_app; lia).
      by rewrite split_at_app. }
    simpl. unfold weave. simpl. by rewrite app_nil_r, <-app_assoc.
Qed.

Lemma first_overlap_None ms : first_overlap ms = None → spaced 0 ms.
Proof.
  unfold first_overlap. intros H%head_None. apply overlapping_false. unfold overlapping.
  apply existsb_false_elem_of. intros [a b] Hab. apply N.ltb_ge, N.nlt_ge. intros Hlt.
  assert ((a, b) ∈ []) as []%elem_of_nil. rewrite <-H. apply list_elem_of_filter. done.
Qed.

(** C35: find-and-replace is safe for every parser and every file.  When the last line of the
    searched text has a visible character, deciding and writing never panic (rendering the
    diagnostics of a text that is not found is not part of this).  When it answers a new text,
    that text is the old one with exactly the chosen matches replaced (all of them for
    [replaceAll], the selected one for [occurrence], the only one otherwise), every character
    between the matches kept, and the reported number is the number of replacements.  Over each
    match the replacement text is written: moved line by line by the one shift that the visible
    lines of the match agree on (not at all over an exact match, and never inside string
    literals), and with the line break at its end kept, dropped when the file has one behind the
    match, or restored when the match took the file's. *)
Theorem edit_match_safe source match_str replacement path raw_occurrence replace_all l :
  last (str_lines match_str) = Some l → has_reflow_content l = true →
  match edit_match_text detect_language parse_source source match_str replacement path raw_occurrence
          replace_all with
  | Ok (new, count) =>
      ∃ found ms gaps bodies news tail,
        find_all_fuzzy source match_str = Some found ∧ chosen found raw_occurrence replace_all ms ∧
        spans 0 source ms gaps bodies tail ∧ length news = length ms ∧
        (∀ k m t, ms !! k = Some m → news !! k = Some t →
           written_over detect_language parse_source
             (MkPlan source match_str replacement (Some path) ms) k m t) ∧
        new = weave gaps news tail ∧ count = length ms
  | Err e => e ≠ EditFailed Panicked
  end.
Proof.
  intros Hl Hv. destruct (find_all_fuzzy_answer source match_str) as (found & Hfound & _).
  assert (Forall (valid source) found) as Hval.
  { eapply Forall_impl; [by eapply fuzzy_located|]. intros m. apply located_valid. }
  unfold edit_match_text. rewrite Hfound.
  destruct (replace_all && _) eqn:Esel; [done|].
  destruct (parse_occurrence raw_occurrence) as [occ|e] eqn:Eocc; cbn [mbind result_bind].
  2:{ intros ->. revert Eocc. unfold parse_occurrence. destruct raw_occurrence as [[[|]|]|]; simpl; try done.
      by destruct (_ <=? _)%N. }
  cbn [ok_or mbind result_bind].
  destruct (decide (found = [])) as [Hnil|Hnil]; [by rewrite bool_decide_eq_true_2|].
  rewrite bool_decide_eq_false_2 by done.
  set (out_of_range := match occ with Some _ => _ | None => _ end). destruct out_of_range eqn:Eout; [done|].
  destruct ((1 <? _) && _ && _) eqn:Eamb.
  { destruct (listing_total source (byte_start <$> found)) as [text ->]; [|done].
    apply Forall_fmap. eapply Forall_impl; [exact Hval|]. by intros m [? _]. }
  destruct replace_all.
  - destruct (first_overlap found) as [[a b]|] eqn:Eov; [done|]. apply first_overlap_None in Eov.
    destruct (apply_sorted_spec source found match_str replacement (Some path) Hval Eov) as [Hs Hok].
    destruct (apply_sorted_non_overlapping_fuzzy_matches _ _ _ _ _ _ _) as [r|e]; simpl; [|by intros [= ->]].
    destruct (Hok r eq_refl) as (gaps & bodies & news & tail & Hsp & Hlen & Hw & ->).
    by exists found, found, gaps, bodies, news, tail.
  - destruct (chosen_lookup found raw_occurrence occ Eocc) as (m & Hm & Hch).
    { by destruct found. }
    { unfold out_of_range in Eout. rewrite length_fmap in *. destruct occ; [|done]. by apply Nat.leb_gt. }
    { intros ->. rewrite bool_decide_eq_true_2, length_fmap in Eamb by done. destruct found as [|? [|]]; done. }
    rewrite Hm. simpl.
    destruct (replace_one_spec source m match_str replacement (Some path) (Forall_lookup_1 _ _ _ _ Hval Hm)) as [Hs Hok].
    destruct (push_fuzzy_replacement _ _ _ _) as [e|e]; simpl; [|by intros [= ->]].
    destruct (Hok e eq_refl) as (gap & body & tail & Hsp & Hw & ->). simpl.
    exists found, [m], [gap], [body], [e], tail. split_and!; try done; [by exists m|].
    intros [|k] m' t; [|done]. by intros [= <-] [= <-].
Qed.

(** a loose replacement is moved consistently: when the matched lines call for a shift, the
    text written over the match, with what precedes the match on its first line, has one line
    for each line of the replacement, and every line of the replacement that has visible text
    and is outside string literals relates to the written line exactly as the searched lines
    relate to the lines of the file; without a shift the replacement is written as it is. *)
Theorem replacement_for_consistent (plan : ReindentPlan (Path := Path)) i m r :
  Forall (valid (source plan)) (matches plan) → matches plan !! i = Some m →
  replacement_for detect_language parse_source plan i = Ok r →
  ∃ σ, indentation_shift (source plan) (needle plan) m = Ok σ ∧
    (σ = NoShift → r = replacement plan) ∧
    (σ ≠ NoShift → replacement plan ≠ [] → ∃ before in_string written,
       before_match plan m before ∧
       lines_inside_new_strings detect_language parse_source plan i = Ok in_string ∧
       before ++ r = concat written ∧ length written = length (split_inclusive LF (replacement plan)) ∧
       ∀ k piece w, split_inclusive LF (replacement plan) !! k = Some piece → written !! k = Some w →
         in_string !! k = Some false → has_reflow_content piece = true →
         shifted σ w piece).
Proof.
  intros Hval Hm Hr.
  destruct (proj2 (replacement_for_spec detect_language parse_source plan Hval i m Hm) r Hr) as (σ & Hσ & Hcase).
  exists σ. split; [done|]. pose proof (shift_proper _ _ _ _ Hσ) as Hproper. destruct σ as [|p|p]; [done| |];
    (split; [done|]); intros _ Hne; destruct Hcase as (Hbef & ins & out & Hins & -> & Hmv).
  - destruct (moved_add p ins _ out Hproper (λ H, Hne (pieces_nil _ H)) Hmv) as (written & Hw & Hlen & Hsh).
    exists p, ins, written. by split_and!.
  - exists [], ins, out. split_and!; [done|done|done|by destruct Hmv|]. by apply moved_remove.
Qed.

End Command.

(** *** A Python file whose body is matched two columns too shallow *)

Definition wfile : str :=
  lit "def f():" ++ [LF] ++ lit "    if x:" ++ [LF] ++ lit "        y()" ++ [LF] ++ lit "    z()" ++ [LF].
Definition wneedle : str := lit "  if x:" ++ [LF] ++ lit "      y()".
Definition wnew : str := lit "  if w:" ++ [LF] ++ lit "      q()" ++ [LF] ++ lit "      y()".
Definition wmatch : FuzzyMatch := MkMatch 11 19 3.
(** Files of this path have no parser. *)
Definition no_lang : unit → option unit := λ _, None.
Definition no_parse : unit → str → unit → option Tree := λ _ _ _, None.
Definition wplan : ReindentPlan (Path := unit) := MkPlan wfile wneedle wnew (Some tt) [wmatch].

Lemma edit_match_safe_witness :
  match edit_match_text no_lang no_parse wfile wneedle wnew tt None false with
  | Ok (new, count) =>
      ∃ found ms gaps bodies news tail,
        find_all_fuzzy wfile wneedle = Some found ∧ chosen found None false ms ∧
        spans 0 wfile ms gaps bodies tail ∧ length news = length ms ∧
        (∀ k m t, ms !! k = Some m → news !! k = Some t →
           written_over no_lang no_parse (MkPlan wfile wneedle wnew (Some tt) ms) k m t) ∧
        new = weave gaps news tail ∧ count = length ms
  | Err e => e ≠ EditFailed Panicked
  end.
Proof.
  apply (edit_match_safe no_lang no_parse wfile wneedle wnew tt None false (lit "      y()"));
    vm_compute; reflexivity.
Defined.

Example edit_match_python :
  edit_match_text no_lang no_parse wfile wneedle wnew tt None false
  = Ok (lit "def f():" ++ [LF] ++ lit "    if w:" ++ [LF] ++ lit "        q()" ++ [LF]
        ++ lit "        y()" ++ [LF] ++ lit "    z()" ++ [LF], 1).
Proof. vm_compute. reflexivity. Qed.

Lemma replacement_for_consistent_witness :
  ∃ σ, indentation_shift wfile wneedle wmatch = Ok σ.
Proof.
  destruct (replacement_for_consistent no_lang no_parse wplan 0 wmatch
    (lit "  if w:" ++ [LF] ++ lit "        q()" ++ [LF] ++ lit "        y()")) as (σ & Hσ & _).
  - constructor; [|constructor]. split.
    + exists (take 11 wfile), (drop 11 wfile). vm_compute. done.
    + exists (take 30 wfile), (drop 30 wfile). vm_compute. done.
  - done.
  - vm_compute. reflexivity.
  - exists σ. exact Hσ.
Defined.

(** the shift of a match that ignored indentation is exact: the program finds a shift only
    if every pair of a file line of the window and a line of the searched text that both have
    visible text differs by that one shift, tabs and spaces never converted; it refuses only
    when no shift fits all pairs; and it never panics. *)
Theorem indentation_shift_exact source needle p i j m :
  i < j ≤ length (split_inclusive LF source) → p = 3%N ∨ p = 4%N →
  placed (window_text source i j) needle (offset source i) p m →
  match indentation_shift source needle m with
  | Ok σ => ∀ f n, paired source needle i f n → has_reflow_content f = true → has_reflow_content n = true →
              shifted σ f n
  | Err e => e ≠ Panicked ∧
      ∀ σ, ¬ ∀ f n, paired source needle i f n → has_reflow_content f = true → has_reflow_content n = true →
              shifted σ f n
  end.
Proof. apply indentation_shift_spec. Qed.

Lemma indentation_shift_exact_witness :
  ∃ σ, indentation_shift wfile wneedle wmatch = Ok σ ∧
    ∀ f n, paired wfile wneedle 1 f n → has_reflow_content f = true → has_reflow_content n = true → shifted σ f n.
Proof.
  assert (indentation_shift wfile wneedle wmatch = Ok (Add (lit "  "))) as E by (vm_compute; reflexivity).
  assert (1 < 3 ≤ length (split_inclusive LF wfile)) as Hr by (vm_compute; lia).
  assert (placed (window_text wfile 1 3) wneedle (offset wfile 1) 3 wmatch) as Hpl.
  { exists (lit "  "), (lit "  if x:" ++ [LF] ++ lit "        y()"), [LF].
    split_and!; [by_compute| | |by_compute|by_compute|by_compute]; repeat constructor. }
  pose proof (indentation_shift_exact wfile wneedle 3 1 3 wmatch Hr (or_introl eq_refl) Hpl) as H.
  rewrite E in H. exists (Add (lit "  ")). split; [exact E|exact H].
Defined.

(** the walk for syntax errors ends and is right: it answers true exactly when an error or
    a missing node is reached from the root through nodes that overlap the region and are
    marked as containing errors; popping each node of the tree once is enough. *)
Theorem region_has_error_exact root start stop :
  region_has_error root start stop = true ↔ error_reached start stop root.
Proof.
  unfold region_has_error. rewrite region_loop_spec; [|simpl; lia]. split.
  - by intros (n & ->%list_elem_of_singleton & H).
  - intros H. exists root. split; [by left|done].
Qed.

End EditMatchSpec.
