(* ===== verification/BatchEdit.v ===== *)
(** * Several edits of one file: [commands/batch.rs]

    The resolution of each edit of a batch (a JSON value) to byte ranges of the original text,
    the sort, the overlap check and the assembly of the new text; with the line tables of
    [edit.rs].  Reading, backing up and writing the file is outside. *)

From S2P Require Import Prelude RustStr ByteStr FuzzyMatch Reindent EditMatch.
Import ByteStr FuzzyMatch Reindent EditMatch.

Module BatchEdit.

(** ** JSON ([serde_json::Value]) *)

(** A float is [m * 2 ^ e]; JSON has no infinity or NaN. *)
Inductive Number := PosInt (n : N) | NegInt (z : Z) | Float (m e : Z).
#[local] Unset Elimination Schemes.
Inductive Value :=
  | Null
  | Bool (b : bool)
  | Num (n : Number)
  | Str (s : str)
  | Array (items : list Value)
  | Object (fields : list (string * Value)).
#[local] Set Elimination Schemes.

Definition get (key : string) (v : Value) : option Value :=
  match v with
  | Object fields => snd <$> find (λ f, String.eqb (fst f) key) fields
  | _ => None
  end.
Definition as_str (v : Value) : option str := match v with Str s => Some s | _ => None end.
Definition as_bool (v : Value) : option bool := match v with Bool b => Some b | _ => None end.
Definition number_as_u64 (n : Number) : option N := match n with PosInt n => Some n | _ => None end.
Definition as_u64 (v : Value) : option N := match v with Num n => number_as_u64 n | _ => None end.

(** [Option::or_else]. *)
Definition or_else {A} (a b : option A) : option A := match a with Some _ => a | None => b end.

Definition u64_MAX : N := 2 ^ 64 - 1.

(** [value.is_finite() && value.fract() == 0.0 && value >= 1.0] and then [value as u64]. *)
Definition float_to_u64 (m e : Z) : option N :=
  let whole :=
    if (0 <=? e)%Z then Some (m * 2 ^ e)%Z
    else if (m mod 2 ^ (- e) =? 0)%Z then Some (m / 2 ^ (- e))%Z else None in
  match whole with
  | Some z => if (1 <=? z)%Z then Some (N.min (Z.to_N z) u64_MAX) else None
  | None => None
  end.

(** ** Line tables ([edit.rs]) *)

(** [LineOffsets]. *)
Record LineOffsets := MkOffsets { starts : list N; source_len : N }.

Fixpoint segment_starts (start : N) (segments : list str) : list N :=
  match segments with
  | [] => []
  | segment :: segments => start :: segment_starts (start + str_len segment)%N segments
  end.

Definition line_offsets_new (source : str) : LineOffsets :=
  MkOffsets (segment_starts 0 (split_inclusive LF source)) (str_len source).
Definition line_count (t : LineOffsets) : nat := length (starts t).
Definition line_offset (t : LineOffsets) (line : nat) : N :=
  match starts t !! line with Some o => o | None => source_len t end.

(** [line_col_to_byte]: the loop over the segments. *)
Fixpoint line_col_loop (source : str) (target_line : nat) (col : N) (line_start : N) (segments : list str) : N :=
  match segments with
  | [] => str_len source
  | segment :: segments =>
      let with_cr := match strip_suffix [LF] segment with Some l => l | None => segment end in
      let line_text := if ends_with [CR; LF] segment then strip_cr with_cr else with_cr in
      match target_line with
      | 0 => (line_start + N.min col (str_len line_text))%N
      | S target_line => line_col_loop source target_line col (line_start + str_len segment) segments
      end
  end.
Definition line_col_to_byte (source : str) (line col : N) : N :=
  line_col_loop source (N.to_nat line) col 0 (split_inclusive LF source).

(** ** Resolved edits *)

Record ResolvedEdit := MkEdit {
  edit_start : N; edit_end : N; edit_text : str; fuzzy_match : option Detail }.

(** What a batch is refused for. *)
Inductive BatchRefusal :=
  | EmptyMatch
  | MissingReplacement
  | BatchExclusiveSelectors
  | BadOccurrence
  | BatchNotFound
  | BatchOutOfRange (occurrence total : nat)
  | BatchAmbiguous (listing : str) (total : nat)
  | BadLineStart
  | ZeroLineStart
  | BadLineEnd
  | ZeroLineEnd
  | MissingContent
  | LineStartOutOfRange (line_start total : nat)
  | LineStartAfterEnd (line_start line_end : nat)
  | UnknownEdit
  | BatchOverlap (lower higher : ResolvedEdit)
  | BatchFailed (e : Failure).

Definition occurrence_of (raw : option Value) : result BatchRefusal (option nat) :=
  match raw with
  | None => Ok None
  | Some (Num number) =>
      let value := or_else (number_as_u64 number)
                     (match number with
                      | PosInt n => Some n
                      | NegInt _ => None
                      | Float m e => float_to_u64 m e
                      end) in
      match value with
      | Some value =>
          if ((1 <=? value) && (value - 1 <=? usize_MAX))%N then Ok (Some (N.to_nat (value - 1)))
          else Err BadOccurrence
      | None => Err BadOccurrence
      end
  | Some _ => Err BadOccurrence
  end.

Section Batch.
Context {Path Lang : Type}.
Context (detect_language : Path → option Lang).
Context (parse_source : Path → str → Lang → option Tree).
Context (escape_debug : str → str).

(** The edit for match [at_] of a plan. *)
Definition resolve_match (source match_str replacement : str) (path : option Path) (ms : list FuzzyMatch)
    (at_ : nat) (m : FuzzyMatch) : result BatchRefusal ResolvedEdit :=
  text ← map_err BatchFailed
    (push_fuzzy_replacement detect_language parse_source (MkPlan source match_str replacement path ms) at_);
  detail ← (if (1 <? pass m)%N
            then d ← map_err BatchFailed (replacement_detail escape_debug source match_str [m]); Ok (Some d)
            else Ok None);
  Ok (MkEdit (byte_start m) (match_end m) text detail).

(** [resolve_edit_with_offsets]: the branch of a string match. *)
Definition resolve_string_match (source match_str : str) (edit_val : Value) (path : option Path) :
    result BatchRefusal (list ResolvedEdit) :=
  if bool_decide (match_str = []) then Err EmptyMatch
  else
    replacement ← ok_or MissingReplacement
      (or_else (get "replacement" edit_val) (get "newString" edit_val) ≫= as_str);
    let replace_all :=
      default false (or_else (get "replace_all" edit_val) (get "replaceAll" edit_val) ≫= as_bool) in
    if replace_all && bool_decide (is_Some (get "occurrence" edit_val)) then Err BatchExclusiveSelectors
    else
      occurrence ← occurrence_of (get "occurrence" edit_val);
      fuzzy_matches ← ok_or (BatchFailed Panicked) (find_all_fuzzy source match_str);
      if bool_decide (fuzzy_matches = []) then Err BatchNotFound
      else if (replace_all : bool) then
        mapM (λ '(at_, m), resolve_match source match_str replacement path fuzzy_matches at_ m)
          (imap pair fuzzy_matches)
      else
        match occurrence with
        | Some occ =>
            match fuzzy_matches !! occ with
            | None => Err (BatchOutOfRange (occ + 1) (length fuzzy_matches))
            | Some m => e ← resolve_match source match_str replacement path [m] 0 m; Ok [e]
            end
        | None =>
            if 1 <? length fuzzy_matches then
              listing ← ok_or (BatchFailed Panicked)
                (render_occurrence_listing source (byte_start <$> fuzzy_matches));
              Err (BatchAmbiguous listing (length fuzzy_matches))
            else
              m ← ok_or (BatchFailed Panicked) (fuzzy_matches !! 0);
              e ← resolve_match source match_str replacement path [m] 0 m; Ok [e]
        end.

Definition ensure_newline (s : str) : str := if ends_with [LF] s then s else s ++ [LF].

(** The branch of a line range. *)
Definition resolve_line_range (source : str) (line_offsets : LineOffsets) (edit_val : Value) :
    result BatchRefusal (list ResolvedEdit) :=
  line_start_1 ← ok_or BadLineStart (get "line_start" edit_val ≫= as_u64);
  if (line_start_1 =? 0)%N then Err ZeroLineStart
  else
    let line_start := N.to_nat (line_start_1 - 1) in
    line_end_1 ← ok_or BadLineEnd (get "line_end" edit_val ≫= as_u64);
    if (line_end_1 =? 0)%N then Err ZeroLineEnd
    else
      let line_end := N.to_nat (line_end_1 - 1) in
      content ← ok_or MissingContent (get "content" edit_val ≫= as_str);
      let total_lines := line_count line_offsets in
      if total_lines <? line_start then Err (LineStartOutOfRange (N.to_nat line_start_1) total_lines)
      else if line_start =? total_lines then
        let byte_pos := str_len source in
        let text :=
          if negb (bool_decide (source = [])) && negb (ends_with [LF] source) && negb (starts_with [LF] content)
          then [LF] ++ content else content in
        Ok [MkEdit byte_pos byte_pos (ensure_newline text) None]
      else if line_end + 1 <? line_start
        then Err (LineStartAfterEnd (N.to_nat line_start_1) (N.to_nat line_end_1))
      else if (line_start =? line_end + 1)
              || ((line_end =? 0) && (line_start =? 0)
                  && bool_decide ((get "line_end" edit_val ≫= as_u64) = Some 0%N) && (line_end <? line_start))
      then
        let byte_pos := line_offset line_offsets line_start in
        Ok [MkEdit byte_pos byte_pos (ensure_newline content) None]
      else
        let line_end := if total_lines <=? line_end then total_lines - 1 else line_end in
        let byte_start := line_offset line_offsets line_start in
        let byte_end := line_offset line_offsets (line_end + 1) in
        let range_has_trailing_nl :=
          (0 <? byte_end)%N && (byte_end <=? str_len source)%N
          && bool_decide (as_bytes source !! N.to_nat (byte_end - 1) = Some LF) in
        let text :=
          if negb (bool_decide (content = [])) && range_has_trailing_nl then ensure_newline content else content in
        Ok [MkEdit byte_start byte_end text None].

Definition resolve_edit_with_offsets (source : str) (line_offsets : LineOffsets) (edit_val : Value)
    (path : option Path) : result BatchRefusal (list ResolvedEdit) :=
  match or_else (get "match" edit_val) (get "oldString" edit_val) ≫= as_str with
  | Some match_str => resolve_string_match source match_str edit_val path
  | None =>
      if bool_decide (is_Some (get "line_start" edit_val))
      then resolve_line_range source line_offsets edit_val
      else Err UnknownEdit
  end.

(** ** Assembly *)

(** [resolved.sort_by(|a, b| b.byte_start.cmp(&a.byte_start))], a stable sort. *)
Fixpoint insert_resolved (e : ResolvedEdit) (es : list ResolvedEdit) : list ResolvedEdit :=
  match es with
  | [] => [e]
  | x :: es' => if (edit_start x <=? edit_start e)%N then e :: es else x :: insert_resolved e es'
  end.
Definition sort_resolved (es : list ResolvedEdit) : list ResolvedEdit := foldr insert_resolved [] es.

(** The first pair of neighbours that overlap, [(higher, lower)]. *)
Definition batch_overlap (resolved : list ResolvedEdit) : option (ResolvedEdit * ResolvedEdit) :=
  head (filter (λ '(higher, lower), (edit_start higher < edit_end lower)%N) (zip resolved (drop 1 resolved))).

(** The copying loop of [build_batch_output]. *)
Fixpoint batch_loop (source output : str) (cursor : N) (es : list ResolvedEdit) : result Failure str :=
  match es with
  | [] => rest ← no_panic (slice_from source cursor); Ok (output ++ rest)
  | e :: es =>
      gap ← no_panic (slice source cursor (edit_start e));
      batch_loop source (output ++ gap ++ edit_text e) (edit_end e) es
  end.

Definition build_batch_output (source : str) (resolved : list ResolvedEdit) : result Failure str :=
  _ ← mapM (λ e, validate_byte_range source (edit_start e) (edit_end e)) resolved;
  batch_loop source [] 0 (rev resolved).

(** [handle_batch] from the parsed edits to the new text. *)
Definition batch_text (source : str) (edits : list Value) (path : Path) : result BatchRefusal str :=
  let line_offsets := line_offsets_new source in
  resolved ← mapM (λ edit_val, resolve_edit_with_offsets source line_offsets edit_val (Some path)) edits;
  let resolved := sort_resolved (concat resolved) in
  match batch_overlap resolved with
  | Some (higher, lower) => Err (BatchOverlap lower higher)
  | None => map_err BatchFailed (build_batch_output source resolved)
  end.

End Batch.

End BatchEdit.
