(* ===== verification/BatchSpec.v ===== *)
(** * What a batch does to the file

    A batch equals its edits applied one at a time from the bottom of the file to the top, keeps
    every character outside the edited ranges, and never panics. *)

From S2P Require Import Prelude RustStr ByteStr PatchMatcher Reflow ReflowSpec FuzzyMatch FuzzySpec.
From S2P Require Import Reindent EditMatch EditMatchSpec BatchEdit.
Import ByteStr Reflow FuzzyMatch FuzzySpec Reindent EditMatch EditMatchSpec BatchEdit.

Module BatchSpec.

(** ** Edits as ranges *)

(** The range of an edit. *)
Definition as_match (e : ResolvedEdit) : FuzzyMatch :=
  MkMatch (edit_start e) (edit_end e - edit_start e) 0.

Definition valid_edit (s : str) (e : ResolvedEdit) : Prop :=
  boundary s (edit_start e) ∧ boundary s (edit_end e) ∧ (edit_start e ≤ edit_end e)%N.

Lemma as_match_end e : (edit_start e ≤ edit_end e)%N → match_end (as_match e) = edit_end e.
Proof. intros H. unfold match_end. simpl. lia. Qed.

Lemma valid_as_match s e : valid_edit s e → valid s (as_match e).
Proof. intros (Hs & He & Hle). split; [done|]. by rewrite as_match_end. Qed.

(** ** One edit *)

Lemma replace_range_app (a b c t : str) :
  replace_byte_range (a ++ b ++ c) (str_len a) (str_len a + str_len b) t = Ok (a ++ t ++ c).
Proof.
  assert (boundary (a ++ b ++ c) (str_len a)) as Ha by (by exists a, (b ++ c)).
  assert (boundary (a ++ b ++ c) (str_len a + str_len b)) as Hb.
  { exists (a ++ b), c. by rewrite <-app_assoc, str_len_app. }
  pose proof (boundary_len _ _ Hb) as Hle. unfold replace_byte_range, validate_byte_range.
  destruct (N.ltb_spec (str_len a + str_len b) (str_len a)); [lia|].
  destruct (N.ltb_spec (str_len (a ++ b ++ c)) (str_len a + str_len b)); [lia|].
  rewrite (boundary_is _ _ Ha), (boundary_is _ _ Hb). simpl.
  unfold slice_to, slice_from. rewrite split_at_app. simpl.
  rewrite app_assoc, <-str_len_app, split_at_app. simpl. done.
Qed.

(** ** The batch as a sequence of edits *)

(** Edits in the given order, each on the text the last one left. *)
Definition apply_in_turn (source : str) (es : list ResolvedEdit) : result Failure str :=
  foldl (λ acc e, s ← acc; replace_byte_range s (edit_start e) (edit_end e) (edit_text e)) (Ok source) es.

Definition edit_spans (pos : N) (s : str) (es : list ResolvedEdit) (gaps bodies : list str) (tail : str) : Prop :=
  spans pos s (as_match <$> es) gaps bodies tail ∧ Forall (λ e, edit_start e ≤ edit_end e)%N es.

Lemma edit_spans_cons pos s e es gaps bodies tail :
  edit_spans pos s (e :: es) gaps bodies tail →
  ∃ gap body rest gaps' bodies', gaps = gap :: gaps' ∧ bodies = body :: bodies' ∧ s = gap ++ body ++ rest ∧
    edit_start e = (pos + str_len gap)%N ∧ edit_end e = (edit_start e + str_len body)%N ∧
    edit_spans (edit_end e) rest es gaps' bodies' tail.
Proof.
  intros [Hsp Hle]. inversion Hsp as [|? gap body rest m ms gaps' bodies' ? Hs Hl Hrest]; subst.
  inversion Hle as [|?? Hle1 Hle2]; subst. exists gap, body, rest, gaps', bodies'. rewrite as_match_end in Hrest by done.
  simpl in Hs, Hl. split_and!; try done. lia.
Qed.

Lemma in_turn_weave p pos s es gaps bodies tail :
  edit_spans pos s es gaps bodies tail → str_len p = pos →
  apply_in_turn (p ++ s) (rev es) = Ok (p ++ weave gaps (edit_text <$> es) tail).
Proof.
  revert p pos s gaps bodies. induction es as [|e es IH]; intros p pos s gaps bodies Hsp Hp.
  { destruct Hsp as [Hsp _]. inversion Hsp; subst. done. }
  apply edit_spans_cons in Hsp as (gap & body & rest & gaps' & bodies' & -> & -> & -> & Hst & Hen & Hsp).
  simpl. unfold apply_in_turn. rewrite foldl_app. fold (apply_in_turn (p ++ gap ++ body ++ rest) (rev es)).
  assert (p ++ gap ++ body ++ rest = (p ++ gap ++ body) ++ rest) as -> by (by rewrite <-!app_assoc).
  rewrite (IH (p ++ gap ++ body) (edit_end e) rest gaps' bodies' Hsp).
  2:{ rewrite !str_len_app. lia. }
  cbn [foldl mbind result_bind].
  replace (edit_start e) with (str_len (p ++ gap)) by (rewrite str_len_app; lia).
  replace (edit_end e) with (str_len (p ++ gap) + str_len body)%N by (rewrite str_len_app; lia).
  rewrite <-!app_assoc, (app_assoc p gap), replace_range_app. unfold weave. simpl. by rewrite <-!app_assoc.
Qed.

Lemma batch_loop_weave source before pos s out es gaps bodies tail :
  edit_spans pos s es gaps bodies tail → source = before ++ s → str_len before = pos →
  batch_loop source out pos es = Ok (out ++ weave gaps (edit_text <$> es) tail).
Proof.
  revert before pos s out gaps bodies.
  induction es as [|e es IH]; intros before pos s out gaps bodies Hsp -> Hp; cbn [batch_loop].
  { destruct Hsp as [Hsp _]. inversion Hsp; subst. unfold slice_from. by rewrite split_at_app. }
  apply edit_spans_cons in Hsp as (gap & body & rest & gaps' & bodies' & -> & -> & -> & Hst & Hen & Hsp).
  subst pos. rewrite Hst, slice_app. simpl.
  rewrite (IH (before ++ gap ++ body) (edit_end e) rest _ gaps' bodies' Hsp).
  - unfold weave. simpl. by rewrite <-!app_assoc.
  - by rewrite <-!app_assoc.
  - rewrite !str_len_app. lia.
Qed.

(** Valid edits in ascending order cut the text. *)
Lemma edit_spans_exist source before s pos es :
  source = before ++ s → str_len before = pos →
  Forall (valid_edit source) es → spaced pos (as_match <$> es) →
  ∃ gaps bodies tail, edit_spans pos s es gaps bodies tail.
Proof.
  revert before s pos. induction es as [|e es IH]; intros before s pos Hs Hp Hval Hsp.
  { exists [], [], s. split; [constructor|done]. }
  rewrite fmap_cons in Hsp. destruct Hsp as [Hle Hsp]. inversion Hval as [|?? He Hes]; subst pos. subst.
  destruct (cut_match _ _ _ _ eq_refl (valid_as_match _ _ He) Hle) as (gap & body & rest & -> & Hst & Hln).
  destruct He as (_ & _ & Hse). rewrite as_match_end in Hsp by done. simpl in Hst, Hln.
  destruct (IH (before ++ gap ++ body) rest (edit_end e)) as (gaps & bodies & tail & Hsp' & Hall);
    [by rewrite <-!app_assoc|rewrite !str_len_app; lia|done|done|].
  exists (gap :: gaps), (body :: bodies), tail. split; [|by constructor].
  constructor; [done|done|by rewrite as_match_end].
Qed.

(** ** Order and overlap *)

Definition last_end (from : N) (ms : list FuzzyMatch) : N :=
  match last ms with Some m => match_end m | None => from end.

Lemma spaced_snoc from ms m : spaced from ms → (last_end from ms ≤ byte_start m)%N → spaced from (ms ++ [m]).
Proof.
  unfold last_end. revert from. induction ms as [|x ms IH]; intros from; simpl; [done|].
  intros [Hle Hsp] Hl. split; [done|]. apply IH; [done|]. destruct ms as [|y ms]; [done|].
  change (x :: y :: ms) with ([x] ++ (y :: ms)) in Hl. rewrite last_app in Hl. destruct (last (y :: ms)) eqn:E; [done|].
  by apply last_None in E.
Qed.

(** Neighbours that do not overlap are in descending order. *)
Lemma no_overlap_spaced es :
  batch_overlap es = None → Forall (λ e, edit_start e ≤ edit_end e)%N es → spaced 0 (as_match <$> rev es).
Proof.
  unfold batch_overlap. intros H%head_None. revert H. induction es as [|e es IH]; intros H Hle; [done|].
  inversion Hle as [|?? He Hes]; subst. simpl. rewrite fmap_app. simpl. destruct es as [|x es]; [simpl; lia|].
  change (zip (e :: x :: es) (drop 1 (e :: x :: es))) with ((e, x) :: zip (x :: es) (drop 1 (x :: es))) in H.
  rewrite filter_cons in H. case_decide as Hov; [done|]. apply spaced_snoc; [by apply IH|].
  unfold last_end. rewrite fmap_last. cbn [rev]. rewrite last_snoc. simpl.
  inversion Hes; subst. rewrite as_match_end by done. lia.
Qed.

Lemma valid_edit_range s e : valid_edit s e → validate_byte_range s (edit_start e) (edit_end e) = Ok tt.
Proof.
  intros Hv. pose proof (validate_valid s _ (valid_as_match s e Hv)) as H.
  destruct Hv as (_ & _ & Hle). by rewrite as_match_end in H.
Qed.

Lemma validate_edits s es :
  Forall (valid_edit s) es → ∃ u, mapM (λ e, validate_byte_range s (edit_start e) (edit_end e)) es = Ok u.
Proof.
  induction 1 as [|e es He _ [u Hu]]; [by exists []|]. cbn [mapM]. rewrite valid_edit_range by done. simpl.
  rewrite Hu. by eexists.
Qed.

Lemma build_batch_spec source es :
  Forall (valid_edit source) es → batch_overlap es = None →
  ∃ gaps bodies tail, edit_spans 0 source (rev es) gaps bodies tail ∧
    build_batch_output source es = Ok (weave gaps (edit_text <$> rev es) tail) ∧
    apply_in_turn source es = Ok (weave gaps (edit_text <$> rev es) tail).
Proof.
  intros Hval Hov. assert (Forall (λ e, edit_start e ≤ edit_end e)%N es) as Hle.
  { eapply Forall_impl; [exact Hval|]. by intros e (_ & _ & ?). }
  destruct (edit_spans_exist source [] source 0 (rev es)) as (gaps & bodies & tail & Hsp);
    [done|done|by apply Forall_rev|by apply no_overlap_spaced|].
  exists gaps, bodies, tail. split; [done|]. unfold build_batch_output.
  destruct (validate_edits source es Hval) as [u ->]. simpl. split.
  - by apply (batch_loop_weave source [] 0 source [] _ gaps bodies tail).
  - rewrite <-(rev_involutive es) at 1. by apply (in_turn_weave [] 0 source (rev es) gaps bodies tail).
Qed.

Lemma sort_resolved_perm es : sort_resolved es ≡ₚ es.
Proof.
  induction es as [|e es IH]; [done|]. simpl. etrans; [|by apply Permutation_cons].
  generalize (sort_resolved es). clear. intros es. induction es as [|x es IH]; simpl; [done|].
  destruct (_ <=? _)%N; [done|]. rewrite IH. apply Permutation_swap.
Qed.

(** ** Resolution *)

Lemma line_offset_offset source i : line_offset (line_offsets_new source) i = offset source i.
Proof.
  unfold line_offset, line_offsets_new. simpl.
  assert (∀ pos ss k, match segment_starts pos ss !! k with
    | Some o => o = (pos + str_len (concat (take k ss)))%N
    | None => length ss ≤ k end) as H.
  { intros pos ss. revert pos. induction ss as [|x ss IH]; intros pos k; [simpl; lia|].
    destruct k as [|k]; simpl; [rewrite str_len_nil; lia|]. specialize (IH (pos + str_len x)%N k).
    destruct (segment_starts _ ss !! k); [rewrite IH, str_len_app; lia|lia]. }
  specialize (H 0%N (pieces source) i). destruct (segment_starts 0 (pieces source) !! i).
  - rewrite H. done.
  - symmetry. by apply offset_all.
Qed.

Lemma line_count_pieces source : line_count (line_offsets_new source) = length (pieces source).
Proof.
  unfold line_count, line_offsets_new. simpl. generalize 0%N. induction (pieces source) as [|x ss IH]; intros pos; [done|].
  simpl. by rewrite IH.
Qed.

Lemma offset_mono source i j : i ≤ j → (offset source i ≤ offset source j)%N.
Proof.
  intros H. unfold offset. rewrite <-(take_drop i (take j (pieces source))), take_take, Nat.min_l by done.
  rewrite concat_app, str_len_app. lia.
Qed.

Lemma resolve_line_range_valid source v es :
  resolve_line_range source (line_offsets_new source) v = Ok es → Forall (valid_edit source) es.
Proof.
  assert (∀ n t d, boundary source n → valid_edit source (MkEdit n n t d)) as Hpoint by done.
  assert (boundary source (str_len source)) as Hend by (exists source, []; by rewrite app_nil_r).
  unfold resolve_line_range.
  intros (a & _ & H)%bind_Ok. destruct (a =? 0)%N; [done|]. cbv zeta in H.
  apply bind_Ok in H as (b & _ & H). destruct (b =? 0)%N; [done|]. cbv zeta in H.
  apply bind_Ok in H as (c & _ & H). cbv zeta in H. rewrite !line_offset_offset, line_count_pieces in H.
  destruct (_ <? _) eqn:E1 in H; [done|]. apply Nat.ltb_ge in E1.
  destruct (_ =? _) eqn:E2 in H; [injection H as <-; constructor; [by apply Hpoint|done]|]. apply Nat.eqb_neq in E2.
  destruct (_ <? _) eqn:E3 in H; [done|]. apply Nat.ltb_ge in E3.
  destruct (_ || _) eqn:E4 in H.
  { injection H as <-. constructor; [|done]. apply Hpoint, offset_boundary. }
  apply orb_false_iff in E4 as [E4%Nat.eqb_neq _].
  injection H as <-. constructor; [|done]. split_and!; [apply offset_boundary|apply offset_boundary|]. simpl.
  apply offset_mono. destruct (_ <=? _) eqn:E5; [apply Nat.leb_le in E5|apply Nat.leb_gt in E5]; lia.
Qed.

Definition unharmed {A} (r : result BatchRefusal A) : Prop := r ≠ Err (BatchFailed Panicked).

Lemma unharmed_bind {A B} (r : result BatchRefusal A) (f : A → result BatchRefusal B) :
  unharmed r → (∀ a, r = Ok a → unharmed (f a)) → unharmed (r ≫= f).
Proof. unfold unharmed. destruct r as [a|e]; simpl; [|by intros H _ [= ->]]. intros _ H. by apply H. Qed.

Lemma unharmed_map_err {A} (r : result Failure A) : safe r → unharmed (map_err BatchFailed r).
Proof. unfold safe, unharmed. destruct r; simpl; [done|]. by intros H [= ->]. Qed.

Lemma unharmed_mapM {A B} (f : A → result BatchRefusal B) l :
  (∀ x, x ∈ l → unharmed (f x)) → unharmed (mapM f l).
Proof.
  induction l as [|x l IH]; intros H; [done|]. cbn [mapM]. apply unharmed_bind; [apply H; by left|].
  intros y _. apply unharmed_bind; [|done]. apply IH. intros z Hz. apply H. by right.
Qed.

Lemma unharmed_ok_or {A} e (o : option A) : e ≠ BatchFailed Panicked ∨ is_Some o → unharmed (ok_or e o).
Proof. unfold unharmed. destruct o; simpl; [done|]. intros [H|[? ?]]; [|done]. by intros [= ->]. Qed.

(** The visible text a match edit needs. *)
Definition match_text (v : Value) : option str := or_else (get "match" v) (get "oldString" v) ≫= as_str.
Definition searchable (s : str) : Prop := ∃ l, last (str_lines s) = Some l ∧ has_reflow_content l = true.

Section Resolve.
Context {Path Lang : Type}.
Context (detect_language : Path → option Lang).
Context (parse_source : Path → str → Lang → option Tree).
Context (escape_debug : str → str).
Context (source : str).

Lemma replacement_detail_safe needle m :
  valid source m → safe (replacement_detail escape_debug source needle [m]).
Proof.
  intros [Hs He]. unfold replacement_detail. apply safe_bind.
  - simpl. pose proof (indentation_shift_safe source needle m Hs) as H.
    destruct (indentation_shift source needle m) as [σ|[e|]]; [by destruct (bool_decide _)|done|done].
  - intros re _. cbn [mapM]. destruct (boundary_slice _ _ _ Hs He (match_end_ge m)) as [t Ht].
    unfold match_end in Ht. by rewrite Ht.
Qed.

Lemma resolve_match_spec needle replacement path ms i m :
  Forall (valid source) ms → ms !! i = Some m →
  let r := resolve_match detect_language parse_source escape_debug source needle replacement path ms i m in
  unharmed r ∧ ∀ e, r = Ok e → valid_edit source e ∧ as_match e = MkMatch (byte_start m) (byte_len m) 0.
Proof.
  intros Hval Hi r. pose proof (Forall_lookup_1 _ _ _ _ Hval Hi) as Hm. split.
  - apply unharmed_bind.
    + by apply unharmed_map_err, (push_safe detect_language parse_source
        (MkPlan source needle replacement path ms) Hval i m).
    + intros t _. apply unharmed_bind; [|done]. destruct (1 <? pass m)%N; [|done].
      apply unharmed_bind; [|done]. by apply unharmed_map_err, replacement_detail_safe.
  - intros e (t & _ & (d & _ & [= <-])%bind_Ok)%bind_Ok. destruct Hm as [Hs He]. split.
    + split_and!; [done|done|]. simpl. apply match_end_ge.
    + unfold as_match, match_end. simpl. f_equal. lia.
Qed.

Lemma resolve_string_match_spec s v path :
  s = [] ∨ searchable s →
  let r := resolve_string_match detect_language parse_source escape_debug source s v path in
  unharmed r ∧ ∀ es, r = Ok es → Forall (valid_edit source) es.
Proof.
  intros Hs r. unfold r, resolve_string_match. case_bool_decide as Hne; [done|].
  destruct Hs as [|(l & Hl & Hv)]; [done|].
  destruct (ok_or MissingReplacement _) as [replacement|e] eqn:Erep; simpl.
  2:{ split; [|done]. unfold ok_or in Erep. destruct (or_else _ _ ≫= as_str); [done|]. by injection Erep as <-. }
  destruct (_ && _); [done|].
  destruct (occurrence_of (get "occurrence" v)) as [occ|e] eqn:Eocc; simpl.
  2:{ split; [|done]. unfold occurrence_of in Eocc. repeat (case_match; simplify_eq; try done). }
  destruct (find_all_fuzzy_answer source s) as (found & Hfound & _). rewrite Hfound. simpl.
  assert (Forall (valid source) found) as Hval.
  { eapply Forall_impl; [by eapply fuzzy_located|]. intros m. apply located_valid. }
  destruct (decide (found = [])) as [Hnil|Hnil]; [by rewrite bool_decide_eq_true_2|].
  rewrite bool_decide_eq_false_2 by done.
  assert (∀ m, m ∈ found →
    let r := resolve_match detect_language parse_source escape_debug source s replacement path [m] 0 m in
    unharmed (e ← r; Ok [e]) ∧ ∀ es, (e ← r; Ok [e]) = Ok es → Forall (valid_edit source) es) as Hone.
  { intros m Hm. rewrite Forall_forall in Hval.
    destruct (resolve_match_spec s replacement path [m] 0 m) as [H1 H2]; [by constructor; [apply Hval|]|done|].
    split; [by apply unharmed_bind|]. intros es (e & He & [= <-])%bind_Ok. constructor; [by apply H2|done]. }
  destruct (default false _).
  - split.
    + apply unharmed_mapM. intros [i m] (k & x & [= -> ->] & Hk)%elem_of_lookup_imap. by apply resolve_match_spec.
    + intros es Hes. apply Forall_lookup. intros k e Hk.
      destruct (mapM_Ok_lookup_r _ _ _ _ _ Hes Hk) as ([i m] & Him & He).
      rewrite list_lookup_imap in Him. destruct (found !! k) as [x|] eqn:Ex; [|done]. injection Him as <- <-.
      by apply (resolve_match_spec s replacement path found k x).
  - destruct occ as [occ|].
    + destruct (found !! occ) as [m|] eqn:Em; [|done]. apply Hone. by eapply list_elem_of_lookup_2.
    + destruct (1 <? length found).
      * destruct (listing_total source (byte_start <$> found)) as [t ->]; [|done].
        apply Forall_fmap. eapply Forall_impl; [exact Hval|]. by intros m [? _].
      * destruct found as [|m found]; [done|]. simpl. apply Hone. by left.
Qed.

Lemma resolve_edit_spec v path :
  (∀ s, match_text v = Some s → s = [] ∨ searchable s) →
  let r := resolve_edit_with_offsets detect_language parse_source escape_debug source (line_offsets_new source) v path in
  unharmed r ∧ ∀ es, r = Ok es → Forall (valid_edit source) es.
Proof.
  intros Hs r. unfold r, resolve_edit_with_offsets. fold (match_text v).
  destruct (match_text v) as [s|]; [by apply resolve_string_match_spec, Hs|].
  case_bool_decide; [|done]. split; [|by apply resolve_line_range_valid].
  unfold resolve_line_range. apply unharmed_bind; [apply unharmed_ok_or; by left|]. intros a _.
  destruct (_ =? _)%N; [done|]. cbv zeta. apply unharmed_bind; [apply unharmed_ok_or; by left|]. intros b _.
  destruct (_ =? _)%N; [done|]. cbv zeta. apply unharmed_bind; [apply unharmed_ok_or; by left|]. intros c _.
  by repeat case_match.
Qed.

(** C37: a batch of edits is safe for every parser and file: it never panics when every searched
    text is empty or ends in a line with visible text; and when it answers a new text, that
    text is the old one with exactly the resolved edits replaced, each one once and in its
    place, every character between them kept. *)
Theorem batch_text_safe edits path :
  (∀ v s, v ∈ edits → match_text v = Some s → s = [] ∨ searchable s) →
  match batch_text detect_language parse_source escape_debug source edits path with
  | Ok new =>
      ∃ resolved ordered gaps bodies tail,
        mapM (λ v, resolve_edit_with_offsets detect_language parse_source escape_debug source
                     (line_offsets_new source) v (Some path)) edits = Ok resolved ∧
        ordered ≡ₚ concat resolved ∧ edit_spans 0 source ordered gaps bodies tail ∧
        new = weave gaps (edit_text <$> ordered) tail
  | Err e => e ≠ BatchFailed Panicked
  end.
Proof.
  intros Hs. unfold batch_text. set (resolve := λ v, resolve_edit_with_offsets _ _ _ _ _ v _).
  assert (unharmed (mapM resolve edits)) as Hu.
  { apply unharmed_mapM. intros v Hv. apply resolve_edit_spec. intros s. by apply Hs. }
  destruct (mapM resolve edits) as [resolved|e] eqn:E; simpl; [|by intros ->].
  assert (Forall (valid_edit source) (sort_resolved (concat resolved))) as Hval.
  { rewrite sort_resolved_perm. apply Forall_concat, Forall_lookup. intros k es Hk.
    destruct (mapM_Ok_lookup_r _ _ _ _ _ E Hk) as (v & Hv & Hes).
    apply (resolve_edit_spec v (Some path)); [|done]. intros s. apply Hs. by eapply list_elem_of_lookup_2. }
  destruct (batch_overlap _) as [[higher lower]|] eqn:Eov; [done|].
  destruct (build_batch_spec source _ Hval Eov) as (gaps & bodies & tail & Hsp & -> & _). simpl.
  exists resolved, (rev (sort_resolved (concat resolved))), gaps, bodies, tail. split_and!; try done.
  by rewrite <-Permutation_rev, sort_resolved_perm.
Qed.

(** the single pass that assembles a batch gives the text of applying its edits one at a
    time from the bottom of the file to the top, each on the text the one before left. *)
Theorem build_batch_output_in_turn es :
  Forall (valid_edit source) es → batch_overlap es = None →
  build_batch_output source es = apply_in_turn source es ∧ ∃ new, apply_in_turn source es = Ok new.
Proof.
  intros Hval Hov. destruct (build_batch_spec source es Hval Hov) as (gaps & bodies & tail & _ & -> & ->).
  split; [done|by eexists].
Qed.

End Resolve.

(** The byte before a position is a line feed exactly when the text before it ends in one. *)
Lemma last_lf_bytes a b :
  (0 < str_len a)%N → as_bytes (a ++ b) !! N.to_nat (str_len a - 1) = Some LF ↔ ends_with [LF] a = true.
Proof.
  intros Hpos. destruct a as [|c a _] using rev_ind; [by rewrite str_len_nil in Hpos|].
  rewrite as_bytes_app, ends_with_true.
  assert (N.to_nat (str_len (a ++ [c]) - 1) < length (as_bytes (a ++ [c]))) as Hlt.
  { rewrite <-str_len_bytes. lia. }
  rewrite lookup_app_l by done. rewrite str_len_app, as_bytes_app, str_len_singleton. unfold len_utf8.
  pose proof (utf8_char_length c) as Hc. rewrite lookup_app_r by (rewrite <-str_len_bytes; lia).
  rewrite as_bytes_cons, app_nil_r, <-str_len_bytes.
  replace (_ - _) with (length (utf8_char c) - 1) by lia. split.
  - intros H%list_elem_of_lookup_2%elem_of_utf8_char_ascii; [|done]. subst c. by exists a.
  - intros (r & [_ ->]%app_inj_tail). done.
Qed.

Lemma window_ends_with source i j :
  i < j → j ≤ length (pieces source) →
  ends_with [LF] (window_text source i j) = ends_with [LF] (concat (take j (pieces source))).
Proof.
  intros Hij Hj. destruct (lookup_lt_is_Some_2 (pieces source) (j - 1)) as [q Hq]; [lia|].
  assert (∃ x y, window_text source i j = x ++ q ∧ concat (take j (pieces source)) = y ++ q) as (x & y & -> & ->).
  { unfold window_text. replace j with (S (j - 1)) by lia. rewrite (take_S_r _ _ _ Hq).
    rewrite drop_app_le by (rewrite length_take; lia). rewrite !concat_app. simpl. rewrite !app_nil_r. eauto. }
  destruct (exists_last (pieces_nonempty _ _ _ Hq)) as (q' & c & ->).
  assert (∀ z : str, ends_with [LF] (z ++ q' ++ [c]) = true ↔ c = LF) as H.
  { intros z. rewrite ends_with_true, app_assoc. split; [by intros (r & [_ ->]%app_inj_tail)|]. intros ->. by eexists. }
  apply eq_bool_prop_intro. rewrite !Is_true_true, !H. done.
Qed.

(** The lines of a text, its unterminated last line included. *)
Definition line_total (source : str) : nat := length (split_inclusive LF source).

(** C38: a line range is exact: with lines [a] to [b] of the file named and new content given, the
    edit covers exactly those lines (up to the last line when [b] is past it); [b = a - 1]
    inserts before line [a]; line [total + 1] appends; non-empty content ends in a line feed when
    the range ended in a line break, so that the next line is never joined. *)
Theorem resolve_line_range_exact source v a b c :
  get "line_start" v = Some (Num (PosInt a)) → get "line_end" v = Some (Num (PosInt b)) →
  get "content" v = Some (Str c) → (1 ≤ a)%N → (1 ≤ b)%N →
  let total := line_total source in
  let i := N.to_nat (a - 1) in
  let j := Nat.min (N.to_nat b) total in
  resolve_line_range source (line_offsets_new source) v =
    if total <? i then Err (LineStartOutOfRange (N.to_nat a) total)
    else if i =? total then
      Ok [MkEdit (str_len source) (str_len source)
            (ensure_newline (if negb (bool_decide (source = [])) && negb (ends_with [LF] source)
                                && negb (starts_with [LF] c) then [LF] ++ c else c)) None]
    else if N.to_nat b <? i then Err (LineStartAfterEnd (N.to_nat a) (N.to_nat b))
    else if i =? N.to_nat b then Ok [MkEdit (offset source i) (offset source i) (ensure_newline c) None]
    else Ok [MkEdit (offset source i) (offset source j)
               (if negb (bool_decide (c = [])) && ends_with [LF] (window_text source i j)
                then ensure_newline c else c) None].
Proof.
  intros Ha Hb Hc Ha1 Hb1 total i j. unfold line_total in total. unfold resolve_line_range. rewrite Ha, Hb, Hc. simpl.
  destruct (N.eqb_spec a 0) as [|_]; [lia|]. destruct (N.eqb_spec b 0) as [|Hb0]; [lia|].
  rewrite line_count_pieces, !line_offset_offset. fold total i.
  destruct (total <? i) eqn:E1; [done|]. destruct (i =? total) eqn:E2; [done|].
  apply Nat.ltb_ge in E1. apply Nat.eqb_neq in E2.
  replace (N.to_nat (b - 1) + 1) with (N.to_nat b) by lia. destruct (N.to_nat b <? i) eqn:E3; [done|].
  apply Nat.ltb_ge in E3.
  rewrite (bool_decide_eq_false_2 (Some b = Some 0%N)) by congruence. rewrite andb_false_r, orb_false_r.
  destruct (i =? N.to_nat b) eqn:E4; [done|]. apply Nat.eqb_neq in E4.
  replace ((if total <=? N.to_nat (b - 1) then total - 1 else N.to_nat (b - 1)) + 1) with j.
  2:{ unfold j. destruct (Nat.leb_spec total (N.to_nat (b - 1))); lia. }
  set (nl := (0 <? offset source j)%N && _ && _).
  assert (nl = ends_with [LF] (window_text source i j)) as ->; [|done].
  rewrite window_ends_with by (unfold j; lia).
  assert (source = concat (take j (pieces source)) ++ concat (drop j (pieces source))) as Hs.
  { by rewrite <-concat_app, take_drop, split_inclusive_concat. }
  unfold nl, offset. set (x := concat (take j (pieces source))) in *.
  assert (0 < str_len x)%N as Hpos.
  { pose proof (offset_mono source 1 j ltac:(unfold j; lia)) as Hm. unfold offset in Hm. fold x in Hm.
    destruct (pieces source) as [|q qs] eqn:E; [unfold j, total in *; simpl in *; lia|]. simpl in Hm.
    rewrite app_nil_r in Hm. assert (q ≠ []) as Hq by (apply (pieces_nonempty source 0); by rewrite E).
    destruct q as [|d q]; [done|]. rewrite str_len_cons in Hm. pose proof (len_utf8_pos d). lia. }
  destruct (N.ltb_spec 0 (str_len x)); [|lia].
  destruct (N.leb_spec (str_len x) (str_len source)) as [|Hgt].
  2:{ rewrite Hs, str_len_app in Hgt. lia. }
  simpl. rewrite Hs. apply eq_bool_prop_intro. rewrite bool_decide_spec, Is_true_true. by apply last_lf_bytes.
Qed.

(** ** Examples *)

Definition wtext : str := lit "x" ++ [LF] ++ lit "y" ++ [LF].
Definition int (n : N) : Value := Num (PosInt n).
Definition winsert : Value :=
  Object [("line_start", int 2); ("line_end", int 1); ("content", Str (lit "i"))].
Definition wreplace : Value :=
  Object [("line_start", int 2); ("line_end", int 2); ("content", Str (lit "z"))].
Definition wmatch_edit : Value := Object [("match", Str (lit "x ")); ("replacement", Str (lit "w"))].

Definition wbatch (edits : list Value) : result BatchRefusal str :=
  batch_text no_lang no_parse id wtext edits tt.

Lemma batch_text_safe_witness :
  ∃ resolved ordered gaps bodies tail,
    mapM (λ v, resolve_edit_with_offsets no_lang no_parse id wtext (line_offsets_new wtext) v (Some tt))
      [wmatch_edit; wreplace] = Ok resolved ∧
    ordered ≡ₚ concat resolved ∧ edit_spans 0 wtext ordered gaps bodies tail ∧
    lit "w" ++ [LF] ++ lit "z" ++ [LF] = weave gaps (edit_text <$> ordered) tail.
Proof.
  assert (wbatch [wmatch_edit; wreplace] = Ok (lit "w" ++ [LF] ++ lit "z" ++ [LF])) as E
    by (vm_compute; reflexivity).
  pose proof (batch_text_safe no_lang no_parse id wtext [wmatch_edit; wreplace] tt) as H.
  unfold wbatch in E. rewrite E in H. apply H. clear.
  intros v s [->|[->|[]%elem_of_nil]%elem_of_cons]%elem_of_cons Hs; [|discriminate Hs].
  injection Hs as <-. right. exists (lit "x "). split; vm_compute; reflexivity.
Defined.

Lemma build_batch_output_in_turn_witness :
  build_batch_output wtext [MkEdit 2 4 (lit "z") None; MkEdit 0 1 (lit "w") None]
  = Ok (lit "w" ++ [LF] ++ lit "z").
Proof.
  rewrite (proj1 (build_batch_output_in_turn wtext [MkEdit 2 4 (lit "z") None; MkEdit 0 1 (lit "w") None]
    ltac:(repeat constructor; simpl; (lia || (by exists (take 2 wtext), (drop 2 wtext))
            || (by exists wtext, []) || (by exists (take 1 wtext), (drop 1 wtext)) || (by exists [], wtext)))
    eq_refl)).
  vm_compute. reflexivity.
Defined.

Lemma resolve_line_range_exact_witness :
  resolve_line_range wtext (line_offsets_new wtext) wreplace = Ok [MkEdit 2 4 (lit "z" ++ [LF]) None].
Proof.
  rewrite (resolve_line_range_exact wtext wreplace 2 2 (lit "z")); [|reflexivity|reflexivity|reflexivity|lia|lia].
  vm_compute. reflexivity.
Defined.

(** whether a batch is accepted depends on the order in which it lists its edits: replacing
    line 2 and inserting before it is applied when the replacement is listed first and refused
    as an overlap when the insertion is, although the two ranges share no character. *)
Theorem batch_order_matters :
  wbatch [wreplace; winsert] = Ok (lit "x" ++ [LF] ++ lit "i" ++ [LF] ++ lit "z" ++ [LF]) ∧
  wbatch [winsert; wreplace]
  = Err (BatchOverlap (MkEdit 2 4 (lit "z" ++ [LF]) None) (MkEdit 2 2 (lit "i" ++ [LF]) None)).
Proof. vm_compute. done. Qed.

End BatchSpec.
