(* ===== verification/SingleFlight.v ===== *)
(** * The single-flight cache: [executor/single_flight.rs]

    Callers of [get_or_build] as threads that interleave at the mutex and the condition
    variable.  A step is what a thread does while it holds the lock, or the end of its build
    function, which runs outside the lock.  The condition variable wakes a thread only when it
    is notified, as [parking_lot] documents.  What a build function may return is a parameter. *)

From S2P Require Import Prelude.

Module SingleFlight.

Section Flight.
Context {K V : Type} `{Countable K}.

Inductive FlightEntry :=
  | Building (generation : N)
  | Ready (generation : N) (value : V).

(** ** The decisions taken under the lock *)

Inductive EnterAction := ReturnReady (value : V) | WaitReady | StartBuild.

(** The first [match guard.get(&id)]. *)
Definition enter (generation : N) (entry : option FlightEntry) : EnterAction :=
  match entry with
  | Some (Ready ready_generation value) =>
      if (generation <=? ready_generation)%N then ReturnReady value else StartBuild
  | Some (Building building_generation) =>
      if (generation <=? building_generation)%N then WaitReady else StartBuild
  | None => StartBuild
  end.

Inductive FinishAction := WaitNewer | TakeReady (value : V) | KeepOwn | Install.

(** The second [match guard.get(&id)], after the build. *)
Definition finish (generation : N) (superseded : bool) (entry : option FlightEntry) : FinishAction :=
  let otherwise := if superseded then KeepOwn else Install in
  match entry with
  | Some (Building current_generation) =>
      if (generation <? current_generation)%N then WaitNewer else otherwise
  | Some (Ready current_generation value) =>
      if (generation <=? current_generation)%N then TakeReady value else otherwise
  | None => otherwise
  end.

(** The table change of [clear_building]. *)
Definition clear_building (id : K) (generation : N) (inner : gmap K FlightEntry) : gmap K FlightEntry :=
  match inner !! id with
  | Some (Building current_generation) =>
      if (current_generation =? generation)%N then delete id inner else inner
  | _ => inner
  end.

(** ** Threads *)

(** Where a call of [get_or_build] is. *)
Inductive Pc :=
  | Entering                                (** about to lock the table for the first [match] *)
  | AsleepEntering                          (** in [changed.wait] of the first loop *)
  | RunningBuild                            (** running [build_fn], the lock released *)
  | Built (value : V) (superseded : bool)   (** about to lock the table for the second [match] *)
  | AsleepBuilt (value : V)                 (** in [changed.wait] of the second loop *)
  | Clearing                                (** [build_fn] failed or panicked; about to drop the cleanup *)
  | Returned (value : V)
  | Failed.

Record Thread := MkThread { id : K; generation : N; pc : Pc }.

Definition set_pc (t : Thread) (p : Pc) : Thread := MkThread (id t) (generation t) p.

(** [notify_all]. *)
Definition wake (t : Thread) : Thread :=
  match pc t with
  | AsleepEntering => set_pc t Entering
  | AsleepBuilt value => set_pc t (Built value true)
  | _ => t
  end.

Record State := MkState { inner : gmap K FlightEntry; threads : list Thread }.

(** Thread [i] moves on; others sleep on. *)
Definition advance (s : State) (i : nat) (t : Thread) (p : Pc) : State :=
  MkState (inner s) (<[i := set_pc t p]> (threads s)).
(** Thread [i] moves on with a changed table and notifies the others. *)
Definition advance_notify (s : State) (i : nat) (t : Thread) (p : Pc) (m : gmap K FlightEntry) : State :=
  MkState m (<[i := set_pc t p]> (wake <$> threads s)).

(** What thread [i] does when it gets the lock; [None] when it does not want it. *)
Definition run_locked (s : State) (i : nat) : option State :=
  t ← threads s !! i;
  let entry := inner s !! id t in
  match pc t with
  | Entering =>
      Some (match enter (generation t) entry with
            | ReturnReady value => advance s i t (Returned value)
            | WaitReady => advance s i t AsleepEntering
            | StartBuild =>
                MkState (<[id t := Building (generation t)]> (inner s)) (<[i := set_pc t RunningBuild]> (threads s))
            end)
  | Built value superseded =>
      Some (match finish (generation t) superseded entry with
            | WaitNewer => advance s i t (AsleepBuilt value)
            | TakeReady ready => advance_notify s i t (Returned ready) (inner s)
            | KeepOwn => advance_notify s i t (Returned value) (inner s)
            | Install =>
                advance_notify s i t (Returned value) (<[id t := Ready (generation t) value]> (inner s))
            end)
  | Clearing => Some (advance_notify s i t Failed (clear_building (id t) (generation t) (inner s)))
  | _ => None
  end.

(** The end of a build: a value, or an error or panic. *)
Definition end_build (s : State) (i : nat) (result : option V) : option State :=
  t ← threads s !! i;
  match pc t with
  | RunningBuild =>
      Some (advance s i t (match result with Some value => Built value false | None => Clearing end))
  | _ => None
  end.

(** [made k g v]: a build of key [k] at generation [g] may return [v]. *)
Context (made : K → N → V → Prop).

Inductive step : State → State → Prop :=
  | step_locked s i s' : run_locked s i = Some s' → step s s'
  | step_failed s i s' : end_build s i None = Some s' → step s s'
  | step_built s i t v s' :
      threads s !! i = Some t → made (id t) (generation t) v →
      end_build s i (Some v) = Some s' → step s s'.

(** An empty cache and some calls. *)
Definition calls (ks : list (K * N)) : State := MkState ∅ ((λ '(k, g), MkThread k g Entering) <$> ks).

Definition reachable (ks : list (K * N)) (s : State) : Prop := rtc step (calls ks) s.

(** A call that has returned. *)
Definition finished (t : Thread) : bool := match pc t with Returned _ | Failed => true | _ => false end.

End Flight.

Arguments FlightEntry V : clear implicits.
Arguments Pc V : clear implicits.
Arguments Thread K V : clear implicits.
Arguments State K V {_ _}.

End SingleFlight.
