(* ===== verification/SingleFlightSpec.v ===== *)
(** * What the single-flight cache promises

    Whatever the interleaving: no call sleeps on a build that nobody runs, every run ends with
    every call answered, and an answer was built at the asked generation or a later one.  Calls
    of one generation share one build. *)

From S2P Require Import Prelude SingleFlight.
Import SingleFlight.

Module SingleFlightSpec.

Section Spec.
Context {K V : Type} `{Countable K}.
Context (made : K → N → V → Prop).

#[local] Abbreviation state := (State K V).
#[local] Abbreviation step := (step made).

(** ** Shape of a step *)

(** The thread that steps, and what it does to the table and to the other threads. *)
Inductive effect (s : state) (i : nat) (t : Thread K V) : state → Prop :=
  | eff_return v g :
      pc t = Entering → inner s !! id t = Some (Ready g v) → (generation t ≤ g)%N →
      effect s i t (advance s i t (Returned v))
  | eff_sleep g :
      pc t = Entering → inner s !! id t = Some (Building g) → (generation t ≤ g)%N →
      effect s i t (advance s i t AsleepEntering)
  | eff_start :
      pc t = Entering →
      match inner s !! id t with
      | Some (Building g) | Some (Ready g _) => (g < generation t)%N
      | None => True
      end →
      effect s i t (MkState (<[id t := Building (generation t)]> (inner s)) (<[i := set_pc t RunningBuild]> (threads s)))
  | eff_fail : pc t = RunningBuild → effect s i t (advance s i t Clearing)
  | eff_built v :
      pc t = RunningBuild → made (id t) (generation t) v → effect s i t (advance s i t (Built v false))
  | eff_wait v b g :
      pc t = Built v b → inner s !! id t = Some (Building g) → (generation t < g)%N →
      effect s i t (advance s i t (AsleepBuilt v))
  | eff_take v b w g :
      pc t = Built v b → inner s !! id t = Some (Ready g w) → (generation t ≤ g)%N →
      effect s i t (advance_notify s i t (Returned w) (inner s))
  | eff_keep v : pc t = Built v true → effect s i t (advance_notify s i t (Returned v) (inner s))
  | eff_install v :
      pc t = Built v false →
      match inner s !! id t with
      | Some (Building g) => (g ≤ generation t)%N
      | Some (Ready g _) => (g < generation t)%N
      | None => True
      end →
      effect s i t (advance_notify s i t (Returned v) (<[id t := Ready (generation t) v]> (inner s)))
  | eff_clear :
      pc t = Clearing →
      effect s i t (advance_notify s i t Failed (clear_building (id t) (generation t) (inner s))).

Lemma step_effect s s' : step s s' → ∃ i t, threads s !! i = Some t ∧ effect s i t s'.
Proof.
  intros Hst. destruct Hst as [s i s' Hr|s i s' Hr|s i t v s' Ht Hm Hr].
  - unfold run_locked in Hr. destruct (threads s !! i) as [t|] eqn:Ht; [|done]. simpl in Hr. exists i, t. split; [done|].
    destruct (pc t) as [| | |v b| | | |] eqn:Hp; try done; injection Hr as <-.
    + unfold enter. destruct (inner s !! id t) as [[g|g v]|] eqn:E.
      * destruct (N.leb_spec (generation t) g); [by eapply eff_sleep|]. apply eff_start; [done|by rewrite E].
      * destruct (N.leb_spec (generation t) g); [by eapply eff_return|]. apply eff_start; [done|by rewrite E].
      * apply eff_start; [done|by rewrite E].
    + unfold finish. destruct (inner s !! id t) as [[g|g w]|] eqn:E.
      * destruct (N.ltb_spec (generation t) g); [by eapply eff_wait|].
        destruct b; [by eapply eff_keep|]. apply eff_install; [done|by rewrite E].
      * destruct (N.leb_spec (generation t) g); [by eapply eff_take|].
        destruct b; [by eapply eff_keep|]. apply eff_install; [done|by rewrite E].
      * destruct b; [by eapply eff_keep|]. apply eff_install; [done|by rewrite E].
    + by apply eff_clear.
  - unfold end_build in Hr. destruct (threads s !! i) as [t|] eqn:Ht; [|done]. exists i, t. split; [done|].
    simpl in Hr. destruct (pc t) eqn:Hp; try done. injection Hr as <-. by apply eff_fail.
  - unfold end_build in Hr. rewrite Ht in Hr. exists i, t. split; [done|].
    simpl in Hr. destruct (pc t) eqn:Hp; try done. injection Hr as <-. by apply eff_built.
Qed.

Lemma wake_id (t : Thread K V) : id (wake t) = id t.
Proof. unfold wake. by destruct (pc t). Qed.
Lemma wake_generation (t : Thread K V) : generation (wake t) = generation t.
Proof. unfold wake. by destruct (pc t). Qed.

(** A thread after a step: the one that moved, or another one, perhaps woken. *)
Lemma lookup_advance (s : state) i t p j u :
  threads s !! i = Some t →
  threads (advance s i t p) !! j = Some u → j = i ∧ u = set_pc t p ∨ j ≠ i ∧ threads s !! j = Some u.
Proof.
  intros Ht. simpl. destruct (decide (i = j)) as [->|Hne].
  - rewrite list_lookup_insert_eq by (by eapply lookup_lt_Some). intros [= <-]. by left.
  - rewrite list_lookup_insert_ne by done. auto.
Qed.

Lemma lookup_notify (s : state) i t p m j u :
  threads s !! i = Some t →
  threads (advance_notify s i t p m) !! j = Some u →
  j = i ∧ u = set_pc t p ∨ j ≠ i ∧ ∃ u0, threads s !! j = Some u0 ∧ u = wake u0.
Proof.
  intros Ht. simpl. destruct (decide (i = j)) as [->|Hne].
  - rewrite list_lookup_insert_eq by (rewrite length_fmap; by eapply lookup_lt_Some). intros [= <-]. by left.
  - rewrite list_lookup_insert_ne, list_lookup_fmap by done. intros (u0 & Hu0 & ->)%fmap_Some. eauto.
Qed.

(** ** The invariant *)

(** A call that will still settle the [Building] entry it made. *)
Definition owns (t : Thread K V) (k : K) (g : N) : Prop :=
  id t = k ∧ generation t = g ∧
  match pc t with RunningBuild | Built _ false | Clearing => True | _ => False end.

(** What is true of one call, given the table. *)
Definition thread_ok (m : gmap K (FlightEntry V)) (t : Thread K V) : Prop :=
  match pc t with
  | AsleepEntering => ∃ g, m !! id t = Some (Building g) ∧ (generation t ≤ g)%N
  | AsleepBuilt v => made (id t) (generation t) v ∧
      ∃ g, m !! id t = Some (Building g) ∧ (generation t < g)%N
  | Built v _ => made (id t) (generation t) v
  | Returned v => ∃ g, (generation t ≤ g)%N ∧ made (id t) g v
  | _ => True
  end.

Record flight_inv (s : state) : Prop := {
  inv_owner : ∀ k g, inner s !! k = Some (Building g) → ∃ i t, threads s !! i = Some t ∧ owns t k g;
  inv_ready : ∀ k g v, inner s !! k = Some (Ready g v) → made k g v;
  inv_threads : ∀ i t, threads s !! i = Some t → thread_ok (inner s) t }.

(** A woken call waits for nothing. *)
Lemma thread_ok_wake m m' t : thread_ok m t → thread_ok m' (wake t).
Proof. unfold thread_ok, wake. destruct (pc t) eqn:E; simpl; rewrite ?E; try done. by intros [? _]. Qed.

(** The waits of a call hold when its entry is only superseded. *)
Lemma thread_ok_supersede m k g t :
  match m !! k with Some (Building g0) => (g0 < g)%N | _ => True end →
  thread_ok m t → thread_ok (<[k := Building g]> m) t.
Proof.
  intros Hg. unfold thread_ok. destruct (decide (id t = k)) as [->|Hne]; [|by rewrite !lookup_insert_ne].
  rewrite !lookup_insert_eq. destruct (pc t); try done.
  - intros (g0 & E & Hle). rewrite E in Hg. exists g. split; [done|lia].
  - intros (Hm & g0 & E & Hlt). rewrite E in Hg. split; [done|]. exists g. split; [done|lia].
Qed.

Lemma owns_wake t k g : owns t k g → owns (wake t) k g.
Proof. unfold owns, wake. destruct (pc t) eqn:E; simpl; rewrite ?E; done || by intros (? & ? & []). Qed.

Lemma lookup_insert_other {A} (l : list A) i j x y : j ≠ i → l !! j = Some y → <[i := x]> l !! j = Some y.
Proof. intros. by rewrite list_lookup_insert_ne. Qed.

Lemma inv_advance s i t p :
  flight_inv s → threads s !! i = Some t → thread_ok (inner s) (set_pc t p) →
  (∀ k g, inner s !! k = Some (Building g) → owns t k g → owns (set_pc t p) k g) →
  flight_inv (advance s i t p).
Proof.
  intros Hinv Ht Hp Ho. split; simpl.
  - intros k g E. destruct (inv_owner s Hinv k g E) as (j & u & Hu & Hown).
    destruct (decide (j = i)) as [->|Hne].
    + exists i, (set_pc t p). assert (u = t) as -> by congruence. split; [|by apply Ho].
      apply list_lookup_insert_eq. by eapply lookup_lt_Some.
    + exists j, u. split; [by apply lookup_insert_other|done].
  - apply (inv_ready s Hinv).
  - intros j u Hu. destruct (lookup_advance s i t p j u Ht Hu) as [[-> ->]|[_ Hu0]]; [done|].
    by eapply (inv_threads s Hinv).
Qed.

Lemma inv_notify s i t p m :
  flight_inv s → threads s !! i = Some t → thread_ok m (set_pc t p) →
  (∀ k g v, m !! k = Some (Ready g v) → made k g v) →
  (∀ k g, m !! k = Some (Building g) → inner s !! k = Some (Building g) ∧ ¬ owns t k g) →
  flight_inv (advance_notify s i t p m).
Proof.
  intros Hinv Ht Hp Hr Hb. split; simpl.
  - intros k g [E Hno]%Hb. destruct (inv_owner s Hinv k g E) as (j & u & Hu & Hown).
    destruct (decide (j = i)) as [->|Hne]; [by assert (u = t) as -> by congruence|].
    exists j, (wake u). split; [|by apply owns_wake]. apply lookup_insert_other; [done|].
    by rewrite list_lookup_fmap, Hu.
  - done.
  - intros j u Hu. destruct (lookup_notify s i t p m j u Ht Hu) as [[-> ->]|(_ & u0 & Hu0 & ->)]; [done|].
    eapply thread_ok_wake. by eapply (inv_threads s Hinv).
Qed.

Lemma inv_start s i t :
  flight_inv s → threads s !! i = Some t →
  match inner s !! id t with
  | Some (Building g) | Some (Ready g _) => (g < generation t)%N
  | None => True
  end →
  flight_inv (MkState (<[id t := Building (generation t)]> (inner s)) (<[i := set_pc t RunningBuild]> (threads s))).
Proof.
  intros Hinv Ht Hg. split; simpl.
  - intros k g. destruct (decide (id t = k)) as [<-|Hne].
    + rewrite lookup_insert_eq. intros [= <-]. exists i, (set_pc t RunningBuild). split; [|done].
      apply list_lookup_insert_eq. by eapply lookup_lt_Some.
    + rewrite lookup_insert_ne by done. intros E.
      destruct (inv_owner s Hinv k g E) as (j & u & Hu & Hown).
      destruct (decide (j = i)) as [->|Hji].
      * assert (u = t) as -> by congruence. by destruct Hown as (? & _).
      * exists j, u. split; [by apply lookup_insert_other|done].
  - intros k g v. destruct (decide (id t = k)) as [<-|Hne]; [by rewrite lookup_insert_eq|].
    rewrite lookup_insert_ne by done. apply (inv_ready s Hinv).
  - intros j u Hu. apply thread_ok_supersede; [by destruct (inner s !! id t) as [[]|]|].
    destruct (lookup_advance s i t RunningBuild j u Ht Hu) as [[-> ->]|[_ Hu0]]; [done|].
    by eapply (inv_threads s Hinv).
Qed.

Lemma clear_building_lookup k g (m : gmap K (FlightEntry V)) k' e :
  clear_building k g m !! k' = Some e → m !! k' = Some e ∧ ¬ (k' = k ∧ e = Building g).
Proof.
  unfold clear_building. destruct (m !! k) as [[g'|g' v]|] eqn:E.
  - destruct (N.eqb_spec g' g) as [->|Hne].
    + destruct (decide (k' = k)) as [->|Hk]; [by rewrite lookup_delete_eq|].
      rewrite lookup_delete_ne by done. naive_solver.
    + intros H'. split; [done|]. intros [-> ->]. congruence.
  - intros H'. split; [done|]. intros [-> ->]. congruence.
  - intros H'. split; [done|]. intros [-> ->]. congruence.
Qed.

Lemma clear_building_ne k g (m : gmap K (FlightEntry V)) k' :
  k ≠ k' → clear_building k g m !! k' = m !! k'.
Proof.
  intros Hne. unfold clear_building. destruct (m !! k) as [[g'|]|]; try done.
  destruct (_ =? _)%N; [by rewrite lookup_delete_ne|done].
Qed.

Lemma inv_step s s' : flight_inv s → step s s' → flight_inv s'.
Proof.
  intros Hinv (i & t & Ht & He)%step_effect. pose proof (inv_threads s Hinv i t Ht) as Hok.
  destruct He as [v g Hp E Hg|g Hp E Hg|Hp E|Hp|v Hp Hm|v b g Hp E Hg|v b w g Hp E Hg|v Hp|v Hp E|Hp];
    unfold thread_ok in Hok; rewrite Hp in Hok.
  - apply inv_advance; [done|done| |]; [exists g; split; [done|by eapply inv_ready]|].
    unfold owns. rewrite Hp. by intros ??? (_ & _ & ?).
  - apply inv_advance; [done|done|by exists g|]. unfold owns. rewrite Hp. by intros ??? (_ & _ & ?).
  - by apply inv_start.
  - apply inv_advance; [done..|]. intros k g _ (? & ? & _). done.
  - apply inv_advance; [done..|]. intros k g _ (? & ? & _). done.
  - apply inv_advance; [done|done|split; [done|by exists g]|]. intros k g' E' (Hk & Hg' & _). subst. exfalso.
    rewrite E in E'. injection E' as ->. lia.
  - apply inv_notify; [done|done| |apply (inv_ready s Hinv)|].
    + exists g. split; [done|by eapply inv_ready].
    + intros k g' E'. split; [done|]. intros (<- & _). congruence.
  - apply inv_notify; [done|done|by exists (generation t)|apply (inv_ready s Hinv)|].
    intros k g' E'. split; [done|]. intros (_ & _ & Ho). by rewrite Hp in Ho.
  - apply inv_notify; [done|done|by exists (generation t)| |].
    + intros k g v'. destruct (decide (id t = k)) as [<-|Hne]; [rewrite lookup_insert_eq; by intros [= <- <-]|].
      rewrite lookup_insert_ne by done. apply (inv_ready s Hinv).
    + intros k g. destruct (decide (id t = k)) as [<-|Hne]; [by rewrite lookup_insert_eq|].
      rewrite lookup_insert_ne by done. intros E'. split; [done|]. by intros (? & _).
  - apply inv_notify; [done|done|done| |].
    + intros k g v [E _]%clear_building_lookup. by eapply inv_ready.
    + intros k g [E Hno]%clear_building_lookup. split; [done|]. intros (<- & <- & _). by apply Hno.
Qed.

Lemma inv_calls ks : flight_inv (calls ks).
Proof.
  split; simpl; [done|done|]. intros i t. rewrite list_lookup_fmap. intros ([k g] & _ & ->)%fmap_Some. done.
Qed.

Lemma inv_reachable ks s : reachable made ks s → flight_inv s.
Proof.
  intros Hr. unfold reachable in Hr. remember (calls ks) as s0. assert (flight_inv s0) by (subst; apply inv_calls).
  clear Heqs0. induction Hr; [done|]. eauto using inv_step.
Qed.

(** ** Progress *)

(** A call that can move: it wants the lock, or it runs its build function. *)
Definition can_move (t : Thread K V) : bool :=
  match pc t with Entering | RunningBuild | Built _ _ | Clearing => true | _ => false end.

Lemma can_move_steps s i t : threads s !! i = Some t → can_move t = true → ∃ s', step s s'.
Proof.
  intros Ht Hm. unfold can_move in Hm. destruct (pc t) eqn:Hp; try done.
  - eexists. apply (step_locked made s i). unfold run_locked. rewrite Ht. simpl. by rewrite Hp.
  - eexists. apply (step_failed made s i). unfold end_build. rewrite Ht. simpl. by rewrite Hp.
  - eexists. apply (step_locked made s i). unfold run_locked. rewrite Ht. simpl. by rewrite Hp.
  - eexists. apply (step_locked made s i). unfold run_locked. rewrite Ht. simpl. by rewrite Hp.
Qed.

(** Behind a sleeping call is a call that can move. *)
Lemma asleep_owner s k g :
  flight_inv s → inner s !! k = Some (Building g) → ∃ i t, threads s !! i = Some t ∧ can_move t = true.
Proof.
  intros Hinv E. destruct (inv_owner s Hinv k g E) as (i & t & Ht & _ & _ & Ho). exists i, t. split; [done|].
  unfold can_move. by destruct (pc t) as [| | |? []| | | |].
Qed.

Lemma progress s :
  flight_inv s → (∃ i t, threads s !! i = Some t ∧ finished t = false) →
  ∃ i t, threads s !! i = Some t ∧ can_move t = true.
Proof.
  intros Hinv (i & t & Ht & Hf). pose proof (inv_threads s Hinv i t Ht) as Hok.
  destruct (can_move t) eqn:Hm; [by exists i, t|]. unfold can_move, finished, thread_ok in *.
  destruct (pc t); try done.
  - destruct Hok as (g & E & _). by eapply asleep_owner.
  - destruct Hok as (_ & g & E & _). by eapply asleep_owner.
Qed.

(** ** Termination *)

(** Phases a call still has before it. *)
Definition phase (t : Thread K V) : nat :=
  match pc t with
  | Entering | AsleepEntering => 3
  | RunningBuild => 2
  | Built _ _ | AsleepBuilt _ | Clearing => 1
  | Returned _ | Failed => 0
  end.
Definition awake (t : Thread K V) : nat :=
  match pc t with AsleepEntering | AsleepBuilt _ => 0 | _ => 1 end.

Lemma phase_wake t : phase (wake t) = phase t.
Proof. unfold wake, phase. by destruct (pc t) eqn:E; rewrite ?E. Qed.

Lemma total_wake_phase ts : total phase (wake <$> ts) = total phase ts.
Proof.
  unfold total. induction ts as [|t ts IH]; [done|]. rewrite !fmap_cons. cbn [list_sum foldr].
  unfold list_sum in IH. rewrite IH. f_equal. apply phase_wake.
Qed.

Lemma total_awake ts : total awake ts ≤ length ts.
Proof.
  unfold total, list_sum. induction ts as [|t ts IH]; [done|]. rewrite fmap_cons. cbn [foldr length].
  assert (awake t ≤ 1) by (unfold awake; destruct (pc t); lia). lia.
Qed.

(** Each phase is worth waking everyone; a call that falls asleep uses up one of those. *)
Definition measure (s : state) : nat :=
  total phase (threads s) * S (length (threads s)) + total awake (threads s).

Lemma measure_advance s i t p :
  threads s !! i = Some t →
  phase (set_pc t p) < phase t ∧ awake t = 1 ∨ phase (set_pc t p) = phase t ∧ awake t = 1 ∧ awake (set_pc t p) = 0 →
  ∀ m, measure (MkState m (<[i := set_pc t p]> (threads s))) < measure s.
Proof.
  intros Ht Hcase m. unfold measure. simpl. rewrite length_insert.
  pose proof (total_insert phase _ _ _ (set_pc t p) Ht). pose proof (total_insert awake _ _ _ (set_pc t p) Ht).
  assert (awake (set_pc t p) ≤ 1) by (unfold awake; destruct (pc _); lia).
  destruct Hcase as [[Hlt Ha]|(Heq & Ha & Ha')]; [nia|].
  assert (total phase (<[i:=set_pc t p]> (threads s)) = total phase (threads s)) as -> by lia. lia.
Qed.

Lemma measure_notify s i t p m :
  threads s !! i = Some t → phase (set_pc t p) < phase t → measure (advance_notify s i t p m) < measure s.
Proof.
  intros Ht Hlt. unfold measure, advance_notify. simpl. rewrite length_insert, length_fmap.
  assert ((wake <$> threads s) !! i = Some (wake t)) as Hw by (by rewrite list_lookup_fmap, Ht).
  pose proof (total_insert phase _ _ _ (set_pc t p) Hw) as Hp. rewrite total_wake_phase in Hp.
  pose proof (total_awake (<[i:=set_pc t p]> (wake <$> threads s))) as Ha. rewrite length_insert, length_fmap in Ha.
  rewrite phase_wake in Hp. nia.
Qed.

Lemma measure_step s s' : step s s' → measure s' < measure s.
Proof.
  intros (i & t & Ht & He)%step_effect.
  destruct He as [v g Hp E Hg|g Hp E Hg|Hp E|Hp|v Hp Hm|v b g Hp E Hg|v b w g Hp E Hg|v Hp|v Hp E|Hp];
    try (apply measure_notify; [done|unfold phase; rewrite Hp; simpl; lia]);
    (apply measure_advance; [done|]); unfold phase, awake; rewrite Hp; simpl; auto with lia.
Qed.

Lemma threads_length s s' : step s s' → length (threads s') = length (threads s).
Proof.
  intros (i & t & Ht & He)%step_effect. destruct He; simpl; by rewrite length_insert, ?length_fmap.
Qed.

(** Steps any run of [n] calls can take. *)
Definition run_bound (n : nat) : nat := 3 * n * S n + n.

Lemma measure_calls (ks : list (K * N)) : measure (calls ks) = run_bound (length ks).
Proof.
  unfold measure, run_bound, calls. simpl. rewrite length_fmap.
  assert (total phase ((λ '(k, g), MkThread k g Entering) <$> ks) = 3 * length ks ∧
    total awake ((λ '(k, g), MkThread k g Entering) <$> ks) = length ks) as [-> ->]; [|done].
  unfold total, list_sum. induction ks as [|[k g] ks [IH1 IH2]]; [done|]. rewrite !fmap_cons. cbn [foldr length].
  rewrite IH1, IH2. unfold phase, awake. simpl. lia.
Qed.

Lemma nsteps_measure n s s' : nsteps step n s s' → n + measure s' ≤ measure s.
Proof. induction 1 as [|n s1 s2 s3 Hst _ IH]; [lia|]. pose proof (measure_step _ _ Hst). lia. Qed.

(** ** Calls of one generation *)

(** A call that has not started a build and has no value. *)
Definition idle (t : Thread K V) : Prop :=
  match pc t with Entering | AsleepEntering | Failed => True | _ => False end.
(** The call that builds for everyone. *)
Definition busy (t : Thread K V) : Prop :=
  match pc t with RunningBuild | Built _ false | Clearing => True | _ => False end.

(** What the entry of key [k] says of its calls, when they all ask for one generation. *)
Definition key_ok (e : option (FlightEntry V)) (ts : list (Thread K V)) (k : K) : Prop :=
  match e with
  | None => ∀ j u, ts !! j = Some u → id u = k → idle u
  | Some (Building g) =>
      ∃ i t, ts !! i = Some t ∧ id t = k ∧ busy t ∧
        ∀ j u, ts !! j = Some u → id u = k → generation u = g ∧ (j = i ∨ idle u)
  | Some (Ready g v) => ∀ j u, ts !! j = Some u → id u = k → generation u = g ∧ (idle u ∨ pc u = Returned v)
  end.

Definition shared_inv (s : state) : Prop := ∀ k, key_ok (inner s !! k) (threads s) k.

Definition uniform (ts : list (Thread K V)) : Prop :=
  ∀ i j t u, ts !! i = Some t → ts !! j = Some u → id t = id u → generation t = generation u.

Lemma idle_wake (t : Thread K V) : idle t → idle (wake t).
Proof. unfold idle, wake. by destruct (pc t) eqn:E; simpl; rewrite ?E. Qed.
Lemma busy_wake (t : Thread K V) : busy t → busy (wake t).
Proof. unfold busy, wake. by destruct (pc t) eqn:E; simpl; rewrite ?E. Qed.
Lemma returned_wake (t : Thread K V) v : pc t = Returned v → pc (wake t) = Returned v.
Proof. unfold wake. by intros E; rewrite E. Qed.

(** The threads after a step of thread [i]. *)
Definition moved (ts ts' : list (Thread K V)) (i : nat) (t : Thread K V) (p : Pc V) : Prop :=
  ts !! i = Some t ∧ ts' !! i = Some (set_pc t p) ∧ length ts' = length ts ∧
  ∀ j u', j ≠ i → ts' !! j = Some u' → ∃ u, ts !! j = Some u ∧ (u' = u ∨ u' = wake u).

Lemma moved_advance ts i t p : ts !! i = Some t → moved ts (<[i := set_pc t p]> ts) i t p.
Proof.
  intros Ht. split_and!; [done|apply list_lookup_insert_eq; by eapply lookup_lt_Some|by rewrite length_insert|].
  intros j u' Hj. rewrite list_lookup_insert_ne by done. eauto.
Qed.

Lemma moved_notify ts i t p : ts !! i = Some t → moved ts (<[i := set_pc t p]> (wake <$> ts)) i t p.
Proof.
  intros Ht. split_and!; [done| | |].
  - apply list_lookup_insert_eq. rewrite length_fmap. by eapply lookup_lt_Some.
  - by rewrite length_insert, length_fmap.
  - intros j u' Hj. rewrite list_lookup_insert_ne, list_lookup_fmap by done.
    intros (u & Hu & ->)%fmap_Some. eauto.
Qed.

Lemma moved_kept ts ts' i t p j u' :
  moved ts ts' i t p → j ≠ i → ts' !! j = Some u' →
  ∃ u, ts !! j = Some u ∧ id u' = id u ∧ generation u' = generation u ∧
    (idle u → idle u') ∧ (busy u → busy u') ∧ ∀ v, pc u = Returned v → pc u' = Returned v.
Proof.
  intros (_ & _ & _ & Hm) Hj Hu'. destruct (Hm j u' Hj Hu') as (u & Hu & [->| ->]); exists u; [done|].
  rewrite wake_id, wake_generation. split_and!; auto using idle_wake, busy_wake, returned_wake.
Qed.

(** The thread at [j] after the step, given what it was. *)
Lemma moved_to ts ts' i t p j u :
  moved ts ts' i t p → j ≠ i → ts !! j = Some u →
  ∃ u', ts' !! j = Some u' ∧ id u' = id u ∧ (busy u → busy u').
Proof.
  intros Hm Hj Hu. destruct (lookup_lt_is_Some_2 ts' j) as [u' Hu'].
  { destruct Hm as (_ & _ & -> & _). by eapply lookup_lt_Some. }
  destruct (moved_kept _ _ _ _ _ _ _ Hm Hj Hu') as (u0 & Hu0 & Hid & _ & _ & Hb & _).
  assert (u0 = u) as -> by congruence. by exists u'.
Qed.

(** Keys of other calls see nothing of the step. *)
Lemma key_ok_other e ts ts' i t p k :
  moved ts ts' i t p → id t ≠ k → key_ok e ts k → key_ok e ts' k.
Proof.
  intros Hm Hk. assert (∀ j u', ts' !! j = Some u' → id u' = k → j ≠ i) as Hj.
  { intros j u' Hu' <- ->. destruct Hm as (_ & Hi & _). rewrite Hi in Hu'. injection Hu' as <-. by apply Hk. }
  destruct e as [[g|g v]|]; simpl.
  - intros (o & t0 & Ho & Hok & Hb & Hall).
    assert (o ≠ i) as Hoi by (intros ->; destruct Hm as (Hi & _); congruence).
    destruct (moved_to _ _ _ _ _ _ _ Hm Hoi Ho) as (u' & Hu' & Hid & Hbu).
    exists o, u'. split_and!; [done|congruence|auto|]. intros j u1 Hu1 Hid1.
    destruct (moved_kept _ _ _ _ _ _ _ Hm (Hj _ _ Hu1 Hid1) Hu1) as (u & Hu & Hi & Hg & H1 & _).
    rewrite Hg. destruct (Hall j u Hu) as [? [?|?]]; [congruence|auto|auto].
  - intros Hall j u' Hu' Hid. destruct (moved_kept _ _ _ _ _ _ _ Hm (Hj _ _ Hu' Hid) Hu') as (u & Hu & Hi & Hg & H1 & _ & H3).
    rewrite Hg. destruct (Hall j u Hu) as [? [?|?]]; [congruence|auto|auto].
  - intros Hall j u' Hu' Hid. destruct (moved_kept _ _ _ _ _ _ _ Hm (Hj _ _ Hu' Hid) Hu') as (u & Hu & Hi & Hg & H1 & _).
    apply H1, (Hall j u Hu). congruence.
Qed.

(** The call that moved stays idle, or takes the ready value. *)
Lemma key_ok_idle e ts ts' i t p :
  moved ts ts' i t p → key_ok e ts (id t) → idle t →
  (idle (set_pc t p) ∨ ∃ g v, e = Some (Ready g v) ∧ p = Returned v) → key_ok e ts' (id t).
Proof.
  intros Hm Hok Ht Hp. pose proof Hm as (Hi & Hi' & _).
  assert (∀ j u', ts' !! j = Some u' → j = i ∧ u' = set_pc t p ∨ j ≠ i) as Hj.
  { intros j u' Hu'. destruct (decide (j = i)) as [->|]; [left|by right]. split; [done|congruence]. }
  destruct e as [[g|g v]|]; simpl in *.
  - destruct Hp as [Hp|(? & ? & [=] & _)]. destruct Hok as (o & t0 & Ho & Hid0 & Hb & Hall).
    assert (o ≠ i) as Hoi.
    { intros ->. assert (t0 = t) as -> by congruence. unfold idle, busy in *. by destruct (pc t) as [| | |? []| | | |]. }
    destruct (moved_to _ _ _ _ _ _ _ Hm Hoi Ho) as (u' & Hu' & Hid & Hbu).
    exists o, u'. split_and!; [done|congruence|auto|]. intros j u1 Hu1 Hid1.
    destruct (Hj _ _ Hu1) as [[-> ->]|Hne]; [destruct (Hall i t Hi eq_refl); auto|].
    destruct (moved_kept _ _ _ _ _ _ _ Hm Hne Hu1) as (u & Hu & Hiu & Hg & H1 & _).
    rewrite Hg. destruct (Hall j u Hu) as [? [?|?]]; [congruence|auto|auto].
  - intros j u' Hu' Hid. destruct (Hj _ _ Hu') as [[-> ->]|Hne].
    + destruct (Hok i t Hi eq_refl) as [Hg _]. split; [done|]. destruct Hp as [|(? & ? & [= <- <-] & ->)]; auto.
    + destruct (moved_kept _ _ _ _ _ _ _ Hm Hne Hu') as (u & Hu & Hiu & Hg & H1 & _ & H3).
      rewrite Hg. destruct (Hok j u Hu) as [? [?|?]]; [congruence|auto|auto].
  - destruct Hp as [Hp|(? & ? & [=] & _)]. intros j u' Hu' Hid. destruct (Hj _ _ Hu') as [[-> ->]|Hne]; [done|].
    destruct (moved_kept _ _ _ _ _ _ _ Hm Hne Hu') as (u & Hu & Hiu & Hg & H1 & _).
    apply H1, (Hok j u Hu). congruence.
Qed.

(** A call that has started a build owns the entry, and the others of its key are idle. *)
Lemma busy_entry e ts i t :
  key_ok e ts (id t) → ts !! i = Some t → ¬ idle t → (∀ v, pc t ≠ Returned v) →
  e = Some (Building (generation t)) ∧ busy t ∧
  ∀ j u, j ≠ i → ts !! j = Some u → id u = id t → generation u = generation t ∧ idle u.
Proof.
  intros Hok Hi Hni Hnr. destruct e as [[g|g v]|]; simpl in Hok.
  - destruct Hok as (o & t0 & Ho & Hid & Hb & Hall). destruct (Hall i t Hi eq_refl) as [<- [->|]]; [|done].
    assert (t0 = t) as -> by congruence. split_and!; [done|done|]. intros j u Hj Hu Hidu.
    by destruct (Hall j u Hu Hidu) as [? [|]].
  - destruct (Hok i t Hi eq_refl) as [_ [?|?]]; [done|by destruct (Hnr v)].
  - destruct (Hni (Hok i t Hi eq_refl)).
Qed.

(** The other calls of the key stay idle. *)
Lemma others_idle ts ts' i t p :
  moved ts ts' i t p →
  (∀ j u, j ≠ i → ts !! j = Some u → id u = id t → generation u = generation t ∧ idle u) →
  ∀ j u', ts' !! j = Some u' → id u' = id t → j = i ∧ u' = set_pc t p ∨ generation u' = generation t ∧ idle u'.
Proof.
  intros Hm Hall j u' Hu' Hid. destruct (decide (j = i)) as [->|Hne].
  - left. destruct Hm as (_ & Hi' & _). split; [done|congruence].
  - right. destruct (moved_kept _ _ _ _ _ _ _ Hm Hne Hu') as (u & Hu & Hi & Hg & H1 & _).
    destruct (Hall j u Hne Hu) as [? ?]; [congruence|]. split; [congruence|auto].
Qed.

Lemma key_ok_busy ts ts' i t p :
  moved ts ts' i t p → busy (set_pc t p) →
  (∀ j u, j ≠ i → ts !! j = Some u → id u = id t → generation u = generation t ∧ idle u) →
  key_ok (Some (Building (generation t))) ts' (id t).
Proof.
  intros Hm Hb Hall. exists i, (set_pc t p). split_and!; [by destruct Hm as (_ & ? & _)|done|done|].
  intros j u Hu Hid. destruct (others_idle _ _ _ _ _ Hm Hall j u Hu Hid) as [[-> ->]|[? ?]]; auto.
Qed.

Lemma shared_step s s' : uniform (threads s) → shared_inv s → step s s' → shared_inv s'.
Proof.
  intros Huni Hinv (i & t & Ht & He)%step_effect k. pose proof (Hinv (id t)) as Hk.
  assert (∀ p ts', moved (threads s) ts' i t p → id t ≠ k → key_ok (inner s !! k) ts' k) as Hother.
  { intros p ts' Hm Hne. by eapply key_ok_other. }
  destruct (decide (id t = k)) as [<-|Hne].
  2:{ destruct He; simpl; rewrite ?lookup_insert_ne, ?clear_building_ne by done;
        eapply Hother; eauto using moved_advance, moved_notify. }
  clear Hother.
  assert (match pc t with RunningBuild | Built _ _ | Clearing => True | _ => False end →
    inner s !! id t = Some (Building (generation t)) ∧ busy t ∧
    ∀ j u, j ≠ i → threads s !! j = Some u → id u = id t → generation u = generation t ∧ idle u) as Hbusy.
  { intros Hp. apply busy_entry; [done|done| |].
    - unfold idle. destruct (pc t); tauto.
    - intros v E. by rewrite E in Hp. }
  destruct He as [v g Hp E Hg|g Hp E Hg|Hp E|Hp|v Hp Hm|v b g Hp E Hg|v b w g Hp E Hg|v Hp|v Hp E|Hp];
    rewrite Hp in Hbusy; simpl; rewrite ?lookup_insert_eq.
  - eapply key_ok_idle; [by apply moved_advance|done|unfold idle; by rewrite Hp|eauto].
  - eapply key_ok_idle; [by apply moved_advance|done|unfold idle; by rewrite Hp|by left].
  - eapply key_ok_busy; [by apply moved_advance|done|]. intros j u Hj Hu Hid.
    split; [by eapply Huni|]. destruct (inner s !! id t) as [[g|g v]|]; simpl in Hk.
    + destruct Hk as (o & t0 & _ & _ & _ & Hall). destruct (Hall i t Ht eq_refl) as [? _]. lia.
    + destruct (Hk i t Ht eq_refl) as [? _]. lia.
    + by eapply Hk.
  - destruct (Hbusy I) as (-> & _ & Hall). by eapply key_ok_busy; [apply moved_advance| |].
  - destruct (Hbusy I) as (-> & _ & Hall). by eapply key_ok_busy; [apply moved_advance| |].
  - destruct (Hbusy I) as (E' & _). rewrite E in E'. injection E' as ->. lia.
  - destruct (Hbusy I) as (E' & _). congruence.
  - destruct (Hbusy I) as (_ & Hb & _). unfold busy in Hb. by rewrite Hp in Hb.
  - destruct (Hbusy I) as (_ & _ & Hall). intros j u Hu Hid.
    destruct (others_idle _ _ _ _ _ (moved_notify _ _ _ _ Ht) Hall j u Hu Hid) as [[_ ->]|[? ?]]; auto.
  - destruct (Hbusy I) as (E & _ & Hall). unfold clear_building. rewrite E, N.eqb_refl, lookup_delete_eq.
    intros j u Hu Hid.
    by destruct (others_idle _ _ _ _ _ (moved_notify _ _ _ _ Ht) Hall j u Hu Hid) as [[_ ->]|[_ ?]].
Qed.

Lemma uniform_step s s' : uniform (threads s) → step s s' → uniform (threads s').
Proof.
  intros Huni (i & t & Ht & He)%step_effect.
  assert (∃ p, moved (threads s) (threads s') i t p) as [p Hm].
  { destruct He; simpl; eauto using moved_advance, moved_notify. }
  assert (∀ j u', threads s' !! j = Some u' → ∃ u, threads s !! j = Some u ∧ id u' = id u ∧ generation u' = generation u)
    as Hback.
  { intros j u' Hu'. destruct (decide (j = i)) as [->|Hne].
    - exists t. split; [done|]. destruct Hm as (_ & Hi' & _). by assert (u' = set_pc t p) as -> by congruence.
    - destruct (moved_kept _ _ _ _ _ _ _ Hm Hne Hu') as (u & Hu & Hi & Hg & _). by exists u. }
  intros j1 j2 u1 u2 (v1 & H1 & E1 & ->)%Hback (v2 & H2 & E2 & ->)%Hback Hid. eapply Huni; [done|done|congruence].
Qed.

Lemma shared_reachable (ks : list (K * N)) s :
  (∀ k g g', (k, g) ∈ ks → (k, g') ∈ ks → g = g') → reachable made ks s → shared_inv s.
Proof.
  intros Hks Hr. unfold reachable in Hr. remember (calls ks) as s0.
  assert (uniform (threads s0) ∧ shared_inv s0) as Hinit.
  { subst. split.
    - intros i j t u. simpl. rewrite !list_lookup_fmap.
      intros ([k g] & H1 & ->)%fmap_Some ([k' g'] & H2 & ->)%fmap_Some. simpl. intros ->.
      eapply Hks; by eapply list_elem_of_lookup_2.
    - intros k. simpl. rewrite lookup_empty. intros j u. rewrite list_lookup_fmap. by intros ([k' g'] & _ & ->)%fmap_Some. }
  clear Heqs0. induction Hr as [|s1 s2 s3 Hst _ IH]; [by destruct Hinit|]. apply IH. destruct Hinit as [Hu Hi].
  split; [by eapply uniform_step|by eapply shared_step].
Qed.

(** Every key is asked for at one generation. *)
Definition one_generation (ks : list (K * N)) : Prop :=
  ∀ k g g', (k, g) ∈ ks → (k, g') ∈ ks → g = g'.

(** ** The promises *)

(** C39: every run of calls ends, and ends well: a run of [n] calls has at most [3n(n+1) + n]
    steps, whatever the scheduler, the build functions and the generations; as long as some
    call is unanswered, some call can move (no deadlock, no lost wake-up); and when no step is
    left, every call has returned or failed. *)
Theorem single_flight_terminates ks n s :
  nsteps step n (calls ks) s →
  n ≤ run_bound (length ks) ∧
  ((∃ i t, threads s !! i = Some t ∧ finished t = false) → ∃ s', step s s') ∧
  ((¬ ∃ s', step s s') → ∀ i t, threads s !! i = Some t → finished t = true).
Proof.
  intros Hn. pose proof (nsteps_measure _ _ _ Hn) as Hm. rewrite measure_calls in Hm.
  assert (flight_inv s) as Hinv by (by eapply (inv_reachable ks), rtc_nsteps_2).
  assert ((∃ i t, threads s !! i = Some t ∧ finished t = false) → ∃ s', step s s') as Hprog.
  { intros Hex. destruct (progress s Hinv Hex) as (i & t & Ht & Hc). by eapply can_move_steps. }
  split_and!; [lia|done|]. intros Hno i t Ht. destruct (finished t) eqn:E; [done|].
  destruct Hno. apply Hprog. by exists i, t.
Qed.

(** an answer is never stale: a call that returns a value asked for at generation [g]
    returns one that a build of the same key made at generation [g] or later; every [Building]
    entry has a call that will settle it; and a call sleeps only while such an entry of its key
    is there. *)
Theorem single_flight_fresh ks s :
  reachable made ks s →
  (∀ i t v, threads s !! i = Some t → pc t = Returned v →
     ∃ g, (generation t ≤ g)%N ∧ made (id t) g v) ∧
  (∀ k g, inner s !! k = Some (Building g) → ∃ i t, threads s !! i = Some t ∧ owns t k g) ∧
  (∀ i t, threads s !! i = Some t → pc t = AsleepEntering →
     ∃ g, inner s !! id t = Some (Building g) ∧ (generation t ≤ g)%N).
Proof.
  intros Hinv%inv_reachable. split_and!; [|apply (inv_owner s Hinv)|];
    intros i t; [intros v|]; intros Ht Hp; pose proof (inv_threads s Hinv i t Ht) as Hok;
    unfold thread_ok in Hok; by rewrite Hp in Hok.
Qed.

(** calls that ask for one generation of a key share one build: at most one of them runs
    its build function at a time, and all that return a value return the same one. *)
Theorem single_flight_shared (ks : list (K * N)) s :
  one_generation ks → reachable made ks s →
  (∀ i j t u, threads s !! i = Some t → threads s !! j = Some u → id t = id u →
     pc t = RunningBuild → pc u = RunningBuild → i = j) ∧
  (∀ i j t u v w, threads s !! i = Some t → threads s !! j = Some u → id t = id u →
     pc t = Returned v → pc u = Returned w → v = w).
Proof.
  intros Hks Hr. pose proof (shared_reachable ks s Hks Hr) as Hinv. split.
  - intros i j t u Ht Hu Hid Hpt Hpu. destruct (decide (i = j)) as [|Hne]; [done|]. exfalso.
    destruct (busy_entry _ _ _ _ (Hinv (id t)) Ht) as (_ & _ & Hall); [unfold idle; rewrite Hpt; tauto|by rewrite Hpt|].
    destruct (Hall j u) as [_ Hi]; [done|done|done|]. unfold idle in Hi. by rewrite Hpu in Hi.
  - intros i j t u v w Ht Hu Hid Hpt Hpu. pose proof (Hinv (id t)) as Hk.
    destruct (inner s !! id t) as [[g|g x]|]; simpl in Hk.
    + destruct Hk as (o & t0 & Ho & Hido & Hb & Hall).
      destruct (Hall i t Ht eq_refl) as [_ [->|Hi]]; [|unfold idle in Hi; by rewrite Hpt in Hi].
      assert (t0 = t) as -> by congruence. unfold busy in Hb. by rewrite Hpt in Hb.
    + destruct (Hk i t Ht eq_refl) as [_ [Hi|Hv]]; [unfold idle in Hi; by rewrite Hpt in Hi|].
      destruct (Hk j u Hu (eq_sym Hid)) as [_ [Hi|Hw]]; [unfold idle in Hi; by rewrite Hpu in Hi|]. congruence.
    + pose proof (Hk i t Ht eq_refl) as Hi. unfold idle in Hi. by rewrite Hpt in Hi.
Qed.

End Spec.

(** ** Runs *)

Definition any_value (k : nat) (g : N) (v : nat) : Prop := True.

(** Two calls of one key: one builds, the other waits and shares. *)
Definition wcalls : list (nat * N) := [(0, 1%N); (0, 1%N)].

(** Run a schedule: [inl i] gives thread [i] the lock, [inr (i, r)] ends its build with [r]. *)
Definition run_schedule (s : State nat nat) (sched : list (nat + nat * option nat)) : option (State nat nat) :=
  foldl (λ acc c, s ← acc; match c with inl i => run_locked s i | inr (i, r) => end_build s i r end) (Some s) sched.

Lemma run_schedule_steps s sched s' :
  run_schedule s sched = Some s' → nsteps (step any_value) (length sched) s s'.
Proof.
  revert s. induction sched as [|c sched IH]; intros s; [intros [= ->]; constructor|]. unfold run_schedule. simpl.
  destruct (match c with inl i => run_locked s i | inr (i, r) => end_build s i r end) as [s1|] eqn:E.
  - intros Hr. apply (nsteps_l _ _ _ s1); [|by apply IH]. destruct c as [i|[i [v|]]].
    + by apply (step_locked _ _ i).
    + destruct (threads s !! i) as [t|] eqn:Et; [by eapply (step_built _ _ i t v)|].
      unfold end_build in E. by rewrite Et in E.
    + by apply (step_failed _ _ i).
  - intros Hr. exfalso. clear -Hr. induction sched as [|c sched IH]; [done|]. by apply IH.
Qed.

Definition wdone : State nat nat :=
  MkState {[0 := Ready 1 7]} [MkThread 0 1 (Returned 7); MkThread 0 1 (Returned 7)].
(** The first call builds 7 while the second sleeps, then both return. *)
Lemma wdone_run :
  run_schedule (calls wcalls) [inl 0; inl 1; inr (0, Some 7); inl 0; inl 1] = Some wdone.
Proof. vm_compute. reflexivity. Qed.

Lemma wdone_steps : nsteps (step any_value) 5 (calls wcalls) wdone.
Proof. exact (run_schedule_steps _ _ _ wdone_run). Qed.

Lemma single_flight_terminates_witness : 5 ≤ run_bound 2.
Proof. exact (proj1 (single_flight_terminates any_value wcalls 5 wdone wdone_steps)). Defined.

Lemma single_flight_fresh_witness : ∃ g, (1 ≤ g)%N ∧ any_value 0 g 7.
Proof.
  destruct (single_flight_fresh any_value wcalls wdone (rtc_nsteps_2 _ _ _ wdone_steps)) as [Hv _].
  exact (Hv 1 (MkThread 0 1 (Returned 7)) 7 eq_refl eq_refl).
Defined.

Lemma single_flight_shared_witness :
  ∃ v, threads wdone !! 0 = Some (MkThread 0 1 (Returned v)) ∧
       threads wdone !! 1 = Some (MkThread 0 1 (Returned v)).
Proof.
  assert (one_generation wcalls) as Hks.
  { intros k g g'. unfold wcalls. set_solver. }
  destruct (single_flight_shared any_value wcalls wdone Hks (rtc_nsteps_2 _ _ _ wdone_steps)) as [_ Hv].
  pose proof (Hv 0 1 _ _ 7 7 eq_refl eq_refl eq_refl eq_refl eq_refl) as Heq.
  exists 7. split; [reflexivity|]. exact (f_equal (λ n, Some (MkThread 0 1%N (Returned n))) Heq).
Defined.

(** Calls of one key and generation do not always share one build: when a call of a newer
    generation supersedes a build and then fails, its cleanup removes the entry while the older
    build still runs, and the next call of the older generation starts a second one. *)
Lemma two_builds_in_flight :
  ∃ s, reachable any_value [(0, 1%N); (0, 2%N); (0, 1%N)] s ∧
    threads s !! 0 = Some (MkThread 0 1 RunningBuild) ∧ threads s !! 2 = Some (MkThread 0 1 RunningBuild).
Proof.
  destruct (run_schedule (calls [(0, 1%N); (0, 2%N); (0, 1%N)]) [inl 0; inl 1; inr (1, None); inl 1; inl 2])
    as [s|] eqn:E; [|vm_compute in E; discriminate E].
  exists s. split; [by eapply rtc_nsteps_2, run_schedule_steps|]. vm_compute in E. by injection E as <-.
Qed.

End SingleFlightSpec.
