(* ===== verification/JobCancel.v ===== *)
(** * Cancelling a job: [JobCancellation] of [executor/mod.rs]

    One atomic cell shared by the executor, cancellers and the job, and a condition variable
    under [wait_lock].  A call of each method is a thread that interleaves with the others at
    every atomic access; a critical section of [wait_lock] is one step.  What a check of the
    root on disk or of the lifecycle says is an input of the step that makes it. *)

From S2P Require Import Prelude.

Module JobCancel.

(** The states of the cell. *)
Inductive CancelState := PENDING | RUNNING | COMMITTED | CANCELLED.
#[export] Instance CancelState_eq_dec : EqDecision CancelState.
Proof. solve_decision. Defined.

(** [compare_exchange(from, to)]: the new cell, and the old value with whether it was [from]. *)
Definition compare_exchange (cell from to : CancelState) : CancelState * (bool * CancelState) :=
  if decide (cell = from) then (to, (true, cell)) else (cell, (false, cell)).

(** ** Calls *)

(** What follows [signal_cancel]: its caller's return, or the rest of a check. *)
Inductive After := ThenReturn | ThenLifecycle (phase : bool) | ThenState (phase : bool).

(** Where a call is.  [phase] tells the check before the sleep ([false]) from the one after. *)
Inductive Pc :=
  | MarkRunning
  | ReturnToPending
  | TryCancelBeforeRunning
  | NotifyCancelledEarly
  | TrySeal                                        (** about to load the cell *)
  | TrySealFrom (current : CancelState)            (** about to compare and exchange *)
  | SignalCancel (k : After)                       (** about to load the cell *)
  | SignalCancelFrom (k : After) (current : CancelState)
  | NotifyCancelled (k : After) (observed : CancelState)
  | CheckCancel (phase : bool)                     (** [cancel_requested_before_commit] *)
  | CheckLifecycle (phase : bool)                  (** its read after the lifecycle was asked *)
  | CheckState (phase : bool)                      (** its last read of the cell *)
  | LockAndSleep                                   (** about to take [wait_lock] in [wait_for_cancellation] *)
  | Asleep
  | DoneBool (b : bool)
  | DoneObserved (observed : CancelState).

#[export] Instance After_eq_dec : EqDecision After.
Proof. solve_decision. Defined.
#[export] Instance Pc_eq_dec : EqDecision Pc.
Proof. solve_decision. Defined.

(** The checks before and after the sleep. *)
Definition after_check (phase cancelled : bool) : Pc :=
  if phase then DoneBool cancelled else if cancelled then DoneBool true else LockAndSleep.

Definition resume (k : After) (observed : CancelState) : Pc :=
  match k with
  | ThenReturn => DoneObserved observed
  | ThenLifecycle phase => CheckLifecycle phase
  | ThenState phase => CheckState phase
  end.

(** Whether the token has a lifecycle and a root. *)
Section Token.
Context (has_lifecycle has_root : bool).

(** The end of a check: [deleted] is what the probe of the root says, when it is made. *)
Definition check_root (deleted phase : bool) : Pc :=
  if has_root then if deleted then SignalCancel (ThenState phase) else CheckState phase
  else after_check phase false.

(** The step of a call at [pc] that finds [cell]: the new cell, the next [pc], and whether all
    sleepers are woken.  [abandoned] and [deleted] are what the lifecycle and the disk say. *)
Definition run (abandoned deleted : bool) (cell : CancelState) (pc : Pc) : option (CancelState * Pc * bool) :=
  match pc with
  | MarkRunning =>
      let '(cell, (ok, old)) := compare_exchange cell PENDING RUNNING in
      Some (cell, DoneBool (ok || negb (bool_decide (old = CANCELLED))), false)
  | ReturnToPending =>
      let '(cell, (ok, old)) := compare_exchange cell RUNNING PENDING in
      Some (cell, DoneBool (ok || bool_decide (old = PENDING)), false)
  | TryCancelBeforeRunning =>
      let '(cell, (ok, _)) := compare_exchange cell PENDING CANCELLED in
      Some (cell, if ok : bool then NotifyCancelledEarly else DoneBool false, false)
  | NotifyCancelledEarly => Some (cell, DoneBool true, true)
  | TrySeal =>
      Some (cell, match cell with
                  | CANCELLED => DoneBool false
                  | COMMITTED => DoneBool true
                  | _ => TrySealFrom cell
                  end, false)
  | TrySealFrom current =>
      let '(cell, (ok, _)) := compare_exchange cell current COMMITTED in
      Some (cell, if ok : bool then DoneBool true else TrySeal, false)
  | SignalCancel k =>
      Some (cell, match cell with
                  | COMMITTED => resume k COMMITTED
                  | CANCELLED => NotifyCancelled k CANCELLED
                  | _ => SignalCancelFrom k cell
                  end, false)
  | SignalCancelFrom k current =>
      let '(cell, (ok, _)) := compare_exchange cell current CANCELLED in
      Some (cell, if ok : bool then NotifyCancelled k current else SignalCancel k, false)
  | NotifyCancelled k observed => Some (cell, resume k observed, true)
  | CheckCancel phase =>
      Some (cell, match cell with
                  | CANCELLED => after_check phase true
                  | COMMITTED => after_check phase false
                  | _ =>
                      if has_lifecycle
                      then if abandoned then SignalCancel (ThenLifecycle phase) else CheckLifecycle phase
                      else check_root deleted phase
                  end, false)
  | CheckLifecycle phase =>
      Some (cell, if decide (cell = CANCELLED) then after_check phase true else check_root deleted phase, false)
  | CheckState phase => Some (cell, after_check phase (bool_decide (cell = CANCELLED)), false)
  | LockAndSleep => Some (cell, if decide (cell = CANCELLED) then DoneBool true else Asleep, false)
  | Asleep | DoneBool _ | DoneObserved _ => None
  end.

(** [notify_all] and the timeout of [wait_for]. *)
Definition wake (pc : Pc) : Pc := match pc with Asleep => CheckCancel true | _ => pc end.

(** ** Interleaving *)

Record Token := MkToken { cell : CancelState; calls : list Pc }.

Definition run_call (abandoned deleted : bool) (s : Token) (i : nat) : option Token :=
  pc ← calls s !! i;
  '(c, pc', notify) ← run abandoned deleted (cell s) pc;
  Some (MkToken c (<[i := pc']> (if notify : bool then wake <$> calls s else calls s))).

Inductive step : Token → Token → Prop :=
  | step_run abandoned deleted s i s' : run_call abandoned deleted s i = Some s' → step s s'
  | step_timeout s i : calls s !! i = Some Asleep → step s (MkToken (cell s) (<[i := CheckCancel true]> (calls s))).

(** The methods as they are called: [CheckCancel true] is [cancel_requested_before_commit],
    [CheckCancel false] is [wait_for_cancellation]. *)
Definition is_call (pc : Pc) : bool :=
  match pc with
  | MarkRunning | ReturnToPending | TryCancelBeforeRunning | TrySeal
  | SignalCancel ThenReturn | CheckCancel _ => true
  | _ => false
  end.

(** A new token ([JobCancellation::new]) and some calls of its methods. *)
Definition fresh (ops : list Pc) : Token := MkToken PENDING ops.
Definition reachable (ops : list Pc) (s : Token) : Prop := rtc step (fresh ops) s.

End Token.

Definition done (pc : Pc) : bool := match pc with DoneBool _ | DoneObserved _ => true | _ => false end.

End JobCancel.
