(* ===== verification/JobCancelSpec.v ===== *)
(** * A cancel and a commit never both win

    Over every interleaving of calls on one token: commit and cancel exclude each other, what a
    call reported stays true, a completed cancel leaves nobody asleep, and every run ends. *)

From S2P Require Import Prelude JobCancel.
Import JobCancel.

Module JobCancelSpec.

Section Spec.
Context (has_lifecycle has_root : bool).
#[local] Abbreviation run := (run has_lifecycle has_root).
#[local] Abbreviation step := (step has_lifecycle has_root).

Definition settled (c : CancelState) : Prop := c = COMMITTED ∨ c = CANCELLED.

(** A commit or a cancel is final. *)
Definition kept (c c' : CancelState) : Prop := settled c → c' = c.

(** What a call of method [op] that is at [pc] knows of the cell. *)
Definition call_ok (op : Pc) (c : CancelState) (pc : Pc) : Prop :=
  match op with
  | MarkRunning =>
      match pc with MarkRunning => True | DoneBool b => b = false → c = CANCELLED | _ => False end
  | ReturnToPending =>
      match pc with ReturnToPending => True | DoneBool b => b = false → settled c | _ => False end
  | TryCancelBeforeRunning =>
      match pc with
      | TryCancelBeforeRunning => True
      | NotifyCancelledEarly => c = CANCELLED
      | DoneBool b => b = true → c = CANCELLED
      | _ => False
      end
  | TrySeal =>
      match pc with
      | TrySeal => True
      | TrySealFrom current => ¬ settled current
      | DoneBool b => c = if b then COMMITTED else CANCELLED
      | _ => False
      end
  | SignalCancel ThenReturn =>
      match pc with
      | SignalCancel ThenReturn => True
      | SignalCancelFrom ThenReturn current => ¬ settled current
      | NotifyCancelled ThenReturn observed => c = CANCELLED ∧ observed ≠ COMMITTED
      | DoneObserved observed => c = if decide (observed = COMMITTED) then COMMITTED else CANCELLED
      | _ => False
      end
  | CheckCancel _ =>
      match pc with
      | SignalCancel (ThenLifecycle _ | ThenState _) => True
      | SignalCancelFrom (ThenLifecycle _ | ThenState _) current => ¬ settled current
      | NotifyCancelled (ThenLifecycle _ | ThenState _) _ => c = CANCELLED
      | CheckCancel _ | CheckLifecycle _ | CheckState _ | LockAndSleep | Asleep => True
      | DoneBool b => b = true → c = CANCELLED
      | _ => False
      end
  | _ => False
  end.

(** Case analysis on continuations and cells. *)
#[local] Ltac cases_pc :=
  repeat match goal with
  | k : After |- _ => destruct k
  | |- context [decide (?x = ?y)] => destruct (decide (x = y))
  | H : context [decide (?x = ?y)] |- _ => destruct (decide (x = y))
  end; simplify_eq/=.

Lemma call_ok_kept op c c' pc : kept c c' → call_ok op c pc → call_ok op c' pc.
Proof.
  unfold kept, settled. intros Hk. destruct op as [| | | | | |[]| | | | | | | | |]; simpl; try done;
    destruct pc; cases_pc; try done; unfold settled; try (by intuition congruence);
    match goal with |- context [if ?b then _ else _] => destruct b end; intuition congruence.
Qed.

(** One step of a call keeps what it knows and what was settled. *)
Lemma run_ok op a d c pc c' pc' n :
  call_ok op c pc → run a d c pc = Some (c', pc', n) → call_ok op c' pc' ∧ kept c c'.
Proof.
  unfold kept, settled. destruct op as [| | | | | |[]| | | | | | | | |]; simpl; try done; destruct pc; cases_pc; try done;
    simpl; unfold compare_exchange, check_root, after_check, settled; intros Hok Hr;
    destruct c; cases_pc; repeat (case_match; simplify_eq/=); try done; intuition congruence.
Qed.

Lemma call_ok_wake op c pc : call_ok op c pc → call_ok op c (wake pc).
Proof. by destruct pc. Qed.

(** ** All calls *)

(** About to notify. *)
Definition notifying (pc : Pc) : bool :=
  match pc with NotifyCancelledEarly | NotifyCancelled _ _ => true | _ => false end.

Record token_inv (ops : list Pc) (s : Token) : Prop := {
  inv_calls : Forall2 (λ op pc, call_ok op (cell s) pc) ops (calls s);
  (** Nobody sleeps through a cancel that is not about to notify. *)
  inv_wakeup : ∀ i, calls s !! i = Some Asleep → cell s = CANCELLED →
    ∃ j pc, calls s !! j = Some pc ∧ notifying pc = true }.

(** The cell becomes cancelled only by a call that will notify, nobody falls asleep once it is,
    and only a notifier stops being one by notifying. *)
Lemma run_wakeup a d c pc c' pc' n :
  run a d c pc = Some (c', pc', n) →
  (c' = CANCELLED → c ≠ CANCELLED → notifying pc' = true) ∧
  (pc' = Asleep → c' ≠ CANCELLED) ∧ (notifying pc = true → n = true).
Proof.
  destruct pc; simpl; unfold compare_exchange, check_root, after_check; intros Hr; destruct c; cases_pc;
    repeat (case_match; simplify_eq/=); try done; intuition congruence.
Qed.

(** A step is one call's move, or a timeout. *)
Inductive moved (s : Token) : Token → Prop :=
  | moved_run a d i pc c' pc' n :
      calls s !! i = Some pc → run a d (cell s) pc = Some (c', pc', n) →
      moved s (MkToken c' (<[i := pc']> (if n : bool then wake <$> calls s else calls s)))
  | moved_timeout i :
      calls s !! i = Some Asleep → moved s (MkToken (cell s) (<[i := CheckCancel true]> (calls s))).

Lemma step_moved s s' : step s s' → moved s s'.
Proof.
  destruct 1 as [a d s i s' Hr|s i Hi]; [|by apply moved_timeout]. unfold run_call in Hr.
  destruct (calls s !! i) as [pc|] eqn:Hi; [|done]. simpl in Hr.
  destruct (run a d (cell s) pc) as [[[c' pc'] n]|] eqn:E; [|done]. injection Hr as <-. by eapply moved_run.
Qed.

Lemma token_inv_step ops s s' : token_inv ops s → step s s' → token_inv ops s'.
Proof.
  intros [Hc Hw] Hm%step_moved. destruct Hm as [a d i pc c' pc' n Hi Hr|i Hi].
  - destruct (Forall2_lookup_r _ _ _ _ _ Hc Hi) as (op & Hop & Hok).
    destruct (run_ok _ _ _ _ _ _ _ _ Hok Hr) as [Hok' Hk].
    destruct (run_wakeup _ _ _ _ _ _ _ Hr) as (Hw1 & Hw2 & Hw3). split; simpl.
    + assert (Forall2 (λ op pc, call_ok op c' pc) ops (if n then wake <$> calls s else calls s)) as Hall.
      { assert (Forall2 (λ op pc, call_ok op c' pc) ops (calls s)) as Hall.
        { eapply Forall2_impl; [exact Hc|]. intros x y. by apply call_ok_kept. }
        destruct n; [|done]. apply Forall2_fmap_r. eapply Forall2_impl; [exact Hall|]. intros x y. apply call_ok_wake. }
      rewrite <-(list_insert_id ops i op) by done. apply Forall2_insert; [done|done].
    + intros j Hj Hcan. destruct (decide (j = i)) as [->|Hne].
      { rewrite list_lookup_insert_eq in Hj by (destruct n; rewrite ?length_fmap; by eapply lookup_lt_Some).
        injection Hj as ->. by destruct (Hw2 eq_refl). }
      rewrite list_lookup_insert_ne in Hj by done. destruct n.
      { rewrite list_lookup_fmap in Hj. destruct (calls s !! j) as [[]|]; simplify_eq/=. }
      destruct (decide (cell s = CANCELLED)) as [Hcc|Hcc].
      * destruct (Hw j Hj Hcc) as (k & q & Hk' & Hn). exists k, q. split; [|done].
        destruct (decide (k = i)) as [->|Hki]; [|by rewrite list_lookup_insert_ne].
        assert (q = pc) as -> by congruence. discriminate (Hw3 Hn).
      * exists i, pc'. split; [|by apply Hw1]. apply list_lookup_insert_eq. by eapply lookup_lt_Some.
  - destruct (Forall2_lookup_r _ _ _ _ _ Hc Hi) as (op & Hop & Hok). split; simpl.
    + rewrite <-(list_insert_id ops i op) by done. apply Forall2_insert; [done|]. by apply (call_ok_wake op _ Asleep).
    + intros j Hj Hcan. assert (j ≠ i) as Hne.
      { intros ->. rewrite list_lookup_insert_eq in Hj by (by eapply lookup_lt_Some). done. }
      rewrite list_lookup_insert_ne in Hj by done. destruct (Hw j Hj Hcan) as (k & q & Hk & Hn).
      exists k, q. split; [|done]. rewrite list_lookup_insert_ne; [done|]. intros ->.
      assert (q = Asleep) as -> by congruence. done.
Qed.

Lemma inv_fresh ops : forallb is_call ops = true → token_inv ops (fresh ops).
Proof.
  intros Hops. split; simpl; [|done]. apply Forall2_same_length_lookup_2; [done|]. intros i x y Hx Hy.
  assert (x = y) as -> by congruence. rewrite forallb_forall in Hops.
  assert (is_call y = true) as Hy' by (apply Hops, list_elem_of_In; by eapply list_elem_of_lookup_2).
  by destruct y as [| | | | | |[]| | | | | | | | |].
Qed.

Lemma token_inv_reachable ops s :
  forallb is_call ops = true → reachable has_lifecycle has_root ops s → token_inv ops s.
Proof.
  intros Hops%inv_fresh Hr. unfold reachable in Hr. revert Hops. generalize (fresh ops), Hr. clear Hr.
  induction 1; [done|]. eauto using token_inv_step.
Qed.

(** ** Termination *)

(** How often a call may still change the cell. *)
Definition changes_check (phase : bool) : nat := if phase then 0 else 2.
Definition changes_after (k : After) : nat :=
  match k with
  | ThenReturn => 0
  | ThenLifecycle phase => 1 + changes_check phase
  | ThenState phase => changes_check phase
  end.
Definition changes (pc : Pc) : nat :=
  match pc with
  | MarkRunning | ReturnToPending | TryCancelBeforeRunning | TrySeal | TrySealFrom _ => 1
  | SignalCancel k | SignalCancelFrom k _ => 1 + changes_after k
  | NotifyCancelled k _ => changes_after k
  | CheckCancel phase => 2 + changes_check phase
  | CheckLifecycle phase => 1 + changes_check phase
  | CheckState phase => changes_check phase
  | LockAndSleep | Asleep => 2
  | NotifyCancelledEarly | DoneBool _ | DoneObserved _ => 0
  end.

(** The steps of a call when nobody interferes; a stale value costs a failed exchange. *)
Definition local_check (phase : bool) : nat := if phase then 1 else 13.
Definition local_after (k : After) : nat :=
  match k with
  | ThenReturn => 0
  | ThenLifecycle phase => 4 + local_check phase
  | ThenState phase => local_check phase
  end.
Definition local (c : CancelState) (pc : Pc) : nat :=
  match pc with
  | MarkRunning | ReturnToPending | NotifyCancelledEarly => 1
  | TryCancelBeforeRunning | TrySeal => 2
  | TrySealFrom current => if decide (current = c) then 1 else 3
  | SignalCancel k => 3 + local_after k
  | SignalCancelFrom k current => (if decide (current = c) then 2 else 4) + local_after k
  | NotifyCancelled k _ => 1 + local_after k
  | CheckCancel phase => 8 + local_check phase
  | CheckLifecycle phase => 4 + local_check phase
  | CheckState phase => local_check phase
  | LockAndSleep => 11
  | Asleep => 10
  | DoneBool _ | DoneObserved _ => 0
  end.

Lemma run_measure a d c pc c' pc' n :
  run a d c pc = Some (c', pc', n) →
  c' = c ∧ changes pc' ≤ changes pc ∧ local c pc' < local c pc ∨
  changes pc' < changes pc ∧ local c' pc' ≤ local c pc.
Proof.
  destruct pc; simpl; unfold compare_exchange, check_root, after_check; intros Hr; destruct c; cases_pc;
    repeat (case_match; simplify_eq/=); try done; try destruct phase; simpl;
    ((left; split; [done|lia]) || (right; lia)).
Qed.

(** One change of the cell pays for the exchanges it makes fail. *)
Definition measure (s : Token) : nat :=
  total changes (calls s) * S (2 * S (length (calls s))) + total (local (cell s)) (calls s).

Lemma wake_changes pc : changes (wake pc) ≤ changes pc.
Proof. destruct pc; simpl; lia. Qed.
Lemma wake_local c pc : local c (wake pc) ≤ local c pc.
Proof. destruct pc; simpl; lia. Qed.
Lemma local_stale c c' pc : local c' pc ≤ local c pc + 2.
Proof. destruct pc; simpl; repeat case_decide; lia. Qed.

Lemma token_measure_step s s' : step s s' → measure s' < measure s.
Proof.
  intros Hm%step_moved. unfold measure. destruct Hm as [a d i pc c' pc' n Hi Hr|i Hi]; simpl.
  - set (l := if n then wake <$> calls s else calls s).
    assert (∃ pc1, l !! i = Some pc1 ∧ changes pc1 = changes pc ∧ ∀ c, local c pc1 = local c pc) as (pc1 & Hi1 & Hc1 & Hl1).
    { unfold l. destruct n; [|eauto]. exists (wake pc). rewrite list_lookup_fmap, Hi. split; [done|].
      by destruct pc. }
    assert (length l = length (calls s)) as Hlen by (unfold l; destruct n; rewrite ?length_fmap; done).
    assert (total changes l ≤ total changes (calls s)) as Htc.
    { unfold l. destruct n; [|done]. apply total_fmap, wake_changes. }
    assert (∀ c, total (local c) l ≤ total (local c) (calls s)) as Htl.
    { intros c. unfold l. destruct n; [|done]. apply total_fmap. intros q. apply wake_local. }
    rewrite length_insert, Hlen. specialize (Htl (cell s)).
    pose proof (total_insert changes _ _ _ pc' Hi1) as Hch. rewrite Hc1 in Hch.
    pose proof (total_insert (local c') _ _ _ pc' Hi1) as Hlo. rewrite Hl1 in Hlo.
    destruct (run_measure _ _ _ _ _ _ _ Hr) as [(-> & H1 & H2)|(H1 & H2)].
    { apply Nat.add_le_lt_mono; [apply Nat.mul_le_mono_r|]; lia. }
    pose proof (total_le (local c') (local (cell s)) 2 l (local_stale (cell s) c')) as Hst. rewrite Hlen in Hst.
    pose proof (local_stale c' (cell s) pc).
    assert (total changes (<[i:=pc']> l) + 1 ≤ total changes (calls s)) as Hlt by lia.
    apply (Nat.mul_le_mono_r _ _ (S (2 * S (length (calls s))))) in Hlt. lia.
  - rewrite length_insert. pose proof (total_insert changes _ _ _ (CheckCancel true) Hi).
    pose proof (total_insert (local (cell s)) _ _ _ (CheckCancel true) Hi). simpl in *. nia.
Qed.

Lemma token_nsteps_measure n s s' : nsteps step n s s' → n + measure s' ≤ measure s.
Proof. induction 1 as [|n s1 s2 s3 Hst _ IH]; [lia|]. pose proof (token_measure_step _ _ Hst). lia. Qed.

(** Steps any run of [n] calls can take. *)
Definition run_bound (n : nat) : nat := 4 * n * S (2 * S n) + 21 * n.

Lemma measure_fresh ops : forallb is_call ops = true → measure (fresh ops) ≤ run_bound (length ops).
Proof.
  intros Hops. unfold measure, run_bound. simpl.
  assert (total changes ops ≤ 4 * length ops ∧ total (local PENDING) ops ≤ 21 * length ops) as [H1 H2]; [|nia].
  induction ops as [|op ops IH]; [done|]. rewrite !total_cons, length_cons.
  simpl in Hops. apply andb_true_iff in Hops as [Hop Hops]. specialize (IH Hops). destruct op as [| | | | | |[]| | |[]| | | | | |]; try done; simpl; lia.
Qed.

Lemma not_done_steps s i pc : calls s !! i = Some pc → done pc = false → ∃ s', step s s'.
Proof.
  intros Hi Hd. destruct (decide (pc = Asleep)) as [->|Hne]; [eexists; by apply step_timeout|].
  assert (∃ r, run false false (cell s) pc = Some r) as [[[c' pc'] n] Hr].
  { destruct pc; simpl; unfold compare_exchange; repeat case_decide; try done; eauto. }
  eexists. apply (step_run _ _ false false s i). unfold run_call. rewrite Hi. simpl. by rewrite Hr.
Qed.

(** ** The promises *)

(** What a finished call reported, read against the cell. *)
Definition report_true (op pc : Pc) (c : CancelState) : Prop :=
  match op, pc with
  | TrySeal, DoneBool b => c = if b then COMMITTED else CANCELLED
  | SignalCancel ThenReturn, DoneObserved o => c = if decide (o = COMMITTED) then COMMITTED else CANCELLED
  | TryCancelBeforeRunning, DoneBool true => c = CANCELLED
  | CheckCancel _, DoneBool true => c = CANCELLED
  | MarkRunning, DoneBool false => c = CANCELLED
  | _, _ => True
  end.

(** C40: exactly one of commit and cancel wins, in every interleaving of calls on a token: what
    every finished call reported is true of the cell and stays true; so once a seal succeeded
    every cancel reports that the commit won and every check answers that the job goes on, and
    once a cancel went through every seal fails. *)
Theorem cancel_excludes_commit ops s :
  forallb is_call ops = true → reachable has_lifecycle has_root ops s →
  (∀ i op pc, ops !! i = Some op → calls s !! i = Some pc → report_true op pc (cell s)) ∧
  (∀ s', step s s' → cell s = COMMITTED ∨ cell s = CANCELLED → cell s' = cell s).
Proof.
  intros Hops Hr. destruct (token_inv_reachable ops s Hops Hr) as [Hc _]. split.
  - intros i op pc Hop Hpc. pose proof (Forall2_lookup_lr _ _ _ _ _ _ Hc Hop Hpc) as Hok.
    destruct op as [| | | | | |[]| | | | | | | | |], pc as [| | | | | | | | | | | | | |[]|]; simpl in *; auto.
  - intros s' Hm%step_moved Hs. destruct Hm as [a d i pc c' pc' n Hi Hrun|i Hi]; [|done]. simpl.
    destruct (Forall2_lookup_r _ _ _ _ _ Hc Hi) as (op & Hop & Hok).
    by apply (run_ok _ _ _ _ _ _ _ _ Hok Hrun).
Qed.

(** no cancel is slept through: while the cell is cancelled and some call still sleeps in
    [wait_for_cancellation], a call is about to notify it; so when every cancel has finished,
    nobody sleeps. *)
Theorem cancel_wakes_sleepers ops s :
  forallb is_call ops = true → reachable has_lifecycle has_root ops s → cell s = CANCELLED →
  (∃ i, calls s !! i = Some Asleep) → ∃ j pc, calls s !! j = Some pc ∧ notifying pc = true.
Proof. intros Hops Hr Hc (i & Hi). destruct (token_inv_reachable ops s Hops Hr) as [_ Hw]. by apply (Hw i). Qed.

(** every run ends: the compare-exchange loops and the waits of [n] calls take at most
    [4n(2n + 3) + 21n] steps together, and a call that has not returned can always move. *)
Theorem cancel_terminates ops n s :
  forallb is_call ops = true → nsteps step n (fresh ops) s →
  n ≤ run_bound (length ops) ∧
  ((¬ ∃ s', step s s') → ∀ i pc, calls s !! i = Some pc → JobCancel.done pc = true).
Proof.
  intros Hops Hn. pose proof (token_nsteps_measure _ _ _ Hn). pose proof (measure_fresh ops Hops). split; [lia|].
  intros Hno i pc Hi. destruct (JobCancel.done pc) eqn:E; [done|]. destruct Hno. by eapply not_done_steps.
Qed.

End Spec.

(** A cancel that beats the seal while a third call sleeps. *)
Definition wops : list Pc := [MarkRunning; CheckCancel false; SignalCancel ThenReturn; TrySeal].

Definition run_schedule (s : Token) (sched : list nat) : option Token :=
  foldl (λ acc i, s ← acc; run_call false false false false s i) (Some s) sched.

Lemma token_run_schedule_steps s sched s' :
  run_schedule s sched = Some s' → nsteps (step false false) (length sched) s s'.
Proof.
  revert s. induction sched as [|i sched IH]; intros s; [intros [= ->]; constructor|]. unfold run_schedule. simpl.
  destruct (run_call false false false false s i) as [s1|] eqn:E.
  - intros Hr. apply (nsteps_l _ _ _ s1); [by apply (step_run _ _ false false _ i)|by apply IH].
  - intros Hr. exfalso. clear -Hr. induction sched as [|i sched IH]; [done|]. by apply IH.
Qed.

(** The cancel has gone through and is about to notify; the seal has failed. *)
Definition wmid : Token :=
  MkToken CANCELLED [DoneBool true; Asleep; NotifyCancelled ThenReturn RUNNING; DoneBool false].
Lemma wmid_steps : nsteps (step false false) 6 (fresh wops) wmid.
Proof. apply (token_run_schedule_steps _ [0; 1; 1; 2; 2; 3]). vm_compute. reflexivity. Qed.

Lemma cancel_excludes_commit_witness : report_true TrySeal (DoneBool false) (cell wmid).
Proof.
  exact (proj1 (cancel_excludes_commit false false wops wmid eq_refl (rtc_nsteps_2 _ _ _ wmid_steps))
    3 TrySeal (DoneBool false) eq_refl eq_refl).
Defined.

Lemma cancel_wakes_sleepers_witness : ∃ j pc, calls wmid !! j = Some pc ∧ notifying pc = true.
Proof.
  apply (cancel_wakes_sleepers false false wops wmid eq_refl (rtc_nsteps_2 _ _ _ wmid_steps) eq_refl).
  exists 1. reflexivity.
Defined.

Lemma cancel_terminates_witness : 6 ≤ run_bound 4.
Proof. exact (proj1 (cancel_terminates false false wops 6 wmid eq_refl wmid_steps)). Defined.

End JobCancelSpec.
