(* ===== verification/ClassQueues.v ===== *)
(** * Queues of waiting jobs: [ClassQueues] of [executor/mod.rs]

    An actor keeps, per job class, one queue per lane and one [order] list that records the
    lanes in arrival order.  The operations keep the two in step; the refinement proved at the
    end says that together they are one list of (lane, job) pairs in arrival order. *)

From S2P Require Import Prelude RustStr.

Module ClassQueues.

(** ** Lanes, classes, jobs *)

Inductive Lane :=
  PureRead | SerialLspStatus | HeavyInit | Mutating | MaintenanceCommit | ProviderMetadata | CallLedger.
#[export] Instance Lane_eq_dec : EqDecision Lane.
Proof. solve_decision. Defined.

Definition ALL_LANES : list Lane :=
  [PureRead; SerialLspStatus; HeavyInit; Mutating; MaintenanceCommit; ProviderMetadata; CallLedger].

Definition lane_index (lane : Lane) : nat :=
  match lane with
  | PureRead => 0 | SerialLspStatus => 1 | HeavyInit => 2 | Mutating => 3
  | MaintenanceCommit => 4 | ProviderMetadata => 5 | CallLedger => 6
  end.

Inductive JobClass := Interactive | Maintenance.
#[export] Instance JobClass_eq_dec : EqDecision JobClass.
Proof. solve_decision. Defined.

Inductive MaintenanceCoalesceKey := WatcherDrain | LspDrain | StandingPass | ConfigReload.
#[export] Instance MaintenanceCoalesceKey_eq_dec : EqDecision MaintenanceCoalesceKey.
Proof. solve_decision. Defined.

(** Times are nanoseconds of the monotonic clock. *)
Abbreviation Instant := N (only parsing).

(** A closure, a reply channel and a cancellation token are each a number that names them. *)
Record QueuedJob := MkQueued {
  q_job : N; q_completion : N; q_request_id : str; q_command : str; q_queued_at : Instant;
  q_cancellation : option N; q_maintenance_coalesce_key : option MaintenanceCoalesceKey;
  q_rerun : option N; q_force_exclusive : bool; q_not_before : option Instant;
  q_exclusive_attempts : N; q_provider_generation : option N }.

Definition CALLGRAPH_ACQUISITION_REQUEST_ID : str := lit "callgraph-view-acquire".
Definition INTERACTIVE_WRITER_PROMOTION_AGE : N := 6000000000.
Definition BIND_PROMOTION_AGE : N := 500000000.
Definition READER_STUCK_CENSUS_AGE : N := 60000000000.

Definition is_configure_request (request_id : str) : bool := starts_with (lit "subc-bind-") request_id.

Definition is_bind_job (job_class : JobClass) (lane : Lane) (request_id : str) : bool :=
  bool_decide (job_class = Interactive) && bool_decide (lane = Mutating) && is_configure_request request_id.

Definition is_callgraph_acquisition (job_class : JobClass) (lane : Lane) (request_id : str) : bool :=
  bool_decide (job_class = Maintenance) && bool_decide (lane = HeavyInit)
  && bool_decide (request_id = CALLGRAPH_ACQUISITION_REQUEST_ID).

(** ** The queues *)

Record ClassQueues := MkQueues {
  order : list Lane;
  pure_reads : list QueuedJob; lsp_status : list QueuedJob; heavy_init : list QueuedJob;
  mutating : list QueuedJob; maintenance_commit : list QueuedJob;
  provider_metadata : list QueuedJob; call_ledger : list QueuedJob }.

(** [ClassQueues::new]. *)
Definition queues_new : ClassQueues := MkQueues [] [] [] [] [] [] [] [].

Definition queue (q : ClassQueues) (lane : Lane) : list QueuedJob :=
  match lane with
  | PureRead => pure_reads q | SerialLspStatus => lsp_status q | HeavyInit => heavy_init q
  | Mutating => mutating q | MaintenanceCommit => maintenance_commit q
  | ProviderMetadata => provider_metadata q | CallLedger => call_ledger q
  end.

(** What a write through [queue_mut(lane)] leaves. *)
Definition queue_mut (q : ClassQueues) (lane : Lane) (l : list QueuedJob) : ClassQueues :=
  let '(MkQueues o r s h m c p g) := q in
  match lane with
  | PureRead => MkQueues o l s h m c p g | SerialLspStatus => MkQueues o r l h m c p g
  | HeavyInit => MkQueues o r s l m c p g | Mutating => MkQueues o r s h l c p g
  | MaintenanceCommit => MkQueues o r s h m l p g | ProviderMetadata => MkQueues o r s h m c l g
  | CallLedger => MkQueues o r s h m c p l
  end.

Definition set_order (q : ClassQueues) (o : list Lane) : ClassQueues :=
  let '(MkQueues _ r s h m c p g) := q in MkQueues o r s h m c p g.

Definition push_job (q : ClassQueues) (lane : Lane) (job : QueuedJob) : ClassQueues :=
  queue_mut (set_order q (order q ++ [lane])) lane (queue q lane ++ [job]).

Definition push_front_job (q : ClassQueues) (lane : Lane) (job : QueuedJob) : ClassQueues :=
  queue_mut (set_order q (lane :: order q)) lane (job :: queue q lane).

Definition is_bind (job : QueuedJob) : bool := is_configure_request (q_request_id job).

Definition first_bind_job (q : ClassQueues) : option QueuedJob := head (filter (λ j, is_bind j = true) (mutating q)).

Definition has_queued_jobs (q : ClassQueues) : bool := negb (bool_decide (order q = [])).

Definition front_lane (q : ClassQueues) : option Lane := head (order q).

Definition saturating_duration_since (later earlier : Instant) : N := (later - earlier)%N.

(** [next_interactive_lane]. *)
Definition starved_writer (now : Instant) (stuck_readers_started_by : option Instant) (job : QueuedJob) : bool :=
  let promotion_age := if is_bind job then BIND_PROMOTION_AGE else INTERACTIVE_WRITER_PROMOTION_AGE in
  let waits_only_on_stuck_readers :=
    match stuck_readers_started_by with Some newest => (newest <=? q_queued_at job)%N | None => false end in
  (promotion_age <=? saturating_duration_since now (q_queued_at job))%N && negb waits_only_on_stuck_readers.

Definition next_interactive_lane (q : ClassQueues) (now : Instant) (newest_reader_started_at : option Instant)
  : option Lane :=
  let stuck_readers_started_by :=
    match newest_reader_started_at with
    | Some started =>
        if (READER_STUCK_CENSUS_AGE <=? saturating_duration_since now started)%N then Some started else None
    | None => None
    end in
  if existsb (starved_writer now stuck_readers_started_by) (mutating q) then Some Mutating
  else if negb (bool_decide (pure_reads q = [])) then Some PureRead
  else head (filter (λ lane, lane ∉ [PureRead; ProviderMetadata; CallLedger]) (order q)).

Definition pop_front_job (q : ClassQueues) (lane : Lane) : option QueuedJob * ClassQueues :=
  match position (λ queued, bool_decide (queued = lane)) (order q) with
  | None => (None, q)
  | Some i => (head (queue q lane), queue_mut (set_order q (delete i (order q))) lane (tail (queue q lane)))
  end.

Definition queued_count (q : ClassQueues) : nat := length (order q).

Definition has_maintenance_coalesce_key (q : ClassQueues) (key : MaintenanceCoalesceKey) : bool :=
  existsb (λ lane, existsb (λ job, bool_decide (q_maintenance_coalesce_key job = Some key)) (queue q lane))
    ALL_LANES.

(** [remove_duplicate_maintenance_jobs]: the positions found by the scan of [order], then the
    removals from the last to the first. *)
Fixpoint find_duplicates (q : ClassQueues) (order_position : nat) (o : list Lane)
    (seen : list MaintenanceCoalesceKey) (lane_positions : list nat) : list (nat * Lane * nat) :=
  match o with
  | [] => []
  | lane :: rest =>
      let queue_position := default 0 (lane_positions !! lane_index lane) in
      let lane_positions := <[lane_index lane := S queue_position]> lane_positions in
      match queue q lane !! queue_position ≫= q_maintenance_coalesce_key with
      | None => find_duplicates q (S order_position) rest seen lane_positions
      | Some key =>
          if decide (key ∈ seen)
          then (order_position, lane, queue_position)
                 :: find_duplicates q (S order_position) rest seen lane_positions
          else find_duplicates q (S order_position) rest (key :: seen) lane_positions
      end
  end.

Definition remove_duplicate (st : ClassQueues * list QueuedJob) (d : nat * Lane * nat)
  : ClassQueues * list QueuedJob :=
  let '(q, removed) := st in
  let '(order_position, lane, queue_position) := d in
  (queue_mut (set_order q (delete order_position (order q))) lane (delete queue_position (queue q lane)),
   removed ++ option_list (queue q lane !! queue_position)).

Definition remove_duplicate_maintenance_jobs (q : ClassQueues) : ClassQueues * list QueuedJob :=
  foldl remove_duplicate (q, []) (reverse (find_duplicates q 0 (order q) [] (replicate (length ALL_LANES) 0))).

(** ** Answers *)

(** What a job or the executor answers: an error has a request id, a code and a message. *)
Inductive Response :=
  | JobResponse (r : N)
  | Error (id code message : str).

(** A message on a reply channel. *)
Abbreviation Sent := (N * Response)%type.

Definition send (job : QueuedJob) (f : str → Response) : Sent := (q_completion job, f (q_request_id job)).

Definition actor_fatal_response (request_id : str) : Response :=
  Error request_id (lit "actor_fatal") (lit "executor actor is fatal after a mutating job panic").

Definition maintenance_cancelled_response (message : string) (request_id : str) : Response :=
  Error request_id (lit "maintenance_cancelled") (lit message).

Definition request_cancelled_response (message : string) (request_id : str) : Response :=
  Error request_id (lit "request_cancelled") (lit message).

Definition fail_queued_job_queue (l : list QueuedJob) : list Sent := (λ j, send j actor_fatal_response) <$> l.

Definition cancel_queued_job_queue (l : list QueuedJob) : nat * list Sent :=
  (length l,
   (λ j, send j (maintenance_cancelled_response
                   "maintenance cancelled because the actor has no bound routes")) <$> l).

(** The jobs of all lanes, in the order in which the lanes are drained. *)
Definition drained (q : ClassQueues) : list QueuedJob :=
  pure_reads q ++ lsp_status q ++ heavy_init q ++ mutating q ++ maintenance_commit q
  ++ provider_metadata q ++ call_ledger q.

Definition fail_queued_jobs (q : ClassQueues) : list Sent * ClassQueues :=
  (fail_queued_job_queue (drained q), queues_new).

Definition cancel_queued_jobs (q : ClassQueues) : nat * list Sent * ClassQueues :=
  (cancel_queued_job_queue (drained q), queues_new).

(** The tokens the jobs carry are cancelled too; their cells are not part of the queues. *)
Definition cancel_queued_provider_jobs (q : ClassQueues) : nat * list Sent * ClassQueues :=
  (length (provider_metadata q),
   (λ j, send j (request_cancelled_response "provider metadata root has no bound routes")) <$> provider_metadata q,
   queue_mut (set_order q (filter (λ lane, lane ≠ ProviderMetadata) (order q))) ProviderMetadata []).

Definition has_queued_mutating_job (q : ClassQueues) (request_id : str) : bool :=
  existsb (λ job, bool_decide (q_request_id job = request_id)) (mutating q).

(** The position in [order] of the [k]-th entry of a lane. *)
Fixpoint occurrence_position (lane : Lane) (k occurrence : nat) (o : list Lane) : option nat :=
  match o with
  | [] => None
  | entry :: rest =>
      if decide (entry = lane) then
        if decide (occurrence = k) then Some 0 else S <$> occurrence_position lane k (S occurrence) rest
      else S <$> occurrence_position lane k occurrence rest
  end.

(** The removal that [remove_first_bind_job] and [remove_cancellable] share. *)
Definition remove_at (q : ClassQueues) (lane : Lane) (k : nat) : option QueuedJob * ClassQueues :=
  let removed := queue q lane !! k in
  let q1 := queue_mut q lane (delete k (queue q lane)) in
  (removed, match occurrence_position lane k 0 (order q) with
            | Some i => set_order q1 (delete i (order q))
            | None => q1
            end).

Definition remove_first_bind_job (q : ClassQueues) : option QueuedJob * ClassQueues :=
  match position is_bind (mutating q) with
  | None => (None, q)
  | Some k => remove_at q Mutating k
  end.

Definition carries (token : N) (job : QueuedJob) : bool := bool_decide (q_cancellation job = Some token).

Fixpoint remove_cancellable_in (q : ClassQueues) (token : N) (lanes : list Lane) : option QueuedJob * ClassQueues :=
  match lanes with
  | [] => (None, q)
  | lane :: rest =>
      match position (carries token) (queue q lane) with
      | Some k => remove_at q lane k
      | None => remove_cancellable_in q token rest
      end
  end.

Definition remove_cancellable (q : ClassQueues) (token : N) : option QueuedJob * ClassQueues :=
  remove_cancellable_in q token ALL_LANES.

Definition queued_configure_count (q : ClassQueues) : nat := length (filter (λ j, is_bind j = true) (mutating q)).

Definition min_time (a : option Instant) (t : Instant) : option Instant :=
  Some (match a with Some x => N.min x t | None => t end).

Definition oldest_queued_bind_at (q : ClassQueues) : option Instant :=
  foldl min_time None (q_queued_at <$> filter (λ j, is_bind j = true) (mutating q)).

Definition oldest_queued_at (q : ClassQueues) : option Instant :=
  front_lane q ≫= λ lane, q_queued_at <$> head (queue q lane).

(** ** Refinement: one list in arrival order *)

Abbreviation arrival := (Lane * QueuedJob)%type.

Definition in_lane (lane : Lane) (x : arrival) : Prop := x.1 = lane.
#[export] Instance in_lane_dec lane x : Decision (in_lane lane x).
Proof. unfold in_lane. apply _. Defined.

(** The jobs of one lane, in arrival order. *)
Definition of_lane (lane : Lane) (a : list arrival) : list QueuedJob := (filter (in_lane lane) a).*2.

(** The queues hold the arrivals [a]. *)
Definition holds (q : ClassQueues) (a : list arrival) : Prop :=
  order q = a.*1 ∧ ∀ lane, queue q lane = of_lane lane a.

Lemma queue_mut_same q lane l : queue (queue_mut q lane l) lane = l.
Proof. by destruct q, lane. Qed.
Lemma queue_mut_other q lane lane' l : lane ≠ lane' → queue (queue_mut q lane l) lane' = queue q lane'.
Proof. by destruct q, lane, lane'. Qed.
Lemma order_queue_mut q lane l : order (queue_mut q lane l) = order q.
Proof. by destruct q, lane. Qed.
Lemma queue_set_order q o lane : queue (set_order q o) lane = queue q lane.
Proof. by destruct q, lane. Qed.
Lemma order_set_order q o : order (set_order q o) = o.
Proof. by destruct q. Qed.
Create Rewrite HintDb aft_queues.
#[export] Hint Rewrite queue_mut_same order_queue_mut queue_set_order order_set_order : aft_queues.

Lemma of_lane_app lane a b : of_lane lane (a ++ b) = of_lane lane a ++ of_lane lane b.
Proof. unfold of_lane. by rewrite filter_app, fmap_app. Qed.

Lemma of_lane_cons lane x a :
  of_lane lane (x :: a) = (if decide (x.1 = lane) then [x.2] else []) ++ of_lane lane a.
Proof. unfold of_lane. rewrite filter_cons. unfold in_lane. by case_decide. Qed.

Lemma holds_new : holds queues_new [].
Proof. split; [done|]. by intros []. Qed.

(** The abstract removal: the first arrival that satisfies [p]. *)
Fixpoint take_first (p : arrival → bool) (a : list arrival) : option QueuedJob * list arrival :=
  match a with
  | [] => (None, [])
  | x :: rest => if p x then (Some x.2, rest) else let '(o, rest) := take_first p rest in (o, x :: rest)
  end.

Lemma take_first_None p a : (∀ x, x ∈ a → p x = false) → take_first p a = (None, a).
Proof.
  induction a as [|x a IH]; intros Hp; simpl; [done|]. rewrite (Hp x) by (by left).
  rewrite IH; [done|]. intros y Hy. apply Hp. by right.
Qed.

Lemma take_first_Some p a1 x a2 :
  (∀ y, y ∈ a1 → p y = false) → p x = true → take_first p (a1 ++ x :: a2) = (Some x.2, a1 ++ a2).
Proof.
  intros Ha Hx. induction a1 as [|y a1 IH]; simpl; [by rewrite Hx|]. rewrite (Ha y) by (by left).
  rewrite IH; [done|]. intros z Hz. apply Ha. by right.
Qed.

(** Where the first arrival that satisfies [p] is. *)
Lemma first_split (p : arrival → bool) a :
  (∀ x, x ∈ a → p x = false) ∨
  ∃ a1 x a2, a = a1 ++ x :: a2 ∧ (∀ y, y ∈ a1 → p y = false) ∧ p x = true.
Proof.
  induction a as [|x a IH]; [left; intros x Hx; by apply not_elem_of_nil in Hx|].
  destruct (p x) eqn:Hx; [right; exists [], x, a; split_and!; [done| |done]; intros y Hy; by apply not_elem_of_nil in Hy|].
  destruct IH as [Hn|(a1 & y & a2 & -> & H1 & H2)].
  - left. intros z [->|Hz]%elem_of_cons; auto.
  - right. exists (x :: a1), y, a2. split_and!; [done| |done]. intros z [->|Hz]%elem_of_cons; auto.
Qed.

Lemma elem_of_of_lane lane j a : j ∈ of_lane lane a ↔ (lane, j) ∈ a.
Proof.
  unfold of_lane. rewrite list_elem_of_fmap. split.
  - intros ([l j'] & -> & [Hl Hj]%list_elem_of_filter). unfold in_lane in Hl. simpl in *. by subst l.
  - intros Hj. exists (lane, j). split; [done|]. by apply list_elem_of_filter.
Qed.

(** The [k]-th entry of a lane in [order] belongs to the [k]-th job of its queue. *)
Lemma occurrence_position_app lane (a1 : list arrival) j a2 n :
  occurrence_position lane (n + length (of_lane lane a1)) n (a1 ++ (lane, j) :: a2).*1 = Some (length a1).
Proof.
  revert n. induction a1 as [|[l x] a1 IH]; intros n; simpl.
  - unfold of_lane. simpl. rewrite Nat.add_0_r. by rewrite !decide_True.
  - rewrite of_lane_cons. change (list_fmap _ _ fst ?l) with (l.*1). simpl.
    destruct (decide (l = lane)) as [->|Hl]; simpl.
    + rewrite decide_False by lia. rewrite <-(Nat.add_succ_comm n), IH. done.
    + by rewrite IH.
Qed.

Lemma delete_middle {A} (l1 l2 : list A) x : delete (length l1) (l1 ++ x :: l2) = l1 ++ l2.
Proof. induction l1 as [|y l1 IH]; simpl; [done|]. by rewrite IH. Qed.

(** A removal from the two lists is a removal from the one. *)
Lemma delete_holds q q' lane j a1 a2 :
  holds q (a1 ++ (lane, j) :: a2) →
  order q' = delete (length a1) (order q) →
  queue q' lane = delete (length (of_lane lane a1)) (queue q lane) →
  (∀ l, l ≠ lane → queue q' l = queue q l) →
  holds q' (a1 ++ a2).
Proof.
  intros [Ho Hq] Ho' Hq' Hother. split.
  - rewrite Ho', Ho, !fmap_app, fmap_cons, <-(length_fmap fst a1). apply delete_middle.
  - intros l. rewrite of_lane_app. destruct (decide (l = lane)) as [->|Hne].
    + rewrite Hq', Hq, of_lane_app, of_lane_cons, decide_True by done. apply delete_middle.
    + rewrite Hother, Hq, of_lane_app, of_lane_cons, decide_False by done. done.
Qed.

Lemma queue_middle q lane j a1 a2 :
  holds q (a1 ++ (lane, j) :: a2) → queue q lane !! length (of_lane lane a1) = Some j.
Proof.
  intros [_ Hq]. rewrite Hq, of_lane_app, of_lane_cons, decide_True by done.
  cbn [app snd]. by apply list_lookup_middle.
Qed.

(** The three removals write [order] and one queue. *)
Lemma write_both_holds q lane j a1 a2 k :
  holds q (a1 ++ (lane, j) :: a2) → k = length (of_lane lane a1) →
  holds (queue_mut (set_order q (delete (length a1) (order q))) lane (delete k (queue q lane))) (a1 ++ a2).
Proof.
  intros Hh ->. eapply delete_holds; [done|by autorewrite with aft_queues..|].
  intros l Hl. by rewrite queue_mut_other, queue_set_order.
Qed.

Lemma set_order_queue_mut q o lane l : set_order (queue_mut q lane l) o = queue_mut (set_order q o) lane l.
Proof. by destruct q, lane. Qed.

Lemma remove_at_holds q lane j a1 a2 :
  holds q (a1 ++ (lane, j) :: a2) →
  ∃ q', remove_at q lane (length (of_lane lane a1)) = (Some j, q') ∧ holds q' (a1 ++ a2).
Proof.
  intros Hh. unfold remove_at. rewrite (queue_middle _ _ _ _ _ Hh). pose proof Hh as [Ho _].
  assert (occurrence_position lane (length (of_lane lane a1)) 0 (order q) = Some (length a1)) as ->.
  { rewrite Ho. exact (occurrence_position_app lane a1 j a2 0). }
  eexists. split; [done|]. rewrite set_order_queue_mut. by eapply write_both_holds.
Qed.

Definition lane_and (lane : Lane) (p : QueuedJob → bool) (x : arrival) : bool := bool_decide (x.1 = lane) && p x.2.

Lemma lane_and_false lane p a : (∀ x, x ∈ a → lane_and lane p x = false) → position p (of_lane lane a) = None.
Proof.
  intros Hn. apply position_None. intros j Hj%elem_of_of_lane. specialize (Hn _ Hj).
  unfold lane_and in Hn. simpl in Hn. by rewrite bool_decide_eq_true_2 in Hn.
Qed.

Lemma lane_and_position lane p a1 j a2 :
  (∀ y, y ∈ a1 → lane_and lane p y = false) → p j = true →
  position p (of_lane lane (a1 ++ (lane, j) :: a2)) = Some (length (of_lane lane a1)).
Proof.
  intros Hn Hp. rewrite of_lane_app, of_lane_cons, decide_True by done. cbn [app snd]. apply lane_and_false in Hn.
  apply position_Some. exists j. rewrite list_lookup_middle by done. split_and!; [done|done|].
  intros i y Hi Hy. rewrite lookup_app_l in Hy by lia. rewrite position_None in Hn.
  apply Hn. by eapply list_elem_of_lookup_2.
Qed.

(** The shared shape of the two removals. *)
Lemma remove_first_holds q a lane p :
  holds q a →
  ∃ q', match position p (queue q lane) with None => (None, q) | Some k => remove_at q lane k end
        = ((take_first (lane_and lane p) a).1, q') ∧ holds q' (take_first (lane_and lane p) a).2.
Proof.
  intros Hh. destruct (first_split (lane_and lane p) a) as [Hn|(a1 & [l j] & a2 & -> & H1 & H2)].
  - rewrite take_first_None by done. destruct Hh as [Ho Hq]. rewrite Hq, lane_and_false by done.
    by exists q.
  - rewrite take_first_Some by done. unfold lane_and in H2. simpl in H2.
    apply andb_true_iff in H2 as [->%bool_decide_eq_true H2].
    pose proof Hh as [_ Hq]. rewrite Hq, lane_and_position by done. by apply remove_at_holds.
Qed.

Lemma position_order lane (a1 : list arrival) j a2 :
  (∀ y, y ∈ a1 → lane_and lane (λ _, true) y = false) →
  position (λ queued, bool_decide (queued = lane)) (a1 ++ (lane, j) :: a2).*1 = Some (length a1) ∧
  of_lane lane a1 = [].
Proof.
  intros Hn. induction a1 as [|[l x] a1 IH].
  { split; [|done]. rewrite fmap_app, fmap_cons. simpl. by rewrite bool_decide_eq_true_2. }
  assert (l ≠ lane) as Hl.
  { intros ->. specialize (Hn (lane, x) ltac:(left)). unfold lane_and in Hn. simpl in Hn.
    by rewrite bool_decide_eq_true_2 in Hn. }
  destruct IH as [H1 H2]; [intros y Hy; apply Hn; by right|]. split.
  - cbn [app]. rewrite fmap_cons. simpl. rewrite bool_decide_eq_false_2 by done. by rewrite H1.
  - by rewrite of_lane_cons, decide_False.
Qed.

Lemma pop_front_holds q a lane :
  holds q a →
  ∃ q', pop_front_job q lane = ((take_first (lane_and lane (λ _, true)) a).1, q') ∧
        holds q' (take_first (lane_and lane (λ _, true)) a).2.
Proof.
  intros Hh. unfold pop_front_job.
  destruct (first_split (lane_and lane (λ _, true)) a) as [Hn|(a1 & [l j] & a2 & -> & H1 & H2)].
  - rewrite take_first_None by done. pose proof Hh as [Ho Hq]. rewrite Ho.
    assert (position (λ queued, bool_decide (queued = lane)) a.*1 = None) as ->; [|by exists q].
    apply position_None. intros l Hl. apply bool_decide_eq_false. intros ->.
    apply list_elem_of_fmap in Hl as (x & -> & Hx). specialize (Hn x Hx). unfold lane_and in Hn.
    by rewrite bool_decide_eq_true_2 in Hn.
  - unfold lane_and in H2. simpl in H2. apply andb_true_iff in H2 as [->%bool_decide_eq_true _].
    rewrite take_first_Some; [|done|unfold lane_and; simpl; by rewrite bool_decide_eq_true_2].
    destruct (position_order lane a1 j a2 H1) as [Hp Hz]. pose proof Hh as [Ho _]. rewrite <-Ho in Hp. rewrite Hp.
    pose proof (queue_middle _ _ _ _ _ Hh) as Hm. pose proof (write_both_holds _ _ _ _ _ 0 Hh) as Hw.
    rewrite Hz in Hm, Hw. eexists. split; [|by apply Hw].
    by destruct (queue q lane); simplify_eq/=.
Qed.

Lemma push_job_holds q a lane j : holds q a → holds (push_job q lane j) (a ++ [(lane, j)]).
Proof.
  intros [Ho Hq]. unfold push_job. split; autorewrite with aft_queues.
  - by rewrite Ho, fmap_app.
  - intros l. rewrite of_lane_app, of_lane_cons. destruct (decide (lane = l)) as [->|Hne].
    + autorewrite with aft_queues. by rewrite Hq, decide_True.
    + rewrite queue_mut_other, queue_set_order, Hq, decide_False by done. simpl. by rewrite app_nil_r.
Qed.

Lemma push_front_holds q a lane j : holds q a → holds (push_front_job q lane j) ((lane, j) :: a).
Proof.
  intros [Ho Hq]. unfold push_front_job. split; autorewrite with aft_queues.
  - by rewrite Ho.
  - intros l. rewrite of_lane_cons. destruct (decide (lane = l)) as [->|Hne].
    + autorewrite with aft_queues. by rewrite Hq, decide_True.
    + by rewrite queue_mut_other, queue_set_order, Hq, decide_False.
Qed.

(** The abstract removal by token: the first lane that has the token. *)
Fixpoint take_token (token : N) (lanes : list Lane) (a : list arrival) : option QueuedJob * list arrival :=
  match lanes with
  | [] => (None, a)
  | lane :: rest =>
      match take_first (lane_and lane (carries token)) a with
      | (Some j, a') => (Some j, a')
      | (None, _) => take_token token rest a
      end
  end.

Lemma remove_cancellable_holds q a token lanes :
  holds q a →
  ∃ q', remove_cancellable_in q token lanes = ((take_token token lanes a).1, q') ∧
        holds q' (take_token token lanes a).2.
Proof.
  intros Hh. induction lanes as [|lane lanes IH]; simpl; [by exists q|].
  pose proof Hh as [_ Hq]. destruct (first_split (lane_and lane (carries token)) a) as [Hn|(a1 & [l j] & a2 & -> & H1 & H2)].
  - rewrite Hq, lane_and_false, take_first_None by done. done.
  - rewrite take_first_Some by done. unfold lane_and in H2. simpl in H2.
    apply andb_true_iff in H2 as [->%bool_decide_eq_true H2].
    rewrite Hq, lane_and_position by done. by apply remove_at_holds.
Qed.

(** The abstract coalescing: the first job of each key stays. *)
Fixpoint coalesce (seen : list MaintenanceCoalesceKey) (a : list arrival) : list arrival * list QueuedJob :=
  match a with
  | [] => ([], [])
  | x :: rest =>
      match q_maintenance_coalesce_key x.2 with
      | None => let '(kept, removed) := coalesce seen rest in (x :: kept, removed)
      | Some key =>
          if decide (key ∈ seen) then let '(kept, removed) := coalesce seen rest in (kept, x.2 :: removed)
          else let '(kept, removed) := coalesce (key :: seen) rest in (x :: kept, removed)
      end
  end.

Definition positions_ok (positions : list nat) (before : list arrival) : Prop :=
  ∀ lane, positions !! lane_index lane = Some (length (of_lane lane before)).

Lemma positions_snoc positions before lane j :
  positions_ok positions before →
  positions_ok (<[lane_index lane := S (length (of_lane lane before))]> positions) (before ++ [(lane, j)]).
Proof.
  intros Hp l. rewrite of_lane_app, of_lane_cons. destruct (decide (lane = l)) as [->|Hne].
  - rewrite decide_True by done. rewrite list_lookup_insert_eq by (by eapply lookup_lt_Some, Hp).
    rewrite length_app. simpl. f_equal. lia.
  - rewrite list_lookup_insert_ne by (by destruct lane, l). rewrite decide_False by done.
    simpl. rewrite app_nil_r. apply Hp.
Qed.

Lemma find_duplicates_spec q rest before seen positions :
  holds q (before ++ rest) → positions_ok positions before →
  ∃ q', foldr (λ d st, remove_duplicate st d) (q, [])
          (find_duplicates q (length before) rest.*1 seen positions)
        = (q', reverse (coalesce seen rest).2) ∧ holds q' (before ++ (coalesce seen rest).1).
Proof.
  revert before seen positions. induction rest as [|[lane j] rest IH]; intros before seen positions Hh Hp.
  { exists q. done. }
  assert (holds q ((before ++ [(lane, j)]) ++ rest)) as Hh' by (by rewrite <-app_assoc).
  pose proof (positions_snoc positions before lane j Hp) as Hp'.
  rewrite fmap_cons. simpl. rewrite Hp. simpl. rewrite (queue_middle _ _ _ _ _ Hh). simpl.
  pose proof (λ seen, IH _ seen _ Hh' Hp') as IH'. rewrite length_app, Nat.add_1_r in IH'.
  change (list_fmap _ _ fst ?l) with (l.*1).
  destruct (q_maintenance_coalesce_key j) as [key|]; [case_decide|].
  - simpl. destruct (IH' seen) as (q' & -> & Hq'). destruct (coalesce seen rest) as [kept removed].
    simpl in *. rewrite <-app_assoc in Hq'. rewrite (queue_middle _ _ _ _ _ Hq'). simpl.
    rewrite reverse_cons. eexists. split; [done|]. by eapply write_both_holds.
  - destruct (IH' (key :: seen)) as (q' & -> & Hq'). destruct (coalesce (key :: seen) rest) as [kept removed].
    exists q'. split; [done|]. by rewrite <-app_assoc in Hq'.
  - destruct (IH' seen) as (q' & -> & Hq'). destruct (coalesce seen rest) as [kept removed].
    exists q'. split; [done|]. by rewrite <-app_assoc in Hq'.
Qed.

Lemma foldl_reverse {A B} (f : A → B → A) x l : foldl f x (reverse l) = foldr (λ b a, f a b) x l.
Proof. induction l as [|b l IH]; [done|]. rewrite reverse_cons, foldl_app. simpl. by rewrite IH. Qed.

Lemma remove_duplicates_holds q a :
  holds q a →
  ∃ q', remove_duplicate_maintenance_jobs q = (q', reverse (coalesce [] a).2) ∧ holds q' (coalesce [] a).1.
Proof.
  intros Hh. unfold remove_duplicate_maintenance_jobs. rewrite foldl_reverse. pose proof Hh as [Ho _]. rewrite Ho.
  apply (find_duplicates_spec q a [] []); [done|]. by intros [].
Qed.

Lemma of_lane_filter_other lane lane' a :
  of_lane lane (filter (λ x, x.1 ≠ lane') a) = if decide (lane = lane') then [] else of_lane lane a.
Proof.
  induction a as [|[l j] a IH]; [by case_decide|]. rewrite filter_cons, of_lane_cons. simpl.
  repeat case_decide; subst; rewrite ?of_lane_cons, ?IH; simpl; repeat case_decide; naive_solver.
Qed.

Lemma filter_fst (P : Lane → Prop) `{∀ l, Decision (P l)} (a : list arrival) :
  filter P a.*1 = (filter (λ x, P x.1) a).*1.
Proof.
  induction a as [|[l j] a IH]; [done|]. rewrite fmap_cons, !filter_cons. simpl.
  case_decide; rewrite ?fmap_cons, IH; done.
Qed.

Lemma drain_provider_holds q a :
  holds q a → holds (cancel_queued_provider_jobs q).2 (filter (λ x, x.1 ≠ ProviderMetadata) a).
Proof.
  intros [Ho Hq]. unfold cancel_queued_provider_jobs. cbn [snd]. split; autorewrite with aft_queues.
  - by rewrite Ho, filter_fst.
  - intros l. rewrite of_lane_filter_other. case_decide as Hl.
    + subst l. by autorewrite with aft_queues.
    + rewrite queue_mut_other by congruence. by rewrite queue_set_order.
Qed.

(** ** Sequences of operations *)

Inductive QueueOp :=
  | PushJob (lane : Lane) (job : QueuedJob)
  | PushFrontJob (lane : Lane) (job : QueuedJob)
  | PopFrontJob (lane : Lane)
  | RemoveFirstBindJob
  | RemoveCancellable (token : N)
  | RemoveDuplicateMaintenanceJobs
  | CancelQueuedProviderJobs
  | DrainAll.

(** The jobs that leave the queues, and the queues after the operation. *)
Definition run_op (q : ClassQueues) (op : QueueOp) : list QueuedJob * ClassQueues :=
  match op with
  | PushJob lane job => ([], push_job q lane job)
  | PushFrontJob lane job => ([], push_front_job q lane job)
  | PopFrontJob lane => let '(o, q) := pop_front_job q lane in (option_list o, q)
  | RemoveFirstBindJob => let '(o, q) := remove_first_bind_job q in (option_list o, q)
  | RemoveCancellable token => let '(o, q) := remove_cancellable q token in (option_list o, q)
  | RemoveDuplicateMaintenanceJobs => let '(q, removed) := remove_duplicate_maintenance_jobs q in (removed, q)
  | CancelQueuedProviderJobs => (provider_metadata q, (cancel_queued_provider_jobs q).2)
  | DrainAll => (drained q, (cancel_queued_jobs q).2)
  end.

(** The same on a list of arrivals. *)
Definition spec_op (a : list arrival) (op : QueueOp) : list QueuedJob * list arrival :=
  match op with
  | PushJob lane job => ([], a ++ [(lane, job)])
  | PushFrontJob lane job => ([], (lane, job) :: a)
  | PopFrontJob lane => let '(o, a) := take_first (lane_and lane (λ _, true)) a in (option_list o, a)
  | RemoveFirstBindJob => let '(o, a) := take_first (lane_and Mutating is_bind) a in (option_list o, a)
  | RemoveCancellable token => let '(o, a) := take_token token ALL_LANES a in (option_list o, a)
  | RemoveDuplicateMaintenanceJobs => let '(kept, removed) := coalesce [] a in (reverse removed, kept)
  | CancelQueuedProviderJobs => (of_lane ProviderMetadata a, filter (λ x, x.1 ≠ ProviderMetadata) a)
  | DrainAll => (ALL_LANES ≫= λ lane, of_lane lane a, [])
  end.

Fixpoint run_ops {S} (step : S → QueueOp → list QueuedJob * S) (s : S) (ops : list QueueOp)
  : list (list QueuedJob) * S :=
  match ops with
  | [] => ([], s)
  | op :: ops => let '(out, s) := step s op in let '(outs, s) := run_ops step s ops in (out :: outs, s)
  end.

Lemma drained_lanes q a : holds q a → drained q = ALL_LANES ≫= λ lane, of_lane lane a.
Proof.
  intros [_ Hq]. unfold drained. simpl. rewrite <-!Hq. simpl. by rewrite app_nil_r.
Qed.

Lemma run_op_holds q a op :
  holds q a → (run_op q op).1 = (spec_op a op).1 ∧ holds (run_op q op).2 (spec_op a op).2.
Proof.
  intros Hh. destruct op as [lane job|lane job|lane| |token| | |]; cbn [run_op spec_op].
  - split; [done|]. by apply push_job_holds.
  - split; [done|]. by apply push_front_holds.
  - destruct (pop_front_holds q a lane Hh) as (q' & -> & Hq'). by destruct (take_first _ a).
  - destruct (remove_first_holds q a Mutating is_bind Hh) as (q' & Heq & Hq').
    unfold remove_first_bind_job. simpl in Heq. rewrite Heq. by destruct (take_first _ a).
  - destruct (remove_cancellable_holds q a token ALL_LANES Hh) as (q' & Heq & Hq').
    unfold remove_cancellable. rewrite Heq. by destruct (take_token _ _ a).
  - destruct (remove_duplicates_holds q a Hh) as (q' & -> & Hq'). by destruct (coalesce [] a).
  - split; [exact (proj2 Hh ProviderMetadata)|]. by apply drain_provider_holds.
  - split; [by apply drained_lanes|apply holds_new].
Qed.

(** C34: the per-lane queues and the [order] list behave as one list of arrivals: for every
    sequence of pushes, requeues, pops, removals by token, coalescings and drains, the jobs
    that leave are those that leave the arrival list, and [order] pairs with the queues, so
    that no operation swaps two jobs of a lane or loses one. *)
Theorem queue_operations_refine ops :
  (run_ops run_op queues_new ops).1 = (run_ops spec_op [] ops).1 ∧
  holds (run_ops run_op queues_new ops).2 (run_ops spec_op [] ops).2.
Proof.
  generalize holds_new. generalize queues_new. generalize (@nil arrival).
  induction ops as [|op ops IH]; intros a q Hh; [done|]. simpl.
  destruct (run_op_holds q a op Hh) as [H1 H2].
  destruct (run_op q op) as [out q']. destruct (spec_op a op) as [out' a']. simpl in *.
  destruct (IH a' q' H2) as [H3 H4]. destruct (run_ops run_op q' ops). destruct (run_ops spec_op a' ops).
  simpl in *. by subst.
Qed.

End ClassQueues.
