(* ===== verification/Scheduler.v ===== *)
(** * The job scheduler of [executor/mod.rs]

    One lock guards the scheduler's state; the scheduler thread completes and dispatches jobs
    under it, workers run them and answer, and other threads submit, cancel, register and
    remove under it.  Each critical section is a function on the [World]: the state, the heavy
    permits, the jobs handed to workers, the event channel, and the answers sent.  What the code
    reads from elsewhere (the clock, the cancellation cells, the root's lifecycle and the disk)
    is an argument of the function that reads it; one pass of the dispatcher reads the clock
    once. *)

From S2P Require Import Prelude RustStr ClassQueues JobCancel.
Import ClassQueues.

Module Scheduler.

(** ** Configuration *)

Record ExecutorConfig := MkConfig {
  c_pool_size : nat; c_read_cap : nat; c_actor_cap : nat; c_heavy_permits : nat; c_drr_quantum : Z }.

Definition clamp (n lo hi : nat) : nat := Nat.min (Nat.max n lo) hi.

(** [ExecutorConfig::default] on a machine that reports [available] threads. *)
Definition default_config (available : option nat) : ExecutorConfig :=
  let available := default 2 available in
  let pool_size := clamp (available - 1) 2 8 in
  let actor_cap := clamp (pool_size - 1) 1 4 in
  let read_cap := clamp actor_cap 1 4 in
  let heavy_permits := clamp (pool_size - 1) 2 3 in
  MkConfig pool_size read_cap actor_cap heavy_permits 1.

Definition BIND_RESERVE_WORKERS : nat := 2.
Definition PROVIDER_RESERVE_WORKERS : nat := 2.
Definition JOB_COST : Z := 1.
Definition MAINTENANCE_QUEUE_CAP : nat := 512.
Definition SCHEDULER_EVENT_BATCH_CAP : nat := 64.

Record EffectiveConfig := MkEffective {
  pool_size : nat; read_cap : nat; actor_cap : nat; heavy_permits : nat;
  drr_quantum : Z; deficit_cap : Z; interactive_reserve : nat; maintenance_cap : nat;
  bind_reserve : nat; provider_reserve : nat }.

Definition total_workers (c : EffectiveConfig) : nat := pool_size c + bind_reserve c + provider_reserve c.

Definition effective (c : ExecutorConfig) : EffectiveConfig :=
  let pool_size := clamp (c_pool_size c) 2 8 in
  let max_actor_cap := Nat.max (pool_size - 1) 1 in
  let actor_cap := Nat.min (Nat.max (c_actor_cap c) 1) max_actor_cap in
  let read_cap := Nat.min (Nat.min (Nat.max (c_read_cap c) 1) actor_cap) 4 in
  let heavy_permits := Nat.min (Nat.min (Nat.max (c_heavy_permits c) 1) (Nat.max (pool_size - 1) 1)) 3 in
  let drr_quantum := Z.max (c_drr_quantum c) 1 in
  let deficit_cap := (Z.of_nat (Nat.max actor_cap 1) * 4)%Z in
  let interactive_reserve := if 4 <=? pool_size then 2 else 1 in
  let maintenance_cap := Nat.max (pool_size - interactive_reserve) 1 in
  MkEffective pool_size read_cap actor_cap heavy_permits drr_quantum deficit_cap
    interactive_reserve maintenance_cap BIND_RESERVE_WORKERS PROVIDER_RESERVE_WORKERS.

(** ** Actors *)

Record RunningMutatingJob := MkMutating { m_request_id : str; m_command : str; m_started_at : Instant }.

Record ActorState := MkActor {
  ctx : N; read_inflight : nat; lsp_inflight : bool; actor_total_inflight : nat;
  writer_inflight : bool; shared_bind_inflight : bool; maintenance_commit_inflight : bool;
  callgraph_acquisition_inflight : bool; actor_provider_inflight : bool; call_ledger_inflight : bool;
  mutating_inflight : option RunningMutatingJob; reader_admissions : N; deficit : Z;
  interactive : ClassQueues; maintenance : ClassQueues; fatal : bool; waiting_writers : nat }.

Definition actor_new (ctx : N) : ActorState :=
  MkActor ctx 0 false 0 false false false false false false None 0 0 queues_new queues_new false 0.

Definition class_queues (a : ActorState) (job_class : JobClass) : ClassQueues :=
  match job_class with Interactive => interactive a | Maintenance => maintenance a end.

(** A write of one class's queues. *)
Definition set_queues (a : ActorState) (job_class : JobClass) (q : ClassQueues) : ActorState :=
  let '(MkActor c r l t w s m g p k j n d qi qm f ww) := a in
  match job_class with
  | Interactive => MkActor c r l t w s m g p k j n d q qm f ww
  | Maintenance => MkActor c r l t w s m g p k j n d qi q f ww
  end.

Definition sync_waiting_writers (a : ActorState) : ActorState :=
  let '(MkActor c r l t w s m g p k j n d qi qm f _) := a in
  MkActor c r l t w s m g p k j n d qi qm f (length (mutating qi)).

Definition set_deficit (a : ActorState) (d : Z) : ActorState :=
  let '(MkActor c r l t w s m g p k j n _ qi qm f ww) := a in
  MkActor c r l t w s m g p k j n d qi qm f ww.

Definition set_fatal (a : ActorState) : ActorState :=
  let '(MkActor c r l t w s m g p k j n d qi qm _ ww) := a in
  MkActor c r l t w s m g p k j n d qi qm true ww.

Definition note_reader_admission (a : ActorState) : ActorState :=
  let '(MkActor c r l t w s m g p k j n d qi qm f ww) := a in
  MkActor c r l t w s m g p k j (sat_add64 n 1) d qi qm f ww.

(** [ActorState::push_job]. *)
Definition actor_push_job (a : ActorState) (job_class : JobClass) (lane : Lane) (job : QueuedJob) : ActorState :=
  sync_waiting_writers (set_queues a job_class (push_job (class_queues a job_class) lane job)).

Definition actor_has_queued_jobs (a : ActorState) : bool :=
  has_queued_jobs (interactive a) || has_queued_jobs (maintenance a).

(** [publishing]: a view publication runs for the actor's context. *)
Definition is_idle (publishing : bool) (a : ActorState) : bool :=
  (actor_total_inflight a =? 0) && negb (actor_has_queued_jobs a) && negb publishing.

Definition has_queued_jobs_for (a : ActorState) (job_class : JobClass) : bool :=
  match job_class with
  | Interactive => existsb (λ lane, bool_decide (lane ∉ [ProviderMetadata; CallLedger])) (order (interactive a))
  | Maintenance => has_queued_jobs (maintenance a)
  end.

Definition actor_pop_front_job (a : ActorState) (job_class : JobClass) (lane : Lane) : option QueuedJob * ActorState :=
  let '(job, q) := pop_front_job (class_queues a job_class) lane in
  (job, sync_waiting_writers (set_queues a job_class q)).

Definition pop_first_bind_job (a : ActorState) : option QueuedJob * ActorState :=
  let '(job, q) := remove_first_bind_job (interactive a) in
  (job, sync_waiting_writers (set_queues a Interactive q)).

Definition higher_priority_writer_barrier_blocks (a : ActorState) (job_class : JobClass) : bool :=
  bool_decide (job_class = Maintenance) && negb (bool_decide (queue (interactive a) Mutating = [])).

Definition actor_fail_queued_jobs (a : ActorState) : list Sent * ActorState :=
  let '(s1, qi) := fail_queued_jobs (interactive a) in
  let '(s2, qm) := fail_queued_jobs (maintenance a) in
  (s1 ++ s2, sync_waiting_writers (set_queues (set_queues a Interactive qi) Maintenance qm)).

Definition cancel_queued_root_work (a : ActorState) : nat * list Sent * ActorState :=
  let '(n1, s1, qm) := cancel_queued_jobs (maintenance a) in
  let '(n2, s2, qi) := cancel_queued_provider_jobs (interactive a) in
  (n1 + n2, s1 ++ s2, set_queues (set_queues a Maintenance qm) Interactive qi).

Definition remove_queued_cancellable (a : ActorState) (token : N) : option QueuedJob * ActorState :=
  match remove_cancellable (interactive a) token with
  | (Some job, qi) => (Some job, sync_waiting_writers (set_queues a Interactive qi))
  | (None, qi) =>
      let '(job, qm) := remove_cancellable (maintenance a) token in
      (job, sync_waiting_writers (set_queues (set_queues a Interactive qi) Maintenance qm))
  end.

Definition oldest_queued_writer_at (a : ActorState) : option Instant :=
  foldl min_time None
    (q_queued_at <$> option_list (head (queue (interactive a) Mutating))
                     ++ option_list (head (queue (maintenance a) Mutating))).

(** The in-flight counters when a job of [lane] starts: [acquisition] says whether it is the
    callgraph acquisition, [shared] whether it is a bind with a shared hold. *)
Definition mark_started (a : ActorState) (lane : Lane) (acquisition shared : bool) : ActorState :=
  let '(MkActor c r l t w s m g p k j n d qi qm f ww) := a in
  match lane with
  | PureRead => MkActor c (S r) l (S t) w s m g p k j n d qi qm f ww
  | SerialLspStatus => MkActor c r true (S t) w s m g p k j n d qi qm f ww
  | HeavyInit => MkActor c r l (S t) w s m (if acquisition then true else g) p k j n d qi qm f ww
  | Mutating => MkActor c r l (S t) true shared m g p k j n d qi qm f ww
  | MaintenanceCommit => MkActor c r l (S t) w s true g p k j n d qi qm f ww
  | ProviderMetadata => MkActor c r l (S t) w s m g true k j n d qi qm f ww
  | CallLedger => MkActor c r l (S t) w s m g p true j n d qi qm f ww
  end.

Definition set_mutating_inflight (a : ActorState) (job : RunningMutatingJob) : ActorState :=
  let '(MkActor c r l t w s m g p k _ n d qi qm f ww) := a in
  MkActor c r l t w s m g p k (Some job) n d qi qm f ww.

(** The counters when a job of [lane] ends. *)
Definition mark_ended (a : ActorState) (lane : Lane) (acquisition : bool) : ActorState :=
  let '(MkActor c r l t w s m g p k j n d qi qm f ww) := a in
  match lane with
  | PureRead => MkActor c (r - 1) l (t - 1) w s m g p k j n d qi qm f ww
  | SerialLspStatus => MkActor c r false (t - 1) w s m g p k j n d qi qm f ww
  | HeavyInit => MkActor c r l (t - 1) w s m (if acquisition then false else g) p k j n d qi qm f ww
  | Mutating => MkActor c r l (t - 1) false false m g p k None n d qi qm f ww
  | MaintenanceCommit => MkActor c r l (t - 1) w s false g p k j n d qi qm f ww
  | ProviderMetadata => MkActor c r l (t - 1) w s m g false k j n d qi qm f ww
  | CallLedger => MkActor c r l (t - 1) w s m g p false j n d qi qm f ww
  end.

(** ** The scheduler's state *)

Record RunningJob := MkRunning {
  g_root_id : str; g_request_id : str; g_command : str; g_job_class : JobClass; g_lane : Lane;
  g_started_at : Instant; g_cancellation : option N }.

(** A job handed to a worker; the permit it holds is part of its completion event. *)
Record RunJob := MkRun {
  r_root_id : str; r_job_class : JobClass; r_lane : Lane; r_ctx : N; r_job : N; r_completion : N;
  r_request_id : str; r_command : str; r_heavy_permit : bool; r_cancellation : option N;
  r_shared_bind_gate : bool; r_rerun : option N; r_queued_at : Instant; r_exclusive_attempts : N;
  r_provider_generation : option N }.

Inductive JobCompletionOutcome := JobCompleted | JobPanicked | JobAbandoned.
#[export] Instance JobCompletionOutcome_eq_dec : EqDecision JobCompletionOutcome.
Proof. solve_decision. Defined.

Record CompletionEvent := MkEvent {
  e_job_id : N; e_heavy_permit : bool; e_outcome : JobCompletionOutcome; e_requeue : option QueuedJob }.

Inductive SchedulerEvent := Wake | Completed (event : CompletionEvent) | Shutdown.

Record SchedulerState := MkState {
  actors : gmap str ActorState; actor_order : list str; cursor : nat;
  idle_workers : nat; interactive_inflight : nat; maintenance_inflight : nat;
  provider_inflight : nat; binds_inflight : nat; config : EffectiveConfig;
  running_jobs : gmap N RunningJob; next_job_id : N; bind_retry_pending : bool }.

Definition state_new (c : EffectiveConfig) : SchedulerState :=
  MkState ∅ [] 0 (total_workers c) 0 0 0 0 c ∅ 1 false.

Definition set_actors (s : SchedulerState) (m : gmap str ActorState) : SchedulerState :=
  let '(MkState _ o c i ni nm np nb cf rj id br) := s in MkState m o c i ni nm np nb cf rj id br.
Definition set_actor (s : SchedulerState) (root_id : str) (a : ActorState) : SchedulerState :=
  set_actors s (<[root_id := a]> (actors s)).
Definition set_actor_order (s : SchedulerState) (o : list str) : SchedulerState :=
  let '(MkState m _ c i ni nm np nb cf rj id br) := s in MkState m o c i ni nm np nb cf rj id br.
Definition set_cursor (s : SchedulerState) (c : nat) : SchedulerState :=
  let '(MkState m o _ i ni nm np nb cf rj id br) := s in MkState m o c i ni nm np nb cf rj id br.
Definition set_bind_retry (s : SchedulerState) (br : bool) : SchedulerState :=
  let '(MkState m o c i ni nm np nb cf rj id _) := s in MkState m o c i ni nm np nb cf rj id br.

(** [SchedulerState::next_job_id]: the id given, and the counter after it. *)
Definition bump_job_id (id : N) : N := N.max ((id + 1) `mod` 2 ^ 64) 1.

Definition max_time (a : option Instant) (t : Instant) : option Instant :=
  Some (match a with Some x => N.max x t | None => t end).

Definition newest_in_flight_reader_started_at (s : SchedulerState) (root_id : str) : option Instant :=
  foldl max_time None
    (g_started_at <$> filter (λ j, g_root_id j = root_id ∧ g_lane j ∈ [PureRead; SerialLspStatus])
                        (map_to_list (running_jobs s)).*2).

(** [next_bind_retry_at]: the next time, and the state with the flag it leaves. *)
Definition next_bind_retry_at (s : SchedulerState) : option Instant * SchedulerState :=
  if bind_retry_pending s then
    let next := foldl min_time None
      ((map_to_list (actors s)).*2 ≫= λ a, queue (interactive a) Mutating ≫= λ j, option_list (q_not_before j)) in
    (next, set_bind_retry s (bool_decide (is_Some next)))
  else (None, s).

(** ** The world *)

Record World := MkWorld {
  state : SchedulerState;
  heavy : nat;                      (** [HeavySemaphore::available] *)
  dispatched : gmap N RunJob;       (** sent to the workers and not finished, by job id *)
  events : list SchedulerEvent;     (** the event channel *)
  sent : list Sent;                 (** the answers, oldest first *)
  closed : list N;                  (** reply channels dropped without an answer *)
  run_open : bool;                  (** some worker still receives *)
  nonrunnable_dispatches : nat;
  completed_interactive : N; completed_maintenance : N;
  stopped : bool                    (** the scheduler loop has ended *) }.

Definition world_new (c : ExecutorConfig) : World :=
  MkWorld (state_new (effective c)) (heavy_permits (effective c)) ∅ [] [] [] true 0 0 0 false.

Definition set_state (w : World) (s : SchedulerState) : World :=
  let '(MkWorld _ h d e a c r n ci cm st) := w in MkWorld s h d e a c r n ci cm st.
Definition set_heavy (w : World) (h : nat) : World :=
  let '(MkWorld s _ d e a c r n ci cm st) := w in MkWorld s h d e a c r n ci cm st.
Definition set_dispatched (w : World) (d : gmap N RunJob) : World :=
  let '(MkWorld s h _ e a c r n ci cm st) := w in MkWorld s h d e a c r n ci cm st.
Definition set_events (w : World) (e : list SchedulerEvent) : World :=
  let '(MkWorld s h d _ a c r n ci cm st) := w in MkWorld s h d e a c r n ci cm st.
Definition post (w : World) (e : SchedulerEvent) : World := set_events w (events w ++ [e]).
Definition say (w : World) (l : list Sent) : World :=
  let '(MkWorld s h d e a c r n ci cm st) := w in MkWorld s h d e (a ++ l) c r n ci cm st.
Definition close (w : World) (l : list N) : World :=
  let '(MkWorld s h d e a c r n ci cm st) := w in MkWorld s h d e a (c ++ l) r n ci cm st.
Definition set_stopped (w : World) : World :=
  let '(MkWorld s h d e a c r n ci cm _) := w in MkWorld s h d e a c r n ci cm true.
Definition note_nonrunnable (w : World) : World :=
  let '(MkWorld s h d e a c r n ci cm st) := w in MkWorld s h d e a c r (S n) ci cm st.

(** [note_completed_class]. *)
Definition note_completed_class (w : World) (job_class : JobClass) : World :=
  let '(MkWorld s h d e a c r n ci cm st) := w in
  match job_class with
  | Interactive => MkWorld s h d e a c r n ((ci + 1) `mod` 2 ^ 64)%N cm st
  | Maintenance => MkWorld s h d e a c r n ci ((cm + 1) `mod` 2 ^ 64)%N st
  end.

(** [HeavySemaphore::try_acquire]: only the scheduler thread takes and returns permits. *)
Definition try_acquire (available : nat) : option nat :=
  match available with 0 => None | S n => Some n end.

Definition b2n (b : bool) : nat := if b then 1 else 0.

(** ** Completion *)

(** The worker counts when a job leaves [running_jobs]. *)
Definition end_running (s : SchedulerState) (job_id : N) (job : RunningJob) : SchedulerState :=
  let '(MkState m o c i ni nm np nb cf rj id br) := s in
  MkState m o c i
    (match g_job_class job with Interactive => ni - 1 | Maintenance => ni end)
    (match g_job_class job with Interactive => nm | Maintenance => nm - 1 end)
    (if decide (g_lane job = ProviderMetadata) then np - 1 else np)
    (if is_bind_job (g_job_class job) (g_lane job) (g_request_id job) then nb - 1 else nb)
    cf (delete job_id rj) id br.

Definition release_worker (s : SchedulerState) : SchedulerState :=
  let '(MkState m o c i ni nm np nb cf rj id br) := s in MkState m o c (S i) ni nm np nb cf rj id br.

(** The actor of a finished job: counters released, and failed when a writer panicked. *)
Definition end_actor (a : ActorState) (job : RunningJob) (outcome : JobCompletionOutcome)
  : list Sent * ActorState :=
  let a := mark_ended a (g_lane job)
             (is_callgraph_acquisition (g_job_class job) (g_lane job) (g_request_id job)) in
  if decide (outcome = JobPanicked ∧ g_lane job = Mutating) then actor_fail_queued_jobs (set_fatal a)
  else ([], a).

(** What becomes of a bind that asked to run again; [cancelled] reads its token. *)
Definition requeue_bind (s : SchedulerState) (root_id : str) (cancelled : N → bool) (queued : QueuedJob)
  : list Sent * SchedulerState :=
  if match q_cancellation queued with Some t => cancelled t | None => false end then
    ([send queued (request_cancelled_response "request cancelled before execution")], s)
  else
    match actors s !! root_id with
    | Some a =>
        if fatal a then ([send queued actor_fatal_response], s)
        else
          let a := sync_waiting_writers (set_queues a Interactive (push_front_job (interactive a) Mutating queued)) in
          ([], set_bind_retry (set_actor s root_id a)
                 (bind_retry_pending s || bool_decide (is_Some (q_not_before queued))))
    | None =>
        ([send queued (λ id, Error id (lit "actor_not_registered") (lit "executor actor is not registered"))], s)
    end.

Definition complete_job (w : World) (cancelled : N → bool) (event : CompletionEvent) : option JobClass * World :=
  let w := set_heavy w (heavy w + b2n (e_heavy_permit event)) in
  match running_jobs (state w) !! e_job_id event with
  | None => (None, close w (option_list (q_completion <$> e_requeue event)))
  | Some job =>
      let s := end_running (state w) (e_job_id event) job in
      let '(answers, s) :=
        match actors s !! g_root_id job with
        | Some a =>
            let '(answers, a) := end_actor a job (e_outcome event) in
            (answers, set_actor s (g_root_id job) a)
        | None => ([], s)
        end in
      let '(answers', s) :=
        match e_requeue event with
        | Some queued => requeue_bind s (g_root_id job) cancelled queued
        | None => ([], s)
        end in
      (Some (g_job_class job), say (set_state w (release_worker s)) (answers ++ answers'))
  end.

Definition process_scheduler_event (w : World) (cancelled : N → bool) (event : SchedulerEvent) : bool * World :=
  match event with
  | Wake => (false, w)
  | Completed event =>
      match complete_job w cancelled event with
      | (Some job_class, w) => (false, note_completed_class w job_class)
      | (None, w) => (false, w)
      end
  | Shutdown => (true, w)
  end.

(** [process_scheduler_event_batch]: [n] is what is left of the cap, [first] the event already
    received. *)
Fixpoint process_batch (n : nat) (w : World) (cancelled : N → bool) (first : option SchedulerEvent) : bool * World :=
  match n with
  | 0 => (false, w)
  | S n =>
      match first, events w with
      | Some event, _ =>
          let '(shutdown, w) := process_scheduler_event w cancelled event in
          if shutdown then (true, w) else process_batch n w cancelled None
      | None, [] => (false, w)
      | None, event :: rest =>
          let '(shutdown, w) := process_scheduler_event (set_events w rest) cancelled event in
          if shutdown then (true, w) else process_batch n w cancelled None
      end
  end.

(** ** Admission *)

Inductive AdmissionPass := BindPass | ProviderPass | LedgerPass | ClassPass (job_class : JobClass).
#[export] Instance AdmissionPass_eq_dec : EqDecision AdmissionPass.
Proof. solve_decision. Defined.

Definition pass_class (pass : AdmissionPass) : JobClass :=
  match pass with ClassPass job_class => job_class | _ => Interactive end.

(** The lane a pass looks at. *)
Definition pass_lane (a : ActorState) (pass : AdmissionPass) (now : Instant) (newest_reader : option Instant)
  : option Lane :=
  match pass with
  | ProviderPass => (λ _, ProviderMetadata) <$> head (provider_metadata (interactive a))
  | LedgerPass => (λ _, CallLedger) <$> head (call_ledger (interactive a))
  | BindPass => (λ _, Mutating) <$> oldest_queued_bind_at (interactive a)
  | ClassPass Interactive => next_interactive_lane (interactive a) now newest_reader
  | ClassPass Maintenance => front_lane (maintenance a)
  end.

(** A running writer, or a waiting interactive writer ahead of maintenance, refuses the lane. *)
Definition writer_blocks (a : ActorState) (job_class : JobClass) (lane : Lane) : bool :=
  let shared_bind_admits_lane :=
    shared_bind_inflight a && bool_decide (lane ∈ [PureRead; SerialLspStatus; HeavyInit]) in
  bool_decide (lane ∉ [ProviderMetadata; CallLedger])
  && ((writer_inflight a && negb shared_bind_admits_lane) || higher_priority_writer_barrier_blocks a job_class).

(** A bind that backs off waits out its retry time. *)
Definition backing_off (a : ActorState) (pass : AdmissionPass) (lane : Lane) (now : Instant) : bool :=
  let head := if decide (pass = BindPass) then first_bind_job (interactive a)
              else head (queue (class_queues a (pass_class pass)) Mutating) in
  bool_decide (lane = Mutating)
  && match head ≫= q_not_before with Some not_before => (now <? not_before)%N | None => false end.

Definition has_epoch_reader (a : ActorState) : bool :=
  (0 <? read_inflight a) || lsp_inflight a || maintenance_commit_inflight a.

(** Only a repeatable bind that was not sent back may start with a shared hold. *)
Definition bind_may_share (a : ActorState) (pass : AdmissionPass) : bool :=
  bool_decide (pass = BindPass)
  && match first_bind_job (interactive a) with
     | Some job => bool_decide (is_Some (q_rerun job)) && negb (q_force_exclusive job)
     | None => false
     end.

Definition actor_interactive_inflight (a : ActorState) : nat :=
  actor_total_inflight a - b2n (maintenance_commit_inflight a) - b2n (callgraph_acquisition_inflight a)
  - b2n (actor_provider_inflight a) - b2n (call_ledger_inflight a).

Definition actor_has_interactive_capacity (a : ActorState) (c : EffectiveConfig) : bool :=
  actor_interactive_inflight a <? actor_cap c.

(** The next job of the lane is the callgraph acquisition. *)
Definition callgraph_next (a : ActorState) (job_class : JobClass) (lane : Lane) : bool :=
  match head (queue (class_queues a job_class) lane) with
  | Some job => is_callgraph_acquisition job_class lane (q_request_id job)
  | None => false
  end.

(** [runnable]: whether the lane has room, and the permits left when one is taken. *)
Definition runnable (a : ActorState) (pass : AdmissionPass) (lane : Lane) (c : EffectiveConfig) (heavy : nat)
  : option nat :=
  let room := actor_has_interactive_capacity a c in
  let unless (b : bool) := if b then Some heavy else None in
  match lane with
  | PureRead => unless ((read_inflight a <? read_cap c) && room)
  | SerialLspStatus => unless (negb (lsp_inflight a) && room)
  | HeavyInit =>
      if (if callgraph_next a (pass_class pass) lane then negb (callgraph_acquisition_inflight a) else room)
      then try_acquire heavy else None
  | Mutating =>
      unless (bind_may_share a pass || (negb (has_epoch_reader a) && (bool_decide (pass = BindPass) || room)))
  | MaintenanceCommit => unless (negb (maintenance_commit_inflight a))
  | ProviderMetadata => unless (negb (actor_provider_inflight a))
  | CallLedger => unless (negb (call_ledger_inflight a))
  end.

Definition promoted_writer_waiting (a : ActorState) (now : Instant) : bool :=
  match oldest_queued_writer_at a with
  | Some queued_at => (INTERACTIVE_WRITER_PROMOTION_AGE <=? saturating_duration_since now queued_at)%N
  | None => false
  end.

(** The job leaves its queue and is recorded as in flight. *)
Definition start_job (root_id : str) (a : ActorState) (pass : AdmissionPass) (lane : Lane) (now : Instant)
    (queued : QueuedJob) (acquisition shared permit : bool) : RunJob * ActorState :=
  let a := match pass with ClassPass _ => set_deficit a (deficit a - JOB_COST) | _ => a end in
  let a := if decide (lane = Mutating)
           then set_mutating_inflight a (MkMutating (q_request_id queued) (q_command queued) now) else a in
  let a := mark_started a lane acquisition shared in
  (MkRun root_id (pass_class pass) lane (ctx a) (q_job queued) (q_completion queued) (q_request_id queued)
     (q_command queued) permit (q_cancellation queued) shared (q_rerun queued) (q_queued_at queued)
     (q_exclusive_attempts queued) (q_provider_generation queued), a).

(** The job admitted, the actor, and the permits left. *)
Definition try_admit_actor (root_id : str) (a : ActorState) (pass : AdmissionPass) (c : EffectiveConfig)
    (heavy : nat) (newest_reader : option Instant) (now : Instant) : option RunJob * ActorState * nat :=
  match pass_lane a pass now newest_reader with
  | None => (None, a, heavy)
  | Some lane =>
      if writer_blocks a (pass_class pass) lane || backing_off a pass lane now then (None, a, heavy)
      else
        match runnable a pass lane c heavy with
        | None => (None, a, heavy)
        | Some heavy' =>
            let acquisition := callgraph_next a (pass_class pass) lane in
            let shared := bind_may_share a pass && has_epoch_reader a in
            let a := if promoted_writer_waiting a now && bool_decide (lane ∈ [PureRead; SerialLspStatus])
                     then note_reader_admission a else a in
            let '(popped, a) := if decide (pass = BindPass) then pop_first_bind_job a
                                else actor_pop_front_job a (pass_class pass) lane in
            match popped with
            | None => (None, a, heavy)
            | Some queued =>
                let '(run_job, a) := start_job root_id a pass lane now queued acquisition shared
                                       (bool_decide (lane = HeavyInit)) in
                (Some run_job, a, heavy')
            end
        end
  end.

(** ** Dispatch *)

(** [SchedulerState] when a job starts running. *)
Definition start_running (s : SchedulerState) (job : RunJob) (now : Instant) : N * SchedulerState :=
  let '(MkState m o c i ni nm np nb cf rj id br) := s in
  (id,
   MkState m o c (i - 1)
     (match r_job_class job with Interactive => S ni | Maintenance => ni end)
     (match r_job_class job with Interactive => nm | Maintenance => S nm end)
     (if decide (r_lane job = ProviderMetadata) then S np else np)
     (if is_bind_job (r_job_class job) (r_lane job) (r_request_id job) then S nb else nb)
     cf
     (<[id := MkRunning (r_root_id job) (r_request_id job) (r_command job) (r_job_class job) (r_lane job) now
               (r_cancellation job)]> rj)
     (bump_job_id id) br).

(** [launch_run_job]: a job the workers cannot receive is dropped, which posts its completion. *)
Definition launch_run_job (w : World) (job : RunJob) (now : Instant) : bool * World :=
  let '(job_id, s) := start_running (state w) job now in
  let w := set_state w s in
  if run_open w then (true, set_dispatched w (<[job_id := job]> (dispatched w)))
  else (false, note_nonrunnable (close (post w (Completed (MkEvent job_id (r_heavy_permit job) JobAbandoned None)))
                                   [r_completion job])).

Definition can_dispatch_class (s : SchedulerState) (job_class : JobClass) : bool :=
  let provider_idle := provider_reserve (config s) - provider_inflight s in
  let bind_idle := bind_reserve (config s) - binds_inflight s in
  let general_idle := idle_workers s - (bind_idle + provider_idle) in
  negb (general_idle =? 0) &&
  match job_class with
  | Interactive => true
  | Maintenance => (maintenance_inflight s <? maintenance_cap (config s)) && (interactive_reserve (config s) <? general_idle)
  end.

(** Whether a pass made progress, whether a dispatch failed, and the world. *)
Abbreviation Pass := (bool * bool * World)%type.

(** One actor is asked for one job, which is launched. *)
Definition admit_and_launch (w : World) (root_id : str) (a : ActorState) (pass : AdmissionPass)
    (newest_reader : option Instant) (now : Instant) : Pass :=
  let '(admitted, a, heavy) :=
    try_admit_actor root_id a pass (config (state w)) (heavy w) newest_reader now in
  let w := set_heavy (set_state w (set_actor (state w) root_id a)) heavy in
  match admitted with
  | None => (false, false, w)
  | Some job => let '(ok, w) := launch_run_job w job now in (true, negb ok, w)
  end.

(** A cursor past the end starts over ([dispatch_runnable_class]) or wraps (the other loops). *)
Definition start_over (cursor len : nat) : nat := if len <=? cursor then 0 else cursor.
Definition wrap_around (cursor len : nat) : nat := cursor `mod` len.

(** The cursor's turn: the root it names, and the state with the cursor moved on. *)
Definition next_root (fit : nat → nat → nat) (s : SchedulerState) : option (str * SchedulerState) :=
  let len := length (actor_order s) in
  let c := fit (cursor s) len in
  root_id ← actor_order s !! c; Some (root_id, set_cursor s (S c `mod` len)).

(** The body of the loop of [dispatch_runnable_class] for one root. *)
Definition class_turn (w : World) (root_id : str) (job_class : JobClass) (now : Instant) : Pass :=
  let newest_reader := match job_class with
                       | Interactive => newest_in_flight_reader_started_at (state w) root_id
                       | Maintenance => None
                       end in
  match actors (state w) !! root_id with
  | None => (false, false, w)
  | Some a =>
      if fatal a then
        let '(answers, a) := actor_fail_queued_jobs a in
        (false, false, say (set_state w (set_actor (state w) root_id (set_deficit a 0))) answers)
      else if negb (actor_has_queued_jobs a) then
        (false, false, set_state w (set_actor (state w) root_id (set_deficit a 0)))
      else if negb (has_queued_jobs_for a job_class) then (false, false, w)
      else
        let a := set_deficit a (Z.min (deficit a + drr_quantum (config (state w))) (deficit_cap (config (state w)))) in
        if (deficit a <? JOB_COST)%Z then (false, false, set_state w (set_actor (state w) root_id a))
        else admit_and_launch w root_id a (ClassPass job_class) newest_reader now
  end.

(** The loop over actors, from the cursor: [guard] is its stop condition and [turn] its body.
    [next_root] answers [None] only when there is no actor. *)
Fixpoint actor_loop (fit : nat → nat → nat) (guard : SchedulerState → bool) (turn : World → str → Pass)
    (n : nat) (made : bool) (w : World) : Pass :=
  match n with
  | 0 => (made, false, w)
  | S n =>
      if negb (guard (state w)) then (made, false, w)
      else
        match next_root fit (state w) with
        | None => (made, false, w)
        | Some (root_id, s) =>
            let '(progress, failed, w) := turn (set_state w s) root_id in
            if failed then (made || progress, true, w) else actor_loop fit guard turn n (made || progress) w
        end
  end.

Definition dispatch_runnable_class (w : World) (job_class : JobClass) (now : Instant) : Pass :=
  actor_loop start_over (λ s, can_dispatch_class s job_class) (λ w root_id, class_turn w root_id job_class now)
    (length (actor_order (state w))) false w.

(** The bodies of the provider and ledger loops. *)
Definition reserved_turn (pass : AdmissionPass) (now : Instant) (w : World) (root_id : str) : Pass :=
  match actors (state w) !! root_id with
  | None => (false, false, w)
  | Some a => if fatal a then (false, false, w) else admit_and_launch w root_id a pass None now
  end.

Definition dispatch_provider_metadata (w : World) (now : Instant) : Pass :=
  actor_loop wrap_around (λ s, negb (idle_workers s =? 0) && (provider_inflight s <? provider_reserve (config s)))
    (reserved_turn ProviderPass now) (length (actor_order (state w))) false w.

Definition dispatch_call_ledger (w : World) (now : Instant) : Pass :=
  actor_loop wrap_around (λ s, can_dispatch_class s Interactive)
    (reserved_turn LedgerPass now) (length (actor_order (state w))) false w.

Definition older (x y : Instant * str) : Prop := (x.1 <= y.1)%N.
#[export] Instance older_dec : RelDecision older.
Proof. intros x y. unfold older. apply _. Defined.

(** The roots with a queued bind, oldest bind first. *)
Definition bind_candidates (s : SchedulerState) : list str :=
  (merge_sort older
     (map_to_list (actors s) ≫= λ x, if fatal x.2 then []
        else option_list ((λ t, (t, x.1)) <$> oldest_queued_bind_at (interactive x.2)))).*2.

Fixpoint bind_loop (now : Instant) (roots : list str) (made : bool) (w : World) : Pass :=
  match roots with
  | [] => (made, false, w)
  | root_id :: rest =>
      let s := state w in
      if idle_workers s <=? provider_reserve (config s) - provider_inflight s then (made, false, w)
      else
        match actors s !! root_id with
        | None => bind_loop now rest made w
        | Some a =>
            let '(progress, failed, w) := admit_and_launch w root_id a BindPass None now in
            if failed then (made || progress, true, w) else bind_loop now rest (made || progress) w
        end
  end.

Definition dispatch_queued_binds (w : World) (now : Instant) : Pass :=
  bind_loop now (bind_candidates (state w)) false w.

(** One iteration of [dispatch_runnable]: [None] ends the loop by an early return. *)
Definition dispatch_round (w : World) (now : Instant) : World * option bool :=
  let over (r : Pass) := let '(_, failed, w) := r in failed || (idle_workers (state w) =? 0) in
  let '(m1, f1, w1) := dispatch_queued_binds w now in
  if over (m1, f1, w1) then (w1, None) else
  let '(m2, f2, w2) := dispatch_provider_metadata w1 now in
  if over (m2, f2, w2) then (w2, None) else
  let '(m3, f3, w3) := dispatch_call_ledger w2 now in
  if over (m3, f3, w3) then (w3, None) else
  let '(m4, f4, w4) := dispatch_runnable_class w3 Interactive now in
  if over (m4, f4, w4) then (w4, None) else
  if can_dispatch_class (state w4) Maintenance then
    let '(m5, f5, w5) := dispatch_runnable_class w4 Maintenance now in
    if f5 then (w5, None) else (w5, Some (m1 || m2 || m3 || m4 || m5))
  else (w4, Some (m1 || m2 || m3 || m4)).

Fixpoint dispatch_loop (fuel : nat) (w : World) (now : Instant) : World :=
  match fuel with
  | 0 => w
  | S fuel =>
      if (idle_workers (state w) =? 0) || bool_decide (actor_order (state w) = []) then w
      else match dispatch_round w now with
           | (w, Some true) => dispatch_loop fuel w now
           | (w, _) => w
           end
  end.

(** Every round but the last launches a job, so the idle workers bound the rounds. *)
Definition dispatch_runnable (w : World) (now : Instant) : World := dispatch_loop (S (idle_workers (state w))) w now.

(** The body of [scheduler_loop] once it has its first event. *)
Definition turn_body (w : World) (cancelled : N → bool) (now : Instant) (first : SchedulerEvent) : World :=
  let '(shutdown, w) := process_batch SCHEDULER_EVENT_BATCH_CAP w cancelled (Some first) in
  let w := if shutdown then w else dispatch_runnable w now in
  let w := set_state w (next_bind_retry_at (state w)).2 in
  if shutdown then set_stopped w else w.

(** One turn of [scheduler_loop]; [None] when it has no event and no retry time is due. *)
Definition scheduler_turn (w : World) (due : bool) (cancelled : N → bool) (now : Instant) : option World :=
  if stopped w then None else
  match events w with
  | event :: rest => Some (turn_body (set_events w rest) cancelled now event)
  | [] => if due then Some (turn_body w cancelled now Wake) else None
  end.

(** [assert_running_invariants]: the debug assertions.  A job's completion is owned while a
    worker has the job or its event waits in the channel. *)
Definition assert_running_invariants (w : World) : bool :=
  let s := state w in
  let jobs := (map_to_list (running_jobs s)).*2 in
  let owned (id : N) := bool_decide (is_Some (dispatched w !! id)) ||
    existsb (λ e, match e with Completed e => (e_job_id e =? id)%N | _ => false end) (events w) in
  (interactive_inflight s =? length (filter (λ j, g_job_class j = Interactive) jobs)) &&
  (maintenance_inflight s =? length (filter (λ j, g_job_class j = Maintenance) jobs)) &&
  (binds_inflight s =? length (filter (λ j, is_bind_job (g_job_class j) (g_lane j) (g_request_id j) = true) jobs)) &&
  (provider_inflight s =? length (filter (λ j, g_lane j = ProviderMetadata) jobs)) &&
  (provider_inflight s <=? provider_reserve (config s)) &&
  (idle_workers s + size (running_jobs s) =? total_workers (config s)) &&
  forallb owned (map_to_list (running_jobs s)).*1.

(** ** Workers *)

(** What a worker finds while it runs a job: whether the token is cancelled at the first check
    and when the closure is about to start, what the root's lifecycle and the disk say, whether
    the epoch gate was free (or a wait for it was given up for a cancel), how the token's
    transitions went, and what the closure did ([None]: it panicked). *)
Record WorkerEnv := MkEnv {
  v_cancel_first : bool; v_gate : bool; v_cancel_start : bool; v_quiesced : bool; v_root_is_dir : bool;
  v_generation_bound : bool; v_token_running : bool; v_token_sealed : bool;
  v_result : option Response; v_rerun_requested : bool;
  v_returned_to_pending : bool; v_cancel_requeue : bool }.

Inductive LaneRun := Finished (response : Response) | RerunExclusive (retry_after : option N).

Definition cancelled_before_execution (job : RunJob) : Response :=
  request_cancelled_response "request cancelled before execution" (r_request_id job).

(** [run(job)]; [None]: the closure panicked. *)
Definition run_closure (job : RunJob) (v : WorkerEnv) : option Response :=
  let has_token := bool_decide (is_Some (r_cancellation job)) in
  if (has_token && v_cancel_start v)
     || ((bool_decide (r_job_class job = Maintenance) || bool_decide (r_command job = lit "inspect")
          || bool_decide (r_lane job = ProviderMetadata))
         && ((v_quiesced v && negb (bool_decide (r_command job = lit "unbound-teardown-persist")))
             || negb (v_root_is_dir v)))
  then Some (cancelled_before_execution job)
  else
    let can_start :=
      match r_provider_generation job with
      | Some _ => v_generation_bound v && (negb has_token || (v_token_running v && v_token_sealed v))
      | None => negb has_token || v_token_running v
      end in
    if can_start then v_result v else Some (cancelled_before_execution job).

(** Milliseconds before a bind that met a detached writer is admitted again. *)
Definition detached_writer_backoff (attempts : N) : N := N.min (N.min (10 * 2 ^ N.min attempts 5) usize_max) 200.

(** [run_lane_job]; [None]: the closure panicked. *)
Definition run_lane_job (job : RunJob) (v : WorkerEnv) : option LaneRun :=
  let has_token := bool_decide (is_Some (r_cancellation job)) in
  let gated := if has_token && negb (v_gate v) then Some (Finished (cancelled_before_execution job))
               else Finished <$> run_closure job v in
  match r_lane job with
  | PureRead | SerialLspStatus => gated
  | HeavyInit | ProviderMetadata | CallLedger => Finished <$> run_closure job v
  | Mutating =>
      if r_shared_bind_gate job then
        if has_token && v_cancel_first v then Some (Finished (cancelled_before_execution job))
        else if negb (v_gate v) then Some (RerunExclusive None)
        else response ← run_closure job v;
             Some (if v_rerun_requested v then RerunExclusive None else Finished response)
      else if bool_decide (is_Some (r_rerun job)) then
        if has_token && v_cancel_first v then Some (Finished (cancelled_before_execution job))
        else if negb (v_gate v) then Some (RerunExclusive (Some (detached_writer_backoff (r_exclusive_attempts job))))
        else Finished <$> run_closure job v
      else gated
  | MaintenanceCommit => gated
  end.

(** [requeue_as_exclusive] at time [now]. *)
Definition requeue_as_exclusive (job : RunJob) (v : WorkerEnv) (retry_after : option N) (now : Instant)
  : result Response QueuedJob :=
  let has_token := bool_decide (is_Some (r_cancellation job)) in
  if has_token && negb (v_returned_to_pending v) then Err (cancelled_before_execution job)
  else if has_token && v_cancel_requeue v then Err (cancelled_before_execution job)
  else Ok (MkQueued (default (r_job job) (r_rerun job)) (r_completion job) (r_request_id job) (r_command job)
             (r_queued_at job) (r_cancellation job) None (r_rerun job) true
             ((λ delay, now + delay * 1000000)%N <$> retry_after)
             (r_exclusive_attempts job + match retry_after with Some _ => 1 | None => 0 end)%N None).

Definition panic_response (request_id command message : str) : Response :=
  Error request_id (lit "actor_fatal") (lit "command '" ++ command ++ lit "' panicked: " ++ message).

(** One iteration of [worker_loop] on a dispatched job; [message] is the panic's, if it does.
    The guard's completion event is posted when the job is dropped at the end. *)
Definition worker_finish (w : World) (job_id : N) (v : WorkerEnv) (message : str) (now : Instant) : option World :=
  job ← dispatched w !! job_id;
  let w := set_dispatched w (delete job_id (dispatched w)) in
  let finish outcome requeue := Completed (MkEvent job_id (r_heavy_permit job) outcome requeue) in
  let answer response outcome := post (say w [(r_completion job, response)]) (finish outcome None) in
  Some
    match run_lane_job job v with
    | Some (Finished response) => answer response JobCompleted
    | Some (RerunExclusive retry_after) =>
        match requeue_as_exclusive job v retry_after now with
        | Ok queued => post w (finish JobCompleted (Some queued))
        | Err response => answer response JobCompleted
        end
    | None => answer (panic_response (r_request_id job) (r_command job) message) JobPanicked
    end.

(** ** The executor's interface *)

Definition wake_scheduler (w : World) : World := post w Wake.

Definition register_actor (w : World) (root_id : str) (ctx : N) : bool * World :=
  let s := state w in
  match actors s !! root_id with
  | Some _ => (false, wake_scheduler w)
  | None =>
      let s := set_actor (set_actor_order s (actor_order s ++ [root_id])) root_id (actor_new ctx) in
      (true, wake_scheduler (set_state w s))
  end.

(** The reply channels of the jobs an actor has queued. *)
Definition queued_completions (a : ActorState) : list N :=
  q_completion <$> drained (interactive a) ++ drained (maintenance a).

(** The actor leaves the maps; its queued jobs are dropped with it. *)
Definition drop_actor (w : World) (root_id : str) : World :=
  let s := state w in
  let s' := set_actors (set_actor_order s (filter (λ r, r ≠ root_id) (actor_order s))) (delete root_id (actors s)) in
  close (set_state w s') (from_option queued_completions [] (actors s !! root_id)).

Definition remove_actor (w : World) (root_id : str) : World := wake_scheduler (drop_actor w root_id).

(** [retire_idle_actor_in_background]; [publishing] is asked of the actor's context. *)
Definition retire_idle_actor (w : World) (publishing : bool) (root_id : str) : bool * World :=
  match actors (state w) !! root_id with
  | Some a => if is_idle publishing a then (true, wake_scheduler (drop_actor w root_id)) else (false, w)
  | None => (false, w)
  end.

Definition cancel_queued_maintenance (w : World) (root_id : str) : nat * World :=
  match actors (state w) !! root_id with
  | None => (0, w)
  | Some a =>
      let '(cancelled, answers, q) := cancel_queued_jobs (maintenance a) in
      let w := say (set_state w (set_actor (state w) root_id (set_queues a Maintenance q))) answers in
      (cancelled, if 0 <? cancelled then wake_scheduler w else w)
  end.

(** The shared part of the two root cancellations. *)
Definition cancel_root_queues (w : World) (root_id : str) : nat * World :=
  match actors (state w) !! root_id with
  | None => (0, w)
  | Some a =>
      let '(cancelled, answers, a) := cancel_queued_root_work a in
      (cancelled, say (set_state w (set_actor (state w) root_id a)) answers)
  end.

Definition cancel_queued_root_maintenance (w : World) (root_id : str) : nat * World :=
  let '(cancelled, w) := cancel_root_queues w root_id in (cancelled, wake_scheduler w).

(** The number of jobs cancelled, the tokens signalled, and the world. *)
Definition cancel_root_maintenance (w : World) (root_id : str) : nat * list N * World :=
  let '(cancelled, w) := cancel_root_queues w root_id in
  let queued :=
    match actors (state w) !! root_id with
    | None => []
    | Some a =>
        ALL_LANES ≫= λ lane,
          filter (λ j, q_command j = lit "inspect") (queue (interactive a) lane) ≫= λ j, option_list (q_cancellation j)
    end in
  let running :=
    filter (λ j, g_root_id j = root_id ∧ (g_job_class j = Maintenance ∨ g_command j = lit "inspect"))
      (map_to_list (running_jobs (state w))).*2 ≫= λ j, option_list (g_cancellation j) in
  (cancelled + length queued + length running, queued ++ running, wake_scheduler w).

Inductive JobCancelOutcome := QueuedRemoved | RunningSignalled | RunningCommitted | NotFound.

(** What the state of the token before the cancel says of a job that is not queued. *)
Definition unqueued_outcome (observed : JobCancel.CancelState) : JobCancelOutcome :=
  match observed with
  | JobCancel.COMMITTED => RunningCommitted
  | JobCancel.RUNNING | JobCancel.PENDING => RunningSignalled
  | JobCancel.CANCELLED => NotFound
  end.

(** The queued job with the token leaves its queue and is answered. *)
Definition settle_queued (w : World) (root_id : str) (token : N) : option World :=
  a ← actors (state w) !! root_id;
  let '(removed, a) := remove_queued_cancellable a token in
  queued ← removed;
  Some (wake_scheduler (say (set_state w (set_actor (state w) root_id a))
    [send queued (request_cancelled_response "request cancelled before execution")])).

(** [observed] is what [signal_cancel] found in the cell. *)
Definition cancel_job (w : World) (observed : JobCancel.CancelState) (root_id : str) (token : N)
  : JobCancelOutcome * World :=
  match settle_queued w root_id token with
  | Some w => (QueuedRemoved, w)
  | None => (unqueued_outcome observed, w)
  end.

Inductive PreExecutionCancelOutcome := PreQueuedRemoved | DispatchedCancelled | AlreadyStarted.

(** [won] is what [try_cancel_before_running] answered. *)
Definition cancel_job_before_execution (w : World) (won : bool) (root_id : str) (token : N)
  : PreExecutionCancelOutcome * World :=
  if won then
    match settle_queued w root_id token with
    | Some w => (PreQueuedRemoved, w)
    | None => (DispatchedCancelled, w)
    end
  else (AlreadyStarted, w).

(** What a submission finds: whether a maintenance root is a directory, whether the actor's
    context is quiesced, and its configure generation when it is bound. *)
Record SubmitEnv := MkSubmitEnv { u_root_is_dir : bool; u_quiesced : bool; u_bound_generation : option N }.

Definition maintenance_backpressure_response (request_id : str) : Response :=
  Error request_id (lit "maintenance_backpressure")
    (lit "maintenance queue reached its per-actor capacity of 512 jobs").

(** Why an actor refuses a job, and the actor and the answers after duplicates made room. *)
Definition admission_error (a : ActorState) (u : SubmitEnv) (job_class : JobClass) (lane : Lane)
    (command : str) (key : option MaintenanceCoalesceKey) : option (str → Response) * ActorState * list Sent :=
  let e1 := if decide (lane = CallLedger ∧ job_class ≠ Interactive)
            then Some (λ id, Error id (lit "invalid_lane") (lit "call ledger work requires interactive admission"))
            else None in
  let e2 := if decide (lane = ProviderMetadata) then
              if decide (job_class ≠ Interactive)
              then Some (λ id, Error id (lit "invalid_lane") (lit "provider metadata requires interactive admission"))
              else if bool_decide (is_Some (u_bound_generation u)) then e1
              else Some (request_cancelled_response "provider metadata root is unbound")
            else e1 in
  if decide (job_class = Maintenance) then
    if (u_quiesced u && negb (bool_decide (command = lit "unbound-teardown-persist"))) || negb (u_root_is_dir u)
    then (Some (maintenance_cancelled_response "maintenance root is unbound or missing"), a, [])
    else if match key with Some key => has_maintenance_coalesce_key (maintenance a) key | None => false end
    then (Some (maintenance_cancelled_response "maintenance drain coalesced behind an identical queued drain"), a, [])
    else
      let '(q, victims) := if MAINTENANCE_QUEUE_CAP <=? queued_count (maintenance a)
                           then remove_duplicate_maintenance_jobs (maintenance a) else (maintenance a, []) in
      let a := set_queues a Maintenance q in
      ((if MAINTENANCE_QUEUE_CAP <=? queued_count q then Some maintenance_backpressure_response else e2),
       a, (λ j, send j (maintenance_cancelled_response "duplicate maintenance drain removed to preserve queue capacity"))
            <$> victims)
  else (e2, a, []).

(** [submit_labeled] of a job whose reply channel is [completion]; [fresh_token] names the token
    made when the job needs one and has none. *)
Definition submit_labeled (w : World) (u : SubmitEnv) (root_id : str) (job_class : JobClass) (lane : Lane)
    (request_id command : str) (job completion : N) (cancellation : option N) (fresh_token : N)
    (key : option MaintenanceCoalesceKey) (rerun : option N) (now : Instant) : World :=
  let cancellation :=
    if decide (job_class = Maintenance ∨ command = lit "inspect" ∨ lane = ProviderMetadata)
    then Some (default fresh_token cancellation) else cancellation in
  let refuse (w : World) (r : str → Response) := say w [(completion, r request_id)] in
  match actors (state w) !! root_id with
  | None =>
      refuse w (λ id, Error id (lit "actor_not_registered") (lit "executor actor is not registered"))
  | Some a =>
      if fatal a then refuse w actor_fatal_response
      else
        let provider_generation := if decide (lane = ProviderMetadata) then u_bound_generation u else None in
        let '(error, a, victims) := admission_error a u job_class lane command key in
        match error with
        | Some r => refuse (say (set_state w (set_actor (state w) root_id a)) victims) r
        | None =>
            let a := actor_push_job a job_class lane
              (MkQueued job completion request_id command now cancellation key rerun false None 0 provider_generation) in
            wake_scheduler (say (set_state w (set_actor (state w) root_id a)) victims)
        end
  end.

(** [Drop for ExecutorInner]: queued maintenance is answered and the loop is told to stop.  The
    tokens of running maintenance are signalled, which changes only their cells. *)
Definition drop_executor (w : World) : World :=
  let answers := (map_to_list (actors (state w))).*2 ≫= λ a, (cancel_queued_jobs (maintenance a)).1.2 in
  let m := (λ a, set_queues a Maintenance (cancel_queued_jobs (maintenance a)).2) <$> actors (state w) in
  post (say (set_state w (set_actors (state w) m)) answers) Shutdown.

End Scheduler.
