(* ===== verification/SchedulerSpec.v ===== *)
(** * The scheduler keeps its books

    The state of the executor over every sequence of submissions, cancellations, registrations,
    removals, finished jobs and turns of the scheduler: worker counts and reservations, one
    owner per job, permits, queues, and the fate of every reply channel. *)

From S2P Require Import Prelude RustStr ClassQueues JobCancel Scheduler.
Import ClassQueues Scheduler.

Module SchedulerSpec.

#[local] Opaque MAINTENANCE_QUEUE_CAP.
#[local] Arguments effective : simpl never.

(** ** Counting the entries of a map *)

Section Count.
Context {K V : Type} `{Countable K}.
Implicit Type m : gmap K V.

Definition cnt (p : V → bool) (m : gmap K V) : nat := size (filter (λ kv, p kv.2 = true) m).

Lemma cnt_empty p : cnt p ∅ = 0.
Proof. unfold cnt. by rewrite map_filter_empty, map_size_empty. Qed.

Lemma cnt_insert p m i x : m !! i = None → cnt p (<[i := x]> m) = b2n (p x) + cnt p m.
Proof.
  intros Hi. unfold cnt. destruct (p x) eqn:Hp; simpl.
  - rewrite map_filter_insert_True by done. apply map_size_insert_None.
    apply map_lookup_filter_None. by left.
  - rewrite map_filter_insert_False by (simpl; congruence).
    by rewrite delete_id by done.
Qed.

Lemma cnt_delete p m i x : m !! i = Some x → cnt p m = b2n (p x) + cnt p (delete i m).
Proof.
  intros Hi. rewrite <-(insert_id m i x) at 1 by done. rewrite <-insert_delete_eq.
  apply cnt_insert. apply lookup_delete_eq.
Qed.

Lemma cnt_all m : cnt (λ _, true) m = size m.
Proof. unfold cnt. by rewrite map_filter_id. Qed.

Lemma cnt_mono p q m : (∀ x, p x = true → q x = true) → cnt p m ≤ cnt q m.
Proof.
  intros Hpq. induction m as [|i x m Hi IH] using map_ind; [by rewrite !cnt_empty|].
  rewrite !cnt_insert by done. specialize (Hpq x). destruct (p x), (q x); simpl; naive_solver lia.
Qed.

Lemma cnt_ext p q m : (∀ x, p x = q x) → cnt p m = cnt q m.
Proof. intros Hpq. apply Nat.le_antisymm; apply cnt_mono; intros x; by rewrite Hpq. Qed.

Lemma cnt_pos p m i x : m !! i = Some x → p x = true → 0 < cnt p m.
Proof. intros Hi Hp. rewrite (cnt_delete p m i x) by done. rewrite Hp. simpl. lia. Qed.

Lemma cnt_two p m i j x y :
  i ≠ j → m !! i = Some x → m !! j = Some y → p x = true → p y = true → 2 ≤ cnt p m.
Proof.
  intros Hij Hi Hj Hp Hq. rewrite (cnt_delete p m i x) by done. rewrite Hp. simpl.
  assert (0 < cnt p (delete i m)); [|lia]. eapply (cnt_pos p _ j y); [|done]. by rewrite lookup_delete_ne.
Qed.

Lemma cnt_split p q m : cnt p m = cnt (λ x, p x && q x) m + cnt (λ x, p x && negb (q x)) m.
Proof.
  induction m as [|i x m Hi IH] using map_ind; [by rewrite !cnt_empty|].
  rewrite !cnt_insert by done. destruct (p x), (q x); simpl; lia.
Qed.
End Count.

(** ** Runs *)

(** A critical section or a worker's step, with what it reads from elsewhere. *)
Inductive Op :=
  | Submit (u : SubmitEnv) (root_id : str) (job_class : JobClass) (lane : Lane) (request_id command : str)
      (job completion : N) (cancellation : option N) (fresh_token : N) (key : option MaintenanceCoalesceKey)
      (rerun : option N) (now : Instant)
  | RegisterActor (root_id : str) (ctx : N)
  | RemoveActor (root_id : str)
  | RetireIdleActor (publishing : bool) (root_id : str)
  | CancelQueuedMaintenance (root_id : str)
  | CancelQueuedRootMaintenance (root_id : str)
  | CancelRootMaintenance (root_id : str)
  | CancelJob (observed : JobCancel.CancelState) (root_id : str) (token : N)
  | CancelJobBeforeExecution (won : bool) (root_id : str) (token : N)
  | WorkerFinish (job_id : N) (v : WorkerEnv) (message : str) (now : Instant)
  | SchedulerTurn (due : bool) (cancelled : N → bool) (now : Instant)
  | DropExecutor.

Definition exec (w : World) (op : Op) : option World :=
  match op with
  | Submit u r jc l id cmd job c tok ft key rr now => Some (submit_labeled w u r jc l id cmd job c tok ft key rr now)
  | RegisterActor r ctx => Some (register_actor w r ctx).2
  | RemoveActor r => Some (remove_actor w r)
  | RetireIdleActor p r => Some (retire_idle_actor w p r).2
  | CancelQueuedMaintenance r => Some (cancel_queued_maintenance w r).2
  | CancelQueuedRootMaintenance r => Some (cancel_queued_root_maintenance w r).2
  | CancelRootMaintenance r => Some (cancel_root_maintenance w r).2
  | CancelJob o r t => Some (cancel_job w o r t).2
  | CancelJobBeforeExecution won r t => Some (cancel_job_before_execution w won r t).2
  | WorkerFinish id v msg now => worker_finish w id v msg now
  | SchedulerTurn due cancelled now => scheduler_turn w due cancelled now
  | DropExecutor => Some (drop_executor w)
  end.

(** The reply channel a submission brings. *)
Definition submitted (op : Op) : list N := match op with Submit _ _ _ _ _ _ _ c _ _ _ _ _ => [c] | _ => [] end.

(** Job ids are left for one more turn: the counter does not wrap before 2^64 jobs. *)
Definition ids_left (w : World) : Prop :=
  (next_job_id (state w) + N.of_nat (total_workers (config (state w))) < 2 ^ 64)%N.

(** [w] is reached from an executor with the configuration [c] after the submissions [cs]; [q]
    says which removals of actors are allowed. *)
Inductive reachable (q : World → str → Prop) (c : ExecutorConfig) : list N → World → Prop :=
  | reachable_new : reachable q c [] (world_new c)
  | reachable_step cs w op w' :
      reachable q c cs w → exec w op = Some w' → (∀ r, op = RemoveActor r → q w r) →
      ids_left w → NoDup (cs ++ submitted op) →
      reachable q c (cs ++ submitted op) w'.

(** ** Well-formed queues *)

Definition class_lane (lane : Lane) : Prop := lane ∉ [ProviderMetadata; CallLedger].

Record queue_ok (c : EffectiveConfig) (a : ActorState) : Prop := {
  qok_interactive : ∃ l, holds (interactive a) l;
  qok_maintenance : ∃ l, holds (maintenance a) l ∧ Forall (λ x, class_lane x.1) l;
  qok_cap : queued_count (maintenance a) ≤ MAINTENANCE_QUEUE_CAP;
  qok_writers : waiting_writers a = length (mutating (interactive a));
  qok_deficit : (0 ≤ deficit a ≤ deficit_cap c)%Z }.

(** What is counted as running of an actor. *)
Definition counters (a : ActorState) :=
  (read_inflight a, lsp_inflight a, actor_total_inflight a, writer_inflight a, shared_bind_inflight a,
   (maintenance_commit_inflight a, callgraph_acquisition_inflight a, actor_provider_inflight a,
    call_ledger_inflight a)).

(** [a] becomes [a'] with nothing started or ended: the jobs of [new] join its queues, those
    that leave are answered. *)
Definition rewrites (c : EffectiveConfig) (a a' : ActorState) (new : list N) (answers : list Sent) : Prop :=
  counters a' = counters a ∧ fatal a' = fatal a ∧
  (queue_ok c a → queue_ok c a' ∧ new ++ queued_completions a ≡ₚ queued_completions a' ++ answers.*1).

(** ** Jobs that leave the queues *)

Lemma take_first_perm p l j l' : take_first p l = (Some j, l') → l.*2 ≡ₚ j :: l'.*2 ∧ l' ⊆+ l.
Proof.
  revert l'. induction l as [|x l IH]; intros l'; [done|]. simpl. destruct (p x); [by intros [= <- <-]; split; [|by constructor]|].
  destruct (take_first p l) as [[y|] r]; intros [= -> <-]. destruct (IH r eq_refl) as [IH1 IH2].
  split; [|by constructor]. rewrite fmap_cons, IH1. by constructor.
Qed.

Lemma take_first_none p l l' : take_first p l = (None, l') → l' = l ∧ ∀ x, x ∈ l → p x = false.
Proof.
  destruct (first_split p l) as [Hn|(l1 & x & l2 & -> & H1 & H2)].
  - rewrite take_first_None by done. by intros [= <-].
  - by rewrite take_first_Some by done.
Qed.

Lemma take_token_perm token lanes l j l' : take_token token lanes l = (Some j, l') → l.*2 ≡ₚ j :: l'.*2 ∧ l' ⊆+ l.
Proof.
  induction lanes as [|lane lanes IH]; [done|]. simpl.
  destruct (take_first (lane_and lane (carries token)) l) as [[y|] r] eqn:E; [|done].
  intros [= -> ->]. by eapply take_first_perm.
Qed.

Lemma take_token_none token lanes l l' : take_token token lanes l = (None, l') → l' = l.
Proof.
  induction lanes as [|lane lanes IH]; simpl; [by intros [= <-]|].
  by destruct (take_first (lane_and lane (carries token)) l) as [[y|] r] eqn:E.
Qed.

Lemma coalesce_perm seen l : l.*2 ≡ₚ (coalesce seen l).1.*2 ++ (coalesce seen l).2 ∧ (coalesce seen l).1 ⊆+ l.
Proof.
  revert seen. induction l as [|x l IH]; intros seen; [done|]. simpl.
  destruct (q_maintenance_coalesce_key x.2) as [key|]; [case_decide|].
  - specialize (IH seen) as [IH1 IH2]. destruct (coalesce seen l) as [kept removed]. simpl in *. split.
    + rewrite IH1. apply Permutation_middle.
    + by apply submseteq_cons.
  - specialize (IH (key :: seen)) as [IH1 IH2]. destruct (coalesce (key :: seen) l) as [kept removed]. simpl in *.
    split; [by rewrite IH1|by constructor].
  - specialize (IH seen) as [IH1 IH2]. destruct (coalesce seen l) as [kept removed]. simpl in *.
    split; [by rewrite IH1|by constructor].
Qed.

Lemma drained_perm q l : holds q l → drained q ≡ₚ l.*2.
Proof.
  intros Hh. rewrite (drained_lanes q l) by done. clear Hh. induction l as [|[lane j] l IH]; [done|].
  rewrite fmap_cons, <-IH. simpl. rewrite !of_lane_cons. simpl.
  destruct lane; simpl; rewrite ?app_nil_r;
    repeat (rewrite <-!(Permutation_middle _ _ j)); done.
Qed.

(** The reply channels of a class's queues. *)
Definition completions (q : ClassQueues) : list N := q_completion <$> drained q.

Lemma completions_holds q l : holds q l → completions q ≡ₚ q_completion <$> l.*2.
Proof. intros Hh. unfold completions. by rewrite (drained_perm q l Hh). Qed.

Lemma queued_completions_split a : queued_completions a = completions (interactive a) ++ completions (maintenance a).
Proof. unfold queued_completions. by rewrite fmap_app. Qed.

Lemma queued_count_holds q l : holds q l → queued_count q = length l.
Proof. intros [Ho _]. unfold queued_count. by rewrite Ho, length_fmap. Qed.

Lemma send_completions f l : ((λ j, send j f) <$> l).*1 = q_completion <$> l.
Proof. rewrite <-list_fmap_compose. by apply list_fmap_ext. Qed.

Lemma Forall_submseteq {A} (P : A → Prop) l k : k ⊆+ l → Forall P l → Forall P k.
Proof. intros Hs. rewrite !Forall_forall. intros Hl x Hx. apply Hl. by eapply elem_of_submseteq. Qed.

Lemma pop_front_perm q l lane j q' :
  holds q l → pop_front_job q lane = (Some j, q') →
  ∃ l', holds q' l' ∧ l.*2 ≡ₚ j :: l'.*2 ∧ l' ⊆+ l.
Proof.
  intros Hh Hp. destruct (pop_front_holds q l lane Hh) as (q1 & Heq & Hq1). rewrite Hp in Heq. injection Heq as Ho ->.
  destruct (take_first _ l) as [o l'] eqn:E. simpl in *. subst o. exists l'. split; [done|]. by eapply take_first_perm.
Qed.

Lemma remove_first_bind_perm q l j q' :
  holds q l → remove_first_bind_job q = (Some j, q') →
  is_bind j = true ∧ ∃ l', holds q' l' ∧ l.*2 ≡ₚ j :: l'.*2 ∧ l' ⊆+ l.
Proof.
  intros Hh Hp. destruct (remove_first_holds q l Mutating is_bind Hh) as (q1 & Heq & Hq1).
  unfold remove_first_bind_job in Hp. cbn [queue] in Heq. split.
  - destruct (position is_bind (mutating q)) as [k|] eqn:Hk; [|done].
    apply position_Some in Hk as (x & Hx & Hb & _). unfold remove_at in Hp. simpl in Hp. rewrite Hx in Hp. congruence.
  - rewrite Heq in Hp. injection Hp as Ho ->. destruct (take_first _ l) as [o l'] eqn:E. simpl in *. subst o.
    exists l'. split; [done|]. by eapply take_first_perm.
Qed.

(** ** Elementary changes *)

Definition pending (l : list SchedulerEvent) : list CompletionEvent :=
  l ≫= λ e, match e with Completed ev => [ev] | _ => [] end.

(** Only the cursor, the retry flag, the statistics, wake-ups and the end of the loop differ. *)
Definition same_books (w w' : World) : Prop :=
  (actors (state w'), actor_order (state w'), idle_workers (state w'), interactive_inflight (state w'),
   maintenance_inflight (state w'), provider_inflight (state w'), binds_inflight (state w'),
   config (state w'), running_jobs (state w'), next_job_id (state w'),
   (heavy w', dispatched w', pending (events w'), sent w', closed w', run_open w'))
  = (actors (state w), actor_order (state w), idle_workers (state w), interactive_inflight (state w),
   maintenance_inflight (state w), provider_inflight (state w), binds_inflight (state w),
   config (state w), running_jobs (state w), next_job_id (state w),
   (heavy w, dispatched w, pending (events w), sent w, closed w, run_open w)).

(** The workers a pass may use. *)
Definition pass_guard (s : SchedulerState) (pass : AdmissionPass) : Prop :=
  match pass with
  | BindPass => provider_reserve (config s) - provider_inflight s < idle_workers s
  | ProviderPass => 0 < idle_workers s ∧ provider_inflight s < provider_reserve (config s)
  | LedgerPass => can_dispatch_class s Interactive = true
  | ClassPass job_class => can_dispatch_class s job_class = true
  end.

(** No job of the root is running. *)
Definition on_root (root_id : str) (job : RunningJob) : bool := bool_decide (g_root_id job = root_id).
Definition quiet (w : World) (root_id : str) : Prop := cnt (on_root root_id) (running_jobs (state w)) = 0.

(** The changes every operation is made of; [q] says which removals of actors are allowed. *)
Inductive atom (q : World → str → Prop) (w : World) : list N → World → Prop :=
  | atom_books w' : same_books w w' → atom q w [] w'
  | atom_actor root_id a a' new answers :
      actors (state w) !! root_id = Some a → rewrites (config (state w)) a a' new answers →
      atom q w new (say (set_state w (set_actor (state w) root_id a')) answers)
  | atom_refuse c r : atom q w [c] (say w [(c, r)])
  | atom_register root_id ctx :
      actors (state w) !! root_id = None →
      atom q w [] (set_state w (set_actor (set_actor_order (state w) (actor_order (state w) ++ [root_id]))
                                  root_id (actor_new ctx)))
  | atom_remove root_id : q w root_id → atom q w [] (drop_actor w root_id)
  | atom_retire root_id a publishing :
      actors (state w) !! root_id = Some a → is_idle publishing a = true → atom q w [] (drop_actor w root_id)
  | atom_finish job_id v message now w' : worker_finish w job_id v message now = Some w' → atom q w [] w'
  | atom_complete cancelled event rest :
      pending (events w) = event :: pending rest →
      atom q w [] (complete_job (set_events w rest) cancelled event).2
  | atom_launch root_id a pass newest now job a' heavy' :
      actors (state w) !! root_id = Some a → fatal a = false → pass_guard (state w) pass →
      (next_job_id (state w) + 1 < 2 ^ 64)%N → (∀ jc, pass = ClassPass jc → (JOB_COST ≤ deficit a)%Z) →
      try_admit_actor root_id a pass (config (state w)) (heavy w) newest now = (Some job, a', heavy') →
      atom q w [] (launch_run_job (set_heavy (set_state w (set_actor (state w) root_id a')) heavy') job now).2
  | atom_drop_executor : atom q w [] (drop_executor w).

Inductive atoms (q : World → str → Prop) : World → list N → World → Prop :=
  | atoms_nil w : atoms q w [] w
  | atoms_cons w cs1 w1 cs2 w2 : atom q w cs1 w1 → atoms q w1 cs2 w2 → atoms q w (cs1 ++ cs2) w2.

Lemma atoms_one q w cs w' : atom q w cs w' → atoms q w cs w'.
Proof. intros Ha. rewrite <-(app_nil_r cs). eapply atoms_cons; [done|]. constructor. Qed.

Lemma atoms_app q w cs1 w1 cs2 w2 : atoms q w cs1 w1 → atoms q w1 cs2 w2 → atoms q w (cs1 ++ cs2) w2.
Proof.
  induction 1 as [w|w c1 w' c2 w'' Ha _ IH]; intros Hb; [done|]. rewrite <-app_assoc.
  eapply atoms_cons; [done|]. by apply IH.
Qed.

(** Runs of changes that submit nothing. *)
Lemma atoms_trans q w w1 w2 : atoms q w [] w1 → atoms q w1 [] w2 → atoms q w [] w2.
Proof. intros H1 H2. exact (atoms_app q w [] w1 [] w2 H1 H2). Qed.

Lemma atoms_books q w w' : same_books w w' → atoms q w [] w'.
Proof. intros Hs. by apply atoms_one, atom_books. Qed.

(** A property that every elementary change preserves. *)
Lemma atoms_preserve q (P : list N → World → Prop) w cs w' :
  (∀ ds w1 cs w2, P ds w1 → atom q w1 cs w2 → P (ds ++ cs) w2) →
  atoms q w cs w' → ∀ ds, P ds w → P (ds ++ cs) w'.
Proof.
  intros Hp. induction 1 as [w|w c1 w1 c2 w2 Ha _ IH]; intros ds Hw; [by rewrite app_nil_r|].
  rewrite app_assoc. apply IH. by eapply Hp.
Qed.

Lemma post_books w e : (∀ ev, e ≠ Completed ev) → same_books w (post w e).
Proof.
  intros He. destruct w. unfold same_books, post, pending. simpl. rewrite bind_app. simpl.
  destruct e; [|by destruct (He event)|]; by rewrite app_nil_r.
Qed.

Lemma wake_books w : same_books w (wake_scheduler w).
Proof. by apply post_books. Qed.
#[local] Hint Resolve wake_books atoms_books : core.

Lemma atoms_then_wake q w cs w' : atoms q w cs w' → atoms q w cs (wake_scheduler w').
Proof. intros Ha. rewrite <-(app_nil_r cs). eapply atoms_app; eauto. Qed.

(** ** Rewrites of one actor *)

Lemma rw_deficit c a d :
  ((0 ≤ deficit a ≤ deficit_cap c)%Z → (0 ≤ d ≤ deficit_cap c)%Z) → rewrites c a (set_deficit a d) [] [].
Proof.
  intros Hd. destruct a. split_and!; [done|done|]. intros [H1 H2 H3 H4 H5]; simpl in *. split.
  - constructor; simpl; auto.
  - unfold queued_completions. simpl. by rewrite app_nil_r.
Qed.

(** A class's queues are replaced by queues that hold a part of its jobs. *)
Lemma rw_queues_sync c a job_class q removed answers :
  (∀ l, holds (class_queues a job_class) l → ∃ l', holds q l' ∧ l.*2 ≡ₚ removed ++ l'.*2 ∧ l' ⊆+ l) →
  answers.*1 = q_completion <$> removed →
  rewrites c a (sync_waiting_writers (set_queues a job_class q)) [] answers.
Proof.
  intros Hq Hans. destruct a as [x1 x2 x3 x4 x5 x6 x7 x8 x9 x10 x11 x12 x13 qi qm f ww]. destruct job_class; simpl in *.
  all: split_and!; [done|done|]; intros [[li H1] [lm [H2 H2']] H3 H4 H5]; simpl in *;
    rewrite !queued_completions_split; simpl; rewrite Hans.
  - destruct (Hq li H1) as (l' & Hl' & Hp & Hs). split.
    + constructor; simpl; [by exists l'|by exists lm|done|done|done].
    + rewrite (completions_holds qi li H1), (completions_holds q l' Hl'), Hp, fmap_app.
      by rewrite (Permutation_app_comm (q_completion <$> removed)), <-!app_assoc, (Permutation_app_comm (completions qm)).
  - destruct (Hq lm H2) as (l' & Hl' & Hp & Hs). split.
    + constructor; simpl; [by exists li|exists l'; split; [done|]|..|done|done].
      * by eapply Forall_submseteq.
      * rewrite (queued_count_holds q l' Hl'). rewrite (queued_count_holds qm lm H2) in H3.
        apply submseteq_length in Hs. lia.
    + rewrite (completions_holds qm lm H2), (completions_holds q l' Hl'), Hp, fmap_app.
      by rewrite (Permutation_app_comm (q_completion <$> removed)), app_assoc.
Qed.

(** The same without [sync_waiting_writers], when no interactive writer leaves. *)
Lemma rw_queues c a job_class q removed answers :
  (∀ l, holds (class_queues a job_class) l → ∃ l', holds q l' ∧ l.*2 ≡ₚ removed ++ l'.*2 ∧ l' ⊆+ l) →
  (job_class = Interactive → length (mutating q) = length (mutating (interactive a))) →
  answers.*1 = q_completion <$> removed →
  rewrites c a (set_queues a job_class q) [] answers.
Proof.
  intros Hq Hm Hans. destruct (rw_queues_sync c a job_class q removed answers Hq Hans) as (H1 & H2 & H3).
  split_and!; [by destruct a, job_class|by destruct a, job_class|]. intros Hok.
  assert (sync_waiting_writers (set_queues a job_class q) = set_queues a job_class q) as Heq.
  { pose proof (qok_writers c a Hok). destruct a, job_class; simpl in *; [rewrite Hm by done|]; congruence. }
  rewrite Heq in H3. by apply H3.
Qed.

Lemma rw_refl c a : rewrites c a a [] [].
Proof. split_and!; [done|done|]. intros Hok. split; [done|]. by rewrite app_nil_r. Qed.

Lemma rw_trans c a a1 a2 n1 n2 s1 s2 :
  rewrites c a a1 n1 s1 → rewrites c a1 a2 n2 s2 → rewrites c a a2 (n1 ++ n2) (s1 ++ s2).
Proof.
  intros (H1 & H2 & H3) (H4 & H5 & H6). split_and!; [congruence|congruence|]. intros Hok.
  destruct (H3 Hok) as [Hok1 Hp1]. destruct (H6 Hok1) as [Hok2 Hp2]. split; [done|].
  rewrite (Permutation_app_comm n1), <-app_assoc, Hp1, app_assoc, Hp2, fmap_app, <-app_assoc.
  by rewrite (Permutation_app_comm s2.*1).
Qed.

Lemma drain_all_part q l : holds q l → ∃ l', holds queues_new l' ∧ l.*2 ≡ₚ drained q ++ l'.*2 ∧ l' ⊆+ l.
Proof.
  intros Hh. exists []. split_and!; [apply holds_new| |apply submseteq_nil_l].
  rewrite app_nil_r. symmetry. by apply drained_perm.
Qed.

Lemma rw_fail c a : rewrites c a (actor_fail_queued_jobs a).2 [] (actor_fail_queued_jobs a).1.
Proof.
  unfold actor_fail_queued_jobs. simpl.
  apply (rw_trans c a (sync_waiting_writers (set_queues a Interactive queues_new)) _ [] []).
  - eapply (rw_queues_sync _ _ Interactive); [intros l; apply drain_all_part|apply send_completions].
  - assert (sync_waiting_writers (set_queues (set_queues a Interactive queues_new) Maintenance queues_new)
            = sync_waiting_writers (set_queues (sync_waiting_writers (set_queues a Interactive queues_new))
                                      Maintenance queues_new)) as -> by (by destruct a).
    eapply (rw_queues_sync _ _ Maintenance); [intros l|].
    + destruct a as [x1 x2 x3 x4 x5 x6 x7 x8 x9 x10 x11 x12 x13 qi qm f ww]. apply drain_all_part.
    + destruct a as [x1 x2 x3 x4 x5 x6 x7 x8 x9 x10 x11 x12 x13 qi qm f ww]. apply send_completions.
Qed.

Lemma rw_cancel_maintenance c a :
  rewrites c a (set_queues a Maintenance (cancel_queued_jobs (maintenance a)).2) [] (cancel_queued_jobs (maintenance a)).1.2.
Proof.
  eapply (rw_queues _ _ Maintenance); [intros l; apply drain_all_part|done|]. simpl. apply send_completions.
Qed.

Lemma filter_other_perm l :
  l.*2 ≡ₚ of_lane ProviderMetadata l ++ (filter (λ x, x.1 ≠ ProviderMetadata) l).*2.
Proof.
  induction l as [|x l IH]; [done|]. rewrite of_lane_cons, filter_cons, fmap_cons.
  destruct (decide (x.1 = ProviderMetadata)) as [E|E].
  - rewrite decide_False by tauto. simpl. by rewrite IH.
  - rewrite decide_True by done. simpl. rewrite <-Permutation_middle. by rewrite IH.
Qed.

Lemma rw_cancel_root_work c a :
  rewrites c a (cancel_queued_root_work a).2 [] (cancel_queued_root_work a).1.2.
Proof.
  unfold cancel_queued_root_work. cbn [cancel_queued_jobs cancel_queued_provider_jobs cancel_queued_job_queue fst snd].
  apply (rw_trans c a (set_queues a Maintenance queues_new) _ [] []).
  - apply (rw_queues _ _ Maintenance _ (drained (maintenance a))); [intros l; apply drain_all_part|done|apply send_completions].
  - apply (rw_queues c (set_queues a Maintenance queues_new) Interactive _ (provider_metadata (interactive a))).
    + assert (class_queues (set_queues a Maintenance queues_new) Interactive = interactive a) as -> by (by destruct a).
      intros l Hl. eexists. split; [exact (drain_provider_holds _ l Hl)|]. destruct Hl as [_ Hq].
      split; [by rewrite (Hq ProviderMetadata : provider_metadata _ = _), <-filter_other_perm|].
      apply sublist_submseteq, sublist_filter.
    + intros _. destruct a as [x1 x2 x3 x4 x5 x6 x7 x8 x9 x10 x11 x12 x13 qi qm f ww]. by destruct qi.
    + apply send_completions.
Qed.

Lemma remove_cancellable_part q token j q' :
  remove_cancellable q token = (Some j, q') →
  ∀ l, holds q l → ∃ l', holds q' l' ∧ l.*2 ≡ₚ [j] ++ l'.*2 ∧ l' ⊆+ l.
Proof.
  unfold remove_cancellable. generalize ALL_LANES. intros lanes Hr l Hh.
  destruct (remove_cancellable_holds q l token lanes Hh) as (q1 & Heq & Hq1). rewrite Hr in Heq. injection Heq as Ho ->.
  destruct (take_token _ _ l) as [o l'] eqn:E. simpl in *. subst o. exists l'. split; [done|].
  by eapply take_token_perm.
Qed.

Lemma remove_cancellable_none q token q' : remove_cancellable q token = (None, q') → q' = q.
Proof.
  unfold remove_cancellable. generalize ALL_LANES. intros lanes. induction lanes as [|lane lanes IH]; simpl; [by intros [= <-]|].
  destruct (position (carries token) (queue q lane)) as [k|] eqn:Hk; [|done].
  apply position_Some in Hk as (x & Hx & _). unfold remove_at. rewrite Hx. done.
Qed.

Lemma rw_settle c a token j a' f :
  remove_queued_cancellable a token = (Some j, a') → rewrites c a a' [] [send j f].
Proof.
  unfold remove_queued_cancellable. destruct (remove_cancellable (interactive a) token) as [[x|] qi] eqn:E1.
  - intros [= -> <-]. eapply (rw_queues_sync _ _ Interactive _ [j]); [|done]. by apply remove_cancellable_part with (token := token).
  - apply remove_cancellable_none in E1 as ->.
    assert (set_queues a Interactive (interactive a) = a) as -> by (by destruct a).
    destruct (remove_cancellable (maintenance a) token) as [o qm] eqn:E2. intros [= -> <-].
    eapply (rw_queues_sync _ _ Maintenance _ [j]); [|done]. by apply remove_cancellable_part with (token := token).
Qed.

Lemma rw_push c a job_class lane j :
  (job_class = Maintenance → queued_count (maintenance a) < MAINTENANCE_QUEUE_CAP ∧ class_lane lane) →
  rewrites c a (actor_push_job a job_class lane j) [q_completion j] [].
Proof.
  intros Hm. unfold actor_push_job. destruct a as [x1 x2 x3 x4 x5 x6 x7 x8 x9 x10 x11 x12 x13 qi qm f ww].
  destruct job_class; simpl in *;
    (split_and!; [done|done|]; intros [[li H1] [lm [H2 H2']] H3 H4 H5]; simpl in *;
     rewrite !queued_completions_split; simpl; rewrite app_nil_r).
  - pose proof (push_job_holds qi li lane j H1) as Hp. split.
    + constructor; simpl; [by eexists|by exists lm|done..].
    + rewrite (completions_holds _ _ Hp), (completions_holds _ _ H1), !fmap_app. simpl.
      by rewrite <-Permutation_cons_append.
  - pose proof (push_job_holds qm lm lane j H2) as Hp. destruct (Hm eq_refl) as [Hcap Hl]. split.
    + constructor; simpl; [by eexists|eexists; split; [done|]|..|done|done].
      * apply Forall_app. split; [done|]. by constructor.
      * rewrite (queued_count_holds _ _ Hp), length_app. rewrite (queued_count_holds _ _ H2) in Hcap. simpl. lia.
    + rewrite (completions_holds _ _ Hp), (completions_holds _ _ H2), !fmap_app. simpl.
      by rewrite app_assoc, <-Permutation_cons_append.
Qed.

Lemma admission_error_rw c a u job_class lane command key e a' victims :
  admission_error a u job_class lane command key = (e, a', victims) →
  rewrites c a a' [] victims ∧
  (e = None → job_class = Maintenance → queued_count (maintenance a') < MAINTENANCE_QUEUE_CAP ∧ class_lane lane).
Proof.
  unfold admission_error. destruct (decide (job_class = Maintenance)) as [->|Hne];
    [|intros [= <- <- <-]; split; [apply rw_refl|done]].
  destruct (_ || negb (u_root_is_dir u)); [intros [= <- <- <-]; split; [apply rw_refl|done]|].
  destruct (match key with Some _ => _ | None => _ end); [intros [= <- <- <-]; split; [apply rw_refl|done]|].
  destruct (if MAINTENANCE_QUEUE_CAP <=? queued_count (maintenance a) then _ else _) as [q removed] eqn:Hq.
  intros [= <- <- <-]. split.
  - apply (rw_queues c a Maintenance q removed); [|done|apply send_completions].
    destruct (MAINTENANCE_QUEUE_CAP <=? queued_count (maintenance a)).
    + intros l Hl. destruct (remove_duplicates_holds (maintenance a) l Hl) as (q' & Heq & Hq'). rewrite Hq in Heq. injection Heq as -> ->.
      destruct (coalesce_perm [] l) as [Hp Hs]. eexists. split; [done|]. split; [|done].
      rewrite Hp, Permutation_app_comm. by rewrite reverse_Permutation.
    + injection Hq as <- <-. intros l Hl. by exists l.
  - assert (maintenance (set_queues a Maintenance q) = q) as -> by (by destruct a).
    destruct (MAINTENANCE_QUEUE_CAP <=? queued_count q) eqn:Hle; [done|]. apply Nat.leb_gt in Hle.
    intros He _. split; [done|]. unfold class_lane.
    destruct (decide (lane = ProviderMetadata)) as [->|Hp]; [done|].
    destruct (decide (lane = CallLedger)) as [->|Hl].
    + rewrite decide_True in He by done. discriminate He.
    + rewrite !not_elem_of_cons. split_and!; [done|done|apply not_elem_of_nil].
Qed.

(** The decomposition of a submission. *)
Lemma submit_atoms q w u r jc l id cmd job comp tok ft key rr now :
  atoms q w [comp] (submit_labeled w u r jc l id cmd job comp tok ft key rr now).
Proof.
  unfold submit_labeled. destruct (actors (state w) !! r) as [a|] eqn:Ha; [|by apply atoms_one, atom_refuse].
  destruct (fatal a) eqn:Hf; [by apply atoms_one, atom_refuse|].
  destruct (admission_error a u jc l cmd key) as [[e a'] victims] eqn:He.
  destruct (admission_error_rw (config (state w)) _ _ _ _ _ _ _ _ _ He) as [Hrw Hroom]. destruct e as [f|].
  - eapply (atoms_app q w [] _ [comp]); [by eapply atoms_one, atom_actor|]. by apply atoms_one, atom_refuse.
  - apply atoms_then_wake, atoms_one. eapply atom_actor; [done|]. rewrite <-(app_nil_r victims).
    refine (rw_trans _ a a' _ [] [comp] victims [] Hrw _).
    set (j := MkQueued _ _ _ _ _ _ _ _ _ _ _ _). change comp with (q_completion j).
    apply rw_push. by apply Hroom.
Qed.

(** ** Admission *)

Lemma try_admit_Some root_id a pass c h newest now job a' h' :
  try_admit_actor root_id a pass c h newest now = (Some job, a', h') →
  ∃ lane queued a1,
    pass_lane a pass now newest = Some lane ∧ writer_blocks a (pass_class pass) lane = false ∧
    backing_off a pass lane now = false ∧ runnable a pass lane c h = Some h' ∧
    (if decide (pass = BindPass)
     then pop_first_bind_job (if promoted_writer_waiting a now && bool_decide (lane ∈ [PureRead; SerialLspStatus])
                              then note_reader_admission a else a)
     else actor_pop_front_job (if promoted_writer_waiting a now && bool_decide (lane ∈ [PureRead; SerialLspStatus])
                              then note_reader_admission a else a) (pass_class pass) lane) = (Some queued, a1) ∧
    start_job root_id a1 pass lane now queued (callgraph_next a (pass_class pass) lane)
      (bind_may_share a pass && has_epoch_reader a) (bool_decide (lane = HeavyInit)) = (job, a').
Proof.
  unfold try_admit_actor. destruct (pass_lane a pass now newest) as [lane|]; [|done].
  destruct (writer_blocks a (pass_class pass) lane) eqn:E1; [done|].
  destruct (backing_off a pass lane now) eqn:E2; [done|]. cbn [orb].
  destruct (runnable a pass lane c h) as [h1|] eqn:E3; [|done].
  set (a0 := if promoted_writer_waiting a now && _ then _ else _).
  destruct (if decide (pass = BindPass) then _ else _) as [[queued|] a1] eqn:E4; [|done].
  destruct (start_job _ _ _ _ _ _ _ _ _) as [job' a2] eqn:E5. intros [= -> -> ->].
  exists lane, queued, a1. done.
Qed.

Lemma rw_note c a : rewrites c a (note_reader_admission a) [] [].
Proof.
  destruct a. split_and!; [done|done|]. intros [H1 H2 H3 H4 H5]; simpl in *. split; [by constructor|].
  unfold queued_completions. simpl. by rewrite app_nil_r.
Qed.

Lemma pop_front_none q l lane q' : holds q l → pop_front_job q lane = (None, q') → q' = q.
Proof.
  intros Hh. unfold pop_front_job. destruct (position _ (order q)) as [i|] eqn:Hi; [|by intros [= <-]].
  apply position_Some in Hi as (x & Hx & ->%bool_decide_eq_true & _).
  destruct Hh as [Ho Hq]. rewrite Ho in Hx. apply list_lookup_fmap_Some in Hx as ([l' j] & -> & Hx).
  apply list_elem_of_lookup_2, elem_of_of_lane in Hx. rewrite <-Hq in Hx. simpl in *.
  destruct (queue q l'); [by apply not_elem_of_nil in Hx|]. done.
Qed.

Lemma remove_first_bind_none q q' : remove_first_bind_job q = (None, q') → q' = q.
Proof.
  unfold remove_first_bind_job. destruct (position is_bind (mutating q)) as [k|] eqn:Hk; [|by intros [= <-]].
  apply position_Some in Hk as (x & Hx & _). unfold remove_at. simpl. by rewrite Hx.
Qed.

Lemma rw_pop_none c a pass lane a1 :
  (if decide (pass = BindPass) then pop_first_bind_job a else actor_pop_front_job a (pass_class pass) lane) = (None, a1) →
  rewrites c a a1 [] [].
Proof.
  intros Hp. assert (∃ jc q, a1 = sync_waiting_writers (set_queues a jc q) ∧
    ∀ l, holds (class_queues a jc) l → q = class_queues a jc) as (jc & q & -> & Hq).
  { case_decide; unfold pop_first_bind_job, actor_pop_front_job in Hp.
    - destruct (remove_first_bind_job (interactive a)) as [o q] eqn:E. injection Hp as -> <-.
      exists Interactive, q. split; [done|]. intros l _. by eapply remove_first_bind_none.
    - destruct (pop_front_job (class_queues a (pass_class pass)) lane) as [o q] eqn:E. injection Hp as -> <-.
      exists (pass_class pass), q. split; [done|]. intros l Hl. by eapply pop_front_none. }
  eapply (rw_queues_sync c a jc q []); [|done]. intros l Hl. exists l. by rewrite (Hq l Hl).
Qed.

Lemma try_admit_None root_id a pass c h newest now a' h' :
  try_admit_actor root_id a pass c h newest now = (None, a', h') → h' = h ∧ rewrites c a a' [] [].
Proof.
  unfold try_admit_actor. destruct (pass_lane a pass now newest) as [lane|]; [|intros [= <- <-]; auto using rw_refl].
  destruct (_ || _); [intros [= <- <-]; auto using rw_refl|].
  destruct (runnable a pass lane c h) as [h1|] eqn:E3; [|intros [= <- <-]; auto using rw_refl].
  set (a0 := if promoted_writer_waiting a now && _ then _ else _).
  destruct (if decide (pass = BindPass) then _ else _) as [[queued|] a1] eqn:E4.
  { destruct (start_job _ _ _ _ _ _ _ _ _) as [job' a2]. done. }
  intros [= <- <-]. split; [done|]. apply (rw_trans c a a0 a1 [] [] [] []); [|by eapply rw_pop_none].
  unfold a0. destruct (_ && _); [apply rw_note|apply rw_refl].
Qed.

(** ** Dispatch *)

Section Dispatch.
Context (q : World → str → Prop) (c : ExecutorConfig) (now : Instant).

(** The configuration is the executor's and an id is left for every idle worker. *)
Definition ready (w : World) : Prop :=
  config (state w) = effective c ∧ (next_job_id (state w) + N.of_nat (idle_workers (state w)) < 2 ^ 64)%N.

(** [w'] is reached from [w] by launches: with [made], at least one. *)
Record launches (w w' : World) (made : bool) : Prop := {
  l_atoms : atoms q w [] w';
  l_config : config (state w') = config (state w);
  l_order : actor_order (state w') = actor_order (state w);
  l_ids : (next_job_id (state w') + N.of_nat (idle_workers (state w')) =
           next_job_id (state w) + N.of_nat (idle_workers (state w)))%N;
  l_idle : idle_workers (state w') + b2n made ≤ idle_workers (state w) }.

Lemma launches_refl w : launches w w false.
Proof. constructor; [constructor|done..|simpl; lia]. Qed.

Lemma launches_trans w w1 w2 m1 m2 : launches w w1 m1 → launches w1 w2 m2 → launches w w2 (m1 || m2).
Proof.
  intros [H1 H2 H3 H4 H5] [H6 H7 H8 H9 H10]. constructor; [by eapply atoms_trans|congruence..|].
  destruct m1, m2; simpl in *; lia.
Qed.

Lemma launches_ready w w' made : launches w w' made → ready w → ready w'.
Proof. intros [_ H2 _ H4 _] [H6 H7]. split; [congruence|lia]. Qed.

Lemma launches_books w w' :
  same_books w w' → launches w w' false.
Proof.
  intros Hs. constructor; [by apply atoms_books|..]; unfold same_books in Hs; simplify_eq; simpl; try lia; congruence.
Qed.

Lemma launches_actor w root_id a a' answers :
  actors (state w) !! root_id = Some a → rewrites (config (state w)) a a' [] answers →
  launches w (say (set_state w (set_actor (state w) root_id a')) answers) false.
Proof.
  intros Ha Hr. constructor; [by eapply atoms_one, atom_actor|..]; destruct w as [[]]; simpl; done || lia.
Qed.

Lemma say_nil w : say w [] = w.
Proof. destruct w. simpl. by rewrite app_nil_r. Qed.

Lemma set_actor_twice s root_id a a' : set_actor (set_actor s root_id a) root_id a' = set_actor s root_id a'.
Proof. destruct s. unfold set_actor. simpl. by rewrite insert_insert_eq. Qed.

Lemma bump_next id : (id + 1 < 2 ^ 64)%N → bump_job_id id = (id + 1)%N.
Proof. intros Hid. unfold bump_job_id. rewrite N.mod_small by done. lia. Qed.

Lemma pass_guard_idle s pass : pass_guard s pass → 0 < idle_workers s.
Proof.
  destruct pass as [| | |jc]; simpl; unfold can_dispatch_class; try lia;
    intros [Hg _]%andb_true_iff; apply negb_true_iff, Nat.eqb_neq in Hg; lia.
Qed.

(** Handing an admitted job to a worker. *)
Lemma launch_counts w job :
  0 < idle_workers (state w) → (next_job_id (state w) + 1 < 2 ^ 64)%N →
  let w' := (launch_run_job w job now).2 in
  config (state w') = config (state w) ∧ actor_order (state w') = actor_order (state w) ∧
  next_job_id (state w') = (next_job_id (state w) + 1)%N ∧ S (idle_workers (state w')) = idle_workers (state w).
Proof.
  intros Hi Hid. destruct w as [[] ? ? ? ? ? [] ? ? ? ?]; unfold launch_run_job; simpl in *;
    (split_and!; [done|done|by apply bump_next|lia]).
Qed.

Lemma admit_launches w root_id a0 a pass newest :
  ready w → actors (state w) !! root_id = Some a0 → fatal a0 = false →
  rewrites (config (state w)) a0 a [] [] → pass_guard (state w) pass →
  (∀ jc, pass = ClassPass jc → (JOB_COST ≤ deficit a)%Z) →
  launches w (admit_and_launch w root_id a pass newest now).2 (admit_and_launch w root_id a pass newest now).1.1.
Proof.
  intros [Hc Hid] Ha Hf Hrw Hg Hdef. unfold admit_and_launch.
  destruct (try_admit_actor root_id a pass (config (state w)) (heavy w) newest now) as [[[job|] a'] h'] eqn:Ht.
  - pose proof (pass_guard_idle _ _ Hg) as Hi.
    set (w1 := set_state w (set_actor (state w) root_id a)).
    set (w2 := set_heavy (set_state w (set_actor (state w) root_id a')) h').
    pose proof (launches_actor w root_id a0 a [] Ha Hrw) as H1. rewrite say_nil in H1. fold w1 in H1.
    assert (w2 = set_heavy (set_state w1 (set_actor (state w1) root_id a')) h') as Hw2.
    { unfold w1, w2. destruct w. simpl. by rewrite set_actor_twice. }
    assert (atom q w1 [] (launch_run_job w2 job now).2) as H2.
    { rewrite Hw2. eapply (atom_launch q w1 root_id a pass newest now); unfold w1; destruct w as [[]]; simpl in *.
      - apply lookup_insert_eq.
      - destruct Hrw as (_ & -> & _). done.
      - done.
      - lia.
      - done.
      - done. }
    destruct (launch_counts w2 job) as (L1 & L2 & L3 & L4);
      [unfold w2; destruct w as [[]]; simpl in *; lia..|].
    destruct (launch_run_job w2 job now) as [ok w3] eqn:El. simpl in *.
    constructor; [eapply atoms_trans; [apply H1|by apply atoms_one]|..]; unfold w2 in *; destruct w as [[]]; simpl in *;
      try congruence; lia.
  - simpl. destruct (try_admit_None _ _ _ _ _ _ _ _ _ Ht) as [-> Hrw'].
    pose proof (launches_actor w root_id a0 a' [] Ha (rw_trans _ _ _ _ [] [] [] [] Hrw Hrw')) as H1.
    rewrite say_nil in H1. by destruct w.
Qed.

Lemma class_turn_launches w root_id job_class :
  ready w → can_dispatch_class (state w) job_class = true →
  launches w (class_turn w root_id job_class now).2 (class_turn w root_id job_class now).1.1.
Proof.
  intros Hr Hg. unfold class_turn. destruct (actors (state w) !! root_id) as [a|] eqn:Ha; [|apply launches_refl].
  assert (rewrites (config (state w)) a (set_deficit a 0) [] []) as H0 by (apply rw_deficit; lia).
  destruct (fatal a) eqn:Hf.
  { destruct (actor_fail_queued_jobs a) as [answers a'] eqn:E. simpl.
    eapply launches_actor; [done|]. rewrite <-(app_nil_r answers).
    apply (rw_trans _ a a' _ [] []); [pose proof (rw_fail (config (state w)) a) as Hrw; by rewrite E in Hrw|].
    apply rw_deficit; lia. }
  destruct (negb (actor_has_queued_jobs a)).
  { simpl. rewrite <-(say_nil (set_state _ _)). by eapply launches_actor. }
  destruct (negb (has_queued_jobs_for a job_class)); [apply launches_refl|].
  set (a1 := set_deficit a _).
  assert (rewrites (config (state w)) a a1 [] []) as H1.
  { apply rw_deficit. destruct Hr as [-> _]. unfold effective. simpl. lia. }
  destruct (deficit a1 <? JOB_COST)%Z eqn:Hd.
  2:{ apply Z.ltb_ge in Hd. by eapply admit_launches. }
  simpl. rewrite <-(say_nil (set_state _ _)). by eapply launches_actor.
Qed.

Lemma reserved_turn_launches w root_id pass :
  ready w → pass_guard (state w) pass → (∀ jc, pass ≠ ClassPass jc) →
  launches w (reserved_turn pass now w root_id).2 (reserved_turn pass now w root_id).1.1.
Proof.
  intros Hr Hg Hp. unfold reserved_turn. destruct (actors (state w) !! root_id) as [a|] eqn:Ha; [|apply launches_refl].
  destruct (fatal a) eqn:Hf; [apply launches_refl|]. eapply admit_launches; eauto using rw_refl.
  intros jc ->. by destruct (Hp jc).
Qed.

Lemma next_root_books fit w root_id s :
  next_root fit (state w) = Some (root_id, s) → same_books w (set_state w s) ∧ ∃ n, s = set_cursor (state w) n.
Proof.
  unfold next_root. intros (r & Hr & Heq)%bind_Some. simplify_eq. split; [|by eexists]. by destruct w as [[]].
Qed.

Lemma actor_loop_launches fit guard turn n made w :
  (∀ s k, guard (set_cursor s k) = guard s) →
  (∀ w r, ready w → guard (state w) = true → launches w (turn w r).2 (turn w r).1.1) →
  ready w →
  ∃ m, launches w (actor_loop fit guard turn n made w).2 m ∧ (actor_loop fit guard turn n made w).1.1 = made || m.
Proof.
  intros Hcur Hturn. revert made w. induction n as [|n IH]; intros made w Hr; simpl.
  { exists false. split; [apply launches_refl|by rewrite orb_false_r]. }
  destruct (guard (state w)) eqn:Hg; simpl; [|exists false; split; [apply launches_refl|by rewrite orb_false_r]].
  destruct (next_root fit (state w)) as [[r s]|] eqn:Hn; [|exists false; split; [apply launches_refl|by rewrite orb_false_r]].
  destruct (next_root_books fit w r s Hn) as [Hb [k Hs]].
  pose proof (launches_books w _ Hb) as H1. pose proof (launches_ready _ _ _ H1 Hr) as Hr1.
  assert (guard (state (set_state w s)) = true) as Hg1 by (rewrite Hs; destruct w; simpl in *; by rewrite Hcur).
  pose proof (Hturn _ r Hr1 Hg1) as H2. destruct (turn (set_state w s) r) as [[p f] w2]. simpl in H2.
  pose proof (launches_trans _ _ _ _ _ H1 H2) as H3. simpl in H3. destruct f.
  - exists p. done.
  - destruct (IH (made || p) w2) as (m & H4 & ->); [by eapply launches_ready|].
    exists (p || m). split; [by eapply launches_trans|by rewrite orb_assoc].
Qed.

Lemma bind_loop_launches roots made w :
  (∀ r a, r ∈ roots → actors (state w) !! r = Some a → fatal a = false) → NoDup roots → ready w →
  ∃ m, launches w (bind_loop now roots made w).2 m ∧ (bind_loop now roots made w).1.1 = made || m.
Proof.
  revert made w. induction roots as [|r roots IH]; intros made w Hf Hnd Hr; simpl.
  { exists false. split; [apply launches_refl|by rewrite orb_false_r]. }
  apply NoDup_cons in Hnd as [Hnr Hnd].
  destruct (_ <=? _) eqn:Hg; [exists false; split; [apply launches_refl|by rewrite orb_false_r]|].
  apply Nat.leb_gt in Hg. destruct (actors (state w) !! r) as [a|] eqn:Ha;
    [|apply IH; [|done|done]; intros r' a' Hr' Ha'; eapply Hf; [by right|done]].
  pose proof (admit_launches w r a a BindPass None Hr Ha (Hf r a ltac:(left) Ha) (rw_refl _ a) Hg
    ltac:(done)) as H2.
  assert (∀ r', r' ≠ r → actors (state (admit_and_launch w r a BindPass None now).2) !! r' = actors (state w) !! r') as Hkeep.
  { intros r' Hne. unfold admit_and_launch. destruct (try_admit_actor _ _ _ _ _ _ _) as [[[job|] a'] h'].
    - unfold launch_run_job. destruct w as [[] ? ? ? ? ? [] ? ? ? ?]; simpl; by rewrite lookup_insert_ne.
    - destruct w as [[]]; simpl; by rewrite lookup_insert_ne. }
  destruct (admit_and_launch w r a BindPass None now) as [[p f] w2]. simpl in H2, Hkeep. destruct f.
  - exists p. done.
  - destruct (IH (made || p) w2) as (m & H4 & ->); [|done|by eapply launches_ready|].
    { intros r' a' Hr' Ha'. rewrite Hkeep in Ha' by (by intros ->). eapply Hf; [by right|done]. }
    exists (p || m). split; [by eapply launches_trans|by rewrite orb_assoc].
Qed.

Lemma bind_candidates_spec s :
  NoDup (bind_candidates s) ∧
  ∀ r, r ∈ bind_candidates s ↔
    ∃ a, actors s !! r = Some a ∧ fatal a = false ∧ is_Some (oldest_queued_bind_at (interactive a)).
Proof.
  unfold bind_candidates. set (f := λ x : str * ActorState, if fatal x.2 then _ else _).
  assert ((merge_sort older (map_to_list (actors s) ≫= f)).*2 ≡ₚ (map_to_list (actors s) ≫= f).*2) as Hp
    by (by rewrite merge_sort_Permutation). split.
  - rewrite Hp. clear Hp. pose proof (NoDup_fst_map_to_list (actors s)) as Hnd.
    induction (map_to_list (actors s)) as [|x l IH]; [constructor|].
    rewrite fmap_cons in Hnd. apply NoDup_cons in Hnd as [Hx Hnd]. simpl. rewrite fmap_app.
    assert (∀ r, r ∈ (l ≫= f).*2 → r ∈ l.*1) as Hsub.
    { intros r ((t & r') & -> & (y & Hy & Hl)%list_elem_of_bind)%list_elem_of_fmap. unfold f in Hy.
      destruct (fatal y.2); [by apply not_elem_of_nil in Hy|].
      destruct (oldest_queued_bind_at _); simpl in Hy; [|by apply not_elem_of_nil in Hy].
      apply list_elem_of_singleton in Hy. simplify_eq. simpl. by apply list_elem_of_fmap_2. }
    apply NoDup_app. split_and!; [|intros r Hr Hr'|by apply IH].
    + unfold f. destruct (fatal x.2); [constructor|]. destruct (oldest_queued_bind_at _); simpl; [apply NoDup_singleton|constructor].
    + apply Hsub in Hr'. unfold f in Hr. destruct (fatal x.2); [by apply not_elem_of_nil in Hr|].
      destruct (oldest_queued_bind_at _); simpl in Hr; [|by apply not_elem_of_nil in Hr].
      apply list_elem_of_singleton in Hr as ->. done.
  - intros r. rewrite Hp, list_elem_of_fmap. split.
    + intros ((t & r') & -> & ([k a] & Hy & Hl)%list_elem_of_bind). unfold f in Hy. simpl in *.
      apply elem_of_map_to_list in Hl. destruct (fatal a) eqn:Hf; [by apply not_elem_of_nil in Hy|].
      destruct (oldest_queued_bind_at _) eqn:Ho; simpl in Hy; [|by apply not_elem_of_nil in Hy].
      apply list_elem_of_singleton in Hy. simplify_eq. exists a. by rewrite Ho.
    + intros (a & Ha & Hf & [t Ht]). exists (t, r). split; [done|]. apply list_elem_of_bind. exists (r, a).
      split; [|by apply elem_of_map_to_list]. unfold f. simpl. rewrite Hf, Ht. simpl. by apply list_elem_of_singleton.
Qed.

Lemma can_dispatch_cursor s k jc : can_dispatch_class (set_cursor s k) jc = can_dispatch_class s jc.
Proof. by destruct s. Qed.

Lemma binds_launches w :
  ready w → launches w (dispatch_queued_binds w now).2 (dispatch_queued_binds w now).1.1.
Proof.
  intros Hr. destruct (bind_candidates_spec (state w)) as [Hnd Hc].
  destruct (bind_loop_launches (bind_candidates (state w)) false w) as (m & H1 & H2); [|done|done|].
  - intros r a Hin Ha. apply Hc in Hin as (a' & Ha' & Hf & _). congruence.
  - unfold dispatch_queued_binds. by rewrite H2.
Qed.

Lemma provider_launches w :
  ready w → launches w (dispatch_provider_metadata w now).2 (dispatch_provider_metadata w now).1.1.
Proof.
  intros Hr. unfold dispatch_provider_metadata.
  edestruct (actor_loop_launches wrap_around) as (m & H1 & H2); [| |done|rewrite H2; apply H1].
  - by intros [].
  - intros w' r Hr' [Hg1 Hg2]%andb_true_iff. apply reserved_turn_launches; [done| |done]. simpl.
    apply negb_true_iff, Nat.eqb_neq in Hg1. apply Nat.ltb_lt in Hg2. lia.
Qed.

Lemma ledger_launches w :
  ready w → launches w (dispatch_call_ledger w now).2 (dispatch_call_ledger w now).1.1.
Proof.
  intros Hr. unfold dispatch_call_ledger.
  edestruct (actor_loop_launches wrap_around) as (m & H1 & H2); [| |done|rewrite H2; apply H1].
  - by intros [].
  - intros w' r Hr' Hg. by apply reserved_turn_launches.
Qed.

Lemma class_launches w jc :
  ready w → launches w (dispatch_runnable_class w jc now).2 (dispatch_runnable_class w jc now).1.1.
Proof.
  intros Hr. unfold dispatch_runnable_class.
  edestruct (actor_loop_launches start_over) as (m & H1 & H2); [| |done|rewrite H2; apply H1].
  - by intros [].
  - intros w' r Hr' Hg. by apply class_turn_launches.
Qed.

(** A round launches, and says so. *)
Lemma dispatch_round_launches w :
  ready w → ∃ m, launches w (dispatch_round w now).1 m ∧ ∀ made, (dispatch_round w now).2 = Some made → made = m.
Proof.
  intros Hr. unfold dispatch_round.
  pose proof (binds_launches w Hr) as H1. destruct (dispatch_queued_binds w now) as [[m1 f1] w1]. simpl in H1.
  pose proof (launches_ready _ _ _ H1 Hr) as Hr1. cbn [fst snd].
  destruct (f1 || _); [by exists m1|].
  pose proof (provider_launches w1 Hr1) as H2. destruct (dispatch_provider_metadata w1 now) as [[m2 f2] w2]. simpl in H2.
  pose proof (launches_trans _ _ _ _ _ H1 H2) as H12. pose proof (launches_ready _ _ _ H2 Hr1) as Hr2.
  destruct (f2 || _); [by eexists|].
  pose proof (ledger_launches w2 Hr2) as H3. destruct (dispatch_call_ledger w2 now) as [[m3 f3] w3]. simpl in H3.
  pose proof (launches_trans _ _ _ _ _ H12 H3) as H13. pose proof (launches_ready _ _ _ H3 Hr2) as Hr3.
  destruct (f3 || _); [by eexists|].
  pose proof (class_launches w3 Interactive Hr3) as H4. destruct (dispatch_runnable_class w3 Interactive now) as [[m4 f4] w4].
  simpl in H4. pose proof (launches_trans _ _ _ _ _ H13 H4) as H14. pose proof (launches_ready _ _ _ H4 Hr3) as Hr4.
  destruct (f4 || _); [by eexists|].
  destruct (can_dispatch_class (state w4) Maintenance); [|by eexists; split; [done|]; intros made [= <-]].
  pose proof (class_launches w4 Maintenance Hr4) as H5. destruct (dispatch_runnable_class w4 Maintenance now) as [[m5 f5] w5].
  simpl in H5. pose proof (launches_trans _ _ _ _ _ H14 H5) as H15.
  destruct f5; eexists; (split; [done|]); [done|by intros made [= <-]].
Qed.

Lemma dispatch_loop_launches fuel w : ready w → ∃ m, launches w (dispatch_loop fuel w now) m.
Proof.
  revert w. induction fuel as [|fuel IH]; intros w Hr; simpl; [eexists; apply launches_refl|].
  destruct (_ || _); [eexists; apply launches_refl|].
  destruct (dispatch_round_launches w Hr) as (m & H1 & _). destruct (dispatch_round w now) as [w' o]. simpl in H1.
  destruct o as [[]|]; [|by eexists..]. destruct (IH w') as [m' H2]; [by eapply launches_ready|].
  eexists. by eapply launches_trans.
Qed.

End Dispatch.

(** ** The books *)

Definition is_class (jc : JobClass) (g : RunningJob) : bool := bool_decide (g_job_class g = jc).
Definition is_provider (g : RunningJob) : bool := bool_decide (g_lane g = ProviderMetadata).
Definition is_running_bind (g : RunningJob) : bool := is_bind_job (g_job_class g) (g_lane g) (g_request_id g).

(** The scheduler's record of a job and the worker's agree. *)
Definition agrees (job : RunJob) (g : RunningJob) : Prop :=
  g_root_id g = r_root_id job ∧ g_job_class g = r_job_class job ∧ g_lane g = r_lane job ∧
  g_request_id g = r_request_id job.

Definition permits (l : list CompletionEvent) : nat := total (λ e, b2n (e_heavy_permit e)) l.

Record books (c : ExecutorConfig) (w : World) : Prop := {
  b_config : config (state w) = effective c;
  b_interactive : interactive_inflight (state w) = cnt (is_class Interactive) (running_jobs (state w));
  b_maintenance : maintenance_inflight (state w) = cnt (is_class Maintenance) (running_jobs (state w));
  b_provider : provider_inflight (state w) = cnt is_provider (running_jobs (state w));
  b_binds : binds_inflight (state w) = cnt is_running_bind (running_jobs (state w));
  b_total : idle_workers (state w) + size (running_jobs (state w)) = total_workers (effective c);
  b_provider_cap : provider_inflight (state w) ≤ provider_reserve (effective c);
  b_maintenance_cap : maintenance_inflight (state w) ≤ maintenance_cap (effective c);
  b_reserve : (bind_reserve (effective c) - binds_inflight (state w))
              + (provider_reserve (effective c) - provider_inflight (state w)) ≤ idle_workers (state w);
  b_next : (1 ≤ next_job_id (state w))%N;
  b_ids : ∀ id, is_Some (running_jobs (state w) !! id) → (id < next_job_id (state w))%N;
  b_dispatched : ∀ id job, dispatched w !! id = Some job →
    (∃ g, running_jobs (state w) !! id = Some g ∧ agrees job g) ∧
    r_heavy_permit job = bool_decide (r_lane job = HeavyInit);
  b_pending : NoDup (e_job_id <$> pending (events w));
  b_pending_running : ∀ e, e ∈ pending (events w) →
    dispatched w !! e_job_id e = None ∧
    ∃ g, running_jobs (state w) !! e_job_id e = Some g ∧ e_heavy_permit e = bool_decide (g_lane g = HeavyInit);
  b_owned : ∀ id, is_Some (running_jobs (state w) !! id) →
    is_Some (dispatched w !! id) ∨ id ∈ e_job_id <$> pending (events w);
  b_heavy : heavy w + cnt r_heavy_permit (dispatched w) + permits (pending (events w))
            = heavy_permits (effective c) }.

Lemma books_new c : books c (world_new c).
Proof.
  constructor; simpl; rewrite ?cnt_empty, ?map_size_empty; try done.
  - lia.
  - lia.
  - unfold total_workers, effective. simpl. unfold PROVIDER_RESERVE_WORKERS, BIND_RESERVE_WORKERS. lia.
  - intros id [x Hx]. by rewrite lookup_empty in Hx.
  - constructor.
  - intros e He. by apply not_elem_of_nil in He.
  - intros id [x Hx]. by rewrite lookup_empty in Hx.
  - unfold permits, total. simpl. lia.
Qed.

(** What the books read. *)
Definition ledger (w : World) :=
  (idle_workers (state w), interactive_inflight (state w), maintenance_inflight (state w),
   provider_inflight (state w), binds_inflight (state w), config (state w), running_jobs (state w),
   next_job_id (state w), (heavy w, dispatched w, pending (events w))).

Lemma books_ledger c w w' : ledger w' = ledger w → books c w → books c w'.
Proof.
  unfold ledger. intros Heq [H1 H2 H3 H4 H5 H6 H7 H8 H9 H10 H11 H12 H13 H14 H15 H16].
  injection Heq as E1 E2 E3 E4 E5 E6 E7 E8 E9 E10 E11.
  constructor; rewrite ?E1, ?E2, ?E3, ?E4, ?E5, ?E6, ?E7, ?E8, ?E9, ?E10, ?E11; done.
Qed.

Lemma same_books_ledger w w' : same_books w w' → ledger w' = ledger w.
Proof. unfold same_books, ledger. intros Heq. injection Heq as E1 E2 E3 E4 E5 E6 E7 E8 E9 E10 E11 E12 E13 E14 E15 E16. congruence. Qed.

Lemma pending_app l k : pending (l ++ k) = pending l ++ pending k.
Proof. apply bind_app. Qed.

Lemma permits_app l k : permits (l ++ k) = permits l + permits k.
Proof.
  unfold permits. induction l as [|e l IH]; [done|]. cbn [app]. rewrite !total_cons, IH. lia.
Qed.

Lemma permits_cons e l : permits (e :: l) = b2n (e_heavy_permit e) + permits l.
Proof. done. Qed.

Lemma permits_one e : permits [e] = b2n (e_heavy_permit e).
Proof. rewrite permits_cons. unfold permits, total. simpl. lia. Qed.

(** Finishing a job moves it from the workers to the event channel. *)
Lemma worker_finish_ledger w id v message now w' :
  worker_finish w id v message now = Some w' →
  ∃ job e, dispatched w !! id = Some job ∧ e_job_id e = id ∧ e_heavy_permit e = r_heavy_permit job ∧
    state w' = state w ∧ heavy w' = heavy w ∧ dispatched w' = delete id (dispatched w) ∧
    pending (events w') = pending (events w) ++ [e].
Proof.
  unfold worker_finish. intros (job & Hj & Heq)%bind_Some. exists job. destruct w as [s h d ev a cl ro n ci cm st].
  simpl in *. destruct (run_lane_job job v) as [[response|retry]|]; [|destruct (requeue_as_exclusive job v retry now)|];
    injection Heq as <-; simpl; rewrite pending_app; (eexists; split_and!; [done|..]; simpl; [..|reflexivity]); done.
Qed.

Lemma books_finish c w id v message now w' :
  books c w → worker_finish w id v message now = Some w' → books c w'.
Proof.
  intros [H1 H2 H3 H4 H5 H6 H7 H8 H9 H10 H11 H12 H13 H14 H15 H16]
    (job & e & Hj & He & Hp & Hs & Hh & Hd & Hev)%worker_finish_ledger.
  destruct (H12 id job Hj) as [(g & Hg & Hag) Hperm].
  assert (id ∉ e_job_id <$> pending (events w)) as Hnew.
  { intros (e' & Heq & He')%list_elem_of_fmap. destruct (H14 e' He') as [Hn _]. congruence. }
  constructor; rewrite ?Hs, ?Hh, ?Hd, ?Hev; try done.
  - intros id' job' Hj'. apply lookup_delete_Some in Hj' as [_ Hj']. by apply H12.
  - rewrite fmap_app. apply NoDup_app. split_and!; [done| |apply NoDup_singleton].
    intros x Hx Hx'. simpl in Hx'. apply list_elem_of_singleton in Hx'. congruence.
  - intros e' [He'|He'%list_elem_of_singleton]%elem_of_app; [|subst e'].
    + destruct (H14 e' He') as [Hn Hr]. split; [|done]. rewrite lookup_delete_None. by right.
    + rewrite He. split; [apply lookup_delete_eq|]. exists g. split; [done|].
      destruct Hag as (_ & _ & Hl & _). by rewrite Hp, Hperm, Hl.
  - intros id' Hid'. rewrite fmap_app, elem_of_app. destruct (decide (id' = id)) as [->|Hne].
    + right. right. simpl. apply list_elem_of_singleton. by rewrite He.
    + rewrite lookup_delete_ne by done. destruct (H15 id' Hid'); tauto.
  - rewrite permits_app. rewrite (cnt_delete _ _ _ _ Hj) in H16.
    rewrite permits_one, Hp. lia.
Qed.

(** Reduce the accessors and setters of the state, and nothing of the configuration. *)
Ltac proj :=
  cbn [actors actor_order cursor idle_workers interactive_inflight maintenance_inflight provider_inflight
       binds_inflight config running_jobs next_job_id bind_retry_pending state heavy dispatched events sent
       closed run_open nonrunnable_dispatches completed_interactive completed_maintenance stopped
       end_running release_worker set_state set_heavy set_dispatched set_events set_actors set_actor
       set_actor_order set_cursor set_bind_retry say close fst snd] in *.

(** The part of the books in the scheduler's state. *)
Definition sched_ledger (s : SchedulerState) :=
  (idle_workers s, interactive_inflight s, maintenance_inflight s, provider_inflight s, binds_inflight s,
   config s, running_jobs s, next_job_id s).

Lemma requeue_bind_ledger s r cancelled j : sched_ledger (requeue_bind s r cancelled j).2 = sched_ledger s.
Proof.
  unfold requeue_bind. destruct (match q_cancellation j with Some _ => _ | None => _ end); [done|].
  destruct (actors s !! r) as [a|]; [|done]. destruct (fatal a); [done|]. by destruct s.
Qed.

Lemma complete_job_ledger w cancelled e g :
  running_jobs (state w) !! e_job_id e = Some g →
  let w' := (complete_job w cancelled e).2 in
  sched_ledger (state w') = sched_ledger (release_worker (end_running (state w) (e_job_id e) g)) ∧
  heavy w' = heavy w + b2n (e_heavy_permit e) ∧ dispatched w' = dispatched w ∧ events w' = events w ∧
  actor_order (state w') = actor_order (state w).
Proof.
  intros Hg. unfold complete_job. destruct w as [s h d ev an cl ro n ci cm st]. simpl in *. rewrite Hg.
  set (s1 := end_running s (e_job_id e) g).
  destruct (match actors s1 !! g_root_id g with Some _ => _ | None => _ end) as [an1 s2] eqn:E1.
  assert (sched_ledger s2 = sched_ledger s1 ∧ actor_order s2 = actor_order s1) as [H1 O1].
  { destruct (actors s1 !! g_root_id g) as [a|]; [|by injection E1 as _ <-].
    destruct (end_actor a g (e_outcome e)). injection E1 as _ <-. by destruct s1. }
  destruct (match e_requeue e with Some _ => _ | None => _ end) as [an2 s3] eqn:E2.
  assert (sched_ledger s3 = sched_ledger s2 ∧ actor_order s3 = actor_order s2) as [H2 O2].
  { destruct (e_requeue e) as [j|]; [|by injection E2 as _ <-].
    pose proof (requeue_bind_ledger s2 (g_root_id g) cancelled j) as Hr.
    assert (actor_order (requeue_bind s2 (g_root_id g) cancelled j).2 = actor_order s2) as Ho.
    { unfold requeue_bind. repeat case_match; by destruct s2. }
    rewrite E2 in Hr, Ho. done. }
  simpl. split_and!; [|done..|].
  - clear -H1 H2. destruct s3, s2, s1. unfold sched_ledger in *. simpl in *. congruence.
  - clear -O1 O2. subst s1. destruct s3, s2, s. simpl in *. congruence.
Qed.

Lemma bind_lane jc lane id : is_bind_job jc lane id = true → lane = Mutating.
Proof. unfold is_bind_job. intros [[_ Hl%bool_decide_eq_true]%andb_true_iff _]%andb_true_iff. done. Qed.

Lemma books_complete c w cancelled e rest :
  books c w → pending (events w) = e :: pending rest →
  books c (complete_job (set_events w rest) cancelled e).2.
Proof.
  intros [H1 H2 H3 H4 H5 H6 H7 H8 H9 H10 H11 H12 H13 H14 H15 H16] Hev. rewrite Hev in H13, H14, H15, H16.
  apply NoDup_cons in H13 as [Hnew H13]. destruct (H14 e ltac:(left)) as [Hd (g & Hg & Hp)].
  set (w0 := set_events w rest). assert (state w0 = state w ∧ heavy w0 = heavy w ∧ dispatched w0 = dispatched w ∧ events w0 = rest)
    as (E1 & E2 & E3 & E4) by (by destruct w).
  destruct (complete_job_ledger w0 cancelled e g) as (L1 & L2 & L3 & L4 & _); [by rewrite E1|].
  set (w' := (complete_job w0 cancelled e).2) in *. rewrite E1 in L1. rewrite E2 in L2. rewrite E3 in L3. rewrite E4 in L4.
  assert (∀ p, cnt p (running_jobs (state w)) = b2n (p g) + cnt p (delete (e_job_id e) (running_jobs (state w)))) as Hcnt
    by (intros p; by apply cnt_delete).
  assert (size (running_jobs (state w)) = S (size (delete (e_job_id e) (running_jobs (state w))))) as Hsz.
  { rewrite <-!cnt_all. by rewrite (Hcnt (λ _, true)). }
  pose proof (Hcnt (is_class Interactive)) as C2. pose proof (Hcnt (is_class Maintenance)) as C3.
  pose proof (Hcnt is_provider) as C4. pose proof (Hcnt is_running_bind) as C5.
  unfold sched_ledger in L1. destruct (state w) as [m o cu i ni nm np nb cf rj id br]. proj.
  injection L1 as F1 F2 F3 F4 F5 F6 F7 F8.
  change (is_class ?jc g) with (bool_decide (g_job_class g = jc)) in C2, C3.
  change (is_provider g) with (bool_decide (g_lane g = ProviderMetadata)) in C4.
  change (is_running_bind g) with (is_bind_job (g_job_class g) (g_lane g) (g_request_id g)) in C5.
  constructor; rewrite ?F1, ?F2, ?F3, ?F4, ?F5, ?F6, ?F7, ?F8, ?L2, ?L3, ?L4; try done.
  - revert C2. destruct (g_job_class g); simpl; intros C2; lia.
  - revert C3. destruct (g_job_class g); simpl; intros C3; lia.
  - destruct (decide (g_lane g = ProviderMetadata)) as [Hl|Hl].
    + rewrite bool_decide_eq_true_2 in C4 by done. simpl in C4. lia.
    + rewrite bool_decide_eq_false_2 in C4 by done. simpl in C4. lia.
  - revert C5. destruct (is_bind_job (g_job_class g) (g_lane g) (g_request_id g)); simpl; intros C5; lia.
  - rewrite Hsz in H6. lia.
  - destruct (decide _); lia.
  - destruct (g_job_class g); lia.
  - destruct (is_bind_job (g_job_class g) (g_lane g) (g_request_id g)) eqn:Hb; [|destruct (decide _); lia].
    rewrite decide_False by (apply bind_lane in Hb; congruence). lia.
  - intros x Hx. apply H11. rewrite lookup_delete_is_Some in Hx. tauto.
  - intros x job Hj. destruct (H12 x job Hj) as [(g' & Hg' & Hag) Hperm]. split; [|done]. exists g'. split; [|done].
    rewrite lookup_delete_ne; [done|]. intros <-. congruence.
  - intros e' He'. destruct (H14 e' ltac:(by right)) as [Hn (g' & Hg' & Hp')]. split; [done|]. exists g'.
    split; [|done]. rewrite lookup_delete_ne; [done|]. intros Heq. apply Hnew. rewrite Heq. by apply list_elem_of_fmap_2.
  - intros x [Hne Hx]%lookup_delete_is_Some. destruct (H15 x Hx) as [Hs|Hs]; [by left|].
    apply elem_of_cons in Hs as [->|Hs]; [done|by right].
  - rewrite permits_cons in H16. lia.
Qed.

End SchedulerSpec.
