(* ===== verification/SchedulerInv.v ===== *)
(** * What holds of the scheduler in every reachable world

    The queues stay well-formed, the books balance, every reply channel has one owner until it
    is answered, and a writer has its root to itself. *)

From S2P Require Import Prelude RustStr ClassQueues JobCancel Scheduler SchedulerSpec.
Import ClassQueues Scheduler SchedulerSpec.

Module SchedulerInv.

#[local] Opaque MAINTENANCE_QUEUE_CAP.
#[local] Arguments effective : simpl never.

(** ** An admitted job *)

Lemma next_interactive_lane_class cq now newest lane :
  next_interactive_lane cq now newest = Some lane → class_lane lane.
Proof.
  unfold next_interactive_lane, class_lane. destruct (existsb _ _); [intros [= <-]; by_compute|].
  destruct (negb _); [intros [= <-]; by_compute|]. intros Hh.
  assert (lane ∈ filter (λ l, l ∉ [PureRead; ProviderMetadata; CallLedger]) (order cq)) as Hin.
  { destruct (filter _ (order cq)); simplify_eq/=. by left. }
  apply list_elem_of_filter in Hin as [Hn _]. intros Hx. apply Hn. by right.
Qed.

Lemma front_lane_class cq l lane :
  holds cq l → Forall (λ x, class_lane x.1) l → front_lane cq = Some lane → class_lane lane.
Proof.
  intros [Ho _] Hl. unfold front_lane. rewrite Ho. destruct l as [|x l]; [done|]. intros [= <-].
  by apply Forall_cons in Hl as [? _].
Qed.

(** The lane of a pass. *)
Lemma pass_lane_spec c a pass now newest lane :
  queue_ok c a → pass_lane a pass now newest = Some lane →
  match pass with
  | BindPass => lane = Mutating
  | ProviderPass => lane = ProviderMetadata
  | LedgerPass => lane = CallLedger
  | ClassPass _ => class_lane lane
  end.
Proof.
  intros Hok. destruct pass as [| | |[]]; simpl.
  - by intros (t & _ & ->)%fmap_Some.
  - by intros (t & _ & ->)%fmap_Some.
  - by intros (t & _ & ->)%fmap_Some.
  - apply next_interactive_lane_class.
  - destruct (qok_maintenance c a Hok) as (l & Hl & Hc). by apply front_lane_class with l.
Qed.

(** The job taken from the queues, and what is left. *)
Lemma popped_spec c a pass lane queued a1 :
  queue_ok c a →
  (if decide (pass = BindPass) then pop_first_bind_job a else actor_pop_front_job a (pass_class pass) lane)
  = (Some queued, a1) →
  counters a1 = counters a ∧ fatal a1 = fatal a ∧ deficit a1 = deficit a ∧ ctx a1 = ctx a ∧ queue_ok c a1 ∧
  queued_completions a ≡ₚ q_completion queued :: queued_completions a1 ∧
  (pass = BindPass → is_bind queued = true).
Proof.
  intros Hok Hp.
  assert (∃ jc cq, a1 = sync_waiting_writers (set_queues a jc cq) ∧
    (∀ l, holds (class_queues a jc) l → ∃ l', holds cq l' ∧ l.*2 ≡ₚ [queued] ++ l'.*2 ∧ l' ⊆+ l) ∧
    (pass = BindPass → is_bind queued = true)) as (jc & cq & -> & Hq & Hb).
  { case_decide as Hd; unfold pop_first_bind_job, actor_pop_front_job in Hp.
    - destruct (remove_first_bind_job (interactive a)) as [o cq] eqn:E. injection Hp as -> <-.
      destruct (qok_interactive c a Hok) as [li Hli].
      exists Interactive, cq. split_and!; [done| |intros _; by destruct (remove_first_bind_perm _ li _ _ Hli E)].
      intros l Hl. by destruct (remove_first_bind_perm _ l _ _ Hl E).
    - destruct (pop_front_job (class_queues a (pass_class pass)) lane) as [o cq] eqn:E. injection Hp as -> <-.
      exists (pass_class pass), cq. split_and!; [done| |done]. intros l Hl. by apply pop_front_perm with (q := class_queues a (pass_class pass)) (lane := lane). }
  destruct (rw_queues_sync c a jc cq [queued] [(q_completion queued, JobResponse 0)] Hq eq_refl) as (H1 & H2 & H3).
  destruct (H3 Hok) as [H4 H5].
  split_and!; [done|done|by destruct a, jc|by destruct a, jc|done| |done].
  simpl in H5. rewrite H5. by rewrite <-Permutation_cons_append.
Qed.

Lemma queue_ok_note c a : queue_ok c a → queue_ok c (note_reader_admission a).
Proof. intros Hok. destruct (rw_note c a) as (_ & _ & H). by apply H. Qed.

(** What [runnable] takes. *)
Lemma runnable_permits a pass lane c h h' :
  runnable a pass lane c h = Some h' → h = h' + b2n (bool_decide (lane = HeavyInit)).
Proof.
  unfold runnable. destruct lane; try (destruct (_ && _); [|done]); try (destruct (negb _); [|done]);
    try (destruct (_ || _); [|done]); simpl; try (intros [= <-]; lia).
  destruct (if callgraph_next _ _ _ then _ else _); [|done]. destruct h; simpl; [done|]. intros [= <-]. lia.
Qed.

(** Everything the invariants need of an admission. *)
Record admitted (c : EffectiveConfig) (root_id : str) (a : ActorState) (pass : AdmissionPass) (h : nat)
    (job : RunJob) (a' : ActorState) (h' : nat) : Prop := {
  ad_root : r_root_id job = root_id;
  ad_class : r_job_class job = pass_class pass;
  ad_provider : r_lane job = ProviderMetadata ↔ pass = ProviderPass;
  ad_bind : pass = BindPass → is_bind_job (r_job_class job) (r_lane job) (r_request_id job) = true;
  ad_permit : r_heavy_permit job = bool_decide (r_lane job = HeavyInit);
  ad_heavy : h = h' + b2n (r_heavy_permit job);
  ad_queues : queue_ok c a';
  ad_completions : queued_completions a ≡ₚ r_completion job :: queued_completions a';
  ad_fatal : fatal a' = fatal a;
  ad_counters : ∃ acquisition shared,
    counters a' = counters (mark_started a (r_lane job) acquisition shared) ∧
    (r_lane job = HeavyInit → acquisition = is_callgraph_acquisition (r_job_class job) (r_lane job) (r_request_id job)) ∧
    acquisition = callgraph_next a (pass_class pass) (r_lane job) ∧
    r_shared_bind_gate job = shared ∧ shared = bind_may_share a pass && has_epoch_reader a;
  ad_writer : writer_blocks a (pass_class pass) (r_lane job) = false;
  ad_runnable : runnable a pass (r_lane job) c h = Some h';
  ad_rerun : r_shared_bind_gate job = true → is_Some (r_rerun job) }.

Lemma popped_head a pass lane queued a1 :
  pass ≠ BindPass →
  (if decide (pass = BindPass) then pop_first_bind_job a else actor_pop_front_job a (pass_class pass) lane)
  = (Some queued, a1) → head (queue (class_queues a (pass_class pass)) lane) = Some queued.
Proof.
  intros Hp. rewrite decide_False by done. unfold actor_pop_front_job, pop_front_job.
  destruct (position _ _); intros Heq; by injection Heq.
Qed.

Lemma first_bind_popped a queued a1 :
  pop_first_bind_job a = (Some queued, a1) → first_bind_job (interactive a) = Some queued.
Proof.
  unfold pop_first_bind_job, remove_first_bind_job, first_bind_job.
  destruct (position is_bind (mutating (interactive a))) as [k|] eqn:Hk; [|done].
  unfold remove_at. cbn [queue]. intros Heq. injection Heq as Hq _.
  apply position_Some in Hk as (x & Hx & Hb & Hmin). rewrite Hx in Hq. injection Hq as <-.
  rewrite <-(take_drop_middle _ _ _ Hx), filter_app, filter_cons, decide_True by done.
  assert (filter (λ j, is_bind j = true) (take k (mutating (interactive a))) = []) as ->; [|done].
  destruct (filter _ (take k _)) as [|y l] eqn:E; [done|]. exfalso.
  assert (y ∈ filter (λ j, is_bind j = true) (take k (mutating (interactive a)))) as Hy by (rewrite E; by left).
  apply list_elem_of_filter in Hy as [Hy1 (i & Hy2)%list_elem_of_lookup].
  apply lookup_take_Some in Hy2 as [Hy2 Hi]. specialize (Hmin i y Hi Hy2). congruence.
Qed.

Lemma set_mutating_ok c a m :
  queue_ok c a →
  counters (set_mutating_inflight a m) = counters a ∧ fatal (set_mutating_inflight a m) = fatal a ∧
  queue_ok c (set_mutating_inflight a m) ∧ queued_completions (set_mutating_inflight a m) = queued_completions a.
Proof. destruct a. intros [G1 G2 G3 G4 G5]. split_and!; [done..| |done]. by constructor. Qed.

Lemma counters_mark_started a b lane x y :
  counters a = counters b → counters (mark_started a lane x y) = counters (mark_started b lane x y).
Proof. destruct a, b. unfold counters. simpl. intros Heq. simplify_eq. by destruct lane. Qed.

Lemma try_admit_admitted c root_id a pass h newest now job a' h' :
  queue_ok c a → (∀ jc, pass = ClassPass jc → (JOB_COST ≤ deficit a)%Z) →
  try_admit_actor root_id a pass c h newest now = (Some job, a', h') →
  admitted c root_id a pass h job a' h'.
Proof.
  intros Hok Hdef (lane & queued & a1 & Hlane & Hw & Hb & Hrun & Hpop & Hst)%try_admit_Some.
  set (a0 := if promoted_writer_waiting a now && _ then _ else _) in *.
  assert (queue_ok c a0 ∧ counters a0 = counters a ∧ fatal a0 = fatal a ∧ deficit a0 = deficit a ∧
          interactive a0 = interactive a ∧ maintenance a0 = maintenance a)
    as (Hok0 & E1 & E2 & E3 & E4 & E5).
  { unfold a0. destruct (_ && _); [|done]. split; [by apply queue_ok_note|]. by destruct a. }
  assert (queued_completions a0 = queued_completions a) as E6 by (unfold queued_completions; by rewrite E4, E5).
  destruct (popped_spec c a0 pass lane queued a1 Hok0 Hpop) as (P1 & P2 & P3 & P4 & P5 & P6 & P7).
  pose proof (pass_lane_spec c a pass now newest lane Hok Hlane) as Hl.
  pose proof (runnable_permits _ _ _ _ _ _ Hrun) as Hh.
  assert (lane = HeavyInit → callgraph_next a (pass_class pass) lane
          = is_callgraph_acquisition (pass_class pass) lane (q_request_id queued)) as Hcg.
  { intros ->. unfold callgraph_next. assert (pass ≠ BindPass) as Hnb by (by intros ->).
    assert (class_queues a (pass_class pass) = class_queues a0 (pass_class pass)) as ->
      by (destruct (pass_class pass); simpl; by rewrite ?E4, ?E5).
    by rewrite (popped_head _ _ _ _ _ Hnb Hpop). }
  assert (bind_may_share a pass = true → is_Some (q_rerun queued)) as Hre.
  { unfold bind_may_share. intros [->%bool_decide_eq_true Hs]%andb_true_iff. rewrite decide_True in Hpop by done.
    apply first_bind_popped in Hpop. rewrite E4 in Hpop. rewrite Hpop in Hs.
    apply andb_true_iff in Hs as [Hs _]. by apply bool_decide_eq_true in Hs. }
  unfold start_job in Hst. set (a2 := match pass with ClassPass _ => _ | _ => _ end) in Hst.
  set (a3 := if decide (lane = Mutating) then _ else _) in Hst. injection Hst as <- <-.
  assert (counters a3 = counters a ∧ fatal a3 = fatal a ∧ queue_ok c a3 ∧
          queued_completions a3 = queued_completions a1) as (C1 & C2 & C3 & C4).
  { assert (counters a2 = counters a ∧ fatal a2 = fatal a ∧ queue_ok c a2 ∧ queued_completions a2 = queued_completions a1)
      as (D1 & D2 & D3 & D4).
    { unfold a2. destruct pass as [| | |jc]; [split_and!; congruence || done..|].
      destruct (rw_deficit c a1 (deficit a1 - JOB_COST)) as (F1 & F2 & F3).
      { specialize (Hdef jc eq_refl). rewrite P3, E3. unfold JOB_COST in *. lia. }
      split_and!; [congruence|congruence|by apply F3|by destruct a1]. }
    unfold a3. destruct (decide (lane = Mutating)); [|done]. destruct (set_mutating_ok c a2 (MkMutating (q_request_id queued) (q_command queued) now) D3)
      as (F1 & F2 & F3 & F4). split_and!; [congruence|congruence|done|congruence]. }
  clearbody a3. constructor; simpl; try done.
  - destruct pass; subst; split; try done. intros ->. destruct Hl. by left.
  - intros ->. subst lane. exact (P7 eq_refl).
  - destruct C3 as [G1 G2 G3 G4 G5]. destruct a3, lane; by constructor.
  - rewrite <-E6, P6, <-C4. by destruct a3, lane.
  - rewrite <-C2. by destruct a3, lane.
  - exists (callgraph_next a (pass_class pass) lane), (bind_may_share a pass && has_epoch_reader a).
    split_and!; try done. by apply counters_mark_started.
  - intros [Hs _]%andb_true_iff. by apply Hre.
Qed.

(** ** A finished job *)

Definition acquisition_of (g : RunningJob) : bool :=
  is_callgraph_acquisition (g_job_class g) (g_lane g) (g_request_id g).

(** [a] becomes [a'] when a job of its root ends: the answers and the channels that return. *)
Definition ends (c : EffectiveConfig) (a a' : ActorState) (g : RunningJob) (back : list N) (answers : list Sent) : Prop :=
  counters a' = counters (mark_ended a (g_lane g) (acquisition_of g)) ∧
  (queue_ok c a → queue_ok c a' ∧ queued_completions a ++ back ≡ₚ queued_completions a' ++ answers.*1).

Lemma counters_fatal a : counters (set_fatal a) = counters a.
Proof. by destruct a. Qed.

Lemma queue_ok_mark_ended c a lane x :
  queue_ok c a → queue_ok c (mark_ended a lane x) ∧ queued_completions (mark_ended a lane x) = queued_completions a.
Proof. destruct a. intros [G1 G2 G3 G4 G5]. destruct lane; (split; [by constructor|done]). Qed.

Lemma queue_ok_fatal c a : queue_ok c a → queue_ok c (set_fatal a) ∧ queued_completions (set_fatal a) = queued_completions a.
Proof. destruct a. intros [G1 G2 G3 G4 G5]. split; [by constructor|done]. Qed.

Lemma end_actor_ends c a g outcome :
  ends c a (end_actor a g outcome).2 g [] (end_actor a g outcome).1.
Proof.
  unfold end_actor. fold (acquisition_of g). set (a1 := mark_ended a (g_lane g) (acquisition_of g)).
  case_decide as Hd.
  - destruct (rw_fail c (set_fatal a1)) as (H1 & _ & H3). split; [by rewrite H1, counters_fatal|]. intros Hok.
    destruct (queue_ok_mark_ended c a (g_lane g) (acquisition_of g) Hok) as [K1 K2]. fold a1 in K1, K2.
    destruct (queue_ok_fatal c a1 K1) as [K3 K4]. destruct (H3 K3) as [K5 K6]. split; [done|].
    rewrite app_nil_r, <-K2, <-K4. done.
  - split; [done|]. intros Hok. destruct (queue_ok_mark_ended c a (g_lane g) (acquisition_of g) Hok) as [K1 K2].
    split; [done|]. simpl. unfold a1. by rewrite !app_nil_r, K2.
Qed.

Lemma push_front_ends c a j :
  let a' := sync_waiting_writers (set_queues a Interactive (push_front_job (interactive a) Mutating j)) in
  counters a' = counters a ∧
  (queue_ok c a → queue_ok c a' ∧ queued_completions a ++ [q_completion j] ≡ₚ queued_completions a').
Proof.
  destruct a as [x1 x2 x3 x4 x5 x6 x7 x8 x9 x10 x11 x12 x13 qi qm f ww]. simpl. split; [done|].
  intros [[li H1] [lm [H2 H2']] H3 H4 H5]; simpl in *. pose proof (push_front_holds qi li Mutating j H1) as Hp. split.
  - constructor; simpl; [by eexists|by exists lm|done..].
  - rewrite !queued_completions_split. simpl. rewrite (completions_holds _ _ Hp), (completions_holds _ _ H1), fmap_cons.
    by rewrite <-Permutation_cons_append.
Qed.

(** The channel of the bind that asks to run again. *)
Definition back_of (e : CompletionEvent) : list N := option_list (q_completion <$> e_requeue e).

Lemma complete_job_actors c w cancelled e g :
  running_jobs (state w) !! e_job_id e = Some g →
  let w' := (complete_job w cancelled e).2 in
  ∃ answers, sent w' = sent w ++ answers ∧ closed w' = closed w ∧ run_open w' = run_open w ∧
    match actors (state w) !! g_root_id g with
    | None => actors (state w') = actors (state w) ∧ answers.*1 = back_of e
    | Some a => ∃ a', actors (state w') = <[g_root_id g := a']> (actors (state w)) ∧ ends c a a' g (back_of e) answers
    end.
Proof.
  intros Hg. unfold complete_job. destruct w as [[m o cu i ni nm np nb cf rj id br] h d ev an cl ro n ci cm st].
  simpl in *. rewrite Hg. unfold back_of. destruct (m !! g_root_id g) as [a|] eqn:Ha.
  - pose proof (end_actor_ends c a g (e_outcome e)) as Hend.
    destruct (end_actor a g (e_outcome e)) as [an1 a1]. unfold set_actor. simpl in *.
    destruct (e_requeue e) as [j|]; simpl; [|exists an1; rewrite app_nil_r; split_and!; [done..|]; by exists a1].
    destruct Hend as [C1 C2]. unfold requeue_bind. simpl. rewrite lookup_insert_eq.
    assert (∀ r, ends c a a1 g [q_completion j] (an1 ++ [send j r])) as Hans.
    { intros r. split; [done|]. intros Hok. destruct (C2 Hok) as [C3 C4]. split; [done|].
      rewrite app_nil_r in C4. by rewrite C4, fmap_app, app_assoc. }
    destruct (match q_cancellation j with Some _ => _ | None => _ end); [eexists; split_and!; [done..|]; eauto|].
    destruct (fatal a1); [eexists; split_and!; [done..|]; eauto|].
    exists an1. simpl. rewrite app_nil_r. split_and!; [done..|]. rewrite insert_insert_eq. eexists. split; [done|].
    destruct (push_front_ends c a1 j) as [D1 D2]. split; [congruence|]. intros Hok. destruct (C2 Hok) as [C3 C4].
    destruct (D2 C3) as [D3 D4]. split; [done|]. rewrite app_nil_r in C4. rewrite C4, <-D4, <-!app_assoc.
    by rewrite (Permutation_app_comm an1.*1).
  - destruct (e_requeue e) as [j|]; simpl; [|exists []; by rewrite app_nil_r].
    unfold requeue_bind. simpl. rewrite Ha.
    destruct (match q_cancellation j with Some _ => _ | None => _ end); by eexists.
Qed.

(** ** The queues of every actor *)

Definition queues_inv (c : ExecutorConfig) (w : World) : Prop :=
  config (state w) = effective c ∧ map_Forall (λ _, queue_ok (effective c)) (actors (state w)).

Lemma queue_ok_new c ctx : queue_ok (effective c) (actor_new ctx).
Proof.
  constructor; simpl; [eexists; apply holds_new|eexists; split; [apply holds_new|constructor]| |done|].
  - unfold queued_count. simpl. lia.
  - unfold effective. simpl. lia.
Qed.

#[local] Opaque effective.

Lemma queues_same c w w' :
  config (state w') = config (state w) → actors (state w') = actors (state w) → queues_inv c w → queues_inv c w'.
Proof. intros E1 E2 [H1 H2]. split; [congruence|by rewrite E2]. Qed.

Lemma queues_insert c w w' root_id a :
  config (state w') = config (state w) → actors (state w') = <[root_id := a]> (actors (state w)) →
  queue_ok (effective c) a → queues_inv c w → queues_inv c w'.
Proof. intros E1 E2 Ha [H1 H2]. split; [congruence|]. rewrite E2. by apply map_Forall_insert_2. Qed.

Lemma launch_actors w job now :
  let w' := (launch_run_job w job now).2 in
  config (state w') = config (state w) ∧ actors (state w') = actors (state w) ∧
  actor_order (state w') = actor_order (state w) ∧ sent w' = sent w ∧ run_open w' = run_open w.
Proof. destruct w as [[] ? ? ? ? ? [] ? ? ? ?]; by unfold launch_run_job. Qed.

Lemma finish_state w id v message now w' : worker_finish w id v message now = Some w' → state w' = state w.
Proof. by intros (job & e & _ & _ & _ & Hs & _)%worker_finish_ledger. Qed.

Lemma complete_config w cancelled e : config (state (complete_job w cancelled e).2) = config (state w).
Proof.
  destruct (running_jobs (state w) !! e_job_id e) as [g|] eqn:Hg.
  - destruct (complete_job_ledger w cancelled e g Hg) as (L & _). cbv zeta in L.
    generalize dependent (complete_job w cancelled e).2. intros w' L. unfold sched_ledger in L.
    destruct (state w). proj. congruence.
  - unfold complete_job. destruct w. simpl in *. by rewrite Hg.
Qed.

Lemma queues_atom c q w cs w' : queues_inv c w → atom q w cs w' → queues_inv c w'.
Proof.
  intros Hinv Ha. pose proof Hinv as [Hc Hq].
  destruct Ha as [w' Hs|r a a' new answers Hr Hrw|co r|r ctx Hr|r Hquiet|r a p Hr Hi|id v msg now w' Hf
    |cancelled e rest He|r a pass newest now job a' h' Hr Hf Hg Hid Hd Ht|].
  - unfold same_books in Hs. apply (queues_same c w); congruence.
  - apply (queues_insert c w _ r a'); [by destruct w as [[]]..| |done].
    destruct Hrw as (_ & _ & Hrw). rewrite Hc in Hrw. apply Hrw. by eapply Hq.
  - apply (queues_same c w); by destruct w.
  - apply (queues_insert c w _ r (actor_new ctx)); [by destruct w as [[]]..|apply queue_ok_new|done].
  - split; [by destruct w as [[]]|]. unfold drop_actor. destruct w as [[]]; simpl in *. by apply map_Forall_delete.
  - split; [by destruct w as [[]]|]. unfold drop_actor. destruct w as [[]]; simpl in *. by apply map_Forall_delete.
  - apply finish_state in Hf. apply (queues_same c w); congruence.
  - assert (state (set_events w rest) = state w) as Es by (by destruct w). split; [by rewrite complete_config, Es|].
    destruct (running_jobs (state w) !! e_job_id e) as [g|] eqn:Hg.
    + destruct (complete_job_actors (effective c) (set_events w rest) cancelled e g) as (answers & _ & _ & _ & Ha); [by rewrite Es|].
      rewrite Es in Ha. destruct (actors (state w) !! g_root_id g) as [a|] eqn:Ea.
      * destruct Ha as (a' & -> & _ & Hok). apply map_Forall_insert_2; [|done]. apply Hok. by eapply Hq.
      * by destruct Ha as [-> _].
    + assert (actors (state (complete_job (set_events w rest) cancelled e).2) = actors (state w)) as ->; [|done].
      unfold complete_job. destruct w; simpl in *. by rewrite Hg.
  - destruct (launch_actors (set_heavy (set_state w (set_actor (state w) r a')) h') job now) as (L1 & L2 & _).
    apply (queues_insert c w _ r a'); [rewrite L1; by destruct w as [[]]|rewrite L2; by destruct w as [[]]| |done].
    rewrite Hc in Ht. eapply try_admit_admitted; [|done..]. by eapply Hq.
  - split; [by destruct w as [[]]|]. unfold drop_executor. destruct w as [[]]; simpl in *.
    intros r a' (a & <- & Ha)%lookup_fmap_Some. destruct (rw_cancel_maintenance (effective c) a) as (_ & _ & H).
    apply H. by eapply Hq.
Qed.

(** ** The books stay balanced *)

(** The books after a launch. *)
Lemma launch_ledger w job now :
  let w' := (launch_run_job w job now).2 in
  let id := next_job_id (state w) in
  ∃ g, agrees job g ∧
  (idle_workers (state w'), config (state w'), running_jobs (state w'), next_job_id (state w'))
  = (idle_workers (state w) - 1, config (state w), <[id := g]> (running_jobs (state w)), bump_job_id id) ∧
  interactive_inflight (state w') = b2n (is_class Interactive g) + interactive_inflight (state w) ∧
  maintenance_inflight (state w') = b2n (is_class Maintenance g) + maintenance_inflight (state w) ∧
  provider_inflight (state w') = b2n (is_provider g) + provider_inflight (state w) ∧
  binds_inflight (state w') = b2n (is_running_bind g) + binds_inflight (state w) ∧
  heavy w' = heavy w ∧
  (if run_open w
   then dispatched w' = <[id := job]> (dispatched w) ∧ pending (events w') = pending (events w) ∧ closed w' = closed w
   else dispatched w' = dispatched w ∧
        pending (events w') = pending (events w) ++ [MkEvent id (r_heavy_permit job) JobAbandoned None] ∧
        closed w' = closed w ++ [r_completion job]).
Proof.
  destruct w as [[m o cu i ni nm np nb cf rj id br] h d ev an cl ro n ci cm st]. unfold launch_run_job. simpl.
  set (g := MkRunning _ _ _ _ _ _ _). exists g. split; [done|].
  assert (b2n (is_provider g) + np = if decide (r_lane job = ProviderMetadata) then S np else np) as E1.
  { unfold is_provider, g. simpl. case_decide; [by rewrite bool_decide_eq_true_2|by rewrite bool_decide_eq_false_2]. }
  assert (b2n (is_running_bind g) + nb
          = if is_bind_job (r_job_class job) (r_lane job) (r_request_id job) then S nb else nb) as E2.
  { unfold is_running_bind, g. simpl. by destruct (is_bind_job _ _ _). }
  rewrite E1, E2. destruct ro; simpl; split_and!; try done; try (by destruct (r_job_class job));
    unfold post; simpl; by rewrite pending_app.
Qed.

Lemma books_launch c w r a pass newest now job a' h' :
  books c w → queue_ok (effective c) a → pass_guard (state w) pass → (next_job_id (state w) + 1 < 2 ^ 64)%N →
  (∀ jc, pass = ClassPass jc → (JOB_COST ≤ deficit a)%Z) →
  try_admit_actor r a pass (config (state w)) (heavy w) newest now = (Some job, a', h') →
  books c (launch_run_job (set_heavy (set_state w (set_actor (state w) r a')) h') job now).2.
Proof.
  intros [H1 H2 H3 H4 H5 H6 H7 H8 H9 H10 H11 H12 H13 H14 H15 H16] Hq Hg Hid Hd Ht. rewrite H1 in Ht.
  pose proof (try_admit_admitted _ _ _ _ _ _ _ _ _ _ Hq Hd Ht) as Had.
  set (w0 := set_heavy _ h').
  assert (ledger w0 = ledger (set_heavy w h')) as Hl by (unfold w0; by destruct w as [[]]).
  destruct (launch_ledger w0 job now) as (g & Hag & Hs & F1 & F2 & F3 & F4 & F5 & F6).
  set (w' := (launch_run_job w0 job now).2) in *. unfold ledger in Hl.
  assert (run_open w0 = run_open w) as Hro by (unfold w0; by destruct w). clearbody w'. clearbody w0.
  destruct w as [[m o cu i ni nm np nb cf rj id br] h d ev an cl ro n ci cm st]. proj.
  injection Hl as L1 L2 L3 L4 L5 L6 L7 L8 L9 L10 L11. rewrite L1, L6, L7, L8 in *. rewrite L2, L3, L4, L5, L9, L10, L11 in *.
  injection Hs as S1 S2 S3 S4. subst cf. clear L1 L2 L3 L4 L5 L6 L7 L8 L9 L10 L11.
  assert (rj !! id = None) as Hfresh.
  { destruct (rj !! id) eqn:E; [|done]. specialize (H11 id ltac:(by eexists)). lia. }
  assert (∀ p, cnt p (running_jobs (state w')) = b2n (p g) + cnt p rj) as Hcnt by (intros p; rewrite S3; by apply cnt_insert).
  pose proof Hag as (A1 & A2 & A3 & A4).
  assert (is_provider g = bool_decide (pass = ProviderPass)) as Gp.
  { unfold is_provider. rewrite A3. apply bool_decide_ext, Had. }
  assert (pass = BindPass → is_running_bind g = true) as Gb.
  { intros Hp. unfold is_running_bind. rewrite A2, A3, A4. by apply Had. }
  assert (is_running_bind g = true → is_provider g = false) as Gbp.
  { unfold is_running_bind, is_provider. intros ->%bind_lane. done. }
  assert (is_class Maintenance g = bool_decide (pass = ClassPass Maintenance)) as Gm.
  { unfold is_class. rewrite A2, (ad_class _ _ _ _ _ _ _ _ Had). apply bool_decide_ext. by destruct pass as [| | |[]]. }
  pose proof (pass_guard_idle _ _ Hg) as Hi. proj.
  assert (dispatched w' !! id = Some job ∨ id ∈ e_job_id <$> pending (events w')) as Hown.
  { rewrite Hro in F6. destruct ro; destruct F6 as (-> & -> & _).
    - left. apply lookup_insert_eq.
    - right. rewrite fmap_app. apply elem_of_app. right. by left. }
  assert (d !! id = None) as Hdid.
  { destruct (d !! id) as [x|] eqn:E; [|done]. destruct (H12 id x E) as [(y & Hy & _) _]. congruence. }
  assert (∀ e, e ∈ pending ev → e_job_id e ≠ id) as Hpid.
  { intros e He Heq. destruct (H14 e He) as [_ (y & Hy & _)]. congruence. }
  assert (r_heavy_permit job = bool_decide (g_lane g = HeavyInit)) as Hperm by (rewrite A3; apply Had).
  constructor; rewrite ?S1, ?S2, ?Hcnt; try congruence.
  - rewrite S3, map_size_insert_None by done. lia.
  - rewrite F3, Gp. destruct (bool_decide_reflect (pass = ProviderPass)) as [Hp|Hp]; simpl; [|lia]. subst pass. destruct Hg as [_ Hg]. proj. lia.
  - rewrite F2, Gm. destruct (bool_decide_reflect (pass = ClassPass Maintenance)) as [Hp|Hp]; simpl; [|lia]. subst pass. simpl in Hg.
    unfold can_dispatch_class in Hg. proj.
    apply andb_true_iff in Hg as [_ [Hg _]%andb_true_iff]. apply Nat.ltb_lt in Hg. lia.
  - rewrite F3, F4. rewrite Gp in Gbp |- *. destruct (is_running_bind g) eqn:Eb.
    + rewrite (Gbp eq_refl). destruct pass as [| | |jc]; simpl in *; try lia;
        unfold can_dispatch_class in Hg; proj; apply andb_true_iff in Hg as [Hg _];
        apply negb_true_iff, Nat.eqb_neq in Hg; lia.
    + destruct pass as [| | |jc]; simpl in *; [by specialize (Gb eq_refl)|lia|..];
        unfold can_dispatch_class in Hg; proj; apply andb_true_iff in Hg as [Hg _];
        apply negb_true_iff, Nat.eqb_neq in Hg; lia.
  - rewrite S4, bump_next by done. lia.
  - intros x. rewrite S3, S4, bump_next by done. intros Hx. destruct (decide (x = id)) as [->|Hne]; [lia|].
    rewrite lookup_insert_ne in Hx by done. specialize (H11 x Hx). lia.
  - intros x jx Hx. rewrite S3. rewrite Hro in F6. destruct (decide (x = id)) as [->|Hne].
    + rewrite lookup_insert_eq. destruct ro; destruct F6 as (F6 & _); rewrite F6 in Hx; [|congruence].
      rewrite lookup_insert_eq in Hx. injection Hx as <-. split; [by exists g|]. apply Had.
    + rewrite lookup_insert_ne by done. apply H12. destruct ro; destruct F6 as (F6 & _); rewrite F6 in Hx; [|done].
      by rewrite lookup_insert_ne in Hx.
  - rewrite Hro in F6. destruct ro; destruct F6 as (_ & -> & _); [done|]. rewrite fmap_app. apply NoDup_app.
    split_and!; [done| |apply NoDup_singleton]. intros x (e & -> & He)%list_elem_of_fmap Hx.
    apply list_elem_of_singleton in Hx. by apply (Hpid e He).
  - intros e He. rewrite S3. rewrite Hro in F6. assert (e ∈ pending ev ∨ ro = false ∧ e = MkEvent id (r_heavy_permit job) JobAbandoned None) as [He'|[-> ->]].
    { destruct ro; destruct F6 as (_ & F6 & _); rewrite F6 in He; [by left|].
      apply elem_of_app in He as [He|He%list_elem_of_singleton]; auto. }
    + rewrite lookup_insert_ne by (intros Heq; by apply (Hpid e He')). destruct (H14 e He') as [Hn Hy]. split; [|done].
      destruct ro; destruct F6 as (-> & _ & _); [|done]. rewrite lookup_insert_ne; [done|]. intros Heq. by apply (Hpid e He').
    + destruct F6 as (-> & _ & _). simpl. rewrite lookup_insert_eq. split; [done|]. by exists g.
  - intros x Hx. destruct (decide (x = id)) as [->|Hne]; [destruct Hown as [Ho|Ho]; [left; by eexists|by right]|].
    rewrite S3, lookup_insert_ne in Hx by done. rewrite Hro in F6. destruct (H15 x Hx) as [Hy|Hy].
    + left. destruct ro; destruct F6 as (-> & _ & _); [by rewrite lookup_insert_ne|done].
    + right. destruct ro; destruct F6 as (_ & -> & _); [done|]. rewrite fmap_app. apply elem_of_app. by left.
  - rewrite F5. pose proof (ad_heavy _ _ _ _ _ _ _ _ Had) as Hh. rewrite Hro in F6.
    destruct ro; destruct F6 as (-> & -> & _).
    + rewrite cnt_insert by done. lia.
    + rewrite permits_app, permits_one. cbn [e_heavy_permit]. lia.
Qed.

(** ** Reply channels *)

(** The values of a map's entries, gathered. *)
Definition gather {K V} `{Countable K} (f : V → list N) (m : gmap K V) : list N := (map_to_list m).*2 ≫= f.

Lemma gather_insert {K V} `{Countable K} (f : V → list N) (m : gmap K V) i x :
  m !! i = None → gather f (<[i := x]> m) ≡ₚ f x ++ gather f m.
Proof. intros Hi. unfold gather. rewrite map_to_list_insert by done. rewrite fmap_cons, bind_cons. done. Qed.

Lemma gather_delete {K V} `{Countable K} (f : V → list N) (m : gmap K V) i x :
  m !! i = Some x → gather f m ≡ₚ f x ++ gather f (delete i m).
Proof.
  intros Hi. rewrite <-(insert_id m i x) at 1 by done. rewrite <-insert_delete_eq.
  by rewrite gather_insert by apply lookup_delete_eq.
Qed.

Lemma gather_update {K V} `{Countable K} (f : V → list N) (m : gmap K V) i y :
  gather f (<[i := y]> m) ≡ₚ f y ++ gather f (delete i m).
Proof. by rewrite <-insert_delete_eq, gather_insert by apply lookup_delete_eq. Qed.

Lemma gather_fmap {K V} `{Countable K} (f : V → list N) (h : V → V) (k : V → list N) (m : gmap K V) :
  (∀ i x, m !! i = Some x → f x ≡ₚ f (h x) ++ k x) → gather f m ≡ₚ gather f (h <$> m) ++ gather k m.
Proof.
  intros Hf. induction m as [|i x m Hi IH] using map_ind.
  { unfold gather. by rewrite fmap_empty, !map_to_list_empty. }
  rewrite fmap_insert, !gather_insert by (done || by rewrite lookup_fmap, Hi).
  rewrite (Hf i x) by apply lookup_insert_eq.
  rewrite IH by (intros j y Hj; apply (Hf j); rewrite lookup_insert_ne; [done|congruence]).
  rewrite <-!app_assoc. apply Permutation_app_head. rewrite !app_assoc. apply Permutation_app_tail.
  apply Permutation_app_comm.
Qed.

Definition flying (w : World) : list N := gather (λ job, [r_completion job]) (dispatched w).
Definition queued (w : World) : list N := gather queued_completions (actors (state w)).
Definition returning (w : World) : list N := pending (events w) ≫= back_of.

(** The reply channels submitted are the ones queued, with a worker, on their way back, answered
    and dropped. *)
Definition replies (cs : list N) (w : World) : Prop :=
  queued w ++ flying w ++ returning w ++ (sent w).*1 ++ closed w ≡ₚ cs.

(** A change of the five parts, up to their order. *)
Ltac shuffle := rewrite ?fmap_app, ?app_nil_r; solve_Permutation.

Lemma worker_finish_replies w id v message now w' :
  worker_finish w id v message now = Some w' →
  ∃ job e answers, dispatched w !! id = Some job ∧ dispatched w' = delete id (dispatched w) ∧
    pending (events w') = pending (events w) ++ [e] ∧ sent w' = sent w ++ answers ∧ closed w' = closed w ∧
    state w' = state w ∧ answers.*1 ++ back_of e = [r_completion job].
Proof.
  unfold worker_finish. intros (job & Hj & Heq)%bind_Some. exists job. destruct w as [s h d ev a cl ro n ci cm st].
  simpl in *. destruct (run_lane_job job v) as [[response|retry]|]; [|destruct (requeue_as_exclusive job v retry now) as [j|r] eqn:Er|];
    injection Heq as <-; simpl; rewrite pending_app.
  - eexists _, [_]. split_and!; [done..|]. done.
  - eexists _, []. rewrite app_nil_r. split_and!; [done..|].
    unfold requeue_as_exclusive in Er. destruct (_ && _); [done|]. destruct (_ && _); [done|]. injection Er as <-. done.
  - eexists _, [_]. split_and!; [done..|]. done.
  - eexists _, [_]. split_and!; [done..|]. done.
Qed.

Lemma replies_same cs w w' :
  queued w' = queued w → dispatched w' = dispatched w → pending (events w') = pending (events w) →
  sent w' = sent w → closed w' = closed w → replies cs w → replies cs w'.
Proof. unfold replies, flying, returning. intros -> -> -> -> ->. done. Qed.

Lemma replies_actor c cs w root_id a a' new answers :
  queues_inv c w → actors (state w) !! root_id = Some a → rewrites (config (state w)) a a' new answers →
  replies cs w → replies (cs ++ new) (say (set_state w (set_actor (state w) root_id a')) answers).
Proof.
  intros [Hc Hq] Ha (_ & _ & Hrw). unfold replies. intros <-. rewrite Hc in Hrw. destruct (Hrw (Hq _ _ Ha)) as [_ Hp].
  unfold replies, queued, flying, returning. destruct w as [[m o cu i ni nm np nb cf rj id br] h d ev an cl ro n ci cm st]. proj.
  rewrite gather_update, (gather_delete _ m root_id a) by done.
  set (G := gather queued_completions (delete root_id m)). set (F := gather _ d). set (R := pending ev ≫= back_of).
  transitivity ((queued_completions a' ++ answers.*1) ++ (G ++ F ++ R ++ an.*1 ++ cl)); [shuffle|].
  rewrite <-Hp. shuffle.
Qed.

Lemma replies_drop cs w root_id : replies cs w → replies cs (drop_actor w root_id).
Proof.
  unfold replies. intros <-. unfold queued, flying, returning, drop_actor.
  destruct w as [[m o cu i ni nm np nb cf rj id br] h d ev an cl ro n ci cm st]. proj.
  set (F := gather _ d). set (R := pending ev ≫= back_of).
  destruct (m !! root_id) as [a|] eqn:Ha; simpl.
  - rewrite (gather_delete _ m root_id a) by done. set (G := gather _ (delete root_id m)). shuffle.
  - rewrite delete_id by done. by rewrite app_nil_r.
Qed.

Lemma replies_finish cs w id v message now w' :
  worker_finish w id v message now = Some w' → replies cs w → replies cs w'.
Proof.
  intros (job & e & answers & Hj & Hd & Hev & Hs & Hcl & Hst & Hans)%worker_finish_replies. unfold replies. intros <-.
  unfold replies, queued, flying, returning. rewrite Hd, Hev, Hs, Hcl, Hst.
  rewrite (gather_delete _ (dispatched w) id job) by done. rewrite <-Hans.
  set (F := gather _ (delete id (dispatched w))). rewrite bind_app. cbn [mbind list_bind].
  set (R := pending (events w) ≫= back_of). set (Q := gather _ (actors (state w))). shuffle.
Qed.

Lemma replies_complete c cs w cancelled e rest :
  queues_inv c w → books c w → pending (events w) = e :: pending rest → replies cs w →
  replies cs (complete_job (set_events w rest) cancelled e).2.
Proof.
  intros [Hc Hq] Hb He Hr. destruct (b_pending_running c w Hb e) as [_ (g & Hg & _)]; [rewrite He; by left|].
  set (w0 := set_events w rest).
  assert (state w0 = state w ∧ events w0 = rest ∧ dispatched w0 = dispatched w ∧ sent w0 = sent w ∧ closed w0 = closed w)
    as (E1 & E2 & E3 & E4 & E5) by (by destruct w).
  destruct (complete_job_ledger w0 cancelled e g) as (_ & _ & L3 & L4 & _); [by rewrite E1|].
  destruct (complete_job_actors (effective c) w0 cancelled e g) as (answers & S1 & S2 & _ & Ha); [by rewrite E1|].
  rewrite E3 in L3. rewrite E2 in L4. rewrite E4 in S1. rewrite E5 in S2. rewrite E1 in Ha.
  revert Hr. unfold replies, queued, flying, returning. intros <-. rewrite L3, L4, S1, S2, He. clear L3 L4 S1 S2.
  rewrite bind_cons. set (F := gather _ (dispatched w)). set (R := pending rest ≫= back_of).
  destruct (actors (state w) !! g_root_id g) as [a|] eqn:Ea.
  - destruct Ha as (a' & -> & _ & Hok). destruct (Hok (Hq _ _ Ea)) as [_ Hp].
    rewrite gather_update, (gather_delete _ (actors (state w)) (g_root_id g) a) by done.
    set (G := gather _ (delete (g_root_id g) (actors (state w)))).
    transitivity ((queued_completions a' ++ answers.*1) ++ (G ++ F ++ R ++ (sent w).*1 ++ closed w)); [shuffle|].
    rewrite <-Hp. shuffle.
  - destruct Ha as [-> Hans]. rewrite fmap_app, Hans. set (Q := gather _ (actors (state w))). shuffle.
Qed.

Lemma replies_launch c cs w r a pass newest now job a' h' :
  queues_inv c w → actors (state w) !! r = Some a → (∀ jc, pass = ClassPass jc → (JOB_COST ≤ deficit a)%Z) →
  books c w →
  try_admit_actor r a pass (config (state w)) (heavy w) newest now = (Some job, a', h') → replies cs w →
  replies cs (launch_run_job (set_heavy (set_state w (set_actor (state w) r a')) h') job now).2.
Proof.
  intros [Hc Hq] Ha Hd Hb Ht Hr. rewrite Hc in Ht.
  pose proof (ad_completions _ _ _ _ _ _ _ _ (try_admit_admitted _ _ _ _ _ _ _ _ _ _ (Hq _ _ Ha) Hd Ht)) as Hp.
  set (w0 := set_heavy _ h').
  assert (actors (state w0) = <[r := a']> (actors (state w)) ∧ pending (events w0) = pending (events w) ∧
    dispatched w0 = dispatched w ∧ sent w0 = sent w ∧ closed w0 = closed w ∧ next_job_id (state w0) = next_job_id (state w))
    as (E1 & E2 & E3 & E4 & E5 & E6) by (by destruct w as [[]]).
  destruct (launch_actors w0 job now) as (_ & L2 & _ & L4 & _).
  destruct (launch_ledger w0 job now) as (g & _ & _ & _ & _ & _ & _ & _ & F6).
  assert (dispatched w !! next_job_id (state w) = None) as Hfresh.
  { destruct (dispatched w !! _) as [x|] eqn:E; [|done]. destruct (b_dispatched c w Hb _ _ E) as [(y & Hy & _) _].
    specialize (b_ids c w Hb _ ltac:(by eexists)). lia. }
  revert Hr. unfold replies, queued, flying, returning. intros <-. rewrite L2, L4, E1, E4.
  rewrite gather_update, (gather_delete _ (actors (state w)) r a) by done. rewrite Hp.
  set (G := gather _ (delete r (actors (state w)))).
  destruct (run_open w0); destruct F6 as (F6 & F7 & F8); rewrite F6, F7, F8, E2, E3, E5, ?E6.
  - rewrite gather_insert by done. set (F := gather _ (dispatched w)). set (R := pending (events w) ≫= back_of). shuffle.
  - rewrite bind_app. set (F := gather _ (dispatched w)). set (R := pending (events w) ≫= back_of). simpl. shuffle.
Qed.

Lemma replies_drop_executor c cs w : queues_inv c w → replies cs w → replies cs (drop_executor w).
Proof.
  intros [_ Hq]. unfold replies. intros <-. unfold queued, flying, returning, drop_executor.
  destruct w as [[m o cu i ni nm np nb cf rj id br] h d ev an cl ro n ci cm st]. unfold post. proj.
  rewrite pending_app. cbn [pending mbind list_bind app]. rewrite app_nil_r.
  set (answers := (map_to_list m).*2 ≫= _). set (F := gather _ d). set (R := pending ev ≫= back_of).
  rewrite (gather_fmap queued_completions (λ a, set_queues a Maintenance (cancel_queued_jobs (maintenance a)).2)
             (λ a, (cancel_queued_jobs (maintenance a)).1.2.*1) m).
  2:{ intros i' a Ha. destruct (rw_cancel_maintenance (effective c) a) as (_ & _ & H). by apply H, (Hq i'). }
  assert (gather (λ a, (cancel_queued_jobs (maintenance a)).1.2.*1) m = answers.*1) as ->.
  { unfold gather, answers. generalize ((map_to_list m).*2). intros l. induction l as [|a l IH]; [done|].
    rewrite !bind_cons, fmap_app, IH. done. }
  set (Q := gather _ (_ <$> m)). shuffle.
Qed.

(** ** All of it, in every reachable world *)

Record inv (c : ExecutorConfig) (cs : list N) (w : World) : Prop := {
  i_queues : queues_inv c w; i_books : books c w; i_replies : replies cs w; i_open : run_open w = true }.

Lemma inv_new c : inv c [] (world_new c).
Proof.
  split; [split; [done|apply map_Forall_empty]|apply books_new| |].
  2:done. unfold replies, queued, flying, returning, gather. simpl. by rewrite !map_to_list_empty.
Qed.

(** The workers receive as long as the scheduler sends. *)
Lemma open_atom c q w new w' : books c w → run_open w = true → atom q w new w' → run_open w' = true.
Proof.
  intros Hb Hw Ha.
  destruct Ha as [w' Hs|r a a' new answers Hr Hrw|co r|r ctx Hr|r Hquiet|r a p Hr Hp|id v msg now w' Hf
    |cancelled e rest He|r a pass newest now job a' h' Hr Hf Hg Hid Hd Ht|]; try (by destruct w as [[]]).
  - unfold same_books in Hs. congruence.
  - unfold worker_finish in Hf. apply bind_Some in Hf as (job & _ & [= <-]). destruct w.
    destruct (run_lane_job job v) as [[response|retry]|]; [|destruct (requeue_as_exclusive job v retry now)|]; done.
  - destruct (b_pending_running c w Hb e) as [_ (g & Hg & _)]; [rewrite He; by left|].
    destruct (complete_job_actors (effective c) (set_events w rest) cancelled e g) as (answers & _ & _ & Ho & _); [by destruct w|].
    rewrite Ho. by destruct w.
  - destruct (launch_actors (set_heavy (set_state w (set_actor (state w) r a')) h') job now) as (_ & _ & _ & _ & L).
    rewrite L. by destruct w.
Qed.

Lemma books_atom c q w new w' : queues_inv c w → books c w → atom q w new w' → books c w'.
Proof.
  intros [Hc Hq] Hb Ha.
  destruct Ha as [w' Hs|r a a' new answers Hr Hrw|co r|r ctx Hr|r Hquiet|r a p Hr Hi|id v msg now w' Hf
    |cancelled e rest He|r a pass newest now job a' h' Hr Hf Hg Hid Hd Ht|].
  all: try (by apply (books_ledger c w); [destruct w as [[]]|]).
  - apply (books_ledger c w); [by apply same_books_ledger|done].
  - by eapply books_finish.
  - by apply books_complete.
  - eapply books_launch; eauto.
  - apply (books_ledger c w); [|done]. destruct w as [[]]. unfold ledger, drop_executor, post. proj.
    rewrite pending_app. cbn [pending mbind list_bind app]. by rewrite app_nil_r.
Qed.

Lemma inv_atom c q cs w new w' : inv c cs w → atom q w new w' → inv c (cs ++ new) w'.
Proof.
  intros [Hq Hb Hr Ho] Ha. constructor; [by eapply queues_atom|by eapply books_atom| |by eapply open_atom].
  destruct Ha as [w' Hs|r a a' new answers Ha Hrw|co r|r ctx Ha|r Hquiet|r a p Ha Hi|id v msg now w' Hf
    |cancelled e rest He|r a pass newest now job a' h' Ha Hf Hg Hid Hd Ht|]; rewrite ?app_nil_r.
  - unfold same_books in Hs. apply (replies_same cs w); unfold queued; congruence.
  - by eapply replies_actor.
  - revert Hr. unfold replies. intros <-. unfold queued, flying, returning. destruct w. proj. shuffle.
  - revert Hr. unfold replies. intros <-. unfold queued, flying, returning. destruct w as [[]]. proj.
    by rewrite gather_insert by done.
  - by apply replies_drop.
  - by apply replies_drop.
  - by eapply replies_finish.
  - by eapply replies_complete.
  - by eapply replies_launch.
  - by eapply replies_drop_executor.
Qed.

Lemma inv_atoms c q cs w new w' : inv c cs w → atoms q w new w' → inv c (cs ++ new) w'.
Proof. intros Hi Ha. apply (atoms_preserve q (inv c) w new w'); [|done|done]. intros. by eapply inv_atom. Qed.

(** The next id, which only launches change. *)
Lemma complete_next w cancelled e : next_job_id (state (complete_job w cancelled e).2) = next_job_id (state w).
Proof.
  destruct (running_jobs (state w) !! e_job_id e) as [g|] eqn:Hg.
  - destruct (complete_job_ledger w cancelled e g Hg) as (L & _). cbv zeta in L.
    generalize dependent (complete_job w cancelled e).2. intros w' L. unfold sched_ledger in L.
    destruct (state w). proj. congruence.
  - unfold complete_job. destruct w. simpl in *. by rewrite Hg.
Qed.

Lemma process_event_atoms q w cancelled e :
  atoms q (set_events w (e :: events w)) [] (process_scheduler_event w cancelled e).2 ∧
  next_job_id (state (process_scheduler_event w cancelled e).2) = next_job_id (state w).
Proof.
  destruct e as [|e|]; simpl.
  - split; [|done]. apply atoms_books. by destruct w.
  - assert (atoms q (set_events w (Completed e :: events w)) [] (complete_job w cancelled e).2) as Ha.
    { apply atoms_one. assert (w = set_events (set_events w (Completed e :: events w)) (events w)) as Hw by (by destruct w).
      rewrite Hw at 3. apply atom_complete. by destruct w. }
    pose proof (complete_next w cancelled e) as Hn.
    destruct (complete_job w cancelled e) as [[jc|] w1]; simpl in *; [|done]. split.
    + eapply atoms_trans; [done|]. apply atoms_books. by destruct w1, jc.
    + rewrite <-Hn. by destruct w1, jc.
  - split; [|done]. apply atoms_books. by destruct w.
Qed.

Lemma process_batch_atoms q n w cancelled :
  atoms q w [] (process_batch n w cancelled None).2 ∧
  next_job_id (state (process_batch n w cancelled None).2) = next_job_id (state w).
Proof.
  revert w. induction n as [|n IH]; intros w; simpl; [split; [constructor|done]|].
  destruct (events w) as [|e rest] eqn:He; [split; [constructor|done]|].
  destruct (process_event_atoms q (set_events w rest) cancelled e) as [H1 H2].
  assert (set_events (set_events w rest) (e :: events (set_events w rest)) = w) as Hw by (destruct w; simpl in *; by subst).
  rewrite Hw in H1. assert (state (set_events w rest) = state w) as Hs by (by destruct w). rewrite Hs in H2.
  destruct (process_scheduler_event (set_events w rest) cancelled e) as [stop w1]. simpl in *.
  destruct stop; [done|]. destruct (IH w1) as [H3 H4]. split; [by eapply atoms_trans|congruence].
Qed.

Lemma process_first_atoms q n w cancelled e :
  atoms q (set_events w (e :: events w)) [] (process_batch (S n) w cancelled (Some e)).2 ∧
  next_job_id (state (process_batch (S n) w cancelled (Some e)).2) = next_job_id (state w).
Proof.
  simpl. destruct (process_event_atoms q w cancelled e) as [H1 H2].
  destruct (process_scheduler_event w cancelled e) as [stop w1]. simpl in *. destruct stop; [done|].
  destruct (process_batch_atoms q n w1 cancelled) as [H3 H4]. split; [by eapply atoms_trans|congruence].
Qed.

Lemma turn_atoms q c cs w due cancelled now w' :
  inv c cs w → ids_left w → scheduler_turn w due cancelled now = Some w' → atoms q w [] w'.
Proof.
  intros Hi Hids. unfold scheduler_turn. destruct (stopped w); [done|].
  assert (∀ w0 e, inv c cs (set_events w0 (e :: events w0)) → next_job_id (state w0) = next_job_id (state w) →
    atoms q (set_events w0 (e :: events w0)) [] (turn_body w0 cancelled now e)) as Hrun.
  { intros w0 e Hi0 Hn0. unfold turn_body.
    destruct (process_first_atoms q (SCHEDULER_EVENT_BATCH_CAP - 1) w0 cancelled e) as [H1 H2].
    change (S (SCHEDULER_EVENT_BATCH_CAP - 1)) with SCHEDULER_EVENT_BATCH_CAP in H1, H2.
    destruct (process_batch SCHEDULER_EVENT_BATCH_CAP w0 cancelled (Some e)) as [stop w1]. simpl in H1, H2.
    pose proof (inv_atoms c q cs _ _ _ Hi0 H1) as [[Hc1 _] Hb1 _ _].
    assert (atoms q w1 [] (if stop then w1 else dispatch_runnable w1 now)) as H3.
    { destruct stop; [constructor|]. destruct (dispatch_loop_launches q c now (S (idle_workers (state w1))) w1) as [m Hl].
      - split; [done|]. pose proof (b_total c w1 Hb1) as Ht. unfold ids_left in Hids.
        rewrite (proj1 (i_queues c cs w Hi)) in Hids. lia.
      - apply Hl. }
    set (w2 := if stop then w1 else _) in *. eapply atoms_trans; [done|]. eapply atoms_trans; [done|].
    apply atoms_books. clearbody w2. unfold next_bind_retry_at.
    destruct (bind_retry_pending (state w2)), stop; by destruct w2 as [[]]. }
  destruct (events w) as [|e rest] eqn:He.
  - destruct due; [|done]. intros [= <-]. eapply atoms_trans; [|apply (Hrun w Wake)].
    + apply atoms_books. by destruct w.
    + destruct (app_nil_r cs). apply (inv_atom c q cs w []); [done|]. apply atom_books. by destruct w.
    + done.
  - intros [= <-]. assert (set_events (set_events w rest) (e :: events (set_events w rest)) = w) as Hw
      by (destruct w; simpl in *; by subst).
    rewrite <-Hw at 1. apply Hrun; [by rewrite Hw|by destruct w].
Qed.

Lemma settle_atoms (q : World → str → Prop) w r t w' : settle_queued w r t = Some w' → atoms q w [] w'.
Proof.
  unfold settle_queued. intros (a & Ha & Hs)%bind_Some. destruct (remove_queued_cancellable a t) as [o a'] eqn:E.
  apply bind_Some in Hs as (j & -> & [= <-]). apply atoms_then_wake, atoms_one. eapply atom_actor; [done|].
  by eapply rw_settle.
Qed.

(** Every operation is a sequence of elementary changes. *)
Lemma exec_atoms (q : World → str → Prop) c cs w op w' :
  inv c cs w → ids_left w → (∀ r, op = RemoveActor r → q w r) → exec w op = Some w' →
  atoms q w (submitted op) w'.
Proof.
  intros Hi Hids Hq Hex. destruct op as [u r jc l id cmd job co tok ft key rr now|r ctx|r|p r|r|r|r|o r t|won r t|id v msg now|due cancelled now|];
    simpl in *; try injection Hex as <-.
  - apply submit_atoms.
  - unfold register_actor. destruct (actors (state w) !! r) eqn:Ha; simpl; apply atoms_then_wake; [constructor|].
    by apply atoms_one, atom_register.
  - apply atoms_then_wake, atoms_one, atom_remove. by apply Hq.
  - unfold retire_idle_actor. destruct (actors (state w) !! r) as [a|] eqn:Ha; [|constructor].
    destruct (is_idle p a) eqn:E; [|constructor]. apply atoms_then_wake, atoms_one. by eapply atom_retire.
  - unfold cancel_queued_maintenance. destruct (actors (state w) !! r) as [a|] eqn:Ha; [|constructor].
    pose proof (rw_cancel_maintenance (config (state w)) a) as Hrw.
    destruct (cancel_queued_jobs (maintenance a)) as [[n answers] cq]. cbn [fst snd] in *.
    destruct (0 <? n); [apply atoms_then_wake|]; by eapply atoms_one, atom_actor.
  - unfold cancel_queued_root_maintenance, cancel_root_queues. destruct (actors (state w) !! r) as [a|] eqn:Ha;
      [|apply atoms_then_wake; constructor].
    pose proof (rw_cancel_root_work (config (state w)) a) as Hrw.
    destruct (cancel_queued_root_work a) as [[n answers] a']. simpl in *. apply atoms_then_wake. by eapply atoms_one, atom_actor.
  - unfold cancel_root_maintenance, cancel_root_queues. destruct (actors (state w) !! r) as [a|] eqn:Ha;
      [|apply atoms_then_wake; constructor].
    pose proof (rw_cancel_root_work (config (state w)) a) as Hrw.
    destruct (cancel_queued_root_work a) as [[n answers] a']. simpl in *. apply atoms_then_wake. by eapply atoms_one, atom_actor.
  - unfold cancel_job. destruct (settle_queued w r t) as [w1|] eqn:E; [|constructor]. by eapply settle_atoms.
  - unfold cancel_job_before_execution. destruct won; [|constructor].
    destruct (settle_queued w r t) as [w1|] eqn:E; [|constructor]. by eapply settle_atoms.
  - by eapply atoms_one, atom_finish.
  - by eapply turn_atoms.
  - apply atoms_one, atom_drop_executor.
Qed.

Lemma world_inv q c cs w : reachable q c cs w → inv c cs w.
Proof.
  induction 1 as [|cs w op w' _ IH Hex Hq Hids _]; [apply inv_new|]. eapply inv_atoms; [done|].
  by eapply (exec_atoms q).
Qed.

(** A property of worlds that every elementary change keeps. *)
Lemma reachable_atoms q c (P : World → Prop) :
  P (world_new c) → (∀ cs w new w', inv c cs w → P w → atom q w new w' → P w') →
  ∀ cs w, reachable q c cs w → P w.
Proof.
  intros Hnew Hstep cs w Hr. induction Hr as [|cs w op w' Hr IH Hex Hq Hids _]; [done|].
  pose proof (world_inv q c cs w Hr) as Hi. pose proof (exec_atoms q c cs w op w' Hi Hids Hq Hex) as Ha.
  clear Hr Hex Hq Hids. revert cs Hi IH. induction Ha as [w|w n1 w1 n2 w2 H1 _ IH]; intros cs Hi Hp; [done|].
  eapply (IH (cs ++ n1)); [by eapply inv_atom|]. by eapply Hstep.
Qed.

End SchedulerInv.
