(* ===== verification/SchedulerSafety.v ===== *)
(** * The scheduler's promises

    The counters the code asserts, the workers it reserves, one answer per job, and writers that
    have their root to themselves. *)

From S2P Require Import Prelude RustStr ClassQueues JobCancel Scheduler SchedulerSpec SchedulerInv.
Import ClassQueues Scheduler SchedulerSpec SchedulerInv.

Module SchedulerSafety.

#[local] Opaque MAINTENANCE_QUEUE_CAP.

(** ** Configuration *)

(** whatever the configuration asks for, the executor runs with sane bounds: at least one
    worker of the general pool stays free of heavy jobs, an actor never takes the whole pool,
    the workers kept for interactive work and the cap on maintenance share out the pool, and
    the reserved workers come on top. *)
Theorem effective_bounds c :
  let e := effective c in
  (2 ≤ pool_size e ≤ 8 ∧ 1 ≤ actor_cap e < pool_size e ∧ 1 ≤ read_cap e ≤ actor_cap e ∧ read_cap e ≤ 4) ∧
  (1 ≤ heavy_permits e < pool_size e ∧ heavy_permits e ≤ 3) ∧
  (1 ≤ maintenance_cap e ∧ 1 ≤ interactive_reserve e ∧ maintenance_cap e + interactive_reserve e = pool_size e) ∧
  (1 ≤ drr_quantum e ∧ deficit_cap e = 4 * Z.of_nat (actor_cap e))%Z ∧
  total_workers e = pool_size e + 4 ∧ 6 ≤ total_workers e ≤ 12.
Proof.
  unfold effective, total_workers, clamp, BIND_RESERVE_WORKERS, PROVIDER_RESERVE_WORKERS.
  cbn [pool_size read_cap actor_cap heavy_permits drr_quantum deficit_cap interactive_reserve maintenance_cap
       bind_reserve provider_reserve].
  set (p := Nat.min (Nat.max (c_pool_size c) 2) 8). assert (2 ≤ p ≤ 8) as Hp by lia.
  destruct (Nat.leb_spec 4 p); split_and!; lia.
Qed.

(** ** The asserted counters *)

Lemma cnt_list {K V} `{Countable K} (p : V → bool) (P : V → Prop) `{∀ x, Decision (P x)} (m : gmap K V) :
  (∀ x, p x = true ↔ P x) → length (filter P (map_to_list m).*2) = cnt p m.
Proof.
  intros Hp. induction m as [|i x m Hi IH] using map_ind; [by rewrite map_to_list_empty, cnt_empty|].
  rewrite cnt_insert, <-IH by done. rewrite map_to_list_insert by done.
  rewrite fmap_cons, filter_cons. specialize (Hp x). destruct (p x); case_decide; simpl; first [done|exfalso; intuition congruence].
Qed.

Lemma owned_pending id l :
  existsb (λ e, match e with Completed e => (e_job_id e =? id)%N | _ => false end) l = true
  ↔ id ∈ e_job_id <$> pending l.
Proof.
  rewrite existsb_elem_of. unfold pending. rewrite list_elem_of_fmap. split.
  - intros ([|e|] & He & Hid); try done. apply N.eqb_eq in Hid. exists e. split; [done|].
    apply list_elem_of_bind. exists (Completed e). split; [by left|done].
  - intros (e & -> & (x & Hx & Hl)%list_elem_of_bind). exists x. split; [done|].
    destruct x as [|y|]; try (by apply not_elem_of_nil in Hx). apply list_elem_of_singleton in Hx as ->. apply N.eqb_refl.
Qed.

Lemma books_asserts c w : books c w → assert_running_invariants w = true.
Proof.
  intros [H1 H2 H3 H4 H5 H6 H7 _ _ _ _ _ _ _ H15 _]. unfold assert_running_invariants.
  rewrite (cnt_list (is_class Interactive)) by (intros g; apply bool_decide_eq_true).
  rewrite (cnt_list (is_class Maintenance)) by (intros g; apply bool_decide_eq_true).
  rewrite (cnt_list is_running_bind) by done.
  rewrite (cnt_list is_provider) by (intros g; apply bool_decide_eq_true).
  rewrite !andb_true_iff, !Nat.eqb_eq, Nat.leb_le, H1. split_and!; try done.
  apply forallb_elem_of. intros id ([i g] & -> & Hin%elem_of_map_to_list)%list_elem_of_fmap.
  apply orb_true_iff. rewrite bool_decide_eq_true, owned_pending. apply H15. by eexists.
Qed.

Definition is_heavy (g : RunningJob) : bool := bool_decide (g_lane g = HeavyInit).

(** A job in [HeavyInit] holds a permit, with its worker or in its completion event. *)
Lemma heavy_bound c w : books c w → cnt is_heavy (running_jobs (state w)) ≤ heavy_permits (effective c).
Proof.
  intros [H1 H2 H3 H4 H5 H6 H7 H8 H9 H10 H11 H12 H13 H14 H15 H16]. rewrite <-H16.
  enough (cnt is_heavy (running_jobs (state w)) ≤ cnt r_heavy_permit (dispatched w) + permits (pending (events w))) by lia.
  clear H2 H3 H4 H5 H6 H7 H8 H9 H10 H11 H16. revert H12 H13 H14 H15.
  generalize (pending (events w)) (dispatched w) (running_jobs (state w)). intros l. induction l as [|e l IH]; intros d m H12 H13 H14 H15.
  - assert (∀ id g, m !! id = Some g → ∃ job, d !! id = Some job ∧ agrees job g ∧ r_heavy_permit job = is_heavy g) as Hall.
    { intros id g Hg. destruct (H15 id ltac:(by eexists)) as [[job Hj]|Hn]; [|by apply not_elem_of_nil in Hn].
      exists job. destruct (H12 id job Hj) as [(g' & Hg' & Hag) Hp]. simplify_eq. split_and!; [done..|].
      destruct Hag as (_ & _ & Hl & _). unfold is_heavy. by rewrite Hl, Hp. }
    clear H12 H13 H14 H15. unfold permits, total. simpl. rewrite Nat.add_0_r. revert d Hall.
    induction m as [|i g m Hi IH] using map_ind; intros d Hall; [rewrite cnt_empty; lia|].
    destruct (Hall i g) as (job & Hj & _ & Hp); [apply lookup_insert_eq|].
    rewrite cnt_insert, (cnt_delete _ d i job), Hp by done. apply Nat.add_le_mono_l, IH.
    intros id g' Hg'. assert (id ≠ i) by congruence. rewrite lookup_delete_ne by done. apply Hall. by rewrite lookup_insert_ne.
  - destruct (H14 e ltac:(left)) as [Hd (g & Hg & Hp)]. apply NoDup_cons in H13 as [Hnew H13].
    rewrite permits_cons, (cnt_delete _ m _ g), Hp by done. fold (is_heavy g).
    enough (cnt is_heavy (delete (e_job_id e) m) ≤ cnt r_heavy_permit d + permits l) by lia.
    apply IH; [|done|..].
    + intros id job Hj. destruct (H12 id job Hj) as [(g' & Hg' & Hag) Hp']. split; [|done]. exists g'.
      rewrite lookup_delete_ne; [done|]. intros <-. congruence.
    + intros e' He'. destruct (H14 e' ltac:(by right)) as [Hn (g' & Hg' & Hp')]. split; [done|]. exists g'.
      rewrite lookup_delete_ne; [done|]. intros Heq. apply Hnew. rewrite Heq. by apply list_elem_of_fmap_2.
    + intros id [Hne Hid]%lookup_delete_is_Some. destruct (H15 id Hid) as [Hx|Hx]; [by left|].
      apply elem_of_cons in Hx as [->|Hx]; [done|by right].
Qed.

(** C33: the scheduler's books always balance: the debug assertions on the counters hold; a
    reserved worker is idle for every bind or provider slot not in use, so that general work
    never takes one; maintenance, heavy and provider jobs stay within their caps; and an
    actor's maintenance backlog within its own. *)
Theorem scheduler_books_balance q c cs w :
  reachable q c cs w →
  let s := state w in
  let e := effective c in
  assert_running_invariants w = true ∧
  (bind_reserve e - binds_inflight s) + (provider_reserve e - provider_inflight s) ≤ idle_workers s ∧
  maintenance_inflight s ≤ maintenance_cap e ∧
  cnt is_heavy (running_jobs s) ≤ heavy_permits e ∧
  (∀ r a, actors s !! r = Some a →
     queued_count (maintenance a) ≤ MAINTENANCE_QUEUE_CAP ∧ (0 ≤ deficit a ≤ deficit_cap e)%Z).
Proof.
  intros [[_ Hq] Hb _ _]%world_inv. split_and!; [by eapply books_asserts|apply Hb|apply Hb|by apply heavy_bound|].
  intros r a Ha. destruct (Hq r a Ha) as [_ _ H3 _ H5]. done.
Qed.

(** ** One answer per job *)

Lemma idle_completions c p a : queue_ok c a → is_idle p a = true → queued_completions a = [].
Proof.
  intros Hok [[_ Hq]%andb_true_iff _]%andb_true_iff. apply negb_true_iff, orb_false_iff in Hq as [Hi Hm].
  destruct (qok_interactive c a Hok) as [li H1]. destruct (qok_maintenance c a Hok) as (lm & H2 & _).
  assert (∀ cq l, holds cq l → has_queued_jobs cq = false → completions cq = []) as Hnil.
  { intros cq l Hh Hn. unfold has_queued_jobs in Hn. apply negb_false_iff, bool_decide_eq_true in Hn.
    pose proof (completions_holds cq l Hh) as Hp. destruct Hh as [Ho _]. rewrite Hn in Ho.
    destruct l; [|done]. by apply Permutation_nil_r in Hp. }
  rewrite queued_completions_split. by rewrite (Hnil _ li H1 Hi), (Hnil _ lm H2 Hm).
Qed.

(** Without removals no channel is dropped. *)
Lemma nothing_closed c cs w : reachable (λ _ _, False) c cs w → closed w = [].
Proof.
  revert cs w. apply (reachable_atoms _ c (λ w, closed w = [])); [done|]. intros cs w new w' Hi Hw Ha.
  destruct Ha as [w' Hs|r a a' new answers Hr Hrw|co r|r ctx Hr|r []|r a p Hr Hp|id v msg now w' Hf
    |cancelled e rest He|r a pass newest now job a' h' Hr Hf Hg Hid Hd Ht|]; try (by destruct w as [[]]).
  - unfold same_books in Hs. congruence.
  - pose proof (idle_completions _ p a (proj2 (i_queues _ _ _ Hi) r a Hr) Hp) as Hn. unfold drop_actor.
    destruct w as [[]]; simpl in *. rewrite Hr. simpl. by rewrite Hn, Hw.
  - apply worker_finish_replies in Hf as (job & e & answers & _ & _ & _ & _ & -> & _). done.
  - destruct (b_pending_running c w (i_books _ _ _ Hi) e) as [_ (g & Hg & _)]; [rewrite He; by left|].
    destruct (complete_job_actors (effective c) (set_events w rest) cancelled e g) as (answers & _ & Hc & _ & _); [by destruct w|].
    rewrite Hc. by destruct w.
  - destruct (launch_ledger (set_heavy (set_state w (set_actor (state w) r a')) h') job now)
      as (g & _ & _ & _ & _ & _ & _ & _ & L).
    assert (run_open (set_heavy (set_state w (set_actor (state w) r a')) h') = true) as Ho
      by (rewrite <-(i_open _ _ _ Hi); by destruct w).
    rewrite Ho in L. destruct L as (_ & _ & ->). by destruct w.
Qed.

(** The reply channels of the jobs that wait for an answer. *)
Definition unanswered (w : World) : list N := queued w ++ flying w ++ returning w.

(** C31: every job is answered exactly once.  At any time the reply channels ever submitted are
    exactly those queued with an actor, running on a worker, on their way back to a queue,
    answered, or dropped with a removed actor, each once; so no channel is answered twice, and
    when nothing is queued or in flight every channel was answered or dropped.  As long as no
    actor is removed, none is dropped. *)
Theorem every_job_answered_once q c cs w :
  reachable q c cs w →
  unanswered w ++ (sent w).*1 ++ closed w ≡ₚ cs ∧
  NoDup (sent w).*1 ∧
  (unanswered w = [] → ∀ x, x ∈ cs → x ∈ (sent w).*1 ∨ x ∈ closed w) ∧
  (reachable (λ _ _, False) c cs w → closed w = []).
Proof.
  intros Hr. pose proof (world_inv q c cs w Hr) as [_ _ Hrep _].
  assert (NoDup cs) as Hnd by (destruct Hr; [constructor|done]). unfold replies in Hrep.
  assert (unanswered w ++ (sent w).*1 ++ closed w ≡ₚ cs) as Hall by (unfold unanswered; by rewrite <-!app_assoc).
  split_and!; [done| | |apply nothing_closed].
  - rewrite <-Hall in Hnd. apply NoDup_app in Hnd as (_ & _ & Hnd). by apply NoDup_app in Hnd as (Hnd & _).
  - intros E x Hx. rewrite E in Hall. rewrite <-Hall in Hx. cbn [app] in Hx. by apply elem_of_app in Hx.
Qed.

(** ** What runs on one root *)

Definition on_lane (r : str) (lane : Lane) (g : RunningJob) : bool := on_root r g && bool_decide (g_lane g = lane).
Definition on_acquisition (r : str) (g : RunningJob) : bool := on_root r g && acquisition_of g.

(** An actor's counters are the counts of its running jobs. *)
Record counted (r : str) (a : ActorState) (m : gmap N RunningJob) : Prop := {
  n_total : actor_total_inflight a = cnt (on_root r) m;
  n_read : read_inflight a = cnt (on_lane r PureRead) m;
  n_lsp : b2n (lsp_inflight a) = cnt (on_lane r SerialLspStatus) m;
  n_writer : b2n (writer_inflight a) = cnt (on_lane r Mutating) m;
  n_commit : b2n (maintenance_commit_inflight a) = cnt (on_lane r MaintenanceCommit) m;
  n_acquisition : b2n (callgraph_acquisition_inflight a) = cnt (on_acquisition r) m;
  n_provider : b2n (actor_provider_inflight a) = cnt (on_lane r ProviderMetadata) m;
  n_ledger : b2n (call_ledger_inflight a) = cnt (on_lane r CallLedger) m }.

(** A writer that does not share has no reader beside it. *)
Definition exclusive (a : ActorState) : Prop :=
  writer_inflight a = true → shared_bind_inflight a = false → has_epoch_reader a = false.

Record actor_ok (c : EffectiveConfig) (r : str) (a : ActorState) (m : gmap N RunningJob) : Prop := {
  o_counted : counted r a m; o_exclusive : exclusive a; o_reads : read_inflight a ≤ read_cap c }.

(** The invariant of worlds in which actors are removed only when quiet. *)
Record roots_ok (c : ExecutorConfig) (w : World) : Prop := {
  k_actors : ∀ r a, actors (state w) !! r = Some a → actor_ok (effective c) r a (running_jobs (state w));
  k_absent : ∀ r, actors (state w) !! r = None → cnt (on_root r) (running_jobs (state w)) = 0;
  k_shared : ∀ id job, dispatched w !! id = Some job → r_lane job = Mutating →
    ∃ a, actors (state w) !! r_root_id job = Some a ∧ shared_bind_inflight a = r_shared_bind_gate job }.

Lemma actor_ok_counters c r a a' m : counters a' = counters a → actor_ok c r a m → actor_ok c r a' m.
Proof.
  unfold counters. intros Heq [[H1 H2 H3 H4 H5 H6 H7 H8] H9 H10].
  injection Heq as E1 E2 E3 E4 E5 E6 E7 E8 E9. constructor; [constructor; congruence| |congruence].
  unfold exclusive, has_epoch_reader in *. by rewrite E1, E2, E4, E5, E6.
Qed.

Lemma counters_shared a a' : counters a' = counters a → shared_bind_inflight a' = shared_bind_inflight a.
Proof. unfold counters. intros Heq. by injection Heq. Qed.

Lemma on_lane_root r lane (m : gmap N RunningJob) : cnt (on_root r) m = 0 → cnt (on_lane r lane) m = 0.
Proof.
  intros Hz. assert (cnt (on_lane r lane) m ≤ cnt (on_root r) m); [|lia]. apply cnt_mono.
  intros g [Hg _]%andb_true_iff. done.
Qed.

Lemma actor_ok_new c r ctx m : cnt (on_root r) m = 0 → actor_ok (effective c) r (actor_new ctx) m.
Proof.
  intros Hz. constructor; [|done|simpl; lia]. constructor; simpl; rewrite ?on_lane_root by done; try done.
  assert (cnt (on_acquisition r) m ≤ cnt (on_root r) m); [|lia]. apply cnt_mono. by intros g [Hg _]%andb_true_iff.
Qed.

(** Jobs of other roots do not count. *)
Lemma actor_ok_other c r a m m' :
  (∀ p, (∀ g, p g = true → on_root r g = true) → cnt p m' = cnt p m) → actor_ok c r a m → actor_ok c r a m'.
Proof.
  intros Hp [[H1 H2 H3 H4 H5 H6 H7 H8] H9 H10].
  assert (∀ lane, cnt (on_lane r lane) m' = cnt (on_lane r lane) m) as Hl.
  { intros lane. apply Hp. by intros g [Hg _]%andb_true_iff. }
  assert (cnt (on_acquisition r) m' = cnt (on_acquisition r) m) as Ha by (apply Hp; by intros g [Hg _]%andb_true_iff).
  constructor; [constructor; rewrite ?Hl, ?Ha, ?Hp; done|done|done].
Qed.

Lemma cnt_other (p : RunningJob → bool) (m : gmap N RunningJob) id g :
  p g = false → m !! id = Some g → cnt p (delete id m) = cnt p m.
Proof. intros Hp Hg. by rewrite (cnt_delete p m id g), Hp. Qed.

Lemma acquisition_lane g : acquisition_of g = true → g_lane g = HeavyInit.
Proof.
  unfold acquisition_of, is_callgraph_acquisition. intros [[_ Hl%bool_decide_eq_true]%andb_true_iff _]%andb_true_iff. done.
Qed.

(** The counters when a job of the root ends. *)
Lemma ended_ok c r a m id g :
  actor_ok c r a m → m !! id = Some g → g_root_id g = r →
  actor_ok c r (mark_ended a (g_lane g) (acquisition_of g)) (delete id m).
Proof.
  intros [[H1 H2 H3 H4 H5 H6 H7 H8] H9 H10] Hg Hr.
  assert (on_root r g = true) as Hon by (by apply bool_decide_eq_true).
  pose proof (λ p, cnt_delete p m id g Hg) as Hc.
  assert (∀ l, on_lane r l g = bool_decide (g_lane g = l)) as Hl by (intros l; unfold on_lane; by rewrite Hon).
  assert (on_acquisition r g = acquisition_of g) as Ha by (unfold on_acquisition; by rewrite Hon).
  rewrite Hc in H1, H2, H3, H4, H5, H6, H7, H8. rewrite Hon in H1. rewrite Hl in H2, H3, H4, H5, H7, H8. rewrite Ha in H6.
  pose proof (acquisition_lane g) as Hacq. clear Hl Ha Hon Hr Hg Hc.
  destruct a as [ctx ri li ti wi si mi gi pi ki mj ra de qi qm fa ww]; unfold exclusive, has_epoch_reader in H9; simpl in *.
  revert H2 H3 H4 H5 H6 H7 H8 Hacq.
  destruct (g_lane g), (acquisition_of g); simpl; intros; try (by specialize (Hacq eq_refl));
    (constructor; unfold exclusive, has_epoch_reader; simpl; [constructor; simpl|..]);
    try done; try lia; try (by destruct li, wi, mi, gi, pi, ki; simpl in *; lia).
  all: intros Hw Hs; specialize (H9 Hw Hs); apply orb_false_iff in H9 as [[Hz ->]%orb_false_iff Hz'];
    rewrite ?Hz, ?Hz'; try done.
Qed.

(** What the admission of a lane says of the actor. *)
Lemma runnable_free a pass lane c h h' :
  runnable a pass lane c h = Some h' → writer_blocks a (pass_class pass) lane = false →
  match lane with
  | PureRead => read_inflight a < read_cap c
  | SerialLspStatus => lsp_inflight a = false
  | HeavyInit => callgraph_next a (pass_class pass) lane = true → callgraph_acquisition_inflight a = false
  | Mutating => writer_inflight a = false ∧ (bind_may_share a pass && has_epoch_reader a = false → has_epoch_reader a = false)
  | MaintenanceCommit => maintenance_commit_inflight a = false ∧ writer_inflight a = false
  | ProviderMetadata => actor_provider_inflight a = false
  | CallLedger => call_ledger_inflight a = false
  end ∧
  (lane ∈ [PureRead; SerialLspStatus; MaintenanceCommit] → writer_inflight a = true → shared_bind_inflight a = true).
Proof.
  unfold runnable, writer_blocks. intros Hr Hw.
  assert (lane ∉ [ProviderMetadata; CallLedger] →
    writer_inflight a = true → shared_bind_inflight a = true ∧ lane ∈ [PureRead; SerialLspStatus; HeavyInit]) as Hsh.
  { intros Hl Hwr. rewrite bool_decide_eq_true_2 in Hw by done. rewrite Hwr in Hw. simpl in Hw.
    apply orb_false_iff in Hw as [Hw%negb_false_iff _]. apply andb_true_iff in Hw as [H1 H2%bool_decide_eq_true]. done. }
  assert (lane = Mutating ∨ lane = MaintenanceCommit → writer_inflight a = false) as Hno.
  { intros [-> | ->]; (destruct (writer_inflight a) eqn:E; [|done]; exfalso;
      destruct Hsh as [_ Hin]; [by_compute|done|revert Hin; by_compute]). }
  split.
  - destruct lane.
    + destruct (_ && _) eqn:E; [|done]. apply andb_true_iff in E as [E _]. by apply Nat.ltb_lt in E.
    + destruct (_ && _) eqn:E; [|done]. apply andb_true_iff in E as [E _]. by apply negb_true_iff in E.
    + intros Hcg. rewrite Hcg in Hr. by destruct (callgraph_acquisition_inflight a).
    + split; [apply Hno; by left|]. destruct (bind_may_share a pass); simpl; [done|]. intros _. simpl in Hr.
      destruct (has_epoch_reader a); [done|]. done.
    + destruct (maintenance_commit_inflight a) eqn:E; [done|]. split; [done|]. apply Hno. by right.
    + by destruct (actor_provider_inflight a).
    + by destruct (call_ledger_inflight a).
  - intros Hl Hwr. apply Hsh; [|done]. intros Hx. repeat (apply elem_of_cons in Hl as [->|Hl]); try (revert Hx; by_compute).
    by apply not_elem_of_nil in Hl.
Qed.

(** The counters when a job of the root starts. *)
Lemma started_ok c r a m pass h job a' h' id g :
  admitted c r a pass h job a' h' → agrees job g → m !! id = None →
  actor_ok c r a m → actor_ok c r a' (<[id := g]> m).
Proof.
  intros Had (A1 & A2 & A3 & A4) Hid [[H1 H2 H3 H4 H5 H6 H7 H8] H9 H10].
  destruct (ad_counters _ _ _ _ _ _ _ _ Had) as (acq & sh & Hcn & Hacq & Hcg & _ & Hsh).
  apply (actor_ok_counters c r _ _ _ Hcn). clear Hcn.
  destruct (runnable_free _ _ _ _ _ _ (ad_runnable _ _ _ _ _ _ _ _ Had) (ad_writer _ _ _ _ _ _ _ _ Had)) as [Hfree Hwr].
  assert (on_root r g = true) as Hon by (apply bool_decide_eq_true; rewrite A1; apply Had).
  assert (∀ l, on_lane r l g = bool_decide (r_lane job = l)) as Hl by (intros l; unfold on_lane; by rewrite Hon, A3).
  assert (on_acquisition r g = bool_decide (r_lane job = HeavyInit) && acq) as Ha.
  { unfold on_acquisition. rewrite Hon. simpl. destruct (acquisition_of g) eqn:E.
    - pose proof (acquisition_lane g E) as Hla. rewrite A3 in Hla. rewrite Hla. simpl.
      rewrite (Hacq Hla), <-A2, <-A3, <-A4. done.
    - destruct (bool_decide_reflect (r_lane job = HeavyInit)) as [Hla|]; [|done].
      rewrite (Hacq Hla), <-A2, <-A3, <-A4. done. }
  assert (∀ p, cnt p (<[id := g]> m) = b2n (p g) + cnt p m) as Hc by (intros p; by apply cnt_insert).
  rewrite <-Hcg, <-Hsh in Hfree. clear Hcg Hacq Had A1 A2 A3 A4 Hid.
  destruct a as [ctx ri li ti wi si mi gi pi ki mj ra de qi qm fa ww]; unfold exclusive, has_epoch_reader in *; simpl in *.
  constructor; [constructor|..]; rewrite ?Hc, ?Hl, ?Ha, ?Hon; unfold exclusive, has_epoch_reader;
    destruct (r_lane job); simpl in *; try done; try lia; try (destruct Hfree; by subst);
    try (destruct acq; simpl in *; [rewrite (Hfree eq_refl) in *; simpl in *|]; lia).
  all: try (intros Hw Hs; specialize (Hwr ltac:(by_compute) Hw); congruence).
  all: first [apply proj1 in Hfree|idtac]; rewrite Hfree in *; simpl in *; lia.
Qed.

Lemma roots_same c w w' :
  actors (state w') = actors (state w) → running_jobs (state w') = running_jobs (state w) →
  (∀ id job, dispatched w' !! id = Some job → dispatched w !! id = Some job) → roots_ok c w → roots_ok c w'.
Proof.
  intros E1 E2 E3 [H1 H2 H3]. constructor; rewrite ?E1, ?E2; [done|done|]. intros id job Hj. by eapply H3, E3.
Qed.

(** One actor is rewritten. *)
Lemma roots_rewrite c w w' r a a' :
  actors (state w) !! r = Some a → counters a' = counters a →
  actors (state w') = <[r := a']> (actors (state w)) → running_jobs (state w') = running_jobs (state w) →
  dispatched w' = dispatched w → roots_ok c w → roots_ok c w'.
Proof.
  intros Ha Hc E1 E2 E3 [H1 H2 H3]. constructor; rewrite ?E1, ?E2, ?E3.
  - intros r' b [[<- <-]|[Hne Hb]]%lookup_insert_Some; [|by apply H1]. eapply actor_ok_counters; [done|]. by apply H1.
  - intros r' [Hr' Hne]%lookup_insert_None. by apply H2.
  - intros id job Hj Hl. destruct (H3 id job Hj Hl) as (b & Hb & Hs).
    destruct (decide (r = r_root_id job)) as [->|Hne].
    + rewrite lookup_insert_eq. exists a'. split; [done|]. rewrite (counters_shared _ _ Hc). congruence.
    + rewrite lookup_insert_ne by done. by exists b.
Qed.

(** A quiet root leaves. *)
Lemma roots_drop c w r : books c w → quiet w r → roots_ok c w → roots_ok c (drop_actor w r).
Proof.
  intros Hb Hq [H1 H2 H3]. unfold quiet in Hq.
  assert (actors (state (drop_actor w r)) = delete r (actors (state w)) ∧ running_jobs (state (drop_actor w r)) = running_jobs (state w) ∧
    dispatched (drop_actor w r) = dispatched w) as (E1 & E2 & E3) by (by destruct w as [[]]).
  constructor; rewrite ?E1, ?E2, ?E3.
  - intros r' a [_ Ha]%lookup_delete_Some. by apply H1.
  - intros r' [->|Hr']%lookup_delete_None; [done|by apply H2].
  - intros id job Hj Hl. destruct (H3 id job Hj Hl) as (a & Ha & Hs). exists a. split; [|done].
    rewrite lookup_delete_ne; [done|]. intros Heq.
    destruct (b_dispatched c w Hb id job Hj) as [(g & Hg & Hroot & _) _].
    assert (0 < cnt (on_root r) (running_jobs (state w))); [|lia]. eapply cnt_pos; [done|].
    apply bool_decide_eq_true. congruence.
Qed.

(** Two running writers of a root are one. *)
Lemma one_writer c r a m i j x y :
  actor_ok c r a m → m !! i = Some x → m !! j = Some y → on_lane r Mutating x = true → on_lane r Mutating y = true → i = j.
Proof.
  intros [[_ _ _ Hw _ _ _ _] _ _] Hi Hj Hx Hy. destruct (decide (i = j)) as [|Hne]; [done|]. exfalso.
  pose proof (cnt_two _ _ _ _ _ _ Hne Hi Hj Hx Hy). destruct (writer_inflight a); simpl in *; lia.
Qed.

Lemma writer_of c w id job :
  books c w → dispatched w !! id = Some job → r_lane job = Mutating →
  ∃ g, running_jobs (state w) !! id = Some g ∧ on_lane (r_root_id job) Mutating g = true.
Proof.
  intros Hb Hj Hl. destruct (b_dispatched c w Hb id job Hj) as [(g & Hg & A1 & _ & A3 & _) _]. exists g. split; [done|].
  unfold on_lane. rewrite andb_true_iff. unfold on_root. rewrite !bool_decide_eq_true. split; congruence.
Qed.

Lemma roots_complete c w cancelled e rest :
  books c w → pending (events w) = e :: pending rest → roots_ok c w →
  roots_ok c (complete_job (set_events w rest) cancelled e).2.
Proof.
  intros Hb He [H1 H2 H3]. destruct (b_pending_running c w Hb e) as [Hnd (g & Hg & _)]; [rewrite He; by left|].
  set (w0 := set_events w rest). assert (state w0 = state w ∧ dispatched w0 = dispatched w) as [E1 E2] by (by destruct w).
  destruct (complete_job_ledger w0 cancelled e g) as (L1 & _ & L3 & _); [by rewrite E1|].
  destruct (complete_job_actors (effective c) w0 cancelled e g) as (answers & _ & _ & _ & Ha); [by rewrite E1|].
  rewrite E1 in L1, Ha. rewrite E2 in L3. set (w' := (complete_job w0 cancelled e).2) in *. clearbody w'. clear E1 E2 w0.
  assert (running_jobs (state w') = delete (e_job_id e) (running_jobs (state w))) as L2.
  { unfold sched_ledger in L1. destruct (state w). proj. congruence. }
  set (m := running_jobs (state w)) in *. set (r := g_root_id g) in *.
  assert (on_root r g = true) as Hon by (by apply bool_decide_eq_true).
  destruct (actors (state w) !! r) as [a|] eqn:Ea.
  2:{ pose proof (cnt_pos _ _ _ _ Hg Hon). specialize (H2 r Ea). fold m in H2. lia. }
  destruct Ha as (a' & La & Hcn & _).
  assert (∀ r', r' ≠ r → on_root r' g = false) as Hoth by (intros r' Hne; apply bool_decide_eq_false; unfold r in Hne; congruence).
  constructor; rewrite ?L2, ?La, ?L3.
  - intros r' b [[<- <-]|[Hne Hb']]%lookup_insert_Some.
    + eapply actor_ok_counters; [done|]. eapply ended_ok; [by apply H1|done|done].
    + eapply actor_ok_other; [|by apply H1]. intros p Hp. apply (cnt_other p m _ g); [|done].
      destruct (p g) eqn:E; [|done]. apply Hp in E. rewrite Hoth in E; congruence.
  - intros r' [Hr' Hne]%lookup_insert_None. rewrite (cnt_other _ m _ g); [by apply H2|by apply Hoth|done].
  - intros id job Hj Hl. destruct (H3 id job Hj Hl) as (b & Hb' & Hs).
    destruct (decide (r = r_root_id job)) as [Heq|Hne]; [|rewrite lookup_insert_ne by done; by exists b].
    rewrite <-Heq, lookup_insert_eq. exists a'. split; [done|]. rewrite <-Heq, Ea in Hb'. injection Hb' as <-.
    assert (shared_bind_inflight a' = shared_bind_inflight (mark_ended a (g_lane g) (acquisition_of g))) as ->
      by (by apply counters_shared).
    destruct (decide (g_lane g = Mutating)) as [Hm|Hm]; [|by destruct a, (g_lane g)].
    exfalso. destruct (writer_of c w id job Hb Hj Hl) as (g' & Hg' & Hw). rewrite <-Heq in Hw.
    assert (on_lane r Mutating g = true) as Hw' by (unfold on_lane; rewrite Hon, Hm; done).
    pose proof (one_writer _ _ _ _ _ _ _ _ (H1 r a Ea) Hg Hg' Hw' Hw) as Hid. congruence.
Qed.

Lemma roots_launch c cs w r a pass newest now job a' h' :
  inv c cs w → actors (state w) !! r = Some a → (∀ jc, pass = ClassPass jc → (JOB_COST ≤ deficit a)%Z) →
  try_admit_actor r a pass (config (state w)) (heavy w) newest now = (Some job, a', h') →
  roots_ok c w → roots_ok c (launch_run_job (set_heavy (set_state w (set_actor (state w) r a')) h') job now).2.
Proof.
  intros [[Hc Hq] Hb _ Ho] Ha Hd Ht [H1 H2 H3]. rewrite Hc in Ht.
  pose proof (try_admit_admitted _ _ _ _ _ _ _ _ _ _ (Hq _ _ Ha) Hd Ht) as Had.
  set (w0 := set_heavy _ h').
  assert (actors (state w0) = <[r := a']> (actors (state w)) ∧ running_jobs (state w0) = running_jobs (state w) ∧
    dispatched w0 = dispatched w ∧ next_job_id (state w0) = next_job_id (state w) ∧ run_open w0 = true)
    as (E1 & E2 & E3 & E4 & E5) by (unfold w0; destruct w as [[]]; done).
  destruct (launch_actors w0 job now) as (_ & L1 & _).
  destruct (launch_ledger w0 job now) as (g & Hag & Hs & _ & _ & _ & _ & _ & L3). rewrite E5 in L3.
  assert (running_jobs (state (launch_run_job w0 job now).2) = <[next_job_id (state w) := g]> (running_jobs (state w))) as L2
    by (injection Hs as _ _ Hs _; by rewrite Hs, E2, E4).
  destruct L3 as (L3 & _ & _). rewrite E3, E4 in L3. rewrite E1 in L1.
  set (w' := (launch_run_job w0 job now).2) in *. clearbody w'. clear Hs E1 E2 E3 E4 E5 w0.
  set (m := running_jobs (state w)) in *. set (id := next_job_id (state w)) in *.
  assert (m !! id = None) as Hid.
  { destruct (m !! id) eqn:E; [|done]. pose proof (b_ids c w Hb id ltac:(by eexists)). unfold id in *. lia. }
  pose proof (ad_root _ _ _ _ _ _ _ _ Had) as Hroot. destruct Hag as (A1 & A2 & A3 & A4).
  assert (∀ r', r' ≠ r → ∀ p, (∀ x, p x = true → on_root r' x = true) → cnt p (<[id := g]> m) = cnt p m) as Hoth.
  { intros r' Hne p Hp. rewrite cnt_insert by done. destruct (p g) eqn:E; [|done].
    apply Hp in E. apply bool_decide_eq_true in E. congruence. }
  destruct (ad_counters _ _ _ _ _ _ _ _ Had) as (acq & sh & Hcn & _ & _ & Hgate & _).
  apply counters_shared in Hcn as Hsh.
  constructor; rewrite ?L1, ?L2, ?L3.
  - intros r' b [[<- <-]|[Hne Hb']]%lookup_insert_Some.
    + eapply started_ok; [done|done|done|]. by apply H1.
    + eapply actor_ok_other; [by apply Hoth|]. by apply H1.
  - intros r' [Hr' Hne]%lookup_insert_None. rewrite (Hoth r'); [by apply H2|congruence|done].
  - intros id' job' Hj' Hl. destruct (decide (id' = id)) as [->|Hne].
    + rewrite lookup_insert_eq in Hj'. injection Hj' as <-. rewrite Hroot, lookup_insert_eq. exists a'. split; [done|].
      rewrite Hsh, Hl, Hgate. by destruct a.
    + rewrite lookup_insert_ne in Hj' by done. destruct (H3 id' job' Hj' Hl) as (b & Hb' & Hs').
      destruct (decide (r = r_root_id job')) as [Heq|Hner]; [|rewrite lookup_insert_ne by done; by exists b].
      rewrite <-Heq, lookup_insert_eq. exists a'. split; [done|]. rewrite <-Heq, Ha in Hb'. injection Hb' as <-.
      rewrite Hsh. destruct (decide (r_lane job = Mutating)) as [Hm|Hm]; [|by destruct a, (r_lane job)].
      exfalso. destruct (writer_of c w id' job' Hb Hj' Hl) as (g' & Hg' & Hw). rewrite <-Heq in Hw.
      pose proof (cnt_pos _ _ _ _ Hg' Hw) as Hpos. destruct (H1 r a Ha) as [[_ _ _ Hn _ _ _ _] _ _].
      destruct (runnable_free _ _ _ _ _ _ (ad_runnable _ _ _ _ _ _ _ _ Had) (ad_writer _ _ _ _ _ _ _ _ Had)) as [Hfree _].
      rewrite Hm in Hfree. destruct Hfree as [Hfree _]. rewrite Hfree in Hn. simpl in Hn. fold m in Hpos. lia.
Qed.

Lemma roots_atom c cs w new w' : inv c cs w → roots_ok c w → atom quiet w new w' → roots_ok c w'.
Proof.
  intros Hi Hk Ha. pose proof (i_books _ _ _ Hi) as Hb.
  destruct Ha as [w' Hs|r a a' new answers Hr Hrw|co r|r ctx Hr|r Hquiet|r a p Hr Hp|id v msg now w' Hf
    |cancelled e rest He|r a pass newest now job a' h' Hr Hf Hg Hid Hd Ht|].
  - unfold same_books in Hs. apply (roots_same c w); [congruence|congruence| |done]. intros id job Hj. congruence.
  - destruct Hrw as (Hcn & _). eapply (roots_rewrite c w _ r a a'); try done; by destruct w as [[]].
  - apply (roots_same c w); try done; by destruct w.
  - destruct Hk as [H1 H2 H3]. pose proof (H2 r Hr) as Hz. destruct w as [[]]. proj. constructor; proj.
    + intros r' b [[<- <-]|[Hne Hb']]%lookup_insert_Some; [by apply actor_ok_new|by apply H1].
    + intros r' [Hr' Hne]%lookup_insert_None. by apply H2.
    + intros id job Hj Hl. destruct (H3 id job Hj Hl) as (b & Hb' & Hs). exists b.
      rewrite lookup_insert_ne; [done|]. congruence.
  - by apply roots_drop.
  - apply (roots_drop c); [done| |done]. unfold quiet. destruct (k_actors c w Hk r a Hr) as [[Ht _ _ _ _ _ _ _] _ _].
    rewrite <-Ht. unfold is_idle in Hp. apply andb_true_iff in Hp as [[Hp _]%andb_true_iff _]. by apply Nat.eqb_eq in Hp.
  - apply worker_finish_replies in Hf as (job & e & answers & Hj & Hd & _ & _ & _ & Hs & _).
    apply (roots_same c w); rewrite ?Hs, ?Hd; try done. intros id' job' Hj'. by apply lookup_delete_Some in Hj' as [_ ?].
  - by apply roots_complete.
  - by eapply roots_launch.
  - destruct Hk as [H1 H2 H3]. unfold drop_executor, post. destruct w as [[]]. proj. constructor; proj.
    + intros r b (a & <- & Ha)%lookup_fmap_Some. destruct (rw_cancel_maintenance (effective c) a) as (Hcn & _).
      eapply actor_ok_counters; [done|]. by apply H1.
    + intros r Hr. rewrite lookup_fmap, fmap_None in Hr. by apply H2.
    + intros id job Hj Hl. destruct (H3 id job Hj Hl) as (a & Ha & Hs). rewrite lookup_fmap, Ha. simpl. eexists. split; [done|].
      rewrite <-Hs. apply counters_shared. by destruct (rw_cancel_maintenance (effective c) a) as (Hcn & _).
Qed.

Lemma roots_ok_new c : roots_ok c (world_new c).
Proof.
  constructor; simpl.
  - intros r a Ha. by rewrite lookup_empty in Ha.
  - intros r _. by rewrite cnt_empty.
  - intros id job Hj. by rewrite lookup_empty in Hj.
Qed.

Lemma roots_reachable c cs w : reachable quiet c cs w → roots_ok c w.
Proof. revert cs w. apply (reachable_atoms quiet c); [apply roots_ok_new|]. intros cs w new w' Hi Hk Ha. by eapply roots_atom. Qed.

(** C30: lanes keep their promise on every root, as long as actors are removed only when nothing
    of theirs runs: of two jobs that workers run for one root at the same time, only one can be
    a writer, and a writer that does not share its hold has no reader, LSP or maintenance-commit
    job beside it; LSP, maintenance-commit, provider and ledger jobs run one at a time; and
    reads stay within the cap. *)
Theorem lanes_exclusive c cs w i j x y :
  reachable quiet c cs w → i ≠ j → dispatched w !! i = Some x → dispatched w !! j = Some y →
  r_root_id x = r_root_id y →
  (r_lane x = Mutating → r_lane y ≠ Mutating) ∧
  (r_lane x = Mutating → r_shared_bind_gate x = false →
     r_lane y ∉ [PureRead; SerialLspStatus; MaintenanceCommit]) ∧
  (r_lane x ∈ [SerialLspStatus; MaintenanceCommit; ProviderMetadata; CallLedger] → r_lane y ≠ r_lane x) ∧
  cnt (on_lane (r_root_id x) PureRead) (running_jobs (state w)) ≤ read_cap (effective c).
Proof.
  intros Hr Hij Hx Hy Hroot. pose proof (world_inv _ _ _ _ Hr) as Hi. pose proof (roots_reachable c cs w Hr) as Hk.
  set (r := r_root_id x) in *. set (m := running_jobs (state w)).
  assert (∀ k z, dispatched w !! k = Some z → r_root_id z = r →
    ∃ g, m !! k = Some g ∧ on_root r g = true ∧ ∀ lane, on_lane r lane g = bool_decide (r_lane z = lane)) as Hrun.
  { intros k z Hz Hzr. destruct (b_dispatched c w (i_books _ _ _ Hi) k z Hz) as [(g & Hg & A1 & _ & A3 & _) _].
    exists g. assert (on_root r g = true) as Hon by (apply bool_decide_eq_true; congruence).
    split_and!; [done|done|]. intros lane. unfold on_lane. by rewrite Hon, A3. }
  destruct (Hrun i x Hx eq_refl) as (gx & Hgx & Hox & Hlx). destruct (Hrun j y Hy (eq_sym Hroot)) as (gy & Hgy & Hoy & Hly).
  destruct (actors (state w) !! r) as [a|] eqn:Ea.
  2:{ pose proof (cnt_pos _ _ _ _ Hgx Hox). pose proof (k_absent c w Hk r Ea) as Hz. fold m in Hz. lia. }
  pose proof (k_actors c w Hk r a Ea) as Hok. fold m in Hok. destruct Hok as [Hc Hex Hrd].
  assert (∀ lane, r_lane x = lane → r_lane y = lane → 2 ≤ cnt (on_lane r lane) m) as Htwo.
  { intros lane Lx Ly. by eapply (cnt_two _ m i j gx gy); [..|rewrite Hlx, Lx|rewrite Hly, Ly]; try done; apply bool_decide_eq_true. }
  assert (∀ lane, r_lane y = lane → 0 < cnt (on_lane r lane) m) as Hone.
  { intros lane Ly. eapply (cnt_pos _ m j gy); [done|]. rewrite Hly. by apply bool_decide_eq_true. }
  split_and!.
  - intros Lx Ly. specialize (Htwo Mutating Lx Ly). pose proof (n_writer _ _ _ Hc). by destruct (writer_inflight a); simpl in *; lia.
  - intros Lx Hs Hin. destruct (k_shared c w Hk i x Hx Lx) as (a' & Ea' & Hsh). fold r in Ea'. rewrite Ea in Ea'. injection Ea' as <-.
    assert (writer_inflight a = true) as Hw.
    { assert (0 < cnt (on_lane r Mutating) m) as Hp.
      { eapply (cnt_pos _ m i gx); [done|]. rewrite Hlx. by apply bool_decide_eq_true. }
      pose proof (n_writer _ _ _ Hc). destruct (writer_inflight a); simpl in *; [done|lia]. }
    specialize (Hex Hw ltac:(congruence)). unfold has_epoch_reader in Hex.
    apply orb_false_iff in Hex as [[E1%Nat.ltb_ge E2]%orb_false_iff E3].
    pose proof (n_read _ _ _ Hc) as N1. pose proof (n_lsp _ _ _ Hc) as N2. pose proof (n_commit _ _ _ Hc) as N3.
    rewrite E2 in N2. rewrite E3 in N3. simpl in N2, N3. fold m in N1, N2, N3.
    repeat (apply elem_of_cons in Hin as [Hin|Hin]; [specialize (Hone _ Hin); lia|]). by apply not_elem_of_nil in Hin.
  - intros Hin Ly. pose proof (Htwo (r_lane x) eq_refl Ly) as H2.
    pose proof (n_lsp _ _ _ Hc) as N2. pose proof (n_commit _ _ _ Hc) as N3.
    pose proof (n_provider _ _ _ Hc) as N4. pose proof (n_ledger _ _ _ Hc) as N5.
    assert (∀ b, b2n b ≤ 1) as Hb by (intros []; simpl; lia).
    repeat (apply elem_of_cons in Hin as [Hin|Hin];
      [rewrite Hin in H2; first [rewrite <-N2 in H2|rewrite <-N3 in H2|rewrite <-N4 in H2|rewrite <-N5 in H2];
       match type of H2 with _ ≤ b2n ?b => specialize (Hb b); lia end|]).
    by apply not_elem_of_nil in Hin.
  - rewrite <-(n_read _ _ _ Hc). done.
Qed.

(** ** Runs as lists of operations *)

(** The world after a list of operations, each with ids left. *)
Fixpoint run_all (w : World) (ops : list Op) : option World :=
  match ops with
  | [] => Some w
  | op :: ops =>
      if bool_decide (ids_left w) then w ← exec w op; run_all w ops else None
  end.

Definition removes (op : Op) : bool := match op with RemoveActor _ => true | _ => false end.

Lemma run_all_reachable q c ops cs w w' :
  reachable q c cs w → (∀ op, op ∈ ops → removes op = false) → NoDup (cs ++ (ops ≫= submitted)) →
  run_all w ops = Some w' → reachable q c (cs ++ (ops ≫= submitted)) w'.
Proof.
  revert cs w. induction ops as [|op ops IH]; intros cs w Hr Hno Hnd Hrun; simpl in *.
  { rewrite app_nil_r. by injection Hrun as <-. }
  destruct (bool_decide_reflect (ids_left w)) as [Hids|]; [|done].
  apply bind_Some in Hrun as (w1 & Hex & Hrun). rewrite app_assoc in Hnd |- *.
  apply (IH _ w1); [|intros op' Hop; apply Hno; by right|done|done].
  eapply reachable_step; [done|done| |done|by apply NoDup_app in Hnd as [Hnd _]].
  intros r ->. by specialize (Hno (RemoveActor r) ltac:(left)).
Qed.

(** ** Examples *)

Definition wconfig : ExecutorConfig := MkConfig 4 2 3 2 1.
Definition wroot : str := lit "/project".
Definition wsubmit (lane : Lane) (job_class : JobClass) (c : N) : Op :=
  Submit (MkSubmitEnv true false (Some 1%N)) wroot job_class lane (lit "job") (lit "cmd") c c None c None None 1000.
Definition wturn : Op := SchedulerTurn false (λ _, false) 2000.
Definition wresult : WorkerEnv :=
  MkEnv false true false false true true true true (Some (JobResponse 7)) false true false.
Definition wfinish (id : N) : Op := WorkerFinish id wresult [] 3000.

(** A read and a ledger job on workers, a writer waiting behind the read. *)
Definition wbusy : list Op :=
  [RegisterActor wroot 1; wsubmit PureRead Interactive 10; wsubmit Mutating Interactive 11;
   wsubmit CallLedger Interactive 12; wturn].
Definition wbusy_world : World := default (world_new wconfig) (run_all (world_new wconfig) wbusy).

Lemma wbusy_reachable q : reachable q wconfig [10; 11; 12]%N wbusy_world.
Proof.
  apply (run_all_reachable q wconfig wbusy [] (world_new wconfig)); [constructor| |by_compute|vm_compute; reflexivity].
  intros op Hop. repeat (apply elem_of_cons in Hop as [->|Hop]; [done|]). by apply not_elem_of_nil in Hop.
Qed.

Lemma scheduler_books_balance_witness :
  idle_workers (state wbusy_world) = 6 ∧ assert_running_invariants wbusy_world = true.
Proof.
  split; [vm_compute; reflexivity|].
  exact (proj1 (scheduler_books_balance (λ _ _, True) wconfig [10; 11; 12]%N wbusy_world (wbusy_reachable _))).
Defined.

Lemma every_job_answered_once_witness :
  queued wbusy_world = [11]%N ∧
  unanswered wbusy_world ++ (sent wbusy_world).*1 ++ closed wbusy_world ≡ₚ [10; 11; 12]%N.
Proof.
  split; [vm_compute; reflexivity|].
  exact (proj1 (every_job_answered_once (λ _ _, True) wconfig [10; 11; 12]%N wbusy_world (wbusy_reachable _))).
Defined.

Lemma lanes_exclusive_witness :
  ∃ x y, dispatched wbusy_world !! 1%N = Some x ∧ dispatched wbusy_world !! 2%N = Some y ∧
    r_lane x = CallLedger ∧ r_lane y ≠ r_lane x.
Proof.
  destruct (dispatched wbusy_world !! 1%N) as [x|] eqn:Ex; [|vm_compute in Ex; discriminate Ex].
  destruct (dispatched wbusy_world !! 2%N) as [y|] eqn:Ey; [|vm_compute in Ey; discriminate Ey].
  exists x, y. assert (r_lane x = CallLedger) as Hl by (vm_compute in Ex; injection Ex as <-; reflexivity).
  assert (r_root_id x = r_root_id y) as Hroot
    by (vm_compute in Ex; vm_compute in Ey; injection Ex as <-; injection Ey as <-; reflexivity).
  split; [reflexivity|]. split; [reflexivity|]. split; [exact Hl|].
  apply (lanes_exclusive wconfig _ wbusy_world 1%N 2%N x y (wbusy_reachable quiet) ltac:(done) Ex Ey Hroot).
  rewrite Hl. by_compute.
Defined.

(** The proviso is needed: an actor removed while its writer runs and registered again starts a
    second writer beside it. *)
Definition wtwice : list Op :=
  [RegisterActor wroot 1; wsubmit Mutating Interactive 10; wturn; RemoveActor wroot; RegisterActor wroot 2;
   wsubmit Mutating Interactive 11; wturn].

Lemma removed_root_runs_two_writers :
  ∃ w x y, run_all (world_new wconfig) wtwice = Some w ∧
    dispatched w !! 1%N = Some x ∧ dispatched w !! 2%N = Some y ∧
    r_root_id x = r_root_id y ∧ r_lane x = Mutating ∧ r_lane y = Mutating ∧
    r_shared_bind_gate x = false ∧ r_shared_bind_gate y = false.
Proof.
  eexists _, _, _. split; [vm_compute; reflexivity|]. split; [vm_compute; reflexivity|].
  split; [vm_compute; reflexivity|]. vm_compute. done.
Qed.

End SchedulerSafety.
