(* ===== verification/SchedulerDispatch.v ===== *)
(** * The dispatcher ends, and leaves nothing it could run

    A turn of the scheduler launches jobs until no pass can: after it, no queued job could be
    admitted on a worker its pass may use. *)

From S2P Require Import Prelude RustStr ClassQueues JobCancel Scheduler SchedulerSpec SchedulerInv SchedulerSafety.
Import ClassQueues Scheduler SchedulerSpec SchedulerInv SchedulerSafety.

Module SchedulerDispatch.

#[local] Opaque MAINTENANCE_QUEUE_CAP.

(** ** A refused admission changes nothing *)

Lemma order_nonempty cq l lane : holds cq l → lane ∈ order cq → queue cq lane ≠ [].
Proof.
  intros [Ho Hq] Hin Hn. rewrite Ho in Hin. apply list_elem_of_fmap in Hin as ([l' j] & -> & Hin).
  apply elem_of_of_lane in Hin. rewrite <-Hq in Hin. simpl in Hn. rewrite Hn in Hin. by apply not_elem_of_nil in Hin.
Qed.

Lemma oldest_bind_some cq : is_Some (oldest_queued_bind_at cq) → ∃ k, position is_bind (mutating cq) = Some k.
Proof.
  unfold oldest_queued_bind_at. intros [t Ht]. destruct (position is_bind (mutating cq)) as [k|] eqn:E; [by exists k|].
  exfalso. rewrite position_None in E.
  assert (filter (λ j, is_bind j = true) (mutating cq) = []) as Hn; [|by rewrite Hn in Ht].
  destruct (filter (λ j, is_bind j = true) (mutating cq)) as [|x l] eqn:Ef; [done|].
  assert (x ∈ filter (λ j, is_bind j = true) (mutating cq)) as Hx by (rewrite Ef; by left).
  apply list_elem_of_filter in Hx as [Hb Hx]. rewrite (E x Hx) in Hb. done.
Qed.

(** The lane a class pass picks has a job. *)
Lemma pass_lane_nonempty c a pass now newest lane :
  queue_ok c a → pass ≠ BindPass → pass_lane a pass now newest = Some lane →
  queue (class_queues a (pass_class pass)) lane ≠ [].
Proof.
  intros Hok Hb. destruct (qok_interactive c a Hok) as [li Hli]. destruct (qok_maintenance c a Hok) as (lm & Hlm & _).
  destruct pass as [| | |[]]; simpl; [done|..].
  - intros (t & Ht & ->)%fmap_Some. simpl. by destruct (provider_metadata (interactive a)).
  - intros (t & Ht & ->)%fmap_Some. simpl. by destruct (call_ledger (interactive a)).
  - unfold next_interactive_lane. destruct (existsb _ (mutating (interactive a))) eqn:E.
    { intros [= <-]. simpl. intros Hn. by rewrite Hn in E. }
    destruct (bool_decide_reflect (pure_reads (interactive a) = [])) as [Hn|Hn]; simpl; [|by intros [= <-]].
    intros Hh. eapply order_nonempty; [done|].
    assert (lane ∈ filter (λ l, l ∉ [PureRead; ProviderMetadata; CallLedger]) (order (interactive a))) as Hin.
    { destruct (filter _ (order (interactive a))); simplify_eq/=. by left. }
    by apply list_elem_of_filter in Hin as [_ ?].
  - unfold front_lane. intros Hh. eapply order_nonempty; [done|]. destruct (order (maintenance a)); simplify_eq/=. by left.
Qed.

Lemma pop_some c a pass now newest lane b :
  queue_ok c a → pass_lane a pass now newest = Some lane → interactive b = interactive a → maintenance b = maintenance a →
  ∃ queued b', (if decide (pass = BindPass) then pop_first_bind_job b else actor_pop_front_job b (pass_class pass) lane)
               = (Some queued, b').
Proof.
  intros Hok Hl E1 E2. destruct (decide (pass = BindPass)) as [->|Hb].
  - unfold pop_first_bind_job, remove_first_bind_job. rewrite E1. simpl in Hl.
    destruct (oldest_bind_some (interactive a)) as [k Hk]; [by apply fmap_Some in Hl as (t & -> & _)|]. rewrite Hk.
    apply position_Some in Hk as (x & Hx & _). unfold remove_at. simpl. rewrite Hx. by eexists _, _.
  - assert (class_queues b (pass_class pass) = class_queues a (pass_class pass)) as Hc
      by (destruct (pass_class pass); simpl; congruence).
    pose proof (pass_lane_nonempty c a pass now newest lane Hok Hb Hl) as Hne. unfold actor_pop_front_job. rewrite Hc.
    assert (∃ l, holds (class_queues a (pass_class pass)) l) as [l Hh].
    { destruct (pass_class pass); simpl; [apply Hok|]. destruct (qok_maintenance c a Hok) as (lm & ? & _). by exists lm. }
    unfold pop_front_job. destruct (position _ _) as [i|] eqn:Hi.
    + destruct (queue _ lane) as [|j js]; [done|]. by eexists _, _.
    + exfalso. rewrite position_None in Hi. destruct Hh as [Ho Hq]. rewrite Hq in Hne.
      destruct (of_lane lane l) as [|j js] eqn:Ej; [done|].
      assert (j ∈ of_lane lane l) as Hin by (rewrite Ej; by left). apply elem_of_of_lane in Hin.
      specialize (Hi lane). rewrite Ho in Hi. assert (lane ∈ l.*1) as Hlane by (apply list_elem_of_fmap; by exists (lane, j)).
      specialize (Hi Hlane). by rewrite bool_decide_eq_true_2 in Hi.
Qed.

Lemma refused_same c root_id a pass h newest now a' h' :
  queue_ok c a → try_admit_actor root_id a pass c h newest now = (None, a', h') → a' = a ∧ h' = h.
Proof.
  intros Hok. unfold try_admit_actor. destruct (pass_lane a pass now newest) as [lane|] eqn:Hl; [|by intros [= <- <-]].
  destruct (_ || _); [by intros [= <- <-]|]. destruct (runnable a pass lane c h); [|by intros [= <- <-]].
  set (b := if _ && _ then note_reader_admission a else a).
  destruct (pop_some c a pass now newest lane b Hok Hl) as (queued & b' & ->); [by unfold b; destruct (_ && _), a..|].
  destruct (start_job _ _ _ _ _ _ _ _ _). done.
Qed.

(** Admission does not look at the deficit. *)
Lemma refused_deficit c root_id a d pass h newest now :
  queue_ok c a → queue_ok c (set_deficit a d) →
  (try_admit_actor root_id a pass c h newest now).1.1 = None →
  (try_admit_actor root_id (set_deficit a d) pass c h newest now).1.1 = None.
Proof.
  intros Hok Hok' Hn.
  assert (pass_lane (set_deficit a d) pass now newest = pass_lane a pass now newest) as E1 by (by destruct a, pass as [| | |[]]).
  unfold try_admit_actor in *. rewrite E1. destruct (pass_lane a pass now newest) as [lane|] eqn:Hl; [|done].
  assert (writer_blocks (set_deficit a d) (pass_class pass) lane = writer_blocks a (pass_class pass) lane) as -> by (by destruct a).
  assert (backing_off (set_deficit a d) pass lane now = backing_off a pass lane now) as ->
    by (unfold backing_off; by destruct a, (pass_class pass)).
  destruct (_ || _); [done|].
  assert (runnable (set_deficit a d) pass lane c h = runnable a pass lane c h) as ->.
  { unfold runnable, callgraph_next, actor_has_interactive_capacity, actor_interactive_inflight, bind_may_share, has_epoch_reader.
    by destruct a, (pass_class pass). }
  destruct (runnable a pass lane c h); [|done]. exfalso.
  set (b := if _ && _ then note_reader_admission a else a) in Hn.
  destruct (pop_some c a pass now newest lane b Hok Hl) as (queued & b' & E2); [by unfold b; destruct (_ && _), a..|].
  rewrite E2 in Hn. by destruct (start_job _ _ _ _ _ _ _ _ _).
Qed.

Lemma effective_quantum c : (1 ≤ drr_quantum (effective c))%Z ∧ (4 ≤ deficit_cap (effective c))%Z.
Proof. unfold effective. simpl. lia. Qed.

(** ** Turns that launch nothing *)

Section Still.
Context (c : ExecutorConfig) (now : Instant).

(** What admission reads of the world, the actors apart. *)
Definition scene (w : World) :=
  (config (state w), actor_order (state w), idle_workers (state w), maintenance_inflight (state w),
   provider_inflight (state w), binds_inflight (state w), running_jobs (state w), heavy w, run_open w).

(** [a] and [a'] admit the same jobs: a fatal actor admits none. *)
Definition alike (a a' : option ActorState) : Prop :=
  match a, a' with
  | Some a, Some a' => fatal a' = fatal a ∧ (queue_ok (effective c) a → queue_ok (effective c) a') ∧
                       (fatal a = false → ∃ d, a' = set_deficit a d)
  | None, None => True
  | _, _ => False
  end.

(** Nothing was launched between [w] and [w']. *)
Definition still (w w' : World) : Prop :=
  scene w' = scene w ∧ ∀ r, alike (actors (state w) !! r) (actors (state w') !! r).

Lemma set_deficit_same a : set_deficit a (deficit a) = a.
Proof. by destruct a. Qed.

Lemma alike_refl a : alike a a.
Proof. destruct a as [a|]; [|done]. split_and!; [done|done|]. intros _. exists (deficit a). by rewrite set_deficit_same. Qed.

Lemma still_refl w : still w w.
Proof. split; [done|]. intros r. apply alike_refl. Qed.

Lemma still_trans w w1 w2 : still w w1 → still w1 w2 → still w w2.
Proof.
  intros [H1 H2] [H3 H4]. split; [congruence|]. intros r. specialize (H2 r). specialize (H4 r). unfold alike in *.
  destruct (actors (state w) !! r) as [a|], (actors (state w1) !! r) as [a1|], (actors (state w2) !! r) as [a2|]; try done.
  destruct H2 as (F1 & G1 & D1), H4 as (F2 & G2 & D2). split_and!; [congruence|auto|]. intros Hf.
  destruct (D1 Hf) as [d1 ->]. destruct D2 as [d2 ->]; [congruence|]. exists d2. by destruct a.
Qed.

(** One actor is rewritten in place. *)
Lemma still_actor w r a a' answers :
  actors (state w) !! r = Some a → alike (Some a) (Some a') →
  still w (say (set_state w (set_actor (state w) r a')) answers).
Proof.
  intros Ha Hal. destruct w as [[]]. proj. split; [done|]. intros r'. proj. destruct (decide (r = r')) as [<-|Hne].
  - by rewrite lookup_insert_eq, Ha.
  - rewrite lookup_insert_ne by done. apply alike_refl.
Qed.

Definition newest_of (w : World) (r : str) (pass : AdmissionPass) : option Instant :=
  match pass with ClassPass Interactive => newest_in_flight_reader_started_at (state w) r | _ => None end.

(** The pass admits nothing of root [r]. *)
Definition refuses (w : World) (pass : AdmissionPass) (r : str) : Prop :=
  ∀ a, actors (state w) !! r = Some a → fatal a = false →
    (try_admit_actor r a pass (config (state w)) (heavy w) (newest_of w r pass) now).1.1 = None.

Lemma still_queues w w' : still w w' → queues_inv c w → queues_inv c w'.
Proof.
  intros [H1 H2] [H3 H4]. unfold scene in H1. split; [congruence|]. intros r a' Ha'. specialize (H2 r). rewrite Ha' in H2.
  unfold alike in H2. destruct (actors (state w) !! r) as [a|] eqn:Ha; [|done]. destruct H2 as (_ & Hok & _).
  apply Hok. by eapply H4.
Qed.

Lemma still_refuses w w' pass r : queues_inv c w → still w w' → refuses w pass r → refuses w' pass r.
Proof.
  intros Hq Hst Hr a' Ha' Hf. pose proof (still_queues w w' Hst Hq) as [Hc' Hq']. destruct Hst as [H1 H2]. destruct Hq as [Hc Hq].
  specialize (H2 r). rewrite Ha' in H2. unfold alike in H2. destruct (actors (state w) !! r) as [a|] eqn:Ha; [|done].
  destruct H2 as (F & _ & D). rewrite F in Hf. destruct (D Hf) as [d ->].
  assert (newest_of w' r pass = newest_of w r pass ∧ heavy w' = heavy w) as [-> ->].
  { unfold scene in H1. unfold newest_of, newest_in_flight_reader_started_at. destruct pass as [| | |[]]; split; congruence. }
  rewrite Hc'. apply refused_deficit; [by eapply Hq|by eapply Hq'|]. rewrite <-Hc. by apply Hr.
Qed.

Lemma admit_still w r a0 a pass newest :
  queues_inv c w → actors (state w) !! r = Some a0 → fatal a0 = false → (∃ d, a = set_deficit a0 d) →
  queue_ok (effective c) a → (admit_and_launch w r a pass newest now).1.1 = false →
  still w (admit_and_launch w r a pass newest now).2 ∧
  (try_admit_actor r a0 pass (config (state w)) (heavy w) newest now).1.1 = None.
Proof.
  intros [Hc Hq] Ha0 Hf [d ->] Hok. unfold admit_and_launch.
  destruct (try_admit_actor r (set_deficit a0 d) pass (config (state w)) (heavy w) newest now) as [[[job|] a'] h'] eqn:Ht.
  { by destruct (launch_run_job _ job now). }
  intros _. rewrite Hc in Ht. destruct (refused_same _ _ _ _ _ _ _ _ _ Hok Ht) as [-> ->]. split.
  - simpl. pose proof (still_actor w r a0 (set_deficit a0 d) [] Ha0) as Hs. rewrite say_nil in Hs.
    assert (set_heavy (set_state w (set_actor (state w) r (set_deficit a0 d))) (heavy w)
            = set_state w (set_actor (state w) r (set_deficit a0 d))) as -> by (by destruct w).
    apply Hs. split_and!; [by destruct a0|done|]. intros _. by exists d.
  - rewrite Hc. rewrite <-(set_deficit_same a0).
    assert (set_deficit a0 (deficit a0) = set_deficit (set_deficit a0 d) (deficit a0)) as -> by (by destruct a0).
    apply refused_deficit; [done| |by rewrite Ht].
    assert (set_deficit (set_deficit a0 d) (deficit a0) = a0) as -> by (by destruct a0). by eapply Hq.
Qed.

(** No job of the class is queued: the class's pass has no lane. *)
Lemma no_class_lane a jc newest :
  queue_ok (effective c) a → has_queued_jobs_for a jc = false → pass_lane a (ClassPass jc) now newest = None.
Proof.
  intros Hok Hn. destruct (pass_lane a (ClassPass jc) now newest) as [lane|] eqn:E; [|done]. exfalso.
  pose proof (pass_lane_spec _ _ _ _ _ _ Hok E) as Hcl. simpl in Hcl.
  pose proof (pass_lane_nonempty _ _ (ClassPass jc) _ _ _ Hok ltac:(done) E) as Hne.
  assert (∃ l, holds (class_queues a jc) l) as [l [Ho Hq]].
  { destruct jc; simpl; [apply Hok|]. destruct (qok_maintenance _ a Hok) as (lm & ? & _). by exists lm. }
  simpl in Hne. assert (lane ∈ order (class_queues a jc)) as Hin.
  { rewrite Ho. rewrite Hq in Hne. destruct (of_lane lane l) as [|j js] eqn:Ej; [done|].
    assert (j ∈ of_lane lane l) as Hj by (rewrite Ej; by left). apply elem_of_of_lane in Hj.
    apply list_elem_of_fmap. by exists (lane, j). }
  destruct jc; simpl in *.
  - rewrite existsb_false_elem_of in Hn. specialize (Hn lane Hin). by rewrite bool_decide_eq_true_2 in Hn.
  - unfold has_queued_jobs in Hn. apply negb_false_iff, bool_decide_eq_true in Hn. rewrite Hn in Hin. by apply not_elem_of_nil in Hin.
Qed.

Lemma no_lane_refused r a pass h newest :
  pass_lane a pass now newest = None → (try_admit_actor r a pass (effective c) h newest now).1.1 = None.
Proof. intros Hl. unfold try_admit_actor. by rewrite Hl. Qed.

Lemma class_turn_still w r jc :
  queues_inv c w → (class_turn w r jc now).1.1 = false →
  still w (class_turn w r jc now).2 ∧ refuses w (ClassPass jc) r.
Proof.
  intros Hinv. pose proof Hinv as [Hc Hq]. unfold class_turn, refuses.
  destruct (actors (state w) !! r) as [a|] eqn:Ha; [|intros _; split; [apply still_refl|done]].
  pose proof (Hq r a Ha) as Hok.
  assert (∀ d, (0 ≤ d ≤ deficit_cap (effective c))%Z → still w (set_state w (set_actor (state w) r (set_deficit a d)))) as Hd.
  { intros d Hd. rewrite <-(say_nil (set_state _ _)). apply still_actor with a; [done|]. split_and!; [by destruct a| |by exists d].
    intros _. destruct (rw_deficit (effective c) a d) as (_ & _ & H); [done|]. by apply H. }
  assert (0 ≤ 0 ≤ deficit_cap (effective c))%Z as H0 by (pose proof (qok_deficit _ _ Hok); lia).
  destruct (fatal a) eqn:Hf.
  { destruct (actor_fail_queued_jobs a) as [answers a'] eqn:E. intros _. simpl. split.
    - apply still_actor with a; [done|]. destruct (rw_fail (effective c) a) as (_ & F & H). rewrite E in F, H. simpl in F, H.
      split_and!; [by destruct a', a| |congruence]. intros Hok'. destruct (H Hok') as [H1 _].
      destruct (rw_deficit (effective c) a' 0) as (_ & _ & H2); [done|]. by apply H2.
    - intros b [= <-]. congruence. }
  destruct (actor_has_queued_jobs a) eqn:Hj; simpl.
  2:{ intros _. split; [by apply Hd|]. intros b [= <-] _. rewrite Hc. apply no_lane_refused, no_class_lane; [done|].
      unfold actor_has_queued_jobs in Hj. apply orb_false_iff in Hj as [J1 J2]. destruct jc; simpl; [|done].
      unfold has_queued_jobs in J1. apply negb_false_iff, bool_decide_eq_true in J1. by rewrite J1. }
  destruct (has_queued_jobs_for a jc) eqn:Hjc; simpl.
  2:{ intros _. split; [apply still_refl|]. intros b [= <-] _. rewrite Hc. by apply no_lane_refused, no_class_lane. }
  set (d := Z.min _ _). assert (1 ≤ d ≤ deficit_cap (effective c))%Z as Hdb.
  { pose proof (qok_deficit _ _ Hok). unfold d. rewrite Hc. destruct (effective_quantum c) as [? ?]. lia. }
  assert (deficit (set_deficit a d) = d) as -> by (by destruct a).
  destruct (Z.ltb_spec d JOB_COST) as [Hlt|_]; [unfold JOB_COST in Hlt; lia|]. intros Hmade.
  destruct (admit_still w r a (set_deficit a d) (ClassPass jc) (newest_of w r (ClassPass jc))) as [H1 H2];
    [done|done|done|by exists d| |by destruct jc|].
  - destruct (rw_deficit (effective c) a d) as (_ & _ & H); [lia|]. by apply H.
  - split; [by destruct jc|]. intros b [= <-] _. done.
Qed.

Lemma reserved_turn_still w r pass :
  queues_inv c w → (∀ jc, pass ≠ ClassPass jc) → (reserved_turn pass now w r).1.1 = false →
  still w (reserved_turn pass now w r).2 ∧ refuses w pass r.
Proof.
  intros Hinv Hp. pose proof Hinv as [Hc Hq]. unfold reserved_turn, refuses.
  destruct (actors (state w) !! r) as [a|] eqn:Ha; [|intros _; split; [apply still_refl|done]].
  destruct (fatal a) eqn:Hf; [intros _; split; [apply still_refl|intros b [= <-]; congruence]|]. intros Hmade.
  assert (newest_of w r pass = None) as -> by (destruct pass as [| | |jc]; [done..|by destruct (Hp jc)]).
  destruct (admit_still w r a a pass None) as [H1 H2]; [done|done|done| |by eapply Hq|done|].
  - exists (deficit a). by rewrite set_deficit_same.
  - split; [done|]. by intros b [= <-] _.
Qed.

(** ** Passes that launch nothing *)

Lemma still_cursor w k : still w (set_state w (set_cursor (state w) k)).
Proof. split; [by destruct w as [[]]|]. intros r. destruct w as [[]]. apply alike_refl. Qed.

Lemma still_scene_guard (guard : SchedulerState → bool) w w' :
  (∀ s s', (config s', idle_workers s', maintenance_inflight s', provider_inflight s', binds_inflight s')
           = (config s, idle_workers s, maintenance_inflight s, provider_inflight s, binds_inflight s) → guard s' = guard s) →
  still w w' → guard (state w') = guard (state w).
Proof. intros Hg [H1 _]. apply Hg. unfold scene in H1. congruence. Qed.

Lemma launch_cursor w job : cursor (state (launch_run_job w job now).2) = cursor (state w).
Proof. by destruct w as [[] ? ? ? ? ? [] ? ? ? ?]. Qed.

Lemma admit_cursor w r a pass newest : cursor (state (admit_and_launch w r a pass newest now).2) = cursor (state w).
Proof.
  unfold admit_and_launch. destruct (try_admit_actor _ _ _ _ _ _ _) as [[[job|] a'] h']; [|by destruct w as [[]]].
  pose proof (launch_cursor (set_heavy (set_state w (set_actor (state w) r a')) h') job) as Hl.
  destruct (launch_run_job _ job now). simpl in *. rewrite Hl. by destruct w as [[]].
Qed.

(** Only a launch fails. *)
Lemma admit_failed w r a pass newest :
  (admit_and_launch w r a pass newest now).1.1 = false → (admit_and_launch w r a pass newest now).1.2 = false.
Proof.
  unfold admit_and_launch. destruct (try_admit_actor _ _ _ _ _ _ _) as [[[job|] a'] h']; [|done].
  by destruct (launch_run_job _ job now).
Qed.

(** What the loop over actors needs of its body. *)
Record quiet_turn (pass : AdmissionPass) (turn : World → str → Pass) : Prop := {
  qt_cursor : ∀ w r, cursor (state (turn w r).2) = cursor (state w);
  qt_failed : ∀ w r, (turn w r).1.1 = false → (turn w r).1.2 = false;
  qt_still : ∀ w r, queues_inv c w → (turn w r).1.1 = false → still w (turn w r).2 ∧ refuses w pass r }.

Lemma class_turn_quiet jc : quiet_turn (ClassPass jc) (λ w r, class_turn w r jc now).
Proof.
  constructor; [| |intros; by apply class_turn_still]; intros w r; unfold class_turn;
    (destruct (actors (state w) !! r) as [a|]; [|done]);
    (destruct (fatal a); [by destruct (actor_fail_queued_jobs a), w as [[]]|]);
    (destruct (negb (actor_has_queued_jobs a)); [by destruct w as [[]]|]);
    (destruct (negb (has_queued_jobs_for a jc)); [done|]);
    (destruct (_ <? _)%Z; [by destruct w as [[]]|]).
  - apply admit_cursor.
  - apply admit_failed.
Qed.

Lemma reserved_turn_quiet pass : (∀ jc, pass ≠ ClassPass jc) → quiet_turn pass (reserved_turn pass now).
Proof.
  intros Hp. constructor; [| |intros; by apply reserved_turn_still]; intros w r; unfold reserved_turn;
    (destruct (actors (state w) !! r) as [a|]; [|done]); (destruct (fatal a); [done|]).
  - apply admit_cursor.
  - apply admit_failed.
Qed.

Lemma actor_loop_made fit guard turn n w : (actor_loop fit guard turn n true w).1.1 = true.
Proof.
  revert w. induction n as [|n IH]; intros w; simpl; [done|]. destruct (negb _); [done|].
  destruct (next_root fit (state w)) as [[r s]|]; [|done]. by destruct (turn (set_state w s) r) as [[p []] w'].
Qed.

(** A cursor policy keeps the cursor inside the list and leaves it alone there. *)
Definition fits (fit : nat → nat → nat) : Prop := ∀ k len, 0 < len → fit k len < len ∧ (k < len → fit k len = k).

Lemma start_over_fits : fits start_over.
Proof. intros k len Hlen. unfold start_over. destruct (Nat.leb_spec len k); lia. Qed.

Lemma wrap_around_fits : fits wrap_around.
Proof. intros k len Hlen. unfold wrap_around. split; [by apply Nat.mod_upper_bound; lia|]. intros. by apply Nat.mod_small. Qed.

(** [n] turns without progress ask the [n] actors from the cursor on. *)
Lemma actor_loop_visits fit guard turn pass n w w' f :
  fits fit → quiet_turn pass turn → (∀ w w', still w w' → guard (state w') = guard (state w)) →
  queues_inv c w → guard (state w) = true → actor_loop fit guard turn n false w = (false, f, w') →
  f = false ∧ still w w' ∧
  let len := length (actor_order (state w)) in
  ∀ i r, i < n → actor_order (state w) !! ((fit (cursor (state w)) len + i) `mod` len) = Some r → refuses w' pass r.
Proof.
  intros Hfit Hq Hguard. revert w. induction n as [|n IH]; intros w Hinv Hg; simpl.
  { intros [= <- <-]. split_and!; [done|apply still_refl|lia]. }
  rewrite Hg. simpl. unfold next_root. set (len := length (actor_order (state w))). set (k := fit (cursor (state w)) len).
  destruct (actor_order (state w) !! k) as [r0|] eqn:Hk; simpl.
  2:{ intros [= <- <-]. split_and!; [done|apply still_refl|]. intros i r _ Hr. exfalso. apply lookup_lt_Some in Hr as Hlt.
      fold len in Hlt. apply lookup_ge_None in Hk. fold len in Hk. destruct (Hfit (cursor (state w)) len); [lia|]. unfold k in Hk. lia. }
  apply lookup_lt_Some in Hk as Hlen. fold len in Hlen.
  set (w0 := set_state w (set_cursor (state w) (S k `mod` len))).
  assert (still w w0) as H0 by apply still_cursor. pose proof (still_queues _ _ H0 Hinv) as Hinv0.
  pose proof (qt_cursor _ _ Hq w0 r0) as Hcur. pose proof (qt_failed _ _ Hq w0 r0) as Hfail.
  pose proof (qt_still _ _ Hq w0 r0 Hinv0) as Hst.
  destruct (turn w0 r0) as [[p f1] w1]. simpl in Hcur, Hfail, Hst. destruct p.
  { destruct f1; [done|]. intros Heq. pose proof (actor_loop_made fit guard turn n w1) as Hm. by rewrite Heq in Hm. }
  rewrite Hfail by done. simpl. destruct Hst as [H1 Href]; [done|]. intros Heq.
  pose proof (still_trans _ _ _ H0 H1) as H2. pose proof (still_queues _ _ H2 Hinv) as Hinv1.
  destruct (IH w1 Hinv1 ltac:(by rewrite (Hguard _ _ H2)) Heq) as (-> & H3 & Hall). split_and!; [done|by eapply still_trans|].
  assert (∀ w w', still w w' → actor_order (state w') = actor_order (state w)) as Hord
    by (intros u u' [Hsc _]; unfold scene in Hsc; congruence).
  assert (cursor (state w0) = S k `mod` len) as Hc0 by (unfold w0; by destruct w as [[]]).
  intros [|i] r Hi Hr.
  - rewrite Nat.add_0_r, Nat.mod_small in Hr by done. rewrite Hk in Hr. injection Hr as <-.
    eapply (still_refuses w0); [done|by eapply still_trans|done].
  - apply (Hall i); [lia|]. rewrite (Hord _ _ H2), Hcur, Hc0. fold len.
    destruct (Hfit (S k `mod` len) len ltac:(lia)) as [_ ->]; [|by apply Nat.mod_upper_bound; lia].
    rewrite Nat.Div0.add_mod_idemp_l. rewrite <-Hr. f_equal. f_equal. lia.
Qed.

(** A whole pass without progress has asked every actor. *)
Lemma actor_loop_asks_all fit guard turn pass w w' f r :
  fits fit → quiet_turn pass turn → (∀ w w', still w w' → guard (state w') = guard (state w)) →
  queues_inv c w → guard (state w) = true →
  actor_loop fit guard turn (length (actor_order (state w))) false w = (false, f, w') →
  r ∈ actor_order (state w) → refuses w' pass r.
Proof.
  intros Hfit Hq Hguard Hinv Hg Heq [j Hj]%list_elem_of_lookup.
  destruct (actor_loop_visits fit guard turn pass _ w w' f Hfit Hq Hguard Hinv Hg Heq) as (_ & _ & Hall). cbv zeta in Hall.
  apply lookup_lt_Some in Hj as Hlt. set (len := length (actor_order (state w))) in *.
  destruct (Hfit (cursor (state w)) len) as [Hk _]; [lia|]. set (k := fit (cursor (state w)) len) in *.
  destruct (decide (k ≤ j)) as [Hle|Hgt].
  - apply (Hall (j - k)); [lia|]. replace (k + (j - k)) with j by lia. by rewrite Nat.mod_small.
  - apply (Hall (j + len - k)); [lia|]. replace (k + (j + len - k)) with (j + 1 * len) by lia.
    rewrite Nat.Div0.mod_add. by rewrite Nat.mod_small.
Qed.

(** The loop without progress leaves the world as it was, whatever its guard says. *)
Lemma actor_loop_still fit guard turn pass n w w' f :
  fits fit → quiet_turn pass turn → (∀ w w', still w w' → guard (state w') = guard (state w)) →
  queues_inv c w → actor_loop fit guard turn n false w = (false, f, w') → f = false ∧ still w w'.
Proof.
  intros Hfit Hq Hguard Hinv Heq. destruct (guard (state w)) eqn:Hg.
  - by destruct (actor_loop_visits fit guard turn pass n w w' f Hfit Hq Hguard Hinv Hg Heq) as (? & ? & _).
  - destruct n as [|n]; simpl in Heq; [|rewrite Hg in Heq; simpl in Heq]; injection Heq as <- <-; split; done || apply still_refl.
Qed.

Lemma bind_loop_made roots w : (bind_loop now roots true w).1.1 = true.
Proof.
  revert w. induction roots as [|r roots IH]; intros w; simpl; [done|]. destruct (_ <=? _); [done|].
  destruct (actors (state w) !! r) as [a|]; [|done]. by destruct (admit_and_launch w r a BindPass None now) as [[p []] w'].
Qed.

Lemma bind_loop_visits roots w w' f :
  queues_inv c w → (∀ r a, r ∈ roots → actors (state w) !! r = Some a → fatal a = false) →
  bind_loop now roots false w = (false, f, w') →
  f = false ∧ still w w' ∧ (pass_guard (state w) BindPass → ∀ r, r ∈ roots → refuses w' BindPass r).
Proof.
  revert w. induction roots as [|r roots IH]; intros w Hinv Hf; simpl.
  { intros [= <- <-]. split_and!; [done|apply still_refl|]. by intros _ r ?%not_elem_of_nil. }
  destruct (Nat.leb_spec (idle_workers (state w)) (provider_reserve (config (state w)) - provider_inflight (state w))) as [Hle|_].
  { intros [= <- <-]. split_and!; [done|apply still_refl|]. lia. }
  destruct (actors (state w) !! r) as [a|] eqn:Ha.
  2:{ intros Heq. destruct (IH w) as (-> & H1 & H2); [done|intros r' a' ?; apply Hf; by right|done|].
      split_and!; [done|done|]. intros Hg r' [->|Hin]%elem_of_cons; [|by apply H2]. intros a' Ha'. exfalso.
      destruct H1 as [_ H1]. specialize (H1 r). by rewrite Ha, Ha' in H1. }
  pose proof (Hf r a ltac:(left) Ha) as Hfa. pose proof (admit_failed w r a BindPass None) as Hfail.
  assert ((admit_and_launch w r a BindPass None now).1.1 = false →
    still w (admit_and_launch w r a BindPass None now).2 ∧ refuses w BindPass r) as Hst.
  { intros Hm. destruct (admit_still w r a a BindPass None) as [H1 H2]; [done|done|done| | |done|].
    - exists (deficit a). by rewrite set_deficit_same.
    - by eapply Hinv.
    - split; [done|]. intros b Hb _. rewrite Ha in Hb. by injection Hb as <-. }
  destruct (admit_and_launch w r a BindPass None now) as [[p f1] w1]. simpl in Hfail, Hst. destruct p.
  { destruct f1; [done|]. intros Heq. pose proof (bind_loop_made roots w1) as Hm. by rewrite Heq in Hm. }
  rewrite Hfail by done. destruct Hst as [H1 Href]; [done|]. simpl. intros Heq.
  destruct (IH w1) as (-> & H2 & H3); [by eapply still_queues| |done|].
  { intros r' a' Hin Ha'. destruct H1 as [_ H1]. specialize (H1 r'). rewrite Ha' in H1. unfold alike in H1.
    destruct (actors (state w) !! r') as [b|] eqn:Hb; [|done]. destruct H1 as [-> _]. eapply Hf; [by right|done]. }
  pose proof (still_trans _ _ _ H1 H2) as H12. split_and!; [done|done|]. intros Hg r' [->|Hin]%elem_of_cons.
  - by eapply still_refuses.
  - apply H3; [|done]. destruct H1 as [H1 _]. unfold scene in H1. simpl in *. injection H1 as -> _ -> _ -> _ _ _ _. done.
Qed.

(** ** Workers that receive *)

(** No dispatch failed, and the workers still receive. *)
Definition went_well (r : Pass) : Prop := r.1.2 = false ∧ run_open r.2 = true.

Lemma admit_open w r a pass newest : run_open w = true → went_well (admit_and_launch w r a pass newest now).
Proof.
  intros Ho. unfold admit_and_launch. destruct (try_admit_actor _ _ _ _ _ _ _) as [[[job|] a'] h']; [|by destruct w].
  destruct w as [[] ? ? ? ? ? b]. simpl in Ho. by subst b.
Qed.

Lemma class_turn_open w r jc : run_open w = true → went_well (class_turn w r jc now).
Proof.
  intros Ho. unfold class_turn. destruct (actors (state w) !! r) as [a|]; [|done].
  destruct (fatal a); [by destruct (actor_fail_queued_jobs a), w|]. destruct (negb _); [by destruct w|].
  destruct (negb _); [done|]. destruct (_ <? _)%Z; [by destruct w|]. by apply admit_open.
Qed.

Lemma reserved_turn_open pass w r : run_open w = true → went_well (reserved_turn pass now w r).
Proof.
  intros Ho. unfold reserved_turn. destruct (actors (state w) !! r) as [a|]; [|done]. destruct (fatal a); [done|]. by apply admit_open.
Qed.

Lemma actor_loop_open fit guard turn n made w :
  (∀ w r, run_open w = true → went_well (turn w r)) → run_open w = true → went_well (actor_loop fit guard turn n made w).
Proof.
  intros Ht. revert made w. induction n as [|n IH]; intros made w Ho; simpl; [done|]. destruct (negb _); [done|].
  destruct (next_root fit (state w)) as [[r s]|]; [|done].
  destruct (Ht (set_state w s) r) as [H1 H2]; [by destruct w|]. destruct (turn (set_state w s) r) as [[p f] w1].
  simpl in *. subst f. by apply IH.
Qed.

Lemma bind_loop_open roots made w : run_open w = true → went_well (bind_loop now roots made w).
Proof.
  revert made w. induction roots as [|r roots IH]; intros made w Ho; simpl; [done|]. destruct (_ <=? _); [done|].
  destruct (actors (state w) !! r) as [a|]; [|by apply IH].
  destruct (admit_open w r a BindPass None Ho) as [H1 H2]. destruct (admit_and_launch w r a BindPass None now) as [[p f] w1].
  simpl in *. subst f. by apply IH.
Qed.

(** ** Rounds *)

(** Every registered actor has its turn. *)
Definition roster (w : World) : Prop := ∀ r, is_Some (actors (state w) !! r) → r ∈ actor_order (state w).

(** Every pass that has a worker admits nothing. *)
Definition rested (w : World) : Prop := ∀ pass r, pass_guard (state w) pass → refuses w pass r.

Lemma rested_idle w : idle_workers (state w) = 0 → rested w.
Proof. intros Hi pass r Hg. apply pass_guard_idle in Hg. lia. Qed.

Lemma still_roster w w' : still w w' → roster w → roster w'.
Proof.
  intros [H1 H2] Hr r [a Ha]. unfold scene in H1. assert (actor_order (state w') = actor_order (state w)) as -> by congruence.
  apply Hr. specialize (H2 r). rewrite Ha in H2. by destruct (actors (state w) !! r).
Qed.

Lemma still_guard w w' pass : still w w' → pass_guard (state w') pass → pass_guard (state w) pass.
Proof.
  intros [H1 _]. unfold scene in H1. injection H1 as H1 _ H2 H3 H4 H5 _ _ _.
  destruct pass as [| | |[]]; unfold pass_guard, can_dispatch_class; by rewrite H1, H2, ?H3, H4, ?H5.
Qed.

Lemma still_can_dispatch w w' jc : still w w' → can_dispatch_class (state w') jc = can_dispatch_class (state w) jc.
Proof. intros [H1 _]. unfold scene in H1. unfold can_dispatch_class. by injection H1 as -> _ -> -> -> -> _ _ _. Qed.

Lemma binds_quiet w w' f :
  queues_inv c w → dispatch_queued_binds w now = (false, f, w') →
  f = false ∧ still w w' ∧ ∀ r, pass_guard (state w) BindPass → refuses w' BindPass r.
Proof.
  intros Hinv Heq. unfold dispatch_queued_binds in Heq. destruct (bind_candidates_spec (state w)) as [_ Hc].
  destruct (bind_loop_visits (bind_candidates (state w)) w w' f) as (H1 & H2 & H3); [done| |done|].
  { intros r a Hin Ha. apply Hc in Hin as (b & Hb & Hf & _). congruence. }
  split_and!; [done|done|]. intros r Hg. destruct (decide (r ∈ bind_candidates (state w))) as [Hin|Hno]; [by apply H3|].
  apply (still_refuses w); [done|done|]. intros a Ha Hf. rewrite (proj1 Hinv). apply no_lane_refused. simpl.
  destruct (oldest_queued_bind_at (interactive a)) as [t|] eqn:Ho; [|done]. exfalso. apply Hno, Hc. exists a. by rewrite Ho.
Qed.

Lemma loop_quiet fit guard turn pass w w' f :
  fits fit → quiet_turn pass turn → (∀ w w', still w w' → guard (state w') = guard (state w)) →
  (pass_guard (state w) pass → guard (state w) = true) → queues_inv c w → roster w →
  actor_loop fit guard turn (length (actor_order (state w))) false w = (false, f, w') →
  f = false ∧ still w w' ∧ ∀ r, pass_guard (state w) pass → refuses w' pass r.
Proof.
  intros Hfit Hq Hguard Hpg Hinv Hros Heq.
  destruct (actor_loop_still _ _ _ _ _ _ _ _ Hfit Hq Hguard Hinv Heq) as [-> Hst]. split_and!; [done|done|].
  intros r Hg a Ha Hf. refine (actor_loop_asks_all _ _ _ _ _ _ _ r Hfit Hq Hguard Hinv (Hpg Hg) Heq _ a Ha Hf).
  destruct Hst as [_ Hst]. specialize (Hst r). rewrite Ha in Hst. apply Hros. by destruct (actors (state w) !! r).
Qed.

Lemma provider_quiet w w' f :
  queues_inv c w → roster w → dispatch_provider_metadata w now = (false, f, w') →
  f = false ∧ still w w' ∧ ∀ r, pass_guard (state w) ProviderPass → refuses w' ProviderPass r.
Proof.
  intros Hinv Hros. apply loop_quiet; [apply wrap_around_fits|by apply reserved_turn_quiet| | |done|done].
  - intros u u' [H1 _]. unfold scene in H1. injection H1 as -> _ -> _ -> _ _ _ _. done.
  - intros [Hi Hp]. apply andb_true_iff. split; [apply negb_true_iff, Nat.eqb_neq; lia|by apply Nat.ltb_lt].
Qed.

Lemma ledger_quiet w w' f :
  queues_inv c w → roster w → dispatch_call_ledger w now = (false, f, w') →
  f = false ∧ still w w' ∧ ∀ r, pass_guard (state w) LedgerPass → refuses w' LedgerPass r.
Proof.
  intros Hinv Hros. apply loop_quiet; [apply wrap_around_fits|by apply reserved_turn_quiet| |done|done|done].
  intros u u'. apply still_can_dispatch.
Qed.

Lemma class_quiet w w' f jc :
  queues_inv c w → roster w → dispatch_runnable_class w jc now = (false, f, w') →
  f = false ∧ still w w' ∧ ∀ r, pass_guard (state w) (ClassPass jc) → refuses w' (ClassPass jc) r.
Proof.
  intros Hinv Hros. apply loop_quiet; [apply start_over_fits|apply class_turn_quiet| |done|done|done].
  intros u u'. apply still_can_dispatch.
Qed.

(** A round that launches nothing leaves nothing to launch. *)
Lemma round_quiet w w' :
  queues_inv c w → roster w → dispatch_round w now = (w', Some false) → still w w' ∧ rested w'.
Proof.
  intros Hinv Hros. unfold dispatch_round.
  destruct (dispatch_queued_binds w now) as [[m1 f1] w1] eqn:E1. destruct (f1 || _); [done|].
  destruct (dispatch_provider_metadata w1 now) as [[m2 f2] w2] eqn:E2. destruct (f2 || _); [done|].
  destruct (dispatch_call_ledger w2 now) as [[m3 f3] w3] eqn:E3. destruct (f3 || _); [done|].
  destruct (dispatch_runnable_class w3 Interactive now) as [[m4 f4] w4] eqn:E4. destruct (f4 || _); [done|].
  set (last := if can_dispatch_class (state w4) Maintenance then _ else _).
  assert (last = (w', Some false) → m1 || m2 || m3 || m4 = false ∧
    (w4 = w' ∧ can_dispatch_class (state w4) Maintenance = false ∨
     ∃ f5, dispatch_runnable_class w4 Maintenance now = (false, f5, w'))) as Hlast.
  { unfold last. destruct (can_dispatch_class (state w4) Maintenance); [|by intros [= -> ->]; split; [|left]].
    destruct (dispatch_runnable_class w4 Maintenance now) as [[m5 []] w5]; [done|]. intros [= -> [Hm ->]%orb_false_iff].
    split; [done|right]. by eexists. }
  intros (Hm & H5)%Hlast. clear Hlast last. apply orb_false_iff in Hm as [[[-> ->]%orb_false_iff ->]%orb_false_iff ->].
  apply binds_quiet in E1 as (_ & S1 & R1); [|done].
  pose proof (still_queues _ _ S1 Hinv) as I1. pose proof (still_roster _ _ S1 Hros) as O1.
  apply provider_quiet in E2 as (_ & S2 & R2); [|done..].
  pose proof (still_queues _ _ S2 I1) as I2. pose proof (still_roster _ _ S2 O1) as O2.
  apply ledger_quiet in E3 as (_ & S3 & R3); [|done..].
  pose proof (still_queues _ _ S3 I2) as I3. pose proof (still_roster _ _ S3 O2) as O3.
  apply class_quiet in E4 as (_ & S4 & R4); [|done..].
  pose proof (still_queues _ _ S4 I3) as I4. pose proof (still_roster _ _ S4 O3) as O4.
  assert (still w4 w' ∧ ∀ r, pass_guard (state w4) (ClassPass Maintenance) → refuses w' (ClassPass Maintenance) r) as [S5 R5].
  { destruct H5 as [[<- Hg]|[f5 E5]]; [split; [apply still_refl|intros r Hr; by rewrite Hr in Hg]|].
    by apply class_quiet in E5 as (_ & ? & ?). }
  pose proof (still_trans _ _ _ S4 S5) as S45. pose proof (still_trans _ _ _ S3 S45) as S35.
  pose proof (still_trans _ _ _ S2 S35) as S25. pose proof (still_trans _ _ _ S1 S25) as S15. split; [done|].
  intros pass r Hg. destruct pass as [| | |[]].
  - eapply still_refuses; [exact I1|done|]. eapply R1, still_guard; [exact S15|done].
  - eapply still_refuses; [exact I2|done|]. eapply R2, still_guard; [exact S25|done].
  - eapply still_refuses; [exact I3|done|]. eapply R3, still_guard; [exact S35|done].
  - eapply still_refuses; [exact I4|done|]. eapply R4, still_guard; [exact S45|done].
  - eapply R5, still_guard; [exact S5|done].
Qed.

Lemma round_ends w w' : run_open w = true → dispatch_round w now = (w', None) → idle_workers (state w') = 0.
Proof.
  intros Ho. unfold dispatch_round.
  destruct (bind_loop_open (bind_candidates (state w)) false w Ho) as [F1 O1]. fold (dispatch_queued_binds w now) in F1, O1.
  destruct (dispatch_queued_binds w now) as [[m1 f1] w1]. simpl in F1, O1. subst f1. simpl.
  destruct (Nat.eqb_spec (idle_workers (state w1)) 0); [by intros [= <-]|].
  assert (went_well (dispatch_provider_metadata w1 now)) as [F2 O2]
    by (apply actor_loop_open; [intros; by apply reserved_turn_open|done]).
  destruct (dispatch_provider_metadata w1 now) as [[m2 f2] w2]. simpl in F2, O2. subst f2. simpl.
  destruct (Nat.eqb_spec (idle_workers (state w2)) 0); [by intros [= <-]|].
  assert (went_well (dispatch_call_ledger w2 now)) as [F3 O3]
    by (apply actor_loop_open; [intros; by apply reserved_turn_open|done]).
  destruct (dispatch_call_ledger w2 now) as [[m3 f3] w3]. simpl in F3, O3. subst f3. simpl.
  destruct (Nat.eqb_spec (idle_workers (state w3)) 0); [by intros [= <-]|].
  assert (∀ w jc, run_open w = true → went_well (dispatch_runnable_class w jc now)) as Hcl
    by (intros u jc Hu; apply actor_loop_open; [intros; by apply class_turn_open|done]).
  destruct (Hcl w3 Interactive O3) as [F4 O4].
  destruct (dispatch_runnable_class w3 Interactive now) as [[m4 f4] w4]. simpl in F4, O4. subst f4. simpl.
  destruct (Nat.eqb_spec (idle_workers (state w4)) 0); [by intros [= <-]|].
  destruct (can_dispatch_class (state w4) Maintenance); [|done]. destruct (Hcl w4 Maintenance O4) as [F5 _].
  destruct (dispatch_runnable_class w4 Maintenance now) as [[m5 f5] w5]. simpl in F5. by subst f5.
Qed.

End Still.

(** ** The roster is kept *)

Definition staffed (w : World) : Prop := roster w ∧ run_open w = true.

Lemma staffed_new c : staffed (world_new c).
Proof. split; [|done]. intros r [a Ha]. simpl in Ha. by rewrite lookup_empty in Ha. Qed.

(** No actor appears. *)
Lemma staffed_mono w w' :
  run_open w' = run_open w → actor_order (state w') = actor_order (state w) →
  (∀ r, is_Some (actors (state w') !! r) → is_Some (actors (state w) !! r)) → staffed w → staffed w'.
Proof. intros Ho Hl Hsub [H1 H2]. split; [|congruence]. intros r Hr. rewrite Hl. by apply H1, Hsub. Qed.

Lemma staffed_insert (m : gmap str ActorState) r a a' r' :
  m !! r = Some a → is_Some (<[r := a']> m !! r') → is_Some (m !! r').
Proof.
  intros Ha. destruct (decide (r = r')) as [<-|Hne]; [by rewrite Ha|]. by rewrite lookup_insert_ne.
Qed.

Lemma staffed_drop w r : staffed w → staffed (drop_actor w r).
Proof.
  intros [H1 H2]. destruct w as [[]]. unfold drop_actor. split; [|done]. intros r' Hr'. proj. simpl in *.
  apply lookup_delete_is_Some in Hr' as [Hne Hr']. apply list_elem_of_filter. split; [done|]. by apply H1.
Qed.

Lemma requeue_staffed s r cancelled j :
  actor_order (requeue_bind s r cancelled j).2 = actor_order s ∧
  ∀ r', is_Some (actors (requeue_bind s r cancelled j).2 !! r') → is_Some (actors s !! r').
Proof.
  unfold requeue_bind. destruct (match q_cancellation j with Some t => cancelled t | None => false end); [done|].
  destruct (actors s !! r) as [a|] eqn:Ha; [|done]. destruct (fatal a); [done|]. destruct s. simpl in *. split; [done|].
  intros r'. by eapply staffed_insert.
Qed.

Lemma complete_staffed w cancelled e : staffed w → staffed (complete_job w cancelled e).2.
Proof.
  intros Hst. unfold complete_job. destruct (running_jobs _ !! e_job_id e) as [g|]; [|by apply (staffed_mono w); destruct w].
  set (s1 := end_running _ _ g).
  assert (actor_order s1 = actor_order (state w) ∧ actors s1 = actors (state w)) as [Ho1 Ha1] by (unfold s1; by destruct w as [[]]).
  clearbody s1. set (mid := match actors s1 !! g_root_id g with Some a => _ | None => _ end).
  assert (actor_order mid.2 = actor_order s1 ∧ ∀ r, is_Some (actors mid.2 !! r) → is_Some (actors s1 !! r)) as [Ho2 Ha2].
  { unfold mid. destruct (actors s1 !! g_root_id g) as [a|] eqn:Ea; [|done]. destruct (end_actor a g (e_outcome e)) as [ans a'].
    destruct s1. simpl in *. split; [done|]. intros r. by eapply staffed_insert. }
  destruct mid as [ans s2]. simpl in Ho2, Ha2. set (fin := match e_requeue e with Some q => _ | None => _ end).
  assert (actor_order fin.2 = actor_order s2 ∧ ∀ r, is_Some (actors fin.2 !! r) → is_Some (actors s2 !! r)) as [Ho3 Ha3].
  { unfold fin. destruct (e_requeue e) as [j|]; [apply requeue_staffed|done]. }
  destruct fin as [ans' s3]. simpl in Ho3, Ha3. apply (staffed_mono w); destruct w, s3; simpl in *; [done|congruence| |done].
  rewrite <-Ha1. auto.
Qed.

Lemma staffed_atom q w new w' : atom q w new w' → staffed w → staffed w'.
Proof.
  intros Ha Hst. destruct Ha as [w' Hb|r a a' new ans Ha _|co rs|r ctx Ha|r _|r a p Ha _|id v msg now w' Hf|
    cancelled e rest He|r a pass newest now job a' h' Ha _ _ _ _ _|].
  - unfold same_books in Hb. simplify_eq. apply (staffed_mono w); [congruence|congruence| |done]. intros r. congruence.
  - apply (staffed_mono w); destruct w as [[]]; [done|done| |done]. intros r'. simpl in *. by eapply staffed_insert.
  - apply (staffed_mono w); by destruct w as [[]].
  - destruct Hst as [H1 H2]. destruct w as [[]]. split; [|done]. intros r' Hr'. proj. simpl in *. apply elem_of_app.
    destruct (decide (r = r')) as [<-|Hne]; [right; by apply list_elem_of_singleton|left].
    rewrite lookup_insert_ne in Hr' by done. by apply H1.
  - by apply staffed_drop.
  - by apply staffed_drop.
  - destruct (worker_finish_ledger w id v msg now w' Hf) as (job & e & _ & _ & _ & Hs & _).
    apply (staffed_mono w); [|congruence|intros r'; congruence|done].
    unfold worker_finish in Hf. apply bind_Some in Hf as (job' & _ & [= <-]). destruct w.
    destruct (run_lane_job job' v) as [[|ra]|]; [done| |done]. simpl. by destruct (requeue_as_exclusive job' v ra now).
  - apply complete_staffed. apply (staffed_mono w); by destruct w.
  - apply (staffed_mono w); destruct w as [[] ? ? ? ? ? []]; try done; intros r'; simpl in *; by eapply staffed_insert.
  - apply (staffed_mono w); destruct w as [[]]; try done. intros r'. simpl. rewrite lookup_fmap. by destruct (_ !! r').
Qed.

Lemma staffed_atoms q w new w' : atoms q w new w' → staffed w → staffed w'.
Proof. induction 1 as [|w n1 w1 n2 w2 H1 _ IH]; [done|]. intros. apply IH. by eapply staffed_atom. Qed.

Lemma staffed_reachable q c cs w : reachable q c cs w → staffed w.
Proof.
  apply (reachable_atoms q c staffed); [apply staffed_new|]. intros _ w1 new w2 _ Hs Ha. by eapply staffed_atom.
Qed.

(** ** The loop *)

(** One unit of fuel more than there are idle workers is enough: the loop then ends by itself,
    with nothing left to launch. *)
Lemma dispatch_loop_rests c cs now fuel w :
  inv c cs w → staffed w → ready c w → idle_workers (state w) < fuel → rested now (dispatch_loop fuel w now).
Proof.
  revert w. induction fuel as [|fuel IH]; intros w Hi Hst Hr Hfuel; [lia|]. simpl.
  destruct (Nat.eqb_spec (idle_workers (state w)) 0) as [H0|H0]; simpl; [by apply rested_idle|].
  destruct (bool_decide_reflect (actor_order (state w) = [])) as [Hn|_].
  { intros pass r _ a Ha. destruct Hst as [Hst _]. specialize (Hst r ltac:(by rewrite Ha)). rewrite Hn in Hst.
    by apply not_elem_of_nil in Hst. }
  destruct (dispatch_round_launches (λ _ _, True) c now w Hr) as (m & Hl & Hm).
  destruct (dispatch_round w now) as [w' o] eqn:E. simpl in Hl, Hm. destruct o as [[]|].
  - apply IH.
    + rewrite <-(app_nil_r cs). eapply inv_atoms; [done|apply Hl].
    + eapply staffed_atoms; [apply Hl|done].
    + by eapply launches_ready.
    + specialize (Hm true eq_refl). subst m. pose proof (l_idle _ _ _ _ Hl) as Hx. simpl in Hx. lia.
  - by eapply (round_quiet c now w w'); [apply Hi|apply Hst|].
  - eapply rested_idle, round_ends; [apply Hst|done].
Qed.

(** More fuel changes nothing. *)
Lemma dispatch_loop_fuel c now fuel k w :
  ready c w → idle_workers (state w) < fuel → dispatch_loop (fuel + k) w now = dispatch_loop fuel w now.
Proof.
  revert w. induction fuel as [|fuel IH]; intros w Hr Hfuel; [lia|]. simpl.
  destruct (_ || _); [done|]. destruct (dispatch_round_launches (λ _ _, True) c now w Hr) as (m & Hl & Hm).
  destruct (dispatch_round w now) as [w' [[]|]]; [|done..]. simpl in Hl, Hm. apply IH; [by eapply launches_ready|].
  specialize (Hm true eq_refl). subst m. pose proof (l_idle _ _ _ _ Hl) as Hx. simpl in Hx. lia.
Qed.

(** ** A turn *)

Lemma rested_books now w w' : same_books w w' → rested now w → rested now w'.
Proof.
  intros Hb Hr pass r Hg. unfold same_books in Hb. injection Hb as E1 _ E2 _ E3 E4 E5 E6 E7 _ E8 _ _ _ _ _.
  assert (pass_guard (state w) pass) as Hg'.
  { destruct pass as [| | |[]]; unfold pass_guard, can_dispatch_class in *; by rewrite E6, E2, ?E3, E4, ?E5 in Hg. }
  specialize (Hr pass r Hg'). unfold refuses, newest_of, newest_in_flight_reader_started_at in *.
  by rewrite E1, E6, E7, E8.
Qed.

Lemma ids_ready c cs w w1 : inv c cs w → inv c cs w1 → ids_left w → next_job_id (state w1) = next_job_id (state w) → ready c w1.
Proof.
  intros Hi Hi1 Hids Hn. split; [apply Hi1|]. pose proof (b_total c w1 (i_books c cs w1 Hi1)) as Ht. unfold ids_left in Hids.
  rewrite (proj1 (i_queues c cs w Hi)) in Hids. lia.
Qed.

Lemma turn_body_rests c cs w e cancelled now :
  inv c cs (set_events w (e :: events w)) → staffed w → ids_left w →
  stopped (turn_body w cancelled now e) = false → rested now (turn_body w cancelled now e).
Proof.
  intros Hi Hst Hids. unfold turn_body.
  destruct (process_first_atoms (λ _ _, True) (SCHEDULER_EVENT_BATCH_CAP - 1) w cancelled e) as [H1 H2].
  change (S (SCHEDULER_EVENT_BATCH_CAP - 1)) with SCHEDULER_EVENT_BATCH_CAP in H1, H2.
  destruct (process_batch SCHEDULER_EVENT_BATCH_CAP w cancelled (Some e)) as [stop w1]. simpl in H1, H2.
  destruct stop; [by destruct w1|]. intros _.
  pose proof (inv_atoms c _ cs _ _ _ Hi H1) as Hi1. rewrite app_nil_r in Hi1.
  assert (staffed w1) as Hst1 by (eapply staffed_atoms; [done|]; by apply (staffed_mono w); destruct w).
  assert (ready c w1) as Hr1 by (eapply (ids_ready c cs _ w1 Hi Hi1); destruct w; done).
  pose proof (dispatch_loop_rests c cs now (S (idle_workers (state w1))) w1 Hi1 Hst1 Hr1 ltac:(lia)) as Hrest.
  fold (dispatch_runnable w1 now) in Hrest. eapply rested_books; [|done]. unfold next_bind_retry_at.
  destruct (bind_retry_pending _); by destruct (dispatch_runnable w1 now) as [[]].
Qed.

(** C32: In every reachable state the dispatch loop ends by itself within as many rounds as there
    are idle workers and one more; and a turn of the scheduler that does not stop it leaves
    nothing it could run: whatever pass still has a worker it may use, and whatever actor that
    has not failed, the pass admits no job of that actor. *)
Theorem turn_leaves_nothing_runnable q c cs w now :
  reachable q c cs w → ids_left w →
  (∀ k, dispatch_loop (S (idle_workers (state w)) + k) w now = dispatch_runnable w now) ∧
  ∀ due cancelled w', scheduler_turn w due cancelled now = Some w' → stopped w' = false →
    ∀ pass r a, pass_guard (state w') pass → actors (state w') !! r = Some a → fatal a = false →
      (try_admit_actor r a pass (config (state w')) (heavy w') (newest_of w' r pass) now).1.1 = None.
Proof.
  intros Hreach Hids. pose proof (world_inv q c cs w Hreach) as Hi. pose proof (staffed_reachable q c cs w Hreach) as Hst.
  split; [intros k; apply (dispatch_loop_fuel c); [by eapply ids_ready|lia]|].
  intros due cancelled w' Hturn Hstop pass r a Hg Ha Hf.
  assert (rested now w') as Hrest; [|by apply (Hrest pass r)].
  unfold scheduler_turn in Hturn. destruct (stopped w); [done|]. destruct (events w) as [|e rest] eqn:He.
  - destruct due; [|done]. injection Hturn as <-. apply (turn_body_rests c cs); [|done|done|done].
    destruct (app_nil_r cs). apply (inv_atom c q cs w []); [done|]. apply atom_books. by destruct w.
  - injection Hturn as <-. assert (set_events (set_events w rest) (e :: events (set_events w rest)) = w) as Hw
      by (destruct w; simpl in *; by subst).
    apply (turn_body_rests c cs); [by rewrite Hw| |by destruct w|done]. by apply (staffed_mono w); destruct w.
Qed.

(** A second turn: the writer that waits behind the read stays refused, with workers idle. *)
Lemma turn_leaves_nothing_runnable_witness :
  ∃ w' a, scheduler_turn (wake_scheduler wbusy_world) false (λ _, false) 2500 = Some w' ∧ stopped w' = false ∧
    pass_guard (state w') (ClassPass Interactive) ∧ actors (state w') !! wroot = Some a ∧ fatal a = false ∧
    length (mutating (interactive a)) = 1 ∧
    (try_admit_actor wroot a (ClassPass Interactive) (config (state w')) (heavy w')
       (newest_of w' wroot (ClassPass Interactive)) 2500).1.1 = None.
Proof.
  pose (w := wake_scheduler wbusy_world).
  assert (reachable (λ _ _, True) wconfig [10; 11; 12]%N w) as Hr.
  { apply (reachable_step _ _ [10; 11; 12]%N wbusy_world (RegisterActor wroot 1)); [apply wbusy_reachable|..].
    - vm_compute. reflexivity.
    - done.
    - by_compute.
    - by_compute. }
  destruct (scheduler_turn w false (λ _, false) 2500) as [w'|] eqn:Et; [|vm_compute in Et; discriminate Et].
  assert (stopped w' = false ∧ can_dispatch_class (state w') Interactive = true) as [Hs Hg]
    by (vm_compute in Et; injection Et as <-; split; reflexivity).
  destruct (actors (state w') !! wroot) as [a|] eqn:Ea; [|vm_compute in Et; injection Et as <-; vm_compute in Ea; discriminate Ea].
  assert (fatal a = false ∧ length (mutating (interactive a)) = 1) as [Hf Hl]
    by (vm_compute in Et; injection Et as <-; vm_compute in Ea; injection Ea as <-; split; reflexivity).
  exists w', a. split; [exact Et|]. split; [exact Hs|]. split; [exact Hg|]. split; [exact Ea|]. split; [exact Hf|]. split; [exact Hl|].
  apply (proj2 (turn_leaves_nothing_runnable (λ _ _, True) wconfig _ w 2500 Hr ltac:(by_compute))
           false (λ _, false) w' Et Hs (ClassPass Interactive) wroot a Hg Ea Hf).
Defined.

End SchedulerDispatch.
