(* ===== verification/PatchSeek.v ===== *)
(** * Match tiers: [seek_sequence_tiered] of [patch/matcher.rs]

    The order in which a hunk is looked for: exactly, then under coarser and coarser
    equalities of lines, where every tier but the first must be unambiguous. *)

From S2P Require Import Prelude RustStr PatchMatcher Reflow ReflowSpec.
Import PatchMatcher Reflow ReflowSpec.

Module PatchSeek.

(** ** Normalisations *)

(** Smart quotes, dashes, the ellipsis and the no-break space in ASCII. *)
Definition unicode_char (ch : char) : str :=
  if bool_decide (ch ∈ [0x2018; 0x2019; 0x201A; 0x201B]%N) then [39%N]
  else if bool_decide (ch ∈ [0x201C; 0x201D; 0x201E; 0x201F]%N) then [34%N]
  else if bool_decide (ch ∈ [0x2010; 0x2011; 0x2012; 0x2013; 0x2014; 0x2015]%N) then [45%N]
  else if bool_decide (ch = 0x2026%N) then lit "..."
  else if bool_decide (ch = 0xA0%N) then [SPACE]
  else [ch].

Definition normalize_unicode (input : str) : str :=
  foldl (λ normalized ch, normalized ++ unicode_char ch) [] input.

(** [unicode_characters]: the same replacement as an iterator. *)
Definition unicode_characters (input : str) : str := input ≫= unicode_char.

Definition normalize_indent (input : str) : str :=
  let leading := length (take_while (λ ch, (ch =? TAB)%N || (ch =? SPACE)%N) input) in
  if bool_decide (leading = 0) then input else replicate leading SPACE ++ drop leading input.

(** ** Tiers *)

Inductive MatchTier := TierExact | TierRstrip | TierTrim | TierIndent | TierUnicode | TierReflow.
#[export] Instance MatchTier_eq_dec : EqDecision MatchTier.
Proof. solve_decision. Defined.

Record SequenceMatch := MkMatch { found : nat; tier : MatchTier; line_count : nat }.

(** The line comparisons: [a == b], [a.trim_end() == b.trim_end()], [a.trim() == b.trim()] and
    the Unicode characters of the trimmed lines. *)
Definition key_eq (key : str → str) (a b : str) : bool := bool_decide (key a = key b).
Definition exact_eq : str → str → bool := key_eq id.
Definition rstrip_eq : str → str → bool := key_eq trim_end.
Definition trim_eq : str → str → bool := key_eq trim.
Definition indent_eq : str → str → bool := key_eq trim.
Definition unicode_eq : str → str → bool := key_eq (unicode_characters ∘ trim).

(** [&'static str]: the one error of the search. *)
Inductive SeekError := AmbiguousNonExact.

Definition unique_match (first : option nat) (next : nat → option nat) : result SeekError (option nat) :=
  match first with
  | Some f => match next (f + 1) with Some _ => Err AmbiguousNonExact | None => Ok first end
  | None => Ok None
  end.

Definition tier_match (compare : str → str → bool) (lines pattern : list str) (start_index : nat)
    (eof : bool) : result SeekError (option nat) :=
  unique_match (try_match compare lines pattern start_index eof)
    (λ next, try_match compare lines pattern next eof).

Definition seek_sequence_tiered_checked (lines pattern : list str) (start_index : nat) (eof : bool) :
    result SeekError (option SequenceMatch) :=
  let matched f t := Ok (Some (MkMatch f t (length pattern))) in
  if bool_decide (pattern = []) then Ok None
  else match try_match exact_eq lines pattern start_index eof with
  | Some f => matched f TierExact
  | None =>
      r ← tier_match rstrip_eq lines pattern start_index eof;
      match r with
      | Some f => matched f TierRstrip
      | None =>
          r ← tier_match trim_eq lines pattern start_index eof;
          match r with
          | Some f => matched f TierTrim
          | None =>
              r ← unique_match (normalized_sequence_match indent_eq lines pattern start_index eof)
                    (λ next, normalized_sequence_match indent_eq lines pattern next eof);
              match r with
              | Some f => matched f TierIndent
              | None =>
                  r ← unique_match (normalized_sequence_match unicode_eq lines pattern start_index eof)
                        (λ next, normalized_sequence_match unicode_eq lines pattern next eof);
                  match r with
                  | Some f => matched f TierUnicode
                  | None =>
                      if eof then Ok None
                      else Ok ((λ '(f, n), MkMatch f TierReflow n)
                                 <$> find_reflow_match lines pattern start_index)
                  end
              end
          end
      end
  end.

(** [seek_sequence_tiered] and [patch/apply.rs]'s [seek_sequence]. *)
Definition seek_sequence_tiered (lines pattern : list str) (start_index : nat) (eof : bool) :
    option SequenceMatch :=
  default None (result_ok (seek_sequence_tiered_checked lines pattern start_index eof)).
Definition seek_sequence (lines pattern : list str) (start_index : nat) (eof : bool) : option nat :=
  found <$> seek_sequence_tiered lines pattern start_index eof.

(** ** Line comparisons are equivalences *)

#[export] Instance key_eq_equivalence key : Equivalence (λ a b, key_eq key a b = true).
Proof.
  unfold key_eq. split.
  - intros x. by apply bool_decide_eq_true.
  - intros x y. rewrite !bool_decide_eq_true. done.
  - intros x y z. rewrite !bool_decide_eq_true. congruence.
Qed.

(** ** What a search answers *)

Section Hits.
Context (lines pattern : list str) (start : nat) (eof : bool).

(** A place where the pattern may be looked for. *)
Definition eligible (s : nat) : Prop :=
  start ≤ s ∧ s + length pattern ≤ length lines ∧ (eof = true → s = length lines - length pattern).

(** Every line of the pattern equals the line of the file under a comparison. *)
Definition hit (compare : str → str → bool) (s : nat) : Prop :=
  eligible s ∧ matches_at compare lines pattern s = true.

End Hits.

Lemma try_match_spec key lines pattern start eof :
  pattern ≠ [] →
  match try_match (key_eq key) lines pattern start eof with
  | Some s => hit lines pattern start eof (key_eq key) s ∧
      ∀ s', hit lines pattern start eof (key_eq key) s' → s ≤ s'
  | None => ∀ s, ¬ hit lines pattern start eof (key_eq key) s
  end.
Proof.
  intros Hp. unfold try_match. rewrite (normalized_sequence_match_oracle _ _).
  unfold try_match_scan_oracle, hit, eligible. rewrite bool_decide_false by done. simpl.
  destruct (_ <? length pattern) eqn:E; [apply Nat.ltb_lt in E|apply Nat.ltb_ge in E].
  { intros s ((_ & ? & _) & _). lia. }
  destruct eof.
  - destruct (_ && _) eqn:Hm.
    + apply andb_true_iff in Hm as [Hs%Nat.leb_le Hm]. split.
      * split; [|done]. split_and!; [done|lia|done].
      * intros s' ((_ & _ & Hs') & _). rewrite Hs'; done.
    + intros s ((H1 & H2 & H3) & Hs). rewrite H3 in * by done.
      rewrite Hs, andb_true_r in Hm. apply Nat.leb_gt in Hm. lia.
  - destruct (_ <? start) eqn:E2; [apply Nat.ltb_lt in E2|apply Nat.ltb_ge in E2].
    { intros s ((? & ? & _) & _). lia. }
    destruct (filter _ _) as [|s ss] eqn:Hf; simpl.
    + intros s ((H1 & H2 & _) & Hs).
      assert (s ∈ filter (λ start, matches_at (key_eq key) lines pattern start = true)
        (range_incl start (length lines - length pattern))) as Hin.
      { apply list_elem_of_filter. split; [done|]. apply elem_of_range_incl. lia. }
      rewrite Hf in Hin. by apply not_elem_of_nil in Hin.
    + assert (s ∈ filter (λ start, matches_at (key_eq key) lines pattern start = true)
        (range_incl start (length lines - length pattern))) as Hin by (rewrite Hf; by left).
      apply list_elem_of_filter in Hin as [Hs Hin%elem_of_range_incl].
      split; [split; [split_and!; [lia|lia|done]|done]|].
      intros s' ((H1 & H2 & _) & Hs').
      assert (s' ∈ s :: ss) as Hin'.
      { rewrite <-Hf. apply list_elem_of_filter. split; [done|]. apply elem_of_range_incl. lia. }
      assert (StronglySorted (≤) (s :: ss)) as Hsort
        by (rewrite <-Hf; apply StronglySorted_filter, StronglySorted_seq).
      apply StronglySorted_inv in Hsort as [_ Hall]. rewrite Forall_forall in Hall.
      apply elem_of_cons in Hin' as [->|Hin']; [done|by apply Hall].
Qed.

(** A tier that needs uniqueness. *)
Lemma tier_match_spec key lines pattern start eof :
  pattern ≠ [] →
  match tier_match (key_eq key) lines pattern start eof with
  | Ok (Some s) => hit lines pattern start eof (key_eq key) s ∧
      ∀ s', hit lines pattern start eof (key_eq key) s' → s' = s
  | Ok None => ∀ s, ¬ hit lines pattern start eof (key_eq key) s
  | Err _ => ∃ s s', s < s' ∧ hit lines pattern start eof (key_eq key) s ∧
      hit lines pattern start eof (key_eq key) s'
  end.
Proof.
  intros Hp. unfold tier_match, unique_match.
  pose proof (try_match_spec key lines pattern start eof Hp) as H1.
  destruct (try_match (key_eq key) lines pattern start eof) as [s|]; [|done].
  destruct H1 as [Hs Hmin]. pose proof (try_match_spec key lines pattern (s + 1) eof Hp) as H2.
  assert (∀ s', start ≤ s' → hit lines pattern (s + 1) eof (key_eq key) s' →
    s < s' ∧ hit lines pattern start eof (key_eq key) s') as Hup.
  { unfold hit, eligible. intros s' Hs' ((H3 & H4 & H5) & H6). split; [lia|]. by split_and!. }
  destruct (try_match (key_eq key) lines pattern (s + 1) eof) as [s2|].
  - destruct H2 as [H2 _]. exists s, s2.
    assert (start ≤ s2) as Hle by (destruct H2 as [[H2 _] _], Hs as [[Hs _] _]; lia).
    destruct (Hup s2 Hle H2). done.
  - split; [done|]. intros s' Hs'. specialize (Hmin s' Hs'). destruct (decide (s' = s)); [done|].
    destruct (H2 s'). destruct Hs' as [(H3 & H4 & H5) H6]. split; [|done]. split_and!; [lia|done|done].
Qed.

(** The comparison of a line tier. *)
Definition tier_compare (t : MatchTier) : str → str → bool :=
  match t with
  | TierExact | TierReflow => exact_eq
  | TierRstrip => rstrip_eq
  | TierTrim | TierIndent => trim_eq
  | TierUnicode => unicode_eq
  end.

(** No tier of the list has a hit. *)
Definition no_hits (lines pattern : list str) (start : nat) (eof : bool) (ts : list MatchTier) : Prop :=
  ∀ t s, t ∈ ts → ¬ hit lines pattern start eof (tier_compare t) s.

(** A search result is right: which window, that nothing stricter matched, and why it is the
    one. *)
Definition seek_ok (lines pattern : list str) (start : nat) (eof : bool) (m : SequenceMatch) : Prop :=
  match tier m with
  | TierExact =>
      line_count m = length pattern ∧ hit lines pattern start eof exact_eq (found m) ∧
      ∀ s, hit lines pattern start eof exact_eq s → found m ≤ s
  | TierIndent => False
  | TierReflow =>
      eof = false ∧ start ≤ found m ∧ no_hits lines pattern start eof [TierExact; TierRstrip; TierTrim; TierUnicode] ∧
      let needle := normalize_reflow_whitespace (join [LF] pattern) in
      reflow_window (drop start lines) needle (found m - start) (found m - start + line_count m) ∧
      ∀ s e, reflow_window (drop start lines) needle s e →
        s = found m - start ∧ e = found m - start + line_count m
  | t =>
      line_count m = length pattern ∧ hit lines pattern start eof (tier_compare t) (found m) ∧
      (∀ s, hit lines pattern start eof (tier_compare t) s → s = found m) ∧
      no_hits lines pattern start eof
        (match t with
         | TierRstrip => [TierExact]
         | TierTrim => [TierExact; TierRstrip]
         | _ => [TierExact; TierRstrip; TierTrim]
         end)
  end.

(** The tiers that compare lines, in the order they are tried. *)
Definition line_tiers : list MatchTier := [TierExact; TierRstrip; TierTrim; TierUnicode].

(** There is no result: no line tier has a hit, and the reflow search has no single window. *)
Definition seek_missing (lines pattern : list str) (start : nat) (eof : bool) : Prop :=
  no_hits lines pattern start eof line_tiers ∧
  (eof = true ∨
   let needle := normalize_reflow_whitespace (join [LF] pattern) in
   let rest := drop start lines in
   needle = [] ∨ (∀ s e, ¬ reflow_window rest needle s e) ∨
   ∃ s e s' e', (s, e) ≠ (s', e') ∧ reflow_window rest needle s e ∧ reflow_window rest needle s' e').

(** The first line tier with a hit is not the exact one and has two. *)
Definition seek_ambiguous (lines pattern : list str) (start : nat) (eof : bool) : Prop :=
  ∃ stricter t looser s s', line_tiers = stricter ++ t :: looser ∧ stricter ≠ [] ∧
    no_hits lines pattern start eof stricter ∧ s < s' ∧
    hit lines pattern start eof (tier_compare t) s ∧ hit lines pattern start eof (tier_compare t) s'.

Lemma no_hits_cons lines pattern start eof t ts :
  (∀ s, ¬ hit lines pattern start eof (tier_compare t) s) →
  no_hits lines pattern start eof ts → no_hits lines pattern start eof (t :: ts).
Proof. intros H1 H2 t' s [->|Ht]%elem_of_cons; [apply H1|by apply H2]. Qed.

Lemma no_hits_nil lines pattern start eof : no_hits lines pattern start eof [].
Proof. intros t s Ht. by apply not_elem_of_nil in Ht. Qed.

#[local] Hint Resolve no_hits_cons no_hits_nil : aft.

Lemma seek_spec lines pattern start eof :
  pattern ≠ [] →
  match seek_sequence_tiered_checked lines pattern start eof with
  | Ok (Some m) => seek_ok lines pattern start eof m
  | Ok None => seek_missing lines pattern start eof
  | Err _ => seek_ambiguous lines pattern start eof
  end.
Proof.
  intros Hp. unfold seek_sequence_tiered_checked. rewrite bool_decide_false by done.
  pose proof (try_match_spec id lines pattern start eof Hp) as H0. fold exact_eq in H0.
  destruct (try_match exact_eq lines pattern start eof) as [s|]; [split_and!; naive_solver|].
  pose proof (tier_match_spec trim_end lines pattern start eof Hp) as H1. fold rstrip_eq in H1.
  destruct (tier_match rstrip_eq lines pattern start eof) as [[s|]|]; simpl.
  { destruct H1 as [Hs Hu]. split_and!; eauto with aft. }
  2:{ destruct H1 as (s & s' & ? & ? & ?). exists [TierExact], TierRstrip, [TierTrim; TierUnicode], s, s'. split_and!; eauto with aft. }
  pose proof (tier_match_spec trim lines pattern start eof Hp) as H2. fold trim_eq in H2.
  destruct (tier_match trim_eq lines pattern start eof) as [[s|]|] eqn:E2; simpl.
  { destruct H2 as [Hs Hu]. split_and!; eauto with aft. }
  2:{ destruct H2 as (s & s' & ? & ? & ?). exists [TierExact; TierRstrip], TierTrim, [TierUnicode], s, s'. split_and!; eauto with aft. }
  change (unique_match (normalized_sequence_match indent_eq lines pattern start eof) _)
    with (tier_match trim_eq lines pattern start eof). rewrite E2. simpl.
  pose proof (tier_match_spec (unicode_characters ∘ trim) lines pattern start eof Hp) as H3.
  fold unicode_eq in H3.
  change (unique_match (normalized_sequence_match unicode_eq lines pattern start eof) _)
    with (tier_match unicode_eq lines pattern start eof).
  destruct (tier_match unicode_eq lines pattern start eof) as [[s|]|]; simpl.
  { destruct H3 as [Hs Hu]. split_and!; eauto with aft. }
  2:{ destruct H3 as (s & s' & ? & ? & ?). exists [TierExact; TierRstrip; TierTrim], TierUnicode, [], s, s'. split_and!; eauto with aft. }
  assert (no_hits lines pattern start eof [TierExact; TierRstrip; TierTrim; TierUnicode]) as Hno
    by eauto 6 with aft.
  destruct eof; [by split; [|left]|]. pose proof (find_reflow_match_spec lines pattern start) as Hr.
  destruct (find_reflow_match lines pattern start) as [[f n]|]; simpl; [|by split; [|right]].
  destruct Hr as (s & -> & Hw & Hu). unfold seek_ok. simpl.
  replace (start + s - start) with s by lia. split_and!; [done|lia|done|done|done].
Qed.

(** A result lies inside the file, at or after the start. *)
Lemma seek_ok_bounds lines pattern start eof m :
  pattern ≠ [] → seek_ok lines pattern start eof m →
  start ≤ found m ∧ found m + line_count m ≤ length lines ∧ 0 < line_count m.
Proof.
  intros Hp. assert (0 < length pattern) by (destruct pattern; simpl; [done|lia]).
  unfold seek_ok. destruct (tier m).
  - intros (-> & ((? & ? & _) & _) & _). lia.
  - intros (-> & ((? & ? & _) & _) & _). lia.
  - intros (-> & ((? & ? & _) & _) & _). lia.
  - done.
  - intros (-> & ((? & ? & _) & _) & _). lia.
  - intros (_ & Hs & _ & ((H1 & H2) & _) & _). rewrite length_drop in H2. lia.
Qed.

(** a hunk is placed only where it belongs: an exact match is the first exact match at or
    after the cursor; a match of any other tier is the only window that matches in that tier,
    and no stricter tier matches anywhere; a reflow match is the only window of the rest of
    the file that normalises to the hunk; the end-of-file flag pins the window to the last
    lines; two or more matches of the first non-exact tier that matches are refused as
    ambiguous; and no match means none exists.  The indentation tier is never the answer. *)
Theorem seek_tiers_sound lines pattern start eof :
  pattern ≠ [] →
  match seek_sequence_tiered_checked lines pattern start eof with
  | Ok (Some m) => seek_ok lines pattern start eof m
  | Ok None => seek_missing lines pattern start eof
  | Err _ => seek_ambiguous lines pattern start eof
  end.
Proof. apply seek_spec. Qed.

Lemma seek_tiers_sound_witness :
  ∃ m, seek_sequence_tiered_checked [lit "a"; lit "  b"; lit "c"] [lit "b "] 0 false = Ok (Some m) ∧
    found m = 1 ∧ tier m = TierTrim ∧ line_count m = 1.
Proof.
  pose proof (seek_tiers_sound [lit "a"; lit "  b"; lit "c"] [lit "b "] 0 false ltac:(discriminate)) as H.
  destruct (seek_sequence_tiered_checked _ _ _ _) as [[m|]|] eqn:E;
    [|vm_compute in E; discriminate E..].
  exists m. split; [reflexivity|]. vm_compute in E. injection E as <-.
  split; [reflexivity|]. split; [reflexivity|]. exact (proj1 H).
Defined.

End PatchSeek.
