(* ===== verification/PatchApply.v ===== *)
(** * Applying update chunks: [patch/apply.rs]

    Placing the chunks of an update hunk in a file and splicing the replacements. *)

From S2P Require Import Prelude RustStr PatchParser PatchMatcher Reflow ReflowSpec PatchSeek.
Import PatchParser PatchMatcher Reflow ReflowSpec PatchSeek.

Module PatchApply.

(** The error texts as data; [splice] out of range is a panic. *)
Inductive ApplyError :=
  | AmbiguousMatch (file_path : str)
  | ContextNotFound (context file_path : str)
  | LinesNotFound (file_path : str) (old_lines : list str) (already_applied : bool)
  | SplicePanicked.

(** ** Line endings *)

(** The byte loop: newlines and the newlines preceded by a carriage return. *)
Fixpoint count_newlines (previous_cr : bool) (bs : bytes) (newlines crlf : nat) : nat * nat :=
  match bs with
  | [] => (newlines, crlf)
  | b :: bs =>
      if (b =? LF)%N
      then count_newlines false bs (S newlines) (if previous_cr then S crlf else crlf)
      else count_newlines (b =? CR)%N bs newlines crlf
  end.

Definition dominant_line_ending (content : str) : str :=
  let '(newline_count, crlf_count) := count_newlines false (as_bytes content) 0 0 in
  if newline_count - crlf_count <? crlf_count then [CR; LF] else [LF].

(** Lines without their terminators; the empty piece after a final newline is dropped. *)
Definition pop_empty {A} (ls : list (list A)) : list (list A) :=
  match last ls with Some [] => take (length ls - 1) ls | _ => ls end.
Definition split_lines (content : str) : list str := pop_empty (strip_cr <$> split_on LF content).

(** ** Placing chunks *)

(** [(usize, usize, Vec<String>)]: start, old length, new lines. *)
Record Edit := MkEdit { ed_start : nat; ed_len : nat; ed_new : list str }.

Definition seek_or_ambiguous (file_path : str) (lines pattern : list str) (start : nat) (eof : bool) :
    result ApplyError (option SequenceMatch) :=
  map_err (λ _, AmbiguousMatch file_path) (seek_sequence_tiered_checked lines pattern start eof).

(** [chunk.change_context.as_ref().filter(|context| !context.is_empty())]. *)
Definition chunk_context (c : UpdateFileChunk) : option str :=
  match change_context c with Some (x :: ctx) => Some (x :: ctx) | _ => None end.

(** Seek the context line, if any: the cursor after it. *)
Definition seek_context (file_path : str) (lines : list str) (c : UpdateFileChunk) (line_index : nat) :
    result ApplyError nat :=
  match chunk_context c with
  | None => Ok line_index
  | Some context =>
      m ← seek_or_ambiguous file_path lines [context] line_index false;
      match m with
      | Some m => Ok (found m + line_count m)
      | None => Err (ContextNotFound context file_path)
      end
  end.

(** Seek the old lines, again without a trailing empty line if they are not found. *)
Definition seek_old_lines (file_path : str) (lines : list str) (c : UpdateFileChunk) (line_index : nat) :
    result ApplyError (option SequenceMatch * list str) :=
  let pattern := old_lines c in
  m ← seek_or_ambiguous file_path lines pattern line_index (is_end_of_file c);
  match m with
  | Some _ => Ok (m, new_lines c)
  | None =>
      if decide (last pattern = Some [])
      then
        m ← seek_or_ambiguous file_path lines (take (length pattern - 1) pattern) line_index
              (is_end_of_file c);
        Ok (m, pop_empty (new_lines c))
      else Ok (None, new_lines c)
  end.

Definition place_chunk (file_path : str) (lines : list str) (line_index : nat) (c : UpdateFileChunk) :
    result ApplyError (Edit * nat) :=
  line_index ← seek_context file_path lines c line_index;
  match old_lines c with
  | [] =>
      let idx := match chunk_context c with Some _ => line_index | None => length lines end in
      Ok (MkEdit idx 0 (new_lines c), line_index)
  | _ =>
      '(m, new_slice) ← seek_old_lines file_path lines c line_index;
      match m with
      | Some m => Ok (MkEdit (found m) (line_count m) new_slice, found m + line_count m)
      | None =>
          let trimmed := filter (λ l, trim l ≠ []) new_slice in
          Err (LinesNotFound file_path (old_lines c)
            (nonempty trimmed
             && bool_decide (is_Some (seek_sequence lines trimmed 0 (is_end_of_file c)))))
      end
  end.

Fixpoint place_chunks (file_path : str) (lines : list str) (line_index : nat)
    (chunks : list UpdateFileChunk) : result ApplyError (list Edit) :=
  match chunks with
  | [] => Ok []
  | c :: chunks =>
      '(e, line_index) ← place_chunk file_path lines line_index c;
      es ← place_chunks file_path lines line_index chunks;
      Ok (e :: es)
  end.

(** [sort_by(|left, right| left.0.cmp(&right.0))], which is stable. *)
Fixpoint insert_edit (e : Edit) (es : list Edit) : list Edit :=
  match es with
  | [] => [e]
  | e' :: es' => if ed_start e <=? ed_start e' then e :: es else e' :: insert_edit e es'
  end.
Definition sort_edits (es : list Edit) : list Edit := foldr insert_edit [] es.

(** [Vec::splice], [None] when the range is out of bounds. *)
Definition splice_lines (lines : list str) (e : Edit) : option (list str) :=
  if decide (ed_start e + ed_len e ≤ length lines)
  then Some (take (ed_start e) lines ++ ed_new e ++ drop (ed_start e + ed_len e) lines)
  else None.

(** [for .. in replacements.into_iter().rev() { result.splice(..) }]. *)
Fixpoint splice_all (lines : list str) (es : list Edit) : option (list str) :=
  match es with
  | [] => Some lines
  | e :: es => ls ← splice_all lines es; splice_lines ls e
  end.

(** The terminator sentinel and the join. *)
Definition finish_lines (had_trailing_newline : bool) (line_ending : str) (lines : list str) : str :=
  let sentinel :=
    had_trailing_newline || match last lines with None => true | Some l => nonempty l end in
  join line_ending (lines ++ if sentinel then [[]] else []).

Definition apply_update_chunks (content file_path : str) (chunks : list UpdateFileChunk) :
    result ApplyError str :=
  let line_ending := dominant_line_ending content in
  let had_trailing_newline := ends_with [LF] content in
  let lines := split_lines content in
  edits ← place_chunks file_path lines 0 chunks;
  lines ← ok_or SplicePanicked (splice_all lines (sort_edits edits));
  Ok (finish_lines had_trailing_newline line_ending lines).

Example apply_example :
  apply_update_chunks (lit "alpha" ++ [LF] ++ lit "  beta" ++ [LF] ++ lit "gamma" ++ [LF]) (lit "f")
    [MkChunk [lit "beta"] [lit "BETA"; lit "more"] None false; MkChunk [] [lit "end"] None false]
  = Ok (lit "alpha" ++ [LF] ++ lit "BETA" ++ [LF] ++ lit "more" ++ [LF] ++ lit "gamma" ++ [LF]
        ++ lit "end" ++ [LF]).
Proof. vm_compute. reflexivity. Qed.

(** ** Edits are disjoint *)

(** [a] ends before [b] starts. *)
Definition ends_before (a b : Edit) : Prop := ed_start a + ed_len a ≤ ed_start b.

(** An edit placed earlier is apart from one placed later: it ends before it, or it is an
    insertion behind it. *)
Definition apart (a b : Edit) : Prop := ends_before a b ∨ ed_len a = 0 ∧ ends_before b a.

Lemma insert_edit_perm e es : insert_edit e es ≡ₚ e :: es.
Proof.
  induction es as [|e' es IH]; simpl; [done|]. destruct (_ <=? _); [done|]. rewrite IH. constructor.
Qed.

Lemma sort_edits_perm es : sort_edits es ≡ₚ es.
Proof. induction es as [|e es IH]; simpl; [done|]. by rewrite insert_edit_perm, IH. Qed.

Lemma insert_edit_chain e es :
  StronglySorted ends_before es → (∀ e', e' ∈ es → apart e e') →
  StronglySorted ends_before (insert_edit e es).
Proof.
  unfold apart, ends_before.
  induction 1 as [|e' es Hs IH Hall]; intros Hap; simpl; [repeat constructor|].
  rewrite Forall_forall in Hall. destruct (_ <=? _) eqn:E; [apply Nat.leb_le in E|apply Nat.leb_gt in E].
  - constructor; [by constructor; [|apply Forall_forall]|]. apply Forall_forall. intros y Hy.
    assert (ed_start e ≤ ed_start y) as Hle.
    { apply elem_of_cons in Hy as [->|Hy]; [done|]. specialize (Hall y Hy). lia. }
    destruct (Hap y Hy) as [?|[? ?]]; lia.
  - constructor.
    + apply IH. intros y Hy. apply Hap. by right.
    + apply Forall_forall. intros y Hy. rewrite insert_edit_perm in Hy.
      apply elem_of_cons in Hy as [->|Hy]; [|by apply Hall].
      destruct (Hap e') as [?|[? ?]]; [by left|lia|lia].
Qed.

(** ** Where chunks go *)

Section Placement.
Context (lines : list str).

(** From the cursor [li], the search for the old lines of the chunk starts at the last line:
    behind the context line, if there is one. *)
Inductive search_from (c : UpdateFileChunk) (li : nat) : nat → Prop :=
  | search_here : chunk_context c = None → search_from c li li
  | search_behind context m :
      chunk_context c = Some context → seek_ok lines [context] li false m →
      search_from c li (found m + line_count m).

(** From the cursor [li] the chunk becomes an edit and leaves a cursor: lines without an
    original go behind the context, or to the end of the file; old lines are replaced where
    the search finds them, without their last line if that is empty and they are not found
    with it. *)
Inductive placed (li : nat) (c : UpdateFileChunk) : Edit → nat → Prop :=
  | placed_insertion li1 :
      search_from c li li1 → old_lines c = [] →
      placed li c (MkEdit (match chunk_context c with Some _ => li1 | None => length lines end) 0 (new_lines c)) li1
  | placed_replacement li1 m :
      search_from c li li1 → old_lines c ≠ [] →
      seek_ok lines (old_lines c) li1 (is_end_of_file c) m →
      placed li c (MkEdit (found m) (line_count m) (new_lines c)) (found m + line_count m)
  | placed_shortened li1 pattern m :
      search_from c li li1 → old_lines c = pattern ++ [[]] → pattern ≠ [] →
      seek_missing lines (old_lines c) li1 (is_end_of_file c) →
      seek_ok lines pattern li1 (is_end_of_file c) m →
      placed li c (MkEdit (found m) (line_count m) (pop_empty (new_lines c))) (found m + line_count m).

(** Chunks one after the other. *)
Inductive placed_all (li : nat) : list UpdateFileChunk → list Edit → nat → Prop :=
  | placed_none : placed_all li [] [] li
  | placed_more c e li1 cs es li2 :
      placed li c e li1 → placed_all li1 cs es li2 → placed_all li (c :: cs) (e :: es) li2.

(** Whether the replacement is already in the file, as far as the search can tell. *)
Definition hint_right (c : UpdateFileChunk) (already_applied : bool) : Prop :=
  let visible := filter (λ l, trim l ≠ []) (new_lines c) in
  if already_applied then visible ≠ [] ∧ ∃ m, seek_ok lines visible 0 (is_end_of_file c) m
  else visible = [] ∨ seek_missing lines visible 0 (is_end_of_file c)
       ∨ seek_ambiguous lines visible 0 (is_end_of_file c).

(** From the cursor [li] the chunk has no place, and the error says why. *)
Inductive unplaced (file : str) (li : nat) (c : UpdateFileChunk) : ApplyError → Prop :=
  | unplaced_context_ambiguous context :
      chunk_context c = Some context → seek_ambiguous lines [context] li false →
      unplaced file li c (AmbiguousMatch file)
  | unplaced_context context :
      chunk_context c = Some context → seek_missing lines [context] li false →
      unplaced file li c (ContextNotFound context file)
  | unplaced_ambiguous li1 :
      search_from c li li1 → old_lines c ≠ [] →
      seek_ambiguous lines (old_lines c) li1 (is_end_of_file c) →
      unplaced file li c (AmbiguousMatch file)
  | unplaced_shortened_ambiguous li1 pattern :
      search_from c li li1 → old_lines c = pattern ++ [[]] → pattern ≠ [] →
      seek_missing lines (old_lines c) li1 (is_end_of_file c) →
      seek_ambiguous lines pattern li1 (is_end_of_file c) →
      unplaced file li c (AmbiguousMatch file)
  | unplaced_missing li1 already_applied :
      search_from c li li1 → old_lines c ≠ [] →
      seek_missing lines (old_lines c) li1 (is_end_of_file c) →
      (∀ pattern, old_lines c = pattern ++ [[]] →
         pattern = [] ∨ seek_missing lines pattern li1 (is_end_of_file c)) →
      hint_right c already_applied →
      unplaced file li c (LinesNotFound file (old_lines c) already_applied).

(** What the search answers to the caller. *)
Lemma seek_or_ambiguous_spec file pattern start eof :
  pattern ≠ [] →
  match seek_or_ambiguous file lines pattern start eof with
  | Ok (Some m) => seek_ok lines pattern start eof m
  | Ok None => seek_missing lines pattern start eof
  | Err err => err = AmbiguousMatch file ∧ seek_ambiguous lines pattern start eof
  end.
Proof.
  intros Hp. unfold seek_or_ambiguous. pose proof (seek_spec lines pattern start eof Hp) as H.
  by destruct (seek_sequence_tiered_checked lines pattern start eof) as [[m|]|].
Qed.

Lemma seek_context_spec file c li :
  match seek_context file lines c li with
  | Ok li1 => search_from c li li1
  | Err err => unplaced file li c err
  end.
Proof.
  unfold seek_context. destruct (chunk_context c) as [ctx|] eqn:Ec; [|by constructor].
  pose proof (seek_or_ambiguous_spec file [ctx] li false ltac:(done)) as H.
  destruct (seek_or_ambiguous file lines [ctx] li false) as [[m|]|err]; simpl.
  - by eapply search_behind.
  - by eapply unplaced_context.
  - destruct H as [-> H]. by eapply unplaced_context_ambiguous.
Qed.

(** The old lines without a trailing empty line. *)
Lemma last_empty_split (l : list str) :
  last l = Some [] → l = take (length l - 1) l ++ [[]].
Proof.
  intros [l' ->]%last_Some. rewrite length_app. simpl. by rewrite Nat.add_sub, take_app_length.
Qed.

Lemma seek_old_lines_spec file c li li1 :
  search_from c li li1 → old_lines c ≠ [] →
  match seek_old_lines file lines c li1 with
  | Ok (Some m, new) => placed li c (MkEdit (found m) (line_count m) new) (found m + line_count m)
  | Ok (None, new) =>
      seek_missing lines (old_lines c) li1 (is_end_of_file c) ∧
      (∀ pattern, old_lines c = pattern ++ [[]] →
         pattern = [] ∨ seek_missing lines pattern li1 (is_end_of_file c)) ∧
      (new = new_lines c ∨ new = pop_empty (new_lines c))
  | Err err => unplaced file li c err
  end.
Proof.
  intros Hs Hne. unfold seek_old_lines.
  pose proof (seek_or_ambiguous_spec file (old_lines c) li1 (is_end_of_file c) Hne) as H.
  destruct (seek_or_ambiguous file lines (old_lines c) li1 (is_end_of_file c)) as [[m|]|err]; simpl.
  - by eapply placed_replacement.
  - case_decide as Hl.
    + apply last_empty_split in Hl. set (pattern := take _ _) in *.
      assert (∀ p, old_lines c = p ++ [[]] → p = pattern) as Hu.
      { intros p Hp. rewrite Hp in Hl. by apply app_inj_tail in Hl as [? _]. }
      destruct (decide (pattern = [])) as [Hnil|Hp].
      * rewrite Hnil in *. simpl. split_and!; [done|left; auto|auto].
      * pose proof (seek_or_ambiguous_spec file pattern li1 (is_end_of_file c) Hp) as H2.
        destruct (seek_or_ambiguous file lines pattern li1 (is_end_of_file c)) as [[m|]|err]; simpl.
        -- by eapply placed_shortened.
        -- split_and!; [done| |auto]. intros p Hp'. apply Hu in Hp' as ->. by right.
        -- destruct H2 as [-> H2]. by eapply unplaced_shortened_ambiguous.
    + split_and!; [done| |by left]. intros p Hp. rewrite Hp, last_snoc in Hl. done.
  - destruct H as [-> H]. by eapply unplaced_ambiguous.
Qed.

(** Dropping an empty last line does not change the visible ones. *)
Lemma visible_pop_empty (l : list str) :
  filter (λ l, trim l ≠ []) (pop_empty l) = filter (λ l, trim l ≠ []) l.
Proof.
  unfold pop_empty. destruct (last l) as [[|x p]|] eqn:E; [|done..]. apply last_empty_split in E.
  rewrite E at 3. rewrite filter_app, filter_cons_False, filter_nil, app_nil_r; [done|]. by intros [].
Qed.

Lemma already_applied_right c new :
  new = new_lines c ∨ new = pop_empty (new_lines c) →
  let trimmed := filter (λ l, trim l ≠ []) new in
  hint_right c (nonempty trimmed
                && bool_decide (is_Some (seek_sequence lines trimmed 0 (is_end_of_file c)))).
Proof.
  intros Hnew trimmed. assert (trimmed = filter (λ l, trim l ≠ []) (new_lines c)) as Heq
    by (destruct Hnew as [->| ->]; [done|apply visible_pop_empty]).
  unfold hint_right. rewrite <-Heq. clearbody trimmed. clear Heq Hnew.
  destruct (decide (trimmed = [])) as [->|Hne]; [by left|].
  rewrite (proj2 (nonempty_true trimmed) Hne). simpl. unfold seek_sequence, seek_sequence_tiered.
  pose proof (seek_spec lines trimmed 0 (is_end_of_file c) Hne) as H.
  destruct (seek_sequence_tiered_checked _ _ _ _) as [[m|]|]; simpl; eauto.
Qed.

Lemma place_chunk_spec file li c :
  match place_chunk file lines li c with
  | Ok (e, li') => placed li c e li'
  | Err err => unplaced file li c err
  end.
Proof.
  unfold place_chunk. pose proof (seek_context_spec file c li) as Hs.
  destruct (seek_context file lines c li) as [li1|err]; [|done]. simpl.
  destruct (decide (old_lines c = [])) as [Ho|Ho].
  { rewrite Ho. by constructor. }
  pose proof (seek_old_lines_spec file c li li1 Hs Ho) as H.
  destruct (seek_old_lines file lines c li1) as [[[m|] new]|err]; simpl.
  - by destruct (old_lines c).
  - destruct H as (Hm & Hp & Hn). pose proof (already_applied_right c new Hn) as Hh. cbv zeta in Hh.
    assert (unplaced file li c (LinesNotFound file (old_lines c) _)) as Hu by (by eapply unplaced_missing).
    by destruct (old_lines c).
  - by destruct (old_lines c).
Qed.

Lemma place_chunks_outcome file li chunks :
  match place_chunks file lines li chunks with
  | Ok es => ∃ li', placed_all li chunks es li'
  | Err err => ∃ before c after es li', chunks = before ++ c :: after ∧
      placed_all li before es li' ∧ unplaced file li' c err
  end.
Proof.
  revert li. induction chunks as [|c chunks IH]; intros li; simpl; [exists li; constructor|].
  pose proof (place_chunk_spec file li c) as Hc.
  destruct (place_chunk file lines li c) as [[e li1]|err]; simpl.
  - specialize (IH li1). destruct (place_chunks file lines li1 chunks) as [es|err]; simpl.
    + destruct IH as [li2 H]. exists li2. by econstructor.
    + destruct IH as (before & c' & after & es & li2 & -> & H & Hu).
      exists (c :: before), c', after, (e :: es), li2. split_and!; [done|by econstructor|done].
  - exists [], c, chunks, [], li. split_and!; [done|constructor|done].
Qed.

(** A placed edit lies inside the file, behind the cursor. *)
Lemma search_from_bounds c li li1 : li ≤ length lines → search_from c li li1 → li ≤ li1 ≤ length lines.
Proof.
  intros Hli [?|ctx m Hc Hm]; [lia|]. apply seek_ok_bounds in Hm; [lia|done].
Qed.

Lemma placed_bounds li c e li' :
  li ≤ length lines → placed li c e li' →
  li ≤ li' ≤ length lines ∧ li ≤ ed_start e ∧ ed_start e + ed_len e ≤ length lines ∧
  (ed_start e + ed_len e = li' ∨ ed_start e = length lines ∧ ed_len e = 0).
Proof.
  intros Hli [li1 Hs Ho|li1 m Hs Ho Hm|li1 pat m Hs Ho Hp _ Hm]; simpl;
    (apply search_from_bounds in Hs; [|done]); [destruct (chunk_context c); lia|..];
    (apply seek_ok_bounds in Hm; [lia|done]).
Qed.

Lemma placed_all_apart li chunks es li' :
  li ≤ length lines → placed_all li chunks es li' →
  StronglySorted ends_before (sort_edits es) ∧
  Forall (λ e, li ≤ ed_start e ∧ ed_start e + ed_len e ≤ length lines) es.
Proof.
  intros Hli H. induction H as [|li c e li1 cs es li2 He _ IH]; [repeat constructor|].
  apply placed_bounds in He as (Hli1 & Hst & Hend & Hcase); [|done].
  destruct IH as [Hs Hall]; [lia|]. rewrite Forall_forall in Hall. split.
  - simpl. apply insert_edit_chain; [done|]. intros y Hy. rewrite sort_edits_perm in Hy.
    specialize (Hall y Hy). unfold apart, ends_before. lia.
  - constructor; [lia|]. apply Forall_forall. intros y Hy. specialize (Hall y Hy). lia.
Qed.

End Placement.

(** ** Splicing is simultaneous replacement *)

(** The file with disjoint edits applied at once, from line [pos] on. *)
Fixpoint weave (lines : list str) (pos : nat) (es : list Edit) : list str :=
  match es with
  | [] => drop pos lines
  | e :: es =>
      take (ed_start e - pos) (drop pos lines) ++ ed_new e ++ weave lines (ed_start e + ed_len e) es
  end.

Lemma splice_all_weave lines pos es :
  pos ≤ length lines → StronglySorted ends_before es →
  Forall (λ e, pos ≤ ed_start e ∧ ed_start e + ed_len e ≤ length lines) es →
  splice_all lines es = Some (take pos lines ++ weave lines pos es).
Proof.
  revert pos. induction es as [|e es IH]; intros pos Hpos Hs Hall; simpl.
  { by rewrite take_drop. }
  apply StronglySorted_inv in Hs as [Hs Hbef]. inversion Hall as [|? ? [H1 H2] Hrest]; subst.
  rewrite (IH (ed_start e + ed_len e)); [|done|done|].
  2:{ rewrite Forall_forall in Hbef, Hrest |- *. intros y Hy. specialize (Hbef y Hy).
      specialize (Hrest y Hy). unfold ends_before in Hbef. lia. }
  unfold splice_lines. simpl. rewrite decide_True by (rewrite length_app, length_take; lia).
  rewrite drop_app_length' by (rewrite length_take; lia).
  rewrite take_app_le, take_take, Nat.min_l by (rewrite ?length_take; lia).
  rewrite <-(take_drop pos (take (ed_start e) lines)), take_take, Nat.min_l by lia.
  by rewrite skipn_firstn_comm, <-app_assoc.
Qed.

(** C16: applying a patch replaces exactly the placed windows.  The chunks are placed one after
    the other, each from the cursor the one before it left: its context line is sought from the
    cursor on, its old lines behind that line, both by the tiered search, and an insertion goes
    behind its context or to the end of the file.  On success the placed edits are pairwise
    disjoint and inside the file whatever their order, and the new lines are the old ones with
    all of them replaced at once, every other line kept.  On failure the chunks before some
    chunk were placed, and that one has no place: its context or its old lines have no match
    from the very cursor on, or several in the tier that decides, as the error says.  Splicing
    never goes out of range. *)
Theorem apply_update_chunks_sound content file chunks :
  let lines := split_lines content in
  match apply_update_chunks content file chunks with
  | Ok text => ∃ edits cursor,
      placed_all lines 0 chunks edits cursor ∧
      sort_edits edits ≡ₚ edits ∧ StronglySorted ends_before (sort_edits edits) ∧
      text = finish_lines (ends_with [LF] content) (dominant_line_ending content)
               (weave lines 0 (sort_edits edits))
  | Err err => ∃ before c after edits cursor,
      chunks = before ++ c :: after ∧ placed_all lines 0 before edits cursor ∧
      unplaced lines file cursor c err
  end.
Proof.
  intros lines. unfold apply_update_chunks. fold lines.
  pose proof (place_chunks_outcome lines file 0 chunks) as H.
  destruct (place_chunks file lines 0 chunks) as [es|err]; simpl; [|done].
  destruct H as [cursor H]. apply placed_all_apart in H as Hap; [|lia]. destruct Hap as [Hs Hall].
  rewrite (splice_all_weave lines 0) by (lia || done || by rewrite sort_edits_perm).
  simpl. exists es, cursor. split_and!; [done|apply sort_edits_perm|done|done].
Qed.

(** ** Untouched files *)

Lemma count_newlines_no_cr bs n c :
  CR ∉ bs → (count_newlines false bs n c).2 = c.
Proof.
  revert n. induction bs as [|b bs IH]; intros n Hcr; [done|]. apply not_elem_of_cons in Hcr as [Hb Hcr].
  simpl. destruct (b =? LF)%N; [by apply IH|].
  replace (b =? CR)%N with false by (symmetry; apply N.eqb_neq; congruence). by apply IH.
Qed.

Lemma split_on_elem (c y : char) (l p : str) : p ∈ split_on c l → y ∈ p → y ∈ l.
Proof.
  revert p. induction l as [|x l IH]; intros p Hp Hy; simpl in Hp.
  { apply list_elem_of_singleton in Hp as ->. done. }
  case_decide.
  - apply elem_of_cons in Hp as [->|Hp]; [by apply not_elem_of_nil in Hy|]. right. by eapply IH.
  - destruct (split_on c l) as [|q qs].
    + by apply list_elem_of_singleton in Hp as ->; apply list_elem_of_singleton in Hy as ->; left.
    + apply elem_of_cons in Hp as [->|Hp].
      * apply elem_of_cons in Hy as [->|Hy]; [by left|]. right. eapply IH; [by left|done].
      * right. eapply IH; [by right|done].
Qed.

Lemma strip_cr_lines content :
  CR ∉ content → strip_cr <$> split_on LF content = split_on LF content.
Proof.
  intros Hcr. etrans; [|apply list_fmap_id]. apply Forall_fmap_ext, Forall_forall.
  intros p Hp. apply strip_cr_id. intros Hl. apply Hcr. eapply split_on_elem; [done|].
  by apply last_Some_elem_of.
Qed.

Lemma split_on_snoc (c : char) (l : str) : split_on c (l ++ [c]) = split_on c l ++ [[]].
Proof.
  induction l as [|x l IH]; simpl; [by rewrite decide_True|]. case_decide; [by rewrite IH|].
  rewrite IH. pose proof (split_on_nonempty c l). by destruct (split_on c l).
Qed.

(** an update without chunks is the identity: a file with line-feed endings that ends in
    a newline is reproduced character for character. *)
Theorem apply_nothing_identity content file :
  CR ∉ content → ends_with [LF] content = true →
  apply_update_chunks content file [] = Ok content.
Proof.
  intros Hcr Hend. unfold apply_update_chunks, split_lines, finish_lines. rewrite Hend. simpl.
  rewrite strip_cr_lines by done. apply ends_with_true in Hend as [c ->].
  rewrite split_on_snoc. unfold pop_empty. rewrite last_snoc, length_app. simpl.
  rewrite Nat.add_sub, take_app_length, <-split_on_snoc.
  assert (dominant_line_ending (c ++ [LF]) = [LF]) as ->; [|by rewrite join_split_on].
  unfold dominant_line_ending. destruct (count_newlines _ _ _ _) as [n k] eqn:E.
  apply (f_equal snd) in E. rewrite count_newlines_no_cr in E; [|by rewrite elem_of_as_bytes_ascii].
  simpl in E. subst k. by destruct (_ <? 0) eqn:?; [apply Nat.ltb_lt in Heqb; lia|].
Qed.

Lemma apply_nothing_identity_witness :
  apply_update_chunks (lit "a" ++ [LF; LF]) (lit "f") [] = Ok (lit "a" ++ [LF; LF]).
Proof.
  apply (apply_nothing_identity (lit "a" ++ [LF; LF]) (lit "f")); [|reflexivity].
  by_compute.
Defined.

End PatchApply.
