(* ===== verification/UnixPath.v ===== *)
(** * Paths of the standard library, as Unix programs see them

    [std::path::Path] on strings: what is absolute, joining, the components a path is compared
    by, its parent and the prefix test.  The operating system is given the spelling; a parent is
    spelled from its components, which names the same file. *)

From S2P Require Import Prelude RustStr.

Module UnixPath.

Definition SLASH : N := 47.

Inductive Component := RootDir | CurDir | ParentDir | Normal (name : str).
#[export] Instance Component_eq_dec : EqDecision Component.
Proof. solve_decision. Defined.

Definition is_absolute (p : str) : bool := match p with c :: _ => (c =? SLASH)%N | [] => false end.

(** [Path::join]: an absolute argument replaces the base. *)
Definition path_join (base p : str) : str :=
  if is_absolute p then p
  else match last base with
       | None => p
       | Some c => if (c =? SLASH)%N then base ++ p else base ++ SLASH :: p
       end.

(** A piece between slashes; [.] counts only at the start of a relative path. *)
Definition piece_component (first : bool) (piece : str) : list Component :=
  if decide (piece = []) then []
  else if decide (piece = lit ".") then (if first then [CurDir] else [])
  else if decide (piece = lit "..") then [ParentDir]
  else [Normal piece].

Definition components (p : str) : list Component :=
  match split_on SLASH p with
  | [] => []
  | piece :: pieces =>
      (if is_absolute p then [RootDir] else [])
      ++ piece_component (negb (is_absolute p)) piece ++ (pieces ≫= piece_component false)
  end.

Definition component_str (c : Component) : str :=
  match c with RootDir => [SLASH] | CurDir => lit "." | ParentDir => lit ".." | Normal name => name end.

Definition spell (cs : list Component) : str :=
  match cs with
  | RootDir :: cs => SLASH :: join [SLASH] (component_str <$> cs)
  | _ => join [SLASH] (component_str <$> cs)
  end.

(** [Path::starts_with] and [Path::strip_prefix] compare components. *)
Definition path_strip_prefix (root p : str) : option (list Component) :=
  strip_prefix (components root) (components p).
Definition path_starts_with (p root : str) : bool := bool_decide (is_Some (path_strip_prefix root p)).

(** [Path::parent]. *)
Definition path_parent (p : str) : option str :=
  match last (components p) with
  | None | Some RootDir => None
  | Some _ => Some (spell (removelast (components p)))
  end.

(** A path lies in a directory when its components extend those of the directory. *)
Definition within (root p : str) : Prop := components root `prefix_of` components p.

Lemma path_starts_with_true p root : path_starts_with p root = true ↔ within root p.
Proof.
  unfold path_starts_with, path_strip_prefix, within. rewrite bool_decide_eq_true. split.
  - intros [k Hk%strip_prefix_Some]. by exists k.
  - intros [k Hk]. exists k. by apply strip_prefix_Some.
Qed.

Lemma within_refl p : within p p.
Proof. by exists []; rewrite app_nil_r. Qed.

Lemma within_trans a b c : within a b → within b c → within a c.
Proof. unfold within. apply (transitivity (R := prefix)). Qed.

Example components_example :
  components (lit "/srv//app/./src/../x") =
    [RootDir; Normal (lit "srv"); Normal (lit "app"); Normal (lit "src"); ParentDir; Normal (lit "x")].
Proof. by vm_compute. Qed.

Example prefix_by_components :
  path_starts_with (lit "/srv/app2") (lit "/srv/app") = false
  ∧ path_starts_with (lit "/srv/app/") (lit "/srv/app") = true
  ∧ path_parent (lit "/srv/app/") = Some (lit "/srv") ∧ path_parent (lit "/") = None.
Proof. by vm_compute. Qed.

End UnixPath.
