(* ===== verification/BashParser.v ===== *)
(** * The command parser of the bash rewriter: [bash_rewrite/parser.rs]

    A shell command is rewritten to a tool call only when its words are literal: the parser
    understands quoting and escapes, one append redirect and one heredoc, and declines everything
    else.  Strings are lists of characters; a byte offset of the code at a character boundary is
    the number of characters before it. *)

From S2P Require Import Prelude RustStr.

Module BashParser.

Inductive Quote := NoQuote | Single | Double.
#[export] Instance Quote_eq_dec : EqDecision Quote.
Proof. solve_decision. Defined.

Record ParsedCommand := MkParsed { args : list str; heredoc : option str; appends_to : option str }.
#[export] Instance ParsedCommand_eq_dec : EqDecision ParsedCommand.
Proof. solve_decision. Defined.

(** ** Characters *)

Definition BACKSLASH : N := 92.
Definition BACKTICK : N := 96.
Definition DOLLAR : N := 36.
Definition AMP : N := 38.
Definition PIPE : N := 124.
Definition SEMI : N := 59.
Definition LT : N := 60.
Definition GT : N := 62.
Definition DASH : N := 45.

(** [$], backtick, [*], [?], [[], [{], [}] and [~]. *)
Definition expansions : list N := [36; 96; 42; 63; 91; 123; 125; 126]%N.

Definition word_character_is_literal (ch : char) (quote : Quote) : bool :=
  match quote with
  | Single => true
  | Double => bool_decide (ch ∉ [DOLLAR; BACKTICK])
  | NoQuote => bool_decide (ch ∉ expansions)
  end.

(** [push_double_quoted_backslash]: what a backslash and [escaped] push. *)
Definition double_quoted_backslash (escaped : char) : str :=
  if decide (escaped = LF) then []
  else if decide (escaped ∈ [DOLLAR; BACKTICK; DQUOTE; BACKSLASH]) then [escaped]
  else [BACKSLASH; escaped].

(** ** The heredoc operator *)

(** The state of the scan, the position of [s], and the rest. *)
Fixpoint find_operator_loop (quote : Quote) (idx : nat) (s : str) : option (option nat) :=
  match s with
  | [] => if decide (quote = NoQuote) then Some None else None
  | ch :: rest =>
      match quote with
      | Single => find_operator_loop (if decide (ch = SQUOTE) then NoQuote else Single) (S idx) rest
      | Double =>
          if decide (ch = DQUOTE) then find_operator_loop NoQuote (S idx) rest
          else if decide (ch = BACKTICK) then None
          else if negb (word_character_is_literal ch quote) then None
          else if decide (ch = BACKSLASH) then
            match rest with
            | [] => if decide (quote = NoQuote) then Some None else None
            | _ :: rest' => find_operator_loop quote (S (S idx)) rest'
            end
          else find_operator_loop quote (S idx) rest
      | NoQuote =>
          if decide (ch = SQUOTE) then find_operator_loop Single (S idx) rest
          else if decide (ch = DQUOTE) then find_operator_loop Double (S idx) rest
          else if decide (ch = BACKTICK) then None
          else if negb (word_character_is_literal ch quote) then None
          else if decide (ch = BACKSLASH) then
            match rest with
            | [] => if decide (quote = NoQuote) then Some None else None
            | _ :: rest' => find_operator_loop quote (S (S idx)) rest'
            end
          else if decide (ch = LT ∧ head rest = Some LT) then Some (Some idx)
          else find_operator_loop quote (S idx) rest
      end
  end.

Definition find_heredoc_operator (command : str) : option (option nat) := find_operator_loop NoQuote 0 command.

(** ** Words *)

(** [tokenize_literal_word]: the token so far, the position of [s] and the rest; the answer is
    the word and the number of characters it takes. *)
Fixpoint literal_word_loop (top_level : bool) (quote : Quote) (token : str) (idx : nat) (s : str)
  : option (str * nat) :=
  match s with
  | [] => if decide (quote = NoQuote) then Some (token, idx) else None
  | ch :: rest =>
      if top_level && bool_decide (quote = NoQuote)
         && (is_whitespace ch || bool_decide (ch ∈ [SEMI; AMP; PIPE; GT])) then Some (token, idx)
      else if top_level && bool_decide (quote = NoQuote) && bool_decide (ch ∈ [40; 41; LT]%N) then None
      else
        match quote with
        | Single =>
            if decide (ch = SQUOTE) then literal_word_loop top_level NoQuote token (S idx) rest
            else literal_word_loop top_level quote (token ++ [ch]) (S idx) rest
        | Double =>
            if decide (ch = DQUOTE) then literal_word_loop top_level NoQuote token (S idx) rest
            else if decide (ch = BACKTICK) then None
            else if negb (word_character_is_literal ch quote) then None
            else if decide (ch = BACKSLASH) then
              match rest with
              | [] => None
              | escaped :: rest' =>
                  literal_word_loop top_level quote (token ++ double_quoted_backslash escaped) (S (S idx)) rest'
              end
            else literal_word_loop top_level quote (token ++ [ch]) (S idx) rest
        | NoQuote =>
            if is_whitespace ch then Some (token, idx)
            else if decide (ch = SQUOTE) then literal_word_loop top_level Single token (S idx) rest
            else if decide (ch = DQUOTE) then literal_word_loop top_level Double token (S idx) rest
            else if decide (ch = BACKSLASH) then
              match rest with
              | [] => Some (token ++ [BACKSLASH], S idx)
              | escaped :: rest' =>
                  literal_word_loop top_level quote (token ++ if decide (escaped = LF) then [] else [escaped])
                    (S (S idx)) rest'
              end
            else if decide (ch ∈ [PIPE; SEMI; LT; GT; BACKTICK]) then None
            else if decide (ch = AMP ∧ head rest = Some AMP) then None
            else if negb (word_character_is_literal ch quote) then None
            else literal_word_loop top_level quote (token ++ [ch]) (S idx) rest
        end
  end.

Definition tokenize_literal_word (input : str) (top_level : bool) : option (str * nat) :=
  literal_word_loop top_level NoQuote [] 0 input.

Definition tokenize_word (input : str) : option (str * nat) := tokenize_literal_word input false.

(** ** The header *)

Definition push_token (args : list str) (token : str) : list str :=
  if decide (token = []) then args else args ++ [token].

(** [read_next_redirect_target]: the target and what follows it. *)
Definition read_next_redirect_target (chars : str) : option (str * str) :=
  let remainder := drop_while is_whitespace chars in
  parsed ← tokenize_word remainder;
  if decide (parsed.1 = []) then None else Some (parsed.1, drop parsed.2 remainder).

Definition has_non_space_remainder (chars : str) : bool := existsb (λ ch, negb (is_whitespace ch)) chars.

(** The loop of [tokenize]; the answer is the arguments and the target of the append. *)
Fixpoint tokenize_loop (quote : Quote) (bare_word : bool) (args : list str) (token : str) (s : str)
  : option (list str * option str) :=
  match s with
  | [] => if decide (quote = NoQuote) then Some (push_token args token, None) else None
  | ch :: rest =>
      match quote with
      | Single =>
          if decide (ch = SQUOTE) then tokenize_loop NoQuote bare_word args token rest
          else tokenize_loop quote bare_word args (token ++ [ch]) rest
      | Double =>
          if decide (ch = DQUOTE) then tokenize_loop NoQuote bare_word args token rest
          else if decide (ch = BACKTICK) then None
          else if negb (word_character_is_literal ch quote) then None
          else if decide (ch = BACKSLASH) then
            match rest with
            | [] => None
            | escaped :: rest' => tokenize_loop quote bare_word args (token ++ double_quoted_backslash escaped) rest'
            end
          else tokenize_loop quote bare_word args (token ++ [ch]) rest
      | NoQuote =>
          if is_whitespace ch then tokenize_loop quote true (push_token args token) [] rest
          else if decide (ch = SQUOTE) then tokenize_loop Single false args token rest
          else if decide (ch = DQUOTE) then tokenize_loop Double false args token rest
          else if decide (ch = BACKSLASH) then
            match rest with
            | [] => Some (push_token args (token ++ [BACKSLASH]), None)
            | escaped :: rest' =>
                if decide (escaped = LF) then tokenize_loop quote bare_word args token rest'
                else tokenize_loop quote false args (token ++ [escaped]) rest'
            end
          else if decide (ch = BACKTICK) then None
          else if negb (word_character_is_literal ch quote) then None
          else if decide (ch ∈ [PIPE; SEMI]) then None
          else if decide (ch = AMP) then None
          else if bool_decide (ch = HASH) && bool_decide (token = []) && bare_word then None
          else if decide (ch = GT ∧ head rest = Some GT) then
            if bare_word && negb (bool_decide (token = [])) && forallb is_ascii_digit token then None
            else
              '(target, chars) ← read_next_redirect_target (tail rest);
              if has_non_space_remainder chars then None
              else Some (push_token args token, Some target)
          else if decide (ch ∈ [GT; LT]) then None
          else tokenize_loop quote bare_word args (token ++ [ch]) rest
      end
  end.

Definition tokenize (header : str) (heredoc : option str) : option ParsedCommand :=
  '(args, appends_to) ← tokenize_loop NoQuote true [] [] header;
  if bool_decide (is_Some heredoc) && bool_decide (appends_to = None) then None
  else Some (MkParsed args heredoc appends_to).

(** ** Heredocs *)

Definition is_horizontal_space (ch : char) : bool := bool_decide (ch ∈ [SPACE; TAB]).

Definition skip_horizontal_space (input : str) : str := drop_while is_horizontal_space input.

(** The lines of the body up to the first one that is the delimiter, and what follows it. *)
Fixpoint find_terminator (delimiter : str) (lines : list str) : option (str * str) :=
  match lines with
  | [] => None
  | line :: rest =>
      if decide (default line (strip_suffix [LF] line) = delimiter)
      then Some ([], drop (length delimiter) (concat (line :: rest)))
      else '(content, after) ← find_terminator delimiter rest; Some (line ++ content, after)
  end.

Definition contains_any (set : list N) (s : str) : bool := existsb (λ c, bool_decide (c ∈ set)) s.

Definition blank (s : str) : bool := bool_decide (trim s = []).

(** The header, and the body when there is a heredoc. *)
Definition split_heredoc (command : str) : option (str * option str) :=
  operator ← find_heredoc_operator command;
  match operator with
  | None => Some (command, None)
  | Some op_start =>
      let after_operator := drop (op_start + 2) command in
      if starts_with [DASH] after_operator then None
      else
        let after_spaces := skip_horizontal_space after_operator in
        '(delimiter, consumed) ← tokenize_word after_spaces;
        let quoted := contains_any [SQUOTE; DQUOTE; BACKSLASH] (take consumed after_spaces) in
        if decide (delimiter = []) then None
        else
          let tail_text := drop consumed after_spaces in
          offset ← position (N.eqb LF) tail_text;
          if negb (blank (take (S offset) tail_text)) || contains_char LF delimiter then None
          else
            '(content, rest) ← find_terminator delimiter (split_inclusive LF (drop (S offset) tail_text));
            if negb quoted && contains_any [DOLLAR; BACKTICK; BACKSLASH] content then None
            else
              let rest := default rest (strip_prefix [LF] rest) in
              if negb (blank rest) then None
              else Some (take op_start command, Some content)
  end.

Definition parse (command : str) : option ParsedCommand :=
  let command := trim command in
  if decide (command = []) then None
  else
    '(header, heredoc) ← split_heredoc command;
    parsed ← tokenize header heredoc;
    if decide (args parsed = []) then None else Some parsed.

(** ** Top-level commands *)

(** What one turn of [parse_top_level] does: go on with the rest, the commands and the command
    under way, or answer. *)
Inductive TopTurn := TopNext (rest : str) (commands : list (list str)) (command : list str) | TopDone (answer : option (list (list str))).

Definition is_line_space (ch : char) : bool := bool_decide (ch ∈ [SPACE; TAB; CR]).

Definition separators : list str := [lit "&&"; lit "||"; lit ";"; [LF]; lit "|"].

(** What follows the [>] of a redirect at the start of [rest], after a descriptor or [&]. *)
Definition redirect_tail (rest : str) : option str :=
  match strip_prefix [GT] (drop_while is_ascii_digit rest) with
  | Some tail => Some tail
  | None => rest ← strip_prefix [AMP] rest; strip_prefix [GT] rest
  end.

(** Where the text goes on after a redirect: to a descriptor, or to the null device. *)
Definition after_redirect (tail : str) : option str :=
  match strip_prefix [AMP] tail with
  | Some fd =>
      let n := length (take_while is_ascii_digit fd) in
      let n := if (n =? 0) && starts_with [DASH] fd then 1 else n in
      if n =? 0 then None else Some (drop n fd)
  | None =>
      let tail := match tail with c :: rest => if decide (c ∈ [GT; PIPE]) then rest else tail | [] => tail end in
      let tail := drop_while is_line_space tail in
      '(target, consumed) ← tokenize_literal_word tail true;
      if decide (target = lit "/dev/null") then Some (drop consumed tail) else None
  end.

Definition finish_commands (commands : list (list str)) (command : list str) : list (list str) :=
  if decide (command = []) then commands else commands ++ [command].

Definition top_level_turn (rest : str) (commands : list (list str)) (command : list str) : TopTurn :=
  let rest := drop_while is_line_space rest in
  if decide (rest = []) then TopDone (Some (finish_commands commands command))
  else if starts_with [HASH] rest then TopNext (drop_while (λ ch, negb (ch =? LF)%N) rest) commands command
  else
    match (if starts_with (lit "&>") rest then None else find (λ s, starts_with s rest) separators) with
    | Some separator =>
        if decide (command = []) then TopDone None
        else TopNext (drop (length separator) rest) (commands ++ [command]) []
    | None =>
        if negb (starts_with (lit "&>") rest) && starts_with [AMP] rest then TopDone None
        else
          match redirect_tail rest with
          | Some tail =>
              match after_redirect tail with
              | Some rest => TopNext rest commands command
              | None => TopDone None
              end
          | None =>
              match tokenize_literal_word rest true with
              | None | Some (_, 0) => TopDone None
              | Some (word, consumed) => TopNext (drop consumed rest) commands (command ++ [word])
              end
          end
    end.

(** Every turn that goes on has passed a character. *)
Fixpoint top_level_loop (fuel : nat) (rest : str) (commands : list (list str)) (command : list str) :
    option (list (list str)) :=
  match fuel with
  | 0 => None
  | S fuel =>
      match top_level_turn rest commands command with
      | TopDone answer => answer
      | TopNext rest commands command => top_level_loop fuel rest commands command
      end
  end.

Definition parse_top_level (line : str) : option (list (list str)) := top_level_loop (S (length line)) line [] [].

Lemma drop_while_length {A} (p : A → bool) l : length (drop_while p l) ≤ length l.
Proof. induction l as [|x l IH]; [done|]. simpl. destruct (p x); simpl; lia. Qed.

Lemma strip_prefix_length {A} `{EqDecision A} (p l r : list A) : strip_prefix p l = Some r → length l = length p + length r.
Proof. intros ->%strip_prefix_Some. apply length_app. Qed.

Lemma redirect_tail_length rest tail : redirect_tail rest = Some tail → length tail < length rest.
Proof.
  unfold redirect_tail. destruct (strip_prefix [GT] _) as [t|] eqn:E.
  - intros [= <-]. apply strip_prefix_length in E. pose proof (drop_while_length is_ascii_digit rest). simpl in E. lia.
  - intros (r & Hr%strip_prefix_length & Ht%strip_prefix_length)%bind_Some. simpl in *. lia.
Qed.

Lemma after_redirect_length tail rest : after_redirect tail = Some rest → length rest ≤ length tail.
Proof.
  unfold after_redirect. destruct (strip_prefix [AMP] tail) as [fd|] eqn:E; cbv zeta.
  - apply strip_prefix_length in E. simpl in E. destruct (_ =? 0); [done|]. intros [= <-]. rewrite length_drop. lia.
  - set (t := match tail with [] => _ | _ :: _ => _ end). intros ([w n] & _ & Hr)%bind_Some. case_decide; [|done]. injection Hr as <-.
    rewrite length_drop. pose proof (drop_while_length is_line_space t).
    assert (length t ≤ length tail) by (unfold t; destruct tail; [done|]; case_decide; simpl; lia). lia.
Qed.

Lemma separator_length s rest : find (λ s, starts_with s rest) separators = Some s → 0 < length s.
Proof.
  intros [Hin _]%find_some. unfold separators in Hin. simpl in Hin.
  repeat destruct Hin as [<-|Hin]; by vm_compute; lia.
Qed.

Lemma top_level_progress rest commands command rest' commands' command' :
  top_level_turn rest commands command = TopNext rest' commands' command' → length rest' < length rest.
Proof.
  unfold top_level_turn. pose proof (drop_while_length is_line_space rest) as Hd. set (r := drop_while is_line_space rest) in *.
  case_decide as Hr; [done|]. assert (0 < length r) as Hpos by (destruct r; [done|simpl; lia]).
  destruct (starts_with [HASH] r) eqn:Eh.
  { intros [= <- _ _]. destruct r as [|c r']; [done|]. apply starts_with_true in Eh as [k Hk]. injection Hk as -> ->.
    simpl. pose proof (drop_while_length (λ ch, negb (ch =? LF)%N) k). simpl in Hd. lia. }
  destruct (if starts_with _ r then _ else _) as [sep|] eqn:Es.
  { case_decide; [done|]. intros [= <- _ _]. rewrite length_drop. destruct (starts_with (lit "&>") r); [done|].
    apply separator_length in Es. lia. }
  destruct (_ && _); [done|]. destruct (redirect_tail r) as [tail|] eqn:Et.
  { apply redirect_tail_length in Et. destruct (after_redirect tail) as [x|] eqn:Ea; [|done]. apply after_redirect_length in Ea.
    intros [= <- _ _]. lia. }
  destruct (tokenize_literal_word r true) as [[w [|n]]|]; [done| |done]. intros [= <- _ _]. rewrite length_drop. lia.
Qed.

(** The loop ends by itself: more fuel than characters changes nothing. *)
Lemma top_level_fuel fuel rest commands command :
  length rest < fuel → top_level_loop fuel rest commands command = top_level_loop (S (length rest)) rest commands command.
Proof.
  revert rest commands command. induction fuel as [fuel IH] using lt_wf_ind. intros rest commands command Hf.
  destruct fuel as [|fuel]; [lia|]. cbn [top_level_loop].
  destruct (top_level_turn rest commands command) as [r' cs' c'|] eqn:E; [|done]. apply top_level_progress in E.
  rewrite (IH fuel) by lia. symmetry. destruct (decide (length rest = fuel)) as [->|Hne]; [by rewrite (IH fuel) by lia|].
  apply IH; lia.
Qed.

(** ** Examples *)

Example parse_append :
  parse (lit "echo 'a  b' x\ y > > f") = None ∧
  parse (lit " echo 'a  b' x\ y'z' >> notes.txt ")
  = Some (MkParsed [lit "echo"; lit "a  b"; lit "x yz"] None (Some (lit "notes.txt"))).
Proof. by vm_compute. Qed.

Example parse_heredoc :
  parse (lit "cat >> f <<'EOF'" ++ [LF] ++ lit "$HOME" ++ [LF] ++ lit "EOFx" ++ [LF] ++ lit "EOF" ++ [LF])
  = Some (MkParsed [lit "cat"] (Some (lit "$HOME" ++ [LF] ++ lit "EOFx" ++ [LF])) (Some (lit "f"))) ∧
  parse (lit "cat >> f <<EOF" ++ [LF] ++ lit "$HOME" ++ [LF] ++ lit "EOF" ++ [LF]) = None.
Proof. by vm_compute. Qed.

Example parse_top_level_example :
  parse_top_level (lit "ls -l 2>&1 && grep 'a b' f | head >/dev/null # done")
  = Some [[lit "ls"; lit "-l"]; [lit "grep"; lit "a b"; lit "f"]; [lit "head"]]
  ∧ parse_top_level (lit "ls > out") = None ∧ parse_top_level (lit "sleep 1 &") = None.
Proof. by vm_compute. Qed.

End BashParser.
