(* ===== verification/BashGrammar.v ===== *)
(** * Which commands the bash parser accepts, and what it takes them to mean

    A grammar of literal shell commands: words made of bare characters, escapes and quoted parts,
    an optional append redirect and an optional heredoc.  The parser accepts exactly the commands
    of the grammar and answers what they denote. *)

From S2P Require Import Prelude RustStr BashParser.
Import BashParser.

Module BashGrammar.

(** ** Words *)

(** A character between double quotes, or a backslash and the character after it. *)
Inductive dpiece := DChar (c : char) | DEscaped (c : char).

Definition render_d (d : dpiece) : str := match d with DChar c => [c] | DEscaped c => [BACKSLASH; c] end.
Definition value_d (d : dpiece) : str := match d with DChar c => [c] | DEscaped c => double_quoted_backslash c end.
Definition d_ok (d : dpiece) : Prop :=
  match d with DChar c => c ∉ [DQUOTE; DOLLAR; BACKTICK; BACKSLASH] | DEscaped _ => True end.

Definition render_ds (ds : list dpiece) : str := ds ≫= render_d.
Definition value_ds (ds : list dpiece) : str := ds ≫= value_d.

(** A part of a word; [Trailing] is a backslash at the end of the command. *)
Inductive piece :=
  | Bare (c : char) | Escaped (c : char) | Quoted (s : str) | DQuoted (ds : list dpiece) | Trailing.

Definition render_p (p : piece) : str :=
  match p with
  | Bare c => [c]
  | Escaped c => [BACKSLASH; c]
  | Quoted s => [SQUOTE] ++ s ++ [SQUOTE]
  | DQuoted ds => [DQUOTE] ++ render_ds ds ++ [DQUOTE]
  | Trailing => [BACKSLASH]
  end.

(** Quote removal. *)
Definition value_p (p : piece) : str :=
  match p with
  | Bare c => [c]
  | Escaped c => if decide (c = LF) then [] else [c]
  | Quoted s => s
  | DQuoted ds => value_ds ds
  | Trailing => [BACKSLASH]
  end.

Definition render_w (w : list piece) : str := w ≫= render_p.
Definition value_w (w : list piece) : str := w ≫= value_p.

(** Characters that stand for themselves outside quotes, in a word and in the target of a
    redirect or the delimiter of a heredoc. *)
Definition target_plain (c : char) : bool :=
  negb (is_whitespace c) && bool_decide (c ∉ [SQUOTE; DQUOTE; BACKSLASH; PIPE; SEMI; LT; GT])
  && bool_decide (c ∉ expansions).
Definition word_plain (c : char) : bool := target_plain c && negb (bool_decide (c = AMP)).

Definition piece_ok (plain : char → bool) (p : piece) : Prop :=
  match p with
  | Bare c => plain c = true
  | Quoted s => SQUOTE ∉ s
  | DQuoted ds => Forall d_ok ds
  | _ => True
  end.

(** A word that [rest] follows. *)
Fixpoint word_ok (w : list piece) (rest : str) : Prop :=
  match w with
  | [] => True
  | p :: w =>
      piece_ok target_plain p ∧ (p = Trailing → w = [] ∧ rest = []) ∧
      (p = Bare AMP → head (render_w w ++ rest) ≠ Some AMP) ∧ word_ok w rest
  end.

(** ** Header lines *)

(** A line is white space and parts of words. *)
Inductive item := Space (c : char) | Part (p : piece).

Definition render_i (i : item) : str := match i with Space c => [c] | Part p => render_p p end.
Definition render_items (items : list item) : str := items ≫= render_i.

(** The words of a line; [w] has the parts of the first word before [items]. *)
Fixpoint words_from (w : list piece) (items : list item) : list (list piece) :=
  match items with
  | [] => [w]
  | Space _ :: items => w :: words_from [] items
  | Part p :: items => words_from (w ++ [p]) items
  end.

Fixpoint last_word (w : list piece) (items : list item) : list piece :=
  match items with
  | [] => w
  | Space _ :: items => last_word [] items
  | Part p :: items => last_word (w ++ [p]) items
  end.

(** The arguments: words that are empty after quote removal are left out. *)
Definition arguments (words : list (list piece)) : list str := filter (λ v, v ≠ []) (value_w <$> words).

(** A line continuation, and a part without quotes or escapes. *)
Definition is_join (p : piece) : bool := match p with Escaped c => bool_decide (c = LF) | _ => false end.
Definition is_bare (p : piece) : bool := match p with Bare _ | Trailing => true | _ => is_join p end.

(** A line that the text [after] follows: a [#] does not begin a word, and only the end of the
    text follows a trailing backslash. *)
Fixpoint line_ok (after : str) (w : list piece) (items : list item) : Prop :=
  match items with
  | [] => True
  | Space c :: items => is_whitespace c = true ∧ line_ok after [] items
  | Part p :: items =>
      piece_ok word_plain p ∧ (p = Bare HASH → forallb is_join w = false) ∧
      (p = Trailing → items = [] ∧ after = []) ∧ line_ok after (w ++ [p]) items
  end.

(** An append redirect: the white space before the target, the target, and the white space
    after it. *)
Abbreviation redirect := (option (str * list piece * str)).

Definition render_redirect (r : redirect) : str :=
  match r with Some (b, w, t) => [GT; GT] ++ b ++ render_w w ++ t | None => [] end.
Definition redirect_target (r : redirect) : option str := match r with Some (_, w, _) => Some (value_w w) | None => None end.

Definition all_white (s : str) : Prop := Forall (λ c, is_whitespace c = true) s.

(** A bare number before the redirect would name a file descriptor. *)
Definition is_number (w : list piece) : bool :=
  forallb is_bare w && negb (bool_decide (value_w w = [])) && forallb is_ascii_digit (value_w w).

Definition redirect_ok (before : list piece) (after : str) (r : redirect) : Prop :=
  match r with
  | None => True
  | Some (b, w, t) =>
      is_number before = false ∧ all_white b ∧ word_ok w (t ++ after) ∧ value_w w ≠ [] ∧ all_white t
  end.

(** The header [h], followed by [after], has the arguments [args] and appends to [target]. *)
Definition header_denotes (after h : str) (args : list str) (target : option str) : Prop :=
  ∃ items r, h = render_items items ++ render_redirect r ∧
    line_ok (render_redirect r ++ after) [] items ∧ redirect_ok (last_word [] items) after r ∧
    args = arguments (words_from [] items) ∧ target = redirect_target r.

(** ** Quoted parts *)

Lemma render_ds_cons d ds : render_ds (d :: ds) = render_d d ++ render_ds ds.
Proof. done. Qed.
Lemma value_ds_cons d ds : value_ds (d :: ds) = value_d d ++ value_ds ds.
Proof. done. Qed.
Lemma render_w_cons p w : render_w (p :: w) = render_p p ++ render_w w.
Proof. done. Qed.
Lemma value_w_cons p w : value_w (p :: w) = value_p p ++ value_w w.
Proof. done. Qed.
Lemma render_w_app v w : render_w (v ++ w) = render_w v ++ render_w w.
Proof. unfold render_w. apply bind_app. Qed.
Lemma value_w_app v w : value_w (v ++ w) = value_w v ++ value_w w.
Proof. unfold value_w. apply bind_app. Qed.
#[global] Arguments render_ds : simpl never.
#[global] Arguments value_ds : simpl never.
#[global] Arguments render_w : simpl never.
#[global] Arguments value_w : simpl never.

(** Membership in a list of characters. *)
Ltac chars := repeat rewrite ?not_elem_of_cons, ?elem_of_cons in *; intuition (congruence || (by eapply not_elem_of_nil)).

Lemma single_split (s : str) :
  SQUOTE ∉ s ∨ ∃ a r, s = a ++ SQUOTE :: r ∧ SQUOTE ∉ a.
Proof.
  destruct (decide (SQUOTE ∈ s)) as [Hin|]; [right|by left].
  apply list_elem_of_split_l in Hin as (a & r & -> & Ha). by exists a, r.
Qed.

(** What stops the scan of a double-quoted part. *)
Definition stops (r : str) : Prop :=
  r = [] ∨ r = [BACKSLASH] ∨ ∃ c r', r = c :: r' ∧ c ∈ [DQUOTE; DOLLAR; BACKTICK].

Lemma double_split (s : str) : ∃ ds r, s = render_ds ds ++ r ∧ Forall d_ok ds ∧ stops r.
Proof.
  remember (length s) as n eqn:Hn. revert s Hn. induction (lt_wf n) as [n _ IH]; intros s ->.
  destruct s as [|c s]; [exists [], []; split_and!; [done|constructor|by left]|].
  destruct (decide (c ∈ [DQUOTE; DOLLAR; BACKTICK])) as [Hc|Hc].
  { exists [], (c :: s). split_and!; [done|constructor|]. right; right. by exists c, s. }
  destruct (decide (c = BACKSLASH)) as [->|Hb].
  - destruct s as [|e s]; [exists [], [BACKSLASH]; split_and!; [done|constructor|by right; left]|].
    destruct (IH (length s) ltac:(simpl; lia) s eq_refl) as (ds & r & -> & H1 & H2).
    exists (DEscaped e :: ds), r. split_and!; [done|by constructor|done].
  - destruct (IH (length s) ltac:(simpl; lia) s eq_refl) as (ds & r & -> & H1 & H2).
    exists (DChar c :: ds), r. split_and!; [done| |done]. constructor; [|done]. simpl. chars.
Qed.

(** ** The scan of one word *)

Lemma literal_single top t i a r :
  SQUOTE ∉ a → literal_word_loop top Single t i (a ++ r) = literal_word_loop top Single (t ++ a) (i + length a) r.
Proof.
  revert t i. induction a as [|c a IH]; intros t i Ha; simpl; [by rewrite app_nil_r, Nat.add_0_r|].
  apply not_elem_of_cons in Ha as [Hc Ha]. rewrite !andb_false_r. simpl. rewrite decide_False by congruence.
  rewrite IH by done. f_equal; [by rewrite <-app_assoc|lia].
Qed.

Lemma literal_double top t i ds r :
  Forall d_ok ds →
  literal_word_loop top Double t i (render_ds ds ++ r)
  = literal_word_loop top Double (t ++ value_ds ds) (i + length (render_ds ds)) r.
Proof.
  revert t i. induction ds as [|d ds IH]; intros t i Hds; [by rewrite app_nil_r, Nat.add_0_r|].
  apply Forall_cons in Hds as [Hd Hds]. rewrite render_ds_cons, value_ds_cons, length_app, <-app_assoc, (app_assoc t).
  destruct d as [c|c]; simpl in *; rewrite !andb_false_r; simpl.
  - rewrite !decide_False by chars. rewrite bool_decide_eq_true_2 by chars. simpl. rewrite IH by done. f_equal. lia.
  - rewrite IH by done. f_equal. lia.
Qed.

Lemma target_plain_spec c :
  target_plain c = true ↔
  (is_whitespace c = false ∧ (c ∉ [SQUOTE; DQUOTE; BACKSLASH; PIPE; SEMI; LT; GT]) ∧ c ∉ expansions).
Proof. unfold target_plain. rewrite !andb_true_iff, negb_true_iff, !bool_decide_eq_true. tauto. Qed.

(** White space or the end of the text. *)
Definition ends (r : str) : Prop := match r with [] => True | c :: _ => is_whitespace c = true end.

Lemma ends_amp r : ends r → head r ≠ Some AMP.
Proof. destruct r as [|c r]; [done|]. intros Hc [= ->]. done. Qed.

(** What a plain character is not. *)
Lemma plain_facts c :
  target_plain c = true →
  is_whitespace c = false ∧ c ≠ SQUOTE ∧ c ≠ DQUOTE ∧ c ≠ BACKSLASH ∧ c ≠ BACKTICK ∧
  (c ∉ [PIPE; SEMI; LT; GT; BACKTICK]) ∧ c ∉ expansions.
Proof.
  intros (H1 & H2 & H3)%target_plain_spec. assert (c ≠ BACKTICK) as Hb by (intros ->; apply H3; by_compute). chars.
Qed.

Lemma word_complete t i w r :
  word_ok w r → ends r →
  literal_word_loop false NoQuote t i (render_w w ++ r) = Some (t ++ value_w w, i + length (render_w w)).
Proof.
  intros Hw Hr. revert t i Hw. induction w as [|p w IH]; intros t i Hw.
  { rewrite app_nil_r, Nat.add_0_r. destruct r as [|c r]; [done|]. simpl in *. by rewrite Hr. }
  destruct Hw as (Hp & Ht & Hamp & Hw). rewrite render_w_cons, value_w_cons, length_app, <-app_assoc, (app_assoc t).
  destruct p as [c|c|s|ds|]; simpl in *.
  - apply plain_facts in Hp as (H1 & H2 & H3 & H4 & H5 & H6 & H7). rewrite H1, !decide_False; [|done..|by intros [-> Hn]; apply Hamp|done|done|done|done].
    rewrite bool_decide_eq_true_2 by done. simpl.
    rewrite IH by done. f_equal. f_equal. lia.
  - rewrite IH by done. f_equal. f_equal. lia.
  - rewrite <-app_assoc. simpl. rewrite literal_single by done. simpl. rewrite IH by done. f_equal. f_equal. len.
  - rewrite <-app_assoc. simpl. rewrite literal_double by done. simpl. rewrite IH by done. f_equal. f_equal. len.
  - destruct (Ht eq_refl) as [-> ->]. simpl. rewrite app_nil_r. f_equal. f_equal. cbn. lia.
Qed.

Lemma literal_single_open top t i s : SQUOTE ∉ s → literal_word_loop top Single t i s = None.
Proof.
  intros Hs. rewrite <-(app_nil_r s), literal_single by done. done.
Qed.

Lemma literal_double_open top t i ds r :
  Forall d_ok ds → stops r → head r ≠ Some DQUOTE → literal_word_loop top Double t i (render_ds ds ++ r) = None.
Proof.
  intros Hds Hr Hh. rewrite literal_double by done. destruct Hr as [->|[->|(c & r' & -> & Hc)]]; [done| |].
  - simpl. by rewrite !andb_false_r.
  - simpl in *. rewrite !andb_false_r. simpl. rewrite decide_False by congruence. destruct (decide (c = BACKTICK)); [done|].
    rewrite bool_decide_eq_false_2; [done|]. chars.
Qed.

Lemma word_sound s t i v n :
  literal_word_loop false NoQuote t i s = Some (v, n) →
  ∃ w r, s = render_w w ++ r ∧ word_ok w r ∧ ends r ∧ v = t ++ value_w w ∧ n = i + length (render_w w).
Proof.
  remember (length s) as k eqn:Hk. revert s t i Hk. induction (lt_wf k) as [k _ IH]; intros s t i ->.
  assert (∀ p r t', length r < length s → literal_word_loop false NoQuote t' (i + length (render_p p)) r = Some (v, n) →
    s = render_p p ++ r → t' = t ++ value_p p → p ≠ Trailing → piece_ok target_plain p →
    (p = Bare AMP → head r ≠ Some AMP) →
    ∃ w r, s = render_w w ++ r ∧ word_ok w r ∧ ends r ∧ v = t ++ value_w w ∧ n = i + length (render_w w)) as Hgo.
  { intros p r t' Hlen Hl Hs -> Hp Hok Hamp. destruct (IH _ Hlen r _ _ eq_refl Hl) as (w & r' & -> & H1 & H2 & -> & ->).
    exists (p :: w), r'. rewrite render_w_cons, value_w_cons, <-!app_assoc, length_app. split_and!; [done| |done|done|lia].
    simpl. split_and!; [done|done|done|done]. }
  destruct s as [|c s]; simpl.
  { intros [= <- <-]. exists [], []. split_and!; [done..|by rewrite app_nil_r|unfold render_w; simpl; lia]. }
  destruct (is_whitespace c) eqn:Hws.
  { intros [= <- <-]. exists [], (c :: s). split_and!; [done..|by rewrite app_nil_r|unfold render_w; simpl; lia]. }
  destruct (decide (c = SQUOTE)) as [->|N1].
  { destruct (single_split s) as [Hn|(a & r & -> & Ha)]; [by rewrite literal_single_open|].
    rewrite literal_single by done. simpl. intros Hl. apply (Hgo (Quoted a) r (t ++ a)); try done; [len| |].
    - simpl. rewrite <-Hl. f_equal. len.
    - simpl. by rewrite <-app_assoc. }
  destruct (decide (c = DQUOTE)) as [->|N2].
  { destruct (double_split s) as (ds & r & -> & Hds & Hst). destruct (decide (head r = Some DQUOTE)) as [Hh|Hh];
      [|by rewrite literal_double_open]. destruct r as [|c r]; simplify_eq/=.
    rewrite literal_double by done. simpl. intros Hl. apply (Hgo (DQuoted ds) r (t ++ value_ds ds)); try done; [len| |].
    - simpl. rewrite <-Hl. f_equal. len.
    - simpl. by rewrite <-app_assoc. }
  destruct (decide (c = BACKSLASH)) as [->|N3].
  { destruct s as [|e s].
    - intros [= <- <-]. exists [Trailing], []. split_and!; [done| |done|done|unfold render_w; simpl; lia]. simpl. split_and!; done.
    - intros Hl. apply (Hgo (Escaped e) s (t ++ value_p (Escaped e))); try done; [simpl; lia|].
      simpl. rewrite <-Hl. f_equal. lia. }
  destruct (decide (c ∈ [PIPE; SEMI; LT; GT; BACKTICK])) as [|N4]; [done|].
  destruct (decide (c = AMP ∧ head s = Some AMP)) as [|N5]; [done|].
  destruct (bool_decide_reflect (c ∉ expansions)) as [N6|]; [|done]. simpl.
  intros Hl. apply (Hgo (Bare c) s (t ++ [c])); try done; [simpl; lia|simpl; rewrite <-Hl; f_equal; lia| |].
  - simpl. apply target_plain_spec. split_and!; [done|chars|done].
  - intros [= ->] Hh. by apply N5.
Qed.

(** The word scan reads exactly a word that white space or the end follows. *)
Lemma tokenize_word_exact s v n :
  tokenize_word s = Some (v, n) ↔
  ∃ w r, s = render_w w ++ r ∧ word_ok w r ∧ ends r ∧ v = value_w w ∧ n = length (render_w w).
Proof.
  split.
  - apply word_sound.
  - intros (w & r & -> & H1 & H2 & -> & ->). unfold tokenize_word, tokenize_literal_word. by rewrite word_complete.
Qed.

(** ** The scan of the header *)

Lemma render_items_cons i items : render_items (i :: items) = render_i i ++ render_items items.
Proof. done. Qed.
#[global] Arguments render_items : simpl never.

Lemma tokenize_single bw args t a r :
  SQUOTE ∉ a → tokenize_loop Single bw args t (a ++ r) = tokenize_loop Single bw args (t ++ a) r.
Proof.
  revert t. induction a as [|c a IH]; intros t Ha; simpl; [by rewrite app_nil_r|].
  apply not_elem_of_cons in Ha as [Hc Ha]. rewrite decide_False by congruence. rewrite IH by done. by rewrite <-app_assoc.
Qed.

Lemma tokenize_double bw args t ds r :
  Forall d_ok ds → tokenize_loop Double bw args t (render_ds ds ++ r) = tokenize_loop Double bw args (t ++ value_ds ds) r.
Proof.
  revert t. induction ds as [|d ds IH]; intros t Hds; [by rewrite app_nil_r|].
  apply Forall_cons in Hds as [Hd Hds]. rewrite render_ds_cons, value_ds_cons, <-app_assoc, (app_assoc t).
  destruct d as [c|c]; simpl in *; [|by rewrite IH].
  rewrite !decide_False by chars. rewrite bool_decide_eq_true_2 by chars. simpl. by rewrite IH.
Qed.

Lemma push_token_arguments args w : push_token args (value_w w) = args ++ arguments [w].
Proof.
  unfold push_token, arguments. simpl. destruct (decide (value_w w = [])) as [E|E].
  - by rewrite filter_cons_False, app_nil_r by auto.
  - by rewrite filter_cons_True.
Qed.

Lemma arguments_cons w ws : arguments (w :: ws) = arguments [w] ++ arguments ws.
Proof. unfold arguments. by rewrite <-filter_app. Qed.

(** A word has begun unless all there is are line continuations. *)
Lemma opening w : bool_decide (value_w w = []) && forallb is_bare w = forallb is_join w.
Proof.
  induction w as [|p w IH]; [done|]. rewrite value_w_cons. simpl. destruct p as [c|c|s|ds|]; simpl in *; rewrite ?andb_false_r; try done.
  destruct (decide (c = LF)) as [->|Hc]; [done|]. rewrite (bool_decide_eq_false_2 (c = LF)) by done. by rewrite andb_false_r.
Qed.

Lemma word_plain_facts c : word_plain c = true → target_plain c = true ∧ c ≠ AMP.
Proof. unfold word_plain. rewrite andb_true_iff, negb_true_iff, bool_decide_eq_false. tauto. Qed.

(** A word does not begin with white space. *)
Lemma render_w_head w r : word_ok w r → w ≠ [] → ∃ c s, render_w w = c :: s ∧ is_whitespace c = false.
Proof.
  destruct w as [|p w]; [done|]. intros (Hp & _) _. rewrite render_w_cons.
  destruct p as [c|c|s|ds|]; simpl in *; eexists _, _; (split; [done|]); try by_compute.
  by apply plain_facts in Hp as [? _].
Qed.

Lemma drop_white b s : all_white b → drop_while is_whitespace (b ++ s) = drop_while is_whitespace s.
Proof. induction 1 as [|c b Hc _ IH]; simpl; [done|]. by rewrite Hc. Qed.

Lemma white_remainder t : has_non_space_remainder t = false ↔ all_white t.
Proof.
  unfold has_non_space_remainder, all_white. rewrite existsb_false_elem_of, Forall_forall.
  split; intros H c Hc; specialize (H c Hc); [by apply negb_false_iff|by apply negb_false_iff].
Qed.

Lemma white_ends t : all_white t → ends t.
Proof. destruct 1; done. Qed.

Lemma redirect_complete b w t :
  all_white b → word_ok w t → value_w w ≠ [] → all_white t →
  read_next_redirect_target (b ++ render_w w ++ t) = Some (value_w w, t).
Proof.
  intros Hb Hw Hv Ht. unfold read_next_redirect_target. rewrite drop_white by done.
  destruct (render_w_head w t Hw) as (c & s & Hc & Hws); [by intros ->|].
  assert (drop_while is_whitespace (render_w w ++ t) = render_w w ++ t) as -> by (rewrite Hc; simpl; by rewrite Hws).
  rewrite (proj2 (tokenize_word_exact _ (value_w w) (length (render_w w)))).
  - simpl. by rewrite decide_False, drop_app_length.
  - exists w, t. split_and!; [done|done|by apply white_ends|done|done].
Qed.

Lemma redirect_sound s v t :
  read_next_redirect_target s = Some (v, t) → has_non_space_remainder t = false →
  ∃ b w, s = b ++ render_w w ++ t ∧ all_white b ∧ word_ok w t ∧ v = value_w w ∧ v ≠ [] ∧ all_white t.
Proof.
  unfold read_next_redirect_target. intros ([v' n] & Hw & Hs)%bind_Some Ht. simpl in Hs.
  destruct (decide (v' = [])) as [|Hv]; [done|]. injection Hs as -> <-.
  apply tokenize_word_exact in Hw as (w & r & Hw & H1 & H2 & -> & ->). rewrite Hw, drop_app_length in *.
  destruct (drop_while_suffix is_whitespace s) as (b & Hb & Hp). rewrite Hw in Hb.
  exists b, w. split_and!; [done|done|done|done|done|by apply white_remainder].
Qed.

Lemma bare_snoc w p : forallb is_bare (w ++ [p]) = forallb is_bare w && is_bare p.
Proof. rewrite forallb_app. simpl. by rewrite andb_true_r. Qed.

Lemma value_w_snoc w p : value_w (w ++ [p]) = value_w w ++ value_p p.
Proof. rewrite value_w_app. unfold value_w at 2. simpl. by rewrite app_nil_r. Qed.

(** One bare character of a word. *)
Lemma tokenize_bare w args c s :
  word_plain c = true → (c = HASH → forallb is_join w = false) →
  tokenize_loop NoQuote (forallb is_bare w) args (value_w w) (c :: s)
  = tokenize_loop NoQuote (forallb is_bare w) args (value_w w ++ [c]) s.
Proof.
  intros [Hp Ha]%word_plain_facts Hh. apply plain_facts in Hp as (H1 & H2 & H3 & H4 & H5 & H6 & H7). simpl. rewrite H1.
  do 4 rewrite decide_False by done. rewrite bool_decide_eq_true_2 by done. simpl.
  rewrite decide_False by chars. rewrite decide_False by done.
  rewrite <-andb_assoc, opening. destruct (bool_decide_reflect (c = HASH)) as [->|_]; simpl; [rewrite Hh by done; simpl|].
  all: by rewrite ?decide_False by chars.
Qed.

Lemma header_complete items w args r :
  line_ok (render_redirect r) w items → redirect_ok (last_word w items) [] r →
  tokenize_loop NoQuote (forallb is_bare w) args (value_w w) (render_items items ++ render_redirect r)
  = Some (args ++ arguments (words_from w items), redirect_target r).
Proof.
  revert w args. induction items as [|i items IH]; intros w args Hl Hr.
  { change (render_items [] ++ render_redirect r) with (render_redirect r). destruct r as [[[b tw] t]|]; simpl;
      [|by rewrite push_token_arguments].
    destruct Hr as (Hn & Hb & Hw & Hv & Ht). rewrite app_nil_r in Hw.
    unfold is_number in Hn. simpl last_word in Hn. rewrite Hn. rewrite redirect_complete by done. simpl.
    rewrite (proj2 (white_remainder t)) by done. by rewrite push_token_arguments. }
  rewrite render_items_cons, <-app_assoc. destruct i as [c|p]; simpl in Hl, Hr |- *.
  { destruct Hl as [Hc Hl]. rewrite Hc, push_token_arguments. rewrite (IH [] _ Hl Hr).
    by rewrite (arguments_cons w (words_from [] items)), <-app_assoc. }
  destruct Hl as (Hp & Hh & Ht & Hl). specialize (IH (w ++ [p]) args Hl Hr). rewrite bare_snoc, value_w_snoc in IH.
  destruct p as [c|c|s|ds|]; simpl render_p; simpl in IH, Hp; rewrite ?andb_true_r, ?andb_false_r in IH.
  - simpl app. rewrite tokenize_bare; [done|done|]. intros ->. by apply Hh.
  - simpl. destruct (decide (c = LF)) as [->|Hc].
    + rewrite app_nil_r in IH. by rewrite bool_decide_eq_true_2, andb_true_r in IH.
    + by rewrite bool_decide_eq_false_2, andb_false_r in IH.
  - simpl. rewrite <-app_assoc, tokenize_single by done. simpl. done.
  - simpl. rewrite <-app_assoc, tokenize_double by done. simpl. done.
  - destruct (Ht eq_refl) as [-> Hn]. destruct r as [[[b tw] t]|]; [done|]. simpl.
    by rewrite <-push_token_arguments, value_w_snoc.
Qed.

Lemma tokenize_single_open bw args t s : SQUOTE ∉ s → tokenize_loop Single bw args t s = None.
Proof. intros Hs. by rewrite <-(app_nil_r s), tokenize_single. Qed.

Lemma tokenize_double_open bw args t ds r :
  Forall d_ok ds → stops r → head r ≠ Some DQUOTE → tokenize_loop Double bw args t (render_ds ds ++ r) = None.
Proof.
  intros Hds Hr Hh. rewrite tokenize_double by done. destruct Hr as [->|[->|(c & r' & -> & Hc)]]; [done|done|].
  simpl in *. rewrite decide_False by congruence. destruct (decide (c = BACKTICK)); [done|].
  rewrite bool_decide_eq_false_2; [done|]. chars.
Qed.

(** What the scan of [s] with the parts [w] of a word before it answers. *)
Definition scans (w : list piece) (args : list str) (s : str) (a : list str) (target : option str) : Prop :=
  ∃ items r, s = render_items items ++ render_redirect r ∧ line_ok (render_redirect r) w items ∧
    redirect_ok (last_word w items) [] r ∧ a = args ++ arguments (words_from w items) ∧ target = redirect_target r.

Lemma scans_part w args p s a target :
  piece_ok word_plain p → (p = Bare HASH → forallb is_join w = false) → p ≠ Trailing →
  scans (w ++ [p]) args s a target → scans w args (render_p p ++ s) a target.
Proof.
  intros H1 H2 H3 (items & r & -> & H4 & H5 & -> & ->). exists (Part p :: items), r.
  rewrite render_items_cons, <-app_assoc. by split_and!.
Qed.

Lemma header_sound s w args a target :
  tokenize_loop NoQuote (forallb is_bare w) args (value_w w) s = Some (a, target) → scans w args s a target.
Proof.
  remember (length s) as k eqn:Hk. revert s w args Hk. induction (lt_wf k) as [k _ IH]; intros s w args ->.
  assert (∀ p r, length r < length s →
    tokenize_loop NoQuote (forallb is_bare w && is_bare p) args (value_w w ++ value_p p) r = Some (a, target) →
    scans (w ++ [p]) args r a target) as Hgo.
  { intros p r Hlen Hl. apply (IH _ Hlen r (w ++ [p]) args eq_refl). by rewrite bare_snoc, value_w_snoc. }
  destruct s as [|c s]; simpl.
  { intros [= <- <-]. exists [], None. split_and!; try done. by rewrite push_token_arguments. }
  destruct (is_whitespace c) eqn:Hws.
  { rewrite push_token_arguments. intros Hl. destruct (IH (length s) ltac:(simpl; lia) s [] _ eq_refl Hl)
      as (items & r & -> & H1 & H2 & -> & ->). exists (Space c :: items), r.
    rewrite render_items_cons. split_and!; try done. simpl. by rewrite (arguments_cons w (words_from [] items)), <-app_assoc. }
  destruct (decide (c = SQUOTE)) as [->|N1].
  { destruct (single_split s) as [Hn|(x & r & -> & Hx)]; [by rewrite tokenize_single_open|].
    rewrite tokenize_single by done. simpl. intros Hl.
    assert (SQUOTE :: x ++ SQUOTE :: r = render_p (Quoted x) ++ r) as -> by (simpl; by rewrite <-app_assoc).
    apply scans_part; try done. apply Hgo; [len|]. by rewrite andb_false_r. }
  destruct (decide (c = DQUOTE)) as [->|N2].
  { destruct (double_split s) as (ds & r & -> & Hds & Hst). destruct (decide (head r = Some DQUOTE)) as [Hh|Hh];
      [|by rewrite tokenize_double_open]. destruct r as [|c r]; simplify_eq/=.
    rewrite tokenize_double by done. simpl. intros Hl.
    assert (DQUOTE :: render_ds ds ++ DQUOTE :: r = render_p (DQuoted ds) ++ r) as -> by (simpl; by rewrite <-app_assoc).
    apply scans_part; try done. apply Hgo; [len|]. by rewrite andb_false_r. }
  destruct (decide (c = BACKSLASH)) as [->|N3].
  { destruct s as [|e s].
    - intros [= <- <-]. exists [Part Trailing], None. split_and!; try done. simpl. by rewrite <-push_token_arguments, value_w_snoc.
    - intros Hl. apply (scans_part w args (Escaped e) s); try done. apply Hgo; [simpl; lia|]. simpl.
      destruct (decide (e = LF)) as [->|He]; [by rewrite andb_true_r, app_nil_r|].
      by rewrite bool_decide_eq_false_2, andb_false_r. }
  destruct (decide (c = BACKTICK)) as [|N4]; [done|].
  destruct (bool_decide_reflect (c ∉ expansions)) as [N5|]; [|done]. simpl.
  destruct (decide (c ∈ [PIPE; SEMI])) as [|N6]; [done|]. destruct (decide (c = AMP)) as [|N7]; [done|].
  rewrite <-andb_assoc, opening.
  destruct (bool_decide (c = HASH) && forallb is_join w) eqn:Hh; [done|].
  destruct (decide (c = GT ∧ head s = Some GT)) as [[-> Hs]|N8].
  { destruct s as [|g s]; simplify_eq/=. destruct (is_number w) eqn:Hnum; unfold is_number in Hnum; rewrite Hnum; [done|].
    intros ([v t] & Hrd & Hl)%bind_Some. destruct (has_non_space_remainder t) eqn:Ht; [done|]. injection Hl as <- <-.
    destruct (redirect_sound s v t Hrd Ht) as (b & tw & -> & H1 & H2 & -> & H3 & H4).
    exists [], (Some (b, tw, t)). rewrite push_token_arguments. split_and!; try done. simpl. by rewrite app_nil_r. }
  destruct (decide (c ∈ [GT; LT])) as [|N9]; [done|]. intros Hl. apply (scans_part w args (Bare c) s); try done.
  - simpl. unfold word_plain. rewrite (proj2 (target_plain_spec c)); [by rewrite bool_decide_eq_false_2|].
    split_and!; [done|chars|done].
  - intros [= ->]. done.
  - apply Hgo; [simpl; lia|]. simpl. by rewrite andb_true_r.
Qed.

End BashGrammar.
