(* ===== verification/BashHeredoc.v ===== *)
(** * Heredocs, and the exactness of the bash parser

    The scan for the heredoc operator passes over a header of the grammar and stops at the
    operator; the body is the lines before the first one that is the delimiter. *)

From S2P Require Import Prelude RustStr ByteStr BashParser BashGrammar.
Import ByteStr BashParser BashGrammar.

Module BashHeredoc.

(** ** Heredocs *)

(** The space before the delimiter, the delimiter, the rest of its line, the lines of the body
    and what follows the terminator. *)
Record Here := MkHere { h_space : str; h_word : list piece; h_gap : str; h_lines : list str; h_rest : str }.

Definition body (lines : list str) : str := lines ≫= λ l, l ++ [LF].

Definition render_here (h : Here) : str :=
  [LT; LT] ++ h_space h ++ render_w (h_word h) ++ h_gap h ++ [LF] ++ body (h_lines h) ++ value_w (h_word h) ++ h_rest h.

(** A part of the delimiter is quoted or escaped. *)
Definition is_quoted (w : list piece) : bool := existsb (λ p, match p with Bare _ => false | _ => true end) w.

Record here_ok (h : Here) : Prop := {
  ho_space : Forall (λ c, is_horizontal_space c = true) (h_space h);
  ho_dash : h_space h = [] → head (render_w (h_word h)) ≠ Some DASH;
  ho_word : word_ok (h_word h) (h_gap h ++ [LF]);
  ho_value : value_w (h_word h) ≠ [];
  ho_delimiter : LF ∉ value_w (h_word h);
  ho_gap : all_white (h_gap h) ∧ LF ∉ h_gap h;
  ho_lines : Forall (λ l, (LF ∉ l) ∧ l ≠ value_w (h_word h)) (h_lines h);
  ho_literal : is_quoted (h_word h) = false → contains_any [DOLLAR; BACKTICK; BACKSLASH] (body (h_lines h)) = false;
  ho_rest : all_white (h_rest h) ∧ (h_rest h = [] ∨ head (h_rest h) = Some LF) }.

(** The command [c] denotes [p]. *)
Definition command_denotes (c : str) (p : ParsedCommand) : Prop :=
  args p ≠ [] ∧
  ((heredoc p = None ∧ header_denotes [] c (args p) (appends_to p)) ∨
   ∃ header h, c = header ++ render_here h ∧ here_ok h ∧ header_denotes (render_here h) header (args p) (appends_to p) ∧
     heredoc p = Some (body (h_lines h)) ∧ appends_to p ≠ None).

(** ** The scan for the operator *)

Lemma find_single i a r :
  SQUOTE ∉ a → find_operator_loop Single i (a ++ r) = find_operator_loop Single (i + length a) r.
Proof.
  revert i. induction a as [|c a IH]; intros i Ha; simpl; [by rewrite Nat.add_0_r|].
  apply not_elem_of_cons in Ha as [Hc Ha]. rewrite decide_False by congruence. rewrite IH by done. f_equal. lia.
Qed.

Lemma find_double i ds r :
  Forall d_ok ds → find_operator_loop Double i (render_ds ds ++ r) = find_operator_loop Double (i + length (render_ds ds)) r.
Proof.
  revert i. induction ds as [|d ds IH]; intros i Hds; [by rewrite Nat.add_0_r|].
  apply Forall_cons in Hds as [Hd Hds]. rewrite render_ds_cons, length_app, <-app_assoc.
  destruct d as [c|c]; simpl in *; [|rewrite IH by done; f_equal; lia].
  rewrite !decide_False by chars. rewrite bool_decide_eq_true_2 by chars. simpl. rewrite IH by done. f_equal. lia.
Qed.

(** A character that stands for itself. *)
Lemma find_char i c r :
  c ≠ SQUOTE → c ≠ DQUOTE → c ≠ BACKSLASH → c ≠ BACKTICK → c ≠ LT → c ∉ expansions →
  find_operator_loop NoQuote i (c :: r) = find_operator_loop NoQuote (S i) r.
Proof.
  intros H1 H2 H3 H4 H5 H6. simpl. rewrite !decide_False; [|by intros [? _]|done..]. by rewrite bool_decide_eq_true_2.
Qed.

Lemma find_piece i p r :
  piece_ok target_plain p → (p = Trailing → r = []) →
  find_operator_loop NoQuote i (render_p p ++ r) = find_operator_loop NoQuote (i + length (render_p p)) r.
Proof.
  intros Hp Ht. destruct p as [c|c|s|ds|]; simpl in Hp.
  - apply plain_facts in Hp as (H1 & H2 & H3 & H4 & H5 & H6 & H7). simpl app. rewrite find_char by chars. f_equal. simpl. lia.
  - simpl. f_equal. lia.
  - simpl. rewrite <-app_assoc, find_single by done. simpl. f_equal. len.
  - simpl. rewrite <-app_assoc, find_double by done. simpl. f_equal. len.
  - rewrite Ht by done. simpl. done.
Qed.

Lemma white_facts c :
  is_whitespace c = true →
  c ≠ SQUOTE ∧ c ≠ DQUOTE ∧ c ≠ BACKSLASH ∧ c ≠ BACKTICK ∧ c ≠ LT ∧ c ∉ expansions.
Proof.
  intros Hc. split_and!; try by intros ->. intros Hin. unfold expansions in Hin.
  repeat (apply elem_of_cons in Hin as [->|Hin]; [done|]). by apply not_elem_of_nil in Hin.
Qed.

Lemma find_white i s r :
  all_white s → find_operator_loop NoQuote i (s ++ r) = find_operator_loop NoQuote (i + length s) r.
Proof.
  intros Hs. revert i. induction Hs as [|c s Hc _ IH]; intros i; [by rewrite Nat.add_0_r|].
  apply white_facts in Hc as (H1 & H2 & H3 & H4 & H5 & H6). simpl app. rewrite find_char, IH by done. f_equal. simpl. lia.
Qed.

Lemma find_word i w r :
  word_ok w r → find_operator_loop NoQuote i (render_w w ++ r) = find_operator_loop NoQuote (i + length (render_w w)) r.
Proof.
  revert i. induction w as [|p w IH]; intros i Hw; [by rewrite Nat.add_0_r|].
  destruct Hw as (Hp & Ht & _ & Hw). rewrite render_w_cons, <-app_assoc, find_piece; [|done|by intros [-> ->]%Ht].
  rewrite IH by done. f_equal. len.
Qed.

Lemma word_piece p : piece_ok word_plain p → piece_ok target_plain p.
Proof. destruct p as [c|c|s|ds|]; simpl; try done. by intros [? _]%word_plain_facts. Qed.

Lemma find_line i after w items :
  line_ok after w items →
  find_operator_loop NoQuote i (render_items items ++ after) = find_operator_loop NoQuote (i + length (render_items items)) after.
Proof.
  revert i w. induction items as [|x items IH]; intros i w Hl; [by rewrite Nat.add_0_r|].
  rewrite render_items_cons, <-app_assoc, length_app. destruct x as [c|p]; simpl in Hl.
  - destruct Hl as [Hc Hl]. simpl render_i. rewrite (find_white i [c]) by (by constructor).
    rewrite (IH _ [] Hl). f_equal. simpl. lia.
  - destruct Hl as (Hp & _ & Ht & Hl). simpl render_i.
    rewrite find_piece; [|by apply word_piece|by intros [-> ->]%Ht]. rewrite (IH _ _ Hl). f_equal. lia.
Qed.

(** The scan passes over a header. *)
Lemma header_find i after h a t :
  header_denotes after h a t →
  find_operator_loop NoQuote i (h ++ after) = find_operator_loop NoQuote (i + length h) after.
Proof.
  intros (items & r & -> & Hl & Hr & _). rewrite <-app_assoc, (find_line i _ [] items Hl), length_app.
  destruct r as [[[b w] s]|]; simpl in *; [|f_equal; lia].
  destruct Hr as (_ & Hb & Hw & _ & Hs).
  rewrite <-!app_assoc, find_white by done.
  rewrite find_word by done. rewrite find_white by done. f_equal. len.
Qed.

Lemma find_Some q i s k :
  find_operator_loop q i s = Some (Some k) → ∃ h x, s = h ++ LT :: LT :: x ∧ k = i + length h.
Proof.
  remember (length s) as n eqn:Hn. revert q i s Hn. induction (lt_wf n) as [n _ IH]; intros q i s ->.
  destruct s as [|c s]; simpl; [by case_decide|].
  assert (∀ q', find_operator_loop q' (S i) s = Some (Some k) → ∃ h x, c :: s = h ++ LT :: LT :: x ∧ k = i + length h) as H1.
  { intros q' Hf. destruct (IH (length s) ltac:(simpl; lia) q' _ s eq_refl Hf) as (h & x & -> & ->).
    exists (c :: h), x. split; [done|]. simpl. lia. }
  assert (∀ q' o, match s with [] => o | _ :: s' => find_operator_loop q' (S (S i)) s' end = Some (Some k) →
    o ≠ Some (Some k) → ∃ h x, c :: s = h ++ LT :: LT :: x ∧ k = i + length h) as H2.
  { intros q' o Hf Ho. destruct s as [|e s]; [done|].
    destruct (IH (length s) ltac:(simpl; lia) q' _ s eq_refl Hf) as (h & x & -> & ->).
    exists (c :: e :: h), x. split; [done|]. simpl. lia. }
  destruct q.
  - do 3 (case_decide; [try done; intros Hf; by eauto|]). destruct (negb _); [done|].
    destruct (decide (c = BACKSLASH)); [intros Hf; by eapply H2|].
    destruct (decide (c = LT ∧ head s = Some LT)) as [[-> Hs]|]; [|apply H1]. intros [= <-]. destruct s as [|d s]; simplify_eq/=.
    exists [], s. split; [done|simpl; lia].
  - apply H1.
  - do 2 (case_decide; [try done; intros Hf; by eauto|]). destruct (negb _); [done|].
    destruct (decide (c = BACKSLASH)); [intros Hf; by eapply H2|apply H1].
Qed.

(** ** A header that something follows *)

(** The scan passes over [h] and comes to a backslash. *)
Definition escapes_next (h : str) : Prop :=
  ∃ h0, h = h0 ++ [BACKSLASH] ∧
    ∀ i y, find_operator_loop NoQuote i (h0 ++ BACKSLASH :: y) = find_operator_loop NoQuote (i + length h0) (BACKSLASH :: y).

Lemma escapes_cons x h :
  (∀ i y, find_operator_loop NoQuote i (x ++ y) = find_operator_loop NoQuote (i + length x) y) →
  escapes_next h → escapes_next (x ++ h).
Proof.
  intros Hx (h0 & -> & Hh). exists (x ++ h0). split; [by rewrite app_assoc|]. intros i y.
  rewrite <-app_assoc, Hx, Hh. f_equal. len.
Qed.

Lemma escapes_trailing : escapes_next [BACKSLASH].
Proof. exists []. split; [done|]. intros i y. by rewrite Nat.add_0_r. Qed.

Lemma word_after w t after :
  word_ok w t → head after ≠ Some AMP → word_ok w (t ++ after) ∨ (t = [] ∧ escapes_next (render_w w)).
Proof.
  intros Hw Ha. induction w as [|p w IH]; [by left|]. destruct Hw as (Hp & Ht & Hamp & Hw).
  destruct (decide (render_p p = [BACKSLASH] ∧ w = [] ∧ t = [])) as [(Hr & -> & ->)|Hn].
  { right. split; [done|]. rewrite render_w_cons, Hr. apply escapes_trailing. }
  assert (p ≠ Trailing) as Hnt by (intros ->; destruct (Ht eq_refl) as [-> ->]; by apply Hn).
  destruct (IH Hw) as [Hok|[-> He]].
  - left. simpl. split_and!; [done|done| |done]. intros Hb. rewrite app_assoc.
    destruct (render_w w ++ t) as [|c x] eqn:E; [done|]. simpl. by apply Hamp.
  - right. split; [done|]. rewrite render_w_cons. apply escapes_cons; [|done]. intros i y. by apply find_piece.
Qed.

Lemma line_extend after after' w items : line_ok after w items → after ≠ [] → line_ok after' w items.
Proof.
  intros Hl Hn. revert w Hl. induction items as [|[c|p] items IH]; intros w Hl; simpl in *; [done|destruct Hl as [? Hl]; split; [done|by apply IH]|].
  destruct Hl as (H1 & H2 & H3 & H4). split_and!; [done|done|by intros [_ ?]%H3|by apply IH].
Qed.

Lemma line_after after w items : line_ok [] w items → line_ok after w items ∨ escapes_next (render_items items).
Proof.
  revert w. induction items as [|[c|p] items IH]; intros w Hl; simpl in Hl; [by left|..].
  - destruct Hl as [Hc Hl]. destruct (IH _ Hl) as [?|He]; [by left|right]. rewrite render_items_cons.
    apply escapes_cons; [|done]. intros i y. apply (find_white i [c] y). by constructor.
  - destruct Hl as (Hp & Hh & Ht & Hl). rewrite render_items_cons.
    assert (p = Trailing ∨ p ≠ Trailing) as [->|Hn] by (destruct p; auto).
    { right. destruct (Ht eq_refl) as [-> _]. apply escapes_trailing. }
    destruct (IH _ Hl) as [?|He]; [left; by split_and!|right]. apply escapes_cons; [|done].
    intros i y. apply find_piece; [by apply word_piece|done].
Qed.

Lemma header_after after h a t :
  header_denotes [] h a t → head after ≠ Some AMP → header_denotes after h a t ∨ escapes_next h.
Proof.
  intros (items & r & -> & Hl & Hr & -> & ->) Ha. rewrite app_nil_r in Hl. destruct r as [[[b w] s]|].
  - pose proof Hl as Hl'. apply (line_extend _ (render_redirect (Some (b, w, s)) ++ after)) in Hl'; [|done].
    destruct Hr as (H1 & H2 & H3 & H4 & H5). rewrite app_nil_r in H3. destruct (word_after w s after H3 Ha) as [Hw|[-> He]].
    + left. exists items, (Some (b, w, s)). by split_and!.
    + right. simpl render_redirect. rewrite app_nil_r.
      apply escapes_cons; [intros i y; apply (find_line i y [] items); by eapply line_extend|].
      apply (escapes_cons [GT; GT]); [intros i y; simpl; f_equal; lia|]. apply escapes_cons; [intros i y; by apply find_white|done].
  - destruct (line_after after [] items Hl) as [Hl'|He]; [left; exists items, None; by split_and!|right].
    simpl. by rewrite app_nil_r.
Qed.

(** The operator found is the one after the header. *)
Lemma header_before_operator h x a t :
  find_heredoc_operator (h ++ LT :: LT :: x) = Some (Some (length h)) → header_denotes [] h a t →
  header_denotes (LT :: LT :: x) h a t.
Proof.
  intros Hf Hh. destruct (header_after (LT :: LT :: x) h a t Hh) as [?|(h0 & -> & He)]; [done|done|]. exfalso.
  unfold find_heredoc_operator in Hf. rewrite <-app_assoc in Hf. simpl app in Hf. rewrite He in Hf.
  change (find_operator_loop NoQuote (S (S (0 + length h0))) (LT :: x) = Some (Some (length (h0 ++ [BACKSLASH])))) in Hf.
  apply find_Some in Hf as (h1 & y & _ & Hk). rewrite length_app in Hk. simpl in Hk. lia.
Qed.

(** ** The body *)

Lemma line_split (s : str) : LF ∉ s ∨ ∃ a r, s = a ++ LF :: r ∧ LF ∉ a.
Proof.
  destruct (decide (LF ∈ s)) as [Hin|]; [right|by left].
  apply list_elem_of_split_l in Hin as (a & r & -> & Ha). by exists a, r.
Qed.

Lemma terminator_complete d ls rest :
  LF ∉ d → d ≠ [] → Forall (λ l, (LF ∉ l) ∧ l ≠ d) ls → rest = [] ∨ head rest = Some LF →
  find_terminator d (split_inclusive LF (body ls ++ d ++ rest)) = Some (body ls, rest).
Proof.
  intros Hd Hn Hls Hr. induction Hls as [|l ls [Hl Hld] _ IH]; simpl.
  - destruct Hr as [->|Hr].
    + rewrite app_nil_r, split_inclusive_last by done. simpl. rewrite strip_no_line by done. simpl.
      rewrite decide_True by done. by rewrite app_nil_r, drop_all.
    + destruct rest as [|c rest]; simplify_eq/=. rewrite split_inclusive_line by done. simpl.
      rewrite strip_line. simpl. rewrite decide_True by done. rewrite split_inclusive_concat, <-app_assoc.
      by rewrite drop_app_length.
  - change (body (l :: ls)) with ((l ++ [LF]) ++ body ls). rewrite <-!app_assoc. simpl app.
    rewrite split_inclusive_line by done. simpl. rewrite strip_line. simpl. rewrite decide_False by done.
    rewrite IH. simpl. by rewrite <-app_assoc.
Qed.

Lemma terminator_sound d s content rest :
  LF ∉ d → find_terminator d (split_inclusive LF s) = Some (content, rest) →
  ∃ ls, content = body ls ∧ s = body ls ++ d ++ rest ∧ Forall (λ l, (LF ∉ l) ∧ l ≠ d) ls ∧ (rest = [] ∨ head rest = Some LF).
Proof.
  intros Hd. remember (length s) as n eqn:Hn. revert s content Hn. induction (lt_wf n) as [n _ IH]; intros s content ->.
  destruct (line_split s) as [Hs|(l & r & -> & Hl)].
  - destruct (decide (s = [])) as [->|Hne]; [done|]. rewrite split_inclusive_last by done. simpl.
    rewrite strip_no_line by done. simpl. case_decide as E; [|done]. subst d. intros [= <- <-].
    exists []. rewrite app_nil_r, drop_all. split_and!; [done|by rewrite app_nil_r|constructor|by left].
  - rewrite split_inclusive_line by done. simpl. rewrite strip_line. simpl. case_decide as E.
    + subst d. intros [= <- <-]. exists []. rewrite split_inclusive_concat, <-app_assoc, drop_app_length.
      split_and!; [done|done|constructor|by right].
    + intros ([c2 r2] & Hf & [= <- <-])%bind_Some.
      destruct (IH (length r) ltac:(len) r c2 eq_refl Hf) as (ls & -> & -> & H1 & H2). exists (l :: ls).
      split_and!; [done| |by constructor|done]. change (body (l :: ls)) with ((l ++ [LF]) ++ body ls). by rewrite <-!app_assoc.
Qed.

(** ** The whole command *)

Lemma blank_white s : blank s = true ↔ all_white s.
Proof.
  unfold blank, all_white. rewrite bool_decide_eq_true. unfold trim, trim_end, trim_start. split.
  - intros Ht. destruct (drop_while_suffix is_whitespace s) as (k & Hk & Hp). rewrite Hk. apply Forall_app. split; [done|].
    destruct (rstrip_prefix is_whitespace (drop_while is_whitespace s)) as (k' & Hk' & Hp'). rewrite Ht in Hk'. by rewrite Hk'.
  - intros Hs. assert (drop_while is_whitespace s = []) as ->; [|done]. induction Hs as [|c s Hc _ IH]; simpl; [done|]. by rewrite Hc.
Qed.

Lemma contains_any_app l a b : contains_any l (a ++ b) = contains_any l a || contains_any l b.
Proof. apply existsb_app. Qed.

Lemma quoted_spec w r : word_ok w r → contains_any [SQUOTE; DQUOTE; BACKSLASH] (render_w w) = is_quoted w.
Proof.
  induction w as [|p w IH]; [done|]. intros (Hp & _ & _ & Hw). rewrite render_w_cons, contains_any_app, IH by done.
  destruct p as [c|c|s|ds|]; try done. simpl in *. apply plain_facts in Hp as (_ & H1 & H2 & H3 & _).
  unfold contains_any. simpl. rewrite bool_decide_eq_false_2 by chars. done.
Qed.

Lemma word_rest w r r' : word_ok w r → r ≠ [] → head r' = head r → word_ok w r'.
Proof.
  intros Hw Hr Hh. induction w as [|p w IH]; [done|]. destruct Hw as (H1 & H2 & H3 & H4). simpl.
  split_and!; [done|by intros [_ ?]%H2| |by apply IH]. intros Hp. specialize (H3 Hp).
  destruct (render_w w) as [|c x]; simpl in *; [by rewrite Hh|done].
Qed.

Lemma horizontal_white c : is_horizontal_space c = true → is_whitespace c = true.
Proof. unfold is_horizontal_space. rewrite bool_decide_eq_true. intros [->|[->|?%not_elem_of_nil]%elem_of_cons]%elem_of_cons; done. Qed.

Lemma skip_spaces b s :
  Forall (λ c, is_horizontal_space c = true) b → (∀ c, head s = Some c → is_whitespace c = false) →
  skip_horizontal_space (b ++ s) = s.
Proof.
  intros Hb Hs. unfold skip_horizontal_space. induction Hb as [|c b Hc _ IH]; simpl.
  - destruct s as [|c s]; [done|]. simpl. specialize (Hs c eq_refl). destruct (is_horizontal_space c) eqn:E; [|done].
    apply horizontal_white in E. congruence.
  - by rewrite Hc.
Qed.

Lemma position_sound s k : position (N.eqb LF) s = Some k → ∃ t r, s = t ++ LF :: r ∧ (LF ∉ t) ∧ k = length t.
Proof.
  destruct (line_split s) as [Hs|(t & r & -> & Ht)].
  - intros (x & Hx & Hc & _)%position_Some. apply N.eqb_eq in Hc as <-. by apply list_elem_of_lookup_2 in Hx.
  - rewrite position_line by done. intros [= <-]. by exists t, r.
Qed.

Lemma no_dash h s : here_ok h → value_w (h_word h) ≠ [] → starts_with [DASH] (h_space h ++ render_w (h_word h) ++ s) = false.
Proof.
  intros Hh Hv. apply not_true_is_false. rewrite starts_with_true. intros [r Hr]. pose proof (ho_space h Hh) as Hs.
  destruct (h_space h) as [|c b] eqn:E; simpl in Hr.
  - pose proof (ho_dash h Hh E) as Hd. destruct (render_w_head (h_word h) _ (ho_word h Hh)) as (c & x & Hx & _); [by intros Hn; rewrite Hn in Hv|].
    rewrite Hx in Hr, Hd. simplify_eq/=.
  - apply Forall_cons in Hs as [Hc _]. simplify_eq/=.
Qed.

Lemma split_complete header h a t :
  header_denotes (render_here h) header a t → here_ok h →
  split_heredoc (header ++ render_here h) = Some (header, Some (body (h_lines h))).
Proof.
  intros Hd Hh. unfold split_heredoc, find_heredoc_operator. rewrite (header_find 0 _ _ _ _ Hd).
  change (find_operator_loop NoQuote (0 + length header) (render_here h)) with (Some (Some (length header))). simpl.
  unfold render_here. rewrite (app_assoc header), (drop_app_length' (header ++ [LT; LT])) by len.
  rewrite no_dash; [|done|by apply ho_value]. pose proof (ho_word h Hh) as Hw. pose proof (ho_gap h Hh) as [Hg1 Hg2].
  destruct (render_w_head (h_word h) _ Hw) as (c & y & Hy & Hc); [intros Hn; by apply (ho_value h Hh); rewrite Hn|].
  rewrite skip_spaces; [|by apply ho_space|intros c'; rewrite Hy; by intros [= <-]].
  rewrite (proj2 (tokenize_word_exact _ (value_w (h_word h)) (length (render_w (h_word h))))).
  2:{ eexists (h_word h), _. split_and!; [done| | |done|done].
      - eapply word_rest; [done|by destruct (h_gap h)|by destruct (h_gap h)].
      - destruct Hg1; done. }
  simpl. rewrite take_app_length, drop_app_length, (quoted_spec _ _ Hw). rewrite decide_False by (by apply ho_value).
  rewrite position_line by done. simpl.
  assert (∀ z, take (S (length (h_gap h))) (h_gap h ++ LF :: z) = h_gap h ++ [LF]) as Htake.
  { intros z. rewrite (app_assoc _ [LF] z : h_gap h ++ LF :: z = _). apply take_app_length'. len. }
  assert (∀ z, drop (S (length (h_gap h))) (h_gap h ++ LF :: z) = z) as Hdrop.
  { intros z. rewrite (app_assoc _ [LF] z : h_gap h ++ LF :: z = _). apply drop_app_length'. len. }
  rewrite Htake, Hdrop. rewrite (proj2 (blank_white _)) by (apply Forall_app; split; [done|by constructor]). simpl.
  assert (contains_char LF (value_w (h_word h)) = false) as ->.
  { apply existsb_false_elem_of. intros z Hz. apply N.eqb_neq. intros <-. by apply (ho_delimiter h Hh). }
  destruct (ho_rest h Hh) as [Hr1 Hr2].
  rewrite terminator_complete; [|by apply ho_delimiter|by apply ho_value|by apply ho_lines|done]. cbn [mbind option_bind].
  assert (negb (is_quoted (h_word h)) && contains_any [DOLLAR; BACKTICK; BACKSLASH] (body (h_lines h)) = false) as ->.
  { destruct (is_quoted (h_word h)) eqn:Eq; [done|]. simpl. by apply ho_literal. }
  rewrite (proj2 (blank_white _)).
  2:{ destruct Hr2 as [->|Hr2]; [constructor|]. destruct (h_rest h) as [|z zs]; simplify_eq/=. by apply Forall_cons in Hr1 as [_ ?]. }
  simpl. rewrite <-app_assoc. by rewrite take_app_length.
Qed.

Lemma split_sound c header b :
  split_heredoc c = Some (header, Some b) →
  ∃ h, c = header ++ render_here h ∧ here_ok h ∧ b = body (h_lines h) ∧ find_heredoc_operator c = Some (Some (length header)).
Proof.
  unfold split_heredoc. intros (op & Hop & Hs)%bind_Some. destruct op as [k|]; [|done].
  pose proof Hop as Hk. apply find_Some in Hk as (hd & x & -> & ->).
  replace (drop (0 + length hd + 2) (hd ++ LT :: LT :: x)) with x in Hs
    by (rewrite (app_assoc hd [LT; LT] x : hd ++ LT :: LT :: x = _); symmetry; apply drop_app_length'; len).
  destruct (starts_with [DASH] x) eqn:Hdash; [done|].
  destruct (drop_while_suffix is_horizontal_space x) as (sp & Hx & Hsp). fold (skip_horizontal_space x) in Hx.
  apply bind_Some in Hs as ([d n] & Hw & Hs). apply tokenize_word_exact in Hw as (w & r & Hr & H1 & H2 & -> & ->).
  rewrite Hr in *. rewrite take_app_length, drop_app_length, (quoted_spec _ _ H1) in Hs.
  destruct (decide (value_w w = [])) as [|Hv]; [done|]. apply bind_Some in Hs as (k & Hp & Hs).
  apply position_sound in Hp as (g & y & -> & Hg & ->).
  replace (take (S (length g)) (g ++ LF :: y)) with (g ++ [LF]) in Hs
    by (rewrite (app_assoc g [LF] y : g ++ LF :: y = _); symmetry; apply take_app_length'; len).
  replace (drop (S (length g)) (g ++ LF :: y)) with y in Hs
    by (rewrite (app_assoc g [LF] y : g ++ LF :: y = _); symmetry; apply drop_app_length'; len).
  destruct (blank (g ++ [LF])) eqn:Hb; [|done]. apply blank_white, Forall_app in Hb as [Hgw _]. simpl in Hs.
  destruct (contains_char LF (value_w w)) eqn:Hlf; [done|]. assert (LF ∉ value_w w) as Hd.
  { intros Hin. unfold contains_char in Hlf. rewrite existsb_false_elem_of in Hlf. specialize (Hlf LF Hin). by rewrite N.eqb_refl in Hlf. }
  apply bind_Some in Hs as ([content rest] & Hf & Hs). apply terminator_sound in Hf as (ls & -> & -> & Hls & Hrest); [|done].
  destruct (negb (is_quoted w) && _) eqn:Hlit; [done|]. destruct (negb (blank _)) eqn:Hbl; [done|].
  injection Hs as Hh <-. rewrite take_app_length in Hh. subst header. exists (MkHere sp w g ls rest).
  split_and!; [|constructor; simpl|done|done].
  - unfold render_here. simpl. rewrite Hx. by rewrite <-?app_assoc.
  - done.
  - intros -> Hh. apply not_true_iff_false in Hdash. apply Hdash, starts_with_true. rewrite Hx.
    simpl. destruct (render_w w) as [|z zs]; simplify_eq/=.
  - eapply word_rest; [done|by destruct g|by destruct g].
  - done.
  - done.
  - done.
  - done.
  - intros Hq. by rewrite Hq in Hlit.
  - split; [|done]. apply negb_false_iff, blank_white in Hbl. destruct Hrest as [->|Hr2]; [constructor|].
    destruct rest as [|z zs]; simplify_eq/=. by constructor.
Qed.

Lemma tokenize_spec h hd p :
  tokenize h hd = Some p ↔ header_denotes [] h (args p) (appends_to p) ∧ heredoc p = hd ∧ (hd = None ∨ appends_to p ≠ None).
Proof.
  unfold tokenize. rewrite bind_Some. split.
  - intros ([a t] & Hl & Hp). apply (header_sound h [] []) in Hl as (items & r & -> & H1 & H2 & -> & ->).
    destruct (bool_decide_reflect (is_Some hd)) as [Hh|Hh]; simpl in Hp.
    + destruct (bool_decide_reflect (redirect_target r = None)) as [|Hr]; [done|]. injection Hp as <-. simpl.
      split_and!; [|done|by right]. exists items, r. rewrite app_nil_r. by split_and!.
    + injection Hp as <-. simpl. split_and!; [|done|left; by apply eq_None_not_Some]. exists items, r. rewrite app_nil_r. by split_and!.
  - intros ((items & r & -> & H1 & H2 & H3 & H4) & <- & H5). rewrite app_nil_r in H1. exists (args p, appends_to p). split.
    + rewrite H3, H4. exact (header_complete items [] [] r H1 H2).
    + destruct p as [a hd t]. simpl in *. destruct H5 as [->|H5]; [done|].
      rewrite (bool_decide_eq_false_2 (t = None)) by done. by rewrite andb_false_r.
Qed.

Lemma word_shorten w s after : word_ok w (s ++ after) → after ≠ [] → word_ok w s.
Proof.
  intros Hw Hn. induction w as [|p w IH]; [done|]. destruct Hw as (H1 & H2 & H3 & H4). simpl.
  split_and!; [done| | |by apply IH].
  - intros Hp. destruct (H2 Hp) as [_ Ha]. by apply app_eq_nil in Ha as [_ ?].
  - intros Hp. specialize (H3 Hp). rewrite app_assoc in H3. by destruct (render_w w ++ s).
Qed.

Lemma header_weaken after h a t : header_denotes after h a t → after ≠ [] → header_denotes [] h a t.
Proof.
  intros (items & r & -> & H1 & H2 & -> & ->) Hn. exists items, r. split_and!; try done.
  - eapply line_extend; [done|]. by destruct (render_redirect r).
  - destruct r as [[[b w] s]|]; [|done]. destruct H2 as (H3 & H4 & H5 & H6 & H7). split_and!; try done. rewrite app_nil_r.
    by eapply word_shorten.
Qed.

Lemma render_items_nil items : render_items items = [] → items = [].
Proof. destruct items as [|[c|p] items]; [done|done|]. by destruct p. Qed.

Lemma split_none c header : split_heredoc c = Some (header, None) ↔ header = c ∧ find_heredoc_operator c = Some None.
Proof.
  unfold split_heredoc. rewrite bind_Some. split.
  - intros ([k|] & Hf & Hs); [|by injection Hs as ->]. exfalso. cbv zeta in Hs. destruct (starts_with _ _); [done|].
    apply bind_Some in Hs as ([d n] & _ & Hs). destruct (decide (d = [])); [done|].
    apply bind_Some in Hs as (o & _ & Hs). destruct (_ || _); [done|]. apply bind_Some in Hs as ([x y] & _ & Hs).
    destruct (_ && _); [done|]. by destruct (negb _).
  - intros [-> Hf]. by exists None.
Qed.

(** C27: the parser of the bash rewriter is exact: it accepts a command when, trimmed, it is in the
    grammar of literal commands (words made of bare characters, escapes and quoted parts, an
    append redirect, a heredoc with its terminator on a line of its own), and answers the
    arguments, the target and the body that the command denotes there; it declines every other
    command. *)
Theorem parse_exact command p : parse command = Some p ↔ command_denotes (trim command) p.
Proof.
  unfold parse, command_denotes. set (c := trim command). split.
  - destruct (decide (c = [])) as [|Hc]; [done|]. intros ([header hd] & Hs & (p' & Ht & Hp)%bind_Some)%bind_Some.
    destruct (decide (args p' = [])) as [|Ha]; [done|]. injection Hp as ->. apply tokenize_spec in Ht as (Hh & Hd & Hr).
    split; [done|]. destruct hd as [b|].
    + right. apply split_sound in Hs as (h & Hc' & H1 & -> & H3). exists header, h. split_and!; [done|done| |done|by destruct Hr].
      rewrite Hc' in H3. by apply header_before_operator.
    + left. apply split_none in Hs as [-> _]. done.
  - intros [Ha [[Hn Hd]|(header & h & Hc & Hh & Hd & Hb & Ht)]].
    + assert (c ≠ []) as Hne. { intros E. rewrite E in Hd. destruct Hd as (items & r & Hi & _ & _ & Hw & _).
        symmetry in Hi. apply app_eq_nil in Hi as [Hi _]. by rewrite (render_items_nil items Hi) in Hw. }
      rewrite decide_False by done. pose proof (header_find 0 [] c _ _ Hd) as Hf. rewrite app_nil_r in Hf.
      rewrite (proj2 (split_none c c)); [|done]. simpl.
      rewrite (proj2 (tokenize_spec c None p)); [|split_and!; [done|done|by left]]. simpl. by rewrite decide_False.
    + assert (c ≠ []) as Hne by (rewrite Hc; by destruct header).
      rewrite decide_False by done. rewrite Hc, (split_complete header h _ _ Hd Hh). simpl.
      rewrite (proj2 (tokenize_spec header (Some (body (h_lines h))) p)); [simpl; by rewrite decide_False|].
      split_and!; [by eapply header_weaken|done|by right].
Qed.

(** ** Where the grammar is not the shell's *)

(** A newline outside quotes ends a command in the shell; here it only separates words, so two
    commands become one. *)
Theorem newline_joins_commands :
  parse (lit "echo building" ++ [LF] ++ lit "make all >> build.log")
  = Some (MkParsed [lit "echo"; lit "building"; lit "make"; lit "all"] None (Some (lit "build.log"))).
Proof. by vm_compute. Qed.

(** A background operator after a redirect target becomes part of the file name. *)
Theorem background_operator_in_target :
  parse (lit "echo hi >> notes.txt&") = Some (MkParsed [lit "echo"; lit "hi"] None (Some (lit "notes.txt&"))).
Proof. by vm_compute. Qed.

(** A quoted empty word is an argument of the shell; here it is dropped. *)
Theorem empty_word_dropped :
  parse (lit "echo a '' b >> f") = Some (MkParsed [lit "echo"; lit "a"; lit "b"] None (Some (lit "f"))).
Proof. by vm_compute. Qed.

End BashHeredoc.
