(* ===== verification/BashRules.v ===== *)
(** * The rewrite rules of the bash tool: [bash_rewrite/rules.rs], [bash_rewrite/dispatch.rs]

    Nine rules look at a parsed command in turn; the first that accepts it turns it into a request
    for a tool of the program, and when none does the command goes to a real shell.  The answers
    of the file system during one decision, the regex and glob crates and the glob command are
    parameters.  A JSON object of parameters is a record with an optional field per key. *)

From S2P Require Import Prelude RustStr ByteStr UnixPath BashParser.
Import ByteStr UnixPath BashParser.

Module BashRules.

(** ** Data *)

Record Params := MkParams {
  p_pattern : option str; p_case_sensitive : option bool; p_path : option str; p_file : option str;
  p_start_line : option N; p_end_line : option N; p_limit : option N; p_include_hidden : option bool;
  p_op : option str; p_append_content : option str; p_create_dirs : option bool;
  p_requested_path : option str; p_bash_read_kind : option str; p_bash_read_lines : option N }.
#[export] Instance Params_eq_dec : EqDecision Params.
Proof. solve_decision. Defined.

Definition no_params : Params :=
  MkParams None None None None None None None None None None None None None None.

Definition with_file (f : str) (p : Params) : Params :=
  MkParams (p_pattern p) (p_case_sensitive p) (p_path p) (Some f) (p_start_line p) (p_end_line p) (p_limit p)
    (p_include_hidden p) (p_op p) (p_append_content p) (p_create_dirs p) (p_requested_path p)
    (p_bash_read_kind p) (p_bash_read_lines p).
Definition with_path (f : str) (p : Params) : Params :=
  MkParams (p_pattern p) (p_case_sensitive p) (Some f) (p_file p) (p_start_line p) (p_end_line p) (p_limit p)
    (p_include_hidden p) (p_op p) (p_append_content p) (p_create_dirs p) (p_requested_path p)
    (p_bash_read_kind p) (p_bash_read_lines p).
Definition with_limit (n : N) (p : Params) : Params :=
  MkParams (p_pattern p) (p_case_sensitive p) (p_path p) (p_file p) (p_start_line p) (p_end_line p) (Some n)
    (p_include_hidden p) (p_op p) (p_append_content p) (p_create_dirs p) (p_requested_path p)
    (p_bash_read_kind p) (p_bash_read_lines p).
Definition with_start (n : N) (p : Params) : Params :=
  MkParams (p_pattern p) (p_case_sensitive p) (p_path p) (p_file p) (Some n) (p_end_line p) (p_limit p)
    (p_include_hidden p) (p_op p) (p_append_content p) (p_create_dirs p) (p_requested_path p)
    (p_bash_read_kind p) (p_bash_read_lines p).
Definition with_end (n : N) (p : Params) : Params :=
  MkParams (p_pattern p) (p_case_sensitive p) (p_path p) (p_file p) (p_start_line p) (Some n) (p_limit p)
    (p_include_hidden p) (p_op p) (p_append_content p) (p_create_dirs p) (p_requested_path p)
    (p_bash_read_kind p) (p_bash_read_lines p).
Definition with_bash_read (requested kind : str) (lines : option N) (p : Params) : Params :=
  MkParams (p_pattern p) (p_case_sensitive p) (p_path p) (p_file p) (p_start_line p) (p_end_line p) (p_limit p)
    (p_include_hidden p) (p_op p) (p_append_content p) (p_create_dirs p) (Some requested) (Some kind) lines.

Record HostToolNames := MkNames { shell_name : str; patch_name : str }.
Definition default_names : HostToolNames := MkNames (lit "bash") (lit "apply_patch").

Record RewriteRequest := MkRequest {
  request_id : str; command : str; session_id : option str; rule_id : str; branch_id : str;
  decision_class_id : str; params : Params; host_tool_names : HostToolNames }.

Record DeclineReason := MkDecline {
  d_rule_id : option str; d_branch_id : str; d_decision_class_id : str; d_reason : str }.

Inductive RewriteDecision := Accept (request : RewriteRequest) | Decline (reason : DeclineReason).

Record RawRequest := MkRaw { raw_id : str; raw_command : str; raw_session_id : option str; raw_params : Params }.

(** The rules, in the order of [dispatch_for_request]. *)
Inductive Rule := GrepRule | RgRule | FindRule | CatRule | HeadRule | TailRule | CatAppendRule | SedRule | LsRule.
#[export] Instance Rule_eq_dec : EqDecision Rule.
Proof. solve_decision. Defined.

Definition rules : list Rule :=
  [GrepRule; RgRule; FindRule; CatRule; HeadRule; TailRule; CatAppendRule; SedRule; LsRule].

Definition name (r : Rule) : str :=
  match r with
  | GrepRule => lit "grep" | RgRule => lit "rg" | FindRule => lit "find" | CatRule => lit "cat"
  | HeadRule => lit "head" | TailRule => lit "tail" | CatAppendRule => lit "cat_append"
  | SedRule => lit "sed" | LsRule => lit "ls"
  end.

(** ** Numbers *)

Definition u32_max : N := 4294967295.
(** [str::parse::<u64>()] is [parse_usize]. *)
Definition parse_u32 (s : str) : option N :=
  v ← parse_usize s; if (v <=? u32_max)%N then Some v else None.

(** ** Requests that depend on the command alone *)

Definition plain (p : ParsedCommand) : bool :=
  bool_decide (appends_to p = None) && bool_decide (heredoc p = None).

(** [+ ? | ( ) { }], and anchors away from the ends of the pattern. *)
Definition extended_only : list N := [43; 63; 124; 40; 41; 123; 125]%N.
Definition CARET : N := 94.

Definition grep_basic_regex_has_dialect_conflict (pattern : str) : bool :=
  let last_index := length pattern - 1 in
  existsb (λ '(index, ch), bool_decide (ch ∈ extended_only)
                           || ((ch =? CARET)%N && negb (index =? 0))
                           || ((ch =? DOLLAR)%N && negb (index =? last_index)))
    (zip (seq 0 (length pattern)) pattern).

(** The flags of one argument: [case_sensitive] and [word_match] after them. *)
Fixpoint grep_flags (case_sensitive word_match : bool) (flags : str) : option (bool * bool) :=
  match flags with
  | [] => Some (case_sensitive, word_match)
  | flag :: flags =>
      if decide (flag ∈ lit "nr") then grep_flags case_sensitive word_match flags
      else if decide (flag ∈ lit "i") then grep_flags false word_match flags
      else if decide (flag ∈ lit "w") then grep_flags case_sensitive true flags
      else None
  end.

Fixpoint grep_options (case_sensitive word_match : bool) (args : list str) : option (bool * bool * list str) :=
  match args with
  | arg :: rest =>
      if negb (starts_with [DASH] arg) || bool_decide (arg = [DASH]) then Some (case_sensitive, word_match, args)
      else '(case_sensitive, word_match) ← grep_flags case_sensitive word_match (drop 1 arg);
           grep_options case_sensitive word_match rest
  | [] => Some (case_sensitive, word_match, [])
  end.

Section Regex.
(** Whether [regex::RegexBuilder] with the size limit builds the pattern. *)
Context (regex_builds : str → bool).

Definition grep_request_from_parsed (parsed : option ParsedCommand) (binary : str) : option Params :=
  parsed ← parsed;
  if negb (plain parsed) || negb (bool_decide (head (args parsed) = Some binary)) then None
  else
    '((case_sensitive, word_match, rest) : bool * bool * list str) ←
      grep_options true false (drop 1 (args parsed));
    pattern ← head rest;
    if bool_decide (binary = lit "grep") && grep_basic_regex_has_dialect_conflict pattern then None
    else if 2 <? length rest then None
    else
      let path : option str := rest !! 1 in
      let pattern := if word_match then [BACKSLASH] ++ lit "b(?:" ++ pattern ++ lit ")" ++ [BACKSLASH] ++ lit "b"
                     else pattern in
      if negb (regex_builds pattern) then None
      else Some (MkParams (Some pattern) (Some case_sensitive) path None None None None None None None None
                   None None None).
End Regex.

(** The predicates of a [find]: the name and whether [-type f] was seen. *)
Fixpoint find_predicates (name : option str) (saw_type_file : bool) (args : list str) :
    option (option str * bool) :=
  match args with
  | [] => Some (name, saw_type_file)
  | [_] => None
  | key :: value :: rest =>
      if bool_decide (key = lit "-name") && bool_decide (name = None)
      then find_predicates (Some value) saw_type_file rest
      else if bool_decide (key = lit "-type") && negb saw_type_file
      then if decide (value = lit "f") then find_predicates name true rest else None
      else None
  end.

Definition find_request_from_parsed (parsed : option ParsedCommand) : option Params :=
  parsed ← parsed;
  if negb (plain parsed) || negb (bool_decide (head (args parsed) = Some (lit "find"))) then None
  else if negb (length (args parsed) =? 4) && negb (length (args parsed) =? 6) then None
  else
    path ← args parsed !! 1;
    '(name, saw_type_file) ← find_predicates None false (drop 2 (args parsed));
    name ← name;
    if negb saw_type_file then None
    else
      let found := MkParams (Some (lit "**/" ++ name)) None None None None None None None None None None
                     None None None in
      if decide (path = lit ".") then Some found
      else
        let trimmed := rstrip (N.eqb SLASH) path in
        if decide (trimmed = []) then None else Some (with_path trimmed found).

Definition cat_read_request_from_parsed (parsed : option ParsedCommand) : option Params :=
  parsed ← parsed;
  if negb (plain parsed) then None
  else match args parsed with
       | [cmd; file] => if decide (cmd = lit "cat") then Some (with_file file no_params) else None
       | _ => None
       end.

(** The last test and the result of [head_tail_read_request_from_parsed]. *)
Definition limited (lines : N) (file : str) : option Params :=
  if (lines =? 0)%N then None else Some (with_limit lines (with_file file no_params)).

Definition head_tail_read_request_from_parsed (parsed : option ParsedCommand) (command_name : str) :
    option Params :=
  parsed ← parsed;
  if negb (plain parsed) || negb (bool_decide (head (args parsed) = Some command_name)) then None
  else match args parsed with
       | [_; file] => limited 10 file
       | [_; flag; count; file] =>
           if negb (bool_decide (flag = lit "-n")) then None
           else match (if decide (command_name = lit "tail") then strip_prefix (lit "+") count else None) with
                | Some start_line =>
                    start_line ← parse_usize start_line;
                    Some (with_start start_line (with_file file no_params))
                | None => lines ← parse_usize count; limited lines file
                end
       | [_; compact; file] =>
           count ← strip_prefix [DASH] compact; lines ← parse_usize count; limited lines file
       | _ => None
       end.

Definition append_request_from_parsed (parsed : option ParsedCommand) : option Params :=
  parsed ← parsed;
  file ← appends_to parsed;
  append_content ←
    (if decide (args parsed = [lit "cat"]) then heredoc parsed
     else match args parsed with
          | cmd :: (first :: _) as words =>
              if bool_decide (heredoc parsed = None) && bool_decide (cmd = lit "echo")
                 && negb (starts_with [DASH] first)
              then Some (join [SPACE] words ++ [LF]) else None
          | _ => None
          end);
  Some (MkParams None None None (Some file) None None None None (Some (lit "append")) (Some append_content)
          (Some true) None None None).

Definition sed_request_from_parsed (parsed : option ParsedCommand) : option Params :=
  parsed ← parsed;
  if negb (plain parsed) then None
  else match args parsed with
       | [cmd; flag; script; file] =>
           if negb (bool_decide (cmd = lit "sed")) || negb (bool_decide (flag = lit "-n")) then None
           else
             range ← strip_suffix (lit "p") script;
             '(start, stop) ← split_once (lit ",") range;
             start_line ← parse_u32 start;
             end_line ← parse_u32 stop;
             if (start_line =? 0)%N || (end_line <? start_line)%N then None
             else Some (with_end end_line (with_start start_line (with_file file no_params)))
       | _ => None
       end.

(** The arguments of [ls]: the path and whether hidden entries are asked for. *)
Fixpoint ls_arguments (path : option str) (include_hidden : bool) (args : list str) : option (option str * bool) :=
  match args with
  | [] => Some (path, include_hidden)
  | arg :: rest =>
      match strip_prefix [DASH] arg with
      | Some flags =>
          if decide (flags = []) then None
          else if forallb (λ flag, bool_decide (flag ∈ lit "a")) flags then ls_arguments path true rest
          else None
      | None => match path with None => ls_arguments (Some arg) include_hidden rest | Some _ => None end
      end
  end.

(** ** The file system and the session *)

Record Meta := MkMeta { md_is_file : bool; md_is_dir : bool; md_len : N }.

Inductive FileType := FtDir | FtFile | FtOther.
(** What the entry answers: [file_name().to_str()], [path()], [file_type()]. *)
Record DirEntry := MkEntry { de_file_name : option str; de_path : str; de_file_type : option FileType }.

Class Fs := {
  canonicalize : str → option str;
  metadata : str → option Meta;
  read_file : str → option bytes;
  read_dir : str → option (list (option DirEntry)) }.

(** [Path::exists]. *)
Definition path_exists `{Fs} (p : str) : bool := bool_decide (is_Some (metadata p)).

(** What a decision asks of the context: the configuration, the working directory, the root of
    the caches, whether the session of a root edits by hashlines, whether git ignores a path. *)
Record Ctx := MkCtx {
  experimental_bash_rewrite : bool; project_root : option str; current_dir : option str;
  canonical_cache_root : option str; hashline_effective : str → str → bool; gitignored : str → bool }.

(** What [find_shape_is_faithful] looks at in the answer of the glob command. *)
Record GlobResponse := MkGlob {
  g_success : bool; g_complete : option bool; g_truncated : option bool; g_files : option (list (option str)) }.

Definition DEFAULT_SESSION_ID : str := lit "__default__".

Section Paths.
Context `{Fs} (ctx : Ctx).

Definition grep_project_root : str :=
  let configured := default (default [] (current_dir ctx)) (project_root ctx) in
  default configured (canonicalize configured).

Definition path_candidate (path : str) : str :=
  if is_absolute path then path else path_join grep_project_root path.

Definition resolved_path_candidate (path : str) : str :=
  let candidate := path_candidate path in default candidate (canonicalize candidate).

Definition path_is_safe (path : str) (require_existing : bool) : bool :=
  let candidate := path_candidate path in
  if require_existing && negb (path_exists candidate) then false
  else path_starts_with (default candidate (canonicalize candidate)) grep_project_root.

Definition append_path_is_safe (path : str) : bool :=
  let root := grep_project_root in
  let candidate := path_candidate path in
  let parent := default root (path_parent candidate) in
  if negb (path_exists parent) then false
  else if negb (path_starts_with (default parent (canonicalize parent)) root) then false
  else if path_exists candidate
  then match canonicalize candidate with
       | None => false
       | Some resolved => path_starts_with resolved root
       end
  else true.

Definition read_shape_is_faithful (path : str) : bool :=
  let candidate := path_candidate path in
  match metadata candidate with
  | None => false
  | Some m =>
      if negb (md_is_file m) || (50 * 1024 <? md_len m)%N then false
      else match read_file candidate ≫= from_utf8 with
           | None => false
           | Some text => forallb (λ line, (str_len line <=? 2000)%N) (str_lines text)
           end
  end.

Definition effective_hashline_session (session_id : option str) : bool :=
  hashline_effective ctx (default grep_project_root (canonical_cache_root ctx))
    (default DEFAULT_SESSION_ID session_id).

(** The loop over the selected records: every record and the running size are within bounds. *)
Fixpoint displayed_within (displayed_bytes : N) (records : list str) : bool :=
  match records with
  | [] => true
  | record :: records =>
      if (2000 <? str_len record)%N then false
      else
        let displayed_bytes := sat_add64 (sat_add64 displayed_bytes (str_len record)) 16 in
        if (50 * 1024 <? displayed_bytes)%N then false else displayed_within displayed_bytes records
  end.

(** [lines] as a [usize] compares with a list's length, so a longer take or skip is the list. *)
Definition head_tail_selected (lines : N) (tail : bool) (records : list str) : list str :=
  if tail then drop (N.to_nat (N.of_nat (length records) - lines)) records
  else take (N.to_nat (N.min lines (N.of_nat (length records)))) records.

Definition head_tail_shape_is_faithful (path : str) (lines : N) (tail : bool) : bool :=
  let candidate := path_candidate path in
  match metadata candidate with
  | None => false
  | Some m =>
      if negb (md_is_file m) then false
      else match read_file candidate ≫= from_utf8 with
           | None => false
           | Some text => displayed_within 0 (head_tail_selected lines tail (str_lines text))
           end
  end.

Definition text_file_line_count (path : str) : option N :=
  bytes ← read_file path;
  _ ← from_utf8 bytes;
  if decide (bytes = []) then Some 0%N
  else Some (N.of_nat (length (filter (λ byte, byte = LF) bytes))
             + (if decide (last bytes = Some LF) then 0 else 1))%N.

Definition resolve_tail_start_range (path : str) (params : Params) : option Params :=
  requested_start ← p_start_line params;
  let start_line := N.max requested_start 1 in
  total_lines ← text_file_line_count (path_candidate path);
  if (total_lines =? 0)%N || (total_lines <? start_line)%N then None
  else Some (with_limit (total_lines - start_line + 1) (with_end total_lines (with_start start_line params))).

Definition ls_request_from_parsed (parsed : option ParsedCommand) : option Params :=
  parsed ← parsed;
  if negb (plain parsed) || negb (bool_decide (head (args parsed) = Some (lit "ls"))) then None
  else
    '(path, include_hidden) ← ls_arguments None false (drop 1 (args parsed));
    let target := default (lit ".") path in
    metadata ← metadata (path_candidate target);
    if negb (md_is_dir metadata) || negb (path_is_safe target true) then None
    else Some (MkParams None None None (Some target) None None None (Some include_hidden) None None None
                 None None None).

(** The request an accepted rewrite hands to a tool. *)
Definition tool_request (tool : str) (request : RewriteRequest) : RawRequest :=
  let params := params request in
  let read := bool_decide (tool = lit "read") in
  let params :=
    match (if decide (tool ∈ [lit "read"; lit "edit_match"]) then p_file params else None) with
    | None => params
    | Some file =>
        let params :=
          if read && bool_decide (rule_id request ∈ [lit "cat"; lit "head"; lit "tail"])
          then with_bash_read file (rule_id request)
                 (match p_limit params with Some lines => Some lines | None => p_bash_read_lines params end) params
          else params in
        let resolved := if is_absolute file then file else path_join grep_project_root file in
        let params := with_file resolved params in
        if read && bool_decide (rule_id request = lit "tail") then
          match text_file_line_count resolved with
          | Some total_lines =>
              if (0 <? total_lines)%N then
                let lines := default 10%N (p_limit params) in
                with_end total_lines (with_start (sat_add64 (total_lines - lines) 1) params)
              else params
          | None => params
          end
        else params
    end in
  let params :=
    if bool_decide (tool = lit "glob") && bool_decide (p_path params = None)
    then with_path grep_project_root params else params in
  MkRaw (request_id request) tool (session_id request) params.

End Paths.

(** ** The walk of [find] *)

Definition MAX_ENTRIES : nat := N.to_nat 10000.

(** [/ \ ? [ ] { }]. *)
Definition glob_special : list N := [47; 92; 63; 91; 93; 123; 125]%N.

Definition skipped_directories : list str :=
  [lit "node_modules"; lit "target"; lit "venv"; lit ".venv"; lit ".git"; lit "__pycache__"; lit ".tox";
   lit "dist"; lit "build"].

Definition path_has_glob_skipped_directory (path : list Component) : bool :=
  existsb (λ c, bool_decide (component_str c ∈ skipped_directories)) path.

Section Find.
Context `{Fs} (ctx : Ctx).
(** [glob::Pattern::new] with [Pattern::matches], and the glob command. *)
Context (glob_new : str → option (str → bool)) (handle_glob : Params → GlobResponse).

(** One entry of a directory, given the walk below it: entries seen and matches after it. *)
Definition visit_entry (walk : str → nat → gset str → option (nat * gset str)) (pattern : str → bool)
    (entry : option DirEntry) (entries_seen : nat) (matches : gset str) : option (nat * gset str) :=
  entry ← entry;
  let entries_seen := S entries_seen in
  if MAX_ENTRIES <? entries_seen then None
  else
    file_name ← de_file_name entry;
    file_type ← de_file_type entry;
    match file_type with
    | FtDir => walk (de_path entry) entries_seen matches
    | FtFile =>
        if pattern file_name then
          resolved ← canonicalize (de_path entry); Some (entries_seen, {[resolved]} ∪ matches)
        else Some (entries_seen, matches)
    | FtOther => Some (entries_seen, matches)
    end.

Fixpoint visit_entries (walk : str → nat → gset str → option (nat * gset str)) (pattern : str → bool)
    (entries : list (option DirEntry)) (entries_seen : nat) (matches : gset str) : option (nat * gset str) :=
  match entries with
  | [] => Some (entries_seen, matches)
  | entry :: entries =>
      '(entries_seen, matches) ← visit_entry walk pattern entry entries_seen matches;
      visit_entries walk pattern entries entries_seen matches
  end.

(** Every level of the recursion has counted one more entry, so a depth beyond [MAX_ENTRIES] is
    never reached. *)
Fixpoint visit (fuel : nat) (pattern : str → bool) (directory : str) (entries_seen : nat) (matches : gset str) :
    option (nat * gset str) :=
  match fuel with
  | 0 => None
  | S fuel =>
      entries ← read_dir directory;
      visit_entries (visit fuel pattern) pattern entries entries_seen matches
  end.

Definition find_matching_files (root : str) (pattern : str → bool) : option (gset str) :=
  snd <$> visit (S MAX_ENTRIES) pattern root 0 ∅.

Definition find_shape_is_faithful (params : Params) : bool :=
  default false (
    pattern ← p_pattern params;
    name ← strip_prefix (lit "**/") pattern;
    if bool_decide (name = []) || existsb (λ ch, bool_decide (ch ∈ glob_special)) name then Some false
    else
      name_pattern ← glob_new name;
      let project_root := grep_project_root ctx in
      let search_root := default project_root (path_candidate ctx <$> p_path params) in
      search_root ← canonicalize search_root;
      if negb (default false (md_is_dir <$> metadata search_root)) then Some false
      else if default false (path_has_glob_skipped_directory <$> path_strip_prefix project_root search_root)
              || gitignored ctx search_root then Some false
      else
        native_candidates ← find_matching_files search_root name_pattern;
        let glob_params := match p_path params with None => with_path project_root params | Some _ => params end in
        let response := handle_glob glob_params in
        if negb (g_success response) || negb (bool_decide (g_complete response = Some true))
           || negb (bool_decide (g_truncated response = Some false)) then Some false
        else
          glob_files ← g_files response;
          glob_candidates ← mapM (λ file, file ≫= canonicalize) glob_files;
          Some (bool_decide (list_to_set (C := gset str) glob_candidates = native_candidates))).

End Find.

(** ** Decisions *)

Definition accept (rule_id branch_id decision_class_id command request_id : str) (session_id : option str)
    (params : Params) : RewriteDecision :=
  Accept (MkRequest request_id command session_id rule_id branch_id decision_class_id params default_names).

Definition accept_rule (r : Rule) : str → str → option str → Params → RewriteDecision :=
  accept (name r) (name r ++ lit ".accept") (lit "dc." ++ name r ++ lit ".accept.v1").

Definition decline (rule_id branch_id reason : str) : RewriteDecision :=
  let known := bool_decide (rule_id ∈ (name <$> rules)) in
  Decline (MkDecline (Some rule_id) branch_id
             (if known then lit "dc." ++ rule_id ++ lit ".decline.v1" else lit "dc.native.decline.v1") reason).

Definition decline_rule (r : Rule) (reason : str) : RewriteDecision :=
  decline (name r) (name r ++ lit ".decline") reason.

Section Decide.
Context `{Fs} (ctx : Ctx) (regex_builds : str → bool).
Context (glob_new : str → option (str → bool)) (handle_glob : Params → GlobResponse).

Definition decline_cat_read (path predicate : str) : RewriteDecision :=
  decline (lit "cat") (lit "cat.decline")
    (lit "read declined: " ++ predicate ++ lit " failed for " ++ resolved_path_candidate ctx path).

(** A named path must be safe. *)
Definition optional_path_is_safe (params : Params) : bool :=
  match p_path params with Some path => path_is_safe ctx path true | None => true end.

Definition grep_decide (r : Rule) (binary : str) (parsed : option ParsedCommand) (command request_id : str)
    (session_id : option str) : RewriteDecision :=
  match grep_request_from_parsed regex_builds parsed binary with
  | None => decline_rule r (lit "unsupported " ++ name r ++ lit " shape")
  | Some params =>
      if negb (optional_path_is_safe params)
      then decline_rule r (name r ++ lit " path is outside the project root or missing")
      else accept_rule r command request_id session_id params
  end.

Definition find_decide (parsed : option ParsedCommand) (command request_id : str) (session_id : option str) :
    RewriteDecision :=
  match find_request_from_parsed parsed with
  | None => decline_rule FindRule (lit "unsupported find shape")
  | Some params =>
      if negb (optional_path_is_safe params)
      then decline_rule FindRule (lit "find path is outside the project root or missing")
      else if negb (find_shape_is_faithful ctx glob_new handle_glob params)
      then decline_rule FindRule (lit "find requires a complete files-only glob result")
      else accept_rule FindRule command request_id session_id params
  end.

Definition cat_decide (parsed : option ParsedCommand) (command request_id : str) (session_id : option str) :
    RewriteDecision :=
  match cat_read_request_from_parsed parsed with
  | None => decline_rule CatRule (lit "unsupported cat shape")
  | Some params =>
      let path := default [] (p_file params) in
      if negb (path_is_safe ctx path true) then decline_cat_read path (lit "path_is_safe")
      else if negb (read_shape_is_faithful ctx path) then decline_cat_read path (lit "read_shape_is_faithful")
      else accept_rule CatRule command request_id session_id params
  end.

Definition head_decide (parsed : option ParsedCommand) (command request_id : str) (session_id : option str) :
    RewriteDecision :=
  match head_tail_read_request_from_parsed parsed (lit "head") with
  | None => decline_rule HeadRule (lit "unsupported head shape")
  | Some params =>
      let path := default [] (p_file params) in
      let lines := default 10%N (p_limit params) in
      if negb (effective_hashline_session ctx session_id) || negb (path_is_safe ctx path true)
         || negb (head_tail_shape_is_faithful ctx path lines false)
      then decline_rule HeadRule
             (lit "head requires an effective hashline session and a faithful text-read shape")
      else accept_rule HeadRule command request_id session_id params
  end.

(** A start line is resolved against the file, a count is kept. *)
Definition tail_params (path : str) (params : Params) : option Params :=
  match p_start_line params with
  | Some _ => resolve_tail_start_range ctx path params
  | None => Some params
  end.

Definition tail_decide (parsed : option ParsedCommand) (command request_id : str) (session_id : option str) :
    RewriteDecision :=
  match head_tail_read_request_from_parsed parsed (lit "tail") with
  | None => decline_rule TailRule (lit "unsupported tail shape")
  | Some params =>
      let path := default [] (p_file params) in
      match tail_params path params with
      | None => decline_rule TailRule (lit "tail start line would produce an empty or unsupported read")
      | Some params =>
          let lines := default 10%N (p_limit params) in
          if negb (effective_hashline_session ctx session_id) || negb (path_is_safe ctx path true)
             || negb (head_tail_shape_is_faithful ctx path lines true)
          then decline_rule TailRule
                 (lit "tail requires an effective hashline session and a faithful text-read shape")
          else accept_rule TailRule command request_id session_id params
      end
  end.

Definition cat_append_decide (parsed : option ParsedCommand) (command request_id : str)
    (session_id : option str) : RewriteDecision :=
  match append_request_from_parsed parsed with
  | None => decline_rule CatAppendRule (lit "unsupported append shape")
  | Some params =>
      if negb (append_path_is_safe ctx (default [] (p_file params)))
      then decline_rule CatAppendRule
             (lit "append path is outside the project root or has no existing parent")
      else accept_rule CatAppendRule command request_id session_id params
  end.

Definition sed_decide (parsed : option ParsedCommand) (command request_id : str) (session_id : option str) :
    RewriteDecision :=
  match sed_request_from_parsed parsed with
  | None => decline_rule SedRule (lit "unsupported sed shape")
  | Some params =>
      let path := default [] (p_file params) in
      if negb (path_is_safe ctx path true) || negb (read_shape_is_faithful ctx path)
      then decline_rule SedRule (lit "sed path is outside the project root or exceeds the read contract")
      else accept_rule SedRule command request_id session_id params
  end.

Definition ls_decide (parsed : option ParsedCommand) (command request_id : str) (session_id : option str) :
    RewriteDecision :=
  match ls_request_from_parsed ctx parsed with
  | None => decline_rule LsRule (lit "unsupported ls shape or target")
  | Some params => accept_rule LsRule command request_id session_id params
  end.

Definition decide_parsed (r : Rule) : option ParsedCommand → str → str → option str → RewriteDecision :=
  match r with
  | GrepRule => grep_decide GrepRule (lit "grep")
  | RgRule => grep_decide RgRule (lit "rg")
  | FindRule => find_decide
  | CatRule => cat_decide
  | HeadRule => head_decide
  | TailRule => tail_decide
  | CatAppendRule => cat_append_decide
  | SedRule => sed_decide
  | LsRule => ls_decide
  end.

End Decide.

(** ** Route records *)

Inductive ControlRole := RoleAccept | RoleDecline | RoleNative | RoleSandbox.
Definition role_id (r : ControlRole) : str :=
  match r with
  | RoleAccept => lit "accept" | RoleDecline => lit "decline" | RoleNative => lit "native"
  | RoleSandbox => lit "sandbox"
  end.

Inductive DispatchRoute :=
  | Rewritten (rule_id branch_id decision_class_id : str)
  | Native (role branch_id reason : str).

Record DispatchRecord := MkRecord { rec_request_id : str; rec_route : DispatchRoute }.

Definition MAX_ROUTE_RECORDS : nat := N.to_nat 1024.

Record RouteRecordStore := MkRoutes { records : gmap str DispatchRecord; oldest_first : list str }.
Definition no_routes : RouteRecordStore := MkRoutes ∅ [].

(** The loop that drops the oldest records. *)
Fixpoint expire_oldest (records : gmap str DispatchRecord) (oldest_first : list str) : RouteRecordStore :=
  match oldest_first with
  | [] => MkRoutes records []
  | expired :: rest =>
      if MAX_ROUTE_RECORDS <? length oldest_first then expire_oldest (delete expired records) rest
      else MkRoutes records oldest_first
  end.

Definition store_record (record : DispatchRecord) (s : RouteRecordStore) : RouteRecordStore :=
  let id := rec_request_id record in
  let queue := if decide (is_Some (records s !! id)) then filter (λ request_id, request_id ≠ id) (oldest_first s)
               else oldest_first s in
  expire_oldest (<[id := record]> (records s)) (queue ++ [id]).

Definition route_record (request_id : str) (s : RouteRecordStore) : option DispatchRecord := records s !! request_id.

Definition take_route_record (request_id : str) (s : RouteRecordStore) : option DispatchRecord * RouteRecordStore :=
  (records s !! request_id,
   MkRoutes (delete request_id (records s)) (filter (λ record_id, record_id ≠ request_id) (oldest_first s))).

Definition record_native (request_id : str) (role : ControlRole) (branch_id reason : str) :
    RouteRecordStore → RouteRecordStore :=
  store_record (MkRecord request_id (Native (role_id role) branch_id reason)).

(** ** Dispatch *)

(** What becomes of a command: nothing was done and a shell may run it, the deadline for starting
    it had passed, or the rule executed the request. *)
Inductive Outcome := NotRewritten | NotStarted (message : str) | Executed (rule : Rule) (request : RewriteRequest).

Section Dispatch.
Context `{Fs} (ctx : Ctx) (regex_builds : str → bool).
Context (glob_new : str → option (str → bool)) (handle_glob : Params → GlobResponse).
(** [commit_spawn_receipt_inline]: whether the command may still start. *)
Context (commit : result str ()).

Abbreviation decide_parsed := (decide_parsed ctx regex_builds glob_new handle_glob).

(** The loop over the rules: the first request accepted. *)
Fixpoint first_accept (rs : list Rule) (parsed : option ParsedCommand) (command request_id : str)
    (session_id : option str) : option (Rule * RewriteRequest) :=
  match rs with
  | [] => None
  | r :: rs =>
      match decide_parsed r parsed command request_id session_id with
      | Accept request => Some (r, request)
      | Decline _ => first_accept rs parsed command request_id session_id
      end
  end.

Definition with_names (names : HostToolNames) (r : RewriteRequest) : RewriteRequest :=
  MkRequest (request_id r) (command r) (session_id r) (rule_id r) (branch_id r) (decision_class_id r)
    (params r) names.

Definition dispatch_for_request (command request_id : str) (session_id : option str) (names : HostToolNames)
    (s : RouteRecordStore) : Outcome * RouteRecordStore :=
  if negb (experimental_bash_rewrite ctx) then
    (NotRewritten, record_native request_id RoleNative (lit "dispatch.native.no_rule")
                     (lit "experimental bash rewriting is disabled") s)
  else
    match first_accept rules (parse command) command request_id session_id with
    | Some (rule, request) =>
        let request := with_names names request in
        let s := store_record (MkRecord request_id
                   (Rewritten (rule_id request) (branch_id request) (decision_class_id request))) s in
        match commit with
        | Err message => (NotStarted (message ++ lit "; command was not started"), s)
        | Ok _ => (Executed rule request, s)
        end
    | None =>
        (NotRewritten, record_native request_id RoleNative (lit "dispatch.native.no_rule")
                         (lit "no rewrite rule accepted the command shape") s)
    end.

(** [native_sandbox_enforced] and, on Windows only, the relaxed mode. *)
Definition try_rewrite_for_request (rewrites_off native_sandbox_enforced unenforced_relaxed : bool)
    (command request_id : str) (session_id : option str) (names : HostToolNames) (s : RouteRecordStore) :
    Outcome * RouteRecordStore :=
  if rewrites_off then (NotRewritten, s)
  else if native_sandbox_enforced || unenforced_relaxed then
    (NotRewritten, record_native request_id RoleSandbox (lit "dispatch.native.sandbox")
                     (if unenforced_relaxed then lit "relaxed sandbox must report unenforced denies"
                      else lit "native sandbox is enforced") s)
  else dispatch_for_request command request_id session_id names s.

End Dispatch.

End BashRules.
