(* ===== verification/BashRulesSpec.v ===== *)
(** * What the rewrite rules promise

    At most one rule accepts a command, so the order the rules are tried in cannot matter; the
    paths of an executed request lie in the project; the store of route records stays bounded and
    in step with its queue. *)

From S2P Require Import Prelude RustStr ByteStr UnixPath BashParser BashRules.
Import ByteStr UnixPath BashParser BashRules.

Module BashRulesSpec.

(** ** The shape each rule asks for *)

(** The command a rule answers; the append rule is told by its redirect instead. *)
Definition program (r : Rule) : option str :=
  match r with CatAppendRule => None | _ => Some (name r) end.

Definition shaped (r : Rule) (p : ParsedCommand) : Prop :=
  match program r with
  | Some cmd => plain p = true ∧ head (args p) = Some cmd
  | None => appends_to p ≠ None
  end.

Lemma plain_appends p : plain p = true → appends_to p = None.
Proof. unfold plain. rewrite andb_true_iff, !bool_decide_eq_true. by intros [? _]. Qed.

Lemma name_inj r1 r2 : name r1 = name r2 → r1 = r2.
Proof. destruct r1, r2; by vm_compute. Qed.

Lemma shaped_unique r1 r2 p : shaped r1 p → shaped r2 p → r1 = r2.
Proof.
  unfold shaped. destruct (program r1) as [c1|] eqn:E1, (program r2) as [c2|] eqn:E2.
  - intros [_ H1] [_ H2]. apply name_inj. destruct r1, r2; simplify_eq/=; congruence.
  - by intros [?%plain_appends _].
  - by intros ? [?%plain_appends _].
  - by destruct r1, r2.
Qed.

Lemma guard_shape p (cmd : str) {A} (rest : option A) x :
  (if negb (plain p) || negb (bool_decide (head (args p) = Some cmd)) then None else rest) = Some x →
  plain p = true ∧ head (args p) = Some cmd ∧ rest = Some x.
Proof.
  destruct (plain p); [|done]. destruct (bool_decide_reflect (head (args p) = Some cmd)); [|done]. done.
Qed.

Lemma plain_guard p {A} (rest : option A) x :
  (if negb (plain p) then None else rest) = Some x → plain p = true ∧ rest = Some x.
Proof. by destruct (plain p). Qed.

Section Rules.
Context `{Fs} (ctx : Ctx) (regex_builds : str → bool).
Context (glob_new : str → option (str → bool)) (handle_glob : Params → GlobResponse).

Abbreviation decide_parsed := (decide_parsed ctx regex_builds glob_new handle_glob).
Abbreviation first_accept := (first_accept ctx regex_builds glob_new handle_glob).

Lemma grep_shape parsed binary q :
  grep_request_from_parsed regex_builds parsed binary = Some q →
  ∃ p, parsed = Some p ∧ plain p = true ∧ head (args p) = Some binary ∧ p_file q = None.
Proof.
  unfold grep_request_from_parsed. intros (p & -> & Hg)%bind_Some. exists p.
  apply guard_shape in Hg as (? & ? & Hg). split_and!; try done.
  apply bind_Some in Hg as ([[cs wm] rest] & _ & (pat & _ & Hg)%bind_Some).
  repeat case_match; by simplify_eq.
Qed.

Lemma find_shape parsed q :
  find_request_from_parsed parsed = Some q →
  ∃ p, parsed = Some p ∧ plain p = true ∧ head (args p) = Some (lit "find") ∧ p_file q = None.
Proof.
  unfold find_request_from_parsed. intros (p & -> & Hg)%bind_Some. exists p.
  apply guard_shape in Hg as (? & ? & Hg). split_and!; try done.
  destruct (_ && _); [done|]. apply bind_Some in Hg as (path & _ & Hg).
  apply bind_Some in Hg as ([nm b] & _ & (nm' & _ & Hg)%bind_Some). cbv zeta in Hg.
  destruct (negb b); [done|]. destruct (decide (path = lit ".")); [by simplify_eq|].
  destruct (decide (rstrip _ path = [])); by simplify_eq.
Qed.

Lemma cat_shape parsed q :
  cat_read_request_from_parsed parsed = Some q →
  ∃ p file, parsed = Some p ∧ plain p = true ∧ args p = [lit "cat"; file] ∧ q = with_file file no_params.
Proof.
  unfold cat_read_request_from_parsed. intros (p & -> & Hg)%bind_Some. exists p.
  apply plain_guard in Hg as [? Hg]. destruct (args p) as [|c [|file [|]]]; try done.
  destruct (decide (c = lit "cat")) as [->|]; [|done]. exists file. by simplify_eq.
Qed.

Lemma limited_Some lines file q :
  limited lines file = Some q → lines ≠ 0%N ∧ q = with_limit lines (with_file file no_params).
Proof. unfold limited. destruct (N.eqb_spec lines 0); [done|]. by intros [= <-]. Qed.

Lemma head_tail_shape parsed cmd q :
  head_tail_read_request_from_parsed parsed cmd = Some q →
  ∃ p file, parsed = Some p ∧ plain p = true ∧ head (args p) = Some cmd ∧ p_file q = Some file ∧ p_path q = None.
Proof.
  unfold head_tail_read_request_from_parsed. intros (p & -> & Hg)%bind_Some. exists p.
  apply guard_shape in Hg as (? & ? & Hg).
  destruct (args p) as [|c [|f [|g [|h [|]]]]]; try done.
  - apply limited_Some in Hg as [_ ->]. by exists f.
  - apply bind_Some in Hg as (s & _ & (n & _ & [_ ->]%limited_Some)%bind_Some). by exists g.
  - exists h. destruct (negb _); [done|]. destruct (if decide (cmd = lit "tail") then _ else _).
    + apply bind_Some in Hg as (n & _ & Hg). by simplify_eq.
    + apply bind_Some in Hg as (n & _ & [_ ->]%limited_Some). done.
Qed.

Lemma append_shape parsed q :
  append_request_from_parsed parsed = Some q →
  ∃ p file, parsed = Some p ∧ appends_to p = Some file ∧ p_file q = Some file ∧ p_path q = None.
Proof.
  unfold append_request_from_parsed. intros (p & -> & (file & Hf & (c & _ & Hg)%bind_Some)%bind_Some)%bind_Some.
  exists p, file. by simplify_eq.
Qed.

Lemma sed_shape parsed q :
  sed_request_from_parsed parsed = Some q →
  ∃ p file, parsed = Some p ∧ plain p = true ∧ head (args p) = Some (lit "sed") ∧ p_file q = Some file ∧ p_path q = None.
Proof.
  unfold sed_request_from_parsed. intros (p & -> & Hg)%bind_Some. exists p. apply plain_guard in Hg as [? Hg].
  destruct (args p) as [|c [|f [|g [|h [|]]]]]; try done. exists h.
  destruct (bool_decide_reflect (c = lit "sed")) as [->|]; [|done]. destruct (bool_decide_reflect (f = lit "-n")); [|done].
  apply bind_Some in Hg as (range & _ & Hg). apply bind_Some in Hg as ([a b] & _ & Hg).
  apply bind_Some in Hg as (s1 & _ & (s2 & _ & Hg)%bind_Some). destruct (_ || _); [done|]. by simplify_eq.
Qed.

Lemma ls_shape parsed q :
  ls_request_from_parsed ctx parsed = Some q →
  ∃ p target, parsed = Some p ∧ plain p = true ∧ head (args p) = Some (lit "ls") ∧ p_file q = Some target
    ∧ p_path q = None ∧ path_is_safe ctx target true = true.
Proof.
  unfold ls_request_from_parsed. intros (p & -> & Hg)%bind_Some. exists p.
  apply guard_shape in Hg as (? & ? & Hg). apply bind_Some in Hg as ([path hidden] & _ & Hg).
  apply bind_Some in Hg as (m & _ & Hg). exists (default (lit ".") path).
  destruct (negb (md_is_dir m)); [done|].
  destruct (path_is_safe ctx (default (lit ".") path) true) eqn:E; simpl in Hg; [|done]. injection Hg as <-. by split_and!.
Qed.

(** ** Acceptance *)

(** What holds of a path of an accepted request that reads. *)
Definition confined (path : str) : Prop :=
  path_exists (path_candidate ctx path) = true ∧ within (grep_project_root ctx) (resolved_path_candidate ctx path).

(** And of the target of an append: its directory exists in the project, and what is already there
    resolves into the project. *)
Definition append_confined (path : str) : Prop :=
  let candidate := path_candidate ctx path in
  let parent := default (grep_project_root ctx) (path_parent candidate) in
  path_exists parent = true ∧ within (grep_project_root ctx) (default parent (canonicalize parent))
  ∧ (path_exists candidate = true →
     ∃ resolved, canonicalize candidate = Some resolved ∧ within (grep_project_root ctx) resolved).

Lemma path_is_safe_confined path : path_is_safe ctx path true = true → confined path.
Proof.
  unfold path_is_safe, confined, resolved_path_candidate. destruct (path_exists _); [|done].
  by intros ?%path_starts_with_true.
Qed.

Lemma append_path_is_safe_confined path : append_path_is_safe ctx path = true → append_confined path.
Proof.
  unfold append_path_is_safe, append_confined. set (parent := default _ _).
  destruct (path_exists parent); [|done]. destruct (path_starts_with _ _) eqn:Hp; [|done].
  apply path_starts_with_true in Hp. intros Hc. split_and!; [done|done|]. simpl in Hc. intros He. rewrite He in Hc.
  destruct (canonicalize (path_candidate ctx path)) as [r|]; [|done]. exists r. by apply path_starts_with_true in Hc.
Qed.

(** The paths of an accepted request. *)
Definition request_confined (r : Rule) (q : Params) : Prop :=
  match r with
  | GrepRule | RgRule | FindRule => p_file q = None ∧ ∀ path, p_path q = Some path → confined path
  | CatAppendRule => ∃ path, p_file q = Some path ∧ p_path q = None ∧ append_confined path
  | _ => ∃ path, p_file q = Some path ∧ p_path q = None ∧ confined path
  end.

Lemma optional_path_confined q :
  optional_path_is_safe ctx q = true → p_file q = None → p_file q = None ∧ ∀ path, p_path q = Some path → confined path.
Proof.
  unfold optional_path_is_safe. intros Hs Hf. split; [done|]. intros path Hp. rewrite Hp in Hs. by apply path_is_safe_confined.
Qed.

Lemma file_confined q file :
  p_file q = Some file → p_path q = None → path_is_safe ctx file true = true →
  ∃ path, p_file q = Some path ∧ p_path q = None ∧ confined path.
Proof. intros Hf Hp Hs. exists file. split_and!; [done..|]. by apply path_is_safe_confined. Qed.

Lemma resolve_tail_params path q q' :
  resolve_tail_start_range ctx path q = Some q' →
  ∃ start total, p_start_line q = Some start ∧ text_file_line_count (path_candidate ctx path) = Some total
    ∧ (N.max start 1 ≤ total)%N
    ∧ q' = with_limit (total - N.max start 1 + 1) (with_end total (with_start (N.max start 1) q)).
Proof.
  unfold resolve_tail_start_range. intros (start & Hs & (total & Ht & Hr)%bind_Some)%bind_Some.
  exists start, total. destruct (N.eqb_spec total 0); [done|]. destruct (N.ltb_spec total (N.max start 1)); [done|].
  injection Hr as <-. by split_and!.
Qed.

Lemma tail_params_file path q q' file :
  tail_params ctx path q = Some q' → p_file q = Some file → p_path q = None → p_file q' = Some file ∧ p_path q' = None.
Proof.
  unfold tail_params. destruct (p_start_line q); [|by intros [= <-]].
  by intros (? & ? & _ & _ & _ & ->)%resolve_tail_params.
Qed.

(** What an accepting rule guarantees: a command of its shape, its own name, confined paths. *)
Definition accepts (r : Rule) (parsed : option ParsedCommand) (q : RewriteRequest) : Prop :=
  ∃ p, parsed = Some p ∧ shaped r p ∧ rule_id q = name r ∧ request_confined r (params q).

Lemma negb_false b : negb b = false → b = true.
Proof. by destruct b. Qed.

Lemma grep_accepts r binary parsed command id session q :
  program r = Some binary → grep_decide ctx regex_builds r binary parsed command id session = Accept q →
  (r = GrepRule ∨ r = RgRule) → accepts r parsed q.
Proof.
  unfold grep_decide. intros Hr Hd Hor. destruct (grep_request_from_parsed _ _ _) as [ps|] eqn:E; [|done].
  apply grep_shape in E as (p & -> & ? & ? & Hf). destruct (negb _) eqn:Es; [done|]. injection Hd as <-.
  exists p. unfold shaped. rewrite Hr. split_and!; try done. apply negb_false in Es.
  destruct Hor as [->| ->]; exact (optional_path_confined ps Es Hf).
Qed.

Lemma find_accepts parsed command id session q :
  find_decide ctx glob_new handle_glob parsed command id session = Accept q → accepts FindRule parsed q.
Proof.
  unfold find_decide. destruct (find_request_from_parsed _) as [ps|] eqn:E; [|done].
  apply find_shape in E as (p & -> & ? & ? & Hf). destruct (negb (optional_path_is_safe _ _)) eqn:Es; [done|].
  destruct (negb (find_shape_is_faithful _ _ _ _)); [done|]. intros [= <-]. exists p. split_and!; try done.
  exact (optional_path_confined ps (negb_false _ Es) Hf).
Qed.

Lemma cat_accepts parsed command id session q :
  cat_decide ctx parsed command id session = Accept q → accepts CatRule parsed q.
Proof.
  unfold cat_decide. destruct (cat_read_request_from_parsed _) as [ps|] eqn:E; [|done].
  apply cat_shape in E as (p & file & -> & ? & Ha & ->). destruct (negb (path_is_safe _ _ _)) eqn:Es; [done|].
  destruct (negb (read_shape_is_faithful _ _)); [done|]. intros [= <-].
  exists p. split_and!; try done; [by unfold shaped; rewrite Ha|]. by refine (file_confined _ file _ _ (negb_false _ Es)).
Qed.

Lemma head_accepts parsed command id session q :
  head_decide ctx parsed command id session = Accept q → accepts HeadRule parsed q.
Proof.
  unfold head_decide. destruct (head_tail_read_request_from_parsed _ _) as [ps|] eqn:E; [|done].
  apply head_tail_shape in E as (p & file & -> & ? & ? & Hf & ?). rewrite Hf. cbv zeta.
  destruct (negb (effective_hashline_session _ _)); [done|]. destruct (negb (path_is_safe _ _ _)) eqn:Es; [done|].
  destruct (negb (head_tail_shape_is_faithful _ _ _ _)); [done|]. intros [= <-].
  exists p. split_and!; try done. by refine (file_confined _ file _ _ (negb_false _ Es)).
Qed.

Lemma tail_accepts parsed command id session q :
  tail_decide ctx parsed command id session = Accept q → accepts TailRule parsed q.
Proof.
  unfold tail_decide. destruct (head_tail_read_request_from_parsed _ _) as [ps|] eqn:E; [|done].
  apply head_tail_shape in E as (p & file & -> & ? & ? & Hf & ?). rewrite Hf. cbv zeta. simpl default.
  destruct (tail_params ctx file ps) as [ps'|] eqn:Er; [|done]. apply (tail_params_file _ _ _ file) in Er as [? ?]; [|done..].
  destruct (negb (effective_hashline_session _ _)); [done|]. destruct (negb (path_is_safe _ _ _)) eqn:Es; [done|].
  destruct (negb (head_tail_shape_is_faithful _ _ _ _)); [done|]. intros [= <-].
  exists p. split_and!; try done. by refine (file_confined _ file _ _ (negb_false _ Es)).
Qed.

Lemma cat_append_accepts parsed command id session q :
  cat_append_decide ctx parsed command id session = Accept q → accepts CatAppendRule parsed q.
Proof.
  unfold cat_append_decide. destruct (append_request_from_parsed _) as [ps|] eqn:E; [|done].
  apply append_shape in E as (p & file & -> & Ha & Hf & ?). rewrite Hf.
  destruct (negb (append_path_is_safe _ _)) eqn:Es; [done|]. intros [= <-].
  exists p. split_and!; try done; [by unfold shaped; simpl; rewrite Ha|]. exists file. split_and!; try done.
  by apply append_path_is_safe_confined, negb_false.
Qed.

Lemma sed_accepts parsed command id session q :
  sed_decide ctx parsed command id session = Accept q → accepts SedRule parsed q.
Proof.
  unfold sed_decide. destruct (sed_request_from_parsed _) as [ps|] eqn:E; [|done].
  apply sed_shape in E as (p & file & -> & ? & ? & Hf & ?). rewrite Hf. cbv zeta.
  destruct (negb (path_is_safe _ _ _)) eqn:Es; [done|]. destruct (negb (read_shape_is_faithful _ _)); [done|]. intros [= <-].
  exists p. split_and!; try done. by refine (file_confined _ file _ _ (negb_false _ Es)).
Qed.

Lemma ls_accepts parsed command id session q :
  ls_decide ctx parsed command id session = Accept q → accepts LsRule parsed q.
Proof.
  unfold ls_decide. destruct (ls_request_from_parsed _ _) as [ps|] eqn:E; [|done].
  apply ls_shape in E as (p & file & -> & ? & ? & Hf & ? & ?). intros [= <-].
  exists p. split_and!; try done. by refine (file_confined _ file _ _ _).
Qed.

Lemma rule_accepts r parsed command id session q :
  decide_parsed r parsed command id session = Accept q → accepts r parsed q.
Proof.
  destruct r; simpl; intros Hd; [by eapply grep_accepts; eauto|by eapply grep_accepts; eauto|..];
    by eauto using find_accepts, cat_accepts, head_accepts, tail_accepts, cat_append_accepts, sed_accepts, ls_accepts.
Qed.

Lemma accept_unique r1 r2 parsed command id session q1 q2 :
  decide_parsed r1 parsed command id session = Accept q1 →
  decide_parsed r2 parsed command id session = Accept q2 → r1 = r2.
Proof.
  intros (p1 & E1 & S1 & _)%rule_accepts (p2 & E2 & S2 & _)%rule_accepts. simplify_eq. by eapply shaped_unique.
Qed.

Lemma first_accept_Some rs parsed command id session r q :
  first_accept rs parsed command id session = Some (r, q) ↔
  r ∈ rs ∧ decide_parsed r parsed command id session = Accept q.
Proof.
  split.
  - induction rs as [|r' rs IH]; [done|]. simpl. destruct (decide_parsed r' _ _ _ _) eqn:E.
    + intros [= <- <-]. split; [left|done].
    + intros [? ?]%IH. split; [by right|done].
  - intros [Hr Hd]. induction rs as [|r' rs IH]; [by apply elem_of_nil in Hr|]. simpl.
    destruct (decide_parsed r' _ _ _ _) as [q'|] eqn:E.
    + assert (r' = r) as -> by (by eapply accept_unique). congruence.
    + apply IH. apply elem_of_cons in Hr as [->|]; [congruence|done].
Qed.

(** A list of all the rules, in any order. *)
Definition arrangement (rs : list Rule) : Prop := rs ≡ₚ rules.

(** C29: the order in which the nine rules are tried is immaterial: any arrangement of them makes
    the same decision on every command, because no two of them accept the same one. *)
Theorem rule_order_immaterial rs parsed command id session :
  arrangement rs → first_accept rs parsed command id session = first_accept rules parsed command id session.
Proof.
  unfold arrangement. intros Hp. apply option_eq. intros [r q]. rewrite !first_accept_Some. by rewrite Hp.
Qed.

(** ** The request handed to the tool *)

(** The tool each rule's [execute] calls. *)
Definition tool (r : Rule) : str :=
  match r with
  | GrepRule | RgRule => lit "grep"
  | FindRule => lit "glob"
  | CatRule | HeadRule | TailRule | SedRule | LsRule => lit "read"
  | CatAppendRule => lit "edit_match"
  end.

Lemma tool_request_file r q path :
  rule_id q = name r → p_file (params q) = Some path → tool r ∈ [lit "read"; lit "edit_match"] →
  p_file (raw_params (tool_request ctx (tool r) q)) = Some (path_candidate ctx path).
Proof.
  intros Hid Hf Ht. unfold tool_request. rewrite (decide_True _ _ Ht), Hf. cbv zeta. simpl raw_params.
  fold (path_candidate ctx path).
  assert (∀ b q', p_file (if b : bool then with_path (grep_project_root ctx) q' else q') = p_file q') as Hi by (by intros []).
  rewrite Hi. destruct (_ && bool_decide (rule_id q = _)); [|by destruct (_ && _)].
  destruct (text_file_line_count _) as [t|]; [|by destruct (_ && _)].
  destruct (0 <? t)%N; by destruct (_ && _).
Qed.

(** The paths of the request that the tool gets: the file that was checked, and the search path as
    it was named; [find] without one searches the root. *)
Definition handed_file (q : Params) : option str := path_candidate ctx <$> p_file q.
Definition handed_path (r : Rule) (q : Params) : option str :=
  match r with
  | FindRule => Some (default (grep_project_root ctx) (p_path q))
  | _ => p_path q
  end.

Lemma tool_request_searching r q :
  tool r ∉ [lit "read"; lit "edit_match"] →
  raw_params (tool_request ctx (tool r) q)
  = if bool_decide (tool r = lit "glob") && bool_decide (p_path (params q) = None)
    then with_path (grep_project_root ctx) (params q) else params q.
Proof. intros Ht. unfold tool_request. cbv zeta. rewrite (decide_False _ _ Ht). done. Qed.

Lemma tool_request_path r q path :
  tool r ∈ [lit "read"; lit "edit_match"] → p_file (params q) = Some path →
  p_path (raw_params (tool_request ctx (tool r) q)) = p_path (params q).
Proof.
  intros Ht Hf. unfold tool_request. rewrite (decide_True _ _ Ht), Hf. cbv zeta. simpl raw_params.
  assert (bool_decide (tool r = lit "glob") = false) as -> by (by destruct r; (apply (bool_decide_unpack _); vm_compute; done)
        || (exfalso; revert Ht; apply (bool_decide_unpack _); vm_compute)).
  cbn [andb].
  destruct (_ && bool_decide (rule_id q = _)); [|by destruct (_ && _)].
  destruct (text_file_line_count _) as [t|]; [|by destruct (_ && _)].
  destruct (0 <? t)%N; by destruct (_ && _).
Qed.

Lemma tool_request_paths r q :
  rule_id q = name r → request_confined r (params q) →
  p_file (raw_params (tool_request ctx (tool r) q)) = handed_file (params q)
  ∧ p_path (raw_params (tool_request ctx (tool r) q)) = handed_path r (params q).
Proof.
  intros Hid Hc. destruct (decide (tool r ∈ [lit "read"; lit "edit_match"])) as [Ht|Ht].
  - assert (∃ path, p_file (params q) = Some path) as [path Hf]
      by (destruct r; simpl in Hc; naive_solver || by exfalso; revert Ht; apply (bool_decide_unpack _); vm_compute).
    split; [unfold handed_file; rewrite Hf; by apply (tool_request_file r)|].
    rewrite (tool_request_path r q path Ht Hf). destruct r; try done.
    exfalso; revert Ht; apply (bool_decide_unpack _); vm_compute; done.
  - rewrite (tool_request_searching r q Ht).
    destruct r; try (exfalso; apply Ht; apply (bool_decide_unpack _); vm_compute; done); destruct Hc as [Hf _];
      unfold handed_file, handed_path; rewrite Hf.
    + rewrite (bool_decide_eq_false_2 (_ = lit "glob")) by (apply (bool_decide_unpack _); vm_compute; done). done.
    + rewrite (bool_decide_eq_false_2 (_ = lit "glob")) by (apply (bool_decide_unpack _); vm_compute; done). done.
    + rewrite (bool_decide_eq_true_2 (_ = lit "glob")) by done. cbn [andb].
      case_bool_decide as Hp; [by rewrite Hp|]. by destruct (p_path (params q)).
Qed.

Context (commit : result str ()).
Abbreviation dispatch_for_request := (dispatch_for_request ctx regex_builds glob_new handle_glob commit).

(** C26: a command that is executed in place of the shell stays in the project.  Every file or
    directory its request names exists and resolves into the project root; the target of an
    append has its directory in the root and, where something is already there, resolves into the
    root.  The tool gets these paths and no other: the file it reads or edits is the candidate
    that was checked, the path it searches is the one that was named and checked, and [find]
    without a path searches the root. *)
Theorem rewrites_stay_in_project command id session names s rule request s' :
  dispatch_for_request command id session names s = (Executed rule request, s') →
  let handed := raw_params (tool_request ctx (tool rule) request) in
  request_confined rule (params request)
  ∧ p_file handed = handed_file (params request) ∧ p_path handed = handed_path rule (params request).
Proof.
  unfold dispatch_for_request. destruct (experimental_bash_rewrite ctx); [|done]. simpl negb. cbv iota.
  destruct (first_accept _ _ _ _ _) as [[r q]|] eqn:E; [|done]. destruct commit; [|done]. intros [= <- <- _].
  apply first_accept_Some in E as [_ (p & Hp & Hs & Hid & Hc)%rule_accepts].
  split; [done|]. by apply tool_request_paths.
Qed.

End Rules.

(** ** Route records *)

Record routes_ok (s : RouteRecordStore) : Prop := {
  ro_nodup : NoDup (oldest_first s);
  ro_dom : ∀ id, is_Some (records s !! id) ↔ id ∈ oldest_first s;
  ro_id : ∀ id record, records s !! id = Some record → rec_request_id record = id;
  ro_bound : length (oldest_first s) ≤ MAX_ROUTE_RECORDS }.

(** The store of the process after any history of the two operations that change it. *)
Inductive route_step : RouteRecordStore → RouteRecordStore → Prop :=
  | step_store record s : route_step s (store_record record s)
  | step_take id s : route_step s (take_route_record id s).2.

Lemma filter_all (P : str → Prop) `{∀ x, Decision (P x)} (l : list str) : (∀ x, x ∈ l → P x) → filter P l = l.
Proof.
  induction l as [|x l IH]; [done|]. intros Ha. rewrite filter_cons_True by (apply Ha; left). f_equal. apply IH.
  intros y Hy. apply Ha. by right.
Qed.

(** The queue after a record, before the oldest are dropped. *)
Lemma store_record_queue record s :
  routes_ok s →
  store_record record s =
    expire_oldest (<[rec_request_id record := record]> (records s))
      (filter (λ id, id ≠ rec_request_id record) (oldest_first s) ++ [rec_request_id record]).
Proof.
  intros [_ Hd _ _]. unfold store_record. case_decide as Hi; [done|]. do 2 f_equal. symmetry. apply filter_all.
  intros id Hin ->. by apply Hi, Hd.
Qed.

Lemma expire_oldest_one m q :
  length q ≤ S MAX_ROUTE_RECORDS →
  (length q ≤ MAX_ROUTE_RECORDS ∧ expire_oldest m q = MkRoutes m q)
  ∨ (∃ oldest q', q = oldest :: q' ∧ length q' = MAX_ROUTE_RECORDS ∧ expire_oldest m q = MkRoutes (delete oldest m) q').
Proof.
  destruct q as [|oldest q]; [by left; split; [simpl; lia|]|]. intros Hl. cbn [expire_oldest].
  destruct (Nat.ltb_spec MAX_ROUTE_RECORDS (length (oldest :: q))) as [Hlt|Hge]; [|by left].
  right. exists oldest, q. cbn [length] in *. split_and!; [done|lia|].
  destruct q as [|x q]; [done|]. cbn [expire_oldest]. destruct (Nat.ltb_spec MAX_ROUTE_RECORDS (length (x :: q))); [cbn [length] in *; lia|done].
Qed.

Lemma queue_length id (q : list str) :
  length q ≤ MAX_ROUTE_RECORDS → length (filter (λ x, x ≠ id) q ++ [id]) ≤ S MAX_ROUTE_RECORDS.
Proof. intros Hl. rewrite length_app. cbn [length]. pose proof (length_filter (λ x, x ≠ id) q). lia. Qed.

Lemma inserted_ok record s (m := <[rec_request_id record := record]> (records s))
    (q := filter (λ id, id ≠ rec_request_id record) (oldest_first s) ++ [rec_request_id record]) :
  routes_ok s →
  NoDup q ∧ (∀ id, is_Some (m !! id) ↔ id ∈ q) ∧ (∀ id r, m !! id = Some r → rec_request_id r = id)
  ∧ length q ≤ S MAX_ROUTE_RECORDS.
Proof.
  intros [Hn Hd Hi Hb]. split_and!.
  - apply NoDup_app. split_and!; [by apply NoDup_filter| |apply NoDup_singleton].
    intros x [Hx _]%list_elem_of_filter ->%list_elem_of_singleton. done.
  - intros id. unfold m, q. rewrite lookup_insert_is_Some', elem_of_app, list_elem_of_filter, list_elem_of_singleton, Hd.
    destruct (decide (id = rec_request_id record)) as [->|]; [|intuition congruence]. split; [by right|by left].
  - intros id r [[<- <-]|[_ Hr]]%lookup_insert_Some; [done|by apply Hi].
  - by apply queue_length.
Qed.

Lemma store_record_ok record s : routes_ok s → routes_ok (store_record record s).
Proof.
  intros Hok. rewrite (store_record_queue _ _ Hok). destruct (inserted_ok record s Hok) as (Hn & Hd & Hi & Hl).
  destruct (expire_oldest_one (<[rec_request_id record := record]> (records s)) _ Hl) as [[Hb ->]|(o & q' & Hq & Hb & ->)]; [by constructor|].
  rewrite Hq in Hn, Hd. apply NoDup_cons in Hn as [Ho Hn]. constructor; simpl; [done| | |lia].
  - intros id. destruct (decide (id = o)) as [->|Hne].
    + rewrite lookup_delete_eq. split; [by intros []|done].
    + rewrite lookup_delete_ne by done. rewrite Hd, elem_of_cons. intuition congruence.
  - intros id r [_ Hr]%lookup_delete_Some. by apply Hi.
Qed.

Lemma take_route_record_ok id s : routes_ok s → routes_ok (take_route_record id s).2.
Proof.
  intros [Hn Hd Hi Hb]. constructor; simpl.
  - by apply NoDup_filter.
  - intros id'. rewrite list_elem_of_filter, <-Hd. destruct (decide (id' = id)) as [->|Hne].
    + rewrite lookup_delete_eq. split; [by intros []|intuition congruence].
    + rewrite lookup_delete_ne by done. intuition congruence.
  - intros id' r [_ Hr]%lookup_delete_Some. by apply Hi.
  - etrans; [apply length_filter|done].
Qed.

Lemma no_routes_ok : routes_ok no_routes.
Proof. constructor; simpl; [apply NoDup_nil_2| |done|lia]. intros id. split; [by intros []|by intros ?%elem_of_nil]. Qed.

Lemma routes_reachable_ok s : rtc route_step no_routes s → routes_ok s.
Proof.
  intros Hr. remember no_routes as s0 eqn:E. assert (routes_ok s0) as H0 by (subst; apply no_routes_ok). clear E.
  induction Hr as [|s0 s1 s2 Hs _ IH]; [done|]. apply IH. destruct Hs; [by apply store_record_ok|by apply take_route_record_ok].
Qed.

(** after any history the records of routes and the queue that ages them name the same requests,
    each once, and no more than the bound; a record just stored is the one found for its request,
    and of the other requests at most one loses its record: the oldest, and only when the store was
    full. *)
Theorem route_records_bounded s record :
  rtc route_step no_routes s →
  routes_ok s ∧ route_record (rec_request_id record) (store_record record s) = Some record
  ∧ ∀ id, id ≠ rec_request_id record →
    route_record id (store_record record s) = route_record id s
    ∨ (route_record id (store_record record s) = None
       ∧ head (filter (λ x, x ≠ rec_request_id record) (oldest_first s)) = Some id
       ∧ length (oldest_first s) = MAX_ROUTE_RECORDS).
Proof.
  intros Hok%routes_reachable_ok. split; [done|]. rewrite (store_record_queue _ _ Hok). unfold route_record.
  destruct (inserted_ok record s Hok) as (Hn & _ & _ & Hl). pose proof (ro_bound s Hok) as Hb.
  destruct (expire_oldest_one (<[rec_request_id record := record]> (records s)) _ Hl) as [[_ ->]|(o & q' & Hq & Hq' & ->)]; simpl.
  { split; [apply lookup_insert_eq|]. intros id Hne. left. by rewrite lookup_insert_ne. }
  assert (length (filter (λ x, x ≠ rec_request_id record) (oldest_first s)) = MAX_ROUTE_RECORDS) as Hf.
  { apply (f_equal length) in Hq. rewrite length_app in Hq. cbn [length] in Hq. lia. }
  pose proof (length_filter (λ x, x ≠ rec_request_id record) (oldest_first s)) as Hle.
  destruct (filter _ (oldest_first s)) as [|x xs] eqn:Ef; [by vm_compute in Hf|]. injection Hq as -> Hq.
  assert (o ≠ rec_request_id record) as Ho.
  { intros E. assert (o ∈ filter (λ x, x ≠ rec_request_id record) (oldest_first s)) as Hin by (rewrite Ef; left).
    by apply list_elem_of_filter in Hin as [? _]. }
  split; [by rewrite lookup_delete_ne, lookup_insert_eq|]. intros id Hne. destruct (decide (id = o)) as [->|Hno].
  - right. split_and!; [apply lookup_delete_eq|done|lia].
  - left. by rewrite lookup_delete_ne, lookup_insert_ne.
Qed.


(** ** Examples *)

(** A project with one file. *)
Definition one_file (bs : bytes) : Fs := {|
  canonicalize p := Some p;
  metadata p := if decide (p = lit "/p/f") then Some (MkMeta true false (N.of_nat (length bs)))
                else if decide (p = lit "/p") then Some (MkMeta false true 0) else None;
  read_file p := if decide (p = lit "/p/f") then Some bs else None;
  read_dir p := None |}.

Definition sample_ctx : Ctx := MkCtx true (Some (lit "/p")) None None (λ _ _, true) (λ _, false).

(** The request of [echo hi >> f]. *)
Definition sample_append : RewriteRequest :=
  MkRequest (lit "r") (lit "echo hi >> f") None (lit "cat_append") (lit "cat_append.accept") (lit "dc.cat_append.accept.v1")
    (MkParams None None None (Some (lit "f")) None None None None (Some (lit "append")) (Some (lit "hi" ++ [LF]))
       (Some true) None None None) default_names.

Lemma rewrites_stay_in_project_witness :
  let _ := one_file [] in
  ∃ s', dispatch_for_request sample_ctx (λ _, true) (λ _, None) (λ _, MkGlob false None None None) (Ok ())
          (lit "echo hi >> f") (lit "r") None default_names no_routes = (Executed CatAppendRule sample_append, s')
  ∧ request_confined sample_ctx CatAppendRule (params sample_append)
  ∧ p_file (raw_params (tool_request sample_ctx (tool CatAppendRule) sample_append)) = Some (lit "/p/f").
Proof.
  intros fs. eexists. split; [reflexivity|].
  destruct (rewrites_stay_in_project (H := fs) sample_ctx (λ _, true) (λ _, None) (λ _, MkGlob false None None None) (Ok ())
              (lit "echo hi >> f") (lit "r") None default_names no_routes CatAppendRule sample_append _ eq_refl) as [Hc Hf].
  split; [exact Hc|exact (proj1 Hf)].
Defined.

Lemma rule_order_immaterial_witness :
  let _ := one_file [] in
  first_accept sample_ctx (λ _, true) (λ _, None) (λ _, MkGlob false None None None) (reverse rules)
    (parse (lit "echo hi >> f")) (lit "echo hi >> f") (lit "r") None = Some (CatAppendRule, sample_append).
Proof.
  intros fs.
  rewrite (rule_order_immaterial (H := fs) sample_ctx (λ _, true) (λ _, None) (λ _, MkGlob false None None None)
             (reverse rules)); [reflexivity|apply reverse_Permutation].
Defined.

End BashRulesSpec.
