(* ===== verification/ReadText.v ===== *)
(** * Text reads: the windows of [commands/read.rs]

    A read without a range loads the file and renders numbered lines; a read with a range streams
    the file, skipping the lines before the range without holding them.  A buffered reader is the
    list of what the reads of the file answer, the first being what is left in its buffer; a read
    of no bytes is the end of the file.  A response is a record of the fields of its JSON object.
    Counts of lines are below the ceiling of fifty megabytes of input, so their casts to 32 bits
    keep their value. *)

From S2P Require Import Prelude RustStr ByteStr BashRules ReadCapture.
Import ByteStr BashRules ReadCapture.

Module ReadText.

Definition DEFAULT_LIMIT : N := 2000.
Definition MAX_LINE_LENGTH : N := 2000.
Definition MAX_BYTES : N := 50 * 1024.
Definition MAX_READ_BYTES : N := 50 * 1024 * 1024.

Inductive ReadResponse :=
  | ReadError (code message : str)
  | ReadBinary (byte_size : N) (message : str)
  | ReadContent (content : str) (complete : bool) (total_lines : option N) (lines_read start_line end_line : N)
      (truncated : bool) (read_output_tail : option N) (byte_size : N) (scan_bytes_examined : option N)
      (scan_gap : bool).

Definition binary_response (byte_size : N) (what : str) : ReadResponse :=
  ReadBinary byte_size (lit "Binary file (" ++ show_N byte_size ++ lit " bytes), " ++ what).

(** ** The window *)

Record ReadWindow := MkWindow { w_start : N; w_end : option N; w_limit : N }.

(** A zero counts as absent, and a line number has 32 bits. *)
Definition positive (field : str) (value : option N) : result ReadResponse (option N) :=
  match value with
  | Some value =>
      if (value =? 0)%N then Ok None
      else if (value <=? u32_max)%N then Ok (Some value)
      else Err (ReadError (lit "invalid_request")
                  (lit "read: '" ++ field ++ lit "' exceeds the maximum line value " ++ show_N u32_max))
  | None => Ok None
  end.

Definition read_window (req : Params) : result ReadResponse ReadWindow :=
  start ← positive (lit "start_line") (p_start_line req);
  stop ← positive (lit "end_line") (p_end_line req);
  limit ← positive (lit "limit") (p_limit req);
  Ok (MkWindow (default 1%N start) stop (default DEFAULT_LIMIT limit)).

Definition sat_add32 (a b : N) : N := N.min (a + b) u32_max.

(** [response_total] is the number of lines in the plain response, when it has one. *)
Definition read_selection (req : Params) (response_total : option N) : ReadSelection :=
  match p_bash_read_kind req with
  | Some kind =>
      let lines := N.to_nat (default 10%N (p_bash_read_lines req)) in
      if decide (kind = lit "head") then SelHead lines
      else if decide (kind = lit "tail") then SelTail lines
      else WholeFile
  | None =>
      match read_window req with
      | Err _ => WholeFile
      | Ok window =>
          if bool_decide (is_Some (p_start_line req)) || bool_decide (is_Some (w_end window)) then
            SelRange (N.to_nat (w_start window))
              (N.to_nat (default (w_start window + w_limit window - 1)%N (w_end window)))
          else if bool_decide (response_total = Some 0%N) then WholeFile
          else SelHead (N.to_nat (w_limit window))
      end
  end.

(** ** Rendering numbered lines *)

(** [floor_char_boundary]: the longest prefix of at most [limit] bytes. *)
Fixpoint floor_prefix (limit : N) (s : str) : str :=
  match s with
  | [] => []
  | c :: s => if (limit <? len_utf8 c)%N then [] else c :: floor_prefix (limit - len_utf8 c) s
  end.

Definition truncation_mark : str := lit "... (truncated)".

(** The text shown for a line, and whether it was cut. *)
Definition display_text (line : str) : str * bool :=
  if (MAX_LINE_LENGTH <? str_len line)%N then (floor_prefix MAX_LINE_LENGTH line, true) else (line, false).

(** [{:>width$}: {text}]: the number right-aligned. *)
Definition display_line (width : nat) (line_num : N) (line : str) : str :=
  let '(text, cut) := display_text line in
  repeat SPACE (width - length (show_N line_num)) ++ show_N line_num ++ lit ": " ++ text
  ++ (if cut then truncation_mark else []) ++ [LF].

Definition size_notice : str :=
  lit "... (output truncated at " ++ show_N (MAX_BYTES / 1024)
  ++ lit "KB, use start_line/end_line to read sections)" ++ [LF].

Record Output := MkOutput { o_text : str; o_lines : N; o_cut : bool; o_tail : option N }.

(** The loop of [render_text_read]: the size of a line is computed without printing it. *)
Fixpoint whole_lines (skip_render : bool) (width : nat) (line_num output_bytes : N) (out : Output)
    (lines : list str) : Output :=
  match lines with
  | [] => out
  | line :: lines =>
      let '(text, cut) := display_text line in
      let display_size := (N.of_nat width + 2 + str_len text + 1 + (if cut then str_len truncation_mark else 0))%N in
      let output_bytes := (output_bytes + display_size)%N in
      if (MAX_BYTES <? output_bytes)%N then
        if skip_render then MkOutput (o_text out) (o_lines out) true (o_tail out)
        else MkOutput (o_text out ++ size_notice) (o_lines out) true (Some (str_len (o_text out)))
      else whole_lines skip_render width (line_num + 1) output_bytes
             (MkOutput (o_text out ++ (if skip_render then [] else display_line width line_num line))
                (o_lines out + 1) (o_cut out) (o_tail out)) lines
  end.

(** The loop of the streaming read: the size is that of the printed line. *)
Fixpoint stream_lines (width : nat) (line_num output_bytes : N) (out : Output) (lines : list str) : Output :=
  match lines with
  | [] => out
  | line :: lines =>
      let shown := display_line width line_num line in
      let output_bytes := (output_bytes + str_len shown)%N in
      if (MAX_BYTES <? output_bytes)%N then
        MkOutput (o_text out ++ size_notice) (o_lines out) true (Some (str_len (o_text out)))
      else stream_lines width (line_num + 1) output_bytes
             (MkOutput (o_text out ++ shown) (o_lines out + 1) (o_cut out) (o_tail out)) lines
  end.

Definition no_output : Output := MkOutput [] 0 false None.

Definition last_shown (start_line lines_read : N) : N :=
  (start_line + lines_read - (if (0 <? lines_read)%N then 1 else 0))%N.

Definition render_text_read (content : str) (byte_size start_line : N) (explicit_end_line : option N) (limit : N)
    (skip_render : bool) : ReadResponse :=
  let lines := str_lines content in
  let len := N.of_nat (length lines) in
  let end_line := default (N.min (sat_add32 start_line limit - 1) len) explicit_end_line in
  let start_idx := N.min (start_line - 1) len in
  let end_idx := N.max (N.min end_line len) start_idx in
  if (len <=? start_idx)%N then
    ReadContent [] true (Some len) 0 start_line start_line false None byte_size None false
  else
    let shown := take (N.to_nat (end_idx - start_idx)) (drop (N.to_nat start_idx) lines) in
    let out := whole_lines skip_render (length (show_N end_idx)) (start_idx + 1) 0 no_output shown in
    let has_more := (0 <? start_idx)%N || (end_idx <? len)%N || o_cut out in
    ReadContent (o_text out) (negb has_more) (Some len) (o_lines out) start_line (last_shown start_line (o_lines out))
      has_more (o_tail out) byte_size None false.

(** ** Streaming *)

Abbreviation Reader := (list (result str bytes)) (only parsing).

(** [fill_buf().map_or(true, |bytes| !bytes.is_empty())]. *)
Fixpoint may_have_more (rd : Reader) : bool :=
  match rd with
  | [] => false
  | Err _ :: _ => true
  | Ok [] :: rd => may_have_more rd
  | Ok _ :: _ => true
  end.

(** The bytes of a buffer that a budget allows. *)
Definition within_budget (budget : N) (chunk : bytes) : bytes :=
  take (N.to_nat (N.min budget (N.of_nat (length chunk)))) chunk.

(** How many bytes were passed, and whether the line ended. *)
Fixpoint skip_streamed_line (rd : Reader) (budget consumed : N) : result str (N * bool * Reader) :=
  if (budget <=? consumed)%N then Ok (consumed, false, rd)
  else
    match rd with
    | [] => Ok (consumed, true, [])
    | Err e :: _ => Err e
    | Ok chunk :: rest =>
        let available := within_budget (budget - consumed) chunk in
        match position (N.eqb LF) available with
        | Some index => Ok ((consumed + N.of_nat index + 1)%N, true, Ok (drop (S index) chunk) :: rest)
        | None =>
            let consumed := (consumed + N.of_nat (length available))%N in
            if length available <? length chunk then Ok (consumed, false, Ok (drop (length available) chunk) :: rest)
            else skip_streamed_line rest budget consumed
        end
    end.

(** [reader.by_ref().take(limit).read_until(LF, &mut bytes)]. *)
Fixpoint read_until (rd : Reader) (limit : N) (collected : bytes) : result str (bytes * Reader) :=
  if (limit =? 0)%N then Ok (collected, rd)
  else
    match rd with
    | [] => Ok (collected, [])
    | Err e :: _ => Err e
    | Ok chunk :: rest =>
        let available := within_budget limit chunk in
        match position (N.eqb LF) available with
        | Some index => Ok (collected ++ take (S index) chunk, Ok (drop (S index) chunk) :: rest)
        | None =>
            let collected := collected ++ available in
            if length available <? length chunk then Ok (collected, Ok (drop (length available) chunk) :: rest)
            else read_until rest (limit - N.of_nat (length available)) collected
        end
    end.

(** The bytes after the last whole character when the end of the input cuts a character. *)
Definition cut_sequence (tail : bytes) : bool :=
  match tail with
  | [b0] => ((0xC2 <=? b0) && (b0 <? 0xF5))%N
  | [b0; b1] => (((0xE0 <=? b0) && (b0 <? 0xF0))%N && second_of_3 b0 b1)
                || (((0xF0 <=? b0) && (b0 <? 0xF5))%N && second_of_4 b0 b1)
  | [b0; b1; b2] => ((0xF0 <=? b0) && (b0 <? 0xF5))%N && second_of_4 b0 b1 && is_cont b2
  | _ => false
  end.

(** The decoded text up to a character cut by the end of the input: [error_len] is [None]. *)
Definition decode_cut (bs : bytes) : option str :=
  head (omap (λ k, if cut_sequence (drop (length bs - k) bs) then from_utf8 (take (length bs - k) bs) else None)
          [1; 2; 3]).

Definition decode_line (partial_line : bool) (bs : bytes) : option str :=
  match from_utf8 bs with
  | Some line => Some line
  | None => if partial_line then decode_cut bs else None
  end.

(** The line without its terminator. *)
Definition chop_line (bs : bytes) : bytes :=
  match strip_suffix [LF] bs with Some l => strip_cr l | None => bs end.

Record Streamed := MkStreamed {
  st_reader : Reader; st_selected : list str; st_observed : N; st_scanned : N; st_retained : N;
  st_gap : bool; st_invalid : bool; st_more : bool }.

Definition ended (gap invalid more : bool) (st : Streamed) : Streamed :=
  MkStreamed (st_reader st) (st_selected st) (st_observed st) (st_scanned st) (st_retained st) gap invalid more.

Definition advanced (rd : Reader) (lines consumed : N) (st : Streamed) : Streamed :=
  MkStreamed rd (st_selected st) (sat_add32 (st_observed st) lines) (st_scanned st + consumed) (st_retained st)
    (st_gap st) (st_invalid st) (st_more st).

(** What one turn of the loop answers: go on, stop, or fail with the message. *)
Inductive Turn := GoOn (st : Streamed) | Break (st : Streamed) | Failed (message : str).

(** A line before the range. *)
Definition skip_prefix (st : Streamed) : Turn :=
  match skip_streamed_line (st_reader st) (MAX_READ_BYTES - st_scanned st) 0 with
  | Err e => Failed (lit "read: failed to skip prefix: " ++ e)
  | Ok (consumed, finished, rd) =>
      if negb finished then Break (ended true false false (advanced rd 0 consumed st))
      else if (consumed =? 0)%N then Break (advanced rd 0 0 st)
      else GoOn (advanced rd 1 consumed st)
  end.

(** What a line longer than its allowance does after its beginning was kept. *)
Definition skip_suffix (end_idx : N) (st : Streamed) : Turn :=
  let st := ended true (st_invalid st) (st_more st) st in
  if (end_idx <=? st_observed st)%N then Break st
  else
    match skip_streamed_line (st_reader st) (MAX_READ_BYTES - st_scanned st) 0 with
    | Err e => Failed (lit "read: failed to skip line suffix: " ++ e)
    | Ok (consumed, finished, rd) => (if finished then GoOn else Break) (advanced rd 0 consumed st)
    end.

(** A line of the range. *)
Definition take_line (end_idx : N) (st : Streamed) : Turn :=
  let allowance := N.min (MAX_LINE_LENGTH + 4) (MAX_READ_BYTES - st_scanned st) in
  if (allowance =? 0)%N || (MAX_BYTES <=? st_retained st)%N then Break (ended true false false st)
  else
    match read_until (st_reader st) allowance [] with
    | Err e => Failed (lit "read: failed to read file: " ++ e)
    | Ok ([], rd) => Break (advanced rd 0 0 st)
    | Ok (bytes, rd) =>
        let len := N.of_nat (length bytes) in
        let partial_line := negb (bool_decide (last bytes = Some LF)) && (len =? allowance)%N in
        match decode_line partial_line (chop_line bytes) with
        | None => Break (ended (st_gap st) true false (advanced rd 0 len st))
        | Some line =>
            let st := advanced rd 1 len st in
            let st := MkStreamed (st_reader st) (st_selected st ++ [line]) (st_observed st) (st_scanned st)
                        (st_retained st + str_len line + 16) (st_gap st) (st_invalid st) (st_more st) in
            if partial_line then skip_suffix end_idx st else GoOn st
        end
    end.

Definition stream_turn (start_idx end_idx : N) (st : Streamed) : Turn :=
  if (end_idx <=? st_observed st)%N then Break (ended (st_gap st) (st_invalid st) (may_have_more (st_reader st)) st)
  else if (st_observed st <? start_idx)%N then skip_prefix st
  else take_line end_idx st.

(** Every turn that goes on has taken a byte from the reader. *)
Fixpoint stream_loop (fuel : nat) (start_idx end_idx : N) (st : Streamed) : result str Streamed :=
  match fuel with
  | 0 => Ok st
  | S fuel =>
      match stream_turn start_idx end_idx st with
      | GoOn st => stream_loop fuel start_idx end_idx st
      | Break st => Ok st
      | Failed message => Err message
      end
  end.

Definition remaining (rd : Reader) : bytes := rd ≫= λ r, match r with Ok chunk => chunk | Err _ => [] end.

Definition stream (rd : Reader) (start_idx end_idx : N) : result str Streamed :=
  stream_loop (S (length (remaining rd))) start_idx end_idx (MkStreamed rd [] 0 0 0 false false false).

Definition scan_note (lines_read observed scanned : N) : str :=
  [LF] ++ lit "shown " ++ show_N lines_read ++ lit " of at least " ++ show_N observed
  ++ lit " examined lines (line or response scan budget) " ++ [183%N]
  ++ lit " narrow: start_line/end_line; " ++ show_N scanned ++ lit " bytes scanned" ++ [LF].

Definition scan_note_before (observed scanned : N) : str :=
  lit "shown 0 of at least " ++ show_N observed ++ lit " examined lines (scan budget before requested range; "
  ++ show_N scanned ++ lit " bytes scanned) " ++ [183%N] ++ lit " narrow: earlier start_line or smaller file".

Definition start_past_end_error (start_line total_lines : N) : ReadResponse :=
  ReadError (lit "invalid_range")
    (lit "invalid_range: startLine " ++ show_N start_line ++ lit " is past the end of the file ("
     ++ show_N total_lines ++ lit " lines); no lines selected. Use a start line between 1 and "
     ++ show_N total_lines ++ lit ".").

Section Read.
(** [content_inspector::inspect(..).is_binary()]. *)
Context (is_binary : bytes → bool).

Definition io_error (e : str) : ReadResponse := ReadError (lit "io_error") (lit "read: failed to read file: " ++ e).

(** The response for what the loop found. *)
Definition stream_response (byte_size start_line requested_start_idx : N) (st : Streamed) : ReadResponse :=
  let exact_total_lines := if negb (st_more st) && negb (st_gap st) then Some (st_observed st) else None in
  if st_invalid st then binary_response byte_size (lit "not valid UTF-8")
  else if bool_decide (st_selected st = []) && negb (st_gap st) && (0 <? st_observed st)%N
  then start_past_end_error start_line (st_observed st)
  else if bool_decide (st_selected st = []) then
    ReadContent (if st_gap st then scan_note_before (st_observed st) (st_scanned st) else [])
      (negb (st_gap st)) exact_total_lines 0 start_line start_line (st_gap st) None byte_size
      (Some (st_scanned st)) (st_gap st)
  else
    let width := length (show_N (requested_start_idx + N.of_nat (length (st_selected st)))) in
    let out := stream_lines width (requested_start_idx + 1) 0 no_output (st_selected st) in
    let has_more := (0 <? requested_start_idx)%N || st_more st in
    let truncated := has_more || o_cut out || st_gap st in
    let tail := if st_gap st then Some (default (str_len (o_text out)) (o_tail out)) else o_tail out in
    let text := if st_gap st then o_text out ++ scan_note (o_lines out) (st_observed st) (st_scanned st)
                else o_text out in
    ReadContent text (negb truncated) exact_total_lines (o_lines out) start_line
      (last_shown start_line (o_lines out)) truncated tail byte_size (Some (st_scanned st)) (st_gap st).

(** [opened], [sample] and [rewound] are the answers of [open], the first [read] and [seek]. *)
Definition handle_streaming_range_read (opened : result str ()) (sample : result str bytes)
    (rewound : result str ()) (reads : Reader) (byte_size start_line : N) (explicit_end_line : option N)
    (limit : N) : ReadResponse :=
  match opened, sample with
  | Err e, _ | Ok _, Err e => io_error e
  | Ok _, Ok sample =>
      if is_binary sample then binary_response byte_size (lit "cannot display as text")
      else
        match rewound with
        | Err e => io_error e
        | Ok _ =>
            let requested_end_line := default (sat_add32 start_line limit - 1)%N explicit_end_line in
            let requested_start_idx := (start_line - 1)%N in
            let requested_end_idx := N.max requested_end_line requested_start_idx in
            match stream reads requested_start_idx requested_end_idx with
            | Err message => ReadError (lit "io_error") message
            | Ok st => stream_response byte_size start_line requested_start_idx st
            end
        end
  end.

Definition inverted_range_error (start_line end_line : N) : ReadResponse :=
  ReadError (lit "invalid_range")
    (lit "invalid_range: startLine " ++ show_N start_line ++ lit " is after endLine " ++ show_N end_line
     ++ lit "; no lines selected. endLine is a line number, not a count: to read " ++ show_N end_line
     ++ lit " lines from line " ++ show_N start_line ++ lit ", use endLine="
     ++ show_N (start_line + end_line - 1) ++ lit " (or offset=" ++ show_N start_line ++ lit ", limit="
     ++ show_N end_line ++ lit "). Otherwise use a start line at or before the end line.").

(** [captured] are the complete bytes of the source when a capture was asked for and made them,
    [loaded] what reading the file answers otherwise. *)
Definition handle_text_or_binary_read (req : Params) (file_byte_size : N) (captured : option bytes)
    (loaded : result str bytes) (opened : result str ()) (sample : result str bytes) (rewound : result str ())
    (reads : Reader) : ReadResponse :=
  match read_window req with
  | Err response => response
  | Ok window =>
      let has_explicit_range := bool_decide (is_Some (p_start_line req)) || bool_decide (is_Some (w_end window))
                                || bool_decide (is_Some (p_limit req)) in
      if match w_end window with Some end_line => (end_line <? w_start window)%N | None => false end
      then inverted_range_error (w_start window) (default 0%N (w_end window))
      else if has_explicit_range then
        handle_streaming_range_read opened sample rewound reads file_byte_size (w_start window) (w_end window)
          (w_limit window)
      else if (MAX_READ_BYTES <? file_byte_size)%N then
        ReadError (lit "invalid_request")
          (lit "read: file is too large to load at once (" ++ show_N file_byte_size ++ lit " bytes > "
           ++ show_N MAX_READ_BYTES ++ lit " bytes). Use start_line/end_line to read sections.")
      else
        match (match captured with Some bytes => Ok bytes | None => loaded end) with
        | Err e => io_error e
        | Ok raw_bytes =>
            let byte_size := N.of_nat (length raw_bytes) in
            if is_binary raw_bytes then binary_response byte_size (lit "cannot display as text")
            else match from_utf8 raw_bytes with
                 | None => binary_response byte_size (lit "not valid UTF-8")
                 | Some content =>
                     render_text_read content byte_size (w_start window) (w_end window) (w_limit window)
                       (bool_decide (is_Some captured))
                 end
        end
  end.

End Read.

End ReadText.
