(* ===== verification/ReadTextSpec.v ===== *)
(** * A streamed range is the range of the whole file

    Reading a window by streaming, whatever the sizes of the buffers the reader fills, answers
    what loading and rendering the file answers for that window, as long as the budgets of the
    stream are not reached. *)

From S2P Require Import Prelude RustStr ByteStr BashRules ReadCapture ReadText.
Import ByteStr BashRules ReadCapture ReadText.

Module ReadTextSpec.

Definition all_ok (rd : list (result str bytes)) : Prop := Forall (λ r, is_err r = false) rd.

Lemma all_ok_cons r rd : all_ok (r :: rd) → ∃ chunk, r = Ok chunk ∧ all_ok rd.
Proof. intros [Hr Hrd]%Forall_cons. destruct r as [chunk|]; [by exists chunk|done]. Qed.

Lemma remaining_cons chunk rd : remaining (Ok chunk :: rd) = chunk ++ remaining rd.
Proof. done. Qed.

Lemma within_budget_all budget chunk :
  (N.of_nat (length chunk) ≤ budget)%N → within_budget budget chunk = chunk.
Proof. intros Hb. unfold within_budget. apply take_ge. lia. Qed.

(** A budget that reaches past the first line shows it in the buffer. *)
Lemma within_budget_line budget l r :
  (N.of_nat (length (l ++ [LF])) ≤ budget)%N → ∃ r', within_budget budget (l ++ LF :: r) = l ++ LF :: r'.
Proof.
  intros Hb. unfold within_budget. rewrite length_app in *. simpl in *. exists (take (N.to_nat (N.min budget (N.of_nat (length l + S (length r)))) - S (length l)) r).
  rewrite take_app_ge by lia. f_equal.
  destruct (N.to_nat _ - length l) as [|n] eqn:E; [lia|]. simpl. f_equal. f_equal. lia.
Qed.

Lemma drop_line (l r : list N) : drop (S (length l)) (l ++ LF :: r) = r.
Proof. rewrite drop_app_ge by lia. by replace (S (length l) - length l) with 1 by lia. Qed.

Lemma take_line_lf (l r : list N) : take (S (length l)) (l ++ LF :: r) = l ++ [LF].
Proof. rewrite take_app_ge by lia. by replace (S (length l) - length l) with 1 by lia. Qed.

Lemma skip_spec rd budget consumed p rest :
  all_ok rd → remaining rd = p ++ rest → piece_of p rest → (consumed + N.of_nat (length p) < budget)%N →
  ∃ rd', skip_streamed_line rd budget consumed = Ok ((consumed + N.of_nat (length p))%N, true, rd')
    ∧ all_ok rd' ∧ remaining rd' = rest.
Proof.
  revert consumed p. induction rd as [|r rd IH]; intros consumed p Hok Hrem Hp Hb; cbn [skip_streamed_line];
    (destruct (N.leb_spec budget consumed); [lia|]).
  - symmetry in Hrem. apply app_eq_nil in Hrem as [-> ->]. exists []. rewrite N.add_0_r. done.
  - apply all_ok_cons in Hok as (chunk & -> & Hok). rewrite remaining_cons in Hrem.
    destruct (piece_chunk _ _ _ _ Hp Hrem) as [(l & r & -> & Hl & -> & ->)|(Hout & p' & -> & Hrd & Hp')].
    + destruct (within_budget_line (budget - consumed) l r) as [r' ->]; [lia|]. rewrite position_line by done.
      replace (N.of_nat (length (l ++ [LF]))) with (N.of_nat (length l) + 1)%N by (rewrite length_app; simpl; lia).
      rewrite N.add_assoc. eexists. split_and!; [done|by constructor|].
      rewrite remaining_cons. f_equal. apply drop_line.
    + rewrite length_app in Hb. rewrite within_budget_all by lia. rewrite position_free by done. rewrite Nat.ltb_irrefl.
      destruct (IH (consumed + N.of_nat (length chunk))%N p') as (rd' & -> & ? & ?); [done|done|done|lia|].
      exists rd'. rewrite length_app. split_and!; [|done|done]. by rewrite Nat2N.inj_add, N.add_assoc.
Qed.

Lemma read_until_spec rd limit collected p rest :
  all_ok rd → remaining rd = p ++ rest → piece_of p rest → (N.of_nat (length p) < limit)%N →
  ∃ rd', read_until rd limit collected = Ok (collected ++ p, rd') ∧ all_ok rd' ∧ remaining rd' = rest.
Proof.
  revert limit collected p. induction rd as [|r rd IH]; intros limit collected p Hok Hrem Hp Hb; cbn [read_until];
    (destruct (N.eqb_spec limit 0); [lia|]).
  - symmetry in Hrem. apply app_eq_nil in Hrem as [-> ->]. exists []. by rewrite app_nil_r.
  - apply all_ok_cons in Hok as (chunk & -> & Hok). rewrite remaining_cons in Hrem.
    destruct (piece_chunk _ _ _ _ Hp Hrem) as [(l & r & -> & Hl & -> & ->)|(Hout & p' & -> & Hrd & Hp')].
    + destruct (within_budget_line limit l r) as [r' ->]; [lia|]. rewrite position_line by done.
      rewrite take_line_lf. eexists. split_and!; [done|by constructor|]. rewrite remaining_cons. f_equal. apply drop_line.
    + rewrite length_app in Hb. rewrite within_budget_all by lia. rewrite position_free by done. rewrite Nat.ltb_irrefl.
      destruct (IH (limit - N.of_nat (length chunk))%N (collected ++ chunk) p') as (rd' & -> & ? & ?); [done|done|done|lia|].
      exists rd'. by rewrite <-app_assoc.
Qed.

Lemma may_have_more_ok rd : all_ok rd → may_have_more rd = bool_decide (remaining rd ≠ []).
Proof.
  induction rd as [|r rd IH]; intros Hok; [done|]. apply all_ok_cons in Hok as (chunk & -> & Hok).
  rewrite remaining_cons. destruct chunk; [by apply IH|]. symmetry. by apply bool_decide_eq_true.
Qed.

(** ** Bytes and characters of a line *)

Lemma LF_bytes s : LF ∉ s → LF ∉ as_bytes s.
Proof. intros Hs Hin. by apply (elem_of_as_bytes_ascii s LF eq_refl) in Hin. Qed.

Lemma piece_bytes p rest : piece_of p rest → piece_of (as_bytes p) (as_bytes rest).
Proof.
  intros [(l & -> & Hl)|[Hp ->]].
  - left. exists (as_bytes l). split; [by rewrite as_bytes_app|by apply LF_bytes].
  - right. split; [by apply LF_bytes|done].
Qed.

Lemma strip_cr_bytes l : strip_cr (as_bytes l) = as_bytes (strip_cr l).
Proof.
  destruct (decide (last l = Some CR)) as [Hc|Hc].
  - apply last_Some in Hc as [l' ->]. unfold strip_cr. rewrite as_bytes_app.
    change (as_bytes [CR]) with [CR]. rewrite (proj2 (strip_suffix_Some [CR] (as_bytes l' ++ [CR]) (as_bytes l'))) by done.
    by rewrite (proj2 (strip_suffix_Some [CR] (l' ++ [CR]) l')).
  - rewrite !strip_cr_id; [done|done|]. intros Hl. apply Hc. destruct (exists_last (l := l)) as (l' & c & ->); [by intros ->|].
    rewrite as_bytes_app, last_app in Hl. rewrite last_snoc. f_equal.
    assert (CR ∈ as_bytes [c]) as Hin.
    { pose proof (utf8_char_length c) as Hu. destruct (last (as_bytes [c])) as [b|] eqn:E.
      - injection Hl as ->. apply last_Some in E as [k ->]. apply elem_of_app. right. left.
      - apply last_None in E. rewrite as_bytes_cons in E. apply app_eq_nil in E as [E _]. rewrite E in Hu. simpl in Hu. lia. }
    apply (elem_of_as_bytes_ascii [c] CR eq_refl) in Hin. by apply list_elem_of_singleton in Hin.
Qed.

Lemma chop_piece p rest : piece_of p rest → chop_line (as_bytes p) = as_bytes (line_content p).
Proof.
  intros [(l & -> & Hl)|[Hp ->]]; unfold chop_line, line_content.
  - rewrite as_bytes_app. change (as_bytes [LF]) with [LF]. rewrite !strip_line. apply strip_cr_bytes.
  - rewrite !strip_no_line; [done|done|by apply LF_bytes].
Qed.

Lemma line_content_prefix p rest : piece_of p rest → line_content p `prefix_of` p.
Proof.
  intros [(l & -> & Hl)|[Hp ->]]; unfold line_content.
  - rewrite strip_line. unfold strip_cr. destruct (strip_suffix [CR] l) as [l'|] eqn:E; [|by exists [LF]].
    apply strip_suffix_Some in E as ->. exists ([CR] ++ [LF]). by rewrite app_assoc.
  - by rewrite strip_no_line.
Qed.

Lemma decode_piece partial p rest : piece_of p rest → valid_str p → decode_line partial (chop_line (as_bytes p)) = Some (line_content p).
Proof.
  intros Hp Hv. rewrite (chop_piece p rest Hp). unfold decode_line. rewrite from_utf8_as_bytes; [done|].
  destruct (line_content_prefix p rest Hp) as [k Hk]. rewrite Hk in Hv. by apply Forall_app in Hv as [? _].
Qed.

(** ** The window of a list that is being streamed *)

(** The part of the rest of a list in the range, after [k] elements were passed. *)
Definition window {A} (k start_idx end_idx : N) (l : list A) : list A :=
  take (N.to_nat (end_idx - N.max k start_idx)) (drop (N.to_nat (start_idx - k)) l).

Lemma window_nil {A} k s e : window k s e (@nil A) = [].
Proof. unfold window. by rewrite drop_nil, take_nil. Qed.

Lemma window_past {A} k s e (l : list A) : (e ≤ k)%N → window k s e l = [].
Proof. intros Hk. unfold window. by replace (N.to_nat (e - N.max k s)) with 0 by lia. Qed.

Lemma window_before {A} k s e (x : A) l : (k < s)%N → window k s e (x :: l) = window (k + 1) s e l.
Proof.
  intros Hk. unfold window. replace (N.to_nat (s - k)) with (S (N.to_nat (s - (k + 1)))) by lia.
  replace (N.max k s) with (N.max (k + 1) s) by lia. done.
Qed.

Lemma window_in {A} k s e (x : A) l : (s ≤ k < e)%N → window k s e (x :: l) = x :: window (k + 1) s e l.
Proof.
  intros Hk. unfold window. replace (N.to_nat (s - k)) with 0 by lia. replace (N.to_nat (s - (k + 1))) with 0 by lia.
  replace (N.to_nat (e - N.max k s)) with (S (N.to_nat (e - N.max (k + 1) s))) by lia. done.
Qed.

Lemma window_fmap {A B} (f : A → B) k s e l : window k s e (f <$> l) = f <$> window k s e l.
Proof. unfold window. by rewrite fmap_take, fmap_drop. Qed.

(** What the stream retains for a list of lines. *)
Definition retained_cost (lines : list str) : N := foldr (λ line n, str_len line + 16 + n)%N 0%N lines.

(** ** The loop *)

(** The reader is at a line boundary: [k] lines were passed and [text] is left. *)
Record streaming (st : Streamed) (k : N) (text : str) : Prop := {
  ss_ok : all_ok (st_reader st);
  ss_rest : remaining (st_reader st) = as_bytes text;
  ss_valid : valid_str text;
  ss_observed : st_observed st = k;
  ss_flags : st_gap st = false ∧ st_invalid st = false ∧ st_more st = false;
  ss_scan : (st_scanned st + str_len text < MAX_READ_BYTES)%N }.

Lemma valid_rest p rest : valid_str (p ++ rest) → valid_str p ∧ valid_str rest.
Proof. apply Forall_app. Qed.

Lemma as_bytes_pos p : p ≠ [] → (0 < str_len p)%N.
Proof. intros Hp. destruct (N.eq_dec (str_len p) 0%N) as [E|E]; [by apply str_len_zero in E|lia]. Qed.

Lemma sat_add32_small k n : (k + n ≤ u32_max)%N → sat_add32 k n = (k + n)%N.
Proof. unfold sat_add32. lia. Qed.

Lemma skip_prefix_line st k p rest :
  streaming st k (p ++ rest) → p ≠ [] → piece_of p rest → (k + 1 ≤ u32_max)%N →
  ∃ st', skip_prefix st = GoOn st' ∧ streaming st' (k + 1) rest ∧ st_selected st' = st_selected st
    ∧ st_retained st' = st_retained st.
Proof.
  intros [Hok Hr Hv Ho Hf Hs] Hn Hp Hk. rewrite as_bytes_app in Hr. rewrite str_len_app in Hs.
  destruct (skip_spec (st_reader st) (MAX_READ_BYTES - st_scanned st) 0 _ _ Hok Hr (piece_bytes _ _ Hp)) as (rd & E & Hok' & Hr').
  { fold (str_len p). lia. }
  unfold skip_prefix. rewrite E. fold (str_len p). simpl negb. cbv iota.
  pose proof (as_bytes_pos p Hn). destruct (N.eqb_spec (0 + str_len p) 0) as [?|_]; [lia|].
  eexists. split; [done|]. split; [|done]. apply valid_rest in Hv as [_ Hv]. constructor; simpl; try done.
  - rewrite Ho. by apply sat_add32_small.
  - lia.
Qed.

Lemma skip_prefix_eof st k :
  streaming st k [] → (k ≤ u32_max)%N →
  ∃ st', skip_prefix st = Break st' ∧ streaming st' k [] ∧ st_selected st' = st_selected st.
Proof.
  intros [Hok Hr Hv Ho Hf Hs] Hk.
  destruct (skip_spec (st_reader st) (MAX_READ_BYTES - st_scanned st) 0 [] [] Hok Hr) as (rd & E & Hok' & Hr').
  { right. split; [apply not_elem_of_nil|done]. }
  { rewrite str_len_nil in Hs. simpl. lia. }
  unfold skip_prefix. rewrite E. eexists. split; [done|]. split; [|done]. constructor; simpl; try done.
  - rewrite Ho. rewrite sat_add32_small; lia.
  - lia.
Qed.

Lemma take_line_line st k e p rest :
  streaming st k (p ++ rest) → p ≠ [] → piece_of p rest → (k + 1 ≤ u32_max)%N →
  (str_len p < MAX_LINE_LENGTH + 4)%N → (st_retained st < MAX_BYTES)%N →
  ∃ st', take_line e st = GoOn st' ∧ streaming st' (k + 1) rest
    ∧ st_selected st' = st_selected st ++ [line_content p]
    ∧ st_retained st' = (st_retained st + str_len (line_content p) + 16)%N.
Proof.
  intros [Hok Hr Hv Ho Hf Hs] Hn Hp Hk Hl Hret. rewrite as_bytes_app in Hr. rewrite str_len_app in Hs.
  pose proof (as_bytes_pos p Hn) as Hpos.
  unfold take_line. cbv zeta. set (allowance := N.min _ _).
  assert (str_len p < allowance)%N as Hall by (unfold allowance; lia).
  destruct (read_until_spec (st_reader st) allowance [] _ _ Hok Hr (piece_bytes _ _ Hp)) as (rd & E & Hok' & Hr').
  { by fold (str_len p). }
  rewrite E. destruct (N.eqb_spec allowance 0); [lia|]. destruct (N.leb_spec MAX_BYTES (st_retained st)); [lia|]. simpl orb. cbv iota.
  destruct (as_bytes p) as [|b bs] eqn:Eb; [unfold str_len in Hpos; rewrite Eb in Hpos; simpl in Hpos; lia|].
  cbn [app]. cbv beta iota zeta. rewrite <-Eb. fold (str_len p). destruct (N.eqb_spec (str_len p) allowance); [lia|]. rewrite andb_false_r.
  apply valid_rest in Hv as [Hv1 Hv2]. rewrite (decode_piece false p rest Hp Hv1).
  eexists. split; [done|]. split; [|done]. constructor; simpl; try done.
  - rewrite Ho. by apply sat_add32_small.
  - lia.
Qed.

Lemma take_line_eof st k e :
  streaming st k [] → (k ≤ u32_max)%N → (st_retained st < MAX_BYTES)%N →
  ∃ st', take_line e st = Break st' ∧ streaming st' k [] ∧ st_selected st' = st_selected st.
Proof.
  intros [Hok Hr Hv Ho Hf Hs] Hk Hret. rewrite str_len_nil in Hs.
  unfold take_line. cbv zeta. set (allowance := N.min _ _).
  assert (0 < allowance)%N as Hall by (unfold allowance, MAX_LINE_LENGTH; lia).
  destruct (read_until_spec (st_reader st) allowance [] [] [] Hok Hr) as (rd & E & Hok' & Hr').
  { right. split; [apply not_elem_of_nil|done]. }
  { simpl. lia. }
  rewrite E. destruct (N.eqb_spec allowance 0); [lia|]. destruct (N.leb_spec MAX_BYTES (st_retained st)); [lia|]. simpl.
  eexists. split; [done|]. split; [|done]. constructor; simpl; try done.
  - rewrite Ho. rewrite sat_add32_small; lia.
  - rewrite str_len_nil. lia.
Qed.

(** Where the loop stops: at the end of the range, or at the end of the file. *)
Record streamed (st st' : Streamed) (k s e : N) (text : str) : Prop := {
  sd_selected : st_selected st' = st_selected st ++ window k s e (str_lines text);
  sd_gap : st_gap st' = false;
  sd_invalid : st_invalid st' = false;
  sd_more : st_more st' = (e <? k + N.of_nat (length (str_lines text)))%N;
  sd_observed : st_observed st' = N.min e (k + N.of_nat (length (str_lines text))) }.

Lemma str_lines_piece p rest :
  piece_of p rest → p ≠ [] → str_lines (p ++ rest) = line_content p :: str_lines rest.
Proof. intros Hp Hn. unfold str_lines. by rewrite piece_split. Qed.

Lemma str_lines_nil text : text ≠ [] → str_lines text ≠ [].
Proof. intros (p & rest & -> & Hn & Hp)%piece_exists. by rewrite str_lines_piece. Qed.

Lemma eof_streamed st st' k s e :
  streaming st' k [] → (k ≤ e)%N → st_selected st' = st_selected st → streamed st st' k s e [].
Proof.
  intros [_ _ _ Ho (Hg & Hi & Hm) _] Hk Hsel. constructor; try done.
  - change (str_lines []) with (@nil str). by rewrite window_nil, app_nil_r.
  - rewrite Hm. symmetry. apply N.ltb_ge. simpl. lia.
  - rewrite Ho. simpl. lia.
Qed.

Lemma range_end_streamed st k s e text :
  streaming st k text → k = e →
  streamed st (ended (st_gap st) (st_invalid st) (may_have_more (st_reader st)) st) k s e text.
Proof.
  intros [Hok Hr _ Ho (Hg & Hi & Hm) _] <-. constructor; simpl; try done.
  - by rewrite window_past, app_nil_r.
  - rewrite may_have_more_ok, Hr by done. destruct (decide (text = [])) as [->|Hn].
    + symmetry. apply N.ltb_ge. simpl. lia.
    + rewrite bool_decide_true.
      * symmetry. apply N.ltb_lt. pose proof (str_lines_nil _ Hn) as Hl. destruct (str_lines text); [done|]. simpl. lia.
      * intros E. pose proof (as_bytes_pos text Hn) as Hp. unfold str_len in Hp. rewrite E in Hp. simpl in Hp. lia.
  - rewrite Ho. lia.
Qed.

Lemma streamed_step st st1 st' k s e p rest :
  piece_of p rest → p ≠ [] → streamed st1 st' (k + 1) s e rest →
  st_selected st1 ++ window (k + 1) s e (str_lines rest) = st_selected st ++ window k s e (str_lines (p ++ rest)) →
  streamed st st' k s e (p ++ rest).
Proof.
  intros Hp Hn [Hsel Hg Hi Hm Ho] Hw. constructor; try done.
  - by rewrite Hsel.
  - rewrite str_lines_piece by done. rewrite Hm. f_equal. cbn [length]. lia.
  - rewrite str_lines_piece by done. rewrite Ho. cbn [length]. lia.
Qed.

Lemma stream_loop_spec fuel st k text s e :
  streaming st k text → (str_len text < N.of_nat fuel)%N → (k ≤ e)%N →
  (k + N.of_nat (length (str_lines text)) ≤ u32_max)%N →
  Forall (λ p, (str_len p < MAX_LINE_LENGTH + 4)%N) (window k s e (split_inclusive LF text)) →
  (st_retained st + retained_cost (window k s e (str_lines text)) < MAX_BYTES)%N →
  ∃ st', stream_loop fuel s e st = Ok st' ∧ streamed st st' k s e text.
Proof.
  revert st k text. induction fuel as [|fuel IH]; intros st k text Hst Hfuel Hk Hu Hl Hret; [lia|].
  cbn [stream_loop]. unfold stream_turn. rewrite (ss_observed _ _ _ Hst).
  destruct (N.leb_spec e k) as [He|He].
  { eexists. split; [done|]. apply range_end_streamed; [done|lia]. }
  destruct (decide (text = [])) as [->|Hn].
  { destruct (N.ltb_spec k s).
    - destruct (skip_prefix_eof st k Hst) as (st' & -> & ? & ?); [simpl in Hu; lia|]. eexists. split; [done|]. by apply eof_streamed.
    - destruct (take_line_eof st k e Hst) as (st' & -> & ? & ?); [simpl in Hu; lia|lia|]. eexists. split; [done|]. by apply eof_streamed. }
  apply piece_exists in Hn as (p & rest & -> & Hn & Hp). rewrite str_len_app in Hfuel. pose proof (as_bytes_pos p Hn).
  rewrite str_lines_piece in Hu, Hret by done. cbn [length] in Hu. rewrite piece_split in Hl by done.
  destruct (N.ltb_spec k s) as [Hs|Hs].
  - rewrite window_before in Hl, Hret by done.
    destruct (skip_prefix_line st k p rest Hst Hn Hp) as (st1 & -> & Hst1 & Hsel & Hr1); [lia|].
    destruct (IH st1 (k + 1)%N rest Hst1) as (st' & -> & Hsd); [lia|lia|lia|done|by rewrite Hr1|].
    eexists. split; [done|]. eapply streamed_step; [done|done|done|]. by rewrite str_lines_piece, window_before, Hsel.
  - rewrite window_in in Hl, Hret by done. apply Forall_cons in Hl as [Hl1 Hl2]. cbn [retained_cost foldr] in Hret.
    destruct (take_line_line st k e p rest Hst Hn Hp) as (st1 & -> & Hst1 & Hsel & Hr1); [lia|done|lia|].
    destruct (IH st1 (k + 1)%N rest Hst1) as (st' & -> & Hsd); [lia|lia|lia|done|unfold retained_cost; lia|].
    eexists. split; [done|]. eapply streamed_step; [done|done|done|].
    rewrite str_lines_piece, window_in, Hsel by done. by rewrite <-app_assoc.
Qed.

(** ** The rendering *)

Lemma pretty_go_length x y s t :
  (x ≤ y)%N → length (lit s) ≤ length (lit t) → length (lit (pretty_N_go x s)) ≤ length (lit (pretty_N_go y t)).
Proof.
  revert x s t. induction (N.lt_wf_0 y) as [y _ IH]; intros x s t Hxy Hst.
  destruct (decide (y = 0)%N) as [->|Hy]; [replace x with 0%N by lia; by rewrite !pretty_N_go_0|].
  rewrite (pretty_N_go_step y) by lia. destruct (decide (x = 0)%N) as [->|Hx].
  - rewrite pretty_N_go_0, <-(pretty_N_go_0 s). apply IH; [apply N.div_lt; lia|lia|]. rewrite lit_cons. simpl. lia.
  - rewrite (pretty_N_go_step x) by lia. apply IH; [apply N.div_lt; lia|by apply N.Div0.div_le_mono|]. rewrite !lit_cons. simpl. lia.
Qed.

Lemma show_N_length_mono n m : (n ≤ m)%N → length (show_N n) ≤ length (show_N m).
Proof.
  intros Hnm. destruct (decide (n = 0)%N) as [->|Hn].
  - change (length (show_N 0)) with 1. pose proof (show_N_nonempty m). destruct (show_N m); [done|]. simpl. lia.
  - unfold show_N, pretty, pretty_N. rewrite !decide_False by lia. by apply pretty_go_length.
Qed.

Lemma show_N_len n : str_len (show_N n) = N.of_nat (length (show_N n)).
Proof.
  unfold str_len. rewrite as_bytes_ascii; [done|]. eapply Forall_impl; [apply show_N_digits|].
  intros c Hc. unfold is_ascii_digit in Hc. breflect. lia.
Qed.

Lemma str_len_spaces n : str_len (repeat SPACE n) = N.of_nat n.
Proof. induction n as [|n IH]; [done|]. cbn [repeat]. rewrite str_len_cons, IH. change (len_utf8 SPACE) with 1%N. lia. Qed.

Lemma display_line_len width n line text cut :
  display_text line = (text, cut) → length (show_N n) ≤ width →
  str_len (display_line width n line)
  = (N.of_nat width + 2 + str_len text + 1 + (if cut then str_len truncation_mark else 0))%N.
Proof.
  intros Ht Hw. unfold display_line. rewrite Ht, !str_len_app, str_len_spaces, show_N_len.
  change (str_len (lit ": ")) with 2%N. change (str_len [LF]) with 1%N. destruct cut; [lia|]. rewrite str_len_nil. lia.
Qed.

Lemma lines_agree top lines n used out :
  (n + N.of_nat (length lines) ≤ top + 1)%N →
  whole_lines false (length (show_N top)) n used out lines = stream_lines (length (show_N top)) n used out lines.
Proof.
  revert n used out. induction lines as [|line lines IH]; intros n used out Hn; [done|].
  cbn [whole_lines stream_lines]. destruct (display_text line) as [text cut] eqn:Et.
  rewrite (display_line_len _ _ _ _ _ Et) by (apply show_N_length_mono; simpl in Hn; lia).
  destruct (_ <? _)%N; [done|]. apply IH. simpl in Hn. lia.
Qed.

(** ** Streaming against loading *)

(** The two responses agree; the total is known to a stream that reached the end. *)
Definition agrees (streamed whole : ReadResponse) : Prop :=
  match streamed, whole with
  | ReadContent c1 k1 t1 n1 s1 e1 tr1 tail1 b1 _ gap, ReadContent c2 k2 t2 n2 s2 e2 tr2 tail2 b2 _ _ =>
      c1 = c2 ∧ k1 = k2 ∧ (∀ t, t1 = Some t → t2 = Some t) ∧ n1 = n2 ∧ s1 = s2 ∧ e1 = e2 ∧ tr1 = tr2
      ∧ tail1 = tail2 ∧ b1 = b2 ∧ gap = false
  | _, _ => False
  end.

Lemma split_inclusive_length (l : list N) : length (split_inclusive LF l) ≤ length l.
Proof. induction l as [|x l IH]; [done|]. simpl. case_decide; simpl; [lia|]. destruct (split_inclusive LF l); simpl in *; lia. Qed.

Lemma length_str_len s : (N.of_nat (length s) ≤ str_len s)%N.
Proof. induction s as [|c s IH]; [done|]. rewrite str_len_cons. pose proof (len_utf8_pos c). cbn [length]. lia. Qed.

Lemma str_lines_length s : (N.of_nat (length (str_lines s)) ≤ str_len s)%N.
Proof.
  unfold str_lines. rewrite length_fmap. pose proof (split_inclusive_length s). pose proof (length_str_len s). lia.
Qed.

Lemma window_clamped {A} s e (l : list A) (n := N.of_nat (length l)) :
  (s ≤ n)%N → window 0 s e l = take (N.to_nat (N.max (N.min e n) s - s)) (drop (N.to_nat s) l).
Proof.
  intros Hs. unfold window. rewrite N.max_0_l, N.sub_0_r. destruct (N.leb_spec e n).
  - f_equal. lia.
  - rewrite !take_ge; [done|..]; rewrite length_drop; lia.
Qed.

Lemma window_length {A} s e (l : list A) :
  (s ≤ N.of_nat (length l))%N → (s ≤ e)%N → N.of_nat (length (window 0 s e l)) = (N.min e (N.of_nat (length l)) - s)%N.
Proof. intros Hs He. unfold window. rewrite length_take, length_drop. lia. Qed.

Section Streaming.
Context (is_binary : bytes → bool).

Lemma stream_file reads text s e :
  all_ok reads → remaining reads = as_bytes text → valid_str text → (str_len text < MAX_READ_BYTES)%N →
  Forall (λ p, (str_len p < MAX_LINE_LENGTH + 4)%N) (window 0 s e (split_inclusive LF text)) →
  (retained_cost (window 0 s e (str_lines text)) < MAX_BYTES)%N →
  ∃ st, stream reads s e = Ok st
    ∧ streamed (MkStreamed reads [] 0 0 0 false false false) st 0 s e text.
Proof.
  intros Hok Hr Hv Hsz Hl Hc. unfold stream. pose proof (str_lines_length text).
  apply stream_loop_spec; [by constructor| |lia| |done|done].
  - rewrite Hr. unfold str_len. lia.
  - unfold MAX_READ_BYTES in Hsz. unfold u32_max. lia.
Qed.

(** C28: a range read by streaming, through buffers of any sizes, answers what loading the whole
    file and rendering the range answers: the same numbered text, counts, bounds and flags.  The
    conditions keep the stream within its budgets: a file under the scan ceiling, a range that
    starts in the file, no line in it that reaches the stream's allowance, and a range that fits
    what the stream retains. *)
Theorem streamed_range_is_whole_range reads sample text size start stop limit
    (e := default (sat_add32 start limit - 1)%N stop) :
  all_ok reads → remaining reads = as_bytes text → valid_str text → is_binary sample = false →
  (str_len text < MAX_READ_BYTES)%N →
  (1 ≤ start)%N → (start ≤ N.of_nat (length (str_lines text)))%N → (start ≤ e)%N →
  Forall (λ p, (str_len p < MAX_LINE_LENGTH + 4)%N) (window 0 (start - 1) e (split_inclusive LF text)) →
  (retained_cost (window 0 (start - 1) e (str_lines text)) < MAX_BYTES)%N →
  agrees (handle_streaming_range_read is_binary (Ok ()) (Ok sample) (Ok ()) reads size start stop limit)
         (render_text_read text size start stop limit false).
Proof.
  intros Hok Hr Hv Hb Hsz Hs1 Hs2 He Hl Hc. unfold handle_streaming_range_read. rewrite Hb. fold e. cbv zeta.
  rewrite (N.max_l e) by lia. destruct (stream_file _ _ _ _ Hok Hr Hv Hsz Hl Hc) as (st & -> & [Hsel Hg Hi Hm Ho]).
  simpl in Hsel. set (n := N.of_nat (length (str_lines text))) in *. set (s := (start - 1)%N) in *.
  pose proof (window_length s e (str_lines text)) as Hwl. fold n in Hwl. rewrite <-Hsel in Hwl.
  unfold stream_response. rewrite Hi, Hg. rewrite (bool_decide_eq_false_2 (st_selected st = [])) by (intros E; rewrite E in Hwl; simpl in Hwl; lia).
  simpl negb. cbv iota zeta. simpl andb. cbv iota.
  unfold render_text_read. cbv zeta. fold n s. rewrite (N.min_l s n) by lia.
  assert (N.max (N.min (default (N.min (sat_add32 start limit - 1) n) stop) n) s = N.max (N.min e n) s)%N as ->.
  { unfold e. destruct stop; simpl; lia. }
  destruct (N.leb_spec n s); [lia|]. pose proof (window_clamped s e (str_lines text)) as Hw.
  cbv zeta in Hw. fold n in Hw. rewrite <-Hw, <-Hsel by lia.
  rewrite Hwl by lia. replace (s + (N.min e n - s))%N with (N.max (N.min e n) s) by lia.
  rewrite (lines_agree (N.max (N.min e n) s)) by (rewrite Hwl; lia).
  unfold agrees. rewrite Hm, Ho, !orb_false_r, !N.add_0_l.
  assert ((N.max (N.min e n) s <? n)%N = (e <? n)%N) as -> by (destruct (N.ltb_spec e n), (N.ltb_spec (N.max (N.min e n) s) n); lia || done).
  split_and!; try done. intros t. destruct (N.ltb_spec e n); simpl; [done|]. intros [= <-]. f_equal. lia.
Qed.

End Streaming.

Lemma streamed_range_is_whole_range_witness :
  agrees
    (handle_streaming_range_read (λ _, false) (Ok ()) (Ok (lit "ab")) (Ok ())
       [Ok (lit "ab"); Ok (lit "c" ++ [LF] ++ lit "d"); Ok [CR]; Ok [LF; LF]; Ok (lit "tail")] 14 2 None 2)
    (render_text_read (lit "abc" ++ [LF] ++ lit "d" ++ [CR; LF; LF] ++ lit "tail") 14 2 None 2 false)
  ∧ render_text_read (lit "abc" ++ [LF] ++ lit "d" ++ [CR; LF; LF] ++ lit "tail") 14 2 None 2 false
    = ReadContent (lit "2: d" ++ [LF] ++ lit "3: " ++ [LF]) false (Some 4%N) 2 2 3 true None 14 None false.
Proof.
  split; [|by vm_compute].
  apply (streamed_range_is_whole_range (λ _, false)); apply (bool_decide_unpack _); by vm_compute.
Defined.

End ReadTextSpec.
