(* ===== verification/BashReads.v ===== *)
(** * Rewritten reads select what the command would print

    The composition of the rewrite rules, the request they hand to the read tool, and the tagged
    read: [cat], [head], [tail] and [sed -n] publish the lines the command they replace prints. *)

From S2P Require Import Prelude RustStr ByteStr UnixPath Scan SnapshotStore Region ReadCapture ReadSpec Address.
From S2P Require Import BashParser BashRules BashRulesSpec ReadText ReadTextSpec.
Import Scan SnapshotStore ReadCapture ReadSpec.
Import ByteStr UnixPath BashParser BashRules BashRulesSpec ReadText ReadTextSpec.

Module BashReads.

(** ** What the commands print *)

(** The lines a command prints: all, the first or the last [n], from line [n], or lines [a] to [b]. *)
Inductive Printed := PrintAll | PrintFirst (n : N) | PrintLast (n : N) | PrintFrom (n : N) | PrintRange (a b : N).

Definition printed {A} (w : Printed) (lines : list A) : list A :=
  match w with
  | PrintAll => lines
  | PrintFirst n => take (N.to_nat n) lines
  | PrintLast n => drop (length lines - N.to_nat n) lines
  | PrintFrom n => drop (N.to_nat n - 1) lines
  | PrintRange a b => take (S (N.to_nat b) - N.to_nat a) (drop (N.to_nat a - 1) lines)
  end.

(** A decimal numeral of a number: digits, leading zeros allowed, no sign. *)
Definition decimal (s : str) (n : N) : Prop := s ≠ [] ∧ parse_digits 0 s = Some n.

(** The words of the commands, as their manuals define them, and the file they print. *)
Inductive prints : Rule → list str → str → Printed → Prop :=
  | prints_cat f : prints CatRule [lit "cat"; f] f PrintAll
  | prints_head f : prints HeadRule [lit "head"; f] f (PrintFirst 10)
  | prints_head_n s n f : decimal s n → prints HeadRule [lit "head"; lit "-n"; s; f] f (PrintFirst n)
  | prints_head_compact s n f : decimal s n → prints HeadRule [lit "head"; lit "-" ++ s; f] f (PrintFirst n)
  | prints_tail f : prints TailRule [lit "tail"; f] f (PrintLast 10)
  | prints_tail_n s n f : decimal s n → prints TailRule [lit "tail"; lit "-n"; s; f] f (PrintLast n)
  | prints_tail_compact s n f : decimal s n → prints TailRule [lit "tail"; lit "-" ++ s; f] f (PrintLast n)
  | prints_tail_from s n f :
      decimal s n → prints TailRule [lit "tail"; lit "-n"; lit "+" ++ s; f] f (PrintFrom n)
  | prints_sed s t a b f :
      decimal s a → decimal t b →
      prints SedRule [lit "sed"; lit "-n"; s ++ lit "," ++ t ++ lit "p"; f] f (PrintRange a b).

(** ** Rows of a selection *)

Definition selected_rows (sel : ReadSelection) (recs : list RawLineRecord) : list RawLineRecord :=
  omap (rec_at recs) (btree_elems (selected_lines sel (length recs))).

Lemma btree_elems_range a b : btree_elems (list_to_set (range_incl a b)) = range_incl a b.
Proof.
  unfold btree_elems. apply (StronglySorted_unique (≤)); [apply (StronglySorted_merge_sort (≤))| |].
  - unfold range_incl. generalize (S b - a). intros n. revert a. induction n as [|n IH]; intros a; [constructor|]. cbn [seq].
    constructor; [apply IH|]. apply Forall_forall. intros x Hx%elem_of_seq. lia.
  - rewrite merge_sort_Permutation. apply elements_list_to_set. apply NoDup_seq.
Qed.

Lemma rows_between a b recs :
  1 ≤ a → b ≤ length recs →
  omap (rec_at recs) (btree_elems (list_to_set (range_incl a b))) = take (S b - a) (drop (a - 1) recs).
Proof. intros Ha Hb. rewrite btree_elems_range. by apply Address.range_incl_rec_at. Qed.

Lemma rows_empty recs : omap (rec_at recs) (btree_elems ∅) = [].
Proof. done. Qed.

Lemma whole_rows recs : selected_rows WholeFile recs = recs.
Proof. unfold selected_rows. simpl. rewrite rows_between by lia. rewrite drop_0, take_ge; [done|lia]. Qed.

Lemma head_rows n recs : selected_rows (SelHead n) recs = take n recs.
Proof.
  unfold selected_rows. simpl. rewrite rows_between by lia. rewrite drop_0.
  destruct (decide (n ≤ length recs)); [f_equal; lia|]. rewrite !take_ge; [done|lia|lia].
Qed.

Lemma tail_rows n recs : selected_rows (SelTail n) recs = drop (length recs - n) recs.
Proof.
  unfold selected_rows. simpl. destruct (_ || _) eqn:E.
  - rewrite rows_empty, drop_ge; [done|]. apply orb_true_iff in E as [E|E]; breflect; lia.
  - apply orb_false_iff in E as [E1 E2]. breflect. rewrite rows_between by lia. rewrite take_ge; [f_equal; lia|].
    rewrite length_drop. lia.
Qed.

Lemma range_rows a b recs : 1 ≤ a → a ≤ b → selected_rows (SelRange a b) recs = take (S b - a) (drop (a - 1) recs).
Proof.
  intros Ha Hb. unfold selected_rows. simpl. destruct (Nat.ltb_spec b a); [lia|]. destruct (Nat.eqb_spec a 0); [lia|]. simpl.
  rewrite rows_between by lia. destruct (decide (b ≤ length recs)); [f_equal; lia|].
  rewrite !take_ge; [done|..]; rewrite length_drop; lia.
Qed.

(** ** The number of lines *)

Lemma scan_lines_count bs :
  length (scan_lines bs).1 = length (filter (λ b, b = LF) bs)
  ∧ ((scan_lines bs).2 = [] ↔ bs = [] ∨ last bs = Some LF).
Proof.
  induction bs as [|b bs [IH1 IH2]] using rev_ind; [split; [done|]; split; [by left|done]|].
  rewrite scan_lines_snoc, filter_app, length_app, last_snoc. unfold line_step. case_decide as Hb.
  - subst. rewrite filter_cons_True by done. simpl. rewrite length_app, IH1. split; [done|]. split; [by right|done].
  - rewrite filter_cons_False by done. simpl. rewrite IH1, Nat.add_0_r. split; [done|].
    split; [by intros [_ ?]%app_eq_nil|]. intros [[_ ?]%app_eq_nil|?]; by simplify_eq.
Qed.

Lemma line_count_records `{Fs} path bs :
  read_file path = Some bs → is_Some (from_utf8 bs) →
  text_file_line_count path = Some (N.of_nat (length (raw_line_records bs))).
Proof.
  intros Hr [t Ht]. unfold text_file_line_count. rewrite Hr. simpl. rewrite Ht. simpl.
  destruct (scan_lines_count bs) as [Hc Hl]. unfold raw_line_records. destruct (scan_lines bs) as [ls cur]. simpl in *.
  rewrite length_app, length_fmap, Hc. case_decide as He.
  { subst. rewrite (proj2 Hl) by (by left). done. }
  f_equal. case_decide as Hlast.
  - rewrite (proj2 Hl) by (by right). simpl. lia.
  - destruct cur; [by destruct (proj1 Hl) as [?|?]|]. simpl. lia.
Qed.

(** ** The numbers of a command *)

Lemma decimal_digits s n c : decimal s n → is_ascii_digit c = false → c ∉ s.
Proof.
  intros [_ Hd%parse_digits_digits] Hc Hin. rewrite Forall_forall in Hd. by rewrite (Hd c Hin) in Hc.
Qed.

Lemma parse_usize_decimal s n v : decimal s n → parse_usize s = Some v → v = n.
Proof.
  intros Hd. pose proof (decimal_digits _ _ 43 Hd eq_refl) as Hplus. destruct Hd as [Hne Hp]. unfold parse_usize.
  assert ((match s with 43%N :: s' => s' | _ => s end) = s) as ->.
  { destruct s as [|c s]; [done|]. apply not_elem_of_cons in Hplus as [Hc _]. by repeat case_match; simplify_eq. }
  destruct s; [done|]. rewrite Hp. destruct (_ <=? _)%N; [by intros [= <-]|done].
Qed.

Lemma parse_u32_decimal s n v : decimal s n → parse_u32 s = Some v → v = n ∧ (n ≤ u32_max)%N.
Proof.
  intros Hd. unfold parse_u32. intros (x & ->%(parse_usize_decimal _ n) & Hv)%bind_Some; [|done].
  destruct (N.leb_spec n u32_max); by simplify_eq.
Qed.

Lemma plus_decimal s n : decimal s n → strip_prefix (lit "+") s = None.
Proof.
  intros Hd. destruct (strip_prefix (lit "+") s) as [r|] eqn:E; [|done]. apply strip_prefix_Some in E.
  exfalso. apply (decimal_digits _ _ 43 Hd); [done|]. rewrite E. left.
Qed.

(** ** The requests *)

(** What a count or a start becomes, before the file is looked at. *)
Lemma head_tail_request cmd rest q :
  head_tail_read_request_from_parsed (Some (MkParsed (cmd :: rest) None None)) cmd = Some q →
  match rest with
  | [file] => q = with_limit 10 (with_file file no_params)
  | [flag; count; file] =>
      (∃ n, q = with_limit n (with_file file no_params) ∧ parse_usize count = Some n
            ∧ (cmd = lit "tail" → strip_prefix (lit "+") count = None))
      ∨ (∃ s n, q = with_start n (with_file file no_params) ∧ cmd = lit "tail" ∧ strip_prefix (lit "+") count = Some s
                ∧ parse_usize s = Some n)
  | [compact; file] =>
      ∃ s n, q = with_limit n (with_file file no_params) ∧ strip_prefix [DASH] compact = Some s ∧ parse_usize s = Some n
  | _ => False
  end.
Proof.
  unfold head_tail_read_request_from_parsed. cbn [mbind option_bind args head]. intros (_ & _ & Hq)%guard_shape.
  destruct rest as [|f [|g [|h [|]]]]; try done.
  - by apply limited_Some in Hq as [_ ->].
  - apply bind_Some in Hq as (s & Hs & (n & Hn & [_ ->]%limited_Some)%bind_Some). by exists s, n.
  - destruct (negb _); [done|]. destruct (decide (cmd = lit "tail")) as [Hc|Hc].
    + destruct (strip_prefix (lit "+") g) as [s|] eqn:Es.
      * apply bind_Some in Hq as (n & Hn & [= <-]). right. by exists s, n.
      * apply bind_Some in Hq as (n & Hn & [_ ->]%limited_Some). left. by exists n.
    + apply bind_Some in Hq as (n & Hn & [_ ->]%limited_Some). left. by exists n.
Qed.

(** A closed decidable fact, by evaluation. *)
Ltac evaluates := apply (bool_decide_unpack _); by vm_compute.

Section Reads.
Context `{Fs} (ctx : Ctx) (regex_builds : str → bool).
Context (glob_new : str → option (str → bool)) (handle_glob : Params → GlobResponse).

(** What a selection is read from: the request of an accepted read. *)
Definition read_of (request : RewriteRequest) : Params := raw_params (tool_request ctx (lit "read") request).

Lemma cat_request p command id session q :
  cat_decide ctx (Some p) command id session = Accept q →
  rule_id q = lit "cat" ∧ cat_read_request_from_parsed (Some p) = Some (params q).
Proof.
  unfold cat_decide. destruct (cat_read_request_from_parsed _) as [ps|]; [|done].
  destruct (negb _); [done|]. destruct (negb _); [done|]. by intros [= <-].
Qed.

Lemma head_request p command id session q :
  head_decide ctx (Some p) command id session = Accept q →
  rule_id q = lit "head" ∧ head_tail_read_request_from_parsed (Some p) (lit "head") = Some (params q).
Proof.
  unfold head_decide. destruct (head_tail_read_request_from_parsed _ _) as [ps|]; [|done]. cbv zeta.
  destruct (_ || _); [done|]. by intros [= <-].
Qed.

Lemma faithful_utf8 path lines tail bs :
  head_tail_shape_is_faithful ctx path lines tail = true → read_file (path_candidate ctx path) = Some bs →
  is_Some (from_utf8 bs).
Proof.
  unfold head_tail_shape_is_faithful. cbv zeta. intros Hf Hr. rewrite Hr in Hf. destruct (metadata _) as [m|]; [|done].
  destruct (negb (md_is_file m)); [done|]. simpl in Hf. destruct (from_utf8 bs); [by eexists|done].
Qed.

Lemma tail_request p command id session q file bs :
  tail_decide ctx (Some p) command id session = Accept q → p_file (params q) = Some file →
  read_file (path_candidate ctx file) = Some bs →
  is_Some (from_utf8 bs) ∧ rule_id q = lit "tail"
  ∧ ∃ ps, head_tail_read_request_from_parsed (Some p) (lit "tail") = Some ps ∧ tail_params ctx file ps = Some (params q).
Proof.
  unfold tail_decide. intros Hd Hf Hr. destruct (head_tail_read_request_from_parsed _ _) as [ps|] eqn:E; [|done].
  apply head_tail_shape in E as (p' & file' & _ & _ & _ & Hf' & Hp'). rewrite Hf' in Hd. cbv zeta in Hd. simpl default in Hd.
  destruct (tail_params ctx file' ps) as [ps'|] eqn:Et; [|done].
  destruct (negb (effective_hashline_session _ _)); [done|]. destruct (negb (path_is_safe _ _ _)); [done|].
  destruct (head_tail_shape_is_faithful _ _ _ _) eqn:Ef; [|done]. injection Hd as <-. simpl in *.
  destruct (tail_params_file ctx _ _ _ file' Et Hf' Hp') as [Hff _]. assert (file' = file) as -> by congruence.
  split_and!; [by eapply faithful_utf8|done|]. by exists ps.
Qed.

(** The fields of a request handed to the read tool that its selection is read from. *)
Lemma read_of_bash q file :
  rule_id q ∈ [lit "cat"; lit "head"; lit "tail"] → p_file (params q) = Some file → p_bash_read_lines (params q) = None →
  p_file (read_of q) = Some (path_candidate ctx file) ∧ p_bash_read_kind (read_of q) = Some (rule_id q)
  ∧ p_bash_read_lines (read_of q) = p_limit (params q).
Proof.
  intros Hk Hf Hl. unfold read_of, tool_request. cbn [raw_params].
  rewrite (decide_True (P := lit "read" ∈ _)) by left. rewrite Hf.
  rewrite (bool_decide_eq_true_2 (lit "read" = lit "read")), (bool_decide_eq_true_2 (rule_id q ∈ _)) by done. cbn [andb].
  rewrite (bool_decide_eq_false_2 (lit "read" = lit "glob")) by evaluates. cbn [andb]. rewrite Hl.
  fold (path_candidate ctx file). destruct (bool_decide (rule_id q = lit "tail")); [|by destruct (p_limit (params q))].
  destruct (text_file_line_count _) as [t|]; [|by destruct (p_limit (params q))].
  destruct (0 <? t)%N; by destruct (p_limit (params q)).
Qed.

Lemma read_of_sed q file :
  rule_id q = lit "sed" → p_file (params q) = Some file → read_of q = with_file (path_candidate ctx file) (params q).
Proof.
  intros Hk Hf. unfold read_of, tool_request. cbn [raw_params].
  rewrite (decide_True (P := lit "read" ∈ _)) by left. rewrite Hf, Hk.
  rewrite (bool_decide_eq_false_2 (lit "read" = lit "glob")), (bool_decide_eq_false_2 (lit "sed" = lit "tail")),
    (bool_decide_eq_false_2 (lit "sed" ∈ _)); [by rewrite !andb_false_r|..]; evaluates.
Qed.

Lemma bash_read_selection q kind file total :
  rule_id q = kind → kind ∈ [lit "cat"; lit "head"; lit "tail"] → p_file (params q) = Some file →
  p_bash_read_lines (params q) = None →
  read_selection (read_of q) total =
    (if decide (kind = lit "head") then SelHead (N.to_nat (default 10%N (p_limit (params q))))
     else if decide (kind = lit "tail") then SelTail (N.to_nat (default 10%N (p_limit (params q))))
     else WholeFile).
Proof.
  intros <- Hk Hf Hl. destruct (read_of_bash q file Hk Hf Hl) as (_ & Hkind & Hlines).
  unfold read_selection. by rewrite Hkind, Hlines.
Qed.

Lemma cat_selects q file total recs :
  rule_id q = lit "cat" → params q = with_file file no_params → selected_rows (read_selection (read_of q) total) recs = recs.
Proof.
  intros Hid Hp. rewrite (bash_read_selection q (lit "cat") file); [|done|left|by rewrite Hp..].
  rewrite !decide_False by evaluates. apply whole_rows.
Qed.

Lemma head_selects q n file total recs :
  rule_id q = lit "head" → params q = with_limit n (with_file file no_params) →
  selected_rows (read_selection (read_of q) total) recs = take (N.to_nat n) recs.
Proof.
  intros Hid Hp. rewrite (bash_read_selection q (lit "head") file); [|done|right; left|by rewrite Hp..].
  rewrite decide_True by done. rewrite Hp. apply head_rows.
Qed.

Lemma tail_selects q n file total recs :
  rule_id q = lit "tail" → p_file (params q) = Some file → p_limit (params q) = Some n → p_bash_read_lines (params q) = None →
  selected_rows (read_selection (read_of q) total) recs = drop (length recs - N.to_nat n) recs.
Proof.
  intros Hid Hf Hl Hb. rewrite (bash_read_selection q (lit "tail") file); [|done|right; right; left|done|done].
  rewrite decide_False by evaluates. rewrite decide_True by done. rewrite Hl. apply tail_rows.
Qed.

(** [tail -n +N] counts the lines from [N] to the end of the file it was decided on. *)
Lemma tail_from_selects q n file total bs :
  rule_id q = lit "tail" → is_Some (from_utf8 bs) → read_file (path_candidate ctx file) = Some bs →
  tail_params ctx file (with_start n (with_file file no_params)) = Some (params q) →
  selected_rows (read_selection (read_of q) total) (raw_line_records bs)
  = drop (N.to_nat n - 1) (raw_line_records bs).
Proof.
  intros Hid Hu Hr Ht. unfold tail_params in Ht. cbn [p_start_line with_start] in Ht.
  apply resolve_tail_params in Ht as (start & t & Hs & Hc & Hle & Hp). injection Hs as <-.
  rewrite (line_count_records _ bs Hr Hu) in Hc. injection Hc as <-.
  erewrite tail_selects; [|done|by rewrite Hp..]. f_equal. lia.
Qed.

Lemma sed_request p command id session q :
  sed_decide ctx (Some p) command id session = Accept q →
  rule_id q = lit "sed" ∧ sed_request_from_parsed (Some p) = Some (params q).
Proof.
  unfold sed_decide. destruct (sed_request_from_parsed _) as [ps|]; [|done]. cbv zeta.
  destruct (_ || _); [done|]. by intros [= <-].
Qed.

Lemma sed_params s t a b file q :
  decimal s a → decimal t b →
  sed_request_from_parsed (Some (MkParsed [lit "sed"; lit "-n"; s ++ lit "," ++ t ++ lit "p"; file] None None)) = Some q →
  q = with_end b (with_start a (with_file file no_params)) ∧ (1 ≤ a ≤ b)%N ∧ (b ≤ u32_max)%N.
Proof.
  intros Hs Ht. unfold sed_request_from_parsed. cbn [mbind option_bind args plain appends_to heredoc]. intros (_ & Hq)%plain_guard.
  rewrite !bool_decide_eq_true_2 in Hq by done. cbn [negb orb] in Hq.
  rewrite (proj2 (strip_suffix_Some (lit "p") _ (s ++ lit "," ++ t))) in Hq by (by rewrite <-!app_assoc).
  cbn [mbind option_bind] in Hq. change (lit ",") with [44%N] in Hq.
  rewrite (split_once_first 44%N [] s t) in Hq; [|by eapply decimal_digits].
  cbn [mbind option_bind] in Hq.
  apply bind_Some in Hq as (x & [-> Ha]%(parse_u32_decimal _ _ _ Hs) & (y & [-> Hb]%(parse_u32_decimal _ _ _ Ht) & Hq)%bind_Some).
  destruct (N.eqb_spec a 0); [done|]. destruct (N.ltb_spec b a); [done|]. injection Hq as <-. split_and!; [done|lia|lia|done].
Qed.

Lemma sed_selects q a b file total recs :
  rule_id q = lit "sed" → params q = with_end b (with_start a (with_file file no_params)) → (1 ≤ a ≤ b)%N → (b ≤ u32_max)%N →
  selected_rows (read_selection (read_of q) total) recs
  = take (S (N.to_nat b) - N.to_nat a) (drop (N.to_nat a - 1) recs).
Proof.
  intros Hid Hp Hab Hb. rewrite (read_of_sed q file Hid) by (by rewrite Hp). rewrite Hp.
  unfold read_selection. cbn. destruct (N.eqb_spec a 0); [lia|]. destruct (N.leb_spec a u32_max); [|lia].
  destruct (N.eqb_spec b 0); [lia|]. destruct (N.leb_spec b u32_max); [|lia]. cbn.
  apply range_rows; lia.
Qed.

(** The numeral of a count, if the command has one; ten lines without it. *)
Inductive counted (file : str) : list str → N → Prop :=
  | counted_flag s n : decimal s n → counted file [lit "-n"; s; file] n
  | counted_compact s n : decimal s n → counted file [lit "-" ++ s; file] n
  | counted_default : counted file [file] 10.

Lemma head_tail_words cmd (rest : list str) file n q :
  counted file rest n →
  head_tail_read_request_from_parsed (Some (MkParsed (cmd :: rest) None None)) cmd = Some q →
  q = with_limit n (with_file file no_params).
Proof.
  intros Hw Hq. apply head_tail_request in Hq. destruct Hw as [s n Hd|s n Hd|]; cbv beta iota in Hq; [| |done].
  - destruct Hq as [(m & -> & ->%(parse_usize_decimal _ n) & _)|(s' & m & _ & _ & Hs & _)]; [done..|].
    by rewrite (plus_decimal _ _ Hd) in Hs.
  - destruct Hq as (s' & m & -> & Hs & Hm). change [DASH] with (lit "-") in Hs. apply strip_prefix_Some in Hs.
    apply app_inv_head in Hs as <-. by apply (parse_usize_decimal _ n) in Hm as ->.
Qed.

Lemma tail_count_selects q n file total recs :
  rule_id q = lit "tail" → tail_params ctx file (with_limit n (with_file file no_params)) = Some (params q) →
  selected_rows (read_selection (read_of q) total) recs = drop (length recs - N.to_nat n) recs.
Proof. intros Hid [= Hp]. by apply (tail_selects q n file); [done|rewrite <-Hp..]. Qed.

Lemma tail_from_words file s n q :
  decimal s n →
  head_tail_read_request_from_parsed (Some (MkParsed [lit "tail"; lit "-n"; lit "+" ++ s; file] None None)) (lit "tail") = Some q →
  q = with_start n (with_file file no_params).
Proof.
  intros Hd [(m & _ & _ & Hno)|(s' & m & -> & _ & Hs & Hm)]%head_tail_request.
  - by specialize (Hno eq_refl).
  - apply strip_prefix_Some, app_inv_head in Hs as <-. by apply (parse_usize_decimal _ n) in Hm as ->.
Qed.

Lemma head_prints q command id session file rest n total recs :
  counted file rest n →
  head_decide ctx (Some (MkParsed (lit "head" :: rest) None None)) command id session = Accept q →
  selected_rows (read_selection (read_of q) total) recs = take (N.to_nat n) recs.
Proof.
  intros Hc [Hid Hp%(head_tail_words _ _ file n)]%head_request; [|done]. by apply (head_selects _ _ file).
Qed.

Lemma tail_prints q command id session file rest n total bs :
  counted file rest n → p_file (params q) = Some file → read_file (path_candidate ctx file) = Some bs →
  tail_decide ctx (Some (MkParsed (lit "tail" :: rest) None None)) command id session = Accept q →
  selected_rows (read_selection (read_of q) total) (raw_line_records bs)
  = drop (length (raw_line_records bs) - N.to_nat n) (raw_line_records bs).
Proof.
  intros Hc Hf Hr Hd. apply (tail_request _ _ _ _ _ file bs) in Hd as (_ & Hid & ps & Hp & Ht); [|done..].
  apply (head_tail_words _ _ file n) in Hp as ->; [|done]. by apply (tail_count_selects _ _ file).
Qed.

Abbreviation decide_parsed := (decide_parsed ctx regex_builds glob_new handle_glob).


End Reads.

(** ** Examples *)

Definition three_lines : bytes := lit "one" ++ [CR; LF] ++ lit "two" ++ [LF] ++ lit "three".

(** The request of [tail -n +02 f]. *)
Definition sample_tail : RewriteRequest :=
  MkRequest (lit "r") (lit "tail -n +02 f") None (lit "tail") (lit "tail.accept") (lit "dc.tail.accept.v1")
    (with_limit 2 (with_end 3 (with_start 2 (with_file (lit "f") no_params)))) default_names.


(** [sed -n 2,+3p f] prints lines 2 to 5; the rule reads the offset as a line number. *)
Theorem sed_offset_read_as_line :
  sed_request_from_parsed (parse (lit "sed -n 2,+3p f"))
  = Some (with_end 3 (with_start 2 (with_file (lit "f") no_params))).
Proof. by vm_compute. Qed.

(** [cat] of a short file with more lines than the default limit of a read is accepted, and the read
    shows only the first two thousand of them. *)
Theorem cat_of_many_lines_is_cut (bs := repeat LF (N.to_nat 2001)) (fs := one_file bs) :
  read_shape_is_faithful (H := fs) sample_ctx (lit "f") = true
  ∧ match handle_text_or_binary_read (λ _, false) (with_file (lit "/p/f") no_params) 2001 None (Ok bs)
            (Ok ()) (Ok bs) (Ok ()) [Ok bs] with
    | ReadContent _ complete total lines_read _ _ truncated _ _ _ _ =>
        (complete, total, lines_read, truncated) = (false, Some 2001%N, 2000%N, true)
    | _ => False
    end.
Proof. split; by vm_compute. Qed.

(** The read keeps ten kilobytes of its output free for notices. *)
Definition read_options : RenderOptions := MkOptions MAX_RENDER_BYTES MAX_RENDER_LINE_LENGTH (10 * 1024).

(** Twenty-four lines of 1990 bytes. *)
Definition wide_line : str := repeat 97%N (N.to_nat 1990).

Lemma wide_all (P : N → Prop) n : P 97%N → Forall P (repeat 97%N n).
Proof. intros HP. apply Forall_forall. by intros x ->%list_elem_of_In%repeat_spec. Qed.

Lemma wide_ascii n : as_bytes (repeat 97%N n) = repeat 97%N n.
Proof. apply as_bytes_ascii. by apply wide_all. Qed.

Lemma wide_len : str_len wide_line = 1990%N.
Proof. unfold str_len, wide_line. rewrite wide_ascii, repeat_length. lia. Qed.

Lemma wide_row n : (1990 ≤ str_len (tagged_row MAX_RENDER_LINE_LENGTH n (RawLine wide_line Lf)).1)%N.
Proof.
  unfold tagged_row. cbn [content]. rewrite (from_utf8_lossy_valid wide_line wide_line).
  - unfold truncate_display_line. destruct (Nat.leb_spec (length wide_line) MAX_RENDER_LINE_LENGTH) as [Hl|Hl].
    + cbn [fst]. rewrite !str_len_app, wide_len. lia.
    + unfold wide_line in Hl. rewrite repeat_length in Hl. unfold MAX_RENDER_LINE_LENGTH in Hl. lia.
  - unfold wide_line. rewrite <-(wide_ascii (N.to_nat 1990)) at 1. apply from_utf8_as_bytes. by apply wide_all.
Qed.

(** The test for a faithful [head] or [tail] accepts twenty-four such lines, but the rows they become
    do not fit what the read shows, whatever its header. *)
Theorem faithful_read_exceeds_budget header total_lines :
  displayed_within 0 (repeat wide_line 24) = true
  ∧ (read_body_limit read_options header total_lines
     < foldr (λ n, N.add (str_len (tagged_row MAX_RENDER_LINE_LENGTH n (RawLine wide_line Lf)).1)) 0 (seq 1 24))%N.
Proof.
  split.
  - pose proof wide_len as Hl. generalize dependent wide_line. intros line Hl.
    cbn [repeat displayed_within]. rewrite !Hl. by vm_compute.
  - apply N.le_lt_trans with 40960%N.
    + unfold read_body_limit. cbn [reserved_bytes max_output_bytes read_options]. unfold MAX_RENDER_BYTES. simpl (10 * 1024 =? 0)%N. cbv iota. lia.
    + cbn [seq foldr]. pose proof wide_row as Hw.
      repeat match goal with |- context [tagged_row MAX_RENDER_LINE_LENGTH ?n _] => pose proof (Hw n); generalize dependent (str_len (tagged_row MAX_RENDER_LINE_LENGTH n (RawLine wide_line Lf)).1); intros end.
      lia.
Qed.

(** In a basic regular expression a backslash before [d] is a stray one and the pattern matches the
    letter; the test for a conflict of dialects lets it through to an engine where it is a class. *)
Theorem stray_escape_not_a_conflict :
  grep_basic_regex_has_dialect_conflict ([BACKSLASH] ++ lit "d") = false
  ∧ grep_request_from_parsed (λ _, true) (parse (lit "grep '" ++ [BACKSLASH] ++ lit "d' f")) (lit "grep")
    = Some (MkParams (Some ([BACKSLASH] ++ lit "d")) (Some true) (Some (lit "f")) None None None None None None
              None None None None None).
Proof. split; by vm_compute. Qed.

End BashReads.
